(* ===== verification/_CoqProject ===== *)
-Q . S2P
Prelude.v
Text.v
Ir.v
Effects.v
Redaction.v
ToolBatch.v
SubagentEvents.v
OrderedOutput.v
Estimate.v
Budget.v
Prune.v
Compaction.v
Spend.v
Assembly.v
Cache.v
DoomLoop.v
LiveEvents.v
Sse.v
Decimal.v
Timestamp.v
BudgetSums.v
Pricing.v
Router.v
JournalCatalog.v
Journal.v
JournalInv.v
JournalRecovery.v
JournalReads.v
JournalPages.v
BudgetLedger.v
BudgetAdmission.v
BudgetCaps.v
BudgetReplay.v
Toon.v
ShellSplit.v
BashSafety.v
PermissionRules.v
PermissionIdentity.v
CheckpointDisk.v
CheckpointStore.v
CheckpointRewind.v
CheckpointHistory.v
CheckpointBlobs.v
PermissionGate.v
PermissionSafety.v
PermissionHistory.v
Hooks.v
HookDispatch.v
ToolAdmission.v
ToolCalls.v
ToolCallSafety.v
FolderTrust.v
FolderTrustSafety.v
FolderTrustLedger.v
Config.v
ConfigValidation.v
ConfigLoad.v
ConfigSafety.v
Egress.v
EgressHello.v
EgressHttp.v
EgressProxy.v
EgressSafety.v
EgressRelay.v
EgressServe.v
