(* ===== verification/Prelude.v ===== *)
(** * A verification of the core of Rottweiler, a coding-agent harness

    Rottweiler runs a model in a loop: it assembles a bounded context from a
    durable conversation, sends it to a provider, runs the tool calls the model
    asks for under a permission policy, and streams what happens to clients.
    The development models the parts that carry its logic, translated from the
    Rust sources under [src/crates], and proves what makes them correct.

    ** Parts and files

    Shared layer.
    - [Prelude] (this file): machine integers, the [Result] type with its
      binding notation, sorting, list lemmas, tactics and hints.
    - [Text]: [str] as UTF-8 bytes with the methods the program uses.
    - [Ir]: JSON values, turns, blocks and tool outputs ([rw-types/src/ir.rs]).
    - [Decimal]: [u64::to_string], zero-padded fields and [str::parse].
    - [Effects]: programs over actions whose answers come from an environment
      ([Proc], [run]) and the rules of their weakest preconditions ([wp]).

    Permissions ([rw-core/src/permission*], [rw-tools/src/bash/safety*]).  A
    request goes through [authorize]: rules first, then modes, remembered
    approvals, and a prompt.
    - [ShellSplit]: the three command scanners, which must agree.
    - [BashSafety]: the built-in safe list ([classify], the git and search
      grammars).
    - [PermissionRules]: rule matching and shell canonicalisation.
    - [PermissionIdentity]: the key a remembered approval is bound to, and
      containment of workspace writes.
    - [PermissionGate]: the gate, its shared cells as a [World], the ledgers.
      [authorize] is [authorize_begin] and [authorize_finish], because the
      world can change while a prompt is open.
    - [PermissionSafety]: what no mode, hook or approval overrides.
    - [PermissionHistory]: steps of all gates of a process with open prompts
      and other processes, and the invariant of the remembered approvals.

    Running tools ([rw-core/src/engine]).
    - [Redaction]: secrets in JSON, tool outputs and streamed text.
    - [ToolBatch]: the scheduler [execute_tool_calls].  [Batch] is the local
      state of its loop, [step] one piece of an iteration; answers of awaited
      parts come with the event.
    - [OrderedOutput]: live output in call order, as a step relation over the
      interleaved pieces of [emit], [advance] and the consumer.
    - [SubagentEvents]: the durable records of child sessions in call order,
      as a step relation over the interleaved pieces of [lifecycle].
    - [DoomLoop]: the guard against repeated identical failures.
    - [LiveEvents]: the ring that delivers events to the subscribers, and its
      byte budget (Module [Credits]).
    - [Hooks] (definitions), [HookDispatch] (theorems): the hooks of extensions
      ([rw-ext/src/hook.rs], [rw-types/src/hook_contract.rs]): registration,
      the policy and the observer phase, readiness and failure policies.
    - [ToolAdmission]: the byte budgets of pending calls, approvals and results.
    - [ToolCalls] (definitions), [ToolCallSafety] (theorems): one tool call from
      the model's request to its result ([prepare_tool_call],
      [authorize_tool_call], [execute_prepared_tool]) with its hooks, prompts,
      revalidation, diff and checkpoint, as a [Proc]; the gate of
      [PermissionGate] decides and the hooks of [Hooks] are dispatched.

    Context ([rw-context/src]).
    - [Estimate], [Budget]: token estimates, reconciliation, overflow policy.
    - [Prune], [Compaction]: dropping old tool outputs, summarising.
    - [Assembly], [Cache]: the provider request with its stable prefix, the
      prepared variant, and the cache simulator.
    - [Spend]: the ledger with caps and alarms.
    - [Toon]: the compact prompt encoding and its allocation plan.

    Model calls ([rw-providers/src], [rw-core/src/provider_*]).
    - [Sse]: the event decoder over arbitrary byte chunks.
    - [Router]: aliases and candidates, the retry and failover loops of
      [stream_candidates] with cooldowns and delays, and the owned stream that
      holds its terminal back until the call is settled.
    - [Pricing]: price tables, the cost of a usage, and the bound that is
      reserved before a call.

    Durable state ([rw-store/src/session]).
    - [Timestamp]: the UTC calendar and the ordered keys of accounting.
    - [BudgetSums]: the Fenwick-style projections of the reservation ledger.
    - [BudgetLedger] (definitions), [BudgetAdmission] (invariant, abstract
      admission), [BudgetCaps] (histories), [BudgetReplay] (replayed calls):
      reserving, entering, completing and reconciling provider calls under
      session, tree and daily caps.
    - [JournalCatalog]: segment names and the chunked, bisected catalog.
    - [Journal]: the segmented journal: encoding, appending, sealing, opening,
      views, pages, prefixes, over a directory of names and files.
    - [JournalInv] (bytes), [JournalRecovery] (every outcome of an append and
      every crash), [JournalReads] (record reads, views, histories),
      [JournalPages] (pages, verification, prefixes, offline capture).
    - [CheckpointDisk], [CheckpointStore]: the saved contents of the files a
      turn changes and the return to an earlier turn ([rw-store/src/checkpoint*]),
      over a [Volume] with the workspace, metadata directories, blobs and their
      quota.  A [Machine] meets a fault at any system call: the call fails or
      the process dies.  [CheckpointRewind] (one rewind), [CheckpointHistory]
      (sessions of checkpoints, tools, turns and rewinds) and
      [CheckpointBlobs] (collection of blobs) hold the theorems.
    - [FolderTrust]: which project files may change what the agent executes, and
      whether the user has agreed to them ([rw-store/src/trust.rs],
      [rw-store/src/trust/inventory.rs]): the walk, the inventory and its hash,
      the ledger, its lock, granting and revoking.  [FolderTrustSafety] (the
      walk, what the hash identifies) and [FolderTrustLedger] (writers, trusted
      folders) hold the theorems.
    - [Config], [ConfigValidation], [ConfigLoad]: the layers of the settings,
      their validation and their loading ([rw-store/src/config*],
      [rw-types/src/config.rs]), with the theorems in [ConfigSafety].

    Network ([rw-sandbox/src/lib.rs], [rw-sandbox/src/proxy.rs]).  A sandboxed
    command reaches the network only through a proxy of the host.
    - [Egress]: the domain allow-list, the public addresses, the decision.
    - [EgressHello]: the server name of a TLS ClientHello.
    - [EgressHttp]: the HTTP headers, strictly read and rewritten.
    - [EgressProxy]: one connection, over a [World] of sockets that answer by
      scripts; [EgressSafety] (what is let out) and [EgressRelay] (what is
      carried) hold the theorems.
    - [EgressServe]: the accepting threads, the connection threads and the drop
      of the proxy, as interleaved steps on the state they share.

    ** What the theorems show

    - Permissions: an explicit deny is final; Discuss and Plan mode run nothing
      that is not read-only; a request is allowed at once only for one of the
      listed reasons; a change of workspace roots invalidates open prompts and
      session approvals are always those of the current roots; leaving the
      sandbox needs its own authority, for every command of the line; the rule
      decision refines its documented reading; two requests share a key exactly
      when they ask the same tool for the same thing in the same workspace, up to
      the order and repetition of the capabilities; an auto-safe write resolves, links included, inside a workspace
      root.
    - Shell: the scanners agree with each other and lose no byte; a segment of
      a command on the safe list names a program that resolves to a protected
      binary of that name, with arguments of an independently listed read-only
      form; git output is hardened.
    - Tool batches: results are committed in call order, each once; a mutation
      runs alone; a batch ends after a bounded number of steps, whatever the
      answers are; after a failure nothing new starts.
    - Output and events: chunks and subagent records arrive in call order and
      the current call is never starved; what the polls of a subscriber returned
      accounts for every published event, as itself, as the repair of a gap or
      as the error that ends the subscription, and a receiver waits only when
      it has been handed everything; a truncation is announced once.
    - Tool calls: a tool runs only with the arguments and the security that were
      authorized, and it is the tool the authorized name resolves to, whatever
      hooks and environment answer; a checkpoint
      that was opened is closed or reported; admitted results stay within the
      reserved bytes.
    - Hooks: a phase completes only when every policy hook that applies saw the
      final input and consented; the order of registration decides nothing.
    - Redaction: nothing the redactor hides reaches a string value of an output,
      and the keys that remain are shown as they are; a stream holds back what may still become a secret and ends as the redaction of the
      whole text.
    - Context: the assembled turns, the bytes of the stable prefix, exactly the
      accepted inputs, equality of prepared and full assembly, cache hits of a
      steady session, exact pruning plans, overflow decisions, estimates and
      snapshots at machine width, media-free compaction, spend stops, faithful
      prompt encoding.
    - Model calls: the consumer of a routed call sees the output of one attempt,
      a call is not retried once it has spoken, a terminal is seen only after
      the call has settled; the events of a response are those of its frames,
      however it is cut into chunks, up to the first chunk with an invalid
      frame, whose events are lost; the reserved charge covers every usage
      within the declared limits.
    - Budget: admission is exactly the abstract rule, caps are never overspent
      in any history with a monotone clock, receipts within the reserved charge
      and corrections that do not raise a charge (the example
      [correction_overspends] shows why), a provider is entered once and its
      call stays charged until a receipt with an amount is stored, reconciling does not depend on the
      order, and the projections are prefix sums.
    - Journal: acknowledged events survive every failure and crash and are read
      back under the sequence numbers the append returned, the journal always
      reopens and accepts appends until 65536 segments are sealed, captured
      views are immutable, prefix identities stay valid, a failed append is
      invisible, pages are exact and end, an offline capture is what the writer
      would recover.
    - Checkpoints: a rewind restores the manifests of the later turns newest
      first and is resumed after any number of failures and deaths until it is
      committed; every path then holds what the oldest later manifest recorded,
      and no other path of the workspace has changed, temporary files of the
      restoration apart.  A session that checkpoints
      before its tools write comes back to the end of any turn it has not given
      up.  The collector never deletes a blob that a published record needs.
    - Trust: a folder assessed as trusted has the inventory that was granted, up
      to a collision of the hash, and every governed file that is not reached
      through a link is in it, under its name with slashes for backslashes, with
      what it holds; concurrent writers that fail or die leave the outcome of their
      decisions one after the other; an assessment ends whatever links lead
      where.
    - Settings: a project's file changes no guarded section and, in a folder
      that is not trusted, nothing; what takes effect from a trusted folder is
      what was granted, as long as the folder still resolves to the workspace
      that was assessed; the source of a setting, provider fields apart, names
      the layer it comes from.
    - Network: a decision is exactly the listed domains and the addresses outside
      a table of reserved blocks (five reserved IPv6 blocks pass, the code does
      not know them); an address is tried or a byte sent only for a target the
      policy allowed with the answers of the one resolution that is used, a
      tunnel only after a ClientHello that names its host, a plain request only
      as one request without a body and with the headers that are harmless; the ClientHello parser accepts exactly its format;
      tunnels and responses are carried in order and within their bounds; at
      most 64 connections run, and the proxy reports its end only when every
      thread is done.

    ** Parameters

    Code that is not part of the repository is a class with what the program
    relies on: serde_json's writers ([JsonWriter], with [CompactJson] and
    [InjectiveJson] for its documented format, and [PrettyJson]), [Blake3],
    [ShellWords], [Glob], [UrlParser], the file system ([FileSystem],
    [ExecFiles]) and the functions of the toon_format crate.  [ContentDigest] and [MetadataJson]
    are the digest and the JSON documents of the checkpoints, [Layout] the sizes
    their read allowance counts.  [TrustJson] is the JSON document of the trust
    ledger, [HexDigests] says that a digest is written without NUL bytes, [Fs] is
    what the operating system answers during one assessment, [TomlConfig],
    [TuiJson], [UrlOf] and [StrDebug] are the TOML and JSON readers, the URL
    parser and [Debug] of a text.  [UrlCrate] (with [UrlLaws]), [TlsClient] and
    [Base64] are the URL, TLS and base64 libraries of the proxy.  [HookEncoding] is
    the encoded size of a hook's values.  [SecretRedactor]
    is the program's own trait: the theorems hold for every implementation.
    The answers of the environment of a [Proc] are an [Oracle], any function of
    the history.  [Codec] is the JSON codec of the journal: an envelope is one line and is
    read back.  The size of a ledger row, the answers of providers, the readings
    of clocks and what the operating system answers to each call of an append
    are arguments.  Witnesses instantiate them with concrete functions.

    ** Bounds and fuel

    Integers are [Z] with the wrapping, saturating or checked operation of the
    source.  Loops that are not structural have fuel, shown to be enough.
    [canonicalize_climb] climbs to an existing ancestor, one path component per
    round ([climb_fuel]).  [strip_leading] consumes a character per round.
    [poll_loop] passes a frame of the ring per round ([poll_loop_spec]).
    [dec_loop] has 20 rounds for the digits of a [u64] ([dec_loop_spec]).  The
    walks over the ledger's projections have [DATED_FUEL] (58) and
    [THROUGH_FUEL] (65) rounds, more than the bits of a key
    ([dated_loop_ends], [through_loop_ends]).  [drain] removes two bytes per
    round ([drain_fuel]).  [partition_loop] halves a range no longer than its
    fuel ([partition_loop_spec]).  [walk_entry] descends a level per round:
    [walk_bound] rounds suffice for the directories that can be listed, because
    a link never leads back into the descent ([assess_ends]).  [strip_repeated]
    removes a non-empty prefix per round.  [collect_loop] reads a page that is not
    empty per round ([collect_complete] never runs out).  The loops of the
    ClientHello pass an entry or a record per round ([hello_sni_exact],
    [hello_fuel_enough]), [relay_loop] a read that is not empty
    ([relay_loop_spec]), [reap_loop] a handle ([reap_loop_complete]).  A tunnel
    is followed for as many turns as are given.  [admission_exact]
    bounds the amounts and the number of calls so that 128-bit sums cannot
    overflow.

    ** Crashes

    A crash falls between two system calls of an append.  Earlier appends were
    synchronized, so that the active file holds their bytes and some first
    bytes of the batch; the rename of a sealed segment is atomic.  A writer is
    alone (the advisory lock is not modelled) and no other process writes to
    the journal's files.  A crash of a checkpoint or a rewind falls between or
    within system calls: a write may leave some first bytes, a rename is atomic,
    and what a call changed is there afterwards.  While a rewind is applied no
    other process changes the workspace.  A writer of the trust ledger dies at
    any point; the files of a folder may change between two assessments, and
    between the assessment of a load and its reading of the project's file, but
    not within one assessment.

    ** Atomicity

    [authorize_begin] reads the mode, the rules and the memory of its gate in one
    step; the code takes their locks one after another, so that a change by
    another task between two of them is not in the model.  The change of roots
    during a prompt is.  A ledger of approvals or rules is read and replaced
    under its lock in one step, with every way the write can end ([Persist]).
    The recovery of rewinds is a step per handle ([store_recovers]) or one
    operation.  In [EgressServe] a connection thread ends by returning: a panic
    of it is not modelled, nor the inner thread that [tunnel_unix_to_tcp] starts
    for one direction and joins before it returns.

    ** Not modelled

    Provider adapters, the tools themselves, the system calls of the sandbox,
    credentials and search indexes, plugin processes, the MCP client, the command line and the
    terminal interface: input and output around the modelled core.
    Presentation plans, payload owners, the semaphore of the hook runtime, the
    replay pool, the allocation plans of events, page proofs of the journal, the accounting
    totals, the floating-point jitter of retries, and of the checkpoints the
    commands with unknown effects, reviews and forks are left out of the
    modelled files.

    The text of the trust prompt, the rendering of the settings and their editing
    are left out too, and of the proxy the copying of the Linux relay and a
    failure to start its thread.

    What could follow: the orchestration queue, the resource pools, recovery and
    the transcript projection. *)
From Stdlib Require Export ZArith Lia.
From stdpp Require Export sorting strings gmap numbers.
From stdpp Require Export base tactics option list.

#[global] Open Scope Z_scope.

(** * Machine integers

    Rust [u64], [u128] and [usize] (a 64-bit word on every released target)
    are integers [Z] with their range as a predicate and their wrapping,
    saturating and checked operations written out. *)

Definition u8_max : Z := 2 ^ 8 - 1.
Definition u16_max : Z := 2 ^ 16 - 1.
Definition u64_max : Z := 2 ^ 64 - 1.
Definition u128_max : Z := 2 ^ 128 - 1.
Definition usize_max : Z := u64_max.

Definition u64 (x : Z) : Prop := 0 ≤ x ≤ u64_max.

(** [u64::saturating_add], [u64::saturating_sub], [u128::saturating_mul],
    [u128::saturating_add] *)
Definition sat_add (a b : Z) : Z := Z.min (a + b) u64_max.
Definition sat_sub (a b : Z) : Z := Z.max (a - b) 0.
Definition sat_mul128 (a b : Z) : Z := Z.min (a * b) u128_max.
Definition sat_add128 (a b : Z) : Z := Z.min (a + b) u128_max.

(** [usize::checked_add], [usize::checked_mul] *)
Definition checked_add (a b : Z) : option Z :=
  if a + b <=? usize_max then Some (a + b) else None.
Definition checked_mul (a b : Z) : option Z :=
  if a * b <=? usize_max then Some (a * b) else None.

(** [u64::try_from(x).unwrap_or(u64::MAX)] *)
Definition to_u64_or_max (x : Z) : Z := if x <=? u64_max then x else u64_max.
(** [u16::try_from(x).unwrap_or(u16::MAX)] *)
Definition to_u16_or_max (x : Z) : Z := if x <=? u16_max then x else u16_max.

(** [x.div_ceil(d)] on unsigned integers *)
Definition div_ceil (x d : Z) : Z := (x + d - 1) / d.

(** [x.clamp(lo, hi)] *)
Definition clamp (x lo hi : Z) : Z := if x <? lo then lo else if hi <? x then hi else x.

Create HintDb machine.
Implicit Types a b c d : Z.

Ltac unfold_machine :=
  unfold u64, sat_add, sat_sub, sat_mul128, sat_add128, to_u64_or_max, to_u16_or_max,
    clamp, u64_max, u128_max, u16_max in *.

(** Case analysis on every integer comparison of the goal and hypotheses,
    then linear arithmetic. *)
Ltac machine_lia :=
  unfold_machine;
  repeat match goal with
  | |- context [?a <=? ?b] => destruct (Z.leb_spec a b)
  | |- context [?a <? ?b] => destruct (Z.ltb_spec a b)
  | H : context [?a <=? ?b] |- _ => destruct (Z.leb_spec a b)
  | H : context [?a <? ?b] |- _ => destruct (Z.ltb_spec a b)
  end; try lia.

Lemma u64_sat_add a b : u64 a → u64 b → u64 (sat_add a b).
Proof. machine_lia. Qed.
Lemma sat_add_exact a b : a + b ≤ u64_max → sat_add a b = a + b.
Proof. machine_lia. Qed.
Lemma sat_add_le_mono a b c d : a ≤ c → b ≤ d → sat_add a b ≤ sat_add c d.
Proof. machine_lia. Qed.
Lemma sat_add_ge_l a b : u64 a → 0 ≤ b → a ≤ sat_add a b.
Proof. machine_lia. Qed.
Lemma sat_add_comm a b : sat_add a b = sat_add b a.
Proof. machine_lia. Qed.
Lemma sat_add_assoc a b c :
  0 ≤ a → 0 ≤ b → 0 ≤ c → sat_add (sat_add a b) c = sat_add a (sat_add b c).
Proof. machine_lia. Qed.
Lemma sat_add_min a c :
  0 ≤ c → sat_add (Z.min a u64_max) c = Z.min (a + c) u64_max.
Proof. machine_lia. Qed.
Lemma u64_zero : u64 0.
Proof. machine_lia. Qed.
#[export] Hint Resolve u64_sat_add u64_zero sat_add_ge_l : machine.

(** A saturating left fold is the exact sum cut off at [u64::MAX]. *)
Definition sum_Z (l : list Z) : Z := foldr Z.add 0 l.

Lemma sum_Z_nonneg l : Forall (λ x, 0 ≤ x) l → 0 ≤ sum_Z l.
Proof. induction 1; simpl; lia. Qed.
Lemma sum_Z_app l k : sum_Z (l ++ k) = sum_Z l + sum_Z k.
Proof. induction l; simpl; lia. Qed.
Lemma sum_Z_perm l k : l ≡ₚ k → sum_Z l = sum_Z k.
Proof. induction 1; simpl; lia. Qed.

Lemma sat_fold_sum l a :
  0 ≤ a → Forall (λ x, 0 ≤ x) l →
  foldl sat_add (Z.min a u64_max) l = Z.min (a + sum_Z l) u64_max.
Proof.
  intros Ha Hl; revert a Ha; induction Hl as [|x l Hx Hl IH]; intros a Ha; simpl.
  - f_equal; lia.
  - rewrite sat_add_min by done. rewrite IH by lia. f_equal; lia.
Qed.

(** [Option::is_some] *)
Definition is_some {A} (o : option A) : bool := match o with Some _ => true | None => false end.

(** * Results *)

Inductive Result (A E : Type) : Type :=
| Ok (a : A)
| Err (e : E).
Arguments Ok {A E} a.
Arguments Err {A E} e.

Definition is_ok {A E} (r : Result A E) : bool :=
  match r with Ok _ => true | Err _ => false end.

(** [option::ok_or] and Rust's [?] on [Result] *)
Definition ok_or {A E} (o : option A) (e : E) : Result A E :=
  match o with Some a => Ok a | None => Err e end.

Declare Scope result_scope.
Delimit Scope result_scope with result.
Notation "'let?' x := e 'in' k" :=
  (match e with Ok x => k | Err err => Err err end)
  (at level 10, x pattern, e at level 200, k at level 200) : result_scope.
#[global] Open Scope result_scope.

#[global] Instance Result_eq_dec {A E} `{EqDecision A, EqDecision E} : EqDecision (Result A E).
Proof. solve_decision. Defined.

(** * Stable sorting

    [slice::sort_by] is a stable sort. [stable_sort le] is the stable
    insertion sort for a comparison [le]; on a total preorder its result is
    the sorted permutation that keeps the input order of equivalent elements. *)

Section stable_sort.
Context {A : Type} (le : A → A → bool).

Fixpoint insert_by (x : A) (l : list A) : list A :=
  match l with
  | [] => [x]
  | y :: l' => if le x y then x :: l else y :: insert_by x l'
  end.

Fixpoint stable_sort (l : list A) : list A :=
  match l with
  | [] => []
  | x :: l' => insert_by x (stable_sort l')
  end.

Lemma insert_by_perm x l : insert_by x l ≡ₚ x :: l.
Proof.
  induction l as [|y l IH]; simpl; [done|].
  destruct (le x y); [done|]. rewrite IH. apply Permutation_swap.
Qed.

Lemma stable_sort_perm l : stable_sort l ≡ₚ l.
Proof. induction l as [|x l IH]; simpl; [done|]. by rewrite insert_by_perm, IH. Qed.

Lemma length_stable_sort l : length (stable_sort l) = length l.
Proof. apply Permutation_length, stable_sort_perm. Qed.

Context (le_total : ∀ x y, le x y = true ∨ le y x = true).
Context (le_trans : ∀ x y z, le x y = true → le y z = true → le x z = true).

Lemma insert_by_sorted x l :
  StronglySorted (λ u v, le u v = true) l →
  StronglySorted (λ u v, le u v = true) (insert_by x l).
Proof.
  induction 1 as [|y l Hl IH Hy]; simpl; [repeat constructor|].
  destruct (le x y) eqn:E.
  - constructor; [by constructor|]. constructor; [done|].
    eapply Forall_impl; [exact Hy|]. simpl; eauto.
  - constructor; [done|]. rewrite insert_by_perm.
    constructor; [|done]. destruct (le_total x y); congruence.
Qed.

Lemma stable_sort_sorted l : StronglySorted (λ u v, le u v = true) (stable_sort l).
Proof. induction l; simpl; [constructor|]. by apply insert_by_sorted. Qed.

(** A list that is already sorted is left as it is. *)
Lemma stable_sort_id l :
  StronglySorted (λ u v, le u v = true) l → stable_sort l = l.
Proof.
  induction 1 as [|x l Hl IH Hx]; simpl; [done|]. rewrite IH.
  destruct l as [|y l]; simpl; [done|].
  apply Forall_cons_1 in Hx as [-> _]. done.
Qed.

(** Stability: sorting commutes with filtering by a predicate that is
    constant on the classes of [le]-equivalent elements. *)
Lemma filter_insert_by_out (f : A → bool) x l :
  f x = false → List.filter f (insert_by x l) = List.filter f l.
Proof.
  intros Hx. induction l as [|y l IH]; simpl; [by rewrite Hx|].
  destruct (le x y); simpl; [by rewrite Hx|]. by rewrite IH.
Qed.

Lemma filter_insert_by_in (f : A → bool) x l :
  f x = true →
  (∀ y, f y = true → le x y = true) →
  List.filter f (insert_by x l) = x :: List.filter f l.
Proof.
  intros Hx Hle. induction l as [|y l IH]; simpl; [by rewrite Hx|].
  destruct (le x y) eqn:E; simpl; [by rewrite Hx|].
  destruct (f y) eqn:Ey; [|done]. rewrite Hle in E; done.
Qed.

Lemma stable_sort_stable (f : A → bool) l :
  (∀ x y, f x = true → f y = true → le x y = true) →
  List.filter f (stable_sort l) = List.filter f l.
Proof.
  intros Hf. induction l as [|x l IH]; simpl; [done|].
  destruct (f x) eqn:Ex.
  - rewrite filter_insert_by_in by eauto. by rewrite IH.
  - by rewrite filter_insert_by_out, IH.
Qed.

(** Two sorted permutations agree when [le] is antisymmetric on them. *)
Lemma stable_sort_unique l k :
  (∀ x y, x ∈ l → y ∈ l → le x y = true → le y x = true → x = y) →
  l ≡ₚ k → stable_sort l = stable_sort k.
Proof.
  intros Hanti Hperm.
  eapply (StronglySorted_unique_strong (λ u v, le u v = true));
    [|apply stable_sort_sorted|apply stable_sort_sorted|].
  - intros x y Hx Hy. rewrite stable_sort_perm in Hx.
    rewrite stable_sort_perm, <- Hperm in Hy. by apply Hanti.
  - by rewrite !stable_sort_perm.
Qed.
End stable_sort.

(** [Vec::dedup]: drop the elements equal to their predecessor. *)
Fixpoint dedup {A} `{EqDecision A} (l : list A) : list A :=
  match l with
  | x :: ((y :: _) as l') => if decide (x = y) then dedup l' else x :: dedup l'
  | _ => l
  end.

(** * Sublists *)

Lemma Forall_sublist {A} (P : A → Prop) l k : l `sublist_of` k → Forall P k → Forall P l.
Proof. intros Hs. rewrite !Forall_forall. intros H x Hx. apply H. by eapply elem_of_sublist. Qed.

Lemma sublist_reverse {A} (l k : list A) : l `sublist_of` k → reverse l `sublist_of` reverse k.
Proof.
  induction 1; [done| |]; rewrite ?reverse_cons.
  - by apply sublist_app.
  - by apply sublist_inserts_r.
Qed.

Lemma StronglySorted_sublist {A} (R : A → A → Prop) l k :
  l `sublist_of` k → StronglySorted R k → StronglySorted R l.
Proof.
  induction 1 as [|x l k Hs IH|x l k Hs IH]; intros Hk; [done| |]; inversion Hk; subst; auto.
  constructor; auto. by eapply Forall_sublist.
Qed.

Lemma Forall_filter_bool {A} (P : A → Prop) (f : A → bool) l :
  Forall P l → Forall P (List.filter f l).
Proof. induction 1; simpl; [constructor|]. case_match; auto. Qed.
Lemma filter_all {A} (f : A → bool) l : Forall (λ x, f x = true) l → List.filter f l = l.
Proof. induction 1 as [|x l Hx Hl IH]; simpl; [done|]. by rewrite Hx, IH. Qed.
