(* ===== verification/Text.v ===== *)
(** Rust [str] as the UTF-8 byte string it is: [String.string] is a list of
    bytes, so [len()] is its length, [Ord] on [str] is the byte order
    [String.leb], and the [str] methods the program uses are the functions
    below.  Methods that walk characters use [utf8_chars]. *)
From S2P Require Import Prelude.
From Stdlib Require Import Ascii.

#[global] Open Scope string_scope.
#[global] Open Scope Z_scope.

Definition str_len (s : string) : Z := Z.of_nat (String.length s).

Definition is_empty (s : string) : bool := String.eqb s "".

(** [starts_with], [ends_with] and [contains] with a [str] pattern *)
Definition starts_with (p s : string) : bool := String.prefix p s.
Definition ends_with (p s : string) : bool := String.prefix (String.rev p) (String.rev s).
Fixpoint str_contains (p s : string) : bool :=
  String.prefix p s ||
  match s with "" => false | String _ s' => str_contains p s' end.

(** [contains] with an array of ASCII characters *)
Definition char_in (cs : string) (c : ascii) : bool :=
  existsb (Ascii.eqb c) (String.list_ascii_of_string cs).
Definition contains_any (cs s : string) : bool :=
  existsb (char_in cs) (String.list_ascii_of_string s).

(** [split_once(c)]: the text before and after the first [c] *)
Fixpoint split_once (c : ascii) (s : string) : option (string * string) :=
  match s with
  | "" => None
  | String d s' =>
      if Ascii.eqb d c then Some ("", s')
      else match split_once c s' with
           | Some (a, b) => Some (String d a, b)
           | None => None
           end
  end.

(** [split(c)]: the (possibly empty) fields between occurrences of [c] *)
Fixpoint split_char (c : ascii) (s : string) : list string :=
  match s with
  | "" => [""]
  | String d s' =>
      if Ascii.eqb d c then "" :: split_char c s'
      else match split_char c s' with
           | f :: fs => String d f :: fs
           | [] => [String d ""]
           end
  end.

(** [find(c)] then slicing at it: the text before and after [c] *)
Definition byte (n : nat) : ascii := ascii_of_nat n.

Definition is_ascii_alphanumeric (c : ascii) : bool :=
  let n := nat_of_ascii c in
  ((48 <=? n) && (n <=? 57) || (65 <=? n) && (n <=? 90) || (97 <=? n) && (n <=? 122))%nat.

Definition ascii_lower (c : ascii) : ascii :=
  let n := nat_of_ascii c in
  if ((65 <=? n) && (n <=? 90))%nat then ascii_of_nat (n + 32) else c.
Fixpoint to_ascii_lowercase (s : string) : string :=
  match s with "" => "" | String c s' => String (ascii_lower c) (to_ascii_lowercase s') end.

Fixpoint str_all (f : ascii → bool) (s : string) : bool :=
  match s with "" => true | String c s' => f c && str_all f s' end.

(** [trim_start_matches(c)] and [trim_end_matches(c)] *)
Fixpoint trim_start_matches (c : ascii) (s : string) : string :=
  match s with
  | String d s' => if Ascii.eqb d c then trim_start_matches c s' else s
  | "" => ""
  end.
Definition trim_end_matches (c : ascii) (s : string) : string :=
  String.rev (trim_start_matches c (String.rev s)).

(** The characters with the Unicode property [White_Space], in UTF-8:
    U+0009..U+000D, U+0020, U+0085, U+00A0, U+1680, U+2000..U+200A, U+2028,
    U+2029, U+202F, U+205F and U+3000. *)
Definition utf8 (l : list nat) : string := String.string_of_list_ascii (map ascii_of_nat l).
Definition white_space : list string :=
  ((map (λ n, utf8 [n]) [9; 10; 11; 12; 13; 32])%nat ++
  (map (λ n, utf8 [194; n]) [133; 160])%nat ++ [utf8 [225; 154; 128]%nat] ++
  (map (λ n, utf8 [226; 128; n])
       [128; 129; 130; 131; 132; 133; 134; 135; 136; 137; 138; 168; 169; 175])%nat ++
  [utf8 [226; 129; 159]%nat; utf8 [227; 128; 128]%nat])%list.

(** Remove one leading pattern of [ps], as long as there is one; a byte is
    consumed at each step, so the length of the text bounds the steps. *)
Fixpoint strip_leading (fuel : nat) (ps : list string) (s : string) : string :=
  match fuel with
  | O => s
  | S fuel' =>
      match list_find (λ p, String.prefix p s = true) ps with
      | Some (_, p) =>
          strip_leading fuel' ps (String.substring (String.length p) (String.length s) s)
      | None => s
      end
  end.
Definition trim_start (s : string) : string := strip_leading (String.length s) white_space s.
Definition trim_end (s : string) : string :=
  String.rev (strip_leading (String.length s) (map String.rev white_space) (String.rev s)).
(** [str::trim] *)
Definition trim (s : string) : string := trim_end (trim_start s).

(** [value.trim().is_empty()] *)
Definition is_blank (s : string) : bool := is_empty (trim s).

(** The characters of a text, each as its UTF-8 bytes: a byte 10xxxxxx
    continues the character before it. *)
Definition is_continuation (c : ascii) : bool :=
  let n := nat_of_ascii c in ((128 <=? n) && (n <? 192))%nat.
Fixpoint utf8_chars (s : string) : list string :=
  match s with
  | "" => []
  | String c s' =>
      match utf8_chars s', s' with
      | ch :: chs, String d _ =>
          if is_continuation d then String c ch :: chs else String c "" :: ch :: chs
      | _, _ => [String c ""]
      end
  end.

(** [<[String]>::join(" ")] *)
Definition join (sep : string) (l : list string) : string := String.concat sep l.

Example trim_example : trim (" a b" ++ utf8 [226; 128; 131; 10]%nat) = "a b".
Proof. reflexivity. Qed.
Example utf8_chars_example : utf8_chars ("a" ++ utf8 [195; 169]%nat ++ "b") =
  ["a"; utf8 [195; 169]%nat; "b"].
Proof. reflexivity. Qed.

(** * Order on texts *)

Lemma string_leb_total s1 s2 : String.leb s1 s2 = true ∨ String.leb s2 s1 = true.
Proof.
  destruct (String.le_total s1 s2) as [H|H]; apply Is_true_eq_true in H; auto.
Qed.
Lemma string_leb_trans s1 s2 s3 :
  String.leb s1 s2 = true → String.leb s2 s3 = true → String.leb s1 s3 = true.
Proof.
  intros H1 H2. apply Is_true_eq_true. apply Is_true_eq_left in H1, H2.
  change (String.le s1 s3). by transitivity s2.
Qed.
Lemma string_leb_antisym s1 s2 :
  String.leb s1 s2 = true → String.leb s2 s1 = true → s1 = s2.
Proof.
  intros H1 H2. apply Is_true_eq_left in H1, H2.
  by apply (anti_symm String.le).
Qed.
Lemma str_len_nonneg s : 0 ≤ str_len s.
Proof. unfold str_len; lia. Qed.
Lemma str_len_app s1 s2 : str_len (s1 ++ s2)%string = str_len s1 + str_len s2.
Proof.
  unfold str_len. induction s1 as [|c s1 IH]; [done|].
  change (String c s1 +:+ s2) with (String c (s1 +:+ s2)). cbn [String.length]. lia.
Qed.
#[export] Hint Resolve string_leb_total string_leb_trans string_leb_antisym str_len_nonneg : machine.

(** * Slices *)

(** [&s[..n]] and [&s[n..]] *)
Fixpoint str_take (n : nat) (s : string) : string :=
  match n, s with
  | S n', String c s' => String c (str_take n' s')
  | _, _ => ""
  end.
Fixpoint str_drop (n : nat) (s : string) : string :=
  match n, s with
  | S n', String _ s' => str_drop n' s'
  | _, _ => s
  end.
(** [strip_prefix] *)
Definition strip_prefix (p s : string) : option string :=
  if starts_with p s then Some (str_drop (String.length p) s) else None.

Lemma str_app_assoc (s t u : string) : ((s ++ t) ++ u)%string = (s ++ t ++ u)%string.
Proof. induction s as [|c s IH]; [done|]. change (String c ((s ++ t) ++ u) = String c (s ++ t ++ u)). by rewrite IH. Qed.
Lemma str_length_app (s t : string) : String.length (s ++ t) = (String.length s + String.length t)%nat.
Proof.
  induction s as [|c s IH]; [done|]. change (S (String.length (s ++ t)) = S (String.length s + String.length t)).
  by rewrite IH.
Qed.
Lemma str_app_nil_l (s : string) : ("" ++ s)%string = s.
Proof. done. Qed.
Lemma str_app_nil_r (s : string) : (s ++ "")%string = s.
Proof. induction s as [|c s IH]; [done|]. change (String c (s ++ "") = String c s). by rewrite IH. Qed.
Lemma str_take_drop n s : (str_take n s ++ str_drop n s)%string = s.
Proof.
  revert s. induction n as [|n IH]; intros [|c s]; try done.
  change (String c (str_take n s ++ str_drop n s) = String c s). by rewrite IH.
Qed.
Lemma str_take_app_le n s t : (n ≤ String.length s)%nat → str_take n (s ++ t) = str_take n s.
Proof.
  revert s. induction n as [|n IH]; intros [|c s] Hn; try done; simpl in *; [lia|].
  f_equal. apply IH. lia.
Qed.
Lemma str_drop_app s t : str_drop (String.length s) (s ++ t) = t.
Proof. induction s as [|c s IH]; [by destruct t|]. exact IH. Qed.
Lemma str_take_take n m s : (n ≤ m)%nat → str_take n (str_take m s) = str_take n s.
Proof.
  revert m s. induction n as [|n IH]; intros [|m] [|c s] H; try done; [lia|].
  simpl. f_equal. apply IH. lia.
Qed.
Lemma length_str_take n s : (n ≤ String.length s)%nat → String.length (str_take n s) = n.
Proof.
  revert s. induction n as [|n IH]; intros [|c s] H; try done; simpl in *; [lia|].
  f_equal. apply IH. lia.
Qed.

(** [starts_with] finds exactly the decompositions. *)
Lemma starts_with_spec p s : starts_with p s = true ↔ ∃ t, s = (p ++ t)%string.
Proof.
  unfold starts_with. revert s. induction p as [|c p IH]; intros s.
  - split; [intros _; by exists s|]. by destruct s.
  - destruct s as [|d s]; simpl; [split; [done|intros [t Ht]; discriminate Ht]|].
    destruct (ascii_dec c d) as [->|Hne].
    + rewrite IH. split; intros [t Ht]; exists t.
      * rewrite Ht. done.
      * by injection Ht.
    + split; [done|]. intros [t Ht]. injection Ht. congruence.
Qed.

(** [strip_suffix] *)
Fixpoint strip_suffix (p s : string) : option string :=
  if String.eqb s p then Some ""
  else match s with
       | "" => None
       | String c s' => option_map (String c) (strip_suffix p s')
       end.
Lemma strip_suffix_app p s : strip_suffix p (s ++ p)%string = Some s.
Proof.
  induction s as [|c s IH].
  - change ("" ++ p)%string with p. destruct p as [|c p]; cbn [strip_suffix]; by rewrite String.eqb_refl.
  - change (String c s ++ p)%string with (String c (s ++ p)). cbn [strip_suffix]. rewrite IH. cbn [option_map].
    destruct (String.eqb_spec (String c (s ++ p)) p) as [H|]; [|done].
    exfalso. apply (f_equal String.length) in H. cbn [String.length] in H. rewrite str_length_app in H. lia.
Qed.
Lemma strip_suffix_inv p s t : strip_suffix p s = Some t → s = (t ++ p)%string.
Proof.
  revert t. induction s as [|c s IH]; intros t; cbn [strip_suffix]; case_match eqn:E.
  - apply String.eqb_eq in E as <-. by intros [= <-].
  - done.
  - apply String.eqb_eq in E as <-. by intros [= <-].
  - destruct (strip_suffix p s) as [x|]; cbn; [|done]. intros [= <-]. rewrite (IH x) by done. done.
Qed.
Lemma strip_prefix_app p s : strip_prefix p (p ++ s)%string = Some s.
Proof. unfold strip_prefix. rewrite (proj2 (starts_with_spec _ _)) by by eexists. by rewrite str_drop_app. Qed.
Lemma strip_prefix_inv p s rest : strip_prefix p s = Some rest → s = (p ++ rest)%string.
Proof.
  unfold strip_prefix. destruct (starts_with p s) eqn:E; [|done]. apply starts_with_spec in E as [t ->]. intros [= <-].
  by rewrite str_drop_app.
Qed.

(** * A text as its list of bytes *)

Lemma ascii_list_inj s t : String.list_ascii_of_string s = String.list_ascii_of_string t → s = t.
Proof. intros H. rewrite <- (String.string_of_list_ascii_of_string s), H. apply String.string_of_list_ascii_of_string. Qed.
Lemma ascii_list_app s t : String.list_ascii_of_string (s ++ t)%string = (String.list_ascii_of_string s ++ String.list_ascii_of_string t)%list.
Proof.
  induction s as [|c s IH]; [done|]. change (String c s ++ t)%string with (String c (s ++ t)). cbn. by rewrite IH.
Qed.
Lemma length_ascii_list s : length (String.list_ascii_of_string s) = String.length s.
Proof. induction s as [|c s IH]; cbn; [done|]. by rewrite IH. Qed.
Lemma ascii_list_rev s : String.list_ascii_of_string (String.rev s) = rev (String.list_ascii_of_string s).
Proof.
  unfold String.rev. rewrite <- (app_nil_r (rev _)). change (@nil ascii) with (String.list_ascii_of_string ""). generalize "" as t.
  induction s as [|c s IH]; intros t; cbn; [done|]. rewrite IH. cbn. by rewrite <- app_assoc.
Qed.
Lemma str_rev_involutive s : String.rev (String.rev s) = s.
Proof. apply ascii_list_inj. by rewrite !ascii_list_rev, rev_involutive. Qed.
Lemma str_rev_app s t : String.rev (s ++ t)%string = (String.rev t ++ String.rev s)%string.
Proof. apply ascii_list_inj. by rewrite ascii_list_app, !ascii_list_rev, ascii_list_app, rev_app_distr. Qed.
Lemma str_all_Forall f s : str_all f s = true ↔ Forall (λ c, f c = true) (String.list_ascii_of_string s).
Proof.
  induction s as [|c s IH]; cbn; [done|]. rewrite andb_true_iff, IH. split; [by intros []; constructor|].
  by inversion_clear 1.
Qed.
Lemma str_all_app f s t : str_all f (s ++ t)%string = str_all f s && str_all f t.
Proof.
  induction s as [|c s IH]; [done|]. change (String c s ++ t)%string with (String c (s ++ t)). cbn.
  by rewrite IH, andb_assoc.
Qed.
Lemma str_all_rev f s : str_all f s = true → str_all f (String.rev s) = true.
Proof. rewrite !str_all_Forall, ascii_list_rev. apply List.Forall_rev. Qed.
Lemma ends_with_spec p s : ends_with p s = true ↔ ∃ t, s = (t ++ p)%string.
Proof.
  unfold ends_with. change (String.prefix ?a ?b) with (starts_with a b). rewrite starts_with_spec. split.
  - intros [t H]. exists (String.rev t). rewrite <- (str_rev_involutive s), H, str_rev_app. by rewrite str_rev_involutive.
  - intros [t ->]. exists (String.rev t). by rewrite str_rev_app.
Qed.
Lemma str_all_impl (f g : ascii → bool) s :
  (∀ c, f c = true → g c = true) → str_all f s = true → str_all g s = true.
Proof. intros Hfg. rewrite !str_all_Forall. intros H. eapply Forall_impl; [exact H|exact Hfg]. Qed.

(** The texts of a list, one after the other *)
Abbreviation str_concat l := (String.concat "" l).
Lemma str_concat_cons c l : str_concat (c :: l) = (c ++ str_concat l)%string.
Proof. destruct l; cbn [String.concat]; [by rewrite str_app_nil_r|done]. Qed.
Lemma str_concat_app l k : str_concat (l ++ k)%list = (str_concat l ++ str_concat k)%string.
Proof. induction l as [|c l IH]; [done|]. cbn [app]. by rewrite !str_concat_cons, IH, str_app_assoc. Qed.
Lemma str_take_all n s : (String.length s ≤ n)%nat → str_take n s = s.
Proof. revert n. induction s as [|x s IH]; intros [|n] Hn; cbn in *; try done; [lia|]. by rewrite IH by lia. Qed.
Lemma str_drop_all n s : (String.length s ≤ n)%nat → str_drop n s = "".
Proof. revert n. induction s as [|x s IH]; intros [|n] Hn; cbn in *; try done; [lia|]. by rewrite IH by lia. Qed.
