(* ===== verification/Ir.v ===== *)
(** Conversation IR ([rw-types/src/ir.rs]), the JSON values it carries and the
    tool definitions of [rw-providers/src/types.rs]. *)
From S2P Require Import Prelude Text.

(** * JSON values

    [serde_json::Value] as the program uses it: objects are insertion-ordered
    maps (the workspace enables [preserve_order]), modelled as association
    lists; [==] on values ignores the order of object entries. *)

Inductive JsonNumber : Type :=
| PosInt (n : Z)
| NegInt (n : Z)
| FloatBits (bits : Z).

Inductive Value : Type :=
| JNull
| JBool (b : bool)
| JNumber (n : JsonNumber)
| JString (s : string)
| JArray (values : list Value)
| JObject (entries : list (string * Value)).

#[global] Instance JsonNumber_eq_dec : EqDecision JsonNumber.
Proof. solve_decision. Defined.

Section Value_induction.
Context (P : Value → Prop).
Context (Hnull : P JNull) (Hbool : ∀ b, P (JBool b)) (Hnum : ∀ n, P (JNumber n)).
Context (Hstr : ∀ s, P (JString s)).
Context (Harr : ∀ l, Forall P l → P (JArray l)).
Context (Hobj : ∀ m, Forall (λ e, P e.2) m → P (JObject m)).

Fixpoint Value_ind' (v : Value) : P v :=
  match v with
  | JNull => Hnull
  | JBool b => Hbool b
  | JNumber n => Hnum n
  | JString s => Hstr s
  | JArray l =>
      Harr l ((fix go l : Forall P l :=
                 match l with
                 | [] => List.Forall_nil _
                 | x :: l' => List.Forall_cons _ x l' (Value_ind' x) (go l')
                 end) l)
  | JObject m =>
      Hobj m ((fix go m : Forall (λ e, P e.2) m :=
                 match m with
                 | [] => List.Forall_nil _
                 | e :: m' => List.Forall_cons _ e m' (Value_ind' e.2) (go m')
                 end) m)
  end.
End Value_induction.

Definition is_object (v : Value) : bool := match v with JObject _ => true | _ => false end.
Definition is_array (v : Value) : bool := match v with JArray _ => true | _ => false end.

(** [Value::as_str], [Value::as_array], [Value::as_object] *)
Definition as_str (v : Value) : option string :=
  match v with JString s => Some s | _ => None end.
Definition as_array (v : Value) : option (list Value) :=
  match v with JArray l => Some l | _ => None end.
Definition as_object (v : Value) : option (list (string * Value)) :=
  match v with JObject m => Some m | _ => None end.

(** [Map::get] and [Map::insert]: an existing key keeps its place. *)
Fixpoint map_get {A} (k : string) (m : list (string * A)) : option A :=
  match m with
  | [] => None
  | (k', v) :: m' => if String.eqb k k' then Some v else map_get k m'
  end.
Fixpoint map_insert {A} (k : string) (v : A) (m : list (string * A)) : list (string * A) :=
  match m with
  | [] => [(k, v)]
  | (k', v') :: m' => if String.eqb k k' then (k', v) :: m' else (k', v') :: map_insert k v m'
  end.

(** [Value::get] with a string index *)
Definition value_get (v : Value) (k : string) : option Value :=
  match v with JObject m => map_get k m | _ => None end.

(** [==]: arrays elementwise, objects by key whatever their order *)
Fixpoint json_eqb (v w : Value) {struct v} : bool :=
  match v, w with
  | JNull, JNull => true
  | JBool a, JBool b => Bool.eqb a b
  | JNumber a, JNumber b => bool_decide (a = b)
  | JString a, JString b => String.eqb a b
  | JArray l, JArray k =>
      (fix go (l k : list Value) : bool :=
         match l, k with
         | [], [] => true
         | x :: l', y :: k' => json_eqb x y && go l' k'
         | _, _ => false
         end) l k
  | JObject m, JObject n =>
      Nat.eqb (length m) (length n) &&
      (fix go (m : list (string * Value)) : bool :=
         match m with
         | [] => true
         | (k, x) :: m' =>
             match map_get k n with Some y => json_eqb x y | None => false end && go m'
         end) m
  | _, _ => false
  end.

(** Every object of the value has distinct keys, the invariant of [Map]. *)
Fixpoint json_wf (v : Value) : Prop :=
  match v with
  | JArray l => (fix go l := match l with [] => True | x :: l' => json_wf x ∧ go l' end) l
  | JObject m =>
      NoDup m.*1 ∧ (fix go m := match m with [] => True | e :: m' => json_wf e.2 ∧ go m' end) m
  | _ => True
  end.

Lemma json_wf_array l : json_wf (JArray l) ↔ Forall json_wf l.
Proof.
  simpl. induction l as [|x l IH]; split; intros H; try done.
  - destruct H as [Hx Hl]. constructor; [done|]. by apply IH.
  - apply Forall_cons_1 in H as [Hx Hl]. split; [done|]. by apply IH.
Qed.
Lemma json_wf_object m : json_wf (JObject m) ↔ NoDup m.*1 ∧ Forall (λ e, json_wf e.2) m.
Proof.
  simpl. apply and_iff_compat_l. induction m as [|e m IH]; split; intros H; try done.
  - destruct H as [He Hm]. constructor; [done|]. by apply IH.
  - apply Forall_cons_1 in H as [He Hm]. split; [done|]. by apply IH.
Qed.

Lemma json_eqb_array l k :
  json_eqb (JArray l) (JArray k) = true ↔ Forall2 (λ x y, json_eqb x y = true) l k.
Proof.
  simpl. revert k. induction l as [|x l IH]; intros [|y k]; split; intros H;
    try done; try (by inversion H).
  - apply andb_true_iff in H as [Hx Hl]. constructor; [done|]. by apply IH.
  - inversion H; subst. apply andb_true_iff. split; [done|]. by apply IH.
Qed.
Lemma json_eqb_object m n :
  json_eqb (JObject m) (JObject n) = true ↔
  length m = length n ∧
  Forall (λ e, ∃ y, map_get e.1 n = Some y ∧ json_eqb e.2 y = true) m.
Proof.
  simpl. rewrite andb_true_iff, Nat.eqb_eq. apply and_iff_compat_l.
  induction m as [|[k x] m IH]; split; intros H; try done.
  - apply andb_true_iff in H as [Hx Hm]. constructor; [|by apply IH]. simpl.
    destruct (map_get k n) as [y|]; [|done]. by exists y.
  - apply Forall_cons_1 in H as [(y & Hy & Hxy) Hm]. simpl in *. rewrite Hy.
    apply andb_true_iff. split; [done|]. by apply IH.
Qed.

Lemma map_get_elem {A} k (v : A) m : map_get k m = Some v → (k, v) ∈ m.
Proof.
  induction m as [|[k' v'] m IH]; simpl; [done|].
  destruct (String.eqb_spec k k') as [->|Hne]; intros H; simplify_eq.
  - constructor.
  - constructor. by apply IH.
Qed.
Lemma map_get_NoDup {A} k (v : A) m : NoDup m.*1 → (k, v) ∈ m → map_get k m = Some v.
Proof.
  induction m as [|[k' v'] m IH]; simpl; intros Hnd Hin; [by inversion Hin|].
  apply NoDup_cons in Hnd as [Hk' Hnd]. apply elem_of_cons in Hin as [Heq|Hin].
  - simplify_eq. by rewrite String.eqb_refl.
  - destruct (String.eqb_spec k k') as [->|Hne]; [|by apply IH].
    exfalso. apply Hk'. apply list_elem_of_fmap. by exists (k', v).
Qed.
Lemma map_insert_fresh {A} k (v : A) m : k ∉ m.*1 → map_insert k v m = (m ++ [(k, v)])%list.
Proof.
  induction m as [|[k' v'] m IH]; simpl; intros Hk; [done|].
  apply not_elem_of_cons in Hk as [Hne Hk].
  destruct (String.eqb_spec k k'); [done|]. by rewrite IH.
Qed.
Lemma map_get_insert {A} k k' (v : A) m :
  map_get k (map_insert k' v m) = if String.eqb k k' then Some v else map_get k m.
Proof.
  induction m as [|[j w] m IH]; simpl; [done|].
  destruct (String.eqb_spec k' j) as [->|Hne]; simpl.
  - by destruct (String.eqb k j).
  - rewrite IH. destruct (String.eqb_spec k j) as [->|]; [|done].
    destruct (String.eqb_spec j k'); congruence.
Qed.

(** * Blocks and turns *)

Inductive Role : Type := System | User | Assistant | Tool.

Inductive ImageRef : Type :=
| InlineBase64 (data : string)
| Url (url : string).

Inductive ToolOutputPart : Type :=
| PartText (text : string)
| PartStructured (value : Value)
| PartImage (media_type : string) (data : ImageRef).

Inductive ToolOutput : Type :=
| OutText (text : string)
| OutStructured (value : Value)
| OutMixed (parts : list ToolOutputPart).

Inductive Block : Type :=
| Text (text : string)
| Thinking (content : string) (signature : option string)
| ToolCall (id name : string) (args : Value)
| ToolResult (id : string) (output : ToolOutput) (is_error : bool)
| Image (media_type : string) (data : ImageRef)
| Citation (uri : string) (title excerpt : option string).

Record TurnMeta : Type := mkTurnMeta {
  created_at : option string;
  model : option string;
  synthetic : bool;
  summary : bool;
}.

(** [TurnMeta::default()] *)
Definition default_meta : TurnMeta := mkTurnMeta None None false false.

Record Turn : Type := mkTurn {
  role : Role;
  blocks : list Block;
  meta : TurnMeta;
}.

#[global] Instance Role_eq_dec : EqDecision Role.
Proof. solve_decision. Defined.

(** * Tool definitions and provider usage ([rw-providers/src/types.rs]) *)

Record ToolDefinition : Type := mkTool {
  tool_name : string;
  tool_description : string;
  input_schema : Value;
}.

Inductive CacheBreakpointSupport : Type := SupportNone | SupportExplicit | SupportAutomatic.
#[global] Instance CacheBreakpointSupport_eq_dec : EqDecision CacheBreakpointSupport.
Proof. solve_decision. Defined.

Record TokenUsage : Type := mkUsage {
  input_tokens : Z;
  output_tokens : Z;
  cache_read_tokens : Z;
  cache_write_tokens : Z;
  reasoning_tokens : Z;
}.

Definition usage_u64 (u : TokenUsage) : Prop :=
  u64 (input_tokens u) ∧ u64 (output_tokens u) ∧ u64 (cache_read_tokens u) ∧
  u64 (cache_write_tokens u) ∧ u64 (reasoning_tokens u).
