(* ===== verification/Effects.v ===== *)
(** Asynchronous functions as processes.

    An [async fn] of the program is a sequence of computations between the
    points where something outside of it answers: a clock, a lock, a callback,
    a channel, a tool.  [Proc] has a node for each of these points.  An action
    is what the function asks, its type of answers depends on it, and the rest
    of the function follows the answer.

    [run] lets an oracle answer, which may look at everything that happened
    before: a theorem for every oracle is a theorem for every behaviour of the
    surroundings and every interleaving.  [wp] is the matching proof rule, under
    a contract [env] on the answers. *)
From S2P Require Import Prelude.

Section proc.
Context {action : Type} (answer : action → Type).

Inductive Proc (A : Type) : Type :=
| Done (a : A)
| Await (a : action) (k : answer a → Proc A).

Record Happened : Type := mkHappened {
  asked : action;
  answered : answer asked;
}.
Definition History : Type := list Happened.
End proc.
Arguments Done {action answer A} a.
Arguments Await {action answer A} a k.
Arguments mkHappened {action answer} asked answered.
Arguments asked {action answer} h.
Arguments answered {action answer} h : rename.

Section monad.
Context {action : Type} {answer : action → Type}.
Implicit Types t : History answer.

#[global] Instance proc_ret : MRet (Proc answer) := λ A a, Done a.
#[global] Instance proc_bind : MBind (Proc answer) :=
  λ A B f, fix bind p :=
    match p with
    | Done a => f a
    | Await a k => Await a (λ r, bind (k r))
    end.

Definition await (a : action) : Proc answer (answer a) := Await a Done.

(** * Running against an oracle *)

Definition Oracle : Type := History answer → ∀ a : action, answer a.

Fixpoint run {A} (o : Oracle) (p : Proc answer A) t : A * History answer :=
  match p with
  | Done a => (a, t)
  | Await a k => run o (k (o t a)) (t ++ [mkHappened a (o t a)])
  end.

Lemma run_bind {A B} o (p : Proc answer A) (f : A → Proc answer B) t :
  run o (p ≫= f) t = let '(a, t') := run o p t in run o (f a) t'.
Proof. revert t; induction p as [a|a k IH]; intros t; cbn; [done|]. apply IH. Qed.

(** * Reasoning about every oracle *)

Definition Contract : Type := History answer → ∀ a : action, answer a → Prop.
(** No condition on the answers. *)
Definition anything : Contract := λ _ _ _, True.
Definition keeps (env : Contract) (o : Oracle) : Prop := ∀ t a, env t a (o t a).

Fixpoint wp {A} (env : Contract) (p : Proc answer A) t (post : A → History answer → Prop) : Prop :=
  match p with
  | Done a => post a t
  | Await a k => ∀ r, env t a r → wp env (k r) (t ++ [mkHappened a r]) post
  end.

Lemma wp_run {A} env (p : Proc answer A) t post o :
  wp env p t post → keeps env o → post (run o p t).1 (run o p t).2.
Proof.
  intros Hwp Ho; revert t Hwp; induction p as [a|a k IH]; intros t Hwp; cbn in *; [done|].
  apply IH, Hwp, Ho.
Qed.

Lemma wp_mono {A} env (p : Proc answer A) t (post post' : A → History answer → Prop) :
  wp env p t post → (∀ a t', post a t' → post' a t') → wp env p t post'.
Proof.
  intros Hwp Hpost; revert t Hwp; induction p as [a|a k IH]; intros t Hwp; cbn in *; [by apply Hpost|].
  intros r Hr. by apply IH, Hwp.
Qed.

Lemma wp_bind {A B} env (p : Proc answer A) (f : A → Proc answer B) t post :
  wp env p t (λ a t', wp env (f a) t' post) → wp env (p ≫= f) t post.
Proof.
  revert t; induction p as [a|a k IH]; intros t Hwp; cbn in *; [done|].
  intros r Hr. by apply IH, Hwp.
Qed.

Lemma wp_ret {A} env (a : A) t post : post a t → wp env (mret a) t post.
Proof. done. Qed.

Lemma wp_await {B} env a (f : answer a → Proc answer B) t post :
  (∀ r, env t a r → wp env (f r) (t ++ [mkHappened a r]) post) → wp env (await a ≫= f) t post.
Proof. done. Qed.

(** Cut: a specification of [p] and what follows from its result. *)
Lemma wp_cut {A B} env (p : Proc answer A) (f : A → Proc answer B) t (mid : A → History answer → Prop) post :
  wp env p t mid → (∀ a t', mid a t' → wp env (f a) t' post) → wp env (p ≫= f) t post.
Proof. intros Hp Hf. apply wp_bind. by eapply wp_mono. Qed.

Lemma wp_conj {A} env (p : Proc answer A) t (post post' : A → History answer → Prop) :
  wp env p t post → wp env p t post' → wp env p t (λ a t', post a t' ∧ post' a t').
Proof.
  revert t; induction p as [a|a k IH]; intros t H1 H2; cbn in *; [done|].
  intros r Hr. apply IH; [by apply H1|by apply H2].
Qed.

(** The history only grows. *)
Lemma wp_extends {A} env (p : Proc answer A) t : wp env p t (λ _ t', t `prefix_of` t').
Proof.
  revert t; induction p as [a|a k IH]; intros t; cbn; [done|].
  intros r _. eapply wp_mono; [apply IH|]. intros a' t' Ht'. etrans; [|exact Ht']. by eexists.
Qed.

Lemma wp_with_extends {A} env (p : Proc answer A) t (post : A → History answer → Prop) :
  wp env p t (λ a t', t `prefix_of` t' → post a t') → wp env p t post.
Proof.
  intros Hwp. eapply wp_mono; [apply wp_conj; [exact Hwp|apply wp_extends]|]. naive_solver.
Qed.

(** Fewer answers, fewer behaviours. *)
Lemma wp_weaken {A} (env env' : Contract) (p : Proc answer A) t post :
  (∀ u a r, env' u a r → env u a r) → wp env p t post → wp env' p t post.
Proof.
  intros Henv; revert t; induction p as [a|a k IH]; intros t Hwp; cbn in *; [done|].
  intros r Hr. apply IH, Hwp, Henv, Hr.
Qed.
End monad.
Arguments Oracle {action} answer.
Arguments Contract {action} answer.

(** One node of a process: an action, a sequence or its end. *)
Ltac wp_step :=
  match goal with
  | |- wp _ (mret _) _ _ => apply wp_ret
  | |- wp _ (await _ ≫= _) _ _ => apply wp_await; intros ? ?
  | |- wp _ (_ ≫= _) _ _ => apply wp_bind
  end; cbn beta.

(** * A process inside a larger one

    The actions of one component are a constructor of the actions of its
    client, with the same answers. *)
Section embed.
Context {act1 act2 : Type} {ans1 : act1 → Type} {ans2 : act2 → Type}.
Context (inj : act1 → act2) (back : ∀ a, ans2 (inj a) → ans1 a).

Fixpoint embed {A} (p : Proc ans1 A) : Proc ans2 A :=
  match p with
  | Done a => Done a
  | Await a k => Await (inj a) (λ r, embed (k (back a r)))
  end.

(** The part of an outer history that an inner run is responsible for. *)
Inductive embedded : History ans1 → History ans2 → Prop :=
| embedded_nil : embedded [] []
| embedded_cons a r u v : embedded u v →
    embedded (mkHappened a (back a r) :: u) (mkHappened (inj a) r :: v).

Lemma embedded_snoc a r u v :
  embedded u v → embedded (u ++ [mkHappened a (back a r)]) (v ++ [mkHappened (inj a) r]).
Proof. induction 1; cbn; repeat constructor; done. Qed.

(** What a component promises on its own holds for its part of the history. *)
Lemma wp_embed {A} (env1 : Contract ans1) (env2 : Contract ans2) (p : Proc ans1 A) u v t0 t
    (post : A → History ans1 → Prop) :
  (∀ u' v' a r, embedded u' v' → env2 (t0 ++ v') (inj a) r → env1 u' a (back a r)) →
  embedded u v → t = (t0 ++ v)%list →
  wp env1 p u post →
  wp env2 (embed p) t (λ a t', ∃ u' v', t' = (t0 ++ v')%list ∧ embedded u' v' ∧ post a u').
Proof.
  intros Henv; revert u v t; induction p as [a|a k IH]; intros u v t Huv -> Hwp; cbn in *.
  - by exists u, v.
  - intros r Hr. eapply IH; [by apply embedded_snoc| by rewrite <- app_assoc|].
    apply Hwp. by eapply Henv.
Qed.
End embed.
