(* ===== verification/Redaction.v ===== *)
(** Secret redaction: JSON and tool outputs
    ([rw-core/src/engine/turn/redaction.rs]) and the streaming redactor
    ([rw-core/src/engine/redaction.rs]).

    The redactor itself is a trait object; [SecretRedactor] is its interface. *)
From S2P Require Import Prelude Text Ir.
From Stdlib Require Import Ascii.

Class SecretRedactor : Type := {
  redact : string → string;
  max_secret_bytes : nat;
  has_incomplete_secret_envelope : string → bool;
}.

(** * JSON *)

Fixpoint replace_char (c : ascii) (d : string) (s : string) : string :=
  match s with
  | "" => ""
  | String a s' => if Ascii.eqb a c then (d ++ replace_char c d s')%string
                   else String a (replace_char c d s')
  end.

Definition SENSITIVE_KEYS : list string :=
  ["authorization"; "proxy_authorization"; "cookie"; "set_cookie"; "api_key"; "access_token";
   "refresh_token"; "id_token"; "auth_token"; "bearer_token"; "session_token"; "oauth_token";
   "password"; "secret"; "client_secret"; "private_key"; "credential"; "credentials"].
Definition SENSITIVE_SUFFIXES : list string :=
  ["_api_key"; "_token"; "_password"; "_secret"; "_private_key"; "_credential"; "_credentials"].

Definition sensitive_json_key (key : string) : bool :=
  let normalized := replace_char "-" "_" (to_ascii_lowercase key) in
  existsb (String.eqb normalized) SENSITIVE_KEYS ||
  existsb (λ suffix, ends_with suffix normalized) SENSITIVE_SUFFIXES.

Definition is_null (v : Value) : bool := match v with JNull => true | _ => false end.
Definition REDACTED : string := "[REDACTED]".

(** [json_contains_redaction] *)
Fixpoint json_contains_redaction (value : Value) : bool :=
  match value with
  | JString text => str_contains REDACTED text
  | JArray values => existsb json_contains_redaction values
  | JObject entries => existsb (λ e, json_contains_redaction e.2) entries
  | JNull | JBool _ | JNumber _ => false
  end.

Section redaction.
Context {R : SecretRedactor}.

Fixpoint redact_json (value : Value) : Value :=
  match value with
  | JString text => JString (redact text)
  | JArray values => JArray (map redact_json values)
  | JObject entries =>
      JObject (map (λ e, (e.1, if sensitive_json_key e.1 && negb (is_null e.2)
                               then JString REDACTED else redact_json e.2)) entries)
  | JNull | JBool _ | JNumber _ => value
  end.

Definition redact_tool_output (output : ToolOutput) : ToolOutput :=
  match output with
  | OutText text => OutText (redact text)
  | OutStructured value => OutStructured (redact_json value)
  | OutMixed parts =>
      OutMixed (map (λ part, match part with
                             | PartText text => PartText (redact text)
                             | PartStructured value => PartStructured (redact_json value)
                             | PartImage _ _ => part
                             end) parts)
  end.

(** * Streaming *)

Record StreamingSecretRedactor : Type := mkStreaming {
  raw : string;
  emitted : string;
}.
Definition streaming_new : StreamingSecretRedactor := mkStreaming "" "".

(** [max_secret_bytes().saturating_sub(1)] *)
Definition overlap_bytes : nat := (max_secret_bytes - 1)%nat.

Definition is_char_boundary (s : string) (i : nat) : bool :=
  (Nat.eqb i 0 || Nat.eqb i (String.length s) ||
   match str_drop i s with String c _ => negb (is_continuation c) | "" => false end)%nat.

(** The loop that moves [safe_end] back to a character boundary. *)
Fixpoint safe_end_from (s : string) (low n : nat) : nat :=
  match n with
  | O => O
  | S n' => if (Nat.ltb low n && negb (is_char_boundary s n))%nat then safe_end_from s low n' else n
  end.

(** [StreamingSecretRedactor::push] *)
Definition push (self : StreamingSecretRedactor) (chunk : string) : StreamingSecretRedactor * string :=
  let raw' := (raw self ++ chunk)%string in
  let stop := (mkStreaming raw' (emitted self), "") in
  if has_incomplete_secret_envelope raw' then stop else
  let redacted := redact raw' in
  if (Nat.leb (String.length redacted) overlap_bytes || negb (starts_with (emitted self) redacted))%nat
  then stop else
  let low := String.length (emitted self) in
  let safe_end := safe_end_from redacted low (String.length redacted - overlap_bytes) in
  if Nat.leb safe_end low then stop else
  let delta := str_drop low (str_take safe_end redacted) in
  (mkStreaming raw' (emitted self ++ delta)%string, delta).

(** [StreamingSecretRedactor::finish] *)
Definition finish (self : StreamingSecretRedactor) : StreamingSecretRedactor * string :=
  let redacted := if has_incomplete_secret_envelope (raw self) then REDACTED else redact (raw self) in
  (streaming_new, default redacted (strip_prefix (emitted self) redacted)).

(** A whole stream: the text shown for each chunk, then for the end. *)
Fixpoint push_all (self : StreamingSecretRedactor) (chunks : list string)
    : StreamingSecretRedactor * list string :=
  match chunks with
  | [] => (self, [])
  | chunk :: rest =>
      let '(self, delta) := push self chunk in
      let '(self, deltas) := push_all self rest in
      (self, delta :: deltas)
  end.
Definition stream (chunks : list string) : list string :=
  let '(self, deltas) := push_all streaming_new chunks in
  (deltas ++ [(finish self).2])%list.

(** * What a value still shows *)

(** Every string value of a value, and those that no sensitive key covers;
    the keys are not among them. *)
Fixpoint strings (v : Value) : list string :=
  match v with
  | JString s => [s]
  | JArray l => concat (map strings l)
  | JObject m => concat (map (λ e, strings e.2) m)
  | JNull | JBool _ | JNumber _ => []
  end.
Fixpoint visible (v : Value) : list string :=
  match v with
  | JString s => [s]
  | JArray l => concat (map visible l)
  | JObject m => concat (map (λ e, if sensitive_json_key e.1 then [] else visible e.2) m)
  | JNull | JBool _ | JNumber _ => []
  end.
(** The values of the outermost sensitive keys. *)
Fixpoint covered (v : Value) : list Value :=
  match v with
  | JArray l => concat (map covered l)
  | JObject m => concat (map (λ e, if sensitive_json_key e.1 then [e.2] else covered e.2) m)
  | JNull | JBool _ | JNumber _ | JString _ => []
  end.

(** The keys of a value, and those that no sensitive key covers. *)
Fixpoint keys (v : Value) : list string :=
  match v with
  | JArray l => concat (map keys l)
  | JObject m => concat (map (λ e, e.1 :: keys e.2) m)
  | JNull | JBool _ | JNumber _ | JString _ => []
  end.
Fixpoint uncovered_keys (v : Value) : list string :=
  match v with
  | JArray l => concat (map uncovered_keys l)
  | JObject m =>
      concat (map (λ e, e.1 :: if sensitive_json_key e.1 then [] else uncovered_keys e.2) m)
  | JNull | JBool _ | JNumber _ | JString _ => []
  end.

Definition output_values (output : ToolOutput) : list Value :=
  match output with
  | OutText text => [JString text]
  | OutStructured value => [value]
  | OutMixed parts =>
      concat (map (λ part, match part with
                           | PartText text => [JString text]
                           | PartStructured value => [value]
                           | PartImage _ _ => []
                           end) parts)
  end.
End redaction.

(** * Redacted values *)

Section redaction_lemmas.
Context {R : SecretRedactor}.

Lemma redact_json_strings v t :
  t ∈ strings (redact_json v) → t = REDACTED ∨ ∃ s, s ∈ visible v ∧ t = redact s.
Proof.
  revert t. induction v as [| | |s|l IH|m IH] using Value_ind'; intros t; simpl; try by rewrite elem_of_nil.
  - rewrite list_elem_of_singleton. intros ->. right. exists s. by rewrite list_elem_of_singleton.
  - induction IH as [|x l Hx Hl IHl]; simpl; [by rewrite elem_of_nil|].
    rewrite elem_of_app. intros [H|H].
    + destruct (Hx t H) as [->|(s & Hs & ->)]; [by left|]. right. exists s. rewrite elem_of_app. auto.
    + destruct (IHl H) as [->|(s & Hs & ->)]; [by left|]. right. exists s. rewrite elem_of_app. auto.
  - induction IH as [|[k x] m Hx Hm IHm]; simpl in *; [by rewrite elem_of_nil|].
    rewrite elem_of_app. intros [H|H].
    + destruct (sensitive_json_key k) eqn:Ek; simpl in H.
      * destruct x; simpl in H; try (by apply elem_of_nil in H);
          (left; by apply list_elem_of_singleton in H).
      * destruct (Hx t H) as [->|(s & Hs & ->)]; [by left|]. right. exists s. rewrite elem_of_app. auto.
    + destruct (IHm H) as [->|(s & Hs & ->)]; [by left|]. right. exists s. rewrite elem_of_app. auto.
Qed.

Lemma redact_json_covered v :
  Forall (λ x, x = JNull ∨ x = JString REDACTED) (covered (redact_json v)).
Proof.
  induction v as [| | |s|l IH|m IH] using Value_ind'; simpl; try constructor.
  - induction IH; simpl; [constructor|]. by apply Forall_app.
  - induction IH as [|[k x] m Hx Hm IHm]; simpl in *; [constructor|]. apply Forall_app. split; [|done].
    destruct (sensitive_json_key k); simpl; [|done].
    constructor; [|constructor]. destruct x; simpl; auto.
Qed.

(** The keys that remain are shown as they are. *)
Lemma redact_json_keys v : keys (redact_json v) = uncovered_keys v.
Proof.
  induction v as [| | |s|l IH|m IH] using Value_ind'; simpl; try done.
  - induction IH as [|x l Hx Hl IHl]; simpl; [done|]. by rewrite Hx, IHl.
  - induction IH as [|[k x] m Hx Hm IHm]; simpl in *; [done|]. rewrite IHm.
    destruct (sensitive_json_key k); simpl; [by destruct x|by rewrite Hx].
Qed.

(** ** Which keys are sensitive *)

(** [word] is [key] in lower case with an underscore for every hyphen. *)
Definition spelled (key word : string) : Prop :=
  Forall2 (λ a b, (a = "-" ∧ b = "_") ∨
                  (a ≠ "-" ∧ a = b ∧ (nat_of_ascii a < 65 ∨ 90 < nat_of_ascii a)%nat) ∨
                  (65 ≤ nat_of_ascii a ≤ 90 ∧ nat_of_ascii b = nat_of_ascii a + 32)%nat)%char
    (String.list_ascii_of_string key) (String.list_ascii_of_string word).

Definition names_secret (key : string) : Prop :=
  ∃ word, spelled key word ∧
    (word ∈ ["authorization"; "proxy_authorization"; "cookie"; "set_cookie"; "api_key";
             "access_token"; "refresh_token"; "id_token"; "auth_token"; "bearer_token";
             "session_token"; "oauth_token"; "password"; "secret"; "client_secret";
             "private_key"; "credential"; "credentials"] ∨
     ∃ stem suffix, word = (stem ++ suffix)%string ∧
       suffix ∈ ["_api_key"; "_token"; "_password"; "_secret"; "_private_key"; "_credential";
                 "_credentials"]).

Lemma normalized_spelled key : spelled key (replace_char "-" "_" (to_ascii_lowercase key)).
Proof.
  unfold spelled. induction key as [|c key IH]; simpl; [constructor|].
  destruct (Ascii.eqb_spec (ascii_lower c) "-") as [E|E]; simpl; (constructor; [|exact IH]).
  - left. split; [|done]. revert E. by destruct c as [[] [] [] [] [] [] [] []].
  - right. revert E. unfold ascii_lower. pose proof (nat_ascii_bounded c).
    destruct ((65 <=? nat_of_ascii c) && (nat_of_ascii c <=? 90))%nat eqn:Eu; intros E.
    + apply andb_true_iff in Eu as [?%Nat.leb_le ?%Nat.leb_le].
      right. rewrite nat_ascii_embedding by lia. lia.
    + left. split_and!; [done|done|]. apply andb_false_iff in Eu.
      destruct Eu as [?%Nat.leb_gt|?%Nat.leb_gt]; lia.
Qed.
Lemma spelled_unique key w w' : spelled key w → spelled key w' → w = w'.
Proof.
  unfold spelled. intros H H'. rewrite <- (String.string_of_list_ascii_of_string w),
    <- (String.string_of_list_ascii_of_string w'). f_equal. revert H'.
  generalize (String.list_ascii_of_string w') as l'.
  induction H as [|a b la lb Hab Hl IH]; intros l' H'; inversion H' as [|? b' ? lb' Hab' Hl']; [done|].
  subst. f_equal; [|by apply IH]. assert (H45 : nat_of_ascii "-" = 45%nat) by reflexivity.
  clear Hl IH H' Hl'.
  destruct Hab as [[-> ->]|[(? & <- & ?)|[? Hb]]], Hab' as [[? ->]|[(? & <- & ?)|[? Hb']]];
    subst; try done; try lia.
  rewrite <- (ascii_nat_embedding b), <- (ascii_nat_embedding b'). congruence.
Qed.

Lemma sensitive_names_secret key : sensitive_json_key key = true ↔ names_secret key.
Proof.
  assert (Hlist : ∀ w l, existsb (String.eqb w) l = true ↔ w ∈ l).
  { intros w l. rewrite existsb_exists, list_elem_of_In. split.
    - by intros (x & Hx & ->%String.eqb_eq).
    - intros Hw. exists w. by rewrite String.eqb_refl. }
  unfold sensitive_json_key. rewrite orb_true_iff, Hlist, existsb_exists. split.
  - intros H. eexists. split; [apply normalized_spelled|]. destruct H as [H|(suffix & Hs & He)]; [by left|].
    right. apply ends_with_spec in He as [stem He]. exists stem, suffix. split; [done|].
    by apply list_elem_of_In.
  - intros (word & Hw & H).
    rewrite (spelled_unique key _ word (normalized_spelled key) Hw).
    destruct H as [H|(stem & suffix & -> & Hs)]; [by left|]. right. exists suffix.
    split; [by apply list_elem_of_In|]. apply ends_with_spec. by exists stem.
Qed.

(** A value that hid something says so. *)
Lemma redaction_detected v x :
  x ∈ covered v → x ≠ JNull → json_contains_redaction (redact_json v) = true.
Proof.
  intros Hx Hnull. induction v as [| | |s|l IH|m IH] using Value_ind'; simpl in *;
    try by apply elem_of_nil in Hx.
  - induction IH as [|y l Hy Hl IHl]; simpl in *; [by apply elem_of_nil in Hx|].
    apply elem_of_app in Hx as [Hx|Hx]; [by rewrite Hy|]. rewrite IHl by done. apply orb_true_r.
  - induction IH as [|[k y] m Hy Hm IHm]; simpl in *; [by apply elem_of_nil in Hx|].
    apply elem_of_app in Hx as [Hx|Hx]; [|rewrite IHm by done; apply orb_true_r].
    destruct (sensitive_json_key k); simpl.
    + apply list_elem_of_singleton in Hx as <-. by destruct x.
    + by rewrite Hy.
Qed.

(** C39: a redacted tool output hides its secrets from the string values.
    Every string value in it (text parts and all depths of structured parts)
    is the redactor's answer for an original string value that no sensitive
    key covers, or the placeholder; every sensitive key, at any depth, holds
    null or the placeholder; a key is sensitive exactly when, in lower case
    and with underscores for hyphens, it is one of the eighteen listed words or
    ends in one of the seven listed suffixes.  Object keys are not string
    values and are not covered: the keys left after dropping what is below a
    sensitive key are shown verbatim, a secret used as a key included
    ([secret_key_shown]); image parts pass unchanged. *)
Theorem redact_output_hides output :
  (∀ t, t ∈ concat (map strings (output_values (redact_tool_output output))) →
     t = REDACTED ∨
     ∃ s, s ∈ concat (map visible (output_values output)) ∧ t = redact s) ∧
  Forall (λ x, x = JNull ∨ x = JString REDACTED)
    (concat (map covered (output_values (redact_tool_output output)))) ∧
  concat (map keys (output_values (redact_tool_output output))) =
    concat (map uncovered_keys (output_values output)) ∧
  (∀ key, sensitive_json_key key = true ↔ names_secret key).
Proof.
  assert (Hvalues : output_values (redact_tool_output output) =
                    map redact_json (output_values output)).
  { destruct output as [text|value|parts]; [done|done|]. simpl.
    induction parts as [|[] parts IH]; simpl; [done| | |done]; by rewrite IH. }
  rewrite Hvalues. clear Hvalues. generalize (output_values output) as values.
  induction values as [|v vs (IHs & IHc & IHk & IHn)]; simpl.
  { split_and!; [intros t Ht; by apply elem_of_nil in Ht|constructor|done|apply sensitive_names_secret]. }
  split_and!; [| |by rewrite redact_json_keys, IHk|done].
  - intros t [Ht|Ht]%elem_of_app.
    + destruct (redact_json_strings v t Ht) as [->|(s & Hs & ->)]; [by left|].
      right. exists s. rewrite elem_of_app. auto.
    + destruct (IHs t Ht) as [->|(s & Hs & ->)]; [by left|].
      right. exists s. rewrite elem_of_app. auto.
  - apply Forall_app. split; [apply redact_json_covered|done].
Qed.
End redaction_lemmas.

(** A known secret used as an object key is not hidden. *)
Definition hiding_redactor : SecretRedactor :=
  {| redact s := if String.eqb s "sk-12345" then REDACTED else s;
     max_secret_bytes := 8; has_incomplete_secret_envelope _ := false |}.
Example secret_key_shown :
  @redact_tool_output hiding_redactor
      (OutStructured (JObject [("sk-12345", JString "sk-12345"); ("API-Key", JString "abc")])) =
    OutStructured (JObject [("sk-12345", JString REDACTED); ("API-Key", JString REDACTED)]).
Proof. reflexivity. Qed.

(** * Streams *)

Section stream_lemmas.
Context {R : SecretRedactor}.

Lemma safe_end_le s low n : (safe_end_from s low n ≤ n)%nat.
Proof. induction n as [|n IH]; simpl; [done|]. case_match; lia. Qed.

Lemma drop_take_app p t n :
  (String.length p ≤ n)%nat →
  (p ++ str_drop (String.length p) (str_take n (p ++ t)))%string = str_take n (p ++ t).
Proof.
  intros Hn. rewrite <- (str_take_drop (String.length p) (str_take n (p ++ t))) at 2. f_equal.
  rewrite str_take_take by done. rewrite str_take_app_le by done.
  induction p as [|c p IH]; [done|]. simpl. f_equal. apply IH. simpl in Hn. lia.
Qed.

(** What a redactor state has shown is empty or a cut of some redaction. *)
Definition shown_ok (text shown : string) : Prop :=
  shown = "" ∨
  ∃ read rest n, text = (read ++ rest)%string ∧ has_incomplete_secret_envelope read = false ∧
    (n + overlap_bytes ≤ String.length (redact read))%nat ∧ shown = str_take n (redact read).

Lemma push_shown self chunk :
  let '(self', delta) := push self chunk in
  raw self' = (raw self ++ chunk)%string ∧ emitted self' = (emitted self ++ delta)%string ∧
  (shown_ok (raw self) (emitted self) → shown_ok (raw self') (emitted self')).
Proof.
  unfold push.
  assert (Hstop : shown_ok (raw self) (emitted self) → shown_ok (raw self ++ chunk) (emitted self)).
  { intros [H|(read & rest & n & Ht & Henv & Hn & Hs)]; [by left|]. right.
    exists read, (rest ++ chunk)%string, n. rewrite Ht, str_app_assoc. done. }
  destruct (has_incomplete_secret_envelope _) eqn:Henv; [by rewrite str_app_nil_r|].
  destruct (Nat.leb _ _ || _)%nat eqn:Hskip; [by rewrite str_app_nil_r|].
  apply orb_false_iff in Hskip as [Hlen Hpre]. apply Nat.leb_gt in Hlen.
  apply negb_false_iff, starts_with_spec in Hpre as [t Ht].
  destruct (Nat.leb _ _)%nat eqn:Hend; [by rewrite str_app_nil_r|]. apply Nat.leb_gt in Hend.
  simpl. split_and!; [done|done|]. intros _. right.
  set (n := safe_end_from _ _ _) in *.
  pose proof (safe_end_le (redact (raw self ++ chunk)) (String.length (emitted self))
                (String.length (redact (raw self ++ chunk)) - overlap_bytes)) as Hle.
  fold n in Hle.
  exists (raw self ++ chunk)%string, "", n. rewrite str_app_nil_r. split_and!; [done|done|lia|].
  rewrite Ht. apply drop_take_app. lia.
Qed.

Lemma push_all_shown self chunks :
  let '(self', deltas) := push_all self chunks in
  raw self' = (raw self ++ String.concat "" chunks)%string ∧
  emitted self' = (emitted self ++ String.concat "" deltas)%string ∧
  (shown_ok (raw self) (emitted self) → shown_ok (raw self') (emitted self')).
Proof.
  revert self. induction chunks as [|chunk chunks IH]; intros self; simpl.
  { by rewrite !str_app_nil_r. }
  pose proof (push_shown self chunk) as Hp. destruct (push self chunk) as [self1 delta].
  destruct Hp as (Hraw & Hem & Hok).
  specialize (IH self1). destruct (push_all self1 chunks) as [self2 deltas].
  destruct IH as (Hraw2 & Hem2 & Hok2). rewrite Hraw, Hem, !str_app_assoc in *.
  split_and!; auto.
  - rewrite Hraw2. by destruct chunks; simpl; rewrite ?str_app_nil_r.
  - rewrite Hem2. by destruct deltas; simpl; rewrite ?str_app_nil_r.
Qed.

Lemma concat_snoc (l : list string) x :
  String.concat "" (l ++ [x])%list = (String.concat "" l ++ x)%string.
Proof.
  induction l as [|y l IH]; [done|]. simpl.
  destruct (l ++ [x])%list as [|z k] eqn:E; [by destruct l|]. rewrite IH.
  destruct l as [|w l]; simpl; [done|]. by rewrite str_app_assoc.
Qed.

(** A stream never shows a text before it is settled. What has been shown
    at any point is empty, or a cut of the redaction of a part of the text
    that was already read and ends inside no secret envelope, and the cut
    leaves out at least the last [max_secret_bytes - 1] bytes. *)
Theorem stream_holds_back chunks :
  shown_ok (String.concat "" chunks) (String.concat "" (push_all streaming_new chunks).2).
Proof.
  pose proof (push_all_shown streaming_new chunks) as H.
  destruct (push_all streaming_new chunks) as [self deltas]. destruct H as (Hraw & Hem & Hok).
  simpl in *. rewrite str_app_nil_l in Hem, Hraw. rewrite <- Hem, <- Hraw. apply Hok. by left.
Qed.

(** Chunking does not change what is shown. For a redactor whose answer
    for a longer text keeps the answer for a part of it, up to the overlap
    that [max_secret_bytes] announces, the concatenated stream is the redaction
    of the whole text; when the text ends inside a secret envelope, the open
    envelope is replaced by the placeholder. *)
Theorem stream_exact
    (stable : ∀ read rest, has_incomplete_secret_envelope read = false →
       starts_with (str_take (String.length (redact read) - overlap_bytes) (redact read))
         (redact (read ++ rest)) = true) chunks :
  let text := String.concat "" chunks in
  let shown := String.concat "" (push_all streaming_new chunks).2 in
  String.concat "" (stream chunks) =
    if has_incomplete_secret_envelope text
    then (shown ++ default REDACTED (strip_prefix shown REDACTED))%string
    else redact text.
Proof.
  cbn zeta. pose proof (stream_holds_back chunks) as Hok. unfold stream.
  pose proof (push_all_shown streaming_new chunks) as H.
  destruct (push_all streaming_new chunks) as [self deltas]. destruct H as (Hraw & Hem & _).
  simpl in *. rewrite str_app_nil_l in Hem, Hraw. rewrite concat_snoc. unfold finish. rewrite Hraw, Hem. simpl.
  destruct (has_incomplete_secret_envelope _); [done|]. unfold strip_prefix.
  assert (Hpre : starts_with (String.concat "" deltas) (redact (String.concat "" chunks)) = true).
  { destruct Hok as [->|(read & rest & n & Ht & Henv & Hn & ->)];
      [by destruct (redact (String.concat "" chunks))|].
    specialize (stable read rest Henv). rewrite <- Ht in stable.
    apply starts_with_spec in stable as [t ->].
    rewrite <- (str_take_take n (String.length (redact read) - overlap_bytes)) by lia.
    apply starts_with_spec. eexists. rewrite <- (str_take_drop n (str_take _ (redact read))) at 1.
    by rewrite str_app_assoc. }
  rewrite Hpre. simpl. apply starts_with_spec in Hpre as [t ->]. by rewrite str_drop_app.
Qed.
End stream_lemmas.

(** * Witness: a redactor that masks every [x], a secret of one byte after
    the bytes it may follow *)

Fixpoint mask (s : string) : string :=
  match s with "" => "" | String c s' => String (if Ascii.eqb c "x" then "*" else c) (mask s') end.
Definition mask_redactor : SecretRedactor := {|
  redact := mask; max_secret_bytes := 3; has_incomplete_secret_envelope := ends_with "{";
|}.

Lemma mask_app s t : mask (s ++ t) = (mask s ++ mask t)%string.
Proof. induction s as [|c s IH]; [done|]. simpl. by rewrite IH. Qed.

Lemma stream_exact_witness :
  String.concat "" (@stream mask_redactor ["ab"; "cxd{e"; "}fx"]) = "abc*d{e}f*" ∧
  @stream mask_redactor ["ab"; "cxd{e"; "}fx"] = [""; "abc*d"; "{e}"; "f*"].
Proof.
  split; [|reflexivity].
  rewrite (@stream_exact mask_redactor); [reflexivity|].
  intros read rest _. apply starts_with_spec. cbn. rewrite mask_app.
  eexists. rewrite <- (str_take_drop (String.length (mask read) - 2) (mask read)) at 1.
  by rewrite str_app_assoc.
Defined.
