(* ===== verification/ToolBatch.v ===== *)
(** The scheduler of one provider tool batch ([execute_tool_calls] of
    [rw-core/src/engine/turn/tool_scheduling.rs]) with the request and result
    types of [turn/tool_requests.rs].

    The function is one loop around a [select!].  [Batch] is its local state
    and [step] one piece of an iteration: the top of the loop (launch, then
    start a preparation), one of the two events the [select!] can wake up for,
    or the settlement of the next result.  What the awaited parts answer
    (preparation, execution, admission, the durable append) comes with the
    event, so the theorems hold for every answer and every interleaving.
    Display plans and payload owners of an execution are left out. *)
From S2P Require Import Prelude Text Ir Redaction.
From Stdlib Require Import Ascii.

Definition MAX_TOOL_EXECUTION_WINDOW : nat := 16.

(** * Requests and results *)

Record PendingToolCall : Type := mkCall {
  call_id : string;
  call_invocation_id : string;
  call_name : string;
  call_arguments : option Value;
  call_index : nat;
}.

Record ToolExecution : Type := mkExecution {
  unsettled : bool;
  exec_call : PendingToolCall;
  output : ToolOutput;
  is_error : bool;
}.

Inductive PreparedToolCall : Type :=
| ExecuteCall (call : PendingToolCall) (read_only : bool)
| CompleteCall (execution : ToolExecution).

Definition prepared_call (p : PreparedToolCall) : PendingToolCall :=
  match p with ExecuteCall call _ => call | CompleteCall e => exec_call e end.

Definition failed_execution (call : PendingToolCall) (message : string) : ToolExecution :=
  mkExecution false call (OutText message) true.

Definition REJECTED_OUTPUT : string :=
  "tool output rejected: aggregate result byte or structural admission exhausted; tool effects remain recorded".
Definition reject (e : ToolExecution) : ToolExecution :=
  mkExecution (unsettled e) (exec_call e) (OutText REJECTED_OUTPUT) true.

Inductive AgentLoopError : Type :=
| ToolContext (message : string)
| EffectsUnsettled (message : string)
| Persistence (message : string)
| Extension (message : string)
| Closed.

Inductive TurnSignal : Type :=
| ToolExecutionFinished (id invocation_id : string) (is_error : bool)
| SignalEffectsUnsettled (message : string)
| ToolResultsUnsettled.

(** [TurnSignal::ToolExecutionFinished] as every sender builds it *)
Definition finished_signal (e : ToolExecution) : TurnSignal :=
  ToolExecutionFinished (call_id (exec_call e)) (call_invocation_id (exec_call e))
    (is_error e || unsettled e).

(** * The loop *)

Record Batch : Type := mkBatch {
  unprepared : list PendingToolCall;
  budget : bool;
  preparing : option PendingToolCall;
  ready : list PreparedToolCall;
  running : list (nat * PendingToolCall * bool);
  completed : gmap nat (ToolExecution * bool);
  next : nat;
  launched : nat;
  mutation_running : bool;
  cancelled : bool;
  failure : option AgentLoopError;
  ordered : list (ToolExecution * Z);
  signals : list TurnSignal;
}.

Definition batch_new (calls : list PendingToolCall) : Batch :=
  mkBatch calls true None [] [] ∅ 0 0 false false None [] [].

Definition is_mutation (p : PreparedToolCall) : bool :=
  match p with ExecuteCall _ false => true | _ => false end.

(** A popped call that needs no task, or whose task may not start. *)
Definition launch_done (e : ToolExecution) (b : Batch) : Batch :=
  mkBatch (unprepared b) (budget b) (preparing b) (ready b) (running b)
    (<[launched b := (e, false)]> (completed b)) (next b) (S (launched b)) (mutation_running b)
    (cancelled b) (failure b) (ordered b) (signals b).
(** A popped call whose task is spawned. *)
Definition launch_task (call : PendingToolCall) (mutation : bool) (b : Batch) : Batch :=
  mkBatch (unprepared b) (budget b) (preparing b) (ready b)
    (running b ++ [(launched b, call, mutation)])%list (completed b) (next b) (S (launched b))
    mutation (cancelled b) (failure b) (ordered b) (signals b).

(** The body of the launch loop, for the popped front of [ready]. *)
Definition launch_one (front : PreparedToolCall) (b : Batch) : Batch :=
  match front with
  | CompleteCall e => launch_done e b
  | ExecuteCall call read_only =>
      if cancelled b
      then launch_done (failed_execution call "tool execution cancelled before start") b
      else launch_task call (negb read_only) b
  end.

Definition set_ready (b : Batch) (r : list PreparedToolCall) : Batch :=
  mkBatch (unprepared b) (budget b) (preparing b) r (running b) (completed b) (next b) (launched b)
    (mutation_running b) (cancelled b) (failure b) (ordered b) (signals b).

(** The launch loop over the queue [r] of ready calls. *)
Fixpoint launch (r : list PreparedToolCall) (b : Batch) : Batch :=
  match r with
  | [] => set_ready b []
  | front :: rest =>
      if negb (mutation_running b) && Nat.ltb (launched b - next b) MAX_TOOL_EXECUTION_WINDOW then
        if is_mutation front && negb (Nat.eqb (launched b) (next b)) then set_ready b r
        else launch rest (launch_one front b)
      else set_ready b r
  end.

(** Start the next preparation, within the window and never while a mutation
    runs. *)
Definition prepare_next (b : Batch) : Batch :=
  if negb (is_some (preparing b)) && negb (mutation_running b) &&
     Nat.ltb (launched b + length (ready b) - next b) MAX_TOOL_EXECUTION_WINDOW
  then
    match unprepared b with
    | [] => b
    | call :: rest =>
        mkBatch rest false (if budget b then Some call else preparing b) (ready b) (running b)
          (completed b) (next b) (launched b) (mutation_running b) (cancelled b) (failure b)
          (ordered b) (signals b)
    end
  else b.

Section batch.
Context {R : SecretRedactor}.

(** * Settlement *)

(** What the awaited parts of a settlement answer: the two byte admissions,
    the profile of the result ([completion]: an error, or whether the result
    was kept), the two checks of the error suffix and the durable append. *)
Record Answers : Type := mkAnswers {
  admit_raw : bool;
  admit_redacted : bool;
  profile : Result bool AgentLoopError;
  check_result : Result unit AgentLoopError;
  check_fallback : Result unit AgentLoopError;
  persisted : Result Z AgentLoopError;
}.

(** [ToolResultBudget::admit_execution], given the budget's answer *)
Definition admit_execution (admitted : bool) (e : ToolExecution) : ToolExecution :=
  if admitted then e else reject e.

(** [ResultProfiles::admit] *)
Definition admit_profile (a : Answers) (e : ToolExecution) : Result ToolExecution AgentLoopError :=
  let? kept := profile a in
  let e := if kept : bool then e else reject e in
  match check_result a with
  | Ok _ => Ok e
  | Err _ => let? _ := check_fallback a in Ok (reject e)
  end.

Definition redact_execution (e : ToolExecution) : ToolExecution :=
  mkExecution (unsettled e) (exec_call e) (redact_tool_output (output e)) (is_error e).

(** [failure.get_or_insert(error)] *)
Definition get_or_insert (failure : option AgentLoopError) (e : AgentLoopError) : option AgentLoopError :=
  match failure with Some _ => failure | None => Some e end.

(** The end of an iteration: the result at [next] leaves [completed]. *)
Definition settle (a : Answers) (e : ToolExecution) (was_mutation : bool) (b : Batch) : Batch :=
  let finish cancels error result signal :=
    mkBatch (unprepared b) (budget b) (preparing b) (ready b) (running b)
      (delete (next b) (completed b)) (S (next b)) (launched b)
      (if was_mutation then false else mutation_running b)
      (cancelled b || cancels)
      (match error with Some err => get_or_insert (failure b) err | None => failure b end)
      (ordered b ++ result)%list (signals b ++ signal)%list in
  if unsettled e then
    finish true (Some (EffectsUnsettled "tool invocation effects remain unproven")) []
      [SignalEffectsUnsettled "tool invocation effects remain unproven"]
  else
    let e := admit_execution (admit_redacted a)
               (redact_execution (admit_execution (admit_raw a) e)) in
    match admit_profile a e with
    | Err error => finish true (Some error) [] [ToolResultsUnsettled]
    | Ok e =>
        match persisted a with
        | Ok sequence => finish false None [(e, sequence)] []
        | Err error => finish true (Some error) [] []
        end
    end.

(** * Events *)

Inductive Phase : Type := Top | Wait | Stalled.

Inductive Event : Type :=
| Cancel
| Turn
| Finished (index : nat) (result : option ToolExecution)
| Prepared (prepared : PreparedToolCall) (admitted : bool)
| Settle (answers : Answers)
| Stall.

(** Execution and preparation answer for the call they were given. *)
Definition same_call (c d : PendingToolCall) : bool :=
  Nat.eqb (call_index c) (call_index d) && String.eqb (call_id c) (call_id d).

Definition find_running (index : nat) (b : Batch) : option (nat * PendingToolCall * bool) :=
  List.find (λ r, Nat.eqb r.1.1 index) (running b).

(** A task of [running] has ended; one without a result is unsettled. *)
Definition on_finished (index : nat) (call : PendingToolCall) (mutation : bool)
    (result : option ToolExecution) (b : Batch) : Batch :=
  let e := match result with
           | Some e => e
           | None => mkExecution true call (OutText "tool task ended without a result") true
           end in
  mkBatch (unprepared b) (budget b) (preparing b) (ready b)
    (List.filter (λ r, negb (Nat.eqb r.1.1 index)) (running b))
    (<[index := (e, mutation)]> (completed b)) (next b) (launched b) (mutation_running b) (cancelled b)
    (failure b) (ordered b)
    (match result with Some e => signals b ++ [finished_signal e] | None => signals b end)%list.

(** The preparation has ended. *)
Definition on_prepared (p : PreparedToolCall) (admitted : bool) (b : Batch) : Batch :=
  let '(p, signal) :=
    match p with
    | CompleteCall e => let e := admit_execution admitted e in (CompleteCall e, [finished_signal e])
    | ExecuteCall _ _ => (p, [])
    end in
  mkBatch (unprepared b) true None (ready b ++ [p])%list (running b) (completed b) (next b) (launched b)
    (mutation_running b) (cancelled b) (failure b) (ordered b) (signals b ++ signal)%list.

Definition on_cancel (b : Batch) : Batch :=
  mkBatch (unprepared b) (budget b) (preparing b) (ready b) (running b) (completed b) (next b)
    (launched b) (mutation_running b) true (failure b) (ordered b) (signals b).

(** The [else] branch of the [select!]. *)
Definition on_stall (b : Batch) : Batch :=
  mkBatch (unprepared b) (budget b) (preparing b) (ready b) (running b) (completed b) (next b)
    (launched b) (mutation_running b) true
    (get_or_insert (failure b) (ToolContext "tool batch scheduling stalled without runnable work"))
    (ordered b) (signals b).

Definition step (total : nat) (c : Phase * Batch) (event : Event) : option (Phase * Batch) :=
  let '(phase, b) := c in
  match event, phase with
  | Cancel, _ => Some (phase, on_cancel b)
  | Turn, Top =>
      if Nat.ltb (next b) total then Some (Wait, prepare_next (launch (ready b) b)) else None
  | Settle a, Wait =>
      match completed b !! next b with
      | Some (e, was_mutation) => Some (Top, settle a e was_mutation b)
      | None => None
      end
  | Finished index result, Wait =>
      match completed b !! next b, find_running index b with
      | None, Some (_, call, mutation) =>
          if match result with Some e => same_call (exec_call e) call | None => true end
          then Some (Top, on_finished index call mutation result b) else None
      | _, _ => None
      end
  | Prepared p admitted, Wait =>
      match completed b !! next b, preparing b with
      | None, Some call =>
          if same_call (prepared_call p) call then Some (Top, on_prepared p admitted b) else None
      | _, _ => None
      end
  | Stall, Wait =>
      match completed b !! next b, running b, preparing b with
      | None, [], None => Some (Stalled, on_stall b)
      | _, _, _ => None
      end
  | _, _ => None
  end.

Definition batch_result (b : Batch) : Result (list (ToolExecution * Z)) AgentLoopError :=
  match failure b with Some e => Err e | None => Ok (ordered b) end.

(** The runs of a batch. *)
Inductive reaches (calls : list PendingToolCall) : Phase * Batch → nat → Prop :=
| reaches_new : reaches calls (Top, batch_new calls) 0
| reaches_step c n event c' :
    reaches calls c n → step (length calls) c event = Some c' →
    reaches calls c' (match event with Cancel => n | _ => S n end).
End batch.

(** * The invariant of the loop *)

Section batch_invariant.
Context {R : SecretRedactor} (calls : list PendingToolCall).

(** [c] is the call at position [i] of the batch. *)
Definition at_index (i : nat) (c : PendingToolCall) : Prop :=
  ∃ c0, calls !! i = Some c0 ∧ same_call c c0 = true.

Definition in_preparation (b : Batch) : nat := if is_some (preparing b) then 1 else 0.
(** The calls that have left [unprepared]. *)
Definition taken (b : Batch) : nat := (launched b + length (ready b) + in_preparation b)%nat.
Definition running_indices (b : Batch) : list nat := map (λ r, r.1.1) (running b).

Record Inv (b : Batch) : Prop := mkInv {
  inv_order : (next b ≤ launched b)%nat;
  inv_budget : budget b = negb (is_some (preparing b));
  inv_rest : unprepared b = drop (taken b) calls;
  inv_taken : (taken b ≤ length calls)%nat;
  inv_window : (taken b ≤ next b + MAX_TOOL_EXECUTION_WINDOW)%nat;
  inv_preparing : ∀ c, preparing b = Some c → calls !! (launched b + length (ready b))%nat = Some c;
  inv_ready : ∀ j p, ready b !! j = Some p → at_index (launched b + j) (prepared_call p);
  inv_running : ∀ i c m, (i, c, m) ∈ running b → (next b ≤ i < launched b)%nat ∧ at_index i c;
  inv_nodup : NoDup (running_indices b);
  inv_completed : ∀ i e m, completed b !! i = Some (e, m) →
    (next b ≤ i < launched b)%nat ∧ at_index i (exec_call e) ∧ i ∉ running_indices b;
  inv_count : (length (running b) + size (completed b) + next b = launched b)%nat;
  inv_mutation : mutation_running b = true → launched b = S (next b) ∧
    ((∃ c, (next b, c, true) ∈ running b) ∨ ∃ e, completed b !! next b = Some (e, true));
  inv_mutates : ∀ i c, (i, c, true) ∈ running b → mutation_running b = true;
  inv_mutated : ∀ i e, completed b !! i = Some (e, true) → mutation_running b = true;
  inv_committed : ∃ kept, kept `sublist_of` take (next b) calls ∧
    Forall2 (λ x c, same_call (exec_call x.1) c = true ∧ unsettled x.1 = false) (ordered b) kept ∧
    (failure b = None → kept = take (next b) calls);
  inv_failure : failure b ≠ None → cancelled b = true;
}.

Lemma batch_inv_new : Inv (batch_new calls).
Proof.
  constructor; unfold taken, in_preparation, MAX_TOOL_EXECUTION_WINDOW; simpl; try done; try lia.
  all: try (intros; set_solver). constructor.
Qed.

Lemma inv_cancel b : Inv b → Inv (on_cancel b).
Proof. intros []. constructor; simpl; done. Qed.

(** The indices between [next] and [launched] run or are completed. *)
Lemma inv_cover b i :
  Inv b → (next b ≤ i < launched b)%nat → i ∈ running_indices b ∨ is_Some (completed b !! i).
Proof.
  intros Hb Hi. destruct (decide (is_Some (completed b !! i))) as [?|Hn]; [by right|]. left.
  destruct (decide (i ∈ running_indices b)) as [?|Hr]; [done|]. exfalso.
  set (l := (running_indices b ++ elements (dom (completed b)))%list).
  assert (Hl : i :: l ⊆+ seq (next b) (launched b - next b)).
  { apply NoDup_submseteq.
    - constructor; [|unfold l; apply NoDup_app; split_and!].
      + unfold l. rewrite elem_of_app, elem_of_elements, elem_of_dom. tauto.
      + apply (inv_nodup _ Hb).
      + intros j Hj [[e m] Hc]%elem_of_elements%elem_of_dom.
        by destruct (inv_completed _ Hb _ _ _ Hc) as (_ & _ & ?).
      + apply NoDup_elements.
    - intros j. rewrite elem_of_seq, elem_of_cons. unfold l.
      rewrite elem_of_app, elem_of_elements, elem_of_dom. intros [->|[Hj|[[e m] Hc]]]; [lia| |].
      + unfold running_indices in Hj. apply list_elem_of_fmap in Hj as ([[j' c] m] & -> & Hj). simpl.
        destruct (inv_running _ Hb _ _ _ Hj). lia.
      + destruct (inv_completed _ Hb _ _ _ Hc). lia. }
  apply submseteq_length in Hl. simpl in Hl. unfold l, running_indices in Hl.
  rewrite length_app, length_map, length_seq in Hl.
  change (length (elements (dom (completed b)))) with (size (dom (completed b))) in Hl.
  rewrite size_dom in Hl. pose proof (inv_count _ Hb). lia.
Qed.

Lemma running_snoc b i c m :
  map (λ r, r.1.1) (running b ++ [(i, c, m)])%list = (running_indices b ++ [i])%list.
Proof. unfold running_indices. by rewrite map_app. Qed.

Lemma running_below b i : Inv b → i ∈ running_indices b → (next b ≤ i < launched b)%nat.
Proof.
  intros Hb Hi. apply list_elem_of_fmap in Hi as ([[j c] m] & -> & Hj).
  by destruct (inv_running _ Hb _ _ _ Hj).
Qed.

Lemma at_index_failed i c message : at_index i c → at_index i (exec_call (failed_execution c message)).
Proof. done. Qed.

Lemma launched_fresh b :
  Inv b → completed b !! launched b = None ∧ launched b ∉ running_indices b.
Proof.
  intros Hb. split.
  - apply eq_None_not_Some. intros [[e m] H]. destruct (inv_completed _ Hb _ _ _ H). lia.
  - intros Hi. apply (running_below b) in Hi; [lia|done].
Qed.

(** Launching: the index [launched] becomes the new last one. *)
Lemma inv_launch_done front rest b e :
  Inv (set_ready b (front :: rest)) → mutation_running b = false →
  at_index (launched b) (exec_call e) → Inv (set_ready (launch_done e b) rest).
Proof.
  intros Hb Hmut He. destruct (launched_fresh _ Hb) as [Hfresh Hrun]. destruct Hb.
  constructor; unfold taken, in_preparation in *; simpl in *; try done; try lia.
  - rewrite inv_rest0. f_equal. lia.
  - intros c Hc. rewrite <- (inv_preparing0 c Hc). f_equal. lia.
  - intros j p Hj. rewrite plus_n_Sm. by apply (inv_ready0 (S j)).
  - intros i c m Hi. destruct (inv_running0 _ _ _ Hi). split; [lia|done].
  - intros i e' m Hi. destruct (decide (i = launched b)) as [->|Hne].
    + rewrite lookup_insert_eq in Hi. injection Hi as <- <-. split_and!; [lia|lia|done|done].
    + rewrite lookup_insert_ne in Hi by done. destruct (inv_completed0 _ _ _ Hi) as (? & ? & ?).
      split_and!; [lia|lia|done|done].
  - rewrite map_size_insert_None by done. lia.
  - rewrite Hmut. done.
  - intros i e' Hi. destruct (decide (i = launched b)) as [->|Hne].
    + by rewrite lookup_insert_eq in Hi.
    + rewrite lookup_insert_ne in Hi by done. by eapply inv_mutated0.
Qed.

Lemma inv_launch_task front rest b call m :
  Inv (set_ready b (front :: rest)) → mutation_running b = false →
  at_index (launched b) call → (m = true → launched b = next b) →
  Inv (set_ready (launch_task call m b) rest).
Proof.
  intros Hb Hmut Hcall Hfront. destruct (launched_fresh _ Hb) as [Hfresh Hrun]. destruct Hb.
  constructor; unfold taken, in_preparation in *; simpl in *; try done; try lia.
  - rewrite inv_rest0. f_equal. lia.
  - intros c Hc. rewrite <- (inv_preparing0 c Hc). f_equal. lia.
  - intros j p Hj. rewrite plus_n_Sm. by apply (inv_ready0 (S j)).
  - intros i c m'. rewrite elem_of_app, list_elem_of_singleton. intros [Hi|Hi].
    + destruct (inv_running0 _ _ _ Hi). split; [lia|done].
    + simplify_eq. split; [lia|done].
  - unfold running_indices. simpl. rewrite running_snoc. apply NoDup_app.
    split_and!; [done| |apply NoDup_singleton].
    intros i Hi ->%list_elem_of_singleton. done.
  - intros i e m' Hi. destruct (inv_completed0 _ _ _ Hi) as (? & ? & ?).
    split_and!; [lia|lia|done|]. unfold running_indices. simpl. rewrite running_snoc.
    rewrite elem_of_app, list_elem_of_singleton. intros [?|?]; [done|lia].
  - rewrite length_app. simpl. lia.
  - intros ->. rewrite (Hfront eq_refl). split; [done|]. left. exists call.
    rewrite <- (Hfront eq_refl). rewrite elem_of_app, list_elem_of_singleton. by right.
  - intros i c. rewrite elem_of_app, list_elem_of_singleton. intros [Hi|Hi]; [|by simplify_eq].
    specialize (inv_mutates0 _ _ Hi). congruence.
  - intros i e Hi. specialize (inv_mutated0 _ _ Hi). congruence.
Qed.

Lemma inv_launch_one front rest b :
  Inv (set_ready b (front :: rest)) → mutation_running b = false →
  (is_mutation front = true → launched b = next b) →
  Inv (set_ready (launch_one front b) rest).
Proof.
  intros Hb Hmut Hfront.
  pose proof (inv_ready _ Hb 0%nat front eq_refl) as Hat. rewrite Nat.add_0_r in Hat.
  destruct front as [call ro|e]; simpl; [|by eapply inv_launch_done].
  destruct (cancelled b); [by eapply inv_launch_done|].
  eapply inv_launch_task; [done..|]. by destruct ro.
Qed.

Lemma inv_launch r b : Inv (set_ready b r) → Inv (launch r b).
Proof.
  revert b. induction r as [|front rest IH]; intros b Hb; simpl; [done|].
  destruct (negb _ && _) eqn:Hgo; [|done]. apply andb_true_iff in Hgo as [Hmut%negb_true_iff _].
  destruct (is_mutation front && _) eqn:Hf; [done|]. apply IH, inv_launch_one; [done..|].
  intros Hm. rewrite Hm in Hf. simpl in Hf. by apply negb_false_iff, Nat.eqb_eq in Hf.
Qed.

Lemma inv_prepare_next b : Inv b → Inv (prepare_next b).
Proof.
  intros Hb. unfold prepare_next.
  destruct (_ && _ && _) eqn:Hgo; [|done].
  apply andb_true_iff in Hgo as [[Hp%negb_true_iff Hmut%negb_true_iff]%andb_true_iff Hw%Nat.ltb_lt].
  destruct (unprepared b) as [|call rest] eqn:Hun; [done|].
  destruct Hb. rewrite Hp in inv_budget0. simpl in inv_budget0. rewrite inv_budget0.
  unfold taken, in_preparation in *. rewrite Hp, Nat.add_0_r in *. rewrite Hun in inv_rest0.
  symmetry in inv_rest0.
  assert (Hcall : calls !! (launched b + length (ready b))%nat = Some call).
  { rewrite <- (Nat.add_0_r (_ + _)), <- lookup_drop, inv_rest0. done. }
  pose proof (lookup_lt_Some _ _ _ Hcall).
  constructor; unfold taken, in_preparation; simpl in *; try done; try lia.
  - replace (launched b + length (ready b) + 1)%nat with (S (launched b + length (ready b))) by lia.
    by rewrite (drop_S _ _ _ Hcall) in inv_rest0; simplify_eq.
  - intros c [= <-]. done.
Qed.

Lemma inv_prepared b c p admitted :
  Inv b → preparing b = Some c → same_call (prepared_call p) c = true →
  Inv (on_prepared p admitted b).
Proof.
  intros Hb Hp Hsame. unfold on_prepared.
  set (q := match p with CompleteCall e => _ | ExecuteCall _ _ => _ end).
  assert (Hq : prepared_call q.1 = prepared_call p).
  { unfold q. destruct p as [? ?|e]; [done|]. by destruct admitted. }
  destruct q as [p' signal]. simpl in Hq. destruct Hb.
  unfold taken, in_preparation in *. rewrite Hp in *. simpl in *.
  constructor; unfold taken, in_preparation; simpl in *; rewrite ?length_app; simpl; try done; try lia.
  - rewrite inv_rest0. f_equal. lia.
  - intros j x Hx. apply lookup_app_Some in Hx as [Hx|[Hj Hx]]; [by apply inv_ready0|].
    assert (j = length (ready b)) as ->
      by (apply lookup_lt_Some in Hx; simpl in Hx; lia).
    rewrite Nat.sub_diag in Hx. injection Hx as <-.
    exists c. rewrite Hq. split; [by apply inv_preparing0|done].
Qed.

Lemma find_running_spec index b r :
  find_running index b = Some r → r ∈ running b ∧ r.1.1 = index.
Proof.
  intros H. apply List.find_some in H as [Hin Heq]. split; [by apply list_elem_of_In|].
  by apply Nat.eqb_eq.
Qed.

Lemma same_call_at i c d : at_index i c → same_call d c = true → at_index i d.
Proof.
  unfold at_index, same_call. intros (c0 & Hc0 & H) Hd. exists c0. split; [done|].
  apply andb_true_iff in H as [H1%Nat.eqb_eq H2%String.eqb_eq].
  apply andb_true_iff in Hd as [D1%Nat.eqb_eq D2%String.eqb_eq].
  apply andb_true_iff. rewrite Nat.eqb_eq, String.eqb_eq. split; congruence.
Qed.

(** Removing one running task. *)
Lemma elem_of_others {A} (f : A → bool) x l : x ∈ List.filter f l ↔ x ∈ l ∧ f x = true.
Proof. rewrite !list_elem_of_In, filter_In. done. Qed.
Lemma others_indices index (l : list (nat * PendingToolCall * bool)) i :
  i ∈ map (λ r, r.1.1) (List.filter (λ r, negb (Nat.eqb r.1.1 index)) l) ↔
  i ∈ map (λ r, r.1.1) l ∧ i ≠ index.
Proof.
  rewrite !list_elem_of_fmap. split.
  - intros (r & -> & [Hr Hne]%elem_of_others). split; [by exists r|].
    apply negb_true_iff, Nat.eqb_neq in Hne. done.
  - intros [(r & -> & Hr) Hne]. exists r. split; [done|]. apply elem_of_others.
    split; [done|]. by apply negb_true_iff, Nat.eqb_neq.
Qed.
Lemma others_length index (l : list (nat * PendingToolCall * bool)) :
  NoDup (map (λ r, r.1.1) l) → index ∈ map (λ r, r.1.1) l →
  S (length (List.filter (λ r, negb (Nat.eqb r.1.1 index)) l)) = length l ∧
  NoDup (map (λ r, r.1.1) (List.filter (λ r, negb (Nat.eqb r.1.1 index)) l)).
Proof.
  induction l as [|r l IH]; simpl; [by intros _ ?%elem_of_nil|].
  intros [Hr Hl]%NoDup_cons Hin. destruct (Nat.eqb_spec r.1.1 index) as [Heq|Hne]; simpl.
  - assert (List.filter (λ r, negb (Nat.eqb r.1.1 index)) l = l) as ->; [|done].
    clear IH Hin Hl. induction l as [|r' l IH']; simpl; [done|]. simpl in Hr.
    apply not_elem_of_cons in Hr as [Hr' Hr].
    rewrite (proj2 (Nat.eqb_neq _ _)) by congruence. simpl. f_equal. auto.
  - apply elem_of_cons in Hin as [Hin|Hin]; [congruence|]. destruct (IH Hl Hin) as [Hlen Hnd].
    split; [simpl; lia|]. constructor; [|done]. rewrite others_indices. tauto.
Qed.

(** While a mutation is out, it is the only launched call. *)
Lemma mutation_alone b i c m :
  Inv b → mutation_running b = true → (i, c, m) ∈ running b →
  (i, m) = (next b, true) ∧ running b = [(i, c, m)] ∧ completed b = ∅.
Proof.
  intros Hb Hm Hin. destruct (inv_mutation _ Hb Hm) as [Hl Hnext].
  pose proof (inv_count _ Hb) as Hcount. pose proof (inv_running _ Hb _ _ _ Hin) as [Hi _].
  assert (i = next b) as -> by lia.
  destruct (running b) as [|x [|y l]] eqn:E; simpl in Hcount; [by apply elem_of_nil in Hin| |lia].
  apply list_elem_of_singleton in Hin as <-.
  assert (Hempty : completed b = ∅) by (apply map_size_empty_inv; lia).
  split_and!; [|done|done]. destruct Hnext as [[c' Hc]|[e He]].
  - apply list_elem_of_singleton in Hc. congruence.
  - by rewrite Hempty, lookup_empty in He.
Qed.

Lemma inv_finished b index call m result :
  Inv b → find_running index b = Some (index, call, m) →
  match result with Some e => same_call (exec_call e) call | None => true end = true →
  Inv (on_finished index call m result b).
Proof.
  intros Hb [Hin _]%find_running_spec Hsame.
  assert (Hidx : index ∈ running_indices b) by (apply list_elem_of_fmap; by exists (index, call, m)).
  destruct (inv_running _ Hb _ _ _ Hin) as [Hrange Hat].
  assert (Hfresh : completed b !! index = None).
  { apply eq_None_not_Some. intros [[e m'] H]. by destruct (inv_completed _ Hb _ _ _ H) as (_ & _ & []). }
  destruct (others_length index (running b)) as [Hlen Hnd]; [apply Hb|done|].
  unfold on_finished. set (e := match result with Some e => e | None => _ end).
  assert (He : at_index index (exec_call e)).
  { destruct result as [e0|]; [|done]. by eapply same_call_at. }
  assert (Hmut1 : m = true → mutation_running b = true) by (intros ->; by eapply Hb).
  assert (Hmut2 : mutation_running b = true → index = next b ∧ m = true).
  { intros Hm. by destruct (mutation_alone _ _ _ _ Hb Hm Hin) as [[= -> ->] _]. }
  destruct Hb.
  constructor; unfold taken, in_preparation in *; simpl; try done.
  - intros i c m' [Hi _]%elem_of_others. by eapply inv_running0.
  - intros i e' m' Hi. unfold running_indices. simpl. rewrite others_indices.
    destruct (decide (i = index)) as [->|Hne].
    + rewrite lookup_insert_eq in Hi. simplify_eq. split_and!; [lia|lia|done|tauto].
    + rewrite lookup_insert_ne in Hi by done. destruct (inv_completed0 _ _ _ Hi) as (? & ? & ?).
      split_and!; [lia|lia|done|tauto].
  - rewrite map_size_insert_None by done. lia.
  - intros Hm. destruct (inv_mutation0 Hm) as [Hl _]. destruct (Hmut2 Hm) as [-> ->].
    split; [done|]. right. exists e. by rewrite lookup_insert_eq.
  - intros i c [Hi _]%elem_of_others. by eapply inv_mutates0.
  - intros i e'. destruct (decide (i = index)) as [->|Hne].
    + rewrite lookup_insert_eq. intros [= _ ->]. by apply Hmut1.
    + rewrite lookup_insert_ne by done. intros Hi. by eapply inv_mutated0.
Qed.

(** Settlement keeps the call of a result, and a committed result is settled. *)
Lemma admit_profile_call a e e' :
  admit_profile a e = Ok e' → exec_call e' = exec_call e ∧ unsettled e' = unsettled e.
Proof.
  unfold admit_profile. destruct (profile a) as [kept|]; [|done].
  destruct kept, (check_result a); [by intros [= <-]| |by intros [= <-]|];
    destruct (check_fallback a); try done; by intros [= <-].
Qed.

(** The three shapes of a settlement. *)
Definition settled_result (a : Answers) (e : ToolExecution) : option (ToolExecution * Z) :=
  if unsettled e then None else
  match admit_profile a (admit_execution (admit_redacted a)
           (redact_execution (admit_execution (admit_raw a) e))) with
  | Ok e => match persisted a with Ok sequence => Some (e, sequence) | Err _ => None end
  | Err _ => None
  end.
Lemma settle_shape a e m b :
  let b' := settle a e m b in
  unprepared b' = unprepared b ∧ budget b' = budget b ∧ preparing b' = preparing b ∧
  ready b' = ready b ∧ running b' = running b ∧ completed b' = delete (next b) (completed b) ∧
  next b' = S (next b) ∧ launched b' = launched b ∧
  mutation_running b' = (if m then false else mutation_running b) ∧
  match settled_result a e with
  | Some r => ordered b' = (ordered b ++ [r])%list ∧ failure b' = failure b ∧ cancelled b' = cancelled b ∧
              exec_call r.1 = exec_call e ∧ unsettled r.1 = false
  | None => ordered b' = ordered b ∧ failure b' ≠ None ∧ cancelled b' = true
  end.
Proof.
  assert (Hget : ∀ f err, get_or_insert f err ≠ None) by by intros [].
  unfold settle, settled_result. destruct (unsettled e) eqn:Hu; simpl.
  { rewrite orb_true_r, app_nil_r. split_and!; done. }
  destruct (admit_profile _ _) as [e'|err] eqn:Hp; simpl;
    [|rewrite orb_true_r, app_nil_r; split_and!; done].
  destruct (persisted a); simpl; [|rewrite orb_true_r, app_nil_r; split_and!; done].
  apply admit_profile_call in Hp as [-> ->]. rewrite orb_false_r.
  destruct (admit_raw a), (admit_redacted a); split_and!; done.
Qed.

Lemma inv_settle b a e m :
  Inv b → completed b !! next b = Some (e, m) → Inv (settle a e m b).
Proof.
  intros Hb He. destruct (inv_completed _ Hb _ _ _ He) as ([_ Hlt] & Hat & Hnr).
  assert (Hm2 : mutation_running b = true → m = true).
  { intros Hm. destruct (inv_mutation _ Hb Hm) as [_ [[c Hc]|[e' He']]]; [|congruence].
    destruct Hnr. apply list_elem_of_fmap. by exists (next b, c, true). }
  assert (Hoff : (if m then false else mutation_running b) = false).
  { destruct m; [done|]. destruct (mutation_running b); [by specialize (Hm2 eq_refl)|done]. }
  destruct (settle_shape a e m b) as (Eu & Eb & Ep & Er & Erun & Ec & En & El & Em & Ers).
  rewrite Hoff in Em. destruct Hb.
  assert (Hrunning : ∀ i c m', (i, c, m') ∈ running b → i ≠ next b).
  { intros i c m' Hi ->. apply Hnr. apply list_elem_of_fmap. by exists (next b, c, m'). }
  constructor; unfold taken, in_preparation, running_indices in *;
    rewrite ?Eu, ?Eb, ?Ep, ?Er, ?Erun, ?Ec, ?En, ?El, ?Em; try done; try lia.
  - intros i c m' Hi. destruct (inv_running0 _ _ _ Hi). specialize (Hrunning _ _ _ Hi). split; [lia|done].
  - intros i e' m' [Hne Hi]%lookup_delete_Some. destruct (inv_completed0 _ _ _ Hi) as (? & ? & ?).
    split_and!; [lia|lia|done|done].
  - assert (size (completed b) ≠ 0%nat).
    { intros H%map_size_empty_inv. by rewrite H, lookup_empty in He. }
    rewrite map_size_delete_Some by done. lia.
  - intros i c Hi. specialize (inv_mutates0 _ _ Hi). specialize (Hm2 inv_mutates0). subst m.
    destruct (inv_running0 _ _ _ Hi). destruct (inv_mutation0 inv_mutates0). specialize (Hrunning _ _ _ Hi). lia.
  - intros i e' [Hne Hi]%lookup_delete_Some. specialize (inv_mutated0 _ _ Hi).
    destruct (inv_completed0 _ _ _ Hi). destruct (inv_mutation0 inv_mutated0). lia.
  - destruct inv_committed0 as (kept & Hsub & Hall & Hfull). destruct Hat as (c0 & Hc0 & Hsame).
    rewrite (take_S_r _ _ _ Hc0). destruct (settled_result a e) as [r|].
    + destruct Ers as (-> & -> & _ & Hc & Hu). exists (kept ++ [c0])%list. split_and!.
      * by apply sublist_app.
      * apply Forall2_app; [done|]. constructor; [|constructor]. by rewrite Hc.
      * intros Hf. by rewrite Hfull.
    + destruct Ers as (-> & Hf & _). exists kept. split_and!; [by apply sublist_inserts_r|done|done].
  - destruct (settled_result a e); [destruct Ers as (_ & -> & -> & _)|destruct Ers as (_ & _ & ->)]; done.
Qed.

(** * Progress *)

(** While the loop waits with nothing launched, a preparation is under way. *)
Definition waits (b : Batch) : Prop :=
  launched b = next b → (next b < length calls)%nat → is_Some (preparing b).

Lemma launch_next r b : next (launch r b) = next b ∧ preparing (launch r b) = preparing b.
Proof.
  revert b. induction r as [|p r IH]; intros b; simpl; [done|].
  destruct (_ && _); [|done]. destruct (_ && _); [done|].
  destruct (IH (launch_one p b)) as [-> ->]. unfold launch_one.
  destruct p as [call ro|e]; [destruct (cancelled b)|]; done.
Qed.

Lemma launch_mono r b : (launched b ≤ launched (launch r b))%nat.
Proof.
  revert b. induction r as [|p r IH]; intros b; simpl; [done|].
  destruct (_ && _); [|done]. destruct (_ && _); [done|].
  etransitivity; [|apply IH]. unfold launch_one.
  destruct p as [call ro|e]; [destruct (cancelled b)|]; simpl; lia.
Qed.

(** With nothing launched the front of the queue always starts. *)
Lemma launch_empties r b :
  Inv (set_ready b r) → launched (launch r b) = next b → ready (launch r b) = [] ∧ mutation_running b = false.
Proof.
  intros Hb. pose proof (inv_order _ Hb) as Ho. simpl in Ho. intros Hl.
  pose proof (launch_mono r b) as Hmono.
  assert (Hmut : mutation_running b = false).
  { destruct (mutation_running b) eqn:Hm; [|done]. destruct (inv_mutation _ Hb Hm) as [H _]. simpl in H. lia. }
  destruct r as [|p r]; simpl in *; [done|]. rewrite Hmut in *. simpl in *.
  assert (Heq : launched b = next b) by lia. rewrite Heq, Nat.sub_diag, Nat.eqb_refl in Hl. simpl in Hl.
  rewrite andb_false_r in Hl. pose proof (launch_mono r (launch_one p b)) as Hm2.
  assert (launched (launch_one p b) = S (launched b))
    by (unfold launch_one; destruct p as [call ro|e]; [destruct (cancelled b)|]; done). lia.
Qed.

Lemma turn_waits b : Inv b → waits (prepare_next (launch (ready b) b)).
Proof.
  intros Hb.
  assert (Hset : set_ready b (ready b) = b) by by destruct b.
  pose proof (inv_launch (ready b) b) as Hinv. rewrite Hset in Hinv. specialize (Hinv Hb).
  destruct (launch_next (ready b) b) as [En _].
  pose proof (launch_empties (ready b) b) as Hempty. rewrite Hset in Hempty. specialize (Hempty Hb).
  set (b1 := launch (ready b) b) in *. unfold waits, prepare_next.
  destruct (preparing b1) as [c|] eqn:Ep; simpl; [rewrite Ep; eauto|].
  destruct (mutation_running b1) eqn:Em; simpl.
  { intros Hl. destruct (inv_mutation _ Hinv Em). lia. }
  destruct (Nat.ltb_spec (launched b1 + length (ready b1) - next b1) MAX_TOOL_EXECUTION_WINDOW) as [Hw|Hw].
  - destruct (unprepared b1) as [|call rest] eqn:Eu; simpl.
    + rewrite Ep. intros Hl Hlt. destruct (Hempty ltac:(lia)) as [Er _].
      pose proof (inv_rest _ Hinv) as Hrest. rewrite Eu in Hrest. unfold taken, in_preparation in Hrest.
      rewrite Er, Ep in Hrest. simpl in Hrest. symmetry in Hrest. apply drop_nil_inv in Hrest. lia.
    + pose proof (inv_budget _ Hinv) as Hbud. rewrite Ep in Hbud. simpl in Hbud. rewrite Hbud. eauto.
  - intros Hl. destruct (Hempty ltac:(lia)) as [Er _]. rewrite Er in Hw. simpl in Hw.
    unfold MAX_TOOL_EXECUTION_WINDOW in Hw. lia.
Qed.

(** * Termination *)

(** Three units of work per call: prepare, run, settle. *)
Definition work (b : Batch) : nat :=
  (3 * length (unprepared b) + 3 * in_preparation b + 2 * length (ready b) + 2 * length (running b) +
   size (completed b))%nat.
Definition weight (c : Phase * Batch) : nat :=
  (2 * work c.2 + match c.1 with Top => 1 | _ => 0 end)%nat.

Lemma launch_work r b : Inv (set_ready b r) → (work (launch r b) ≤ work (set_ready b r))%nat.
Proof.
  revert b. induction r as [|p r IH]; intros b Hb; simpl; [done|].
  destruct (negb _ && _) eqn:Hgo; [|done]. apply andb_true_iff in Hgo as [Hmut%negb_true_iff _].
  destruct (is_mutation p && _) eqn:Hf; [done|].
  assert (Hstep : Inv (set_ready (launch_one p b) r)).
  { apply inv_launch_one; [done..|]. intros Hm. rewrite Hm in Hf. simpl in Hf.
    by apply negb_false_iff, Nat.eqb_eq in Hf. }
  etransitivity; [by apply IH|]. destruct (launched_fresh _ Hb) as [Hfresh _]. simpl in Hfresh.
  unfold work, in_preparation, launch_one. destruct p as [call ro|e]; [destruct (cancelled b)|]; simpl;
    rewrite ?map_size_insert_None by done; rewrite ?length_app; simpl; lia.
Qed.

Lemma prepare_next_work b : Inv b → (work (prepare_next b) ≤ work b)%nat.
Proof.
  intros Hb. unfold prepare_next, work, in_preparation.
  destruct (preparing b) as [c|] eqn:Ep; simpl; [by rewrite Ep|].
  destruct (negb _ && _); [|by rewrite Ep]. destruct (unprepared b) as [|call rest] eqn:Eu; simpl.
  { by rewrite Ep, Eu. }
  pose proof (inv_budget _ Hb) as Hbud. rewrite Ep in Hbud. simpl in Hbud. rewrite Hbud. simpl. lia.
Qed.

Lemma finished_work b index call m result :
  Inv b → find_running index b = Some (index, call, m) →
  (work (on_finished index call m result b) < work b)%nat.
Proof.
  intros Hb [Hin _]%find_running_spec.
  assert (Hidx : index ∈ running_indices b) by (apply list_elem_of_fmap; by exists (index, call, m)).
  assert (Hfresh : completed b !! index = None).
  { apply eq_None_not_Some. intros [[e m'] H]. by destruct (inv_completed _ Hb _ _ _ H) as (_ & _ & []). }
  destruct (others_length index (running b) (inv_nodup _ Hb) Hidx) as [Hlen _].
  unfold work, in_preparation. simpl. rewrite map_size_insert_None by done. lia.
Qed.

Lemma settle_work a e m b :
  completed b !! next b = Some (e, m) → (work (settle a e m b) < work b)%nat.
Proof.
  intros He. destruct (settle_shape a e m b) as (Eu & _ & Ep & Er & Erun & Ec & _).
  unfold work, in_preparation. rewrite Eu, Ep, Er, Erun, Ec.
  assert (size (completed b) ≠ 0%nat).
  { intros H%map_size_empty_inv. by rewrite H, lookup_empty in He. }
  rewrite map_size_delete_Some by done. lia.
Qed.

Lemma prepared_work b c p admitted :
  preparing b = Some c → (work (on_prepared p admitted b) < work b)%nat.
Proof.
  intros Hp. unfold work, in_preparation, on_prepared. rewrite Hp.
  destruct p; simpl; rewrite length_app; simpl; lia.
Qed.

(** * Every run *)

Definition phase_ok (c : Phase * Batch) : Prop :=
  match c.1 with
  | Top => True
  | Wait => (next c.2 < length calls)%nat ∧ waits c.2
  | Stalled => False
  end.

Lemma no_stall b :
  Inv b → (next b < length calls)%nat → waits b →
  is_Some (completed b !! next b) ∨ running b ≠ [] ∨ is_Some (preparing b).
Proof.
  intros Hb Hlt Hw. pose proof (inv_order _ Hb). destruct (decide (launched b = next b)) as [He|Hne].
  - right. right. by apply Hw.
  - destruct (inv_cover b (next b) Hb ltac:(lia)) as [Hr|Hc]; [|by left].
    right. left. intros E. unfold running_indices in Hr. rewrite E in Hr. by apply elem_of_nil in Hr.
Qed.

Lemma step_ok c event c' :
  Inv c.2 → phase_ok c → step (length calls) c event = Some c' →
  Inv c'.2 ∧ phase_ok c' ∧
  match event with Cancel => weight c' = weight c | _ => (weight c' < weight c)%nat end.
Proof.
  destruct c as [ph b]. intros Hb Hph Hstep. simpl in Hb, Hph.
  destruct event as [| |index result|p admitted|a|]; destruct ph; simpl in Hstep; try discriminate Hstep.
  1-3: injection Hstep as <-; split_and!; [by apply inv_cancel|exact Hph|done].
  - destruct (Nat.ltb_spec (next b) (length calls)) as [Hlt|]; [|done]. injection Hstep as <-.
    assert (Hset : set_ready b (ready b) = b) by by destruct b.
    pose proof (inv_launch (ready b) b) as Hinv. pose proof (launch_work (ready b) b) as Hw1.
    rewrite Hset in Hinv, Hw1. specialize (Hinv Hb). specialize (Hw1 Hb).
    pose proof (prepare_next_work _ Hinv) as Hw2. pose proof (turn_waits b Hb) as Hwaits.
    split_and!; [by apply inv_prepare_next| |unfold weight; simpl; lia].
    split; [|done]. simpl. unfold prepare_next. destruct (launch_next (ready b) b) as [En _].
    destruct (_ && _ && _); [|lia]. destruct (unprepared _); simpl; lia.
  - destruct (completed b !! next b); [done|].
    destruct (find_running index b) as [[[i call] m]|] eqn:Ef; [|done].
    assert (i = index) as -> by by destruct (find_running_spec _ _ _ Ef).
    destruct (match result with Some e => _ | None => _ end) eqn:Hsame; [|done]. injection Hstep as <-.
    pose proof (finished_work b index call m result Hb Ef).
    split_and!; [by apply inv_finished|done|unfold weight; simpl; lia].
  - destruct (completed b !! next b); [done|]. destruct (preparing b) as [c|] eqn:Ep; [|done].
    destruct (same_call _ _) eqn:Hsame; [|done]. injection Hstep as <-.
    pose proof (prepared_work b c p admitted Ep).
    split_and!; [by eapply inv_prepared|done|unfold weight; simpl; lia].
  - destruct (completed b !! next b) as [[e m]|] eqn:Ec; [|done]. injection Hstep as <-.
    pose proof (settle_work a e m b Ec).
    split_and!; [by apply inv_settle|done|unfold weight; simpl; lia].
  - destruct Hph as [Hlt Hw]. destruct (no_stall b Hb Hlt Hw) as [[x Hx]|[Hr|[x Hx]]].
    + by rewrite Hx in Hstep.
    + destruct (completed b !! next b); [done|]. by destruct (running b).
    + rewrite Hx in Hstep. destruct (completed b !! next b), (running b); done.
Qed.

Lemma reaches_ok c n :
  reaches calls c n → Inv c.2 ∧ phase_ok c ∧ (n + weight c ≤ 6 * length calls + 1)%nat.
Proof.
  induction 1 as [|c n event c' _ (Hb & Hph & Hn) Hstep].
  - split_and!; [apply batch_inv_new|done|]. unfold weight, work, in_preparation. simpl.
    rewrite map_size_empty. lia.
  - destruct (step_ok c event c' Hb Hph Hstep) as (Hb' & Hph' & Hw).
    split_and!; [done|done|]. destruct event; lia.
Qed.
End batch_invariant.

(** * What a batch guarantees *)

Section batch_properties.
Context {R : SecretRedactor}.

(** C36: a tool batch always ends. Whatever the tools, hooks and approvals
    answer, and in whatever order, every run of a batch of [k] calls takes at
    most [6 k + 1] steps besides cancellations, the stalled branch is never
    taken, and before the last result is settled there is always something to
    do: the next result, a running task or a preparation to wait for. *)
Theorem batch_terminates calls ph b n :
  reaches calls (ph, b) n →
  (n ≤ 6 * length calls + 1)%nat ∧ ph ≠ Stalled ∧
  (ph = Top → (next b < length calls)%nat → is_Some (step (length calls) (Top, b) Turn)) ∧
  (ph = Wait →
     is_Some (completed b !! next b) ∨ running b ≠ [] ∨ is_Some (preparing b)).
Proof.
  intros Hr. destruct (reaches_ok calls _ _ Hr) as (Hb & Hph & Hn). simpl in Hb, Hph. split_and!.
  - unfold weight in Hn. lia.
  - intros ->. done.
  - intros _ Hlt%Nat.ltb_lt. simpl. rewrite Hlt. eauto.
  - intros ->. destruct Hph as [Hlt Hw]. by apply (no_stall calls).
Qed.

(** C35: results are committed in call order, each at most once and only when
    its effects are settled: the durable results are those of a subsequence of
    the calls before [next], and when the batch succeeds they are exactly one
    result per call, in the order of the calls. *)
Theorem batch_commits_in_order calls ph b n :
  reaches calls (ph, b) n →
  let settled x c := same_call (exec_call x.1) c = true ∧ unsettled x.1 = false in
  (∃ kept, kept `sublist_of` take (next b) calls ∧ Forall2 settled (ordered b) kept) ∧
  (∀ l, next b = length calls → batch_result b = Ok l → Forall2 settled l calls).
Proof.
  intros Hr. destruct (reaches_ok calls _ _ Hr) as (Hb & _ & _). simpl in Hb.
  destruct (inv_committed _ _ Hb) as (kept & Hsub & Hall & Hfull). split; [eauto|].
  intros l Hnext. unfold batch_result. destruct (failure b); [done|]. intros [= <-].
  rewrite Hfull, Hnext, firstn_all in Hall by done. done.
Qed.

(** A mutation runs alone. While a mutating call runs, it is the next call
    to be committed, no other call of the batch runs or waits for its commit,
    and the loop starts neither a call nor a preparation. *)
Theorem mutations_run_alone calls ph b n i c :
  reaches calls (ph, b) n → (i, c, true) ∈ running b →
  i = next b ∧ running b = [(i, c, true)] ∧ completed b = ∅ ∧
  ∀ b', step (length calls) (Top, b) Turn = Some (Wait, b') →
        running b' = running b ∧ preparing b' = preparing b.
Proof.
  intros Hr Hin. destruct (reaches_ok calls _ _ Hr) as (Hb & _ & _). simpl in Hb.
  pose proof (inv_mutates _ _ Hb _ _ Hin) as Hm.
  destruct (mutation_alone calls _ _ _ _ Hb Hm Hin) as ([= ->] & Hrun & Hempty).
  split_and!; [done|done|done|]. intros b'. simpl. destruct (Nat.ltb _ _); [|done]. intros [= <-].
  assert (Hl : launch (ready b) b = b).
  { destruct b; simpl in *. destruct ready0; simpl; [done|]. by rewrite Hm. }
  rewrite Hl. unfold prepare_next. rewrite Hm, andb_false_r. done.
Qed.

(** The whole ordered window is bounded. The calls that are being prepared,
    are ready, run or wait for an earlier commit are never more than sixteen,
    so a slow first call cannot make the batch hold an unbounded tail of
    results. *)
Theorem batch_window calls ph b n :
  reaches calls (ph, b) n →
  (in_preparation b + length (ready b) + length (running b) + size (completed b) ≤
   MAX_TOOL_EXECUTION_WINDOW)%nat.
Proof.
  intros Hr. destruct (reaches_ok calls _ _ Hr) as (Hb & _ & _). simpl in Hb.
  pose proof (inv_window _ _ Hb) as Hw. pose proof (inv_count _ _ Hb). unfold taken in Hw. lia.
Qed.

Lemma launch_cancelled r b :
  cancelled b = true → running (launch r b) = running b ∧ cancelled (launch r b) = true.
Proof.
  revert b. induction r as [|p r IH]; intros b Hc; simpl; [done|].
  destruct (_ && _); [|done]. destruct (_ && _); [done|].
  assert (H1 : cancelled (launch_one p b) = true ∧ running (launch_one p b) = running b).
  { unfold launch_one. destruct p as [call ro|e]; [rewrite Hc|]; done. }
  destruct H1 as [H1 H2]. rewrite <- H2. by apply IH.
Qed.

Lemma launch_failure r b : failure (launch r b) = failure b.
Proof.
  revert b. induction r as [|p r IH]; intros b; simpl; [done|].
  destruct (_ && _); [|done]. destruct (_ && _); [done|]. rewrite IH. unfold launch_one.
  destruct p; [destruct (cancelled b)|]; done.
Qed.

Lemma step_starts_nothing total ph b event ph' b' :
  cancelled b = true → failure b ≠ None → step total (ph, b) event = Some (ph', b') →
  (∀ r, r ∈ running b' → r ∈ running b) ∧ failure b' ≠ None.
Proof.
  intros Hc Hf Hstep.
  destruct event as [| |index result|p admitted|a|], ph; simpl in Hstep; try discriminate Hstep.
  1-3: by injection Hstep as _ <-.
  - destruct (Nat.ltb _ _); [|done]. injection Hstep as _ <-.
    destruct (launch_cancelled (ready b) b Hc) as [Hrun _].
    unfold prepare_next. destruct (_ && _ && _); [destruct (unprepared _)|];
      simpl; rewrite Hrun, launch_failure; done.
  - destruct (completed b !! next b); [done|]. destruct (find_running index b) as [[[i c] m]|]; [|done].
    destruct (match result with Some e => _ | None => _ end); [|done]. injection Hstep as _ <-.
    split; [|done]. simpl. intros r [Hin _]%elem_of_others. done.
  - destruct (completed b !! next b); [done|]. destruct (preparing b); [|done].
    destruct (same_call _ _); [|done]. injection Hstep as _ <-.
    unfold on_prepared. destruct p; done.
  - destruct (completed b !! next b) as [[e m]|]; [|done]. injection Hstep as _ <-.
    destruct (settle_shape a e m b) as (_ & _ & _ & _ & Erun & _ & _ & _ & _ & Ers).
    rewrite Erun. split; [done|]. destruct (settled_result a e); [by destruct Ers as (_ & -> & _)|].
    by destruct Ers as (_ & ? & _).
  - destruct (completed b !! next b); [done|]. destruct (running b) eqn:Erun; [|done].
    destruct (preparing b); [done|]. injection Hstep as _ <-. simpl. rewrite Erun.
    split; [done|]. by destruct (failure b).
Qed.

(** After a failure no tool starts. A batch that recorded a failure is
    cancelled, stays cancelled, and no later step of it starts a task; calls
    that were ready are answered as cancelled. *)
Theorem failed_batch_starts_nothing calls ph b n event ph' b' :
  reaches calls (ph, b) n → failure b ≠ None →
  step (length calls) (ph, b) event = Some (ph', b') →
  cancelled b' = true ∧ (∀ r, r ∈ running b' → r ∈ running b) ∧ failure b' ≠ None.
Proof.
  intros Hr Hf Hstep. destruct (reaches_ok calls _ _ Hr) as (Hb & _ & _). simpl in Hb.
  destruct (reaches_ok calls (ph', b') _ (reaches_step _ _ _ _ _ Hr Hstep)) as (Hb' & _ & _).
  destruct (step_starts_nothing _ _ _ _ _ _ (inv_failure _ _ Hb Hf) Hf Hstep) as [Hrun Hfail].
  split_and!; [|done|done]. by apply (inv_failure _ _ Hb').
Qed.

(** A run given by its events. *)
Fixpoint run (total : nat) (c : Phase * Batch) (n : nat) (events : list Event)
    : option (Phase * Batch * nat) :=
  match events with
  | [] => Some (c, n)
  | event :: rest =>
      match step total c event with
      | Some c' => run total c' (match event with Cancel => n | _ => S n end) rest
      | None => None
      end
  end.
Lemma run_reaches calls events c n c' n' :
  reaches calls c n → run (length calls) c n events = Some (c', n') → reaches calls c' n'.
Proof.
  revert c n. induction events as [|e events IH]; intros c n Hr; simpl; [by intros [= <- <-]|].
  destruct (step _ c e) as [c1|] eqn:E; [|done]. apply IH. by econstructor.
Qed.
End batch_properties.

(** * Witnesses: a read-only call, a mutation and another read-only call *)

Definition sample_call (i : nat) : PendingToolCall :=
  mkCall (String (ascii_of_nat (48 + i)) "") "invocation" "tool" (Some JNull) i.
Definition sample_calls : list PendingToolCall := [sample_call 0; sample_call 1; sample_call 2].
Definition sample_answers : Answers := mkAnswers true true (Ok true) (Ok tt) (Ok tt) (Ok 7).
Definition ran (i : nat) : Event := Finished i (Some (mkExecution false (sample_call i) (OutText "x") false)).

(** The first call is settled while the third is being prepared; then the
    mutation starts. *)
Definition overlap_events : list Event :=
  [Turn; Prepared (ExecuteCall (sample_call 0) true) true;
   Turn; Prepared (ExecuteCall (sample_call 1) false) true; Turn; ran 0; Turn; Settle sample_answers; Turn].
Definition finish_events : list Event :=
  (overlap_events ++
   [ran 1; Turn; Settle sample_answers; Turn; Prepared (ExecuteCall (sample_call 2) true) true;
    Turn; ran 2; Turn; Settle sample_answers])%list.
Definition sample_run (events : list Event) : option (Phase * Batch * nat) :=
  @run mask_redactor 3 (Top, batch_new sample_calls) 0 events.

Lemma sample_reaches events ph b n :
  sample_run events = Some (ph, b, n) → @reaches mask_redactor sample_calls (ph, b) n.
Proof. intros H. eapply (@run_reaches mask_redactor); [apply reaches_new|exact H]. Qed.

(** A preparation that is under way when a mutation starts goes on while the
    mutation runs: the third call is being prepared while the second mutates. *)
Lemma preparation_overlaps_mutation :
  ∃ b n, @reaches mask_redactor sample_calls (Wait, b) n ∧
    running b = [(1%nat, sample_call 1, true)] ∧ preparing b = Some (sample_call 2).
Proof.
  eexists _, _. split; [apply (sample_reaches overlap_events); vm_compute; reflexivity|].
  split; reflexivity.
Qed.

Definition final_of (events : list Event) : Phase * Batch * nat :=
  default (Stalled, batch_new [], 0%nat) (sample_run events).

(** The first call's task dies while the second is ready and the third in
    preparation. *)
Definition failed_events : list Event :=
  [Turn; Prepared (ExecuteCall (sample_call 0) true) true; Turn;
   Prepared (ExecuteCall (sample_call 1) false) true; Turn; Finished 0 None; Turn; Settle sample_answers].

Definition overlap_end : Phase * Batch * nat := Eval vm_compute in final_of overlap_events.
Definition finish_end : Phase * Batch * nat := Eval vm_compute in final_of finish_events.
Definition failed_end : Phase * Batch * nat := Eval vm_compute in final_of failed_events.

Lemma overlap_reaches : @reaches mask_redactor sample_calls overlap_end.1 overlap_end.2.
Proof. apply (sample_reaches overlap_events). vm_compute. reflexivity. Qed.
Lemma finish_reaches : @reaches mask_redactor sample_calls finish_end.1 finish_end.2.
Proof. apply (sample_reaches finish_events). vm_compute. reflexivity. Qed.
Lemma failed_reaches : @reaches mask_redactor sample_calls failed_end.1 failed_end.2.
Proof. apply (sample_reaches failed_events). vm_compute. reflexivity. Qed.

Lemma batch_terminates_witness :
  (overlap_end.2 ≤ 19)%nat ∧ running overlap_end.1.2 ≠ [].
Proof.
  destruct (@batch_terminates mask_redactor sample_calls overlap_end.1.1
    overlap_end.1.2 overlap_end.2) as (Hn & _ & _ & Hw).
  - exact overlap_reaches.
  - split; [exact Hn|]. destruct (Hw eq_refl) as [[x H]|[H|[x H]]]; [discriminate H|exact H|].
    vm_compute. discriminate.
Defined.

Lemma batch_commits_in_order_witness :
  Forall2 (λ x c, same_call (exec_call x.1) c = true ∧ unsettled x.1 = false)
    (ordered finish_end.1.2) sample_calls ∧
  finish_end.2 = 18%nat.
Proof.
  split; [|vm_compute; reflexivity].
  refine (proj2 (@batch_commits_in_order mask_redactor sample_calls finish_end.1.1
    finish_end.1.2 finish_end.2 _) _ _ _).
  - exact finish_reaches.
  - vm_compute. reflexivity.
  - vm_compute. reflexivity.
Defined.

Lemma mutations_run_alone_witness :
  1%nat = next overlap_end.1.2 ∧ completed overlap_end.1.2 = ∅.
Proof.
  destruct (@mutations_run_alone mask_redactor sample_calls overlap_end.1.1
    overlap_end.1.2 overlap_end.2 1 (sample_call 1)) as (Hn & _ & He & _).
  - exact overlap_reaches.
  - vm_compute. left.
  - exact (conj Hn He).
Defined.

Lemma batch_window_witness :
  (in_preparation overlap_end.1.2 + 1 ≤ MAX_TOOL_EXECUTION_WINDOW)%nat.
Proof.
  refine (Nat.le_trans _ _ _ _ (@batch_window mask_redactor sample_calls overlap_end.1.1
    overlap_end.1.2 overlap_end.2 _)).
  - vm_compute. lia.
  - exact overlap_reaches.
Defined.

Lemma failed_batch_starts_nothing_witness :
  cancelled (final_of (failed_events ++ [Turn])%list).1.2 = true ∧
  failure failed_end.1.2 =
    Some (EffectsUnsettled "tool invocation effects remain unproven").
Proof.
  split; [|vm_compute; reflexivity].
  refine (proj1 (@failed_batch_starts_nothing mask_redactor sample_calls Top
    failed_end.1.2 failed_end.2 Turn Wait _ _ _ _)).
  - exact failed_reaches.
  - vm_compute. discriminate.
  - vm_compute. reflexivity.
Defined.
