(* ===== verification/SubagentEvents.v ===== *)
(** Durable subagent lifecycle records in tool-call order
    ([rw-core/src/engine/turn/subagent_events.rs]).

    Calls of a batch run concurrently; each can report that a child was spawned
    or has finished.  [lifecycle] checks and updates the state of its call,
    waits until the counter reaches the position of the call, sends the record
    to the actor, waits for the answer and lets the next call spawn.  [step]
    interleaves these pieces with registration, with [advance_after_tool] and
    with the actor that appends the records.

    The batch loop registers calls in call order as they are prepared and
    advances the calls in order, each after its task has ended, so after its
    pending [lifecycle] calls; [committed] is the loop's [next].  Progress
    reports are for display only and left out. *)
From S2P Require Import Prelude Text.

Definition MAX_RETAINED_SUBAGENTS : nat := 256.

(** [SubagentLifecycleEvent]; of a result only its identity is read. *)
Inductive Lifecycle : Type :=
| Spawned (subagent_id child_session_id task : string)
| Finished (subagent_id result_subagent_id result_session_id : string).
Definition is_spawn (e : Lifecycle) : bool := match e with Spawned _ _ _ => true | _ => false end.

(** [ActorSubagentLifecycleState] *)
Record CallState : Type := mkCallState {
  single_spawned : bool;
  active : gmap string string;
}.
Definition call_state_new : CallState := mkCallState false ∅.

(** The state part of [lifecycle] *)
Definition admit_event (multiple : bool) (s : CallState) (e : Lifecycle) : Result CallState string :=
  match e with
  | Spawned id session _ =>
      if (negb multiple && single_spawned s) || is_some (active s !! id) then
        Err "subagent lifecycle emitted a duplicate active spawn"
      else if Nat.leb MAX_RETAINED_SUBAGENTS (size (active s)) then
        Err "child lifecycle capacity exceeded"
      else Ok (mkCallState true (<[id := session]> (active s)))
  | Finished id result_id result_session =>
      match active s !! id with
      | None => Err "subagent lifecycle emitted Finished without an active spawn"
      | Some session =>
          if negb (String.eqb result_id id) || negb (String.eqb result_session session) then
            Err "subagent lifecycle Finished identity does not match Spawned"
          else Ok (mkCallState (single_spawned s) (delete id (active s)))
      end
  end.

(** A [lifecycle] call that has not returned. *)
Inductive Stage : Type := Waiting | Passed | Sent | Answered (ok : bool).
Record Pending : Type := mkPending {
  p_index : nat;
  p_position : nat;
  p_multiple : bool;
  p_event : Lifecycle;
  p_stage : Stage;
}.
Definition at_stage (p : Pending) (st : Stage) : Pending :=
  mkPending (p_index p) (p_position p) (p_multiple p) (p_event p) st.

(** [OrderedSubagentCoordinator] with the sinks of the calls, the records on
    their way to the actor and the records appended.  A record is the position
    of its call with the event. *)
Record Coordinator : Type := mkCoordinator {
  positions : gmap nat nat;
  multi_producer_calls : gset nat;
  next_spawn : nat;
  allowed_finish : nat;
  sinks : gmap nat CallState;
  pending : list Pending;
  sent : list (nat * Lifecycle);
  durable : list (nat * Lifecycle);
  committed : nat;
}.
Definition coordinator_new : Coordinator := mkCoordinator ∅ ∅ 0 0 ∅ [] [] [] 0.

(** [register] *)
Definition register (c : Coordinator) (index : nat) (multiple : bool) : Coordinator :=
  mkCoordinator
    (match positions c !! index with
     | Some _ => positions c
     | None => <[index := size (positions c)]> (positions c)
     end)
    (if multiple then {[index]} ∪ multi_producer_calls c else multi_producer_calls c)
    (next_spawn c) (allowed_finish c) (sinks c) (pending c) (sent c) (durable c) (committed c).

(** [advance_after_tool], at the end of an iteration of the batch loop *)
Definition advance_after_tool (c : Coordinator) (index : nat) : Coordinator :=
  let '(ns, af) :=
    match positions c !! index with
    | None => (next_spawn c, allowed_finish c)
    | Some p =>
        (if Nat.eqb (next_spawn c) p then S p else next_spawn c,
         if Nat.eqb (allowed_finish c) p then S p else allowed_finish c)
    end in
  mkCoordinator (positions c) (multi_producer_calls c) ns af (sinks c) (pending c) (sent c) (durable c)
    (S index).

Definition set_pending (c : Coordinator) (l : list Pending) : Coordinator :=
  mkCoordinator (positions c) (multi_producer_calls c) (next_spawn c) (allowed_finish c) (sinks c) l
    (sent c) (durable c) (committed c).

(** [lifecycle] up to its first wait *)
Definition begin_lifecycle (c : Coordinator) (index : nat) (e : Lifecycle) : Result Coordinator string :=
  match positions c !! index with
  | None => Err "subagent lifecycle came from an unregistered tool call"
  | Some position =>
      let multiple := bool_decide (index ∈ multi_producer_calls c) in
      let? s := admit_event multiple (default call_state_new (sinks c !! index)) e in
      Ok (mkCoordinator (positions c) (multi_producer_calls c) (next_spawn c) (allowed_finish c)
            (<[index := s]> (sinks c))
            (pending c ++ [mkPending index position multiple e Waiting])%list
            (sent c) (durable c) (committed c))
  end.

(** [wait_for] returns. *)
Definition counter (c : Coordinator) (e : Lifecycle) : nat :=
  if is_spawn e then next_spawn c else allowed_finish c.

(** [persist_event] sends. *)
Definition send_record (c : Coordinator) (p : Pending) (l : list Pending) : Coordinator :=
  mkCoordinator (positions c) (multi_producer_calls c) (next_spawn c) (allowed_finish c) (sinks c) l
    (sent c ++ [(p_position p, p_event p)])%list (durable c) (committed c).

(** [lifecycle] after the answer *)
Definition end_lifecycle (c : Coordinator) (p : Pending) (ok : bool) (l : list Pending) : Coordinator :=
  mkCoordinator (positions c) (multi_producer_calls c)
    (if ok && is_spawn (p_event p) && negb (p_multiple p) then S (p_position p) else next_spawn c)
    (allowed_finish c) (sinks c) l (sent c) (durable c) (committed c).

(** The actor takes a record and appends it, or fails to. *)
Definition actor (c : Coordinator) (r : nat * Lifecycle) (rest : list (nat * Lifecycle)) (ok : bool)
    : Coordinator :=
  mkCoordinator (positions c) (multi_producer_calls c) (next_spawn c) (allowed_finish c) (sinks c)
    (pending c) rest (if ok then durable c ++ [r] else durable c)%list (committed c).

Inductive step : Coordinator → Coordinator → Prop :=
| step_register c i multiple :
    (committed c ≤ i)%nat → (∀ j p, positions c !! j = Some p → j < i)%nat →
    step c (register c i multiple)
| step_begin c c' i e :
    (committed c ≤ i)%nat → begin_lifecycle c i e = Ok c' → step c c'
| step_pass c l1 p l2 :
    pending c = (l1 ++ p :: l2)%list → p_stage p = Waiting → counter c (p_event p) = p_position p →
    step c (set_pending c (l1 ++ at_stage p Passed :: l2)%list)
| step_send c l1 p l2 :
    pending c = (l1 ++ p :: l2)%list → p_stage p = Passed →
    step c (send_record c p (l1 ++ at_stage p Sent :: l2)%list)
| step_actor c r rest ok : sent c = r :: rest → step c (actor c r rest ok)
| step_answer c l1 p l2 ok :
    pending c = (l1 ++ p :: l2)%list → p_stage p = Sent →
    step c (set_pending c (l1 ++ at_stage p (Answered ok) :: l2)%list)
| step_end c l1 p l2 ok :
    pending c = (l1 ++ p :: l2)%list → p_stage p = Answered ok →
    step c (end_lifecycle c p ok (l1 ++ l2)%list)
| step_cancel c l1 p l2 :
    pending c = (l1 ++ p :: l2)%list → step c (set_pending c (l1 ++ l2)%list)
| step_advance c :
    Forall (λ p, p_index p ≠ committed c) (pending c) →
    step c (advance_after_tool c (committed c)).

Inductive reachable : Coordinator → Prop :=
| reachable_new : reachable coordinator_new
| reachable_step c c' : reachable c → step c c' → reachable c'.

(** * The invariant *)

Definition sink_of (c : Coordinator) (i : nat) : CallState := default call_state_new (sinks c !! i).
Definition spawns_of (i : nat) (l : list Pending) : list Pending :=
  List.filter (λ p, Nat.eqb (p_index p) i && is_spawn (p_event p)) l.
(** The positions of the records of one kind, in the order of the log. *)
Definition order_of (spawn : bool) (l : list (nat * Lifecycle)) : list nat :=
  map fst (List.filter (λ r, Bool.eqb (is_spawn r.2) spawn) l).
Definition gate (c : Coordinator) (spawn : bool) : nat := if spawn then next_spawn c else allowed_finish c.

Record PendingOk (c : Coordinator) (p : Pending) : Prop := mkPendingOk {
  pend_position : positions c !! p_index p = Some (p_position p);
  pend_multiple : p_multiple p = bool_decide (p_index p ∈ multi_producer_calls c);
  pend_open : (committed c ≤ p_index p)%nat;
  pend_gate : p_stage p ≠ Waiting → gate c (is_spawn (p_event p)) = p_position p;
}.

Record Inv (c : Coordinator) : Prop := mkInv {
  pos_lt : ∀ i p, positions c !! i = Some p → (p < size (positions c))%nat;
  pos_mono : ∀ i j p q, positions c !! i = Some p → positions c !! j = Some q → (i < j → p < q)%nat;
  pos_onto : ∀ p, (p < size (positions c))%nat → ∃ i, positions c !! i = Some p;
  gate_le : ∀ b, (gate c b ≤ size (positions c))%nat;
  gate_past : ∀ b i p, positions c !! i = Some p → (i < committed c → p < gate c b)%nat;
  finish_ahead : ∀ i p, positions c !! i = Some p → (p < allowed_finish c → i < committed c)%nat;
  spawn_ahead : ∀ i p, positions c !! i = Some p → (p < next_spawn c)%nat →
    (i < committed c)%nat ∨
    ((i ∉ multi_producer_calls c) ∧ single_spawned (sink_of c i) = true ∧ spawns_of i (pending c) = []);
  pend_ok : ∀ p, p ∈ pending c → PendingOk c p;
  pend_single : ∀ i, i ∉ multi_producer_calls c →
    (length (spawns_of i (pending c)) ≤ (if single_spawned (sink_of c i) then 1 else 0))%nat;
  log_order : ∀ b, StronglySorted le (order_of b (durable c ++ sent c)%list);
  log_gate : ∀ b, Forall (λ p, p ≤ gate c b)%nat (order_of b (durable c ++ sent c)%list);
}.

Lemma pos_inj c i j p : Inv c → positions c !! i = Some p → positions c !! j = Some p → i = j.
Proof.
  intros Hc Hi Hj. destruct (Nat.lt_trichotomy i j) as [H|[H|H]]; [|done|].
  - pose proof (pos_mono _ Hc _ _ _ _ Hi Hj H). lia.
  - pose proof (pos_mono _ Hc _ _ _ _ Hj Hi H). lia.
Qed.
(** The gates have reached the call the batch loop waits for. *)
Lemma gate_reached c b p : Inv c → positions c !! committed c = Some p → (p ≤ gate c b)%nat.
Proof.
  intros Hc Hp. destruct (Nat.le_gt_cases p (gate c b)) as [|Hlt]; [done|].
  pose proof (pos_lt _ Hc _ _ Hp).
  destruct (pos_onto _ Hc (gate c b)) as [j Hj]; [lia|].
  destruct (Nat.lt_ge_cases j (committed c)) as [Hjc|Hjc].
  - pose proof (gate_past _ Hc b _ _ Hj Hjc). lia.
  - destruct (Nat.eq_dec (committed c) j) as [<-|]; [simplify_eq; lia|].
    pose proof (pos_mono _ Hc _ _ _ _ Hp Hj ltac:(lia)). lia.
Qed.

Lemma spawns_of_app i l1 l2 : spawns_of i (l1 ++ l2) = (spawns_of i l1 ++ spawns_of i l2)%list.
Proof. apply List.filter_app. Qed.
Lemma spawns_of_stage i l1 p st l2 :
  length (spawns_of i (l1 ++ at_stage p st :: l2)) = length (spawns_of i (l1 ++ p :: l2)).
Proof. rewrite !spawns_of_app, !length_app. simpl. by destruct (_ && _). Qed.
Lemma spawns_of_drop i l1 p l2 :
  (length (spawns_of i (l1 ++ l2)) ≤ length (spawns_of i (l1 ++ p :: l2)))%nat.
Proof. rewrite !spawns_of_app, !length_app. simpl. destruct (_ && _); simpl; lia. Qed.
Lemma order_of_app b l1 l2 : order_of b (l1 ++ l2) = (order_of b l1 ++ order_of b l2)%list.
Proof. unfold order_of. by rewrite List.filter_app, map_app. Qed.

(** Changing the pending calls only: each of the new ones is an old one, or a
    move of one that keeps its gate. *)
Lemma inv_set_pending c l :
  Inv c → (∀ p, p ∈ l → PendingOk c p) →
  (∀ i, length (spawns_of i l) ≤ length (spawns_of i (pending c)))%nat → Inv (set_pending c l).
Proof.
  intros [] Hok Hlen. constructor; try done.
  - intros i p Hp Hlt. destruct (spawn_ahead0 i p Hp Hlt) as [|(? & ? & Hnil)]; [by left|right].
    split_and!; [done|done|]. specialize (Hlen i). rewrite Hnil in Hlen. simpl in Hlen.
    apply nil_length_inv. simpl. lia.
  - intros p Hp. destruct (Hok p Hp). by constructor.
  - intros i Hi. simpl. specialize (Hlen i). specialize (pend_single0 i Hi).
    change (sink_of (set_pending c l) i) with (sink_of c i). lia.
Qed.
Lemma inv_stage c l1 p st l2 :
  Inv c → pending c = (l1 ++ p :: l2)%list →
  (st ≠ Waiting → gate c (is_spawn (p_event p)) = p_position p) →
  Inv (set_pending c (l1 ++ at_stage p st :: l2)%list).
Proof.
  intros Hc Hl Hgate. apply inv_set_pending; [done| |].
  - intros q Hq. assert (q ∈ pending c ∨ q = at_stage p st) as [Hq'| ->].
    { rewrite Hl. rewrite elem_of_app, elem_of_cons in *. tauto. }
    + by apply (pend_ok _ Hc).
    + destruct (pend_ok _ Hc p) as []; [rewrite Hl; apply elem_of_app; right; left|by constructor].
  - intros i. by rewrite spawns_of_stage, Hl.
Qed.

(** * Every step preserves it *)

Lemma inv_coordinator_new : Inv coordinator_new.
Proof.
  constructor; try done.
  - intros p. simpl. rewrite map_size_empty. lia.
  - intros []; simpl; lia.
  - intros p Hp. by apply elem_of_nil in Hp.
  - intros b. constructor.
Qed.

Lemma inv_register c i multiple :
  Inv c → (committed c ≤ i)%nat → (∀ j p, positions c !! j = Some p → j < i)%nat →
  Inv (register c i multiple).
Proof.
  intros Hc Hi Hnew. assert (positions c !! i = None) as Hn.
  { destruct (positions c !! i) as [p|] eqn:E; [|done]. apply Hnew in E. lia. }
  pose proof Hc as []. unfold register. rewrite Hn.
  assert (∀ j p, <[i := size (positions c)]> (positions c) !! j = Some p →
            (j = i ∧ p = size (positions c)) ∨ (j < i ∧ positions c !! j = Some p))%nat as Hlook.
  { intros j p [[<- <-]|[Hne Hj]]%lookup_insert_Some; [by left|]. right. split; [by eapply Hnew|done]. }
  assert (∀ j, (j < i)%nat → j ∈ (if multiple then {[i]} ∪ multi_producer_calls c else multi_producer_calls c)
            ↔ j ∈ multi_producer_calls c) as Hmulti.
  { intros j Hj. destruct multiple; [|done]. rewrite elem_of_union, elem_of_singleton. split; [intros [?|?]; [lia|done]|tauto]. }
  assert (∀ b, gate (register c i multiple) b = gate c b) as Hg by (by intros []).
  constructor; simpl; try done.
  - intros j p [[-> ->]|[_ Hj]]%Hlook; rewrite map_size_insert_None by done; [lia|].
    specialize (pos_lt0 _ _ Hj). lia.
  - intros j k p q [[-> ->]|[Hj Ej]]%Hlook [[-> ->]|[Hk Ek]]%Hlook Hjk; try lia; [|by eapply pos_mono0].
    by apply pos_lt0 in Ej.
  - intros p. rewrite map_size_insert_None by done. intros Hp.
    destruct (Nat.eq_dec p (size (positions c))) as [->|]; [exists i; apply lookup_insert_eq|].
    destruct (pos_onto0 p) as [j Hj]; [lia|]. exists j. rewrite lookup_insert_ne; [done|].
    intros ->. congruence.
  - intros b. rewrite map_size_insert_None by done. specialize (gate_le0 b). destruct b; simpl in *; lia.
  - intros b j p [[-> ->]|[_ Hj]]%Hlook Hlt; [lia|]. by destruct b; [apply (gate_past0 true j)|apply (gate_past0 false j)].
  - intros j p [[-> ->]|[_ Hj]]%Hlook Hlt; [|by eapply finish_ahead0]. specialize (gate_le0 false). simpl in gate_le0. lia.
  - intros j p [[-> ->]|[Hj Ej]]%Hlook Hlt; [specialize (gate_le0 true); simpl in gate_le0; lia|].
    rewrite Hmulti by done. by apply (spawn_ahead0 j p).
  - intros p Hp. destruct (pend_ok0 p Hp) as [Hpos Hm Ho Hga]. pose proof (Hnew _ _ Hpos) as Hlt.
    constructor; simpl; try done.
    + by rewrite lookup_insert_ne by lia.
    + rewrite Hm. apply bool_decide_ext. by rewrite Hmulti.
  - intros j Hj. apply pend_single0. destruct multiple; [set_solver|done].
Qed.

Lemma admit_event_spec multiple s e s' :
  admit_event multiple s e = Ok s' →
  single_spawned s' = (if is_spawn e then true else single_spawned s) ∧
  (is_spawn e = true → multiple = false → single_spawned s = false).
Proof.
  destruct e as [id session task|id rid rs]; cbn [admit_event is_spawn].
  - destruct (_ || _) eqn:E; [done|]. destruct (Nat.leb _ _); [done|]. intros [= <-].
    split; [done|]. intros _ ->. simpl in E. by apply orb_false_iff in E as [? _].
  - destruct (active s !! id); [|done]. destruct (_ || _); [done|]. by intros [= <-].
Qed.

Lemma sink_insert c c' i s j :
  sinks c' = <[i := s]> (sinks c) → sink_of c' j = if decide (j = i) then s else sink_of c j.
Proof.
  intros E. unfold sink_of. rewrite E. destruct (decide (j = i)) as [->|Hne].
  - by rewrite lookup_insert_eq.
  - by rewrite lookup_insert_ne by done.
Qed.

Lemma inv_begin c c' i e :
  Inv c → (committed c ≤ i)%nat → begin_lifecycle c i e = Ok c' → Inv c'.
Proof.
  intros Hc Hi. unfold begin_lifecycle. destruct (positions c !! i) as [p|] eqn:Ep; [|done].
  set (m := bool_decide (i ∈ multi_producer_calls c)).
  destruct (admit_event m _ e) as [s|] eqn:Ea; simpl; [|done]. intros [= <-].
  apply admit_event_spec in Ea as [Hs Hsingle]. change (default _ _) with (sink_of c i) in *.
  pose proof Hc as [].
  set (c' := mkCoordinator _ _ _ _ _ _ _ _ _).
  pose proof (λ j, sink_insert c c' i s j eq_refl) as Hsink.
  assert (∀ j, spawns_of j (pending c') = (spawns_of j (pending c) ++
    if Nat.eqb i j && is_spawn e then [mkPending i p m e Waiting] else [])%list) as Hsp.
  { intros j. unfold c'. simpl. rewrite spawns_of_app. simpl. by destruct (Nat.eqb i j && is_spawn e). }
  assert (i ∉ multi_producer_calls c → m = false) as Hm by (intros; by apply bool_decide_eq_false_2).
  constructor; try done.
  - intros j q Hq Hlt. destruct (spawn_ahead0 j q Hq Hlt) as [|(Hnm & Hss & Hnil)]; [by left|right].
    rewrite Hsp, Hsink, Hnil. split; [done|].
    destruct (decide (j = i)) as [->|Hne].
    + rewrite Nat.eqb_refl, Hs. destruct (is_spawn e); [|done].
      rewrite Hsingle in Hss; [done|done|by apply Hm].
    + destruct (Nat.eqb_spec i j); [done|done].
  - intros q Hq. simpl in Hq. apply elem_of_app in Hq as [Hq| ->%list_elem_of_singleton].
    + destruct (pend_ok0 q Hq). by constructor.
    + by constructor.
  - intros j Hj. simpl in Hj. specialize (pend_single0 j Hj). rewrite Hsp, Hsink, length_app.
    destruct (decide (j = i)) as [->|Hne].
    + rewrite Nat.eqb_refl, Hs. destruct (is_spawn e); simpl; [|lia].
      rewrite Hsingle in pend_single0; [simpl in *; lia|done|by apply Hm].
    + destruct (Nat.eqb_spec i j); [done|]. simpl. lia.
Qed.

Lemma pending_mid c l1 p l2 : pending c = (l1 ++ p :: l2)%list → p ∈ pending c.
Proof. intros ->. apply elem_of_app. right. left. Qed.
Lemma inv_drop c l1 p l2 : Inv c → pending c = (l1 ++ p :: l2)%list → Inv (set_pending c (l1 ++ l2)%list).
Proof.
  intros Hc Hl. apply inv_set_pending; [done| |].
  - intros q Hq. apply (pend_ok _ Hc). rewrite Hl. rewrite elem_of_app in *. rewrite elem_of_cons. tauto.
  - intros i. rewrite Hl. apply spawns_of_drop.
Qed.

Lemma inv_send c l1 p l2 :
  Inv c → pending c = (l1 ++ p :: l2)%list → p_stage p = Passed →
  Inv (send_record c p (l1 ++ at_stage p Sent :: l2)%list).
Proof.
  intros Hc Hl Hst. pose proof (pend_ok _ Hc p (pending_mid _ _ _ _ Hl)) as [_ _ _ Hgate].
  rewrite Hst in Hgate. specialize (Hgate ltac:(done)).
  pose proof (inv_stage c l1 p Sent l2 Hc Hl ltac:(done)) as [].
  assert (∀ b, order_of b (durable c ++ sent c ++ [(p_position p, p_event p)]) =
    (order_of b (durable c ++ sent c) ++ if Bool.eqb (is_spawn (p_event p)) b then [p_position p] else [])%list)
    as Hord.
  { intros b. rewrite (assoc_L (++)), (order_of_app b (durable c ++ sent c)). f_equal.
    unfold order_of. simpl. by destruct (Bool.eqb _ _). }
  constructor; try done.
  - intros p0 Hp0. destruct (pend_ok0 p0 Hp0). by constructor.
  - intros b. simpl. rewrite Hord. destruct (Bool.eqb (is_spawn (p_event p)) b) eqn:E; [|rewrite app_nil_r; apply log_order0].
    apply Bool.eqb_prop in E as <-.
    apply StronglySorted_app_2; [|apply log_order0|by repeat constructor].
    intros x y Hx ->%list_elem_of_singleton. specialize (log_gate0 (is_spawn (p_event p))).
    rewrite Forall_forall in log_gate0. specialize (log_gate0 x Hx). rewrite <- Hgate. done.
  - intros b. simpl. rewrite Hord. apply Forall_app. split; [apply log_gate0|].
    destruct (Bool.eqb (is_spawn (p_event p)) b) eqn:E; [|constructor].
    apply Bool.eqb_prop in E as <-. constructor; [|constructor]. rewrite <- Hgate. done.
Qed.

Lemma order_of_sublist b l1 l2 : l1 `sublist_of` l2 → order_of b l1 `sublist_of` order_of b l2.
Proof.
  induction 1 as [|x l1 l2 _ IH|x l1 l2 _ IH]; [constructor| |]; unfold order_of in *; simpl.
  - destruct (Bool.eqb _ _); [by constructor|done].
  - destruct (Bool.eqb _ _); [by constructor|done].
Qed.
Lemma sublist_Forall {A} (P : A → Prop) l1 l2 : l1 `sublist_of` l2 → Forall P l2 → Forall P l1.
Proof. rewrite !Forall_forall. intros Hs Hp x Hx. by apply Hp, (elem_of_sublist l1). Qed.
Lemma inv_actor c r rest ok : Inv c → sent c = r :: rest → Inv (actor c r rest ok).
Proof.
  intros Hc Hs. assert ((durable (actor c r rest ok) ++ rest)%list `sublist_of` (durable c ++ sent c)%list) as Hsub.
  { rewrite Hs. simpl. destruct ok; [by rewrite <- (assoc_L (++))|].
    apply sublist_app; [done|]. by constructor. }
  pose proof Hc as []. constructor; try done.
  - intros p Hp. destruct (pend_ok0 p Hp). by constructor.
  - intros b. eapply StronglySorted_sublist; [|apply log_order0]. by apply order_of_sublist.
  - intros b. eapply sublist_Forall; [|apply log_gate0]. by apply order_of_sublist.
Qed.

(** The counter moves past the call of [p], whose only spawn was [p]. *)
Lemma spawns_of_mid l1 p l2 :
  is_spawn (p_event p) = true → (length (spawns_of (p_index p) (l1 ++ p :: l2)) ≤ 1)%nat →
  spawns_of (p_index p) (l1 ++ l2) = [].
Proof.
  intros Hs. rewrite !spawns_of_app, length_app. simpl. rewrite Nat.eqb_refl, Hs. simpl. intros Hlen.
  apply nil_length_inv. rewrite length_app. lia.
Qed.
Lemma spawns_of_nil i l p : spawns_of i l = [] → p ∈ l → p_index p = i → is_spawn (p_event p) = false.
Proof.
  intros Hnil Hp Hi. destruct (is_spawn (p_event p)) eqn:E; [|done].
  assert (p ∈ spawns_of i l) as Hin; [|rewrite Hnil in Hin; by apply elem_of_nil in Hin].
  apply list_elem_of_In, filter_In. split; [by apply list_elem_of_In|]. by rewrite Hi, Nat.eqb_refl, E.
Qed.
Lemma inv_end c l1 p l2 ok :
  Inv c → pending c = (l1 ++ p :: l2)%list → p_stage p = Answered ok → Inv (end_lifecycle c p ok (l1 ++ l2)%list).
Proof.
  intros Hc Hl Hst. pose proof (inv_drop c l1 p l2 Hc Hl) as Hd. unfold end_lifecycle.
  destruct (ok && is_spawn (p_event p) && negb (p_multiple p)) eqn:E; [|exact Hd].
  apply andb_prop in E as [[_ Esp]%andb_prop Emu%negb_true_iff].
  destruct (pend_ok _ Hc p (pending_mid _ _ _ _ Hl)) as [Hpos Hmul Hopen Hgate].
  rewrite Hst, Esp in Hgate. specialize (Hgate ltac:(done)). simpl in Hgate.
  rewrite Emu in Hmul. symmetry in Hmul. apply bool_decide_eq_false in Hmul.
  pose proof (pend_single _ Hc _ Hmul) as Hone. rewrite Hl in Hone.
  assert (single_spawned (sink_of c (p_index p)) = true ∧ spawns_of (p_index p) (l1 ++ l2) = []) as [Hss Hnil].
  { destruct (single_spawned _); [split; [done|by apply spawns_of_mid]|]. rewrite spawns_of_app, length_app in Hone.
    simpl in Hone. rewrite Nat.eqb_refl, Esp in Hone. simpl in Hone. lia. }
  pose proof Hd as []. simpl in *.
  assert (∀ b, (gate (set_pending c (l1 ++ l2)) b ≤ (if b then S (p_position p) else allowed_finish c))%nat) as Hup.
  { intros []; simpl; lia. }
  constructor; simpl; try done.
  - intros []; [|apply (gate_le0 false)]. simpl. by apply (pos_lt0 (p_index p)).
  - intros b i q Hq Hi. specialize (gate_past0 b i q Hq Hi). specialize (Hup b). destruct b; simpl in *; lia.
  - intros i q Hq Hlt. destruct (Nat.eq_dec q (p_position p)) as [->|].
    + assert (i = p_index p) as -> by (by apply (pos_inj _ _ _ _ Hc Hq)). by right.
    + apply (spawn_ahead0 i q); [done|lia].
  - intros q Hq. destruct (pend_ok0 q Hq) as [Hqp Hqm Hqo Hqg]. constructor; try done.
    intros Hw. specialize (Hqg Hw). destruct (is_spawn (p_event q)) eqn:Eq; simpl in *; [|done].
    assert (p_index q = p_index p) as Hi by (apply (pos_inj _ _ _ _ Hd Hqp); rewrite <- Hqg; simpl; rewrite Hgate; exact Hpos).
    by rewrite (spawns_of_nil _ _ _ Hnil Hq Hi) in Eq.
  - intros b. eapply Forall_impl; [apply log_gate0|]. intros x Hx. specialize (Hup b). destruct b; simpl in *; lia.
Qed.

(** After the call the loop waited for, both gates are past its position. *)
Lemma advance_gates c p b :
  Inv c → positions c !! committed c = Some p →
  gate (advance_after_tool c (committed c)) b = Nat.max (gate c b) (S p).
Proof.
  intros Hc Hp. pose proof (gate_reached c b p Hc Hp) as Hr. unfold advance_after_tool. rewrite Hp.
  destruct b; simpl in *.
  - destruct (Nat.eqb_spec (next_spawn c) p); lia.
  - destruct (Nat.eqb_spec (allowed_finish c) p); lia.
Qed.
Lemma advance_unregistered c b :
  positions c !! committed c = None → gate (advance_after_tool c (committed c)) b = gate c b.
Proof. intros Hp. unfold advance_after_tool. rewrite Hp. by destruct b. Qed.
Lemma advance_frame c :
  let c' := advance_after_tool c (committed c) in
  positions c' = positions c ∧ multi_producer_calls c' = multi_producer_calls c ∧ sinks c' = sinks c ∧
  pending c' = pending c ∧ sent c' = sent c ∧ durable c' = durable c ∧ committed c' = S (committed c).
Proof. unfold advance_after_tool. by destruct (positions c !! committed c). Qed.

(** How the gates move, whether the call was registered or not. *)
Lemma advance_gate_cases c b :
  Inv c →
  let g := gate (advance_after_tool c (committed c)) b in
  (gate c b ≤ g)%nat ∧
  (∀ p, positions c !! committed c = Some p → (p < g)%nat) ∧
  (∀ i q, positions c !! i = Some q → (q < g)%nat → (q < gate c b)%nat ∨ (i ≤ committed c)%nat) ∧
  (∀ i q, positions c !! i = Some q → (committed c < i)%nat → gate c b = q → g = q) ∧
  (g ≤ size (positions c))%nat.
Proof.
  intros Hc g. pose proof (gate_le _ Hc b). subst g.
  destruct (positions c !! committed c) as [p|] eqn:Ep.
  - rewrite (advance_gates c p b Hc Ep). pose proof (pos_lt _ Hc _ _ Ep). split_and!; [lia| | | |lia].
    + intros q [= ->]. lia.
    + intros i q Hq Hlt. destruct (Nat.le_gt_cases i (committed c)) as [|Hi]; [by right|left].
      pose proof (pos_mono _ Hc _ _ _ _ Ep Hq Hi). lia.
    + intros i q Hq Hi <-. pose proof (pos_mono _ Hc _ _ _ _ Ep Hq Hi). lia.
  - rewrite (advance_unregistered c b Ep). split_and!; try done; auto.
Qed.

Lemma inv_advance_after_tool c :
  Inv c → Forall (λ p, p_index p ≠ committed c) (pending c) → Inv (advance_after_tool c (committed c)).
Proof.
  intros Hc Hfree. pose proof (λ b, advance_gate_cases c b Hc) as Hg.
  destruct (advance_frame c) as (Epos & Emul & Esin & Epen & Esen & Edur & Ecom).
  set (c' := advance_after_tool c (committed c)) in *. simpl in *. pose proof Hc as [].
  assert (∀ i, sink_of c' i = sink_of c i) as Hsink by (intros; unfold sink_of; by rewrite Esin).
  constructor; rewrite ?Epos, ?Emul, ?Epen, ?Ecom; try done.
  - intros b. apply Hg.
  - intros b i p Hp Hi. destruct (Nat.eq_dec i (committed c)) as [->|]; [by apply Hg|].
    destruct (Hg b) as (Hle & _). specialize (gate_past0 b i p Hp ltac:(lia)). lia.
  - intros i p Hp Hlt. destruct (Hg false) as (_ & _ & Hcase & _).
    destruct (Hcase i p Hp Hlt) as [H|H]; [|lia]. specialize (finish_ahead0 i p Hp H). lia.
  - intros i p Hp Hlt. rewrite Hsink. destruct (Hg true) as (_ & _ & Hcase & _).
    destruct (Hcase i p Hp Hlt) as [H|H]; [|lia].
    destruct (spawn_ahead0 i p Hp H) as [|?]; [left; lia|by right].
  - intros p Hp. destruct (pend_ok0 p Hp) as [Hpos Hmul Hopen Hgate].
    rewrite Forall_forall in Hfree. specialize (Hfree p Hp).
    constructor; rewrite ?Epos, ?Emul, ?Ecom; [done|done|lia|]. intros Hw.
    destruct (Hg (is_spawn (p_event p))) as (_ & _ & _ & Hkeep & _).
    apply (Hkeep (p_index p)); [done|lia|auto].
  - intros i Hi. rewrite Hsink. by apply pend_single0.
  - intros b. rewrite Esen, Edur. apply log_order0.
  - intros b. rewrite Esen, Edur. eapply Forall_impl; [apply log_gate0|]. intros x Hx.
    destruct (Hg b) as (Hle & _). etrans; [exact Hx|exact Hle].
Qed.

Lemma reachable_ok c : reachable c → Inv c.
Proof.
  induction 1 as [|c c' _ Hc Hs]; [apply inv_coordinator_new|].
  destruct Hs as [c i m Hi Hnew|c c' i e Hi Hb|c l1 p l2 Hl Hst Hcnt|c l1 p l2 Hl Hst|c r rest ok Hr
                 |c l1 p l2 ok Hl Hst|c l1 p l2 ok Hl Hst|c l1 p l2 Hl|c Hfree].
  - by apply inv_register.
  - by eapply inv_begin.
  - by apply inv_stage.
  - by apply inv_send.
  - by apply inv_actor.
  - apply inv_stage; [done|done|]. intros _.
    apply (pend_gate _ _ (pend_ok _ Hc p (pending_mid _ _ _ _ Hl))). by rewrite Hst.
  - by apply inv_end.
  - by apply (inv_drop c l1 p l2).
  - by apply inv_advance_after_tool.
Qed.

(** * What the coordinator guarantees *)

(** Subagent records are durable in tool-call order. However the calls of
    a batch interleave, fail to append or are cancelled, the spawn records of
    the log are ordered by the position of their calls, and so are the finish
    records. *)
Theorem lifecycle_in_call_order c :
  reachable c →
  StronglySorted le (order_of true (durable c)) ∧ StronglySorted le (order_of false (durable c)).
Proof.
  intros Hc%reachable_ok.
  split; (eapply StronglySorted_sublist; [|apply (log_order _ Hc)]); apply order_of_sublist, sublist_inserts_r; done.
Qed.

(** Ordering never blocks the batch. A lifecycle report of the call whose
    result the batch loop waits for finds its gate open, whatever the later
    calls do. *)
Theorem current_report_passes c l1 p l2 :
  reachable c → pending c = (l1 ++ p :: l2)%list → p_index p = committed c → p_stage p = Waiting →
  step c (set_pending c (l1 ++ at_stage p Passed :: l2)%list).
Proof.
  intros Hc%reachable_ok Hl Hi Hst. apply step_pass; [done|done|].
  pose proof (pend_ok _ Hc p (pending_mid _ _ _ _ Hl)) as [Hpos Hmul Hopen _].
  change (counter c (p_event p)) with (gate c (is_spawn (p_event p))).
  pose proof (gate_reached c (is_spawn (p_event p)) (p_position p) Hc ltac:(by rewrite <- Hi)) as Hge.
  destruct (Nat.le_gt_cases (gate c (is_spawn (p_event p))) (p_position p)) as [|Hlt]; [lia|exfalso].
  destruct (is_spawn (p_event p)) eqn:E; simpl in Hlt.
  - destruct (spawn_ahead _ Hc _ _ Hpos Hlt) as [|(_ & _ & Hnil)]; [lia|].
    by rewrite (spawns_of_nil _ _ p Hnil (pending_mid _ _ _ _ Hl) eq_refl) in E.
  - pose proof (finish_ahead _ Hc _ _ Hpos Hlt). lia.
Qed.

(** * A history: the later call reports first *)

Definition spawn0 : Lifecycle := Spawned "a" "s-a" "first".
Definition spawn1 : Lifecycle := Spawned "b" "s-b" "second".
Definition waiting0 : Pending := mkPending 0 0 false spawn0 Waiting.
Definition waiting1 : Pending := mkPending 1 1 false spawn1 Waiting.
Definition begun (c : Coordinator) (i : nat) (e : Lifecycle) : Coordinator :=
  match begin_lifecycle c i e with Ok c' => c' | Err _ => c end.
Definition registered : Coordinator := register (register coordinator_new 0 false) 1 false.
Definition both_waiting : Coordinator := begun (begun registered 1 spawn1) 0 spawn0.
Definition first_sent : Coordinator :=
  send_record (set_pending both_waiting [waiting1; at_stage waiting0 Passed])
    (at_stage waiting0 Passed) [waiting1; at_stage waiting0 Sent].
Definition first_ended : Coordinator :=
  end_lifecycle
    (set_pending (actor first_sent (0%nat, spawn0) [] true) [waiting1; at_stage waiting0 (Answered true)])
    (at_stage waiting0 (Answered true)) true [waiting1].
Definition both_durable : Coordinator :=
  actor (send_record (set_pending first_ended [at_stage waiting1 Passed]) (at_stage waiting1 Passed)
           [at_stage waiting1 Sent]) (1%nat, spawn1) [] true.

Lemma registered_reachable : reachable registered.
Proof.
  apply (reachable_step (register coordinator_new 0 false)).
  - apply (reachable_step coordinator_new); [apply reachable_new|].
    apply step_register; [simpl; lia|done].
  - apply step_register; [simpl; lia|].
    intros j p Hj. change (<[0%nat := 0%nat]> (∅ : gmap nat nat) !! j = Some p) in Hj.
    apply lookup_insert_Some in Hj as [[<- _]|[_ Hj]]; [lia|by rewrite lookup_empty in Hj].
Qed.
Lemma both_waiting_reachable : reachable both_waiting.
Proof.
  apply (reachable_step (begun registered 1 spawn1)).
  - apply (reachable_step registered); [apply registered_reachable|].
    apply (step_begin _ _ 1 spawn1); [vm_compute; lia|vm_compute; reflexivity].
  - apply (step_begin _ _ 0 spawn0); [vm_compute; lia|vm_compute; reflexivity].
Qed.
Lemma first_ended_reachable : reachable first_ended.
Proof.
  eapply reachable_step; [|apply (step_end _ [waiting1] (at_stage waiting0 (Answered true)) [] true); done].
  eapply reachable_step; [|apply (step_answer _ [waiting1] (at_stage waiting0 Sent) [] true); done].
  eapply reachable_step; [|by apply step_actor].
  eapply reachable_step; [|apply (step_send _ [waiting1] (at_stage waiting0 Passed) []); done].
  eapply reachable_step; [|apply (step_pass _ [waiting1] waiting0 []); vm_compute; done].
  apply both_waiting_reachable.
Qed.
Lemma both_durable_reachable : reachable both_durable.
Proof.
  eapply reachable_step; [|by apply step_actor].
  eapply reachable_step; [|apply (step_send _ [] (at_stage waiting1 Passed) []); done].
  eapply reachable_step; [|apply (step_pass _ [] waiting1 []); vm_compute; done].
  apply first_ended_reachable.
Qed.

Lemma lifecycle_in_call_order_witness :
  durable both_durable = [(0%nat, spawn0); (1%nat, spawn1)] ∧
  StronglySorted le (order_of true (durable both_durable)).
Proof.
  split; [reflexivity|]. apply (lifecycle_in_call_order both_durable), both_durable_reachable.
Defined.

Lemma current_report_passes_witness :
  step both_waiting (set_pending both_waiting [waiting1; at_stage waiting0 Passed]).
Proof.
  apply (current_report_passes both_waiting [waiting1] waiting0 []);
    [apply both_waiting_reachable|vm_compute; reflexivity|reflexivity|reflexivity].
Defined.
