(* ===== verification/OrderedOutput.v ===== *)
(** Live tool output in call order
    ([rw-core/src/engine/turn/ordered_output.rs]).

    Tools of a batch run concurrently and emit chunks; the coordinator sends
    the chunks of the current call at once and buffers those of later calls
    until the loop advances to them.  [emit] is asynchronous: it reads the
    current index, waits for permits and commits under the lock, so [step]
    interleaves these pieces of any number of emits with [advance] and with
    the consumer of the channel.  [OrderedOutputSink] bounds what one call
    forwards. *)
From S2P Require Import Prelude Text Ir Redaction.

Definition MAX_LIVE_TOOL_OUTPUT_BYTES : Z := 1024 * 1024.
Definition MAX_LIVE_TOOL_OUTPUT_CHUNKS : Z := 1024.
Definition MAX_IN_FLIGHT_TOOL_OUTPUT_CHUNKS : nat := 32.

Inductive ToolOutputStream : Type := Stdout | Stderr.
Record ToolOutputChunk : Type := mkChunk {
  chunk_stream : ToolOutputStream;
  content : string;
}.

(** A committed chunk holds a permit, and a background permit while its call
    was not the current one. *)
Record BoundedOutputChunk : Type := mkBounded {
  bounded_index : nat;
  chunk : ToolOutputChunk;
  background_permit : bool;
}.

(** * The coordinator *)

(** How far an [emit] has come: before it reads the current index, waiting for
    a permit, holding one. *)
Inductive Stage : Type := Reading | Waiting (background : bool) | Holding (background : bool).
Record Emit : Type := mkEmit {
  emit_index : nat;
  emit_chunk : ToolOutputChunk;
  stage : Stage;
}.

(** [permits] and [background_permits] are the free permits of the semaphores,
    [queue] the channel, [emits] the calls of [emit] that have not returned;
    [delivered] and [accepted] record the chunks sent to the channel and the
    chunks whose [emit] returned [Ok]. *)
Record Coordinator : Type := mkCoordinator {
  current : nat;
  buffered : gmap nat (list BoundedOutputChunk);
  permits : nat;
  background_permits : nat;
  queue : list BoundedOutputChunk;
  emits : list Emit;
  delivered : list BoundedOutputChunk;
  accepted : list BoundedOutputChunk;
}.

Definition coordinator_new : Coordinator :=
  mkCoordinator 0 ∅ MAX_IN_FLIGHT_TOOL_OUTPUT_CHUNKS (MAX_IN_FLIGHT_TOOL_OUTPUT_CHUNKS - 1) [] [] [] [].

Definition permit_of (held : bool) : nat := if held then 1 else 0.

(** [send_chunk]: the background permit is dropped, the permit travels with
    the signal. *)
Definition send_chunk (c : Coordinator) (b : BoundedOutputChunk) : Coordinator :=
  mkCoordinator (current c) (buffered c) (permits c)
    (background_permits c + permit_of (background_permit b)) (queue c ++ [b])%list (emits c)
    (delivered c ++ [b])%list (accepted c).

Definition set_emits (c : Coordinator) (l : list Emit) : Coordinator :=
  mkCoordinator (current c) (buffered c) (permits c) (background_permits c) (queue c) l
    (delivered c) (accepted c).
Definition set_permits (c : Coordinator) (p b : nat) : Coordinator :=
  mkCoordinator (current c) (buffered c) p b (queue c) (emits c) (delivered c) (accepted c).
Definition accept (c : Coordinator) (b : BoundedOutputChunk) : Coordinator :=
  mkCoordinator (current c) (buffered c) (permits c) (background_permits c) (queue c) (emits c)
    (delivered c) (accepted c ++ [b])%list.

(** [state.buffered.entry(index).or_default().push(bounded)] *)
Definition buffer (c : Coordinator) (b : BoundedOutputChunk) : Coordinator :=
  mkCoordinator (current c)
    (<[bounded_index b := (default [] (buffered c !! bounded_index b) ++ [b])%list]> (buffered c))
    (permits c) (background_permits c) (queue c) (emits c) (delivered c) (accepted c).

(** [advance] *)
Definition advance (c : Coordinator) (next : nat) : Coordinator :=
  foldl send_chunk
    (mkCoordinator next (delete next (buffered c)) (permits c) (background_permits c) (queue c)
       (emits c) (delivered c) (accepted c))
    (default [] (buffered c !! next)).

Section ordered_output.
Context {R : SecretRedactor}.

(** The end of [emit], under the lock: too late, sent or buffered. *)
Definition commit (c : Coordinator) (e : Emit) (background : bool) : Coordinator :=
  let b := mkBounded (emit_index e)
             (mkChunk (chunk_stream (emit_chunk e)) (redact (content (emit_chunk e)))) background in
  if Nat.ltb (emit_index e) (current c) then
    set_permits c (S (permits c)) (background_permits c + permit_of background)
  else if Nat.eqb (emit_index e) (current c) then send_chunk (accept c b) b
  else buffer (accept c b) b.

(** One interleaved step. *)
Inductive step : Coordinator → Coordinator → Prop :=
| step_emit c i ch : step c (set_emits c (emits c ++ [mkEmit i ch Reading])%list)
| step_read_late c l1 e l2 :
    emits c = (l1 ++ e :: l2)%list → stage e = Reading → (emit_index e < current c)%nat →
    step c (set_emits c (l1 ++ l2)%list)
| step_read_current c l1 e l2 :
    emits c = (l1 ++ e :: l2)%list → stage e = Reading → emit_index e = current c →
    step c (set_emits c (l1 ++ mkEmit (emit_index e) (emit_chunk e) (Waiting false) :: l2)%list)
| step_read_later c l1 e l2 n :
    emits c = (l1 ++ e :: l2)%list → stage e = Reading → (current c < emit_index e)%nat →
    background_permits c = S n →
    step c (set_permits (set_emits c (l1 ++ mkEmit (emit_index e) (emit_chunk e) (Waiting true) :: l2)%list)
              (permits c) n)
| step_restart c l1 e l2 bg :
    emits c = (l1 ++ e :: l2)%list → stage e = Waiting bg →
    step c (set_permits (set_emits c (l1 ++ mkEmit (emit_index e) (emit_chunk e) Reading :: l2)%list)
              (permits c) (background_permits c + permit_of bg))
| step_acquire c l1 e l2 bg n :
    emits c = (l1 ++ e :: l2)%list → stage e = Waiting bg → permits c = S n →
    step c (set_permits (set_emits c (l1 ++ mkEmit (emit_index e) (emit_chunk e) (Holding bg) :: l2)%list)
              n (background_permits c))
| step_commit c l1 e l2 bg :
    emits c = (l1 ++ e :: l2)%list → stage e = Holding bg →
    step c (commit (set_emits c (l1 ++ l2)%list) e bg)
| step_cancel c l1 e l2 :
    emits c = (l1 ++ e :: l2)%list →
    step c (set_permits (set_emits c (l1 ++ l2)%list)
              (permits c + match stage e with Holding _ => 1 | _ => 0 end)
              (background_permits c +
               match stage e with Reading => 0 | Waiting bg | Holding bg => permit_of bg end))
| step_advance c : step c (advance c (S (current c)))
| step_consume c b q :
    queue c = b :: q →
    step c (mkCoordinator (current c) (buffered c) (S (permits c)) (background_permits c) q (emits c)
              (delivered c) (accepted c)).

Inductive reachable : Coordinator → Prop :=
| reachable_new : reachable coordinator_new
| reachable_step c c' : reachable c → step c c' → reachable c'.
End ordered_output.

(** * The sink of one call *)

Record Totals : Type := mkTotals {
  total_bytes : Z;
  total_chunks : Z;
  truncated : bool;
}.
Definition totals_new : Totals := mkTotals 0 0 false.
Definition TRUNCATION_NOTICE : string :=
  "[live tool output truncated; command output continues to drain]".

(** [OrderedOutputSink::emit] up to the coordinator: the chunk to forward,
    or nothing *)
Definition sink_emit (t : Totals) (ch : ToolOutputChunk) : Totals * option ToolOutputChunk :=
  let bytes := sat_add (total_bytes t) (str_len (content ch)) in
  let chunks := sat_add (total_chunks t) 1 in
  if (MAX_LIVE_TOOL_OUTPUT_BYTES <? bytes) || (MAX_LIVE_TOOL_OUTPUT_CHUNKS <? chunks) then
    if truncated t then (mkTotals bytes chunks true, None)
    else (mkTotals bytes chunks true, Some (mkChunk (chunk_stream ch) TRUNCATION_NOTICE))
  else (mkTotals bytes chunks (truncated t), Some ch).

Fixpoint forwarded (t : Totals) (l : list ToolOutputChunk) : list ToolOutputChunk :=
  match l with
  | [] => []
  | ch :: rest =>
      let '(t, out) := sink_emit t ch in
      match out with Some ch => ch :: forwarded t rest | None => forwarded t rest end
  end.

(** * The invariant *)

Definition buffered_total (m : gmap nat (list BoundedOutputChunk)) : nat :=
  map_fold (λ _ l n, (length l + n)%nat) 0%nat m.
Definition held (e : Emit) : nat := match stage e with Holding _ => 1 | _ => 0 end.
Definition background_held (e : Emit) : nat :=
  match stage e with Reading => 0 | Waiting bg | Holding bg => permit_of bg end.
Definition total (f : Emit → nat) (l : list Emit) : nat := sum_list_with f l.
(** The chunks of one call. *)
Definition of_call (i : nat) (l : list BoundedOutputChunk) : list BoundedOutputChunk :=
  List.filter (λ b, Nat.eqb (bounded_index b) i) l.

Record Inv (c : Coordinator) : Prop := mkInv {
  inv_permits : (permits c + total held (emits c) + length (queue c) + buffered_total (buffered c) = 32)%nat;
  inv_background :
    (background_permits c + total background_held (emits c) + buffered_total (buffered c) = 31)%nat;
  inv_buffered : ∀ i l, buffered c !! i = Some l →
    (current c < i)%nat ∧ Forall (λ b, bounded_index b = i ∧ background_permit b = true) l;
  inv_stage : ∀ e, e ∈ emits c → stage e = Waiting false ∨ stage e = Holding false →
    (emit_index e ≤ current c)%nat;
  inv_sorted : StronglySorted (λ a b, bounded_index a ≤ bounded_index b)%nat (delivered c);
  inv_delivered : Forall (λ b, bounded_index b ≤ current c)%nat (delivered c);
  inv_accepted : ∀ i, of_call i (accepted c) =
    if Nat.leb i (current c) then of_call i (delivered c) else default [] (buffered c !! i);
}.

Lemma buffered_total_delete m i :
  (buffered_total (delete i m) + length (default [] (m !! i)) = buffered_total m)%nat.
Proof.
  unfold buffered_total. destruct (m !! i) as [l|] eqn:E; simpl.
  - rewrite (map_fold_delete_L (λ _ l n, (length l + n)%nat) 0%nat i l m); [lia| |done]. intros. lia.
  - rewrite delete_id by done. lia.
Qed.
Lemma buffered_total_insert m i l :
  (buffered_total (<[i := l]> m) + length (default [] (m !! i)) = buffered_total m + length l)%nat.
Proof.
  rewrite <- insert_delete_eq. unfold buffered_total at 1.
  rewrite map_fold_insert_L; [|intros; lia|by rewrite lookup_delete_eq].
  fold (buffered_total (delete i m)). pose proof (buffered_total_delete m i). lia.
Qed.

Lemma total_app f l1 l2 : total f (l1 ++ l2)%list = (total f l1 + total f l2)%nat.
Proof. unfold total. induction l1; simpl; lia. Qed.
Lemma total_middle f l1 e l2 : total f (l1 ++ e :: l2)%list = (f e + total f (l1 ++ l2)%list)%nat.
Proof. rewrite !total_app. unfold total. simpl. lia. Qed.

Lemma total_zero f l : Forall (λ e, f e = 0%nat) l → total f l = 0%nat.
Proof. unfold total. induction 1; simpl; lia. Qed.

Lemma of_call_app i l k : of_call i (l ++ k)%list = (of_call i l ++ of_call i k)%list.
Proof. apply List.filter_app. Qed.
Lemma of_call_one i b : of_call i [b] = if Nat.eqb (bounded_index b) i then [b] else [].
Proof. unfold of_call. simpl. by destruct (Nat.eqb _ _). Qed.

(** An emit that leaves or changes its stage, with the permits that it gives
    back or takes. *)
Lemma inv_emit_step c l1 e l2 l p b :
  Inv c → emits c = (l1 ++ e :: l2)%list →
  (p + total held l = permits c + held e + total held (l1 ++ l2))%nat →
  (b + total background_held l = background_permits c + background_held e + total background_held (l1 ++ l2))%nat →
  (∀ x, x ∈ l → x ∈ emits c ∨ (stage x = Waiting false ∨ stage x = Holding false →
                                 emit_index x ≤ current c)%nat) →
  Inv (set_permits (set_emits c l) p b).
Proof.
  intros [] He Hp Hb Hl. rewrite He, total_middle in inv_permits0. rewrite He, total_middle in inv_background0.
  constructor; simpl; try done; [lia|lia|].
  intros x Hx Hs. destruct (Hl x Hx) as [Hin|Hin]; auto.
Qed.

Lemma send_all l c :
  let c' := foldl send_chunk c l in
  current c' = current c ∧ buffered c' = buffered c ∧ permits c' = permits c ∧
  background_permits c' =
    (background_permits c + sum_list_with (λ b, permit_of (background_permit b)) l)%nat ∧
  queue c' = (queue c ++ l)%list ∧ emits c' = emits c ∧
  delivered c' = (delivered c ++ l)%list ∧ accepted c' = accepted c.
Proof.
  revert c. induction l as [|b l IH]; intros c; simpl.
  { rewrite !app_nil_r. split_and!; done || lia. }
  destruct (IH (send_chunk c b)) as (-> & -> & -> & -> & -> & -> & -> & ->). simpl.
  rewrite <- !app_assoc. split_and!; done || lia.
Qed.

Lemma of_call_all i n l :
  Forall (λ b, bounded_index b = n) l → of_call i l = if Nat.eqb i n then l else [].
Proof.
  induction 1 as [|b l Hb Hl IH]; simpl; [by destruct (Nat.eqb i n)|].
  rewrite Hb, IH, (Nat.eqb_sym n i). by destruct (Nat.eqb i n).
Qed.
Lemma of_call_none i n l :
  Forall (λ b, bounded_index b ≤ n)%nat l → (n < i)%nat → of_call i l = [].
Proof.
  intros Hl Hi. induction Hl as [|b l Hb Hl IH]; simpl; [done|].
  rewrite (proj2 (Nat.eqb_neq _ _)) by lia. done.
Qed.

Section ordered_lemmas.
Context {R : SecretRedactor}.

Lemma coordinator_inv_new : Inv coordinator_new.
Proof. constructor; simpl; try done; try (intros; set_solver); try constructor. by intros []. Qed.

Lemma StronglySorted_snoc (l k : list BoundedOutputChunk) n :
  StronglySorted (λ a b, bounded_index a ≤ bounded_index b)%nat l →
  Forall (λ b, bounded_index b ≤ n)%nat l → Forall (λ b, bounded_index b = n) k →
  StronglySorted (λ a b, bounded_index a ≤ bounded_index b)%nat (l ++ k)%list.
Proof.
  intros Hl Hn Hk. induction Hl as [|x l Hl IH Hx]; simpl.
  - induction Hk as [|y k Hy Hk IHk]; constructor; [done|].
    eapply Forall_impl; [exact Hk|]. simpl. intros z ->. by rewrite Hy.
  - apply Forall_cons_1 in Hn as [Hxn Hn]. constructor; [auto|]. apply Forall_app. split; [done|].
    eapply Forall_impl; [exact Hk|]. simpl. intros z ->. done.
Qed.

(** The buffered chunks of the call that becomes current are sent. *)
Lemma inv_advance c : Inv c → Inv (advance c (S (current c))).
Proof.
  intros Hc. set (l := default [] (buffered c !! S (current c))).
  assert (Hl : Forall (λ b, bounded_index b = S (current c) ∧ background_permit b = true) l).
  { unfold l. destruct (buffered c !! S (current c)) as [k|] eqn:E; [|constructor].
    by destruct (inv_buffered _ Hc _ _ E). }
  assert (Hsum : sum_list_with (λ b, permit_of (background_permit b)) l = length l).
  { clear -Hl. induction Hl as [|b l [_ Hb] Hl IH]; simpl; [done|]. rewrite Hb, IH. done. }
  pose proof (buffered_total_delete (buffered c) (S (current c))) as Htot. fold l in Htot.
  unfold advance. fold l.
  destruct (send_all l (mkCoordinator (S (current c)) (delete (S (current c)) (buffered c)) (permits c)
    (background_permits c) (queue c) (emits c) (delivered c) (accepted c)))
    as (E1 & E2 & E3 & E4 & E5 & E6 & E7 & E8). simpl in *.
  set (c' := foldl _ _ _) in *. clearbody c'. destruct Hc.
  constructor; rewrite ?E1, ?E2, ?E3, ?E4, ?E5, ?E6, ?E7, ?E8, ?length_app, ?Hsum; try lia.
  - intros i k [Hne Hk]%lookup_delete_Some. destruct (inv_buffered0 i k Hk). split; [lia|done].
  - intros e He Hs. specialize (inv_stage0 e He Hs). lia.
  - eapply StronglySorted_snoc; [done| |].
    + eapply Forall_impl; [exact inv_delivered0|]. simpl. intros b Hb.
      instantiate (1 := S (current c)). lia.
    + eapply Forall_impl; [exact Hl|]. by intros b [? _].
  - apply Forall_app. split; (eapply Forall_impl; [eassumption|]); simpl; intros b; [lia|].
    intros [-> _]. done.
  - intros i. rewrite inv_accepted0, of_call_app.
    assert (Hof : of_call i l = if Nat.eqb i (S (current c)) then l else []).
    { apply of_call_all. eapply Forall_impl; [exact Hl|]. by intros b [? _]. }
    rewrite Hof. destruct (Nat.leb_spec i (current c)) as [Hi|Hi].
    + rewrite (proj2 (Nat.leb_le i (S (current c)))) by lia.
      rewrite (proj2 (Nat.eqb_neq i (S (current c)))) by lia. by rewrite app_nil_r.
    + destruct (Nat.eqb_spec i (S (current c))) as [Heq|Hne].
      * rewrite Heq, Nat.leb_refl. fold l. by rewrite (of_call_none _ _ _ inv_delivered0) by lia.
      * rewrite (proj2 (Nat.leb_gt i (S (current c)))) by lia. by rewrite lookup_delete_ne by done.
Qed.

Lemma inv_commit_current c l1 e l2 bg ch :
  Inv c → emits c = (l1 ++ e :: l2)%list → stage e = Holding bg → emit_index e = current c →
  let b := mkBounded (emit_index e) ch bg in
  Inv (send_chunk (accept (set_emits c (l1 ++ l2)%list) b) b).
Proof.
  intros [] He Hs Hi b. rewrite He, total_middle in inv_permits0. rewrite He, total_middle in inv_background0.
  unfold held at 1 in inv_permits0. unfold background_held at 1 in inv_background0. rewrite Hs in *.
  constructor; simpl; rewrite ?length_app; simpl; try lia; try done.
  - intros x Hx. apply inv_stage0. rewrite He. rewrite elem_of_app in Hx |- *.
    rewrite elem_of_cons. tauto.
  - eapply StronglySorted_snoc; [done|exact inv_delivered0|]. constructor; [done|constructor].
  - apply Forall_app. split; [done|]. constructor; [simpl; lia|constructor].
  - intros i. rewrite !of_call_app, inv_accepted0, of_call_one. simpl. rewrite Hi.
    destruct (Nat.leb_spec i (current c)) as [Hle|Hgt]; [done|].
    rewrite (proj2 (Nat.eqb_neq _ _)) by lia. by rewrite app_nil_r.
Qed.

Lemma inv_commit_later c l1 e l2 bg ch :
  Inv c → emits c = (l1 ++ e :: l2)%list → stage e = Holding bg → (current c < emit_index e)%nat →
  let b := mkBounded (emit_index e) ch bg in
  Inv (buffer (accept (set_emits c (l1 ++ l2)%list) b) b).
Proof.
  intros [] He Hs Hi b.
  assert (bg = true) as ->.
  { destruct bg; [done|]. specialize (inv_stage0 e). rewrite He, elem_of_app, elem_of_cons in inv_stage0.
    specialize (inv_stage0 ltac:(tauto) ltac:(by right)). lia. }
  rewrite He, total_middle in inv_permits0. rewrite He, total_middle in inv_background0.
  unfold held at 1 in inv_permits0. unfold background_held at 1 in inv_background0. rewrite Hs in *.
  pose proof (buffered_total_insert (buffered c) (emit_index e)
    (default [] (buffered c !! emit_index e) ++ [b])%list) as Htot. rewrite length_app in Htot. simpl in Htot.
  constructor; simpl in *; try done; try lia.
  - intros i l. destruct (decide (i = emit_index e)) as [->|Hne].
    + rewrite lookup_insert_eq. intros [= <-]. split; [lia|]. apply Forall_app. split.
      * destruct (buffered c !! emit_index e) as [k|] eqn:E; [|constructor].
        by destruct (inv_buffered0 _ _ E).
      * by constructor; [|constructor].
    + rewrite lookup_insert_ne by done. apply inv_buffered0.
  - intros x Hx. apply inv_stage0. rewrite He. rewrite elem_of_app in Hx |- *.
    rewrite elem_of_cons. tauto.
  - intros i. rewrite !of_call_app, inv_accepted0, of_call_one. simpl.
    destruct (Nat.eqb_spec (emit_index e) i) as [Heq|Hne].
    + rewrite <- Heq, (proj2 (Nat.leb_gt _ _)) by lia. by rewrite lookup_insert_eq.
    + rewrite app_nil_r, lookup_insert_ne by done. done.
Qed.

Lemma kept_emits c l1 e l2 x : emits c = (l1 ++ e :: l2)%list → x ∈ (l1 ++ l2)%list → x ∈ emits c.
Proof. intros ->. rewrite !elem_of_app, elem_of_cons. tauto. Qed.
Lemma changed_emits c l1 e l2 e' x :
  emits c = (l1 ++ e :: l2)%list → x ∈ (l1 ++ e' :: l2)%list → x ∈ emits c ∨ x = e'.
Proof. intros ->. rewrite !elem_of_app, !elem_of_cons. tauto. Qed.

(** The emit [e] moves to the stage [s]. *)
Lemma inv_restage c l1 e l2 s p b :
  Inv c → emits c = (l1 ++ e :: l2)%list →
  let e' := mkEmit (emit_index e) (emit_chunk e) s in
  (p + held e' = permits c + held e)%nat →
  (b + background_held e' = background_permits c + background_held e)%nat →
  (s = Waiting false ∨ s = Holding false → emit_index e ≤ current c)%nat →
  Inv (set_permits (set_emits c (l1 ++ e' :: l2)%list) p b).
Proof.
  intros Hc He e' Hp Hb Hs. eapply inv_emit_step; [done|exact He|..]; rewrite ?total_middle; [lia|lia|].
  intros x Hx. destruct (changed_emits _ _ _ _ _ _ He Hx) as [H|H]; [by left|]. subst x. by right.
Qed.
(** The emit [e] leaves with its permits. *)
Lemma inv_leave c l1 e l2 :
  Inv c → emits c = (l1 ++ e :: l2)%list →
  Inv (set_permits (set_emits c (l1 ++ l2)%list) (permits c + held e)
         (background_permits c + background_held e)).
Proof.
  intros Hc He. eapply inv_emit_step; [done|exact He|lia|lia|].
  intros x Hx. left. by eapply kept_emits.
Qed.

Lemma inv_step c c' : Inv c → step c c' → Inv c'.
Proof.
  intros Hc Hstep. destruct Hstep as
    [c i ch|c l1 e l2 He Hs Hi|c l1 e l2 He Hs Hi|c l1 e l2 n He Hs Hi Hn|c l1 e l2 bg He Hs
    |c l1 e l2 bg n He Hs Hn|c l1 e l2 bg He Hs|c l1 e l2 He|c|c b q Hq].
  - destruct Hc. constructor; simpl; try done.
    + rewrite total_app. unfold total at 2. cbn. lia.
    + rewrite total_app. unfold total at 2. cbn. lia.
    + intros x [Hx|Hx%list_elem_of_singleton]%elem_of_app; [by apply inv_stage0|]. subst x. by intros [?|?].
  - pose proof (inv_leave c l1 e l2 Hc He) as H. unfold held, background_held in H. rewrite Hs in H.
    by rewrite !Nat.add_0_r in H.
  - apply (inv_restage c l1 e l2 (Waiting false) (permits c) (background_permits c) Hc He);
      unfold held, background_held; rewrite ?Hs; simpl; lia.
  - apply (inv_restage c l1 e l2 (Waiting true) (permits c) n Hc He);
      unfold held, background_held; rewrite ?Hs; simpl; try lia. by intros [?|?].
  - apply (inv_restage c l1 e l2 Reading _ _ Hc He);
      unfold held, background_held; rewrite ?Hs; simpl; try lia. by intros [?|?].
  - apply (inv_restage c l1 e l2 (Holding bg) _ _ Hc He);
      unfold held, background_held; rewrite ?Hs; simpl; try lia.
    intros [?|[= ->]]; [done|]. apply (inv_stage _ Hc); [|by left].
    rewrite He, elem_of_app, elem_of_cons. tauto.
  - unfold commit. simpl. destruct (Nat.ltb_spec (emit_index e) (current c)) as [Hlt|Hge].
    + pose proof (inv_leave c l1 e l2 Hc He) as H. unfold held, background_held in H. rewrite Hs in H.
      by rewrite Nat.add_1_r in H.
    + destruct (Nat.eqb_spec (emit_index e) (current c)) as [Heq|Hne].
      * by apply inv_commit_current.
      * apply inv_commit_later; [done..|lia].
  - by apply inv_leave.
  - by apply inv_advance.
  - destruct Hc. constructor; simpl; try done. rewrite Hq in inv_permits0. simpl in *. lia.
Qed.

Lemma coordinator_inv c : reachable c → Inv c.
Proof. induction 1; [apply coordinator_inv_new|]. by eapply inv_step. Qed.

(** Live output is lossless and in call order. Under every interleaving of
    emits, cancellations, advances and the consumer, the chunks on the channel
    are ordered by call; and the chunks of a call whose [emit] succeeded are
    exactly the delivered ones, in their order, once the call is current, and
    exactly the buffered ones before. *)
Theorem output_in_call_order c :
  reachable c →
  StronglySorted (λ a b, bounded_index a ≤ bounded_index b)%nat (delivered c) ∧
  ∀ i, of_call i (accepted c) =
       if Nat.leb i (current c) then of_call i (delivered c) else default [] (buffered c !! i).
Proof. intros Hc%coordinator_inv. split; [apply (inv_sorted _ Hc)|apply (inv_accepted _ Hc)]. Qed.

(** Later calls cannot starve the current one. They never hold more than
    31 of the 32 permits between them; so once the consumer has drained the
    channel and the emits that hold a permit have committed, a permit is free
    for the current call, even if every later call waits for its turn with a
    full buffer. *)
Theorem current_call_not_starved c :
  reachable c →
  (buffered_total (buffered c) + total background_held (emits c) ≤ 31)%nat ∧
  (queue c = [] → Forall (λ e, held e = 0%nat) (emits c) → ∃ n, permits c = S n).
Proof.
  intros Hc%coordinator_inv. pose proof (inv_background _ Hc). pose proof (inv_permits _ Hc) as Hp.
  split; [lia|]. intros Hq Hheld. rewrite Hq in Hp. simpl in Hp.
  rewrite (total_zero _ _ Hheld) in Hp. destruct (permits c) as [|n]; [lia|eauto].
Qed.
End ordered_lemmas.

(** * The sink *)

Definition bytes_of (l : list ToolOutputChunk) : Z := sum_Z (map (λ ch, str_len (content ch)) l).
Definition within (l : list ToolOutputChunk) : bool :=
  (bytes_of l <=? MAX_LIVE_TOOL_OUTPUT_BYTES) && (Z.of_nat (length l) <=? MAX_LIVE_TOOL_OUTPUT_CHUNKS).

Lemma bytes_of_nonneg l : 0 ≤ bytes_of l.
Proof. apply sum_Z_nonneg. apply Forall_map. apply Forall_true. intros ch. apply str_len_nonneg. Qed.
Lemma bytes_of_app l k : bytes_of (l ++ k)%list = bytes_of l + bytes_of k.
Proof. unfold bytes_of. by rewrite map_app, sum_Z_app. Qed.

(** Once over a limit, the sink is silent. *)
Lemma forwarded_over t l :
  truncated t = true → MAX_LIVE_TOOL_OUTPUT_BYTES < total_bytes t ∨ MAX_LIVE_TOOL_OUTPUT_CHUNKS < total_chunks t →
  forwarded t l = [].
Proof.
  revert t. induction l as [|ch l IH]; intros t Ht Hover; simpl; [done|].
  assert (Hnext : MAX_LIVE_TOOL_OUTPUT_BYTES < sat_add (total_bytes t) (str_len (content ch)) ∨
                  MAX_LIVE_TOOL_OUTPUT_CHUNKS < sat_add (total_chunks t) 1).
  { pose proof (str_len_nonneg (content ch)).
    unfold sat_add, u64_max, MAX_LIVE_TOOL_OUTPUT_BYTES, MAX_LIVE_TOOL_OUTPUT_CHUNKS in *. lia. }
  unfold sink_emit. replace (_ || _) with true; [rewrite Ht; by apply IH|].
  symmetry. apply orb_true_iff. rewrite !Z.ltb_lt. done.
Qed.

Lemma within_snoc p ch :
  within p = true →
  let bytes := sat_add (bytes_of p) (str_len (content ch)) in
  let chunks := sat_add (Z.of_nat (length p)) 1 in
  if within (p ++ [ch])%list
  then bytes = bytes_of (p ++ [ch])%list ∧ chunks = Z.of_nat (length (p ++ [ch])%list) ∧
       bytes ≤ MAX_LIVE_TOOL_OUTPUT_BYTES ∧ chunks ≤ MAX_LIVE_TOOL_OUTPUT_CHUNKS
  else MAX_LIVE_TOOL_OUTPUT_BYTES < bytes ∨ MAX_LIVE_TOOL_OUTPUT_CHUNKS < chunks.
Proof.
  unfold within. intros [Hp1%Z.leb_le Hp2%Z.leb_le]%andb_true_iff.
  rewrite bytes_of_app, length_app. change (length [ch]) with 1%nat.
  replace (bytes_of [ch]) with (str_len (content ch)) by (unfold bytes_of; simpl; lia).
  pose proof (str_len_nonneg (content ch)). pose proof (bytes_of_nonneg p).
  unfold sat_add, u64_max, MAX_LIVE_TOOL_OUTPUT_BYTES, MAX_LIVE_TOOL_OUTPUT_CHUNKS in *. simpl.
  destruct (Z.leb_spec (bytes_of p + str_len (content ch)) (1024 * 1024)),
    (Z.leb_spec (Z.of_nat (length p + 1)) 1024); simpl; lia.
Qed.

Lemma forwarded_from p l :
  within p = true →
  ∃ k, (k ≤ length l)%nat ∧ within (p ++ take k l)%list = true ∧
    ((k < length l)%nat → within (p ++ take (S k) l)%list = false) ∧
    forwarded (mkTotals (bytes_of p) (Z.of_nat (length p)) false) l =
    (take k l ++ match l !! k with
                 | Some ch => [mkChunk (chunk_stream ch) TRUNCATION_NOTICE]
                 | None => []
                 end)%list.
Proof.
  revert p. induction l as [|ch l IH]; intros p Hp.
  { exists 0%nat. simpl. rewrite app_nil_r. split_and!; [done|done|lia|done]. }
  pose proof (within_snoc p ch Hp) as Hnext. cbn zeta in Hnext. simpl. unfold sink_emit. simpl.
  destruct (within (p ++ [ch])%list) eqn:Hw.
  - destruct Hnext as (E1 & E2 & H1 & H2).
    destruct (IH _ Hw) as (k & Hk & Hin & Hout & Hfwd). exists (S k).
    rewrite <- app_assoc in Hin, Hout. simpl in *. split_and!; [lia|done|intros; apply Hout; lia|].
    replace (_ || _) with false; [by rewrite E1, E2, Hfwd|].
    symmetry. apply orb_false_iff. rewrite !Z.ltb_ge. done.
  - exists 0%nat. simpl. rewrite app_nil_r. split_and!; [lia|done|done|].
    replace (_ || _) with true; [by rewrite forwarded_over|].
    symmetry. apply orb_true_iff. rewrite !Z.ltb_lt. done.
Qed.

(** The sink of a call forwards exactly the longest prefix of its chunks
    within one mebibyte and 1,024 chunks, then, if anything is left, a single
    truncation notice in place of the next chunk, and nothing after it: no
    saturation of the counters ever reopens it. *)
Theorem sink_truncates_once l :
  ∃ k, (k ≤ length l)%nat ∧ within (take k l) = true ∧
    ((k < length l)%nat → within (take (S k) l) = false) ∧
    forwarded totals_new l =
    (take k l ++ match l !! k with
                 | Some ch => [mkChunk (chunk_stream ch) TRUNCATION_NOTICE]
                 | None => []
                 end)%list.
Proof. apply (forwarded_from [] l). reflexivity. Qed.

(** * Witnesses: call 1 emits before call 0 is done *)

Definition text_chunk (s : string) : ToolOutputChunk := mkChunk Stdout s.
Definition early : Emit := mkEmit 1 (text_chunk "x1") Reading.
Definition holding : Emit := mkEmit 1 (text_chunk "x1") (Holding true).
Definition buffered_state : Coordinator :=
  @commit mask_redactor (set_emits (mkCoordinator 0 ∅ 31 30 [] [holding] [] []) []) holding true.

Lemma buffered_state_reachable : @reachable mask_redactor buffered_state.
Proof.
  eapply reachable_step; [|apply (@step_commit mask_redactor
    (mkCoordinator 0 ∅ 31 30 [] [holding] [] []) [] holding [] true eq_refl eq_refl)].
  eapply reachable_step; [|apply (@step_acquire mask_redactor
    (mkCoordinator 0 ∅ 32 30 [] [mkEmit 1 (text_chunk "x1") (Waiting true)] [] []) [] _ [] true 31 eq_refl eq_refl eq_refl)].
  eapply reachable_step; [|apply (@step_read_later mask_redactor
    (mkCoordinator 0 ∅ 32 31 [] [early] [] []) [] early [] 30 eq_refl eq_refl); [simpl; lia|done]].
  eapply reachable_step; [apply reachable_new|]. apply (@step_emit mask_redactor coordinator_new).
Qed.

Lemma output_in_call_order_witness :
  of_call 1 (accepted (advance buffered_state 1)) = of_call 1 (delivered (advance buffered_state 1)) ∧
  delivered (advance buffered_state 1) = [mkBounded 1 (text_chunk "*1") true].
Proof.
  split; [|vm_compute; reflexivity].
  refine (proj2 (@output_in_call_order mask_redactor (advance buffered_state 1) _) 1%nat).
  eapply reachable_step; [exact buffered_state_reachable|apply step_advance].
Defined.

Lemma current_call_not_starved_witness : ∃ n, permits buffered_state = S n.
Proof.
  apply (proj2 (@current_call_not_starved mask_redactor buffered_state buffered_state_reachable));
    [vm_compute; reflexivity|constructor].
Defined.
