(* ===== verification/Estimate.v ===== *)
(** Deterministic local token estimation ([rw-context/src/estimate.rs]).

    [serde_json]'s compact writer is a parameter: [JsonWriter] gives the
    chunks it hands to [io::Write::write], and [CompactJson] states the
    documented shape of compact output (no whitespace, `,` between entries,
    `:` after a key) as far as lengths go. *)
From S2P Require Import Prelude Text Ir.

Class JsonWriter := to_writer : Value → option (list string).

(** The number of bytes of the compact text. *)
Definition json_bytes `{JsonWriter} (v : Value) : Z :=
  match to_writer v with Some chunks => sum_Z (map str_len chunks) | None => 0 end.

(** The commas between [n] entries. *)
Definition commas (n : nat) : Z := Z.max 0 (Z.of_nat n - 1).

Class CompactJson (W : JsonWriter) : Prop := {
  compact_total v : is_Some (to_writer v);
  compact_array l :
    json_bytes (JArray l) = 2 + sum_Z (map json_bytes l) + commas (length l);
  compact_object m :
    json_bytes (JObject m) =
      2 + sum_Z (map (λ e, json_bytes (JString e.1) + 1 + json_bytes e.2) m)
        + commas (length m);
}.

(** * [canonicalize_json] *)

Definition key_le {A} (x y : string * A) : bool := String.leb x.1 y.1.

(** Insert every entry in turn into an empty [Map]. *)
Definition insert_all {A} (l : list (string * A)) : list (string * A) :=
  foldl (λ acc e, map_insert e.1 e.2 acc) [] l.

Fixpoint canonicalize_json (v : Value) : Value :=
  match v with
  | JObject object =>
      JObject (insert_all (stable_sort key_le
        ((fix go (m : list (string * Value)) :=
            match m with
            | [] => []
            | (k, child) :: m' => (k, canonicalize_json child) :: go m'
            end) object)))
  | JArray values =>
      JArray ((fix go (l : list Value) :=
                 match l with [] => [] | x :: l' => canonicalize_json x :: go l' end) values)
  | primitive => primitive
  end.

Definition canonical_entry (e : string * Value) : string * Value :=
  (e.1, canonicalize_json e.2).

Lemma canonicalize_json_array l :
  canonicalize_json (JArray l) = JArray (map canonicalize_json l).
Proof. reflexivity. Qed.
Lemma canonicalize_json_object m :
  canonicalize_json (JObject m) =
  JObject (insert_all (stable_sort key_le (map canonical_entry m))).
Proof.
  simpl. do 3 f_equal. induction m as [|[k x] m IH]; simpl; [done|].
  unfold canonical_entry at 1; simpl. by rewrite IH.
Qed.

(** * [LocalTokenEstimator] *)

Definition usize_to_u64 (value : Z) : Z := to_u64_or_max value.

(** [JsonByteCounter::write] *)
Definition counter_write (bytes : Z) (chunk : string) : Z :=
  sat_add bytes (usize_to_u64 (str_len chunk)).

Definition estimate_text (text : string) : Z := div_ceil (usize_to_u64 (str_len text)) 4.

(** The [Serialize] derived for [ImageRef]: internally tagged by [type]. *)
Definition image_ref_json (data : ImageRef) : Value :=
  match data with
  | InlineBase64 data => JObject [("type", JString "inline_base64"); ("data", JString data)]
  | Url url => JObject [("type", JString "url"); ("url", JString url)]
  end.

Section estimator.
Context `{W : JsonWriter}.

Definition estimate_serialized (value : Value) : Z :=
  match to_writer value with
  | Some chunks => div_ceil (foldl counter_write 0 chunks) 4
  | None => u64_max
  end.

Definition estimate_value (value : Value) : Z := estimate_serialized value.

Definition estimate_opt (o : option string) : Z :=
  match o with Some s => estimate_text s | None => 0 end.

Definition estimate_part (part : ToolOutputPart) : Z :=
  match part with
  | PartText text => estimate_text text
  | PartStructured value => estimate_value value
  | PartImage media_type data =>
      sat_add (estimate_text media_type) (estimate_serialized (image_ref_json data))
  end.

Definition estimate_tool_output (output : ToolOutput) : Z :=
  match output with
  | OutText text => estimate_text text
  | OutStructured value => estimate_value value
  | OutMixed parts => foldl (λ total part, sat_add total (estimate_part part)) 0 parts
  end.

Definition estimate_block (block : Block) : Z :=
  let body :=
    match block with
    | Text text => estimate_text text
    | Thinking content signature => sat_add (estimate_text content) (estimate_opt signature)
    | ToolCall id name args =>
        sat_add (sat_add (estimate_text id) (estimate_text name)) (estimate_value args)
    | ToolResult id output _ => sat_add (estimate_text id) (estimate_tool_output output)
    | Image media_type data =>
        sat_add (estimate_text media_type) (estimate_serialized (image_ref_json data))
    | Citation uri title excerpt =>
        sat_add (sat_add (estimate_text uri) (estimate_opt title)) (estimate_opt excerpt)
    end
  in sat_add body 3.

Definition estimate_turn (turn : Turn) : Z :=
  foldl (λ total block, sat_add total (estimate_block block)) 4 (blocks turn).

Definition estimate_tool (tool : ToolDefinition) : Z :=
  sat_add (sat_add (sat_add 12 (estimate_text (tool_name tool)))
                   (estimate_text (tool_description tool)))
          (estimate_value (input_schema tool)).

Definition estimate_tools (tools : list ToolDefinition) : Z :=
  foldl (λ total tool, sat_add total (estimate_tool tool)) 0 tools.
End estimator.

(** * Canonical form: well-formed, sorted, idempotent *)

Lemma insert_all_NoDup_aux {A} (l acc : list (string * A)) :
  NoDup ((acc ++ l)%list.*1) →
  foldl (λ acc e, map_insert e.1 e.2 acc) acc l = (acc ++ l)%list.
Proof.
  revert acc. induction l as [|[k v] l IH]; intros acc Hnd; simpl; [by rewrite app_nil_r|].
  rewrite map_insert_fresh.
  - rewrite IH; rewrite <- app_assoc; done.
  - rewrite fmap_app in Hnd. apply NoDup_app in Hnd as (_ & Hdisj & _).
    intros Hk. by eapply Hdisj; [exact Hk|left].
Qed.
Lemma insert_all_NoDup {A} (l : list (string * A)) : NoDup l.*1 → insert_all l = l.
Proof. intros. by apply (insert_all_NoDup_aux l []). Qed.

Lemma key_le_total {A} (x y : string * A) : key_le x y = true ∨ key_le y x = true.
Proof. apply string_leb_total. Qed.
Lemma key_le_trans {A} (x y z : string * A) :
  key_le x y = true → key_le y z = true → key_le x z = true.
Proof. apply string_leb_trans. Qed.

Lemma canonical_entry_keys m : (map canonical_entry m).*1 = m.*1.
Proof. induction m as [|[k x] m IH]; [done|]. csimpl. by rewrite IH. Qed.

Lemma canonicalize_json_object_wf m :
  NoDup m.*1 →
  canonicalize_json (JObject m) = JObject (stable_sort key_le (map canonical_entry m)).
Proof.
  intros Hnd. rewrite canonicalize_json_object, insert_all_NoDup; [done|].
  rewrite stable_sort_perm, canonical_entry_keys. done.
Qed.

Lemma canonicalize_json_wf v : json_wf v → json_wf (canonicalize_json v).
Proof.
  induction v as [| | | |l IH|m IH] using Value_ind'; try done.
  - rewrite canonicalize_json_array, !json_wf_array. intros Hl.
    apply Forall_fmap. eapply Forall_impl; [exact (List.Forall_and IH Hl)|].
    intros x [? ?]; simpl; auto.
  - rewrite json_wf_object. intros [Hnd Hm].
    rewrite canonicalize_json_object_wf by done. rewrite json_wf_object.
    rewrite stable_sort_perm, canonical_entry_keys. split; [done|].
    apply Forall_fmap. eapply Forall_impl; [exact (List.Forall_and IH Hm)|].
    intros x [? ?]; simpl; auto.
Qed.

Lemma NoDup_keys_inj {A} (m : list (string * A)) x y :
  NoDup m.*1 → x ∈ m → y ∈ m → x.1 = y.1 → x = y.
Proof.
  destruct x as [k v], y as [k' w]; simpl. intros Hnd Hx Hy ->.
  apply map_get_NoDup in Hx, Hy; try done. congruence.
Qed.

(** Values that [==] considers equal have one canonical form. *)
Lemma canonicalize_json_eqb v w :
  json_wf v → json_wf w → json_eqb v w = true → canonicalize_json v = canonicalize_json w.
Proof.
  revert w. induction v as [|b|n|s|l IH|m IH] using Value_ind';
    intros [|b'|n'|s'|k|m']; try done.
  - intros _ _ H%eqb_prop. by rewrite H.
  - intros _ _ H%bool_decide_eq_true_1. by rewrite H.
  - intros _ _ H%String.eqb_eq. by rewrite H.
  - rewrite !json_wf_array, json_eqb_array, !canonicalize_json_array.
    intros Hl Hk H. f_equal. induction H as [|x y l k Hxy H IH']; [done|]. simpl.
    apply Forall_cons_1 in IH as [IHx IH], Hl as [Hx Hl], Hk as [Hy Hk].
    f_equal; auto.
  - rewrite !json_wf_object, json_eqb_object. intros [Hm Hmw] [Hm' Hmw'] [Hlen H].
    rewrite !canonicalize_json_object_wf by done. f_equal.
    apply stable_sort_unique; [apply key_le_total|apply key_le_trans| |].
    + intros x y Hx Hy H1 H2. apply (NoDup_keys_inj (map canonical_entry m)); try done.
      * by rewrite canonical_entry_keys.
      * by apply string_leb_antisym.
    + apply NoDup_Permutation_bis.
      * apply NoDup_ListNoDup. apply (NoDup_fmap_1 fst). by rewrite canonical_entry_keys.
      * rewrite !length_map. lia.
      * intros e He. apply list_elem_of_In, list_elem_of_fmap in He as ((k & x) & -> & He).
        rewrite Forall_forall in H, IH, Hmw, Hmw'.
        destruct (H _ He) as (y & Hy & Hxy). apply map_get_elem in Hy.
        apply list_elem_of_In, list_elem_of_fmap. exists (k, y). split; [|done].
        unfold canonical_entry; simpl. f_equal.
        apply (IH _ He); [by apply (Hmw _ He)|by apply (Hmw' _ Hy)|done].
Qed.

(** Conversely, values with one canonical form are equal for [==]. *)
Lemma canonicalize_json_eqb_inv v w :
  json_wf v → json_wf w → canonicalize_json v = canonicalize_json w → json_eqb v w = true.
Proof.
  revert w. induction v as [|b|n|s|l IH|m IH] using Value_ind'; intros [|b'|n'|s'|k|m'] Hv Hw;
    try discriminate.
  - done.
  - intros [= ->]. simpl. by destruct b'.
  - intros [= ->]. simpl. by apply bool_decide_eq_true_2.
  - intros [= ->]. simpl. apply String.eqb_refl.
  - rewrite !canonicalize_json_array, json_eqb_array. rewrite json_wf_array in Hv, Hw.
    intros [= Heq]. revert k Hw Heq. induction IH as [|x l IHx IH IHl]; intros [|y k] Hw Heq;
      simplify_list_eq; [constructor|].
    apply Forall_cons_1 in Hv as [Hx Hl], Hw as [Hy Hk]. constructor; auto.
  - rewrite json_wf_object in Hv, Hw. destruct Hv as [Hm Hmw], Hw as [Hm' Hmw'].
    rewrite !canonicalize_json_object_wf, json_eqb_object by done. intros [= Heq].
    assert (Hp : map canonical_entry m ≡ₚ map canonical_entry m').
    { by rewrite <- (stable_sort_perm key_le (map canonical_entry m)), Heq, stable_sort_perm. }
    split; [apply Permutation_length in Hp; by rewrite !length_map in Hp|].
    rewrite Forall_forall in IH, Hmw, Hmw' |- *. intros [k x] Hx.
    assert (Hy : canonical_entry (k, x) ∈ map canonical_entry m').
    { rewrite <- Hp. apply list_elem_of_fmap. by exists (k, x). }
    apply list_elem_of_fmap in Hy as ([k' y] & Hxy & Hy).
    unfold canonical_entry in Hxy; simplify_eq/=. exists y.
    split; [by apply map_get_NoDup|]. apply (IH _ Hx); [by apply (Hmw _ Hx)|by apply (Hmw' _ Hy)|done].
Qed.

(** Two well-formed JSON values have the same [canonicalize_json] exactly
    when serde's order-insensitive [==] holds between them, so hashing or
    sizing the canonical form never depends on key order and never conflates
    two different values. *)
Theorem canonicalize_json_complete v w :
  json_wf v → json_wf w →
  (canonicalize_json v = canonicalize_json w ↔ json_eqb v w = true).
Proof.
  intros Hv Hw. split; [by apply canonicalize_json_eqb_inv|by apply canonicalize_json_eqb].
Qed.

(** Sorting and canonicalizing again changes nothing. *)
Lemma canonicalize_json_idem v :
  json_wf v → canonicalize_json (canonicalize_json v) = canonicalize_json v.
Proof.
  intros Hv. apply canonicalize_json_eqb; [by apply canonicalize_json_wf|done|].
  revert Hv. induction v as [|b|n|s|l IH|m IH] using Value_ind'.
  - done.
  - intros _. by destruct b.
  - intros _. by apply bool_decide_eq_true_2.
  - intros _. apply String.eqb_refl.
  - rewrite json_wf_array, canonicalize_json_array, json_eqb_array. intros Hl.
    induction IH as [|x l IHx IH IHl]; csimpl; [constructor|].
    apply Forall_cons_1 in Hl as [Hx Hl]. constructor; auto.
  - rewrite json_wf_object. intros [Hnd Hm].
    rewrite canonicalize_json_object_wf, json_eqb_object by done.
    rewrite length_stable_sort, length_map, stable_sort_perm. split; [done|].
    apply Forall_fmap. rewrite Forall_forall in IH, Hm |- *. intros [k x] Hx. exists x.
    split; [by apply map_get_NoDup|]. by apply (IH _ Hx), (Hm _ Hx).
Qed.

(** * The size of the canonical text *)

Section sizes.
Context {W : JsonWriter} {HW : CompactJson W}.

Lemma json_bytes_canonical v :
  json_wf v → json_bytes (canonicalize_json v) = json_bytes v.
Proof.
  induction v as [| | | |l IH|m IH] using Value_ind'; try done.
  - rewrite json_wf_array, canonicalize_json_array, !compact_array, length_map. intros Hl.
    do 3 f_equal. rewrite map_map. apply map_ext_in. intros x Hx.
    apply list_elem_of_In in Hx. rewrite Forall_forall in IH, Hl. auto.
  - rewrite json_wf_object. intros [Hnd Hm].
    rewrite canonicalize_json_object_wf, !compact_object by done.
    rewrite length_stable_sort, length_map. do 2 f_equal.
    rewrite (sum_Z_perm _ (map (λ e, json_bytes (JString e.1) + 1 + json_bytes e.2)
                               (map canonical_entry m))); last first.
    { apply Permutation_map, stable_sort_perm. }
    rewrite map_map. f_equal. apply map_ext_in. intros [k x] Hx.
    apply list_elem_of_In in Hx. rewrite Forall_forall in IH, Hm.
    specialize (IH _ Hx (Hm _ Hx)). simpl in *. by rewrite IH.
Qed.

Lemma counter_total chunks :
  foldl counter_write 0 chunks = Z.min (sum_Z (map str_len chunks)) u64_max.
Proof.
  assert (Hgen : ∀ a, 0 ≤ a → foldl counter_write (Z.min a u64_max) chunks
      = Z.min (a + sum_Z (map str_len chunks)) u64_max); [|by apply (Hgen 0)].
  induction chunks as [|c chunks IH]; intros a Ha; simpl; [f_equal; lia|].
  pose proof (str_len_nonneg c). unfold counter_write at 2, usize_to_u64.
  assert (sat_add (Z.min a u64_max) (to_u64_or_max (str_len c)) =
          Z.min (a + str_len c) u64_max) as -> by machine_lia.
  rewrite IH by lia. f_equal; lia.
Qed.

Lemma estimate_value_bytes v :
  estimate_value v = div_ceil (Z.min (json_bytes v) u64_max) 4.
Proof.
  unfold estimate_value, estimate_serialized, json_bytes.
  destruct (compact_total v) as [chunks ->]. by rewrite counter_total.
Qed.
End sizes.

(** The estimator counts a value as it stands, in insertion order, instead
    of serializing its canonical form; for every well-formed value that is the
    estimate of the canonical form ("key order changes the bytes, but not
    their length"). *)
Theorem estimate_value_canonical {W : JsonWriter} {HW : CompactJson W} v :
  json_wf v → estimate_value (canonicalize_json v) = estimate_value v.
Proof. intros Hv. by rewrite !estimate_value_bytes, json_bytes_canonical. Qed.

(** * Ranges and exactness of the estimates *)

Lemma div_ceil_u64 x : u64 x → u64 (div_ceil x 4).
Proof.
  intros [H0 H1]. unfold div_ceil. split; [apply Z.div_pos; lia|].
  apply Z.div_le_upper_bound; unfold u64_max in *; lia.
Qed.
Lemma estimate_text_u64 s : u64 (estimate_text s).
Proof.
  apply div_ceil_u64. pose proof (str_len_nonneg s). unfold usize_to_u64. machine_lia.
Qed.
Lemma estimate_opt_u64 o : u64 (estimate_opt o).
Proof. destruct o; [apply estimate_text_u64|apply u64_zero]. Qed.
#[export] Hint Resolve estimate_text_u64 estimate_opt_u64 : machine.

(** A saturating fold of a [u64]-valued measure is the exact sum cut off at
    [u64::MAX], and so a [u64]. *)
Lemma sat_fold_measure {A} (f : A → Z) (l : list A) a :
  0 ≤ a → (∀ x, 0 ≤ f x) →
  foldl (λ total x, sat_add total (f x)) (Z.min a u64_max) l =
  Z.min (a + sum_Z (map f l)) u64_max.
Proof.
  intros Ha Hf. revert a Ha. induction l as [|x l IH]; intros a Ha; simpl; [f_equal; lia|].
  specialize (Hf x). rewrite sat_add_min by done. rewrite IH by lia. f_equal; lia.
Qed.
Lemma sat_fold_u64 {A} (f : A → Z) (l : list A) a :
  u64 a → (∀ x, u64 (f x)) → u64 (foldl (λ total x, sat_add total (f x)) a l).
Proof.
  intros Ha Hf. revert a Ha. induction l as [|x l IH]; intros a Ha; simpl; auto with machine.
Qed.

Section ranges.
Context {W : JsonWriter}.

Lemma estimate_serialized_u64 v : u64 (estimate_serialized v).
Proof.
  unfold estimate_serialized. destruct (to_writer v) as [chunks|]; [|machine_lia].
  apply div_ceil_u64. apply sat_fold_u64; [apply u64_zero|].
  intros s. pose proof (str_len_nonneg s). unfold usize_to_u64. machine_lia.
Qed.
Lemma estimate_part_u64 p : u64 (estimate_part p).
Proof. destruct p; simpl; auto using estimate_serialized_u64 with machine. Qed.
Lemma estimate_tool_output_u64 o : u64 (estimate_tool_output o).
Proof.
  destruct o; simpl; auto using estimate_serialized_u64 with machine.
  apply sat_fold_u64; auto using estimate_part_u64 with machine.
Qed.
Lemma estimate_block_u64 b : u64 (estimate_block b).
Proof.
  unfold estimate_block. apply u64_sat_add; [|machine_lia].
  destruct b; auto using estimate_serialized_u64, estimate_tool_output_u64 with machine.
  all: repeat apply u64_sat_add; auto using estimate_serialized_u64 with machine.
Qed.
Lemma estimate_turn_u64 t : u64 (estimate_turn t).
Proof. apply sat_fold_u64; [machine_lia|]. apply estimate_block_u64. Qed.
Lemma estimate_tool_u64 t : u64 (estimate_tool t).
Proof.
  unfold estimate_tool. repeat apply u64_sat_add; auto with machine; [machine_lia|].
  apply estimate_serialized_u64.
Qed.
Lemma estimate_tools_u64 l : u64 (estimate_tools l).
Proof. apply sat_fold_u64; auto using estimate_tool_u64 with machine. Qed.

Lemma estimate_turn_sum t :
  estimate_turn t = Z.min (4 + sum_Z (map estimate_block (blocks t))) u64_max.
Proof.
  unfold estimate_turn. change 4 with (Z.min 4 u64_max) at 1.
  apply sat_fold_measure; [lia|]. intros b. apply estimate_block_u64.
Qed.
Lemma estimate_tools_perm l k : l ≡ₚ k → estimate_tools l = estimate_tools k.
Proof.
  intros Hp. unfold estimate_tools. change 0 with (Z.min 0 u64_max).
  rewrite !sat_fold_measure by (try lia; intros x; apply estimate_tool_u64).
  do 2 f_equal. apply sum_Z_perm. by apply Permutation_map.
Qed.
End ranges.
#[export] Hint Resolve estimate_serialized_u64 estimate_block_u64 estimate_turn_u64
  estimate_tool_u64 estimate_tools_u64 : machine.

(** * A concrete writer

    One instance of the interface, used to evaluate the definitions on
    concrete inputs. *)

Module SampleJson.
Definition quote_text (s : string) : string := String (byte 34) (s ++ String (byte 34) "").

Fixpoint text_of (v : Value) : string :=
  match v with
  | JNull => "null"
  | JBool b => if b then "true" else "false"
  | JNumber (PosInt n) | JNumber (NegInt n) | JNumber (FloatBits n) => pretty.pretty n
  | JString s => quote_text s
  | JArray l =>
      "[" ++ join "," ((fix go l := match l with [] => [] | x :: l' => text_of x :: go l' end) l)
      ++ "]"
  | JObject m =>
      "{" ++ join "," ((fix go m :=
                          match m with
                          | [] => []
                          | (k, x) :: m' => (quote_text k ++ ":" ++ text_of x) :: go m'
                          end) m)
      ++ "}"
  end%string.

Definition writer : JsonWriter := λ v, Some [text_of v].

Lemma str_len_join l :
  str_len (join "," l) = sum_Z (map str_len l) + commas (length l).
Proof.
  induction l as [|x [|y l] IH]; [done|unfold commas; simpl; lia|].
  change (join "," (x :: y :: l)) with (x ++ ("," ++ join "," (y :: l)))%string.
  rewrite !str_len_app, IH. change (str_len ",") with 1. unfold commas.
  cbn [map length sum_Z foldr]. lia.
Qed.

Lemma writer_bytes v : @json_bytes writer v = str_len (text_of v).
Proof. unfold json_bytes; simpl. lia. Qed.

#[global] Instance writer_compact : CompactJson writer.
Proof.
  split.
  - intros v. by eexists.
  - intros l. rewrite writer_bytes.
    change (text_of (JArray l)) with ("[" ++ join "," (map text_of l) ++ "]")%string.
    rewrite !str_len_app, str_len_join, length_map, map_map.
    change (str_len "[") with 1. change (str_len "]") with 1.
    rewrite (map_ext json_bytes (λ x, str_len (text_of x)) writer_bytes). lia.
  - intros m. rewrite writer_bytes.
    assert (text_of (JObject m) = "{" ++ join "," (map (λ e, quote_text e.1 ++ ":" ++
      text_of e.2) m) ++ "}")%string as ->.
    { simpl. do 3 f_equal. induction m as [|[k x] m IH]; simpl; congruence. }
    rewrite !str_len_app, str_len_join, length_map, map_map.
    change (str_len "{") with 1. change (str_len "}") with 1.
    rewrite (map_ext (λ e, json_bytes (JString e.1) + 1 + json_bytes e.2)
               (λ e, str_len (quote_text e.1 ++ ":" ++ text_of e.2)%string)); [lia|].
    intros [k x]. rewrite !writer_bytes, !str_len_app. change (str_len ":") with 1.
    cbn [text_of fst snd]. lia.
Qed.
End SampleJson.

Definition sample_object : Value :=
  JObject [("z", JObject [("b", JNumber (PosInt 2)); ("a", JNumber (PosInt 1))]);
           ("a", JArray [JNull; JBool true])].

Lemma sample_object_wf : json_wf sample_object.
Proof.
  repeat (split || constructor); simpl; auto.
  all: rewrite ?list_elem_of_In; simpl; intuition discriminate.
Qed.

Lemma canonicalize_json_complete_witness :
  canonicalize_json sample_object = canonicalize_json (canonicalize_json sample_object) ↔
  json_eqb sample_object (canonicalize_json sample_object) = true.
Proof.
  apply (canonicalize_json_complete sample_object (canonicalize_json sample_object)).
  - exact sample_object_wf.
  - apply canonicalize_json_wf, sample_object_wf.
Defined.

Lemma estimate_value_canonical_witness :
  @estimate_value SampleJson.writer (canonicalize_json sample_object) = 9 ∧
  @estimate_value SampleJson.writer sample_object = 9.
Proof.
  split; [|reflexivity].
  rewrite (@estimate_value_canonical SampleJson.writer SampleJson.writer_compact sample_object
             sample_object_wf).
  reflexivity.
Defined.
