(* ===== verification/Budget.v ===== *)
(** Local token budgets reconciled against provider-reported usage
    ([rw-context/src/budget.rs]). *)
From S2P Require Import Prelude Text Ir Estimate.

Definition FACTOR_SCALE : Z := 1000000.
Definition MIN_FACTOR : Z := 250000.
Definition MAX_FACTOR : Z := 4000000.

Record BudgetEstimate : Type := mkEstimate {
  local_tokens : Z;
  reconciled_tokens : Z;
  be_correction_millionths : Z;
}.

Record Reconciliation : Type := mkReconciliation {
  rc_estimated_input_tokens : Z;
  rc_provider_input_tokens : Z;
  rc_correction_millionths : Z;
  rc_sample_count : Z;
}.

Record BudgetSnapshot : Type := mkSnapshot {
  bs_estimated_input_total : Z;
  bs_provider_input_total : Z;
  bs_correction_millionths : Z;
  bs_sample_count : Z;
}.

Record Budgeter : Type := mkBudgeter {
  estimated_input_total : Z;
  provider_input_total : Z;
  correction_millionths : Z;
  sample_count : Z;
}.

Inductive InvalidBudgetSnapshot : Type := invalid_budget_snapshot.

(** [ratio_millionths]; the callers guarantee a non-zero denominator. *)
Definition ratio_millionths (numerator denominator : Z) : Z :=
  let scaled := sat_mul128 numerator FACTOR_SCALE in
  to_u64_or_max (scaled / denominator).

Definition scale_ceil (value factor : Z) : Z :=
  let scaled := sat_mul128 value factor in
  let rounded := sat_add128 scaled (FACTOR_SCALE - 1) / FACTOR_SCALE in
  to_u64_or_max rounded.

(** [Budgeter::default] *)
Definition default_budgeter : Budgeter := mkBudgeter 0 0 FACTOR_SCALE 0.

Definition from_snapshot (snapshot : BudgetSnapshot) : Result Budgeter InvalidBudgetSnapshot :=
  let? expected :=
    if bs_sample_count snapshot =? 0 then
      if negb (bs_estimated_input_total snapshot =? 0)
         || negb (bs_provider_input_total snapshot =? 0)
      then Err invalid_budget_snapshot
      else Ok FACTOR_SCALE
    else
      if (bs_estimated_input_total snapshot =? 0) || (bs_provider_input_total snapshot =? 0)
      then Err invalid_budget_snapshot
      else Ok (clamp (ratio_millionths (bs_provider_input_total snapshot)
                                       (bs_estimated_input_total snapshot))
                     MIN_FACTOR MAX_FACTOR)
  in
  if negb (expected =? bs_correction_millionths snapshot)
  then Err invalid_budget_snapshot
  else Ok (mkBudgeter (bs_estimated_input_total snapshot) (bs_provider_input_total snapshot)
                      expected (bs_sample_count snapshot)).

(** [Budgeter::estimate] *)
Definition budget_estimate `{W : JsonWriter} (self : Budgeter)
    (turns : list Turn) (tools : list ToolDefinition) : BudgetEstimate :=
  let local :=
    foldl (λ total turn, sat_add total (estimate_turn turn)) (estimate_tools tools) turns in
  mkEstimate local (scale_ceil local (correction_millionths self)) (correction_millionths self).

(** [Budgeter::reconcile] *)
Definition provider_input (usage : TokenUsage) : Z :=
  sat_add (sat_add (input_tokens usage) (cache_read_tokens usage)) (cache_write_tokens usage).

Definition reconcile (self : Budgeter) (estimated_input_tokens : Z) (usage : TokenUsage)
    : Budgeter * Reconciliation :=
  let provider_input_tokens := provider_input usage in
  let self' :=
    if (0 <? estimated_input_tokens) && (0 <? provider_input_tokens) then
      let estimated := sat_add (estimated_input_total self) estimated_input_tokens in
      let provider := sat_add (provider_input_total self) provider_input_tokens in
      mkBudgeter estimated provider
        (clamp (ratio_millionths provider estimated) MIN_FACTOR MAX_FACTOR)
        (sat_add (sample_count self) 1)
    else self in
  (self', mkReconciliation estimated_input_tokens provider_input_tokens
            (correction_millionths self') (sample_count self')).

(** [Budgeter::snapshot] *)
Definition snapshot (self : Budgeter) : BudgetSnapshot :=
  mkSnapshot (estimated_input_total self) (provider_input_total self)
    (correction_millionths self) (sample_count self).

(** * Overflow policy *)

Record OverflowPolicy : Type := mkPolicy {
  context_window_tokens : Z;
  max_output_tokens : Z;
  reserved_tokens_override : option Z;
  automatic_compaction : bool;
}.

Inductive OverflowPolicyError : Type :=
| ZeroContextWindow
| ExplicitReserveExhaustsWindow (reserved_tokens context_window_tokens : Z).

Record OverflowDecision : Type := mkDecision {
  total_tokens : Z;
  od_reserved_tokens : Z;
  threshold_tokens : Z;
  remaining_before_threshold : Z;
  would_overflow : bool;
  should_compact : bool;
}.

(** [OverflowPolicy::validate] *)
Definition validate_policy (self : OverflowPolicy) : Result OverflowPolicy OverflowPolicyError :=
  if context_window_tokens self =? 0 then Err ZeroContextWindow
  else match reserved_tokens_override self with
       | Some reserved =>
           if context_window_tokens self <=? reserved
           then Err (ExplicitReserveExhaustsWindow reserved (context_window_tokens self))
           else Ok self
       | None => Ok self
       end.

Definition reserved_tokens (self : OverflowPolicy) : Z :=
  match reserved_tokens_override self with
  | Some reserved => reserved
  | None => Z.min (Z.min 20000 (max_output_tokens self)) (context_window_tokens self / 2)
  end.

(** [OverflowPolicy::calculate] *)
Definition calculate (self : OverflowPolicy) (total_tokens : Z) : OverflowDecision :=
  let reserved := reserved_tokens self in
  let threshold := sat_sub (context_window_tokens self) reserved in
  let overflow := threshold <=? total_tokens in
  let soft_threshold :=
    context_window_tokens self - div_ceil (context_window_tokens self) 5 in
  mkDecision total_tokens reserved threshold (sat_sub threshold total_tokens) overflow
    (automatic_compaction self && (Z.min threshold soft_threshold <=? total_tokens)).

(** * Invariant of the estimator *)

(** The correction is derived from the totals, and the totals are zero exactly
    before the first sample. *)
Definition budgeter_inv (b : Budgeter) : Prop :=
  if sample_count b =? 0 then
    estimated_input_total b = 0 ∧ provider_input_total b = 0 ∧
    correction_millionths b = FACTOR_SCALE
  else
    estimated_input_total b ≠ 0 ∧ provider_input_total b ≠ 0 ∧
    correction_millionths b =
      clamp (ratio_millionths (provider_input_total b) (estimated_input_total b))
            MIN_FACTOR MAX_FACTOR.

Definition budgeter_u64 (b : Budgeter) : Prop :=
  u64 (estimated_input_total b) ∧ u64 (provider_input_total b) ∧ u64 (sample_count b).

(** The estimator states a session can be in. *)
Inductive budgeter_reachable : Budgeter → Prop :=
| reachable_default : budgeter_reachable default_budgeter
| reachable_reconcile b estimated usage :
    budgeter_reachable b → u64 estimated → usage_u64 usage →
    budgeter_reachable (reconcile b estimated usage).1.

Lemma provider_input_u64 usage : usage_u64 usage → u64 (provider_input usage).
Proof. intros (? & ? & ? & ? & ?). unfold provider_input. auto with machine. Qed.

Lemma reconcile_preserves b estimated usage :
  budgeter_inv b → budgeter_u64 b → u64 estimated → usage_u64 usage →
  budgeter_inv (reconcile b estimated usage).1 ∧ budgeter_u64 (reconcile b estimated usage).1.
Proof.
  intros Hinv (He & Hp & Hs) Hest Husage%provider_input_u64.
  unfold reconcile; simpl.
  destruct ((0 <? estimated) && (0 <? provider_input usage)) eqn:E; [|done].
  apply andb_true_iff in E as [E1%Z.ltb_lt E2%Z.ltb_lt]. split.
  - unfold budgeter_inv; simpl.
    assert ((sat_add (sample_count b) 1 =? 0) = false) as ->.
    { apply Z.eqb_neq. machine_lia. }
    split; [|split; [|done]]; machine_lia.
  - split; [|split]; simpl; auto with machine. apply u64_sat_add; [done|machine_lia].
Qed.

Lemma reachable_inv b : budgeter_reachable b → budgeter_inv b ∧ budgeter_u64 b.
Proof.
  induction 1 as [|b estimated usage _ [IH1 IH2] He Hu].
  - split; [done|]. unfold budgeter_u64; simpl. machine_lia.
  - by apply reconcile_preserves.
Qed.

(** [from_snapshot] accepts exactly the snapshots of states that satisfy the
    invariant, and rebuilds the state. *)
Lemma from_snapshot_spec s b :
  from_snapshot s = Ok b ↔ s = snapshot b ∧ budgeter_inv b.
Proof.
  unfold from_snapshot, budgeter_inv.
  destruct s as [e p c n], b as [e' p' c' n']; unfold snapshot; simpl.
  split.
  - destruct (n =? 0) eqn:En; intros H.
    + destruct (negb (e =? 0) || negb (p =? 0)) eqn:Ez; [done|].
      destruct (negb (FACTOR_SCALE =? c)) eqn:Ec; [done|]. injection H as <- <- <- <-.
      apply orb_false_iff in Ez as [Ee Ep].
      apply negb_false_iff, Z.eqb_eq in Ee, Ep, Ec. subst. by rewrite En.
    + destruct ((e =? 0) || (p =? 0)) eqn:Ez; [done|].
      destruct (negb (_ =? c)) eqn:Ec; [done|]. injection H as <- <- <- <-.
      apply orb_false_iff in Ez as [Ee%Z.eqb_neq Ep%Z.eqb_neq].
      apply negb_false_iff, Z.eqb_eq in Ec as ->. by rewrite En.
  - intros [[= -> -> -> ->] Hinv]. destruct (n' =? 0) eqn:En.
    + destruct Hinv as (-> & -> & ->). simpl. done.
    + destruct Hinv as (He & Hp & ->).
      apply Z.eqb_neq in He, Hp. rewrite He, Hp; simpl. by rewrite Z.eqb_refl.
Qed.

(** Every estimator state reachable by reconciling provider reports
    survives a persist/restore cycle unchanged, whatever saturation happened
    on the way: [from_snapshot (snapshot b)] is [b]. *)
Theorem snapshot_roundtrip b :
  budgeter_reachable b → from_snapshot (snapshot b) = Ok b.
Proof. intros [Hinv _]%reachable_inv. by apply from_snapshot_spec. Qed.

Definition sample_usage : TokenUsage := mkUsage 50 7 60 40 0.
Lemma sample_usage_u64 : usage_u64 sample_usage.
Proof. repeat split; simpl; machine_lia. Qed.

Lemma snapshot_roundtrip_witness :
  from_snapshot (snapshot (reconcile default_budgeter 100 sample_usage).1) =
  Ok (mkBudgeter 100 150 1500000 1).
Proof.
  rewrite (snapshot_roundtrip (reconcile default_budgeter 100 sample_usage).1); [reflexivity|].
  constructor; [constructor|machine_lia|apply sample_usage_u64].
Defined.

(** A persisted snapshot is accepted exactly when it is the snapshot of a
    state that satisfies the reconciliation invariant, and then the restored
    estimator is that state; every other snapshot is rejected. *)
Theorem from_snapshot_exact s :
  (∀ b, from_snapshot s = Ok b ↔ s = snapshot b ∧ budgeter_inv b) ∧
  (from_snapshot s = Err invalid_budget_snapshot ↔ ¬ ∃ b, s = snapshot b ∧ budgeter_inv b).
Proof.
  split; [intros b; apply from_snapshot_spec|]. split.
  - intros H (b & Hb%from_snapshot_spec). congruence.
  - intros H. destruct (from_snapshot s) as [b|[]] eqn:E; [|done].
    exfalso. apply H. exists b. by apply from_snapshot_spec.
Qed.

(** * Scaling *)

Lemma clamp_bounds x lo hi : lo ≤ hi → lo ≤ clamp x lo hi ≤ hi.
Proof. machine_lia. Qed.

Lemma correction_bounds b :
  budgeter_inv b → MIN_FACTOR ≤ correction_millionths b ≤ MAX_FACTOR.
Proof.
  unfold budgeter_inv. case_match; intros (? & ? & ->).
  - unfold MIN_FACTOR, MAX_FACTOR, FACTOR_SCALE; lia.
  - apply clamp_bounds. unfold MIN_FACTOR, MAX_FACTOR; lia.
Qed.

(** On [u64] inputs the 128-bit intermediate values never saturate, so the
    result is the exact ceiling, cut off at [u64::MAX]. *)
Lemma scale_ceil_exact value factor :
  u64 value → 0 ≤ factor ≤ MAX_FACTOR →
  scale_ceil value factor =
    Z.min ((value * factor + (FACTOR_SCALE - 1)) / FACTOR_SCALE) u64_max.
Proof.
  intros [Hv0 Hv1] Hf. unfold scale_ceil.
  assert (Hm : 0 ≤ value * factor ≤ u64_max * MAX_FACTOR) by (unfold MAX_FACTOR in *; nia).
  assert (sat_mul128 value factor = value * factor) as ->.
  { unfold sat_mul128, u128_max, u64_max, MAX_FACTOR in *. lia. }
  assert (sat_add128 (value * factor) (FACTOR_SCALE - 1) = value * factor + (FACTOR_SCALE - 1)) as ->.
  { unfold sat_add128, FACTOR_SCALE, u128_max, u64_max, MAX_FACTOR in *. lia. }
  unfold to_u64_or_max. destruct (Z.leb_spec ((value * factor + (FACTOR_SCALE - 1)) / FACTOR_SCALE) u64_max); lia.
Qed.

Lemma budget_estimate_local {W : JsonWriter} b turns tools :
  u64 (local_tokens (budget_estimate b turns tools)).
Proof. apply sat_fold_u64; auto with machine. Qed.

(** For every reachable estimator the correction stays within a factor of
    four of 1.0, and the reconciled estimate of any request is the exact
    ceiling of the local estimate times the correction (cut off at
    [u64::MAX]): the 128-bit intermediate product never overflows. *)
Theorem reconciled_estimate_exact {W : JsonWriter} b turns tools :
  budgeter_reachable b →
  let e := budget_estimate b turns tools in
  MIN_FACTOR ≤ be_correction_millionths e ≤ MAX_FACTOR ∧
  local_tokens e =
    Z.min (sum_Z (map estimate_tool tools) + sum_Z (map estimate_turn turns)) u64_max ∧
  reconciled_tokens e =
    Z.min ((local_tokens e * be_correction_millionths e + (FACTOR_SCALE - 1)) / FACTOR_SCALE)
          u64_max.
Proof.
  intros [Hinv _]%reachable_inv e. pose proof (correction_bounds b Hinv) as Hc.
  split; [done|split].
  - unfold e, budget_estimate, estimate_tools; simpl. change 0 with (Z.min 0 u64_max) at 1.
    rewrite sat_fold_measure by (try lia; intros x; apply estimate_tool_u64).
    rewrite sat_fold_measure; [done| |intros x; apply estimate_turn_u64].
    simpl. apply sum_Z_nonneg, Forall_fmap, Forall_true. intros x; apply estimate_tool_u64.
  - apply (scale_ceil_exact (local_tokens e) (correction_millionths b)); [apply budget_estimate_local|].
    unfold MIN_FACTOR in Hc. lia.
Qed.

(** A report is folded into the state only when both sides are positive;
    then the divisor of the correction is positive (the division cannot
    panic), the three input partitions are all counted, and totals and sample
    count never decrease. *)
Theorem reconcile_progress b estimated usage :
  budgeter_reachable b → u64 estimated → usage_u64 usage →
  let b' := (reconcile b estimated usage).1 in
  let r := (reconcile b estimated usage).2 in
  rc_provider_input_tokens r =
    Z.min (input_tokens usage + cache_read_tokens usage + cache_write_tokens usage) u64_max ∧
  estimated_input_total b ≤ estimated_input_total b' ∧
  provider_input_total b ≤ provider_input_total b' ∧
  sample_count b ≤ sample_count b' ∧
  (if (0 <? estimated) && (0 <? rc_provider_input_tokens r)
   then 0 < estimated_input_total b' ∧ 0 < provider_input_total b' ∧ 0 < sample_count b'
   else b' = b).
Proof.
  intros [_ (He & Hp & Hs)]%reachable_inv Hest Husage.
  pose proof (provider_input_u64 _ Husage) as Hpi. destruct Husage as (Hi & _ & Hr & Hw & _).
  cbv zeta. split; [unfold reconcile, provider_input; simpl; machine_lia|].
  cbn [reconcile snd rc_provider_input_tokens fst].
  destruct ((0 <? estimated) && (0 <? provider_input usage)) eqn:E; [|simpl; split_and!; lia || done].
  apply andb_true_iff in E as [E1%Z.ltb_lt E2%Z.ltb_lt]. simpl. machine_lia.
Qed.

Lemma reconcile_progress_witness :
  rc_provider_input_tokens (reconcile default_budgeter 100 sample_usage).2 = 150.
Proof.
  apply (reconcile_progress default_budgeter 100 sample_usage);
    [constructor|machine_lia|apply sample_usage_u64].
Defined.

Lemma reconciled_estimate_exact_witness :
  let b := (reconcile default_budgeter 100 sample_usage).1 in
  let e := @budget_estimate SampleJson.writer b [mkTurn User [Text "hello"] default_meta] [] in
  local_tokens e = 9 ∧ reconciled_tokens e = 14.
Proof.
  intros b e. split; [reflexivity|].
  destruct (@reconciled_estimate_exact SampleJson.writer b
              [mkTurn User [Text "hello"] default_meta] []) as (_ & _ & H).
  - constructor; [constructor|machine_lia|apply sample_usage_u64].
  - unfold e. rewrite H. reflexivity.
Defined.

(** * Overflow decisions *)

Definition policy_u64 (p : OverflowPolicy) : Prop :=
  u64 (context_window_tokens p) ∧ u64 (max_output_tokens p) ∧
  match reserved_tokens_override p with Some r => u64 r | None => True end.

Lemma validated_reserve p :
  policy_u64 p → validate_policy p = Ok p →
  0 < context_window_tokens p ∧ 0 ≤ reserved_tokens p < context_window_tokens p.
Proof.
  intros (Hw & Hm & Hr). unfold validate_policy, reserved_tokens.
  destruct (context_window_tokens p =? 0) eqn:E0; [done|]. apply Z.eqb_neq in E0.
  assert (0 < context_window_tokens p) by (machine_lia).
  destruct (reserved_tokens_override p) as [r|]; intros Hok.
  - destruct (context_window_tokens p <=? r) eqn:E; [done|]. machine_lia.
  - assert (0 ≤ context_window_tokens p / 2 < context_window_tokens p).
    { split; [apply Z.div_pos; lia|apply Z.div_lt; lia]. }
    machine_lia.
Qed.

Lemma soft_threshold_floor w : 0 ≤ w → w - div_ceil w 5 = 4 * w / 5.
Proof.
  intros Hw. unfold div_ceil. replace (w + 5 - 1) with (w + 4) by lia.
  pose proof (Z.div_mod w 5). pose proof (Z.mod_pos_bound w 5).
  Z.div_mod_to_equations. lia.
Qed.

(** For a validated policy the reserve leaves room for input, a request
    overflows exactly when input plus reserve fill the window, and automatic
    compaction runs exactly at the earlier of that point and 80% of the
    window; in particular it never runs later than a physical overflow. *)
Theorem overflow_decision_exact p total :
  policy_u64 p → u64 total → validate_policy p = Ok p →
  let d := calculate p total in
  0 < threshold_tokens d ∧
  threshold_tokens d + reserved_tokens p = context_window_tokens p ∧
  (would_overflow d = true ↔ context_window_tokens p ≤ total + reserved_tokens p) ∧
  (would_overflow d = false →
     remaining_before_threshold d + total + reserved_tokens p = context_window_tokens p) ∧
  (should_compact d = true ↔
     automatic_compaction p = true ∧
     (context_window_tokens p ≤ total + reserved_tokens p ∨
      4 * context_window_tokens p / 5 ≤ total)) ∧
  (automatic_compaction p = true → would_overflow d = true → should_compact d = true).
Proof.
  intros Hp Ht Hv d. destruct (validated_reserve p Hp Hv) as [Hw Hr].
  unfold d, calculate; simpl. rewrite soft_threshold_floor by lia.
  assert (sat_sub (context_window_tokens p) (reserved_tokens p) =
          context_window_tokens p - reserved_tokens p) as -> by (unfold sat_sub; lia).
  rewrite andb_true_iff, !Z.leb_le, Z.leb_gt. unfold sat_sub. 
  repeat split; try lia; intros; destruct_and?; auto; lia.
Qed.

Definition sample_policy : OverflowPolicy := mkPolicy 200000 20000 None true.

Lemma overflow_decision_exact_witness :
  should_compact (calculate sample_policy 160000) = true ∧
  would_overflow (calculate sample_policy 160000) = false.
Proof.
  split; [|reflexivity].
  destruct (overflow_decision_exact sample_policy 160000) as (_ & _ & _ & _ & H & _);
    [repeat split; simpl; machine_lia|machine_lia|reflexivity|].
  apply H. split; [reflexivity|]. right. vm_compute. discriminate.
Defined.
