(* ===== verification/Prune.v ===== *)
(** Deterministic tool-output pruning ([rw-context/src/prune.rs]). *)
From S2P Require Import Prelude Text.

Definition PRUNED_TOOL_OUTPUT_REPLACEMENT : string := "[Old tool result content cleared]".
Definition DEFAULT_RECENT_USER_TURNS : Z := 2.
Definition DEFAULT_PROTECTED_TOOL_TOKENS : Z := 40000.
Definition DEFAULT_MINIMUM_RECLAIM_TOKENS : Z := 20000.

Inductive PruneRecordKind : Type :=
| KUser
| KToolOutput (output_id tool_name : string) (completed : bool)
| KSummaryMarker
| KPrunedMarker
| KOther.

Record PruneRecord : Type := mkRecord {
  item_id : string;
  transcript_index : Z;
  kind : PruneRecordKind;
  tokens : Z;
  pinned : bool;
}.

Record PruneConfig : Type := mkPruneConfig {
  recent_user_turns : Z;
  protected_tool_tokens : Z;
  minimum_reclaim_tokens : Z;
  protected_tools : gset string;
}.

Definition default_prune_config : PruneConfig :=
  mkPruneConfig DEFAULT_RECENT_USER_TURNS DEFAULT_PROTECTED_TOOL_TOKENS
    DEFAULT_MINIMUM_RECLAIM_TOKENS {["skill"]}.

Record PruneDecision : Type := mkPruneDecision {
  d_item_id : string;
  d_transcript_index : Z;
  d_output_id : string;
  d_tool_name : string;
  original_tokens : Z;
  replacement : string;
}.

Inductive PruneStopReason : Type := StartOfTranscript | SummaryMarker | PrunedMarker.

Record PrunePlan : Type := mkPlan {
  decisions : list PruneDecision;
  eligible_reclaim_tokens : Z;
  reclaimed_tokens : Z;
  protected_window_tokens : Z;
  stop_reason : PruneStopReason;
}.

(** The mutable locals of [Pruner::plan]. *)
Record Walk : Type := mkWalk {
  newest_users_seen : Z;
  window : Z;
  candidates : list PruneDecision;
  eligible : Z;
}.

(** The loop body, from the recent-turn check on, for a record that is neither
    a marker nor a user turn. *)
Definition consider (config : PruneConfig) (st : Walk) (record : PruneRecord) : Walk :=
  if newest_users_seen st <? recent_user_turns config then st
  else match kind record with
  | KToolOutput output_id tool_name completed =>
      if negb completed then st
      else if pinned record || bool_decide (tool_name ∈ protected_tools config) then st
      else if window st <? protected_tool_tokens config then
        mkWalk (newest_users_seen st) (sat_add (window st) (tokens record))
          (candidates st) (eligible st)
      else
        mkWalk (newest_users_seen st) (window st)
          (candidates st ++
             [mkPruneDecision (item_id record) (transcript_index record) output_id tool_name
                (tokens record) PRUNED_TOOL_OUTPUT_REPLACEMENT])
          (sat_add (eligible st) (tokens record))
  | _ => st
  end.

(** [for record in records.iter().rev()], on the reversed list *)
Fixpoint walk (config : PruneConfig) (newest_first : list PruneRecord) (st : Walk)
    : Walk * PruneStopReason :=
  match newest_first with
  | [] => (st, StartOfTranscript)
  | record :: rest =>
      match kind record with
      | KSummaryMarker => (st, SummaryMarker)
      | KPrunedMarker => (st, PrunedMarker)
      | KUser =>
          walk config rest
            (mkWalk (sat_add (newest_users_seen st) 1) (window st) (candidates st) (eligible st))
      | KToolOutput _ _ _ | KOther => walk config rest (consider config st record)
      end
  end.

(** [sort_unstable_by_key(transcript_index)]; the order it gives to two
    decisions with one index is not specified, so nothing below relies on it. *)
Definition index_le (x y : PruneDecision) : bool :=
  d_transcript_index x <=? d_transcript_index y.

(** [Pruner::plan] *)
Definition prune_plan (records : list PruneRecord) (config : PruneConfig) : PrunePlan :=
  let '(st, reason) := walk config (reverse records) (mkWalk 0 0 [] 0) in
  let crossed_threshold := minimum_reclaim_tokens config <? eligible st in
  mkPlan (if crossed_threshold then stable_sort index_le (candidates st) else [])
    (eligible st)
    (if crossed_threshold then eligible st else 0)
    (window st) reason.

(** * Specification

    A record is prunable when it is a completed, unpinned output of a tool
    that is not protected.  Read newest first, a prunable record counts once
    [recent_user_turns] user turns are newer than it; the counted records
    fill the protection window, and those that come after it is full, up to
    the previous marker, are eligible. *)

Definition prunable (config : PruneConfig) (r : PruneRecord) : bool :=
  match kind r with
  | KToolOutput _ name completed =>
      completed && negb (pinned r) && negb (bool_decide (name ∈ protected_tools config))
  | _ => false
  end.
Definition is_user (r : PruneRecord) : bool := match kind r with KUser => true | _ => false end.
Definition is_marker (r : PruneRecord) : bool :=
  match kind r with KSummaryMarker | KPrunedMarker => true | _ => false end.

Definition users (newer : list PruneRecord) : Z :=
  Z.of_nat (length (List.filter is_user newer)).

(** [newer] is the list of records newer than [r], newest first. *)
Definition counts (config : PruneConfig) (newer : list PruneRecord) (r : PruneRecord) : bool :=
  prunable config r && (recent_user_turns config <=? users newer).

Fixpoint counted_tokens (config : PruneConfig) (newer l : list PruneRecord) : Z :=
  match l with
  | [] => 0
  | r :: l' =>
      (if counts config newer r then tokens r else 0) + counted_tokens config (newer ++ [r]) l'
  end.

Definition is_eligible (config : PruneConfig) (newer : list PruneRecord) (r : PruneRecord) : bool :=
  counts config newer r && (protected_tool_tokens config <=? counted_tokens config [] newer).

Fixpoint eligible_from (config : PruneConfig) (newer l : list PruneRecord) : list PruneRecord :=
  match l with
  | [] => []
  | r :: l' =>
      if is_marker r then []
      else (if is_eligible config newer r then [r] else [])
             ++ eligible_from config (newer ++ [r]) l'
  end.

(** The eligible records of a transcript, in transcript order. *)
Definition eligible_records (config : PruneConfig) (records : list PruneRecord)
    : list PruneRecord :=
  reverse (eligible_from config [] (reverse records)).

Definition decision_of (r : PruneRecord) : PruneDecision :=
  match kind r with
  | KToolOutput output_id name _ =>
      mkPruneDecision (item_id r) (transcript_index r) output_id name (tokens r)
        PRUNED_TOOL_OUTPUT_REPLACEMENT
  | _ => mkPruneDecision (item_id r) (transcript_index r) "" "" (tokens r)
           PRUNED_TOOL_OUTPUT_REPLACEMENT
  end.

Definition config_u64 (c : PruneConfig) : Prop :=
  u64 (recent_user_turns c) ∧ u64 (protected_tool_tokens c) ∧ u64 (minimum_reclaim_tokens c).
Definition records_u64 (l : list PruneRecord) : Prop := Forall (λ r, u64 (tokens r)) l.

Lemma users_app l r : users (l ++ [r])%list = users l + if is_user r then 1 else 0.
Proof.
  unfold users. rewrite List.filter_app, length_app. simpl. destruct (is_user r); simpl; lia.
Qed.

Lemma users_perm l k : l ≡ₚ k → users l = users k.
Proof.
  intros H. unfold users. f_equal. induction H; simpl; repeat case_match; simpl; lia.
Qed.

Lemma counted_tokens_app config newer l r :
  counted_tokens config newer (l ++ [r])%list =
  counted_tokens config newer l + if counts config (newer ++ l)%list r then tokens r else 0.
Proof.
  revert newer. induction l as [|x l IH]; intros newer; simpl.
  - rewrite app_nil_r. lia.
  - rewrite IH, <- app_assoc. simpl. lia.
Qed.

Lemma counted_tokens_nonneg config newer l : records_u64 l → 0 ≤ counted_tokens config newer l.
Proof.
  intros Hl. revert newer. induction Hl as [|r l [Hr _] Hl IH]; intros newer; simpl; [lia|].
  specialize (IH (newer ++ [r])%list). case_match; lia.
Qed.

(** What the locals hold after the records [newer] were walked. *)
Definition walk_inv (config : PruneConfig) (newer : list PruneRecord) (st : Walk) : Prop :=
  newest_users_seen st = Z.min (users newer) u64_max ∧
  0 ≤ window st ≤ Z.min (counted_tokens config [] newer) u64_max ∧
  (window st < protected_tool_tokens config →
   window st = Z.min (counted_tokens config [] newer) u64_max).

Lemma consider_spec config newer st r :
  config_u64 config → u64 (tokens r) → records_u64 newer →
  is_marker r = false → is_user r = false → walk_inv config newer st →
  walk_inv config (newer ++ [r]) (consider config st r) ∧
  candidates (consider config st r) =
    (candidates st ++ map decision_of (if is_eligible config newer r then [r] else []))%list ∧
  eligible (consider config st r) =
    if is_eligible config newer r then sat_add (eligible st) (tokens r) else eligible st.
Proof.
  intros (Hrec & Hprot & _) Htok Hnewer Hm Hu (Hseen & Hwin & Hfull).
  pose proof (counted_tokens_nonneg config [] newer Hnewer) as Hpos.
  assert (Hcmp : (newest_users_seen st <? recent_user_turns config) =
                 negb (recent_user_turns config <=? users newer)).
  { rewrite Hseen. unfold users. machine_lia. }
  unfold walk_inv, consider, is_eligible, decision_of.
  rewrite users_app, counted_tokens_app, Hu, Z.add_0_r. unfold counts, prunable. simpl.
  rewrite Hcmp. destruct (recent_user_turns config <=? users newer) eqn:Erec; simpl; last first.
  { rewrite !andb_false_r. simpl. rewrite app_nil_r, Z.add_0_r. auto. }
  rewrite !andb_true_r.
  destruct (kind r) as [|oid name completed| | |] eqn:Ek; simpl;
    rewrite ?app_nil_r, ?Z.add_0_r; auto.
  destruct completed; simpl; rewrite ?app_nil_r, ?Z.add_0_r; auto.
  destruct (pinned r || bool_decide (name ∈ protected_tools config)) eqn:Ep; simpl.
  { rewrite <- negb_orb, Ep. simpl. rewrite app_nil_r, Z.add_0_r. auto. }
  rewrite <- negb_orb, Ep. simpl.
  destruct (Z.leb_spec (protected_tool_tokens config) (counted_tokens config [] newer));
    destruct (Z.ltb_spec (window st) (protected_tool_tokens config));
    simpl; rewrite ?app_nil_r; unfold_machine; try (exfalso; lia);
    repeat split; auto; first [lia|by rewrite Ek].
Qed.

Lemma walk_spec config l newer st :
  config_u64 config → records_u64 newer → records_u64 l → walk_inv config newer st →
  let st' := (walk config l st).1 in
  candidates st' = (candidates st ++ map decision_of (eligible_from config newer l))%list ∧
  (0 ≤ eligible st → ∀ a, 0 ≤ a → eligible st = Z.min a u64_max →
   eligible st' = Z.min (a + sum_Z (map tokens (eligible_from config newer l))) u64_max).
Proof.
  intros Hc. revert newer st. induction l as [|r l IH]; intros newer st Hn Hl Hinv; simpl.
  { rewrite app_nil_r. split; [done|]. intros. by rewrite Z.add_0_r. }
  apply Forall_cons_1 in Hl as [Hr Hl].
  assert (Hn' : records_u64 (newer ++ [r])) by (apply Forall_app; split; [done|by constructor]).
  destruct (is_marker r) eqn:Em.
  { unfold is_marker in Em. destruct (kind r); try discriminate; simpl;
      rewrite app_nil_r; split; intros; rewrite ?Z.add_0_r; done. }
  destruct (is_user r) eqn:Eu.
  - assert (is_eligible config newer r = false) as ->.
    { unfold is_eligible, counts, prunable, is_user in *. by destruct (kind r). }
    unfold is_user in Eu. destruct (kind r) eqn:Ek; try discriminate. simpl.
    apply (IH (newer ++ [r])%list
             (mkWalk (sat_add (newest_users_seen st) 1) (window st) (candidates st) (eligible st)));
      [done|done|].
    destruct Hinv as (H1 & H2 & H3). unfold walk_inv; simpl.
    rewrite users_app, counted_tokens_app. unfold counts, prunable, is_user. rewrite Ek; simpl.
    rewrite Z.add_0_r. split; [|done]. rewrite H1. unfold users. machine_lia.
  - destruct (consider_spec config newer st r Hc Hr Hn Em Eu Hinv) as (Hinv' & Hcand & Helig).
    destruct (IH (newer ++ [r])%list (consider config st r) Hn' Hl Hinv') as [IH1 IH2].
    assert (walk config (r :: l) st = walk config l (consider config st r)) as Hw.
    { simpl. unfold is_marker, is_user in *. by destruct (kind r). }
    simpl in Hw. rewrite Hw, IH1, Hcand. rewrite map_app, app_assoc. split; [done|].
    intros H0 a Ha Hst. rewrite map_app, sum_Z_app.
    destruct Hr as [Hr0 Hr1]. destruct (is_eligible config newer r); simpl.
    + rewrite (IH2 ltac:(rewrite Helig; machine_lia) (a + tokens r)); [f_equal; lia|lia|].
      rewrite Helig, Hst. by rewrite sat_add_min.
    + by rewrite (IH2 ltac:(rewrite Helig; lia) a Ha ltac:(congruence)).
Qed.

Lemma index_le_total x y : index_le x y = true ∨ index_le y x = true.
Proof. unfold index_le. rewrite !Z.leb_le. lia. Qed.
Lemma index_le_trans x y z : index_le x y = true → index_le y z = true → index_le x z = true.
Proof. unfold index_le. rewrite !Z.leb_le. lia. Qed.

(** The records carry increasing transcript positions. *)
Definition indexed (l : list PruneRecord) : Prop :=
  StronglySorted (λ x y, transcript_index x < transcript_index y) l.

Lemma eligible_from_sublist config newer l : eligible_from config newer l `sublist_of` l.
Proof.
  revert newer. induction l as [|r l IH]; intros newer; simpl; [constructor|].
  destruct (is_marker r); [apply sublist_nil_l|].
  destruct (is_eligible config newer r); simpl; [by constructor|by constructor].
Qed.

Lemma indexed_inj l x y :
  indexed l → x ∈ l → y ∈ l → transcript_index x = transcript_index y → x = y.
Proof.
  induction 1 as [|z l Hl IH Hz]; intros Hx Hy Heq; [by inversion Hx|].
  rewrite Forall_forall in Hz.
  apply elem_of_cons in Hx as [->|Hx], Hy as [->|Hy]; auto.
  - specialize (Hz _ Hy). lia.
  - specialize (Hz _ Hx). lia.
Qed.

Lemma decision_index r : d_transcript_index (decision_of r) = transcript_index r.
Proof. unfold decision_of. by destruct (kind r). Qed.

(** The walk and its plan; the claim below and the position lemmas use it. *)
Lemma prune_plan_spec config records :
  config_u64 config → records_u64 records → indexed records →
  let p := prune_plan records config in
  let total := sum_Z (map tokens (eligible_records config records)) in
  eligible_reclaim_tokens p = Z.min total u64_max ∧
  (minimum_reclaim_tokens config < eligible_reclaim_tokens p →
     decisions p = map decision_of (eligible_records config records) ∧
     reclaimed_tokens p = eligible_reclaim_tokens p) ∧
  (eligible_reclaim_tokens p ≤ minimum_reclaim_tokens config →
     decisions p = [] ∧ reclaimed_tokens p = 0).
Proof.
  intros Hc Hr Hidx.
  assert (Hrev : records_u64 (reverse records)) by by apply Forall_reverse.
  destruct (walk_spec config (reverse records) [] (mkWalk 0 0 [] 0)) as [Hcand Helig];
    [done|constructor|done|by repeat split; simpl; machine_lia|].
  unfold prune_plan. destruct (walk config (reverse records) (mkWalk 0 0 [] 0)) as [st reason].
  simpl in *. specialize (Helig ltac:(lia) 0 ltac:(lia) eq_refl).
  assert (Hsum : sum_Z (map tokens (eligible_records config records)) =
                 sum_Z (map tokens (eligible_from config [] (reverse records)))).
  { apply sum_Z_perm, Permutation_map. unfold eligible_records. by rewrite reverse_Permutation. }
  split; [by rewrite Helig, Hsum|].
  split; intros Hlt; [apply Z.ltb_lt in Hlt|apply Z.ltb_ge in Hlt]; rewrite Hlt; [|done].
  split; [|done].
  assert (Hso : StronglySorted (λ u v, index_le u v = true)
                  (map decision_of (eligible_records config records))).
  { apply StronglySorted_fmap with (R1 := λ x y, transcript_index x < transcript_index y).
    - intros x y Hxy. unfold index_le, decision_of. destruct (kind x), (kind y); simpl;
        apply Z.leb_le; lia.
    - eapply StronglySorted_sublist; [|exact Hidx]. unfold eligible_records.
      rewrite <- (reverse_involutive records) at 2. apply sublist_reverse, eligible_from_sublist. }
  rewrite <- (stable_sort_id index_le _ Hso) at 1. rewrite Hcand.
  apply stable_sort_unique; [apply index_le_total|apply index_le_trans| |].
  - intros x y Hx Hy H1%Z.leb_le H2%Z.leb_le.
    apply list_elem_of_fmap in Hx as (rx & -> & Hx), Hy as (ry & -> & Hy).
    rewrite !decision_index in H1, H2. f_equal. eapply (indexed_inj records); [done|..|lia].
    all: rewrite <- reverse_Permutation;
      eapply elem_of_sublist; [eassumption|]; apply eligible_from_sublist.
  - unfold eligible_records. apply Permutation_map. symmetry. apply reverse_Permutation.
Qed.

(** The one-pass backward walk computes exactly the specified plan. The
    eligible total is the (saturated) sum over the eligible records; outputs
    are cleared only when it strictly exceeds the minimum, and then exactly
    the eligible records are, in transcript order. *)
Theorem prune_plan_exact config records :
  config_u64 config → records_u64 records → indexed records →
  let p := prune_plan records config in
  let total := sum_Z (map tokens (eligible_records config records)) in
  eligible_reclaim_tokens p = Z.min total u64_max ∧
  (minimum_reclaim_tokens config < eligible_reclaim_tokens p →
     decisions p = map decision_of (eligible_records config records) ∧
     reclaimed_tokens p = eligible_reclaim_tokens p) ∧
  (eligible_reclaim_tokens p ≤ minimum_reclaim_tokens config →
     decisions p = [] ∧ reclaimed_tokens p = 0).
Proof. apply prune_plan_spec. Qed.

(** * What a decision means, position by position *)

Lemma eligible_from_elem config newer l r :
  r ∈ eligible_from config newer l →
  ∃ l1 l2, l = (l1 ++ r :: l2)%list ∧ Forall (λ x, is_marker x = false) (l1 ++ [r]) ∧
           is_eligible config (newer ++ l1) r = true.
Proof.
  revert newer. induction l as [|x l IH]; intros newer Hin; simpl in Hin; [by inversion Hin|].
  destruct (is_marker x) eqn:Em; [by inversion Hin|].
  apply elem_of_app in Hin as [Hin|Hin].
  - destruct (is_eligible config newer x) eqn:Ee; [|by inversion Hin].
    apply list_elem_of_singleton in Hin as ->. exists [], l. simpl. rewrite app_nil_r.
    repeat constructor; done.
  - destruct (IH _ Hin) as (l1 & l2 & -> & Hmark & Hel).
    exists (x :: l1), l2. simpl. rewrite <- app_assoc in Hel. simpl in Hel.
    repeat split; [|done]. by constructor.
Qed.

(** Pruning never clears a record it must keep. A cleared output is a
    completed, unpinned output of an unprotected tool; no summary or prune
    marker is at or after it; at least [recent_user_turns] user turns are
    newer than it; and the counted outputs newer than it already fill the
    protection window. *)
Theorem pruned_record_allowed config records d :
  config_u64 config → records_u64 records → indexed records →
  d ∈ decisions (prune_plan records config) →
  ∃ older r newer,
    records = (older ++ r :: newer)%list ∧ d = decision_of r ∧
    (∃ oid name, kind r = KToolOutput oid name true ∧ name ∉ protected_tools config) ∧
    pinned r = false ∧
    Forall (λ x, is_marker x = false) (r :: newer) ∧
    recent_user_turns config ≤ users newer ∧
    protected_tool_tokens config ≤ counted_tokens config [] (reverse newer).
Proof.
  intros Hc Hr Hidx Hd.
  destruct (prune_plan_spec config records Hc Hr Hidx) as (_ & Hgt & Hle).
  destruct (Z.lt_ge_cases (minimum_reclaim_tokens config)
              (eligible_reclaim_tokens (prune_plan records config))) as [H|H].
  2:{ destruct (Hle H) as [Hnil _]. rewrite Hnil in Hd. inversion Hd. }
  destruct (Hgt H) as [Heq _]. rewrite Heq in Hd.
  apply list_elem_of_fmap in Hd as (r & -> & Hel).
  unfold eligible_records in Hel. rewrite elem_of_reverse in Hel.
  destruct (eligible_from_elem _ _ _ _ Hel) as (l1 & l2 & Hrec & Hmark & He).
  exists (reverse l2), r, (reverse l1). split.
  { rewrite <- (reverse_involutive records), Hrec, reverse_app, reverse_cons.
    by rewrite <- app_assoc. }
  split; [done|]. simpl in He. unfold is_eligible, counts, prunable in He.
  destruct (kind r) as [|oid name completed| | |] eqn:Ek; try discriminate.
  rewrite !andb_true_iff, !negb_true_iff, bool_decide_eq_false, !Z.leb_le in He.
  destruct He as [[[[-> Hpin] Hname] Hrecent] Hwin].
  split; [by exists oid, name|]. split; [done|]. split.
  { apply Forall_app in Hmark as [H1 H2]. apply Forall_cons_1 in H2 as [H2 _].
    constructor; [done|]. by apply Forall_reverse. }
  split; [|by rewrite reverse_involutive].
  by rewrite (users_perm _ _ (reverse_Permutation l1)).
Qed.

Definition sample_tool (index : Z) (name : string) (size : Z) : PruneRecord :=
  mkRecord "item" index (KToolOutput "call" name true) size false.
Definition sample_user (index : Z) : PruneRecord := mkRecord "user" index KUser 10 false.

(** The transcript of the source's own first test. *)
Definition sample_records : list PruneRecord :=
  [sample_tool 0 "shell" 10001; sample_tool 1 "shell" 10000; sample_user 2;
   sample_tool 3 "shell" 40000; sample_user 4; sample_tool 5 "shell" 99000;
   sample_user 6; sample_tool 7 "shell" 99000].

Lemma sample_records_u64 : records_u64 sample_records.
Proof. repeat constructor; simpl; machine_lia. Qed.
Lemma sample_records_indexed : indexed sample_records.
Proof. repeat constructor; simpl; lia. Qed.
Lemma default_prune_config_u64 : config_u64 default_prune_config.
Proof. repeat split; simpl; unfold DEFAULT_RECENT_USER_TURNS, DEFAULT_PROTECTED_TOOL_TOKENS,
  DEFAULT_MINIMUM_RECLAIM_TOKENS; machine_lia. Qed.

Lemma prune_plan_exact_witness :
  decisions (prune_plan sample_records default_prune_config) =
    map decision_of [sample_tool 0 "shell" 10001; sample_tool 1 "shell" 10000] ∧
  reclaimed_tokens (prune_plan sample_records default_prune_config) = 20001.
Proof.
  destruct (prune_plan_exact default_prune_config sample_records default_prune_config_u64
              sample_records_u64 sample_records_indexed) as (He & Hgt & _).
  destruct Hgt as [Hd Hr]; [vm_compute; reflexivity|].
  rewrite Hd, Hr. split; vm_compute; reflexivity.
Defined.

Lemma pruned_record_allowed_witness :
  ∃ older r newer, sample_records = (older ++ r :: newer)%list ∧
    decision_of (sample_tool 1 "shell" 10000) = decision_of r ∧ pinned r = false.
Proof.
  destruct (pruned_record_allowed default_prune_config sample_records
              (decision_of (sample_tool 1 "shell" 10000)) default_prune_config_u64
              sample_records_u64 sample_records_indexed) as (older & r & newer & H1 & H2 & _ & H3 & _).
  - assert (decisions (prune_plan sample_records default_prune_config) =
      map decision_of [sample_tool 0 "shell" 10001; sample_tool 1 "shell" 10000]) as ->
      by (vm_compute; reflexivity).
    right. left.
  - by exists older, r, newer.
Defined.
