(* ===== verification/Compaction.v ===== *)
(** Compaction planning and summary placement
    ([rw-context/src/compaction.rs]). *)
From S2P Require Import Prelude Text Ir.

Definition AUTO_CONTINUE_TEXT : string :=
  "Continue if you have next steps, or stop and ask for clarification".

Definition newline : string := String (byte 10) "".

Definition DEFAULT_COMPACTION_PROMPT : string :=
  ("Create a hand-off summary of the conversation in the user's language. Preserve concrete decisions, constraints, unresolved work, commands, errors, and file state so another agent can continue without the original transcript. Do not call tools. Do not include media. Return only this structure:"
   ++ newline ++ newline ++ "## Goal" ++ newline ++ newline ++ "## Instructions" ++ newline ++ newline
   ++ "## Discoveries" ++ newline ++ newline ++ "## Accomplished" ++ newline ++ newline
   ++ "## Relevant files & directories")%string.

Inductive CompactionReason : Type := AutomaticOverflow | Manual | ProviderOverflow.
#[global] Instance CompactionReason_eq_dec : EqDecision CompactionReason.
Proof. solve_decision. Defined.

Record ConversationPin : Type := mkPin {
  pin_item_id : string;
  order : Z;
  pin_turn : Turn;
}.

Record PreCompactHook : Type := mkHook {
  injected_context : list string;
  replacement_prompt : option string;
}.

Record CompactionInput : Type := mkCompactionInput {
  conversation : list Turn;
  pins : list ConversationPin;
  reason : CompactionReason;
  instructions : option string;
  hook : PreCompactHook;
  session_model_alias : string;
  compaction_model_alias : option string;
  automatic_continue : bool;
}.

Record CompactionPlan : Type := mkCompactionPlan {
  history : list Turn;
  summary_prompt : string;
  model_alias : string;
  expose_tools : bool;
  plan_reason : CompactionReason;
  ordered_pins : list ConversationPin;
  replay_user : option Turn;
  auto_continue : option Turn;
}.

Inductive CompactionError : Type := MissingReplayUser | MissingModelAlias.
#[global] Instance CompactionError_eq_dec : EqDecision CompactionError.
Proof. solve_decision. Defined.

Definition is_real_user (turn : Turn) : bool :=
  bool_decide (role turn = User) && negb (synthetic (meta turn)).

Definition sanitize_part (part : ToolOutputPart) : ToolOutputPart :=
  match part with
  | PartImage media_type _ =>
      PartText ("[Tool image omitted during compaction: " ++ media_type ++ "]")%string
  | other => other
  end.

Definition sanitize_block (block : Block) : Block :=
  match block with
  | Image media_type _ =>
      Text ("[Image omitted during compaction: " ++ media_type ++ "]")%string
  | ToolResult id (OutMixed parts) is_error =>
      ToolResult id (OutMixed (map sanitize_part parts)) is_error
  | other => other
  end.

Definition sanitize_turn (turn : Turn) : Turn :=
  mkTurn (role turn) (map sanitize_block (blocks turn)) (meta turn).
Definition sanitize_history (turns : list Turn) : list Turn := map sanitize_turn turns.

Definition summary_turn (text : string) : Turn :=
  mkTurn Assistant [Text text] (mkTurnMeta None None true true).
Definition auto_continue_turn : Turn :=
  mkTurn User [Text AUTO_CONTINUE_TEXT] (mkTurnMeta None None true false).

(** [(left.order, &left.item_id).cmp(&(right.order, &right.item_id))] *)
Definition pin_le (x y : ConversationPin) : bool :=
  (order x <? order y) || ((order x =? order y) && String.leb (pin_item_id x) (pin_item_id y)).

(** [Iterator::rposition] *)
Fixpoint rposition {A} (f : A → bool) (l : list A) : option nat :=
  match l with
  | [] => None
  | x :: l' =>
      match rposition f l' with
      | Some i => Some (S i)
      | None => if f x then Some O else None
      end
  end.

(** [Option::filter] with [!value.trim().is_empty()] *)
Definition non_blank (o : option string) : option string :=
  match o with Some s => if is_blank s then None else Some s | None => None end.

Definition build_prompt (input : CompactionInput) : string :=
  let base := default DEFAULT_COMPACTION_PROMPT (replacement_prompt (hook input)) in
  let with_instructions :=
    match non_blank (instructions input) with
    | Some text =>
        (base ++ newline ++ newline ++ "Additional user instructions:" ++ newline ++ text)%string
    | None => base
    end in
  foldl (λ prompt injected,
           (prompt ++ newline ++ newline ++ "Injected context:" ++ newline ++ injected)%string)
        with_instructions
        (List.filter (λ text, negb (is_blank text)) (injected_context (hook input))).

(** The history and replayed user of a plan. *)
Definition split_conversation (input : CompactionInput)
    : Result (list Turn * option Turn) CompactionError :=
  if bool_decide (reason input = ProviderOverflow) then
    let? replay_index := ok_or (rposition is_real_user (conversation input)) MissingReplayUser in
    let? replay :=
      ok_or (head (sanitize_history (take 1 (drop replay_index (conversation input)))))
            MissingReplayUser in
    Ok (sanitize_history (take replay_index (conversation input)), Some replay)
  else Ok (sanitize_history (conversation input), None).

(** [Compactor::plan] *)
Definition compaction_plan (input : CompactionInput) : Result CompactionPlan CompactionError :=
  if is_blank (session_model_alias input) then Err MissingModelAlias
  else
    let? (history, replay) := split_conversation input in
    Ok (mkCompactionPlan history (build_prompt input)
          (default (session_model_alias input) (non_blank (compaction_model_alias input)))
          false (reason input) (stable_sort pin_le (pins input)) replay
          (if bool_decide (reason input = AutomaticOverflow) && automatic_continue input
           then Some auto_continue_turn else None)).

(** [CompactionPlan::post_summary_turns] *)
Definition post_summary_turns (self : CompactionPlan) (summary : string) : list Turn :=
  [summary_turn summary] ++ map pin_turn (ordered_pins self)
    ++ option_list (replay_user self) ++ option_list (auto_continue self).

(** * Media *)

Definition part_has_media (p : ToolOutputPart) : bool :=
  match p with PartImage _ _ => true | _ => false end.
Definition block_has_media (b : Block) : bool :=
  match b with
  | Image _ _ => true
  | ToolResult _ (OutMixed parts) _ => existsb part_has_media parts
  | _ => false
  end.
Definition turn_has_media (t : Turn) : bool := existsb block_has_media (blocks t).

Lemma sanitize_block_clean b : block_has_media (sanitize_block b) = false.
Proof.
  destruct b as [| | |id [ | |parts] err| | ]; try done. simpl.
  induction parts as [|p parts IH]; simpl; [done|]. by destruct p.
Qed.
Lemma sanitize_turn_clean t : turn_has_media (sanitize_turn t) = false.
Proof.
  unfold turn_has_media; simpl. induction (blocks t) as [|b bs IH]; simpl; [done|].
  by rewrite sanitize_block_clean.
Qed.

(** Turns without media are passed on as they are. *)
Lemma sanitize_block_id b : block_has_media b = false → sanitize_block b = b.
Proof.
  destruct b as [| | |id [ | |parts] err| | ]; try done. simpl. intros H. do 2 f_equal.
  induction parts as [|p parts IH]; simpl in *; [done|].
  apply orb_false_iff in H as [Hp H]. destruct p; try done; simpl; by rewrite IH.
Qed.
Lemma sanitize_turn_id t : turn_has_media t = false → sanitize_turn t = t.
Proof.
  destruct t as [r bs m]. unfold turn_has_media, sanitize_turn; simpl. intros H. f_equal.
  induction bs as [|b bs IH]; simpl in *; [done|].
  apply orb_false_iff in H as [Hb H]. by rewrite sanitize_block_id, IH.
Qed.
Lemma sanitize_turn_real_user t : is_real_user (sanitize_turn t) = is_real_user t.
Proof. done. Qed.

Lemma rposition_None {A} (f : A → bool) l :
  rposition f l = None ↔ Forall (λ y, f y = false) l.
Proof.
  induction l as [|x l IH]; simpl; [split; auto|].
  destruct (rposition f l) as [j|].
  - split; [done|]. intros H. apply Forall_cons_1 in H as [_ H]. apply IH in H. done.
  - destruct (f x) eqn:Ef; split; try done.
    + intros H. apply Forall_cons_1 in H as [H _]. congruence.
    + intros _. constructor; [done|]. by apply IH.
Qed.

Lemma rposition_spec {A} (f : A → bool) l i :
  rposition f l = Some i →
  ∃ x, l !! i = Some x ∧ f x = true ∧ Forall (λ y, f y = false) (drop (S i) l).
Proof.
  revert i. induction l as [|x l IH]; intros i H; simpl in H; [done|].
  destruct (rposition f l) as [j|] eqn:E.
  - simplify_eq. destruct (IH j eq_refl) as (y & Hy & Hf & Hall). by exists y.
  - destruct (f x) eqn:Ef; simplify_eq. exists x. split_and!; [done|done|]. by apply rposition_None.
Qed.
Lemma take_one_drop {A} (l : list A) i x : l !! i = Some x → take 1 (drop i l) = [x].
Proof. intros H. by rewrite (drop_S l x i H). Qed.

(** * Properties of the plan *)

Lemma compaction_plan_inv input p :
  compaction_plan input = Ok p →
  is_blank (session_model_alias input) = false ∧
  split_conversation input = Ok (history p, replay_user p) ∧
  summary_prompt p = build_prompt input ∧
  expose_tools p = false ∧ plan_reason p = reason input ∧
  ordered_pins p = stable_sort pin_le (pins input) ∧
  auto_continue p = (if bool_decide (reason input = AutomaticOverflow) && automatic_continue input
                     then Some auto_continue_turn else None).
Proof.
  unfold compaction_plan. destruct (is_blank (session_model_alias input)); [done|].
  destruct (split_conversation input) as [[h r]|e] eqn:Es; [|done].
  intros [= <-]. by split_and!.
Qed.

Lemma split_overflow input :
  reason input = ProviderOverflow →
  (∃ older replayed newer,
     conversation input = (older ++ replayed :: newer)%list ∧
     is_real_user replayed = true ∧ Forall (λ t, is_real_user t = false) newer ∧
     split_conversation input = Ok (sanitize_history older, Some (sanitize_turn replayed))) ∨
  (Forall (λ t, is_real_user t = false) (conversation input) ∧
   split_conversation input = Err MissingReplayUser).
Proof.
  intros Hr. unfold split_conversation. rewrite bool_decide_eq_true_2 by done.
  destruct (rposition is_real_user (conversation input)) as [i|] eqn:E; simpl.
  - left. destruct (rposition_spec _ _ _ E) as (x & Hx & Hreal & Hall).
    exists (take i (conversation input)), x, (drop (S i) (conversation input)).
    rewrite take_drop_middle by done. split_and!; try done.
    by rewrite (drop_S _ x i Hx).
  - right. by apply rposition_None in E.
Qed.

(** Whatever the request, the compaction agent is shown no tools and no
    media: no image block and no tool-result image survives in the history or
    in the replayed user turn, every turn keeps its role and metadata, and
    turns that carried no media are passed on unchanged. *)
Theorem compaction_media_free input p :
  compaction_plan input = Ok p →
  expose_tools p = false ∧
  Forall (λ t, turn_has_media t = false) (history p ++ option_list (replay_user p)) ∧
  ∃ dropped, map sanitize_turn (conversation input) =
      (history p ++ option_list (replay_user p) ++ dropped)%list ∧
    (Forall (λ t, turn_has_media t = false) (conversation input) →
     conversation input = (history p ++ option_list (replay_user p) ++ dropped)%list).
Proof.
  intros (_ & Hs & _ & Hx & _)%compaction_plan_inv. split; [done|].
  assert (Hid : Forall (λ t, turn_has_media t = false) (conversation input) →
                conversation input = map sanitize_turn (conversation input)).
  { intros H. induction H; simpl; [done|]. rewrite sanitize_turn_id by done. congruence. }
  assert (Hclean : ∀ l, Forall (λ t, turn_has_media t = false) (sanitize_history l)).
  { intros l. apply Forall_fmap, Forall_true. intros t. apply sanitize_turn_clean. }
  destruct (decide (reason input = ProviderOverflow)) as [Hr|Hr].
  - destruct (split_overflow input Hr) as [(older & r & newer & Hc & _ & _ & Hok)|[_ Hok]];
      rewrite Hok in Hs; [|done].
    injection Hs as <- <-. simpl. split.
    { apply Forall_app; split; [apply Hclean|]. constructor; [apply sanitize_turn_clean|constructor]. }
    exists (map sanitize_turn newer). split; [by rewrite Hc, map_app|].
    intros H. rewrite (Hid H), Hc. by rewrite map_app.
  - unfold split_conversation in Hs. rewrite bool_decide_eq_false_2 in Hs by done.
    injection Hs as <- <-. simpl. rewrite app_nil_r. split; [apply Hclean|].
    exists []. rewrite app_nil_r. auto.
Qed.

(** Recovery from a provider overflow replays the last real user turn: the
    history is everything before it, the partial response after it (which
    contains no real user turn) is dropped, and planning fails with
    [MissingReplayUser] exactly when there is no real user turn. *)
Theorem provider_overflow_replay input :
  reason input = ProviderOverflow → is_blank (session_model_alias input) = false →
  (∃ older replayed newer p,
     conversation input = (older ++ replayed :: newer)%list ∧
     is_real_user replayed = true ∧ Forall (λ t, is_real_user t = false) newer ∧
     compaction_plan input = Ok p ∧ history p = sanitize_history older ∧
     replay_user p = Some (sanitize_turn replayed) ∧ auto_continue p = None) ∨
  (Forall (λ t, is_real_user t = false) (conversation input) ∧
   compaction_plan input = Err MissingReplayUser).
Proof.
  intros Hr Ha. unfold compaction_plan. rewrite Ha.
  destruct (split_overflow input Hr) as [(older & r & newer & Hc & Hreal & Hall & ->)|[Hall ->]].
  - left. eexists older, r, newer, _. split_and!; try done. simpl.
    by rewrite bool_decide_eq_false_2 by (by rewrite Hr).
  - by right.
Qed.

Lemma pin_le_total x y : pin_le x y = true ∨ pin_le y x = true.
Proof.
  unfold pin_le. rewrite !orb_true_iff, !andb_true_iff, !Z.ltb_lt, !Z.eqb_eq.
  destruct (Z.lt_total (order x) (order y)) as [|[|]]; auto.
  destruct (string_leb_total (pin_item_id x) (pin_item_id y)); auto.
Qed.
Lemma pin_le_trans x y z : pin_le x y = true → pin_le y z = true → pin_le x z = true.
Proof.
  unfold pin_le. rewrite !orb_true_iff, !andb_true_iff, !Z.ltb_lt, !Z.eqb_eq.
  intros [H1|[H1 H1']] [H2|[H2 H2']]; try (left; lia).
  right. split; [lia|]. by eapply string_leb_trans.
Qed.

(** After the summary come all the pins, once each, ordered by (order,
    item id) with ties in their given order, then the replayed user turn and
    then the synthetic continuation, each only for the reason that asks for
    it. *)
Theorem post_summary_order input p summary :
  compaction_plan input = Ok p →
  post_summary_turns p summary =
    (summary_turn summary :: map pin_turn (ordered_pins p)
       ++ option_list (replay_user p) ++ option_list (auto_continue p))%list ∧
  ordered_pins p ≡ₚ pins input ∧
  StronglySorted (λ x y, pin_le x y = true) (ordered_pins p) ∧
  (∀ k, List.filter (λ x, (order x =? k.1) && String.eqb (pin_item_id x) k.2) (ordered_pins p) =
        List.filter (λ x, (order x =? k.1) && String.eqb (pin_item_id x) k.2) (pins input)) ∧
  (is_Some (replay_user p) ↔ reason input = ProviderOverflow) ∧
  (is_Some (auto_continue p) ↔ reason input = AutomaticOverflow ∧ automatic_continue input = true).
Proof.
  intros (_ & Hs & _ & _ & _ & Hpins & Hauto)%compaction_plan_inv.
  split; [done|]. rewrite Hpins, Hauto. split_and!; [apply stable_sort_perm|..].
  - apply stable_sort_sorted; [apply pin_le_total|apply pin_le_trans].
  - intros [o i]. apply stable_sort_stable. simpl. intros x y.
    rewrite !andb_true_iff, !Z.eqb_eq, !String.eqb_eq. intros [<- <-] [Ho Hi].
    unfold pin_le. rewrite Ho, Hi, Z.eqb_refl. apply orb_true_iff. right. simpl.
    by destruct (string_leb_total (pin_item_id x) (pin_item_id x)).
  - destruct (decide (reason input = ProviderOverflow)) as [Hr|Hr].
    + destruct (split_overflow input Hr) as [(? & ? & ? & _ & _ & _ & Hok)|[_ Hok]];
        rewrite Hok in Hs; [|done]. injection Hs as _ <-. split; [done|by eexists].
    + unfold split_conversation in Hs. rewrite bool_decide_eq_false_2 in Hs by done.
      injection Hs as _ <-. split; [by intros [? ?]|done].
  - destruct (decide (reason input = AutomaticOverflow)) as [Hr|Hr].
    + rewrite bool_decide_eq_true_2 by done. simpl. destruct (automatic_continue input).
      * split; [done|by eexists].
      * split; [by intros [? ?]|by intros [_ ?]].
    + rewrite bool_decide_eq_false_2 by done. simpl. split; [by intros [? ?]|by intros [? _]].
Qed.

Definition sample_turn (r : Role) (text : string) : Turn := mkTurn r [Text text] default_meta.
Definition sample_input (r : CompactionReason) : CompactionInput :=
  mkCompactionInput
    [mkTurn User [Text "question"; Image "image/png" (InlineBase64 "AA==")] default_meta;
     sample_turn Assistant "partial response"]
    [mkPin "later" 2 (sample_turn User "pin 2"); mkPin "earlier" 1 (sample_turn User "pin 1")]
    r None (mkHook [] None) "fast" None true.

Definition sample_plan : CompactionPlan :=
  match compaction_plan (sample_input ProviderOverflow) with
  | Ok p => p
  | Err _ => mkCompactionPlan [] "" "" true Manual [] None None
  end.

Lemma compaction_media_free_witness :
  expose_tools sample_plan = false ∧ turn_has_media (default auto_continue_turn (replay_user sample_plan)) = false.
Proof.
  destruct (compaction_media_free (sample_input ProviderOverflow) sample_plan) as (H1 & H2 & _);
    [reflexivity|]. split; [exact H1|]. apply Forall_app in H2 as [_ H2].
  by apply Forall_cons_1 in H2 as [H2 _].
Defined.

Lemma provider_overflow_replay_witness :
  ∃ p, compaction_plan (sample_input ProviderOverflow) = Ok p ∧ auto_continue p = None.
Proof.
  destruct (provider_overflow_replay (sample_input ProviderOverflow)) as
    [(o & r & n & p & _ & _ & _ & H & _ & _ & Hn)|[_ H]];
    [reflexivity|reflexivity|by exists p|discriminate].
Defined.

Lemma post_summary_order_witness :
  map (λ t, blocks t) (post_summary_turns sample_plan "S") =
  [[Text "S"]; [Text "pin 1"]; [Text "pin 2"];
   [Text "question"; Text "[Image omitted during compaction: image/png]"]].
Proof.
  destruct (post_summary_order (sample_input ProviderOverflow) sample_plan "S") as (-> & _);
    [reflexivity|]. reflexivity.
Defined.
