(* ===== verification/Spend.v ===== *)
(** Integer-only spend-rate alarms and hard budget caps
    ([rw-context/src/spend.rs]). *)
From S2P Require Import Prelude Text.

Definition MILLIS_PER_MINUTE : Z := 60000.
Definition MILLIS_PER_DAY : Z := 86400000.

Inductive SpendAttribution : Type := MainAgent | CompactionRun | Subagent.

Inductive SpendAmount : Type :=
| ApiCost (micros_usd : Z)
| AiCredits (micros : Z)
| Unavailable (why : string).

Record SpendEntry : Type := mkEntry {
  session_id : string;
  occurred_at_unix_ms : Z;
  attribution : SpendAttribution;
  amount : SpendAmount;
}.

Record SpendCaps : Type := mkCaps {
  session_cost_cap_micros_usd : option Z;
  daily_cost_cap_micros_usd : option Z;
  session_ai_credit_cap_micros : option Z;
  daily_ai_credit_cap_micros : option Z;
  spend_rate_alarm_micros_usd_per_minute : option Z;
  ai_credit_rate_alarm_micros_per_minute : option Z;
  warn_at_percent : Z;
}.

Definition default_caps : SpendCaps := mkCaps None None None None None None 80.

Inductive SpendConfigError : Type := InvalidWarningPercent (percent : Z).

(** [SpendCaps::validate] *)
Definition validate_caps (self : SpendCaps) : Result SpendCaps SpendConfigError :=
  if (warn_at_percent self =? 0) || (100 <? warn_at_percent self)
  then Err (InvalidWarningPercent (warn_at_percent self))
  else Ok self.

Inductive SpendUnit : Type := MicrosUsd | AiCreditMicros.

Inductive SpendSignalKind : Type :=
| SessionCapWarning | SessionCapReached | DailyCapWarning | DailyCapReached
| RateAlarm | AccountingUnavailable.
#[global] Instance SpendSignalKind_eq_dec : EqDecision SpendSignalKind.
Proof. solve_decision. Defined.

Record SpendSignal : Type := mkSignal {
  signal_kind : SpendSignalKind;
  signal_unit : option SpendUnit;
  current : option Z;
  limit : option Z;
}.

Record SpendCompleteness : Type := mkCompleteness {
  complete_session : bool;
  complete_daily : bool;
  complete_trailing_minute : bool;
}.

Record SpendStatus : Type := mkStatus {
  session_cost_micros_usd : Z;
  daily_cost_micros_usd : Z;
  session_ai_credit_micros : Z;
  daily_ai_credit_micros : Z;
  cost_rate_micros_usd_per_minute : Z;
  ai_credit_rate_micros_per_minute : Z;
  session_unavailable_entries : Z;
  daily_unavailable_entries : Z;
  trailing_minute_unavailable_entries : Z;
  cost_accounting_complete : SpendCompleteness;
  signals : list SpendSignal;
  hard_stop : bool;
}.

(** [SpendTracker] is its ledger of entries. *)
Record SpendTracker : Type := mkTracker { entries : list SpendEntry }.
Definition record_entry (self : SpendTracker) (entry : SpendEntry) : SpendTracker :=
  mkTracker (entries self ++ [entry]).

(** The nine running totals of [evaluate]. *)
Record Totals : Type := mkTotals {
  t_session_cost : Z; t_daily_cost : Z; t_minute_cost : Z;
  t_session_credits : Z; t_daily_credits : Z; t_minute_credits : Z;
  t_session_unavailable : Z; t_daily_unavailable : Z; t_minute_unavailable : Z;
}.

Definition add_if (scope : bool) (total value : Z) : Z :=
  if scope then sat_add total value else total.

(** One iteration of the ledger loop. *)
Definition accumulate (target_session_id : string) (day_start minute_start : Z)
    (t : Totals) (entry : SpendEntry) : Totals :=
  let is_today := day_start <=? occurred_at_unix_ms entry in
  let is_minute := minute_start <=? occurred_at_unix_ms entry in
  let is_target := String.eqb (session_id entry) target_session_id in
  match amount entry with
  | ApiCost micros_usd =>
      mkTotals (add_if is_target (t_session_cost t) micros_usd)
               (add_if is_today (t_daily_cost t) micros_usd)
               (add_if is_minute (t_minute_cost t) micros_usd)
               (t_session_credits t) (t_daily_credits t) (t_minute_credits t)
               (t_session_unavailable t) (t_daily_unavailable t) (t_minute_unavailable t)
  | AiCredits micros =>
      mkTotals (t_session_cost t) (t_daily_cost t) (t_minute_cost t)
               (add_if is_target (t_session_credits t) micros)
               (add_if is_today (t_daily_credits t) micros)
               (add_if is_minute (t_minute_credits t) micros)
               (t_session_unavailable t) (t_daily_unavailable t) (t_minute_unavailable t)
  | Unavailable _ =>
      mkTotals (t_session_cost t) (t_daily_cost t) (t_minute_cost t)
               (t_session_credits t) (t_daily_credits t) (t_minute_credits t)
               (add_if is_target (t_session_unavailable t) 1)
               (add_if is_today (t_daily_unavailable t) 1)
               (add_if is_minute (t_minute_unavailable t) 1)
  end.

Definition append_cap_signals (sigs : list SpendSignal) (unit : SpendUnit) (current : Z)
    (cap : option Z) (warn_at_percent : Z) (warning reached : SpendSignalKind)
    : list SpendSignal :=
  match cap with
  | None => sigs
  | Some limit =>
      let reached_cap := limit <=? current in
      let warning_threshold :=
        sat_mul128 limit warn_at_percent <=? sat_mul128 current 100 in
      if reached_cap || warning_threshold then
        sigs ++ [mkSignal (if reached_cap then reached else warning) (Some unit)
                          (Some current) (Some limit)]
      else sigs
  end.

Definition append_rate_signal (sigs : list SpendSignal) (unit : SpendUnit) (current : Z)
    (alarm : option Z) : list SpendSignal :=
  match alarm with
  | Some limit =>
      if limit <=? current
      then sigs ++ [mkSignal RateAlarm (Some unit) (Some current) (Some limit)]
      else sigs
  | None => sigs
  end.

Definition is_reached (s : SpendSignal) : bool :=
  match signal_kind s with SessionCapReached | DailyCapReached => true | _ => false end.

Definition ledger_totals (self : SpendTracker) (target_session_id : string) (now_unix_ms : Z)
    : Totals :=
  let day_start := now_unix_ms - (now_unix_ms mod MILLIS_PER_DAY) in
  let minute_start := sat_sub now_unix_ms MILLIS_PER_MINUTE in
  foldl (accumulate target_session_id day_start minute_start) (mkTotals 0 0 0 0 0 0 0 0 0)
    (List.filter (λ entry, occurred_at_unix_ms entry <=? now_unix_ms) (entries self)).

Definition spend_signals (caps : SpendCaps) (t : Totals) : list SpendSignal :=
  let sigs := append_cap_signals [] MicrosUsd (t_session_cost t)
    (session_cost_cap_micros_usd caps) (warn_at_percent caps) SessionCapWarning SessionCapReached in
  let sigs := append_cap_signals sigs MicrosUsd (t_daily_cost t)
    (daily_cost_cap_micros_usd caps) (warn_at_percent caps) DailyCapWarning DailyCapReached in
  let sigs := append_cap_signals sigs AiCreditMicros (t_session_credits t)
    (session_ai_credit_cap_micros caps) (warn_at_percent caps) SessionCapWarning SessionCapReached in
  let sigs := append_cap_signals sigs AiCreditMicros (t_daily_credits t)
    (daily_ai_credit_cap_micros caps) (warn_at_percent caps) DailyCapWarning DailyCapReached in
  let sigs := append_rate_signal sigs MicrosUsd (t_minute_cost t)
    (spend_rate_alarm_micros_usd_per_minute caps) in
  let sigs := append_rate_signal sigs AiCreditMicros (t_minute_credits t)
    (ai_credit_rate_alarm_micros_per_minute caps) in
  if (0 <? t_session_unavailable t) || (0 <? t_daily_unavailable t) || (0 <? t_minute_unavailable t)
  then sigs ++ [mkSignal AccountingUnavailable None
         (Some (Z.max (Z.max (t_session_unavailable t) (t_daily_unavailable t))
                      (t_minute_unavailable t))) None]
  else sigs.

(** [SpendTracker::evaluate] *)
Definition evaluate (self : SpendTracker) (target_session_id : string) (now_unix_ms : Z)
    (caps : SpendCaps) : Result SpendStatus SpendConfigError :=
  let? caps := validate_caps caps in
  let t := ledger_totals self target_session_id now_unix_ms in
  let sigs := spend_signals caps t in
  Ok (mkStatus (t_session_cost t) (t_daily_cost t) (t_session_credits t) (t_daily_credits t)
        (t_minute_cost t) (t_minute_credits t)
        (t_session_unavailable t) (t_daily_unavailable t) (t_minute_unavailable t)
        (mkCompleteness (t_session_unavailable t =? 0) (t_daily_unavailable t =? 0)
                        (t_minute_unavailable t =? 0))
        sigs (existsb is_reached sigs)).

(** * Specification of the totals

    A total is a scope (this session, this UTC day, the trailing minute) and a
    measure (dollars, credits, entries without accounting). *)

Inductive Scope : Type := ScopeSession | ScopeDay | ScopeMinute.
Inductive Measure : Type := MCost | MCredits | MUnavailable.

Definition measured (m : Measure) (a : SpendAmount) : Z :=
  match m, a with
  | MCost, ApiCost x => x
  | MCredits, AiCredits x => x
  | MUnavailable, Unavailable _ => 1
  | _, _ => 0
  end.

Definition in_scope (target : string) (now : Z) (s : Scope) (e : SpendEntry) : bool :=
  (occurred_at_unix_ms e <=? now) &&
  match s with
  | ScopeSession => String.eqb (session_id e) target
  | ScopeDay => occurred_at_unix_ms e / MILLIS_PER_DAY =? now / MILLIS_PER_DAY
  | ScopeMinute => now - MILLIS_PER_MINUTE <=? occurred_at_unix_ms e
  end.

(** The exact amount spent, without any width limit. *)
Definition spent (l : list SpendEntry) (target : string) (now : Z) (s : Scope) (m : Measure) : Z :=
  sum_Z (map (λ e, measured m (amount e)) (List.filter (in_scope target now s) l)).

Definition total_at (t : Totals) (s : Scope) (m : Measure) : Z :=
  match s, m with
  | ScopeSession, MCost => t_session_cost t | ScopeDay, MCost => t_daily_cost t
  | ScopeMinute, MCost => t_minute_cost t
  | ScopeSession, MCredits => t_session_credits t | ScopeDay, MCredits => t_daily_credits t
  | ScopeMinute, MCredits => t_minute_credits t
  | ScopeSession, MUnavailable => t_session_unavailable t
  | ScopeDay, MUnavailable => t_daily_unavailable t
  | ScopeMinute, MUnavailable => t_minute_unavailable t
  end.

Definition entry_u64 (e : SpendEntry) : Prop :=
  u64 (occurred_at_unix_ms e) ∧
  match amount e with ApiCost x | AiCredits x => u64 x | Unavailable _ => True end.
Definition ledger_u64 (l : list SpendEntry) : Prop := Forall entry_u64 l.

Definition loop_scope (target : string) (day minute : Z) (s : Scope) (e : SpendEntry) : bool :=
  match s with
  | ScopeSession => String.eqb (session_id e) target
  | ScopeDay => day <=? occurred_at_unix_ms e
  | ScopeMinute => minute <=? occurred_at_unix_ms e
  end.

Lemma accumulate_total target day minute t e s m :
  entry_u64 e → u64 (total_at t s m) →
  total_at (accumulate target day minute t e) s m =
    sat_add (total_at t s m) (if loop_scope target day minute s e then measured m (amount e) else 0).
Proof.
  intros [_ He] Ht. unfold accumulate.
  destruct (amount e) as [x|x|w]; destruct s, m; simpl in *; unfold add_if;
    repeat case_match; try done; machine_lia.
Qed.

Lemma loop_totals target day minute l t s m a :
  ledger_u64 l → 0 ≤ a → total_at t s m = Z.min a u64_max →
  total_at (foldl (accumulate target day minute) t l) s m =
    Z.min (a + sum_Z (map (λ e, measured m (amount e))
                          (List.filter (loop_scope target day minute s) l))) u64_max.
Proof.
  intros Hl. revert t a. induction Hl as [|e l He Hl IH]; intros t a Ha Ht; simpl.
  { rewrite Z.add_0_r. done. }
  assert (Hm : 0 ≤ measured m (amount e)).
  { destruct He as [_ He]. destruct m, (amount e); simpl in *; unfold u64 in *; lia. }
  rewrite (IH _ (a + if loop_scope target day minute s e then measured m (amount e) else 0)).
  - destruct (loop_scope target day minute s e); simpl; f_equal; lia.
  - case_match; lia.
  - rewrite accumulate_total by (try done; rewrite Ht; machine_lia). rewrite Ht.
    by rewrite sat_add_min by (destruct (loop_scope target day minute s e); lia).
Qed.

Lemma loop_scope_spec target now s e :
  u64 now → u64 (occurred_at_unix_ms e) → occurred_at_unix_ms e ≤ now →
  loop_scope target (now - now mod MILLIS_PER_DAY) (sat_sub now MILLIS_PER_MINUTE) s e =
  in_scope target now s e.
Proof.
  intros Hn [He0 He1] Hle. unfold in_scope. rewrite (proj2 (Z.leb_le _ _) Hle). simpl.
  destruct s; simpl; [done| |].
  - apply eq_true_iff_eq. rewrite Z.leb_le, Z.eqb_eq.
    unfold MILLIS_PER_DAY in *. unfold u64 in Hn. Z.div_mod_to_equations. lia.
  - apply eq_true_iff_eq. rewrite !Z.leb_le. unfold sat_sub, MILLIS_PER_MINUTE in *.
    unfold u64 in Hn. lia.
Qed.

Lemma spent_totals tracker target now s m :
  ledger_u64 (entries tracker) → u64 now →
  total_at (ledger_totals tracker target now) s m =
    Z.min (spent (entries tracker) target now s m) u64_max.
Proof.
  intros Hl Hn. unfold ledger_totals, spent.
  rewrite (loop_totals target _ _ _ (mkTotals 0 0 0 0 0 0 0 0 0) s m 0);
    [|by apply Forall_filter_bool|lia|destruct s, m; reflexivity].
  rewrite Z.add_0_l. do 3 f_equal. induction Hl as [|e l [He _] Hl IH]; simpl; [done|].
  destruct (Z.leb_spec (occurred_at_unix_ms e) now) as [Hle|Hlt].
  - simpl. rewrite (loop_scope_spec target now s e) by done.
    destruct (in_scope target now s e); by rewrite IH.
  - assert (in_scope target now s e = false) as ->; [|done].
    unfold in_scope. apply andb_false_iff. left. by apply Z.leb_gt.
Qed.

(** * What the status reports *)

(** Every total the status reports is the exact amount of its scope and
    unit, cut off at [u64::MAX]: the session total counts the selected session
    only, the day total the entries of the same UTC day across sessions, the
    rate the trailing minute across sessions, and entries from the future
    count nowhere; accounting is reported complete for a scope exactly when no
    entry of the scope lacks a cost. *)
Theorem evaluate_totals_exact tracker target now caps st :
  ledger_u64 (entries tracker) → u64 now →
  evaluate tracker target now caps = Ok st →
  let total s m := Z.min (spent (entries tracker) target now s m) u64_max in
  session_cost_micros_usd st = total ScopeSession MCost ∧
  daily_cost_micros_usd st = total ScopeDay MCost ∧
  cost_rate_micros_usd_per_minute st = total ScopeMinute MCost ∧
  session_ai_credit_micros st = total ScopeSession MCredits ∧
  daily_ai_credit_micros st = total ScopeDay MCredits ∧
  ai_credit_rate_micros_per_minute st = total ScopeMinute MCredits ∧
  (complete_session (cost_accounting_complete st) = true ↔
     spent (entries tracker) target now ScopeSession MUnavailable = 0) ∧
  (complete_daily (cost_accounting_complete st) = true ↔
     spent (entries tracker) target now ScopeDay MUnavailable = 0) ∧
  (complete_trailing_minute (cost_accounting_complete st) = true ↔
     spent (entries tracker) target now ScopeMinute MUnavailable = 0).
Proof.
  intros Hl Hn H total. unfold evaluate in H. destruct (validate_caps caps); [|done].
  injection H as <-. simpl.
  pose proof (λ s m, spent_totals tracker target now s m Hl Hn) as Ht.
  assert (Hz : ∀ s, total_at (ledger_totals tracker target now) s MUnavailable = 0 ↔
                    spent (entries tracker) target now s MUnavailable = 0).
  { intros s. rewrite Ht. assert (0 ≤ spent (entries tracker) target now s MUnavailable).
    { apply sum_Z_nonneg, Forall_fmap, Forall_true. intros x. simpl. by destruct (amount x). }
    unfold u64_max. lia. }
  rewrite !Z.eqb_eq. split_and!.
  - apply (Ht ScopeSession MCost).
  - apply (Ht ScopeDay MCost).
  - apply (Ht ScopeMinute MCost).
  - apply (Ht ScopeSession MCredits).
  - apply (Ht ScopeDay MCredits).
  - apply (Ht ScopeMinute MCredits).
  - apply (Hz ScopeSession).
  - apply (Hz ScopeDay).
  - apply (Hz ScopeMinute).
Qed.

Definition cap_reached (cap : option Z) (amount : Z) : Prop :=
  ∃ limit, cap = Some limit ∧ limit ≤ amount.

Definition caps_u64 (caps : SpendCaps) : Prop :=
  Forall (λ o, ∀ limit, o = Some limit → u64 limit)
    [session_cost_cap_micros_usd caps; daily_cost_cap_micros_usd caps;
     session_ai_credit_cap_micros caps; daily_ai_credit_cap_micros caps;
     spend_rate_alarm_micros_usd_per_minute caps; ai_credit_rate_alarm_micros_per_minute caps] ∧
  0 ≤ warn_at_percent caps ≤ u8_max.

Lemma append_cap_reached sigs unit cur cap pct warning reached :
  is_reached (mkSignal warning None None None) = false →
  is_reached (mkSignal reached None None None) = true →
  existsb is_reached (append_cap_signals sigs unit cur cap pct warning reached) = true ↔
  existsb is_reached sigs = true ∨ cap_reached cap cur.
Proof.
  intros Hw Hr. unfold append_cap_signals, cap_reached, is_reached in *. simpl in *.
  destruct cap as [l|].
  - destruct (Z.leb_spec l cur); simpl.
    + rewrite existsb_app, orb_true_iff. simpl. rewrite Hr. naive_solver.
    + destruct (_ <=? _); simpl; rewrite ?existsb_app, ?orb_true_iff; simpl; rewrite ?Hw;
        split; intros H'; destruct_or?; auto; try done; destruct H' as (? & ? & ?); simplify_eq; lia.
  - split; [auto|]. intros [?|(? & ? & ?)]; done.
Qed.

Lemma append_rate_reached sigs unit cur alarm :
  existsb is_reached (append_rate_signal sigs unit cur alarm) = existsb is_reached sigs.
Proof.
  unfold append_rate_signal. repeat case_match; [|done..].
  rewrite existsb_app. simpl. by rewrite orb_false_r.
Qed.

Lemma spend_signals_reached caps t :
  existsb is_reached (spend_signals caps t) = true ↔
  cap_reached (session_cost_cap_micros_usd caps) (t_session_cost t) ∨
  cap_reached (daily_cost_cap_micros_usd caps) (t_daily_cost t) ∨
  cap_reached (session_ai_credit_cap_micros caps) (t_session_credits t) ∨
  cap_reached (daily_ai_credit_cap_micros caps) (t_daily_credits t).
Proof.
  unfold spend_signals. match goal with |- context [if ?c then _ else _] => destruct c end;
    rewrite ?existsb_app; simpl; rewrite ?orb_false_r, !append_rate_reached,
      !append_cap_reached by done; simpl; naive_solver.
Qed.

Lemma cap_reached_exact cap x :
  (∀ limit, cap = Some limit → u64 limit) →
  cap_reached cap (Z.min x u64_max) ↔ cap_reached cap x.
Proof.
  intros Hc. unfold cap_reached. split; intros (l & -> & Hl); exists l; split; auto;
    specialize (Hc l eq_refl); unfold u64 in Hc; lia.
Qed.

(** The session is stopped for amounts that only grow with the ledger. *)
Definition over_cap (caps : SpendCaps) (l : list SpendEntry) (target : string) (now : Z) : Prop :=
  cap_reached (session_cost_cap_micros_usd caps) (spent l target now ScopeSession MCost) ∨
  cap_reached (daily_cost_cap_micros_usd caps) (spent l target now ScopeDay MCost) ∨
  cap_reached (session_ai_credit_cap_micros caps) (spent l target now ScopeSession MCredits) ∨
  cap_reached (daily_ai_credit_cap_micros caps) (spent l target now ScopeDay MCredits).

Lemma hard_stop_over_cap tracker target now caps st :
  ledger_u64 (entries tracker) → u64 now → caps_u64 caps →
  evaluate tracker target now caps = Ok st →
  hard_stop st = true ↔ over_cap caps (entries tracker) target now.
Proof.
  intros Hl Hn [Hc _] H. unfold evaluate in H. destruct (validate_caps caps) as [caps'|] eqn:Ev; [|done].
  assert (caps' = caps) as -> by (unfold validate_caps in Ev; by case_match; simplify_eq).
  injection H as <-. simpl. rewrite spend_signals_reached. unfold over_cap.
  pose proof (λ s m, spent_totals tracker target now s m Hl Hn) as Ht.
  pose proof (Ht ScopeSession MCost) as H1. pose proof (Ht ScopeDay MCost) as H2.
  pose proof (Ht ScopeSession MCredits) as H3. pose proof (Ht ScopeDay MCredits) as H4.
  simpl in H1, H2, H3, H4. rewrite H1, H2, H3, H4.
  repeat (apply Forall_cons_1 in Hc as [? Hc]). by rewrite !cap_reached_exact.
Qed.

(** A request is hard-stopped exactly when the exact spend of the session
    or of the UTC day has reached a configured dollar or credit cap; a zero
    cap stops at once, warnings and rate alarms never stop, and saturation of
    the 64-bit totals can neither hide nor invent a stop. *)
Theorem hard_stop_exact tracker target now caps st :
  ledger_u64 (entries tracker) → u64 now → caps_u64 caps →
  evaluate tracker target now caps = Ok st →
  hard_stop st = true ↔ over_cap caps (entries tracker) target now.
Proof. apply hard_stop_over_cap. Qed.

Lemma spent_session_mono l1 l2 target now now' m :
  ledger_u64 l1 → ledger_u64 l2 → now ≤ now' →
  spent l1 target now ScopeSession m ≤ spent (l1 ++ l2)%list target now' ScopeSession m.
Proof.
  intros H1 H2 Hn. unfold spent. rewrite List.filter_app, map_app, sum_Z_app.
  assert (Hnn : ∀ e, entry_u64 e → 0 ≤ measured m (amount e)).
  { intros e [_ He]. destruct m, (amount e); simpl in *; unfold u64 in *; lia. }
  assert (0 ≤ sum_Z (map (λ e, measured m (amount e)) (List.filter (in_scope target now' ScopeSession) l2))).
  { apply sum_Z_nonneg, Forall_fmap. apply Forall_filter_bool.
    eapply Forall_impl; [exact H2|]. exact Hnn. }
  cut (sum_Z (map (λ e, measured m (amount e)) (List.filter (in_scope target now ScopeSession) l1)) ≤
       sum_Z (map (λ e, measured m (amount e)) (List.filter (in_scope target now' ScopeSession) l1)));
    [lia|].
  induction H1 as [|e l1 He H1 IH]; simpl; [lia|]. specialize (Hnn e He).
  assert (Hs : in_scope target now ScopeSession e = true → in_scope target now' ScopeSession e = true).
  { unfold in_scope. rewrite !andb_true_iff, !Z.leb_le. intuition lia. }
  destruct (in_scope target now ScopeSession e), (in_scope target now' ScopeSession e);
    simpl; first [lia | by discriminate Hs].
Qed.

(** A session stop is final. Once the session has reached a session cap it
    is stopped at every later time, whatever further charges any session
    records: only a new day lifts a daily stop, nothing lifts a session one. *)
Theorem session_stop_is_final tracker later target now now' caps st :
  ledger_u64 (entries tracker) → ledger_u64 later → u64 now → u64 now' → now ≤ now' →
  caps_u64 caps →
  cap_reached (session_cost_cap_micros_usd caps)
    (spent (entries tracker) target now ScopeSession MCost) ∨
  cap_reached (session_ai_credit_cap_micros caps)
    (spent (entries tracker) target now ScopeSession MCredits) →
  evaluate (foldl record_entry tracker later) target now' caps = Ok st →
  hard_stop st = true.
Proof.
  intros Hl Hlater Hn Hn' Hle Hc Hreach H.
  assert (Heq : entries (foldl record_entry tracker later) = (entries tracker ++ later)%list).
  { clear. revert tracker. induction later as [|e l IH]; intros tracker; simpl.
    - by rewrite app_nil_r.
    - rewrite IH. simpl. by rewrite <- app_assoc. }
  rewrite (hard_stop_over_cap (foldl record_entry tracker later) target now' caps st);
    [|by rewrite Heq; apply Forall_app|done..].
  unfold over_cap. rewrite Heq.
  pose proof (λ m, spent_session_mono (entries tracker) later target now now' m Hl Hlater Hle) as Hm.
  destruct Hreach as [(c & Hcap & Hx)|(c & Hcap & Hx)]; [left|right; right; left];
    exists c; (split; [done|]); eapply Z.le_trans; [exact Hx|apply Hm|exact Hx|apply Hm].
Qed.

(** * Witnesses on a two-session ledger *)

Definition sample_ledger : SpendTracker :=
  mkTracker [mkEntry "a" 86400000 MainAgent (ApiCost 700);
             mkEntry "b" 86400500 Subagent (ApiCost 50);
             mkEntry "a" 86500000 CompactionRun (ApiCost 400);
             mkEntry "a" 99000000 MainAgent (Unavailable "no price")].
Definition sample_caps : SpendCaps := mkCaps (Some 1000) (Some 5000) None None (Some 450) None 80.

Ltac solve_u64_list :=
  repeat constructor; cbv [u64 u64_max u8_max]; simpl; try lia.

Lemma sample_caps_u64 : caps_u64 sample_caps.
Proof.
  split; [|cbv; split; discriminate].
  repeat apply Forall_cons_2; try apply Forall_nil_2; simpl; intros limit Hl; simplify_eq;
    cbv [u64 u64_max]; lia.
Defined.

Lemma evaluate_totals_exact_witness :
  ∃ st, evaluate sample_ledger "a" 86510000 sample_caps = Ok st ∧
        session_cost_micros_usd st = 1100.
Proof.
  eexists. split; [vm_compute; reflexivity|].
  refine (proj1 (evaluate_totals_exact sample_ledger "a" 86510000 sample_caps _ _ _ _));
    [solve_u64_list|solve_u64_list|vm_compute; reflexivity].
Defined.

Lemma hard_stop_exact_witness :
  ∃ st, evaluate sample_ledger "a" 86510000 sample_caps = Ok st ∧ hard_stop st = true ∧
        over_cap sample_caps (entries sample_ledger) "a" 86510000.
Proof.
  eexists. split; [vm_compute; reflexivity|]. split; [reflexivity|].
  refine (proj1 (hard_stop_exact sample_ledger "a" 86510000 sample_caps _ _ _ _ _) _);
    [solve_u64_list| solve_u64_list| | vm_compute; reflexivity | reflexivity].
  exact sample_caps_u64.
Defined.

Lemma session_stop_is_final_witness :
  ∃ st, evaluate (foldl record_entry sample_ledger [mkEntry "b" 5 MainAgent (ApiCost 1)])
          "a" 900000000 sample_caps = Ok st ∧ hard_stop st = true.
Proof.
  eexists. split; [vm_compute; reflexivity|].
  refine (session_stop_is_final sample_ledger [mkEntry "b" 5 MainAgent (ApiCost 1)] "a"
            86510000 900000000 sample_caps _ _ _ _ _ _ _ _ _);
    [solve_u64_list|solve_u64_list|solve_u64_list|solve_u64_list|lia| | |vm_compute; reflexivity].
  - exact sample_caps_u64.
  - left. exists 1000. split; [reflexivity|]. vm_compute. discriminate.
Defined.
