(* ===== verification/Assembly.v ===== *)
(** Stable-prefix context assembly ([rw-context/src/assembly.rs]) and the
    prepared prefix that avoids rebuilding it ([assembly/prepared.rs],
    [assembly/prepared_turn.rs]).

    The Serialize implementations that serde derives for the IR are written
    out as functions to [Value]; they never fail.  [serde_json::to_vec] writes
    with the parameter [to_writer]; the pretty printer and BLAKE3 are the
    parameters [to_string_pretty] and [blake3_hex]. *)
From S2P Require Import Prelude Text Ir Estimate.

Class PrettyJson := to_string_pretty : Value → option string.
Class Blake3 := blake3_hex : string → string.

(** * Data *)

Definition PREFIX_HASH_DOMAIN : string :=
  "rottweiler.context.stable-prefix.v1" ++ String (byte 0) "".

Inductive ContextItemKind : Type :=
| KSystem | KProjectInstructions | KSkillIndex | KConversation | KPin | KQueued.

Definition allowed_in_stable_prefix (self : ContextItemKind) : bool :=
  match self with KSystem | KProjectInstructions | KSkillIndex => true | _ => false end.

Inductive ContextProvenance : Type :=
| BuiltIn
| ProjectFile (path : string)
| FromExtension (extension_id : string)
| FromConversation (sequence : Z)
| UserPin
| ClientQueue.

Record ContextItem : Type := mkItem {
  item_id : string;
  item_kind : ContextItemKind;
  item_label : string;
  item_provenance : ContextProvenance;
  item_turn : Turn;
  item_pinned : bool;
  item_evicted : bool;
  item_summarized : bool;
  item_pruned : bool;
}.

Record AssemblyInput : Type := mkInput {
  stable_prefix : list ContextItem;
  conversation : list ContextItem;
  pins : list ContextItem;
  queued : list ContextItem;
  input_tools : list ToolDefinition;
  cache_support : CacheBreakpointSupport;
  include_prompt_dump : bool;
}.

Definition default_input : AssemblyInput := mkInput [] [] [] [] [] SupportNone false.

Record ContextItemBreakdown : Type := mkBreakdown {
  bd_id : string;
  bd_kind : ContextItemKind;
  bd_label : string;
  bd_provenance : ContextProvenance;
  bd_tokens : Z;
  bd_pinned : bool;
  bd_evicted : bool;
  bd_summarized : bool;
  bd_pruned : bool;
  assembled_turn_index : option nat;
}.

Inductive CacheBreakpointKind : Type := Explicit | ProviderManaged.

Record CacheBreakpoint : Type := mkBreakpoint {
  bp_kind : CacheBreakpointKind;
  after_turn_count : nat;
  prefix_tokens : Z;
  bp_stable_prefix_hash : string;
  after_item_id : option string;
}.

Record TokenTotals : Type := mkTokenTotals {
  tt_stable_prefix : Z;
  tt_tools : Z;
  tt_conversation : Z;
  tt_pins : Z;
  tt_queued : Z;
  tt_total : Z;
}.

Record AssembledContext : Type := mkAssembled {
  turns : list Turn;
  tools : list ToolDefinition;
  items : list ContextItemBreakdown;
  stable_prefix_bytes : string;
  stable_prefix_turn_count : nat;
  stable_prefix_hash : string;
  cache_breakpoints : list CacheBreakpoint;
  token_totals : TokenTotals;
  prompt_dump : option string;
}.

Inductive AssemblyError : Type :=
| DuplicateItemId (id : string)
| InvalidStablePrefixKind (kind : ContextItemKind)
| DuplicateToolName (name : string)
| Serialize.

(** * The derived [Serialize] of the IR *)

Definition opt_json (o : option string) : Value :=
  match o with Some s => JString s | None => JNull end.

Definition role_json (r : Role) : Value :=
  JString (match r with
           | System => "system" | User => "user" | Assistant => "assistant" | Tool => "tool"
           end).

Definition part_json (p : ToolOutputPart) : Value :=
  match p with
  | PartText text => JObject [("type", JString "text"); ("text", JString text)]
  | PartStructured value => JObject [("type", JString "structured"); ("value", value)]
  | PartImage media_type data =>
      JObject [("type", JString "image"); ("media_type", JString media_type);
               ("data", image_ref_json data)]
  end.

Definition output_json (o : ToolOutput) : Value :=
  match o with
  | OutText text => JObject [("type", JString "text"); ("text", JString text)]
  | OutStructured value => JObject [("type", JString "structured"); ("value", value)]
  | OutMixed parts =>
      JObject [("type", JString "mixed"); ("parts", JArray (map part_json parts))]
  end.

Definition block_json (b : Block) : Value :=
  match b with
  | Text text => JObject [("type", JString "text"); ("text", JString text)]
  | Thinking content signature =>
      JObject [("type", JString "thinking"); ("content", JString content);
               ("signature", opt_json signature)]
  | ToolCall id name args =>
      JObject [("type", JString "tool_call"); ("id", JString id); ("name", JString name);
               ("args", args)]
  | ToolResult id output is_error =>
      JObject [("type", JString "tool_result"); ("id", JString id);
               ("output", output_json output); ("is_error", JBool is_error)]
  | Image media_type data =>
      JObject [("type", JString "image"); ("media_type", JString media_type);
               ("data", image_ref_json data)]
  | Citation uri title excerpt =>
      JObject [("type", JString "citation"); ("uri", JString uri); ("title", opt_json title);
               ("excerpt", opt_json excerpt)]
  end.

Definition meta_json (m : TurnMeta) : Value :=
  JObject [("created_at", opt_json (created_at m)); ("model", opt_json (model m));
           ("synthetic", JBool (synthetic m)); ("summary", JBool (summary m))].

Definition turn_json (t : Turn) : Value :=
  JObject [("role", role_json (role t)); ("blocks", JArray (map block_json (blocks t)));
           ("meta", meta_json (meta t))].

(** [ProviderVisibleTurn]: role and blocks only *)
Definition provider_visible_turn_json (t : Turn) : Value :=
  JObject [("role", role_json (role t)); ("blocks", JArray (map block_json (blocks t)))].

Definition tool_json (t : ToolDefinition) : Value :=
  JObject [("name", JString (tool_name t)); ("description", JString (tool_description t));
           ("input_schema", input_schema t)].

(** * Validation *)

(** The loop over a [HashSet] of the identifiers seen so far. *)
Fixpoint check_unique (seen : gset string) (ids : list string) : Result unit AssemblyError :=
  match ids with
  | [] => Ok tt
  | id :: ids' =>
      if bool_decide (id ∈ seen) then Err (DuplicateItemId id)
      else check_unique ({[id]} ∪ seen) ids'
  end.

Definition validate_items (input : AssemblyInput) : Result unit AssemblyError :=
  let? _ := check_unique ∅ (map item_id
              (stable_prefix input ++ conversation input ++ pins input ++ queued input)%list) in
  match List.find (λ item, negb (allowed_in_stable_prefix (item_kind item)))
                  (stable_prefix input) with
  | Some item => Err (InvalidStablePrefixKind (item_kind item))
  | None => Ok tt
  end.

(** Adjacent equal names, first pair first ([windows(2)]). *)
Fixpoint validate_tools (tools : list ToolDefinition) : Result unit AssemblyError :=
  match tools with
  | t1 :: ((t2 :: _) as rest) =>
      if String.eqb (tool_name t1) (tool_name t2) then Err (DuplicateToolName (tool_name t1))
      else validate_tools rest
  | _ => Ok tt
  end.

(** [tools.sort_unstable_by(name)]: the order among equal names, which the
    unstable sort leaves open, never survives [validate_tools]. *)
Definition tool_le (t1 t2 : ToolDefinition) : bool := String.leb (tool_name t1) (tool_name t2).
Definition sort_tools (tools : list ToolDefinition) : list ToolDefinition :=
  stable_sort tool_le tools.

(** * Assembly *)

Section assembler.
Context `{W : JsonWriter} `{P : PrettyJson} `{B : Blake3}.

(** The three mutable accumulators of [append_region]. *)
Record Region : Type := mkRegion {
  r_turns : list Turn;
  r_breakdown : list ContextItemBreakdown;
  r_tokens : Z;
}.

Definition push_item (st : Region) (item : ContextItem) (tokens : Z) : Region :=
  let '(turns', tokens', index) :=
    if item_evicted item then (r_turns st, r_tokens st, None)
    else ((r_turns st ++ [item_turn item])%list, sat_add (r_tokens st) tokens,
          Some (length (r_turns st))) in
  mkRegion turns'
    (r_breakdown st ++
      [mkBreakdown (item_id item) (item_kind item) (item_label item) (item_provenance item)
         tokens (item_pinned item) (item_evicted item) (item_summarized item)
         (item_pruned item) index])%list
    tokens'.

Definition append_region (turns : list Turn) (breakdown : list ContextItemBreakdown)
    (items : list ContextItem) (region_tokens : Z) : Region :=
  foldl (λ st item, push_item st item (estimate_turn (item_turn item)))
    (mkRegion turns breakdown region_tokens) items.

Definition prefix_json (stable_prefix : list ContextItem) (tools : list ToolDefinition) : Value :=
  JObject [("turns", JArray (map (λ item, provider_visible_turn_json (item_turn item))
                                 (List.filter (λ item, negb (item_evicted item)) stable_prefix)));
           ("tools", JArray (map tool_json tools))].

(** [serde_json::to_vec]: the bytes the compact writer writes *)
Definition to_vec (v : Value) : option string :=
  match to_writer v with Some chunks => Some (String.concat "" chunks) | None => None end.

Definition stable_prefix_representation (stable_prefix : list ContextItem)
    (tools : list ToolDefinition) : Result (string * string) AssemblyError :=
  let canonical := canonicalize_json (prefix_json stable_prefix tools) in
  let? encoded := ok_or (to_vec canonical) Serialize in
  Ok (encoded, blake3_hex (PREFIX_HASH_DOMAIN ++ encoded)).

(** The cache boundary emitted for a provider with caching. *)
Definition breakpoints_for (support : CacheBreakpointSupport) (stable_turn_count : nat)
    (prefix_tokens : Z) (hash : string) (input_stable_len : nat)
    (breakdown : list ContextItemBreakdown) : list CacheBreakpoint :=
  match support with
  | SupportNone => []
  | SupportExplicit | SupportAutomatic =>
      [mkBreakpoint (if decide (support = SupportExplicit) then Explicit else ProviderManaged)
         stable_turn_count prefix_tokens hash
         (option_map bd_id (List.find (λ item, negb (bd_evicted item))
                                      (reverse (take input_stable_len breakdown))))]
  end.

Definition dump_json (tools : list ToolDefinition) (turns : list Turn) : Value :=
  JObject [("tools", JArray (map tool_json tools)); ("turns", JArray (map turn_json turns))].

(** [ContextAssembler::assemble] *)
Definition assemble (input : AssemblyInput) : Result AssembledContext AssemblyError :=
  let? _ := validate_items input in
  let input_stable_len := length (stable_prefix input) in
  let tools := sort_tools (input_tools input) in
  let? _ := validate_tools tools in
  let? rep := stable_prefix_representation (stable_prefix input) tools in
  let '(bytes, hash) := rep in
  let tools_total := estimate_tools tools in
  let r1 := append_region [] [] (stable_prefix input) 0 in
  let stable_turn_count := length (r_turns r1) in
  let r2 := append_region (r_turns r1) (r_breakdown r1) (conversation input) 0 in
  let r3 := append_region (r_turns r2) (r_breakdown r2) (pins input) 0 in
  let r4 := append_region (r_turns r3) (r_breakdown r3) (queued input) 0 in
  let stable_total := sat_add (r_tokens r1) tools_total in
  let total := sat_add (sat_add (sat_add stable_total (r_tokens r2)) (r_tokens r3)) (r_tokens r4) in
  let breakpoints := breakpoints_for (cache_support input) stable_turn_count stable_total hash
                       input_stable_len (r_breakdown r4) in
  let? dump :=
    (if include_prompt_dump input then
       let? text := ok_or (to_string_pretty (canonicalize_json (dump_json tools (r_turns r4))))
                          Serialize in
       Ok (Some text)
     else Ok None) in
  Ok (mkAssembled (r_turns r4) tools (r_breakdown r4) bytes stable_turn_count hash breakpoints
        (mkTokenTotals stable_total tools_total (r_tokens r2) (r_tokens r3) (r_tokens r4) total)
        dump).

(** * Prepared turns, items and prefix *)

Record PreparedTurn : Type := mkPreparedTurn {
  pt_turn : Turn;
  pt_tokens : Z;
  pt_blocks : list Z;
}.

(** [PreparedTurn::new] *)
Definition prepared_turn_new (turn : Turn) : PreparedTurn :=
  let block_tokens := map estimate_block (blocks turn) in
  mkPreparedTurn turn (foldl sat_add 4 block_tokens) block_tokens.

Definition block_tokens (self : PreparedTurn) (index : nat) : option Z := pt_blocks self !! index.

Record ContextItemProperties : Type := mkProperties {
  prop_id : string;
  prop_kind : ContextItemKind;
  prop_label : string;
  prop_provenance : ContextProvenance;
  prop_pinned : bool;
  prop_evicted : bool;
  prop_summarized : bool;
  prop_pruned : bool;
}.

Record PreparedContextItem : Type := mkPreparedItem {
  prepared_item : ContextItem;
  prepared_tokens : Z;
}.

(** [PreparedTurn::into_item] *)
Definition into_prepared_item (self : PreparedTurn) (p : ContextItemProperties)
    : PreparedContextItem :=
  mkPreparedItem
    (mkItem (prop_id p) (prop_kind p) (prop_label p) (prop_provenance p) (pt_turn self)
       (prop_pinned p) (prop_evicted p) (prop_summarized p) (prop_pruned p))
    (pt_tokens self).

(** [PreparedContextItem::new] *)
Definition prepared_item_new (item : ContextItem) : PreparedContextItem :=
  mkPreparedItem item (estimate_turn (item_turn item)).

(** [PreparedPrefix::new] *)
Definition prepared_prefix_new (stable_prefix : list ContextItem) (tools : list ToolDefinition)
    (cache_support : CacheBreakpointSupport) : Result AssembledContext AssemblyError :=
  assemble (mkInput stable_prefix [] [] [] tools cache_support false).

Definition append_prepared_region (turns : list Turn) (breakdown : list ContextItemBreakdown)
    (items : list PreparedContextItem) (region_tokens : Z) : Region :=
  foldl (λ st prepared, push_item st (prepared_item prepared) (prepared_tokens prepared))
    (mkRegion turns breakdown region_tokens) items.

(** [PreparedPrefix::assemble] on the prepared [base] *)
Definition prepared_assemble (base : AssembledContext)
    (conversation pins queued : list PreparedContextItem)
    : Result AssembledContext AssemblyError :=
  let? _ := check_unique (list_to_set (map bd_id (items base)))
              (map (λ p, item_id (prepared_item p)) (conversation ++ pins ++ queued)%list) in
  let tt := token_totals base in
  let r2 := append_prepared_region (turns base) (items base) conversation (tt_conversation tt) in
  let r3 := append_prepared_region (r_turns r2) (r_breakdown r2) pins (tt_pins tt) in
  let r4 := append_prepared_region (r_turns r3) (r_breakdown r3) queued (tt_queued tt) in
  let total := sat_add (sat_add (sat_add (tt_stable_prefix tt) (r_tokens r2)) (r_tokens r3))
                       (r_tokens r4) in
  Ok (mkAssembled (r_turns r4) (tools base) (r_breakdown r4) (stable_prefix_bytes base)
        (stable_prefix_turn_count base) (stable_prefix_hash base) (cache_breakpoints base)
        (mkTokenTotals (tt_stable_prefix tt) (tt_tools tt) (r_tokens r2) (r_tokens r3)
           (r_tokens r4) total)
        (prompt_dump base)).
End assembler.

(** * The regions in closed form *)

Definition live (l : list ContextItem) : list ContextItem :=
  List.filter (λ item, negb (item_evicted item)) l.

#[global] Arguments live : simpl never.

Lemma live_app l k : live (l ++ k)%list = (live l ++ live k)%list.
Proof. apply List.filter_app. Qed.

Lemma live_cons i l : live (i :: l) = if item_evicted i then live l else i :: live l.
Proof. unfold live; simpl. by destruct (item_evicted i). Qed.

Section region.
Context `{W : JsonWriter} `{P : PrettyJson} `{B : Blake3}.

Definition item_tokens (item : ContextItem) : Z := estimate_turn (item_turn item).

Definition breakdown_at (index : option nat) (item : ContextItem) : ContextItemBreakdown :=
  mkBreakdown (item_id item) (item_kind item) (item_label item) (item_provenance item)
    (item_tokens item) (item_pinned item) (item_evicted item) (item_summarized item)
    (item_pruned item) index.

(** The breakdown of items whose first live turn gets index [n]. *)
Fixpoint breakdown_from (n : nat) (l : list ContextItem) : list ContextItemBreakdown :=
  match l with
  | [] => []
  | item :: l' =>
      if item_evicted item then breakdown_at None item :: breakdown_from n l'
      else breakdown_at (Some n) item :: breakdown_from (S n) l'
  end.

Lemma append_region_spec ts bd l k :
  append_region ts bd l k =
  mkRegion (ts ++ map item_turn (live l))%list (bd ++ breakdown_from (length ts) l)%list
           (foldl sat_add k (map item_tokens (live l))).
Proof.
  unfold append_region. revert ts bd k.
  induction l as [|i l IH]; intros ts bd k; simpl; [by rewrite !app_nil_r|].
  rewrite live_cons. unfold push_item at 2. simpl.
  destruct (item_evicted i) eqn:E; rewrite IH; simpl; unfold breakdown_at, item_tokens;
    rewrite ?E, <- ?app_assoc, ?length_app; simpl; repeat f_equal; lia.
Qed.

Lemma append_prepared_new ts bd l k :
  append_prepared_region ts bd (map prepared_item_new l) k = append_region ts bd l k.
Proof.
  unfold append_prepared_region, append_region.
  generalize (mkRegion ts bd k). induction l as [|i l IH]; intros st; simpl; [done|]. apply IH.
Qed.

Lemma breakdown_from_app n l k :
  breakdown_from n (l ++ k) = (breakdown_from n l ++ breakdown_from (n + length (live l)) k)%list.
Proof.
  revert n. induction l as [|i l IH]; intros n; simpl; [f_equal; lia|]. rewrite live_cons.
  destruct (item_evicted i); simpl; rewrite IH; do 3 f_equal; simpl; lia.
Qed.
Lemma breakdown_from_length n l : length (breakdown_from n l) = length l.
Proof. revert n. induction l as [|i l IH]; intros n; simpl; [done|]. case_match; simpl; by rewrite IH. Qed.
Lemma breakdown_from_ids n l : map bd_id (breakdown_from n l) = map item_id l.
Proof. revert n. induction l as [|i l IH]; intros n; simpl; [done|]. case_match; simpl; by rewrite IH. Qed.

Lemma region_tokens_sum l :
  foldl sat_add 0 (map item_tokens (live l)) =
  Z.min (sum_Z (map item_tokens (live l))) u64_max.
Proof.
  change 0 with (Z.min 0 u64_max) at 1. rewrite sat_fold_sum; [f_equal; lia|lia|].
  apply Forall_fmap, Forall_true. intros i. apply estimate_turn_u64.
Qed.

(** Item [j] of the breakdown: evicted exactly when it has no index, and
    its index points to its own turn. *)
Lemma breakdown_from_lookup n l j bd :
  breakdown_from n l !! j = Some bd →
  ∃ item, l !! j = Some item ∧
    bd = breakdown_at (if item_evicted item then None
                       else Some (n + length (live (take j l)))%nat) item.
Proof.
  revert n j. induction l as [|i l IH]; intros n [|j]; simpl; intros H; try done.
  - destruct (item_evicted i) eqn:E; simplify_eq/=; eexists; (split; [done|]);
      rewrite E; do 2 f_equal; unfold live; simpl; lia.
  - destruct (item_evicted i) eqn:E; simplify_eq/=; apply IH in H as (it & Hj & ->);
      exists it; (split; [done|]); rewrite live_cons, E; case_match; do 2 f_equal; simpl; lia.
Qed.

Lemma live_turn_lookup l j item :
  l !! j = Some item → item_evicted item = false →
  map item_turn (live l) !! length (live (take j l)) = Some (item_turn item).
Proof.
  revert j. induction l as [|i l IH]; intros [|j]; simpl; intros H E; try done; simplify_eq.
  - rewrite live_cons, E. done.
  - rewrite !live_cons. destruct (item_evicted i); simpl; by apply IH.
Qed.
End region.

(** * What validation accepts *)

Lemma check_unique_ok seen ids :
  check_unique seen ids = Ok tt ↔ NoDup ids ∧ Forall (λ id, id ∉ seen) ids.
Proof.
  revert seen. induction ids as [|i ids IH]; intros seen; simpl.
  { split; [|done]. intros _. split; constructor. }
  case_bool_decide as Hi.
  - split; [done|]. intros [_ H]. by apply Forall_cons_1 in H as [H _].
  - rewrite IH, NoDup_cons, Forall_cons, !Forall_forall. set_solver.
Qed.

Lemma check_unique_app seen l k :
  check_unique seen l = Ok tt →
  check_unique seen (l ++ k) = check_unique (list_to_set l ∪ seen) k.
Proof.
  revert seen. induction l as [|i l IH]; intros seen; simpl.
  { intros _. f_equal. set_solver. }
  case_bool_decide; [done|]. intros Hl. rewrite IH by done. f_equal. set_solver.
Qed.

Lemma check_unique_prefix seen l k :
  check_unique seen (l ++ k) = Ok tt → check_unique seen l = Ok tt.
Proof.
  rewrite !check_unique_ok. intros [Hnd Hf].
  apply NoDup_app in Hnd as (? & _ & _). by apply Forall_app in Hf as [? _].
Qed.

Lemma find_none_Forall {A} (f : A → bool) l :
  List.find f l = None ↔ Forall (λ x, f x = false) l.
Proof.
  induction l as [|x l IH]; simpl; [by split; constructor|].
  rewrite Forall_cons, <- IH. destruct (f x); naive_solver.
Qed.

Lemma tool_le_total t1 t2 : tool_le t1 t2 = true ∨ tool_le t2 t1 = true.
Proof. apply string_leb_total. Qed.
Lemma tool_le_trans t1 t2 t3 : tool_le t1 t2 = true → tool_le t2 t3 = true → tool_le t1 t3 = true.
Proof. apply string_leb_trans. Qed.

Lemma validate_tools_sorted l :
  StronglySorted (λ t1 t2, tool_le t1 t2 = true) l →
  validate_tools l = Ok tt ↔ NoDup (map tool_name l).
Proof.
  induction 1 as [|t l Hl IH Ht]; simpl.
  { split; [constructor|done]. }
  destruct l as [|t2 l]; [split; [intros _; apply NoDup_singleton|done]|].
  destruct (String.eqb_spec (tool_name t) (tool_name t2)) as [E|E].
  - split; [done|]. rewrite NoDup_cons. intros [Hn _]. destruct Hn. simpl. rewrite E. left.
  - rewrite IH, (NoDup_cons (tool_name t)). split; [|tauto]. intros Hnd. split; [|done].
    intros Hin. apply E. apply list_elem_of_fmap in Hin as (t3 & Heq & Hin).
    apply Forall_cons_1 in Ht as [Ht2 _]. apply elem_of_cons in Hin as [->|Hin]; [done|].
    inversion Hl; subst. rewrite Forall_forall in *.
    apply string_leb_antisym; [done|]. rewrite Heq. by apply (H2 _ Hin).
Qed.

Lemma sort_tools_validate l : validate_tools (sort_tools l) = Ok tt ↔ NoDup (map tool_name l).
Proof.
  rewrite validate_tools_sorted by (apply stable_sort_sorted; [apply tool_le_total|apply tool_le_trans]).
  by rewrite (Permutation_map tool_name (stable_sort_perm tool_le l)).
Qed.

Definition all_items (input : AssemblyInput) : list ContextItem :=
  (stable_prefix input ++ conversation input ++ pins input ++ queued input)%list.

Section assembled.
Context `{W : JsonWriter} `{P : PrettyJson} `{B : Blake3}.

(** The exact token sum of the live items of a region. *)
Definition exact_tokens (l : list ContextItem) : Z := sum_Z (map item_tokens (live l)).

Definition dump_for (input : AssemblyInput) : Result (option string) AssemblyError :=
  if include_prompt_dump input then
    let? text := ok_or (to_string_pretty (canonicalize_json
                   (dump_json (sort_tools (input_tools input))
                              (map item_turn (live (all_items input)))))) Serialize in
    Ok (Some text)
  else Ok None.

Definition region_total (l : list ContextItem) : Z := Z.min (exact_tokens l) u64_max.

(** The successful result, region by region. *)
Definition assembled_of (input : AssemblyInput) (bytes hash : string) (dump : option string)
    : AssembledContext :=
  let stable := stable_prefix input in
  let stable_total := sat_add (region_total stable) (estimate_tools (input_tools input)) in
  mkAssembled (map item_turn (live (all_items input))) (sort_tools (input_tools input))
    (breakdown_from 0 (all_items input)) bytes (length (live stable)) hash
    (breakpoints_for (cache_support input) (length (live stable)) stable_total hash
       (length stable) (breakdown_from 0 stable))
    (mkTokenTotals stable_total (estimate_tools (input_tools input))
       (region_total (conversation input)) (region_total (pins input))
       (region_total (queued input))
       (sat_add (sat_add (sat_add stable_total (region_total (conversation input)))
                         (region_total (pins input))) (region_total (queued input))))
    dump.

Lemma breakpoints_for_app support n pt h l bd :
  breakpoints_for support n pt h (length l) (breakdown_from 0 l ++ bd)%list =
  breakpoints_for support n pt h (length l) (breakdown_from 0 l).
Proof.
  unfold breakpoints_for. rewrite <- (breakdown_from_length 0 l).
  by rewrite take_app_length, firstn_all.
Qed.

Lemma assemble_closed input :
  assemble input =
  let? _ := validate_items input in
  let? _ := validate_tools (sort_tools (input_tools input)) in
  let? rep := stable_prefix_representation (stable_prefix input)
                (sort_tools (input_tools input)) in
  let? dump := dump_for input in
  Ok (assembled_of input rep.1 rep.2 dump).
Proof.
  unfold assemble. destruct (validate_items input); [|done].
  destruct (validate_tools _); [|done].
  destruct (stable_prefix_representation _ _) as [[bytes hash]|]; [|done].
  rewrite !append_region_spec. cbn [r_turns r_breakdown r_tokens].
  rewrite !region_tokens_sum, <- !app_assoc, <- !map_app, <- !live_app.
  cbn [app length]. rewrite !length_map.
  assert (Hbd : ∀ l k, (breakdown_from 0 l ++ breakdown_from (length (live l)) k)%list =
                       breakdown_from 0 (l ++ k)%list).
  { intros l k. by rewrite breakdown_from_app. }
  rewrite breakpoints_for_app, !app_assoc, !Hbd, <- !app_assoc.
  assert (estimate_tools (sort_tools (input_tools input)) = estimate_tools (input_tools input))
    as -> by apply estimate_tools_perm, stable_sort_perm.
  reflexivity.
Qed.

Lemma assemble_ok_inv input a :
  assemble input = Ok a →
  validate_items input = Ok tt ∧ validate_tools (sort_tools (input_tools input)) = Ok tt ∧
  ∃ bytes dump,
    to_vec (canonicalize_json (prefix_json (stable_prefix input)
              (sort_tools (input_tools input)))) = Some bytes ∧
    a = assembled_of input bytes (blake3_hex (PREFIX_HASH_DOMAIN ++ bytes)) dump.
Proof.
  rewrite assemble_closed. unfold stable_prefix_representation, ok_or.
  destruct (validate_items input) as [[]|]; [|done].
  destruct (validate_tools _) as [[]|]; [|done].
  destruct (to_vec _) as [bytes|]; [|done].
  destruct (dump_for input) as [dump|]; [|done]. intros [= <-]. split_and!; eauto.
Qed.

(** A successful assembly sends exactly the turns of the non-evicted
    items, in the order stable prefix, conversation, pins, queue; every item
    stays inspectable at its position with its own token estimate, and its
    index is absent when it is evicted and otherwise points to its own turn. *)
Theorem assemble_turns_and_items input a :
  assemble input = Ok a →
  turns a = map item_turn (live (all_items input)) ∧
  map bd_id (items a) = map item_id (all_items input) ∧
  take (stable_prefix_turn_count a) (turns a) = map item_turn (live (stable_prefix input)) ∧
  ∀ j item, all_items input !! j = Some item →
    ∃ bd, items a !! j = Some bd ∧ bd_tokens bd = estimate_turn (item_turn item) ∧
      bd_evicted bd = item_evicted item ∧
      match assembled_turn_index bd with
      | None => item_evicted item = true
      | Some i => item_evicted item = false ∧ turns a !! i = Some (item_turn item)
      end.
Proof.
  intros (_ & _ & bytes & dump & _ & ->)%assemble_ok_inv. simpl. split_and!.
  - done.
  - apply breakdown_from_ids.
  - unfold all_items. rewrite live_app, map_app, take_app_le by (rewrite length_map; lia).
    by rewrite take_ge by (rewrite length_map; lia).
  - intros j item Hj.
    assert (is_Some (breakdown_from 0 (all_items input) !! j)) as [bd Hbd].
    { apply lookup_lt_is_Some. rewrite breakdown_from_length. by apply lookup_lt_Some in Hj. }
    exists bd. split; [done|]. apply breakdown_from_lookup in Hbd as (item' & Hj' & ->).
    simplify_eq/=. split_and!; [done|done|]. destruct (item_evicted item) eqn:E; [done|].
    split; [done|]. by apply live_turn_lookup.
Qed.

(** The token totals are the exact sums of the estimates of the live
    items of each region (the stable region includes the tool definitions),
    each cut off at [u64::MAX], as is the grand total. *)
Theorem assemble_totals_exact input a :
  assemble input = Ok a →
  let tools_sum := sum_Z (map estimate_tool (input_tools input)) in
  token_totals a =
    mkTokenTotals (Z.min (exact_tokens (stable_prefix input) + tools_sum) u64_max)
      (Z.min tools_sum u64_max)
      (Z.min (exact_tokens (conversation input)) u64_max)
      (Z.min (exact_tokens (pins input)) u64_max) (Z.min (exact_tokens (queued input)) u64_max)
      (Z.min (exact_tokens (all_items input) + tools_sum) u64_max).
Proof.
  intros (_ & _ & bytes & dump & _ & ->)%assemble_ok_inv. intros tools_sum. simpl.
  assert (Ht : estimate_tools (input_tools input) = Z.min tools_sum u64_max).
  { unfold estimate_tools. change 0 with (Z.min 0 u64_max) at 1.
    rewrite sat_fold_measure by (try lia; intros; apply estimate_tool_u64). done. }
  assert (Hn : ∀ l, 0 ≤ exact_tokens l).
  { intros l. apply sum_Z_nonneg, Forall_fmap, Forall_true. intros. apply estimate_turn_u64. }
  assert (0 ≤ tools_sum).
  { apply sum_Z_nonneg, Forall_fmap, Forall_true. intros. apply estimate_tool_u64. }
  assert (Ha : exact_tokens (all_items input) = exact_tokens (stable_prefix input) +
     (exact_tokens (conversation input) + (exact_tokens (pins input) + exact_tokens (queued input)))).
  { unfold exact_tokens, all_items. by rewrite !live_app, !map_app, !sum_Z_app. }
  pose proof (Hn (stable_prefix input)). pose proof (Hn (conversation input)).
  pose proof (Hn (pins input)). pose proof (Hn (queued input)).
  unfold region_total. rewrite Ht, Ha. f_equal; machine_lia.
Qed.

(** * Preparing the prefix once *)

Lemma validate_items_prefix input :
  validate_items (mkInput (stable_prefix input) [] [] [] (input_tools input)
                    (cache_support input) false) = Ok tt →
  validate_items input =
  check_unique (list_to_set (map item_id (stable_prefix input)))
    (map item_id (conversation input ++ pins input ++ queued input)%list).
Proof.
  unfold validate_items. simpl. rewrite app_nil_r.
  destruct (check_unique ∅ (map item_id (stable_prefix input))) as [[]|] eqn:E; [|done].
  intros Hf. rewrite (map_app item_id (stable_prefix input)), check_unique_app by done.
  rewrite (right_id_L ∅ (∪)). destruct (check_unique (list_to_set _) _) as [[]|]; [|done].
  exact Hf.
Qed.

Lemma validate_items_prefix_fails input e :
  validate_items (mkInput (stable_prefix input) [] [] [] (input_tools input)
                    (cache_support input) false) = Err e →
  is_ok (validate_items input) = false.
Proof.
  unfold validate_items. simpl. rewrite app_nil_r.
  destruct (check_unique ∅ (map item_id (all_items input))) as [[]|] eqn:E;
    unfold all_items in E; rewrite E; [|done].
  rewrite map_app in E. rewrite (check_unique_prefix _ _ _ E).
  by destruct (List.find _ _).
Qed.

Lemma prepared_assemble_base stable conv ps qs tls support bytes hash :
  let input := mkInput stable conv ps qs tls support false in
  let base := assembled_of (mkInput stable [] [] [] tls support false) bytes hash None in
  prepared_assemble base (map prepared_item_new conv) (map prepared_item_new ps)
    (map prepared_item_new qs) =
  let? _ := check_unique (list_to_set (map item_id stable)) (map item_id (conv ++ ps ++ qs)%list) in
  Ok (assembled_of input bytes hash None).
Proof.
  intros input base. unfold prepared_assemble, base. cbn -[check_unique breakdown_from].
  unfold all_items; cbn [stable_prefix conversation pins queued]. rewrite !app_nil_r.
  rewrite breakdown_from_ids, <- !map_app, map_map. cbn [prepared_item_new prepared_item].
  destruct (check_unique _ _); [|done]. do 2 f_equal.
  rewrite !append_prepared_new, !append_region_spec. cbn [r_turns r_breakdown r_tokens].
  rewrite !region_tokens_sum, <- !app_assoc, <- !map_app, <- !live_app, !length_map.
  assert (Hbd : ∀ l k, (breakdown_from 0 l ++ breakdown_from (length (live l)) k)%list =
                       breakdown_from 0 (l ++ k)%list).
  { intros l k. by rewrite breakdown_from_app. }
  rewrite !app_assoc, !Hbd, <- !app_assoc. reflexivity.
Qed.

(** Preparing the prefix once and appending the request regions later is
    full assembly: when the prefix prepares, every request gives the same
    result, errors included, as assembling everything at once; when it does
    not, no request with that prefix would assemble. *)
Theorem prepared_assemble_exact stable conv ps qs tls support :
  let full := assemble (mkInput stable conv ps qs tls support false) in
  match prepared_prefix_new stable tls support with
  | Ok base => prepared_assemble base (map prepared_item_new conv) (map prepared_item_new ps)
                 (map prepared_item_new qs) = full
  | Err _ => is_ok full = false
  end.
Proof.
  intros full. unfold full, prepared_prefix_new. rewrite !assemble_closed.
  set (input := mkInput stable conv ps qs tls support false).
  set (bare := mkInput stable [] [] [] tls support false).
  cbn [stable_prefix input_tools bare input].
  destruct (validate_items bare) as [[]|] eqn:Ev.
  - rewrite (validate_items_prefix input) by done. cbn [stable_prefix conversation pins queued input].
    destruct (validate_tools _); [|by destruct (check_unique _ _)].
    destruct (stable_prefix_representation _ _) as [[bytes hash]|];
      [|by destruct (check_unique _ _)].
    pose proof (prepared_assemble_base stable conv ps qs tls support bytes hash) as Hb.
    cbv zeta in Hb. unfold dump_for, bare, input. cbn [include_prompt_dump fst snd]. rewrite Hb.
    by destruct (check_unique _ _).
  - pose proof (validate_items_prefix_fails input _ Ev). by destruct (validate_items input).
Qed.

(** Tokens computed with the turn are the tokens of the turn. *)
Lemma prepared_turn_item t p :
  into_prepared_item (prepared_turn_new t) p =
  prepared_item_new (prepared_item (into_prepared_item (prepared_turn_new t) p)).
Proof.
  unfold into_prepared_item, prepared_turn_new, prepared_item_new, estimate_turn; simpl.
  f_equal. generalize 4. induction (blocks t) as [|b l IH]; intros z; simpl; [done|]. apply IH.
Qed.

Lemma validate_items_ok input :
  validate_items input = Ok tt ↔
  NoDup (map item_id (all_items input)) ∧
  Forall (λ i, allowed_in_stable_prefix (item_kind i) = true) (stable_prefix input).
Proof.
  unfold validate_items. fold (all_items input).
  destruct (check_unique ∅ _) as [[]|] eqn:E.
  - apply check_unique_ok in E as [Hnd _].
    destruct (List.find _ _) as [i|] eqn:F.
    + split; [done|]. intros [_ H]. apply find_some in F as [Hi%list_elem_of_In F].
      rewrite Forall_forall in H. by rewrite (H _ Hi) in F.
    + split; [|done]. intros _. split; [done|]. apply find_none_Forall in F.
      eapply Forall_impl; [exact F|]. intros x. simpl. by destruct (allowed_in_stable_prefix _).
  - split; [done|]. intros [Hnd _]. assert (check_unique ∅ (map item_id (all_items input)) = Ok tt).
    { apply check_unique_ok. split; [done|]. apply Forall_true. set_solver. }
    congruence.
Qed.
End assembled.

(** * What the stable bytes determine

    The derived [PartialEq] of the IR, with serde_json's [==] on values. *)

Definition opt_eqb (o1 o2 : option string) : bool :=
  match o1, o2 with
  | Some s1, Some s2 => String.eqb s1 s2
  | None, None => true
  | _, _ => false
  end.
Fixpoint list_eqb {A} (eqb : A → A → bool) (l k : list A) : bool :=
  match l, k with
  | [], [] => true
  | x :: l', y :: k' => eqb x y && list_eqb eqb l' k'
  | _, _ => false
  end.

Definition role_eqb (r1 r2 : Role) : bool := bool_decide (r1 = r2).
Definition image_eqb (i1 i2 : ImageRef) : bool :=
  match i1, i2 with
  | InlineBase64 d1, InlineBase64 d2 => String.eqb d1 d2
  | Url u1, Url u2 => String.eqb u1 u2
  | _, _ => false
  end.
Definition part_eqb (p1 p2 : ToolOutputPart) : bool :=
  match p1, p2 with
  | PartText t1, PartText t2 => String.eqb t1 t2
  | PartStructured v1, PartStructured v2 => json_eqb v1 v2
  | PartImage m1 d1, PartImage m2 d2 => String.eqb m1 m2 && image_eqb d1 d2
  | _, _ => false
  end.
Definition output_eqb (o1 o2 : ToolOutput) : bool :=
  match o1, o2 with
  | OutText t1, OutText t2 => String.eqb t1 t2
  | OutStructured v1, OutStructured v2 => json_eqb v1 v2
  | OutMixed l1, OutMixed l2 => list_eqb part_eqb l1 l2
  | _, _ => false
  end.
Definition block_eqb (b1 b2 : Block) : bool :=
  match b1, b2 with
  | Text t1, Text t2 => String.eqb t1 t2
  | Thinking c1 s1, Thinking c2 s2 => String.eqb c1 c2 && opt_eqb s1 s2
  | ToolCall i1 n1 a1, ToolCall i2 n2 a2 => String.eqb i1 i2 && String.eqb n1 n2 && json_eqb a1 a2
  | ToolResult i1 o1 e1, ToolResult i2 o2 e2 =>
      String.eqb i1 i2 && output_eqb o1 o2 && Bool.eqb e1 e2
  | Image m1 d1, Image m2 d2 => String.eqb m1 m2 && image_eqb d1 d2
  | Citation u1 t1 x1, Citation u2 t2 x2 => String.eqb u1 u2 && opt_eqb t1 t2 && opt_eqb x1 x2
  | _, _ => false
  end.
(** Equality of what the provider sees of a turn, the metadata left out. *)
Definition visible_turn_eqb (t1 t2 : Turn) : bool :=
  role_eqb (role t1) (role t2) && list_eqb block_eqb (blocks t1) (blocks t2).
Definition tool_eqb (t1 t2 : ToolDefinition) : bool :=
  String.eqb (tool_name t1) (tool_name t2) &&
  String.eqb (tool_description t1) (tool_description t2) &&
  json_eqb (input_schema t1) (input_schema t2).

Definition block_wf (b : Block) : Prop := json_wf (block_json b).
Definition turn_wf (t : Turn) : Prop := Forall block_wf (blocks t).
Definition tool_wf (t : ToolDefinition) : Prop := json_wf (input_schema t).

Lemma json_eqb_map {A} (f : A → Value) (eqb : A → A → bool) l k :
  (∀ x y, json_eqb (f x) (f y) = eqb x y) →
  json_eqb (JArray (map f l)) (JArray (map f k)) = list_eqb eqb l k.
Proof.
  intros Hf. simpl. revert k. induction l as [|x l IH]; intros [|y k]; simpl; try done.
  by rewrite Hf, IH.
Qed.
Lemma opt_json_eqb o1 o2 : json_eqb (opt_json o1) (opt_json o2) = opt_eqb o1 o2.
Proof. by destruct o1, o2. Qed.
Lemma role_json_eqb r1 r2 : json_eqb (role_json r1) (role_json r2) = role_eqb r1 r2.
Proof. by destruct r1, r2. Qed.
Lemma image_json_eqb i1 i2 : json_eqb (image_ref_json i1) (image_ref_json i2) = image_eqb i1 i2.
Proof. destruct i1, i2; cbn; by rewrite ?andb_true_r. Qed.
Lemma part_json_eqb p1 p2 : json_eqb (part_json p1) (part_json p2) = part_eqb p1 p2.
Proof.
  destruct p1, p2; cbn; try done; rewrite ?andb_true_r; try done.
  by rewrite <- image_json_eqb.
Qed.
Lemma output_json_eqb o1 o2 : json_eqb (output_json o1) (output_json o2) = output_eqb o1 o2.
Proof.
  destruct o1, o2; cbn; try done; rewrite ?andb_true_r; try done.
  apply (json_eqb_map part_json part_eqb), part_json_eqb.
Qed.
Lemma block_json_eqb b1 b2 : json_eqb (block_json b1) (block_json b2) = block_eqb b1 b2.
Proof.
  destruct b1, b2; try done; cbn -[opt_json output_json image_ref_json json_eqb String.eqb]; cbn;
    rewrite ?andb_true_r, ?opt_json_eqb, ?output_json_eqb, ?image_json_eqb, ?andb_assoc; done.
Qed.

Lemma visible_turn_json_eqb t1 t2 :
  json_eqb (provider_visible_turn_json t1) (provider_visible_turn_json t2) =
  visible_turn_eqb t1 t2.
Proof.
  unfold visible_turn_eqb.
  rewrite <- (json_eqb_map block_json block_eqb (blocks t1)) by apply block_json_eqb.
  rewrite <- role_json_eqb. cbn. by rewrite andb_true_r.
Qed.
Lemma tool_json_eqb t1 t2 : json_eqb (tool_json t1) (tool_json t2) = tool_eqb t1 t2.
Proof. unfold tool_eqb. cbn. by rewrite andb_true_r, andb_assoc. Qed.

Definition visible_turns (l : list ContextItem) : list Turn := map item_turn (live l).

Lemma prefix_json_turns l tls :
  prefix_json l tls =
  JObject [("turns", JArray (map provider_visible_turn_json (visible_turns l)));
           ("tools", JArray (map tool_json tls))].
Proof. unfold prefix_json, visible_turns. by rewrite map_map. Qed.

Lemma prefix_json_eqb l1 tls1 l2 tls2 :
  json_eqb (prefix_json l1 tls1) (prefix_json l2 tls2) =
  list_eqb visible_turn_eqb (visible_turns l1) (visible_turns l2) && list_eqb tool_eqb tls1 tls2.
Proof.
  rewrite !prefix_json_turns.
  rewrite <- (json_eqb_map _ _ (visible_turns l1) _ visible_turn_json_eqb).
  rewrite <- (json_eqb_map _ _ tls1 _ tool_json_eqb). cbn. by rewrite andb_true_r.
Qed.

Lemma json_wf_keys m :
  bool_decide (NoDup m.*1) = true → Forall (λ e, json_wf e.2) m → json_wf (JObject m).
Proof. intros ?%bool_decide_eq_true_1 ?. by apply json_wf_object. Qed.

Lemma prefix_json_wf l tls :
  Forall turn_wf (visible_turns l) → Forall tool_wf tls → json_wf (prefix_json l tls).
Proof.
  intros Hl Ht. rewrite prefix_json_turns. apply json_wf_keys; [done|].
  repeat constructor; cbn [snd].
  - apply json_wf_array, Forall_fmap. eapply Forall_impl; [exact Hl|]. intros t Hb.
    apply json_wf_keys; [done|]. constructor; [done|]. constructor; [|done]. cbn [snd].
    by apply json_wf_array, Forall_fmap.
  - apply json_wf_array, Forall_fmap. eapply Forall_impl; [exact Ht|]. intros t Hb.
    apply json_wf_keys; [done|]. by repeat (constructor; [done|]).
Qed.

(** Distinct values have distinct compact texts. *)
Class InjectiveJson (W : JsonWriter) : Prop := {
  injective_total v : is_Some (to_vec v);
  injective_text v w : to_vec v = to_vec w → v = w;
}.

Definition input_wf (input : AssemblyInput) : Prop :=
  Forall turn_wf (visible_turns (stable_prefix input)) ∧ Forall tool_wf (input_tools input).

Section prefix.
Context {W : JsonWriter} {P : PrettyJson} {B : Blake3}.

(** Assembly succeeds exactly on inputs whose item ids are distinct
    across all regions, whose stable prefix holds only system, project and
    skill items, and whose tool names are distinct. *)
Theorem assemble_accepts_exactly (HW : ∀ v, is_Some (to_writer v))
    (HP : ∀ v, is_Some (to_string_pretty v)) input :
  is_ok (assemble input) = true ↔
  NoDup (map item_id (all_items input)) ∧
  Forall (λ i, allowed_in_stable_prefix (item_kind i) = true) (stable_prefix input) ∧
  NoDup (map tool_name (input_tools input)).
Proof.
  rewrite assemble_closed, (and_assoc (NoDup _)), <- validate_items_ok, <- sort_tools_validate.
  destruct (validate_items input) as [[]|]; [|naive_solver].
  destruct (validate_tools _) as [[]|]; [|naive_solver].
  unfold stable_prefix_representation, to_vec, ok_or.
  destruct (HW (canonicalize_json (prefix_json (stable_prefix input)
    (sort_tools (input_tools input))))) as [chunks ->].
  unfold dump_for, ok_or. destruct (include_prompt_dump input); [|done].
  match goal with |- context [to_string_pretty ?v] => destruct (HP v) as [text ->] end. done.
Qed.

(** The stable bytes of an input depend only on what the provider sees of
    its live stable items and on the set of tools. *)
Lemma prefix_bytes_of input a :
  assemble input = Ok a →
  to_vec (canonicalize_json (prefix_json (stable_prefix input)
            (sort_tools (input_tools input)))) = Some (stable_prefix_bytes a) ∧
  stable_prefix_hash a = blake3_hex (PREFIX_HASH_DOMAIN ++ stable_prefix_bytes a).
Proof. by intros (_ & _ & bytes & dump & Hb & ->)%assemble_ok_inv. Qed.

Lemma sort_tools_perm l k :
  NoDup (map tool_name l) → l ≡ₚ k → sort_tools l = sort_tools k.
Proof.
  intros Hnd Hp. apply stable_sort_unique; [apply tool_le_total|apply tool_le_trans| |done].
  intros x y Hx Hy Hxy Hyx. pose proof (string_leb_antisym _ _ Hxy Hyx) as Hname.
  apply list_elem_of_lookup in Hx as [i Hi], Hy as [j Hj].
  assert (i = j) as ->; [|congruence].
  eapply NoDup_lookup; [exact Hnd| |]; rewrite list_lookup_fmap_Some; eauto.
Qed.

(** Inputs that agree on the visible prefix and the tools agree on the bytes
    and on the tokens of the stable region. *)
Lemma stable_prefix_agree i1 i2 a1 a2 :
  assemble i1 = Ok a1 → assemble i2 = Ok a2 →
  visible_turns (stable_prefix i1) = visible_turns (stable_prefix i2) →
  input_tools i1 ≡ₚ input_tools i2 →
  stable_prefix_bytes a1 = stable_prefix_bytes a2 ∧
  tt_stable_prefix (token_totals a1) = tt_stable_prefix (token_totals a2) ∧
  stable_prefix_turn_count a1 = stable_prefix_turn_count a2 ∧ tools a1 = tools a2.
Proof.
  intros (_ & Ht1%sort_tools_validate & b1 & d1 & Hb1 & ->)%assemble_ok_inv.
  intros (_ & _ & b2 & d2 & Hb2 & ->)%assemble_ok_inv. intros Hv Hp.
  assert (Hs : sort_tools (input_tools i1) = sort_tools (input_tools i2)) by by apply sort_tools_perm.
  rewrite prefix_json_turns, Hs, Hv, <- prefix_json_turns, Hb2 in Hb1. simplify_eq/=.
  assert (Hlen : ∀ i, length (live (stable_prefix i)) = length (visible_turns (stable_prefix i)))
    by (intros i; unfold visible_turns; by rewrite length_map).
  assert (Hsum : ∀ i, region_total (stable_prefix i) =
            Z.min (sum_Z (map estimate_turn (visible_turns (stable_prefix i)))) u64_max).
  { intros i. unfold region_total, exact_tokens, visible_turns. by rewrite map_map. }
  by rewrite !Hlen, !Hsum, Hv, (estimate_tools_perm _ _ Hp), Hs.
Qed.

(** The breakpoints of a successful assembly describe its own prefix. *)
Lemma assembled_breakpoints i a :
  assemble i = Ok a →
  cache_breakpoints a =
  breakpoints_for (cache_support i) (stable_prefix_turn_count a)
    (tt_stable_prefix (token_totals a)) (stable_prefix_hash a) (length (stable_prefix i))
    (breakdown_from 0 (stable_prefix i)) ∧
  stable_prefix_hash a = blake3_hex (PREFIX_HASH_DOMAIN ++ stable_prefix_bytes a) ∧
  take (stable_prefix_turn_count a) (turns a) = visible_turns (stable_prefix i).
Proof.
  intros (_ & _ & bytes & dump & _ & ->)%assemble_ok_inv. split_and!; [done..|]. simpl.
  unfold all_items, visible_turns.
  rewrite live_app, map_app, <- (length_map item_turn), take_app_length. done.
Qed.

(** The cache prefix survives everything a running session changes. Two
    assemblies whose live stable items carry the same turns and whose tools
    are the same set, in any registration order, have the same prefix bytes,
    hash, turn count and breakpoints (kind, position, tokens and hash),
    whatever their conversation, pins, queue, labels and provenance are. *)
Theorem stable_prefix_isolated i1 i2 a1 a2 :
  assemble i1 = Ok a1 → assemble i2 = Ok a2 →
  visible_turns (stable_prefix i1) = visible_turns (stable_prefix i2) →
  input_tools i1 ≡ₚ input_tools i2 → cache_support i1 = cache_support i2 →
  stable_prefix_bytes a1 = stable_prefix_bytes a2 ∧
  stable_prefix_hash a1 = stable_prefix_hash a2 ∧
  take (stable_prefix_turn_count a1) (turns a1) = take (stable_prefix_turn_count a2) (turns a2) ∧
  tools a1 = tools a2 ∧
  map (λ b, (bp_kind b, after_turn_count b, prefix_tokens b, bp_stable_prefix_hash b))
      (cache_breakpoints a1) =
  map (λ b, (bp_kind b, after_turn_count b, prefix_tokens b, bp_stable_prefix_hash b))
      (cache_breakpoints a2).
Proof.
  intros H1 H2 Hv Hp Hc.
  destruct (stable_prefix_agree _ _ _ _ H1 H2 Hv Hp) as (Hb & Htok & Hn & Htls).
  apply assembled_breakpoints in H1 as (Hbp1 & Hh1 & Ht1), H2 as (Hbp2 & Hh2 & Ht2).
  assert (Hh : stable_prefix_hash a1 = stable_prefix_hash a2) by by rewrite Hh1, Hh2, Hb.
  split_and!; [done|done|by rewrite Ht1, Ht2|done|].
  rewrite Hbp1, Hbp2, Hc, Hn, Htok, Hh. by destruct (cache_support i2).
Qed.

(** The stable bytes identify the prefix: two successful assemblies have
    the same bytes exactly when the live stable turns agree in role and
    blocks and the sorted tool definitions agree (JSON arguments up to key
    order). So a changed role, block or schema always changes the bytes the
    prefix hash is computed from, and turn metadata never does. *)
Theorem stable_prefix_bytes_exact (HW : InjectiveJson W) i1 i2 a1 a2 :
  input_wf i1 → input_wf i2 → assemble i1 = Ok a1 → assemble i2 = Ok a2 →
  stable_prefix_bytes a1 = stable_prefix_bytes a2 ↔
  list_eqb visible_turn_eqb (visible_turns (stable_prefix i1))
                            (visible_turns (stable_prefix i2)) = true ∧
  list_eqb tool_eqb (sort_tools (input_tools i1)) (sort_tools (input_tools i2)) = true.
Proof.
  intros [Hw1 Ht1] [Hw2 Ht2] [H1 _]%prefix_bytes_of [H2 _]%prefix_bytes_of.
  rewrite <- andb_true_iff, <- prefix_json_eqb.
  assert (Hwf : ∀ i, Forall turn_wf (visible_turns (stable_prefix i)) →
      Forall tool_wf (input_tools i) →
      json_wf (prefix_json (stable_prefix i) (sort_tools (input_tools i)))).
  { intros i ? ?. apply prefix_json_wf; [done|]. unfold sort_tools. by rewrite stable_sort_perm. }
  split.
  - intros Heq. rewrite Heq, <- H2 in H1. apply injective_text in H1.
    apply canonicalize_json_eqb_inv; auto.
  - intros Heq%canonicalize_json_eqb; auto. rewrite Heq in H1. congruence.
Qed.
End prefix.

(** * A writer with distinct texts, and a sample request

    Values are numbered by an injection into the positive integers and
    written in decimal. *)

Module InjectiveSample.
Definition leaf : Type := option (bool + JsonNumber + string).

#[local] Instance JsonNumber_countable : Countable JsonNumber.
Proof.
  refine (inj_countable' (λ n, match n with
      PosInt z => (0%nat, z) | NegInt z => (1%nat, z) | FloatBits z => (2%nat, z) end)
    (λ p, match p with (0%nat, z) => PosInt z | (1%nat, z) => NegInt z | (_, z) => FloatBits z end)
    _).
  by intros [].
Defined.

Fixpoint tree (v : Value) : gen_tree leaf :=
  match v with
  | JNull => GenLeaf None
  | JBool b => GenLeaf (Some (inl (inl b)))
  | JNumber n => GenLeaf (Some (inl (inr n)))
  | JString s => GenLeaf (Some (inr s))
  | JArray l =>
      GenNode 0 ((fix go l := match l with [] => [] | x :: l' => tree x :: go l' end) l)
  | JObject m =>
      GenNode 1 ((fix go (m : list (string * Value)) :=
                    match m with
                    | [] => []
                    | (k, x) :: m' => GenNode 2 [GenLeaf (Some (inr k)); tree x] :: go m'
                    end) m)
  end.

Lemma tree_inj v w : tree v = tree w → v = w.
Proof.
  revert w. induction v as [|b|n|s|l IH|m IH] using Value_ind'; intros [|b'|n'|s'|l'|m'];
    intros H; simpl in H; try discriminate; try congruence.
  - f_equal. injection H as H. revert l' H.
    induction IH as [|x l Hx IH IHl]; intros [|y l'] H; try done.
    injection H as Hxy H. f_equal; auto.
  - f_equal. injection H as H. revert m' H.
    induction IH as [|[k x] m Hx IH IHm]; intros [|[k' y] m'] H; try done.
    injection H as Hk Hxy H. simpl in Hx. f_equal; auto. f_equal; auto.
Qed.

Definition writer : JsonWriter := λ v, Some [pretty.pretty (Npos (encode (tree v)))].

#[global] Instance writer_injective : InjectiveJson writer.
Proof.
  split.
  - intros v. by eexists.
  - intros v w H. unfold to_vec, to_writer, writer in H. injection H as H.
    change (pretty.pretty (Npos (encode (tree v))) = pretty.pretty (Npos (encode (tree w)))) in H.
    apply (inj pretty.pretty) in H. injection H as H. apply (inj encode) in H. by apply tree_inj.
Qed.

Definition pretty : PrettyJson := λ v, Some (SampleJson.text_of v).
Definition hash : Blake3 := λ s, s.
End InjectiveSample.

Definition sample_item (id : string) (kind : ContextItemKind) (text : string) (evicted : bool)
    : ContextItem :=
  mkItem id kind id BuiltIn (mkTurn System [Text text] default_meta) false evicted false false.
Definition sample_tools : list ToolDefinition :=
  [mkTool "write" "write a file" (JObject [("type", JString "object")]);
   mkTool "read" "read a file" (JObject [])].
Definition sample_input (conv : list ContextItem) : AssemblyInput :=
  mkInput [sample_item "sys" KSystem "be useful" false; sample_item "old" KSkillIndex "x" true]
    conv [sample_item "pin" KPin "remember" false] [] sample_tools SupportExplicit false.

Definition sample_assemble := @assemble SampleJson.writer InjectiveSample.pretty InjectiveSample.hash.

Lemma assemble_turns_and_items_witness :
  ∃ a, sample_assemble (sample_input [sample_item "c" KConversation "hi" false]) = Ok a ∧
       length (turns a) = 3%nat.
Proof.
  eexists. split; [vm_compute; reflexivity|].
  rewrite (proj1 (@assemble_turns_and_items SampleJson.writer InjectiveSample.pretty
    InjectiveSample.hash (sample_input [sample_item "c" KConversation "hi" false]) _
    ltac:(vm_compute; reflexivity))).
  reflexivity.
Defined.

Lemma assemble_totals_exact_witness :
  ∃ a, sample_assemble (sample_input []) = Ok a ∧ tt_pins (token_totals a) = 9.
Proof.
  eexists. split; [vm_compute; reflexivity|].
  rewrite (@assemble_totals_exact SampleJson.writer InjectiveSample.pretty
    InjectiveSample.hash (sample_input []) _ ltac:(vm_compute; reflexivity)).
  reflexivity.
Defined.

Lemma assemble_accepts_exactly_witness :
  is_ok (sample_assemble (sample_input [sample_item "sys" KConversation "dup" false])) = false ∧
  is_ok (sample_assemble (sample_input [])) = true.
Proof.
  split; [reflexivity|].
  apply (@assemble_accepts_exactly SampleJson.writer InjectiveSample.pretty InjectiveSample.hash);
    [by eexists|by eexists|].
  split_and!; [refine (bool_decide_eq_true_1 _ _); vm_compute; reflexivity|repeat constructor|
               refine (bool_decide_eq_true_1 _ _); vm_compute; reflexivity].
Defined.

Lemma stable_prefix_isolated_witness :
  ∃ a1 a2, sample_assemble (sample_input []) = Ok a1 ∧
    sample_assemble (sample_input [sample_item "c" KConversation "hi" false]) = Ok a2 ∧
    stable_prefix_hash a1 = stable_prefix_hash a2.
Proof.
  eexists _, _. split; [vm_compute; reflexivity|]. split; [vm_compute; reflexivity|].
  apply (@stable_prefix_isolated SampleJson.writer InjectiveSample.pretty InjectiveSample.hash
    (sample_input []) (sample_input [sample_item "c" KConversation "hi" false]) _ _
    ltac:(vm_compute; reflexivity) ltac:(vm_compute; reflexivity)); reflexivity.
Defined.

Lemma stable_prefix_bytes_exact_witness :
  ∃ a, @assemble InjectiveSample.writer InjectiveSample.pretty InjectiveSample.hash
         (sample_input []) = Ok a ∧
    list_eqb tool_eqb (sort_tools sample_tools) (sort_tools sample_tools) = true.
Proof.
  eexists. split; [vm_compute; reflexivity|].
  refine (proj2 (proj1 (@stable_prefix_bytes_exact InjectiveSample.writer InjectiveSample.pretty
    InjectiveSample.hash InjectiveSample.writer_injective (sample_input []) (sample_input []) _ _
    _ _ ltac:(vm_compute; reflexivity) ltac:(vm_compute; reflexivity)) eq_refl));
  (split; repeat constructor; simpl; try (by auto); rewrite ?list_elem_of_In; simpl;
     intuition discriminate).
Defined.
