(* ===== verification/Cache.v ===== *)
(** Deterministic provider-cache simulator ([rw-context/src/cache.rs]).

    The map from prefix hashes to the time they were last seen is keyed by the
    hexadecimal digest, which stands for [blake3::Hash]. *)
From S2P Require Import Prelude Text Ir Estimate Assembly.

Record CacheObservation : Type := mkObservation {
  observed_at_unix_ms : Z;
  provider_neutral_prefix_bytes : string;
  expected_stable_prefix_turns : nat;
  obs_prefix_tokens : Z;
  breakpoints : list CacheBreakpoint;
}.

(** [CacheObservation::from_assembled] *)
Definition from_assembled (assembled : AssembledContext) (observed_at_unix_ms : Z)
    : CacheObservation :=
  mkObservation observed_at_unix_ms (stable_prefix_bytes assembled)
    (stable_prefix_turn_count assembled) (tt_stable_prefix (token_totals assembled))
    (cache_breakpoints assembled).

Inductive CacheRuleProfile : Type :=
| ExplicitProfile (minimum_cacheable_tokens ttl_millis : Z)
| AutomaticProfile (minimum_cacheable_tokens ttl_millis : Z).

Definition minimum_cacheable_tokens (self : CacheRuleProfile) : Z :=
  match self with ExplicitProfile m _ | AutomaticProfile m _ => m end.
Definition ttl_millis (self : CacheRuleProfile) : Z :=
  match self with ExplicitProfile _ t | AutomaticProfile _ t => t end.
Definition breakpoint_kind (self : CacheRuleProfile) : CacheBreakpointKind :=
  match self with ExplicitProfile _ _ => Explicit | AutomaticProfile _ _ => ProviderManaged end.

#[global] Instance CacheBreakpointKind_eq_dec : EqDecision CacheBreakpointKind.
Proof. solve_decision. Defined.

Record CacheSimulation : Type := mkSimulation {
  requests : Z;
  eligible_requests : Z;
  hits : Z;
  misses : Z;
  invalid_breakpoints : Z;
  out_of_order_observations : Z;
  hit_rate_basis_points : Z;
}.

Definition basis_points (numerator denominator : Z) : Z :=
  if denominator =? 0 then 0
  else to_u16_or_max (sat_mul128 numerator 10000 / denominator).

Section simulator.
Context `{B : Blake3}.

Definition prefix_hash (bytes : string) : string := blake3_hex (PREFIX_HASH_DOMAIN ++ bytes).

Definition valid_breakpoint (observation : CacheObservation) (profile : CacheRuleProfile)
    (actual_hash : string) : bool :=
  match breakpoints observation with
  | [b] =>
      bool_decide (bp_kind b = breakpoint_kind profile) &&
      Nat.eqb (after_turn_count b) (expected_stable_prefix_turns observation) &&
      (prefix_tokens b =? obs_prefix_tokens observation) &&
      String.eqb (bp_stable_prefix_hash b) actual_hash
  | _ => false
  end.

(** The loop state: the map, the counters, the previous time. *)
Record SimState : Type := mkSim {
  last_seen : gmap string Z;
  result : CacheSimulation;
  previous_observation_time : option Z;
}.

Definition add_hit (r : CacheSimulation) : CacheSimulation :=
  mkSimulation (requests r) (eligible_requests r) (sat_add (hits r) 1) (misses r)
    (invalid_breakpoints r) (out_of_order_observations r) (hit_rate_basis_points r).
Definition add_miss (r : CacheSimulation) : CacheSimulation :=
  mkSimulation (requests r) (eligible_requests r) (hits r) (sat_add (misses r) 1)
    (invalid_breakpoints r) (out_of_order_observations r) (hit_rate_basis_points r).
Definition add_eligible (r : CacheSimulation) : CacheSimulation :=
  mkSimulation (requests r) (sat_add (eligible_requests r) 1) (hits r) (misses r)
    (invalid_breakpoints r) (out_of_order_observations r) (hit_rate_basis_points r).
Definition add_invalid (r : CacheSimulation) : CacheSimulation :=
  mkSimulation (requests r) (eligible_requests r) (hits r) (misses r)
    (sat_add (invalid_breakpoints r) 1) (out_of_order_observations r) (hit_rate_basis_points r).
Definition add_out_of_order (r : CacheSimulation) : CacheSimulation :=
  mkSimulation (requests r) (eligible_requests r) (hits r) (misses r)
    (invalid_breakpoints r) (sat_add (out_of_order_observations r) 1) (hit_rate_basis_points r).

(** One iteration of the loop of [simulate]. *)
Definition observe (profile : CacheRuleProfile) (st : SimState) (o : CacheObservation)
    : SimState :=
  let now := observed_at_unix_ms o in
  if match previous_observation_time st with Some previous => now <? previous | None => false end
  then mkSim (last_seen st) (add_out_of_order (add_miss (result st)))
         (previous_observation_time st)
  else if obs_prefix_tokens o <? minimum_cacheable_tokens profile
  then mkSim (last_seen st) (add_miss (result st)) (Some now)
  else
    let r := add_eligible (result st) in
    let actual_hash := prefix_hash (provider_neutral_prefix_bytes o) in
    if negb (valid_breakpoint o profile actual_hash)
    then mkSim (last_seen st) (add_invalid (add_miss r)) (Some now)
    else
      let hit := (0 <? ttl_millis profile) &&
        match last_seen st !! actual_hash with
        | Some previous => (previous <=? now) && (sat_sub now previous <=? ttl_millis profile)
        | None => false
        end in
      mkSim (<[actual_hash := now]> (last_seen st)) (if hit then add_hit r else add_miss r)
        (Some now).

Definition simulation_start (n : nat) : SimState :=
  mkSim ∅ (mkSimulation (usize_to_u64 (Z.of_nat n)) 0 0 0 0 0 0) None.

(** [CacheSimulator::simulate] *)
Definition simulate (observations : list CacheObservation) (profile : CacheRuleProfile)
    : CacheSimulation :=
  let r := result (foldl (observe profile) (simulation_start (length observations))
                         observations) in
  mkSimulation (requests r) (eligible_requests r) (hits r) (misses r) (invalid_breakpoints r)
    (out_of_order_observations r) (basis_points (hits r) (requests r)).

(** * Accounting *)

(** What the counters satisfy after [n] observations. *)
Definition counted (n : Z) (r : CacheSimulation) : Prop :=
  hits r + misses r = n ∧ 0 ≤ hits r ∧ 0 ≤ misses r ∧
  0 ≤ eligible_requests r ≤ n ∧ hits r ≤ eligible_requests r ∧
  0 ≤ invalid_breakpoints r ∧ 0 ≤ out_of_order_observations r ∧
  invalid_breakpoints r + out_of_order_observations r ≤ misses r.

Lemma observe_counted profile st o n :
  0 ≤ n < u64_max → counted n (result st) →
  counted (n + 1) (result (observe profile st o)) ∧
  requests (result (observe profile st o)) = requests (result st).
Proof.
  intros Hn Hc. unfold counted, observe in *. repeat case_match; simpl; machine_lia.
Qed.

Lemma simulate_counted profile l st n :
  0 ≤ n → n + Z.of_nat (length l) ≤ u64_max → counted n (result st) →
  counted (n + Z.of_nat (length l)) (result (foldl (observe profile) st l)) ∧
  requests (result (foldl (observe profile) st l)) = requests (result st).
Proof.
  revert st n. induction l as [|o l IH]; intros st n Hn Hmax Hc; simpl.
  { by rewrite Z.add_0_r. }
  destruct (observe_counted profile st o n) as [Hc' Hr]; [simpl in Hmax; lia|done|].
  destruct (IH (observe profile st o) (n + 1)) as [IH1 IH2]; [lia|simpl in Hmax; lia|done|].
  rewrite IH2, Hr. split; [|done].
  by replace (n + Z.of_nat (S (length l))) with (n + 1 + Z.of_nat (length l)) by lia.
Qed.

(** Every request is counted once, as a hit or as a miss; hits are
    eligible requests; invalid breakpoints and out-of-order observations are
    misses; and the hit rate is the exact floor in basis points, at most
    10,000. *)
Theorem simulate_accounting observations profile :
  Z.of_nat (length observations) ≤ u64_max →
  let r := simulate observations profile in
  let n := Z.of_nat (length observations) in
  requests r = n ∧ hits r + misses r = n ∧ 0 ≤ hits r ≤ eligible_requests r ∧
  eligible_requests r ≤ n ∧ invalid_breakpoints r + out_of_order_observations r ≤ misses r ∧
  0 ≤ hit_rate_basis_points r ≤ 10000 ∧
  (n ≠ 0 → hit_rate_basis_points r = hits r * 10000 / n).
Proof.
  intros Hmax r n.
  destruct (simulate_counted profile observations (simulation_start (length observations)) 0)
    as [Hc Hr]; [lia|lia|cbv; intuition discriminate|].
  unfold r, simulate. set (res := result _) in *. cbn [requests hits misses eligible_requests
    invalid_breakpoints out_of_order_observations hit_rate_basis_points].
  assert (Hreq : requests res = n).
  { rewrite Hr. unfold n. cbn. unfold usize_to_u64. machine_lia. }
  rewrite Hreq. unfold counted in Hc.
  assert (Hq : n ≠ 0 → basis_points (hits res) n = hits res * 10000 / n).
  { intros Hn. unfold basis_points. rewrite (proj2 (Z.eqb_neq _ _) Hn).
    assert (0 ≤ hits res * 10000 / n ≤ 10000).
    { split; [apply Z.div_pos; lia|]. apply Z.div_le_upper_bound; lia. }
    assert (sat_mul128 (hits res) 10000 = hits res * 10000) as -> by machine_lia.
    machine_lia. }
  assert (0 ≤ basis_points (hits res) n ≤ 10000).
  { destruct (decide (n = 0)) as [->|Hn]; [by cbn|rewrite Hq by done].
    split; [apply Z.div_pos; lia|apply Z.div_le_upper_bound; lia]. }
  split_and!; try lia; done.
Qed.

(** * A steady session *)

(** An observation that can hit: enough tokens and a matching breakpoint. *)
Definition cacheable (profile : CacheRuleProfile) (bytes : string) (o : CacheObservation) : Prop :=
  provider_neutral_prefix_bytes o = bytes ∧
  minimum_cacheable_tokens profile ≤ obs_prefix_tokens o ∧
  valid_breakpoint o profile (prefix_hash bytes) = true.

Definition within_ttl (profile : CacheRuleProfile) (t1 t2 : Z) : Prop :=
  t1 ≤ t2 ∧ t2 - t1 ≤ ttl_millis profile.

Lemma observe_cacheable profile st o bytes :
  cacheable profile bytes o →
  match previous_observation_time st with Some p => p ≤ observed_at_unix_ms o | None => True end →
  observe profile st o =
  mkSim (<[prefix_hash bytes := observed_at_unix_ms o]> (last_seen st))
    (if (0 <? ttl_millis profile) &&
        match last_seen st !! prefix_hash bytes with
        | Some previous => (previous <=? observed_at_unix_ms o) &&
                           (sat_sub (observed_at_unix_ms o) previous <=? ttl_millis profile)
        | None => false
        end
     then add_hit (add_eligible (result st)) else add_miss (add_eligible (result st)))
    (Some (observed_at_unix_ms o)).
Proof.
  intros (<- & Hmin & Hv) Hp. unfold observe. rewrite Hv. simpl.
  replace (match previous_observation_time st with
           | Some previous => observed_at_unix_ms o <? previous | None => false end) with false.
  - by replace (obs_prefix_tokens o <? minimum_cacheable_tokens profile) with false
      by (symmetry; apply Z.ltb_ge; lia).
  - destruct (previous_observation_time st); [|done]. symmetry. apply Z.ltb_ge. lia.
Qed.

Lemma steady_hits profile bytes l st p :
  0 < ttl_millis profile → Forall (cacheable profile bytes) l →
  last_seen st !! prefix_hash bytes = Some p → previous_observation_time st = Some p →
  Sorted (within_ttl profile) (p :: map observed_at_unix_ms l) →
  0 ≤ hits (result st) → hits (result st) + Z.of_nat (length l) ≤ u64_max →
  let r := result (foldl (observe profile) st l) in
  hits r = hits (result st) + Z.of_nat (length l) ∧ misses r = misses (result st) ∧
  invalid_breakpoints r = invalid_breakpoints (result st) ∧
  out_of_order_observations r = out_of_order_observations (result st).
Proof.
  intros Httl Hl. revert st p. induction Hl as [|o l Ho Hl IH]; intros st p Hs Hp Hso H0 Hmax.
  { simpl. split_and!; try done. lia. }
  simpl in Hso, Hmax. apply Sorted_inv in Hso as [Hso Hrel]. apply HdRel_inv in Hrel as [Hle Hgap].
  cbn [foldl]. rewrite (observe_cacheable _ _ _ bytes) by (try rewrite Hp; done).
  rewrite Hs, (proj2 (Z.ltb_lt _ _) Httl), (proj2 (Z.leb_le _ _) Hle).
  replace (sat_sub (observed_at_unix_ms o) p <=? ttl_millis profile) with true; last first.
  { symmetry. apply Z.leb_le. unfold sat_sub. lia. }
  cbn [andb]. set (st' := mkSim _ _ _).
  assert (Hh : hits (result st') = hits (result st) + 1) by (simpl; machine_lia).
  destruct (IH st' (observed_at_unix_ms o)) as (H1 & H2 & H3 & H4); try done.
  - simpl. apply lookup_insert_eq.
  - lia.
  - lia.
  - cbv zeta. rewrite H1, H2, H3, H4, Hh. simpl. split_and!; try done. lia.
Qed.
End simulator.

(** One request of a session: its input, what assembly returned, when it was sent. *)
Definition Request : Type := AssemblyInput * AssembledContext * Z.

Section session.
Context {W : JsonWriter} {P : PrettyJson} {B : Blake3}.

Definition support_for (profile : CacheRuleProfile) : CacheBreakpointSupport :=
  match profile with ExplicitProfile _ _ => SupportExplicit | AutomaticProfile _ _ => SupportAutomatic end.

(** The request was assembled from the session's stable turns and tools, for
    a provider of the profile's kind. *)
Definition request_of (profile : CacheRuleProfile) (stable_turns : list Turn)
    (session_tools : list ToolDefinition) (r : Request) : Prop :=
  assemble r.1.1 = Ok r.1.2 ∧ visible_turns (stable_prefix r.1.1) = stable_turns ∧
  input_tools r.1.1 ≡ₚ session_tools ∧ cache_support r.1.1 = support_for profile.

Lemma from_assembled_valid profile i a t :
  assemble i = Ok a → cache_support i = support_for profile →
  valid_breakpoint (from_assembled a t) profile (prefix_hash (stable_prefix_bytes a)) = true.
Proof.
  intros (Hbp & Hh & _)%assembled_breakpoints Hs. unfold valid_breakpoint, from_assembled; simpl.
  rewrite Hbp, Hs, Hh.
  by destruct profile; simpl; rewrite Nat.eqb_refl, Z.eqb_refl, String.eqb_refl.
Qed.

(** Prefix caching works over a whole session. If every request of a
    session is assembled from the same stable turns and the same set of
    tools (conversation, pins, queue and registration order may change
    freely), the requests are in time order with gaps within the TTL and the
    prefix is long enough to be cacheable, then only the first request
    misses: every later one hits, and no breakpoint is ever invalid. *)
Theorem steady_session_hits profile stable_turns session_tools first rest :
  0 < ttl_millis profile → Z.of_nat (length (first :: rest)) ≤ u64_max →
  Forall (request_of profile stable_turns session_tools) (first :: rest) →
  minimum_cacheable_tokens profile ≤ tt_stable_prefix (token_totals first.1.2) →
  Sorted (within_ttl profile) (map snd (first :: rest)) →
  let r := simulate (map (λ q, from_assembled q.1.2 q.2) (first :: rest)) profile in
  hits r = Z.of_nat (length rest) ∧ misses r = 1 ∧ invalid_breakpoints r = 0 ∧
  out_of_order_observations r = 0.
Proof.
  unfold Request in *. intros Httl Hmax Hall Hmin Hso. set (bytes := stable_prefix_bytes first.1.2).
  set (obs := map (λ q, from_assembled q.1.2 q.2) rest).
  assert (Hc : Forall (λ q, cacheable profile bytes (from_assembled q.1.2 q.2)) (first :: rest)).
  { pose proof Hall as [Hf _]%Forall_cons_1. destruct Hf as (Hf1 & Hf2 & Hf3 & Hf4).
    eapply Forall_impl; [exact Hall|]. intros q (Hq1 & Hq2 & Hq3 & Hq4).
    destruct (stable_prefix_agree _ _ _ _ Hf1 Hq1) as (Hb & Ht & _);
      [congruence|by rewrite Hf3, Hq3|].
    split_and!; simpl; [done|lia|]. unfold bytes. rewrite Hb.
    by apply (from_assembled_valid _ q.1.1). }
  apply Forall_cons_1 in Hc as [Hc1 Hc].
  simpl in Hso. cbn [length] in Hmax. unfold simulate. cbn [map foldl length].
  rewrite (observe_cacheable _ _ _ bytes) by done. cbn [simulation_start last_seen result].
  rewrite lookup_empty, andb_false_r. set (st := mkSim _ _ _).
  destruct (steady_hits profile bytes obs st first.2) as (H1 & H2 & H3 & H4); try done.
  - by apply Forall_fmap.
  - apply lookup_insert_eq.
  - unfold obs. rewrite map_map. exact Hso.
  - unfold obs. rewrite length_map. simpl. lia.
  - cbv zeta. cbn [hits misses invalid_breakpoints out_of_order_observations].
    fold obs. rewrite H1, H2, H3, H4. unfold obs. rewrite length_map. done.
Qed.
End session.

Lemma simulate_accounting_witness :
  hits (@simulate InjectiveSample.hash [] (ExplicitProfile 0 1)) +
  misses (@simulate InjectiveSample.hash [] (ExplicitProfile 0 1)) = 0.
Proof.
  refine (proj1 (proj2 (@simulate_accounting InjectiveSample.hash [] (ExplicitProfile 0 1) _))).
  vm_compute. discriminate.
Defined.

Definition sample_request (conv : list ContextItem) (t : Z) (a : AssembledContext) : Request :=
  (sample_input conv, a, t).

Lemma steady_session_hits_witness :
  ∃ a1 a2, sample_assemble (sample_input []) = Ok a1 ∧
    sample_assemble (sample_input [sample_item "c" KConversation "hi" false]) = Ok a2 ∧
    hits (@simulate InjectiveSample.hash [from_assembled a1 1000; from_assembled a2 3000]
            (ExplicitProfile 10 5000)) = 1.
Proof.
  eexists _, _. split; [vm_compute; reflexivity|]. split; [vm_compute; reflexivity|].
  refine (proj1 (@steady_session_hits SampleJson.writer InjectiveSample.pretty InjectiveSample.hash
    (ExplicitProfile 10 5000) (visible_turns (stable_prefix (sample_input []))) sample_tools
    (sample_request [] 1000 _)
    [sample_request [sample_item "c" KConversation "hi" false] 3000 _] _ _ _ _ _)).
  - simpl. lia.
  - vm_compute. discriminate.
  - repeat constructor; vm_compute; reflexivity.
  - vm_compute. discriminate.
  - repeat constructor; simpl; lia.
Defined.
