(* ===== verification/DoomLoop.v ===== *)
(** The guard against repeated identical tool failures
    ([rw-core/src/engine/turn/doom_loop.rs]) with the bounded JSON stream it
    hashes ([rw-types/src/json_encoding.rs]). *)
From S2P Require Import Prelude Text Ir Redaction Estimate Assembly ToolBatch.

Definition MAX_TOOL_RESULT_IR_BYTES : Z := 16 * 1024 * 1024.
Definition MAX_PENDING_TOOL_ARGUMENT_BYTES : Z := 1024 * 1024.
Definition MAX_TOOL_NAME_BYTES : Z := 256.
Definition MAX_SIGNATURE_BYTES : Z :=
  MAX_TOOL_RESULT_IR_BYTES + MAX_PENDING_TOOL_ARGUMENT_BYTES + MAX_TOOL_NAME_BYTES + 64.

(** [JsonWriter::stream(output, limit)]: the bytes that reach the output, or
    an error at the first write over the limit *)
Fixpoint stream_limited (limit written : Z) (chunks : list string) : option string :=
  match chunks with
  | [] => Some ""
  | bytes :: rest =>
      match checked_add written (str_len bytes) with
      | Some length =>
          if length <=? limit
          then option_map (λ more, (bytes ++ more)%string) (stream_limited limit length rest)
          else None
      | None => None
      end
  end.

Record DoomLoopGuard : Type := mkGuard {
  threshold : Z;
  recent_failures : list (option string);
  window_capacity : Z;
}.

(** [threshold.saturating_mul(4)] on [usize] *)
Definition guard_new (threshold : Z) : DoomLoopGuard :=
  mkGuard threshold [] (Z.min (threshold * 4) usize_max).

Fixpoint pop_front_over (capacity : Z) (l : list (option string)) : list (option string) :=
  match l with
  | [] => []
  | _ :: l' => if capacity <? Z.of_nat (length l) then pop_front_over capacity l' else l
  end.

Definition count_of (s : string) (l : list (option string)) : Z :=
  Z.of_nat (length (List.filter (λ x, bool_decide (x = Some s)) l)).

Section doom_loop.
Context {W : JsonWriter} {B : Blake3}.

(** [struct Failure] as it is serialized *)
Definition failure_json (call : PendingToolCall) (out : ToolOutput) : Value :=
  JObject [("name", JString (call_name call)); ("arguments", default JNull (call_arguments call));
           ("output", output_json out)].

Definition signature (call : PendingToolCall) (out : ToolOutput) : option string :=
  match to_writer (failure_json call out) with
  | Some chunks => option_map blake3_hex (stream_limited MAX_SIGNATURE_BYTES 0 chunks)
  | None => None
  end.

Definition failure_signature (call : PendingToolCall) (result : ToolExecution) : option string :=
  if is_error result then signature call (output result) else None.

(** [DoomLoopGuard::observe] *)
Definition observe (g : DoomLoopGuard) (call : PendingToolCall) (result : ToolExecution)
    : DoomLoopGuard * bool :=
  let s := failure_signature call result in
  let recent := pop_front_over (window_capacity g) (recent_failures g ++ [s])%list in
  (mkGuard (threshold g) recent (window_capacity g),
   match s with Some s => threshold g <=? count_of s recent | None => false end).

(** The guard after a history of committed results, and its answers. *)
Definition observe_all (g : DoomLoopGuard) (h : list (PendingToolCall * ToolExecution)) : DoomLoopGuard :=
  foldl (λ g x, (observe g x.1 x.2).1) g h.

(** * The window *)

Definition signatures (h : list (PendingToolCall * ToolExecution)) : list (option string) :=
  map (λ x, failure_signature x.1 x.2) h.
Definition last_n {A} (n : Z) (l : list A) : list A := drop (Z.to_nat (Z.of_nat (length l) - n)) l.

Lemma pop_front_over_last n l : 0 ≤ n → pop_front_over n l = last_n n l.
Proof.
  intros Hn. unfold last_n. induction l as [|x l IH]; [by destruct (Z.to_nat _)|].
  cbn [pop_front_over]. destruct (Z.ltb_spec n (Z.of_nat (length (x :: l)))) as [Hlt|Hge].
  - rewrite IH. replace (Z.to_nat (Z.of_nat (length (x :: l)) - n))
      with (S (Z.to_nat (Z.of_nat (length l) - n))) by (simpl in *; lia). done.
  - replace (Z.to_nat _) with 0%nat by (simpl in *; lia). done.
Qed.

Lemma last_n_snoc {A} n (l : list A) x : 0 ≤ n → last_n n (last_n n l ++ [x])%list = last_n n (l ++ [x])%list.
Proof.
  intros Hn. unfold last_n. rewrite !length_app, length_drop. simpl.
  destruct (Z.leb_spec (Z.of_nat (length l)) n) as [Hle|Hgt].
  - replace (Z.to_nat (Z.of_nat (length l) - n)) with 0%nat by lia. rewrite drop_0, Nat.sub_0_r. done.
  - rewrite <- drop_app_le by lia. rewrite drop_drop. f_equal. lia.
Qed.

Lemma observe_all_snoc g h x : observe_all g (h ++ [x])%list = (observe (observe_all g h) x.1 x.2).1.
Proof. unfold observe_all. by rewrite foldl_app. Qed.

Lemma observe_all_window t h :
  0 ≤ t → recent_failures (observe_all (guard_new t) h) = last_n (Z.min (t * 4) usize_max) (signatures h) ∧
          threshold (observe_all (guard_new t) h) = t ∧
          window_capacity (observe_all (guard_new t) h) = Z.min (t * 4) usize_max.
Proof.
  intros Ht. induction h as [|x h IH] using rev_ind; [|].
  { unfold last_n. simpl. by rewrite drop_nil. }
  rewrite observe_all_snoc. unfold signatures in *. rewrite map_app. simpl.
  destruct IH as (IH1 & IH2 & IH3). rewrite IH1, IH2, IH3. split_and!; [|done|done].
  assert (0 ≤ Z.min (t * 4) usize_max) by (unfold usize_max, u64_max; lia).
  rewrite pop_front_over_last by done. by apply last_n_snoc.
Qed.

(** The guard fires exactly on repetition. After any history of committed
    results, a new result makes it fire if and only if the result is a failure
    whose signature (tool name, arguments and output) occurs at least
    [threshold] times among the last [4 * threshold] results, the new one
    included; successes in between do not reset the count. *)
Theorem doom_loop_exact t h call result :
  0 ≤ t →
  (observe (observe_all (guard_new t) h) call result).2 = true ↔
  is_error result = true ∧
  ∃ s, signature call (output result) = Some s ∧
       t ≤ count_of s (last_n (Z.min (t * 4) usize_max) (signatures (h ++ [(call, result)])%list)).
Proof.
  intros Ht. pose proof (observe_all_window t h Ht) as (E1 & E2 & E3).
  unfold observe. simpl. rewrite E1, E2, E3.
  assert (0 ≤ Z.min (t * 4) usize_max) by (unfold usize_max, u64_max; lia).
  rewrite pop_front_over_last, last_n_snoc by done. unfold signatures. rewrite map_app. simpl.
  unfold failure_signature. destruct (is_error result); [|naive_solver].
  destruct (signature call (output result)) as [s|]; [|naive_solver].
  rewrite Z.leb_le. naive_solver.
Qed.

(** A model that repeats a failing call is stopped. If the last
    [threshold] results are failures with one signature, the guard fires on
    the last of them, whatever came before. *)
Theorem doom_loop_fires t h call result s :
  0 < t → t * 4 ≤ usize_max →
  is_error result = true → signature call (output result) = Some s →
  Forall (λ x, x = Some s) (last_n t (signatures (h ++ [(call, result)])%list)) →
  t ≤ Z.of_nat (length h) + 1 →
  (observe (observe_all (guard_new t) h) call result).2 = true.
Proof.
  intros Ht Hmax Herr Hs Hall Hlen.
  pose proof (observe_all_window t h) as (E1 & E2 & E3); [lia|].
  unfold observe. simpl. rewrite E1, E2, E3. unfold failure_signature. rewrite Herr, Hs.
  rewrite pop_front_over_last, last_n_snoc by (unfold usize_max, u64_max in *; lia).
  apply Z.leb_le. unfold signatures in *. rewrite map_app in Hall. simpl in Hall.
  unfold failure_signature in Hall at 2. rewrite Herr, Hs in Hall.
  set (l := (map (λ x, failure_signature x.1 x.2) h ++ [Some s])%list) in *.
  assert (Hl : length l = S (length h)) by (unfold l; rewrite length_app, length_map; simpl; lia).
  unfold last_n in *. set (a := Z.to_nat _). set (b := Z.to_nat _) in Hall.
  assert (Hab : (a ≤ b)%nat) by (unfold a, b; lia).
  replace b with (a + (b - a))%nat in Hall by lia. rewrite <- drop_drop in Hall.
  unfold count_of. rewrite <- (take_drop (b - a) (drop a l)), List.filter_app, length_app.
  rewrite (filter_all _ (drop (b - a) (drop a l))).
  - rewrite !length_drop. unfold a, b in *. lia.
  - eapply Forall_impl; [exact Hall|]. intros x ->. by apply bool_decide_eq_true.
Qed.
End doom_loop.

(** * Witness: a failure, a success, the same failure *)

Definition failing : ToolExecution := failed_execution (sample_call 0) "boom".
Definition passing : ToolExecution := mkExecution false (sample_call 0) (OutText "fine") false.
Definition sample_observe (h : list (PendingToolCall * ToolExecution)) : bool :=
  (@observe SampleJson.writer InjectiveSample.hash
     (@observe_all SampleJson.writer InjectiveSample.hash (guard_new 2) h) (sample_call 0) failing).2.

Lemma doom_loop_exact_witness :
  sample_observe [(sample_call 0, failing); (sample_call 0, passing)] = true ∧
  sample_observe [(sample_call 0, passing)] = false.
Proof.
  split; [|vm_compute; reflexivity].
  apply (@doom_loop_exact SampleJson.writer InjectiveSample.hash); [lia|].
  split; [reflexivity|]. eexists. split; [vm_compute; reflexivity|]. vm_compute. discriminate.
Defined.
