(* ===== verification/LiveEvents.v ===== *)
(** Live event delivery ([rw-core/src/engine/live_events.rs] with
    [live_events/receiver.rs] and the byte budget of [live_events/budget.rs]).

    A bounded ring of frames is shared by the subscribers of a session; each
    has a cursor.  The channel lock makes every operation one step.  The fields
    [log] and [start] only record what happened: the published frames and the
    cursor at subscription.  A history keeps the answers of [poll]. *)
From S2P Require Import Prelude Text.

(** * Byte budget *)

Module Credits.

(** [Budget] and the [Credit]s that are alive *)
Record Budget : Type := mkBudget {
  used : Z;
  limit : Z;
  credits : list Z;
}.
Definition budget_new (limit : Z) : Budget := mkBudget 0 limit [].

(** [Budget::reserve] *)
Definition reserve (b : Budget) (bytes : Z) : option Budget :=
  match checked_add (used b) bytes with
  | Some next => if next <=? limit b then Some (mkBudget next (limit b) (credits b ++ [bytes])%list) else None
  | None => None
  end.

(** [usize::fetch_sub] wraps *)
Definition wrapping_sub (a b : Z) : Z := (a - b) mod (usize_max + 1).

(** [Credit::shrink] and [Drop for Credit], of the credit at [i] *)
Definition shrink (b : Budget) (i : nat) (bytes : Z) : option Budget :=
  match credits b !! i with
  | Some held =>
      if held <? bytes then None
      else Some (mkBudget (wrapping_sub (used b) (held - bytes)) (limit b) (<[i := bytes]> (credits b)))
  | None => None
  end.
Definition drop_credit (b : Budget) (i : nat) : option Budget :=
  match credits b !! i with
  | Some held => Some (mkBudget (wrapping_sub (used b) held) (limit b) (delete i (credits b)))
  | None => None
  end.

Inductive reachable (limit : Z) : Budget → Prop :=
| reach_new : reachable limit (budget_new limit)
| reach_reserve b bytes b' : reachable limit b → 0 ≤ bytes → reserve b bytes = Some b' → reachable limit b'
| reach_shrink b i bytes b' : reachable limit b → 0 ≤ bytes → shrink b i bytes = Some b' → reachable limit b'
| reach_drop b i b' : reachable limit b → drop_credit b i = Some b' → reachable limit b'.

Lemma sum_Z_insert l (i : nat) x y :
  l !! i = Some x → sum_Z (<[i := y]> l) = sum_Z l - x + y.
Proof.
  revert i. induction l as [|z l IH]; intros [|i]; simpl; intros H; try done.
  - injection H as ->. lia.
  - rewrite (IH i H). lia.
Qed.
Lemma sum_Z_delete l (i : nat) x : l !! i = Some x → sum_Z (delete i l) = sum_Z l - x.
Proof.
  revert i. induction l as [|z l IH]; intros [|i]; simpl; intros H; try done.
  - injection H as ->. lia.
  - rewrite (IH i H). lia.
Qed.
Lemma sum_Z_elem l (i : nat) x : Forall (λ z, 0 ≤ z) l → l !! i = Some x → 0 ≤ x ≤ sum_Z l.
Proof.
  intros Hl. revert i. induction Hl as [|z l Hz Hl IH]; intros [|i]; simpl; intros H; try done.
  - injection H as ->. pose proof (sum_Z_nonneg l Hl). lia.
  - specialize (IH i H). lia.
Qed.

(** The byte budget is exact. In every history of reservations, shrinks
    and drops, the counter is the sum of the live credits, it never exceeds the
    limit, and the wrapping subtraction never wraps. *)
Theorem budget_exact limit_ b :
  0 ≤ limit_ ≤ usize_max → reachable limit_ b →
  used b = sum_Z (credits b) ∧ 0 ≤ used b ≤ limit_ ∧ Forall (λ z, 0 ≤ z) (credits b).
Proof.
  intros Hlim Hb.
  assert (limit b = limit_ ∧ used b = sum_Z (credits b) ∧ 0 ≤ used b ≤ limit_ ∧
          Forall (λ z, 0 ≤ z) (credits b)) as (_ & ?); [|done].
  induction Hb as [|b bytes b' Hb (El & Es & Hu & Hc) H0 Hr|b i bytes b' Hb (El & Es & Hu & Hc) H0 Hs
                  |b i b' Hb (El & Es & Hu & Hc) Hd].
  - simpl. split_and!; [done|done|lia|lia|constructor].
  - unfold reserve, checked_add in Hr. destruct (Z.leb_spec (used b + bytes) usize_max); [|done].
    destruct (Z.leb_spec (used b + bytes) (limit b)); [|done]. injection Hr as <-. simpl.
    rewrite sum_Z_app. simpl. split_and!; [done|lia|lia|lia|]. apply Forall_app. auto.
  - unfold shrink in Hs. destruct (credits b !! i) as [h|] eqn:Ei; [|done].
    destruct (Z.ltb_spec h bytes); [done|]. injection Hs as <-. simpl.
    destruct (sum_Z_elem _ _ _ Hc Ei). unfold wrapping_sub.
    rewrite Z.mod_small by lia. rewrite (sum_Z_insert _ _ _ _ Ei).
    split_and!; [done|lia|lia|lia|]. by apply Forall_insert.
  - unfold drop_credit in Hd. destruct (credits b !! i) as [h|] eqn:Ei; [|done].
    injection Hd as <-. simpl. destruct (sum_Z_elem _ _ _ Hc Ei). unfold wrapping_sub.
    rewrite Z.mod_small by lia. rewrite (sum_Z_delete _ _ _ Ei).
    split_and!; [done|lia|lia|lia|]. by apply Forall_delete.
Qed.

Lemma budget_exact_witness :
  (reserve (budget_new 100) 60 ≫= λ b, shrink b 0 40) = Some (mkBudget 40 100 [40]) ∧
  used (mkBudget 40 100 [40]) = sum_Z (credits (mkBudget 40 100 [40])).
Proof.
  split; [vm_compute; reflexivity|].
  apply (budget_exact 100 (mkBudget 40 100 [40])); [vm_compute; split; discriminate|].
  apply (reach_shrink _ (mkBudget 60 100 [60]) 0 40); [|lia|vm_compute; reflexivity].
  apply (reach_reserve _ (budget_new 100) 60); [apply reach_new|lia|vm_compute; reflexivity].
Defined.
End Credits.

(** * The ring *)

Definition MAX_EVENT_CAPACITY : nat := 1024.
Definition MAX_SESSION_SUBSCRIPTIONS : nat := 64.

Section ring.
Context {Event : Type}.

Record Frame : Type := mkFrame {
  frame_target : option string;
  frame_source : option Z;
  frame_payload : option Event;
  frame_ordinal : Z;
}.

(** A [Weak] entry of the registry: [alive] when it can be upgraded,
    [leaving] when its receiver is being dropped. *)
Record Subscriber : Type := mkSubscriber {
  sub_id : nat;
  client : string;
  seen : Z;
  failed : bool;
  alive : bool;
  leaving : bool;
  start : Z;
}.

Record Channel : Type := mkChannel {
  frames : list Frame;
  capacity : nat;
  ordinal : Z;
  subscribers : list Subscriber;
  closed : bool;
  log : list Frame;
}.

Inductive DeliveryError : Type := Closed | EventDeliverySaturated | InvalidConfiguration.

(** [LiveEvents::new] *)
Definition live_new (capacity : nat) : Result Channel DeliveryError :=
  if (Nat.leb 1 capacity && Nat.leb capacity MAX_EVENT_CAPACITY)%nat
  then Ok (mkChannel [] capacity 0 [] false []) else Err InvalidConfiguration.

Definition addressed (target : option string) (s : Subscriber) : bool :=
  match target with None => true | Some t => String.eqb t (client s) end.

Definition set_failed (s : Subscriber) : Subscriber :=
  mkSubscriber (sub_id s) (client s) (seen s) true (alive s) (leaving s) (start s).

(** [Channel::fail_unseen] *)
Definition fail_unseen (subs : list Subscriber) (target : option string) (o : Z) : list Subscriber :=
  map (λ s, if alive s && addressed target s && (seen s <? o) then set_failed s else s) subs.

(** [Channel::reclaim_observed] *)
Definition observed_through (subs : list Subscriber) : Z :=
  foldr Z.min u64_max (map seen (List.filter alive subs)).
Fixpoint pop_observed (through : Z) (l : list Frame) : list Frame :=
  match l with
  | f :: l' => if frame_ordinal f <=? through then pop_observed through l' else l
  | [] => []
  end.
Definition reclaim_observed (c : Channel) : Channel :=
  mkChannel (pop_observed (observed_through (subscribers c)) (frames c)) (capacity c) (ordinal c)
    (subscribers c) (closed c) (log c).

(** [Channel::push]: a full ring evicts its oldest frame, and a subscriber
    that still needed an ephemeral one fails. *)
Definition push (c : Channel) (f : Frame) : Channel :=
  let '(kept, subs) :=
    match frames c with
    | evicted :: rest =>
        if Nat.eqb (length (frames c)) (capacity c) then
          (rest, if is_some (frame_source evicted) then subscribers c
                 else fail_unseen (subscribers c) (frame_target evicted) (frame_ordinal evicted))
        else (frames c, subscribers c)
    | [] => ([], subscribers c)
    end in
  reclaim_observed (mkChannel (kept ++ [f])%list (capacity c) (ordinal c) subs (closed c) (log c ++ [f])%list).

(** [LiveEvents::publish] *)
Definition publish (c : Channel) (target : option string) (source : option Z) (payload : option Event)
    : Channel * Result unit DeliveryError :=
  if closed c then (c, Err Closed)
  else if u64_max <? ordinal c + 1 then (c, Err EventDeliverySaturated)
  else if negb (is_some payload) && negb (is_some source) then
    (mkChannel (frames c) (capacity c) (ordinal c)
       (fail_unseen (subscribers c) target (ordinal c + 1)) (closed c) (log c),
     Err EventDeliverySaturated)
  else
    (push (mkChannel (frames c) (capacity c) (ordinal c + 1) (subscribers c) (closed c) (log c))
       (mkFrame target source payload (ordinal c + 1)), Ok tt).

(** [LiveEvents::send]: a durable event goes to every client; [payload] is
    absent when its bytes were not admitted. *)
Definition send (c : Channel) (target : option string) (source : option Z) (event : Event)
    (admitted : bool) : Channel * Result unit DeliveryError :=
  publish c (if is_some source then None else target) source (if admitted then Some event else None).

(** [LiveEvents::publish_committed]: one [publish] per event of a committed
    batch, with its body or only its source fence; the first error stops it. *)
Fixpoint publish_committed (c : Channel) (events : list (option Z * Event)) (admitted : bool)
    : Channel * Result unit DeliveryError :=
  match events with
  | [] => (c, Ok tt)
  | (source, event) :: rest =>
      match publish c None source (if admitted then Some event else None) with
      | (c', Ok _) => publish_committed c' rest admitted
      | (c', Err e) => (c', Err e)
      end
  end.

(** [LiveEvents::subscribe], given whether its credits were admitted *)
Definition subscribe (c : Channel) (id : nat) (name : string) (admitted : bool)
    : Channel * Result unit DeliveryError :=
  if negb admitted then (c, Err EventDeliverySaturated) else
  let live := List.filter alive (subscribers c) in
  if Nat.leb MAX_SESSION_SUBSCRIPTIONS (length live) then
    (mkChannel (frames c) (capacity c) (ordinal c) live (closed c) (log c), Err EventDeliverySaturated)
  else
    (mkChannel (frames c) (capacity c) (ordinal c)
       (live ++ [mkSubscriber id name (ordinal c) false true false (ordinal c)])%list (closed c) (log c),
     Ok tt).

Definition close (c : Channel) : Channel :=
  mkChannel (frames c) (capacity c) (ordinal c) (subscribers c) true (log c).

(** * Receiving *)

Inductive Received : Type := ReceivedEvent (e : Event) | CatchUp | ReceivedClosed.

Definition update_sub (id : nat) (f : Subscriber → Subscriber) (l : list Subscriber) : list Subscriber :=
  map (λ s, if Nat.eqb (sub_id s) id then f s else s) l.
Definition set_subs (c : Channel) (l : list Subscriber) : Channel :=
  mkChannel (frames c) (capacity c) (ordinal c) l (closed c) (log c).
(** Move the cursor. *)
Definition see (o : Z) (s : Subscriber) : Subscriber :=
  mkSubscriber (sub_id s) (client s) o (failed s) (alive s) (leaving s) (start s).

(** A receiver that can still be used. *)
Definition active (s : Subscriber) : bool := alive s && negb (leaving s).
Definition find_sub (c : Channel) (id : nat) : option Subscriber :=
  List.find (λ s, Nat.eqb (sub_id s) id && active s) (subscribers c).

Inductive PollStep : Type :=
| Return (c : Channel) (r : option Received)
| Again (c : Channel).

(** One iteration of the loop of [LiveReceiver::poll]. *)
Definition poll_once (c : Channel) (s : Subscriber) : PollStep :=
  let nothing := Return c (if closed c then Some ReceivedClosed else None) in
  match frames c with
  | [] => nothing
  | first :: _ =>
      let before := frame_ordinal first - 1 in
      if seen s <? before then
        Return (set_subs c (update_sub (sub_id s) (see before) (subscribers c))) (Some CatchUp)
      else
        match frames c !! Z.to_nat (Z.max (seen s - before) 0) with
        | None => nothing
        | Some frame =>
            let received :=
              if addressed (frame_target frame) s
              then Some (match frame_payload frame with Some e => ReceivedEvent e | None => CatchUp end) else None in
            let c := reclaim_observed (set_subs c (update_sub (sub_id s) (see (frame_ordinal frame)) (subscribers c))) in
            if is_some received then Return c received else Again c
        end
  end.

(** The loop; [None] when the fuel runs out or the receiver is gone. *)
Fixpoint poll_loop (fuel : nat) (c : Channel) (id : nat) : option (Channel * option Received) :=
  match fuel, find_sub c id with
  | S fuel', Some s =>
      match poll_once c s with
      | Return c' r => Some (c', r)
      | Again c' => poll_loop fuel' c' id
      end
  | _, _ => None
  end.

(** [LiveReceiver::poll]: every iteration passes a frame of the ring, so its
    length bounds them. *)
Definition poll (c : Channel) (id : nat) : option (Channel * Result (option Received) DeliveryError) :=
  match find_sub c id with
  | None => None
  | Some s =>
      if failed s then Some (c, Err EventDeliverySaturated)
      else match poll_loop (S (length (frames c))) c id with
           | Some (c', r) => Some (c', Ok r)
           | None => None
           end
  end.

(** [Drop for LiveReceiver] in two steps: the cursor passes everything before
    the lock is taken; then the frames are reclaimed, and the entry cannot be
    upgraded any more. *)
Definition leave_cursor (s : Subscriber) : Subscriber :=
  mkSubscriber (sub_id s) (client s) u64_max (failed s) (alive s) true (start s).
Definition bury (s : Subscriber) : Subscriber :=
  mkSubscriber (sub_id s) (client s) (seen s) (failed s) false (leaving s) (start s).
Definition leave (c : Channel) (id : nat) : Channel :=
  set_subs c (update_sub id leave_cursor (subscribers c)).
Definition drop_receiver (c : Channel) (id : nat) : Channel :=
  let c := reclaim_observed c in set_subs c (update_sub id bury (subscribers c)).

(** The answers [poll] gave to each receiver so far *)
Definition Answers : Type := nat → list Received.
Definition answer (h : Answers) (id : nat) (r : Result (option Received) DeliveryError) : Answers :=
  λ i, match r with Ok (Some a) => if Nat.eqb i id then (h i ++ [a])%list else h i | _ => h i end.
(** The histories of a channel; a new receiver has had no answers. *)
Inductive reachable : Channel → Answers → Prop :=
| reach_new n c : live_new n = Ok c → reachable c (λ _, [])
| reach_publish c h target source payload : reachable c h → reachable (publish c target source payload).1 h
| reach_subscribe c h id name admitted :
    reachable c h → id ∉ map sub_id (subscribers c) → h id = [] → reachable (subscribe c id name admitted).1 h
| reach_poll c h id c' r : reachable c h → poll c id = Some (c', r) → reachable c' (answer h id r)
| reach_leave c h id : reachable c h → reachable (leave c id) h
| reach_drop c h id s :
    reachable c h → s ∈ subscribers c → sub_id s = id → leaving s = true → reachable (drop_receiver c id) h
| reach_close c h : reachable c h → reachable (close c) h.

(** * The invariant *)

(** The ordinals that are no longer in the ring. *)
Definition gone (c : Channel) : Z := ordinal c - Z.of_nat (length (frames c)).
Definition published (c : Channel) (o : Z) : option Frame := log c !! Z.to_nat (o - 1).

(** A frame for the client of this name *)
Definition meant (name : string) (f : Frame) : bool :=
  match frame_target f with None => true | Some t => String.eqb t name end.
(** The answers to the client [name] take it, frame by frame of [P], from one
    ordinal to another: a frame for somebody else needs no answer, a frame for the
    client is answered with its event, and the advice to catch up from the journal
    stands for frames that are durable if they are for the client. *)
Inductive explains (P : Z → option Frame) (name : string) (from : Z) : list Received → Z → Prop :=
| explains_start : explains P name from [] from
| explains_other rs o f :
    explains P name from rs o → P (o + 1) = Some f → meant name f = false → explains P name from rs (o + 1)
| explains_event rs o f e :
    explains P name from rs o → P (o + 1) = Some f → meant name f = true → frame_payload f = Some e →
    explains P name from (rs ++ [ReceivedEvent e]) (o + 1)
| explains_catch_up rs o o' :
    explains P name from rs o → o < o' →
    (∀ i f, o < i ≤ o' → P i = Some f → meant name f = true → is_Some (frame_source f)) →
    explains P name from (rs ++ [CatchUp]) o'
| explains_closed rs o : explains P name from rs o → explains P name from (rs ++ [ReceivedClosed]) o.
Lemma explains_le P name from rs o : explains P name from rs o → from ≤ o.
Proof. induction 1; lia. Qed.
Lemma explains_ext P P' name from rs o :
  explains P name from rs o → (∀ i, from < i ≤ o → P' i = P i) → explains P' name from rs o.
Proof.
  induction 1 as [|rs o f H IH Hp Ht|rs o f e H IH Hp Ht He|rs o o' H IH Hlt Hd|rs o H IH]; intros HP;
    try pose proof (explains_le _ _ _ _ _ H).
  - constructor.
  - eapply explains_other; [apply IH; intros; apply HP; lia|by rewrite HP by lia|done].
  - eapply explains_event; [apply IH; intros; apply HP; lia|by rewrite HP by lia|done..].
  - eapply explains_catch_up; [apply IH; intros; apply HP; lia|done|]. intros i f Hi. rewrite HP by lia. by apply Hd.
  - apply explains_closed. auto.
Qed.

Record SubOk (c : Channel) (h : Answers) (s : Subscriber) : Prop := mkSubOk {
  sub_start : 0 ≤ start s;
  sub_seen : seen s ≤ ordinal c;
  sub_past : explains (published c) (client s) (start s) (h (sub_id s)) (seen s);
  sub_gap : failed s = false → ∀ o f, seen s < o ≤ gone c → published c o = Some f →
    meant (client s) f = true → is_Some (frame_source f);
}.

Record Inv (c : Channel) (h : Answers) : Prop := mkInv {
  inv_log : Z.of_nat (length (log c)) = ordinal c;
  inv_width : ordinal c ≤ u64_max;
  inv_ordinals : ∀ i f, log c !! i = Some f → frame_ordinal f = Z.of_nat i + 1;
  inv_payload : ∀ i f, log c !! i = Some f → frame_payload f = None → is_Some (frame_source f);
  inv_ring : frames c = drop (length (log c) - length (frames c)) (log c);
  inv_capacity : (length (frames c) ≤ capacity c ∧ 1 ≤ capacity c ≤ MAX_EVENT_CAPACITY)%nat;
  inv_registry : (length (subscribers c) ≤ MAX_SESSION_SUBSCRIPTIONS)%nat;
  inv_subs : ∀ s, s ∈ subscribers c → active s = true → SubOk c h s;
  inv_ids : NoDup (map sub_id (subscribers c));
}.

Lemma ring_length c h : Inv c h → (length (frames c) ≤ length (log c))%nat.
Proof.
  intros Hc. pose proof (f_equal length (inv_ring _ _ Hc)) as H. rewrite length_drop in H. lia.
Qed.

Lemma ring_lookup c h j f :
  Inv c h → frames c !! j = Some f →
  frame_ordinal f = gone c + 1 + Z.of_nat j ∧ published c (frame_ordinal f) = Some f.
Proof.
  intros Hc Hj. pose proof (inv_log _ _ Hc) as Hl. pose proof (ring_length _ _ Hc) as Hlt.
  rewrite (inv_ring _ _ Hc), lookup_drop in Hj.
  pose proof (lookup_lt_Some _ _ _ Hj) as Hlt2.
  pose proof (inv_ordinals _ _ Hc _ _ Hj) as Ho. unfold gone, published. rewrite Ho.
  split; [lia|]. rewrite <- Hj. f_equal. lia.
Qed.

Lemma pop_observed_drop t l :
  ∃ k, pop_observed t l = drop k l ∧ (k ≤ length l)%nat ∧
       ∀ j f, (j < k)%nat → l !! j = Some f → frame_ordinal f ≤ t.
Proof.
  induction l as [|f l (k & Ek & Hk & Hpop)]; simpl; [by exists 0%nat|].
  destruct (Z.leb_spec (frame_ordinal f) t) as [Hle|Hgt].
  - exists (S k). simpl. split_and!; [done|lia|]. intros [|j] g Hj; simpl; [by intros [= <-]|].
    apply Hpop. lia.
  - exists 0%nat. split_and!; [done|lia|]. intros j g Hj. lia.
Qed.

Lemma active_alive s : active s = true → alive s = true.
Proof. unfold active. by intros [? _]%andb_prop. Qed.
Lemma observed_through_le subs s : s ∈ subs → alive s = true → observed_through subs ≤ seen s.
Proof.
  unfold observed_through. induction subs as [|x subs IH]; simpl; [by intros ?%elem_of_nil|].
  intros [->|Hin]%elem_of_cons Ha.
  - rewrite Ha. simpl. lia.
  - specialize (IH Hin Ha). destruct (alive x); simpl; lia.
Qed.

(** Frames that every subscriber has passed can go. *)
Definition with_frames (c : Channel) (l : list Frame) : Channel :=
  mkChannel l (capacity c) (ordinal c) (subscribers c) (closed c) (log c).
Lemma inv_pop c h t :
  Inv c h → (∀ s, s ∈ subscribers c → active s = true → t ≤ seen s) →
  Inv (with_frames c (pop_observed t (frames c))) h.
Proof.
  intros Hc Ht. destruct (pop_observed_drop t (frames c)) as (k & Ek & Hk & Hpop).
  pose proof (λ j f, ring_lookup c h j f Hc) as Hring. pose proof Hc as [].
  constructor; simpl; try done; rewrite Ek, ?length_drop.
  - rewrite inv_ring0 at 1. rewrite drop_drop. f_equal.
    apply (f_equal length) in inv_ring0. rewrite length_drop in inv_ring0. lia.
  - lia.
  - intros s Hs Ha. destruct (inv_subs0 s Hs Ha). constructor; try done.
    intros Hf o f Ho Hp. destruct (Z.leb_spec o (gone c)) as [Hle|Hgt].
    { apply (sub_gap0 Hf o f); [lia|done]. }
    exfalso. unfold gone in Ho, Hgt. simpl in Ho. rewrite ?Ek, length_drop in Ho.
    fold (gone c) in Hgt. destruct (Z_of_nat_complete (o - gone c - 1)) as [j Hj]; [lia|].
    unfold gone in Hj.
    destruct (lookup_lt_is_Some_2 (frames c) j) as [g Hg]; [lia|].
    assert (Hle : frame_ordinal g ≤ t) by (apply (Hpop j); [lia|done]).
    destruct (Hring j g Hg) as [Hord _]. specialize (Ht s Hs Ha). unfold gone in Hord. lia.
Qed.
Lemma inv_reclaim c h : Inv c h → Inv (reclaim_observed c) h.
Proof.
  intros Hc. apply inv_pop; [done|]. intros s Hs Ha%active_alive. by apply observed_through_le.
Qed.

Lemma sub_failed c h s : SubOk c h s → SubOk c h (set_failed s).
Proof. intros []. constructor; done. Qed.

(** Replacing the registry: the subscribers only look at the rest. *)
Lemma inv_set_subs c h l :
  Inv c h → (∀ s, s ∈ l → active s = true → SubOk c h s) →
  (length l ≤ MAX_SESSION_SUBSCRIPTIONS)%nat → NoDup (map sub_id l) → Inv (set_subs c l) h.
Proof.
  intros [] Hl Hm Hn. constructor; simpl; try done.
  intros s Hs Ha. destruct (Hl s Hs Ha). by constructor.
Qed.

Lemma fail_unseen_inv subs target o s :
  s ∈ fail_unseen subs target o →
  ∃ s0, s0 ∈ subs ∧ ((s = s0 ∧ alive s0 && addressed target s0 && (seen s0 <? o) = false) ∨ s = set_failed s0).
Proof.
  intros (s0 & -> & Hs0)%list_elem_of_fmap. exists s0. split; [done|].
  destruct (alive s0 && _ && _); auto.
Qed.
Lemma fail_unseen_ids subs target o : map sub_id (fail_unseen subs target o) = map sub_id subs.
Proof. unfold fail_unseen. rewrite map_map. apply map_ext. intros s. by destruct (alive s && _ && _). Qed.

Lemma inv_fail c h target o : Inv c h → Inv (set_subs c (fail_unseen (subscribers c) target o)) h.
Proof.
  intros Hc. apply inv_set_subs; [done| |unfold fail_unseen; rewrite length_map; apply (inv_registry _ _ Hc)
                                 |rewrite fail_unseen_ids; apply (inv_ids _ _ Hc)].
  intros s (s0 & Hs0 & [[-> _]| ->])%fail_unseen_inv Ha.
  - by apply (inv_subs _ _ Hc).
  - apply sub_failed. by apply (inv_subs _ _ Hc).
Qed.

(** Eviction: whoever still needed the frame can recover it, or fails. *)
Definition evict (c : Channel) (e : Frame) (rest : list Frame) : Channel :=
  mkChannel rest (capacity c) (ordinal c)
    (if is_some (frame_source e) then subscribers c
     else fail_unseen (subscribers c) (frame_target e) (frame_ordinal e)) (closed c) (log c).
Lemma sub_evict c h e rest s :
  Inv c h → frames c = e :: rest → SubOk c h s →
  (failed s = false → seen s < frame_ordinal e → meant (client s) e = true → is_Some (frame_source e)) →
  SubOk (evict c e rest) h s.
Proof.
  intros Hc Hf [] He. constructor; try done. intros Hs o f Ho Hp Hadd.
  destruct (ring_lookup c h 0 e Hc) as [Hord Hpub]; [by rewrite Hf|].
  unfold gone in *. simpl in Ho. rewrite Hf in *. simpl in *.
  destruct (decide (o = frame_ordinal e)) as [->|Hne].
  - change (published c (frame_ordinal e) = Some f) in Hp. simplify_eq. apply He; [done|lia|done].
  - apply (sub_gap0 Hs o f); [lia|done|done].
Qed.
Lemma inv_evict c h e rest : Inv c h → frames c = e :: rest → Inv (evict c e rest) h.
Proof.
  intros Hc Hf. pose proof (ring_length _ _ Hc) as Hlt. pose proof Hc as []. rewrite Hf in *.
  constructor; simpl in *; try done.
  - replace (length (log c) - length rest)%nat with ((length (log c) - S (length rest)) + 1)%nat by lia.
    rewrite <- drop_drop, <- inv_ring0. done.
  - lia.
  - destruct (is_some _); [done|]. unfold fail_unseen. by rewrite length_map.
  - intros s Hs Ha. destruct (frame_source e) as [z|] eqn:Es; simpl in Hs.
    { apply sub_evict; [done|done|by apply inv_subs0|]. intros. by rewrite Es. }
    apply fail_unseen_inv in Hs as (s0 & Hs0 & [[-> Hn]| ->]).
    + apply sub_evict; [done|done|by apply inv_subs0|]. intros _ Hlo Hadd.
      change (meant (client s0) e) with (addressed (frame_target e) s0) in Hadd. rewrite (active_alive _ Ha), Hadd in Hn. simpl in Hn. destruct (Z.ltb_spec (seen s0) (frame_ordinal e)); [done|lia].
    + apply sub_evict; [done|done|apply sub_failed; by apply inv_subs0|done].
  - destruct (is_some _); [done|]. by rewrite fail_unseen_ids.
Qed.

(** A new frame at the end of the ring. *)
Definition append (c : Channel) (f : Frame) : Channel :=
  mkChannel (frames c ++ [f])%list (capacity c) (ordinal c + 1) (subscribers c) (closed c) (log c ++ [f])%list.
Lemma published_append c h f o : Inv c h → 0 < o ≤ ordinal c → published (append c f) o = published c o.
Proof.
  intros Hc Ho. pose proof (inv_log _ _ Hc). unfold published. simpl. rewrite lookup_app_l; [done|lia].
Qed.
Lemma sub_append c h f s : Inv c h → SubOk c h s → SubOk (append c f) h s.
Proof.
  intros Hc []. constructor; simpl; try done; [lia| |].
  - eapply explains_ext; [done|]. intros o Ho. by rewrite (published_append c h) by (done || lia).
  - intros Hs o g Ho. pose proof (explains_le _ _ _ _ _ sub_past0). pose proof (ring_length _ _ Hc). pose proof (inv_log _ _ Hc).
    unfold gone in Ho. simpl in Ho. rewrite length_app in Ho. simpl in Ho.
    rewrite (published_append c h) by (done || lia). apply sub_gap0; [done|]. unfold gone. lia.
Qed.
Lemma inv_append c h f :
  Inv c h → (length (frames c) < capacity c)%nat → ordinal c + 1 ≤ u64_max →
  frame_ordinal f = ordinal c + 1 → (frame_payload f = None → is_Some (frame_source f)) →
  Inv (append c f) h.
Proof.
  intros Hc Hlt Hw Ho Hp. pose proof (ring_length _ _ Hc) as Hrl. pose proof Hc as [].
  constructor; simpl; rewrite ?length_app; simpl; try done; try lia.
  - intros i g [Hg|[Hi Hg]]%lookup_app_Some; [by apply inv_ordinals0|].
    apply list_lookup_singleton_Some in Hg as [Hi0 <-]. lia.
  - intros i g [Hg|[Hi Hg]]%lookup_app_Some; [by apply inv_payload0 with i|].
    apply list_lookup_singleton_Some in Hg as [Hi0 <-]. done.
  - rewrite inv_ring0 at 1. rewrite drop_app_le by lia. f_equal. f_equal. lia.
  - intros s Hs Ha. by apply sub_append, inv_subs0.
Qed.

Lemma push_eq c h f :
  Inv c h → ∃ c0, Inv c0 h ∧ (length (frames c0) < capacity c0)%nat ∧ ordinal c0 = ordinal c ∧
  push (mkChannel (frames c) (capacity c) (ordinal c + 1) (subscribers c) (closed c) (log c)) f =
  reclaim_observed (append c0 f).
Proof.
  intros Hc. destruct (inv_capacity _ _ Hc) as [Hcap Hone].
  unfold push. simpl. destruct (frames c) as [|e rest] eqn:Ef.
  - exists c. rewrite Ef. split_and!; [done|simpl; lia|done|]. unfold append. by rewrite Ef.
  - destruct (Nat.eqb_spec (length (e :: rest)) (capacity c)) as [Hfull|Hroom].
    + exists (evict c e rest). split_and!; [by apply inv_evict|simpl in *; lia|done|done].
    + exists c. rewrite Ef. split_and!; [done|lia|done|]. unfold append. by rewrite Ef.
Qed.

(** The cursor of a live subscriber moves, and it has an answer or none. *)
Definition answered (h : Answers) (id : nat) (r : option Received) : Answers := answer h id (Ok r).
Lemma answered_none h id : answered h id None = h.
Proof. done. Qed.
Lemma answered_other h id r i : i ≠ id → answered h id r i = h i.
Proof. intros Hi. unfold answered, answer. destruct r; [|done]. by rewrite (proj2 (Nat.eqb_neq i id)). Qed.
Lemma answered_same h id a : answered h id (Some a) id = (h id ++ [a])%list.
Proof. unfold answered, answer. by rewrite Nat.eqb_refl. Qed.
Lemma sub_see c h s o r :
  SubOk c h s → seen s < o ≤ ordinal c →
  explains (published c) (client s) (start s) (answered h (sub_id s) r (sub_id s)) o → SubOk c (answered h (sub_id s) r) (see o s).
Proof.
  intros [] Ho Hex. constructor; simpl; try done; try lia. intros Hf o' f Ho'. apply sub_gap0; [done|lia].
Qed.

Lemma update_sub_ids id f l :
  (∀ s, sub_id (f s) = sub_id s) → map sub_id (update_sub id f l) = map sub_id l.
Proof.
  intros Hf. unfold update_sub. rewrite map_map. apply map_ext. intros s. by destruct (Nat.eqb _ _).
Qed.
Lemma find_sub_spec c id s :
  find_sub c id = Some s → s ∈ subscribers c ∧ sub_id s = id ∧ active s = true.
Proof.
  intros H. apply List.find_some in H as [Hin [Hid Ha]%andb_prop]. apply Nat.eqb_eq in Hid.
  split_and!; [by apply list_elem_of_In|done|done].
Qed.
Lemma find_sub_update c id f s :
  (∀ s, sub_id (f s) = sub_id s) → (∀ s, active (f s) = active s) →
  find_sub c id = Some s → find_sub (set_subs c (update_sub id f (subscribers c))) id = Some (f s).
Proof.
  unfold find_sub. simpl. intros Hi Ha. induction (subscribers c) as [|x l IH]; simpl; [done|].
  destruct (Nat.eqb (sub_id x) id) eqn:E; simpl.
  - rewrite Hi, E, Ha. simpl. destruct (active x); [by intros [= ->]|done].
  - rewrite E. simpl. done.
Qed.
Lemma ids_unique (l : list Subscriber) s s' :
  NoDup (map sub_id l) → s ∈ l → s' ∈ l → sub_id s = sub_id s' → s = s'.
Proof.
  intros Hn (i & Hi)%list_elem_of_lookup (j & Hj)%list_elem_of_lookup He.
  assert (i = j) as ->; [|congruence].
  apply (NoDup_lookup (map sub_id l) i j (sub_id s)); [done| |].
  - by rewrite list_lookup_fmap, Hi.
  - by rewrite list_lookup_fmap, Hj, He.
Qed.
Lemma inv_update c h s f r :
  Inv c h → s ∈ subscribers c → (∀ s, sub_id (f s) = sub_id s) →
  (active (f s) = true → SubOk c (answered h (sub_id s) r) (f s)) →
  Inv (set_subs c (update_sub (sub_id s) f (subscribers c))) (answered h (sub_id s) r).
Proof.
  intros Hc Hs Hid Hf. pose proof Hc as []. constructor; simpl; try done.
  - unfold update_sub. by rewrite length_map.
  - intros s' (s0 & -> & Hs0)%list_elem_of_fmap Ha.
    destruct (Nat.eqb_spec (sub_id s0) (sub_id s)) as [He|Hne].
    + assert (s0 = s) as -> by by apply (ids_unique (subscribers c)). destruct (Hf Ha). by constructor.
    + destruct (inv_subs0 s0 Hs0 Ha). constructor; try done. by rewrite answered_other.
  - by rewrite update_sub_ids.
Qed.

(** An empty ring means that every live cursor is at the end. *)
Definition Caught (c : Channel) : Prop :=
  frames c = [] → ∀ s, s ∈ subscribers c → active s = true → seen s = ordinal c.
Lemma caught_pop c h t :
  Inv c h → Caught c → (∀ s, s ∈ subscribers c → active s = true → t ≤ seen s) →
  Caught (with_frames c (pop_observed t (frames c))).
Proof.
  intros Hc Hcaught Ht. unfold Caught. simpl. intros He s Hs Ha.
  destruct (pop_observed_drop t (frames c)) as (k & Ek & Hk & Hpop). rewrite Ek in He.
  apply (f_equal length) in He. rewrite length_drop in He. simpl in He.
  destruct (decide (frames c = [])) as [Hnil|Hne]; [by apply Hcaught|].
  assert (0 < length (frames c))%nat by (destruct (frames c); [done|simpl; lia]).
  destruct (lookup_lt_is_Some_2 (frames c) (length (frames c) - 1)) as [g Hg]; [lia|].
  destruct (ring_lookup _ _ _ _ Hc Hg) as [Hord _]. assert (frame_ordinal g ≤ t) by (apply (Hpop (length (frames c) - 1)%nat); [lia|done]).
  specialize (Ht s Hs Ha). pose proof (sub_seen _ _ _ (inv_subs _ _ Hc s Hs Ha)). unfold gone in Hord. lia.
Qed.
Lemma caught_reclaim c h : Inv c h → Caught c → Caught (reclaim_observed c).
Proof.
  intros Hc Hca. eapply caught_pop; [done..|]. intros s Hs Ha%active_alive. by apply observed_through_le.
Qed.

Lemma poll_skip c h s :
  Inv c h → SubOk c h s → failed s = false → seen s < gone c →
  SubOk c (answered h (sub_id s) (Some CatchUp)) (see (gone c) s).
Proof.
  intros Hc Hs Hf Hlt. pose proof (inv_log _ _ Hc). pose proof (ring_length _ _ Hc).
  apply sub_see; [done|unfold gone in *; lia|]. rewrite answered_same.
  eapply explains_catch_up; [apply (sub_past _ _ _ Hs)|done|]. intros o f. by apply (sub_gap _ _ _ Hs Hf).
Qed.
Lemma poll_frame c h s j f :
  Inv c h → SubOk c h s → frames c !! j = Some f → frame_ordinal f = seen s + 1 →
  SubOk c (answered h (sub_id s)
             (if addressed (frame_target f) s
              then Some (match frame_payload f with Some e => ReceivedEvent e | None => CatchUp end) else None))
    (see (frame_ordinal f) s).
Proof.
  intros Hc Hs Hj Hord. destruct (ring_lookup _ _ _ _ Hc Hj) as [Hg Hp].
  pose proof (lookup_lt_Some _ _ _ Hj). pose proof (ring_length _ _ Hc). pose proof (inv_log _ _ Hc).
  apply sub_see; [done|unfold gone in Hg; lia|]. rewrite Hord in *. pose proof (sub_past _ _ _ Hs) as Hpast.
  change (addressed (frame_target f) s) with (meant (client s) f). destruct (meant (client s) f) eqn:Em.
  - rewrite answered_same. destruct (frame_payload f) as [e|] eqn:Ee; [by eapply explains_event|].
    eapply explains_catch_up; [done|lia|]. intros i g Hi Hg' _. assert (i = seen s + 1) as -> by lia.
    rewrite Hp in Hg'. injection Hg' as <-. by apply (inv_payload _ _ Hc _ _ Hp).
  - rewrite answered_none. by eapply explains_other.
Qed.

(** What one iteration leaves behind. *)
Definition poll_post (c : Channel) (h : Answers) (id : nat) (s : Subscriber) (st : PollStep) : Prop :=
  match st with
  | Return c' r =>
      Inv c' (answered h id r) ∧ Caught c' ∧ ordinal c' = ordinal c ∧
      ∃ s', find_sub c' id = Some s' ∧ (r = None ∨ r = Some ReceivedClosed → seen s' = ordinal c)
  | Again c' =>
      Inv c' h ∧ Caught c' ∧ ordinal c' = ordinal c ∧ gone c ≤ seen s ∧
      ∃ s', find_sub c' id = Some s' ∧ failed s' = false ∧ seen s < seen s'
  end.

Lemma poll_nothing c h id s :
  Inv c h → Caught c → find_sub c id = Some s → seen s = ordinal c →
  poll_post c h id s (Return c (if closed c then Some ReceivedClosed else None)).
Proof.
  intros Hc Hca Hs Hseen. simpl. split; [|split_and!; [done..|by exists s]]. destruct (closed c); [|done].
  pose proof Hc as []. constructor; try done. intros s' Hs' Ha. destruct (inv_subs0 s' Hs' Ha). constructor; try done.
  destruct (decide (sub_id s' = id)) as [<-|]; [|by rewrite answered_other]. rewrite answered_same. by apply explains_closed.
Qed.

Lemma move_spec c h s o r :
  Inv c h → find_sub c (sub_id s) = Some s → frames c ≠ [] → SubOk c (answered h (sub_id s) r) (see o s) →
  let c' := reclaim_observed (set_subs c (update_sub (sub_id s) (see o) (subscribers c))) in
  Inv c' (answered h (sub_id s) r) ∧ Caught c' ∧ ordinal c' = ordinal c ∧ find_sub c' (sub_id s) = Some (see o s).
Proof.
  intros Hc Hs Hne Hi. pose proof (find_sub_spec _ _ _ Hs) as (Hin & _ & Ha).
  assert (Inv (set_subs c (update_sub (sub_id s) (see o) (subscribers c))) (answered h (sub_id s) r)) as Hi'
    by (apply inv_update; [done|done|done|by intros _]).
  simpl. split_and!; [by apply inv_reclaim|eapply caught_reclaim; [done|by intros ?]|done|].
  by apply (find_sub_update c (sub_id s)).
Qed.

Lemma poll_once_spec c h id s :
  Inv c h → Caught c → find_sub c id = Some s → failed s = false → poll_post c h id s (poll_once c s).
Proof.
  intros Hc Hca Hs Hf. pose proof (find_sub_spec _ _ _ Hs) as (Hin & Hid & Ha). subst id.
  pose proof (inv_subs _ _ Hc s Hin Ha) as Hok. unfold poll_once.
  destruct (frames c) as [|first rest] eqn:Efr.
  { apply poll_nothing; try done. by apply Hca. }
  destruct (ring_lookup c h 0 first Hc) as [H1 _]; [by rewrite Efr|].
  replace (frame_ordinal first - 1) with (gone c) by lia.
  destruct (Z.ltb_spec (seen s) (gone c)) as [Hlt|Hge].
  { simpl. split_and!; [apply inv_update; [done|done|done|intros _; by apply poll_skip] | |done|].
    - unfold Caught. simpl. by rewrite Efr.
    - eexists. split; [by apply find_sub_update|]. by intros [?|?]. }
  rewrite Z.max_l by lia.
  destruct ((first :: rest) !! Z.to_nat (seen s - gone c)) as [f|] eqn:Ej; rewrite <- Efr in Ej.
  2: { apply lookup_ge_None in Ej. apply poll_nothing; try done.
       pose proof (sub_seen _ _ _ Hok). unfold gone in *. lia. }
  destruct (ring_lookup _ _ _ _ Hc Ej) as [Hord _].
  pose proof (poll_frame c h s _ f Hc Hok Ej ltac:(lia)) as Hsee. cbv zeta.
  destruct (move_spec c h s (frame_ordinal f) _ Hc Hs ltac:(by rewrite Efr) Hsee) as (M1 & M2 & M3 & M4). clear Hsee.
  destruct (addressed (frame_target f) s); cbn [is_some poll_post].
  - split_and!; [done..|]. eexists. split; [done|]. by destruct (frame_payload f); intros [?|?].
  - split_and!; [done..|]. eexists. split; [done|]. simpl. split; [done|lia].
Qed.

Lemma poll_loop_spec fuel c h id s :
  Inv c h → Caught c → find_sub c id = Some s → failed s = false →
  (seen s < gone c ∧ (0 < fuel)%nat) ∨ ordinal c - seen s < Z.of_nat fuel →
  ∃ c' r s', poll_loop fuel c id = Some (c', r) ∧ Inv c' (answered h id r) ∧ Caught c' ∧ ordinal c' = ordinal c ∧
    find_sub c' id = Some s' ∧ (r = None ∨ r = Some ReceivedClosed → seen s' = ordinal c').
Proof.
  revert c s. induction fuel as [|fuel IH]; intros c s Hc Hca Hs Hf Hfuel.
  { pose proof (find_sub_spec _ _ _ Hs) as (Hin & _ & Ha).
    pose proof (sub_seen _ _ _ (inv_subs _ _ Hc s Hin Ha)). lia. }
  simpl. rewrite Hs. pose proof (poll_once_spec c h id s Hc Hca Hs Hf) as Hpost.
  destruct (poll_once c s) as [c' r|c']; simpl in Hpost.
  - destruct Hpost as (? & ? & Ho & s' & Hs' & Hr). exists c', r, s'. split_and!; try done.
    intros Hn. rewrite (Hr Hn). done.
  - destruct Hpost as (? & ? & Ho & Hg & s' & Hs' & Hf' & Hlt).
    destruct (IH c' s') as (c'' & r & s'' & ? & ? & ? & ? & ? & ?); try done; [right; lia|].
    exists c'', r, s''. split_and!; try done. lia.
Qed.
Lemma poll_spec c h id s :
  Inv c h → Caught c → find_sub c id = Some s → failed s = false →
  ∃ c' r s', poll c id = Some (c', Ok r) ∧ Inv c' (answered h id r) ∧ Caught c' ∧ ordinal c' = ordinal c ∧
    find_sub c' id = Some s' ∧ (r = None ∨ r = Some ReceivedClosed → seen s' = ordinal c').
Proof.
  intros Hc Hca Hs Hf. unfold poll. rewrite Hs, Hf.
  destruct (poll_loop_spec (S (length (frames c))) c h id s) as (c' & r & s' & -> & H); try done.
  - destruct (Z.ltb_spec (seen s) (gone c)); [left; lia|right; unfold gone in *; lia].
  - by exists c', r, s'.
Qed.

(** * Every history *)

Definition Good (c : Channel) (h : Answers) : Prop := Inv c h ∧ Caught c.

Lemma good_publish c h target source payload : Good c h → Good (publish c target source payload).1 h.
Proof.
  intros [Hc Hca]. unfold publish. destruct (closed c) eqn:Ecl; [done|].
  destruct (Z.ltb_spec u64_max (ordinal c + 1)); [done|].
  destruct (negb (is_some payload) && negb (is_some source)) eqn:En; simpl; rewrite <- Ecl.
  - split; [by apply inv_fail|]. intros Hnil s (s0 & Hs0 & [[-> _]| ->])%fail_unseen_inv Ha; by apply (Hca Hnil s0).
  - destruct (push_eq c h (mkFrame target source payload (ordinal c + 1)) Hc)
      as (c0 & Hc0 & Hroom & Ho & ->).
    assert (Inv (append c0 (mkFrame target source payload (ordinal c + 1))) h).
    { apply inv_append; simpl; try done; try lia. intros ->. destruct source; [done|done]. }
    split; [by apply inv_reclaim|]. eapply caught_reclaim; [done|]. intros Hnil. simpl in Hnil.
    by destruct (frames c0).
Qed.

Lemma filter_in {A} (p : A → bool) l x : x ∈ List.filter p l → x ∈ l ∧ p x = true.
Proof. intros Hx. by apply list_elem_of_In, filter_In in Hx as [?%list_elem_of_In ?]. Qed.
Lemma filter_ids (l : list Subscriber) : map sub_id (List.filter alive l) `sublist_of` map sub_id l.
Proof.
  induction l as [|s l IH]; simpl; [constructor|]. destruct (alive s); simpl; by constructor.
Qed.
Lemma filter_length {A} (p : A → bool) (l : list A) : (length (List.filter p l) ≤ length l)%nat.
Proof. induction l as [|x l IH]; simpl; [lia|]. destruct (p x); simpl; lia. Qed.

Lemma sub_new c h id name : Inv c h → h id = [] → SubOk c h (mkSubscriber id name (ordinal c) false true false (ordinal c)).
Proof.
  intros Hc Hh. pose proof (inv_log _ _ Hc). constructor; simpl; try lia; [rewrite Hh; constructor|].
  intros _ o f Ho. unfold gone in Ho. simpl in Ho. lia.
Qed.
Lemma good_subscribe c h id name admitted :
  Good c h → id ∉ map sub_id (subscribers c) → h id = [] → Good (subscribe c id name admitted).1 h.
Proof.
  intros [Hc Hca] Hid Hh. unfold subscribe. destruct admitted; cbn [negb]; [|done].
  pose proof (sublist_NoDup _ _ (inv_ids _ _ Hc) (filter_ids (subscribers c))) as Hn.
  pose proof (filter_length alive (subscribers c)). pose proof (inv_registry _ _ Hc).
  destruct (Nat.leb_spec MAX_SESSION_SUBSCRIPTIONS (length (List.filter alive (subscribers c)))); simpl.
  - split.
    + apply inv_set_subs; [done| |lia|done]. intros s [Hs _]%filter_in. by apply (inv_subs _ _ Hc).
    + intros Hnil s [Hs _]%filter_in. by apply Hca.
  - split.
    + apply inv_set_subs; [done| |rewrite length_app; simpl; lia|].
      * intros s [[Hs _]%filter_in| ->%list_elem_of_singleton]%elem_of_app; [by apply (inv_subs _ _ Hc)|].
        intros _. by apply sub_new.
      * rewrite map_app. apply NoDup_app. split_and!; [done| |apply NoDup_singleton].
        intros x Hx ->%list_elem_of_singleton. apply Hid. simpl.
        by apply (elem_of_sublist _ _ _ Hx), filter_ids.
    + intros Hnil s [[Hs _]%filter_in| ->%list_elem_of_singleton]%elem_of_app; [by apply Hca|done].
Qed.

Lemma good_poll c h id c' r : Good c h → poll c id = Some (c', r) → Good c' (answer h id r).
Proof.
  intros [Hc Hca] Hp. destruct (find_sub c id) as [s|] eqn:Es; [|unfold poll in Hp; by rewrite Es in Hp].
  destruct (failed s) eqn:Ef; [unfold poll in Hp; rewrite Es, Ef in Hp; by simplify_eq|].
  destruct (poll_spec c h id s Hc Hca Es Ef) as (c1 & r1 & s1 & Hp1 & ? & ? & _). by simplify_eq.
Qed.

(** Subscribers that become inactive are of no concern. *)
Lemma good_retire c h id f :
  Good c h → (∀ s, sub_id (f s) = sub_id s) → (∀ s, active (f s) = false) →
  Good (set_subs c (update_sub id f (subscribers c))) h.
Proof.
  intros [Hc Hca] Hid Hf.
  assert (∀ s, s ∈ update_sub id f (subscribers c) → active s = true → s ∈ subscribers c) as Hsub.
  { intros s (s0 & -> & Hs0)%list_elem_of_fmap Ha.
    destruct (Nat.eqb _ _); [by rewrite Hf in Ha|done]. }
  split.
  - apply inv_set_subs; [done| | |].
    + intros s Hs Ha. apply (inv_subs _ _ Hc); [|done]. by apply Hsub.
    + unfold update_sub. rewrite length_map. apply (inv_registry _ _ Hc).
    + rewrite update_sub_ids by done. apply (inv_ids _ _ Hc).
  - intros Hnil s Hs Ha. apply (Hca Hnil); [|done]. by apply Hsub.
Qed.
Lemma good_leave c h id : Good c h → Good (leave c id) h.
Proof.
  intros Hc. apply good_retire; [done|done|]. intros s. unfold active. simpl. apply andb_false_r.
Qed.
Lemma good_drop c h id : Good c h → Good (drop_receiver c id) h.
Proof.
  intros [Hc Hca]. apply good_retire; [|done|done].
  split; [by apply inv_reclaim|by eapply caught_reclaim].
Qed.

Lemma good_reachable c h : reachable c h → Good c h.
Proof.
  induction 1 as [n c Hn|c h t src p _ IH|c h id name a _ IH Hid Hh|c h id c' r _ IH Hp|c h id _ IH|c h id s _ IH _ _ _|c h _ [[] Hca]].
  - unfold live_new in Hn. destruct (Nat.leb_spec 1 n), (Nat.leb_spec n MAX_EVENT_CAPACITY); try done.
    simpl in Hn. injection Hn as <-. split; [|by intros _ s ?%elem_of_nil].
    constructor; simpl; try done; try lia; try apply NoDup_nil_2.
    by intros s ?%elem_of_nil.
  - by apply good_publish.
  - by apply good_subscribe.
  - by apply (good_poll c h id c' r).
  - by apply good_leave.
  - by apply good_drop.
  - split; [|done]. constructor; try done. simpl. intros s Hs Ha. destruct (inv_subs0 s Hs Ha).
    by constructor.
Qed.

Lemma publish_committed_history c h events admitted :
  reachable c h → reachable (publish_committed c events admitted).1 h.
Proof.
  revert c. induction events as [|[source e] rest IH]; intros c Hc; simpl; [done|].
  pose proof (reach_publish c h None source (if admitted then Some e else None) Hc) as Hc'.
  destruct (publish c None source _) as [c' [u|err]]; simpl in *; [by apply IH|done].
Qed.

Lemma unseen_in_ring c h s o f :
  Inv c h → SubOk c h s → failed s = false → seen s < o ≤ ordinal c → published c o = Some f →
  meant (client s) f = true → frame_source f = None → f ∈ frames c.
Proof.
  intros Hc Hs Hf Ho Hp Ha Hn. pose proof (inv_log _ _ Hc). pose proof (ring_length _ _ Hc).
  pose proof (explains_le _ _ _ _ _ (sub_past _ _ _ Hs)). pose proof (sub_start _ _ _ Hs).
  destruct (Z.leb_spec o (gone c)) as [Hle|Hgt].
  { destruct (sub_gap _ _ _ Hs Hf o f) as [z Hz]; [lia|done|done|congruence]. }
  rewrite (inv_ring _ _ Hc). unfold gone, published in *. apply list_elem_of_lookup.
  exists (Z.to_nat (o - 1) - (length (log c) - length (frames c)))%nat.
  rewrite lookup_drop, <- Hp. f_equal. lia.
Qed.

(** C37: no event is lost silently. In every history of publications,
    subscriptions, receives, drops and closes, the answers that [poll] gave to an
    active receiver explain its cursor frame by frame since it subscribed: every
    frame addressed to it was answered, in order and once, with the event of the
    frame, or it is durable and was passed with the advice to catch up from the
    journal.  An ephemeral frame addressed to it that its cursor has not passed is
    still in the ring, unless the receiver is marked failed, and then every
    [poll] answers with an error. *)
Theorem no_silent_loss c h s :
  reachable c h → s ∈ subscribers c → active s = true →
  explains (published c) (client s) (start s) (h (sub_id s)) (seen s) ∧
  (failed s = false → ∀ o f, seen s < o ≤ ordinal c → published c o = Some f →
     meant (client s) f = true → frame_source f = None → f ∈ frames c) ∧
  (failed s = true → poll c (sub_id s) = Some (c, Err EventDeliverySaturated)).
Proof.
  intros [Hc _]%good_reachable Hs Ha. pose proof (inv_subs _ _ Hc s Hs Ha) as Hok.
  split_and!; [apply (sub_past _ _ _ Hok)|by intros; eapply unseen_in_ring|].
  intros Hf. unfold poll. destruct (find_sub c (sub_id s)) as [s'|] eqn:E.
  - apply find_sub_spec in E as (Hs' & Hid & _).
    assert (s' = s) as -> by (apply (ids_unique (subscribers c)); [apply (inv_ids _ _ Hc)|done..]). by rewrite Hf.
  - unfold find_sub in E. apply list_elem_of_In in Hs. pose proof (List.find_none _ _ E s Hs) as Hn. cbn in Hn.
    by rewrite Nat.eqb_refl, Ha in Hn.
Qed.

(** Receiving always returns, and it reports "nothing to receive" or "closed"
    only to a receiver whose answers explain everything that was published. *)
Theorem poll_complete c h id s :
  reachable c h → find_sub c id = Some s → failed s = false →
  ∃ c' r s', poll c id = Some (c', Ok r) ∧ find_sub c' id = Some s' ∧
    (r = None ∨ r = Some ReceivedClosed →
     explains (published c') (client s') (start s') (answer h id (Ok r) id) (ordinal c')).
Proof.
  intros [Hc Hca]%good_reachable Hs Hf.
  destruct (poll_spec c h id s Hc Hca Hs Hf) as (c' & r & s' & Hp & Hc' & _ & _ & Hs' & Hr).
  exists c', r, s'. split_and!; [done|done|]. intros Hn. rewrite <- (Hr Hn).
  destruct (find_sub_spec _ _ _ Hs') as (Hin & <- & Ha).
  apply (sub_past _ _ _ (inv_subs _ _ Hc' s' Hin Ha)).
Qed.

(** The ring and the registry stay within their bounds. *)
Lemma ring_bounded c h :
  reachable c h →
  (length (frames c) ≤ capacity c ≤ MAX_EVENT_CAPACITY ∧
   length (subscribers c) ≤ MAX_SESSION_SUBSCRIPTIONS)%nat ∧ ordinal c ≤ u64_max.
Proof.
  intros [Hc _]%good_reachable. destruct (inv_capacity _ _ Hc). pose proof (inv_registry _ _ Hc).
  pose proof (inv_width _ _ Hc). lia.
Qed.
End ring.

(** * A history: the first frame is for somebody else, the second durable *)

Section example.
Definition ex0 : Channel (Event := nat) := mkChannel [] 2 0 [] false [].
Definition ex1 : Channel := (subscribe ex0 0 "a" true).1.
Definition ex2 : Channel := (publish ex1 (Some "b") None (Some 7%nat)).1.
Definition ex3 : Channel := (publish ex2 None (Some 3) (Some 8%nat)).1.
Definition ex_sub : Subscriber := mkSubscriber 0 "a" 2 false true false 0.
Definition ex4 : Channel :=
  mkChannel [] 2 2 [ex_sub] false [mkFrame (Some "b") None (Some 7%nat) 1; mkFrame None (Some 3) (Some 8%nat) 2].
Definition ex_answers : Answers := answer (λ _, []) 0 (Ok (Some (ReceivedEvent 8%nat))).

Lemma ex3_reachable : reachable ex3 (λ _, []).
Proof.
  apply reach_publish, reach_publish, reach_subscribe; [|apply not_elem_of_nil|done].
  by apply (reach_new 2).
Qed.
Lemma ex4_reachable : reachable ex4 ex_answers.
Proof. apply (reach_poll ex3 _ 0 ex4 (Ok (Some (ReceivedEvent 8%nat)))); [apply ex3_reachable|]. done. Qed.

Lemma no_silent_loss_witness :
  ex_answers 0%nat = [ReceivedEvent 8%nat] ∧ explains (published ex4) "a" 0 (ex_answers 0%nat) 2.
Proof.
  split; [reflexivity|].
  destruct (no_silent_loss ex4 ex_answers ex_sub) as [H _]; [apply ex4_reachable|by left|done|]. exact H.
Defined.

Lemma poll_complete_witness :
  ∃ c' r s', poll ex4 0 = Some (c', Ok r) ∧ find_sub c' 0 = Some s' ∧
    (r = None ∨ r = Some ReceivedClosed →
     explains (published c') (client s') (start s') (answer ex_answers 0 (Ok r) 0%nat) (ordinal c')).
Proof. apply (poll_complete ex4 ex_answers 0 ex_sub); [apply ex4_reachable|done|done]. Defined.
End example.
