(* ===== verification/Sse.v ===== *)
(** The server-sent-event decoder of the provider adapters
    ([rw-providers/src/sse.rs]): bytes arrive in arbitrary chunks, events are
    cut at blank lines.  The theorems show which events a response delivers,
    however its bytes were chunked, and that the buffer stays bounded. *)
From Stdlib Require Import Ascii.
From S2P Require Import Prelude Text.

(** [ProviderErrorKind::Protocol]; the messages carry no decision. *)
Inductive SseError : Type := FrameTooLarge | InvalidUtf8.

Record SseEvent : Type := mkSseEvent {
  event : option string;
  data : string;
}.
(** [SseDecoder]: the bytes of an unfinished frame *)
Abbreviation Bytes := (list ascii).

Definition MAX_PENDING_SSE_BYTES : Z := 8 * 1024 * 1024.

(** * UTF-8 validity, as [std::str::from_utf8] checks it *)

Definition code (c : ascii) : Z := Z.of_nat (nat_of_ascii c).
Definition between (lo hi : Z) (c : ascii) : bool := (lo <=? code c) && (code c <=? hi).
(** The continuation bytes a first byte asks for, each with its range *)
Definition utf8_tail (c : ascii) : option (list (Z * Z)) :=
  if between 0 127 c then Some []
  else if between 194 223 c then Some [(128, 191)]
  else if between 224 224 c then Some [(160, 191); (128, 191)]
  else if between 225 236 c then Some [(128, 191); (128, 191)]
  else if between 237 237 c then Some [(128, 159); (128, 191)]
  else if between 238 239 c then Some [(128, 191); (128, 191)]
  else if between 240 240 c then Some [(144, 191); (128, 191); (128, 191)]
  else if between 241 243 c then Some [(128, 191); (128, 191); (128, 191)]
  else if between 244 244 c then Some [(128, 143); (128, 191); (128, 191)]
  else None.
(** [wanted]: the continuation bytes still to come *)
Fixpoint utf8_valid (wanted : list (Z * Z)) (s : Bytes) : bool :=
  match s, wanted with
  | [], [] => true
  | [], _ => false
  | c :: s', (lo, hi) :: wanted' => between lo hi c && utf8_valid wanted' s'
  | c :: s', [] => match utf8_tail c with Some tail => utf8_valid tail s' | None => false end
  end.

(** * Frames *)

Definition LF : ascii := ascii_of_nat 10.
Definition CR : ascii := ascii_of_nat 13.

(** [bytes.windows(n).position(|window| window == pattern)] *)
Fixpoint starts (pattern s : Bytes) : bool :=
  match pattern, s with
  | [], _ => true
  | p :: pattern', c :: s' => Ascii.eqb p c && starts pattern' s'
  | _, [] => false
  end.
Fixpoint position (pattern s : Bytes) : option nat :=
  if starts pattern s then Some 0%nat
  else match s with [] => None | _ :: s' => S <$> position pattern s' end.

Definition find_event_boundary (bytes : Bytes) : option (nat * nat) :=
  match position [LF; LF] bytes, position [CR; LF; CR; LF] bytes with
  | Some lf, Some crlf => if Nat.leb lf crlf then Some (lf, 2%nat) else Some (crlf, 4%nat)
  | None, Some crlf => Some (crlf, 4%nat)
  | Some lf, None => Some (lf, 2%nat)
  | None, None => None
  end.

(** [str::lines]: the terminator is a line feed with an optional carriage
    return before it; a last line without one keeps its carriage return, and a
    last empty line is not one. *)
Definition strip_cr (s : string) : string :=
  if ends_with (String CR "") s then str_take (String.length s - 1) s else s.
Fixpoint lines_of (parts : list string) : list string :=
  match parts with
  | [] => []
  | [last] => if is_empty last then [] else [last]
  | line :: rest => strip_cr line :: lines_of rest
  end.
Definition lines (text : string) : list string := lines_of (split_char LF text).

(** The fields of the frame so far *)
Definition add_line (acc : option string * list string) (line : string) : option string * list string :=
  let '(ev, data) := acc in
  if starts_with ":" line then acc
  else match strip_prefix "event:" line with
       | Some value => (Some (trim_start value), data)
       | None => match strip_prefix "data:" line with
                 | Some value => (ev, (data ++ [trim_start value])%list)
                 | None => acc
                 end
       end.
Definition parse_frame (frame : Bytes) : Result (option SseEvent) SseError :=
  if utf8_valid [] frame then
    let '(ev, data) := foldl add_line (None, []) (lines (String.string_of_list_ascii frame)) in
    match data with
    | [] => Ok None
    | _ => Ok (Some (mkSseEvent ev (join (String LF "") data)))
    end
  else Err InvalidUtf8.

(** * The decoder *)

(** The loop of [push]; every turn removes at least two bytes. *)
Fixpoint drain (fuel : nat) (pending : Bytes) (events : list SseEvent) : Result (Bytes * list SseEvent) SseError :=
  match fuel with
  | O => Ok (pending, events)
  | S fuel' =>
      match find_event_boundary pending with
      | None => Ok (pending, events)
      | Some (end_, delimiter_len) =>
          match parse_frame (take end_ pending) with
          | Err e => Err e
          | Ok ev => drain fuel' (drop delimiter_len (drop end_ pending))
                       (events ++ match ev with Some e => [e] | None => [] end)%list
          end
      end
  end.
Definition push (pending bytes : Bytes) : Result (Bytes * list SseEvent) SseError :=
  if MAX_PENDING_SSE_BYTES <? Z.of_nat (length pending) + Z.of_nat (length bytes) then Err FrameTooLarge
  else drain (length (pending ++ bytes)) (pending ++ bytes)%list [].
Definition finish (pending : Bytes) : Result (list SseEvent) SseError :=
  match pending with
  | [] => Ok []
  | _ => match parse_frame pending with
         | Ok (Some e) => Ok [e]
         | Ok None => Ok []
         | Err e => Err e
         end
  end.

(** * Boundaries are stable *)

Lemma starts_app pattern s t : starts pattern s = true → starts pattern (s ++ t) = true.
Proof.
  revert s. induction pattern as [|p pattern IH]; intros [|c s]; simpl; try done.
  rewrite !andb_true_iff. intros [-> H]. auto.
Qed.
Lemma starts_length pattern s : starts pattern s = true → (length pattern ≤ length s)%nat.
Proof.
  revert s. induction pattern as [|p pattern IH]; intros [|c s]; simpl; try (done || lia).
  rewrite andb_true_iff. intros [_ H%IH]. lia.
Qed.
Lemma starts_app_inv pattern s t :
  starts pattern (s ++ t) = true → (length pattern ≤ length s)%nat → starts pattern s = true.
Proof.
  revert s. induction pattern as [|p pattern IH]; intros [|c s]; simpl; try (done || lia).
  rewrite !andb_true_iff. intros [-> H] Hl. split; [done|]. apply IH; [done|lia].
Qed.
Lemma position_spec pattern s i :
  position pattern s = Some i ↔
  starts pattern (drop i s) = true ∧ (i ≤ length s)%nat ∧ ∀ j, (j < i)%nat → starts pattern (drop j s) = false.
Proof.
  revert i. induction s as [|c s IH]; intros i.
  - cbn [position]. destruct (starts pattern []) eqn:E.
    + split; [intros [= <-]; split_and!; [done|simpl; lia|lia]|]. intros (_ & Hi & _). simpl in Hi. f_equal. lia.
    + split; [done|]. intros (H & _). rewrite drop_nil in H. congruence.
  - cbn [position]. destruct (starts pattern (c :: s)) eqn:E.
    + split; [intros [= <-]; split_and!; [done|simpl; lia|lia]|]. intros (_ & _ & Hmin).
      destruct i as [|i]; [done|]. specialize (Hmin 0%nat ltac:(lia)). simpl in Hmin. congruence.
    + destruct i as [|i].
      { split; [by destruct (position pattern s)|]. intros (H & _). simpl in H. congruence. }
      transitivity (position pattern s = Some i); [destruct (position pattern s); simpl; split; congruence|].
      rewrite IH. cbn [drop length]. split; intros (H1 & H2 & H3); split_and!; try done; try lia.
      * intros [|j] Hj; [done|]. simpl. apply H3. lia.
      * intros j Hj. apply (H3 (S j)). lia.
Qed.
Lemma position_bound pattern s i : position pattern s = Some i → (i + length pattern ≤ length s)%nat.
Proof. intros (H & Hi & _)%position_spec. apply starts_length in H. rewrite length_drop in H. lia. Qed.
Lemma drop_app_short {A} (s t : list A) i : (i ≤ length s)%nat → drop i (s ++ t) = (drop i s ++ t)%list.
Proof. intros H. by apply drop_app_le. Qed.
Lemma position_app pattern s t i : position pattern s = Some i → position pattern (s ++ t) = Some i.
Proof.
  intros H. pose proof (position_bound _ _ _ H) as Hb. apply position_spec in H as (H & Hi & Hmin).
  apply position_spec. rewrite drop_app_short by lia. split_and!; [by apply starts_app|rewrite length_app; lia|].
  intros j Hj. destruct (starts pattern (drop j (s ++ t))) eqn:E; [|done].
  rewrite drop_app_short in E by lia. apply starts_app_inv in E; [rewrite Hmin in E; done|].
  rewrite length_drop. lia.
Qed.
(** A match that appears with new bytes crosses the old end. *)
Lemma position_new pattern s t i :
  position pattern s = None → position pattern (s ++ t) = Some i → (length s < i + length pattern)%nat.
Proof.
  intros Hn H. pose proof H as (Hs & Hi & _)%position_spec.
  destruct (Nat.lt_ge_cases (length s) (i + length pattern)) as [|Hge]; [done|exfalso].
  rewrite drop_app_short in Hs by lia.
  apply starts_app_inv in Hs; [|rewrite length_drop; lia].
  assert (∃ j, position pattern s = Some j) as [j Hj]; [|congruence].
  clear Hn H Hi. revert i Hge Hs. induction s as [|c s IH]; intros i Hge Hs; cbn [position].
  - rewrite drop_nil in Hs. rewrite Hs. eauto.
  - destruct (starts pattern (c :: s)) eqn:E; [eauto|]. destruct i as [|i]; [simpl in Hs; congruence|]. destruct (IH i) as [j ->]; [simpl in Hge; lia|done|]. by exists (S j).
Qed.

Lemma boundary_bound s e d : find_event_boundary s = Some (e, d) → (e + d ≤ length s)%nat ∧ (2 ≤ d)%nat.
Proof.
  unfold find_event_boundary. destruct (position [LF; LF] s) as [lf|] eqn:E1;
    destruct (position [CR; LF; CR; LF] s) as [crlf|] eqn:E2; try done;
    repeat match goal with H : position _ _ = Some _ |- _ => apply position_bound in H; simpl in H end.
  - destruct (Nat.leb lf crlf); intros [= <- <-]; lia.
  - intros [= <- <-]. lia.
  - intros [= <- <-]. lia.
Qed.

(** More bytes never move a boundary: neither delimiter can begin before one
    that is already complete. *)
Lemma boundary_app s t e d : find_event_boundary s = Some (e, d) → find_event_boundary (s ++ t) = Some (e, d).
Proof.
  unfold find_event_boundary. destruct (position [LF; LF] s) as [lf|] eqn:E1;
    destruct (position [CR; LF; CR; LF] s) as [crlf|] eqn:E2; try done.
  - by rewrite (position_app _ _ t _ E1), (position_app _ _ t _ E2).
  - rewrite (position_app _ _ t _ E1). destruct (position [CR; LF; CR; LF] (s ++ t)) as [crlf|] eqn:E3; [|done].
    pose proof (position_new _ _ _ _ E2 E3) as Hn. apply position_spec in E3 as (Hs & _ & _).
    apply position_spec in E1 as (Hl & _ & _). pose proof (starts_length _ _ Hl) as Hlen. rewrite length_drop in Hlen.
    simpl in Hn, Hlen. destruct (Nat.leb_spec lf crlf) as [|Hlt]; [done|]. exfalso.
    assert (lf = S crlf) as -> by lia.
    rewrite drop_app_short in Hs by lia.
    rewrite <- Nat.add_1_r, <- drop_drop in Hl.
    assert (3 ≤ length (drop crlf s))%nat as H3 by (rewrite length_drop; lia).
    destruct (drop crlf s) as [|a [|b [|c r]]]; try (simpl in H3; lia).
    cbn [starts app drop] in Hs, Hl. rewrite !andb_true_iff in Hs, Hl.
    destruct Hs as (_ & _ & Hc), Hl as (_ & Hc' & _). apply andb_true_iff in Hc as [Hc _].
    apply Ascii.eqb_eq in Hc as <-. done.
  - rewrite (position_app _ _ t _ E2). destruct (position [LF; LF] (s ++ t)) as [lf|] eqn:E3; [|done].
    pose proof (position_new _ _ _ _ E1 E3) as Hn. pose proof (position_bound _ _ _ E2) as Hb. simpl in Hn, Hb.
    destruct (Nat.leb_spec lf crlf); [lia|done].
Qed.

(** * Draining *)

Lemma drain_events fuel p evs :
  drain fuel p evs = match drain fuel p [] with Ok (r, e) => Ok (r, (evs ++ e)%list) | Err x => Err x end.
Proof.
  revert p evs. induction fuel as [|fuel IH]; intros p evs; cbn [drain]; [by rewrite app_nil_r|].
  destruct (find_event_boundary p) as [[e d]|]; [|by rewrite app_nil_r].
  destruct (parse_frame (take e p)) as [ev|]; [|done]. rewrite IH. rewrite (IH _ ([] ++ _)%list).
  destruct (drain fuel _ []) as [[r es]|]; [|done]. by rewrite app_nil_l, (assoc_L (++)).
Qed.
Lemma drain_fuel fuel p evs : (length p ≤ fuel)%nat → drain fuel p evs = drain (length p) p evs.
Proof.
  assert (∀ n f g p evs, (length p ≤ n)%nat → (length p ≤ f)%nat → (length p ≤ g)%nat →
    drain f p evs = drain g p evs) as H.
  { clear. induction n as [|n IH]; intros f g p evs Hn Hf Hg.
    - destruct p; [|simpl in Hn; lia]. by destruct f, g.
    - destruct f as [|f], g as [|g]; cbn [drain]; try done.
      1,2: destruct p; [done|simpl in *; lia].
      destruct (find_event_boundary p) as [[e d]|] eqn:E; [|done]. apply boundary_bound in E.
      destruct (parse_frame (take e p)) as [ev|]; [|done].
      apply IH; rewrite !length_drop; lia. }
  intros Hf. by apply (H (length p)).
Qed.

Lemma drain_settled fuel p r e :
  (length p ≤ fuel)%nat → drain fuel p [] = Ok (r, e) →
  find_event_boundary r = None ∧ (length r ≤ length p)%nat.
Proof.
  revert p e. induction fuel as [|fuel IH]; intros p e Hf; cbn [drain].
  - destruct p; [|simpl in Hf; lia]. intros [= <- <-]. done.
  - destruct (find_event_boundary p) as [[e' d]|] eqn:E; [|intros [= <- <-]; done].
    destruct (parse_frame _) as [ev|]; [|done]. rewrite drain_events.
    destruct (drain fuel _ []) as [[r' es]|] eqn:Ed; [|done]. intros [= <- _].
    apply boundary_bound in E. apply IH in Ed as [? Hl]; rewrite !length_drop in *; [|lia]. split; [done|lia].
Qed.

(** * Streams *)

(** The loop of the adapters over the chunks of a response: the events handed on,
    and the bytes left over or the error that ends the response *)
Fixpoint deliver (pending : Bytes) (chunks : list Bytes) : list SseEvent * Result Bytes SseError :=
  match chunks with
  | [] => ([], Ok pending)
  | chunk :: rest =>
      match push pending chunk with
      | Err e => ([], Err e)
      | Ok (pending, events) => let '(more, r) := deliver pending rest in ((events ++ more)%list, r)
      end
  end.
Definition response (chunks : list Bytes) : list SseEvent * option SseError :=
  let '(events, r) := deliver [] chunks in
  match (let? pending := r in finish pending) with
  | Ok more => ((events ++ more)%list, None)
  | Err e => (events, Some e)
  end.

(** ** The frames of a stream *)

(** A blank line begins at [j]. *)
Definition break_at (s : Bytes) (j : nat) : Prop := [LF; LF] `prefix_of` drop j s ∨ [CR; LF; CR; LF] `prefix_of` drop j s.
Inductive split_frames : Bytes → list Bytes → Bytes → Prop :=
| split_end s : (∀ j, ¬ break_at s j) → split_frames s [] s
| split_next frame delimiter s frames rest :
    delimiter ∈ [[LF; LF]; [CR; LF; CR; LF]] → (∀ j, (j < length frame)%nat → ¬ break_at (frame ++ delimiter ++ s) j) →
    split_frames s frames rest → split_frames (frame ++ delimiter ++ s) (frame :: frames) rest.
(** The frames of a whole response: what is left after the last blank line is one. *)
Definition stream_frames (s : Bytes) (frames : list Bytes) : Prop :=
  ∃ cut rest, split_frames s cut rest ∧ frames = (cut ++ match rest with [] => [] | _ => [rest] end)%list.
(** The event of a frame: its last name and its lines of data, if there are any *)
Definition fields (name : string) (frame : Bytes) : list string :=
  omap (strip_prefix name) (lines (String.string_of_list_ascii frame)).
Definition frame_event (frame : Bytes) : option SseEvent :=
  match fields "data:" frame with
  | [] => None
  | values => Some (mkSseEvent (trim_start <$> last (fields "event:" frame)) (join (String LF "") (map trim_start values)))
  end.
Abbreviation frame_valid frame := (utf8_valid [] frame = true).

Lemma fold_lines ls ev data :
  foldl add_line (ev, data) ls =
  (match last (omap (strip_prefix "event:") ls) with Some name => Some (trim_start name) | None => ev end,
   (data ++ map trim_start (omap (strip_prefix "data:") ls))%list).
Proof.
  assert (∀ line, starts_with ":" line = true → strip_prefix "event:" line = None ∧ strip_prefix "data:" line = None) as Hc.
  { intros [|c line]; [done|]. intros [t [= -> ->]]%starts_with_spec. done. }
  assert (∀ line value, strip_prefix "event:" line = Some value → strip_prefix "data:" line = None) as He.
  { intros line value ->%strip_prefix_inv. done. }
  revert ev data. induction ls as [|line ls IH]; intros ev data; cbn [foldl]; [cbn; by rewrite app_nil_r|].
  unfold add_line at 2. cbn [omap list_omap]. destruct (starts_with ":" line) eqn:E1.
  { destruct (Hc line E1) as [-> ->]. apply IH. }
  destruct (strip_prefix "event:" line) as [name|] eqn:E2.
  { rewrite (He _ _ E2), IH. f_equal.
    rewrite last_cons. by destruct (last (omap (strip_prefix "event:") ls)). }
  destruct (strip_prefix "data:" line) as [value|]; rewrite IH; [|done]. cbn [map]. by rewrite <- (assoc_L (++)).
Qed.
Lemma parse_frame_event frame : parse_frame frame = if utf8_valid [] frame then Ok (frame_event frame) else Err InvalidUtf8.
Proof.
  unfold parse_frame. destruct (utf8_valid [] frame); [|done]. rewrite fold_lines. unfold frame_event, fields. cbn [app].
  destruct (omap (strip_prefix "data:") _) as [|value values]; done.
Qed.

(** ** Boundaries *)

Lemma starts_prefix pattern s : starts pattern s = true ↔ pattern `prefix_of` s.
Proof.
  revert s. induction pattern as [|p pattern IH]; intros [|c s]; cbn.
  - done.
  - split; [intros _; apply prefix_nil|done].
  - split; [done|]. by intros [t ?].
  - rewrite andb_true_iff, Ascii.eqb_eq, IH. split; [intros [-> H]; by apply prefix_cons|].
    intros H. split; [by apply prefix_cons_inv_1 in H|by apply prefix_cons_inv_2 in H].
Qed.
Lemma position_first pattern s i :
  position pattern s = Some i ↔
  pattern `prefix_of` drop i s ∧ (i ≤ length s)%nat ∧ ∀ j, (j < i)%nat → ¬ pattern `prefix_of` drop j s.
Proof.
  rewrite position_spec, starts_prefix. setoid_rewrite <- starts_prefix. setoid_rewrite not_true_iff_false. done.
Qed.
Lemma position_none pattern s : pattern ≠ [] → position pattern s = None ↔ ∀ j, ¬ pattern `prefix_of` drop j s.
Proof.
  intros Hp. split.
  - intros Hn j Hj. assert (∃ i, position pattern s = Some i) as [i Hi]; [|congruence]. clear Hn.
    revert s Hj. induction j as [|j IH]; intros s Hj; [|destruct s as [|c s]].
    + rewrite drop_0, <- starts_prefix in Hj. exists O. destruct s; cbn [position]; by rewrite Hj.
    + rewrite drop_nil in Hj. by apply prefix_nil_inv in Hj.
    + cbn [position]. destruct (starts pattern (c :: s)); [by eexists|]. destruct (IH s Hj) as [i ->]. by eexists.
  - intros H. destruct (position pattern s) as [i|] eqn:E; [|done]. apply position_first in E as [Hi _]. by apply H in Hi.
Qed.
Lemma boundary_none s : find_event_boundary s = None ↔ ∀ j, ¬ break_at s j.
Proof.
  unfold find_event_boundary, break_at. destruct (position [LF; LF] s) as [lf|] eqn:E1.
  { apply position_first in E1 as [H1 _]. split; [destruct (position _ s); [by destruct (Nat.leb _ _)|done]|]. naive_solver. }
  destruct (position [CR; LF; CR; LF] s) as [crlf|] eqn:E2.
  { apply position_first in E2 as [H2 _]. naive_solver. }
  rewrite position_none in E1, E2 by done. naive_solver.
Qed.
Lemma boundary_some s e d :
  find_event_boundary s = Some (e, d) →
  ∃ delimiter, delimiter ∈ [[LF; LF]; [CR; LF; CR; LF]] ∧ length delimiter = d ∧ length (take e s) = e ∧
    s = (take e s ++ delimiter ++ drop d (drop e s))%list ∧ ∀ j, (j < e)%nat → ¬ break_at s j.
Proof.
  intros H. assert (∀ i pattern, pattern `prefix_of` drop i s → (i ≤ length s)%nat →
    length (take i s) = i ∧ s = (take i s ++ pattern ++ drop (length pattern) (drop i s))%list) as Hcut.
  { intros i pattern [t Ht] Hi. rewrite Ht, drop_app_length, <- Ht, take_drop, length_take. split; [lia|done]. }
  assert (∀ pattern i, pattern ∈ [[LF; LF]; [CR; LF; CR; LF]] → position pattern s = Some i →
    (∀ j other, (j < i)%nat → other ∈ [[LF; LF]; [CR; LF; CR; LF]] → other ≠ pattern → ¬ other `prefix_of` drop j s) →
    ∃ delimiter, delimiter ∈ [[LF; LF]; [CR; LF; CR; LF]] ∧ length delimiter = length pattern ∧ length (take i s) = i ∧
    s = (take i s ++ delimiter ++ drop (length pattern) (drop i s))%list ∧ ∀ j, (j < i)%nat → ¬ break_at s j) as Hgoal.
  { intros pattern i Hin (Hp & Hi & Hj)%position_first Hother. destruct (Hcut i pattern Hp Hi) as [H1 H2].
    exists pattern. split_and!; [done..|]. intros j Hlt Hb.
    assert (∃ other, other ∈ [[LF; LF]; [CR; LF; CR; LF]] ∧ other `prefix_of` drop j s) as (other & Ho1 & Ho2).
    { destruct Hb as [Hb|Hb]; eexists; (split; [|exact Hb]); [by left|right; by left]. }
    destruct (decide (other = pattern)) as [->|Hne]; [by apply (Hj j)|by apply (Hother j other)]. }
  assert (∀ other pattern, other ∈ [[LF; LF]; [CR; LF; CR; LF]] → other ≠ pattern →
    pattern = [LF; LF] ∧ other = [CR; LF; CR; LF] ∨ pattern = [CR; LF; CR; LF] ∧ other = [LF; LF] ∨ pattern ∉ [[LF; LF]; [CR; LF; CR; LF]]) as Hpair.
  { intros other pattern Ho Hne. destruct (decide (pattern ∈ [[LF; LF]; [CR; LF; CR; LF]])) as [Hp|]; [|by right; right].
    rewrite !elem_of_cons, !elem_of_nil in Ho, Hp. naive_solver. }
  unfold find_event_boundary in H. destruct (position [LF; LF] s) as [lf|] eqn:E1;
    destruct (position [CR; LF; CR; LF] s) as [crlf|] eqn:E2; [destruct (Nat.leb_spec lf crlf) as [Hle|Hle]|..]; simplify_eq.
  - apply (Hgoal [LF; LF]); [by left|done|]. intros j other Hj Ho Hne. apply position_first in E2 as (_ & _ & E2).
    destruct (Hpair _ _ Ho Hne) as [[_ ->]|[[? _]|[]]]; [apply E2; lia|done|by left].
  - apply (Hgoal [CR; LF; CR; LF]); [right; by left|done|]. intros j other Hj Ho Hne. apply position_first in E1 as (_ & _ & E1).
    destruct (Hpair _ _ Ho Hne) as [[? _]|[[_ ->]|[]]]; [done|apply E1; lia|right; by left].
  - apply (Hgoal [LF; LF]); [by left|done|]. intros j other Hj Ho Hne. rewrite position_none in E2 by done.
    destruct (Hpair _ _ Ho Hne) as [[_ ->]|[[? _]|[]]]; [apply E2|done|by left].
  - apply (Hgoal [CR; LF; CR; LF]); [right; by left|done|]. intros j other Hj Ho Hne. rewrite position_none in E1 by done.
    destruct (Hpair _ _ Ho Hne) as [[? _]|[[_ ->]|[]]]; [done|apply E1|right; by left].
Qed.
Lemma boundary_intro frame delimiter s :
  delimiter ∈ [[LF; LF]; [CR; LF; CR; LF]] → (∀ j, (j < length frame)%nat → ¬ break_at (frame ++ delimiter ++ s) j) →
  find_event_boundary (frame ++ delimiter ++ s) = Some (length frame, length delimiter).
Proof.
  intros Hd Hj. set (t := (frame ++ delimiter ++ s)%list) in *. unfold break_at in Hj.
  assert (drop (length frame) t = delimiter ++ s)%list as Ht by apply drop_app_length.
  assert (length frame ≤ length t)%nat as Hl by (unfold t; rewrite length_app; lia).
  unfold find_event_boundary. rewrite !elem_of_cons, elem_of_nil in Hd. destruct Hd as [->|[->|[]]].
  - assert (position [LF; LF] t = Some (length frame)) as ->.
    { apply position_first. rewrite Ht. split_and!; [by eexists|done|naive_solver]. }
    destruct (position [CR; LF; CR; LF] t) as [c|] eqn:Ec; [|done]. apply position_first in Ec as (Hc & _).
    destruct (Nat.leb_spec (length frame) c); [done|naive_solver].
  - assert (position [CR; LF; CR; LF] t = Some (length frame)) as ->.
    { apply position_first. rewrite Ht. split_and!; [by eexists|done|naive_solver]. }
    destruct (position [LF; LF] t) as [l|] eqn:El; [|done]. apply position_first in El as (Hlf & _).
    destruct (Nat.leb_spec l (length frame)) as [Hle|]; [|done].
    destruct (decide (l = length frame)) as [->|]; [rewrite Ht in Hlf; by apply prefix_cons_inv_1 in Hlf|].
    destruct (Hj l); [lia|by left].
Qed.

Lemma split_step s e d :
  find_event_boundary s = Some (e, d) →
  ∀ frames rest, split_frames (drop d (drop e s)) frames rest → split_frames s (take e s :: frames) rest.
Proof.
  intros (delimiter & Hd & Hld & Hle & Hs & Hj)%boundary_some frames rest H. rewrite Hs at 1.
  apply split_next; [done| |done]. rewrite <- Hs, Hle. done.
Qed.
Lemma split_exists s : ∃ frames rest, split_frames s frames rest.
Proof.
  remember (length s) as n eqn:Hn. revert s Hn. induction n as [n IH] using lt_wf_ind. intros s ->.
  destruct (find_event_boundary s) as [[e d]|] eqn:E.
  - pose proof (boundary_bound _ _ _ E). destruct (IH (length (drop d (drop e s)))) with (s := drop d (drop e s))
      as (frames & rest & H'); [rewrite !length_drop; lia|done|]. eexists _, _. by apply (split_step _ _ _ E).
  - exists [], s. apply split_end. by apply boundary_none.
Qed.
Lemma split_unique s frames rest frames' rest' :
  split_frames s frames rest → split_frames s frames' rest' → frames' = frames ∧ rest' = rest.
Proof.
  intros H. revert frames' rest'. induction H as [s Hs|frame delimiter s frames rest Hd Hj _ IH]; intros frames' rest' H'.
  - inversion H' as [|f d t fs r Hd Hj Ht E]; subst; [done|]. exfalso. apply (Hs (length f)). unfold break_at.
    rewrite drop_app_length. rewrite !elem_of_cons, elem_of_nil in Hd. destruct Hd as [->|[->|[]]]; [left|right]; by eexists.
  - pose proof (boundary_intro _ _ _ Hd Hj) as E1. remember (frame ++ delimiter ++ s)%list as whole eqn:Ew.
    destruct H' as [w Hw|f d t fs r Hd' Hj' Ht].
    + rewrite (proj2 (boundary_none _) Hw) in E1. done.
    + rewrite (boundary_intro _ _ _ Hd' Hj') in E1. injection E1 as El1 El2.
      apply app_inj_1 in Ew as [-> Ew]; [|done]. apply app_inj_1 in Ew as [-> ->]; [|done].
      destruct (IH _ _ Ht) as [-> ->]. done.
Qed.
(** What arrives later does not change the frames that are cut. *)
Lemma split_app s frames rest t frames' rest' :
  split_frames s frames rest → split_frames (rest ++ t) frames' rest' → split_frames (s ++ t) (frames ++ frames') rest'.
Proof.
  intros H H'. induction H as [s _|frame delimiter s frames rest Hd Hj _ IH]; [done|].
  pose proof (boundary_app _ t _ _ (boundary_intro _ _ _ Hd Hj)) as E. specialize (IH H').
  rewrite <- !(assoc_L (++)) in *. pose proof (split_step _ _ _ E) as Hs.
  rewrite drop_app_length, drop_app_length, take_app_length in Hs. exact (Hs _ _ IH).
Qed.

(** ** What is delivered *)

Lemma drain_frames p frames rest :
  split_frames p frames rest →
  match drain (length p) p [] with
  | Ok (r, e) => Forall (λ f, frame_valid f) frames ∧ r = rest ∧ e = omap frame_event frames
  | Err e => e = InvalidUtf8 ∧ ¬ Forall (λ f, frame_valid f) frames
  end.
Proof.
  induction 1 as [s Hs|frame delimiter s frames rest Hd Hj _ IH].
  { rewrite <- boundary_none in Hs. destruct (length s); cbn [drain]; [|rewrite Hs]; by split_and!. }
  set (whole := (frame ++ delimiter ++ s)%list). pose proof (boundary_intro _ _ _ Hd Hj) as E. fold whole in E.
  pose proof (boundary_bound _ _ _ E) as [Hb Hd2]. destruct (length whole) as [|n] eqn:Hn; [lia|]. cbn [drain]. rewrite E.
  assert (take (length frame) whole = frame) as -> by apply take_app_length.
  assert (drop (length delimiter) (drop (length frame) whole) = s) as -> by (unfold whole; by rewrite !drop_app_length).
  rewrite parse_frame_event. destruct (utf8_valid [] frame) eqn:Hv.
  2: { split; [done|]. rewrite Forall_cons. intros [? _]. congruence. }
  rewrite drain_events. rewrite (drain_fuel n s) by (unfold whole in Hn; rewrite !length_app in Hn; lia).
  destruct (drain (length s) s []) as [[r e]|e]; [|rewrite Forall_cons; naive_solver].
  destruct IH as (H1 & -> & ->). split_and!; [by constructor|done|]. cbn [omap list_omap]. by destruct (frame_event frame).
Qed.
Lemma push_frames pending bytes frames rest :
  split_frames (pending ++ bytes) frames rest →
  match push pending bytes with
  | Ok (r, e) => Forall (λ f, frame_valid f) frames ∧ r = rest ∧ e = omap frame_event frames
  | Err InvalidUtf8 => ¬ Forall (λ f, frame_valid f) frames
  | Err FrameTooLarge => MAX_PENDING_SSE_BYTES < Z.of_nat (length (pending ++ bytes))
  end.
Proof.
  intros H%drain_frames. unfold push. rewrite length_app. destruct (Z.ltb_spec MAX_PENDING_SSE_BYTES
    (Z.of_nat (length pending) + Z.of_nat (length bytes))); [lia|]. rewrite <- length_app.
  destruct (drain _ _ []) as [[r e]|e]; [done|]. by destruct H as [-> H].
Qed.
Lemma split_shorter s frames rest : split_frames s frames rest → (length rest ≤ length s)%nat.
Proof. induction 1 as [|f d s fs r _ _ _ IH]; [done|]. rewrite !length_app. lia. Qed.
Lemma deliver_frames pending chunks frames rest :
  (∀ j, ¬ break_at pending j) → split_frames (pending ++ concat chunks) frames rest →
  ∃ before after, frames = (before ++ after)%list ∧ Forall (λ f, frame_valid f) before ∧
    (deliver pending chunks).1 = omap frame_event before ∧
    match (deliver pending chunks).2 with
    | Ok p => after = [] ∧ p = rest
    | Err InvalidUtf8 => ¬ Forall (λ f, frame_valid f) after
    | Err FrameTooLarge => MAX_PENDING_SSE_BYTES < Z.of_nat (length (pending ++ concat chunks))
    end.
Proof.
  revert pending frames rest. induction chunks as [|c chunks IH]; intros p frames rest Hp H; cbn [concat deliver] in *.
  { rewrite app_nil_r in H. destruct (split_unique _ _ _ _ _ (split_end _ Hp) H) as [-> ->].
    exists [], []. by split_and!. }
  destruct (split_exists (p ++ c)) as (cut & left_ & Hcut). destruct (split_exists (left_ ++ concat chunks)) as (cut' & left' & Hcut').
  pose proof (split_app _ _ _ _ _ _ Hcut Hcut') as Hall. rewrite <- (assoc_L (++)) in Hall.
  destruct (split_unique _ _ _ _ _ H Hall) as [<- <-]. pose proof (push_frames _ _ _ _ Hcut) as Hpush.
  assert (length left_ ≤ length (p ++ c))%nat as Hl by by eapply split_shorter.
  destruct (push p c) as [[r e]|[]].
  - destruct Hpush as (Hv & -> & ->). assert (∀ j, ¬ break_at left_ j) as Hleft by (clear -Hcut; by induction Hcut).
    destruct (IH left_ cut' left' Hleft Hcut') as (before & after & -> & Hb & He & Hr).
    destruct (deliver left_ chunks) as [more res]. cbn [fst snd] in *. exists (cut ++ before)%list, after.
    rewrite <- (assoc_L (++)), omap_app, He. split_and!; [done|by apply Forall_app|done|].
    destruct res as [|[]]; [done| |done]. rewrite !length_app in *. lia.
  - exists [], (cut ++ cut')%list. split_and!; [done..|]. cbn [snd]. rewrite !length_app in *. lia.
  - exists [], (cut ++ cut')%list. split_and!; [done..|]. cbn [snd]. rewrite Forall_app. naive_solver.
Qed.

(** C33: the bytes of a response decide its events, however they are chunked.
    The bytes are cut, in one way only, at blank lines into frames, and what is
    left at the end is a frame.  The response ends without an error when all of
    them are valid UTF-8, and then exactly their events were delivered, in order:
    the last event name and the lines of data of each frame that has data.
    Otherwise the events delivered are those of a first part of the frames, all of
    them valid, and a later frame is not valid, or the bytes exceed the 8 MiB of
    the buffer.  How long that first part is does depend on the chunks: the events
    that share a chunk with an invalid frame are lost. *)
Theorem stream_decoded chunks :
  ∃ frames before after, stream_frames (concat chunks) frames ∧
    (∀ frames', stream_frames (concat chunks) frames' → frames' = frames) ∧
    frames = (before ++ after)%list ∧ Forall (λ f, frame_valid f) before ∧
    (response chunks).1 = omap frame_event before ∧
    match (response chunks).2 with
    | None => after = []
    | Some InvalidUtf8 => ¬ Forall (λ f, frame_valid f) after
    | Some FrameTooLarge => MAX_PENDING_SSE_BYTES < Z.of_nat (length (concat chunks))
    end.
Proof.
  destruct (split_exists (concat chunks)) as (cut & rest & Hcut).
  destruct (deliver_frames [] chunks cut rest) as (before & after & -> & Hb & He & Hr); [|done|].
  { intros j. unfold break_at. rewrite drop_nil. intros [H|H]; by apply prefix_nil_inv in H. }
  assert (∀ frames', stream_frames (concat chunks) frames' →
    frames' = ((before ++ after) ++ match rest with [] => [] | _ => [rest] end)%list) as Hunique.
  { intros frames' (cut' & rest' & Hcut' & ->). by destruct (split_unique _ _ _ _ _ Hcut Hcut') as [-> ->]. }
  unfold response. destruct (deliver [] chunks) as [events res]. cbn [fst snd] in He, Hr. subst events.
  set (last_ := match rest with [] => [] | _ => [rest] end) in *.
  exists ((before ++ after) ++ last_)%list.
  assert (stream_frames (concat chunks) ((before ++ after) ++ last_)) as Hs by by exists (before ++ after)%list, rest.
  destruct res as [p|e].
  - destruct Hr as [-> ->]. unfold finish. rewrite !app_nil_r in *.
    destruct rest as [|c rest]; [exists before, []; cbn; by rewrite !app_nil_r in *|].
    rewrite parse_frame_event. destruct (utf8_valid [] (c :: rest)) eqn:Ev.
    + exists (before ++ [c :: rest])%list, []. rewrite app_nil_r, omap_app. split_and!; [done..|by apply Forall_app; repeat constructor| |].
      * cbn [omap list_omap]. by destruct (frame_event (c :: rest)).
      * by destruct (frame_event (c :: rest)).
    + exists before, [c :: rest]. split_and!; [done..|]. cbn. rewrite Forall_cons. intros [? _]. congruence.
  - exists before, (after ++ last_)%list. rewrite <- (assoc_L (++)) in *. split_and!; [done..|]. cbn [snd].
    destruct e; [done|]. rewrite Forall_app. naive_solver.
Qed.

(** The buffer is bounded whatever arrives. *)
Theorem pending_bounded pending bytes p e :
  push pending bytes = Ok (p, e) →
  find_event_boundary p = None ∧ Z.of_nat (length p) ≤ MAX_PENDING_SSE_BYTES.
Proof.
  unfold push. destruct (Z.ltb_spec MAX_PENDING_SSE_BYTES
    (Z.of_nat (length pending) + Z.of_nat (length bytes))); [done|].
  intros [Hb Hl]%drain_settled; [|done]. split; [done|]. rewrite length_app in Hl. lia.
Qed.

(** * Witnesses *)

Definition sample_chunks : list Bytes :=
  map String.list_ascii_of_string
    ["event: content"; String CR (String LF "data: {1"); String CR "";
     String LF (String CR (String LF "data: x")); String LF ""; String LF "da"].

(** The events, and the same with an invalid frame in the last chunk or in the
    only one *)
Example sample_response :
  response sample_chunks =
    ([mkSseEvent (Some "content"%string) "{1"; mkSseEvent None "x"], None) ∧
  (let bad := [byte 255; LF; LF] in
   response (sample_chunks ++ [LF :: LF :: bad]) =
     ([mkSseEvent (Some "content"%string) "{1"; mkSseEvent None "x"], Some InvalidUtf8) ∧
   response [concat sample_chunks ++ LF :: LF :: bad]%list = ([], Some InvalidUtf8)).
Proof. vm_compute. repeat split. Qed.
