(* ===== verification/Decimal.v ===== *)
(** Decimal text of unsigned integers: [u64::to_string], [str::parse] of the
    unsigned types, and the zero-padded forms of [format!], with their round
    trips.  The pricing, accounting and timestamp components share them. *)
From S2P Require Import Prelude Text.
From Stdlib Require Import Ascii.

Definition digit (d : Z) : ascii := ascii_of_nat (48 + Z.to_nat d).
Definition digit_value (c : ascii) : option Z :=
  let n := Z.of_nat (nat_of_ascii c) in
  if (48 <=? n) && (n <=? 57) then Some (n - 48) else None.

(** [u64::to_string]: twenty digits are enough for [2 ^ 64 - 1]. *)
Fixpoint dec_loop (fuel : nat) (n : Z) (acc : string) : string :=
  match fuel with
  | O => acc
  | S fuel' =>
      let acc' := String (digit (n mod 10)) acc in
      if n / 10 =? 0 then acc' else dec_loop fuel' (n / 10) acc'
  end.
Definition DEC_FUEL : nat := 20.
Definition dec (n : Z) : string := dec_loop DEC_FUEL n "".

(** [str::parse] of an unsigned type with the given maximum: an optional plus
    sign, then digits; every step is checked. *)
Fixpoint parse_digits (max acc : Z) (s : string) : option Z :=
  match s with
  | EmptyString => Some acc
  | String c s' =>
      match digit_value c with
      | None => None
      | Some d => if acc * 10 + d <=? max then parse_digits max (acc * 10 + d) s' else None
      end
  end.
Definition parse_uint (max : Z) (s : string) : option Z :=
  match s with
  | EmptyString => None
  | String c s' =>
      if Ascii.eqb c "+"%char then
        match s' with EmptyString => None | _ => parse_digits max 0 s' end
      else parse_digits max 0 s
  end.

(** [{n:0w}] *)
Fixpoint zeros (k : nat) : string := match k with O => ""%string | S k' => String (digit 0) (zeros k') end.
Definition pad (w : nat) (n : Z) : string := (zeros (w - String.length (dec n)) ++ dec n)%string.

(** The digits of the fields of a fixed width *)
Fixpoint digits (w : nat) (n : Z) : string :=
  match w with
  | O => ""%string
  | S w' => (String (digit ((n / 10 ^ Z.of_nat w') mod 10)) (digits w' n))
  end.

(** * Digits *)

(** A digit is one of the ten. *)
Lemma digit_cases (P : Z → Prop) d :
  0 ≤ d ≤ 9 → P 0 → P 1 → P 2 → P 3 → P 4 → P 5 → P 6 → P 7 → P 8 → P 9 → P d.
Proof.
  intros Hd. intros. destruct (Z.eq_dec d 0) as [->|]; [done|]. destruct (Z.eq_dec d 1) as [->|]; [done|].
  destruct (Z.eq_dec d 2) as [->|]; [done|]. destruct (Z.eq_dec d 3) as [->|]; [done|].
  destruct (Z.eq_dec d 4) as [->|]; [done|]. destruct (Z.eq_dec d 5) as [->|]; [done|].
  destruct (Z.eq_dec d 6) as [->|]; [done|]. destruct (Z.eq_dec d 7) as [->|]; [done|].
  destruct (Z.eq_dec d 8) as [->|]; [done|]. by replace d with 9 by lia.
Qed.
Lemma mod10_digit n : 0 ≤ n mod 10 ≤ 9.
Proof. pose proof (Z.mod_pos_bound n 10). lia. Qed.
Lemma digit_value_digit d : 0 ≤ d ≤ 9 → digit_value (digit d) = Some d.
Proof. intros Hd. by apply (digit_cases (λ d, digit_value (digit d) = Some d)). Qed.
Lemma digit_not_plus d : 0 ≤ d ≤ 9 → Ascii.eqb (digit d) "+"%char = false.
Proof. intros Hd. by apply (digit_cases (λ d, Ascii.eqb (digit d) "+"%char = false)). Qed.

Lemma pow10_succ (k : nat) : 10 ^ Z.of_nat (S k) = 10 * 10 ^ Z.of_nat k.
Proof. rewrite Nat2Z.inj_succ, Z.pow_succ_r by lia. done. Qed.
Lemma pow10_pos (k : nat) : 0 < 10 ^ Z.of_nat k.
Proof. apply Z.pow_pos_nonneg; lia. Qed.

Lemma length_digits w n : String.length (digits w n) = w.
Proof. induction w; simpl; auto. Qed.
Lemma digits_snoc k n :
  digits (S k) n = (digits k (n / 10) ++ String (digit (n mod 10)) "")%string.
Proof.
  induction k as [|k IH].
  - simpl. by rewrite Z.div_1_r.
  - cbn [digits]. cbn [digits] in IH. rewrite IH. cbn [String.append]. f_equal. f_equal.
    rewrite pow10_succ, <- Z.div_div by (pose proof (pow10_pos k); lia). done.
Qed.
Lemma digits_mod w n : digits w (n mod 10 ^ Z.of_nat w) = digits w n.
Proof.
  assert (∀ k x m, (w ≤ k)%nat → digits w (x + m * 10 ^ Z.of_nat k) = digits w x) as H.
  { clear. induction w as [|w IH]; intros k x m Hk; [done|]. cbn [digits]. rewrite IH by lia. f_equal. f_equal.
    replace k with (S (k - S w) + w)%nat by lia.
    pose proof (pow10_pos w). rewrite Nat2Z.inj_add, Z.pow_add_r, Z.mul_assoc, Z.div_add, pow10_succ by lia.
    set (q := 10 ^ Z.of_nat (k - S w)). replace (m * (10 * q)) with (m * q * 10) by lia.
    by rewrite Z.mod_add by lia. }
  pose proof (pow10_pos w). rewrite <- (H w (n mod _) (n / 10 ^ Z.of_nat w)) by done. f_equal.
  pose proof (Z.div_mod n (10 ^ Z.of_nat w)). lia.
Qed.
Lemma digits_zeros w k n :
  0 ≤ n < 10 ^ Z.of_nat k → (k ≤ w)%nat → digits w n = (zeros (w - k) ++ digits k n)%string.
Proof.
  intros Hn. induction w as [|w IH]; intros Hk; [by replace k with 0%nat by lia|].
  destruct (Nat.eq_dec k (S w)) as [->|Hne]; [by rewrite Nat.sub_diag|].
  replace (S w - k)%nat with (S (w - k))%nat by lia. cbn [zeros digits String.append].
  rewrite IH by lia. f_equal. f_equal. rewrite Z.div_small; [done|].
  pose proof (Z.pow_le_mono_r 10 (Z.of_nat k) (Z.of_nat w)). lia.
Qed.

(** * Printing *)

Lemma dec_loop_spec fuel n acc :
  0 ≤ n < 10 ^ Z.of_nat (S fuel) →
  ∃ k, (k ≤ fuel)%nat ∧ 0 ≤ n < 10 ^ Z.of_nat (S k) ∧ (k ≠ 0%nat → 10 ^ Z.of_nat k ≤ n) ∧
    dec_loop (S fuel) n acc = (digits (S k) n ++ acc)%string.
Proof.
  revert n acc. induction fuel as [|fuel IH]; intros n acc Hn; cbn [dec_loop].
  - exists 0%nat. split_and!; [lia|lia|lia|done|].
    rewrite Z.div_small by (change (10 ^ Z.of_nat 1) with 10 in Hn; lia). simpl. by rewrite Z.div_1_r.
  - destruct (Z.eqb_spec (n / 10) 0) as [E|E].
    + exists 0%nat. assert (n < 10) by (apply Z.div_small_iff in E; lia).
      split_and!; [lia|lia|done|done|]. simpl. by rewrite Z.div_1_r.
    + rewrite pow10_succ in Hn.
      assert (0 ≤ n / 10 < 10 ^ Z.of_nat (S fuel)) as Hn'.
      { split; [apply Z.div_pos; lia|]. apply Z.div_lt_upper_bound; lia. }
      destruct (IH (n / 10) (String (digit (n mod 10)) acc) Hn') as (k & Hk & Hb & Hlo & Heq).
      pose proof (Z.mod_pos_bound n 10). pose proof (Z.div_mod n 10). pose proof (pow10_succ (S k)).
      exists (S k). split_and!; [lia|lia|lia| |].
      * intros _. rewrite pow10_succ. destruct k as [|k]; [simpl Z.of_nat; lia|].
        specialize (Hlo ltac:(done)). lia.
      * cbn [dec_loop] in Heq. rewrite Heq, (digits_snoc (S k)), str_app_assoc. done.
Qed.
Lemma dec_digits n :
  0 ≤ n < 10 ^ Z.of_nat DEC_FUEL →
  ∃ k, (k < DEC_FUEL)%nat ∧ 0 ≤ n < 10 ^ Z.of_nat (S k) ∧ (k ≠ 0%nat → 10 ^ Z.of_nat k ≤ n) ∧
    dec n = digits (S k) n.
Proof.
  intros Hn. destruct (dec_loop_spec 19 n "" Hn) as (k & Hk & Hb & Hlo & E).
  exists k. split_and!; [unfold DEC_FUEL; lia|lia|lia|done|]. unfold dec, DEC_FUEL.
  by rewrite E, str_app_nil_r.
Qed.
Lemma pad_digits w n :
  0 ≤ n < 10 ^ Z.of_nat w → (1 ≤ w ≤ DEC_FUEL)%nat → pad w n = digits w n.
Proof.
  intros Hn Hw. pose proof (Z.pow_le_mono_r 10 (Z.of_nat w) (Z.of_nat DEC_FUEL)).
  destruct (dec_digits n) as (k & Hk & Hb & Hlo & E); [lia|].
  unfold pad. rewrite E, length_digits. symmetry. apply digits_zeros; [done|].
  destruct (Nat.le_gt_cases (S k) w) as [|Hgt]; [done|].
  specialize (Hlo ltac:(lia)). pose proof (Z.pow_le_mono_r 10 (Z.of_nat w) (Z.of_nat k)). lia.
Qed.

(** * Parsing what was printed *)

Lemma parse_digits_digits max k n acc :
  0 ≤ acc → 0 ≤ n → acc * 10 ^ Z.of_nat k + n mod 10 ^ Z.of_nat k ≤ max →
  parse_digits max acc (digits k n) = Some (acc * 10 ^ Z.of_nat k + n mod 10 ^ Z.of_nat k).
Proof.
  intros Ha Hn. revert acc Ha. induction k as [|k IH]; intros acc Ha Hmax; cbn [digits parse_digits].
  - rewrite Z.mod_1_r. simpl. f_equal. lia.
  - rewrite digit_value_digit by apply mod10_digit. pose proof (pow10_pos k).
    rewrite pow10_succ, (Z.mul_comm 10 (10 ^ _)), Z.rem_mul_r in * by lia.
    set (d := (n / 10 ^ Z.of_nat k) mod 10) in *. pose proof (mod10_digit (n / 10 ^ Z.of_nat k)).
    pose proof (Z.mod_pos_bound n (10 ^ Z.of_nat k)).
    destruct (Z.leb_spec (acc * 10 + d) max) as [|Hgt]; [|nia].
    rewrite IH by lia. f_equal. lia.
Qed.
Lemma parse_uint_digits max k n :
  0 ≤ n → n < 10 ^ Z.of_nat (S k) → n ≤ max → parse_uint max (digits (S k) n) = Some n.
Proof.
  intros Hn Hk Hmax. pose proof (parse_digits_digits max (S k) n 0) as H. rewrite Z.mod_small in H by lia.
  cbn [digits parse_uint]. rewrite digit_not_plus by apply mod10_digit.
  change (String _ _) with (digits (S k) n). rewrite H by lia. f_equal.
Qed.
Lemma parse_uint_dec max n : 0 ≤ n ≤ max → n < 10 ^ Z.of_nat DEC_FUEL → parse_uint max (dec n) = Some n.
Proof.
  intros Hn Hlt. destruct (dec_digits n) as (k & Hk & Hb & Hlo & ->); [lia|].
  apply parse_uint_digits; lia.
Qed.
Lemma parse_u64_dec n : u64 n → parse_uint u64_max (dec n) = Some n.
Proof.
  intros Hn. apply parse_uint_dec; [done|]. unfold u64, u64_max in Hn.
  change (10 ^ Z.of_nat DEC_FUEL) with 100000000000000000000. lia.
Qed.

(** What parses is in range. *)
Lemma digit_value_range c d : digit_value c = Some d → 0 ≤ d ≤ 9.
Proof.
  unfold digit_value. destruct (Z.leb_spec 48 (Z.of_nat (nat_of_ascii c))), (Z.leb_spec (Z.of_nat (nat_of_ascii c)) 57);
    try done. intros [= <-]. lia.
Qed.
Lemma parse_digits_range max acc s n :
  parse_digits max acc s = Some n → 0 ≤ acc ≤ max → 0 ≤ n ≤ max.
Proof.
  revert acc. induction s as [|c s IH]; intros acc; cbn [parse_digits]; [by intros [= ->]|].
  destruct (digit_value c) as [d|] eqn:E; [|done]. apply digit_value_range in E.
  destruct (Z.leb_spec (acc * 10 + d) max); [|done]. intros H' Hacc. apply (IH _ H'). lia.
Qed.
Lemma parse_uint_range max s n : 0 ≤ max → parse_uint max s = Some n → 0 ≤ n ≤ max.
Proof.
  intros Hmax. destruct s as [|c s]; cbn [parse_uint]; [done|].
  destruct (Ascii.eqb c "+"); [destruct s as [|c' s']; [done|]|]; intros H'; eapply parse_digits_range; eauto; lia.
Qed.
