(* ===== verification/Timestamp.v ===== *)
(** UTC timestamps ([rw-store/src/session/accounting.rs]): the calendar of
    [civil_from_days], the normalised text of an instant, its validation, and
    the time keys under which the provider budget orders receipts
    ([time_key] of [reservations/projection.rs]). *)
From S2P Require Import Prelude Text Decimal.
From Stdlib Require Import Ascii.

(** [SessionStoreError::InvalidAccountingTimestamp] *)
Inductive TimestampError : Type := InvalidAccountingTimestamp.
Definition invalid {A} : Result A TimestampError := Err InvalidAccountingTimestamp.

Definition i64_max : Z := 2 ^ 63 - 1.
Definition u32_max : Z := 2 ^ 32 - 1.

(** * The calendar *)

Definition civil_of_era (era day_of_era : Z) : Z * Z * Z :=
  let year_of_era :=
    Z.quot (day_of_era - Z.quot day_of_era 1460 + Z.quot day_of_era 36524 - Z.quot day_of_era 146096) 365 in
  let year := year_of_era + era * 400 in
  let day_of_year := day_of_era - (365 * year_of_era + Z.quot year_of_era 4 - Z.quot year_of_era 100) in
  let month_prime := Z.quot (5 * day_of_year + 2) 153 in
  let day := day_of_year - Z.quot (153 * month_prime + 2) 5 + 1 in
  let month := month_prime + (if month_prime <? 10 then 3 else -9) in
  (year + (if month <=? 2 then 1 else 0), month, day).
Definition civil_from_days (days_since_epoch : Z) : Z * Z * Z :=
  let shifted := Z.min (days_since_epoch + 719468) i64_max in
  let era := Z.quot (if 0 <=? shifted then shifted else shifted - 146096) 146097 in
  civil_of_era era (shifted - era * 146097).

Definition leap_year (year : Z) : bool :=
  (year mod 4 =? 0) && (negb (year mod 100 =? 0) || (year mod 400 =? 0)).
(** [None] for a month outside 1 to 12 *)
Definition days_in_month (year month : Z) : option Z :=
  if existsb (Z.eqb month) [1; 3; 5; 7; 8; 10; 12] then Some 31
  else if existsb (Z.eqb month) [4; 6; 9; 11] then Some 30
  else if month =? 2 then Some (if leap_year year then 29 else 28)
  else None.

(** * The text of an instant *)

Definition is_ascii_digit (c : ascii) : bool := is_some (digit_value c).
(** Every byte outside the given positions is a digit. *)
Definition digits_except (skip : list nat) (s : string) : bool :=
  forallb (λ p, existsb (Nat.eqb (fst p)) skip || is_ascii_digit (snd p))
    (imap pair (String.list_ascii_of_string s)).
Definition byte_is (s : string) (i : nat) (c : ascii) : bool :=
  match String.get i s with Some b => Ascii.eqb b c | None => false end.
(** [value[a..a+n].parse::<u32>()] *)
Definition field (s : string) (a n : nat) : Result Z TimestampError :=
  ok_or (parse_uint u32_max (String.substring a n s)) InvalidAccountingTimestamp.

Definition validate_utc_day (value : string) : Result unit TimestampError :=
  if negb (Nat.eqb (String.length value) 10 && byte_is value 4 "-" && byte_is value 7 "-" &&
           digits_except [4; 7]%nat value)
  then invalid
  else
    let? year := field value 0 4 in
    let? month := field value 5 2 in
    let? day := field value 8 2 in
    match days_in_month year month with
    | None => invalid
    | Some n => if (year =? 0) || negb ((1 <=? day) && (day <=? n)) then invalid else Ok tt
    end.

Definition validate_utc_timestamp (value : string) : Result unit TimestampError :=
  if negb (Nat.eqb (String.length value) 24 && byte_is value 4 "-" && byte_is value 7 "-" &&
           byte_is value 10 "T" && byte_is value 13 ":" && byte_is value 16 ":" &&
           byte_is value 19 "." && byte_is value 23 "Z" &&
           digits_except [4; 7; 10; 13; 16; 19; 23]%nat value)
  then invalid
  else
    let? _ := validate_utc_day (String.substring 0 10 value) in
    let? hour := field value 11 2 in
    let? minute := field value 14 2 in
    let? second := field value 17 2 in
    let? millis := field value 20 3 in
    if (23 <? hour) || (59 <? minute) || (59 <? second) || (999 <? millis) then invalid else Ok tt.

(** [UtcTimestamp::parse] *)
Definition parse (value : string) : Result string TimestampError :=
  let? _ := validate_utc_timestamp value in Ok value.

(** [UtcTimestamp::utc_day] *)
Definition utc_day (timestamp : string) : string := String.substring 0 10 timestamp.

(** The argument of [format!] *)
Definition format_timestamp (year month day hour minute second millis : Z) : string :=
  (pad 4 year ++ "-" ++ pad 2 month ++ "-" ++ pad 2 day ++ "T" ++ pad 2 hour ++ ":" ++
   pad 2 minute ++ ":" ++ pad 2 second ++ "." ++ pad 3 millis ++ "Z")%string.

Definition from_unix_millis (unix_millis : Z) : Result string TimestampError :=
  let seconds := unix_millis / 1000 in
  let millis := unix_millis mod 1000 in
  let days := seconds / 86400 in
  if i64_max <? days then invalid
  else
    let second_of_day := seconds mod 86400 in
    let '(year, month, day) := civil_from_days days in
    if negb ((1 <=? year) && (year <=? 9999)) then invalid
    else
      let hour := second_of_day / 3600 in
      let minute := (second_of_day mod 3600) / 60 in
      let second := second_of_day mod 60 in
      parse (format_timestamp year month day hour minute second millis).

(** * Time keys *)

Fixpoint time_key_from (key : Z) (s : string) : Z :=
  match s with
  | EmptyString => key
  | String c s' =>
      match digit_value c with Some d => time_key_from (key * 10 + d) s' | None => time_key_from key s' end
  end.
Definition time_key (timestamp : string) : Z := time_key_from 0 timestamp.

(** * The reference calendar: one day after another *)

Definition next_day (date : Z * Z * Z) : Z * Z * Z :=
  let '(year, month, day) := date in
  match days_in_month year month with
  | Some n => if day <? n then (year, month, day + 1)
              else if month <? 12 then (year, month + 1, 1) else (year + 1, 1, 1)
  | None => date
  end.

(** ** Within an era of 400 years

    Years start in March, so that a leap day is the last day of its year.  The
    year of a day is monotone in the day, hence fixed by the first and the last
    day of every year; the days of a year by a table of 366 entries. *)

Definition year_of_era (doe : Z) : Z :=
  Z.quot (doe - Z.quot doe 1460 + Z.quot doe 36524 - Z.quot doe 146096) 365.
Definition month_day (y doy : Z) : Z * Z * Z :=
  let month_prime := Z.quot (5 * doy + 2) 153 in
  let month := month_prime + (if month_prime <? 10 then 3 else -9) in
  (y + (if month <=? 2 then 1 else 0), month, doy - Z.quot (153 * month_prime + 2) 5 + 1).
Definition year_start (y : Z) : Z := if y =? 400 then 146097 else 365 * y + y / 4 - y / 100.
Definition year_length (y : Z) : Z := if leap_year (y + 1) then 366 else 365.

Lemma civil_of_era_month_day era doe y :
  year_of_era doe = y → 0 ≤ y < 400 → civil_of_era era doe = month_day (y + era * 400) (doe - year_start y).
Proof.
  intros <- Hy. unfold civil_of_era, year_start. fold (year_of_era doe).
  destruct (Z.eqb_spec (year_of_era doe) 400); [lia|]. rewrite !(Z.quot_div_nonneg (year_of_era doe)) by lia. done.
Qed.

Lemma year_of_era_div doe :
  0 ≤ doe → year_of_era doe = (doe - doe / 1460 + doe / 36524 - doe / 146096) / 365.
Proof.
  intros Hd. unfold year_of_era. rewrite !(Z.quot_div_nonneg doe) by lia. apply Z.quot_div_nonneg; [|lia].
  Z.to_euclidean_division_equations. lia.
Qed.
Lemma year_of_era_step doe : 0 ≤ doe → year_of_era doe ≤ year_of_era (doe + 1).
Proof.
  intros Hd. rewrite !year_of_era_div by lia. apply Z.div_le_mono; [lia|].
  Z.to_euclidean_division_equations. lia.
Qed.
Lemma year_of_era_mono a b : 0 ≤ a ≤ b → year_of_era a ≤ year_of_era b.
Proof.
  intros [Ha Hab]. replace b with (a + Z.of_nat (Z.to_nat (b - a))) by lia.
  induction (Z.to_nat (b - a)) as [|n IH]; [by rewrite Z.add_0_r|].
  rewrite Nat2Z.inj_succ, <- Z.add_1_r, Z.add_assoc.
  pose proof (year_of_era_step (a + Z.of_nat n)). lia.
Qed.

Definition year_ok (y : Z) : bool :=
  (year_of_era (year_start y) =? y) && (year_of_era (year_start (y + 1) - 1) =? y) &&
  (year_start (y + 1) =? year_start y + year_length y).
Lemma years_ok : forallb year_ok (map Z.of_nat (seq 0 400)) = true.
Proof. vm_compute. done. Qed.
Lemma year_ok_range y : 0 ≤ y < 400 → year_ok y = true.
Proof.
  intros Hy. pose proof years_ok as H. rewrite forallb_forall in H. apply H.
  apply in_map_iff. exists (Z.to_nat y). split; [lia|]. apply in_seq. lia.
Qed.
Lemma year_start_next y : 0 ≤ y < 400 → year_start (y + 1) = year_start y + year_length y.
Proof. intros Hy. pose proof (year_ok_range y Hy) as H. unfold year_ok in H. lia. Qed.
Lemma year_of_era_in y doe :
  0 ≤ y < 400 → year_start y ≤ doe < year_start (y + 1) → 0 ≤ doe → year_of_era doe = y.
Proof.
  intros Hy Hd H0. pose proof (year_ok_range y Hy) as H. unfold year_ok in H.
  assert (0 ≤ year_start y). { unfold year_start. destruct (y =? 400); [lia|]. Z.to_euclidean_division_equations. lia. }
  pose proof (year_of_era_mono (year_start y) doe). pose proof (year_of_era_mono doe (year_start (y + 1) - 1)). lia.
Qed.
(** Every day of the era is in a year. *)
Lemma year_exists doe : 0 ≤ doe < 146097 → ∃ y, 0 ≤ y < 400 ∧ year_start y ≤ doe < year_start (y + 1).
Proof.
  intros Hd. assert (∀ n : nat, (n ≤ 400)%nat → doe < year_start (Z.of_nat n) →
    ∃ y, 0 ≤ y < 400 ∧ year_start y ≤ doe < year_start (y + 1)) as H.
  { induction n as [|n IH]; intros Hn Hlt; [by change (year_start (Z.of_nat 0)) with 0 in Hlt; lia|].
    destruct (Z.lt_ge_cases doe (year_start (Z.of_nat n))); [apply IH; [lia|done]|].
    exists (Z.of_nat n). replace (Z.of_nat n + 1) with (Z.of_nat (S n)) by lia. lia. }
  apply (H 400%nat); [lia|]. change (year_start (Z.of_nat 400)) with 146097. lia.
Qed.

(** ** The days of a year *)

Definition next_day_leap (leap : bool) (date : Z * Z * Z) : Z * Z * Z :=
  let '(year, month, day) := date in
  match days_in_month (if leap then 4 else 1) month with
  | Some n => if day <? n then (year, month, day + 1)
              else if month <? 12 then (year, month + 1, 1) else (year + 1, 1, 1)
  | None => date
  end.
Definition shift_year (k : Z) (date : Z * Z * Z) : Z * Z * Z :=
  let '(year, month, day) := date in (year + k, month, day).

Lemma next_day_by_leap y m d : next_day (y, m, d) = next_day_leap (leap_year y) (y, m, d).
Proof.
  unfold next_day, next_day_leap, days_in_month.
  destruct (existsb (Z.eqb m) _); [done|]. destruct (existsb (Z.eqb m) _); [done|].
  destruct (m =? 2); [|done]. by destruct (leap_year y).
Qed.
Lemma next_day_leap_shift l k date : next_day_leap l (shift_year k date) = shift_year k (next_day_leap l date).
Proof.
  destruct date as [[y m] d]. unfold shift_year, next_day_leap. destruct (days_in_month _ m); [|done].
  destruct (d <? z); [done|]. destruct (m <? 12); [done|]. f_equal. f_equal. lia.
Qed.
Lemma month_day_shift y k doy : month_day (y + k) doy = shift_year k (month_day y doy).
Proof. unfold month_day, shift_year. f_equal. f_equal. lia. Qed.

(** A date before March is in the next calendar year. *)
Definition date_eqb (a b : Z * Z * Z) : bool :=
  let '(y, m, d) := a in let '(y', m', d') := b in (y =? y') && (m =? m') && (d =? d').
Definition year_days_ok (leap : bool) (doy : Z) : bool :=
  let last := if leap then 365 else 364 in
  let next := if doy =? last then month_day 1 0 else month_day 0 (doy + 1) in
  if last <? doy then true
  else date_eqb (next_day_leap leap (month_day 0 doy)) next &&
       (let '(y, m, d) := month_day 0 doy in if m <=? 2 then y =? 1 else
        (y =? 0) && date_eqb (next_day_leap (negb leap) (month_day 0 doy)) next).
Lemma year_days_table :
  forallb (λ doy, year_days_ok true doy && year_days_ok false doy) (map Z.of_nat (seq 0 366)) = true.
Proof. vm_compute. done. Qed.
Lemma date_eqb_eq a b : date_eqb a b = true → a = b.
Proof.
  destruct a as [[y m] d], b as [[y' m'] d']. unfold date_eqb. rewrite !andb_true_iff, !Z.eqb_eq.
  intros [[-> ->] ->]. done.
Qed.
Lemma year_days leap doy : 0 ≤ doy < 366 → year_days_ok leap doy = true.
Proof.
  intros Hd. pose proof year_days_table as H. rewrite forallb_forall in H.
  assert (In doy (map Z.of_nat (seq 0 366))) as Hin.
  { apply in_map_iff. exists (Z.to_nat doy). split; [lia|]. apply in_seq. lia. }
  apply H, andb_true_iff in Hin as [? ?]. by destruct leap.
Qed.

Lemma month_day_next y doy :
  0 ≤ doy < year_length y →
  next_day (month_day y doy) =
  if doy =? year_length y - 1 then month_day (y + 1) 0 else month_day y (doy + 1).
Proof.
  intros Hd. remember (leap_year (y + 1)) as leap eqn:Hleap.
  assert (year_length y = if leap then 366 else 365) as El by (unfold year_length; by rewrite <- Hleap).
  assert (0 ≤ doy < 366) as Hd' by (destruct leap; lia).
  pose proof (year_days leap doy Hd') as Ht. unfold year_days_ok in Ht.
  replace (if leap then 365 else 364) with (year_length y - 1) in Ht by (destruct leap; lia).
  destruct (Z.ltb_spec (year_length y - 1) doy) as [|_]; [lia|].
  apply andb_true_iff in Ht as [H1 H2]. apply date_eqb_eq in H1.
  assert (∀ l, next_day_leap l (month_day 0 doy) =
     (if doy =? year_length y - 1 then month_day 1 0 else month_day 0 (doy + 1)) →
     next_day_leap l (month_day y doy) =
     if doy =? year_length y - 1 then month_day (y + 1) 0 else month_day y (doy + 1)) as Hgen.
  { intros l Hl. replace (month_day y doy) with (month_day (0 + y) doy) by (f_equal; lia).
    rewrite month_day_shift, next_day_leap_shift, Hl.
    destruct (doy =? year_length y - 1); rewrite <- month_day_shift; f_equal; lia. }
  pose proof (month_day_shift 0 y doy) as Hs. rewrite Z.add_0_l in Hs.
  destruct (month_day 0 doy) as [[y0 m] d] eqn:E. cbn [shift_year] in Hs.
  rewrite Hs. rewrite Hs in Hgen. rewrite next_day_by_leap.
  destruct (m <=? 2); cbn [andb] in H2.
  - apply Z.eqb_eq in H2 as ->. rewrite (Z.add_comm 1 y) in *. rewrite <- Hleap. by apply Hgen.
  - apply andb_true_iff in H2 as [_ H2]. apply date_eqb_eq in H2.
    destruct (Bool.bool_dec (leap_year (y0 + y)) leap) as [->|Hne]; [by apply Hgen|].
    replace (leap_year (y0 + y)) with (negb leap) by (destruct leap, (leap_year (y0 + y)); done). by apply Hgen.
Qed.

Lemma year_length_period y era : year_length (y + era * 400) = year_length y.
Proof.
  unfold year_length, leap_year. replace (y + era * 400 + 1) with (y + 1 + era * 400) by lia.
  assert (∀ d k, d ≠ 0 → 400 = k * d → (y + 1 + era * 400) mod d = (y + 1) mod d) as H.
  { intros d k Hd E. rewrite E, Z.mul_assoc. by apply Z.mod_add. }
  by rewrite (H 4 100), (H 100 4), (H 400 1).
Qed.

Lemma civil_split n :
  0 ≤ n → n + 719468 ≤ i64_max →
  civil_from_days n = civil_of_era ((n + 719468) / 146097) ((n + 719468) mod 146097).
Proof.
  intros Hn Hmax. unfold civil_from_days. rewrite Z.min_l by done.
  destruct (Z.leb_spec 0 (n + 719468)); [|lia]. rewrite Z.quot_div_nonneg by lia.
  f_equal. pose proof (Z.div_mod (n + 719468) 146097). lia.
Qed.

(** One day later, across years and eras *)
Lemma civil_of_era_next era doe :
  0 ≤ doe < 146097 →
  next_day (civil_of_era era doe) =
  if doe =? 146096 then civil_of_era (era + 1) 0 else civil_of_era era (doe + 1).
Proof.
  intros Hd. destruct (year_exists doe Hd) as (y & Hy & Hin). pose proof (year_start_next y Hy) as Hnext.
  rewrite (civil_of_era_month_day era doe y) by first [done | apply year_of_era_in; lia].
  rewrite month_day_next; rewrite year_length_period; [|lia].
  destruct (Z.eqb_spec (doe - year_start y) (year_length y - 1)) as [E|E].
  - destruct (Z.eq_dec y 399) as [->|Hne].
    + change (year_start (399 + 1)) with 146097 in *. destruct (Z.eqb_spec doe 146096); [|lia].
      rewrite (civil_of_era_month_day (era + 1) 0 0) by (done || lia).
      change (0 - year_start 0) with 0. f_equal. lia.
    + pose proof (year_start_next (y + 1) ltac:(lia)).
      assert (0 < year_length (y + 1)) by (unfold year_length; case_match; lia).
      assert (doe ≠ 146096).
      { intros ->. pose proof (year_of_era_in y 146096 Hy Hin). change (year_of_era 146096) with 399 in *. lia. }
      destruct (Z.eqb_spec doe 146096); [lia|].
      rewrite (civil_of_era_month_day era (doe + 1) (y + 1)) by first [lia | apply year_of_era_in; lia].
      f_equal; lia.
  - destruct (Z.eqb_spec doe 146096) as [->|].
    { pose proof (year_of_era_in y 146096 Hy Hin). change (year_of_era 146096) with 399 in *.
      assert (y = 399) as -> by lia. change (year_start 399) with 145731 in E.
      change (year_length 399) with 366 in E. lia. }
    rewrite (civil_of_era_month_day era (doe + 1) y) by first [lia | apply year_of_era_in; lia]. f_equal; lia.
Qed.
Lemma civil_next n :
  0 ≤ n → n + 719469 ≤ i64_max → civil_from_days (n + 1) = next_day (civil_from_days n).
Proof.
  intros Hn Hmax. rewrite !civil_split by lia.
  set (s := n + 719468). replace (n + 1 + 719468) with (s + 1) by lia.
  pose proof (Z.mod_pos_bound s 146097) as Hb. rewrite civil_of_era_next by lia.
  pose proof (Z.div_mod s 146097).
  destruct (Z.eqb_spec (s mod 146097) 146096) as [E|E].
  - assert (s + 1 = (s / 146097 + 1) * 146097 + 0) as Es by lia.
    rewrite <- (Z.div_unique (s + 1) 146097 (s / 146097 + 1) 0), <- (Z.mod_unique (s + 1) 146097 (s / 146097 + 1) 0)
      by lia. done.
  - rewrite <- (Z.div_unique (s + 1) 146097 (s / 146097) (s mod 146097 + 1)),
      <- (Z.mod_unique (s + 1) 146097 (s / 146097) (s mod 146097 + 1)) by lia. done.
Qed.

(** The calendar is right: the date of the [n]-th day after the epoch is
    the date reached from 1970-01-01 by [n] single steps of the Gregorian
    calendar, for every day that a 64-bit millisecond clock can name. *)
Theorem civil_from_days_calendar n :
  Z.of_nat n ≤ u64_max / 86400000 →
  civil_from_days (Z.of_nat n) = Nat.iter n next_day (1970, 1, 1).
Proof.
  intros Hn. assert (u64_max / 86400000 + 719469 ≤ i64_max) by (vm_compute; discriminate).
  induction n as [|n IH]; [done|].
  change (Nat.iter (S n) next_day (1970, 1, 1)) with (next_day (Nat.iter n next_day (1970, 1, 1))).
  rewrite <- IH by lia.
  rewrite <- civil_next by lia. f_equal. lia.
Qed.

(** ** Order of dates *)

Definition valid_date (date : Z * Z * Z) : Prop :=
  let '(year, month, day) := date in
  1970 ≤ year ∧ 1 ≤ month ≤ 12 ∧ 1 ≤ day ≤ 31 ∧ ∃ n, days_in_month year month = Some n ∧ day ≤ n.
(** The date as a number, most significant field first *)
Definition ymd (date : Z * Z * Z) : Z := let '(year, month, day) := date in year * 10000 + month * 100 + day.

Lemma days_in_month_some y m : 1 ≤ m ≤ 12 → ∃ n, days_in_month y m = Some n ∧ 28 ≤ n ≤ 31.
Proof.
  intros Hm. unfold days_in_month. destruct (existsb (Z.eqb m) [1; 3; 5; 7; 8; 10; 12]) eqn:E1; [eauto with lia|].
  destruct (existsb (Z.eqb m) [4; 6; 9; 11]) eqn:E2; [eauto with lia|].
  cbn [existsb] in *. destruct (Z.eqb_spec m 2); [|lia].
  destruct (leap_year y); eauto with lia.
Qed.
Lemma next_day_valid date : valid_date date → valid_date (next_day date) ∧ ymd date < ymd (next_day date).
Proof.
  destruct date as [[y m] d]. intros (Hy & Hm & Hd & n & En & Hn). unfold next_day. rewrite En.
  destruct (days_in_month_some y m Hm) as (n' & En' & Hb). assert (n' = n) as -> by congruence.
  destruct (Z.ltb_spec d n); [|destruct (Z.ltb_spec m 12)].
  - split; [|simpl; lia]. split_and!; [lia..|]. exists n. split; [done|lia].
  - destruct (days_in_month_some y (m + 1) ltac:(lia)) as (k & Ek & Hk).
    split; [|simpl; lia]. split_and!; [lia..|]. exists k. split; [done|lia].
  - destruct (days_in_month_some (y + 1) 1 ltac:(lia)) as (k & Ek & Hk).
    split; [|simpl; lia]. split_and!; [lia..|]. exists k. split; [done|lia].
Qed.
Lemma civil_valid n : 0 ≤ n ≤ u64_max / 86400000 → valid_date (civil_from_days n).
Proof.
  assert (u64_max / 86400000 + 719469 ≤ i64_max) as Hb by (vm_compute; discriminate).
  intros Hn. rewrite <- (Z2Nat.id n) in * by lia. induction (Z.to_nat n) as [|k IH].
  - vm_compute. split_and!; try discriminate. by exists 31.
  - rewrite Nat2Z.inj_succ, <- Z.add_1_r, civil_next in * by lia. apply next_day_valid, IH. lia.
Qed.
Lemma ymd_mono a b : 0 ≤ a < b → b ≤ u64_max / 86400000 → ymd (civil_from_days a) < ymd (civil_from_days b).
Proof.
  assert (u64_max / 86400000 + 719469 ≤ i64_max) as Hb by (vm_compute; discriminate).
  intros Hab Hmax. replace b with (a + Z.of_nat (S (Z.to_nat (b - a - 1)))) by lia.
  assert (Z.of_nat (S (Z.to_nat (b - a - 1))) ≤ b - a) as Hk by lia. revert Hk.
  induction (Z.to_nat (b - a - 1)) as [|k IH]; intros Hk.
  - change (Z.of_nat 1) with 1. rewrite civil_next by lia. apply next_day_valid, civil_valid. lia.
  - rewrite Nat2Z.inj_succ, <- Z.add_1_r, Z.add_assoc, civil_next by lia.
    etrans; [apply IH; lia|]. apply next_day_valid, civil_valid. lia.
Qed.

(** ** The text and its key *)

Definition valid_time (hour minute second millis : Z) : Prop :=
  0 ≤ hour ≤ 23 ∧ 0 ≤ minute ≤ 59 ∧ 0 ≤ second ≤ 59 ∧ 0 ≤ millis ≤ 999.
Definition text (year month day hour minute second millis : Z) : string :=
  (digits 4 year ++ "-" ++ digits 2 month ++ "-" ++ digits 2 day ++ "T" ++ digits 2 hour ++ ":" ++
   digits 2 minute ++ ":" ++ digits 2 second ++ "." ++ digits 3 millis ++ "Z")%string.
Definition hms (hour minute second millis : Z) : Z :=
  hour * 10000000 + minute * 100000 + second * 1000 + millis.

Section text.
Context (year month day hour minute second millis : Z).
Hypothesis Hdate : valid_date (year, month, day).
Hypothesis Hyear : year ≤ 9999.
Hypothesis Htime : valid_time hour minute second millis.

Lemma format_text :
  format_timestamp year month day hour minute second millis = text year month day hour minute second millis.
Proof.
  destruct Hdate as (? & ? & ? & _), Htime as (? & ? & ? & ?). unfold format_timestamp, text, DEC_FUEL.
  by rewrite !pad_digits by (unfold DEC_FUEL; lia).
Qed.

Lemma is_digit_digit n : is_ascii_digit (digit (n mod 10)) = true.
Proof. unfold is_ascii_digit. by rewrite digit_value_digit by apply mod10_digit. Qed.
Lemma field_digits s a n k x :
  String.substring a n s = digits (S k) x → 0 ≤ x < 10 ^ Z.of_nat (S k) → x ≤ u32_max →
  field s a n = Ok x.
Proof. intros E Hx Hmax. unfold field. rewrite E, parse_uint_digits by lia. done. Qed.

Let t := text year month day hour minute second millis.

Lemma text_day_valid : validate_utc_day (String.substring 0 10 t) = Ok tt.
Proof.
  destruct Hdate as (Hy & Hm & Hd & n & En & Hn). unfold validate_utc_day.
  assert (∀ x, x ≤ 9999 → x ≤ u32_max) as Hu by (unfold u32_max; lia).
  rewrite (field_digits _ 0 4 3 year), (field_digits _ 5 2 1 month), (field_digits _ 8 2 1 day)
    by (first [reflexivity | apply Hu; lia | simpl; lia]).
  assert (digits_except [4; 7]%nat (String.substring 0 10 t) = true) as ->.
  { unfold digits_except, t, text. lazy -[digit is_ascii_digit Z.modulo Z.div Z.pow]. by rewrite !is_digit_digit. }
  cbn -[Z.eqb Z.leb days_in_month]. rewrite En. replace (year =? 0) with false by lia.
  replace ((1 <=? day) && (day <=? n)) with true by lia. done.
Qed.
Lemma text_valid : validate_utc_timestamp t = Ok tt.
Proof.
  destruct Htime as (? & ? & ? & ?). unfold validate_utc_timestamp. rewrite text_day_valid.
  assert (∀ x, x ≤ 9999 → x ≤ u32_max) as Hu by (unfold u32_max; lia).
  rewrite (field_digits t 11 2 1 hour), (field_digits t 14 2 1 minute), (field_digits t 17 2 1 second),
    (field_digits t 20 3 2 millis) by (first [reflexivity | apply Hu; lia | simpl; lia]).
  assert (digits_except [4; 7; 10; 13; 16; 19; 23]%nat t = true) as ->.
  { unfold digits_except, t, text. lazy -[digit is_ascii_digit Z.modulo Z.div Z.pow]. by rewrite !is_digit_digit. }
  cbn -[Z.ltb]. replace ((23 <? hour) || (59 <? minute) || (59 <? second) || (999 <? millis)) with false by lia.
  done.
Qed.

Lemma time_key_digits key w n s :
  0 ≤ n → time_key_from key (digits w n ++ s) = time_key_from (key * 10 ^ Z.of_nat w + n mod 10 ^ Z.of_nat w) s.
Proof.
  intros Hn. revert key. induction w as [|w IH]; intros key.
  - change (digits 0 n ++ s)%string with s. rewrite Z.mod_1_r. f_equal. simpl. lia.
  - change (digits (S w) n ++ s)%string
      with (String (digit ((n / 10 ^ Z.of_nat w) mod 10)) (digits w n ++ s)%string).
    cbn [time_key_from]. rewrite digit_value_digit by apply mod10_digit. rewrite IH. f_equal.
    pose proof (pow10_pos w). rewrite pow10_succ, (Z.mul_comm 10 (10 ^ _)), Z.rem_mul_r by lia. lia.
Qed.
Lemma time_key_sep key c s :
  digit_value c = None → time_key_from key (String c "" ++ s) = time_key_from key s.
Proof.
  intros Hc. change (String c "" ++ s)%string with (String c s). cbn [time_key_from]. by rewrite Hc.
Qed.
Lemma text_key : time_key t = ymd (year, month, day) * 1000000000 + hms hour minute second millis.
Proof.
  destruct Hdate as (? & ? & ? & _), Htime as (? & ? & ? & ?). unfold time_key, t, text.
  repeat first [rewrite time_key_digits by lia | rewrite time_key_sep by done].
  rewrite !Z.mod_small by (simpl; lia). unfold ymd, hms. simpl. lia.
Qed.
Lemma text_key_range : 0 < time_key t < 2 ^ 57.
Proof.
  rewrite text_key. destruct Hdate as (? & ? & ? & _), Htime as (? & ? & ? & ?). unfold ymd, hms. lia.
Qed.
End text.

(** ** The key of any valid text *)

Fixpoint digit_count (s : string) : nat :=
  match s with
  | EmptyString => 0
  | String c s' => (if is_ascii_digit c then 1 else 0) + digit_count s'
  end.
Lemma time_key_from_bound s k :
  0 ≤ k → 0 ≤ time_key_from k s < (k + 1) * 10 ^ Z.of_nat (digit_count s).
Proof.
  revert k. induction s as [|c s IH]; intros k Hk; cbn [time_key_from digit_count]; [simpl; lia|].
  unfold is_ascii_digit. destruct (digit_value c) as [d|] eqn:E; cbn [is_some].
  - apply digit_value_range in E. specialize (IH (k * 10 + d) ltac:(lia)).
    cbn [Nat.add]. rewrite pow10_succ. pose proof (pow10_pos (digit_count s)). nia.
  - apply IH. done.
Qed.
Lemma time_key_nonneg s : 0 ≤ time_key s.
Proof. apply time_key_from_bound. done. Qed.

Lemma byte_is_spec s i c : byte_is s i c = true → String.get i s = Some c.
Proof. unfold byte_is. destruct (String.get i s); [|done]. by intros ->%Ascii.eqb_eq. Qed.
Lemma count_separator c s n :
  is_ascii_digit c = false → (digit_count s ≤ n)%nat → (digit_count (String c s) ≤ n)%nat.
Proof. intros Hc Hn. cbn [digit_count]. by rewrite Hc. Qed.
Lemma count_any c s n : (digit_count s ≤ n)%nat → (digit_count (String c s) ≤ S n)%nat.
Proof. intros Hn. cbn [digit_count]. destruct (is_ascii_digit c); lia. Qed.
Lemma valid_timestamp_count s : validate_utc_timestamp s = Ok tt → (digit_count s ≤ 17)%nat.
Proof.
  unfold validate_utc_timestamp. destruct (negb _) eqn:E; [done|]. intros _.
  apply negb_false_iff in E. rewrite !andb_true_iff in E.
  destruct E as [[[[[[[[El H4] H7] H10] H13] H16] H19] H23] _].
  do 24 (destruct s as [|? s]; [done|]). destruct s; [|done].
  apply byte_is_spec in H4, H7, H10, H13, H16, H19, H23. cbn [String.get] in *. simplify_eq.
  repeat first [apply count_separator; [reflexivity|] | apply count_any]. done.
Qed.
Lemma valid_timestamp_key s : validate_utc_timestamp s = Ok tt → 0 ≤ time_key s < 2 ^ 57.
Proof.
  intros Hv%valid_timestamp_count. pose proof (time_key_from_bound s 0 ltac:(lia)) as [? Hlt].
  split; [done|]. eapply Z.lt_trans; [exact Hlt|]. rewrite Z.add_0_l, Z.mul_1_l.
  pose proof (Z.pow_le_mono_r 10 (Z.of_nat (digit_count s)) 17). lia.
Qed.

(** ** Instants *)

(** The fields of the time of day *)
Definition time_of_day (a : Z) : Z :=
  let sod := (a / 1000) mod 86400 in hms (sod / 3600) ((sod mod 3600) / 60) (sod mod 60) (a mod 1000).
(** The first instant of the year 10000 *)
Definition YEAR_LIMIT : Z := 253402300800000.

Lemma days_of_millis a : a / 1000 / 86400 = a / 86400000.
Proof. by rewrite Z.div_div by lia. Qed.
Lemma sod_split a :
  let sod := (a / 1000) mod 86400 in
  valid_time (sod / 3600) ((sod mod 3600) / 60) (sod mod 60) (a mod 1000) ∧
  a = a / 86400000 * 86400000 +
      (((sod / 3600) * 60 + (sod mod 3600) / 60) * 60 + sod mod 60) * 1000 + a mod 1000.
Proof.
  cbv zeta. rewrite <- days_of_millis. set (x := a / 1000). pose proof (Z.div_mod a 1000 ltac:(lia)).
  pose proof (Z.mod_pos_bound a 1000 ltac:(lia)). fold x in H.
  pose proof (Z.div_mod x 86400 ltac:(lia)). pose proof (Z.mod_pos_bound x 86400 ltac:(lia)).
  set (sod := x mod 86400) in *. pose proof (Z.div_mod sod 3600 ltac:(lia)).
  pose proof (Z.mod_pos_bound sod 3600 ltac:(lia)).
  pose proof (Z.div_mod (sod mod 3600) 60 ltac:(lia)). pose proof (Z.mod_pos_bound (sod mod 3600) 60 ltac:(lia)).
  assert ((sod mod 3600) mod 60 = sod mod 60) as Em.
  { apply Z.mod_unique with (q := sod / 3600 * 60 + (sod mod 3600) / 60); lia. }
  rewrite Em in *. unfold valid_time. lia.
Qed.
Lemma time_of_day_range a : 0 ≤ time_of_day a < 1000000000.
Proof. destruct (sod_split a) as [(? & ? & ? & ?) _]. unfold time_of_day, hms. lia. Qed.
Lemma time_of_day_mono a b : a / 86400000 = b / 86400000 → a < b → time_of_day a < time_of_day b.
Proof.
  intros E Hab. destruct (sod_split a) as [(? & ? & ? & ?) Ha], (sod_split b) as [(? & ? & ? & ?) Hb].
  unfold time_of_day, hms. lia.
Qed.

Lemma year_of_ymd date : valid_date date → fst (fst date) = ymd date / 10000.
Proof.
  destruct date as [[y m] d]. intros (? & ? & ? & _). apply Z.div_unique with (r := m * 100 + d); simpl; lia.
Qed.
Lemma civil_year n :
  0 ≤ n ≤ u64_max / 86400000 → (fst (fst (civil_from_days n)) <=? 9999) = (n <? 2932897).
Proof.
  intros Hn. rewrite year_of_ymd by (by apply civil_valid).
  change 2932897 with (2932896 + 1). assert (2932897 ≤ u64_max / 86400000) by (vm_compute; discriminate).
  assert (ymd (civil_from_days 2932896) = 99991231) as E1 by (vm_compute; done).
  assert (ymd (civil_from_days 2932897) = 100000101) as E2 by (vm_compute; done).
  destruct (Z.ltb_spec n (2932896 + 1)) as [Hlt|Hge].
  - assert (ymd (civil_from_days n) ≤ 99991231).
    { destruct (Z.eq_dec n 2932896) as [->|]; [lia|]. pose proof (ymd_mono n 2932896). lia. }
    apply Z.leb_le. apply Z.lt_succ_r, Z.div_lt_upper_bound; lia.
  - assert (100000101 ≤ ymd (civil_from_days n)).
    { destruct (Z.eq_dec n 2932897) as [->|]; [lia|]. pose proof (ymd_mono 2932897 n). lia. }
    apply Z.leb_gt. apply Z.lt_le_trans with 10000; [lia|]. apply Z.div_le_lower_bound; lia.
Qed.

(** What [from_unix_millis] returns, on every instant of the clock *)
Lemma from_unix_millis_spec a :
  u64 a →
  if a <? YEAR_LIMIT
  then ∃ s, from_unix_millis a = Ok s ∧ validate_utc_timestamp s = Ok tt ∧
       time_key s = ymd (civil_from_days (a / 86400000)) * 1000000000 + time_of_day a ∧
       0 < time_key s < 2 ^ 57
  else from_unix_millis a = Err InvalidAccountingTimestamp.
Proof.
  intros [Ha Hmax]. unfold from_unix_millis. rewrite days_of_millis. set (n := a / 86400000).
  assert (0 ≤ n ≤ u64_max / 86400000) as Hn.
  { split; [apply Z.div_pos; lia|]. apply Z.div_le_mono; lia. }
  assert (u64_max / 86400000 ≤ i64_max) by (vm_compute; discriminate).
  destruct (Z.ltb_spec i64_max n); [lia|].
  pose proof (civil_year n Hn) as Hyear. pose proof (civil_valid n Hn) as Hdate.
  replace (a <? YEAR_LIMIT) with (n <? 2932897).
  2: { unfold YEAR_LIMIT. pose proof (Z.div_mod a 86400000 ltac:(lia)).
       pose proof (Z.mod_pos_bound a 86400000 ltac:(lia)). fold n in H0. lia. }
  rewrite <- Hyear. destruct (civil_from_days n) as [[y m] d] eqn:E. cbn [fst] in *.
  destruct (Z.leb_spec y 9999) as [Hy|]; [|by rewrite andb_false_r].
  replace (1 <=? y) with true by (destruct Hdate; lia). cbn [andb negb].
  destruct (sod_split a) as [Htime _]. cbv zeta in Htime. rewrite format_text by done.
  unfold parse. rewrite text_valid by done. eexists. split; [done|]. split; [by apply text_valid|].
  split; [by apply text_key|by apply text_key_range].
Qed.

(** Time keys carry the order of instants and the UTC day: every instant
    of the clock before the year 10000 has a valid timestamp, its key is in
    the range of the budget index, keys are ordered as the instants are, and
    two keys agree in their leading eight digits exactly when the instants lie
    on the same UTC day. *)
Theorem timestamp_keys_ordered a b :
  0 ≤ a < YEAR_LIMIT → 0 ≤ b < YEAR_LIMIT →
  ∃ s t, from_unix_millis a = Ok s ∧ from_unix_millis b = Ok t ∧
    parse s = Ok s ∧ parse t = Ok t ∧
    0 < time_key s < 2 ^ 57 ∧
    (a < b ↔ time_key s < time_key t) ∧
    (a / 86400000 = b / 86400000 ↔ time_key s / 1000000000 = time_key t / 1000000000).
Proof.
  intros Ha Hb. assert (YEAR_LIMIT ≤ u64_max) by (vm_compute; discriminate).
  pose proof (from_unix_millis_spec a ltac:(unfold u64; lia)) as Sa.
  pose proof (from_unix_millis_spec b ltac:(unfold u64; lia)) as Sb.
  destruct (Z.ltb_spec a YEAR_LIMIT); [|lia]. destruct (Z.ltb_spec b YEAR_LIMIT); [|lia].
  destruct Sa as (s & Es & Vs & Ks & Rs), Sb as (t & Et & Vt & Kt & _).
  exists s, t. unfold parse. rewrite Vs, Vt. split_and!; try done; try apply Rs.
  all: rewrite Ks, Kt; pose proof (time_of_day_range a); pose proof (time_of_day_range b).
  all: assert (YEAR_LIMIT / 86400000 ≤ u64_max / 86400000) by (vm_compute; discriminate).
  all: assert (a / 86400000 ≤ YEAR_LIMIT / 86400000) by (apply Z.div_le_mono; lia).
  all: assert (b / 86400000 ≤ YEAR_LIMIT / 86400000) by (apply Z.div_le_mono; lia).
  all: pose proof (Z.div_pos a 86400000); pose proof (Z.div_pos b 86400000).
  all: pose proof (ymd_mono (a / 86400000) (b / 86400000)); pose proof (ymd_mono (b / 86400000) (a / 86400000)).
  all: set (ka := ymd (civil_from_days (a / 86400000))) in *; set (kb := ymd (civil_from_days (b / 86400000))) in *.
  - assert (∀ x y, x < y → x / 86400000 ≤ y / 86400000) as Hdm by (intros; apply Z.div_le_mono; lia).
    assert (a / 86400000 = b / 86400000 → ka = kb) by (unfold ka, kb; congruence).
    pose proof (time_of_day_mono a b). pose proof (time_of_day_mono b a).
    pose proof (Hdm a b). pose proof (Hdm b a).
    destruct (Z.lt_total a b) as [|[->|]]; [|lia|]; lia.
  - rewrite !Z.div_add_l, !(Z.div_small (time_of_day _)) by lia. rewrite !Z.add_0_r.
    split; [intros E; unfold ka, kb; by rewrite E|]. intros E.
    destruct (Z.lt_total (a / 86400000) (b / 86400000)) as [|[|]]; lia.
Qed.

(** * Witnesses *)

Lemma civil_from_days_calendar_witness :
  Z.of_nat 790 ≤ u64_max / 86400000 ∧ civil_from_days (Z.of_nat 790) = Nat.iter 790 next_day (1970, 1, 1) ∧
  civil_from_days 789 = (1972, 2, 29) ∧ civil_from_days 790 = (1972, 3, 1).
Proof.
  split; [vm_compute; discriminate|]. split; [|vm_compute; done].
  apply civil_from_days_calendar. vm_compute; discriminate.
Defined.

Lemma timestamp_keys_ordered_witness :
  from_unix_millis 951782399999 = Ok "2000-02-28T23:59:59.999Z"%string ∧
  ∃ s t, from_unix_millis 951782399999 = Ok s ∧ from_unix_millis 951782400000 = Ok t ∧
    parse s = Ok s ∧ parse t = Ok t ∧ 0 < time_key s < 2 ^ 57 ∧
    (951782399999 < 951782400000 ↔ time_key s < time_key t) ∧
    (951782399999 / 86400000 = 951782400000 / 86400000 ↔
     time_key s / 1000000000 = time_key t / 1000000000).
Proof.
  split; [vm_compute; done|].
  apply (timestamp_keys_ordered 951782399999 951782400000); unfold YEAR_LIMIT; lia.
Defined.
