(* ===== verification/BudgetSums.v ===== *)
(** The time-indexed sums of the provider budget
    ([rw-store/src/session/reservations/projection.rs]).

    Per scope a table holds one row per node: node 0 the pending amounts, the
    others a binary indexed tree over time keys, so that [through] reads the
    total up to a time without scanning the receipts.  Rows are the 80 bytes
    of five big-endian [u128]s.  The SQLite table is a map from its primary
    key; a failed operation leaves no trace, since its transaction is rolled
    back. *)
From Stdlib Require Import Ascii.
From S2P Require Import Prelude Text Timestamp.

(** The two scopes of [BudgetScope] that admission uses *)
Inductive BudgetScope : Type := SessionScope | DailyScope.
Inductive BudgetCharge : Type :=
| UsdMicros (n : Z) | AiCreditMicros (n : Z) | SubscriptionTokens (n : Z).

(** [BudgetReservationError]; storage and serialization failures carry no data
    that a decision reads. *)
Inductive Error : Type :=
| InvalidPlan (message : string)
| IdentityConflict
| CapExceeded (scope : BudgetScope) (requested : BudgetCharge) (used reserved cap : Z)
| Capacity
| StoreError
| UnresolvedCharge
| Arithmetic.

(** [BudgetCharge::amount] *)
Definition amount (c : BudgetCharge) : Z :=
  match c with UsdMicros n | AiCreditMicros n | SubscriptionTokens n => n end.

(** * Amounts *)

Definition UNKNOWN : nat := 3.
Definition ACTIVE : nat := 4.
Definition Amounts : Type := list Z.
Definition zero : Amounts := replicate 5 0.

Definition unit_index (c : BudgetCharge) : nat :=
  match c with UsdMicros _ => 0 | AiCreditMicros _ => 1 | SubscriptionTokens _ => 2 end.
Definition charge_amounts (c : BudgetCharge) : Amounts := <[unit_index c := amount c]> zero.

(** [Amounts::add] and [Amounts::subtract]: checked in every column *)
Fixpoint add_amounts (a b : Amounts) : option Amounts :=
  match a, b with
  | x :: a', y :: b' =>
      if x + y <=? u128_max then option_map (cons (x + y)) (add_amounts a' b') else None
  | _, _ => Some a
  end.
Fixpoint sub_amounts (a b : Amounts) : option Amounts :=
  match a, b with
  | x :: a', y :: b' => if y <=? x then option_map (cons (x - y)) (sub_amounts a' b') else None
  | _, _ => Some a
  end.
Definition add (a b : Amounts) : Result Amounts Error := ok_or (add_amounts a b) Arithmetic.
Definition subtract (a b : Amounts) : Result Amounts Error := ok_or (sub_amounts a b) Arithmetic.

(** [u128::to_be_bytes] and [u128::from_be_bytes] *)
Fixpoint be_bytes (k : nat) (x : Z) : list Z :=
  match k with O => [] | S k' => (x / 256 ^ Z.of_nat k') mod 256 :: be_bytes k' x end.
Definition from_be_bytes (l : list Z) : Z := foldl (λ acc b, acc * 256 + b) 0 l.

Definition encode (a : Amounts) : list Z := mjoin (map (be_bytes 16) a).
(** [chunks_exact(16)] of [5 * 16] bytes *)
Fixpoint chunks (k : nat) (l : list Z) : list (list Z) :=
  match k with O => [] | S k' => take 16 l :: chunks k' (drop 16 l) end.
Definition decode (bytes : list Z) : Result Amounts Error :=
  if Nat.eqb (length bytes) 80 then Ok (map from_be_bytes (chunks 5 bytes))
  else Err (InvalidPlan "invalid budget projection row").

(** * The table *)

Definition TIME_END : Z := Z.shiftl 1 57.
Definition ROOT_SCOPE : string := "".
Abbreviation Table := (gmap (string * Z) (list Z)).

Definition sql_node (node : Z) : Result Z Error :=
  if node <=? i64_max then Ok node else Err Arithmetic.

Definition read (t : Table) (scope : string) (node : Z) : Result Amounts Error :=
  let? n := sql_node node in
  match t !! (scope, n) with
  | None => Ok zero
  | Some bytes => decode (if Nat.eqb (length bytes) 80 then bytes else [])
  end.

Definition update (t : Table) (scope : string) (node : Z) (remove plus : Amounts) : Result Table Error :=
  let? current := read t scope node in
  let? rest := subtract current remove in
  let? next := add rest plus in
  let? n := sql_node node in
  if decide (next = zero) then Ok (delete (scope, n) t) else Ok (<[(scope, n) := encode next]> t).

Definition pending (t : Table) (scope : string) (remove plus : Amounts) : Result Table Error :=
  update t scope 0 remove plus.

(** [node & node.wrapping_neg()] and [node & (node - 1)] *)
Definition low_bit (node : Z) : Z := Z.land node ((- node) mod 2 ^ 64).
Definition drop_low_bit (node : Z) : Z := Z.land node (node - 1).

(** The loop of [dated]; [None] when the fuel runs out. *)
Fixpoint dated_loop (fuel : nat) (t : Table) (scope : string) (node : Z) (remove plus : Amounts)
    : option (Result Table Error) :=
  match fuel with
  | O => None
  | S fuel' =>
      if node <? TIME_END then
        match update t scope node remove plus with
        | Ok t' => dated_loop fuel' t' scope (node + low_bit node) remove plus
        | Err e => Some (Err e)
        end
      else Some (Ok t)
  end.
(** At most 57 nodes are visited, then the loop ends. *)
Definition DATED_FUEL : nat := 58.
Definition dated (t : Table) (scope : string) (key : Z) (remove plus : Amounts) : Result Table Error :=
  if (key =? 0) || (TIME_END <=? key)
  then Err (InvalidPlan "accounting time outside supported range")
  else default (Err Arithmetic) (dated_loop DATED_FUEL t scope key remove plus).

(** The loop of [through] *)
Fixpoint through_loop (fuel : nat) (t : Table) (scope : string) (node : Z) (total : Amounts)
    : option (Result Amounts Error) :=
  match fuel with
  | O => None
  | S fuel' =>
      if 0 <? node then
        match read t scope node with
        | Ok a => match add total a with
                  | Ok total' => through_loop fuel' t scope (drop_low_bit node) total'
                  | Err e => Some (Err e)
                  end
        | Err e => Some (Err e)
        end
      else Some (Ok total)
  end.
Definition THROUGH_FUEL : nat := 65.
Definition through (t : Table) (scope : string) (node : Z) : Result Amounts Error :=
  default (Err Arithmetic) (through_loop THROUGH_FUEL t scope node zero).

(** * Lowest set bits *)

(** [x] is an odd multiple of [2 ^ k]. *)
Definition lowest (x : Z) (k : nat) : Prop := ∃ m, 0 ≤ m ∧ x = (2 * m + 1) * 2 ^ Z.of_nat k.

Lemma land_double_l a b : Z.land (2 * a) (2 * b) = 2 * Z.land a b.
Proof.
  rewrite !(Z.mul_comm 2), <- !Z.shiftl_mul_pow2 with (n := 1) by lia.
  symmetry. apply Z.shiftl_land.
Qed.
Lemma land_odd a b : Z.land (2 * a + 1) (2 * b + 1) = 2 * Z.land a b + 1.
Proof.
  apply Z.bits_inj'. intros n Hn. rewrite Z.land_spec. destruct (Z.eq_dec n 0) as [->|Hne].
  - rewrite !Z.bit0_odd, !Z.add_comm with (m := 1), !Z.odd_add_mul_2. done.
  - replace n with (Z.succ (n - 1)) by lia.
    rewrite !Z.testbit_odd_succ, Z.land_spec by lia. done.
Qed.
Lemma land_even_odd a b : Z.land (2 * a) (2 * b + 1) = 2 * Z.land a b.
Proof.
  apply Z.bits_inj'. intros n Hn. rewrite Z.land_spec. destruct (Z.eq_dec n 0) as [->|Hne].
  - rewrite !Z.testbit_even_0. done.
  - replace n with (Z.succ (n - 1)) by lia.
    rewrite Z.testbit_odd_succ, !Z.testbit_even_succ, Z.land_spec by lia. done.
Qed.

Lemma lowest_exists x : 0 < x → ∃ k, lowest x k.
Proof.
  intros Hx. destruct x as [|p|p]; [lia| |lia]. clear Hx. induction p as [p _|p [k (m & Hm & E)]|].
  - exists 0%nat, (Z.pos p). simpl. lia.
  - exists (S k), m. split; [done|]. rewrite Nat2Z.inj_succ, Z.pow_succ_r by lia. lia.
  - exists 0%nat, 0. simpl. lia.
Qed.
Lemma lowest_pos x k : lowest x k → 2 ^ Z.of_nat k ≤ x.
Proof. intros (m & Hm & ->). pose proof (Z.pow_pos_nonneg 2 (Z.of_nat k)). nia. Qed.

Lemma land_neg x k : lowest x k → Z.land x (- x) = 2 ^ Z.of_nat k.
Proof.
  intros (m & Hm & ->). induction k as [|k IH].
  - replace (2 ^ Z.of_nat 0) with 1 by done. rewrite Z.mul_1_r.
    replace (- (2 * m + 1)) with (2 * (Z.lnot m) + 1) by (unfold Z.lnot; lia).
    rewrite land_odd, Z.land_lnot_diag. done.
  - rewrite Nat2Z.inj_succ, Z.pow_succ_r by lia.
    replace ((2 * m + 1) * (2 * 2 ^ Z.of_nat k)) with (2 * ((2 * m + 1) * 2 ^ Z.of_nat k)) by lia.
    rewrite <- Z.mul_opp_r, land_double_l, IH. done.
Qed.
Lemma low_bit_lowest x k : lowest x k → x < 2 ^ 64 → low_bit x = 2 ^ Z.of_nat k.
Proof.
  intros Hl Hx. pose proof (lowest_pos _ _ Hl). pose proof (Z.pow_pos_nonneg 2 (Z.of_nat k)).
  unfold low_bit. rewrite <- (land_neg x k Hl).
  rewrite <- Z.land_ones by lia. rewrite (Z.land_comm (- x)), Z.land_assoc, Z.land_ones by lia.
  by rewrite Z.mod_small by lia.
Qed.
Lemma drop_low_bit_lowest x k : lowest x k → drop_low_bit x = x - 2 ^ Z.of_nat k.
Proof.
  unfold drop_low_bit. intros (m & Hm & ->). induction k as [|k IH].
  - replace (2 ^ Z.of_nat 0) with 1 by done. rewrite Z.mul_1_r.
    replace (2 * m + 1 - 1) with (2 * m) by lia. rewrite Z.land_comm, land_even_odd, Z.land_diag. done.
  - rewrite Nat2Z.inj_succ, Z.pow_succ_r by lia. set (y := (2 * m + 1) * 2 ^ Z.of_nat k) in *.
    replace ((2 * m + 1) * (2 * 2 ^ Z.of_nat k)) with (2 * y) by lia.
    replace (2 * y - 1) with (2 * (y - 1) + 1) by lia. rewrite land_even_odd, IH. lia.
Qed.

(** * The tree *)

(** The node [n] sums the keys in [(n - low_bit n, n]]. *)
Definition covers (n key : Z) : bool := (n - low_bit n <? key) && (key <=? n).

Lemma covers_spec n k key :
  lowest n k → n < 2 ^ 64 → covers n key = true ↔ n - 2 ^ Z.of_nat k < key ≤ n.
Proof.
  intros Hl Hn. unfold covers. rewrite (low_bit_lowest n k Hl Hn), andb_true_iff. lia.
Qed.

(** Multiples of [d]: what lies strictly below a multiple is a whole step
    below it. *)
Lemma multiple_step a b d : 0 < d → a * d < b * d → a * d + d ≤ b * d.
Proof. intros. assert (a < b) by nia. nia. Qed.
Lemma pow_split (j k : nat) :
  (j ≤ k)%nat → 2 ^ Z.of_nat k = 2 ^ Z.of_nat (k - j) * 2 ^ Z.of_nat j.
Proof. intros. rewrite <- Z.pow_add_r by lia. f_equal. lia. Qed.

(** The next node of a key is the next one that covers it. *)
Lemma covers_next n s j k :
  lowest n j → lowest s k →
  n - 2 ^ Z.of_nat j < s ≤ n ↔ n = s ∨ n - 2 ^ Z.of_nat j < s + 2 ^ Z.of_nat k ≤ n.
Proof.
  intros (a & Ha & En) (b & Hb & Es).
  pose proof (Z.pow_pos_nonneg 2 (Z.of_nat j)) as Hj. pose proof (Z.pow_pos_nonneg 2 (Z.of_nat k)) as Hk.
  destruct (Nat.le_gt_cases k j) as [Hkj|Hjk].
  - pose proof (pow_split k j Hkj) as Hp. set (d := 2 ^ Z.of_nat k) in *.
    set (q := 2 ^ Z.of_nat (j - k)) in *. assert (0 < q) by (apply Z.pow_pos_nonneg; lia).
    rewrite Hp in *. split.
    + intros [H1 H2]. destruct (Z.eq_dec n s) as [|Hne]; [by left|right]. split; [lia|].
      rewrite Es, En in *. pose proof (multiple_step (2 * b + 1) ((2 * a + 1) * q) d). nia.
    + intros [->|[H1 H2]]; [nia|]. split; [|lia].
      destruct (Z.lt_ge_cases (n - q * d) s) as [|Hge]; [done|exfalso].
      assert (a * q < b + 1) by nia. assert (2 * b + 1 ≤ 2 * a * q) by nia. lia.
  - pose proof (pow_split (S j) k Hjk) as Hp. rewrite Nat2Z.inj_succ, Z.pow_succ_r in Hp by lia.
    set (d := 2 ^ Z.of_nat j) in *. set (q := 2 ^ Z.of_nat (k - S j)) in *.
    assert (0 < q) by (apply Z.pow_pos_nonneg; lia). rewrite Hp in *. split.
    + intros [H1 H2]. left. assert (2 * a < (2 * b + 1) * q * 2) by nia.
      assert ((2 * b + 1) * q * 2 ≤ 2 * a + 1) by nia. lia.
    + intros [->|[H1 H2]].
      * lia.
      * assert (a < (b + 1) * q * 2) by nia. assert ((2 * b + 2) * q * 2 ≤ 2 * a + 1) by nia. nia.
Qed.

(** * Amounts, column by column *)

Definition col (i : nat) (a : Amounts) : Z := nth i a 0.
Definition wf_amounts (a : Amounts) : Prop := length a = 5%nat ∧ Forall (λ x, 0 ≤ x ≤ u128_max) a.

Lemma col_zero i : col i zero = 0.
Proof. unfold col, zero. do 6 (destruct i as [|i]; [done|]). by destruct i. Qed.
Lemma wf_zero : wf_amounts zero.
Proof. split; [done|]. repeat constructor; vm_compute; discriminate. Qed.
Lemma wf_col i a : wf_amounts a → 0 ≤ col i a ≤ u128_max.
Proof.
  intros [_ Ha]. unfold col. destruct (nth_in_or_default i a 0) as [Hin| ->]; [|vm_compute; split; discriminate].
  rewrite Forall_forall in Ha. apply Ha. by apply list_elem_of_In.
Qed.
Lemma amounts_ext a b : length a = length b → (∀ i, col i a = col i b) → a = b.
Proof.
  revert b. induction a as [|x a IH]; intros [|y b] Hl H; try done; simpl in Hl.
  pose proof (H 0%nat) as H0. simpl in H0. unfold col in H0. simpl in H0. subst y. f_equal.
  apply IH; [lia|]. intros i. apply (H (S i)).
Qed.

Lemma add_amounts_spec a b :
  length a = length b →
  match add_amounts a b with
  | Some c => length c = length a ∧ (∀ i, col i c = col i a + col i b) ∧
              (Forall (λ x, 0 ≤ x ≤ u128_max) a → Forall (λ x, 0 ≤ x ≤ u128_max) b →
               Forall (λ x, 0 ≤ x ≤ u128_max) c)
  | None => ∃ i, u128_max < col i a + col i b
  end.
Proof.
  revert b. induction a as [|x a IH]; intros [|y b] Hl; try done; simpl.
  { split_and!; [done| |done]. by intros []. }
  destruct (Z.leb_spec (x + y) u128_max) as [Hle|Hgt]; [|by exists 0%nat].
  specialize (IH b ltac:(simpl in Hl; lia)). destruct (add_amounts a b) as [c|]; simpl.
  - destruct IH as (Hlen & Hcol & Hwf). split_and!; [simpl; lia| |].
    + intros [|i]; [done|]. apply Hcol.
    + intros [? ?]%Forall_cons [? ?]%Forall_cons. constructor; [lia|auto].
  - destruct IH as [i Hi]. by exists (S i).
Qed.
Lemma sub_amounts_spec a b :
  length a = length b →
  match sub_amounts a b with
  | Some c => length c = length a ∧ (∀ i, col i c = col i a - col i b ∧ col i b ≤ col i a) ∧
              (Forall (λ x, 0 ≤ x ≤ u128_max) a → Forall (λ x, 0 ≤ x ≤ u128_max) b →
               Forall (λ x, 0 ≤ x ≤ u128_max) c)
  | None => ∃ i, col i a < col i b
  end.
Proof.
  revert b. induction a as [|x a IH]; intros [|y b] Hl; try done; simpl.
  { split_and!; [done| |done]. by intros []. }
  destruct (Z.leb_spec y x) as [Hle|Hgt]; [|by exists 0%nat].
  specialize (IH b ltac:(simpl in Hl; lia)). destruct (sub_amounts a b) as [c|]; simpl.
  - destruct IH as (Hlen & Hcol & Hwf). split_and!; [simpl; lia| |].
    + intros [|i]; [done|]. apply Hcol.
    + intros [? ?]%Forall_cons [? ?]%Forall_cons. constructor; [lia|auto].
  - destruct IH as [i Hi]. by exists (S i).
Qed.

Lemma charge_amounts_wf c : 0 ≤ amount c ≤ u64_max → wf_amounts (charge_amounts c).
Proof.
  intros Hc. split; [by destruct c|]. unfold charge_amounts. apply Forall_insert; [apply wf_zero|].
  unfold u64_max, u128_max in *. lia.
Qed.
Lemma col_charge_amounts i c : col i (charge_amounts c) = if Nat.eqb i (unit_index c) then amount c else 0.
Proof. destruct c; do 6 (destruct i as [|i]; [done|]); by destruct i. Qed.

(** * Rows *)

Lemma be_bytes_acc k x acc :
  foldl (λ acc b, acc * 256 + b) acc (be_bytes k x) = acc * 256 ^ Z.of_nat k + x mod 256 ^ Z.of_nat k.
Proof.
  revert acc. induction k as [|k IH]; intros acc; cbn [be_bytes foldl].
  - rewrite Z.mod_1_r. lia.
  - rewrite IH, Nat2Z.inj_succ, Z.pow_succ_r by lia.
    rewrite (Z.mul_comm 256), Z.rem_mul_r by (try apply Z.pow_nonzero; lia). lia.
Qed.
Lemma from_be_bytes_roundtrip x : 0 ≤ x ≤ u128_max → from_be_bytes (be_bytes 16 x) = x.
Proof.
  intros Hx. unfold from_be_bytes. rewrite be_bytes_acc. rewrite Z.mod_small; [lia|].
  unfold u128_max in Hx. replace (256 ^ Z.of_nat 16) with (2 ^ 128) by done. lia.
Qed.
Lemma length_be_bytes k x : length (be_bytes k x) = k.
Proof. induction k; simpl; auto. Qed.
Lemma length_encode a : length (encode a) = (16 * length a)%nat.
Proof.
  induction a as [|x a IH]; [done|]. change (encode (x :: a)) with (be_bytes 16 x ++ encode a)%list.
  rewrite length_app, IH, length_be_bytes. simpl. lia.
Qed.
Lemma chunks_encode a : chunks (length a) (encode a) = map (be_bytes 16) a.
Proof.
  induction a as [|x a IH]; [done|]. change (encode (x :: a)) with (be_bytes 16 x ++ encode a)%list.
  cbn [length chunks map]. rewrite take_app_length', drop_app_length' by (by rewrite length_be_bytes). by rewrite IH.
Qed.
Lemma row_of_encode a : wf_amounts a → map from_be_bytes (chunks 5 (encode a)) = a.
Proof.
  intros [Hl Ha]. rewrite <- Hl, chunks_encode, map_map. clear Hl.
  induction Ha as [|x a Hx Ha IH]; [done|]. cbn [map]. by rewrite from_be_bytes_roundtrip, IH.
Qed.
Lemma decode_encode a : wf_amounts a → decode (encode a) = Ok a.
Proof.
  intros Ha. unfold decode. rewrite length_encode, (proj1 Ha), Nat.eqb_refl. by rewrite row_of_encode.
Qed.

(** * The table, column by column *)

(** Every row is the encoding of amounts. *)
Definition table_ok (t : Table) : Prop :=
  ∀ k bytes, t !! k = Some bytes → ∃ a, wf_amounts a ∧ bytes = encode a.
(** The amounts of a row; zero for an absent one. *)
Definition row (t : Table) (scope : string) (n : Z) : Amounts :=
  match t !! (scope, n) with
  | None => zero
  | Some bytes => map from_be_bytes (chunks 5 bytes)
  end.
Definition cell (t : Table) (scope : string) (n : Z) (i : nat) : Z := col i (row t scope n).

Lemma read_ok t scope n :
  table_ok t → n ≤ i64_max → read t scope n = Ok (row t scope n) ∧ wf_amounts (row t scope n).
Proof.
  intros Ht Hn. unfold read, sql_node, row. destruct (Z.leb_spec n i64_max); [|lia].
  destruct (t !! (scope, n)) as [bytes|] eqn:E; [|split; [done|apply wf_zero]].
  destruct (Ht _ _ E) as (a & Ha & ->).
  rewrite length_encode, (proj1 Ha), Nat.eqb_refl, decode_encode, row_of_encode by done. done.
Qed.
Lemma cell_nonneg t scope n i : table_ok t → n ≤ i64_max → 0 ≤ cell t scope n i ≤ u128_max.
Proof. intros Ht Hn. apply wf_col. by apply read_ok. Qed.

Lemma table_ok_insert t k a : table_ok t → wf_amounts a → table_ok (<[k := encode a]> t).
Proof. intros Ht Ha k' bytes [[<- <-]|[_ H]]%lookup_insert_Some; eauto. Qed.
Lemma table_ok_delete t k : table_ok t → table_ok (delete k t).
Proof. intros Ht k' bytes [_ H]%lookup_delete_Some. eauto. Qed.

Lemma row_update t scope n a scope' n' :
  wf_amounts a →
  row (if decide (a = zero) then delete (scope, n) t else <[(scope, n) := encode a]> t) scope' n' =
  if decide ((scope', n') = (scope, n)) then a else row t scope' n'.
Proof.
  intros Ha. unfold row. destruct (decide ((scope', n') = (scope, n))) as [[= -> ->]|Hne].
  - destruct (decide (a = zero)) as [->|_]; [by rewrite lookup_delete_eq|rewrite lookup_insert_eq].
    by apply row_of_encode.
  - destruct (decide (a = zero)); [rewrite lookup_delete_ne by congruence|rewrite lookup_insert_ne by congruence]; done.
Qed.

(** [update] adds to one cell per column, or fails for arithmetic. *)
Lemma update_ok t scope n rem plus t' :
  table_ok t → wf_amounts rem → wf_amounts plus → n ≤ i64_max →
  update t scope n rem plus = Ok t' →
  table_ok t' ∧ ∀ scope' n' i, cell t' scope' n' i =
    cell t scope' n' i + (if decide ((scope', n') = (scope, n)) then col i plus - col i rem else 0).
Proof.
  intros Ht Hrem Hplus Hn. unfold update. destruct (read_ok t scope n Ht Hn) as [-> Hwf].
  unfold subtract, add. pose proof (sub_amounts_spec (row t scope n) rem) as Hs.
  destruct Hwf as [Hl Hrow], Hrem as [Hlr Hr], Hplus as [Hlp Hp]. specialize (Hs ltac:(lia)).
  destruct (sub_amounts _ rem) as [r|]; simpl; [|done]. destruct Hs as (Hlen & Hcol & Hwfr).
  pose proof (add_amounts_spec r plus ltac:(lia)) as Ha.
  destruct (add_amounts r plus) as [next|]; simpl; [|done]. destruct Ha as (Hlen' & Hcol' & Hwfn).
  unfold sql_node. destruct (Z.leb_spec n i64_max); [|lia].
  assert (wf_amounts next) as Hnext by (split; [lia|auto]).
  assert (t' = (if decide (next = zero) then delete (scope, n) t else <[(scope, n) := encode next]> t) →
    table_ok t' ∧ ∀ scope' n' i, cell t' scope' n' i =
    cell t scope' n' i + (if decide ((scope', n') = (scope, n)) then col i plus - col i rem else 0)) as Hgoal.
  { intros ->. split.
    - destruct (decide (next = zero)); [by apply table_ok_delete|by apply table_ok_insert].
    - intros scope' n' i. unfold cell. rewrite row_update by done.
      destruct (decide ((scope', n') = (scope, n))) as [[= -> ->]|]; [|lia].
      rewrite Hcol'. destruct (Hcol i) as [-> _]. lia. }
  intros H'. apply Hgoal. by destruct (decide (next = zero)); injection H' as <-.
Qed.
Lemma update_total t scope n rem plus :
  table_ok t → wf_amounts rem → wf_amounts plus → n ≤ i64_max →
  (∀ i, col i rem ≤ cell t scope n i) → (∀ i, cell t scope n i - col i rem + col i plus ≤ u128_max) →
  is_ok (update t scope n rem plus) = true.
Proof.
  intros Ht Hrem Hplus Hn Hlo Hhi. unfold update. destruct (read_ok t scope n Ht Hn) as [-> Hwf].
  unfold subtract, add. pose proof (sub_amounts_spec (row t scope n) rem) as Hs.
  destruct Hwf as [Hl Hrow], Hrem as [Hlr Hr], Hplus as [Hlp Hp]. specialize (Hs ltac:(lia)).
  destruct (sub_amounts _ rem) as [r|]; simpl.
  2: { destruct Hs as [i Hi]. specialize (Hlo i). unfold cell in Hlo. lia. }
  destruct Hs as (Hlen & Hcol & _). pose proof (add_amounts_spec r plus ltac:(lia)) as Ha.
  destruct (add_amounts r plus) as [next|]; simpl.
  2: { destruct Ha as [i Hi]. specialize (Hhi i). destruct (Hcol i). unfold cell in Hhi. lia. }
  unfold sql_node. destruct (Z.leb_spec n i64_max); [|lia]. by destruct (decide (next = zero)).
Qed.

(** * The loops *)

Lemma time_end_eq : TIME_END = 2 ^ 57.
Proof. done. Qed.

Lemma lowest_step s k k' : lowest s k → lowest (s + 2 ^ Z.of_nat k) k' → (k < k')%nat.
Proof.
  intros (a & Ha & Ea) (b & Hb & Eb). destruct (Nat.lt_ge_cases k k') as [|Hle]; [done|exfalso].
  rewrite (pow_split k' k Hle) in *. set (d := 2 ^ Z.of_nat k') in *.
  assert (0 < d) by (apply Z.pow_pos_nonneg; lia).
  set (q := 2 ^ Z.of_nat (k - k')) in *. assert ((2 * a + 2) * q = 2 * b + 1) by nia. lia.
Qed.
Lemma lowest_drop s k k' : lowest s k → lowest (s - 2 ^ Z.of_nat k) k' → (k < k')%nat.
Proof.
  intros (a & Ha & Ea) (b & Hb & Eb). destruct (Nat.lt_ge_cases k k') as [|Hle]; [done|exfalso].
  rewrite (pow_split k' k Hle) in *. set (d := 2 ^ Z.of_nat k') in *.
  assert (0 < d) by (apply Z.pow_pos_nonneg; lia).
  set (q := 2 ^ Z.of_nat (k - k')) in *. assert (2 * a * q = 2 * b + 1) by nia. lia.
Qed.
Lemma lowest_lt x k j : lowest x k → x < 2 ^ Z.of_nat j → (k < j)%nat.
Proof.
  intros Hl Hx. pose proof (lowest_pos _ _ Hl). destruct (Nat.lt_ge_cases k j) as [|Hge]; [done|].
  pose proof (Z.pow_le_mono_r 2 (Z.of_nat j) (Z.of_nat k)). lia.
Qed.

(** What an entry at [key] adds to the node [n]. *)
Definition share (n key x : Z) : Z := if (0 <? n) && covers n key then x else 0.

Lemma share_next n s k x :
  0 < n < TIME_END → lowest s k → s < TIME_END →
  share n s x = (if decide (n = s) then x else 0) + share n (s + 2 ^ Z.of_nat k) x.
Proof.
  rewrite time_end_eq. intros Hn Hs Hlt. destruct (lowest_exists n) as [j Hj]; [lia|].
  pose proof (covers_next n s j k Hj Hs) as Hiff. pose proof (lowest_pos _ _ Hs).
  pose proof (Z.pow_pos_nonneg 2 (Z.of_nat k)). unfold share.
  destruct (Z.ltb_spec 0 n); [|lia]. cbn [andb].
  rewrite <- !(covers_spec n j) in Hiff by (done || lia).
  destruct (decide (n = s)) as [->|Hne].
  - destruct (covers s s) eqn:E1.
    + destruct (covers s (s + 2 ^ Z.of_nat k)) eqn:E2; [|lia].
      apply (covers_spec s j) in E2; [lia|done|lia].
    + exfalso. assert (false = true) by tauto. done.
  - destruct (covers n s), (covers n (s + 2 ^ Z.of_nat k)); lia.
Qed.

(** [dated] adds an entry to the tree: its share to every node. *)
Lemma dated_loop_ok fuel t scope s k rem plus t' :
  table_ok t → wf_amounts rem → wf_amounts plus → lowest s k → (58 ≤ fuel + k)%nat →
  dated_loop fuel t scope s rem plus = Some (Ok t') →
  table_ok t' ∧ ∀ scope' n i, 0 ≤ n < TIME_END →
    cell t' scope' n i = cell t scope' n i +
      (if decide (scope' = scope) then share n s (col i plus - col i rem) else 0).
Proof.
  intros Ht Hrem Hplus. revert t s k Ht. induction fuel as [|fuel IH]; intros t s k Ht Hs Hf; cbn [dated_loop]; [done|].
  destruct (Z.ltb_spec s TIME_END) as [Hlt|Hge].
  - destruct (update t scope s rem plus) as [t1|e] eqn:Eu; [|done].
    assert (s < 2 ^ 57) as Hlt' by (by rewrite time_end_eq in Hlt).
    apply (update_ok t scope s rem plus t1) in Eu as [Ht1 Hc1]; [|done..|unfold i64_max; lia].
    rewrite (low_bit_lowest s k Hs) by lia. pose proof (lowest_pos _ _ Hs) as Hpos.
    pose proof (Z.pow_pos_nonneg 2 (Z.of_nat k)).
    destruct (lowest_exists (s + 2 ^ Z.of_nat k)) as [k' Hk']; [lia|].
    pose proof (lowest_step _ _ _ Hs Hk').
    intros Hl. apply (IH t1 _ k') in Hl as [Ht' Hc']; [|done|done|lia].
    split; [done|]. intros scope' n i Hn. rewrite Hc', Hc1 by done.
    destruct (decide (scope' = scope)) as [->|Hne].
    + destruct (Z.eq_dec n 0) as [->|Hn0].
      { unfold share. simpl. rewrite decide_False by (intros [= ?]; lia). lia. }
      rewrite (share_next n s k) by (done || lia).
      destruct (decide (n = s)) as [->|]; [rewrite decide_True by done|rewrite decide_False by congruence]; lia.
    + rewrite decide_False by congruence. lia.
  - intros [= <-]. split; [done|]. intros scope' n i Hn.
    destruct (decide (scope' = scope)); [|lia].
    unfold share, covers. destruct (Z.leb_spec s n); [lia|]. rewrite !andb_false_r. lia.
Qed.
Lemma dated_loop_ends fuel t scope s k rem plus :
  lowest s k → (58 ≤ fuel + k)%nat → (0 < fuel)%nat → dated_loop fuel t scope s rem plus ≠ None.
Proof.
  revert t s k. induction fuel as [|fuel IH]; intros t s k Hs Hf H0; [lia|]. cbn [dated_loop].
  destruct (Z.ltb_spec s TIME_END) as [Hlt|Hge]; [|done]. rewrite time_end_eq in Hlt.
  pose proof (lowest_lt s k 57 Hs Hlt). destruct (update t scope s rem plus) as [t1|e]; [|done].
  rewrite (low_bit_lowest s k Hs) by lia. pose proof (lowest_pos _ _ Hs).
  pose proof (Z.pow_pos_nonneg 2 (Z.of_nat k)).
  destruct (lowest_exists (s + 2 ^ Z.of_nat k)) as [k' Hk']; [lia|].
  pose proof (lowest_step _ _ _ Hs Hk'). apply (IH t1 _ k'); [done|lia|lia].
Qed.
Lemma dated_ok t scope key rem plus t' :
  table_ok t → wf_amounts rem → wf_amounts plus → 0 ≤ key →
  dated t scope key rem plus = Ok t' →
  0 < key < TIME_END ∧ table_ok t' ∧ ∀ scope' n i, 0 ≤ n < TIME_END →
    cell t' scope' n i = cell t scope' n i +
      (if decide (scope' = scope) then share n key (col i plus - col i rem) else 0).
Proof.
  intros Ht Hrem Hplus Hkey. unfold dated.
  destruct (Z.eqb_spec key 0), (Z.leb_spec TIME_END key); try done. cbn [orb].
  destruct (lowest_exists key) as [k Hk]; [lia|].
  destruct (dated_loop DATED_FUEL t scope key rem plus) as [[t1|e]|] eqn:E; simpl; try done.
  intros [= <-]. split; [lia|]. by eapply dated_loop_ok in E; [|done..|unfold DATED_FUEL; lia].
Qed.

(** [dated] succeeds unless a column underflows or overflows. *)
Lemma dated_loop_total fuel t scope s k rem plus :
  table_ok t → wf_amounts rem → wf_amounts plus → lowest s k → (58 ≤ fuel + k)%nat → (0 < fuel)%nat →
  (∀ n i, 0 < n < TIME_END → covers n s = true →
     col i rem ≤ cell t scope n i ∧ cell t scope n i - col i rem + col i plus ≤ u128_max) →
  ∃ t', dated_loop fuel t scope s rem plus = Some (Ok t').
Proof.
  intros Ht Hrem Hplus. revert t s k Ht.
  induction fuel as [|fuel IH]; intros t s k Ht Hs Hf H0 Hb; [lia|]. cbn [dated_loop].
  destruct (Z.ltb_spec s TIME_END) as [Hlt|Hge]; [|eauto].
  assert (s < 2 ^ 57) as Hlt' by (by rewrite time_end_eq in Hlt).
  pose proof (lowest_lt s k 57 Hs Hlt'). pose proof (lowest_pos _ _ Hs) as Hpos.
  pose proof (Z.pow_pos_nonneg 2 (Z.of_nat k)).
  assert (covers s s = true) as Hself by (apply (covers_spec s k); [done|lia|lia]).
  assert (is_ok (update t scope s rem plus) = true) as Hu.
  { apply update_total; [done..|unfold i64_max; lia| |]; intros i; apply (Hb s i); try done; lia. }
  destruct (update t scope s rem plus) as [t1|e] eqn:Eu; [|done].
  apply (update_ok t scope s rem plus t1) in Eu as [Ht1 Hc1]; [|done..|unfold i64_max; lia].
  rewrite (low_bit_lowest s k Hs) by lia.
  destruct (lowest_exists (s + 2 ^ Z.of_nat k)) as [k' Hk']; [lia|].
  pose proof (lowest_step _ _ _ Hs Hk'). apply (IH t1 _ k'); [done|done|lia|lia|].
  intros n i Hn Hc. destruct (lowest_exists n) as [j Hj]; [lia|].
  assert (n < 2 ^ 57) by (rewrite time_end_eq in Hn; lia).
  apply (covers_spec n j) in Hc; [|done|lia].
  rewrite Hc1, decide_False by (intros [= ?]; lia). rewrite Z.add_0_r. apply Hb; [done|].
  apply (covers_spec n j); [done|lia|]. apply (covers_next n s j k); auto.
Qed.

(** [through] is the prefix sum: the nodes it visits partition the keys. *)
Section prefix_sum.
Context {A : Type} (key : A → Z) (weight : nat → A → Z) (entries : list A).
Context (t : Table) (scope : string).
Context (Ht : table_ok t).
Context (Hkey : Forall (λ x, 0 < key x) entries).
Context (Htree : ∀ n i, 0 < n < TIME_END →
  cell t scope n i = sum_Z (map (λ x, share n (key x) (weight i x)) entries)).

Definition upto (n : Z) (i : nat) : Z :=
  sum_Z (map (λ x, if key x <=? n then weight i x else 0) entries).

Lemma sum_Z_plus (f g h : A → Z) l :
  Forall (λ x, f x = g x + h x) l → sum_Z (map f l) = sum_Z (map g l) + sum_Z (map h l).
Proof. induction 1 as [|x l Hx Hl IH]; simpl; lia. Qed.
Lemma sum_Z_all_zero (f : A → Z) l : Forall (λ x, f x = 0) l → sum_Z (map f l) = 0.
Proof. induction 1 as [|x l Hx Hl IH]; simpl; lia. Qed.

Lemma upto_step n k i :
  lowest n k → n < TIME_END → upto n i = cell t scope n i + upto (n - 2 ^ Z.of_nat k) i.
Proof using Htree.
  intros Hn Hlt. pose proof (lowest_pos _ _ Hn). pose proof (Z.pow_pos_nonneg 2 (Z.of_nat k)).
  rewrite Htree by lia. rewrite time_end_eq in Hlt. apply sum_Z_plus, Forall_forall. intros x _.
  unfold share. destruct (Z.ltb_spec 0 n); [|lia]. cbn [andb].
  destruct (covers n (key x)) eqn:E.
  - apply (covers_spec n k) in E; [|done|lia].
    destruct (Z.leb_spec (key x) n), (Z.leb_spec (key x) (n - 2 ^ Z.of_nat k)); lia.
  - assert (¬ (n - 2 ^ Z.of_nat k < key x ≤ n)).
    { intros H'. apply (covers_spec n k) in H'; [congruence|done|lia]. }
    destruct (Z.leb_spec (key x) n), (Z.leb_spec (key x) (n - 2 ^ Z.of_nat k)); lia.
Qed.
Lemma upto_zero i : upto 0 i = 0.
Proof using Hkey.
  apply sum_Z_all_zero. eapply Forall_impl; [exact Hkey|]. intros x Hx. simpl in *.
  destruct (Z.leb_spec (key x) 0); lia.
Qed.

(** The next node of the loop, with the fuel it needs. *)
Lemma through_next n k :
  lowest n k → drop_low_bit n = n - 2 ^ Z.of_nat k ∧
  (n - 2 ^ Z.of_nat k = 0 ∨ ∃ k', lowest (n - 2 ^ Z.of_nat k) k' ∧ (k < k')%nat).
Proof.
  intros Hn. split; [by apply drop_low_bit_lowest|]. pose proof (lowest_pos _ _ Hn).
  destruct (Z.eq_dec (n - 2 ^ Z.of_nat k) 0) as [|Hne]; [by left|right].
  destruct (lowest_exists (n - 2 ^ Z.of_nat k)) as [k' Hk']; [lia|]. exists k'. split; [done|].
  by eapply lowest_drop.
Qed.

Lemma through_loop_ok fuel n total a :
  0 ≤ n < TIME_END → wf_amounts total →
  through_loop fuel t scope n total = Some (Ok a) → wf_amounts a ∧ ∀ i, col i a = col i total + upto n i.
Proof using Hkey Ht Htree.
  revert n total. induction fuel as [|fuel IH]; intros n total Hn Htot; cbn [through_loop]; [done|].
  destruct (Z.ltb_spec 0 n) as [Hpos|Hle].
  - destruct (read_ok t scope n Ht) as [-> Hrow]; [rewrite time_end_eq in Hn; unfold i64_max; lia|].
    unfold add. pose proof (add_amounts_spec total (row t scope n)) as Ha.
    destruct Htot as [Hl Htot], Hrow as [Hlr Hrow]. specialize (Ha ltac:(lia)).
    destruct (add_amounts total (row t scope n)) as [total'|]; simpl; [|done].
    destruct Ha as (Hlen & Hcol & Hwf). destruct (lowest_exists n Hpos) as [k Hk].
    pose proof (lowest_pos _ _ Hk). pose proof (Z.pow_pos_nonneg 2 (Z.of_nat k)).
    destruct (through_next n k Hk) as [-> _]. intros Hl'.
    apply IH in Hl' as [Hwfa Hcola]; [|lia|split; [lia|auto]]. split; [done|]. intros i.
    rewrite Hcola, Hcol, (upto_step n k) by (done || lia). unfold cell. lia.
  - intros [= <-]. split; [done|]. intros i. replace n with 0 by lia. rewrite upto_zero. lia.
Qed.
Lemma through_loop_ends fuel n total :
  0 ≤ n < TIME_END → (n = 0 ∧ (0 < fuel)%nat) ∨ (∃ k, lowest n k ∧ (58 ≤ fuel + k)%nat ∧ (1 < fuel)%nat) →
  through_loop fuel t scope n total ≠ None.
Proof using Type.
  revert n total. induction fuel as [|fuel IH]; intros n total Hn Hf; cbn [through_loop].
  { destruct Hf as [[_ ?]|(k & _ & _ & ?)]; lia. }
  destruct (Z.ltb_spec 0 n) as [Hpos|Hle]; [|done]. destruct Hf as [[-> _]|(k & Hk & Hf & _)]; [lia|].
  destruct (read t scope n) as [r|e]; [|done]. destruct (add total r) as [total'|e]; [|done].
  pose proof (lowest_pos _ _ Hk). pose proof (Z.pow_pos_nonneg 2 (Z.of_nat k)).
  pose proof (lowest_lt n k 57 Hk ltac:(rewrite time_end_eq in Hn; lia)).
  destruct (through_next n k Hk) as [-> [->|(k' & Hk' & Hlt)]]; apply IH; [lia|left; lia|lia|right].
  pose proof (lowest_lt _ k' 57 Hk' ltac:(rewrite time_end_eq in Hn; lia)).
  exists k'. split_and!; [done|lia|lia].
Qed.
Lemma through_ok n a :
  0 ≤ n < TIME_END → through t scope n = Ok a → wf_amounts a ∧ ∀ i, col i a = upto n i.
Proof using Hkey Ht Htree.
  intros Hn. unfold through. destruct (through_loop _ _ _ _ _) as [[a'|e]|] eqn:E; simpl; try done.
  intros [= <-]. apply through_loop_ok in E as [? Hc]; [|done|apply wf_zero]. split; [done|].
  intros i. rewrite Hc, col_zero. done.
Qed.

(** It succeeds when the totals fit. *)
Context (Hweight : ∀ i, Forall (λ x, 0 ≤ weight i x) entries).
Lemma upto_nonneg n i : 0 ≤ upto n i.
Proof using Hweight.
  apply sum_Z_nonneg, Forall_fmap. eapply Forall_impl; [apply (Hweight i)|]. intros x Hx. simpl in *.
  destruct (key x <=? n); lia.
Qed.
Lemma through_loop_total fuel n total e :
  0 ≤ n < TIME_END → wf_amounts total → (∀ i, col i total + upto n i ≤ u128_max) →
  through_loop fuel t scope n total ≠ Some (Err e).
Proof using Ht Htree Hweight.
  revert n total. induction fuel as [|fuel IH]; intros n total Hn Htot Hfit; cbn [through_loop]; [done|].
  destruct (Z.ltb_spec 0 n) as [Hpos|Hle]; [|done].
  destruct (read_ok t scope n Ht) as [-> Hrow]; [rewrite time_end_eq in Hn; unfold i64_max; lia|].
  destruct (lowest_exists n Hpos) as [k Hk]. pose proof (lowest_pos _ _ Hk).
  pose proof (Z.pow_pos_nonneg 2 (Z.of_nat k)).
  unfold add. pose proof (add_amounts_spec total (row t scope n)) as Ha.
  destruct Htot as [Hl Htot], Hrow as [Hlr Hrow]. specialize (Ha ltac:(lia)).
  destruct (add_amounts total (row t scope n)) as [total'|]; simpl.
  - destruct Ha as (Hlen & Hcol & Hwf). destruct (through_next n k Hk) as [-> _].
    apply IH; [lia|split; [lia|auto]|]. intros i. specialize (Hfit i).
    rewrite (upto_step n k) in Hfit by (done || lia). rewrite Hcol. unfold cell in Hfit. lia.
  - destruct Ha as [i Hi]. specialize (Hfit i). rewrite (upto_step n k) in Hfit by (done || lia).
    pose proof (upto_nonneg (n - 2 ^ Z.of_nat k) i). unfold cell in Hfit. lia.
Qed.
Lemma through_total n :
  0 ≤ n < TIME_END → (∀ i, upto n i ≤ u128_max) →
  ∃ a, through t scope n = Ok a ∧ ∀ i, col i a = upto n i.
Proof using Hkey Ht Htree Hweight.
  intros Hn Hfit. destruct (through t scope n) as [a|e] eqn:E.
  { exists a. split; [done|]. by apply through_ok. }
  exfalso. unfold through in E. destruct (through_loop THROUGH_FUEL t scope n zero) as [r|] eqn:El.
  - simpl in E. subst r. revert El. apply through_loop_total; [done|apply wf_zero|].
    intros i. rewrite col_zero. apply Hfit.
  - revert El. apply through_loop_ends; [done|].
    destruct (Z.eq_dec n 0) as [->|Hn0]; [left; unfold THROUGH_FUEL; lia|right].
    destruct (lowest_exists n) as [k Hk]; [lia|]. exists k. unfold THROUGH_FUEL. split; [done|lia].
Qed.
End prefix_sum.

(** * The tree as a whole *)

Definition record_all (scope : string) (t : Table) (l : list (Z * Amounts)) : Result Table Error :=
  foldl (λ r e, let? t := r in dated t scope e.1 zero e.2) (Ok t) l.

(** The tree of a list of entries. *)
Definition tree_of (t : Table) (scope : string) (l : list (Z * Amounts)) : Prop :=
  table_ok t ∧ ∀ n i, 0 < n < TIME_END →
  cell t scope n i = sum_Z (map (λ e, share n e.1 (col i e.2)) l).
Definition total_of (i : nat) (l : list (Z * Amounts)) : Z := sum_Z (map (λ e, col i e.2) l).

Lemma share_le n key x : 0 ≤ x → 0 ≤ share n key x ≤ x.
Proof. intros. unfold share. destruct (_ && _); lia. Qed.
Lemma share_sum_le n i l :
  Forall (λ e : Z * Amounts, wf_amounts e.2) l →
  0 ≤ sum_Z (map (λ e, share n e.1 (col i e.2)) l) ≤ total_of i l.
Proof.
  unfold total_of. induction 1 as [|e l He Hl IH]; simpl; [lia|].
  pose proof (wf_col i _ He). pose proof (share_le n e.1 (col i e.2)). lia.
Qed.

Lemma tree_insert t scope l key a :
  tree_of t scope l → Forall (λ e, wf_amounts e.2) l → wf_amounts a → 0 < key < TIME_END →
  (∀ i, total_of i l + col i a ≤ u128_max) →
  ∃ t', dated t scope key zero a = Ok t' ∧ tree_of t' scope (l ++ [(key, a)]).
Proof.
  intros [Ht Htree] Hl Ha Hkey Hfit. destruct (lowest_exists key) as [k Hk]; [lia|].
  destruct (dated_loop_total DATED_FUEL t scope key k zero a) as [t' Ht'];
    [done|apply wf_zero|done|done|unfold DATED_FUEL; lia|unfold DATED_FUEL; lia| |].
  { intros n i Hn _. rewrite Htree, col_zero by lia. specialize (Hfit i).
    pose proof (share_sum_le n i l Hl). lia. }
  assert (dated t scope key zero a = Ok t') as Hd.
  { unfold dated. destruct (Z.eqb_spec key 0), (Z.leb_spec TIME_END key); try lia. cbn [orb]. by rewrite Ht'. }
  exists t'. split; [done|]. apply dated_ok in Hd as (_ & Hok & Hc); [|done|apply wf_zero|done|lia].
  split; [done|]. intros n i Hn. rewrite Hc, Htree, decide_True, map_app, sum_Z_app, col_zero by (done || lia).
  simpl. rewrite Z.sub_0_r. lia.
Qed.
Lemma record_all_tree t scope l k :
  tree_of t scope k → Forall (λ e, 0 < e.1 < TIME_END ∧ wf_amounts e.2) l →
  Forall (λ e, wf_amounts e.2) k → (∀ i, total_of i (k ++ l) ≤ u128_max) →
  ∃ t', record_all scope t l = Ok t' ∧ tree_of t' scope (k ++ l).
Proof.
  intros Hk Hl. revert t k Hk. induction Hl as [|[key a] l [Hkey Ha] Hl IH]; intros t k Hk Hwf Hfit.
  { exists t. by rewrite app_nil_r. }
  simpl in Hkey, Ha. rewrite cons_middle, (assoc_L (++)) in Hfit |- *.
  assert (∀ i, 0 ≤ total_of i l) as Hpos.
  { intros i. unfold total_of. apply sum_Z_nonneg, Forall_fmap.
    eapply Forall_impl; [exact Hl|]. intros e [_ He]. by apply wf_col. }
  destruct (tree_insert t scope k key a) as (t1 & Hd & Ht1); [done..| |].
  { intros i. specialize (Hfit i). specialize (Hpos i). unfold total_of in *.
    rewrite !map_app, !sum_Z_app in Hfit. simpl in Hfit. lia. }
  destruct (IH t1 (k ++ [(key, a)])%list) as (t' & Hr & Ht'); [done| |done|].
  { apply Forall_app. auto. }
  exists t'. split; [|done]. unfold record_all in *. simpl. by rewrite Hd.
Qed.

(** C27: the binary indexed tree is exact. After entries with valid times and
    amounts have been recorded in any order, none of the operations fails as
    long as the column totals fit in 128 bits, and [through] at any time is the
    sum, in every column, of the entries up to that time. *)
Theorem tree_prefix_sums scope l n :
  Forall (λ e, 0 < e.1 < TIME_END ∧ wf_amounts e.2) l → (∀ i, total_of i l ≤ u128_max) →
  0 ≤ n < TIME_END →
  ∃ t a, record_all scope ∅ l = Ok t ∧ through t scope n = Ok a ∧
    ∀ i, col i a = sum_Z (map (λ e, if e.1 <=? n then col i e.2 else 0) l).
Proof.
  intros Hl Hfit Hn. destruct (record_all_tree ∅ scope l []) as (t & Hr & Hok & Htree); [|done|constructor|done|].
  { split; [by intros k b ?%lookup_empty_Some|]. intros m i _. unfold cell, row.
    rewrite lookup_empty, col_zero. done. }
  simpl in Htree. destruct (through_total fst (λ i e, col i e.2) l t scope Hok) with (n := n) as (a & Ha & Hcol).
  - eapply Forall_impl; [exact Hl|]. intros e [He _]. simpl. lia.
  - done.
  - intros i. eapply Forall_impl; [exact Hl|]. intros e [_ He]. simpl. by apply wf_col.
  - done.
  - intros i. specialize (Hfit i). unfold upto. etrans; [|exact Hfit]. unfold total_of.
    clear -Hl. induction Hl as [|e l [_ He] Hl IH]; simpl; [lia|].
    pose proof (wf_col i _ He). destruct (e.1 <=? n); lia.
  - exists t, a. done.
Qed.

Definition sample_entries : list (Z * Amounts) :=
  [(20260101120000000, charge_amounts (UsdMicros 5)); (20251231235959999, charge_amounts (UsdMicros 7));
   (20260101120000001, charge_amounts (UsdMicros 11))].
Lemma tree_prefix_sums_witness :
  ∃ t a, record_all "s" ∅ sample_entries = Ok t ∧ through t "s" 20260101120000000 = Ok a ∧
    (∀ i, col i a = sum_Z (map (λ e, if e.1 <=? 20260101120000000 then col i e.2 else 0) sample_entries)) ∧
    sum_Z (map (λ e, if e.1 <=? 20260101120000000 then col 0 e.2 else 0) sample_entries) = 12.
Proof.
  destruct (tree_prefix_sums "s" sample_entries 20260101120000000) as (t & a & H1 & H2 & H3).
  - repeat constructor; try (vm_compute; (done || discriminate)); simpl; vm_compute; discriminate.
  - intros i. unfold total_of, sample_entries. simpl. rewrite !col_charge_amounts. simpl.
    destruct (Nat.eqb i 0); vm_compute; discriminate.
  - vm_compute. split; [discriminate|reflexivity].
  - exists t, a. split_and!; [exact H1|exact H2|exact H3|reflexivity].
Defined.
