(* ===== verification/Pricing.v ===== *)
(** What a provider call costs: the pricing table
    ([rw-providers/src/pricing.rs]), the cost of a call from the metadata of
    its model ([rw-core/src/provider_factory/catalog.rs]), the charge a
    reservation holds before the call ([charge_bound] of
    [rw-core/src/provider_admission/gate.rs]) and the charge that a receipt
    establishes after it ([actual_charge] of
    [rw-store/src/session/reservations/ledger.rs]). *)
From S2P Require Import Prelude Text Decimal Ir BudgetSums.
From Stdlib Require Import Ascii.

Inductive ThinkingLevel : Type := ThinkingOff | ThinkingLow | ThinkingMedium | ThinkingHigh.
Inductive WireMode : Type :=
| AnthropicMessages | OpenAiChatCompletions | OpenAiResponses | GitHubCopilot
| GitHubCopilotMessages | GitHubCopilotResponses | GitHubCopilotChatCompletions | NormalizedReplay.

Record Capabilities : Type := mkCapabilities {
  tool_calling : bool;
  vision : bool;
  thinking : bool;
  cache_breakpoints : CacheBreakpointSupport;
  max_context_tokens : option Z;
  max_output_tokens : option Z;
  wire_mode : WireMode;
}.

Record ModelPricing : Type := mkPricing {
  display_name : string;
  pricing_max_context_tokens : option Z;
  pricing_max_output_tokens : option Z;
  supports_tools : bool;
  supports_thinking : bool;
  supports_vision : bool;
  reasoning_efforts : list ThinkingLevel;
  input_per_million_micros_usd : Z;
  output_per_million_micros_usd : Z;
  cache_read_per_million_micros_usd : option Z;
  cache_write_per_million_micros_usd : option Z;
  reasoning_per_million_micros_usd : option Z;
}.

Record CostBreakdown : Type := mkBreakdown {
  input_micros_usd : Z;
  output_micros_usd : Z;
  cache_read_micros_usd : Z;
  cache_write_micros_usd : Z;
  reasoning_micros_usd : Z;
  total_micros_usd : Z;
}.

(** [BTreeMap]: iteration in the order of the keys; [get] by key. *)
Record PricingTable : Type := mkPricingTable {
  source_url : string;
  snapshot_date : string;
  revision : string;
  models : list (string * ModelPricing);
}.

Inductive PricingError : Type :=
| InvalidPricing (message : string)
| InvalidModelKey (model : string)
| CostOverflow.

(** * The pricing table *)

(** [key.split_once('/')] with both parts present *)
Definition canonical_model_key (model : string) : bool :=
  match split_once "/"%char model with
  | None => false
  | Some (provider, model_id) => negb (is_empty provider) && negb (is_empty model_id)
  end.
Definition validate (t : PricingTable) : Result unit PricingError :=
  if is_blank (source_url t) || is_blank (snapshot_date t) || is_blank (revision t)
  then Err (InvalidPricing "source_url, snapshot_date, and revision must be non-empty")
  else if match models t with [] => true | _ => false end
  then Err (InvalidPricing "pricing table contains no priced models")
  else match List.find (λ m, negb (canonical_model_key (fst m))) (models t) with
       | Some (model, _) => Err (InvalidModelKey model)
       | None => Ok tt
       end.

Definition u128_checked_mul (a b : Z) : option Z := if a * b <=? u128_max then Some (a * b) else None.
Definition u128_checked_add (a b : Z) : option Z := if a + b <=? u128_max then Some (a + b) else None.
Definition u64_try_from (x : Z) : option Z := if x <=? u64_max then Some x else None.

Definition price (tokens rate : Z) : Result Z PricingError :=
  let? scaled := ok_or (v ← u128_checked_mul tokens rate; u128_checked_add v 500000) CostOverflow in
  ok_or (u64_try_from (scaled / 1000000)) CostOverflow.

(** The rates that missing entries inherit *)
Definition cache_read_rate (p : ModelPricing) : Z :=
  default (input_per_million_micros_usd p) (cache_read_per_million_micros_usd p).
Definition cache_write_rate (p : ModelPricing) : Z :=
  default (input_per_million_micros_usd p) (cache_write_per_million_micros_usd p).
Definition reasoning_rate (p : ModelPricing) : Z :=
  default (output_per_million_micros_usd p) (reasoning_per_million_micros_usd p).

Definition models_get (t : PricingTable) (model : string) : option ModelPricing :=
  snd <$> List.find (λ m, String.eqb (fst m) model) (models t).

Definition cost (t : PricingTable) (canonical_model : string) (usage : TokenUsage)
    : Result (option CostBreakdown) PricingError :=
  match models_get t canonical_model with
  | None => Ok None
  | Some rates =>
      let? input := price (input_tokens usage) (input_per_million_micros_usd rates) in
      let? output := price (output_tokens usage) (output_per_million_micros_usd rates) in
      let? cache_read := price (cache_read_tokens usage) (cache_read_rate rates) in
      let? cache_write := price (cache_write_tokens usage) (cache_write_rate rates) in
      let? reasoning := price (reasoning_tokens usage) (reasoning_rate rates) in
      let? total := ok_or (v ← checked_add input output; v ← checked_add v cache_read;
                           v ← checked_add v cache_write; checked_add v reasoning) CostOverflow in
      Ok (Some (mkBreakdown input output cache_read cache_write reasoning total))
  end.

(** * The cost of a call *)

Inductive Cost : Type :=
| Monetary (amount_micros : Z) (currency : string)
| AiCredits (credits_micros : Z) (nominal_amount_micros currency : option string)
| SubscriptionQuota (used unit : option string)
| CostUnavailable (reason : string).

Inductive SubscriptionTokenAccounting : Type :=
| NotApplicable | Metered (n : Z) | TokensUnavailable.

(** [str::eq_ignore_ascii_case] *)
Definition eq_ignore_ascii_case (s t : string) : bool :=
  String.eqb (to_ascii_lowercase s) (to_ascii_lowercase t).

Definition subscription_token_accounting (c : Cost) : SubscriptionTokenAccounting :=
  match c with
  | SubscriptionQuota used unit =>
      if match unit with Some u => eq_ignore_ascii_case u "tokens" | None => false end then
        match used ≫= parse_uint u64_max with Some n => Metered n | None => TokensUnavailable end
      else TokensUnavailable
  | _ => NotApplicable
  end.

Inductive UsageAccounting : Type :=
| ApiDollars | UnpricedApi | SubscriptionAccounting | AiCreditsAccounting (micros_usd_per_credit : Z).

Record ProviderModelMetadata : Type := mkMetadata {
  capabilities : Capabilities;
  pricing : option ModelPricing;
  accounting : UsageAccounting;
}.

Definition components (p : ModelPricing) (u : TokenUsage) : list (Z * Z) :=
  [(input_tokens u, input_per_million_micros_usd p);
   (output_tokens u, output_per_million_micros_usd p);
   (cache_read_tokens u, cache_read_rate p);
   (cache_write_tokens u, cache_write_rate p);
   (reasoning_tokens u, reasoning_rate p)].

(** One step of the [try_fold] *)
Definition add_component (total : Z) (c : Z * Z) : option Z :=
  v ← u128_checked_mul (fst c) (snd c);
  v ← u128_checked_add v 500000;
  c ← u64_try_from (v / 1000000);
  checked_add total c.
Definition nominal_cost_micros (p : ModelPricing) (u : TokenUsage) : option Z :=
  foldl (λ acc c, total ← acc; add_component total c) (Some 0) (components p u).

Definition ai_credit_cost (p : ModelPricing) (u : TokenUsage) (micros_usd_per_credit : Z) : Cost :=
  match nominal_cost_micros p u with
  | None => CostUnavailable "AI-credit cost exceeds the supported range"
  | Some nominal =>
      let credits :=
        if 0 <? micros_usd_per_credit then
          v ← u128_checked_mul nominal 1000000;
          v ← u128_checked_add v (micros_usd_per_credit / 2);
          u64_try_from (v / micros_usd_per_credit)
        else None in
      match credits with
      | None => CostUnavailable "AI-credit conversion exceeds the supported range"
      | Some credits_micros => AiCredits credits_micros (Some (dec nominal)) (Some "USD"%string)
      end
  end.

Definition total_usage_tokens (u : TokenUsage) : Z :=
  sat_add (sat_add (sat_add (sat_add (input_tokens u) (output_tokens u)) (cache_read_tokens u))
             (cache_write_tokens u)) (reasoning_tokens u).

Definition cost_from_model_metadata (m : ProviderModelMetadata) (u : TokenUsage) : Cost :=
  match accounting m with
  | ApiDollars =>
      match pricing m with
      | None => CostUnavailable "authoritative API pricing is unavailable"
      | Some p =>
          match nominal_cost_micros p u with
          | None => CostUnavailable "API cost exceeds the supported range"
          | Some amount_micros => Monetary amount_micros "USD"
          end
      end
  | AiCreditsAccounting micros_usd_per_credit =>
      match pricing m with
      | None => CostUnavailable "authoritative AI-credit pricing is unavailable"
      | Some p => ai_credit_cost p u micros_usd_per_credit
      end
  | SubscriptionAccounting =>
      SubscriptionQuota (Some (dec (total_usage_tokens u))) (Some "tokens"%string)
  | UnpricedApi => CostUnavailable "authoritative API pricing is unavailable"
  end.

(** * Which metadata a call is priced with *)

Inductive ModelPricingSource : Type := UserConfig | ProviderDiscovered | ModelsDev.
Record ResolvedModel : Type := mkResolvedModel {
  candidate : string;
  provider : string;
  model : string;
  catalog_model : option string;
  resolved_capabilities : Capabilities;
  resolved_pricing : option ModelPricing;
  pricing_source : option ModelPricingSource;
  resolved_accounting : UsageAccounting;
}.
#[global] Instance ModelPricingSource_eq_dec : EqDecision ModelPricingSource.
Proof. solve_decision. Defined.

Definition or_else {A} (a b : option A) : option A := match a with Some _ => a | None => b end.
Definition effective_model_metadata (m : ResolvedModel) (discovered : option ProviderModelMetadata)
    : ProviderModelMetadata :=
  let caps := match discovered with None => resolved_capabilities m | Some d => capabilities d end in
  match resolved_accounting m with
  | SubscriptionAccounting => mkMetadata caps None (resolved_accounting m)
  | AiCreditsAccounting _ =>
      mkMetadata caps (or_else (discovered ≫= pricing) (resolved_pricing m)) (resolved_accounting m)
  | _ =>
      let p := if decide (pricing_source m = Some UserConfig) then resolved_pricing m
               else or_else (discovered ≫= pricing) (resolved_pricing m) in
      mkMetadata caps p (if is_some p then ApiDollars else UnpricedApi)
  end.

(** * The reserved charge and the actual one *)

Inductive ProviderInputBudget : Type := BoundedInput (n : Z) | EstimatedInput (n : Z).
Inductive BudgetChargeBound : Type := Bounded (c : BudgetCharge) | BestEffort (c : option BudgetCharge).
Definition charge (b : BudgetChargeBound) : option BudgetCharge :=
  match b with Bounded c => Some c | BestEffort c => c end.

Definition input_bound (i : ProviderInputBudget) : Z :=
  match i with BoundedInput n | EstimatedInput n => n end.

Definition actual_charge (c : Cost) : option BudgetCharge :=
  match c with
  | Monetary amount_micros currency =>
      if String.eqb currency "USD" then Some (UsdMicros amount_micros) else None
  | AiCredits credits_micros _ _ => Some (AiCreditMicros credits_micros)
  | SubscriptionQuota _ _ =>
      match subscription_token_accounting c with
      | Metered tokens => Some (SubscriptionTokens tokens)
      | _ => None
      end
  | CostUnavailable _ => None
  end.

(** The usage a bound on the input and on the output allows at most *)
Definition maximum_usage (tokens output : Z) : TokenUsage := mkUsage tokens output tokens tokens output.

Definition priced (metadata : option ProviderModelMetadata) : bool :=
  match metadata with
  | None => false
  | Some m => match accounting m with
              | ApiDollars | AiCreditsAccounting _ => is_some (pricing m)
              | SubscriptionAccounting => true
              | UnpricedApi => false
              end
  end.

(** The match of [charge_bound] on the cost is that of [actual_charge]. *)
Definition charge_bound (metadata : option ProviderModelMetadata) (input : ProviderInputBudget)
    (output : Z) : Result BudgetChargeBound Error :=
  let tokens := input_bound input in
  let? _ := ok_or (v ← checked_mul tokens 3; w ← checked_mul output 2; checked_add v w) Arithmetic in
  let c := metadata ≫= λ m, actual_charge (cost_from_model_metadata m (maximum_usage tokens output)) in
  if priced metadata && negb (is_some c) then Err Arithmetic
  else Ok (match input, c with
           | BoundedInput _, Some c' => Bounded c'
           | _, _ => BestEffort c
           end).

(** [ProviderAttemptOutcome] and the cost that [AccountedAttempt::settle]
    records *)
Record ProviderAttemptOutcome : Type := mkOutcome {
  usage : option TokenUsage;
  terminal : bool;
}.
Definition settle_cost (metadata : option ProviderModelMetadata) (o : ProviderAttemptOutcome) : Cost :=
  if terminal o then
    match metadata, usage o with
    | Some m, Some u => cost_from_model_metadata m u
    | _, _ => CostUnavailable "provider terminal has no authoritative usage or pricing"
    end
  else CostUnavailable "provider attempt ended without an authoritative terminal".

(** * Rounding *)

(** The rates of a model fit their type. *)
Definition rates_u64 (p : ModelPricing) : Prop :=
  u64 (input_per_million_micros_usd p) ∧ u64 (output_per_million_micros_usd p) ∧
  u64 (cache_read_rate p) ∧ u64 (cache_write_rate p) ∧ u64 (reasoning_rate p).

(** A component to the nearest micro-dollar *)
Definition rounded (c : Z * Z) : Z := (fst c * snd c + 500000) / 1000000.
Definition component_ok (c : Z * Z) : Prop := u64 (fst c) ∧ u64 (snd c).

Lemma components_ok p u : rates_u64 p → usage_u64 u → Forall component_ok (components p u).
Proof. intros (? & ? & ? & ? & ?) (? & ? & ? & ? & ?).
  repeat first [apply Forall_nil_2 | apply Forall_cons_2; [by split|]].
Qed.

Lemma u64_product_fits t r : u64 t → u64 r → t * r + 500000 ≤ u128_max.
Proof. unfold u64, u64_max, u128_max. intros. nia. Qed.
Lemma rounded_nonneg c : component_ok c → 0 ≤ rounded c.
Proof. intros [[? ?] [? ?]]. apply Z.div_pos; nia. Qed.
Lemma rounded_nearest c : Z.abs (rounded c * 1000000 - fst c * snd c) ≤ 500000.
Proof. unfold rounded. pose proof (Z.div_mod (fst c * snd c + 500000) 1000000). pose proof (Z.mod_pos_bound (fst c * snd c + 500000) 1000000). lia. Qed.
Lemma rounded_mono t t' r : 0 ≤ r → t ≤ t' → rounded (t, r) ≤ rounded (t', r).
Proof. intros. unfold rounded; simpl. apply Z.div_le_mono; nia. Qed.

Lemma price_spec t r :
  u64 t → u64 r →
  price t r = if rounded (t, r) <=? u64_max then Ok (rounded (t, r)) else Err CostOverflow.
Proof.
  intros Ht Hr. pose proof (u64_product_fits t r Ht Hr). unfold price, u128_checked_mul, u128_checked_add.
  destruct (Z.leb_spec (t * r) u128_max); [|lia]. cbn [mbind option_bind ok_or].
  destruct (Z.leb_spec (t * r + 500000) u128_max); [|lia]. cbn [ok_or].
  unfold u64_try_from. change ((t * r + 500000) / 1000000) with (rounded (t, r)).
  by destruct (rounded (t, r) <=? u64_max).
Qed.
Lemma add_component_spec total c :
  0 ≤ total → component_ok c →
  add_component total c = if total + rounded c <=? u64_max then Some (total + rounded c) else None.
Proof.
  intros Ht Hok. pose proof (rounded_nonneg c Hok). destruct c as [t r], Hok as [Hc Hr]. cbn [fst snd] in *.
  pose proof (u64_product_fits t r Hc Hr). unfold add_component, u128_checked_mul, u128_checked_add. cbn [fst snd].
  destruct (Z.leb_spec (t * r) u128_max); [|lia]. cbn [mbind option_bind].
  destruct (Z.leb_spec (t * r + 500000) u128_max); [|lia]. cbn [mbind option_bind].
  change ((t * r + 500000) / 1000000) with (rounded (t, r)). unfold u64_try_from, checked_add, usize_max.
  destruct (Z.leb_spec (rounded (t, r)) u64_max); cbn [mbind option_bind]; [done|].
  destruct (Z.leb_spec (total + rounded (t, r)) u64_max); [lia|done].
Qed.
Lemma fold_none l : foldl (λ acc c, total ← acc; add_component total c) None l = None.
Proof. by induction l. Qed.

(** The checked fold is the sum of the rounded components, when it fits. *)
Lemma fold_components l total :
  0 ≤ total ≤ u64_max → Forall component_ok l →
  foldl (λ acc c, total ← acc; add_component total c) (Some total) l =
  let sum := total + sum_Z (map rounded l) in if sum <=? u64_max then Some sum else None.
Proof.
  intros Ht Hl. revert total Ht. induction Hl as [|c l Hc Hl IH]; intros total Ht.
  - simpl. rewrite Z.add_0_r. destruct (Z.leb_spec total u64_max); [done|lia].
  - cbn [foldl mbind option_bind map sum_Z foldr]. rewrite add_component_spec by (done || lia).
    pose proof (rounded_nonneg c Hc).
    assert (0 ≤ sum_Z (map rounded l)).
    { apply sum_Z_nonneg, Forall_map. eapply Forall_impl; [exact Hl|]. apply rounded_nonneg. }
    destruct (Z.leb_spec (total + rounded c) u64_max).
    + rewrite IH by lia. cbv zeta. fold (sum_Z (map rounded l)). by rewrite Z.add_assoc.
    + rewrite fold_none. cbv zeta. fold (sum_Z (map rounded l)).
      destruct (Z.leb_spec (total + (rounded c + sum_Z (map rounded l))) u64_max); [lia|done].
Qed.
Definition nominal (p : ModelPricing) (u : TokenUsage) : Z := sum_Z (map rounded (components p u)).
Lemma nominal_spec p u :
  rates_u64 p → usage_u64 u →
  0 ≤ nominal p u ∧
  nominal_cost_micros p u = if nominal p u <=? u64_max then Some (nominal p u) else None.
Proof.
  intros Hp Hu. pose proof (components_ok p u Hp Hu) as Hok. split.
  - apply sum_Z_nonneg, Forall_map. eapply Forall_impl; [exact Hok|]. apply rounded_nonneg.
  - unfold nominal_cost_micros. rewrite fold_components; [done| |done]. vm_compute; split; discriminate.
Qed.

(** The exact price in millionths of a micro-dollar *)
Definition exact_price (p : ModelPricing) (u : TokenUsage) : Z :=
  sum_Z (map (λ c, fst c * snd c) (components p u)).

(** Case analysis on the next overflow check *)
Ltac case_overflow :=
  unfold checked_add, usize_max; cbn [ok_or mbind option_bind];
  match goal with |- context [?a <=? u64_max] => destruct (Z.leb_spec a u64_max) end;
  cbn [ok_or mbind option_bind].

(** The pricing table and the model catalog charge the same amount for
    the same usage: the breakdown of [PricingTable::cost] sums to exactly the
    amount of [nominal_cost_micros], one overflows when the other does, and
    the total is within 2.5 micro-dollars of the exact price. *)
Theorem pricing_table_agrees t key p u :
  models_get t key = Some p → rates_u64 p → usage_u64 u →
  match cost t key u with
  | Ok (Some b) =>
      nominal_cost_micros p u = Some (total_micros_usd b) ∧
      total_micros_usd b = input_micros_usd b + output_micros_usd b + cache_read_micros_usd b +
                           cache_write_micros_usd b + reasoning_micros_usd b ∧
      Z.abs (total_micros_usd b * 1000000 - exact_price p u) ≤ 2500000
  | Ok None => False
  | Err e => e = CostOverflow ∧ nominal_cost_micros p u = None
  end.
Proof.
  intros Hget Hp Hu. destruct (nominal_spec p u Hp Hu) as [_ Hn]. rewrite Hn.
  pose proof (components_ok p u Hp Hu) as Hok. unfold cost. rewrite Hget.
  pose proof Hp as (? & ? & ? & ? & ?). pose proof Hu as (? & ? & ? & ? & ?). rewrite !price_spec by done.
  unfold nominal, exact_price, components in *. cbn [map sum_Z foldr] in *.
  pose proof (Forall_impl _ _ _ Hok rounded_nonneg) as Hpos. rewrite !Forall_cons in Hpos.
  destruct Hpos as (? & ? & ? & ? & ? & _).
  pose proof (λ t r, rounded_nearest (t, r)) as Hnear. cbn [fst snd] in *.
  pose proof (Hnear (input_tokens u) (input_per_million_micros_usd p)).
  pose proof (Hnear (output_tokens u) (output_per_million_micros_usd p)).
  pose proof (Hnear (cache_read_tokens u) (cache_read_rate p)).
  pose proof (Hnear (cache_write_tokens u) (cache_write_rate p)).
  pose proof (Hnear (reasoning_tokens u) (reasoning_rate p)). clear Hnear Hok.
  repeat match goal with |- context [rounded ?c] => let x := fresh "c" in set (x := rounded c) in * end.
  repeat case_overflow; try (exfalso; lia); try done.
  cbn [total_micros_usd input_micros_usd output_micros_usd cache_read_micros_usd
       cache_write_micros_usd reasoning_micros_usd].
  split_and!; [f_equal; lia|lia|lia].
Qed.

(** * Bounds on a call *)

(** A usage within the bounds of a reservation *)
Definition usage_within (u : TokenUsage) (tokens output : Z) : Prop :=
  input_tokens u ≤ tokens ∧ cache_read_tokens u ≤ tokens ∧ cache_write_tokens u ≤ tokens ∧
  output_tokens u ≤ output ∧ reasoning_tokens u ≤ output.
Definition metadata_u64 (m : ProviderModelMetadata) : Prop :=
  match pricing m with None => True | Some p => rates_u64 p end ∧
  match accounting m with AiCreditsAccounting r => u64 r | _ => True end.

Lemma nominal_mono p u tokens output :
  rates_u64 p → usage_within u tokens output → nominal p u ≤ nominal p (maximum_usage tokens output).
Proof.
  intros ([? _] & [? _] & [? _] & [? _] & [? _]) (? & ? & ? & ? & ?).
  unfold nominal, components, maximum_usage. cbn [map sum_Z foldr input_tokens output_tokens
    cache_read_tokens cache_write_tokens reasoning_tokens].
  repeat apply Z.add_le_mono; first [apply Z.le_refl | by apply rounded_mono].
Qed.
Lemma total_usage_mono u tokens output :
  usage_within u tokens output → total_usage_tokens u ≤ total_usage_tokens (maximum_usage tokens output).
Proof. intros (? & ? & ? & ? & ?). unfold total_usage_tokens. by repeat apply sat_add_le_mono. Qed.
Lemma total_usage_u64 u : usage_u64 u → u64 (total_usage_tokens u).
Proof. intros (? & ? & ? & ? & ?). unfold total_usage_tokens. auto 10 with machine. Qed.

Lemma subscription_charge n :
  u64 n → actual_charge (SubscriptionQuota (Some (dec n)) (Some "tokens"%string)) = Some (SubscriptionTokens n).
Proof.
  intros Hn. unfold actual_charge, subscription_token_accounting. cbn [mbind option_bind].
  rewrite parse_u64_dec by done. done.
Qed.

(** Credits grow with the nominal amount. *)
Lemma credits_mono p u v r c :
  rates_u64 p → usage_u64 u → usage_u64 v → u64 r → nominal p u ≤ nominal p v →
  actual_charge (ai_credit_cost p v r) = Some c →
  ∃ n m, c = AiCreditMicros n ∧ actual_charge (ai_credit_cost p u r) = Some (AiCreditMicros m) ∧ 0 ≤ m ≤ n.
Proof.
  intros Hp Hu Hv Hr Hle. unfold ai_credit_cost.
  destruct (nominal_spec p u Hp Hu) as [H0 ->], (nominal_spec p v Hp Hv) as [H1 ->].
  destruct (Z.leb_spec (nominal p v) u64_max) as [Hv'|]; [|done].
  destruct (Z.leb_spec (nominal p u) u64_max) as [Hu'|]; [|lia].
  destruct (Z.ltb_spec 0 r) as [Hpos|]; [|done]. unfold u64 in Hr.
  assert (∀ x, 0 ≤ x ≤ u64_max → x * 1000000 ≤ u128_max ∧ x * 1000000 + r / 2 ≤ u128_max) as Hfit.
  { intros x Hx. pose proof (Z.div_le_upper_bound r 2 r). unfold u64_max, u128_max in *. lia. }
  destruct (Hfit (nominal p u)) as [Ha Hb]; [lia|]. destruct (Hfit (nominal p v)) as [Hc Hd]; [lia|].
  unfold u128_checked_mul, u128_checked_add, u64_try_from.
  apply Z.leb_le in Ha, Hb, Hc, Hd. rewrite Ha, Hc. cbn [mbind option_bind]. rewrite Hb, Hd.
  cbn [mbind option_bind].
  assert ((nominal p u * 1000000 + r / 2) / r ≤ (nominal p v * 1000000 + r / 2) / r)
    by (apply Z.div_le_mono; lia).
  assert (0 ≤ (nominal p u * 1000000 + r / 2) / r).
  { apply Z.div_pos; [|lia]. pose proof (Z.div_pos r 2). lia. }
  destruct (Z.leb_spec ((nominal p v * 1000000 + r / 2) / r) u64_max); [|done].
  destruct (Z.leb_spec ((nominal p u * 1000000 + r / 2) / r) u64_max); [|lia].
  intros [= <-]. eexists _, _. split_and!; done.
Qed.

(** The cost of a smaller usage is charged in the same unit, and is smaller. *)
Lemma actual_charge_mono m u tokens output c :
  metadata_u64 m → usage_u64 u → usage_u64 (maximum_usage tokens output) → usage_within u tokens output →
  actual_charge (cost_from_model_metadata m (maximum_usage tokens output)) = Some c →
  ∃ c', actual_charge (cost_from_model_metadata m u) = Some c' ∧
        unit_index c' = unit_index c ∧ 0 ≤ amount c' ≤ amount c.
Proof.
  intros [Hp Hr] Hu Hmax Hin. unfold cost_from_model_metadata.
  destruct (accounting m) as [| | |r]; [| done | |].
  - destruct (pricing m) as [p|]; [|done]. pose proof (nominal_mono p u tokens output Hp Hin).
    destruct (nominal_spec p u Hp Hu) as [? ->], (nominal_spec p _ Hp Hmax) as [? ->].
    destruct (Z.leb_spec (nominal p (maximum_usage tokens output)) u64_max); [|done].
    destruct (Z.leb_spec (nominal p u) u64_max); [|lia]. unfold actual_charge.
    rewrite String.eqb_refl. intros [= <-]. eexists. split; [done|]. cbn [unit_index amount]. split; [done|lia].
  - rewrite !subscription_charge by (by apply total_usage_u64). intros [= <-].
    pose proof (total_usage_mono u tokens output Hin). pose proof (total_usage_u64 u Hu) as [? ?].
    eexists. split; [done|]. cbn [unit_index amount]. split; [done|lia].
  - destruct (pricing m) as [p|]; [|done]. intros Hc.
    destruct (credits_mono p u _ r c Hp Hu Hmax Hr (nominal_mono p u tokens output Hp Hin) Hc)
      as (n & k & -> & -> & ?). eexists. split; [done|]. cbn [unit_index amount]. split; [done|lia].
Qed.

(** C25: a bounded reservation covers what the call can cost: when the gate
    reserves a bounded charge for a model, then whatever usage within the
    enforced token limits the provider reports at its terminal, the recorded
    cost is a charge in the same billing unit and at most the reserved
    amount. *)
Theorem charge_bound_sound m tokens output c u :
  metadata_u64 m → u64 tokens → u64 output →
  charge_bound (Some m) (BoundedInput tokens) output = Ok (Bounded c) →
  usage_u64 u → usage_within u tokens output →
  ∃ c', actual_charge (settle_cost (Some m) (mkOutcome (Some u) true)) = Some c' ∧
        unit_index c' = unit_index c ∧ 0 ≤ amount c' ≤ amount c.
Proof.
  intros Hm Ht Ho Hc Hu Hin. unfold charge_bound in Hc. cbn [input_bound mbind option_bind] in Hc.
  destruct (ok_or _ _) as [?|?]; [|done].
  destruct (actual_charge (cost_from_model_metadata m (maximum_usage tokens output))) as [c0|] eqn:E.
  - rewrite andb_false_r in Hc. injection Hc as ->. cbn [settle_cost terminal usage].
    eapply actual_charge_mono; eauto. split_and!; done.
  - by destruct (priced (Some m) && negb (is_some None)).
Qed.

(** * Effective metadata *)

(** The accounting unit says whether there is a price; for AI credits it does
    not, the unit stays that of the configuration with or without one. *)
Definition metadata_typed (m : ProviderModelMetadata) : Prop :=
  match accounting m with
  | ApiDollars => is_some (pricing m) = true
  | UnpricedApi | SubscriptionAccounting => pricing m = None
  | AiCreditsAccounting _ => True
  end.

(** C40: The unit and the price of a call are consistent whatever the provider
    reported.  A subscription is kept and has no price, an AI-credit unit is
    kept.  For the other models the unit is dollars exactly when there is a
    price, and a price of the user's configuration is never replaced by a
    discovered one.  AI-credit models are exempt from both rules: they may
    have no price, and a discovered price comes before the configured one,
    the user's included.  A cost is a dollar amount, in USD, only for a model
    whose configured unit is neither a subscription nor credits and which has
    a price, one of the configuration when that is the user's. *)
Theorem effective_metadata_typed m d u :
  let effective := effective_model_metadata m d in
  metadata_typed effective ∧
  (resolved_accounting m = SubscriptionAccounting ∨ (∃ r, resolved_accounting m = AiCreditsAccounting r) →
   accounting effective = resolved_accounting m) ∧
  (resolved_accounting m = ApiDollars ∨ resolved_accounting m = UnpricedApi →
   (accounting effective = ApiDollars ↔ is_some (pricing effective) = true) ∧
   (pricing_source m = Some UserConfig → pricing effective = resolved_pricing m)) ∧
  (∀ r p, resolved_accounting m = AiCreditsAccounting r → pricing effective = Some p →
   d ≫= pricing = Some p ∨ d ≫= pricing = None ∧ resolved_pricing m = Some p) ∧
  (∀ n cur, cost_from_model_metadata effective u = Monetary n cur →
   cur = "USD"%string ∧ is_some (pricing effective) = true ∧
   (resolved_accounting m = ApiDollars ∨ resolved_accounting m = UnpricedApi) ∧
   (pricing_source m = Some UserConfig → is_some (resolved_pricing m) = true)).
Proof.
  assert (∀ p r n cur, ai_credit_cost p u r ≠ Monetary n cur) as Hcredit.
  { intros p r n cur. unfold ai_credit_cost. by repeat case_match. }
  unfold metadata_typed, effective_model_metadata, cost_from_model_metadata.
  destruct (resolved_accounting m) as [| | |r]; cbn [accounting pricing].
  1,2: destruct (decide (pricing_source m = Some UserConfig)) as [Hs|Hs];
    [destruct (resolved_pricing m) eqn:E|destruct (or_else _ _) eqn:E]; cbn [is_some]; split_and!; try done.
  all: try by intros [|[? ?]].
  all: try (intros n cur; case_match; [|done]; intros [= _ <-]; split_and!; by auto).
  - split_and!; try done. by intros [|].
  - split_and!; try done; [by intros [|]| |].
    + intros r' p _. destruct (d ≫= pricing); simpl; auto.
    + intros n cur. case_match; [|done]. by intros ?%Hcredit.
Qed.

(** * Witnesses *)

Definition sample_pricing : ModelPricing :=
  mkPricing "sample" (Some 200000) (Some 8192) true true false [ThinkingLow] 3000000 15000000 (Some 300000) None None.
Definition sample_capabilities : Capabilities :=
  mkCapabilities true false true SupportExplicit (Some 200000) (Some 8192) AnthropicMessages.
Definition sample_table : PricingTable :=
  mkPricingTable "https://models.dev" "2026-01-01" "1" [("anthropic/sample"%string, sample_pricing)].
Definition sample_metadata : ProviderModelMetadata :=
  mkMetadata sample_capabilities (Some sample_pricing) ApiDollars.

Lemma sample_rates : rates_u64 sample_pricing.
Proof. repeat split; vm_compute; discriminate. Qed.

Lemma pricing_table_agrees_witness :
  models_get sample_table "anthropic/sample" = Some sample_pricing ∧
  nominal_cost_micros sample_pricing (mkUsage 1200 350 90000 0 77) =
    Some 37005 ∧ validate sample_table = Ok tt.
Proof.
  split; [done|]. split; [|vm_compute; done].
  pose proof (pricing_table_agrees sample_table "anthropic/sample" sample_pricing
    (mkUsage 1200 350 90000 0 77) eq_refl sample_rates) as H.
  assert (usage_u64 (mkUsage 1200 350 90000 0 77)) as Hu by (repeat split; vm_compute; discriminate).
  specialize (H Hu). vm_compute in H |- *. destruct H as [H _]. exact H.
Defined.

Lemma charge_bound_sound_witness :
  charge_bound (Some sample_metadata) (BoundedInput 10000) 4096 = Ok (Bounded (UsdMicros 185880)) ∧
  ∃ c', actual_charge (settle_cost (Some sample_metadata)
          (mkOutcome (Some (mkUsage 9000 4000 9000 0 4000)) true)) = Some c' ∧
        unit_index c' = 0%nat ∧ 0 ≤ amount c' ≤ 185880.
Proof.
  split; [vm_compute; done|].
  refine (charge_bound_sound sample_metadata 10000 4096 (UsdMicros 185880)
    (mkUsage 9000 4000 9000 0 4000) _ _ _ _ _ _).
  - split; [exact sample_rates|done].
  - split; vm_compute; discriminate.
  - split; vm_compute; discriminate.
  - vm_compute; done.
  - repeat split; vm_compute; discriminate.
  - repeat split; vm_compute; discriminate.
Defined.

Definition sample_resolved : ResolvedModel :=
  mkResolvedModel "anthropic/sample" "anthropic" "sample" None sample_capabilities (Some sample_pricing)
    (Some UserConfig) ApiDollars.
Lemma effective_metadata_typed_witness :
  pricing (effective_model_metadata sample_resolved (Some (mkMetadata sample_capabilities None UnpricedApi))) =
    Some sample_pricing.
Proof.
  apply (effective_metadata_typed sample_resolved _ (mkUsage 0 0 0 0 0)); [by left|done].
Defined.
