(* ===== verification/Router.v ===== *)
(** Routing of model calls ([rw-providers/src/router.rs], [retry.rs]) and the
    owned provider stream ([rw-providers/src/settlement.rs]).

    A logical call goes through an ordered chain of candidates.  Each attempt
    opens a provider stream; a retryable failure before any semantic output is
    retried, then the next candidate is tried.  What the attempts answer, when
    the clock is read and what settling reports are arguments, so that the
    theorems hold for every provider behaviour. *)
From Stdlib Require Import Ascii.
From S2P Require Import Prelude Text Ir.

(** * Events and errors *)

Inductive FinishReason : Type := FinishStop | FinishLength | FinishToolCalls | FinishContentFilter | FinishUnknown.
Inductive ProviderEvent : Type :=
| RouteSelected (route : string)
| MessageStart (model : string)
| TextDelta (text : string)
| ThinkingDelta (content : string) (signature : option string)
| ToolCallStart (id name : string)
| ToolCallArgumentsDelta (id json_fragment : string)
| ToolCallEnd (id : string) (arguments : Value)
| Citation (uri : string) (title : option string) (start_index end_index : option Z)
| UsageEvent (usage : TokenUsage)
| Finished (reason : FinishReason).

Inductive ProviderErrorKind : Type :=
| ResourceExhausted | EffectsUnsettled | Authentication | RateLimited | Timeout | Server
| InvalidRequest | ContextOverflow | Protocol | Network | CancelledError | ReplayMiss
| NetworkDisabled | Unsupported.
Record ProviderError : Type := mkError {
  kind : ProviderErrorKind;
  message : string;
  retry_after_ms : option Z;
}.
Definition error_new (k : ProviderErrorKind) (m : string) : ProviderError := mkError k m None.

Definition is_retryable (e : ProviderError) : bool :=
  match kind e with RateLimited | Timeout | Server | Network => true | _ => false end.

Definition is_semantic (event : ProviderEvent) : bool :=
  match event with
  | TextDelta _ | ThinkingDelta _ _ | ToolCallStart _ _ | ToolCallArgumentsDelta _ _
  | ToolCallEnd _ _ | Citation _ _ _ _ => true
  | _ => false
  end.

(** One item of an event stream *)
Abbreviation Item := (Result ProviderEvent ProviderError).

(** * The owned stream *)

(** [ProviderAttemptOutcome], as the accounting of the stream observes it *)
Record Outcome : Type := mkObserved {
  observed_usage : option TokenUsage;
  observed_terminal : bool;
}.
Definition observe_event (o : Outcome) (i : Item) : Outcome :=
  match i with
  | Ok (UsageEvent u) => mkObserved (Some u) (observed_terminal o)
  | Ok (Finished _) => mkObserved (observed_usage o) true
  | Err _ => mkObserved (observed_usage o) false
  | _ => o
  end.

(** [OwnedProviderStream::poll_next], polled to its end: the items of the
    provider, the result of settling effects and accounting, and whether a
    terminal is held back.  Returns what the consumer sees and the outcome that
    is settled. *)
Fixpoint owned_stream (items : list Item) (completion : Result unit ProviderError)
    (terminal : option ProviderEvent) (o : Outcome) : list Item * Outcome :=
  match items with
  | [] =>
      (match completion with
       | Ok _ => match terminal with Some t => [Ok t] | None => [] end
       | Err e => [Err e]
       end, o)
  | i :: rest =>
      let o := observe_event o i in
      match i with
      | Ok event =>
          match terminal with
          | Some _ =>
              (Err (error_new Protocol "provider emitted data after its terminal") ::
               match completion with Ok _ => [] | Err e => [Err e] end,
               mkObserved (observed_usage o) false)
          | None =>
              match event with
              | Finished _ => owned_stream rest completion (Some event) o
              | _ => let '(out, o') := owned_stream rest completion None o in (Ok event :: out, o')
              end
          end
      | Err e => let '(out, o') := owned_stream rest completion None o in (Err e :: out, o')
      end
  end.

(** * Candidates *)

Record ModelCandidate : Type := mkCandidate {
  provider : string;
  model : string;
}.
#[global] Instance ModelCandidate_eq_dec : EqDecision ModelCandidate. Proof. solve_decision. Defined.
#[global] Instance ModelCandidate_countable : Countable ModelCandidate.
Proof.
  refine (inj_countable' (λ c, (provider c, model c)) (λ p, mkCandidate p.1 p.2) _). by intros [].
Defined.

Inductive RouterError : Type :=
| OperationAdmission (message : string)
| AliasNotConfigured (alias : string)
| InvalidCandidate (value : string)
| ProviderNotRegistered (name : string)
| ProviderNotAvailable (alias provider : string).

(** [ModelCandidate::parse] *)
Definition parse_candidate (value : string) : Result ModelCandidate RouterError :=
  match split_once "/"%char value with
  | None => Err (InvalidCandidate value)
  | Some (p, m) => if is_empty p || is_empty m then Err (InvalidCandidate value) else Ok (mkCandidate p m)
  end.

Fixpoint parse_candidates (values : list string) : Result (list ModelCandidate) RouterError :=
  match values with
  | [] => Ok []
  | v :: rest => let? c := parse_candidate v in let? cs := parse_candidates rest in Ok (c :: cs)
  end.
Fixpoint parse_aliases (aliases : list (string * list string)) : Result (list (string * list ModelCandidate)) RouterError :=
  match aliases with
  | [] => Ok []
  | (alias, values) :: rest =>
      let? cs := parse_candidates values in let? r := parse_aliases rest in Ok ((alias, cs) :: r)
  end.

(** [ProviderRouter::with_registry_and_timing]: the aliases are a map with its
    entries in key order, the providers a set of registry keys. *)
Definition router_aliases (aliases : list (string * list string)) (providers : list string)
    : Result (list (string * list ModelCandidate)) RouterError :=
  let? parsed := parse_aliases aliases in
  match List.find (λ c, negb (existsb (String.eqb (provider c)) providers)) (concat (map snd parsed)) with
  | Some c => Err (ProviderNotRegistered (provider c))
  | None => Ok parsed
  end.

Definition resolve (parsed : list (string * list ModelCandidate)) (alias : string)
    : Result (list ModelCandidate) RouterError :=
  match List.find (λ e, String.eqb (fst e) alias) parsed with
  | Some (_, (c :: cs)) => Ok (c :: cs)
  | _ => Err (AliasNotConfigured alias)
  end.

(** * Retry delays *)

(** [Duration] in nanoseconds *)
Definition DURATION_MAX : Z := (2 ^ 64 - 1) * 1000000000 + 999999999.
Record RetryPolicy : Type := mkRetry {
  max_attempts : nat;
  base_delay : Z;
  max_delay : Z;
}.
(** [mul_f64] is the product of the duration with the clamped jitter *)
Definition delay_for (r : RetryPolicy) (mul_f64 : Z → Z) (retry_index : nat) (e : ProviderError) : Z :=
  match retry_after_ms e with
  | Some ms => Z.min (ms * 1000000) (120 * 1000000000)
  | None =>
      let factor := Z.min (2 ^ Z.of_nat (Nat.min retry_index 31)) (2 ^ 32 - 1) in
      let base := Z.min (Z.min (base_delay r * factor) DURATION_MAX) (max_delay r) in
      Z.min (Z.min (base + mul_f64 base) DURATION_MAX) (max_delay r)
  end.

(** * Cooldowns *)

Abbreviation Cooldowns := (gmap ModelCandidate Z).
Definition candidate_is_cooling (m : Cooldowns) (c : ModelCandidate) (now : Z) : bool * Cooldowns :=
  match m !! c with
  | Some deadline => if now <? deadline then (true, m) else (false, delete c m)
  | None => (false, m)
  end.
Definition mark_cooling (m : Cooldowns) (c : ModelCandidate) (now duration : Z) : Cooldowns :=
  <[c := now + duration]> m.

(** * One logical call *)

Definition u32_max : Z := 2 ^ 32 - 1.

(** An attempt that was made: its number, its candidate and what it answered *)
Record Attempt : Type := mkAttempt {
  number : Z;
  attempted : ModelCandidate;
  answered : Result (list Item) ProviderError;
}.
Record RouteState : Type := mkRoute {
  last_error : option ProviderError;
  next_attempt : option Z;
  cooldowns : Cooldowns;
  clock_reads : nat;
  delays : list Z;
  trace : list Attempt;
}.

Section route.
(** The registered providers, the answer of each attempt, what settling its
    effects reports, the readings of the clock, the jitter of each delay *)
Context (registered : string → bool).
Context (answer : Z → ModelCandidate → Result (list Item) ProviderError).
Context (settled : Z → Result unit ProviderError).
Context (clock : nat → Z).
Context (jitter : nat → Z → Z).
Context (retry : RetryPolicy) (failover_cooldown : Z).

(** The inner loop over the provider stream: what is yielded, and the error it
    ends with, with whether semantic output was emitted before *)
Fixpoint read_stream (pre_semantic : list ProviderEvent) (semantic_emitted : bool) (items : list Item)
    : list Item * option (ProviderError * bool) :=
  match items with
  | [] => (map Ok pre_semantic, None)
  | Ok event :: rest =>
      if is_semantic event then
        let '(out, e) := read_stream [] true rest in ((map Ok pre_semantic ++ Ok event :: out)%list, e)
      else if semantic_emitted then
        let '(out, e) := read_stream pre_semantic true rest in (Ok event :: out, e)
      else read_stream (pre_semantic ++ [event])%list false rest
  | Err error :: _ => ([], Some (error, semantic_emitted))
  end.

Definition attempts_allowed : nat := Nat.max (max_attempts retry) 1.

Definition record_attempt (st : RouteState) (n : Z) (c : ModelCandidate) : RouteState :=
  mkRoute (last_error st) (if n + 1 <=? u32_max then Some (n + 1) else None) (cooldowns st) (clock_reads st)
    (delays st) (trace st ++ [mkAttempt n c (answer n c)])%list.
Definition set_last_error (st : RouteState) (e : ProviderError) : RouteState :=
  mkRoute (Some e) (next_attempt st) (cooldowns st) (clock_reads st) (delays st) (trace st).
Definition wait_before_retry (st : RouteState) (attempt : nat) (e : ProviderError) : RouteState :=
  mkRoute (last_error st) (next_attempt st) (cooldowns st) (clock_reads st)
    (delays st ++ [delay_for retry (jitter (length (delays st))) attempt e])%list (trace st).
Definition cool_down (st : RouteState) (c : ModelCandidate) : RouteState :=
  mkRoute (last_error st) (next_attempt st)
    (mark_cooling (cooldowns st) c (clock (clock_reads st)) failover_cooldown) (S (clock_reads st))
    (delays st) (trace st).

(** The attempts of one candidate: either the stream ends with some output, or
    the next candidate is tried ([None]). *)
Fixpoint attempt_loop (remaining attempt : nat) (c : ModelCandidate) (st : RouteState)
    : option (list Item) * RouteState :=
  match remaining with
  | O => (None, st)
  | S remaining' =>
      match next_attempt st with
      | None => (Some [Err (error_new InvalidRequest "provider attempt identity exhausted")], st)
      | Some n =>
          let st := record_attempt st n c in
          let failed e :=
            let st := set_last_error st e in
            if Nat.ltb (attempt + 1) attempts_allowed
            then attempt_loop remaining' (S attempt) c (wait_before_retry st attempt e)
            else (None, cool_down st c) in
          match answer n c with
          | Err e => if is_retryable e then failed e else (Some [Err e], set_last_error st e)
          | Ok items =>
              let '(out, ending) := read_stream [RouteSelected (provider c)] false items in
              match ending with
              | None => (Some out, st)
              | Some (e, semantic_emitted) =>
                  match settled n with
                  | Err unsettled => (Some (out ++ [Err unsettled])%list, st)
                  | Ok _ => if semantic_emitted || negb (is_retryable e) then (Some (out ++ [Err e])%list, st)
                            else failed e
                  end
              end
          end
      end
  end.

Definition no_candidate_error : ProviderError :=
  error_new InvalidRequest "all configured model candidates failed before producing output".
Definition not_registered_error (name : string) : ProviderError :=
  error_new InvalidRequest ("provider '" ++ name ++ "' is no longer registered")%string.

Fixpoint candidate_loop (candidates : list ModelCandidate) (st : RouteState) : list Item * RouteState :=
  match candidates with
  | [] => ([Err (default no_candidate_error (last_error st))], st)
  | c :: rest =>
      let '(cooling, m) := candidate_is_cooling (cooldowns st) c (clock (clock_reads st)) in
      let st := mkRoute (last_error st) (next_attempt st) m (S (clock_reads st)) (delays st) (trace st) in
      if cooling then candidate_loop rest st
      else if negb (registered (provider c)) then ([Err (not_registered_error (provider c))], st)
      else match attempt_loop attempts_allowed 0 c st with
           | (Some out, st) => (out, st)
           | (None, st) => candidate_loop rest st
           end
  end.

(** [ProviderRouter::stream_candidates], consumed to its end; the preflight of
    the output contract has passed *)
Definition stream_candidates (alias : string) (candidates : list ModelCandidate) (m : Cooldowns)
    : Result (list Item * RouteState) RouterError :=
  match candidates with
  | [] => Err (AliasNotConfigured alias)
  | _ => Ok (candidate_loop candidates (mkRoute None (Some 0) m 0 [] []))
  end.

(** * What a stream yields *)

Fixpoint ok_prefix (items : list Item) : list ProviderEvent :=
  match items with Ok e :: rest => e :: ok_prefix rest | _ => [] end.
Fixpoint first_error (items : list Item) : option ProviderError :=
  match items with [] => None | Ok _ :: rest => first_error rest | Err e :: _ => Some e end.
Definition spoke (items : list Item) : bool := existsb is_semantic (ok_prefix items).

Lemma read_stream_after items :
  read_stream [] true items =
  (map Ok (ok_prefix items), (λ e, (e, true)) <$> first_error items).
Proof using Type.
  induction items as [|[ev|e] items IH]; cbn [read_stream ok_prefix first_error map]; [done| |done].
  rewrite IH. by destruct (is_semantic ev).
Qed.
Lemma read_stream_before pre items :
  read_stream pre false items =
  match first_error items with
  | None => (map Ok (pre ++ ok_prefix items), None)%list
  | Some e => if spoke items then (map Ok (pre ++ ok_prefix items), Some (e, true))%list else ([], Some (e, false))
  end.
Proof using Type.
  revert pre. induction items as [|[ev|e] items IH]; intros pre; unfold spoke; cbn [read_stream ok_prefix first_error existsb].
  - by rewrite app_nil_r.
  - destruct (is_semantic ev); cbn [orb].
    + rewrite read_stream_after, map_app. cbn [map]. by destruct (first_error items).
    + rewrite IH. unfold spoke. rewrite <- (assoc_L (++)). done.
  - done.
Qed.

(** * Attempts *)

(** A failure that may be retried: refused, or ended before any semantic
    output, with a retryable error and settled effects *)
Definition gave_up (a : Attempt) : Prop :=
  match answered a with
  | Err e => is_retryable e = true
  | Ok items => spoke items = false ∧ is_ok (settled (number a)) = true ∧
                ∃ e, first_error items = Some e ∧ is_retryable e = true
  end.
(** The attempt whose events are the output *)
Definition served (a : Attempt) (out : list Item) : Prop :=
  ∃ items tail, answered a = Ok items ∧
    out = (Ok (RouteSelected (provider (attempted a))) :: map Ok (ok_prefix items) ++ tail)%list ∧
    (first_error items = None ∧ tail = [] ∨
     ∃ e e', first_error items = Some e ∧ spoke items = true ∧ tail = [Err e'] ∧
             (e' = e ∨ settled (number a) = Err e')).
(** A failure that ends the call before any output *)
Definition refused (a : Attempt) (out : list Item) : Prop :=
  ∃ e, out = [Err e] ∧
    match answered a with
    | Err e' => e' = e ∧ is_retryable e = false
    | Ok items => spoke items = false ∧ ∃ e', first_error items = Some e' ∧
                  (e' = e ∧ is_retryable e = false ∨ settled (number a) = Err e)
    end.
Definition concluded (new : list Attempt) (out : list Item) : Prop :=
  (∃ pre a, new = (pre ++ [a])%list ∧ Forall gave_up pre ∧ (served a out ∨ refused a out)) ∨
  Forall gave_up new ∧ ∃ e, out = [Err e].

(** Numbers go on from the next one, across candidates. *)
Definition numbered (st st' : RouteState) (new : list Attempt) : Prop :=
  match next_attempt st with
  | None => new = [] ∧ next_attempt st' = None
  | Some n => map number new = seqZ n (Z.of_nat (length new)) ∧
              (next_attempt st' = Some (n + Z.of_nat (length new)) ∨ next_attempt st' = None)
  end.
Lemma numbered_nil st st' : next_attempt st' = next_attempt st → numbered st st' [].
Proof using Type. unfold numbered. intros ->. destruct (next_attempt st); [|done]. split; [done|left; f_equal; simpl; lia]. Qed.
Lemma numbered_cons st st' n c new st1 :
  next_attempt st = Some n → next_attempt st1 = (if n + 1 <=? u32_max then Some (n + 1) else None) →
  numbered st1 st' new → numbered st st' (mkAttempt n c (answer n c) :: new).
Proof using Type.
  unfold numbered. intros -> ->. cbn [map length number]. rewrite Nat2Z.inj_succ, seqZ_cons by lia.
  destruct (n + 1 <=? u32_max).
  - intros [-> H]. rewrite Z.add_1_r in *. replace (Z.pred (Z.succ (Z.of_nat (length new)))) with (Z.of_nat (length new)) by lia.
    split; [done|]. destruct H as [->|]; [left; f_equal; lia|by right].
  - intros [-> ->]. split; [done|by right].
Qed.
Lemma numbered_app st st1 st2 l k : numbered st st1 l → numbered st1 st2 k → numbered st st2 (l ++ k).
Proof using Type.
  unfold numbered. destruct (next_attempt st) as [n|].
  - intros [Hl [->| ->]].
    + intros [Hk Hn]. rewrite map_app, Hl, Hk, length_app, Nat2Z.inj_add, seqZ_app by lia. split; [done|].
      destruct Hn as [->|]; [left; f_equal; lia|by right].
    + intros [-> ->]. rewrite app_nil_r. auto.
  - intros [-> ->]. done.
Qed.

(** What the attempts of a candidate do *)
Definition loop_spec (k : nat) (c : ModelCandidate) (st : RouteState) (o : option (list Item)) (st' : RouteState) : Prop :=
  ∃ new, trace st' = (trace st ++ new)%list ∧ Forall (λ a, attempted a = c ∧ answered a = answer (number a) c) new ∧
    (length new ≤ k)%nat ∧ numbered st st' new ∧
    (∀ d, d ≠ c → cooldowns st' !! d = cooldowns st !! d) ∧
    match o with None => Forall gave_up new | Some out => concluded new out end.
Lemma attempt_loop_spec k i c st o st' : attempt_loop k i c st = (o, st') → loop_spec k c st o st'.
Proof using Type.
  revert i st o st'. induction k as [|k IH]; intros i st o st'; cbn [attempt_loop].
  { intros [= <- <-]. exists []. rewrite app_nil_r. split_and!; try done. by apply numbered_nil. }
  destruct (next_attempt st) as [n|] eqn:En.
  2: { intros [= <- <-]. exists []. rewrite app_nil_r. split_and!; try done; [simpl; lia|by apply numbered_nil|].
       right. split; [done|eauto]. }
  set (st1 := record_attempt st n c). set (a := mkAttempt n c (answer n c)).
  assert (∀ st2, next_attempt st2 = next_attempt st1 → numbered st st2 [a]) as Hone.
  { intros st2 H. eapply (numbered_cons st st2 n c [] st1); [done|done|by apply numbered_nil]. }
  assert (∀ e, gave_up a →
    (if Nat.ltb (i + 1) attempts_allowed
     then attempt_loop k (S i) c (wait_before_retry (set_last_error st1 e) i e)
     else (None, cool_down (set_last_error st1 e) c)) = (o, st') →
    loop_spec (S k) c st o st') as Hfail.
  { intros e Ha. destruct (Nat.ltb (i + 1) attempts_allowed).
    - intros (new & Ht & Hc & Hl & Hn & Hd & Ho)%IH. exists (a :: new). cbn [trace wait_before_retry set_last_error st1 record_attempt] in Ht.
      rewrite <- (assoc_L (++)) in Ht. split_and!; [done|by constructor|simpl; lia| |done|].
      + eapply (numbered_cons st st' n c new _ En); [|exact Hn]. done.
      + destruct o as [out|]; [|by constructor]. destruct Ho as [(pre & b & -> & Hp & Hb)|[Hp He]].
        * left. exists (a :: pre), b. split; [done|]. split; [by constructor|done].
        * right. split; [by constructor|done].
    - intros [= <- <-]. exists [a]. split_and!; [done|by constructor|simpl; lia|by apply Hone| |by constructor].
      intros d Hd. cbn [cooldowns cool_down set_last_error st1 record_attempt]. unfold mark_cooling. by rewrite lookup_insert_ne. }
  assert (∀ out st2, trace st2 = trace st1 → cooldowns st2 = cooldowns st1 → next_attempt st2 = next_attempt st1 →
    served a out ∨ refused a out → (Some out, st2) = (o, st') →
    loop_spec (S k) c st o st') as Hend.
  { intros out st2 Ht Hc Hn Hs [= <- <-]. exists [a]. rewrite Ht, Hc.
    split_and!; [done|by constructor|simpl; lia|by apply Hone|done|]. left. exists [], a. split_and!; done. }
  destruct (answer n c) as [items|e] eqn:Ea.
  - rewrite read_stream_before. destruct (first_error items) as [e|] eqn:Ef.
    + destruct (spoke items) eqn:Es.
      * destruct (settled n) as [[]|u] eqn:Eset; apply Hend; try done; left; exists items; eexists;
          (split_and!; [done|cbn [map app attempted a]; reflexivity|]); right; exists e; eexists;
          split_and!; try done; [by left|by right].
      * destruct (settled n) as [[]|u] eqn:Eset.
        -- cbn [orb]. destruct (is_retryable e) eqn:Er; cbn [negb].
           ++ apply Hfail. unfold gave_up. cbn [answered a number]. rewrite Eset. eauto.
           ++ apply Hend; try done. right. exists e. split; [done|]. cbn [answered a]. eauto 10.
        -- apply Hend; try done. right. exists u. split; [done|]. cbn [answered a number]. eauto 10.
    + apply Hend; try done. left. exists items, []. split_and!; [done|cbn [map app attempted a]; by rewrite app_nil_r|by left].
  - destruct (is_retryable e) eqn:Er.
    + apply Hfail. unfold gave_up. cbn [answered a]. done.
    + apply Hend; try done. right. exists e. split; [done|]. cbn [answered a]. done.
Qed.

(** * Candidates in order *)

Lemma concluded_app pre new out : Forall gave_up pre → concluded new out → concluded (pre ++ new) out.
Proof using Type.
  intros Hp [(l & a & -> & Hl & Ha)|[Hl He]].
  - left. exists (pre ++ l)%list, a. rewrite (assoc_L (++)). split_and!; [done|by apply Forall_app|done].
  - right. split; [by apply Forall_app|done].
Qed.

Lemma cooling_other m c d now : d ≠ c → (candidate_is_cooling m c now).2 !! d = m !! d.
Proof using Type.
  intros Hne. unfold candidate_is_cooling. destruct (m !! c) as [dl|] eqn:E; [|done].
  destruct (now <? dl); [done|]. by apply lookup_delete_ne.
Qed.

Definition plan_of (cs : list ModelCandidate) : list ModelCandidate :=
  concat (map (λ c, replicate attempts_allowed c) cs).

Lemma candidate_loop_spec cs st out st' :
  candidate_loop cs st = (out, st') →
  ∃ new, trace st' = (trace st ++ new)%list ∧ Forall (λ a, answered a = answer (number a) (attempted a)) new ∧
    map attempted new `sublist_of` plan_of cs ∧ numbered st st' new ∧ concluded new out ∧
    ∀ c d, cooldowns st !! c = Some d → (∀ n, clock n < d) → c ∉ map attempted new.
Proof using Type.
  revert st out st'. induction cs as [|c cs IH]; intros st out st'; cbn [candidate_loop].
  { intros [= <- <-]. exists []. rewrite app_nil_r. split_and!; try done; [by apply numbered_nil| |].
    - right. split; [done|eauto].
    - intros ? ? _ _. apply not_elem_of_nil. }
  pose proof (cooling_other (cooldowns st) c) as Hother.
  destruct (candidate_is_cooling (cooldowns st) c (clock (clock_reads st))) as [cooling m] eqn:Ec.
  set (st1 := mkRoute _ _ _ _ _ _). destruct cooling.
  { intros (new & Ht & Ha & Hs & Hn & Ho & Hc)%IH. exists new. split_and!; try done.
    - etrans; [exact Hs|]. unfold plan_of. cbn [map concat]. by apply sublist_inserts_l.
    - intros d dl Hd Hcl. apply (Hc d dl); [|done]. unfold candidate_is_cooling in Ec.
      destruct (cooldowns st !! c) as [x|]; [|done]. destruct (_ <? x); [|done]. by injection Ec as <-. }
  assert (∀ dl, cooldowns st !! c = Some dl → ¬ (∀ n, clock n < dl)) as Hnot.
  { intros dl Hd Hcl. unfold candidate_is_cooling in Ec. rewrite Hd in Ec.
    specialize (Hcl (clock_reads st)). destruct (Z.ltb_spec (clock (clock_reads st)) dl); [done|lia]. }
  destruct (negb (registered (provider c))).
  { intros [= <- <-]. exists []. rewrite app_nil_r. split_and!; try done; [apply sublist_nil_l|by apply numbered_nil| |].
    - right. split; [done|eauto].
    - intros ? ? _ _. apply not_elem_of_nil. }
  destruct (attempt_loop attempts_allowed 0 c st1) as [o st2] eqn:Ea.
  apply attempt_loop_spec in Ea as (new & Ht & Hc & Hl & Hn & Hd & Ho).
  assert (map attempted new = replicate (length new) c) as Erep.
  { clear -Hc. induction Hc as [|a l [Ha _] Hl IH]; [done|]. cbn [map length replicate]. by rewrite Ha, IH. }
  assert (map attempted new `sublist_of` replicate attempts_allowed c) as Hsub.
  { rewrite Erep. replace attempts_allowed with (length new + (attempts_allowed - length new))%nat by lia.
    rewrite replicate_add. by apply sublist_inserts_r. }
  assert (Forall (λ a, answered a = answer (number a) (attempted a)) new) as Hans.
  { eapply Forall_impl; [exact Hc|]. intros a [-> ?]. done. }
  assert (∀ d dl, cooldowns st !! d = Some dl → (∀ n, clock n < dl) → d ≠ c ∧ d ∉ map attempted new) as Hskip.
  { intros d dl Hdl Hcl. assert (d ≠ c) as Hne by (intros ->; by apply (Hnot dl Hdl)). split; [done|].
    rewrite Erep. intros [? _]%elem_of_replicate. done. }
  destruct o as [out'|].
  - intros [= <- <-]. exists new. split_and!; try done.
    + unfold plan_of. cbn [map concat]. by apply sublist_inserts_r.
    + intros d dl Hdl Hcl. by apply (Hskip d dl).
  - intros (new' & Ht' & Ha' & Hs' & Hn' & Ho' & Hc')%IH. exists (new ++ new')%list.
    split_and!.
    + rewrite Ht', Ht. cbn [trace st1]. by rewrite (assoc_L (++)).
    + by apply Forall_app.
    + rewrite map_app. unfold plan_of. cbn [map concat]. by apply sublist_app.
    + by eapply numbered_app.
    + by apply concluded_app.
    + intros d dl Hdl Hcl. destruct (Hskip d dl Hdl Hcl) as [Hne Hout]. rewrite map_app, not_elem_of_app.
      split; [done|]. apply (Hc' d dl); [|done]. rewrite Hd by done. cbn [cooldowns st1].
      specialize (Hother d (clock (clock_reads st)) Hne). rewrite Ec in Hother. cbn [snd] in Hother. by rewrite Hother.
Qed.
End route.

Lemma Ok_inj {A E} (a b : A) : @Ok A E a = Ok b → a = b.
Proof. congruence. Qed.

(** C32: a logical call never duplicates model output. Whatever the providers
    answer: the attempts are numbered consecutively from zero, go through the
    candidates in their order, each at most as often as the policy allows, and
    every attempt but the last failed with a retryable error before any
    semantic event. The output is a lone error, or the route of one attempt
    followed by exactly the events of that attempt, up to its error if it had
    one. *)
Theorem route_single_output registered answer settled clock jitter retry cooldown alias cs m out st :
  stream_candidates registered answer settled clock jitter retry cooldown alias cs m = Ok (out, st) →
  concluded settled (trace st) out ∧
  map number (trace st) = seqZ 0 (Z.of_nat (length (trace st))) ∧
  map attempted (trace st) `sublist_of` plan_of retry cs ∧
  Forall (λ a, answered a = answer (number a) (attempted a)) (trace st).
Proof.
  unfold stream_candidates. destruct cs as [|c cs]; [done|]. intros H%Ok_inj.
  apply candidate_loop_spec in H as (new & Ht & Ha & Hs & Hn & Ho & _). cbn [trace app] in Ht. rewrite Ht.
  unfold numbered in Hn. cbn [next_attempt] in Hn. split_and!; try done. apply Hn.
Qed.

(** A cooling candidate is left alone: while its deadline is in the
    future of every reading of the clock, no attempt of the call goes to it. *)
Theorem cooling_candidate_skipped registered answer settled clock jitter retry cooldown alias cs m out st c deadline :
  stream_candidates registered answer settled clock jitter retry cooldown alias cs m = Ok (out, st) →
  m !! c = Some deadline → (∀ n, clock n < deadline) → c ∉ map attempted (trace st).
Proof.
  unfold stream_candidates. destruct cs as [|c' cs]; [done|]. intros H%Ok_inj Hm Hc.
  apply candidate_loop_spec in H as (new & Ht & _ & _ & _ & _ & Hskip). cbn [trace app] in Ht. rewrite Ht.
  by apply (Hskip c deadline).
Qed.

(** * The owned stream *)

Fixpoint last_usage (items : list Item) : option TokenUsage :=
  match items with
  | [] => None
  | Ok (UsageEvent u) :: rest => match last_usage rest with Some v => Some v | None => Some u end
  | _ :: rest => last_usage rest
  end.

Definition usage_or (u : option TokenUsage) (o : Outcome) : option TokenUsage :=
  match u with Some v => Some v | None => observed_usage o end.

Lemma owned_held events completion t o out o' r :
  owned_stream (map Ok events) completion (Some t) o = (out, o') → Ok (Finished r) ∈ out →
  t = Finished r ∧ completion = Ok tt ∧ events = [] ∧ o' = o ∧ out = [Ok (Finished r)].
Proof.
  destruct events as [|ev events]; cbn [map owned_stream].
  - destruct completion as [[]|e]; intros [= <- <-]; rewrite list_elem_of_singleton; intros [= ->]. done.
  - intros [= <- _]. rewrite elem_of_cons. intros [?|Hin]; [done|].
    destruct completion; [by apply not_elem_of_nil in Hin|]. by apply list_elem_of_singleton in Hin.
Qed.
Lemma owned_open events completion o out o' r :
  owned_stream (map Ok events) completion None o = (out, o') → Ok (Finished r) ∈ out →
  completion = Ok tt ∧ last out = Some (Ok (Finished r)) ∧ observed_terminal o' = true ∧
  observed_usage o' = usage_or (last_usage (map Ok events)) o.
Proof.
  revert o out. induction events as [|ev events IH]; intros o out; cbn [map owned_stream].
  { destruct completion; intros [= <- <-]; [by intros ?%not_elem_of_nil|by rewrite list_elem_of_singleton]. }
  set (o1 := observe_event o (Ok ev)).
  assert (∀ out, (let '(out', o'') := owned_stream (map Ok events) completion None o1 in (Ok ev :: out', o'')) = (out, o') →
    (∀ q, ev ≠ Finished q) → Ok (Finished r) ∈ out →
    completion = Ok tt ∧ last out = Some (Ok (Finished r)) ∧ observed_terminal o' = true ∧
    observed_usage o' = usage_or (last_usage (map Ok events)) o1) as Hgo.
  { clear out. intros out. destruct (owned_stream (map Ok events) completion None o1) as [out' o''] eqn:E.
    intros [= <- <-] Hne. rewrite elem_of_cons. intros [[= ?]|Hin]; [by destruct (Hne r)|].
    destruct (IH o1 out' E Hin) as (? & Hl & ? & ?). split_and!; try done.
    rewrite last_cons, Hl. done. }
  destruct ev; try (intros H Hin; destruct (Hgo out H ltac:(done) Hin) as (? & ? & ? & Hu); split_and!; try done;
    rewrite Hu; cbn [last_usage]; destruct (last_usage (map Ok events)); done).
  intros H Hin. destruct (owned_held _ _ _ _ _ _ _ H Hin) as ([= ->] & -> & -> & -> & ->). done.
Qed.

(** A terminal event is visible only after settlement. When the consumer of
    an owned stream sees the end of the response, then it is the last thing it
    sees, the effects of the provider and the accounting of the attempt have
    settled without error, and the settled outcome is a terminal one with the
    last usage the provider reported. *)
Theorem terminal_after_settlement events completion out o r :
  owned_stream (map Ok events) completion None (mkObserved None false) = (out, o) → Ok (Finished r) ∈ out →
  completion = Ok tt ∧ last out = Some (Ok (Finished r)) ∧ observed_terminal o = true ∧
  observed_usage o = last_usage (map Ok events).
Proof.
  intros H Hin. destruct (owned_open events completion _ out o r H Hin) as (? & ? & ? & Hu).
  split_and!; try done. rewrite Hu. by destruct (last_usage (map Ok events)).
Qed.

(** * Aliases *)

Lemma split_once_join c s a b : split_once c s = Some (a, b) → s = (a ++ String c b)%string.
Proof.
  revert a b. induction s as [|d s IH]; intros a b; cbn [split_once]; [done|].
  destruct (Ascii.eqb_spec d c) as [->|]; [by intros [= <- <-]|].
  destruct (split_once c s) as [[a' b']|]; [|done]. intros [= <- <-]. by rewrite (IH a' b' eq_refl).
Qed.
Definition print_candidate (c : ModelCandidate) : string := (provider c ++ "/" ++ model c)%string.
Lemma parse_candidate_print v c : parse_candidate v = Ok c → v = print_candidate c.
Proof.
  unfold parse_candidate. destruct (split_once "/" v) as [[p m]|] eqn:E; [|done].
  destruct (is_empty p || is_empty m); [done|]. intros [= <-]. by apply split_once_join in E.
Qed.
Lemma parse_candidates_print values cs : parse_candidates values = Ok cs → values = map print_candidate cs.
Proof.
  revert cs. induction values as [|v values IH]; intros cs; cbn [parse_candidates]; [by intros [= <-]|].
  destruct (parse_candidate v) as [c|] eqn:E; [|done]. destruct (parse_candidates values) as [r|]; [|done].
  intros [= <-]. cbn [map]. by rewrite <- (parse_candidate_print v c E), <- (IH r eq_refl).
Qed.
Lemma parse_aliases_print aliases parsed :
  parse_aliases aliases = Ok parsed → aliases = map (λ e, (e.1, map print_candidate e.2)) parsed.
Proof.
  revert parsed. induction aliases as [|[alias values] rest IH]; intros parsed; cbn [parse_aliases]; [by intros [= <-]|].
  destruct (parse_candidates values) as [cs|] eqn:E; [|done]. destruct (parse_aliases rest) as [r|]; [|done].
  intros [= <-]. cbn [map fst snd]. by rewrite <- (parse_candidates_print values cs E), <- (IH r eq_refl).
Qed.

(** A configured alias routes exactly as written: what a router resolves is
    the configured chain itself, in its order, each entry the text
    [provider/model] it was parsed from, and it is not empty and names only
    registered providers. *)
Theorem resolve_configured aliases providers parsed alias cs :
  router_aliases aliases providers = Ok parsed → resolve parsed alias = Ok cs →
  In (alias, map print_candidate cs) aliases ∧ cs ≠ [] ∧
  Forall (λ c, existsb (String.eqb (provider c)) providers = true) cs.
Proof.
  unfold router_aliases, resolve. destruct (parse_aliases aliases) as [p|] eqn:E; [|done].
  destruct (List.find _ (concat (map snd p))) eqn:Ef; [done|]. intros [= <-].
  destruct (List.find _ p) as [[a l]|] eqn:Ea; [|done]. destruct l as [|c l]; [done|]. intros [= <-].
  apply find_some in Ea as [Hin Heq]. apply String.eqb_eq in Heq. cbn [fst] in Heq. subst a.
  split_and!; [|done|].
  - rewrite (parse_aliases_print aliases p E). apply in_map_iff. by exists (alias, c :: l).
  - apply Forall_forall. intros d Hd.
    pose proof (find_none _ _ Ef d) as Hn. cbn beta in Hn. apply negb_false_iff, Hn.
    apply in_concat. exists (c :: l). split; [apply in_map_iff; by exists (alias, c :: l)|by apply list_elem_of_In].
Qed.

(** * Delays *)

(** A retry never waits longer than the policy's ceiling, or than two minutes
    on the server's request, and without jitter never shorter than the
    previous one. *)
Lemma delay_bounded r mul_f64 i e :
  delay_for r mul_f64 i e ≤ Z.max (max_delay r) (120 * 1000000000).
Proof. unfold delay_for. destruct (retry_after_ms e); lia. Qed.
Lemma delay_grows r mul_f64 i j e :
  0 ≤ base_delay r → (∀ x y, x ≤ y → mul_f64 x ≤ mul_f64 y) → (i ≤ j)%nat →
  delay_for r mul_f64 i e ≤ delay_for r mul_f64 j e.
Proof.
  intros Hb Hm Hij. unfold delay_for. destruct (retry_after_ms e); [done|].
  assert (2 ^ Z.of_nat (Nat.min i 31) ≤ 2 ^ Z.of_nat (Nat.min j 31)) by (apply Z.pow_le_mono_r; lia).
  set (f i := Z.min (Z.min (base_delay r * Z.min (2 ^ Z.of_nat (Nat.min i 31)) (2 ^ 32 - 1)) DURATION_MAX) (max_delay r)).
  fold (f i). fold (f j). assert (f i ≤ f j) as Hf by (unfold f; nia). pose proof (Hm _ _ Hf). lia.
Qed.

(** * Witnesses *)

Definition cand_a : ModelCandidate := mkCandidate "a" "m/1".
Definition cand_b : ModelCandidate := mkCandidate "b" "m2".
Definition server_error : ProviderError := error_new Server "unavailable".
(** The first candidate fails twice before output, the second serves. *)
Definition sample_answer (n : Z) (c : ModelCandidate) : Result (list Item) ProviderError :=
  if n =? 0 then Ok [Ok (MessageStart "m/1"); Err server_error]
  else if n =? 1 then Err server_error
  else Ok [Ok (MessageStart "m2"); Ok (TextDelta "hi"); Ok (Finished FinishStop)].
Definition sample_route : Result (list Item * RouteState) RouterError :=
  stream_candidates (λ _, true) sample_answer (λ _, Ok tt) Z.of_nat (λ _ x, 0) (mkRetry 2 250 5000) 30 "fast"
    [cand_a; cand_b] ∅.
Definition route_or (r : Result (list Item * RouteState) RouterError) : list Item * RouteState :=
  match r with Ok x => x | Err _ => ([], mkRoute None None ∅ 0 [] []) end.

Lemma route_single_output_witness :
  (route_or sample_route).1 = [Ok (RouteSelected "b"); Ok (MessageStart "m2"); Ok (TextDelta "hi"); Ok (Finished FinishStop)] ∧
  map number (trace (route_or sample_route).2) = seqZ 0 (Z.of_nat (length (trace (route_or sample_route).2))).
Proof.
  split; [vm_compute; reflexivity|].
  assert (sample_route = Ok ((route_or sample_route).1, (route_or sample_route).2)) as E by (vm_compute; reflexivity).
  destruct (route_single_output _ _ _ _ _ _ _ _ _ _ _ _ E) as (_ & H & _). exact H.
Defined.

Lemma cooling_candidate_skipped_witness :
  cand_a ∉ map attempted (trace (route_or (stream_candidates (λ _, true) sample_answer (λ _, Ok tt) (λ _, 5) (λ _ x, 0)
    (mkRetry 2 250 5000) 30 "fast" [cand_a; cand_b] {[ cand_a := 9 ]})).2).
Proof.
  refine (cooling_candidate_skipped (λ _, true) sample_answer (λ _, Ok tt) (λ _, 5) (λ _ x, 0)
    (mkRetry 2 250 5000) 30 "fast" [cand_a; cand_b] {[ cand_a := 9 ]} _ _ cand_a 9 _ _ _).
  - vm_compute. reflexivity.
  - reflexivity.
  - intros _. lia.
Defined.

Lemma terminal_after_settlement_witness :
  owned_stream (map Ok [TextDelta "hi"; UsageEvent (mkUsage 3 1 0 0 0); Finished FinishStop]) (Ok tt) None
    (mkObserved None false) =
    ([Ok (TextDelta "hi"); Ok (UsageEvent (mkUsage 3 1 0 0 0)); Ok (Finished FinishStop)],
     mkObserved (Some (mkUsage 3 1 0 0 0)) true) ∧
  observed_terminal (mkObserved (Some (mkUsage 3 1 0 0 0)) true) = true.
Proof.
  split; [reflexivity|].
  apply (terminal_after_settlement [TextDelta "hi"; UsageEvent (mkUsage 3 1 0 0 0); Finished FinishStop] (Ok tt)
    [Ok (TextDelta "hi"); Ok (UsageEvent (mkUsage 3 1 0 0 0)); Ok (Finished FinishStop)] _ FinishStop).
  - reflexivity.
  - rewrite !elem_of_cons. tauto.
Defined.

Lemma resolve_configured_witness :
  In ("fast"%string, map print_candidate [cand_a; cand_b]) [("fast"%string, ["a/m/1"; "b/m2"]%string)].
Proof.
  apply (resolve_configured [("fast"%string, ["a/m/1"; "b/m2"]%string)] ["a"; "b"]%string
    [("fast"%string, [cand_a; cand_b])] "fast" [cand_a; cand_b]); reflexivity.
Defined.
