(* ===== verification/JournalCatalog.v ===== *)
(** Names and index of the sealed journal segments
    ([rw-store/src/session/journal.rs], [journal/catalog.rs]).

    A sealed segment is named after its sequence range, its size and its
    digest; the directory listing is the only index that survives a restart.
    In memory the segments are kept in a chunked, append-only catalog that is
    searched by bisection.  BLAKE3 is an interface: [Blake3] states what the
    journal relies on. *)
From Stdlib Require Import Ascii.
From S2P Require Import Prelude Text Decimal.

Abbreviation Bytes := (list ascii).

(** * The hash function *)

Definition is_hex (c : ascii) : bool := char_in "0123456789abcdef" c.

Class Blake3 : Type := {
  Hash : Type;
  #[global] Hash_eq_dec :: EqDecision Hash;
  hash : Bytes → Hash;
  as_bytes : Hash → Bytes;
  derive_key : string → Bytes → Hash;
  to_hex : Hash → string;
  from_hex : string → option Hash;
  from_hex_to_hex : ∀ h, from_hex (to_hex h) = Some h;
  to_hex_digits : ∀ h, str_all is_hex (to_hex h) = true;
}.

(** * Errors of the session store, as the journal reports them *)

Inductive SessionStoreError : Type :=
| CorruptEvent (message : string)
| UnexpectedEventSequence (expected actual : Z)
| EventWriterPoisoned
| EventFileChangedDuringRead
| AppendRollbackFailed
| IoError
| NotFound
| JsonError
| SequenceOverflow
| LimitOverflow
| UnsupportedEventVersion (version : Z)
| EventRecordTooLarge (max_line_bytes : Z)
| EventLogTooLarge (max_bytes : Z)
| EventCountTooLarge (max_events : Z)
| EventPageCursorAhead
| InvalidEventPageLimits
| EventPageByteLimitTooSmall (required_bytes max_bytes : Z)
| EventScanBytesExceeded (max_bytes : Z)
| EventScanCountExceeded (max_events : Z)
| InvalidEventDecodeLimit
| EventDecodeLimitTooSmall (required_bytes max_bytes : Z).

(** * Segments *)

Definition SEGMENT_TARGET_BYTES : Z := 1024 * 1024.
Definition MAX_SEGMENT_BYTES : Z := 16 * 1024 * 1024.
Definition MAX_SEGMENTS : nat := Z.to_nat 65536.

(** [u64::to_le_bytes] *)
Fixpoint le_bytes (k : nat) (n : Z) : Bytes :=
  match k with O => [] | S k' => ascii_of_nat (Z.to_nat (n mod 256)) :: le_bytes k' (n / 256) end.

Section segments.
Context `{B : Blake3}.

Record Segment : Type := mkSegment {
  seg_first : Z;
  seg_next : Z;
  seg_bytes : Z;
  seg_digest : Hash;
  seg_name : string;
}.

Definition segment_name (first next bytes : Z) (digest : Hash) : string :=
  (pad 20 first ++ "-" ++ pad 20 next ++ "-" ++ pad 20 bytes ++ "-" ++ to_hex digest ++ ".jsonl")%string.

Definition extend_identity (s : Segment) (prefix : Hash) : Hash :=
  derive_key "rottweiler journal prefix v1"
    (as_bytes prefix ++ le_bytes 8 (seg_first s) ++ le_bytes 8 (seg_next s) ++ le_bytes 8 (seg_bytes s) ++
     as_bytes (seg_digest s))%list.

Definition invalid_identity : SessionStoreError := CorruptEvent "invalid sealed segment identity".
Definition parse_segment (name : string) : Result Segment SessionStoreError :=
  let? stem := ok_or (strip_suffix ".jsonl" name) invalid_identity in
  match split_char "-"%char stem with
  | [f0; f1; f2; f3] =>
      let? first := ok_or (parse_uint u64_max f0) invalid_identity in
      let? next := ok_or (parse_uint u64_max f1) invalid_identity in
      let? bytes := ok_or (parse_uint u64_max f2) invalid_identity in
      let? digest := ok_or (from_hex f3) invalid_identity in
      if (next <=? first) || (bytes =? 0) || (MAX_SEGMENT_BYTES <? bytes) ||
         negb (String.eqb name (segment_name first next bytes digest))
      then Err invalid_identity
      else Ok (mkSegment first next bytes digest name)
  | _ => Err invalid_identity
  end.

(** * The chunked catalog *)

Definition CATALOG_CHUNK_ENTRIES : nat := 256.

Record CatalogEntry : Type := mkEntry {
  segment : Segment;
  cumulative_bytes : Z;
  cumulative_identity : Hash;
}.
Record CatalogEntries : Type := mkEntries {
  chunks : list (list CatalogEntry);
  len : nat;
}.
Definition no_entries : CatalogEntries := mkEntries [] 0.

Definition entries_get (c : CatalogEntries) (index : nat) : option CatalogEntry :=
  chunks c !! (index / CATALOG_CHUNK_ENTRIES)%nat ≫= λ chunk, chunk !! (index mod CATALOG_CHUNK_ENTRIES)%nat.
Definition entries_last (c : CatalogEntries) : option CatalogEntry :=
  match len c with O => None | S index => entries_get c index end.
(** [None]: the index of the chunk is out of range (a panic) *)
Definition entries_push (c : CatalogEntries) (e : CatalogEntry) : option CatalogEntries :=
  let chunk := (len c / CATALOG_CHUNK_ENTRIES)%nat in
  let grown := if Nat.eqb chunk (length (chunks c)) then (chunks c ++ [[]])%list else chunks c in
  match grown !! chunk with
  | None => None
  | Some entries => Some (mkEntries (<[chunk := (entries ++ [e])%list]> grown) (S (len c)))
  end.

Definition catalog_push (c : CatalogEntries) (s : Segment) : option CatalogEntries :=
  let '(bytes, identity) :=
    match entries_last c with
    | None => (0, hash [])
    | Some entry => (cumulative_bytes entry, cumulative_identity entry)
    end in
  entries_push c (mkEntry s (bytes + seg_bytes s) (extend_identity s identity)).
Fixpoint catalog_push_all (c : CatalogEntries) (segments : list Segment) : option CatalogEntries :=
  match segments with
  | [] => Some c
  | s :: rest => c' ← catalog_push c s; catalog_push_all c' rest
  end.
Definition from_segments (segments : list Segment) : option CatalogEntries := catalog_push_all no_entries segments.
Definition catalog_get (c : CatalogEntries) (index : nat) : option Segment := segment <$> entries_get c index.
Definition catalog_prefix (c : CatalogEntries) (count : nat) : option (Z * Hash) :=
  match count with
  | O => Some (0, hash [])
  | S index => e ← entries_get c index; Some (cumulative_bytes e, cumulative_identity e)
  end.

(** The bisection of [partition]; the distance halves in every turn. *)
Fixpoint partition_loop (fuel : nat) (c : CatalogEntries) (predicate : Segment → bool) (left right : nat) : option nat :=
  match fuel with
  | O => Some left
  | S fuel' =>
      if Nat.ltb left right then
        let middle := (left + (right - left) / 2)%nat in
        s ← catalog_get c middle;
        if predicate s then partition_loop fuel' c predicate (S middle) right
        else partition_loop fuel' c predicate left middle
      else Some left
  end.
Definition partition (c : CatalogEntries) (count : nat) (predicate : Segment → bool) : option nat :=
  partition_loop count c predicate 0 count.

(** * Segment names *)

Lemma str_app_cons c s t : (String c s ++ t)%string = String c (s ++ t)%string.
Proof. done. Qed.
Lemma split_char_joined c s t :
  str_all (λ d, negb (Ascii.eqb d c)) s = true → split_char c (s ++ String c t)%string = s :: split_char c t.
Proof.
  induction s as [|d s IH]; [rewrite str_app_nil_l; cbn [split_char]; by rewrite Ascii.eqb_refl|].
  rewrite str_app_cons. cbn [split_char str_all].
  destruct (Ascii.eqb d c); cbn [negb andb]; [done|]. intros H. by rewrite (IH H).
Qed.
Lemma split_char_none c s : str_all (λ d, negb (Ascii.eqb d c)) s = true → split_char c s = [s].
Proof.
  induction s as [|d s IH]; cbn [split_char str_all]; [done|]. destruct (Ascii.eqb d c); cbn [negb andb]; [done|]. intros H. by rewrite (IH H).
Qed.

Lemma digits_no_dash w n : str_all (λ d, negb (Ascii.eqb d "-"%char)) (digits w n) = true.
Proof.
  induction w as [|w IH]; cbn [digits str_all]; [done|]. rewrite IH, andb_true_r.
  apply (digit_cases (λ d, negb (Ascii.eqb (digit d) "-"%char) = true)); [|done..]. apply mod10_digit.
Qed.
Lemma hex_no_dash h : str_all (λ d, negb (Ascii.eqb d "-"%char)) (to_hex h) = true.
Proof.
  eapply str_all_impl; [|apply to_hex_digits]. intros c Hc.
  destruct (Ascii.eqb_spec c "-"%char) as [->|]; [|done]. by cbn in Hc.
Qed.

Definition valid_segment (s : Segment) : Prop :=
  u64 (seg_first s) ∧ u64 (seg_next s) ∧ seg_first s < seg_next s ∧ 0 < seg_bytes s ≤ MAX_SEGMENT_BYTES ∧
  seg_name s = segment_name (seg_first s) (seg_next s) (seg_bytes s) (seg_digest s).

Lemma pad20 n : u64 n → pad 20 n = digits 20 n.
Proof.
  intros Hn. apply pad_digits; [|unfold DEC_FUEL; lia]. change (10 ^ Z.of_nat 20) with 100000000000000000000.
  unfold u64, u64_max in Hn. lia.
Qed.
Lemma parse20 n : u64 n → parse_uint u64_max (digits 20 n) = Some n.
Proof.
  intros Hn. apply parse_uint_digits; [apply Hn| |apply Hn].
  change (10 ^ Z.of_nat 20) with 100000000000000000000. unfold u64, u64_max in Hn. lia.
Qed.
Lemma parse_segment_name s : valid_segment s → parse_segment (seg_name s) = Ok s.
Proof.
  intros (Hf & Hn & Hlt & Hb & Hname). unfold parse_segment.
  assert (Hub : u64 (seg_bytes s)) by (unfold u64, u64_max, MAX_SEGMENT_BYTES in *; lia).
  rewrite Hname at 1. unfold segment_name at 1.
  rewrite <- !str_app_assoc, strip_suffix_app, !str_app_assoc. cbn [ok_or]. rewrite !pad20 by done.
  rewrite !(str_app_cons "-"%char ""), !str_app_nil_l.
  rewrite !split_char_joined by apply digits_no_dash. rewrite split_char_none by apply hex_no_dash.
  rewrite !parse20 by done. cbn [ok_or]. rewrite from_hex_to_hex. cbn [ok_or].
  rewrite Hname at 1. rewrite String.eqb_refl.
  destruct (Z.leb_spec (seg_next s) (seg_first s)); [lia|]. destruct (Z.eqb_spec (seg_bytes s) 0); [lia|].
  destruct (Z.ltb_spec MAX_SEGMENT_BYTES (seg_bytes s)); [lia|]. cbn. by destruct s.
Qed.
Lemma parse_segment_inv name s : parse_segment name = Ok s → valid_segment s ∧ seg_name s = name.
Proof.
  unfold parse_segment. destruct (strip_suffix _ _) as [stem|]; [|done]. cbn [ok_or].
  destruct (split_char _ _) as [|f0 [|f1 [|f2 [|f3 [|]]]]]; try done.
  destruct (parse_uint u64_max f0) as [a|] eqn:Ea; [|done]. destruct (parse_uint u64_max f1) as [b|] eqn:Eb; [|done].
  destruct (parse_uint u64_max f2) as [c|] eqn:Ec; [|done]. destruct (from_hex f3) as [d|]; [|done]. cbn [ok_or].
  assert (H0 : 0 ≤ u64_max) by (unfold u64_max; lia).
  apply (parse_uint_range _ _ _ H0) in Ea, Eb, Ec.
  destruct (Z.leb_spec b a); [done|]. destruct (Z.eqb_spec c 0); [done|].
  destruct (Z.ltb_spec MAX_SEGMENT_BYTES c); [done|]. cbn [orb].
  destruct (String.eqb_spec name (segment_name a b c d)) as [->|]; [|done]. cbn [negb]. intros [= <-].
  unfold valid_segment, u64; cbn. split_and!; lia || done.
Qed.

(** * The catalog represents a list *)

Definition rep (c : CatalogEntries) (l : list CatalogEntry) : Prop :=
  len c = length l ∧
  (∀ k chunk, chunks c !! k = Some chunk →
     chunk = take CATALOG_CHUNK_ENTRIES (drop (CATALOG_CHUNK_ENTRIES * k) l) ∧
     (CATALOG_CHUNK_ENTRIES * k < length l)%nat) ∧
  (length l ≤ CATALOG_CHUNK_ENTRIES * length (chunks c))%nat.

Lemma rep_nil : rep no_entries [].
Proof. split_and!; [done| |cbn; lia]. intros k chunk. cbn [chunks no_entries]. by rewrite lookup_nil. Qed.

Lemma rep_get c l i : rep c l → entries_get c i = l !! i.
Proof.
  intros (Hlen & Hch & Hcap). unfold entries_get.
  assert (Hch0 : CATALOG_CHUNK_ENTRIES ≠ 0%nat) by done. revert Hch Hcap Hch0.
  generalize CATALOG_CHUNK_ENTRIES as n. intros n Hch Hcap Hn.
  pose proof (Nat.div_mod_eq i n) as Hi. pose proof (Nat.mod_upper_bound i n Hn) as Hm.
  destruct (chunks c !! (i / n)%nat) as [chunk|] eqn:E; cbn.
  - apply Hch in E as [-> _]. rewrite lookup_take_lt by done. rewrite lookup_drop. f_equal. lia.
  - apply lookup_ge_None in E. symmetry. apply lookup_ge_None. nia.
Qed.
Lemma rep_last c l : rep c l → entries_last c = last l.
Proof.
  intros H. pose proof H as [Hlen _]. unfold entries_last. rewrite Hlen, last_lookup.
  destruct (length l) as [|k] eqn:E; [by apply length_zero_iff_nil in E as ->|]. apply rep_get, H.
Qed.

Lemma rep_push c l e : rep c l → ∃ c', entries_push c e = Some c' ∧ rep c' (l ++ [e])%list.
Proof.
  intros (Hlen & Hch & Hcap). unfold entries_push, rep.
  assert (Hch0 : CATALOG_CHUNK_ENTRIES ≠ 0%nat) by done. revert Hch Hcap Hch0.
  generalize CATALOG_CHUNK_ENTRIES as n. intros n Hch Hcap Hn. rewrite Hlen.
  pose proof (Nat.div_mod_eq (length l) n) as Hi. pose proof (Nat.mod_upper_bound (length l) n Hn) as Hm.
  set (q := (length l / n)%nat) in *.
  set (grown := if Nat.eqb q (length (chunks c)) then (chunks c ++ [[]])%list else chunks c).
  assert (Hq : (q ≤ length (chunks c))%nat) by nia.
  assert (Hfull : (q < length (chunks c))%nat → length (chunks c) = S q).
  { intros Hlt. destruct (Nat.eq_dec (length (chunks c)) (S q)) as [|Hne]; [done|].
    destruct (lookup_lt_is_Some_2 (chunks c) (S q)) as [ch Hc]; [lia|]. apply Hch in Hc as [_ Hb]. nia. }
  assert (Hgrown : ∀ k chunk, grown !! k = Some chunk →
            (k ≤ q)%nat ∧ chunk = take n (drop (n * k) l)).
  { intros k chunk. unfold grown. destruct (Nat.eqb_spec q (length (chunks c))) as [Hqe|Hqe].
    - intros [Hk|[Hk1 Hk2]]%lookup_app_Some.
      + pose proof (lookup_lt_Some _ _ _ Hk). apply Hch in Hk as [-> _]. split; [lia|done].
      + destruct (k - length (chunks c))%nat as [|z] eqn:Ez; [|apply lookup_lt_Some in Hk2; cbn in Hk2; lia].
        cbn in Hk2. injection Hk2 as <-. split; [lia|]. rewrite drop_ge by nia. by rewrite take_nil.
    - intros Hk. pose proof (lookup_lt_Some _ _ _ Hk). apply Hch in Hk as [-> _]. split; [|done].
      specialize (Hfull ltac:(lia)). lia. }
  assert (Hlg : length grown = S q).
  { unfold grown. destruct (Nat.eqb_spec q (length (chunks c))) as [Hqe|Hqe]; [rewrite length_app; cbn; lia|].
    apply Hfull. lia. }
  destruct (lookup_lt_is_Some_2 grown q) as [ch Hc]; [lia|]. rewrite Hc. eexists. split; [done|]. cbn [len chunks].
  apply Hgrown in Hc as [_ ->]. split_and!.
  - rewrite length_app. cbn. lia.
  - intros k chunk Hk. destruct (Nat.eq_dec k q) as [->|Hne].
    + rewrite list_lookup_insert_eq in Hk by lia. injection Hk as <-. rewrite length_app. cbn. split; [|lia].
      rewrite drop_app_le by lia.
      rewrite (take_ge (drop (n * q) l)) by (rewrite length_drop; lia).
      rewrite take_ge; [done|]. rewrite length_app, length_drop. cbn. lia.
    + rewrite list_lookup_insert_ne in Hk by done. apply Hgrown in Hk as [Hk ->]. rewrite length_app. cbn.
      split; [|nia]. rewrite drop_app_le by nia. rewrite take_app_le; [done|]. rewrite length_drop. nia.
  - rewrite length_insert, length_app, Hlg. cbn. nia.
Qed.

(** What the entries of a list of segments accumulate *)
Fixpoint entries_from (bytes : Z) (identity : Hash) (segments : list Segment) : list CatalogEntry :=
  match segments with
  | [] => []
  | s :: rest =>
      mkEntry s (bytes + seg_bytes s) (extend_identity s identity) ::
      entries_from (bytes + seg_bytes s) (extend_identity s identity) rest
  end.
Definition chain (identity : Hash) (segments : list Segment) : Hash :=
  fold_left (λ h s, extend_identity s h) segments identity.
Definition total_bytes_of (segments : list Segment) : Z := sum_Z (map seg_bytes segments).

Lemma entries_from_app b h l k :
  entries_from b h (l ++ k) = (entries_from b h l ++ entries_from (b + total_bytes_of l) (chain h l) k)%list.
Proof.
  revert b h. induction l as [|s l IH]; intros b h; cbn [entries_from app chain fold_left total_bytes_of map sum_Z foldr].
  - by rewrite Z.add_0_r.
  - rewrite IH. unfold total_bytes_of, sum_Z, chain. cbn [map foldr fold_left]. by rewrite Z.add_assoc.
Qed.
Lemma entries_from_segments b h l : map segment (entries_from b h l) = l.
Proof. revert b h. induction l as [|s l IH]; intros b h; cbn; [done|]. by rewrite IH. Qed.
Lemma length_entries_from b h l : length (entries_from b h l) = length l.
Proof. rewrite <- (entries_from_segments b h l) at 2. by rewrite length_map. Qed.
Lemma entries_from_last b h l :
  (match last (entries_from b h l) with None => (b, h) | Some e => (cumulative_bytes e, cumulative_identity e) end)
  = (b + total_bytes_of l, chain h l).
Proof.
  induction l as [|s l _] using rev_ind; [cbn; by rewrite Z.add_0_r|].
  rewrite entries_from_app. cbn [entries_from]. rewrite last_snoc. cbn [cumulative_bytes cumulative_identity].
  unfold total_bytes_of, chain. rewrite map_app, sum_Z_app, fold_left_app. cbn. f_equal. lia.
Qed.

(** [repseg c segs]: the catalog holds [segs] with their running totals *)
Definition repseg (c : CatalogEntries) (segs : list Segment) : Prop := rep c (entries_from 0 (hash []) segs).

Lemma repseg_get c segs i : repseg c segs → catalog_get c i = segs !! i.
Proof.
  intros H. unfold catalog_get. rewrite (rep_get _ _ _ H), <- list_lookup_fmap.
  f_equal. apply (entries_from_segments 0 (hash []) segs).
Qed.
Lemma repseg_len c segs : repseg c segs → len c = length segs.
Proof. intros [-> _]. apply length_entries_from. Qed.
Lemma repseg_push c segs s : repseg c segs → ∃ c', catalog_push c s = Some c' ∧ repseg c' (segs ++ [s]).
Proof.
  intros H. unfold catalog_push. rewrite (rep_last _ _ H).
  pose proof (entries_from_last 0 (hash []) segs) as E.
  destruct (match last _ with None => _ | Some _ => _ end) as [b i] eqn:E2. injection E as -> ->.
  destruct (rep_push _ _ (mkEntry s (0 + total_bytes_of segs + seg_bytes s) (extend_identity s (chain (hash []) segs))) H)
    as (c' & -> & Hc').
  exists c'. split; [done|]. unfold repseg. by rewrite entries_from_app.
Qed.
Lemma repseg_push_all c segs new : repseg c segs → ∃ c', catalog_push_all c new = Some c' ∧ repseg c' (segs ++ new).
Proof.
  revert c segs. induction new as [|s new IH]; intros c segs H; cbn [catalog_push_all].
  - exists c. by rewrite app_nil_r.
  - destruct (repseg_push _ _ s H) as (c1 & -> & H1). destruct (IH _ _ H1) as (c2 & E & H2).
    exists c2. split; [exact E|]. by rewrite <- (assoc_L (++)) in H2.
Qed.
Lemma from_segments_rep segs : ∃ c, from_segments segs = Some c ∧ repseg c segs.
Proof. apply (repseg_push_all no_entries [] segs). apply rep_nil. Qed.
Lemma repseg_prefix c segs n :
  repseg c segs → (n ≤ length segs)%nat →
  catalog_prefix c n = Some (total_bytes_of (take n segs), chain (hash []) (take n segs)).
Proof.
  intros H Hn. destruct n as [|i]; [by rewrite take_0|]. unfold catalog_prefix. rewrite (rep_get _ _ _ H).
  pose proof (entries_from_last 0 (hash []) (take (S i) segs)) as E. rewrite last_lookup in E.
  rewrite length_entries_from, length_take_le in E by done. cbn [Nat.pred] in E.
  rewrite <- (take_drop (S i) segs) at 1. rewrite entries_from_app.
  rewrite lookup_app_l by (rewrite length_entries_from, length_take_le; lia).
  destruct (_ !! i) as [e|] eqn:Ee.
  - cbn. by rewrite E.
  - apply lookup_ge_None in Ee. rewrite length_entries_from, length_take_le in Ee by done. lia.
Qed.

(** * Bisection *)

Lemma partition_loop_spec fuel c segs p count left right :
  repseg c segs → (count ≤ length segs)%nat → (left ≤ right ≤ count)%nat → (right - left ≤ fuel)%nat →
  (∀ i j s t, (i ≤ j < count)%nat → segs !! i = Some s → segs !! j = Some t → p t = true → p s = true) →
  (∀ i s, (i < left)%nat → segs !! i = Some s → p s = true) →
  (∀ i s, (right ≤ i < count)%nat → segs !! i = Some s → p s = false) →
  ∃ k, partition_loop fuel c p left right = Some k ∧ (k ≤ count)%nat ∧
    (∀ i s, (i < k)%nat → segs !! i = Some s → p s = true) ∧
    (∀ i s, (k ≤ i < count)%nat → segs !! i = Some s → p s = false).
Proof.
  intros Hc Hcount. revert left right. induction fuel as [|fuel IH]; intros left right Hlr Hf Hmono Hlo Hhi; cbn [partition_loop].
  { exists left. assert (left = right) as -> by lia. split_and!; done || lia. }
  destruct (Nat.ltb_spec left right) as [Hlt|Hge];
    [|exists left; assert (left = right) as -> by lia; split_and!; done || lia].
  set (m := (left + (right - left) / 2)%nat).
  assert (Hm : (left ≤ m < right)%nat).
  { unfold m. pose proof (Nat.div_lt (right - left) 2). lia. }
  rewrite (repseg_get _ _ _ Hc). destruct (lookup_lt_is_Some_2 segs m) as [s Hs]; [lia|]. rewrite Hs. cbn [mbind option_bind].
  destruct (p s) eqn:Hp.
  - apply IH; [lia|lia|done| |done]. intros i t Hi Ht. apply (Hmono i m t s); [lia|done|done|done].
  - apply IH; [lia|lia|done|done|]. intros i t Hi Ht. destruct (p t) eqn:Ht'; [|done].
    rewrite (Hmono m i s t) in Hp; [done|lia|done|done|done].
Qed.

End segments.

(** A file name is accepted as a sealed segment exactly when it is the name
    of a valid segment, and it is read back as that segment: its sequence range
    is not empty, its size lies within the segment limit and every field is in
    the canonical form that [Segment::name] prints. *)
Theorem segment_names_exact `{B : Blake3} name s :
  parse_segment name = Ok s ↔ valid_segment s ∧ seg_name s = name.
Proof.
  split; [apply parse_segment_inv|]. intros [Hs <-]. by apply parse_segment_name.
Qed.

(** Over the first [count] segments the bisection of the catalog returns,
    without leaving the chunks, the index of the first segment the predicate
    rejects (or [count]), for every predicate that stays false once it is false. *)
Theorem partition_exact `{B : Blake3} segs c p count :
  from_segments segs = Some c → (count ≤ length segs)%nat →
  (∀ i j s t, (i ≤ j < count)%nat → segs !! i = Some s → segs !! j = Some t → p t = true → p s = true) →
  ∃ k, partition c count p = Some k ∧ (k ≤ count)%nat ∧
    (∀ i s, (i < k)%nat → segs !! i = Some s → p s = true) ∧
    (∀ i s, (k ≤ i < count)%nat → segs !! i = Some s → p s = false).
Proof.
  intros Hc Hcount Hmono. destruct (from_segments_rep segs) as (c' & Hc' & Hrep).
  rewrite Hc in Hc'. injection Hc' as <-. unfold partition. eapply partition_loop_spec; eauto; lia.
Qed.

(** * A concrete digest, for the examples *)

Definition bits (c : ascii) : list bool :=
  let '(Ascii b0 b1 b2 b3 b4 b5 b6 b7) := c in [b0; b1; b2; b3; b4; b5; b6; b7].
Fixpoint print_bits (l : list bool) : string :=
  match l with [] => "" | b :: l' => String (if b then "1"%char else "0"%char) (print_bits l') end.
Fixpoint read_bits (s : string) : option (list bool) :=
  match s with
  | "" => Some []
  | String c s' =>
      if Ascii.eqb c "1"%char then cons true <$> read_bits s'
      else if Ascii.eqb c "0"%char then cons false <$> read_bits s' else None
  end%string.
Lemma read_print_bits l : read_bits (print_bits l) = Some l.
Proof. induction l as [|[] l IH]; cbn; [done|by rewrite IH..]. Qed.
Lemma print_bits_hex l : str_all is_hex (print_bits l) = true.
Proof. induction l as [|[] l IH]; cbn; done. Qed.
(** The identity as a digest: the bits of the input, printed as digits *)
#[local] Instance bit_digest : Blake3 := {|
  Hash := list bool;
  hash := λ s, concat (map bits s);
  as_bytes := map (λ b : bool, if b then "1"%char else "0"%char);
  derive_key := λ _ s, concat (map bits s);
  to_hex := print_bits;
  from_hex := read_bits;
  from_hex_to_hex := read_print_bits;
  to_hex_digits := print_bits_hex;
|}.
Definition sample_segment (first : Z) : Segment :=
  mkSegment first (first + 2) 5 [true; false] (segment_name first (first + 2) 5 [true; false]).
Definition sample_segments : list Segment := map sample_segment [0; 2; 4; 6; 8].

Lemma partition_exact_witness :
  ∃ k, partition (default no_entries (from_segments sample_segments)) 4 (λ s, seg_next s <=? 5) = Some k ∧ (k ≤ 4)%nat.
Proof.
  destruct (partition_exact sample_segments (default no_entries (from_segments sample_segments))
              (λ s, seg_next s <=? 5) 4) as (k & H & Hk & _).
  - reflexivity.
  - cbn; lia.
  - intros i j s t Hij Hs Ht Hp.
    destruct i as [|[|[|[|[|i]]]]], j as [|[|[|[|[|j]]]]]; try lia; cbn in Hs, Ht;
      try (apply lookup_lt_Some in Ht; cbn in Ht; lia); try (apply lookup_lt_Some in Hs; cbn in Hs; lia);
      simplify_eq; done.
  - by exists k.
Defined.
