(* ===== verification/Journal.v ===== *)
(** The segmented session journal ([rw-store/src/session/journal.rs],
    [journal/append.rs], [journal/record.rs], [journal/decode.rs],
    [journal_io.rs]): definitions.

    The file system is a directory of names, each bound to a file, and the
    contents of the files; a writer and the views it captured hold files, not
    names, so that a renamed segment stays readable through an old descriptor.
    Every call that can fail is answered by a record of outcomes ([SealIo],
    [AppendIo]).  The JSON codec is an interface ([Codec]). *)
From Stdlib Require Import Ascii.
From S2P Require Import Prelude Text Ir JournalCatalog.

Definition LF : ascii := ascii_of_nat 10.
Definition EVENT_SCHEMA_VERSION : Z := 1.
Definition MAX_JOURNAL_DECODE_BYTES : Z := 64 * 1024 * 1024.

(** * Structural admission of one JSON record *)

Record JsonStructureLimits : Type := mkJsonLimits {
  max_encoded_bytes : Z;
  max_nodes : Z;
  max_string_bytes : Z;
  max_depth : Z;
}.
Record JsonStructure : Type := mkStructure {
  nodes : Z;
  string_bytes : Z;
  depth : Z;
  objects : Z;
  object_entries : Z;
  arrays : Z;
  array_entries : Z;
}.
Definition no_structure : JsonStructure := mkStructure 0 0 0 0 0 0 0.

(** [Seed::deserialize]: one more node at this depth *)
Definition seed_node (limits : JsonStructureLimits) (at_depth : Z) (s : JsonStructure) : option JsonStructure :=
  n ← checked_add (nodes s) 1;
  if (max_nodes limits <? n) || (max_depth limits <? at_depth) then None
  else Some (mkStructure n (string_bytes s) (Z.max (depth s) at_depth) (objects s) (object_entries s)
               (arrays s) (array_entries s)).
Definition visit_str (limits : JsonStructureLimits) (value : string) (s : JsonStructure) : option JsonStructure :=
  n ← checked_add (string_bytes s) (str_len value);
  if max_string_bytes limits <? n then None
  else Some (mkStructure (nodes s) n (depth s) (objects s) (object_entries s) (arrays s) (array_entries s)).
Definition add_array (s : JsonStructure) : JsonStructure :=
  mkStructure (nodes s) (string_bytes s) (depth s) (objects s) (object_entries s) (arrays s + 1) (array_entries s).
Definition add_array_entry (s : JsonStructure) : JsonStructure :=
  mkStructure (nodes s) (string_bytes s) (depth s) (objects s) (object_entries s) (arrays s) (array_entries s + 1).
Definition add_object (s : JsonStructure) : JsonStructure :=
  mkStructure (nodes s) (string_bytes s) (depth s) (objects s + 1) (object_entries s) (arrays s) (array_entries s).
Definition add_object_entry (s : JsonStructure) : JsonStructure :=
  mkStructure (nodes s) (string_bytes s) (depth s) (objects s) (object_entries s + 1) (arrays s) (array_entries s).

(** The visitor over the values the JSON deserializer presents *)
Fixpoint visit (limits : JsonStructureLimits) (at_depth : Z) (v : Value) (s : JsonStructure) : option JsonStructure :=
  s ← seed_node limits at_depth s;
  match v with
  | JNull | JBool _ | JNumber _ => Some s
  | JString t => visit_str limits t s
  | JArray values =>
      (fix visit_seq (values : list Value) (s : JsonStructure) : option JsonStructure :=
         match values with
         | [] => Some s
         | v :: rest => s ← visit limits (at_depth + 1) v s; visit_seq rest (add_array_entry s)
         end) values (add_array s)
  | JObject entries =>
      (fix visit_map (entries : list (string * Value)) (s : JsonStructure) : option JsonStructure :=
         match entries with
         | [] => Some s
         | (k, v) :: rest =>
             s ← seed_node limits (at_depth + 1) s;
             s ← visit_str limits k s;
             s ← visit limits (at_depth + 1) v (add_object_entry s);
             visit_map rest s
         end) entries (add_object s)
  end.

(** [JsonStructure::decode_bytes] for a type with the given node size *)
Definition decode_bytes (s : JsonStructure) (node_bytes : option Z) : option Z :=
  n ← node_bytes;
  total ← checked_mul (nodes s) (Z.max n 128);
  with_text ← checked_add total (string_bytes s);
  checked_mul with_text 4.

(** * The codec *)

(** The types whose decoded size the journal measures *)
Inductive Decoded : Type := OfEvent | OfEngineEvent | OfValue.

(** [serialize version sequence event] is the JSON text of an envelope,
    [from_slice] and [from_slice_header] read an envelope (with its event, or
    ignoring it), [json_value] is what the deserializer presents to a visitor.
    The envelope written is read back, JSON text holds no line feed, and
    [EngineEvent] embeds [serde_json::Value], so that its node size is the larger. *)
Class Codec : Type := {
  Event : Type;
  serialize : Z → Z → Event → option Bytes;
  from_slice : Bytes → option (Z * Z * Event);
  from_slice_header : Bytes → option (Z * Z);
  json_value : Bytes → option Value;
  decode_node_bytes : Decoded → option Z;
  serialize_one_line : ∀ v n e t, serialize v n e = Some t → LF ∉ t;
  from_slice_serialize : ∀ v n e t, serialize v n e = Some t → from_slice (t ++ [LF])%list = Some (v, n, e);
  header_serialize : ∀ v n e t, serialize v n e = Some t → from_slice_header (t ++ [LF])%list = Some (v, n);
  value_within_engine : ∀ m, decode_node_bytes OfEngineEvent = Some m →
    ∃ k, decode_node_bytes OfValue = Some k ∧ k ≤ m;
}.

(** * Byte lines *)

Definition size (s : Bytes) : Z := Z.of_nat (length s).

(** [split_inclusive('\n')] *)
Fixpoint split_inclusive (s : Bytes) : list Bytes :=
  match s with
  | [] => []
  | c :: s' =>
      if Ascii.eqb c LF then [c] :: split_inclusive s'
      else match split_inclusive s' with [] => [[c]] | l :: ls => (c :: l) :: ls end
  end.
(** [rposition] of a line feed *)
Fixpoint rposition (s : Bytes) : option nat :=
  match s with
  | [] => None
  | c :: s' => match rposition s' with
               | Some i => Some (S i)
               | None => if Ascii.eqb c LF then Some 0%nat else None
               end
  end.
(** [memchr_iter('\n').count()] *)
Definition count_lf (s : Bytes) : Z := size (List.filter (λ c, Ascii.eqb c LF) s).

(** * The directory *)

Abbreviation Inode := nat (only parsing).
Record Disk : Type := mkDisk {
  names : gmap string Inode;
  contents : gmap nat Bytes;
  fresh : Inode;
}.
Definition read_inode (d : Disk) (i : Inode) : Bytes := default [] (contents d !! i).
Definition write_inode (d : Disk) (i : Inode) (s : Bytes) : Disk :=
  mkDisk (names d) (<[i := s]> (contents d)) (fresh d).
(** [openat] with [CREATE] *)
Definition create_file (d : Disk) (name : string) : Disk * Inode :=
  match names d !! name with
  | Some i => (d, i)
  | None => (mkDisk (<[name := fresh d]> (names d)) (<[fresh d := []]> (contents d)) (S (fresh d)), fresh d)
  end.
(** [renameat2] with [NOREPLACE] *)
Definition rename (d : Disk) (from to : string) : option Disk :=
  match names d !! from, names d !! to with
  | Some i, None => Some (mkDisk (<[to := i]> (delete from (names d))) (contents d) (fresh d))
  | _, _ => None
  end.

Section journal.
Context `{B : Blake3} `{C : Codec}.

(** [preflight_record::<T>] *)
Definition record_limits : JsonStructureLimits := mkJsonLimits MAX_SEGMENT_BYTES 65536 MAX_SEGMENT_BYTES 64.
Definition preflight_json (limits : JsonStructureLimits) (input : Bytes) : Result JsonStructure SessionStoreError :=
  if max_encoded_bytes limits <? size input then Err JsonError
  else ok_or (v ← json_value input; visit limits 0 v no_structure) JsonError.
Definition preflight_record (t : Decoded) (line : Bytes) : Result Z SessionStoreError :=
  let? shape := preflight_json record_limits line in
  let? charge :=
    ok_or (typed ← decode_bytes shape (decode_node_bytes t);
           canonical ← decode_bytes shape (decode_node_bytes OfEngineEvent);
           Some (Z.max typed canonical)) (CorruptEvent "journal decode charge overflow") in
  if MAX_JOURNAL_DECODE_BYTES <? charge
  then Err (CorruptEvent "journal record exceeds decoded allocation admission")
  else Ok charge.

(** * Encoding a batch *)

Record PreparedJournalAppend : Type := mkPrepared {
  prep_first : Z;
  prep_next : Z;
  prep_count : nat;
  prep_bytes : Bytes;
}.
Record JournalAppendPlan : Type := mkAppendPlan {
  plan_first : Z;
  plan_next : Z;
  plan_count : nat;
  plan_bytes : Z;
}.

(** [write_envelope] into a writer that holds [written] bytes of at most [limit] *)
Definition write_envelope (limit written sequence : Z) (event : Event) : Result Bytes SessionStoreError :=
  match serialize EVENT_SCHEMA_VERSION sequence event with
  | None => Err JsonError
  | Some text =>
      if limit <? written + size text then Err (EventRecordTooLarge limit)
      else if limit <? written + size text + 1 then Err (EventRecordTooLarge limit)
      else Ok (text ++ [LF])%list
  end.
(** [encode_records]: what is appended to a writer that holds [bytes] *)
Fixpoint encode_records (limit first : Z) (offset : nat) (events : list Event) (bytes : Bytes)
    : Result Bytes SessionStoreError :=
  match events with
  | [] => Ok bytes
  | event :: rest =>
      let? sequence := ok_or (checked_add first (Z.of_nat offset)) SequenceOverflow in
      let? line := write_envelope limit (size bytes) sequence event in
      encode_records limit first (S offset) rest (bytes ++ line)%list
  end.
(** [JournalAppendPlan::measure] *)
Definition measure (first : Z) (events : list Event) : Result JournalAppendPlan SessionStoreError :=
  let? next := ok_or (checked_add first (Z.of_nat (length events))) SequenceOverflow in
  let? output := encode_records MAX_SEGMENT_BYTES first 0 events [] in
  Ok (mkAppendPlan first next (length events) (size output)).
Fixpoint preflight_lines (lines : list Bytes) : Result unit SessionStoreError :=
  match lines with
  | [] => Ok tt
  | line :: rest => let? _ := preflight_record OfEvent line in preflight_lines rest
  end.
(** [JournalAppendPlan::encode] *)
Definition encode_plan (p : JournalAppendPlan) (events : list Event) : Result PreparedJournalAppend SessionStoreError :=
  if negb (Nat.eqb (length events) (plan_count p)) then Err (CorruptEvent "prepared journal batch count changed")
  else
    let? bytes := encode_records (plan_bytes p) (plan_first p) 0 events [] in
    if negb (size bytes =? plan_bytes p) then Err (CorruptEvent "prepared journal batch encoding changed")
    else
      let? _ := preflight_lines (split_inclusive bytes) in
      Ok (mkPrepared (plan_first p) (plan_next p) (plan_count p) bytes).

(** [encode_owned] *)
Record EventEnvelope : Type := mkEnvelope { env_version : Z; env_sequence : Z; env_event : Event }.
Fixpoint encode_loop (first : Z) (events : list Event) (bytes : Bytes) (envelopes : list EventEnvelope)
    : Result (Bytes * list EventEnvelope) SessionStoreError :=
  match events with
  | [] => Ok (bytes, envelopes)
  | event :: rest =>
      let? sequence := ok_or (checked_add first (Z.of_nat (length envelopes))) SequenceOverflow in
      let envelope := mkEnvelope EVENT_SCHEMA_VERSION sequence event in
      let? line := write_envelope MAX_SEGMENT_BYTES (size bytes) (env_sequence envelope) (env_event envelope) in
      let? _ := preflight_record OfEvent line in
      encode_loop first rest (bytes ++ line)%list (envelopes ++ [envelope])%list
  end.
Definition encode_owned (first : Z) (events : list Event)
    : Result (PreparedJournalAppend * list EventEnvelope) SessionStoreError :=
  let? (bytes, envelopes) := encode_loop first events [] [] in
  let? next := ok_or (checked_add first (Z.of_nat (length envelopes))) SequenceOverflow in
  Ok (mkPrepared first next (length envelopes) bytes, envelopes).

(** * The writer *)

(** [SegmentedJournal]; the running hash is the bytes it has absorbed, and the
    captured file status is compared by the operating system ([io_verify]). *)
Record SegmentedJournal : Type := mkJournal {
  segments : CatalogEntries;
  segment_count : nat;
  active : Inode;
  active_first : Z;
  active_bytes : Z;
  active_hash : Bytes;
  sealed_bytes : Z;
  sealed_identity : Hash;
  next_sequence : Z;
  poisoned : bool;
}.
Definition poison (j : SegmentedJournal) : SegmentedJournal :=
  mkJournal (segments j) (segment_count j) (active j) (active_first j) (active_bytes j) (active_hash j)
    (sealed_bytes j) (sealed_identity j) (next_sequence j) true.

(** What the operating system answers while a segment is sealed *)
Record SealIo : Type := mkSealIo {
  rename_ok : bool;
  rename_sync_ok : bool;
  create_ok : bool;
  directory_sync_ok : bool;
  seal_snapshot_ok : bool;
}.
Definition seal (io : SealIo) (d : Disk) (j : SegmentedJournal) : Disk * SegmentedJournal * Result unit SessionStoreError :=
  if Nat.leb MAX_SEGMENTS (segment_count j) then (d, j, Err (CorruptEvent "too many journal segments"))
  else
    let digest := hash (active_hash j) in
    let name := segment_name (active_first j) (next_sequence j) (active_bytes j) digest in
    match (if rename_ok io then rename d "active.jsonl" name else None) with
    | None => (d, poison j, Err IoError)
    | Some d =>
        if negb (rename_sync_ok io) then (d, poison j, Err IoError)
        else if negb (create_ok io) then (d, poison j, Err IoError)
        else
          let '(d, file) := create_file d "active.jsonl" in
          if negb (size (read_inode d file) =? 0)
          then (d, poison j, Err (CorruptEvent "new active segment is not empty"))
          else if negb (directory_sync_ok io) then (d, poison j, Err IoError)
          else
            let segment := mkSegment (active_first j) (next_sequence j) (active_bytes j) digest name in
            let identity := extend_identity segment (sealed_identity j) in
            match catalog_push (segments j) segment with
            | None => (d, poison j, Err LimitOverflow)
            | Some entries =>
                let sealed := sealed_bytes j + active_bytes j in
                if negb (seal_snapshot_ok io)
                then (d, mkJournal entries (S (segment_count j)) (active j) (active_first j) (active_bytes j)
                           (active_hash j) sealed identity (next_sequence j) true, Err IoError)
                else (d, mkJournal entries (S (segment_count j)) file (next_sequence j) 0 [] sealed identity
                           (next_sequence j) false, Ok tt)
            end
    end.

(** What the operating system answers during one append: [write_fails n] is a
    write that stops after [n] bytes. *)
Record AppendIo : Type := mkAppendIo {
  io_verify : bool;
  io_seal : SealIo;
  io_metadata : bool;
  write_fails : option nat;
  sync_ok : bool;
  truncate_ok : bool;
  truncate_sync_ok : bool;
  snapshot_ok : bool;
}.
Definition commit (j : SegmentedJournal) (p : PreparedJournalAppend) (is_poisoned : bool) : SegmentedJournal :=
  mkJournal (segments j) (segment_count j) (active j) (active_first j) (active_bytes j + size (prep_bytes p))
    (active_hash j ++ prep_bytes p)%list (sealed_bytes j) (sealed_identity j) (prep_next p) is_poisoned.
(** [write_prepared] once the active file has room *)
Definition write_active (io : AppendIo) (d : Disk) (j : SegmentedJournal) (p : PreparedJournalAppend)
    : Disk * SegmentedJournal * Result unit SessionStoreError :=
  if negb (io_metadata io) then (d, j, Err IoError)
  else if negb (size (read_inode d (active j)) =? active_bytes j)
  then (d, poison j, Err (CorruptEvent "active journal length changed after validation"))
  else
    let written := match write_fails io with Some n => take n (prep_bytes p) | None => prep_bytes p end in
    let d := write_inode d (active j) (read_inode d (active j) ++ written)%list in
    if is_some (write_fails io) || negb (sync_ok io) then
      if negb (truncate_ok io) then (d, poison j, Err AppendRollbackFailed)
      else
        let d := write_inode d (active j) (take (Z.to_nat (active_bytes j)) (read_inode d (active j))) in
        if negb (truncate_sync_ok io) then (d, poison j, Err AppendRollbackFailed)
        else if negb (snapshot_ok io) then (d, poison j, Err IoError)
        else (d, j, Err IoError)
    else if negb (snapshot_ok io) then (d, commit j p true, Err IoError)
    else (d, commit j p false, Ok tt).
Definition write_prepared (io : AppendIo) (d : Disk) (j : SegmentedJournal) (p : PreparedJournalAppend)
    : Disk * SegmentedJournal * Result unit SessionStoreError :=
  if negb (prep_first p =? next_sequence j)
  then (d, j, Err (UnexpectedEventSequence (next_sequence j) (prep_first p)))
  else if poisoned j then (d, j, Err EventWriterPoisoned)
  else if negb (io_verify io) then (d, poison j, Err EventFileChangedDuringRead)
  else if Nat.eqb (prep_count p) 0 then (d, j, Ok tt)
  else if (0 <? active_bytes j) && (SEGMENT_TARGET_BYTES <? active_bytes j + size (prep_bytes p)) then
    match seal (io_seal io) d j with
    | (d, j, Ok _) => write_active io d j p
    | (d, j, Err e) => (d, j, Err e)
    end
  else write_active io d j p.
Definition append_batch (io : AppendIo) (d : Disk) (j : SegmentedJournal) (events : list Event)
    : Disk * SegmentedJournal * Result (list EventEnvelope) SessionStoreError :=
  match encode_owned (next_sequence j) events with
  | Err e => (d, j, Err e)
  | Ok (prepared, envelopes) =>
      let '(d, j, r) := write_prepared io d j prepared in
      (d, j, let? _ := r in Ok envelopes)
  end.

(** * Opening *)

Fixpoint parse_names (l : list string) : Result (list Segment) SessionStoreError :=
  match l with
  | [] => Ok []
  | name :: rest =>
      if String.eqb name "active.jsonl" || String.eqb name "writer.lock" || String.eqb name "derived"
      then parse_names rest
      else let? s := parse_segment name in let? segments := parse_names rest in Ok (s :: segments)
  end.
Fixpoint contiguous (expected : Z) (segments : list Segment) : bool :=
  match segments with
  | [] => true
  | s :: rest => (seg_first s =? expected) && contiguous (seg_next s) rest
  end.
(** [Directory::names] and [Directory::catalog] *)
Definition catalog (d : Disk) : Result (list Segment) SessionStoreError :=
  let listed := map fst (map_to_list (names d)) in
  if Nat.ltb (MAX_SEGMENTS + 8) (length listed) then Err (CorruptEvent "too many journal segments")
  else
    let? parsed := parse_names listed in
    let sorted := stable_sort (λ s t, seg_first s <=? seg_first t) parsed in
    if contiguous 0 sorted then Ok sorted else Err (CorruptEvent "non-contiguous journal segments").

(** [validate_events_from_sequence] *)
Fixpoint validate_lines (expected : Z) (lines : list Bytes) : Result Z SessionStoreError :=
  match lines with
  | [] => Ok expected
  | line :: rest =>
      let? _ := preflight_record OfValue line in
      match from_slice_header line with
      | None => Err JsonError
      | Some (version, sequence) =>
          if negb (version =? EVENT_SCHEMA_VERSION) then Err (UnsupportedEventVersion version)
          else if negb (sequence =? expected) then Err (CorruptEvent "non-contiguous event sequence")
          else let? next := ok_or (checked_add expected 1) SequenceOverflow in validate_lines next rest
      end
  end.
Definition validate_events_from_sequence (bytes : Bytes) (first_sequence : Z) : Result Z SessionStoreError :=
  validate_lines first_sequence (split_inclusive bytes).

Definition last_next (segs : list Segment) : Z := match last segs with Some s => seg_next s | None => 0 end.

(** [SegmentedJournal::open], with the writer lock held; [truncate_io] is the
    outcome of the truncation of a torn tail. *)
Definition open (truncate_io : bool) (d : Disk) : Result (Disk * SegmentedJournal) SessionStoreError :=
  let? segs := catalog d in
  let? entries := ok_or (from_segments segs) LimitOverflow in
  let count := len entries in
  let first := match count with
               | O => 0
               | S index => match catalog_get entries index with Some s => seg_next s | None => 0 end
               end in
  let '(d, file) := create_file d "active.jsonl" in
  let bytes := read_inode d file in
  if MAX_SEGMENT_BYTES <? size bytes then Err (EventLogTooLarge MAX_SEGMENT_BYTES)
  else
    let torn := match last bytes with Some c => negb (Ascii.eqb c LF) | None => false end in
    let complete := match rposition bytes with Some offset => S offset | None => 0%nat end in
    if torn && negb truncate_io then Err IoError
    else
      let bytes := if torn then take complete bytes else bytes in
      let d := if torn then write_inode d file bytes else d in
      let? next := validate_events_from_sequence bytes first in
      let? prefix := ok_or (catalog_prefix entries count) LimitOverflow in
      Ok (d, mkJournal entries count file first (size bytes) bytes prefix.1 prefix.2 next false).

(** * Read views *)

Record JournalPrefixIdentity : Type := mkIdentity {
  id_next_sequence : Z;
  id_digest : Hash;
}.
(** [JournalReadView]: the catalog is shared with the writer, so that reading
    takes the current catalog as an argument; the view counts its own segments. *)
Record JournalReadView : Type := mkView {
  view_count : nat;
  view_active : Inode;
  view_segment : option Segment;
  view_next : Z;
  view_total_bytes : Z;
  view_identity : JournalPrefixIdentity;
}.
Definition read_view (j : SegmentedJournal) : JournalReadView :=
  let segment :=
    if 0 <? active_bytes j
    then Some (mkSegment (active_first j) (next_sequence j) (active_bytes j) (hash (active_hash j)) "active.jsonl")
    else None in
  mkView (segment_count j) (active j) segment (next_sequence j) (sealed_bytes j + active_bytes j)
    (mkIdentity (next_sequence j)
       (match segment with Some s => extend_identity s (sealed_identity j) | None => sealed_identity j end)).

Record SessionEventPageLimits : Type := mkLimits {
  max_page_bytes : Z;
  max_page_events : nat;
  max_line_bytes : Z;
  max_scan_bytes : Z;
  max_scan_events : Z;
}.
Record JournalReadMetrics : Type := mkMetrics {
  bytes_read : Z;
  records_scanned : Z;
  records_decoded : Z;
  segments_read : Z;
}.
Definition no_metrics : JournalReadMetrics := mkMetrics 0 0 0 0.

Definition segment_file (d : Disk) (v : JournalReadView) (s : Segment) (is_active : bool) : Result Inode SessionStoreError :=
  if is_active then Ok (view_active v) else ok_or (names d !! seg_name s) NotFound.
Definition read_segment_bytes (d : Disk) (file : Inode) (s : Segment) (is_active : bool) : Result Bytes SessionStoreError :=
  let content := read_inode d file in
  if (size content <? seg_bytes s) || (negb is_active && negb (size content =? seg_bytes s))
  then Err (CorruptEvent "pinned journal segment length changed")
  else
    let bytes := take (Z.to_nat (seg_bytes s)) content in
    if negb (bool_decide (hash bytes = seg_digest s)) then Err (CorruptEvent "pinned journal segment checksum changed")
    else Ok bytes.
Definition page_segment_bytes (d : Disk) (v : JournalReadView) (limits : SessionEventPageLimits)
    (s : Segment) (is_active : bool) (metrics : JournalReadMetrics)
    : Result (Bytes * JournalReadMetrics) SessionStoreError :=
  if max_scan_bytes limits <? bytes_read metrics + seg_bytes s then Err (EventScanBytesExceeded (max_scan_bytes limits))
  else
    let segment_records := seg_next s - seg_first s in
    if max_scan_events limits <? records_scanned metrics + segment_records
    then Err (EventScanCountExceeded (max_scan_events limits))
    else
      let? file := segment_file d v s is_active in
      let? bytes := read_segment_bytes d file s is_active in
      if negb (count_lf bytes =? segment_records) || negb (bool_decide (last bytes = Some LF))
      then Err (CorruptEvent "journal segment record count differs from index")
      else Ok (bytes, mkMetrics (bytes_read metrics + seg_bytes s) (records_scanned metrics + segment_records)
                        (records_decoded metrics) (segments_read metrics + 1)).

(** [segments_from]: the sealed segments of the view from an index, then its active segment *)
Definition segments_from (c : CatalogEntries) (v : JournalReadView) (first : nat) : list (Segment * bool) :=
  (map (λ s, (s, false)) (omap (catalog_get c) (seq first (view_count v - first))) ++
   match view_segment v with Some s => [(s, true)] | None => [] end)%list.

Definition decode_page_event (line : Bytes) (next : Z) : Result Event SessionStoreError :=
  match from_slice line with
  | None => Err JsonError
  | Some (version, sequence, event) =>
      if negb (version =? EVENT_SCHEMA_VERSION) then Err (UnsupportedEventVersion version)
      else if negb (sequence =? next) || negb (bool_decide (last line = Some LF))
      then Err (CorruptEvent "non-contiguous pinned journal page")
      else Ok event
  end.

(** [record_with_decode_limit] *)
Definition record_scan_limits : SessionEventPageLimits :=
  mkLimits MAX_SEGMENT_BYTES 1 MAX_SEGMENT_BYTES MAX_SEGMENT_BYTES MAX_SEGMENT_BYTES.
Definition record_with_decode_limit (d : Disk) (c : CatalogEntries) (v : JournalReadView)
    (sequence max_decode_bytes : Z) : Result (Event * Z) SessionStoreError :=
  if (max_decode_bytes =? 0) || (MAX_JOURNAL_DECODE_BYTES <? max_decode_bytes) then Err InvalidEventDecodeLimit
  else if view_next v <=? sequence then Err EventPageCursorAhead
  else
    let? first := ok_or (partition c (view_count v) (λ s, seg_next s <=? sequence)) LimitOverflow in
    match segments_from c v first with
    | [] => Err (CorruptEvent "journal source segment is missing")
    | (s, is_active) :: _ =>
        if (sequence <? seg_first s) || (seg_next s <=? sequence)
        then Err (CorruptEvent "journal source index has a gap")
        else
          let? read := page_segment_bytes d v record_scan_limits s is_active no_metrics in
          match split_inclusive read.1 !! Z.to_nat (sequence - seg_first s) with
          | None => Err (CorruptEvent "journal source record is missing")
          | Some line =>
              let? decode_bytes := preflight_record OfEvent line in
              if max_decode_bytes <? decode_bytes
              then Err (EventDecodeLimitTooSmall decode_bytes max_decode_bytes)
              else let? event := decode_page_event line sequence in Ok (event, decode_bytes)
          end
    end.

(** * Pages *)

Record SessionEventPage : Type := mkPage {
  page_events : list Event;
  page_bytes : Z;
  next_cursor : option Z;
  has_more : bool;
  events_before_page : Z;
  events_after_page : Z;
  total_events : Z;
  total_bytes : Z;
  tail_sequence : option Z;
}.
(** The accumulators of the page loop *)
Record PageState : Type := mkPageState {
  ps_events : list Event;
  ps_bytes : Z;
  ps_decode : Z;
  ps_next : Z;
  ps_metrics : JournalReadMetrics;
}.
Definition decoded_one (m : JournalReadMetrics) : JournalReadMetrics :=
  mkMetrics (bytes_read m) (records_scanned m) (records_decoded m + 1) (segments_read m).

Definition last_sequence (v : JournalReadView) : option Z :=
  if view_next v =? 0 then None else Some (view_next v - 1).
Definition limits_positive (limits : SessionEventPageLimits) : bool :=
  negb (Nat.eqb (max_page_events limits) 0) && negb (max_page_bytes limits =? 0) && negb (max_line_bytes limits =? 0) &&
  negb (max_scan_bytes limits =? 0) && negb (max_scan_events limits =? 0).
Definition checked_page_start (v : JournalReadView) (after : option Z) (limits : SessionEventPageLimits)
    : Result Z SessionStoreError :=
  if negb (limits_positive limits) then Err InvalidEventPageLimits
  else
    let? first := match after with
                  | Some sequence => ok_or (checked_add sequence 1) EventPageCursorAhead
                  | None => Ok 0
                  end in
    if view_next v <? first then Err EventPageCursorAhead else Ok first.

(** The lines of one segment from [sequence] on; [true] leaves the outer loop. *)
Fixpoint page_lines (limits : SessionEventPageLimits) (first sequence : Z) (lines : list Bytes) (st : PageState)
    : Result (bool * PageState) SessionStoreError :=
  match lines with
  | [] => Ok (false, st)
  | line :: rest =>
      if sequence <? first then page_lines limits first (sequence + 1) rest st
      else if Nat.leb (max_page_events limits) (length (ps_events st)) then Ok (true, st)
      else if max_line_bytes limits <? size line - 1 then Err (EventRecordTooLarge (max_line_bytes limits))
      else if max_page_bytes limits <? ps_bytes st + size line then
        match ps_events st with
        | [] => Err (EventPageByteLimitTooSmall (size line) (max_page_bytes limits))
        | _ => Ok (true, st)
        end
      else
        let? charge := preflight_record OfEvent line in
        if MAX_JOURNAL_DECODE_BYTES - ps_decode st <? charge then Ok (true, st)
        else
          let? event := decode_page_event line (ps_next st) in
          page_lines limits first (sequence + 1) rest
            (mkPageState (ps_events st ++ [event])%list (ps_bytes st + size line) (ps_decode st + charge)
               (ps_next st + 1) (decoded_one (ps_metrics st)))
  end.
Definition set_metrics (st : PageState) (m : JournalReadMetrics) : PageState :=
  mkPageState (ps_events st) (ps_bytes st) (ps_decode st) (ps_next st) m.
Fixpoint page_segments (d : Disk) (v : JournalReadView) (limits : SessionEventPageLimits) (first : Z)
    (segments : list (Segment * bool)) (st : PageState) : Result PageState SessionStoreError :=
  match segments with
  | [] => Ok st
  | (s, is_active) :: rest =>
      if Nat.leb (max_page_events limits) (length (ps_events st)) || (max_page_bytes limits <=? ps_bytes st) then Ok st
      else if seg_next s <=? first then page_segments d v limits first rest st
      else
        let? read := page_segment_bytes d v limits s is_active (ps_metrics st) in
        let? next := page_lines limits first (seg_first s) (split_inclusive read.1) (set_metrics st read.2) in
        if next.1 then Ok next.2 else page_segments d v limits first rest next.2
  end.
(** [page_internal] without a proof builder *)
Definition page (d : Disk) (c : CatalogEntries) (v : JournalReadView) (after : option Z) (limits : SessionEventPageLimits)
    : Result (SessionEventPage * JournalReadMetrics) SessionStoreError :=
  let? first := checked_page_start v after limits in
  let? first_segment := ok_or (partition c (view_count v) (λ s, seg_next s <=? first)) LimitOverflow in
  let? st := page_segments d v limits first (segments_from c v first_segment) (mkPageState [] 0 0 first no_metrics) in
  let next := ps_next st in
  if (next <? view_next v) && Nat.ltb (length (ps_events st)) (max_page_events limits) && (ps_bytes st =? 0)
  then Err (CorruptEvent "journal segment index exceeds its records")
  else
    Ok (mkPage (ps_events st) (ps_bytes st) (if next =? 0 then None else Some (next - 1)) (next <? view_next v) first
          (view_next v - next) (view_next v) (view_total_bytes v) (last_sequence v), ps_metrics st).

(** [tail_page]: lines and segments are visited from the last one back. *)
Definition decode_tail_event (line : Bytes) (wanted : Z) : Result Event SessionStoreError :=
  match from_slice line with
  | None => Err JsonError
  | Some (version, sequence, event) =>
      if negb (version =? EVENT_SCHEMA_VERSION) then Err (UnsupportedEventVersion version)
      else if negb (sequence =? wanted) then Err (CorruptEvent "non-contiguous journal tail page")
      else Ok event
  end.
Fixpoint tail_lines (limits : SessionEventPageLimits) (total : Z) (lines : list Bytes) (st : PageState)
    : Result (bool * PageState) SessionStoreError :=
  match lines with
  | [] => Ok (false, st)
  | line :: rest =>
      if Nat.leb (max_page_events limits) (length (ps_events st)) then Ok (true, st)
      else if max_line_bytes limits <? size line - 1 then Err (EventRecordTooLarge (max_line_bytes limits))
      else if max_page_bytes limits <? ps_bytes st + size line then
        match ps_events st with
        | [] => Err (EventPageByteLimitTooSmall (size line) (max_page_bytes limits))
        | _ => Ok (true, st)
        end
      else
        let? charge := preflight_record OfEvent line in
        if MAX_JOURNAL_DECODE_BYTES - ps_decode st <? charge then Ok (true, st)
        else
          let? event := decode_tail_event line (total - Z.of_nat (length (ps_events st)) - 1) in
          tail_lines limits total rest
            (mkPageState (event :: ps_events st) (ps_bytes st + size line) (ps_decode st + charge)
               (ps_next st - 1) (ps_metrics st))
  end.
Fixpoint tail_segments (d : Disk) (v : JournalReadView) (limits : SessionEventPageLimits)
    (segments : list (Segment * bool)) (st : PageState) : Result PageState SessionStoreError :=
  match segments with
  | [] => Ok st
  | (s, is_active) :: rest =>
      if Nat.leb (max_page_events limits) (length (ps_events st)) || (max_page_bytes limits <=? ps_bytes st) then Ok st
      else
        let? read := page_segment_bytes d v limits s is_active (ps_metrics st) in
        let? next := tail_lines limits (view_next v) (reverse (split_inclusive read.1)) (set_metrics st read.2) in
        if next.1 then Ok next.2 else tail_segments d v limits rest next.2
  end.
Definition tail_page (d : Disk) (c : CatalogEntries) (v : JournalReadView) (limits : SessionEventPageLimits)
    : Result SessionEventPage SessionStoreError :=
  if negb (limits_positive limits) then Err InvalidEventPageLimits
  else
    let? st := tail_segments d v limits (reverse (segments_from c v 0)) (mkPageState [] 0 0 (view_next v) no_metrics) in
    Ok (mkPage (ps_events st) (ps_bytes st) (last_sequence v) false
          (view_next v - Z.of_nat (length (ps_events st))) 0 (view_next v) (view_total_bytes v) (last_sequence v)).

(** [collect_bounded]; the loop of pages, with fuel for one page per event *)
Definition collect_limits : SessionEventPageLimits :=
  mkLimits MAX_SEGMENT_BYTES 2000 (16 * 1024 * 1024) (512 * 1024 * 1024) 1000000.
Fixpoint collect_loop (fuel : nat) (d : Disk) (c : CatalogEntries) (v : JournalReadView) (after : option Z) (result : list Event)
    : Result (list Event) SessionStoreError :=
  match fuel with
  | O => Err LimitOverflow
  | S fuel' =>
      let? read := page d c v after collect_limits in
      let result := (result ++ page_events read.1)%list in
      if has_more read.1 then collect_loop fuel' d c v (next_cursor read.1) result else Ok result
  end.
Definition collect_bounded (d : Disk) (c : CatalogEntries) (v : JournalReadView) (max_bytes : Z) (max_events : Z)
    : Result (list Event) SessionStoreError :=
  if max_bytes <? view_total_bytes v then Err (EventLogTooLarge max_bytes)
  else if max_events <? view_next v then Err (EventCountTooLarge max_events)
  else collect_loop (S (Z.to_nat (view_next v))) d c v None [].

(** * Offline capture *)

(** [JournalReadView::from_directory], with the shared capture lock held: the
    catalog and the view *)
Definition from_directory (d : Disk) : Result (CatalogEntries * JournalReadView) SessionStoreError :=
  let? segs := catalog d in
  let? entries := ok_or (from_segments segs) LimitOverflow in
  let count := len entries in
  let? file := ok_or (names d !! "active.jsonl"%string) NotFound in
  let bytes := read_inode d file in
  if MAX_SEGMENT_BYTES <? size bytes then Err (EventLogTooLarge MAX_SEGMENT_BYTES)
  else if negb (size bytes =? 0) && negb (bool_decide (last bytes = Some LF))
  then Err (CorruptEvent "active journal tail requires writer recovery")
  else
    let first := match count with
                 | O => 0
                 | S index => match catalog_get entries index with Some s => seg_next s | None => 0 end
                 end in
    let? next := validate_events_from_sequence bytes first in
    let segment := if negb (size bytes =? 0)
                   then Some (mkSegment first next (size bytes) (hash bytes) "active.jsonl") else None in
    let? prefix := ok_or (catalog_prefix entries count) LimitOverflow in
    Ok (entries, mkView count file segment next (prefix.1 + size bytes)
                   (mkIdentity next (match segment with Some s => extend_identity s prefix.2 | None => prefix.2 end))).

(** * Full verification *)

Fixpoint verify_segments (d : Disk) (v : JournalReadView) (segments : list (Segment * bool)) (expected verified : Z)
    : Result (Z * Z) SessionStoreError :=
  match segments with
  | [] => Ok (expected, verified)
  | (s, is_active) :: rest =>
      let? file := segment_file d v s is_active in
      let? bytes := read_segment_bytes d file s is_active in
      let? expected := validate_events_from_sequence bytes expected in
      if negb (expected =? seg_next s) then Err (CorruptEvent "journal segment record count differs from index")
      else verify_segments d v rest expected (verified + seg_bytes s)
  end.
Definition verify_all (d : Disk) (c : CatalogEntries) (v : JournalReadView) : Result (Z * Z) SessionStoreError :=
  verify_segments d v (segments_from c v 0) 0 0.

(** * Historical prefixes *)

(** [memchr_iter('\n').nth(index)] *)
Fixpoint nth_lf (index : nat) (s : Bytes) : option nat :=
  match s with
  | [] => None
  | c :: s' =>
      if Ascii.eqb c LF
      then match index with O => Some 0%nat | S k => S <$> nth_lf k s' end
      else S <$> nth_lf index s'
  end.
Definition empty_identity : JournalPrefixIdentity := mkIdentity 0 (hash []).
Definition prefix_at (d : Disk) (c : CatalogEntries) (v : JournalReadView) (next : Z)
    : Result JournalReadView SessionStoreError :=
  if view_next v <? next then Err EventPageCursorAhead
  else if next =? 0 then Ok (mkView 0 (view_active v) None 0 0 empty_identity)
  else
    let? index := ok_or (partition c (view_count v) (λ s, seg_next s <? next)) LimitOverflow in
    let? boundary :=
      match (if Nat.ltb index (view_count v) then catalog_get c index else None) with
      | Some s => Ok (s, false)
      | None => match view_segment v with
                | Some s => Ok (s, true)
                | None => Err (CorruptEvent "missing journal prefix boundary")
                end
      end in
    let? file := segment_file d v boundary.1 boundary.2 in
    let? bytes := read_segment_bytes d file boundary.1 boundary.2 in
    if next <? seg_first boundary.1 then Err (CorruptEvent "invalid journal prefix boundary")
    else
      match (match Z.to_nat (next - seg_first boundary.1) with O => None | S index => nth_lf index bytes end) with
      | None => Err (CorruptEvent "missing journal prefix records")
      | Some offset =>
          let prefix_bytes := S offset in
          let prefix := mkSegment (seg_first boundary.1) next (Z.of_nat prefix_bytes) (hash (take prefix_bytes bytes))
                          (seg_name boundary.1) in
          let? prior := ok_or (catalog_prefix c index) LimitOverflow in
          Ok (mkView index file (Some prefix) next (prior.1 + seg_bytes prefix)
                (mkIdentity next (extend_identity prefix prior.2)))
      end.
Definition identity_eqb (a b : JournalPrefixIdentity) : bool :=
  (id_next_sequence a =? id_next_sequence b) && bool_decide (id_digest a = id_digest b).
Definition at_prefix (d : Disk) (c : CatalogEntries) (v : JournalReadView) (identity : JournalPrefixIdentity)
    : Result JournalReadView SessionStoreError :=
  let? prefix := prefix_at d c v (id_next_sequence identity) in
  if identity_eqb (view_identity prefix) identity then Ok prefix
  else Err (CorruptEvent "journal prefix identity mismatch").
Definition prefix_through (d : Disk) (c : CatalogEntries) (v : JournalReadView) (through : option Z)
    : Result JournalReadView SessionStoreError :=
  let? next := match through with
               | Some through => ok_or (checked_add through 1) SequenceOverflow
               | None => Ok 0
               end in
  prefix_at d c v next.

End journal.

(** * A concrete codec, for the examples *)

(** An envelope as text: the version and the sequence in unary, then the event *)
Definition unary_text (v n : Z) (e : bool) : option Bytes :=
  if (0 <=? v) && (0 <=? n)
  then Some (replicate (Z.to_nat v) "v"%char ++ replicate (Z.to_nat n) "n"%char ++ [if e then "1"%char else "0"%char])%list
  else None.
Definition count_char (c : ascii) (t : Bytes) : Z := size (List.filter (Ascii.eqb c) t).
Definition unary_header (t : Bytes) : option (Z * Z) := Some (count_char "v"%char t, count_char "n"%char t).
Definition unary_envelope (t : Bytes) : option (Z * Z * bool) :=
  Some (count_char "v"%char t, count_char "n"%char t, existsb (Ascii.eqb "1"%char) t).

Lemma filter_replicate (c x : ascii) k :
  List.filter (Ascii.eqb c) (replicate k x) = if Ascii.eqb c x then replicate k x else [].
Proof. induction k as [|k IH]; cbn [replicate List.filter]; [by destruct (Ascii.eqb c x)|]. rewrite IH. by destruct (Ascii.eqb c x). Qed.
Lemma unary_counts v n e t : unary_text v n e = Some t →
  count_char "v"%char (t ++ [LF])%list = v ∧ count_char "n"%char (t ++ [LF])%list = n ∧
  existsb (Ascii.eqb "1"%char) (t ++ [LF])%list = e ∧ LF ∉ t.
Proof.
  unfold unary_text. destruct (Z.leb_spec 0 v); [|done]. destruct (Z.leb_spec 0 n); [|done]. intros [= <-].
  unfold count_char, size. rewrite !List.filter_app, !length_app, !filter_replicate, !existsb_app.
  split_and!.
  - destruct e; simpl; rewrite ?length_replicate; lia.
  - destruct e; simpl; rewrite ?length_replicate; lia.
  - assert (Hno : ∀ x k, Ascii.eqb "1"%char x = false → existsb (Ascii.eqb "1"%char) (replicate k x) = false).
    { intros x k Hx. induction k as [|k IH]; cbn [replicate existsb]; [done|]. by rewrite Hx. }
    rewrite !Hno by done. by destruct e.
  - rewrite !not_elem_of_app. split_and!.
    + intros [H1 _]%elem_of_replicate. discriminate H1.
    + intros [H1 _]%elem_of_replicate. discriminate H1.
    + destruct e; intros H1%list_elem_of_singleton; discriminate H1.
Qed.
#[local] Instance unary_codec : Codec.
Proof.
  refine {| Event := bool; serialize := unary_text; from_slice := unary_envelope; from_slice_header := unary_header;
            json_value := λ _, Some JNull; decode_node_bytes := λ _, Some 128 |}.
  - intros v n e t H%unary_counts. apply H.
  - intros v n e t (H1 & H2 & H3 & _)%unary_counts. unfold unary_envelope. by rewrite H1, H2, H3.
  - intros v n e t (H1 & H2 & _)%unary_counts. unfold unary_header. by rewrite H1, H2.
  - intros m [= <-]. by exists 128.
Defined.
Definition two_events : list (Event (Codec := unary_codec)) := [true; false].
Definition one_event : list (Event (Codec := unary_codec)) := [true].
