(* ===== verification/JournalInv.v ===== *)
(** Invariant of the segmented journal: what the bytes of a well-formed journal
    are, what an append leaves on disk in every outcome, and that opening reads
    back the log that the disk holds. *)
From Stdlib Require Import Ascii.
From S2P Require Import Prelude Text Ir JournalCatalog Journal.

(** * Lines *)

Lemma split_inclusive_line t rest :
  LF ∉ t → split_inclusive (t ++ LF :: rest)%list = (t ++ [LF])%list :: split_inclusive rest.
Proof.
  induction t as [|c t IH]; intros Ht; cbn [app split_inclusive]; [by rewrite Ascii.eqb_refl|].
  apply not_elem_of_cons in Ht as [Hc Ht]. destruct (Ascii.eqb_spec c LF) as [->|_]; [done|]. by rewrite IH.
Qed.
Lemma rposition_app s t : LF ∉ t → rposition (s ++ t)%list = rposition s.
Proof.
  intros Ht. induction s as [|c s IH]; cbn [app rposition]; [|by rewrite IH].
  induction t as [|c t IH]; [done|]. apply not_elem_of_cons in Ht as [Hc Ht]. cbn [rposition]. rewrite IH by done.
  by destruct (Ascii.eqb_spec c LF).
Qed.
Lemma rposition_snoc s : rposition (s ++ [LF])%list = Some (length s).
Proof. induction s as [|c s IH]; cbn [app rposition length]; [by rewrite Ascii.eqb_refl|]. by rewrite IH. Qed.
Lemma count_lf_app s t : count_lf (s ++ t)%list = count_lf s + count_lf t.
Proof. unfold count_lf, size. rewrite List.filter_app, length_app. lia. Qed.
Lemma count_lf_none t : LF ∉ t → count_lf t = 0.
Proof.
  intros Ht. unfold count_lf. induction t as [|c t IH]; [done|]. apply not_elem_of_cons in Ht as [Hc Ht].
  cbn [List.filter]. destruct (Ascii.eqb_spec c LF) as [->|_]; [done|]. by apply IH.
Qed.
Lemma size_app s t : size (s ++ t)%list = size s + size t.
Proof. unfold size. rewrite length_app. lia. Qed.
Lemma size_nonneg s : 0 ≤ size s.
Proof. unfold size. lia. Qed.
Lemma take_size s t : take (Z.to_nat (size s)) (s ++ t)%list = s.
Proof. unfold size. rewrite Nat2Z.id. by rewrite take_app_length. Qed.

Section invariant.
Context `{B : Blake3} `{C : Codec}.

(** The line of an event, and the events that can be appended *)
Definition line_at (seq : Z) (e : Event) : Bytes :=
  (default [] (serialize EVENT_SCHEMA_VERSION seq e) ++ [LF])%list.
Definition good (seq : Z) (e : Event) : Prop :=
  is_Some (serialize EVENT_SCHEMA_VERSION seq e) ∧ is_ok (preflight_record OfEvent (line_at seq e)) = true.
Fixpoint lines (first : Z) (evs : list Event) : list Bytes :=
  match evs with [] => [] | e :: rest => line_at first e :: lines (first + 1) rest end.
Definition encoded (first : Z) (evs : list Event) : Bytes := concat (lines first evs).
Fixpoint all_good (first : Z) (evs : list Event) : Prop :=
  match evs with [] => True | e :: rest => good first e ∧ all_good (first + 1) rest end.

Lemma lines_app a l k : lines a (l ++ k) = (lines a l ++ lines (a + Z.of_nat (length l)) k)%list.
Proof.
  revert a. induction l as [|e l IH]; intros a; cbn [lines app length]; [by rewrite Z.add_0_r|].
  rewrite IH. do 3 f_equal. lia.
Qed.
Lemma encoded_app a l k : encoded a (l ++ k) = (encoded a l ++ encoded (a + Z.of_nat (length l)) k)%list.
Proof. unfold encoded. by rewrite lines_app, concat_app. Qed.
Lemma length_lines a l : length (lines a l) = length l.
Proof. revert a. induction l as [|e l IH]; intros a; cbn; [done|]. by rewrite IH. Qed.
Lemma all_good_app a l k : all_good a (l ++ k) ↔ all_good a l ∧ all_good (a + Z.of_nat (length l)) k.
Proof.
  revert a. induction l as [|e l IH]; intros a; cbn [all_good app length]; [rewrite Z.add_0_r; tauto|].
  rewrite IH. replace (a + 1 + Z.of_nat (length l)) with (a + Z.of_nat (S (length l))) by lia. tauto.
Qed.
Lemma lines_lookup a l i e : l !! i = Some e → lines a l !! i = Some (line_at (a + Z.of_nat i) e).
Proof.
  revert a i. induction l as [|x l IH]; intros a [|i]; cbn; try done.
  - intros [= ->]. by rewrite Z.add_0_r.
  - intros H. rewrite (IH _ _ H). do 2 f_equal. lia.
Qed.
Lemma all_good_lookup a l i e : all_good a l → l !! i = Some e → good (a + Z.of_nat i) e.
Proof.
  revert a i. induction l as [|x l IH]; intros a [|i]; cbn; try done.
  - intros [H _] [= <-]. by rewrite Z.add_0_r.
  - intros [_ H] Hi. specialize (IH _ _ H Hi). by replace (a + Z.of_nat (S i)) with (a + 1 + Z.of_nat i) by lia.
Qed.
Lemma line_one seq e : good seq e → ∃ t, serialize EVENT_SCHEMA_VERSION seq e = Some t ∧ (LF ∉ t) ∧ line_at seq e = (t ++ [LF])%list.
Proof.
  intros [[t Ht] _]. exists t. split_and!; [done|by eapply serialize_one_line|]. unfold line_at. by rewrite Ht.
Qed.

Lemma split_encoded a l : all_good a l → split_inclusive (encoded a l) = lines a l.
Proof.
  revert a. induction l as [|e l IH]; intros a; cbn [all_good]; [done|]. intros [He Hl].
  unfold encoded. cbn [lines concat]. destruct (line_one _ _ He) as (t & _ & Ht & ->).
  rewrite <- (assoc_L (++)). cbn [app]. rewrite split_inclusive_line by done. f_equal. by apply IH.
Qed.
Lemma count_encoded a l : all_good a l → count_lf (encoded a l) = Z.of_nat (length l).
Proof.
  revert a. induction l as [|e l IH]; intros a; cbn [all_good]; [done|]. intros [He Hl].
  unfold encoded. cbn [lines concat length]. destruct (line_one _ _ He) as (t & _ & Ht & ->).
  rewrite !count_lf_app, (count_lf_none t) by done. fold (encoded (a + 1) l). rewrite IH by done.
  change (count_lf [LF]) with 1. lia.
Qed.
Lemma encoded_snoc a l e : encoded a (l ++ [e]) = (encoded a l ++ line_at (a + Z.of_nat (length l)) e)%list.
Proof. rewrite encoded_app. unfold encoded at 2. cbn [lines concat]. by rewrite app_nil_r. Qed.
Lemma last_encoded a l : l ≠ [] → last (encoded a l) = Some LF.
Proof.
  destruct l as [|e l _] using rev_ind; [done|]. intros _. rewrite encoded_snoc. unfold line_at.
  rewrite (assoc_L (++)). apply last_snoc.
Qed.
Lemma encoded_nonempty a l : l ≠ [] → 0 < size (encoded a l).
Proof.
  destruct l as [|e l]; [done|]. intros _. unfold encoded. cbn [lines concat]. unfold line_at.
  rewrite !size_app. change (size [LF]) with 1. pose proof (size_nonneg (concat (lines (a + 1) l))).
  pose proof (size_nonneg (default [] (serialize EVENT_SCHEMA_VERSION a e))). lia.
Qed.
Lemma length_le_size a l : Z.of_nat (length l) ≤ size (encoded a l).
Proof.
  revert a. induction l as [|e l IH]; intros a; [done|]. unfold encoded. cbn [lines concat length]. unfold line_at.
  rewrite !size_app. change (size [LF]) with 1. fold (encoded (a + 1) l). specialize (IH (a + 1)).
  pose proof (size_nonneg (default [] (serialize EVENT_SCHEMA_VERSION a e))). lia.
Qed.

(** * Admission of what is reread *)

Lemma decode_bytes_mono s k m b :
  0 ≤ nodes s → k ≤ m → decode_bytes s (Some m) = Some b → ∃ b', decode_bytes s (Some k) = Some b' ∧ b' ≤ b.
Proof.
  intros Hn Hk. unfold decode_bytes. cbn [mbind option_bind].
  unfold checked_mul, checked_add.
  destruct (Z.leb_spec (nodes s * Z.max m 128) usize_max); cbn [mbind option_bind]; [|done].
  destruct (Z.leb_spec (nodes s * Z.max m 128 + string_bytes s) usize_max); cbn [mbind option_bind]; [|done].
  destruct (Z.leb_spec ((nodes s * Z.max m 128 + string_bytes s) * 4) usize_max); [|done]. intros [= <-].
  assert (nodes s * Z.max k 128 ≤ nodes s * Z.max m 128) by nia.
  destruct (Z.leb_spec (nodes s * Z.max k 128) usize_max); cbn [mbind option_bind]; [|lia].
  destruct (Z.leb_spec (nodes s * Z.max k 128 + string_bytes s) usize_max); cbn [mbind option_bind]; [|lia].
  destruct (Z.leb_spec ((nodes s * Z.max k 128 + string_bytes s) * 4) usize_max); [|lia]. eexists. split; [done|lia].
Qed.

Lemma seed_node_nodes limits dep s s' : seed_node limits dep s = Some s' → nodes s' = nodes s + 1.
Proof.
  unfold seed_node. unfold checked_add. destruct (nodes s + 1 <=? usize_max); cbn [mbind option_bind]; [|done].
  destruct (_ || _); [done|]. by intros [= <-].
Qed.
Lemma visit_str_nodes limits t s s' : visit_str limits t s = Some s' → nodes s' = nodes s.
Proof.
  unfold visit_str. destruct (checked_add _ _); cbn [mbind option_bind]; [|done].
  destruct (_ <? _); [done|]. by intros [= <-].
Qed.
Lemma visit_nodes limits v : ∀ dep s s', visit limits dep v s = Some s' → nodes s ≤ nodes s'.
Proof.
  induction v as [| | |t|values IH|entries IH] using Value_ind'; intros dep s s'; cbn [visit];
    (destruct (seed_node limits dep s) as [s1|] eqn:E; cbn [mbind option_bind]; [|done]);
    apply seed_node_nodes in E; try (intros [= <-]; lia).
  - intros H%visit_str_nodes. lia.
  - assert (Hs1 : nodes s ≤ nodes (add_array s1)) by (cbn; lia). revert Hs1. generalize (add_array s1). clear E s1.
    induction IH as [|v values Hv _ IH]; intros s1 Hs1; [intros [= <-]; lia|].
    destruct (visit limits (dep + 1) v s1) as [s2|] eqn:E2; cbn [mbind option_bind]; [|done].
    apply Hv in E2. apply IH. cbn. lia.
  - assert (Hs1 : nodes s ≤ nodes (add_object s1)) by (cbn; lia). revert Hs1. generalize (add_object s1). clear E s1.
    induction IH as [|[k v] entries Hv _ IH]; intros s1 Hs1; [intros [= <-]; lia|].
    destruct (seed_node limits (dep + 1) s1) as [s2|] eqn:E2; cbn [mbind option_bind]; [|done].
    destruct (visit_str limits k s2) as [s3|] eqn:E3; cbn [mbind option_bind]; [|done].
    destruct (visit limits (dep + 1) v (add_object_entry s3)) as [s4|] eqn:E4; cbn [mbind option_bind]; [|done].
    apply seed_node_nodes in E2. apply visit_str_nodes in E3. apply Hv in E4. cbn in E4. apply IH. lia.
Qed.

(** What was admitted when it was written is admitted when it is reread. *)
Lemma preflight_value line : is_ok (preflight_record OfEvent line) = true → is_ok (preflight_record OfValue line) = true.
Proof.
  unfold preflight_record, preflight_json. destruct (_ <? size line); [done|].
  destruct (json_value line) as [v|]; [|done]. cbn [mbind option_bind].
  destruct (visit record_limits 0 v no_structure) as [s|] eqn:Ev; cbn [ok_or]; [|done].
  apply visit_nodes in Ev. cbn [no_structure nodes] in Ev.
  destruct (decode_bytes s (decode_node_bytes OfEvent)) as [a|]; cbn [mbind option_bind]; [|done].
  destruct (decode_bytes s (decode_node_bytes OfEngineEvent)) as [b|] eqn:Eb; cbn [mbind option_bind ok_or]; [|done].
  destruct (decode_node_bytes OfEngineEvent) as [m|] eqn:Em; [|done].
  destruct (value_within_engine _ Em) as (k & -> & Hk).
  destruct (decode_bytes_mono _ _ _ _ Ev Hk Eb) as (c & -> & Hc). cbn [mbind option_bind ok_or].
  destruct (Z.ltb_spec MAX_JOURNAL_DECODE_BYTES (Z.max a b)); [done|].
  destruct (Z.ltb_spec MAX_JOURNAL_DECODE_BYTES (Z.max c b)); [lia|done].
Qed.

Lemma validate_good a l :
  all_good a l → 0 ≤ a → a + Z.of_nat (length l) ≤ u64_max → validate_lines a (lines a l) = Ok (a + Z.of_nat (length l)).
Proof.
  revert a. induction l as [|e l IH]; intros a; cbn [all_good lines validate_lines length]; [by rewrite Z.add_0_r|].
  intros [He Hl] Ha Hmax. destruct (line_one _ _ He) as (t & Ht & _ & Eline).
  pose proof (preflight_value _ (proj2 He)) as Hp. destruct (preflight_record OfValue (line_at a e)); [|done].
  rewrite Eline, (header_serialize _ _ _ _ Ht). cbn [Z.eqb negb EVENT_SCHEMA_VERSION]. rewrite Z.eqb_refl. cbn [negb].
  unfold checked_add, usize_max. destruct (Z.leb_spec (a + 1) u64_max); [|lia]. cbn [ok_or].
  rewrite IH by (done || lia). f_equal. lia.
Qed.

(** * Torn writes *)

(** What a write that stopped after [n] bytes leaves: whole lines, then a
    fragment without a line feed. *)
Lemma torn_lines n a l : all_good a l →
  ∃ k tail, take n (encoded a l) = (encoded a (take k l) ++ tail)%list ∧ LF ∉ tail.
Proof.
  revert n a. induction l as [|e l IH]; intros n a; cbn [all_good].
  { intros _. exists 0%nat, []. split; [|apply not_elem_of_nil]. unfold encoded. cbn [lines concat]. by rewrite !take_nil. }
  intros [He Hl]. destruct (line_one _ _ He) as (t & _ & Ht & E). unfold encoded. cbn [lines concat]. rewrite E.
  destruct (Nat.le_gt_cases (length t + 1) n) as [Hn|Hn].
  - rewrite take_app_ge by (rewrite length_app; cbn; lia).
    destruct (IH (n - length (t ++ [LF]))%nat (a + 1) Hl) as (k & tail & Ek & Htail). unfold encoded in Ek. rewrite Ek.
    exists (S k), tail. split; [|done]. cbn [take lines concat]. by rewrite E, <- !(assoc_L (++)).
  - exists 0%nat, (take n t). split.
    + rewrite <- (assoc_L (++)), take_app_le by lia. done.
    + intros H. apply Ht. apply elem_of_take in H as (i & Hi & _). by eapply list_elem_of_lookup_2.
Qed.

(** The last line feed cuts a torn file exactly after its whole lines. *)
Lemma complete_cut a l tail : LF ∉ tail → tail ≠ [] →
  (match last (encoded a l ++ tail)%list with Some c => negb (Ascii.eqb c LF) | None => false end) = true ∧
  take (match rposition (encoded a l ++ tail)%list with Some offset => S offset | None => 0%nat end)
    (encoded a l ++ tail)%list = encoded a l.
Proof.
  intros Ht Hne. split.
  - destruct tail as [|c tail _] using rev_ind; [done|]. rewrite (assoc_L (++)), last_snoc.
    apply not_elem_of_app in Ht as [_ Hc%not_elem_of_cons]. destruct (Ascii.eqb_spec c LF) as [->|]; [naive_solver|done].
  - rewrite rposition_app by done. destruct l as [|e l _] using rev_ind; [done|].
    rewrite encoded_snoc. unfold line_at. set (x := default [] _). rewrite (assoc_L (++) (encoded a l) x).
    rewrite rposition_snoc. rewrite take_app_le by (rewrite !length_app; cbn [length]; lia).
    rewrite take_ge by (rewrite !length_app; cbn [length]; lia). done.
Qed.

(** * Encoding *)

Lemma write_envelope_ok limit w q e line :
  write_envelope limit w q e = Ok line → line = line_at q e ∧ is_Some (serialize EVENT_SCHEMA_VERSION q e) ∧ w + size line ≤ limit.
Proof.
  unfold write_envelope, line_at. destruct (serialize _ q e) as [t|]; [|done].
  destruct (Z.ltb_spec limit (w + size t)); [done|]. destruct (Z.ltb_spec limit (w + size t + 1)); [done|].
  intros [= <-]. rewrite size_app. change (size [LF]) with 1. split_and!; [done|done|lia].
Qed.
(** The envelopes of a batch, numbered from [first] *)
Fixpoint envelopes_from (first : Z) (evs : list Event) : list EventEnvelope :=
  match evs with [] => [] | e :: rest => mkEnvelope EVENT_SCHEMA_VERSION first e :: envelopes_from (first + 1) rest end.
Lemma envelopes_from_length first evs : length (envelopes_from first evs) = length evs.
Proof. revert first. induction evs as [|e evs IH]; intros first; cbn; [done|]. by rewrite IH. Qed.
Lemma encode_loop_ok first evs bytes envs out envs' :
  0 ≤ first → encode_loop first evs bytes envs = Ok (out, envs') →
  let offset := length envs in
  out = (bytes ++ encoded (first + Z.of_nat offset) evs)%list ∧ all_good (first + Z.of_nat offset) evs ∧
  (evs ≠ [] → size out ≤ MAX_SEGMENT_BYTES) ∧ envs' = (envs ++ envelopes_from (first + Z.of_nat offset) evs)%list.
Proof.
  intros Hf. cbv zeta. revert bytes envs. induction evs as [|e evs IH]; intros bytes envs; cbn [encode_loop].
  { intros [= <- <-]. unfold encoded. cbn. by rewrite !app_nil_r. }
  set (offset := length envs). cbv zeta. cbn [env_sequence env_event].
  unfold checked_add. destruct (Z.leb_spec (first + Z.of_nat offset) usize_max); [|done]. cbn [ok_or].
  destruct (write_envelope _ _ _ e) as [line|] eqn:El; [|done].
  apply write_envelope_ok in El as (-> & Hser & Hsize).
  destruct (preflight_record OfEvent _) as [charge|] eqn:Ep; [|done]. intros H'.
  apply IH in H' as (-> & Hgood & Hmax & ->). rewrite length_app in *. cbn [length] in *. fold offset in Hgood, Hmax |- *.
  replace (offset + 1)%nat with (S offset) in * by lia.
  replace (first + Z.of_nat (S offset)) with (first + Z.of_nat offset + 1) in * by lia.
  split_and!.
  - unfold encoded. cbn [lines concat]. by rewrite (assoc_L (++)).
  - cbn [all_good]. unfold good. rewrite Ep. done.
  - intros _. destruct evs as [|e' evs]; [|by apply Hmax]. unfold encoded. cbn [lines concat].
    rewrite app_nil_r, size_app. done.
  - cbn [envelopes_from]. by rewrite <- (assoc_L (++)).
Qed.
Lemma encode_owned_ok first evs p envs :
  0 ≤ first → encode_owned first evs = Ok (p, envs) →
  p = mkPrepared first (first + Z.of_nat (length evs)) (length evs) (encoded first evs) ∧ envs = envelopes_from first evs ∧
  all_good first evs ∧ size (encoded first evs) ≤ MAX_SEGMENT_BYTES ∧ first + Z.of_nat (length evs) ≤ u64_max.
Proof.
  intros Hf. unfold encode_owned. destruct (encode_loop first evs [] []) as [[out envs']|] eqn:E; [|done].
  apply encode_loop_ok in E as (-> & Hg & Hmax & ->); [|done]. cbn [length] in *. rewrite Z.add_0_r in *. cbn [app] in *.
  rewrite envelopes_from_length. unfold checked_add, usize_max. destruct (Z.leb_spec (first + Z.of_nat (length evs)) u64_max); [|done].
  cbn [ok_or]. intros [= <- <-]. split_and!; [done|done|done| |done].
  destruct evs; [by vm_compute|]. by apply Hmax.
Qed.

End invariant.

(** * The two ways to encode a batch *)

Section plans.
Context `{B : Blake3} `{C : Codec}.

Fixpoint serializable (first : Z) (evs : list Event) : Prop :=
  match evs with [] => True | e :: rest => is_Some (serialize EVENT_SCHEMA_VERSION first e) ∧ serializable (first + 1) rest end.

Lemma write_envelope_iff limit w q e :
  is_Some (serialize EVENT_SCHEMA_VERSION q e) → w + size (line_at q e) ≤ limit → write_envelope limit w q e = Ok (line_at q e).
Proof.
  intros [t Ht]. unfold write_envelope, line_at. rewrite Ht. cbn [default from_option id]. rewrite size_app.
  change (size [LF]) with 1. intros Hle. destruct (Z.ltb_spec limit (w + size t)); [lia|].
  by destruct (Z.ltb_spec limit (w + size t + 1)); [lia|].
Qed.
Lemma encode_records_ok limit first offset evs bytes out :
  encode_records limit first offset evs bytes = Ok out →
  out = (bytes ++ encoded (first + Z.of_nat offset) evs)%list ∧ serializable (first + Z.of_nat offset) evs ∧
  (evs ≠ [] → size out ≤ limit).
Proof.
  revert offset bytes. induction evs as [|e evs IH]; intros offset bytes; cbn [encode_records].
  { intros [= <-]. unfold encoded. cbn. by rewrite app_nil_r. }
  destruct (checked_add _ _) as [q|] eqn:Eq; [|done]. cbn [ok_or]. unfold checked_add in Eq.
  destruct (_ <=? _); [|done]. injection Eq as <-.
  destruct (write_envelope _ _ _ e) as [line|] eqn:El; [|done].
  apply write_envelope_ok in El as (-> & Hser & Hsize). intros H'. apply IH in H' as (-> & Hgood & Hmax).
  replace (first + Z.of_nat (S offset)) with (first + Z.of_nat offset + 1) in * by lia.
  split_and!; [unfold encoded; cbn [lines concat]; by rewrite (assoc_L (++))|done|].
  intros _. destruct evs as [|e' evs]; [|by apply Hmax]. unfold encoded. cbn [lines concat].
  rewrite app_nil_r, size_app. done.
Qed.
Lemma size_encoded_le a evs bytes e :
  size bytes + size (line_at a e) ≤ size (bytes ++ encoded a (e :: evs))%list.
Proof.
  unfold encoded. cbn [lines concat]. rewrite !size_app. pose proof (size_nonneg (concat (lines (a + 1) evs))). lia.
Qed.
Lemma encode_records_total limit first offset evs bytes :
  serializable (first + Z.of_nat offset) evs → size (bytes ++ encoded (first + Z.of_nat offset) evs)%list ≤ limit →
  first + Z.of_nat offset + Z.of_nat (length evs) ≤ u64_max →
  encode_records limit first offset evs bytes = Ok (bytes ++ encoded (first + Z.of_nat offset) evs)%list.
Proof.
  revert offset bytes. induction evs as [|e evs IH]; intros offset bytes; cbn [encode_records serializable length].
  { unfold encoded. cbn. by rewrite app_nil_r. }
  intros [He Hs] Hsize Hmax. unfold checked_add, usize_max. destruct (Z.leb_spec (first + Z.of_nat offset) u64_max); [|lia]. cbn [ok_or].
  pose proof (size_encoded_le (first + Z.of_nat offset) evs bytes e) as Hle.
  rewrite write_envelope_iff by (done || lia). 
  replace (first + Z.of_nat offset + 1) with (first + Z.of_nat (S offset)) in * by lia.
  unfold encoded in *. cbn [lines concat] in *. 
  replace (first + Z.of_nat offset + 1) with (first + Z.of_nat (S offset)) in * by lia.
  rewrite (assoc_L (++)) in Hsize. rewrite IH by (done || lia). by rewrite <- (assoc_L (++)).
Qed.
Lemma encode_loop_total first evs bytes envs :
  let offset := length envs in
  all_good (first + Z.of_nat offset) evs → size (bytes ++ encoded (first + Z.of_nat offset) evs)%list ≤ MAX_SEGMENT_BYTES →
  first + Z.of_nat offset + Z.of_nat (length evs) ≤ u64_max →
  encode_loop first evs bytes envs =
    Ok (bytes ++ encoded (first + Z.of_nat offset) evs, envs ++ envelopes_from (first + Z.of_nat offset) evs)%list.
Proof.
  cbv zeta. revert bytes envs. induction evs as [|e evs IH]; intros bytes envs; cbn [encode_loop all_good length].
  { unfold encoded. cbn. by rewrite !app_nil_r. }
  set (offset := length envs). cbv zeta. cbn [env_sequence env_event].
  intros [He Hs] Hsize Hmax. unfold checked_add, usize_max. destruct (Z.leb_spec (first + Z.of_nat offset) u64_max); [|lia]. cbn [ok_or].
  pose proof (size_encoded_le (first + Z.of_nat offset) evs bytes e) as Hle.
  rewrite write_envelope_iff by (apply He || lia). destruct He as [_ Hpre].
  destruct (preflight_record OfEvent _); [|done].
  unfold encoded in *. cbn [lines concat envelopes_from] in *.
  rewrite (assoc_L (++)) in Hsize.
  assert (first + Z.of_nat offset + 1 = first + Z.of_nat (length (envs ++ [mkEnvelope EVENT_SCHEMA_VERSION (first + Z.of_nat offset) e]))) as E.
  { rewrite length_app. cbn [length]. fold offset. lia. }
  rewrite E in *. rewrite IH by (done || lia). rewrite <- E. by rewrite <- !(assoc_L (++)).
Qed.
Lemma split_serializable a l : serializable a l → split_inclusive (encoded a l) = lines a l.
Proof.
  revert a. induction l as [|e l IH]; intros a; cbn [serializable]; [done|]. intros [[t Ht] Hl].
  unfold encoded. cbn [lines concat]. unfold line_at at 1. rewrite Ht. cbn [default from_option id].
  rewrite <- (assoc_L (++)). cbn [app]. rewrite split_inclusive_line by by eapply serialize_one_line.
  unfold line_at. rewrite Ht. cbn [default from_option id]. f_equal. by apply IH.
Qed.
Lemma preflight_lines_good a l : serializable a l → is_ok (preflight_lines (lines a l)) = true ↔ all_good a l.
Proof.
  revert a. induction l as [|e l IH]; intros a; cbn [serializable lines preflight_lines all_good]; [done|].
  intros [He Hl]. unfold good. specialize (IH _ Hl). destruct (preflight_record OfEvent (line_at a e)); cbn [is_ok]; naive_solver.
Qed.
Lemma all_good_serializable a l : all_good a l → serializable a l.
Proof. revert a. induction l as [|e l IH]; intros a; cbn; [done|]. intros [[He _] Hl]. auto. Qed.

End plans.

(** Measuring a batch first and encoding it into the reserved buffer prepares
    exactly what encoding it directly prepares, and succeeds on the same batches. *)
Theorem plan_encode_exact `{B : Blake3} `{C : Codec} first evs p :
  0 ≤ first →
  (∃ plan, measure first evs = Ok plan ∧ encode_plan plan evs = Ok p) ↔
  encode_owned first evs = Ok (p, envelopes_from first evs).
Proof.
  intros Hf. split.
  - intros (plan & Hm & He). unfold measure in Hm. destruct (checked_add first _) as [next|] eqn:En; [|done]. cbn [ok_or] in Hm.
    destruct (encode_records MAX_SEGMENT_BYTES first 0 evs []) as [out|] eqn:Eo; [|done]. injection Hm as <-.
    apply encode_records_ok in Eo as (-> & Hser & Hmax). rewrite Z.add_0_r in *. cbn [app] in *.
    unfold encode_plan in He. cbn [plan_count plan_bytes plan_first plan_next] in He. rewrite Nat.eqb_refl in He. cbn [negb] in He.
    destruct (encode_records _ first 0 evs []) as [out|] eqn:Eo; [|done].
    apply encode_records_ok in Eo as (-> & _ & _). rewrite Z.add_0_r in *. cbn [app] in *. rewrite Z.eqb_refl in He. cbn [negb] in He.
    rewrite split_serializable in He by done. pose proof (preflight_lines_good _ _ Hser) as Hg.
    destruct (preflight_lines _); [|done]. injection He as <-. unfold encode_owned.
    unfold checked_add, usize_max in *. destruct (Z.leb_spec (first + Z.of_nat (length evs)) u64_max); [|done]. injection En as <-.
    rewrite encode_loop_total; cbn [length]; rewrite ?Z.add_0_r; cbn [app]; [|by apply Hg| |done].
    { rewrite envelopes_from_length. unfold checked_add, usize_max. by rewrite (proj2 (Z.leb_le _ _)). }
    destruct evs as [|e evs]; [by vm_compute|by apply Hmax].
  - intros Ho. apply encode_owned_ok in Ho as (-> & _ & Hg & Hsize & Hmax); [|done].
    pose proof (all_good_serializable _ _ Hg) as Hser.
    unfold measure. unfold checked_add, usize_max. destruct (Z.leb_spec (first + Z.of_nat (length evs)) u64_max); [|lia]. cbn [ok_or].
    rewrite encode_records_total; rewrite ?Z.add_0_r; cbn [app]; [|done..]. eexists. split; [done|].
    unfold encode_plan. cbn [plan_count plan_bytes plan_first plan_next]. rewrite Nat.eqb_refl. cbn [negb].
    rewrite encode_records_total; rewrite ?Z.add_0_r; cbn [app]; [|done..]. rewrite Z.eqb_refl. cbn [negb].
    rewrite split_serializable by done. pose proof (proj2 (preflight_lines_good _ _ Hser) Hg) as Hp.
    by destruct (preflight_lines _).
Qed.

#[local] Existing Instance bit_digest.
#[local] Existing Instance unary_codec.
Lemma plan_encode_exact_witness :
  0 ≤ 3 ∧ (∃ plan p, measure 3 two_events = Ok plan ∧ encode_plan plan two_events = Ok p ∧ prep_next p = 5).
Proof.
  split; [lia|].
  destruct (encode_owned 3 two_events) as [[p envs]|] eqn:E; [|vm_compute in E; discriminate E].
  assert (Ee : envs = envelopes_from 3 two_events) by (vm_compute in E; injection E as _ <-; reflexivity). rewrite Ee in E.
  destruct (proj2 (plan_encode_exact 3 two_events p ltac:(lia)) E) as (plan & Hm & He).
  exists plan, p. split; [exact Hm|]. split; [exact He|]. vm_compute in E. injection E as <-. reflexivity.
Defined.
