(* ===== verification/JournalRecovery.v ===== *)
(** Crash safety of the segmented journal.

    A journal stands for a log, the list of its events.  [Layout] says what a
    directory holds for a log, [Inv] relates the writer to it.  Every append
    leaves, whatever the operating system answers and wherever a crash falls, a
    directory that opens to the log extended by the first events of the batch;
    acknowledged events are read back under their sequence numbers. *)
From Stdlib Require Import Ascii.
From S2P Require Import Prelude Text Ir JournalCatalog Journal JournalInv.

Section recovery.
Context `{B : Blake3} `{C : Codec}.

(** * What a directory holds *)

Definition seg_evs (log : list Event) (s : Segment) : list Event :=
  take (Z.to_nat (seg_next s - seg_first s)) (drop (Z.to_nat (seg_first s)) log).
Definition seg_text (log : list Event) (s : Segment) : Bytes := encoded (seg_first s) (seg_evs log s).
Record seg_holds (d : Disk) (log : list Event) (s : Segment) : Prop := mkHolds {
  holds_valid : valid_segment s;
  holds_file : ∃ i, names d !! seg_name s = Some i ∧ contents d !! i = Some (seg_text log s);
  holds_bytes : seg_bytes s = size (seg_text log s);
  holds_digest : seg_digest s = hash (seg_text log s);
  holds_next : seg_next s ≤ Z.of_nat (length log);
}.
Definition reserved : list string := ["active.jsonl"; "writer.lock"; "derived"]%string.
Record Layout (d : Disk) (log : list Event) (segs : list Segment) : Prop := mkLayout {
  lay_segs : Forall (seg_holds d log) segs;
  lay_contiguous : contiguous 0 segs = true;
  lay_count : (length segs ≤ MAX_SEGMENTS)%nat;
  lay_names : ∀ n i, names d !! n = Some i → n ∈ reserved ∨ n ∈ map seg_name segs;
  lay_inj : ∀ n m i, names d !! n = Some i → names d !! m = Some i → n = m;
  lay_fresh : ∀ n i, names d !! n = Some i → (i < fresh d)%nat;
  lay_good : all_good 0 log;
  lay_len : Z.of_nat (length log) ≤ u64_max;
}.
(** The events and the bytes of the active file *)
Definition active_evs (log : list Event) (segs : list Segment) : list Event := drop (Z.to_nat (last_next segs)) log.
Definition active_text (log : list Event) (segs : list Segment) : Bytes := encoded (last_next segs) (active_evs log segs).

(** A directory that opens to [log]; [tail] is a torn record *)
Definition on_disk (d : Disk) (log : list Event) (tail : Bytes) : Prop :=
  ∃ segs, Layout d log segs ∧ size (active_text log segs ++ tail)%list ≤ MAX_SEGMENT_BYTES ∧ (LF ∉ tail) ∧
    match names d !! "active.jsonl"%string with
    | Some i => contents d !! i = Some (active_text log segs ++ tail)%list
    | None => active_evs log segs = [] ∧ tail = []
    end.

(** The writer of a journal for [log] *)
Record Inv (d : Disk) (j : SegmentedJournal) (log : list Event) (segs : list Segment) : Prop := mkInv {
  inv_layout : Layout d log segs;
  inv_catalog : repseg (segments j) segs;
  inv_count : segment_count j = length segs;
  inv_name : names d !! "active.jsonl"%string = Some (active j);
  inv_first : active_first j = last_next segs;
  inv_hash : active_hash j = active_text log segs;
  inv_content : contents d !! active j = Some (active_text log segs);
  inv_bytes : active_bytes j = size (active_text log segs);
  inv_room : active_bytes j ≤ MAX_SEGMENT_BYTES;
  inv_sealed : sealed_bytes j = total_bytes_of segs;
  inv_identity : sealed_identity j = chain (hash []) segs;
  inv_next : next_sequence j = Z.of_nat (length log);
  inv_poisoned : poisoned j = false;
}.

(** * Contiguous segments *)

Lemma contiguous_sorted e segs :
  Forall valid_segment segs → contiguous e segs = true →
  StronglySorted (λ s t, seg_next s ≤ seg_first t) segs ∧ Forall (λ s, e ≤ seg_first s) segs.
Proof.
  revert e. induction segs as [|s segs IH]; intros e; cbn [contiguous]; [split; constructor|].
  intros [Hs Hsegs]%Forall_cons [He Hc]%andb_prop. apply Z.eqb_eq in He.
  destruct (IH _ Hsegs Hc) as [H1 H2]. destruct Hs as (_ & _ & Hlt & _). split.
  - by constructor.
  - constructor; [lia|]. eapply Forall_impl; [exact H2|]. cbn. lia.
Qed.
Lemma contiguous_snoc e segs s :
  contiguous e (segs ++ [s]) = true ↔
  contiguous e segs = true ∧ seg_first s = match last segs with Some t => seg_next t | None => e end.
Proof.
  revert e. induction segs as [|t segs IH]; intros e; cbn [app contiguous].
  - rewrite andb_true_r. cbn. rewrite Z.eqb_eq. tauto.
  - rewrite andb_true_iff, IH, last_cons, andb_true_iff. destruct (last segs); tauto.
Qed.
Lemma last_next_snoc segs s : last_next (segs ++ [s]) = seg_next s.
Proof. unfold last_next. by rewrite last_snoc. Qed.
Lemma last_next_range d log segs : Layout d log segs → 0 ≤ last_next segs ≤ Z.of_nat (length log).
Proof.
  intros H. unfold last_next. destruct (last segs) as [s|] eqn:E; [|lia].
  apply last_Some_elem_of in E. pose proof (lay_segs _ _ _ H) as Hs. rewrite Forall_forall in Hs.
  destruct (Hs _ E) as [Hv _ _ _ Hn]. destruct Hv as (Hu & _ & Hlt & _). unfold u64 in Hu. lia.
Qed.
Lemma layout_valid d log segs : Layout d log segs → Forall valid_segment segs.
Proof. intros H. eapply Forall_impl; [apply (lay_segs _ _ _ H)|]. intros s. by intros []. Qed.

(** * The directory listing *)

Lemma seg_name_inj s t : valid_segment s → valid_segment t → seg_name s = seg_name t → s = t.
Proof. intros Hs%parse_segment_name Ht%parse_segment_name E. rewrite E, Ht in Hs. by injection Hs. Qed.
Lemma seg_name_not_reserved s : valid_segment s → seg_name s ∉ reserved.
Proof.
  intros Hs%parse_segment_name Hin. unfold reserved in Hin. rewrite !elem_of_cons, elem_of_nil in Hin.
  destruct Hin as [E|[E|[E|[]]]]; rewrite E in Hs; discriminate Hs.
Qed.
Lemma is_reserved name :
  String.eqb name "active.jsonl" || String.eqb name "writer.lock" || String.eqb name "derived" = true ↔ name ∈ reserved.
Proof.
  unfold reserved. rewrite !orb_true_iff, !String.eqb_eq, !elem_of_cons, elem_of_nil. tauto.
Qed.
Lemma parse_names_ok segs l :
  Forall valid_segment segs → (∀ n, n ∈ l → n ∈ reserved ∨ n ∈ map seg_name segs) →
  ∃ parsed, parse_names l = Ok parsed ∧ map seg_name parsed = filter (λ n, n ∉ reserved) l ∧
            Forall (λ s, s ∈ segs) parsed.
Proof.
  intros Hv. induction l as [|n l IH]; intros Hl; cbn [parse_names]; [by exists []|].
  destruct IH as (parsed & -> & Hmap & Hin); [intros m Hm; apply Hl; set_solver|].
  destruct (_ || _) eqn:E.
  - apply is_reserved in E. exists parsed. by rewrite filter_cons_False by tauto.
  - assert (Hn : n ∉ reserved) by (rewrite <- is_reserved; congruence).
    destruct (Hl n) as [|Hs]; [set_solver|done|]. apply list_elem_of_fmap in Hs as (s & -> & Hs).
    rewrite Forall_forall in Hv. rewrite (parse_segment_name s) by auto. exists (s :: parsed).
    rewrite filter_cons_True by done. cbn. rewrite Hmap. split_and!; [done|done|by constructor].
Qed.

Lemma sorted_NoDup segs : Forall valid_segment segs → StronglySorted (λ s t, seg_next s ≤ seg_first t) segs → NoDup segs.
Proof.
  intros Hv. induction 1 as [|s segs Hs IH Hall]; [constructor|]. apply Forall_cons in Hv as [Hv Hvs].
  constructor; [|by apply IH]. intros Hin. rewrite Forall_forall in Hall. specialize (Hall _ Hin).
  destruct Hv as (_ & _ & Hlt & _). lia.
Qed.
Lemma sorted_first segs s t :
  Forall valid_segment segs → StronglySorted (λ s t, seg_next s ≤ seg_first t) segs →
  s ∈ segs → t ∈ segs → seg_first s = seg_first t → s = t.
Proof.
  intros Hv. induction 1 as [|r segs Hs IH Hall]; [set_solver|]. apply Forall_cons in Hv as [Hv Hvs].
  rewrite Forall_forall in Hall. destruct Hv as (_ & _ & Hlt & _).
  rewrite !elem_of_cons. intros [->|Hs'] [->|Ht'] E; [done| | |by apply IH].
  - specialize (Hall _ Ht'). lia.
  - specialize (Hall _ Hs'). lia.
Qed.

Lemma catalog_layout d log segs : Layout d log segs → catalog d = Ok segs.
Proof.
  intros H. pose proof (layout_valid _ _ _ H) as Hv.
  destruct (contiguous_sorted _ _ Hv (lay_contiguous _ _ _ H)) as [Hsorted _]. unfold catalog.
  set (listed := map fst (map_to_list (names d))).
  assert (Hnd : NoDup listed) by apply NoDup_fst_map_to_list.
  assert (Hin : ∀ n, n ∈ listed ↔ is_Some (names d !! n)).
  { intros n. unfold listed. rewrite list_elem_of_fmap. split.
    - intros ([m i] & -> & Hm%elem_of_map_to_list). eauto.
    - intros [i Hi]. exists (n, i). by rewrite elem_of_map_to_list. }
  assert (Hsub : ∀ n, n ∈ listed → n ∈ reserved ∨ n ∈ map seg_name segs).
  { intros n [i Hi]%Hin. by eapply lay_names. }
  assert (Hlen : (length listed ≤ 3 + length segs)%nat).
  { replace (3 + length segs)%nat with (length (reserved ++ map seg_name segs)) by (rewrite length_app, length_map; done).
    apply submseteq_length, NoDup_submseteq; [done|]. intros n Hn. rewrite elem_of_app. by apply Hsub. }
  pose proof (lay_count _ _ _ H). destruct (Nat.ltb_spec (MAX_SEGMENTS + 8) (length listed)); [lia|].
  destruct (parse_names_ok segs listed Hv Hsub) as (parsed & -> & Hmap & Hall). rewrite Forall_forall in Hall.
  assert (Hperm : parsed ≡ₚ segs).
  { apply NoDup_Permutation; [|by apply sorted_NoDup|].
    - apply (NoDup_fmap_1 seg_name). change (seg_name <$> parsed) with (map seg_name parsed). rewrite Hmap.
      by apply NoDup_filter.
    - intros s. split; [apply Hall|]. intros Hs. rewrite Forall_forall in Hv.
      assert (Hs' : seg_name s ∈ map seg_name parsed).
      { rewrite Hmap. apply list_elem_of_filter. split; [by apply seg_name_not_reserved, Hv|]. apply Hin.
        pose proof (lay_segs _ _ _ H) as Hf. rewrite Forall_forall in Hf. destruct (Hf _ Hs) as [_ (i & Hi & _) _ _ _]. eauto. }
      apply list_elem_of_fmap in Hs' as (t & Et & Ht). rewrite (seg_name_inj s t); auto. }
  assert (Hsort : stable_sort (λ s t, seg_first s <=? seg_first t) parsed = segs).
  { rewrite (stable_sort_unique _) with (k := segs).
    - apply stable_sort_id. clear -Hsorted Hv. induction Hsorted as [|s segs Hs IH Hall]; constructor.
      + apply IH. by apply Forall_cons in Hv as [_ ?].
      + apply Forall_cons in Hv as [(_ & _ & Hlt & _) _]. eapply Forall_impl; [exact Hall|]. cbn. intros t Ht. lia.
    - intros s t. lia.
    - intros s t r. lia.
    - intros s t Hs Ht. rewrite Hperm in Hs, Ht. intros Hle%Z.leb_le Hge%Z.leb_le. eapply sorted_first; eauto. lia.
    - done. }
  rewrite Hsort. by rewrite (lay_contiguous _ _ _ H).
Qed.

(** * Changes of the directory *)

Lemma holds_active_free d log segs s i :
  Layout d log segs → s ∈ segs → names d !! "active.jsonl"%string = Some i → names d !! seg_name s ≠ Some i.
Proof.
  intros H Hs Hi Hn. pose proof (lay_inj _ _ _ H _ _ _ Hi Hn) as E. pose proof (layout_valid _ _ _ H) as Hv.
  rewrite Forall_forall in Hv. apply (seg_name_not_reserved s); [by apply Hv|]. rewrite <- E. set_solver.
Qed.
Lemma layout_write d log segs i t :
  Layout d log segs → names d !! "active.jsonl"%string = Some i → Layout (write_inode d i t) log segs.
Proof.
  intros H Hi. pose proof H as [Hs Hc Hn Hnames Hinj Hfresh Hg Hl]. split; try done.
  rewrite Forall_forall in Hs |- *. intros s Hin. destruct (Hs s Hin) as [Hv (k & Hk & Hcont) Hb Hd Hnx]. split; try done.
  exists k. split; [done|]. cbn. rewrite lookup_insert_ne; [done|]. intros ->.
  by eapply (holds_active_free d log segs s k).
Qed.
Lemma layout_create d log segs :
  Layout d log segs → names d !! "active.jsonl"%string = None → Layout (create_file d "active.jsonl").1 log segs.
Proof.
  intros H Hi. pose proof (layout_valid _ _ _ H) as Hvalid.
  destruct H as [Hs Hc Hn Hnames Hinj Hfresh Hg Hl]. unfold create_file. rewrite Hi. cbn [fst].
  split; cbn [names contents fresh]; try done.
  - rewrite Forall_forall in *. intros s Hin. destruct (Hs s Hin) as [Hv (k & Hk & Hcont) Hb Hd Hnx]. split; try done.
    exists k. cbn [names contents]. split.
    + rewrite lookup_insert_ne; [done|]. intros E. apply (seg_name_not_reserved s Hv). rewrite <- E. set_solver.
    + rewrite lookup_insert_ne; [done|]. intros <-. specialize (Hfresh _ _ Hk). lia.
  - intros n i. rewrite lookup_insert_Some. intros [[<- _]|[_ Hni]]; [left; set_solver|by eapply Hnames].
  - intros n m i. rewrite !lookup_insert_Some. intros [[<- <-]|[Hne Hni]] [[<- Em]|[Hme Hmi]]; try done.
    + specialize (Hfresh _ _ Hmi). lia.
    + subst. specialize (Hfresh _ _ Hni). lia.
    + by eapply Hinj.
  - intros n i. rewrite lookup_insert_Some. intros [[_ <-]|[_ Hni]]; [lia|]. specialize (Hfresh _ _ Hni). lia.
Qed.

(** * Opening *)

Lemma open_first entries segs :
  repseg entries segs →
  match len entries with
  | O => 0
  | S index => match catalog_get entries index with Some s => seg_next s | None => 0 end
  end = last_next segs.
Proof.
  intros H. rewrite (repseg_len _ _ H). unfold last_next. rewrite last_lookup.
  destruct (length segs) as [|k] eqn:E; cbn [Nat.pred]; [by apply length_zero_iff_nil in E as ->|].
  by rewrite (repseg_get _ _ _ H).
Qed.
Lemma active_evs_length d log segs :
  Layout d log segs → last_next segs + Z.of_nat (length (active_evs log segs)) = Z.of_nat (length log).
Proof. intros H%last_next_range. unfold active_evs. rewrite length_drop. lia. Qed.
Lemma active_good d log segs : Layout d log segs → all_good (last_next segs) (active_evs log segs).
Proof.
  intros H. pose proof (last_next_range _ _ _ H). pose proof (lay_good _ _ _ H) as Hg.
  rewrite <- (take_drop (Z.to_nat (last_next segs)) log), all_good_app in Hg. destruct Hg as [_ Hg].
  rewrite length_take_le in Hg by lia. unfold active_evs. by replace (0 + _) with (last_next segs) in Hg by lia.
Qed.

Lemma validate_active d log segs :
  Layout d log segs → validate_events_from_sequence (active_text log segs) (last_next segs) = Ok (Z.of_nat (length log)).
Proof.
  intros H. unfold validate_events_from_sequence, active_text. pose proof (last_next_range _ _ _ H).
  pose proof (active_evs_length _ _ _ H) as Hlen. pose proof (lay_len _ _ _ H).
  rewrite split_encoded, validate_good by (lia || by eapply active_good). by rewrite Hlen.
Qed.

(** The tail of the active file is cut exactly when a record is torn. *)
Lemma open_cut d log segs tail :
  Layout d log segs → LF ∉ tail →
  let bytes := (active_text log segs ++ tail)%list in
  let torn := match last bytes with Some c => negb (Ascii.eqb c LF) | None => false end in
  let complete := match rposition bytes with Some offset => S offset | None => 0%nat end in
  (if torn then take complete bytes else bytes) = active_text log segs ∧ (torn = false → tail = []).
Proof.
  intros H Ht bytes torn complete. destruct (decide (tail = [])) as [->|Hne].
  - unfold torn, bytes. rewrite app_nil_r.
    destruct (decide (active_evs log segs = [])) as [E|E].
    + unfold active_text. rewrite E. done.
    + unfold active_text. by rewrite last_encoded.
  - destruct (complete_cut (last_next segs) (active_evs log segs) tail Ht Hne) as [E1 E2].
    unfold torn, complete, bytes, active_text. by rewrite E1, E2.
Qed.

Lemma open_spec d log tail :
  on_disk d log tail → ∃ d' j segs, open true d = Ok (d', j) ∧ Inv d' j log segs.
Proof.
  intros (segs & Hlay & Hsize & Ht & Hact). unfold open. rewrite (catalog_layout _ _ _ Hlay).
  destruct (from_segments_rep segs) as (entries & -> & Hrep). cbn [ok_or]. rewrite (open_first _ _ Hrep).
  destruct (create_file d "active.jsonl") as [d1 file] eqn:Ecreate.
  assert (Hd1 : Layout d1 log segs ∧ names d1 !! "active.jsonl"%string = Some file ∧
                contents d1 !! file = Some (active_text log segs ++ tail)%list).
  { destruct (names d !! "active.jsonl"%string) as [i|] eqn:En.
    - unfold create_file in Ecreate. rewrite En in Ecreate. by injection Ecreate as <- <-.
    - pose proof (layout_create _ _ _ Hlay En) as Hc. rewrite Ecreate in Hc. unfold create_file in Ecreate.
      rewrite En in Ecreate. injection Ecreate as <- <-. cbn in *. split; [done|].
      rewrite !lookup_insert_eq. destruct Hact as [E ->]. unfold active_text. by rewrite E. }
  destruct Hd1 as (Hlay1 & Hname & Hcont). unfold read_inode. rewrite Hcont. cbn [default from_option id].
  destruct (Z.ltb_spec MAX_SEGMENT_BYTES (size (active_text log segs ++ tail)%list)); [lia|].
  destruct (open_cut _ _ _ _ Hlay1 Ht) as [Hcut Htorn]. revert Hcut Htorn.
  set (bytes := (active_text log segs ++ tail)%list).
  set (torn := match last bytes with Some c => _ | None => _ end).
  set (complete := match rposition bytes with Some offset => S offset | None => 0%nat end). intros Hcut Htorn.
  rewrite Hcut, andb_false_r, (validate_active _ _ _ Hlay1), (repseg_len _ _ Hrep).
  rewrite (repseg_prefix _ _ _ Hrep), firstn_all by done. cbn [ok_or fst snd].
  eexists _, _, segs. split; [done|].
  assert (Hlay2 : Layout (if torn then write_inode d1 file (active_text log segs) else d1) log segs).
  { destruct torn; [|done]. by apply layout_write. }
  split; cbn; try done.
  - by destruct torn.
  - destruct torn; cbn; [by rewrite lookup_insert_eq|]. rewrite Hcont. unfold bytes. by rewrite (Htorn eq_refl), app_nil_r.
  - rewrite size_app in Hsize. pose proof (size_nonneg tail). lia.
Qed.

(** * Extending the log *)

Lemma seg_evs_app log evs s : 0 ≤ seg_first s ≤ seg_next s → seg_next s ≤ Z.of_nat (length log) → seg_evs (log ++ evs) s = seg_evs log s.
Proof.
  intros Hf Hn. unfold seg_evs. rewrite drop_app_le by lia. rewrite take_app_le; [done|]. rewrite length_drop. lia.
Qed.
Lemma layout_extend d log segs evs :
  Layout d log segs → all_good (Z.of_nat (length log)) evs → Z.of_nat (length log) + Z.of_nat (length evs) ≤ u64_max →
  Layout d (log ++ evs) segs.
Proof.
  intros [Hs Hc Hn Hnames Hinj Hfresh Hg Hl] Hevs Hmax. split; try done.
  - eapply Forall_impl; [exact Hs|]. intros s [Hv Hf Hb Hd Hnx].
    assert (E : seg_text (log ++ evs) s = seg_text log s).
    { unfold seg_text. rewrite seg_evs_app; [done| |done]. destruct Hv as ((H0 & _) & _ & Hlt & _). lia. }
    split; rewrite ?E; try done. rewrite length_app. lia.
  - rewrite all_good_app. by rewrite Z.add_0_l.
  - rewrite length_app. lia.
Qed.
Lemma active_evs_extend d log segs evs : Layout d log segs → active_evs (log ++ evs) segs = (active_evs log segs ++ evs)%list.
Proof. intros H%last_next_range. unfold active_evs. by rewrite drop_app_le by lia. Qed.
Lemma active_text_extend d log segs evs :
  Layout d log segs →
  active_text (log ++ evs) segs = (active_text log segs ++ encoded (Z.of_nat (length log)) evs)%list.
Proof.
  intros H. unfold active_text. rewrite (active_evs_extend _ _ _ _ H), encoded_app. by rewrite (active_evs_length _ _ _ H).
Qed.

Lemma inv_on_disk d j log segs : Inv d j log segs → on_disk d log [].
Proof.
  intros H. exists segs. rewrite app_nil_r. split_and!; [apply H| | |].
  - rewrite <- (inv_bytes _ _ _ _ H). apply H.
  - apply not_elem_of_nil.
  - rewrite (inv_name _ _ _ _ H). apply H.
Qed.
Lemma inv_read d j log segs : Inv d j log segs → read_inode d (active j) = active_text log segs.
Proof. intros H. unfold read_inode. by rewrite (inv_content _ _ _ _ H). Qed.
Lemma read_write d i t : read_inode (write_inode d i t) i = t.
Proof. unfold read_inode, write_inode. cbn [contents]. by rewrite lookup_insert_eq. Qed.
(** Putting back what was there *)
Lemma inv_rewrite d j log segs t :
  Inv d j log segs → Inv (write_inode (write_inode d (active j) t) (active j) (active_text log segs)) j log segs.
Proof.
  intros H. split; try apply H.
  - apply layout_write; [apply layout_write|]; apply H.
  - cbn. by rewrite lookup_insert_eq.
Qed.

(** * Sealing *)

Definition sealed_segment (j : SegmentedJournal) : Segment :=
  mkSegment (active_first j) (next_sequence j) (active_bytes j) (hash (active_hash j))
    (segment_name (active_first j) (next_sequence j) (active_bytes j) (hash (active_hash j))).

Lemma sealed_text d j log segs : Inv d j log segs → seg_text log (sealed_segment j) = active_text log segs.
Proof.
  intros H. unfold seg_text, seg_evs, active_text, active_evs. cbn. rewrite (inv_first _ _ _ _ H), (inv_next _ _ _ _ H).
  f_equal. apply take_ge. rewrite length_drop. lia.
Qed.
Lemma sealed_valid d j log segs : Inv d j log segs → 0 < active_bytes j → valid_segment (sealed_segment j).
Proof.
  intros H Hpos. pose proof (last_next_range _ _ _ (inv_layout _ _ _ _ H)). pose proof (lay_len _ _ _ (inv_layout _ _ _ _ H)).
  unfold valid_segment. cbn. pose proof (inv_room _ _ _ _ H). pose proof (active_evs_length _ _ _ (inv_layout _ _ _ _ H)) as Hlen.
  assert (active_evs log segs ≠ []).
  { intros E. rewrite (inv_bytes _ _ _ _ H) in Hpos. unfold active_text, encoded, size in Hpos.
    rewrite E in Hpos. cbn [lines concat length] in Hpos. lia. }
  destruct (active_evs log segs); [done|]. cbn [length] in Hlen.
  rewrite (inv_first _ _ _ _ H), (inv_next _ _ _ _ H). unfold u64. split_and!; lia || done.
Qed.

Lemma layout_rename d j log segs d1 :
  Inv d j log segs → 0 < active_bytes j → (length segs < MAX_SEGMENTS)%nat →
  rename d "active.jsonl" (seg_name (sealed_segment j)) = Some d1 →
  Layout d1 log (segs ++ [sealed_segment j]) ∧ names d1 !! "active.jsonl"%string = None ∧ contents d1 = contents d ∧
  names d1 !! seg_name (sealed_segment j) = Some (active j).
Proof.
  intros H Hpos Hcount. pose proof (sealed_valid _ _ _ _ H Hpos) as Hv.
  pose proof (inv_name _ _ _ _ H) as Hname. unfold rename. rewrite Hname.
  destruct (names d !! seg_name (sealed_segment j)) eqn:Efree; [done|]. intros [= <-]. cbn [names contents].
  pose proof (seg_name_not_reserved _ Hv) as Hres.
  assert (Hne : seg_name (sealed_segment j) ≠ "active.jsonl"%string) by (intros E; apply Hres; rewrite E; set_solver).
  pose proof (inv_layout _ _ _ _ H) as Hlay. pose proof (layout_valid _ _ _ Hlay) as Hvs.
  split_and!; [| |done|].
  2: { rewrite lookup_insert_ne by done. apply lookup_delete_eq. }
  2: apply lookup_insert_eq.
  pose proof Hlay as [Hs Hc Hn Hnames Hinj Hfresh Hg Hl].
  split; cbn [names contents fresh]; try done.
  - apply Forall_app. split.
    + rewrite Forall_forall in Hs, Hvs |- *. intros s Hin. destruct (Hs s Hin) as [Hvalid (k & Hk & Hcont) Hb Hd Hnx].
      split; try done. exists k. cbn [names contents]. split; [|done].
      rewrite lookup_insert_ne by (intros E; change (seg_name (sealed_segment j) = seg_name s) in E; rewrite E, Hk in Efree; discriminate Efree). rewrite lookup_delete_ne; [done|].
      intros E. apply (seg_name_not_reserved s Hvalid). rewrite <- E. set_solver.
    + constructor; [|constructor]. split; try done; rewrite ?(sealed_text _ _ _ _ H).
      * exists (active j). cbn [names contents]. rewrite lookup_insert_eq. split; [done|]. apply H.
      * apply H.
      * cbn. by rewrite (inv_hash _ _ _ _ H).
      * cbn. rewrite (inv_next _ _ _ _ H). lia.
  - rewrite contiguous_snoc. split; [done|]. cbn. rewrite (inv_first _ _ _ _ H). done.
  - rewrite length_app. cbn. lia.
  - intros n i. rewrite lookup_insert_Some, lookup_delete_Some, map_app, elem_of_app.
    intros [[<- _]|[_ [_ Hni]]]; [right; right; cbn; set_solver|]. destruct (Hnames _ _ Hni); [by left|by right; left].
  - intros n m i. rewrite !lookup_insert_Some, !lookup_delete_Some.
    intros [[<- <-]|[Hn1 [Hn2 Hni]]] [[<- Em]|[Hm1 [Hm2 Hmi]]]; try done.
    + destruct Hm2. by apply (Hinj _ _ _ Hname).
    + subst i. destruct Hn2. by apply (Hinj _ _ _ Hname).
    + by eapply Hinj.
  - intros n i. rewrite lookup_insert_Some, lookup_delete_Some. intros [[_ <-]|[_ [_ Hni]]]; by eapply Hfresh.
Qed.

Lemma renamed_on_disk d1 log segs s :
  Layout d1 log (segs ++ [s]) → seg_next s = Z.of_nat (length log) → names d1 !! "active.jsonl"%string = None →
  on_disk d1 log [].
Proof.
  intros Hlay Hn Hname. exists (segs ++ [s])%list.
  assert (E : active_evs log (segs ++ [s]) = []).
  { unfold active_evs. rewrite last_next_snoc, Hn. apply drop_ge. lia. }
  unfold active_text. rewrite E, Hname. split_and!; [done|by vm_compute|apply not_elem_of_nil|done|done].
Qed.
(** After the rename and the creation of the next active file *)
Lemma layout_sealed d j log segs d1 d2 file :
  Inv d j log segs → 0 < active_bytes j → (length segs < MAX_SEGMENTS)%nat →
  rename d "active.jsonl" (seg_name (sealed_segment j)) = Some d1 → create_file d1 "active.jsonl" = (d2, file) →
  Layout d2 log (segs ++ [sealed_segment j]) ∧ names d2 !! "active.jsonl"%string = Some file ∧
  contents d2 !! file = Some [] ∧ active_evs log (segs ++ [sealed_segment j]) = [].
Proof.
  intros H Hpos Hcount Hren Hcr. destruct (layout_rename _ _ _ _ _ H Hpos Hcount Hren) as (Hlay & Hnone & _ & _).
  pose proof (layout_create _ _ _ Hlay Hnone) as Hlay2. rewrite Hcr in Hlay2. unfold create_file in Hcr.
  rewrite Hnone in Hcr. injection Hcr as <- <-. cbn in *. rewrite !lookup_insert_eq. split_and!; [done..|].
  unfold active_evs. rewrite last_next_snoc. cbn. rewrite (inv_next _ _ _ _ H). apply drop_ge. lia.
Qed.
Lemma total_bytes_snoc segs s : total_bytes_of (segs ++ [s]) = total_bytes_of segs + seg_bytes s.
Proof. unfold total_bytes_of. rewrite map_app, sum_Z_app. cbn. lia. Qed.

Lemma seal_spec io d j log segs d' j' r :
  Inv d j log segs → 0 < active_bytes j → seal io d j = (d', j', r) →
  match r with
  | Ok _ => Inv d' j' log (segs ++ [sealed_segment j]) ∧ active_bytes j' = 0
  | Err _ => (d' = d ∧ j' = j) ∨ (poisoned j' = true ∧ on_disk d' log [])
  end.
Proof.
  intros H Hpos. unfold seal. rewrite (inv_count _ _ _ _ H).
  destruct (Nat.leb_spec MAX_SEGMENTS (length segs)) as [|Hcount]; [by intros [= <- <- <-]; left|].
  fold (sealed_segment j). change (segment_name _ _ _ _) with (seg_name (sealed_segment j)).
  assert (Hfail : on_disk d log []) by by eapply inv_on_disk.
  destruct (rename_ok io); [|intros [= <- <- <-]; by right].
  destruct (rename d "active.jsonl" (seg_name (sealed_segment j))) as [d1|] eqn:Eren; [|intros [= <- <- <-]; by right].
  pose proof (layout_rename _ _ _ _ _ H Hpos Hcount Eren) as (Hlay1 & Hnone & _).
  pose proof (renamed_on_disk _ _ _ _ Hlay1 (inv_next _ _ _ _ H) Hnone) as Hdisk1.
  destruct (rename_sync_ok io); cbn [negb]; [|intros [= <- <- <-]; by right].
  destruct (create_ok io); cbn [negb]; [|intros [= <- <- <-]; by right].
  destruct (create_file d1 "active.jsonl") as [d2 file] eqn:Ecr.
  destruct (layout_sealed _ _ _ _ _ _ _ H Hpos Hcount Eren Ecr) as (Hlay2 & Hname2 & Hcont2 & Hempty).
  assert (Hdisk2 : on_disk d2 log []).
  { exists (segs ++ [sealed_segment j])%list. unfold active_text. rewrite Hempty, Hname2, Hcont2.
    split_and!; [done|by vm_compute|apply not_elem_of_nil|done]. }
  unfold read_inode. rewrite Hcont2. cbn [default from_option id negb Z.eqb size length Z.of_nat].
  destruct (directory_sync_ok io); cbn [negb]; [|intros [= <- <- <-]; by right].
  destruct (repseg_push _ _ (sealed_segment j) (inv_catalog _ _ _ _ H)) as (entries & -> & Hrep).
  destruct (seal_snapshot_ok io); cbn [negb]; intros [= <- <- <-]; [|by right].
  split; [|done]. pose proof (inv_next _ _ _ _ H) as Hnext.
  split; cbn [segments segment_count active active_first active_bytes active_hash sealed_bytes sealed_identity next_sequence poisoned]; try done.
  - rewrite length_app. cbn. lia.
  - by rewrite last_next_snoc.
  - unfold active_text. by rewrite Hempty.
  - unfold active_text. by rewrite Hempty, Hcont2.
  - unfold active_text. by rewrite Hempty.
  - by rewrite total_bytes_snoc, (inv_sealed _ _ _ _ H).
  - rewrite (inv_identity _ _ _ _ H). unfold chain. by rewrite fold_left_app.
Qed.

(** * Writing *)

(** Segments are only added, each holding everything that precedes the append *)
Definition grown (log : list Event) (segs segs' : list Segment) : Prop :=
  ∃ rest, segs' = (segs ++ rest)%list ∧ Forall (λ s, Z.of_nat (length log) ≤ seg_next s) rest.
(** The outcomes of an append of [evs]: acknowledged, refused without effect, or
    refused by a writer that has to be reopened *)
Definition appended (log evs : list Event) (segs : list Segment) (d' : Disk) (j' : SegmentedJournal)
    {A} (r : Result A SessionStoreError) : Prop :=
  match r with
  | Ok _ => ∃ segs', Inv d' j' (log ++ evs) segs' ∧ grown log segs segs'
  | Err _ => (∃ segs', Inv d' j' log segs' ∧ grown log segs segs') ∨
             (poisoned j' = true ∧ ∃ k tail, on_disk d' (log ++ take k evs) tail)
  end.
Lemma grown_refl log segs : grown log segs segs.
Proof. exists []. by rewrite app_nil_r. Qed.
Lemma grown_snoc log segs s segs' : Z.of_nat (length log) ≤ seg_next s → grown log (segs ++ [s]) segs' → grown log segs segs'.
Proof. intros Hs (rest & -> & Hr). exists (s :: rest). rewrite <- (assoc_L (++)). split; [done|]. by constructor. Qed.
Lemma grown_trans log evs segs segs' segs'' :
  grown log segs segs' → grown (log ++ evs) segs' segs'' → grown log segs segs''.
Proof.
  intros (r & -> & Hr) (r' & -> & Hr'). exists (r ++ r')%list. rewrite (assoc_L (++)). split; [done|].
  apply Forall_app. split; [done|]. eapply Forall_impl; [exact Hr'|]. intros s. rewrite length_app. lia.
Qed.
Lemma appended_seal {A} log evs segs s d j (r : Result A SessionStoreError) :
  Z.of_nat (length log) ≤ seg_next s → appended log evs (segs ++ [s]) d j r → appended log evs segs d j r.
Proof.
  intros Hs. destruct r; cbn.
  - intros (segs' & H & Hg). exists segs'. split; [done|]. by eapply grown_snoc.
  - intros [(segs' & H & Hg)|H]; [|by right]. left. exists segs'. split; [done|]. by eapply grown_snoc.
Qed.
Lemma appended_same {A} log evs segs d j e : Inv d j log segs → appended log evs segs d j (Err e : Result A _).
Proof. intros H. left. exists segs. split; [done|apply grown_refl]. Qed.
Lemma appended_poisoned {A} log evs segs d j e :
  poisoned j = true → on_disk d log [] → appended log evs segs d j (Err e : Result A _).
Proof. intros Hp Hd. right. split; [done|]. exists 0%nat, []. by rewrite take_0, app_nil_r. Qed.

Lemma torn_on_disk d log segs evs i n :
  Layout d log segs → names d !! "active.jsonl"%string = Some i →
  all_good (Z.of_nat (length log)) evs → Z.of_nat (length log) + Z.of_nat (length evs) ≤ u64_max →
  size (active_text log segs) + size (encoded (Z.of_nat (length log)) evs) ≤ MAX_SEGMENT_BYTES →
  ∃ k tail, on_disk (write_inode d i (active_text log segs ++ take n (encoded (Z.of_nat (length log)) evs))%list)
              (log ++ take k evs) tail.
Proof.
  intros Hlay Hi Hg Hmax Hroom. destruct (torn_lines n _ _ Hg) as (k & tail & E & Ht). exists k, tail.
  rewrite <- (take_drop k evs), all_good_app in Hg. destruct Hg as [Hg _].
  exists segs. rewrite (active_text_extend _ _ _ _ Hlay), E, (assoc_L (++)).
  split_and!; [|rewrite <- (assoc_L (++)), <- E, size_app|done|].
  - apply layout_write; [|done]. apply layout_extend; [done|done|]. rewrite length_take. lia.
  - assert (size (take n (encoded (Z.of_nat (length log)) evs)) ≤ size (encoded (Z.of_nat (length log)) evs)); [|lia].
    unfold size. rewrite length_take. lia.
  - cbn. rewrite Hi. by rewrite lookup_insert_eq.
Qed.

Lemma write_active_spec io d j log segs evs d' j' r :
  Inv d j log segs → all_good (Z.of_nat (length log)) evs → Z.of_nat (length log) + Z.of_nat (length evs) ≤ u64_max →
  active_bytes j + size (encoded (Z.of_nat (length log)) evs) ≤ MAX_SEGMENT_BYTES →
  write_active io d j (mkPrepared (Z.of_nat (length log)) (Z.of_nat (length log) + Z.of_nat (length evs)) (length evs)
                         (encoded (Z.of_nat (length log)) evs)) = (d', j', r) →
  appended log evs segs d' j' r.
Proof.
  intros H Hg Hmax Hroom. unfold write_active. cbn [prep_bytes]. rewrite (inv_read _ _ _ _ H).
  destruct (io_metadata io); cbn [negb]; [|intros [= <- <- <-]; by apply appended_same].
  destruct (Z.eqb_spec (size (active_text log segs)) (active_bytes j)) as [_|Hne]; cbn [negb].
  2: { destruct Hne. symmetry. apply H. }
  rewrite (inv_bytes _ _ _ _ H) in Hroom.
  pose proof (λ n, torn_on_disk _ _ _ _ _ n (inv_layout _ _ _ _ H) (inv_name _ _ _ _ H) Hg Hmax Hroom) as Htorn.
  set (out := encoded (Z.of_nat (length log)) evs) in *.
  destruct (is_some (write_fails io) || negb (sync_ok io)) eqn:Efail.
  - assert (Hwritten : ∃ n, (match write_fails io with Some n => take n out | None => out end) = take n out).
    { destruct (write_fails io) as [n|]; [by exists n|]. exists (length out). by rewrite take_ge. }
    destruct Hwritten as [n ->].
    destruct (truncate_ok io); cbn [negb]; [|intros [= <- <- <-]; right; split; [done|apply Htorn]].
    rewrite read_write, (inv_bytes _ _ _ _ H), take_size.
    pose proof (inv_rewrite _ _ _ _ (active_text log segs ++ take n out)%list H) as Hback.
    destruct (truncate_sync_ok io); cbn [negb];
      [|intros [= <- <- <-]; apply appended_poisoned; [done|by eapply inv_on_disk]].
    destruct (snapshot_ok io); cbn [negb]; intros [= <- <- <-]; [by apply appended_same|].
    apply appended_poisoned; [done|by eapply inv_on_disk].
  - apply orb_false_iff in Efail as [Ew _]. destruct (write_fails io) as [n|]; [done|].
    pose proof (inv_layout _ _ _ _ H) as Hlay.
    assert (Hinv : Inv (write_inode d (active j) (active_text log segs ++ out)%list)
                     (commit j (mkPrepared (Z.of_nat (length log)) (Z.of_nat (length log) + Z.of_nat (length evs)) (length evs) out) false)
                     (log ++ evs) segs).
    { pose proof (active_text_extend _ _ _ evs Hlay) as E. fold out in E.
      split; cbn [commit segments segment_count active active_first active_bytes active_hash sealed_bytes sealed_identity
                  next_sequence poisoned prep_bytes prep_next]; rewrite ?E; try apply H.
      - apply layout_write; [by apply layout_extend|apply H].
      - by rewrite (inv_hash _ _ _ _ H).
      - cbn. by rewrite lookup_insert_eq.
      - by rewrite size_app, (inv_bytes _ _ _ _ H).
      - by rewrite (inv_bytes _ _ _ _ H).
      - rewrite length_app. lia.
      - done. }
    destruct (snapshot_ok io); cbn [negb]; intros [= <- <- <-]; [exists segs; split; [done|apply grown_refl]|].
    right. split; [done|]. exists (length evs), []. rewrite firstn_all.
    by apply inv_on_disk in Hinv.
Qed.

Lemma appended_then {A E} log evs segs d j (r : Result A SessionStoreError) (b : E) :
  appended log evs segs d j r → appended log evs segs d j (let? _ := r in Ok b).
Proof. by destruct r. Qed.
Lemma append_spec io d j log segs evs d' j' r :
  Inv d j log segs → append_batch io d j evs = (d', j', r) →
  appended log evs segs d' j' r ∧ ∀ envs, r = Ok envs → envs = envelopes_from (next_sequence j) evs.
Proof.
  intros H. unfold append_batch. destruct (encode_owned (next_sequence j) evs) as [[p envs]|e] eqn:Ep;
    [|intros [= <- <- <-]; split; [by apply appended_same|done]].
  rewrite (inv_next _ _ _ _ H) in Ep. apply encode_owned_ok in Ep as (-> & -> & Hg & Hsize & Hmax); [|lia].
  destruct (write_prepared io d j _) as [[dw jw] rw] eqn:Ew. intros [= <- <- <-]. split.
  2: { intros envs. destruct rw; [|done]. intros [= <-]. by rewrite (inv_next _ _ _ _ H). }
  apply appended_then. revert Ew.
  unfold write_prepared. cbn [prep_first prep_count prep_bytes].
  rewrite (inv_next _ _ _ _ H), Z.eqb_refl, (inv_poisoned _ _ _ _ H). cbn [negb].
  destruct (io_verify io); cbn [negb];
    [|intros [= <- <- <-]; apply appended_poisoned; [done|by eapply inv_on_disk]].
  destruct (Nat.eqb_spec (length evs) 0) as [E|_].
  { apply length_zero_iff_nil in E as ->. intros [= <- <- <-]. exists segs. rewrite app_nil_r. split; [done|apply grown_refl]. }
  destruct (Z.ltb_spec 0 (active_bytes j)) as [Hpos|Hzero]; cbn [andb].
  2: { apply write_active_spec with (segs := segs); try done.
       pose proof (size_nonneg (active_text log segs)). rewrite <- (inv_bytes _ _ _ _ H) in *. lia. }
  destruct (Z.ltb_spec SEGMENT_TARGET_BYTES (active_bytes j + size (encoded (Z.of_nat (length log)) evs))) as [Hbig|Hfits].
  2: { apply write_active_spec with (segs := segs); try done. unfold SEGMENT_TARGET_BYTES, MAX_SEGMENT_BYTES in *. lia. }
  destruct (seal (io_seal io) d j) as [[d1 j1] r1] eqn:Eseal. pose proof (seal_spec _ _ _ _ _ _ _ _ H Hpos Eseal) as Hs.
  destruct r1 as [u|e].
  - destruct Hs as [Hinv H0]. intros Ew. apply appended_seal with (s := sealed_segment j); [cbn; rewrite (inv_next _ _ _ _ H); lia|].
    revert Ew. apply write_active_spec; try done. by rewrite H0.
  - intros [= <- <- <-]. destruct Hs as [[-> ->]|[Hp Hd]]; [by apply appended_same|by apply appended_poisoned].
Qed.

(** * A calm system *)

(** Every call of the operating system succeeds. *)
Definition calm_seal : SealIo := mkSealIo true true true true true.
Definition calm : AppendIo := mkAppendIo true calm_seal true None true true true true.
(** An append that has to seal the active file first *)
Definition seals (j : SegmentedJournal) (p : PreparedJournalAppend) : bool :=
  (0 <? active_bytes j) && (SEGMENT_TARGET_BYTES <? active_bytes j + size (prep_bytes p)).

(** The name of the next segment is free. *)
Lemma seal_name_free d j log segs :
  Inv d j log segs → 0 < active_bytes j → names d !! seg_name (sealed_segment j) = None.
Proof.
  intros H Hpos. pose proof (sealed_valid _ _ _ _ H Hpos) as Hv. pose proof (inv_layout _ _ _ _ H) as Hlay.
  destruct (names d !! seg_name (sealed_segment j)) as [i|] eqn:E; [|done]. exfalso.
  destruct (lay_names _ _ _ Hlay _ _ E) as [Hr|Hs]; [by apply (seg_name_not_reserved _ Hv)|].
  apply list_elem_of_fmap in Hs as (s & En & Hs). pose proof (layout_valid _ _ _ Hlay) as Hvs. rewrite Forall_forall in Hvs.
  assert (sealed_segment j = s) as Es by by apply seg_name_inj; auto.
  assert (seg_next s ≤ last_next segs) as Hle.
  { destruct (contiguous_sorted _ _ (layout_valid _ _ _ Hlay) (lay_contiguous _ _ _ Hlay)) as [Hsort _].
    clear -Hsort Hs Hvs. unfold last_next. induction segs as [|t segs IH] using rev_ind; [by apply not_elem_of_nil in Hs|].
    rewrite last_snoc. apply elem_of_app in Hs as [Hs|Hs%list_elem_of_singleton]; [|subst; lia].
    apply StronglySorted_app_1_elem_of with (x1 := s) (x2 := t) in Hsort; [|done|by left].
    assert (valid_segment t) as (_ & _ & Hlt & _) by (apply Hvs; rewrite elem_of_app; right; by left). lia. }
  rewrite <- Es in Hle. destruct Hv as (_ & _ & Hlt & _). cbn in Hlt, Hle. rewrite (inv_first _ _ _ _ H) in Hlt. lia.
Qed.
Lemma calm_active d j log segs p :
  Inv d j log segs → write_active calm d j p = (write_inode d (active j) (active_text log segs ++ prep_bytes p)%list, commit j p false, Ok tt).
Proof.
  intros H. unfold write_active. cbn. rewrite (inv_read _ _ _ _ H), (inv_bytes _ _ _ _ H), Z.eqb_refl. done.
Qed.
Lemma calm_seals d j log segs :
  Inv d j log segs → 0 < active_bytes j → (length segs < MAX_SEGMENTS)%nat → ∃ d' j', seal calm_seal d j = (d', j', Ok tt).
Proof.
  intros H Hpos Hcount. unfold seal. rewrite (inv_count _ _ _ _ H). destruct (Nat.leb_spec MAX_SEGMENTS (length segs)); [lia|].
  fold (sealed_segment j). change (segment_name _ _ _ _) with (seg_name (sealed_segment j)). cbn [calm_seal rename_ok].
  destruct (rename d "active.jsonl" (seg_name (sealed_segment j))) as [d1|] eqn:Eren.
  2: { unfold rename in Eren. rewrite (inv_name _ _ _ _ H), (seal_name_free _ _ _ _ H Hpos) in Eren. done. }
  cbn [rename_sync_ok create_ok negb]. destruct (create_file d1 "active.jsonl") as [d2 file] eqn:Ecr.
  destruct (layout_sealed _ _ _ _ _ _ _ H Hpos Hcount Eren Ecr) as (_ & _ & Hcont2 & _).
  unfold read_inode. rewrite Hcont2. cbn [default from_option id negb Z.eqb size length Z.of_nat directory_sync_ok].
  destruct (repseg_push _ _ (sealed_segment j) (inv_catalog _ _ _ _ H)) as (entries & -> & _).
  cbn [seal_snapshot_ok negb]. by eexists _, _.
Qed.
(** A calm system takes every batch that encodes, until no more segments fit. *)
Definition full (j : SegmentedJournal) (p : PreparedJournalAppend) : bool :=
  negb (Nat.eqb (prep_count p) 0) && seals j p && Nat.leb MAX_SEGMENTS (segment_count j).
Lemma calm_append d j log segs evs p envs :
  Inv d j log segs → encode_owned (next_sequence j) evs = Ok (p, envs) →
  (append_batch calm d j evs).2 = if full j p then Err (CorruptEvent "too many journal segments") else Ok envs.
Proof.
  intros H Ep. unfold append_batch. rewrite Ep. apply encode_owned_ok in Ep as (Hp & _ & _);
    [|rewrite (inv_next _ _ _ _ H); lia]. assert (prep_first p = next_sequence j) as Hf by by rewrite Hp. clear Hp.
  unfold write_prepared, full. rewrite Hf, Z.eqb_refl, (inv_poisoned _ _ _ _ H). cbn [negb calm io_verify io_seal].
  destruct (Nat.eqb (prep_count p) 0); cbn [negb andb]; [done|]. unfold seals.
  destruct (Z.ltb_spec 0 (active_bytes j)) as [Hpos|_]; cbn [andb]; [|by rewrite (calm_active _ _ _ _ _ H)].
  destruct (_ <? _); [|by rewrite (calm_active _ _ _ _ _ H)].
  destruct (Nat.leb_spec MAX_SEGMENTS (segment_count j)) as [Hfull|Hroom].
  - unfold seal. by rewrite (proj2 (Nat.leb_le _ _) Hfull).
  - rewrite (inv_count _ _ _ _ H) in Hroom. destruct (calm_seals _ _ _ _ H Hpos Hroom) as (d1 & j1 & Es). rewrite Es.
    destruct (seal_spec _ _ _ _ _ _ _ _ H Hpos Es) as [Hinv _]. by rewrite (calm_active _ _ _ _ _ Hinv).
Qed.
Lemma append_poisoned io d j evs d' j' r :
  poisoned j = true → append_batch io d j evs = (d', j', r) → d' = d ∧ j' = j ∧ is_ok r = false.
Proof.
  intros Hp. unfold append_batch, write_prepared. destruct (encode_owned _ _) as [[p envs]|]; [|by intros [= <- <- <-]].
  rewrite Hp. destruct (negb _); by intros [= <- <- <-].
Qed.

(** * Crashes *)

(** What a directory holds when the machine stops during an append: nothing of
    it, the renamed segment, or the first [n] bytes of the batch in the active
    file.  The bytes of earlier appends were synchronized. *)
Inductive append_crash (d : Disk) (j : SegmentedJournal) (p : PreparedJournalAppend) : Disk → Prop :=
| crash_before : append_crash d j p d
| crash_renamed d1 :
    seals j p = true → (segment_count j < MAX_SEGMENTS)%nat →
    rename d "active.jsonl" (seg_name (sealed_segment j)) = Some d1 → append_crash d j p d1
| crash_sealed d1 d2 file n :
    seals j p = true → (segment_count j < MAX_SEGMENTS)%nat →
    rename d "active.jsonl" (seg_name (sealed_segment j)) = Some d1 → create_file d1 "active.jsonl" = (d2, file) →
    append_crash d j p (write_inode d2 file (take n (prep_bytes p)))
| crash_written n :
    seals j p = false →
    append_crash d j p (write_inode d (active j) (read_inode d (active j) ++ take n (prep_bytes p))%list).

Lemma crash_on_disk d j log segs evs p envs d' :
  Inv d j log segs → encode_owned (next_sequence j) evs = Ok (p, envs) → append_crash d j p d' →
  ∃ k tail, on_disk d' (log ++ take k evs) tail.
Proof.
  intros H Ep Hcrash. rewrite (inv_next _ _ _ _ H) in Ep.
  apply encode_owned_ok in Ep as (-> & _ & Hg & Hsize & Hmax); [|lia].
  assert (Hnone : ∀ d0, on_disk d0 log [] → ∃ k tail, on_disk d0 (log ++ take k evs) tail).
  { intros d0 Hd0. exists 0%nat, []. by rewrite take_0, app_nil_r. }
  destruct Hcrash as [|d1 Hseals Hc Hren|d1 d2 file n Hseals Hc Hren Hcr|n Hseals]; unfold seals in *; cbn [prep_bytes] in *.
  - apply Hnone. by eapply inv_on_disk.
  - apply andb_prop in Hseals as [Hpos%Z.ltb_lt _]. rewrite (inv_count _ _ _ _ H) in Hc. apply Hnone.
    destruct (layout_rename _ _ _ _ _ H Hpos Hc Hren) as (Hlay & Hn & _). eapply renamed_on_disk; eauto. apply H.
  - apply andb_prop in Hseals as [Hpos%Z.ltb_lt _]. rewrite (inv_count _ _ _ _ H) in Hc.
    destruct (layout_sealed _ _ _ _ _ _ _ H Hpos Hc Hren Hcr) as (Hlay & Hn & _ & Hempty).
    destruct (torn_on_disk _ _ _ evs _ n Hlay Hn Hg Hmax) as (k & tail & Hd); unfold active_text in *; rewrite Hempty in *.
    + done.
    + by exists k, tail.
  - destruct (torn_on_disk _ _ _ evs _ n (inv_layout _ _ _ _ H) (inv_name _ _ _ _ H) Hg Hmax) as (k & tail & Hd).
    + rewrite <- (inv_bytes _ _ _ _ H). unfold SEGMENT_TARGET_BYTES, MAX_SEGMENT_BYTES in *.
      pose proof (size_nonneg (active_text log segs)). rewrite <- (inv_bytes _ _ _ _ H) in *.
      apply andb_false_iff in Hseals as [Hz%Z.ltb_ge|Hz%Z.ltb_ge]; lia.
    + exists k, tail. by rewrite (inv_read _ _ _ _ H).
Qed.

End recovery.
