(* ===== verification/JournalReads.v ===== *)
(** Reading the journal: a captured view returns every event of its log under
    its sequence number, whatever the writer does afterwards, and acknowledged
    events survive failures, crashes and restarts. *)
From Stdlib Require Import Ascii.
From S2P Require Import Prelude Text Ir JournalCatalog Journal JournalInv JournalRecovery.

Section reads.
Context `{B : Blake3} `{C : Codec}.

(** * What a view can read *)

(** The file of a segment holds [text], and more if it is the active one *)
Definition file_holds (d : Disk) (v : JournalReadView) (s : Segment) (is_active : bool) (text : Bytes) : Prop :=
  if is_active then ∃ more, contents d !! view_active v = Some (text ++ more)%list
  else seg_name s ≠ "active.jsonl"%string ∧ ∃ i, names d !! seg_name s = Some i ∧ contents d !! i = Some text.

Record readable (d : Disk) (v : JournalReadView) (s : Segment) (is_active : bool) (log : list Event) : Prop := mkReadable {
  rd_range : 0 ≤ seg_first s < seg_next s;
  rd_next : seg_next s ≤ Z.of_nat (length log);
  rd_bytes : seg_bytes s = size (seg_text log s);
  rd_room : seg_bytes s ≤ MAX_SEGMENT_BYTES;
  rd_digest : seg_digest s = hash (seg_text log s);
  rd_file : file_holds d v s is_active (seg_text log s);
}.

Record ViewOk (d : Disk) (c : CatalogEntries) (v : JournalReadView) (log : list Event) (segs : list Segment) : Prop := mkViewOk {
  vo_catalog : ∃ rest, repseg c (segs ++ rest);
  vo_count : view_count v = length segs;
  vo_segs : Forall (λ s, readable d v s false log) segs;
  vo_contiguous : contiguous 0 segs = true;
  vo_next : view_next v = Z.of_nat (length log);
  vo_good : all_good 0 log;
  vo_fresh : (view_active v < fresh d)%nat;
  vo_last : last_next segs ≤ Z.of_nat (length log);
  vo_active : match view_segment v with
              | Some s => readable d v s true log ∧ seg_first s = last_next segs ∧ seg_next s = Z.of_nat (length log)
              | None => last_next segs = Z.of_nat (length log)
              end;
}.

Lemma seg_evs_length s log :
  0 ≤ seg_first s < seg_next s → seg_next s ≤ Z.of_nat (length log) →
  Z.of_nat (length (seg_evs log s)) = seg_next s - seg_first s.
Proof. intros. unfold seg_evs. rewrite length_take, length_drop. lia. Qed.
Lemma seg_evs_good s log :
  0 ≤ seg_first s < seg_next s → seg_next s ≤ Z.of_nat (length log) → all_good 0 log → all_good (seg_first s) (seg_evs log s).
Proof.
  intros Hr Hn Hg. rewrite <- (take_drop (Z.to_nat (seg_first s)) log), all_good_app in Hg. destruct Hg as [_ Hg].
  rewrite length_take_le in Hg by lia. replace (0 + _) with (seg_first s) in Hg by lia.
  unfold seg_evs. rewrite <- (take_drop (Z.to_nat (seg_next s - seg_first s)) (drop _ _)), all_good_app in Hg. apply Hg.
Qed.
Lemma seg_evs_lookup s log n :
  0 ≤ seg_first s → seg_first s ≤ Z.of_nat n < seg_next s →
  seg_evs log s !! Z.to_nat (Z.of_nat n - seg_first s) = log !! n.
Proof. intros H0 Hr. unfold seg_evs. rewrite lookup_take_lt by lia. rewrite lookup_drop. f_equal. lia. Qed.

Lemma segment_read_ok d v s b log :
  readable d v s b log →
  ∃ file more, segment_file d v s b = Ok file ∧ read_segment_bytes d file s b = Ok (seg_text log s) ∧
    contents d !! file = Some (seg_text log s ++ more)%list ∧
    (if b then file = view_active v else names d !! seg_name s = Some file).
Proof.
  intros [Hr Hn Hb Hroom Hd Hf].
  assert (Hread : ∃ file more, segment_file d v s b = Ok file ∧ contents d !! file = Some (seg_text log s ++ more)%list ∧
            (b = false → more = []) ∧ (if b then file = view_active v else names d !! seg_name s = Some file)).
  { destruct b; cbn [file_holds] in Hf.
    - destruct Hf as [more Hmore]. by exists (view_active v), more.
    - destruct Hf as (_ & i & Hi & Hc). exists i, []. unfold segment_file. by rewrite Hi, Hc, app_nil_r. }
  destruct Hread as (file & more & Hfile & Hc & Hmore & Hname). exists file, more. split_and!; try done.
  unfold read_segment_bytes, read_inode. rewrite Hc. cbn [default from_option id]. rewrite size_app, <- Hb.
  pose proof (size_nonneg more). destruct (Z.ltb_spec (seg_bytes s + size more) (seg_bytes s)); [lia|]. cbn [orb].
  assert (Hlen : negb b && negb (seg_bytes s + size more =? seg_bytes s) = false).
  { destruct b; [done|]. rewrite (Hmore eq_refl). cbn. rewrite Z.add_0_r. by rewrite Z.eqb_refl. }
  assert (Etake : take (Z.to_nat (seg_bytes s)) (seg_text log s ++ more)%list = seg_text log s) by (rewrite Hb; apply take_size).
  rewrite Hlen, Etake, Hd. by rewrite bool_decide_eq_true_2.
Qed.
Lemma page_segment_ok d v limits s b log m :
  readable d v s b log → all_good 0 log →
  bytes_read m + seg_bytes s ≤ max_scan_bytes limits →
  records_scanned m + (seg_next s - seg_first s) ≤ max_scan_events limits →
  page_segment_bytes d v limits s b m =
  Ok (seg_text log s, mkMetrics (bytes_read m + seg_bytes s) (records_scanned m + (seg_next s - seg_first s))
                        (records_decoded m) (segments_read m + 1)).
Proof.
  intros Hread Hg Hsb Hse. unfold page_segment_bytes. pose proof Hread as [Hr Hn _ _ _ _].
  destruct (Z.ltb_spec (max_scan_bytes limits) (bytes_read m + seg_bytes s)); [lia|].
  destruct (Z.ltb_spec (max_scan_events limits) (records_scanned m + (seg_next s - seg_first s))); [lia|].
  destruct (segment_read_ok _ _ _ _ _ Hread) as (file & more & -> & -> & _).
  pose proof (seg_evs_length s log Hr Hn) as Hcount. pose proof (seg_evs_good s log Hr Hn Hg) as Hgood.
  assert (Hc : count_lf (seg_text log s) = seg_next s - seg_first s) by (unfold seg_text; by rewrite count_encoded).
  assert (Hl : last (seg_text log s) = Some LF).
  { apply last_encoded. intros E. rewrite E in Hcount. cbn in Hcount. lia. }
  rewrite Hc, Hl, Z.eqb_refl. by rewrite bool_decide_eq_true_2.
Qed.

(** * The segment that holds a sequence number *)

Lemma contiguous_start segs k s :
  contiguous 0 segs = true → segs !! k = Some s → seg_first s = last_next (take k segs).
Proof.
  intros Hc Hs. pose proof (take_S_r _ _ _ Hs) as E.
  assert (Hc' : contiguous 0 (take (S k) segs) = true).
  { revert Hc. generalize 0. generalize (S k) as n. induction segs as [|t segs IH] in |- *; intros [|n] e; cbn [take contiguous]; try done.
    intros [-> Hc]%andb_prop. by apply IH. }
  rewrite E in Hc'. apply contiguous_snoc in Hc' as [_ Hf]. exact Hf.
Qed.
Lemma segments_from_head c v segs rest k :
  repseg c (segs ++ rest) → view_count v = length segs → (k ≤ length segs)%nat →
  segments_from c v k =
  (map (λ s, (s, false)) (drop k segs) ++ match view_segment v with Some s => [(s, true)] | None => [] end)%list.
Proof.
  intros Hrep Hcount Hk. unfold segments_from. rewrite Hcount. f_equal. f_equal. clear v Hcount.
  remember (length segs - k)%nat as n eqn:En. revert k Hk En. induction n as [|n IH]; intros k Hk En; cbn [seq omap list_omap].
  - rewrite drop_ge by lia. done.
  - rewrite (repseg_get _ _ _ Hrep), lookup_app_l by lia.
    destruct (lookup_lt_is_Some_2 segs k) as [s Hs]; [lia|]. rewrite Hs, (drop_S _ _ _ Hs). f_equal. apply IH; lia.
Qed.

Definition active_list (v : JournalReadView) : list (Segment * bool) :=
  match view_segment v with Some s => [(s, true)] | None => [] end.
Lemma view_order d c v log segs i j s t :
  ViewOk d c v log segs → (i ≤ j)%nat → segs !! i = Some s → segs !! j = Some t → seg_next s ≤ seg_next t.
Proof.
  intros H Hij Hs. revert t. pose proof (vo_contiguous _ _ _ _ _ H) as Hcont. pose proof (vo_segs _ _ _ _ _ H) as Hsegs.
  rewrite Forall_forall in Hsegs. induction Hij as [|j Hij IH]; intros t Ht; [rewrite Hs in Ht; injection Ht as <-; lia|].
  pose proof (lookup_lt_Some _ _ _ Ht). destruct (lookup_lt_is_Some_2 segs j) as [r Hr]; [lia|]. specialize (IH _ Hr).
  pose proof (contiguous_start _ _ _ Hcont Ht) as E. rewrite (take_S_r _ _ _ Hr), last_next_snoc in E.
  destruct (Hsegs t (list_elem_of_lookup_2 _ _ _ Ht)) as [Hrange _ _ _ _ _]. lia.
Qed.

(** The bisection for the segments that end at or before [q] *)
Lemma search d c v log segs q :
  ViewOk d c v log segs →
  ∃ k, partition c (view_count v) (λ s, seg_next s <=? q) = Some k ∧ (k ≤ length segs)%nat ∧
    segments_from c v k = (map (λ s, (s, false)) (drop k segs) ++ active_list v)%list ∧
    (∀ i s, (i < k)%nat → segs !! i = Some s → seg_next s ≤ q) ∧
    (∀ i s, (k ≤ i)%nat → segs !! i = Some s → q < seg_next s) ∧
    (0 ≤ q → last_next (take k segs) ≤ q).
Proof.
  intros H. destruct (vo_catalog _ _ _ _ _ H) as [rest Hrep]. pose proof (vo_count _ _ _ _ _ H) as Hcount.
  assert (Happ : ∀ i, (i < length segs)%nat → (segs ++ rest)%list !! i = segs !! i).
  { intros i Hi. by rewrite lookup_app_l. }
  unfold partition. rewrite Hcount.
  destruct (partition_loop_spec (length segs) c (segs ++ rest)%list (λ s, seg_next s <=? q) (length segs) 0 (length segs)
              Hrep) as (k & -> & Hk & Hlo & Hhi); [rewrite length_app; lia|lia|lia| |lia|lia|].
  { intros i j s t Hij Hs Ht Hp. rewrite Happ in Hs, Ht by lia. pose proof (view_order _ _ _ _ _ i j s t H ltac:(lia) Hs Ht). lia. }
  assert (Hlo' : ∀ i s, (i < k)%nat → segs !! i = Some s → seg_next s ≤ q).
  { intros i s Hi Hs. pose proof (lookup_lt_Some _ _ _ Hs). rewrite <- Happ in Hs by done. specialize (Hlo _ _ Hi Hs). cbn in Hlo. lia. }
  exists k. split_and!; [done|done|by apply segments_from_head with (rest := rest)|done| |].
  - intros i s Hi Hs. pose proof (lookup_lt_Some _ _ _ Hs) as Hlt. rewrite <- Happ in Hs by done.
    specialize (Hhi i s ltac:(lia) Hs). cbn in Hhi. lia.
  - intros Hq. destruct k as [|k]; [done|]. destruct (lookup_lt_is_Some_2 segs k) as [t Ht]; [lia|].
    rewrite (take_S_r _ _ _ Ht), last_next_snoc. apply (Hlo' k); [lia|done].
Qed.

(** The segments from an index on cover the log from there to its end. *)
Fixpoint covers (d : Disk) (v : JournalReadView) (log : list Event) (q : Z) (l : list (Segment * bool)) : Prop :=
  match l with
  | [] => q = Z.of_nat (length log)
  | (s, b) :: rest => seg_first s = q ∧ readable d v s b log ∧ covers d v log (seg_next s) rest
  end.
Lemma covers_from d c v log segs k :
  ViewOk d c v log segs → (k ≤ length segs)%nat →
  covers d v log (last_next (take k segs)) (map (λ s, (s, false)) (drop k segs) ++ active_list v).
Proof.
  intros H. remember (length segs - k)%nat as n eqn:En. revert k En. induction n as [|n IH]; intros k En Hk.
  - rewrite drop_ge, take_ge by lia. cbn [map app]. pose proof (vo_active _ _ _ _ _ H) as Ha. unfold active_list.
    destruct (view_segment v) as [s|]; [|done]. destruct Ha as (Hr & Hf & Hnx). by cbn.
  - destruct (lookup_lt_is_Some_2 segs k) as [s Hs]; [lia|]. rewrite (drop_S _ _ _ Hs). cbn [map app covers].
    pose proof (vo_segs _ _ _ _ _ H) as Hsegs. rewrite Forall_forall in Hsegs. split_and!.
    + by apply contiguous_start; [apply H|].
    + by apply Hsegs, list_elem_of_lookup_2 with k.
    + rewrite <- (last_next_snoc (take k segs) s), <- (take_S_r _ _ _ Hs). apply IH; lia.
Qed.

Lemma locate d c v log segs q :
  ViewOk d c v log segs → 0 ≤ q < Z.of_nat (length log) →
  ∃ k s b rest, partition c (view_count v) (λ s, seg_next s <=? q) = Some k ∧ (k ≤ length segs)%nat ∧
    segments_from c v k = (s, b) :: rest ∧ readable d v s b log ∧ seg_first s ≤ q < seg_next s ∧
    seg_first s = last_next (take k segs) ∧
    (∀ i t, (i < k)%nat → segs !! i = Some t → seg_next t ≤ q) ∧
    (∀ i t, (k ≤ i)%nat → segs !! i = Some t → q < seg_next t) ∧
    (if b then k = length segs ∧ view_segment v = Some s else segs !! k = Some s).
Proof.
  intros H Hq. destruct (search _ _ _ _ _ q H) as (k & Hpart & Hk & Hfrom & Hlo & Hhi & Hstart).
  pose proof (covers_from _ _ _ _ _ _ H Hk) as Hc. specialize (Hstart (proj1 Hq)).
  destruct (map (λ s, (s, false)) (drop k segs) ++ active_list v)%list as [|[s b] rest] eqn:El; cbn [covers] in Hc; [lia|].
  destruct Hc as (Hf & Hr & _). exists k, s, b, rest.
  assert (Hb : (if b then k = length segs ∧ view_segment v = Some s else segs !! k = Some s) ∧ q < seg_next s).
  { destruct (decide (k < length segs)%nat) as [Hlt|Hge].
    - destruct (lookup_lt_is_Some_2 segs k Hlt) as [t Ht]. rewrite (drop_S _ _ _ Ht) in El. cbn [map app] in El.
      injection El as -> <- _. split; [done|]. by apply (Hhi k).
    - rewrite drop_ge in El by lia. cbn [map app] in El. unfold active_list in El. pose proof (vo_active _ _ _ _ _ H) as Ha.
      destruct (view_segment v) as [t|]; [|done]. injection El as -> <- _. destruct Ha as (_ & _ & Hnx). split; [|lia].
      split; [lia|done]. }
  destruct Hb as [Hb Hnext]. split_and!; try done. lia.
Qed.

(** * Reading one record *)

Lemma preflight_bound t line charge : preflight_record t line = Ok charge → charge ≤ MAX_JOURNAL_DECODE_BYTES.
Proof.
  unfold preflight_record. destruct (preflight_json _ _); [|done]. destruct (ok_or _ _); [|done].
  destruct (Z.ltb_spec MAX_JOURNAL_DECODE_BYTES a0); [done|]. intros [= <-]. done.
Qed.
Lemma decode_page_good q e : good q e → decode_page_event (line_at q e) q = Ok e.
Proof.
  intros He. destruct (line_one _ _ He) as (t & Ht & _ & ->). unfold decode_page_event.
  rewrite (from_slice_serialize _ _ _ _ Ht), !Z.eqb_refl, last_snoc. by rewrite bool_decide_eq_true_2.
Qed.
Lemma good_preflight q e : good q e → ∃ charge, preflight_record OfEvent (line_at q e) = Ok charge.
Proof. intros [_ H]. destruct (preflight_record OfEvent (line_at q e)) as [charge|]; [by exists charge|done]. Qed.

(** What reading a record of a log answers *)
Definition record_result (log : list Event) (q max_decode_bytes : Z) : Result (Event * Z) SessionStoreError :=
  if (max_decode_bytes =? 0) || (MAX_JOURNAL_DECODE_BYTES <? max_decode_bytes) then Err InvalidEventDecodeLimit
  else match log !! Z.to_nat q with
       | None => Err EventPageCursorAhead
       | Some e =>
           let? charge := preflight_record OfEvent (line_at q e) in
           if max_decode_bytes <? charge then Err (EventDecodeLimitTooSmall charge max_decode_bytes) else Ok (e, charge)
       end.

Lemma record_spec d c v log segs q m :
  ViewOk d c v log segs → 0 ≤ q → record_with_decode_limit d c v q m = record_result log q m.
Proof.
  intros H Hq. unfold record_with_decode_limit, record_result. destruct (_ || _); [done|].
  rewrite (vo_next _ _ _ _ _ H).
  destruct (log !! Z.to_nat q) as [e|] eqn:He; [|apply lookup_ge_None in He; destruct (Z.leb_spec (Z.of_nat (length log)) q); [done|lia]].
  pose proof (lookup_lt_Some _ _ _ He) as Hn. pose proof (vo_good _ _ _ _ _ H) as Hg.
  destruct (Z.leb_spec (Z.of_nat (length log)) q); [lia|].
  destruct (locate _ _ _ _ _ q H) as (k & s & b & rest & Hpart & _ & Hfrom & Hr & Hin & _); [lia|]. rewrite Hpart. cbn [ok_or]. rewrite Hfrom.
  destruct (Z.ltb_spec q (seg_first s)); [lia|]. destruct (Z.leb_spec (seg_next s) q); [lia|]. cbn [orb].
  pose proof (rd_range _ _ _ _ _ Hr) as Hrange. pose proof (rd_next _ _ _ _ _ Hr) as Hnext.
  pose proof (rd_room _ _ _ _ _ Hr) as Hroom. pose proof (rd_bytes _ _ _ _ _ Hr) as Hb.
  pose proof (seg_evs_length s log Hrange Hnext) as Hcount.
  pose proof (length_le_size (seg_first s) (seg_evs log s)) as Hle. fold (seg_text log s) in Hle.
  rewrite (page_segment_ok _ _ _ _ _ _ _ Hr Hg) by (cbn; lia). cbn [fst].
  pose proof (seg_evs_good s log Hrange Hnext Hg) as Hgood. unfold seg_text. rewrite split_encoded by done.
  pose proof (seg_evs_lookup s log (Z.to_nat q) (proj1 Hrange)) as Hlk. rewrite He, Z2Nat.id in Hlk by done. specialize (Hlk Hin).
  rewrite (lines_lookup _ _ _ _ Hlk). pose proof (all_good_lookup _ _ _ _ Hgood Hlk) as Hge.
  replace (seg_first s + Z.of_nat (Z.to_nat (q - seg_first s))) with q in * by lia.
  destruct (good_preflight _ _ Hge) as [charge ->]. destruct (_ <? _); [done|]. by rewrite decode_page_good.
Qed.
Lemma record_result_max log n e :
  all_good 0 log → log !! n = Some e → ∃ charge, record_result log (Z.of_nat n) MAX_JOURNAL_DECODE_BYTES = Ok (e, charge).
Proof.
  intros Hg He. unfold record_result. rewrite Z.ltb_irrefl, Nat2Z.id, He. change (MAX_JOURNAL_DECODE_BYTES =? 0) with false.
  cbn [orb]. destruct (good_preflight _ _ (all_good_lookup _ _ _ _ Hg He)) as [charge Hc]. rewrite Z.add_0_l in Hc. rewrite Hc.
  pose proof (preflight_bound _ _ _ Hc). destruct (Z.ltb_spec MAX_JOURNAL_DECODE_BYTES charge); [lia|]. by exists charge.
Qed.

(** * The view of a writer *)

Lemma holds_readable d v log s : seg_holds d log s → readable d v s false log.
Proof.
  intros [Hv Hf Hb Hd Hn]. pose proof Hv as ((H0 & _) & _ & Hlt & Hbytes & _). split; try done; try lia.
  split; [|done]. intros E. apply (seg_name_not_reserved s Hv). rewrite E. set_solver.
Qed.
Lemma view_of_inv d j log segs : Inv d j log segs → ViewOk d (segments j) (read_view j) log segs.
Proof.
  intros H. pose proof (inv_layout _ _ _ _ H) as Hlay. pose proof (last_next_range _ _ _ Hlay) as Hlast.
  pose proof (active_evs_length _ _ _ Hlay) as Hlen.
  assert (Hempty : active_bytes j ≤ 0 → active_evs log segs = []).
  { intros Hle. destruct (active_evs log segs) eqn:E; [done|]. rewrite (inv_bytes _ _ _ _ H) in Hle.
    pose proof (encoded_nonempty (last_next segs) (active_evs log segs)) as Hne. rewrite E in Hne.
    unfold active_text in Hle. rewrite E in Hle. specialize (Hne ltac:(done)). lia. }
  split.
  - exists []. rewrite app_nil_r. apply H.
  - apply H.
  - eapply Forall_impl; [apply (lay_segs _ _ _ Hlay)|]. intros s. apply holds_readable.
  - apply (lay_contiguous _ _ _ Hlay).
  - apply H.
  - apply (lay_good _ _ _ Hlay).
  - apply (lay_fresh _ _ _ Hlay _ _ (inv_name _ _ _ _ H)).
  - lia.
  - unfold read_view. cbn [view_segment]. destruct (Z.ltb_spec 0 (active_bytes j)) as [Hpos|Hz].
    + cbn [seg_first seg_next]. pose proof (sealed_valid _ _ _ _ H Hpos) as ((H0 & _) & _ & Hlt & Hb & _). cbn in H0, Hlt, Hb.
      pose proof (sealed_text _ _ _ _ H) as Htext. unfold seg_text, seg_evs, sealed_segment in Htext. cbn in Htext.
      split_and!; [|apply H..]. split; unfold seg_text, seg_evs; cbn [seg_first seg_next seg_bytes seg_digest]; rewrite ?Htext.
      * lia.
      * rewrite (inv_next _ _ _ _ H). lia.
      * apply H.
      * lia.
      * by rewrite (inv_hash _ _ _ _ H).
      * cbn. exists []. rewrite app_nil_r. apply H.
    + rewrite (Hempty Hz) in Hlen. cbn in Hlen. lia.
Qed.

(** * What an append changes on disk *)

(** Files other than the active one keep their names and contents; the file
    that was active keeps the bytes that were committed to it. *)
Record grows (d : Disk) (j : SegmentedJournal) (d' : Disk) : Prop := mkGrows {
  gr_names : ∀ n i, n ≠ "active.jsonl"%string → names d !! n = Some i → names d' !! n = Some i;
  gr_contents : ∀ i t, (i < fresh d)%nat → i ≠ active j → contents d !! i = Some t → contents d' !! i = Some t;
  gr_active : ∃ more, contents d' !! active j = Some (active_hash j ++ more)%list;
  gr_fresh : (fresh d ≤ fresh d')%nat;
}.
Lemma grows_refl d j log segs : Inv d j log segs → grows d j d.
Proof.
  intros H. split; [done..| |done]. exists []. by rewrite app_nil_r, (inv_hash _ _ _ _ H), (inv_content _ _ _ _ H).
Qed.
Lemma grows_write d j log segs t :
  Inv d j log segs → grows d j (write_inode d (active j) (active_text log segs ++ t)%list).
Proof.
  intros H. split; cbn; [done| |by exists t; rewrite lookup_insert_eq, (inv_hash _ _ _ _ H)|done].
  intros i u _ Hi Hu. by rewrite lookup_insert_ne.
Qed.
Lemma grows_rewrite d j log segs t :
  Inv d j log segs → grows d j (write_inode (write_inode d (active j) t) (active j) (active_text log segs)).
Proof.
  intros H. split; cbn; [done| |by exists []; rewrite lookup_insert_eq, app_nil_r, (inv_hash _ _ _ _ H)|done].
  intros i u _ Hi Hu. by rewrite !lookup_insert_ne.
Qed.

Lemma write_active_grows io d j log segs p d' j' r :
  Inv d j log segs → write_active io d j p = (d', j', r) → grows d j d' ∧ segments j' = segments j.
Proof.
  intros H. pose proof (grows_refl _ _ _ _ H) as Hrefl. unfold write_active. rewrite (inv_read _ _ _ _ H).
  destruct (negb (io_metadata io)); [by intros [= <- <- <-]|]. destruct (negb (_ =? _)); [by intros [= <- <- <-]|].
  pose proof (λ t, grows_write _ _ _ _ t H) as Hw. pose proof (λ t, grows_rewrite _ _ _ _ t H) as Hrw.
  destruct (_ || _).
  - destruct (negb (truncate_ok io)); [by intros [= <- <- <-]|].
    rewrite read_write, (inv_bytes _ _ _ _ H), take_size.
    destruct (negb (truncate_sync_ok io)); [by intros [= <- <- <-]|].
    destruct (negb (snapshot_ok io)); by intros [= <- <- <-].
  - destruct (negb (snapshot_ok io)); by intros [= <- <- <-].
Qed.

Lemma grows_seal_create d j log segs d1 :
  Inv d j log segs → 0 < active_bytes j → (length segs < MAX_SEGMENTS)%nat →
  rename d "active.jsonl" (seg_name (sealed_segment j)) = Some d1 → grows d j d1 ∧ fresh d1 = fresh d.
Proof.
  intros H Hpos Hcount Hren. pose proof (layout_rename _ _ _ _ _ H Hpos Hcount Hren) as (_ & _ & Hcont & _).
  revert Hren. unfold rename. rewrite (inv_name _ _ _ _ H).
  destruct (names d !! seg_name (sealed_segment j)) eqn:Efree; [done|]. intros [= <-]. split; [|done].
  split; cbn [names contents fresh]; [| |exists []; rewrite app_nil_r, (inv_hash _ _ _ _ H); apply H|lia].
  - intros n i Hn Hi. rewrite lookup_insert_ne by (intros E; change (seg_name (sealed_segment j) = n) in E; rewrite E, Hi in Efree; discriminate Efree). by rewrite lookup_delete_ne.
  - done.
Qed.
Lemma grows_create d j d1 : grows d j d1 → names d1 !! "active.jsonl"%string = None → fresh d1 = fresh d →
  (active j < fresh d)%nat → grows d j (create_file d1 "active.jsonl").1.
Proof.
  intros [Hn Hc [more Hm] Hf] Hnone Hfresh Hact. unfold create_file. rewrite Hnone. cbn [fst].
  split; cbn [names contents fresh].
  - intros n i Hne Hi. rewrite lookup_insert_ne by done. by apply Hn.
  - intros i t Hlt Hi Ht. rewrite lookup_insert_ne by lia. by apply Hc.
  - exists more. rewrite lookup_insert_ne by lia. done.
  - lia.
Qed.
Lemma seal_grows io d j log segs d' j' r :
  Inv d j log segs → 0 < active_bytes j → seal io d j = (d', j', r) →
  grows d j d' ∧ (segments j' = segments j ∨ repseg (segments j') (segs ++ [sealed_segment j])) ∧
  (is_ok r = true → (fresh d ≤ active j')%nat).
Proof.
  intros H Hpos. pose proof (grows_refl _ _ _ _ H) as Hrefl. unfold seal. rewrite (inv_count _ _ _ _ H).
  destruct (Nat.leb_spec MAX_SEGMENTS (length segs)) as [|Hcount]; [intros [= <- <- <-]; split_and!; auto; done|].
  fold (sealed_segment j). change (segment_name _ _ _ _) with (seg_name (sealed_segment j)).
  destruct (rename_ok io); [|intros [= <- <- <-]; split_and!; auto; done].
  destruct (rename d "active.jsonl" (seg_name (sealed_segment j))) as [d1|] eqn:Eren;
    [|intros [= <- <- <-]; split_and!; auto; done].
  destruct (grows_seal_create _ _ _ _ _ H Hpos Hcount Eren) as [Hg1 Hf1].
  destruct (negb (rename_sync_ok io)); [intros [= <- <- <-]; split_and!; auto; done|].
  destruct (negb (create_ok io)); [intros [= <- <- <-]; split_and!; auto; done|].
  destruct (create_file d1 "active.jsonl") as [d2 file] eqn:Ecr.
  pose proof (layout_rename _ _ _ _ _ H Hpos Hcount Eren) as (_ & Hnone & _).
  pose proof (lay_fresh _ _ _ (inv_layout _ _ _ _ H) _ _ (inv_name _ _ _ _ H)) as Hact.
  pose proof (grows_create _ _ _ Hg1 Hnone Hf1 Hact) as Hg2. rewrite Ecr in Hg2. cbn [fst] in Hg2.
  assert (Hfile : file = fresh d1) by (unfold create_file in Ecr; rewrite Hnone in Ecr; by injection Ecr as _ <-).
  destruct (negb (size _ =? 0)); [intros [= <- <- <-]; split_and!; auto; done|].
  destruct (negb (directory_sync_ok io)); [intros [= <- <- <-]; split_and!; auto; done|].
  destruct (repseg_push _ _ (sealed_segment j) (inv_catalog _ _ _ _ H)) as (entries & -> & Hrep).
  destruct (negb (seal_snapshot_ok io)); intros [= <- <- <-]; split_and!; auto; try done. cbn. lia.
Qed.

Lemma append_grows io d j log segs evs d' j' r :
  Inv d j log segs → append_batch io d j evs = (d', j', r) →
  grows d j d' ∧ ∃ rest, repseg (segments j') (segs ++ rest).
Proof.
  intros H. pose proof (grows_refl _ _ _ _ H) as Hrefl.
  assert (Hsame : ∀ j0, segments j0 = segments j → ∃ rest, repseg (segments j0) (segs ++ rest)).
  { intros j0 ->. exists []. rewrite app_nil_r. apply H. }
  unfold append_batch. destruct (encode_owned _ _) as [[p envs]|]; [|intros [= <- <- <-]; auto].
  destruct (write_prepared io d j p) as [[dw jw] rw] eqn:Ew. intros [= <- <- _]. revert Ew. unfold write_prepared.
  destruct (negb (_ =? _)); [intros [= <- <- <-]; auto|]. destruct (poisoned j); [intros [= <- <- <-]; auto|].
  destruct (negb (io_verify io)); [intros [= <- <- <-]; auto|]. destruct (Nat.eqb _ _); [intros [= <- <- <-]; auto|].
  destruct (Z.ltb_spec 0 (active_bytes j)) as [Hpos|_]; cbn [andb].
  2: { intros E. destruct (write_active_grows _ _ _ _ _ _ _ _ _ H E) as [? ?]. auto. }
  destruct (_ <? _).
  2: { intros E. destruct (write_active_grows _ _ _ _ _ _ _ _ _ H E) as [? ?]. auto. }
  destruct (seal (io_seal io) d j) as [[d1 j1] r1] eqn:Es.
  destruct (seal_grows _ _ _ _ _ _ _ _ H Hpos Es) as (Hg & Hsegs & Hfresh).
  pose proof (seal_spec _ _ _ _ _ _ _ _ H Hpos Es) as Hspec.
  assert (Hr1 : ∃ rest, repseg (segments j1) (segs ++ rest)) by (destruct Hsegs; eauto).
  destruct r1 as [u|e]; [|intros [= <- <- <-]; auto]. destruct Hspec as [Hinv _]. intros E.
  destruct (write_active_grows _ _ _ _ _ _ _ _ _ Hinv E) as [Hg' Hseg']. split; [|rewrite Hseg'; auto].
  specialize (Hfresh eq_refl). pose proof (lay_fresh _ _ _ (inv_layout _ _ _ _ H) _ _ (inv_name _ _ _ _ H)) as Hact.
  destruct Hg as [Hn Hc [more Hm] Hf], Hg' as [Hn' Hc' [more' Hm'] Hf']. split.
  - intros n i Hne Hi. apply Hn'; [done|]. by apply Hn.
  - intros i t Hlt Hi Ht. apply Hc'; [lia|lia|]. by apply Hc.
  - exists more. apply Hc'; [lia|lia|done].
  - lia.
Qed.

(** * Views outlive appends *)

Lemma repseg_unique c segs segs' : repseg c segs → repseg c segs' → segs = segs'.
Proof. intros H H'. apply list_eq. intros i. by rewrite <- (repseg_get _ _ _ H), <- (repseg_get _ _ _ H'). Qed.

(** A writer that can go on, or one that refuses everything *)
Definition live (d : Disk) (j : SegmentedJournal) : Prop := poisoned j = true ∨ ∃ log segs, Inv d j log segs.

Lemma readable_grows d j d' v s b log log' segs' :
  Inv d j log' segs' → grows d j d' → (view_active v < fresh d)%nat → readable d v s b log → readable d' v s b log.
Proof.
  intros H [Hn Hc [more Hm] Hf] Hv [Hr Hnx Hb Hroom Hd Hfile]. split; try done. destruct b; cbn [file_holds] in *.
  - destruct Hfile as [rest Hrest]. destruct (decide (view_active v = active j)) as [E|Hne].
    + rewrite E in *. rewrite (inv_content _ _ _ _ H), <- (inv_hash _ _ _ _ H) in Hrest. injection Hrest as Hrest.
      exists (rest ++ more)%list. by rewrite Hm, Hrest, (assoc_L (++)).
    + exists rest. by apply Hc.
  - destruct Hfile as (Hne & i & Hi & Ht). split; [done|]. exists i. split; [by apply Hn|].
    pose proof (inv_layout _ _ _ _ H) as Hlay. apply Hc; [by eapply lay_fresh| |done]. intros ->.
    apply Hne. by apply (lay_inj _ _ _ Hlay _ _ _ Hi), H.
Qed.
Lemma view_append io d j v log segs evs d' j' r :
  ViewOk d (segments j) v log segs → live d j → append_batch io d j evs = (d', j', r) →
  ViewOk d' (segments j') v log segs ∧ live d' j'.
Proof.
  intros Hv [Hp|(log' & segs' & H)] E.
  { destruct (append_poisoned _ _ _ _ _ _ _ Hp E) as (-> & -> & _). split; [done|by left]. }
  destruct (append_grows _ _ _ _ _ _ _ _ _ H E) as [Hg [rest' Hrest']]. split.
  - destruct Hv as [[rest Hrep] Hcount Hsegs Hcont Hnext Hgood Hfresh Hlast Hact]. split; try done.
    + exists (rest ++ rest')%list. pose proof (repseg_unique _ _ _ Hrep (inv_catalog _ _ _ _ H)) as <-.
      by rewrite (assoc_L (++)).
    + eapply Forall_impl; [exact Hsegs|]. intros s. by eapply readable_grows.
    + pose proof (gr_fresh _ _ _ Hg). lia.
    + destruct (view_segment v) as [s|]; [|done]. destruct Hact as [Hr Hact]. split; [|done]. by eapply readable_grows.
  - pose proof (append_spec _ _ _ _ _ _ _ _ _ H E) as [Ha _]. unfold appended in Ha.
    destruct r; [right; destruct Ha as (? & ? & _); eauto|]. destruct Ha as [(? & ? & _)|[Hp _]]; [right; eauto|by left].
Qed.

(** * Histories *)

(** The events acknowledged so far, with the sequence numbers of the envelopes
    they were acknowledged with *)
Record Sys : Type := mkSys {
  sys_disk : Disk;
  sys_journal : SegmentedJournal;
  acked : list (Z * Event);
}.
Definition acknowledged (r : Result (list EventEnvelope) SessionStoreError) : list (Z * Event) :=
  match r with Ok envs => map (λ env, (env_sequence env, env_event env)) envs | Err _ => [] end.

Inductive jstep : Sys → Sys → Prop :=
| jstep_append io d j a evs d' j' r :
    append_batch io d j evs = (d', j', r) →
    jstep (mkSys d j a) (mkSys d' j' (a ++ acknowledged r)%list)
| jstep_reopen d j a d' j' :
    open true d = Ok (d', j') → jstep (mkSys d j a) (mkSys d' j' a)
| jstep_crash d j a evs p envs d1 d' j' :
    poisoned j = false → encode_owned (next_sequence j) evs = Ok (p, envs) → append_crash d j p d1 →
    open true d1 = Ok (d', j') → jstep (mkSys d j a) (mkSys d' j' a).

Inductive journal_reachable : Sys → Prop :=
| reach_new d d' j : names d = ∅ → open true d = Ok (d', j) → journal_reachable (mkSys d' j [])
| reach_jstep s s' : journal_reachable s → jstep s s' → journal_reachable s'.

Definition holds_all (log : list Event) (a : list (Z * Event)) : Prop :=
  ∀ q e, (q, e) ∈ a → 0 ≤ q ∧ log !! Z.to_nat q = Some e.
Definition GoodSys (s : Sys) : Prop :=
  ∃ log, holds_all log (acked s) ∧
    ((poisoned (sys_journal s) = false ∧ ∃ segs, Inv (sys_disk s) (sys_journal s) log segs) ∨
     (poisoned (sys_journal s) = true ∧ ∃ tail, on_disk (sys_disk s) log tail)).

Lemma holds_all_app log evs a : holds_all log a → holds_all (log ++ evs) a.
Proof.
  intros H q e Hin. destruct (H q e Hin) as [Hq Hl]. split; [done|]. by apply lookup_app_l_Some.
Qed.
Lemma number_lookup a evs q e :
  (q, e) ∈ acknowledged (Ok (envelopes_from a evs)) → a ≤ q ∧ evs !! Z.to_nat (q - a) = Some e.
Proof.
  cbn [acknowledged]. revert a. induction evs as [|x evs IH]; intros a; cbn [envelopes_from map]; [by rewrite elem_of_nil|].
  rewrite elem_of_cons. intros [[= -> ->]|Hin%IH].
  - split; [lia|]. by rewrite Z.sub_diag.
  - destruct Hin as [Hle Hl]. split; [lia|]. replace (Z.to_nat (q - a)) with (S (Z.to_nat (q - (a + 1)))) by lia. done.
Qed.
Lemma holds_all_number log evs a :
  holds_all log a → 
  holds_all (log ++ evs) (a ++ acknowledged (Ok (envelopes_from (Z.of_nat (length log)) evs))).
Proof.
  intros H q e. rewrite elem_of_app. intros [Hin|Hin%number_lookup].
  - by apply (holds_all_app log evs a H).
  - destruct Hin as [Hle Hl]. split; [lia|]. rewrite lookup_app_r by lia.
    replace (Z.to_nat q - length log)%nat with (Z.to_nat (q - Z.of_nat (length log))) by lia. done.
Qed.

Lemma new_on_disk d : names d = ∅ → on_disk d [] [].
Proof.
  intros E. exists []. assert (Hno : ∀ n, names d !! n = None) by (intros n; by rewrite E, lookup_empty).
  split_and!; [|by vm_compute|apply not_elem_of_nil|by rewrite Hno].
  split; try done; try (intros n; rewrite Hno; done). cbn. lia.
Qed.
Lemma good_disk s : GoodSys s → ∃ log tail, on_disk (sys_disk s) log tail ∧ holds_all log (acked s).
Proof.
  intros (log & Ha & [(_ & segs & H)|(_ & tail & H)]); exists log; [exists []|exists tail]; split; try done. by eapply inv_on_disk.
Qed.
Lemma good_open d log tail d' j' a :
  on_disk d log tail → holds_all log a → open true d = Ok (d', j') → GoodSys (mkSys d' j' a).
Proof.
  intros Hd Ha Ho. destruct (open_spec _ _ _ Hd) as (d1 & j1 & segs & E & Hinv). rewrite E in Ho. injection Ho as <- <-.
  exists log. split; [done|]. left. split; [apply Hinv|by exists segs].
Qed.
Lemma good_step s s' : GoodSys s → jstep s s' → GoodSys s'.
Proof.
  intros Hg Hstep. pose proof (good_disk _ Hg) as (log0 & tail0 & Hd0 & Ha0).
  destruct Hg as (log & Ha & Hcase). destruct Hstep as [io d j a evs d' j' r E|d j a d' j' E|d j a evs p envs d1 d' j' Hp Ep Hc E];
    cbn [acked sys_disk sys_journal] in *.
  - destruct Hcase as [(_ & segs & H)|(Hp & tail & Hd)].
    + pose proof (append_spec _ _ _ _ _ _ _ _ _ H E) as [Happ Henvs]. rewrite (inv_next _ _ _ _ H) in Henvs.
      destruct r as [envs|e]; cbn [appended] in *.
      * rewrite (Henvs envs eq_refl). destruct Happ as (segs' & H' & _). exists (log ++ evs)%list. split; [by apply holds_all_number|].
        left. split; [apply H'|by exists segs'].
      * destruct Happ as [(segs' & H' & _)|(Hp & k & tail & Hd)].
        -- exists log. cbn [acknowledged]. rewrite app_nil_r. split; [done|]. left. split; [apply H'|by exists segs'].
        -- exists (log ++ take k evs)%list. cbn [acknowledged]. rewrite app_nil_r. split; [by apply holds_all_app|]. right. split; [done|]. by exists tail.
    + destruct (append_poisoned _ _ _ _ _ _ _ Hp E) as (-> & -> & Hr). destruct r; [done|].
      exists log. cbn [acknowledged]. rewrite app_nil_r. split; [done|]. right. eauto.
  - by eapply good_open.
  - destruct Hcase as [(_ & segs & H)|(Hp' & _)]; [|congruence].
    destruct (crash_on_disk _ _ _ _ _ _ _ _ H Ep Hc) as (k & tail & Hd). eapply good_open; [exact Hd| |exact E].
    by apply holds_all_app.
Qed.
Lemma reachable_good s : journal_reachable s → GoodSys s.
Proof.
  induction 1 as [d d' j Hn Ho|s s' _ IH Hs]; [|by eapply good_step].
  eapply good_open; [by apply new_on_disk| |exact Ho]. intros q e. by rewrite elem_of_nil.
Qed.

End reads.

(** * Claims *)

(** C28: acknowledged events survive.  After any history of appends (whatever the
    operating system answers), reopenings and crashes in the middle of an append,
    a writer that is not poisoned reads back every event that an append ever
    acknowledged, under the sequence number it was acknowledged with. *)
Theorem acknowledged_survive `{B : Blake3} `{C : Codec} s q e :
  journal_reachable s → poisoned (sys_journal s) = false → (q, e) ∈ acked s →
  ∃ charge, record_with_decode_limit (sys_disk s) (segments (sys_journal s)) (read_view (sys_journal s)) q
              MAX_JOURNAL_DECODE_BYTES = Ok (e, charge).
Proof.
  intros (log & Ha & [(_ & segs & H)|(Hp & _)])%reachable_good Hnp Hin; [|congruence].
  destruct (Ha _ _ Hin) as [Hq He]. rewrite (record_spec _ _ _ _ _ _ _ (view_of_inv _ _ _ _ H) Hq).
  rewrite <- (Z2Nat.id q) by done. apply record_result_max; [apply (lay_good _ _ _ (inv_layout _ _ _ _ H))|done].
Qed.

(** What a writer does with a batch that encodes while the operating system does
    its part: it is acknowledged, unless it needs one segment too many. *)
Definition accepts `{B : Blake3} `{C : Codec} (d : Disk) (j : SegmentedJournal) : Prop :=
  ∀ evs p envs, encode_owned (next_sequence j) evs = Ok (p, envs) →
    (append_batch calm d j evs).2 = if full j p then Err (CorruptEvent "too many journal segments") else Ok envs.

(** C29: the journal can always be reopened.  In every reachable state, poisoned
    or not, and after a crash at any point of an append, opening succeeds: torn
    records, an interrupted seal and the size and count limits never make it
    fail.  The new writer continues with a sequence number within the batch that
    was interrupted, and when the operating system does its part it acknowledges
    every batch that encodes, with one exception: once 65536 segments are sealed,
    a batch that does not fit the active file's target is refused. *)
Theorem journal_reopens `{B : Blake3} `{C : Codec} s :
  journal_reachable s →
  (∃ d j, open true (sys_disk s) = Ok (d, j) ∧ accepts d j) ∧
  (∀ evs p envs d1, poisoned (sys_journal s) = false → encode_owned (next_sequence (sys_journal s)) evs = Ok (p, envs) →
     append_crash (sys_disk s) (sys_journal s) p d1 →
     ∃ d j, open true d1 = Ok (d, j) ∧ accepts d j ∧
            next_sequence (sys_journal s) ≤ next_sequence j ≤ next_sequence (sys_journal s) + Z.of_nat (length evs)).
Proof.
  intros Hg%reachable_good. split.
  - destruct (good_disk _ Hg) as (log & tail & Hd & _). destruct (open_spec _ _ _ Hd) as (d & j & segs & E & H).
    exists d, j. split; [done|]. intros evs p envs. by eapply calm_append.
  - intros evs p envs d1 Hp Ep Hc. destruct Hg as (log & _ & [(_ & segs & H)|(Hp' & _)]); [|congruence].
    destruct (crash_on_disk _ _ _ _ _ _ _ _ H Ep Hc) as (k & tail & Hd).
    destruct (open_spec _ _ _ Hd) as (d & j & segs' & E & H'). exists d, j. split; [done|].
    split; [intros evs' p' envs'; by eapply calm_append|].
    rewrite (inv_next _ _ _ _ H), (inv_next _ _ _ _ H'), length_app, length_take. lia.
Qed.

Definition later_appends `{B : Blake3} `{C : Codec} : relation (Disk * SegmentedJournal) :=
  rtc (λ x y, ∃ io evs r, append_batch io x.1 x.2 evs = (y.1, y.2, r)).

(** A captured view is immutable.  Whatever appends, rotations and failures
    follow, reading any sequence number through the view, by its own descriptor
    and the shared catalog, answers what it answered when the view was captured. *)
Theorem view_immutable `{B : Blake3} `{C : Codec} s d' j' q m :
  journal_reachable s → poisoned (sys_journal s) = false → later_appends (sys_disk s, sys_journal s) (d', j') → 0 ≤ q →
  record_with_decode_limit d' (segments j') (read_view (sys_journal s)) q m =
  record_with_decode_limit (sys_disk s) (segments (sys_journal s)) (read_view (sys_journal s)) q m.
Proof.
  intros (log & _ & [(_ & segs & H)|(Hp & _)])%reachable_good Hnp Hlater Hq; [|congruence].
  pose proof (view_of_inv _ _ _ _ H) as Hv.
  assert (Hv' : ViewOk d' (segments j') (read_view (sys_journal s)) log segs).
  { remember (read_view (sys_journal s)) as v eqn:Ev. clear Ev.
    assert (Hlive : live (sys_disk s) (sys_journal s)) by (right; eauto). clear H Hnp.
    remember (sys_disk s, sys_journal s) as x eqn:Ex. remember (d', j') as y eqn:Ey.
    assert (Hx : ViewOk x.1 (segments x.2) v log segs ∧ live x.1 x.2) by by subst. clear Ex Hv Hlive.
    assert (Hy : ViewOk y.1 (segments y.2) v log segs ∧ live y.1 y.2); [|by subst; apply Hy]. clear Ey.
    induction Hlater as [|x z y (io & evs & r & E) _ IH]; [done|]. apply IH. destruct Hx as [Hx Hl]. by eapply view_append. }
  by rewrite (record_spec _ _ _ _ _ _ _ Hv' Hq), (record_spec _ _ _ _ _ _ _ Hv Hq).
Qed.

(** C31: a failed append that leaves the writer usable has no effect: the next
    sequence number and every read are as before. *)
Theorem failed_append_invisible `{B : Blake3} `{C : Codec} s io evs d' j' e q m :
  journal_reachable s → poisoned (sys_journal s) = false →
  append_batch io (sys_disk s) (sys_journal s) evs = (d', j', Err e) → poisoned j' = false → 0 ≤ q →
  next_sequence j' = next_sequence (sys_journal s) ∧
  record_with_decode_limit d' (segments j') (read_view j') q m =
  record_with_decode_limit (sys_disk s) (segments (sys_journal s)) (read_view (sys_journal s)) q m.
Proof.
  intros (log & _ & [(_ & segs & H)|(Hp & _)])%reachable_good Hnp E Hnp' Hq; [|congruence].
  destruct (proj1 (append_spec _ _ _ _ _ _ _ _ _ H E)) as [(segs' & H' & _)|[Hp _]]; [|congruence].
  rewrite (inv_next _ _ _ _ H), (inv_next _ _ _ _ H'). split; [done|].
  by rewrite (record_spec _ _ _ _ _ _ _ (view_of_inv _ _ _ _ H) Hq), (record_spec _ _ _ _ _ _ _ (view_of_inv _ _ _ _ H') Hq).
Qed.

(** * A concrete history *)

#[local] Existing Instance bit_digest.
#[local] Existing Instance unary_codec.

(** The write stops after a byte. *)
Definition torn_write : AppendIo := mkAppendIo true calm_seal true (Some 1%nat) true true true true.
Definition empty_disk : Disk := mkDisk ∅ ∅ 0.
Definition closed_journal : SegmentedJournal := mkJournal no_entries 0 0 0 0 [] 0 (hash []) 0 true.
Definition sample_open : Disk * SegmentedJournal :=
  match open true empty_disk with Ok x => x | Err _ => (empty_disk, closed_journal) end.
Definition sample_start : Sys := mkSys sample_open.1 sample_open.2 [].
Definition sample_appended : Disk * SegmentedJournal * Result (list EventEnvelope) SessionStoreError :=
  append_batch calm (sys_disk sample_start) (sys_journal sample_start) two_events.
Definition sample_sys : Sys := mkSys sample_appended.1.1 sample_appended.1.2 [(0, true); (1, false)].

Lemma sample_reachable : journal_reachable sample_sys.
Proof.
  apply (reach_jstep sample_start).
  - apply (reach_new empty_disk); [done|]. unfold sample_open.
    destruct (open true empty_disk) as [[d j]|e] eqn:E; [done|]. vm_compute in E. discriminate E.
  - assert (acknowledged sample_appended.2 = [(0, true); (1, false)]) as Ea by (vm_compute; reflexivity).
    unfold sample_sys. rewrite <- Ea. change (acknowledged sample_appended.2) with ([] ++ acknowledged sample_appended.2)%list.
    apply (jstep_append calm _ _ [] two_events). change (append_batch _ _ _ _) with sample_appended.
    by destruct sample_appended as [[d j] r].
Defined.
Lemma sample_usable : poisoned (sys_journal sample_sys) = false.
Proof. vm_compute. reflexivity. Defined.

Lemma acknowledged_survive_witness :
  ∃ charge, record_with_decode_limit (sys_disk sample_sys) (segments (sys_journal sample_sys))
              (read_view (sys_journal sample_sys)) 1 MAX_JOURNAL_DECODE_BYTES = Ok (false, charge).
Proof.
  apply (acknowledged_survive sample_sys 1 false sample_reachable sample_usable). cbn. right. left.
Defined.
Lemma journal_reopens_witness : ∃ d j, open true (sys_disk sample_sys) = Ok (d, j) ∧ accepts d j.
Proof. exact (proj1 (journal_reopens sample_sys sample_reachable)). Defined.

Definition sample_later : Disk * SegmentedJournal * Result (list EventEnvelope) SessionStoreError :=
  append_batch calm (sys_disk sample_sys) (sys_journal sample_sys) one_event.
Lemma sample_later_appends :
  later_appends (sys_disk sample_sys, sys_journal sample_sys) (sample_later.1.1, sample_later.1.2).
Proof.
  apply rtc_once. exists calm, one_event, sample_later.2. cbn [fst snd].
  change (append_batch _ _ _ _) with sample_later. by destruct sample_later as [[d j] r].
Defined.
Lemma view_immutable_witness :
  record_with_decode_limit sample_later.1.1 (segments sample_later.1.2) (read_view (sys_journal sample_sys)) 2 4096 =
  record_with_decode_limit (sys_disk sample_sys) (segments (sys_journal sample_sys)) (read_view (sys_journal sample_sys)) 2 4096.
Proof.
  apply (view_immutable sample_sys sample_later.1.1 sample_later.1.2 2 4096 sample_reachable sample_usable sample_later_appends).
  lia.
Defined.

Definition sample_failed : Disk * SegmentedJournal * Result (list EventEnvelope) SessionStoreError :=
  append_batch torn_write (sys_disk sample_sys) (sys_journal sample_sys) one_event.
Lemma failed_append_invisible_witness :
  sample_failed.2 = Err IoError ∧ next_sequence sample_failed.1.2 = next_sequence (sys_journal sample_sys).
Proof.
  assert (E : sample_failed.2 = Err IoError) by (vm_compute; reflexivity). split; [exact E|].
  apply (failed_append_invisible sample_sys torn_write one_event sample_failed.1.1 sample_failed.1.2 IoError 0 4096
           sample_reachable sample_usable).
  - change (append_batch _ _ _ _) with sample_failed. rewrite <- E. by destruct sample_failed as [[d j] r].
  - vm_compute. reflexivity.
  - lia.
Defined.
