(* ===== verification/JournalPages.v ===== *)
(** Pages, full verification and historical prefixes of the journal. *)
From Stdlib Require Import Ascii.
From S2P Require Import Prelude Text Ir JournalCatalog Journal JournalInv JournalRecovery JournalReads.

Section pages.
Context `{B : Blake3} `{C : Codec}.

(** * Pages *)

(** The errors that stand for a limit of the caller *)
Definition limit_error (e : SessionStoreError) : Prop :=
  match e with
  | InvalidEventPageLimits | EventPageCursorAhead | EventRecordTooLarge _ | EventPageByteLimitTooSmall _ _
  | EventScanBytesExceeded _ | EventScanCountExceeded _ => True
  | _ => False
  end.

(** A page under construction is a slice of the log *)
Record Slice (log : list Event) (first : Z) (st : PageState) : Prop := mkSlice {
  sl_range : first ≤ ps_next st ≤ Z.of_nat (length log);
  sl_events : ps_events st = take (Z.to_nat (ps_next st - first)) (drop (Z.to_nat first) log);
  sl_bytes : ps_events st = [] → ps_bytes st = 0 ∧ ps_decode st = 0;
  sl_pos : 0 ≤ ps_bytes st ∧ (ps_events st ≠ [] → 0 < ps_bytes st);
}.
Lemma slice_length log first st :
  0 ≤ first → Slice log first st → Z.of_nat (length (ps_events st)) = ps_next st - first.
Proof. intros Hf [Hr He _ _]. rewrite He, length_take, length_drop. lia. Qed.
Lemma slice_push log first st e bytes charge :
  0 ≤ first → Slice log first st → log !! Z.to_nat (ps_next st) = Some e → 0 < bytes →
  Slice log first (mkPageState (ps_events st ++ [e])%list (ps_bytes st + bytes) (ps_decode st + charge)
                     (ps_next st + 1) (decoded_one (ps_metrics st))).
Proof.
  intros Hf [Hr He Hb [H0 Hp]] Hl Hbytes. pose proof (lookup_lt_Some _ _ _ Hl). split; cbn.
  - lia.
  - rewrite He. replace (Z.to_nat (ps_next st + 1 - first)) with (S (Z.to_nat (ps_next st - first))) by lia.
    symmetry. apply take_S_r. rewrite lookup_drop, <- Hl. f_equal. lia.
  - intros E. by destruct (ps_events st).
  - split; [lia|]. intros _. lia.
Qed.
Lemma limits_events limits : limits_positive limits = true → (0 < max_page_events limits)%nat ∧ max_page_bytes limits ≠ 0.
Proof.
  unfold limits_positive. rewrite !andb_true_iff, !negb_true_iff, Nat.eqb_neq, !Z.eqb_neq. lia.
Qed.

Lemma page_lines_spec log limits first q evs st :
  limits_positive limits = true → 0 ≤ first → 0 ≤ q → all_good q evs →
  (∀ i e, evs !! i = Some e → log !! (Z.to_nat q + i)%nat = Some e) →
  Slice log first st → ps_next st = Z.max first q →
  match page_lines limits first q (lines q evs) st with
  | Ok (brk, st') => Slice log first st' ∧
      (if brk then ps_events st' ≠ [] else ps_next st' = Z.max first (q + Z.of_nat (length evs)))
  | Err e => limit_error e
  end.
Proof.
  intros Hlim Hf. destruct (limits_events _ Hlim) as [Hev _]. revert q st.
  induction evs as [|e evs IH]; intros q st Hq Hg Hlog Hs Hn; cbn [lines page_lines all_good length] in *.
  { split; [done|]. by rewrite Z.add_0_r. }
  destruct Hg as [He Hg].
  assert (Hrest : ∀ i x, evs !! i = Some x → log !! (Z.to_nat (q + 1) + i)%nat = Some x).
  { intros i x Hx. rewrite <- (Hlog (S i) x Hx). f_equal. lia. }
  replace (q + Z.of_nat (S (length evs))) with (q + 1 + Z.of_nat (length evs)) by lia.
  destruct (Z.ltb_spec q first) as [Hlt|Hge]; [apply IH; (done || lia)|].
  assert (Hnext : ps_next st = q) by lia.
  pose proof (Hlog 0%nat e eq_refl) as Hl. rewrite Nat.add_0_r in Hl.
  destruct (Nat.leb_spec (max_page_events limits) (length (ps_events st))) as [Hmax|_].
  { split; [done|]. intros E. rewrite E in Hmax. cbn in Hmax. lia. }
  destruct (_ <? size _ - 1); [done|].
  destruct (_ <? _ + size _); [destruct (ps_events st) eqn:E; [done|split; [done|congruence]]|].
  destruct (good_preflight _ _ He) as [charge Hc]. pose proof (preflight_bound _ _ _ Hc) as Hcb. rewrite Hc.
  destruct (Z.ltb_spec (MAX_JOURNAL_DECODE_BYTES - ps_decode st) charge) as [Hdec|_].
  { split; [done|]. intros E. apply (sl_bytes _ _ _ Hs) in E as [_ E]. lia. }
  assert (Hdecode : decode_page_event (line_at q e) (ps_next st) = Ok e) by (rewrite Hnext; by apply decode_page_good).
  rewrite Hdecode. apply IH; [lia|done|done| |cbn; lia].
  apply slice_push; [done|done|by rewrite Hnext|]. unfold line_at. rewrite size_app. change (size [LF]) with 1.
  pose proof (size_nonneg (default [] (serialize EVENT_SCHEMA_VERSION q e))). lia.
Qed.

Lemma page_segment_total d v limits s b log m :
  readable d v s b log → all_good 0 log →
  match page_segment_bytes d v limits s b m with
  | Ok (bytes, _) => bytes = seg_text log s
  | Err e => limit_error e
  end.
Proof.
  intros Hr Hg.
  destruct (Z.ltb_spec (max_scan_bytes limits) (bytes_read m + seg_bytes s)) as [Hb|Hb].
  { unfold page_segment_bytes. by rewrite (proj2 (Z.ltb_lt _ _) Hb). }
  destruct (Z.ltb_spec (max_scan_events limits) (records_scanned m + (seg_next s - seg_first s))) as [He|He].
  { unfold page_segment_bytes. by rewrite (proj2 (Z.ltb_ge _ _) Hb), (proj2 (Z.ltb_lt _ _) He). }
  by rewrite (page_segment_ok _ _ _ _ _ _ _ Hr Hg Hb He).
Qed.

Lemma seg_evs_log s log i e :
  0 ≤ seg_first s < seg_next s → seg_evs log s !! i = Some e → log !! (Z.to_nat (seg_first s) + i)%nat = Some e.
Proof.
  intros Hr. unfold seg_evs. intros H. pose proof (lookup_lt_Some _ _ _ H) as Hi. rewrite length_take in Hi.
  rewrite lookup_take_lt, lookup_drop in H by lia. done.
Qed.
Lemma page_segments_spec d v log limits first l q st :
  limits_positive limits = true → 0 ≤ max_page_bytes limits → 0 ≤ first → 0 ≤ q → all_good 0 log → covers d v log q l →
  Slice log first st → ps_next st = Z.max first q →
  match page_segments d v limits first l st with
  | Ok st' => Slice log first st' ∧ (ps_events st' ≠ [] ∨ ps_next st' = Z.of_nat (length log))
  | Err e => limit_error e
  end.
Proof.
  intros Hlim Hb0 Hf. destruct (limits_events _ Hlim) as [Hev Hby]. revert q st.
  induction l as [|[s b] l IH]; intros q st Hq Hg Hc Hs Hn; cbn [covers page_segments] in *.
  { split; [done|]. right. pose proof (sl_range _ _ _ Hs). lia. }
  destruct Hc as (Hfirst & Hr & Hc). pose proof (rd_range _ _ _ _ _ Hr) as Hrange. pose proof (rd_next _ _ _ _ _ Hr) as Hnext.
  destruct (_ || _) eqn:Estop.
  { split; [done|]. left. intros E. destruct (sl_bytes _ _ _ Hs E) as [Hz _]. rewrite E, Hz in Estop. cbn [length] in Estop.
    apply orb_prop in Estop as [H0%Nat.leb_le|H0%Z.leb_le]; lia. }
  destruct (Z.leb_spec (seg_next s) first) as [Hskip|Hskip].
  { apply (IH (seg_next s)); (done || lia). }
  pose proof (page_segment_total d v limits s b log (ps_metrics st) Hr Hg) as Hread.
  destruct (page_segment_bytes _ _ _ _ _ _) as [[bytes m]|e]; [|done]. rewrite Hread. cbn [fst snd].
  pose proof (seg_evs_good s log Hrange Hnext Hg) as Hgood. pose proof (seg_evs_length s log Hrange Hnext) as Hlen.
  unfold seg_text. rewrite split_encoded by done.
  assert (Hset : Slice log first (set_metrics st m)) by (destruct Hs; by split).
  pose proof (page_lines_spec log limits first (seg_first s) (seg_evs log s) (set_metrics st m) Hlim Hf
                (proj1 Hrange) Hgood (λ i e, seg_evs_log s log i e Hrange) Hset) as Hlines. cbn [set_metrics ps_next] in Hlines.
  specialize (Hlines ltac:(lia)).
  destruct (page_lines _ _ _ _ _) as [[brk st']|e]; [|done]. destruct Hlines as [Hs' Hbrk]. cbn [fst snd].
  destruct brk; [by split; [|left]|]. apply (IH (seg_next s)); try (done || lia).
Qed.

Definition page_first (after : option Z) : Z := match after with Some a => a + 1 | None => 0 end.
Lemma page_spec d c v log segs after limits :
  ViewOk d c v log segs → 0 ≤ max_page_bytes limits → 0 ≤ default 0 after →
  match page d c v after limits with
  | Ok (p, _) =>
      page_events p = take (length (page_events p)) (drop (Z.to_nat (page_first after)) log) ∧
      events_before_page p = page_first after ∧
      next_cursor p = (let next := page_first after + Z.of_nat (length (page_events p)) in
                       if next =? 0 then None else Some (next - 1)) ∧
      events_after_page p = Z.of_nat (length log) - page_first after - Z.of_nat (length (page_events p)) ∧
      has_more p = (0 <? events_after_page p) ∧
      (has_more p = true → page_events p ≠ [])
  | Err e => limit_error e
  end.
Proof.
  intros H Hb0 Ha. unfold page, checked_page_start.
  destruct (limits_positive limits) eqn:Hlim; cbn [negb]; [|done].
  assert (Hfirst : match after with Some sequence => ok_or (checked_add sequence 1) EventPageCursorAhead | None => Ok 0 end
                   = Ok (page_first after) ∨
                   match after with Some sequence => ok_or (checked_add sequence 1) EventPageCursorAhead | None => Ok 0 end
                   = Err EventPageCursorAhead).
  { destruct after as [a|]; [|by left]. unfold checked_add. destruct (_ <=? _); [by left|by right]. }
  assert (Hf0 : 0 ≤ page_first after) by (destruct after; cbn in *; lia).
  destruct Hfirst as [-> | ->]; [|done]. rewrite (vo_next _ _ _ _ _ H).
  destruct (Z.ltb_spec (Z.of_nat (length log)) (page_first after)) as [|Hle]; [done|].
  destruct (search _ _ _ _ _ (page_first after) H) as (k & -> & Hk & Hfrom & _ & _ & Hstart). cbn [ok_or]. rewrite Hfrom.
  specialize (Hstart Hf0).
  assert (Hs0 : Slice log (page_first after) (mkPageState [] 0 0 (page_first after) no_metrics)).
  { split; cbn; [lia|by rewrite Z.sub_diag|done|]. split; [lia|done]. }
  assert (Hq0 : 0 ≤ last_next (take k segs)).
  { unfold last_next. destruct (last (take k segs)) as [s|] eqn:E; [|lia]. apply last_Some_elem_of in E.
    apply elem_of_take in E as (i & Hi & _). pose proof (vo_segs _ _ _ _ _ H) as Hsegs. rewrite Forall_forall in Hsegs.
    destruct (Hsegs s) as [Hr _ _ _ _ _]; [by eapply list_elem_of_lookup_2|lia]. }
  pose proof (page_segments_spec d v log limits (page_first after) _ _ _ Hlim Hb0 Hf0 Hq0 (vo_good _ _ _ _ _ H)
                (covers_from _ _ _ _ _ _ H Hk) Hs0) as Hp. cbn [ps_next] in Hp. specialize (Hp ltac:(lia)).
  destruct (page_segments _ _ _ _ _ _) as [st|e]; [|done]. destruct Hp as [Hs Hprog].
  pose proof (slice_length _ _ _ Hf0 Hs) as Hlen. pose proof (sl_range _ _ _ Hs) as Hrange.
  destruct (Z.ltb_spec (ps_next st) (Z.of_nat (length log))) as [Hmore|Hno]; cbn [andb].
  - assert (Hne : ps_events st ≠ []) by (destruct Hprog; [done|lia]).
    destruct (sl_pos _ _ _ Hs) as [_ Hpos]. specialize (Hpos Hne). destruct (Z.eqb_spec (ps_bytes st) 0); [lia|].
    rewrite andb_false_r. cbn. replace (page_first after + Z.of_nat (length (ps_events st))) with (ps_next st) by lia.
    split_and!; try done; [|lia|symmetry; apply Z.ltb_lt; lia].
    rewrite (sl_events _ _ _ Hs) at 1. f_equal. lia.
  - cbn. replace (page_first after + Z.of_nat (length (ps_events st))) with (ps_next st) by lia.
    split_and!; try done; [|lia|symmetry; apply Z.ltb_ge; lia].
    rewrite (sl_events _ _ _ Hs) at 1. f_equal. lia.
Qed.

(** * The last page *)

Record TailSlice (log : list Event) (st : PageState) : Prop := mkTail {
  tl_range : 0 ≤ ps_next st ≤ Z.of_nat (length log);
  tl_events : ps_events st = drop (Z.to_nat (ps_next st)) log;
  tl_bytes : ps_events st = [] → ps_bytes st = 0 ∧ ps_decode st = 0;
  tl_pos : 0 ≤ ps_bytes st;
}.
Lemma decode_tail_good q e : good q e → decode_tail_event (line_at q e) q = Ok e.
Proof.
  intros He. destruct (line_one _ _ He) as (t & Ht & _ & ->). unfold decode_tail_event.
  by rewrite (from_slice_serialize _ _ _ _ Ht), !Z.eqb_refl.
Qed.
Lemma tail_lines_spec log limits q evs st :
  limits_positive limits = true → 0 ≤ q → all_good q evs →
  (∀ i e, evs !! i = Some e → log !! (Z.to_nat q + i)%nat = Some e) →
  TailSlice log st → ps_next st = q + Z.of_nat (length evs) →
  match tail_lines limits (Z.of_nat (length log)) (reverse (lines q evs)) st with
  | Ok (brk, st') => TailSlice log st' ∧ (if brk then ps_events st' ≠ [] else ps_next st' = q)
  | Err e => limit_error e
  end.
Proof.
  intros Hlim Hq. destruct (limits_events _ Hlim) as [Hev _]. revert st.
  induction evs as [|e evs IH] using rev_ind; intros st Hg Hlog Hs Hn.
  { split; [done|]. cbn in Hn. lia. }
  rewrite length_app in Hn. cbn [length] in Hn. apply all_good_app in Hg as [Hg [He _]].
  rewrite lines_app. cbn [lines]. rewrite reverse_snoc. cbn [tail_lines].
  set (n := q + Z.of_nat (length evs)) in *.
  assert (Hl : log !! Z.to_nat n = Some e).
  { rewrite <- (Hlog (length evs) e); [f_equal; lia|]. by rewrite lookup_app_r, Nat.sub_diag. }
  pose proof (lookup_lt_Some _ _ _ Hl) as Hnl.
  assert (Hlen : Z.of_nat (length (ps_events st)) = Z.of_nat (length log) - n - 1).
  { rewrite (tl_events _ _ Hs), length_drop. lia. }
  destruct (Nat.leb_spec (max_page_events limits) (length (ps_events st))) as [Hmax|_].
  { split; [done|]. intros E. rewrite E in Hmax. cbn in Hmax. lia. }
  destruct (_ <? size _ - 1); [done|].
  destruct (_ <? _ + size _); [destruct (ps_events st) eqn:E; [done|split; [done|congruence]]|].
  destruct (good_preflight _ _ He) as [charge Hc]. pose proof (preflight_bound _ _ _ Hc) as Hcb. rewrite Hc.
  destruct (Z.ltb_spec (MAX_JOURNAL_DECODE_BYTES - ps_decode st) charge) as [Hdec|_].
  { split; [done|]. intros E. apply (tl_bytes _ _ Hs) in E as [_ E]. lia. }
  replace (Z.of_nat (length log) - Z.of_nat (length (ps_events st)) - 1) with n by lia.
  rewrite decode_tail_good by done.
  apply IH; [done| | |cbn; lia].
  { intros i x Hx. apply Hlog. by apply lookup_app_l_Some. }
  split; cbn [ps_events ps_bytes ps_next ps_decode]; [lia| |done|].
  - rewrite (tl_events _ _ Hs). replace (Z.to_nat (ps_next st - 1)) with (Z.to_nat n) by lia.
    rewrite (drop_S _ _ _ Hl). do 2 f_equal. lia.
  - pose proof (tl_pos _ _ Hs). pose proof (size_nonneg (line_at n e)). lia.
Qed.

(** Segments that cover the log between two sequence numbers *)
Fixpoint tiles (d : Disk) (v : JournalReadView) (log : list Event) (q e : Z) (l : list (Segment * bool)) : Prop :=
  match l with
  | [] => q = e
  | (s, b) :: rest => seg_first s = q ∧ readable d v s b log ∧ tiles d v log (seg_next s) e rest
  end.
Lemma tiles_snoc d v log q e l s b :
  tiles d v log q e (l ++ [(s, b)]) → tiles d v log q (seg_first s) l ∧ readable d v s b log ∧ seg_next s = e.
Proof.
  revert q. induction l as [|[t c] l IH]; intros q; cbn [app tiles].
  - intros (<- & Hr & He). by split_and!.
  - intros (Hf & Hr & Ht). apply IH in Ht as (Ht & Hs & He). by split_and!.
Qed.
Lemma covers_tiles d v log q l : covers d v log q l → tiles d v log q (Z.of_nat (length log)) l.
Proof. revert q. induction l as [|[t c] l IH]; intros q; cbn; [done|]. intros (Hf & Hr & Ht). split_and!; [done|done|by apply IH]. Qed.

Lemma tail_segments_spec d v log limits l st :
  limits_positive limits = true → 0 ≤ max_page_bytes limits → all_good 0 log → view_next v = Z.of_nat (length log) →
  tiles d v log 0 (ps_next st) l → TailSlice log st →
  match tail_segments d v limits (reverse l) st with
  | Ok st' => TailSlice log st' ∧ (ps_events st' ≠ [] ∨ ps_next st' = 0)
  | Err e => limit_error e
  end.
Proof.
  intros Hlim Hb0 Hg Hv. destruct (limits_events _ Hlim) as [Hev Hby]. revert st.
  induction l as [|[s b] l IH] using rev_ind; intros st Ht Hs.
  { cbn in Ht. split; [done|]. by right. }
  apply tiles_snoc in Ht as (Ht & Hr & He). pose proof (rd_range _ _ _ _ _ Hr) as Hrange. pose proof (rd_next _ _ _ _ _ Hr) as Hnext.
  rewrite reverse_snoc. cbn [tail_segments]. destruct (_ || _) eqn:Estop.
  { split; [done|]. left. intros E. destruct (tl_bytes _ _ Hs E) as [Hz _]. rewrite E, Hz in Estop. cbn [length] in Estop.
    apply orb_prop in Estop as [H0%Nat.leb_le|H0%Z.leb_le]; lia. }
  pose proof (page_segment_total d v limits s b log (ps_metrics st) Hr Hg) as Hread.
  destruct (page_segment_bytes _ _ _ _ _ _) as [[bytes m]|e]; [|done]. rewrite Hread, Hv. cbn [fst snd].
  pose proof (seg_evs_good s log Hrange Hnext Hg) as Hgood. pose proof (seg_evs_length s log Hrange Hnext) as Hlen.
  unfold seg_text. rewrite split_encoded by done.
  assert (Hset : TailSlice log (set_metrics st m)) by (destruct Hs; by split).
  pose proof (tail_lines_spec log limits (seg_first s) (seg_evs log s) (set_metrics st m) Hlim
                (proj1 Hrange) Hgood (λ i e, seg_evs_log s log i e Hrange) Hset) as Hlines. cbn [set_metrics ps_next] in Hlines.
  specialize (Hlines ltac:(lia)).
  destruct (tail_lines _ _ _ _) as [[brk st']|e]; [|done]. destruct Hlines as [Hs' Hbrk]. cbn [fst snd].
  destruct brk; [by split; [|left]|]. apply IH; [by rewrite Hbrk|done].
Qed.
Lemma tail_spec d c v log segs limits :
  ViewOk d c v log segs → 0 ≤ max_page_bytes limits →
  match tail_page d c v limits with
  | Ok p => page_events p = drop (Z.to_nat (events_before_page p)) log ∧
            events_before_page p = Z.of_nat (length log) - Z.of_nat (length (page_events p)) ∧
            (log ≠ [] → page_events p ≠ [])
  | Err e => limit_error e
  end.
Proof.
  intros H Hb0. unfold tail_page. destruct (limits_positive limits) eqn:Hlim; cbn [negb]; [|done].
  pose proof (vo_next _ _ _ _ _ H) as Hn. destruct (vo_catalog _ _ _ _ _ H) as [rest Hrep].
  rewrite (segments_from_head _ _ _ _ _ Hrep (vo_count _ _ _ _ _ H)) by lia.
  set (l := (map (λ s, (s, false)) (drop 0 segs) ++ active_list v)%list).
  assert (Ht : tiles d v log 0 (Z.of_nat (length log)) l).
  { apply covers_tiles. exact (covers_from _ _ _ _ _ 0 H ltac:(lia)). }
  rewrite Hn. set (st0 := mkPageState [] 0 0 (Z.of_nat (length log)) no_metrics).
  assert (Hs0 : TailSlice log st0) by (split; cbn; [lia|by rewrite drop_ge by lia|done|lia]).
  pose proof (tail_segments_spec d v log limits l st0 Hlim Hb0 (vo_good _ _ _ _ _ H) Hn Ht Hs0) as Hp.
  destruct (tail_segments _ _ _ _ _) as [st|e]; [|done]. destruct Hp as [Hs Hprog]. cbn [page_events events_before_page].
  pose proof (tl_range _ _ Hs) as Hrange. assert (Hlen : Z.of_nat (length (ps_events st)) = Z.of_nat (length log) - ps_next st).
  { rewrite (tl_events _ _ Hs), length_drop. lia. }
  split_and!; [|done|].
  - rewrite (tl_events _ _ Hs) at 1. f_equal. lia.
  - intros Hne. destruct Hprog as [|H0]; [done|]. rewrite (tl_events _ _ Hs), H0. done.
Qed.

(** * Collecting a whole prefix *)

Lemma collect_loop_spec d c v log segs fuel (k : nat) :
  ViewOk d c v log segs → (k ≤ length log)%nat → (length log - k < fuel)%nat →
  match collect_loop fuel d c v (if Nat.eqb k 0 then None else Some (Z.of_nat k - 1)) (take k log) with
  | Ok events => events = log
  | Err e => limit_error e
  end.
Proof.
  intros H. revert k. induction fuel as [|fuel IH]; intros k Hk Hf; [lia|]. cbn [collect_loop].
  set (after := if Nat.eqb k 0 then None else Some (Z.of_nat k - 1)).
  assert (Hfirst : page_first after = Z.of_nat k) by (unfold after; destruct (Nat.eqb_spec k 0); cbn; lia).
  pose proof (page_spec d c v log segs after collect_limits H ltac:(by vm_compute)) as Hp.
  assert (Ha : 0 ≤ default 0 after) by (unfold after; destruct (Nat.eqb_spec k 0); cbn; lia). specialize (Hp Ha).
  destruct (page _ _ _ _ _) as [[p m]|e]; [|done]. cbn [fst].
  destruct Hp as (He & _ & Hcur & Hafter & Hmore & Hprog). rewrite Hfirst in *. rewrite Nat2Z.id in He.
  assert (Happ : (take k log ++ page_events p)%list = take (k + length (page_events p)) log).
  { rewrite He at 1. by rewrite take_take_drop. }
  assert (Hbound : (k + length (page_events p) ≤ length log)%nat).
  { rewrite He, length_take, length_drop. lia. }
  rewrite Happ. destruct (has_more p) eqn:Em.
  - specialize (Hprog eq_refl). assert ((0 < length (page_events p))%nat) by (destruct (page_events p); [done|cbn; lia]).
    rewrite Hcur. cbv zeta. specialize (IH (k + length (page_events p))%nat ltac:(lia) ltac:(lia)).
    rewrite (proj2 (Nat.eqb_neq (k + length (page_events p)) 0)), Nat2Z.inj_add in IH by lia.
    destruct (Z.eqb_spec (Z.of_nat k + Z.of_nat (length (page_events p))) 0); [lia|]. exact IH.
  - symmetry in Hmore. apply Z.ltb_ge in Hmore. rewrite take_ge by lia. done.
Qed.

(** * Full verification *)

Lemma verify_segments_spec d v log l q acc :
  0 ≤ q → all_good 0 log → Z.of_nat (length log) ≤ u64_max → covers d v log q l →
  verify_segments d v l q acc = Ok (Z.of_nat (length log), acc + sum_Z (map (λ x, seg_bytes x.1) l)).
Proof.
  intros Hq Hg Hmax. revert q acc Hq. induction l as [|[s b] l IH]; intros q acc Hq; cbn [covers verify_segments map].
  { intros ->. by rewrite Z.add_0_r. }
  intros (Hf & Hr & Hc). pose proof (rd_range _ _ _ _ _ Hr) as Hrange. pose proof (rd_next _ _ _ _ _ Hr) as Hnext.
  pose proof (seg_evs_length s log Hrange Hnext) as Hlen. pose proof (seg_evs_good s log Hrange Hnext Hg) as Hgood.
  destruct (segment_read_ok _ _ _ _ _ Hr) as (file & more & -> & -> & _). subst q.
  unfold validate_events_from_sequence, seg_text. rewrite split_encoded by done. rewrite validate_good by (done || lia).
  rewrite Hlen. replace (seg_first s + (seg_next s - seg_first s)) with (seg_next s) by lia. rewrite Z.eqb_refl. cbn [negb].
  rewrite IH by (done || lia). unfold sum_Z. cbn [foldr fst]. do 2 f_equal. lia.
Qed.
Lemma verify_inv d j log segs :
  Inv d j log segs → verify_all d (segments j) (read_view j) = Ok (next_sequence j, view_total_bytes (read_view j)).
Proof.
  intros H. pose proof (view_of_inv _ _ _ _ H) as Hv. pose proof (inv_layout _ _ _ _ H) as Hlay. unfold verify_all.
  destruct (vo_catalog _ _ _ _ _ Hv) as [rest Hrep].
  rewrite (segments_from_head _ _ _ _ _ Hrep (vo_count _ _ _ _ _ Hv)) by lia.
  pose proof (covers_from _ _ _ _ _ 0 Hv ltac:(lia)) as Hc.
  rewrite (verify_segments_spec _ _ log) by (done || lia || apply Hlay). rewrite (inv_next _ _ _ _ H). do 2 f_equal.
  rewrite drop_0, map_app, sum_Z_app, map_map. cbn [fst]. fold (total_bytes_of segs).
  unfold read_view. cbn [view_total_bytes view_segment]. rewrite (inv_sealed _ _ _ _ H).
  destruct (Z.ltb_spec 0 (active_bytes j)); unfold active_list, sum_Z, total_bytes_of; cbn [view_segment map foldr fst seg_bytes];
    change (map (λ x : Segment, seg_bytes x) segs) with (map seg_bytes segs); change (foldr Z.add 0 ?l) with (sum_Z l);
    [lia|]. pose proof (size_nonneg (active_text log segs)).
  rewrite (inv_bytes _ _ _ _ H) in *. lia.
Qed.

(** * Historical prefixes *)

Lemma nth_lf_skip t i rest : LF ∉ t → nth_lf i (t ++ LF :: rest)%list =
  match i with O => Some (length t) | S k => (λ n, (length t + S n)%nat) <$> nth_lf k rest end.
Proof.
  induction t as [|c t IH]; intros Ht; cbn [app nth_lf length].
  - rewrite Ascii.eqb_refl. destruct i as [|k]; [done|]. by destruct (nth_lf k rest).
  - apply not_elem_of_cons in Ht as [Hc Ht]. destruct (Ascii.eqb_spec c LF) as [->|_]; [done|]. rewrite IH by done.
    destruct i as [|k]; [done|]. by destruct (nth_lf k rest).
Qed.
Lemma nth_lf_encoded a l i :
  all_good a l → (i < length l)%nat → S <$> nth_lf i (encoded a l) = Some (length (encoded a (take (S i) l))).
Proof.
  revert a i. induction l as [|e l IH]; intros a i; cbn [all_good length]; [lia|]. intros [He Hl] Hi.
  destruct (line_one _ _ He) as (t & _ & Ht & E). unfold encoded. cbn [take lines concat]. rewrite E, <- (assoc_L (++)). cbn [app].
  rewrite nth_lf_skip by done. destruct i as [|k].
  - rewrite take_0. cbn [lines concat fmap option_fmap option_map]. rewrite !length_app. cbn [length]. f_equal. lia.
  - fold (encoded (a + 1) l). specialize (IH (a + 1) k Hl ltac:(lia)). destruct (nth_lf k (encoded (a + 1) l)) as [n|]; [|done].
    injection IH as IH. cbn. rewrite !length_app. unfold encoded in IH. rewrite <- IH. cbn. f_equal. lia.
Qed.

Lemma partition_ext c count p p' : (∀ s, p s = p' s) → partition c count p = partition c count p'.
Proof.
  intros E. unfold partition. generalize count at 1 3 as fuel. generalize 0%nat as left. generalize count as right. intros right left fuel.
  revert left right. induction fuel as [|fuel IH]; intros left right; cbn [partition_loop]; [done|].
  destruct (Nat.ltb left right); [|done]. destruct (catalog_get c _) as [s|]; [|done]. cbn [mbind option_bind].
  rewrite E. by destruct (p' s).
Qed.

(** The view of the first [n] events *)
Definition prefix_view (k : nat) (file : Inode) (segs : list Segment) (log : list Event) (n : Z) (name : string) : JournalReadView :=
  let first := last_next (take k segs) in
  let text := encoded first (take (Z.to_nat (n - first)) (drop (Z.to_nat first) log)) in
  let s := mkSegment first n (size text) (hash text) name in
  mkView k file (Some s) n (total_bytes_of (take k segs) + size text)
    (mkIdentity n (extend_identity s (chain (hash []) (take k segs)))).

Lemma prefix_spec d c v log segs n :
  ViewOk d c v log segs → 0 < n ≤ Z.of_nat (length log) →
  ∃ k s b file more, prefix_at d c v n = Ok (prefix_view k file segs log n (seg_name s)) ∧ (k ≤ length segs)%nat ∧
    readable d v s b log ∧ last_next (take k segs) = seg_first s ∧ seg_first s < n ≤ seg_next s ∧
    contents d !! file = Some (seg_text log s ++ more)%list ∧
    (if b then file = view_active v else names d !! seg_name s = Some file) ∧
    (∀ i t, (i < k)%nat → segs !! i = Some t → seg_next t < n) ∧ (∀ i t, (k ≤ i)%nat → segs !! i = Some t → n ≤ seg_next t).
Proof.
  intros H Hn. destruct (locate _ _ _ _ _ (n - 1) H ltac:(lia))
    as (k & s & b & rest & Hpart & Hk & Hfrom & Hr & Hin & Hfirst & Hlo & Hhi & Hb).
  destruct (segment_read_ok _ _ _ _ _ Hr) as (file & more & Hfile & Hread & Hc & Hname).
  pose proof (vo_catalog _ _ _ _ _ H) as [rest' Hrep]. pose proof (vo_count _ _ _ _ _ H) as Hcount.
  exists k, s, b, file, more. split_and!; try done; try lia.
  2: { intros i t Hi Ht. specialize (Hlo i t Hi Ht). lia. }
  2: { intros i t Hi Ht. specialize (Hhi i t Hi Ht). lia. }
  unfold prefix_at. rewrite (vo_next _ _ _ _ _ H). destruct (Z.ltb_spec (Z.of_nat (length log)) n); [lia|].
  destruct (Z.eqb_spec n 0); [lia|].
  rewrite (partition_ext c (view_count v) (λ s, seg_next s <? n) (λ s, seg_next s <=? n - 1)) by (intros t; lia).
  rewrite Hpart. cbn [ok_or].
  assert (Hbound : match (if Nat.ltb k (view_count v) then catalog_get c k else None) with
                   | Some s => Ok (s, false)
                   | None => match view_segment v with Some s => Ok (s, true) | None => Err (CorruptEvent "missing journal prefix boundary") end
                   end = Ok (s, b)).
  { rewrite Hcount. destruct b.
    - destruct Hb as [-> ->]. by rewrite Nat.ltb_irrefl.
    - pose proof (lookup_lt_Some _ _ _ Hb) as Hlt. rewrite (proj2 (Nat.ltb_lt _ _) Hlt), (repseg_get _ _ _ Hrep).
      rewrite lookup_app_l by done. by rewrite Hb. }
  rewrite Hbound. cbn [fst snd]. rewrite Hfile, Hread. destruct (Z.ltb_spec n (seg_first s)); [lia|].
  pose proof (rd_range _ _ _ _ _ Hr) as Hrange. pose proof (rd_next _ _ _ _ _ Hr) as Hnext.
  pose proof (seg_evs_length s log Hrange Hnext) as Hlen. pose proof (seg_evs_good s log Hrange Hnext (vo_good _ _ _ _ _ H)) as Hgood.
  destruct (Z.to_nat (n - seg_first s)) as [|m] eqn:Em; [lia|].
  pose proof (nth_lf_encoded (seg_first s) (seg_evs log s) m Hgood ltac:(lia)) as Hlf. fold (seg_text log s) in Hlf.
  destruct (nth_lf m (seg_text log s)) as [offset|]; [|done]. injection Hlf as Hlf.
  rewrite Hlf, (repseg_prefix _ _ _ Hrep) by (rewrite length_app; lia). cbn [ok_or fst snd].
  rewrite take_app_le by done. unfold prefix_view. rewrite <- Hfirst, Em.
  assert (Ht : take (length (encoded (seg_first s) (take (S m) (seg_evs log s)))) (seg_text log s) =
               encoded (seg_first s) (take (S m) (seg_evs log s))).
  { unfold seg_text. rewrite <- (take_drop (S m) (seg_evs log s)) at 2. rewrite encoded_app. by rewrite take_app_length. }
  rewrite Ht. unfold seg_evs. rewrite take_take. replace (S m `min` Z.to_nat (seg_next s - seg_first s))%nat with (S m) by lia.
  done.
Qed.

Lemma seg_evs_take log n t :
  0 ≤ seg_first t < seg_next t → seg_next t ≤ n → n ≤ Z.of_nat (length log) →
  seg_evs (take (Z.to_nat n) log) t = seg_evs log t.
Proof.
  intros Hr Hn Hl. rewrite <- (take_drop (Z.to_nat n) log) at 2. symmetry. apply seg_evs_app; [lia|].
  rewrite length_take. lia.
Qed.
Lemma readable_take d v v' s log n :
  readable d v s false log → seg_next s ≤ n → n ≤ Z.of_nat (length log) → readable d v' s false (take (Z.to_nat n) log).
Proof.
  intros [Hr Hnx Hb Hroom Hd Hf] Hn Hl. assert (E : seg_text (take (Z.to_nat n) log) s = seg_text log s).
  { unfold seg_text. by rewrite seg_evs_take. }
  split; rewrite ?E; try done. rewrite length_take. lia.
Qed.
Lemma contiguous_take k e segs : contiguous e segs = true → contiguous e (take k segs) = true.
Proof.
  revert e k. induction segs as [|s segs IH]; intros e [|k]; cbn [take contiguous]; try done.
  intros [-> Hc]%andb_prop. by apply IH.
Qed.

Lemma prefix_view_ok d j log segs n :
  Inv d j log segs → 0 < n ≤ Z.of_nat (length log) →
  ∃ k file name, prefix_at d (segments j) (read_view j) n = Ok (prefix_view k file segs log n name) ∧
    ViewOk d (segments j) (prefix_view k file segs log n name) (take (Z.to_nat n) log) (take k segs) ∧ (k ≤ length segs)%nat ∧
    (∀ i t, (i < k)%nat → segs !! i = Some t → seg_next t < n) ∧ (∀ i t, (k ≤ i)%nat → segs !! i = Some t → n ≤ seg_next t).
Proof.
  intros H Hn. pose proof (view_of_inv _ _ _ _ H) as Hv. pose proof (inv_layout _ _ _ _ H) as Hlay.
  destruct (prefix_spec _ _ _ _ _ _ Hv Hn) as (k & s & b & file & more & Hp & Hk & Hr & Hfirst & Hin & Hc & Hname & Hlo & Hhi).
  exists k, file, (seg_name s). split_and!; try done.
  pose proof (rd_range _ _ _ _ _ Hr) as Hrange. pose proof (rd_next _ _ _ _ _ Hr) as Hnext.
  assert (Hlen : length (take (Z.to_nat n) log) = Z.to_nat n) by (rewrite length_take_le; lia).
  split; unfold prefix_view; cbn [view_count view_next view_active view_segment].
  - exists (drop k segs). rewrite take_drop. apply H.
  - rewrite length_take_le; lia.
  - pose proof (vo_segs _ _ _ _ _ Hv) as Hsegs. rewrite Forall_forall in Hsegs |- *. intros t Ht.
    apply elem_of_take in Ht as (i & Hi & Hik). eapply readable_take; [by apply Hsegs, list_elem_of_lookup_2 with i| |lia].
    specialize (Hlo i t Hik Hi). lia.
  - apply contiguous_take, Hv.
  - lia.
  - pose proof (vo_good _ _ _ _ _ Hv) as Hg. rewrite <- (take_drop (Z.to_nat n) log), all_good_app in Hg. apply Hg.
  - destruct b; [subst file; apply (vo_fresh _ _ _ _ _ Hv)|]. by eapply (lay_fresh _ _ _ Hlay).
  - lia.
  - cbn [seg_first seg_next]. split_and!; [|done|lia].
    set (text := encoded _ _).
    assert (Etext : seg_evs (take (Z.to_nat n) log) (mkSegment (last_next (take k segs)) n (size text) (hash text) (seg_name s)) =
                    take (Z.to_nat (n - last_next (take k segs))) (drop (Z.to_nat (last_next (take k segs))) log)).
    { unfold seg_evs. cbn [seg_first seg_next]. rewrite skipn_firstn_comm, take_take. f_equal. lia. }
    assert (Hsplit : ∃ t, seg_text log s = (text ++ t)%list).
    { unfold seg_text, text, seg_evs. rewrite Hfirst.
      set (l := drop (Z.to_nat (seg_first s)) log).
      replace (take (Z.to_nat (seg_next s - seg_first s)) l) with
        (take (Z.to_nat (n - seg_first s)) l ++ take (Z.to_nat (seg_next s - n)) (drop (Z.to_nat (n - seg_first s)) l))%list.
      - rewrite encoded_app. eauto.
      - rewrite take_take_drop. f_equal. lia. }
    destruct Hsplit as [t Ht].
    split; cbn [seg_first seg_next seg_bytes seg_digest]; unfold seg_text; rewrite ?Etext; try done.
    + rewrite Hfirst. lia.
    + lia.
    + pose proof (rd_room _ _ _ _ _ Hr) as Hroom. rewrite (rd_bytes _ _ _ _ _ Hr), Ht, size_app in Hroom.
      pose proof (size_nonneg t). cbn [seg_first]. fold text. lia.
    + exists (t ++ more)%list. cbn [view_active seg_first]. fold text. by rewrite Hc, Ht, (assoc_L (++)).
Qed.

(** * Prefixes captured earlier *)

Lemma extend_identity_ext f n b h name name' p :
  extend_identity (mkSegment f n b h name) p = extend_identity (mkSegment f n b h name') p.
Proof. done. Qed.
Lemma take_log (log more : list Event) : take (Z.to_nat (Z.of_nat (length log))) (log ++ more) = log.
Proof. rewrite Nat2Z.id. by rewrite take_app_length. Qed.

(** Where a captured prefix ends among the later segments: with the segments it
    had and a part of the next one, or with the last of its own segments *)
Lemma prefix_cut_open d j log segs more segs' k :
  Inv d j log segs → 0 < active_bytes j → grown log segs segs' → (k ≤ length segs')%nat →
  (∀ i t, (i < k)%nat → segs' !! i = Some t → seg_next t < Z.of_nat (length log)) →
  (∀ i t, (k ≤ i)%nat → segs' !! i = Some t → Z.of_nat (length log) ≤ seg_next t) →
  take k segs' = segs ∧
  encoded (last_next segs) (take (Z.to_nat (Z.of_nat (length log) - last_next segs)) (drop (Z.to_nat (last_next segs)) (log ++ more)))
  = active_text log segs.
Proof.
  intros H Hpos (rest & -> & Hrest) Hk Hlo Hhi. pose proof (inv_layout _ _ _ _ H) as Hlay.
  pose proof (last_next_range _ _ _ Hlay) as Hrange.
  pose proof (sealed_valid _ _ _ _ H Hpos) as (_ & _ & Hlt & _). cbn in Hlt. rewrite (inv_first _ _ _ _ H), (inv_next _ _ _ _ H) in Hlt.
  pose proof (view_of_inv _ _ _ _ H) as Hv.
  assert (k = length segs) as ->.
  { destruct (Nat.lt_trichotomy k (length segs)) as [Hl|[Hl|Hl]]; [exfalso|done|exfalso].
    - destruct (lookup_lt_is_Some_2 segs k Hl) as [t Ht]. assert (Ht' : (segs ++ rest)%list !! k = Some t) by (by rewrite lookup_app_l).
      specialize (Hhi k t ltac:(lia) Ht'). assert (seg_next t ≤ last_next segs); [|lia].
      unfold last_next. rewrite last_lookup. destruct (lookup_lt_is_Some_2 segs (pred (length segs))) as [u Hu]; [lia|]. rewrite Hu.
      eapply (view_order _ _ _ _ _ k (pred (length segs))); [exact Hv|lia|done|done].
    - rewrite length_app in Hk. destruct rest as [|t rest]; [cbn in Hk; lia|].
      assert (Ht' : (segs ++ t :: rest)%list !! length segs = Some t) by (rewrite lookup_app_r, Nat.sub_diag by lia; done).
      specialize (Hlo _ _ Hl Ht'). apply Forall_cons in Hrest as [Ht _]. lia. }
  rewrite take_app_length. split; [done|]. unfold active_text, active_evs. f_equal.
  rewrite drop_app_le by lia. rewrite take_app_le by (rewrite length_drop; lia).
  apply take_ge. rewrite length_drop. lia.
Qed.
Lemma prefix_cut_sealed d j log init t segs' k :
  Inv d j log (init ++ [t]) → seg_next t = Z.of_nat (length log) → grown log (init ++ [t]) segs' → (k ≤ length segs')%nat →
  (∀ i t, (i < k)%nat → segs' !! i = Some t → seg_next t < Z.of_nat (length log)) →
  (∀ i t, (k ≤ i)%nat → segs' !! i = Some t → Z.of_nat (length log) ≤ seg_next t) →
  take k segs' = init.
Proof.
  intros H Hn (rest & -> & Hrest) Hk Hlo Hhi. pose proof (view_of_inv _ _ _ _ H) as Hv. rewrite <- (assoc_L (++)) in *. cbn [app] in *.
  assert (Ht : (init ++ t :: rest)%list !! length init = Some t) by (rewrite lookup_app_r, Nat.sub_diag by lia; done).
  assert (k = length init) as ->; [|by rewrite take_app_length].
  destruct (Nat.lt_trichotomy k (length init)) as [Hl|[Hl|Hl]]; [exfalso|done|exfalso].
  - destruct (lookup_lt_is_Some_2 init k Hl) as [u Hu]. assert (Hu' : (init ++ t :: rest)%list !! k = Some u) by (by rewrite lookup_app_l).
    specialize (Hhi k u ltac:(lia) Hu').
    pose proof (vo_contiguous _ _ _ _ _ Hv) as Hcont. apply contiguous_snoc in Hcont as [_ Hft].
    pose proof (vo_segs _ _ _ _ _ Hv) as Hsegs. rewrite Forall_forall in Hsegs.
    destruct (Hsegs t ltac:(set_solver)) as [Hrt _ _ _ _ _].
    rewrite last_lookup in Hft. destruct (lookup_lt_is_Some_2 init (pred (length init))) as [w Hw]; [lia|]. rewrite Hw in Hft.
    assert (seg_next u ≤ seg_next w); [|lia].
    eapply (view_order _ _ _ _ _ k (pred (length init))); [exact Hv|lia|by rewrite lookup_app_l|rewrite lookup_app_l; [done|lia]].
  - specialize (Hlo _ _ Hl Ht). lia.
Qed.

(** The identity captured with a view is the one its prefix has later. *)
Lemma identity_found d j log segs d' j' more segs' k file name :
  Inv d j log segs → Inv d' j' (log ++ more) segs' → grown log segs segs' → (0 < length log)%nat → (k ≤ length segs')%nat →
  (∀ i t, (i < k)%nat → segs' !! i = Some t → seg_next t < Z.of_nat (length log)) →
  (∀ i t, (k ≤ i)%nat → segs' !! i = Some t → Z.of_nat (length log) ≤ seg_next t) →
  view_identity (prefix_view k file segs' (log ++ more) (Z.of_nat (length log)) name) = view_identity (read_view j).
Proof.
  intros H H' Hg Hpos Hk Hlo Hhi. unfold prefix_view, read_view. cbn [view_identity].
  rewrite (inv_next _ _ _ _ H). f_equal. rewrite (inv_identity _ _ _ _ H).
  destruct (Z.ltb_spec 0 (active_bytes j)) as [Hact|Hact].
  - destruct (prefix_cut_open _ _ _ _ more _ _ H Hact Hg Hk Hlo Hhi) as [-> ->].
    rewrite (inv_first _ _ _ _ H), (inv_bytes _ _ _ _ H), (inv_hash _ _ _ _ H). apply extend_identity_ext.
  - pose proof (active_evs_length _ _ _ (inv_layout _ _ _ _ H)) as Hlen.
    assert (Hlast : last_next segs = Z.of_nat (length log)).
    { destruct (active_evs log segs) eqn:E; [cbn in Hlen; lia|]. rewrite (inv_bytes _ _ _ _ H) in Hact.
      pose proof (encoded_nonempty (last_next segs) (active_evs log segs)) as Hne. unfold active_text in Hact.
      rewrite E in *. specialize (Hne ltac:(done)). lia. }
    destruct segs as [|t init _] using rev_ind; [cbn in Hlast; lia|]. rewrite last_next_snoc in Hlast.
    pose proof (prefix_cut_sealed _ _ _ _ _ _ _ H Hlast Hg Hk Hlo Hhi) as ->.
    unfold chain. rewrite fold_left_app. cbn [fold_left].
    pose proof (lay_segs _ _ _ (inv_layout _ _ _ _ H)) as Hs. apply Forall_app in Hs as [_ Hs].
    apply Forall_cons in Hs as [[Hv _ Hb Hd Hnx] _].
    pose proof (lay_contiguous _ _ _ (inv_layout _ _ _ _ H)) as Hc. apply contiguous_snoc in Hc as [_ Hft].
    change (match last init with Some t => _ | None => _ end) with (last_next init) in Hft. rewrite <- Hft.
    assert (Htext : encoded (seg_first t) (take (Z.to_nat (Z.of_nat (length log) - seg_first t))
              (drop (Z.to_nat (seg_first t)) (log ++ more))) = seg_text log t).
    { unfold seg_text, seg_evs. rewrite Hlast. f_equal. pose proof Hv as ((Hf0 & _) & _ & Hlt & _).
      rewrite drop_app_le by lia. by rewrite take_app_le by (rewrite length_drop; lia). }
    rewrite Htext, <- Hb, <- Hd, <- Hlast. by destruct t.
Qed.

(** What appends do to the log and the segments *)
Definition continues (log : list Event) (segs : list Segment) (d : Disk) (j : SegmentedJournal) : Prop :=
  poisoned j = true ∨ ∃ more segs', Inv d j (log ++ more) segs' ∧ grown log segs segs'.
Lemma continues_append log segs io d j evs d' j' r :
  continues log segs d j → append_batch io d j evs = (d', j', r) → continues log segs d' j'.
Proof.
  intros [Hp|(more & segs' & H & Hg)] E.
  { destruct (append_poisoned _ _ _ _ _ _ _ Hp E) as (-> & -> & _). by left. }
  pose proof (append_spec _ _ _ _ _ _ _ _ _ H E) as [Ha _]. unfold appended in Ha. destruct r.
  - destruct Ha as (segs'' & H'' & Hg''). right. exists (more ++ evs)%list, segs''. rewrite (assoc_L (++)). split; [done|].
    by eapply grown_trans.
  - destruct Ha as [(segs'' & H'' & Hg'')|[Hp _]]; [|by left]. right. exists more, segs''. split; [done|]. by eapply grown_trans.
Qed.
Lemma continues_later log segs x y :
  later_appends x y → continues log segs x.1 x.2 → continues log segs y.1 y.2.
Proof.
  induction 1 as [|x z y (io & evs & r & E) _ IH]; [done|]. intros H. apply IH. by eapply continues_append.
Qed.

Lemma prefix_at_zero d c v :
  0 ≤ view_next v → prefix_at d c v 0 = Ok (mkView 0 (view_active v) None 0 0 empty_identity).
Proof. intros H. unfold prefix_at. destruct (Z.ltb_spec (view_next v) 0); [lia|done]. Qed.
Lemma empty_view d j log segs : Inv d j log segs → ViewOk d (segments j) (mkView 0 (active j) None 0 0 empty_identity) [] [].
Proof.
  intros H. split; cbn; try done.
  - exists segs. apply H.
  - apply (lay_fresh _ _ _ (inv_layout _ _ _ _ H) _ _ (inv_name _ _ _ _ H)).
Qed.

End pages.

(** Pages are exact.  On every journal that was reached, a page read from a
    cursor either reports a limit of the caller, or returns consecutive events:
    the record reads at the sequence numbers after the cursor, with the counts
    before and after it and the cursor to go on with; while events remain, a page
    is not empty, so that paging ends. *)
Theorem page_exact `{B : Blake3} `{C : Codec} s after limits :
  journal_reachable s → poisoned (sys_journal s) = false → 0 ≤ max_page_bytes limits → 0 ≤ default 0 after →
  match page (sys_disk s) (segments (sys_journal s)) (read_view (sys_journal s)) after limits with
  | Err e => limit_error e
  | Ok (p, _) =>
      let first := page_first after in
      (∀ i e, page_events p !! i = Some e →
         ∃ charge, record_with_decode_limit (sys_disk s) (segments (sys_journal s)) (read_view (sys_journal s))
                     (first + Z.of_nat i) MAX_JOURNAL_DECODE_BYTES = Ok (e, charge)) ∧
      events_before_page p = first ∧
      first + Z.of_nat (length (page_events p)) + events_after_page p = next_sequence (sys_journal s) ∧
      next_cursor p = (if first + Z.of_nat (length (page_events p)) =? 0 then None
                       else Some (first + Z.of_nat (length (page_events p)) - 1)) ∧
      has_more p = (0 <? events_after_page p) ∧ (has_more p = true → page_events p ≠ [])
  end.
Proof.
  intros (log & _ & [(_ & segs & H)|(Hp & _)])%reachable_good Hnp Hb Ha; [|congruence].
  pose proof (view_of_inv _ _ _ _ H) as Hv. pose proof (page_spec _ _ _ _ _ _ _ Hv Hb Ha) as Hpage.
  destruct (page _ _ _ _ _) as [[p m]|e]; [|done]. destruct Hpage as (He & Hbefore & Hcur & Hafter & Hmore & Hprog).
  assert (Hf0 : 0 ≤ page_first after) by (destruct after; cbn in *; lia).
  split_and!; try done; [|rewrite (inv_next _ _ _ _ H); lia].
  intros i e Hi. rewrite (record_spec _ _ _ _ _ _ _ Hv) by lia. rewrite He in Hi.
  pose proof (lookup_lt_Some _ _ _ Hi) as Hlt. rewrite length_take in Hlt. rewrite lookup_take_lt, lookup_drop in Hi by lia.
  replace (page_first after + Z.of_nat i) with (Z.of_nat (Z.to_nat (page_first after) + i)) by lia.
  apply record_result_max; [apply (vo_good _ _ _ _ _ Hv)|done].
Qed.

(** The last page ends at the tail.  On every journal that was reached, it
    either reports a limit of the caller or returns the final events, the record
    reads at the sequence numbers up to the last one; it is empty only for an
    empty journal. *)
Theorem tail_page_exact `{B : Blake3} `{C : Codec} s limits :
  journal_reachable s → poisoned (sys_journal s) = false → 0 ≤ max_page_bytes limits →
  match tail_page (sys_disk s) (segments (sys_journal s)) (read_view (sys_journal s)) limits with
  | Err e => limit_error e
  | Ok p =>
      (∀ i e, page_events p !! i = Some e →
         ∃ charge, record_with_decode_limit (sys_disk s) (segments (sys_journal s)) (read_view (sys_journal s))
                     (events_before_page p + Z.of_nat i) MAX_JOURNAL_DECODE_BYTES = Ok (e, charge)) ∧
      events_before_page p + Z.of_nat (length (page_events p)) = next_sequence (sys_journal s) ∧
      (page_events p = [] → next_sequence (sys_journal s) = 0)
  end.
Proof.
  intros (log & _ & [(_ & segs & H)|(Hp & _)])%reachable_good Hnp Hb; [|congruence].
  pose proof (view_of_inv _ _ _ _ H) as Hv. pose proof (tail_spec _ _ _ _ _ _ Hv Hb) as Htail.
  destruct (tail_page _ _ _ _) as [p|e]; [|done]. destruct Htail as (He & Hbefore & Hne). rewrite (inv_next _ _ _ _ H).
  assert (Hlen : (length (page_events p) ≤ length log)%nat) by (rewrite He, length_drop; lia).
  split_and!; [|lia|].
  - intros i e Hi. rewrite (record_spec _ _ _ _ _ _ _ Hv) by lia. rewrite He, lookup_drop in Hi.
    replace (events_before_page p + Z.of_nat i) with (Z.of_nat (Z.to_nat (events_before_page p) + i)) by lia.
    apply record_result_max; [apply (vo_good _ _ _ _ _ Hv)|done].
  - intros E. destruct log; [done|]. by destruct Hne.
Qed.

(** Collecting a prefix ends and is complete.  Within the caller's byte and
    event limits the loop of pages ends, never for lack of fuel, with every event
    of the journal in order, or with a limit of the page reads. *)
Theorem collect_complete `{B : Blake3} `{C : Codec} s max_bytes max_events :
  journal_reachable s → poisoned (sys_journal s) = false →
  match collect_bounded (sys_disk s) (segments (sys_journal s)) (read_view (sys_journal s)) max_bytes max_events with
  | Err e => limit_error e ∨ e = EventLogTooLarge max_bytes ∨ e = EventCountTooLarge max_events
  | Ok events =>
      Z.of_nat (length events) = next_sequence (sys_journal s) ∧
      ∀ i e, events !! i = Some e →
        ∃ charge, record_with_decode_limit (sys_disk s) (segments (sys_journal s)) (read_view (sys_journal s))
                    (Z.of_nat i) MAX_JOURNAL_DECODE_BYTES = Ok (e, charge)
  end.
Proof.
  intros (log & _ & [(_ & segs & H)|(Hp & _)])%reachable_good Hnp; [|congruence].
  pose proof (view_of_inv _ _ _ _ H) as Hv. unfold collect_bounded. destruct (_ <? _); [auto|]. destruct (_ <? _); [auto|].
  pose proof (collect_loop_spec _ _ _ _ _ (S (Z.to_nat (view_next (read_view (sys_journal s))))) 0 Hv) as Hc.
  rewrite (vo_next _ _ _ _ _ Hv) in *. specialize (Hc ltac:(lia) ltac:(lia)). cbn [Nat.eqb take] in Hc.
  destruct (collect_loop _ _ _ _ _ _) as [events|e]; [subst events|by left]. rewrite (inv_next _ _ _ _ H). split; [done|].
  intros i e Hi. rewrite (record_spec _ _ _ _ _ _ _ Hv) by lia. apply record_result_max; [apply (vo_good _ _ _ _ _ Hv)|done].
Qed.

(** An offline capture sees what the writer would recover.  A view captured
    without the writer is the view that opening the journal and reading it gives,
    with the same catalog, and opening changes nothing on disk. *)
Theorem offline_view_agrees `{B : Blake3} `{C : Codec} d c v :
  from_directory d = Ok (c, v) → ∃ j, open true d = Ok (d, j) ∧ segments j = c ∧ read_view j = v ∧ poisoned j = false.
Proof.
  unfold from_directory, open. destruct (catalog d) as [segs|]; [|done]. destruct (from_segments segs) as [entries|]; [|done].
  cbn [ok_or]. destruct (names d !! "active.jsonl"%string) as [file|] eqn:En; [|done]. cbn [ok_or].
  unfold create_file. rewrite En. destruct (_ <? size _); [done|].
  set (bytes := read_inode d file).
  assert (Htorn : negb (size bytes =? 0) && negb (bool_decide (last bytes = Some LF)) = false →
                  match last bytes with Some c => negb (Ascii.eqb c LF) | None => false end = false).
  { destruct bytes as [|x bytes _] using rev_ind; [done|]. rewrite last_snoc.
    destruct (Z.eqb_spec (size (bytes ++ [x])%list) 0) as [E|_]; [unfold size in E; rewrite length_app in E; cbn in E; lia|].
    cbn [negb andb]. rewrite negb_false_iff, bool_decide_eq_true. intros [= ->]. by rewrite Ascii.eqb_refl. }
  destruct (_ && _); [done|]. rewrite Htorn by done. cbn [andb].
  set (first := match len entries with O => 0 | S _ => _ end).
  destruct (validate_events_from_sequence bytes first) as [next|]; [|done].
  destruct (catalog_prefix entries (len entries)) as [prefix|]; [|done]. cbn [ok_or]. intros [= <- <-].
  eexists. split; [done|]. split; [done|]. split; [|done]. unfold read_view. cbn [segment_count active active_first active_bytes
    active_hash sealed_bytes sealed_identity next_sequence].
  pose proof (size_nonneg bytes). destruct (Z.eqb_spec (size bytes) 0) as [E|E]; cbn [negb].
  - rewrite E. done.
  - by destruct (Z.ltb_spec 0 (size bytes)); [|lia].
Qed.

(** Full verification of a reachable journal succeeds and covers every record
    and every byte of the captured prefix: checksums, sequence numbers and
    admission limits of all segments hold. *)
Theorem verify_all_succeeds `{B : Blake3} `{C : Codec} s :
  journal_reachable s → poisoned (sys_journal s) = false →
  verify_all (sys_disk s) (segments (sys_journal s)) (read_view (sys_journal s)) =
  Ok (next_sequence (sys_journal s), view_total_bytes (read_view (sys_journal s))).
Proof.
  intros (log & _ & [(_ & segs & H)|(Hp & _)])%reachable_good Hnp; [|congruence]. by eapply verify_inv.
Qed.

(** C30: a prefix identity stays valid.  The identity captured with a view is found
    again after any later appends, whether its active segment has grown or was
    sealed since, and the prefix that is reopened reads exactly as the captured
    view did. *)
Theorem captured_prefix_found `{B : Blake3} `{C : Codec} s d' j' :
  journal_reachable s → poisoned (sys_journal s) = false → later_appends (sys_disk s, sys_journal s) (d', j') →
  poisoned j' = false →
  ∃ v, at_prefix d' (segments j') (read_view j') (view_identity (read_view (sys_journal s))) = Ok v ∧
    ∀ q m, 0 ≤ q →
      record_with_decode_limit d' (segments j') v q m =
      record_with_decode_limit (sys_disk s) (segments (sys_journal s)) (read_view (sys_journal s)) q m.
Proof.
  intros (log & _ & [(_ & segs & H)|(Hp & _)])%reachable_good Hnp Hlater Hnp'; [|congruence].
  pose proof (view_of_inv _ _ _ _ H) as Hv.
  assert (H0 : continues log segs (sys_disk s) (sys_journal s)).
  { right. exists [], segs. rewrite app_nil_r. split; [done|apply grown_refl]. }
  apply (continues_later _ _ _ _ Hlater) in H0 as [Hp|(more & segs' & H' & Hg)]; cbn [fst snd] in *; [congruence|].
  assert (Hid : id_next_sequence (view_identity (read_view (sys_journal s))) = Z.of_nat (length log)) by apply H.
  unfold at_prefix. rewrite Hid.
  assert (Hfinal : ∀ v segs0, ViewOk d' (segments j') v log segs0 → view_identity v = view_identity (read_view (sys_journal s)) →
            ∃ v0, (if identity_eqb (view_identity v) (view_identity (read_view (sys_journal s))) then Ok v
                   else Err (CorruptEvent "journal prefix identity mismatch")) = Ok v0 ∧
              ∀ q m, 0 ≤ q → record_with_decode_limit d' (segments j') v0 q m =
                record_with_decode_limit (sys_disk s) (segments (sys_journal s)) (read_view (sys_journal s)) q m).
  { intros v segs0 Hv0 ->. unfold identity_eqb. rewrite Z.eqb_refl, bool_decide_eq_true_2 by done. cbn [andb]. exists v.
    split; [done|]. intros q m Hq. by rewrite (record_spec _ _ _ _ _ _ _ Hv0 Hq), (record_spec _ _ _ _ _ _ _ Hv Hq). }
  destruct (decide (length log = 0%nat)) as [Hzero|Hpos].
  - apply length_zero_iff_nil in Hzero as ->. change (Z.of_nat (length [])) with 0.
    rewrite prefix_at_zero by (cbn; rewrite (inv_next _ _ _ _ H'); lia).
    apply (Hfinal _ [] (empty_view _ _ _ _ H')). unfold read_view. cbn [view_identity].
    pose proof (inv_layout _ _ _ _ H) as Hlay. pose proof (last_next_range _ _ _ Hlay) as Hl. cbn in Hl.
    assert (segs = []) as ->.
    { destruct segs as [|t init _] using rev_ind; [done|]. rewrite last_next_snoc in Hl.
      pose proof (lay_segs _ _ _ Hlay) as Hs. apply Forall_app in Hs as [_ Hs]. apply Forall_cons in Hs as [[Hvt _ _ _ _] _].
      destruct Hvt as ((Hf0 & _) & _ & Hlt & _). lia. }
    rewrite (inv_bytes _ _ _ _ H), (inv_identity _ _ _ _ H), (inv_next _ _ _ _ H). done.
  - destruct (prefix_view_ok _ _ _ _ (Z.of_nat (length log)) H') as (k & file & name & -> & Hv0 & Hk & Hlo & Hhi).
    { rewrite length_app. lia. }
    rewrite take_log in Hv0. apply (Hfinal _ _ Hv0). eapply identity_found; eauto. lia.
Qed.

(** * On the concrete history *)

#[local] Existing Instance bit_digest.
#[local] Existing Instance unary_codec.
Definition sample_limits : SessionEventPageLimits := mkLimits 4096 1 4096 4096 4096.

Lemma page_exact_witness :
  match page (sys_disk sample_sys) (segments (sys_journal sample_sys)) (read_view (sys_journal sample_sys)) (Some 0) sample_limits with
  | Err e => limit_error e
  | Ok (p, _) => has_more p = true → page_events p ≠ []
  end.
Proof.
  pose proof (page_exact sample_sys (Some 0) sample_limits sample_reachable sample_usable ltac:(cbn; lia) ltac:(cbn; lia)) as H.
  destruct (page _ _ _ _ _) as [[p m]|e]; [|exact H]. apply H.
Defined.
Lemma verify_all_succeeds_witness :
  verify_all (sys_disk sample_sys) (segments (sys_journal sample_sys)) (read_view (sys_journal sample_sys)) =
  Ok (next_sequence (sys_journal sample_sys), view_total_bytes (read_view (sys_journal sample_sys))).
Proof. exact (verify_all_succeeds sample_sys sample_reachable sample_usable). Defined.
Lemma captured_prefix_found_witness :
  ∃ v, at_prefix sample_later.1.1 (segments sample_later.1.2) (read_view sample_later.1.2)
         (view_identity (read_view (sys_journal sample_sys))) = Ok v.
Proof.
  destruct (captured_prefix_found sample_sys sample_later.1.1 sample_later.1.2 sample_reachable sample_usable sample_later_appends)
    as (v & H & _); [vm_compute; reflexivity|]. exists v. exact H.
Defined.
Lemma tail_page_exact_witness :
  match tail_page (sys_disk sample_sys) (segments (sys_journal sample_sys)) (read_view (sys_journal sample_sys)) sample_limits with
  | Err e => limit_error e
  | Ok p => events_before_page p + Z.of_nat (length (page_events p)) = next_sequence (sys_journal sample_sys)
  end.
Proof.
  pose proof (tail_page_exact sample_sys sample_limits sample_reachable sample_usable ltac:(cbn; lia)) as H.
  destruct (tail_page _ _ _ _) as [p|e]; [|exact H]. apply H.
Defined.
Lemma collect_complete_witness :
  match collect_bounded (sys_disk sample_sys) (segments (sys_journal sample_sys)) (read_view (sys_journal sample_sys)) 4096 100 with
  | Err e => limit_error e ∨ e = EventLogTooLarge 4096 ∨ e = EventCountTooLarge 100
  | Ok events => Z.of_nat (length events) = next_sequence (sys_journal sample_sys)
  end.
Proof.
  pose proof (collect_complete sample_sys 4096 100 sample_reachable sample_usable) as H.
  destruct (collect_bounded _ _ _ _ _) as [events|e]; [|exact H]. apply H.
Defined.
Lemma offline_view_agrees_witness :
  ∃ c v j, from_directory (sys_disk sample_sys) = Ok (c, v) ∧ open true (sys_disk sample_sys) = Ok (sys_disk sample_sys, j) ∧ read_view j = v.
Proof.
  destruct (from_directory (sys_disk sample_sys)) as [[c v]|e] eqn:E; [|vm_compute in E; discriminate E].
  destruct (offline_view_agrees _ _ _ E) as (j & Ho & _ & Hv & _). exists c, v, j.
  split; [reflexivity|]. split; [exact Ho|exact Hv].
Defined.
