(* ===== verification/BudgetLedger.v ===== *)
(** Transactional admission of provider calls
    ([rw-store/src/session/reservations/ledger.rs], [reservations.rs],
    [reservations/schema.rs]).

    A ledger is the table of calls and the table of sums of one accounting
    root.  Every operation is one immediate transaction: it returns the new
    ledger, or an error and the ledger it started from.  A call is stored as
    one JSON row of at most 16 KiB; the length of the row is the parameter
    [row_bytes], since the encoding is serde's. *)
From Stdlib Require Import Ascii.
From S2P Require Import Prelude Text Ir Decimal Timestamp BudgetSums Pricing.

(** * Data *)

Inductive AccountingAttribution : Type := MainUsage | CompactionUsage | SubagentUsage | TitleUsage.

Record ProviderCallIdentity : Type := mkIdentity {
  session_id : string;
  budget_session_id : string;
  turn_id : string;
  attribution : AccountingAttribution;
  call_id : string;
  attempt : Z;
}.

Record BudgetConfig : Type := mkBudget {
  session_cost_cap_micros_usd : option Z;
  daily_cost_cap_micros_usd : option Z;
  session_ai_credit_cap_micros : option Z;
  daily_ai_credit_cap_micros : option Z;
  session_token_cap : option Z;
  daily_token_cap : option Z;
  spend_rate_alarm_micros_usd_per_minute : option Z;
  ai_credit_rate_alarm_micros_per_minute : option Z;
  token_rate_alarm_per_minute : option Z;
  warn_at_percent : Z;
}.

Record BudgetReservationPlan : Type := mkPlan {
  plan_identity : ProviderCallIdentity;
  admitted_at : string;
  input_token_bound : Z;
  output_token_limit : Z;
  plan_charge : BudgetChargeBound;
  budget : BudgetConfig;
}.

Record ProviderCallReceipt : Type := mkReceipt {
  receipt_identity : ProviderCallIdentity;
  sequence_id : Z;
  accounted_at : string;
  actual_usage : TokenUsage;
  actual_cost : Cost;
}.

Inductive ProviderCallPhase : Type := Reserved | Started | Accounted | Ambiguous | Cancelled.

Record Call : Type := mkCall {
  identity : ProviderCallIdentity;
  plan : option BudgetReservationPlan;
  phase : ProviderCallPhase;
  receipt : option ProviderCallReceipt;
}.

#[global] Instance BudgetCharge_eq_dec : EqDecision BudgetCharge. Proof. solve_decision. Defined.
#[global] Instance BudgetChargeBound_eq_dec : EqDecision BudgetChargeBound. Proof. solve_decision. Defined.
#[global] Instance Cost_eq_dec : EqDecision Cost. Proof. solve_decision. Defined.
#[global] Instance AccountingAttribution_eq_dec : EqDecision AccountingAttribution. Proof. solve_decision. Defined.
#[global] Instance ProviderCallIdentity_eq_dec : EqDecision ProviderCallIdentity. Proof. solve_decision. Defined.
#[global] Instance BudgetConfig_eq_dec : EqDecision BudgetConfig. Proof. solve_decision. Defined.
#[global] Instance BudgetReservationPlan_eq_dec : EqDecision BudgetReservationPlan. Proof. solve_decision. Defined.
#[global] Instance TokenUsage_eq_dec : EqDecision TokenUsage. Proof. solve_decision. Defined.
#[global] Instance ProviderCallReceipt_eq_dec : EqDecision ProviderCallReceipt. Proof. solve_decision. Defined.
#[global] Instance ProviderCallPhase_eq_dec : EqDecision ProviderCallPhase. Proof. solve_decision. Defined.

(** The primary key of a row *)
Abbreviation CallKey := ((string * string * Z)%type).
Definition key_of (i : ProviderCallIdentity) : CallKey := (session_id i, call_id i, attempt i).

Record Ledger : Type := mkLedger {
  calls : gmap CallKey Call;
  sums : Table;
}.

Definition MAX_ROW_BYTES : Z := 16 * 1024.
Definition MAX_ACTIVE_PROVIDER_CALLS : Z := 4096.

(** * Validation *)

Definition MAX_SESSION_ID_BYTES : Z := 128.
(** [[A-Za-z0-9._-]] *)
Definition identifier_byte (c : ascii) : bool := is_ascii_alphanumeric c || char_in "-_." c.
(** [SessionId::validate] *)
Definition session_id_valid (value : string) : bool :=
  negb (is_empty value || (MAX_SESSION_ID_BYTES <? str_len value) || String.eqb value "." ||
        String.eqb value ".." || negb (str_all identifier_byte value)).
Definition validate_session_id (value : string) : Result unit Error :=
  if session_id_valid value then Ok tt else Err StoreError.

Definition call_name_valid (value : string) : bool :=
  negb (is_empty value || (128 <? str_len value) || negb (str_all identifier_byte value)).
Definition validate_identity (i : ProviderCallIdentity) : Result unit Error :=
  let? _ := validate_session_id (session_id i) in
  let? _ := validate_session_id (budget_session_id i) in
  if forallb call_name_valid [call_id i; turn_id i] then Ok tt
  else Err (InvalidPlan "invalid host call or turn identity").

Definition parse_timestamp (value : string) : Result string Error :=
  match parse value with Ok s => Ok s | Err _ => Err StoreError end.

(** [BudgetConfig::validate] *)
Definition budget_valid (b : BudgetConfig) : bool := (1 <=? warn_at_percent b) && (warn_at_percent b <=? 100).

Definition validate_plan (p : BudgetReservationPlan) : Result unit Error :=
  let? _ := validate_identity (plan_identity p) in
  let? _ := parse_timestamp (admitted_at p) in
  if negb (budget_valid (budget p))
  then Err (InvalidPlan "budget.warn_at_percent must be between 1 and 100")
  else if output_token_limit p =? 0 then Err (InvalidPlan "provider output limit must be nonzero")
  else Ok tt.

Definition longer (o : option string) (n : Z) : bool :=
  match o with Some s => n <? str_len s | None => false end.
Definition oversized (c : Cost) : bool :=
  match c with
  | Monetary _ currency => 16 <? str_len currency
  | AiCredits _ nominal_amount_micros currency => longer nominal_amount_micros 128 || longer currency 16
  | SubscriptionQuota used unit => longer used 128 || longer unit 32
  | CostUnavailable reason => 4096 <? str_len reason
  end.
Definition validate_receipt (r : ProviderCallReceipt) : Result unit Error :=
  let? _ := validate_identity (receipt_identity r) in
  let? _ := parse_timestamp (accounted_at r) in
  if oversized (actual_cost r) then Err (InvalidPlan "provider receipt exceeds byte limit") else Ok tt.

(** * What a call holds *)

Definition is_bounded (b : option BudgetChargeBound) : bool :=
  match b with Some (Bounded _) => true | _ => false end.

(** [Call::pending] *)
Definition call_pending (c : Call) : Amounts :=
  match phase c with
  | Accounted | Cancelled => zero
  | _ =>
      let bound := plan_charge <$> plan c in
      let amounts := match bound ≫= charge with Some ch => charge_amounts ch | None => zero end in
      let amounts := <[ACTIVE := 1]> amounts in
      if is_bounded bound then amounts else <[UNKNOWN := 1]> amounts
  end.

(** [Call::settled] *)
Definition call_settled (c : Call) : option (string * Amounts) :=
  match phase c with
  | Accounted =>
      r ← receipt c;
      ch ← actual_charge (actual_cost r);
      Some (accounted_at r, charge_amounts ch)
  | _ => None
  end.

(** * Transactions *)

Section ledger.
Context (row_bytes : Call → Z).

(** [load]: the row of the identity, which must be its own *)
Definition load (L : Ledger) (i : ProviderCallIdentity) : Result (option Call) Error :=
  match calls L !! key_of i with
  | None => Ok None
  | Some c =>
      if MAX_ROW_BYTES <? row_bytes c then Err (InvalidPlan "oversized provider accounting row")
      else if decide (identity c = i) then Ok (Some c) else Err IdentityConflict
  end.

Definition save (L : Ledger) (c : Call) : Result Ledger Error :=
  if MAX_ROW_BYTES <? row_bytes c then Err (InvalidPlan "provider accounting row exceeds byte limit")
  else Ok (mkLedger (<[key_of (identity c) := c]> (calls L)) (sums L)).

(** The projections of one scope *)
Definition replace_scope (previous : option Call) (next : Call) (t : Table) (scope : string) : Result Table Error :=
  let? t := pending t scope (match previous with Some c => call_pending c | None => zero end) (call_pending next) in
  let? t := match previous ≫= call_settled with
            | Some (timestamp, amounts) => dated t scope (time_key timestamp) amounts zero
            | None => Ok t
            end in
  match call_settled next with
  | Some (timestamp, amounts) => dated t scope (time_key timestamp) zero amounts
  | None => Ok t
  end.
Definition replace_projections (L : Ledger) (previous : option Call) (next : Call) : Result Ledger Error :=
  let? t := replace_scope previous next (sums L) ROOT_SCOPE in
  let? t := replace_scope previous next t (budget_session_id (identity next)) in
  Ok (mkLedger (calls L) t).

Definition caps_of (b : BudgetConfig) : list (option Z) :=
  [session_cost_cap_micros_usd b; daily_cost_cap_micros_usd b; session_ai_credit_cap_micros b;
   daily_ai_credit_cap_micros b; session_token_cap b; daily_token_cap b].
(** The session and the daily cap in the unit of a charge *)
Definition caps_for (b : BudgetConfig) (c : BudgetCharge) : option Z * option Z :=
  match c with
  | UsdMicros _ => (session_cost_cap_micros_usd b, daily_cost_cap_micros_usd b)
  | AiCreditMicros _ => (session_ai_credit_cap_micros b, daily_ai_credit_cap_micros b)
  | SubscriptionTokens _ => (session_token_cap b, daily_token_cap b)
  end.
Definition day_start (at_key : Z) : Z := at_key / 1000000000 * 1000000000.

(** One scope of [admit_plan]: its cap, what is pending in it, and its totals *)
Definition admit_scope (strict : bool) (c : BudgetCharge) (scope : BudgetScope) (cap : option Z)
    (waiting : Amounts) (totals : Result Amounts Error) : Result unit Error :=
  match cap with
  | None => Ok tt
  | Some cap =>
      if strict && negb (col UNKNOWN waiting =? 0) then Err UnresolvedCharge
      else
        let? totals := totals in
        if strict && negb (col UNKNOWN totals =? 0) then Err UnresolvedCharge
        else
          let used := col (unit_index c) totals in
          let reserved := col (unit_index c) waiting in
          let sum := s ← u128_checked_add used reserved; u128_checked_add s (amount c) in
          if match sum with None => true | Some s => cap <? s end
          then Err (CapExceeded scope c (to_u64_or_max used) (to_u64_or_max reserved) cap)
          else Ok tt
  end.
Definition admit_plan (t : Table) (p : BudgetReservationPlan) (session global : Amounts) : Result unit Error :=
  match charge (plan_charge p) with
  | None => if bool_decide (Some 0 ∈ caps_of (budget p)) then Err UnresolvedCharge else Ok tt
  | Some c =>
      let '(session_cap, daily_cap) := caps_for (budget p) c in
      let at_key := time_key (admitted_at p) in
      let strict := is_bounded (Some (plan_charge p)) in
      let? _ := admit_scope strict c SessionScope session_cap session
                  (through t (budget_session_id (plan_identity p)) at_key) in
      admit_scope strict c DailyScope daily_cap global
        (let? upto_now := through t ROOT_SCOPE at_key in
         let? before := through t ROOT_SCOPE (sat_sub (day_start at_key) 1) in
         subtract upto_now before)
  end.

Definition reserve (L : Ledger) (p : BudgetReservationPlan) : Result Ledger Error :=
  let? _ := validate_plan p in
  let? existing := load L (plan_identity p) in
  match existing with
  | Some c => if decide (phase c = Reserved ∧ plan c = Some p) then Ok L else Err IdentityConflict
  | None =>
      let? global := read (sums L) ROOT_SCOPE 0 in
      if MAX_ACTIVE_PROVIDER_CALLS <=? col ACTIVE global then Err Capacity
      else
        let? session := read (sums L) (budget_session_id (plan_identity p)) 0 in
        let? _ := admit_plan (sums L) p session global in
        let c := mkCall (plan_identity p) (Some p) Reserved None in
        let? L := replace_projections L None c in
        save L c
  end.

Definition transition_unstarted (L : Ledger) (i : ProviderCallIdentity) (ph : ProviderCallPhase) : Result Ledger Error :=
  let? _ := validate_identity i in
  let? existing := load L i in
  match existing with
  | None => Err IdentityConflict
  | Some previous =>
      if decide (phase previous = Reserved) then
        let next := mkCall (identity previous) (plan previous) ph (receipt previous) in
        let? L := replace_projections L (Some previous) next in
        save L next
      else Err IdentityConflict
  end.
Definition start (L : Ledger) (i : ProviderCallIdentity) : Result Ledger Error := transition_unstarted L i Started.
Definition cancel_unstarted (L : Ledger) (i : ProviderCallIdentity) : Result Ledger Error :=
  transition_unstarted L i Cancelled.

Definition record (L : Ledger) (r : ProviderCallReceipt) (recovery : bool) : Result Ledger Error :=
  let? _ := validate_receipt r in
  let? previous := load L (receipt_identity r) in
  if negb recovery && match previous with
                      | None => true
                      | Some c => bool_decide (phase c = Reserved ∨ phase c = Cancelled)
                      end
  then Err IdentityConflict
  else
    let next := mkCall (receipt_identity r) (previous ≫= plan)
                  (if is_some (actual_charge (actual_cost r)) then Accounted else Ambiguous) (Some r) in
    let write := let? L := replace_projections L previous next in save L next in
    match previous ≫= receipt with
    | Some old =>
        if sequence_id r =? sequence_id old then (if decide (r = old) then Ok L else Err IdentityConflict)
        else if sequence_id r <? sequence_id old then Ok L
        else write
    | None => write
    end.
Definition settle_accounted (L : Ledger) (r : ProviderCallReceipt) : Result Ledger Error := record L r false.
Definition reconcile_accounted (L : Ledger) (r : ProviderCallReceipt) : Result Ledger Error := record L r true.

(** [BudgetLedger::phase] *)
Definition phase_of (L : Ledger) (i : ProviderCallIdentity) : Result (option ProviderCallPhase) Error :=
  let? _ := validate_identity i in
  let? c := load L i in
  Ok (phase <$> c).

(** ** Opening *)

(** [preserve_legacy_uncertainty]: the turn rollups of an index that has no
    provider calls yet, as uncertainty at their times *)
Definition unknown_amounts : Amounts := <[UNKNOWN := 1]> zero.
Definition preserve_row (t : Table) (row : string * string) : Result Table Error :=
  let? _ := validate_session_id (fst row) in
  let? timestamp := parse_timestamp (snd row) in
  let? t := dated t (fst row) (time_key timestamp) zero unknown_amounts in
  dated t ROOT_SCOPE (time_key timestamp) zero unknown_amounts.
Definition open_legacy (turns : list (string * string)) : Result Ledger Error :=
  let? t := foldl (λ r row, let? t := r in preserve_row t row) (Ok ∅) turns in
  Ok (mkLedger ∅ t).

End ledger.
