(* ===== verification/BudgetAdmission.v ===== *)
(** Correctness of provider admission: the projections of a reachable ledger
    are the sums over its calls, so that admission decides on exactly the
    settled and unfinished charges, and caps hold along every history. *)
From Stdlib Require Import Ascii.
From S2P Require Import Prelude Text Ir Decimal Timestamp BudgetSums Pricing BudgetLedger.

(** * Typed inputs *)

Definition plan_typed (p : BudgetReservationPlan) : Prop :=
  match charge (plan_charge p) with Some c => u64 (amount c) | None => True end.
Definition cost_typed (c : Cost) : Prop :=
  match c with Monetary n _ | AiCredits n _ _ => u64 n | _ => True end.
Definition receipt_typed (r : ProviderCallReceipt) : Prop := cost_typed (actual_cost r).

Lemma actual_charge_typed c ch : cost_typed c → actual_charge c = Some ch → u64 (amount ch).
Proof.
  destruct c as [n cur|n nom cur|used unit|reason]; cbn [actual_charge cost_typed]; intros Ht; [| |clear Ht|done].
  - destruct (String.eqb cur "USD"); [|done]. by intros [= <-].
  - by intros [= <-].
  - unfold subscription_token_accounting. destruct (match unit with Some u => _ | None => _ end); [|done].
    destruct (used ≫= parse_uint u64_max) as [n|] eqn:E; [|done]. intros [= <-].
    apply bind_Some in E as (s & _ & Hp). apply parse_uint_range in Hp; [done|vm_compute; discriminate].
Qed.

(** * Sums over the calls *)

Definition sum_calls (f : Call → Z) (m : gmap CallKey Call) : Z := sum_Z (map (λ kc, f kc.2) (map_to_list m)).
Definition of_option (f : Call → Z) (o : option Call) : Z := match o with Some c => f c | None => 0 end.

Lemma sum_calls_insert_new f m k c : m !! k = None → sum_calls f (<[k := c]> m) = f c + sum_calls f m.
Proof.
  intros Hk. unfold sum_calls.
  rewrite (sum_Z_perm _ (map (λ kc, f kc.2) ((k, c) :: map_to_list m))); [done|].
  apply Permutation_map. by apply map_to_list_insert.
Qed.
Lemma sum_calls_insert f m k c :
  sum_calls f (<[k := c]> m) = sum_calls f m - of_option f (m !! k) + f c.
Proof.
  destruct (m !! k) as [c0|] eqn:E; simpl.
  - rewrite <- (insert_delete_id m k c0 E) at 2. rewrite <- insert_delete_eq.
    rewrite !sum_calls_insert_new by apply lookup_delete_eq. lia.
  - rewrite sum_calls_insert_new by done. lia.
Qed.
Lemma sum_calls_bound f m b :
  map_Forall (λ _ c, 0 ≤ f c ≤ b) m → 0 ≤ sum_calls f m ≤ Z.of_nat (size m) * b.
Proof.
  intros Hm. rewrite <- length_map_to_list. unfold sum_calls. apply map_Forall_to_list in Hm.
  induction Hm as [|[k c] l Hc Hl IH]; simpl; [lia|]. simpl in Hc. lia.
Qed.
Lemma sum_calls_ext f g m : map_Forall (λ _ c, f c = g c) m → sum_calls f m = sum_calls g m.
Proof.
  intros Hm. unfold sum_calls. apply map_Forall_to_list in Hm.
  induction Hm as [|[k c] l Hc Hl IH]; simpl; [done|]. simpl in Hc. lia.
Qed.
Lemma sum_calls_le f g m : map_Forall (λ _ c, f c ≤ g c) m → sum_calls f m ≤ sum_calls g m.
Proof.
  intros Hm. unfold sum_calls. apply map_Forall_to_list in Hm.
  induction Hm as [|[k c] l Hc Hl IH]; simpl; [done|]. simpl in Hc. lia.
Qed.
Lemma sum_calls_plus f g m : sum_calls (λ c, f c + g c) m = sum_calls f m + sum_calls g m.
Proof. unfold sum_calls. apply sum_Z_plus, Forall_true. done. Qed.

(** * What the projections should hold *)

Definition in_scope (scope : string) (i : ProviderCallIdentity) : bool :=
  String.eqb scope ROOT_SCOPE || String.eqb scope (budget_session_id i).

(** The settled amount of a call between two times, by column *)
Definition settled_between (lo hi : Z) (i : nat) (c : Call) : Z :=
  match call_settled c with
  | Some (ts, a) => if (lo <=? time_key ts) && (time_key ts <=? hi) then col i a else 0
  | None => 0
  end.
Definition settled_share (n : Z) (i : nat) (c : Call) : Z :=
  match call_settled c with Some (ts, a) => share n (time_key ts) (col i a) | None => 0 end.
Definition only (scope : string) (f : Call → Z) (c : Call) : Z :=
  if in_scope scope (identity c) then f c else 0.

(** The turn rollups of an index from before provider calls, as scope and key *)
Definition legacy_in (scope : string) (f : Z → Z) (turns : list (string * string)) : Z :=
  sum_Z (map (λ row, if String.eqb scope ROOT_SCOPE || String.eqb scope row.1 then f (time_key row.2) else 0) turns).
Definition unknown_at (i : nat) : Z := if Nat.eqb i UNKNOWN then 1 else 0.

(** The specification of the two reads of admission *)
Definition waiting (L : Ledger) (scope : string) (i : nat) : Z :=
  sum_calls (only scope (λ c, col i (call_pending c))) (calls L).
Definition used (turns : list (string * string)) (L : Ledger) (scope : string) (lo hi : Z) (i : nat) : Z :=
  sum_calls (only scope (settled_between lo hi i)) (calls L) +
  legacy_in scope (λ k, if (lo <=? k) && (k <=? hi) then unknown_at i else 0) turns.

Definition call_ok (k : CallKey) (c : Call) : Prop :=
  key_of (identity c) = k ∧ budget_session_id (identity c) ≠ ROOT_SCOPE ∧
  (∀ p, plan c = Some p → plan_typed p) ∧ (∀ r, receipt c = Some r → receipt_typed r) ∧
  (∀ ts a, call_settled c = Some (ts, a) → 0 < time_key ts < TIME_END).
Definition turn_ok (row : string * string) : Prop :=
  row.1 ≠ ROOT_SCOPE ∧ 0 < time_key row.2 < TIME_END.

Record Inv (turns : list (string * string)) (L : Ledger) : Prop := mkInv {
  inv_table : table_ok (sums L);
  inv_calls : map_Forall call_ok (calls L);
  inv_turns : Forall turn_ok turns;
  inv_pending : ∀ scope i, cell (sums L) scope 0 i = waiting L scope i;
  inv_settled : ∀ scope n i, 0 < n < TIME_END →
    cell (sums L) scope n i =
    sum_calls (only scope (settled_share n i)) (calls L) +
    legacy_in scope (λ k, share n k (unknown_at i)) turns;
}.

(** * Amounts of a call *)

Lemma wf_insert_one i a : wf_amounts a → wf_amounts (<[i := 1]> a).
Proof.
  intros [Hl Ha]. split; [etrans; [apply length_insert|done]|].
  apply Forall_insert; [done|]. vm_compute; split; discriminate.
Qed.
Lemma plan_amounts_wf c :
  (∀ p, plan c = Some p → plan_typed p) →
  wf_amounts (match (plan_charge <$> plan c) ≫= charge with Some ch => charge_amounts ch | None => zero end).
Proof.
  intros Hp. destruct (plan c) as [p|]; cbn; [|apply wf_zero]. specialize (Hp p eq_refl). unfold plan_typed in Hp.
  destruct (charge (plan_charge p)); [by apply charge_amounts_wf|apply wf_zero].
Qed.
Lemma call_pending_wf c : (∀ p, plan c = Some p → plan_typed p) → wf_amounts (call_pending c).
Proof.
  intros Hp%plan_amounts_wf. unfold call_pending.
  destruct (phase c); try apply wf_zero; (destruct (is_bounded _); [|apply wf_insert_one]); by apply wf_insert_one.
Qed.
Lemma col_insert_le i j (a : list Z) b : 1 ≤ b → col i a ≤ b → col i (<[j := 1]> a) ≤ b.
Proof.
  intros Hb Ha. unfold col in *. rewrite !nth_lookup in *. destruct (decide (i = j)) as [->|Hne].
  - destruct (decide (j < length a)%nat) as [Hlt|Hge].
    + rewrite list_lookup_insert_eq by done. simpl. lia.
    + rewrite list_insert_ge by lia. done.
  - by rewrite list_lookup_insert_ne by done.
Qed.
Lemma call_pending_col i c :
  (∀ p, plan c = Some p → plan_typed p) → 0 ≤ col i (call_pending c) ≤ u64_max.
Proof.
  intros Hp. pose proof (wf_col i _ (call_pending_wf c Hp)) as [Hc _]. split; [done|]. clear Hc.
  assert (1 ≤ u64_max) as H1 by (vm_compute; discriminate).
  assert (col i (match (plan_charge <$> plan c) ≫= charge with Some ch => charge_amounts ch | None => zero end)
          ≤ u64_max) as H0.
  { destruct (plan c) as [p|]; cbn [mbind option_bind fmap option_fmap option_map]; [|rewrite col_zero; lia].
    specialize (Hp p eq_refl). unfold plan_typed in Hp. destruct (charge (plan_charge p)) as [ch|]; [|rewrite col_zero; lia].
    rewrite col_charge_amounts. unfold u64 in Hp. destruct (Nat.eqb _ _); lia. }
  unfold call_pending. destruct (phase c); try (rewrite col_zero; lia);
    (destruct (is_bounded _); [|apply col_insert_le; [done|]]); by apply col_insert_le.
Qed.
Lemma call_settled_wf c ts a :
  (∀ r, receipt c = Some r → receipt_typed r) → call_settled c = Some (ts, a) → wf_amounts a.
Proof.
  intros Hr. unfold call_settled. destruct (phase c); try done. destruct (receipt c) as [r|]; [|done]. cbn.
  destruct (actual_charge (actual_cost r)) as [ch|] eqn:E; [|done]. cbn. intros [= <- <-].
  apply charge_amounts_wf. eapply actual_charge_typed; [by apply Hr|done].
Qed.
Lemma unknown_amounts_wf : wf_amounts unknown_amounts.
Proof. apply wf_insert_one, wf_zero. Qed.
Lemma col_unknown_amounts i : col i unknown_amounts = unknown_at i.
Proof. unfold unknown_at. do 6 (destruct i as [|i]; [done|]). by destruct i. Qed.

(** * The projections follow the calls *)

Definition call_typed (c : Call) : Prop :=
  (∀ p, plan c = Some p → plan_typed p) ∧ (∀ r, receipt c = Some r → receipt_typed r).
Definition pending_col (i : nat) (c : Call) : Z := col i (call_pending c).

(** What replacing a call changes at a node *)
Definition change (prev : option Call) (next : Call) (n : Z) (i : nat) : Z :=
  (if n =? 0 then pending_col i next - of_option (pending_col i) prev else 0) +
  (settled_share n i next - of_option (settled_share n i) prev).

Lemma share_opp n k x : share n k (0 - x) = - share n k x.
Proof. unfold share. destruct (_ && _); lia. Qed.

Lemma dated_option t scope (o : option (string * Amounts)) (rem plus : Amounts → Amounts) t' :
  table_ok t →
  (∀ ts a, o = Some (ts, a) → wf_amounts (rem a) ∧ wf_amounts (plus a)) →
  match o with Some (ts, a) => dated t scope (time_key ts) (rem a) (plus a) | None => Ok t end = Ok t' →
  (∀ ts a, o = Some (ts, a) → 0 < time_key ts < TIME_END) ∧ table_ok t' ∧
  ∀ scope' n i, 0 ≤ n < TIME_END → cell t' scope' n i = cell t scope' n i +
    (if decide (scope' = scope) then
       match o with Some (ts, a) => share n (time_key ts) (col i (plus a) - col i (rem a)) | None => 0 end
     else 0).
Proof.
  intros Ht Hwf. destruct o as [[ts a]|].
  - destruct (Hwf ts a eq_refl) as [Hrem Hplus]. intros (Hk & Ht' & Hc)%dated_ok; [|done..|apply time_key_nonneg].
    split_and!; [|done..]. intros ? ? [= <- <-]. lia.
  - intros [= <-]. split_and!; [done|done|]. intros. destruct (decide _); lia.
Qed.

Lemma replace_scope_ok prev next t scope t' :
  table_ok t → (∀ c, prev = Some c → call_typed c) → call_typed next →
  replace_scope prev next t scope = Ok t' →
  (∀ ts a, call_settled next = Some (ts, a) → 0 < time_key ts < TIME_END) ∧ table_ok t' ∧
  ∀ scope' n i, 0 ≤ n < TIME_END →
    cell t' scope' n i = cell t scope' n i + (if decide (scope' = scope) then change prev next n i else 0).
Proof.
  intros Ht Hprev [Hp Hr]. unfold replace_scope, pending.
  set (old := match prev with Some c => call_pending c | None => zero end).
  assert (wf_amounts old) as Hold.
  { unfold old. destruct prev; [apply call_pending_wf; by apply Hprev|apply wf_zero]. }
  destruct (update t scope 0 old (call_pending next)) as [t1|] eqn:E1; [|done].
  apply update_ok in E1 as [Ht1 H1]; [|done|done|by apply call_pending_wf|vm_compute; discriminate].
  destruct (match prev ≫= call_settled with Some _ => _ | None => _ end) as [t2|] eqn:E2; [|done].
  apply (dated_option t1 scope _ (λ a, a) (λ _, zero)) in E2 as (_ & Ht2 & H2); [|done|].
  2: { intros ts a (c & -> & Hs)%bind_Some. split; [|apply wf_zero].
       eapply call_settled_wf; [|exact Hs]. by apply (Hprev c). }
  intros E3. apply (dated_option t2 scope _ (λ _, zero) (λ a, a)) in E3 as (Hk & Ht3 & H3); [|done|].
  2: { intros ts a Hs. split; [apply wf_zero|]. by eapply call_settled_wf. }
  split_and!; [done|done|]. intros scope' n i Hn. rewrite H3, H2, H1 by done.
  destruct (decide (scope' = scope)) as [->|Hne]; [|rewrite decide_False by congruence; lia].
  unfold change, settled_share, pending_col. destruct (Z.eqb_spec n 0) as [->|Hn0].
  - rewrite decide_True by done.
    replace (of_option _ prev) with (col i old) by (unfold old; destruct prev; [done|apply col_zero]).
    destruct prev as [c|]; simpl; [destruct (call_settled c) as [[? ?]|]|];
      destruct (call_settled next) as [[? ?]|]; unfold share; simpl; lia.
  - rewrite decide_False by (intros [= ?]; lia).
    destruct prev as [c|]; simpl; [destruct (call_settled c) as [[? ?]|]|];
      destruct (call_settled next) as [[? ?]|]; rewrite ?col_zero, ?share_opp, ?Z.sub_0_r; lia.
Qed.

Lemma replace_projections_ok prev next L L' :
  table_ok (sums L) → (∀ c, prev = Some c → call_typed c) → call_typed next →
  budget_session_id (identity next) ≠ ROOT_SCOPE →
  replace_projections L prev next = Ok L' →
  calls L' = calls L ∧ (∀ ts a, call_settled next = Some (ts, a) → 0 < time_key ts < TIME_END) ∧
  table_ok (sums L') ∧ ∀ scope n i, 0 ≤ n < TIME_END →
    cell (sums L') scope n i =
    cell (sums L) scope n i + (if in_scope scope (identity next) then change prev next n i else 0).
Proof.
  intros Ht Hprev Hnext Hroot. unfold replace_projections.
  destruct (replace_scope prev next (sums L) ROOT_SCOPE) as [t1|] eqn:E1; [|done].
  apply replace_scope_ok in E1 as (_ & Ht1 & H1); [|done..].
  destruct (replace_scope prev next t1 _) as [t2|] eqn:E2; [|done].
  apply replace_scope_ok in E2 as (Hk & Ht2 & H2); [|done..].
  intros [= <-]. cbn [calls sums]. split_and!; [done|done|done|]. intros scope n i Hn.
  rewrite H2, H1 by done. unfold in_scope.
  destruct (String.eqb_spec scope ROOT_SCOPE), (String.eqb_spec scope (budget_session_id (identity next)));
    cbn [orb]; repeat case_decide; first [congruence | lia].
Qed.

(** * Reachable ledgers *)

Section reachable.
Context (row_bytes : Call → Z).

(** One successful transaction on typed inputs *)
Inductive step : Ledger → Ledger → Prop :=
| step_reserve L p L' : plan_typed p → reserve row_bytes L p = Ok L' → step L L'
| step_start L i L' : start row_bytes L i = Ok L' → step L L'
| step_cancel L i L' : cancel_unstarted row_bytes L i = Ok L' → step L L'
| step_settle L r L' : receipt_typed r → settle_accounted row_bytes L r = Ok L' → step L L'
| step_reconcile L r L' : receipt_typed r → reconcile_accounted row_bytes L r = Ok L' → step L L'.

(** From an index with the given turn rollups *)
Inductive reachable (turns : list (string * string)) : Ledger → Prop :=
| reach_open L : open_legacy turns = Ok L → reachable turns L
| reach_step L L' : reachable turns L → step L L' → reachable turns L'.

Lemma load_ok L i o :
  load row_bytes L i = Ok o → calls L !! key_of i = o ∧ (∀ c, o = Some c → identity c = i).
Proof.
  unfold load. destruct (calls L !! key_of i) as [c|]; [|intros [= <-]; done].
  destruct (MAX_ROW_BYTES <? row_bytes c); [done|]. destruct (decide (identity c = i)); [|done].
  intros [= <-]. split; [done|]. by intros ? [= <-].
Qed.

Lemma write_ok turns L prev next L1 L' :
  Inv turns L → calls L !! key_of (identity next) = prev → (∀ c, prev = Some c → identity c = identity next) →
  call_typed next → budget_session_id (identity next) ≠ ROOT_SCOPE →
  replace_projections L prev next = Ok L1 → save row_bytes L1 next = Ok L' →
  Inv turns L' ∧ calls L' = <[key_of (identity next) := next]> (calls L).
Proof.
  intros [Ht Hcalls Hturns Hp Hs] Hlook Hid Hnext Hroot Hrep Hsave.
  apply replace_projections_ok in Hrep as (Ecalls & Hkey & Ht1 & Hcell); [|done| |done..].
  2: { intros c ->. destruct (Hcalls _ _ Hlook) as (_ & _ & ? & ? & _). by split. }
  unfold save in Hsave. destruct (MAX_ROW_BYTES <? row_bytes next); [done|]. injection Hsave as <-.
  rewrite Ecalls. split; [|done].
  assert (∀ scope f, sum_calls (only scope f) (<[key_of (identity next) := next]> (calls L)) =
    sum_calls (only scope f) (calls L) +
    (if in_scope scope (identity next) then f next - of_option f prev else 0)) as Hsum.
  { intros scope f. rewrite sum_calls_insert, Hlook. unfold only.
    destruct prev as [c|]; simpl; [rewrite (Hid c eq_refl)|]; destruct (in_scope scope (identity next)); lia. }
  constructor; cbn [calls sums]; [done| |done| |].
  - apply map_Forall_insert_2; [|done]. destruct Hnext. split_and!; done.
  - intros scope i. rewrite Hcell, Hp by (rewrite time_end_eq; lia). unfold waiting. cbn [calls]. rewrite Hsum.
    fold (pending_col i). destruct (in_scope scope (identity next)); [|done].
    f_equal. unfold change. cbn [Z.eqb].
    assert (∀ c, settled_share 0 i c = 0) as Hz by (intros c; unfold settled_share; by destruct (call_settled c) as [[? ?]|]).
    rewrite Hz. destruct prev; simpl; rewrite ?Hz; unfold pending_col; lia.
  - intros scope n i Hn. rewrite Hcell, Hs, Hsum by lia. unfold change. destruct (Z.eqb_spec n 0); [lia|].
    destruct (in_scope scope (identity next)); lia.
Qed.

Lemma validate_identity_root i : validate_identity i = Ok tt → budget_session_id i ≠ ROOT_SCOPE.
Proof.
  unfold validate_identity, validate_session_id. destruct (session_id_valid (session_id i)); [|done].
  destruct (session_id_valid (budget_session_id i)) eqn:E; [|done].
  intros _ Hz. by rewrite Hz in E.
Qed.

(** Every operation is a no-op or one write. *)
Inductive writes (L : Ledger) (L' : Ledger) (next : Call) : Prop :=
| writes_call prev L1 :
    calls L !! key_of (identity next) = prev → (∀ c, prev = Some c → identity c = identity next) →
    budget_session_id (identity next) ≠ ROOT_SCOPE →
    replace_projections L prev next = Ok L1 → save row_bytes L1 next = Ok L' → writes L L' next.

Lemma reserve_writes L p L' :
  reserve row_bytes L p = Ok L' →
  L' = L ∧ (∃ c, calls L !! key_of (plan_identity p) = Some c ∧ phase c = Reserved ∧ plan c = Some p) ∨
  calls L !! key_of (plan_identity p) = None ∧ writes L L' (mkCall (plan_identity p) (Some p) Reserved None).
Proof.
  unfold reserve. destruct (validate_plan p) as [[]|] eqn:Ev; [|done].
  destruct (load row_bytes L (plan_identity p)) as [o|] eqn:El; [|done].
  apply load_ok in El as [Hl Hid]. destruct o as [c|].
  - destruct (decide _) as [[? ?]|]; [|done]. intros [= <-]. left. eauto.
  - destruct (read _ _ _) as [global|]; [|done]. destruct (_ <=? _); [done|].
    destruct (read _ _ _) as [session|]; [|done]. destruct (admit_plan _ _ _ _); [|done].
    destruct (replace_projections _ _ _) as [L1|] eqn:Er; [|done]. intros Hsave. right. split; [done|].
    econstructor; [done|done| |done|done]. apply validate_identity_root. unfold validate_plan in Ev.
    by destruct (validate_identity _) as [[]|].
Qed.
Lemma transition_writes L i ph L' :
  transition_unstarted row_bytes L i ph = Ok L' →
  ∃ c, calls L !! key_of i = Some c ∧ identity c = i ∧ phase c = Reserved ∧
       writes L L' (mkCall i (plan c) ph (receipt c)).
Proof.
  unfold transition_unstarted. destruct (validate_identity i) as [[]|] eqn:Ev; [|done].
  destruct (load row_bytes L i) as [[c|]|] eqn:El; [|done..]. apply load_ok in El as [Hl Hid].
  specialize (Hid c eq_refl). destruct (decide (phase c = Reserved)); [|done].
  destruct (replace_projections _ _ _) as [L1|] eqn:Er; [|done]. intros Hsave.
  exists c. split_and!; [done..|]. rewrite Hid in Er, Hsave. econstructor; [done| | |done|done].
  - by intros ? [= <-].
  - by apply validate_identity_root.
Qed.
Definition next_of (r : ProviderCallReceipt) (prev : option Call) : Call :=
  mkCall (receipt_identity r) (prev ≫= plan)
    (if is_some (actual_charge (actual_cost r)) then Accounted else Ambiguous) (Some r).
Lemma record_writes L r recovery L' :
  record row_bytes L r recovery = Ok L' →
  let prev := calls L !! key_of (receipt_identity r) in
  (recovery = false → ∃ c, prev = Some c ∧ phase c ≠ Reserved ∧ phase c ≠ Cancelled) ∧
  (L' = L ∧ (∃ old, prev ≫= receipt = Some old ∧ (sequence_id r < sequence_id old ∨ r = old)) ∨
   (∀ old, prev ≫= receipt = Some old → sequence_id old < sequence_id r) ∧ writes L L' (next_of r prev)).
Proof.
  unfold record. destruct (validate_receipt r) as [[]|] eqn:Ev; [|done].
  destruct (load row_bytes L (receipt_identity r)) as [prev|] eqn:El; [|done]. apply load_ok in El as [Hl Hid].
  cbv zeta. rewrite Hl. destruct (negb recovery && _) eqn:Eg; [done|]. intros Hrec. split.
  { intros ->. destruct prev as [c|]; [|done]. cbn in Eg. apply bool_decide_eq_false in Eg.
    exists c. split; [done|]. tauto. }
  assert (match replace_projections L prev (next_of r prev) with Ok L1 => save row_bytes L1 (next_of r prev) | Err e => Err e end = Ok L' →
    writes L L' (next_of r prev)) as Hw.
  { destruct (replace_projections _ _ _) as [L1|] eqn:Er; [|done]. intros Hsave.
    econstructor; [done|done| |done|done]. apply validate_identity_root. unfold validate_receipt in Ev.
    by destruct (validate_identity _) as [[]|]. }
  destruct (prev ≫= receipt) as [old|] eqn:Eo; [|right; split; [done|by apply Hw]].
  destruct (Z.eqb_spec (sequence_id r) (sequence_id old)).
  { destruct (decide (r = old)); [|done]. injection Hrec as <-. left. eauto 10. }
  destruct (Z.ltb_spec (sequence_id r) (sequence_id old)).
  { injection Hrec as <-. left. split; [done|]. exists old. split; [done|by left]. }
  right. split; [intros ? [= <-]; lia|by apply Hw].
Qed.

Lemma step_inv turns L L' : Inv turns L → step L L' → Inv turns L'.
Proof.
  intros HI Hs.
  assert (∀ next, writes L L' next → call_typed next → Inv turns L') as Hw.
  { intros next [prev L1 ? ? ? ? ?] Hn. by eapply write_ok. }
  assert (∀ k c, calls L !! k = Some c → call_typed c) as Hty.
  { intros k c (_ & _ & ? & ? & _)%(inv_calls _ _ HI). by split. }
  assert (∀ i ph, transition_unstarted row_bytes L i ph = Ok L' → Inv turns L') as Htr.
  { intros i ph (c & Hc & Hid & _ & Hwr)%transition_writes. apply (Hw _ Hwr). by apply (Hty _ c Hc). }
  assert (∀ r b, receipt_typed r → record row_bytes L r b = Ok L' → Inv turns L') as Hrec.
  { intros r b Hr (_ & [[-> _]|[_ Hwr]])%record_writes; [done|]. apply (Hw _ Hwr).
    split; cbn [next_of plan receipt]; [|by intros ? [= <-]].
    intros q (c & Hc & Hq)%bind_Some. apply (Hty _ c Hc). done. }
  destruct Hs as [L p L' Hp Hr|L i L' Hr|L i L' Hr|L r L' Ht Hr|L r L' Ht Hr]; eauto.
  apply reserve_writes in Hr as [[-> _]|[_ Hwr]]; [done|]. apply (Hw _ Hwr).
  split; cbn [plan receipt]; [by intros ? [= <-]|done].
Qed.

Definition legacy_table (t : Table) (turns : list (string * string)) : Prop :=
  table_ok t ∧ Forall turn_ok turns ∧ ∀ scope n i, 0 ≤ n < TIME_END →
    cell t scope n i = legacy_in scope (λ k, share n k (unknown_at i)) turns.
Lemma preserve_row_ok t turns row t' :
  legacy_table t turns → preserve_row t row = Ok t' → legacy_table t' (turns ++ [row]).
Proof.
  intros (Ht & Hturns & Hc). unfold preserve_row, validate_session_id.
  destruct (session_id_valid row.1) eqn:Ev; [|done]. unfold parse_timestamp, parse.
  destruct (validate_utc_timestamp row.2) as [[]|]; [|done].
  destruct (dated t _ _ _ _) as [t1|] eqn:E1; [|done].
  apply dated_ok in E1 as (Hk & Ht1 & H1); [|done|apply wf_zero|apply unknown_amounts_wf|apply time_key_nonneg].
  intros E2. apply dated_ok in E2 as (_ & Ht2 & H2);
    [|done|apply wf_zero|apply unknown_amounts_wf|apply time_key_nonneg].
  assert (row.1 ≠ ROOT_SCOPE) as Hroot by (intros E; by rewrite E in Ev).
  split_and!; [done| |].
  { apply Forall_app. split; [done|]. by repeat constructor; try apply Hk. }
  intros scope n i Hn. rewrite H2, H1, Hc by done. unfold legacy_in. rewrite map_app, sum_Z_app. simpl.
  rewrite col_unknown_amounts, col_zero, Z.sub_0_r.
  destruct (String.eqb_spec scope ROOT_SCOPE), (String.eqb_spec scope row.1); cbn [orb];
    repeat case_decide; first [congruence | lia].
Qed.
Lemma open_inv turns L : open_legacy turns = Ok L → Inv turns L.
Proof.
  unfold open_legacy.
  assert (∀ l t pre t', legacy_table t pre →
    foldl (λ r row, match r with Ok t => preserve_row t row | Err e => Err e end) (Ok t) l = Ok t' →
    legacy_table t' (pre ++ l)) as Hfold.
  { induction l as [|row l IH]; intros t pre t' Ht; simpl.
    - intros [= <-]. by rewrite app_nil_r.
    - destruct (preserve_row t row) as [t1|e] eqn:E.
      + rewrite cons_middle, (assoc_L (++)). apply IH. by eapply preserve_row_ok.
      + assert (∀ k, foldl (λ r row, match r with Ok t => preserve_row t row | Err e => Err e end) (Err e) k = Err e)
          as -> by (by induction k). done. }
  destruct (foldl _ (Ok ∅) turns) as [t|] eqn:E; [|done]. intros [= <-].
  apply (Hfold turns ∅ []) in E as (Ht & Hturns & Hc).
  - constructor; cbn [calls sums]; [done|done|done| |].
    + intros scope i. rewrite Hc by (rewrite time_end_eq; lia). unfold waiting, sum_calls. cbn [calls].
      rewrite map_to_list_empty. cbn. unfold legacy_in. apply sum_Z_all_zero, Forall_true.
      intros row. by destruct (_ || _).
    + intros scope n i Hn. rewrite Hc by lia. unfold sum_calls. rewrite map_to_list_empty. done.
  - split_and!; [by intros k b ?%lookup_empty_Some|done|]. intros scope n i _. unfold cell, row.
    rewrite lookup_empty, col_zero. done.
Qed.

(** Reachable ledgers satisfy the invariant. *)
Lemma ledger_reachable_inv turns L : reachable turns L → Inv turns L.
Proof. induction 1; [by apply open_inv|by eapply step_inv]. Qed.

End reachable.

(** * Admission is exact *)

Section admission.
Context (turns : list (string * string)) (L : Ledger).
Context (HI : Inv turns L).
(** Counts and charges are 64-bit, so that this many entries cannot reach [u128::MAX]. *)
Context (Hfits : Z.of_nat (size (calls L)) + Z.of_nat (length turns) ≤ 2 ^ 60).

(** The entries of the index: settled calls and turn rollups *)
Definition ledger_entry : Type := (CallKey * Call) + (string * string).
Definition entry_key (e : ledger_entry) : Z :=
  match e with
  | inl kc => match call_settled kc.2 with Some (ts, _) => time_key ts | None => 1 end
  | inr row => time_key row.2
  end.
Definition entry_weight (scope : string) (i : nat) (e : ledger_entry) : Z :=
  match e with
  | inl kc => only scope (λ c, match call_settled c with Some (_, a) => col i a | None => 0 end) kc.2
  | inr row => if String.eqb scope ROOT_SCOPE || String.eqb scope row.1 then unknown_at i else 0
  end.
Definition ledger_entries : list ledger_entry := (inl <$> map_to_list (calls L)) ++ (inr <$> turns).

Lemma call_lookup kc : kc ∈ map_to_list (calls L) → call_ok kc.1 kc.2.
Proof using HI. intros Hin. destruct kc as [k c]. apply elem_of_map_to_list in Hin. by apply (inv_calls _ _ HI). Qed.

Lemma entries_key : Forall (λ e, 0 < entry_key e) ledger_entries.
Proof using HI.
  apply Forall_app. split; apply Forall_fmap, Forall_forall.
  - intros [k c] Hin. apply call_lookup in Hin as (_ & _ & _ & _ & Hk). simpl in *.
    destruct (call_settled c) as [[ts a]|]; [|lia]. by apply (Hk ts a).
  - intros row Hin. simpl. pose proof (inv_turns _ _ HI) as Ht. rewrite Forall_forall in Ht. apply (Ht row Hin).
Qed.
Lemma entries_weight scope i : Forall (λ e, 0 ≤ entry_weight scope i e ≤ u64_max) ledger_entries.
Proof using HI.
  assert (0 ≤ u64_max) by (vm_compute; discriminate).
  apply Forall_app. split; apply Forall_fmap, Forall_forall.
  - intros [k c] Hin. apply call_lookup in Hin as (_ & _ & _ & Hr & _). simpl in *. unfold only.
    destruct (in_scope _ _); [|lia]. destruct (call_settled c) as [[ts a]|] eqn:E; [|lia].
    unfold call_settled in E. destruct (phase c); try done. destruct (receipt c) as [r|]; [|done]. cbn in E.
    destruct (actual_charge (actual_cost r)) as [ch|] eqn:Ec; [|done]. cbn in E. injection E as <- <-.
    apply actual_charge_typed in Ec as [? ?]; [|by apply Hr]. rewrite col_charge_amounts. destruct (Nat.eqb _ _); lia.
  - intros row _. simpl. unfold unknown_at. destruct (_ || _), (Nat.eqb i UNKNOWN); unfold u64_max; lia.
Qed.

Lemma entries_sum (f : ledger_entry → Z) :
  sum_Z (map f ledger_entries) =
  sum_Z (map (λ kc, f (inl kc)) (map_to_list (calls L))) + sum_Z (map (λ row, f (inr row)) turns).
Proof using Type.
  unfold ledger_entries. rewrite map_app, sum_Z_app. change (@fmap _ list_fmap) with @map. by rewrite !map_map.
Qed.
Lemma entries_tree scope n i :
  0 < n < TIME_END →
  cell (sums L) scope n i = sum_Z (map (λ e, share n (entry_key e) (entry_weight scope i e)) ledger_entries).
Proof using HI.
  intros Hn. rewrite (inv_settled _ _ HI) by done. rewrite entries_sum.
  assert (∀ k, share n k 0 = 0) as Hz by (intros; unfold share; by destruct (_ && _)).
  f_equal; unfold sum_calls, legacy_in.
  - f_equal. apply map_ext. intros [k c]. unfold only, settled_share. simpl. unfold only.
    destruct (in_scope _ _); [|by rewrite Hz]. destruct (call_settled c) as [[ts a]|]; [done|by rewrite Hz].
  - f_equal. apply map_ext. intros row. simpl. by destruct (_ || _).
Qed.
Lemma entries_used scope n i : 0 ≤ n → upto entry_key (entry_weight scope) ledger_entries n i = used turns L scope 0 n i.
Proof using HI.
  intros Hn. unfold upto. rewrite entries_sum.
  unfold used. f_equal; unfold sum_calls, legacy_in.
  - f_equal. apply map_ext_in. intros [k c] Hin. apply list_elem_of_In in Hin.
    apply call_lookup in Hin as (_ & _ & _ & _ & Hk). simpl in *. unfold only, settled_between. simpl.
    destruct (in_scope _ _); [|by destruct (_ <=? _)].
    destruct (call_settled c) as [[ts a]|]; [|by destruct (1 <=? n)].
    specialize (Hk ts a eq_refl). replace (0 <=? time_key ts) with true by lia. done.
  - f_equal. apply map_ext. intros row. simpl. pose proof (time_key_nonneg row.2).
    replace (0 <=? time_key row.2) with true by lia. cbn [andb]. by destruct (_ || _), (_ <=? n).
Qed.
Lemma sum_Z_le_const {A} (f : A → Z) l b : Forall (λ x, f x ≤ b) l → sum_Z (map f l) ≤ Z.of_nat (length l) * b.
Proof. induction 1 as [|x l Hx Hl IH]; simpl; lia. Qed.
Lemma used_bound scope n i : 0 ≤ n → 0 ≤ used turns L scope 0 n i ≤ 2 ^ 60 * u64_max.
Proof using HI Hfits.
  intros Hn. rewrite <- entries_used by done. pose proof (entries_weight scope i) as Hw. split.
  - apply sum_Z_nonneg, Forall_fmap. eapply Forall_impl; [exact Hw|]. intros e He. simpl in *. destruct (_ <=? _); lia.
  - etrans; [apply (sum_Z_le_const _ _ u64_max)|].
    + eapply Forall_impl; [exact Hw|]. intros e He. simpl in *. destruct (_ <=? _); [lia|vm_compute; discriminate].
    + unfold ledger_entries. rewrite length_app, !length_fmap, length_map_to_list. unfold u64_max. lia.
Qed.
Lemma through_used scope n :
  0 ≤ n < TIME_END →
  ∃ a, through (sums L) scope n = Ok a ∧ wf_amounts a ∧ ∀ i, col i a = used turns L scope 0 n i.
Proof using HI Hfits.
  intros Hn. destruct (through_total entry_key (entry_weight scope) ledger_entries (sums L) scope
    (inv_table _ _ HI)) with (n := n) as (a & Ha & Hcol).
  - apply entries_key.
  - intros m i Hm. by apply entries_tree.
  - intros i. eapply Forall_impl; [apply (entries_weight scope i)|]. intros e He. simpl in *. lia.
  - done.
  - intros i. rewrite entries_used by lia. pose proof (used_bound scope n i). unfold u128_max, u64_max in *. lia.
  - exists a. split; [done|]. split; [|intros i; rewrite Hcol; apply entries_used; lia].
    eapply through_ok in Ha; [by apply Ha| | |intros; by apply entries_tree|done]; [apply (inv_table _ _ HI)|apply entries_key].
Qed.

(** The sum from the start of a window is what [through] at its end has and
    [through] before its start has not. *)
Lemma used_window scope lo hi i :
  0 ≤ lo ≤ hi → used turns L scope 0 hi i - used turns L scope 0 (sat_sub lo 1) i = used turns L scope lo hi i.
Proof using HI.
  intros Hlo. unfold used.
  assert (∀ k, 0 < k → ∀ x, (if (0 <=? k) && (k <=? hi) then x else 0) =
    (if (lo <=? k) && (k <=? hi) then x else 0) + (if (0 <=? k) && (k <=? sat_sub lo 1) then x else 0)) as Hk.
  { intros k Hk x. unfold sat_sub.
    destruct (Z.leb_spec 0 k), (Z.leb_spec k hi), (Z.leb_spec lo k), (Z.leb_spec k (Z.max (lo - 1) 0)); simpl; lia. }
  assert (sum_calls (only scope (settled_between 0 hi i)) (calls L) =
    sum_calls (only scope (settled_between lo hi i)) (calls L) +
    sum_calls (only scope (settled_between 0 (sat_sub lo 1) i)) (calls L)) as ->.
  { rewrite <- sum_calls_plus. apply sum_calls_ext. intros k c (_ & _ & _ & _ & Hc)%(inv_calls _ _ HI).
    unfold only, settled_between. destruct (in_scope _ _); [|done].
    destruct (call_settled c) as [[ts a]|]; [|done]. apply Hk. by apply (Hc ts a). }
  assert (∀ f g h : Z → Z, (∀ k, 0 < k → f k = g k + h k) →
    legacy_in scope f turns = legacy_in scope g turns + legacy_in scope h turns) as Hl.
  { intros f g h Hf. unfold legacy_in. apply sum_Z_plus. eapply Forall_impl; [apply (inv_turns _ _ HI)|].
    intros row [_ Hrow]. destruct (_ || _); [apply Hf|]; lia. }
  rewrite (Hl _ _ _ (λ k Hp, Hk k Hp (unknown_at i))). lia.
Qed.
Lemma used_window_nonneg scope lo hi i : 0 ≤ lo ≤ hi → 0 ≤ used turns L scope lo hi i ≤ used turns L scope 0 hi i.
Proof using HI Hfits.
  intros Hlo. pose proof (used_window scope lo hi i Hlo). pose proof (used_bound scope (sat_sub lo 1) i).
  assert (0 ≤ sat_sub lo 1) by (unfold sat_sub; lia).
  enough (0 ≤ used turns L scope lo hi i) by lia. unfold used. apply Z.add_nonneg_nonneg.
  - apply sum_Z_nonneg, Forall_fmap, Forall_forall. intros [k c] Hin. simpl.
    pose proof (entries_weight scope i) as Hw. unfold ledger_entries in Hw.
    apply Forall_app in Hw as [Hw _]. rewrite Forall_fmap, Forall_forall in Hw. specialize (Hw _ Hin). simpl in Hw.
    unfold only, settled_between in *. simpl in *. destruct (in_scope _ _); [|lia].
    destruct (call_settled c) as [[ts a]|]; [|lia]. destruct (_ && _); lia.
  - apply sum_Z_nonneg, Forall_fmap, Forall_forall. intros row _. simpl. unfold unknown_at.
    repeat case_match; lia.
Qed.

Lemma waiting_bound scope i : 0 ≤ waiting L scope i ≤ 2 ^ 60 * u64_max.
Proof using HI Hfits.
  assert (0 ≤ waiting L scope i ≤ Z.of_nat (size (calls L)) * u64_max) as Hb.
  { apply sum_calls_bound. intros k c (_ & _ & Hp & _ & _)%(inv_calls _ _ HI). unfold only.
    destruct (in_scope _ _); [|vm_compute; split; discriminate].
    by apply call_pending_col. }
  unfold u64_max in *. lia.
Qed.
End admission.

(** ** The specification *)

Definition scope_spec (strict : bool) (c : BudgetCharge) (scope : BudgetScope) (cap : option Z)
    (waiting used : nat → Z) : Result unit Error :=
  match cap with
  | None => Ok tt
  | Some cap =>
      let u := unit_index c in
      if strict && negb ((waiting UNKNOWN =? 0) && (used UNKNOWN =? 0)) then Err UnresolvedCharge
      else if cap <? used u + waiting u + amount c
      then Err (CapExceeded scope c (to_u64_or_max (used u)) (to_u64_or_max (waiting u)) cap)
      else Ok tt
  end.

(** Admission by direct summation over the calls: what is settled in the
    session, and root-wide since the start of the UTC day, plus what is
    unfinished, plus the request, against the caps of its unit. *)
Definition admission_spec (turns : list (string * string)) (L : Ledger) (p : BudgetReservationPlan) : Result unit Error :=
  if MAX_ACTIVE_PROVIDER_CALLS <=? waiting L ROOT_SCOPE ACTIVE then Err Capacity
  else match charge (plan_charge p) with
       | None => if bool_decide (Some 0 ∈ caps_of (budget p)) then Err UnresolvedCharge else Ok tt
       | Some c =>
           let at_key := time_key (admitted_at p) in
           let strict := is_bounded (Some (plan_charge p)) in
           let session := budget_session_id (plan_identity p) in
           let? _ := scope_spec strict c SessionScope (caps_for (budget p) c).1
                       (waiting L session) (used turns L session 0 at_key) in
           scope_spec strict c DailyScope (caps_for (budget p) c).2
             (waiting L ROOT_SCOPE) (used turns L ROOT_SCOPE (day_start at_key) at_key)
       end.

Lemma admit_scope_spec strict c scope cap w a (fw fu : nat → Z) :
  (∀ i, col i w = fw i) → (∀ i, col i a = fu i) →
  fu (unit_index c) + fw (unit_index c) + amount c ≤ u128_max → 0 ≤ amount c →
  admit_scope strict c scope cap w (Ok a) = scope_spec strict c scope cap fw fu.
Proof.
  intros Hw Hu Hb Hc. unfold admit_scope, scope_spec. destruct cap as [cap|]; [|done]. rewrite !Hw, !Hu.
  unfold u128_checked_add. destruct (Z.leb_spec (fu (unit_index c) + fw (unit_index c)) u128_max); [|lia].
  cbn [mbind option_bind]. destruct (Z.leb_spec (fu (unit_index c) + fw (unit_index c) + amount c) u128_max); [|lia].
  destruct strict; cbn [andb]; [|done]. destruct (fw UNKNOWN =? 0), (fu UNKNOWN =? 0); done.
Qed.

(** The write of an admitted call cannot fail for arithmetic. *)
Lemma pending_new_total t scope c :
  table_ok t → call_typed c → phase c = Reserved →
  (∀ i, 0 ≤ cell t scope 0 i ≤ 2 ^ 60 * u64_max + u64_max) →
  ∃ t', replace_scope None c t scope = Ok t'.
Proof.
  intros Ht [Hpl Hr] Hph Hb. unfold replace_scope, pending. cbn [mbind option_bind].
  assert (is_ok (update t scope 0 zero (call_pending c)) = true) as Hok.
  { apply update_total; [done|apply wf_zero|by apply call_pending_wf|vm_compute; discriminate| |].
    - intros i. rewrite col_zero. apply Hb.
    - intros i. rewrite col_zero. specialize (Hb i). pose proof (call_pending_col i c Hpl).
      unfold u128_max, u64_max in *. lia. }
  destruct (update t scope 0 zero (call_pending c)) as [t'|]; [|done].
  unfold call_settled. rewrite Hph. eauto.
Qed.

Section exact.
Context (row_bytes : Call → Z) (turns : list (string * string)) (L : Ledger) (p : BudgetReservationPlan).
Context (HI : Inv turns L).
Context (Hfits : Z.of_nat (size (calls L)) + Z.of_nat (length turns) ≤ 2 ^ 60).
Context (Hp : plan_typed p) (Hv : validate_plan p = Ok tt).

Lemma read_waiting scope :
  ∃ w, read (sums L) scope 0 = Ok w ∧ ∀ i, col i w = waiting L scope i.
Proof using HI.
  destruct (read_ok (sums L) scope 0 (inv_table _ _ HI)) as [Hr _]; [vm_compute; discriminate|].
  eexists. split; [exact Hr|]. intros i. apply (inv_pending _ _ HI).
Qed.
Lemma plan_key : 0 ≤ time_key (admitted_at p) < TIME_END.
Proof using Hv.
  rewrite time_end_eq. apply valid_timestamp_key. revert Hv. unfold validate_plan.
  destruct (validate_identity _) as [[]|]; [|done]. unfold parse_timestamp, parse.
  by destruct (validate_utc_timestamp (admitted_at p)) as [[]|].
Qed.

Lemma admit_exact session global :
  (∀ i, col i session = waiting L (budget_session_id (plan_identity p)) i) →
  (∀ i, col i global = waiting L ROOT_SCOPE i) →
  (MAX_ACTIVE_PROVIDER_CALLS <=? waiting L ROOT_SCOPE ACTIVE) = false →
  admit_plan (sums L) p session global = admission_spec turns L p.
Proof using HI Hfits Hp Hv.
  intros Hs Hg Hcap. unfold admission_spec. rewrite Hcap. unfold admit_plan. pose proof plan_key as Hat.
  set (at_key := time_key (admitted_at p)) in *. unfold plan_typed in Hp.
  destruct (charge (plan_charge p)) as [c|]; [|done].
  destruct (caps_for (budget p) c) as [session_cap daily_cap]. cbn [fst snd].
  assert (0 ≤ amount c ≤ u64_max) as Hc by done.
  assert (∀ x y, x ≤ 2 ^ 60 * u64_max → y ≤ 2 ^ 60 * u64_max → x + y + amount c ≤ u128_max) as Hsum.
  { unfold u64_max, u128_max in *. lia. }
  assert (0 ≤ day_start at_key ≤ at_key) as Hday.
  { unfold day_start. pose proof (Z.div_mod at_key 1000000000). pose proof (Z.mod_pos_bound at_key 1000000000).
    pose proof (Z.div_pos at_key 1000000000). lia. }
  destruct (through_used turns L HI Hfits (budget_session_id (plan_identity p)) at_key Hat) as (a & -> & _ & Ha).
  rewrite (admit_scope_spec _ c SessionScope session_cap session a _ _ Hs Ha); [|apply Hsum|lia].
  2: apply (used_bound turns L HI Hfits); lia. 2: apply (waiting_bound turns L HI Hfits).
  destruct (scope_spec _ _ SessionScope _ _ _) as [[]|]; [|done].
  destruct (through_used turns L HI Hfits ROOT_SCOPE at_key Hat) as (b & -> & Hwb & Hb).
  assert (0 ≤ sat_sub (day_start at_key) 1 < TIME_END) as Hlo by (unfold sat_sub; lia).
  destruct (through_used turns L HI Hfits ROOT_SCOPE _ Hlo) as (d & -> & Hwd & Hd).
  unfold subtract. pose proof (sub_amounts_spec b d) as Hsub. destruct Hwb as [Hlb _], Hwd as [Hld _].
  specialize (Hsub ltac:(lia)).
  assert (∀ i, col i b - col i d = used turns L ROOT_SCOPE (day_start at_key) at_key i ∧ col i d ≤ col i b) as Hdiff.
  { intros i. rewrite Hb, Hd. pose proof (used_window turns L HI ROOT_SCOPE _ _ i Hday).
    pose proof (used_window_nonneg turns L HI Hfits ROOT_SCOPE _ _ i Hday). lia. }
  destruct (sub_amounts b d) as [e|]; simpl.
  - destruct Hsub as (_ & Hcol & _). apply admit_scope_spec; [done| | |lia].
    + intros i. rewrite (proj1 (Hcol i)). apply Hdiff.
    + apply Hsum; [|apply (waiting_bound turns L HI Hfits)].
      pose proof (used_window_nonneg turns L HI Hfits ROOT_SCOPE _ _ (unit_index c) Hday).
      pose proof (used_bound turns L HI Hfits ROOT_SCOPE at_key (unit_index c)). lia.
  - destruct Hsub as [i Hi]. destruct (Hdiff i). lia.
Qed.

Lemma replace_new_total c :
  call_typed c → phase c = Reserved → budget_session_id (identity c) ≠ ROOT_SCOPE →
  ∃ L', replace_projections L None c = Ok L'.
Proof using HI Hfits.
  intros Hc Hph Hroot. unfold replace_projections.
  assert (∀ scope i, 0 ≤ cell (sums L) scope 0 i ≤ 2 ^ 60 * u64_max) as Hb.
  { intros scope i. rewrite (inv_pending _ _ HI). by eapply waiting_bound. }
  destruct (pending_new_total (sums L) ROOT_SCOPE c (inv_table _ _ HI) Hc Hph) as [t1 E1].
  { intros i. specialize (Hb ROOT_SCOPE i). unfold u64_max in *. lia. }
  rewrite E1. apply replace_scope_ok in E1 as (_ & Ht1 & H1); [|apply (inv_table _ _ HI)|done|done].
  destruct (pending_new_total t1 (budget_session_id (identity c)) c Ht1 Hc Hph) as [t2 ->]; [|eauto].
  intros i. rewrite H1 by (rewrite time_end_eq; lia). rewrite decide_False by done.
  specialize (Hb (budget_session_id (identity c)) i). unfold u64_max in *. lia.
Qed.
End exact.

(** C24: admission decides on exactly the settled and unfinished charges. On
    any reachable ledger, a valid plan for a new call is admitted or refused,
    with the very error, used and reserved amounts, that direct summation
    over all recorded calls gives: the index of sums never drifts from the
    calls. An admitted call is then stored as reserved, unless its row is
    over the byte limit. *)
Theorem admission_exact row_bytes turns L p :
  reachable row_bytes turns L →
  Z.of_nat (size (calls L)) + Z.of_nat (length turns) ≤ 2 ^ 60 →
  plan_typed p → validate_plan p = Ok tt → calls L !! key_of (plan_identity p) = None →
  let c := mkCall (plan_identity p) (Some p) Reserved None in
  match admission_spec turns L p with
  | Err e => reserve row_bytes L p = Err e
  | Ok _ =>
      if MAX_ROW_BYTES <? row_bytes c then is_ok (reserve row_bytes L p) = false
      else ∃ L', reserve row_bytes L p = Ok L' ∧ calls L' = <[key_of (plan_identity p) := c]> (calls L)
  end.
Proof.
  intros HI%ledger_reachable_inv Hfits Hp Hv Hnew c. unfold reserve. rewrite Hv. unfold load. rewrite Hnew.
  destruct (read_waiting turns L HI ROOT_SCOPE) as (g & -> & Hg).
  destruct (read_waiting turns L HI (budget_session_id (plan_identity p))) as (s & -> & Hs). rewrite Hg.
  destruct (MAX_ACTIVE_PROVIDER_CALLS <=? waiting L ROOT_SCOPE ACTIVE) eqn:Hcap.
  { unfold admission_spec. by rewrite Hcap. }
  rewrite (admit_exact turns L p HI Hfits Hp Hv s g Hs Hg Hcap).
  destruct (admission_spec turns L p) as [[]|e]; [|done].
  assert (call_typed c) as Hc by (split; cbn; [by intros ? [= <-]|done]).
  assert (budget_session_id (identity c) ≠ ROOT_SCOPE) as Hroot.
  { apply validate_identity_root. unfold validate_plan in Hv. by destruct (validate_identity _) as [[]|]. }
  destruct (replace_new_total turns L HI Hfits c Hc eq_refl Hroot) as [L1 Hr]. fold c. rewrite Hr.
  apply replace_projections_ok in Hr as (Hcalls & _); [|apply (inv_table _ _ HI)|done..].
  unfold save. destruct (MAX_ROW_BYTES <? row_bytes c); [done|].
  eexists. split; [done|]. cbn [calls identity]. by rewrite Hcalls.
Qed.

(** * Witnesses *)

Definition first_identity : ProviderCallIdentity := mkIdentity "s1" "s1" "t1" MainUsage "c1" 0.
Definition first_budget : BudgetConfig := mkBudget (Some 1000) (Some 1500) None None None None None None None 80.
Definition first_plan (n : Z) : BudgetReservationPlan :=
  mkPlan first_identity "2026-01-01T00:00:00.000Z" 100 50 (Bounded (UsdMicros n)) first_budget.

Lemma admission_exact_witness :
  reachable (λ _, 900) [] (mkLedger ∅ ∅) ∧
  admission_spec [] (mkLedger ∅ ∅) (first_plan 1001) =
    Err (CapExceeded SessionScope (UsdMicros 1001) 0 0 1000) ∧
  reserve (λ _, 900) (mkLedger ∅ ∅) (first_plan 1001) =
    Err (CapExceeded SessionScope (UsdMicros 1001) 0 0 1000).
Proof.
  assert (reachable (λ _, 900) [] (mkLedger ∅ ∅)) as Hr by (apply reach_open; vm_compute; reflexivity).
  assert (admission_spec [] (mkLedger ∅ ∅) (first_plan 1001) =
    Err (CapExceeded SessionScope (UsdMicros 1001) 0 0 1000)) as Hs by (vm_compute; reflexivity).
  split; [exact Hr|]. split; [exact Hs|].
  pose proof (admission_exact (λ _, 900) [] (mkLedger ∅ ∅) (first_plan 1001) Hr) as H.
  cbv zeta in H. rewrite Hs in H. apply H.
  - cbn [calls]. rewrite map_size_empty. cbn [length]. lia.
  - split; vm_compute; discriminate.
  - vm_compute. reflexivity.
  - reflexivity.
Defined.
