(* ===== verification/BudgetCaps.v ===== *)
(** Caps hold along every history of the provider ledger.

    A timed history interleaves the operations of any number of concurrent
    calls, their cancellations, duplicate receipts and recoveries, in the order
    of a clock.  Calls of the governed scope carry the cap and a charge, and
    receipts stay within what the ledger holds for their calls: the charge that
    was reserved, which is what [Pricing.charge_bound] provides, or for a
    correction the amount it corrects.  Then what is settled never exceeds the
    cap, per session, and root-wide per UTC day.  A receipt that reports more
    is recorded all the same, and [correction_overspends] shows a cap exceeded by
    one. *)
From Stdlib Require Import Ascii.
From S2P Require Import Prelude Text Ir Decimal Timestamp BudgetSums Pricing BudgetLedger BudgetAdmission.

Section caps.
Context (row_bytes : Call → Z) (turns : list (string * string)).
Context (which : BudgetScope) (session : string) (u : nat) (cap : Z).

(** The governed scope, its cap in a plan, and the period a cap covers: the
    whole session, or one UTC day *)
Definition cap_scope : string := match which with SessionScope => session | DailyScope => ROOT_SCOPE end.
Definition cap_in (b : BudgetConfig) (c : BudgetCharge) : option Z :=
  match which with SessionScope => (caps_for b c).1 | DailyScope => (caps_for b c).2 end.
Definition period (k : Z) : Z := match which with SessionScope => 0 | DailyScope => k / 1000000000 end.

(** A receipt of the governed scope repeats an earlier one; or reports for an
    unsettled call at most the charge its plan reserved, in the same unit; or
    corrects, in the same period and unit, a settled amount that is not smaller. *)
Definition within (L : Ledger) (r : ProviderCallReceipt) : Prop :=
  in_scope cap_scope (receipt_identity r) = true →
  ∃ c, calls L !! key_of (receipt_identity r) = Some c ∧
    ((∃ old, receipt c = Some old ∧ sequence_id r ≤ sequence_id old) ∨
     (phase c ≠ Accounted ∧ phase c ≠ Cancelled ∧
      ∃ p ch, plan c = Some p ∧ charge (plan_charge p) = Some ch ∧
        ∀ ch', actual_charge (actual_cost r) = Some ch' → unit_index ch' = unit_index ch ∧ amount ch' ≤ amount ch) ∨
     phase c = Accounted ∧
      ∃ old ch ch', receipt c = Some old ∧ period (time_key (accounted_at old)) = period (time_key (accounted_at r)) ∧
        actual_charge (actual_cost old) = Some ch ∧ actual_charge (actual_cost r) = Some ch' ∧
        unit_index ch' = unit_index ch ∧ amount ch' ≤ amount ch).

Inductive timed : Z → Ledger → Prop :=
| timed_open L : open_legacy turns = Ok L → timed 0 L
| timed_reserve now L p L' :
    timed now L → now ≤ time_key (admitted_at p) → plan_typed p →
    (in_scope cap_scope (plan_identity p) = true →
     ∃ c, charge (plan_charge p) = Some c ∧ (unit_index c = u → cap_in (budget p) c = Some cap)) →
    reserve row_bytes L p = Ok L' → timed (time_key (admitted_at p)) L'
| timed_start now L i L' : timed now L → start row_bytes L i = Ok L' → timed now L'
| timed_cancel now L i L' : timed now L → cancel_unstarted row_bytes L i = Ok L' → timed now L'
| timed_record now L r recovery L' :
    timed now L → now ≤ time_key (accounted_at r) → receipt_typed r → within L r →
    record row_bytes L r recovery = Ok L' → timed (time_key (accounted_at r)) L'.

Lemma timed_reachable now L : timed now L → reachable row_bytes turns L.
Proof.
  induction 1 as [L H|now L p L' _ IH _ Hp _ H|now L i L' _ IH H|now L i L' _ IH H|now L r b L' _ IH _ Hr _ H].
  - by constructor.
  - eapply reach_step; [done|]. by eapply step_reserve.
  - eapply reach_step; [done|]. by eapply step_start.
  - eapply reach_step; [done|]. by eapply step_cancel.
  - eapply reach_step; [done|]. destruct b; [by eapply step_reconcile|by eapply step_settle].
Qed.

(** * Amounts in one unit *)

Definition settled_in (b : Z) (c : Call) : Z :=
  match call_settled c with Some (ts, a) => if period (time_key ts) =? b then col u a else 0 | None => 0 end.
Definition spent (L : Ledger) (b : Z) : Z := sum_calls (only cap_scope (settled_in b)) (calls L).

Lemma pending_col_unfinished c :
  (u < 3)%nat → phase c ≠ Accounted → phase c ≠ Cancelled →
  pending_col u c = match (plan_charge <$> plan c) ≫= charge with
                    | Some ch => if Nat.eqb u (unit_index ch) then amount ch else 0
                    | None => 0
                    end.
Proof using Type.
  intros Hu H1 H2. unfold pending_col, call_pending.
  assert (∀ j (a : list Z), (3 ≤ j)%nat → col u (<[j := 1]> a) = col u a) as Hins.
  { intros j a Hj. unfold col. rewrite !nth_lookup. by rewrite list_lookup_insert_ne by lia. }
  transitivity (col u (match (plan_charge <$> plan c) ≫= charge with Some ch => charge_amounts ch | None => zero end)).
  - destruct (phase c); try done; (destruct (is_bounded _); [|rewrite Hins by (unfold UNKNOWN; lia)]);
      by rewrite Hins by (unfold ACTIVE; lia).
  - destruct ((plan_charge <$> plan c) ≫= charge); [apply col_charge_amounts|apply col_zero].
Qed.
Lemma pending_col_finished c : phase c = Accounted ∨ phase c = Cancelled → pending_col u c = 0.
Proof using Type. intros H. unfold pending_col, call_pending. destruct H as [-> | ->]; apply col_zero. Qed.
Lemma settled_in_unfinished b c : phase c ≠ Accounted → settled_in b c = 0.
Proof using Type. intros H. unfold settled_in, call_settled. by destruct (phase c). Qed.

(** * One write *)

Definition keys_upto (now : Z) (L : Ledger) : Prop :=
  ∀ k c ts a, calls L !! k = Some c → call_settled c = Some (ts, a) → time_key ts ≤ now.
Record capped (now : Z) (L : Ledger) : Prop := mkCapped {
  capped_keys : keys_upto now L;
  capped_now : spent L (period now) + waiting L cap_scope u ≤ cap;
  capped_all : ∀ b, spent L b ≤ cap;
}.

Lemma period_mono a b : a ≤ b → period a ≤ period b.
Proof using Type. intros H. unfold period. destruct which; [lia|]. apply Z.div_le_mono; lia. Qed.

Lemma spent_nonneg turns' L b : Inv turns' L → 0 ≤ spent L b.
Proof using Type.
  intros HI. unfold spent. apply sum_Z_nonneg, Forall_fmap, Forall_forall. intros [k c] Hin. simpl.
  apply elem_of_map_to_list in Hin. destruct (inv_calls _ _ HI _ _ Hin) as (_ & _ & _ & Hr & _).
  unfold only, settled_in. destruct (in_scope _ _); [|lia].
  destruct (call_settled c) as [[ts a]|] eqn:E; [|lia]. destruct (_ =? _); [|lia].
  apply wf_col. by eapply call_settled_wf.
Qed.
Lemma waiting_nonneg turns' L scope i : Inv turns' L → 0 ≤ waiting L scope i.
Proof using Type.
  intros HI. unfold waiting. apply sum_Z_nonneg, Forall_fmap, Forall_forall. intros [k c] Hin. simpl.
  apply elem_of_map_to_list in Hin. destruct (inv_calls _ _ HI _ _ Hin) as (_ & _ & Hp & _ & _).
  unfold only. destruct (in_scope _ _); [|lia]. apply call_pending_col. done.
Qed.

(** Time passing keeps the invariant: a new period starts with nothing spent. *)
Lemma spent_later now L b : keys_upto now L → period now < b → spent L b = 0.
Proof using Type.
  intros Hk Hb. unfold spent. apply sum_Z_all_zero, Forall_forall. intros [k c] Hin. simpl.
  apply elem_of_map_to_list in Hin. unfold only, settled_in. destruct (in_scope _ _); [|done].
  destruct (call_settled c) as [[ts a]|] eqn:E; [|done]. pose proof (Hk _ _ _ _ Hin E) as Hle.
  apply period_mono in Hle. destruct (Z.eqb_spec (period (time_key ts)) b); [lia|done].
Qed.
Lemma capped_advance turns' now now' L : Inv turns' L → now ≤ now' → capped now L → capped now' L.
Proof using Type.
  intros HI Hle [Hk Hn Ha]. constructor; [| |done].
  - intros k c ts a Hc Hs. pose proof (Hk k c ts a Hc Hs). lia.
  - destruct (Z.eq_dec (period now) (period now')) as [<-|Hne]; [done|].
    rewrite (spent_later now); [|done|pose proof (period_mono _ _ Hle); lia].
    pose proof (spent_nonneg turns' L (period now) HI). lia.
Qed.

(** Writing a call that the cap has room for *)
Definition held (b : Z) (c : Call) : Z := settled_in b c + pending_col u c.
Lemma capped_write turns' now L L' next :
  Inv turns' L' → capped now L → calls L' = <[key_of (identity next) := next]> (calls L) →
  (∀ ts a, call_settled next = Some (ts, a) → time_key ts = now) →
  let prev := calls L !! key_of (identity next) in
  (∀ c, prev = Some c → call_typed c) →
  spent L (period now) + waiting L cap_scope u +
    (only cap_scope (held (period now)) next - of_option (only cap_scope (held (period now))) prev) ≤ cap →
  capped now L'.
Proof using Type.
  intros HI' [Hk Hn Ha] Hcalls Htime prev Hprev Hroom.
  assert (∀ f, sum_calls f (calls L') = sum_calls f (calls L) - of_option f prev + f next) as Hsum.
  { intros f. rewrite Hcalls. apply sum_calls_insert. }
  assert (spent L' (period now) + waiting L' cap_scope u ≤ cap) as Hnow.
  { unfold spent, waiting. fold (pending_col u). rewrite !Hsum. unfold spent, waiting in Hroom. fold (pending_col u) in Hroom.
    assert (∀ c, only cap_scope (held (period now)) c =
      only cap_scope (settled_in (period now)) c + only cap_scope (pending_col u) c) as Hh.
    { intros c. unfold only, held. destruct (in_scope cap_scope (identity c)); lia. }
    rewrite Hh in Hroom. destruct prev as [c|]; cbn [of_option] in *; rewrite ?Hh in Hroom; lia. }
  constructor; [|done|].
  - intros k c ts a Hc Hs. rewrite Hcalls in Hc. apply lookup_insert_Some in Hc as [[_ <-]|[_ Hc]].
    + rewrite (Htime ts a Hs). lia.
    + by apply (Hk k c ts a).
  - intros b. destruct (Z.eq_dec b (period now)) as [->|Hne].
    { pose proof (waiting_nonneg turns' L' cap_scope u HI'). lia. }
    unfold spent. rewrite Hsum. fold (spent L b). specialize (Ha b).
    assert (only cap_scope (settled_in b) next = 0) as ->.
    { unfold only, settled_in. destruct (in_scope cap_scope (identity next)); [|done].
      destruct (call_settled next) as [[ts a]|]; [|done]. rewrite (Htime ts a eq_refl).
      destruct (Z.eqb_spec (period now) b); [congruence|done]. }
    destruct prev as [c|]; simpl; [|lia].
    assert (0 ≤ only cap_scope (settled_in b) c); [|lia]. unfold only, settled_in.
    destruct (in_scope cap_scope (identity c)); [|lia]. destruct (call_settled c) as [[ts a]|] eqn:E; [|lia].
    destruct (_ =? _); [|lia]. apply wf_col. eapply call_settled_wf; [|exact E]. by destruct (Hprev c eq_refl).
Qed.

(** * Admission leaves room *)

Lemma which_cases : which = SessionScope ∨ which = DailyScope.
Proof using Type. destruct which; auto. Qed.

Lemma admit_scope_room strict c scope k w totals :
  admit_scope strict c scope (Some k) w totals = Ok tt →
  ∃ a, totals = Ok a ∧ col (unit_index c) a + col (unit_index c) w + amount c ≤ k.
Proof using Type.
  unfold admit_scope. destruct (strict && _); [done|]. destruct totals as [a|]; [|done].
  destruct (strict && _); [done|]. unfold u128_checked_add.
  destruct (Z.leb_spec (col (unit_index c) a + col (unit_index c) w) u128_max); cbn [mbind option_bind]; [|done].
  destruct (Z.leb_spec (col (unit_index c) a + col (unit_index c) w + amount c) u128_max); [|done].
  destruct (Z.ltb_spec k (col (unit_index c) a + col (unit_index c) w + amount c)); [done|]. intros _. exists a. done.
Qed.
Lemma through_read L scope n a :
  Inv turns L → 0 ≤ n < TIME_END → through (sums L) scope n = Ok a →
  wf_amounts a ∧ ∀ i, col i a = used turns L scope 0 n i.
Proof using Type.
  intros HI Hn Ha. eapply (through_ok entry_key (entry_weight scope) (ledger_entries turns L)) in Ha as [Hw Hc];
    [| apply (inv_table _ _ HI) | by eapply entries_key | intros; by eapply entries_tree | done].
  split; [done|]. intros i. rewrite Hc. apply entries_used; [done|lia].
Qed.

(** Reads up to a time no earlier than the clock see the whole period. *)
Lemma used_spent now L t :
  (u < 3)%nat → Inv turns L → keys_upto now L → now ≤ t → 0 ≤ t →
  used turns L cap_scope (match which with SessionScope => 0 | DailyScope => day_start t end) t u = spent L (period t).
Proof using Type.
  intros Hu HI Hk Hle Ht. unfold used.
  assert (∀ f, (∀ k, f k = 0) → legacy_in cap_scope f turns = 0) as Hl.
  { intros f Hf. apply sum_Z_all_zero, Forall_true. intros row. rewrite Hf. by destruct (_ || _). }
  rewrite Hl, Z.add_0_r; [|intros k; unfold unknown_at, UNKNOWN; destruct (Nat.eqb_spec u 3); [lia|by destruct (_ && _)]].
  apply sum_calls_ext. intros k c Hc. unfold only, settled_between, settled_in.
  destruct (in_scope cap_scope (identity c)); [|done].
  destruct (call_settled c) as [[ts a]|] eqn:E; [|done]. pose proof (Hk k c ts a Hc E) as Hts.
  pose proof (time_key_nonneg ts) as H0. set (x := time_key ts) in *.
  unfold period. destruct which_cases as [-> | ->].
  - replace (0 <=? x) with true by lia. replace (x <=? t) with true by lia. done.
  - unfold day_start. replace (x <=? t) with true by lia. rewrite andb_true_r.
    pose proof (Z.div_mod x 1000000000 ltac:(lia)). pose proof (Z.mod_pos_bound x 1000000000 ltac:(lia)).
    assert (x / 1000000000 ≤ t / 1000000000) by (apply Z.div_le_mono; lia).
    destruct (Z.leb_spec (t / 1000000000 * 1000000000) x), (Z.eqb_spec (x / 1000000000) (t / 1000000000)); lia.
Qed.

Lemma reserve_room now L p L' c :
  (u < 3)%nat → session ≠ ROOT_SCOPE → Inv turns L → keys_upto now L → now ≤ time_key (admitted_at p) →
  reserve row_bytes L p = Ok L' → calls L !! key_of (plan_identity p) = None →
  in_scope cap_scope (plan_identity p) = true →
  charge (plan_charge p) = Some c → unit_index c = u → cap_in (budget p) c = Some cap →
  spent L (period (time_key (admitted_at p))) + waiting L cap_scope u + amount c ≤ cap.
Proof using Type.
  intros Hu Hroot HI Hk Hle Hres Hnew Hin Hch Hunit Hcap. unfold reserve in Hres.
  destruct (validate_plan p) as [[]|] eqn:Hv; [|done]. unfold load in Hres. rewrite Hnew in Hres.
  pose proof (plan_key p Hv) as Hat. set (t := time_key (admitted_at p)) in *.
  destruct (read_waiting turns L HI ROOT_SCOPE) as (g & Eg & Hg). rewrite Eg in Hres.
  destruct (_ <=? col ACTIVE g); [done|].
  destruct (read_waiting turns L HI (budget_session_id (plan_identity p))) as (w & Ew & Hw). rewrite Ew in Hres.
  destruct (admit_plan (sums L) p w g) as [[]|] eqn:Ha; [|done]. clear Hres. unfold admit_plan in Ha. rewrite Hch in Ha.
  destruct (caps_for (budget p) c) as [session_cap daily_cap] eqn:Ecaps. fold t in Ha.
  destruct (admit_scope _ _ SessionScope _ _ _) as [[]|] eqn:E1; [|done].
  pose proof (used_spent now L t Hu HI Hk Hle ltac:(lia)) as Hspent.
  unfold cap_in in Hcap. rewrite Ecaps in Hcap. rewrite <- Hspent. unfold cap_scope in *.
  destruct which_cases as [Ewhich|Ewhich]; rewrite Ewhich in *; cbn [fst snd] in *; subst session_cap || subst daily_cap.
  - apply admit_scope_room in E1 as (a & Ea & Hroom). apply through_read in Ea as [_ Ea]; [|done|done].
    unfold in_scope in Hin. destruct (String.eqb_spec session ROOT_SCOPE); [done|].
    apply String.eqb_eq in Hin. rewrite Hin in *. rewrite <- Hunit, <- Hw, <- Ea. lia.
  - apply admit_scope_room in Ha as (d & Ed & Hroom).
    destruct (through (sums L) ROOT_SCOPE t) as [a|] eqn:Ea; [|done]. apply through_read in Ea as [[Hla _] Ea]; [|done|done].
    assert (0 ≤ day_start t ≤ t) as Hday.
    { unfold day_start. pose proof (Z.div_mod t 1000000000). pose proof (Z.mod_pos_bound t 1000000000).
      pose proof (Z.div_pos t 1000000000). lia. }
    destruct (through (sums L) ROOT_SCOPE _) as [b|] eqn:Eb; [|done].
    apply through_read in Eb as [[Hlb _] Eb]; [|done|unfold sat_sub; lia].
    unfold subtract in Ed. pose proof (sub_amounts_spec a b ltac:(lia)) as Hsub.
    destruct (sub_amounts a b) as [d'|]; [|done]. injection Ed as ->. destruct Hsub as (_ & Hcol & _).
    rewrite <- (used_window turns L HI) by done. rewrite <- Ea, <- Eb, <- Hg, <- Hunit.
    destruct (Hcol (unit_index c)) as [E _]. lia.
Qed.

(** * Histories *)

Lemma writes_inv L L' next :
  Inv turns L → call_typed next → writes row_bytes L L' next →
  Inv turns L' ∧ calls L' = <[key_of (identity next) := next]> (calls L) ∧
  ∀ c, calls L !! key_of (identity next) = Some c → identity c = identity next.
Proof using Type.
  intros HI Ht [prev L1 Hl Hid Hroot Hr Hs]. rewrite Hl.
  destruct (write_ok row_bytes turns L prev next L1 L') as [? ?]; done.
Qed.

Lemma capped_reserve now L p L' :
  (u < 3)%nat → session ≠ ROOT_SCOPE → Inv turns L → capped now L → now ≤ time_key (admitted_at p) →
  plan_typed p →
  (in_scope cap_scope (plan_identity p) = true →
   ∃ c, charge (plan_charge p) = Some c ∧ (unit_index c = u → cap_in (budget p) c = Some cap)) →
  reserve row_bytes L p = Ok L' → capped (time_key (admitted_at p)) L'.
Proof using Type.
  intros Hu Hroot HI Hc Hle Hp Hcap Hres. pose proof Hres as [[-> _]|[Hnew Hw]]%reserve_writes.
  { by eapply capped_advance. }
  set (t := time_key (admitted_at p)) in *. set (next := mkCall (plan_identity p) (Some p) Reserved None) in *.
  assert (call_typed next) as Hty by (split; cbn; [by intros ? [= <-]|done]).
  destruct (writes_inv L L' next HI Hty Hw) as (HI' & Hcalls & _).
  eapply (capped_write turns t L L' next); [done|by eapply capped_advance|done|done| |]; cbn [next identity]; rewrite Hnew.
  { done. }
  cbn [of_option]. unfold only, held. rewrite settled_in_unfinished by done.
  pose proof (capped_now _ _ (capped_advance turns now t L HI Hle Hc)) as Hnow.
  cbn [identity next]. destruct (in_scope cap_scope (plan_identity p)) eqn:Ein; [|lia].
  destruct (Hcap eq_refl) as (c & Hch & Hcc). rewrite pending_col_unfinished by done.
  cbn [next plan fmap option_fmap option_map mbind option_bind]. rewrite Hch.
  destruct (Nat.eqb_spec u (unit_index c)) as [E|]; [|lia].
  pose proof (reserve_room now L p L' c Hu Hroot HI (capped_keys _ _ Hc) Hle Hres Hnew Ein Hch (eq_sym E)) as Hroom.
  specialize (Hroom (Hcc (eq_sym E))). fold t in Hroom. lia.
Qed.

Lemma capped_transition now L i ph L' :
  (u < 3)%nat → Inv turns L → capped now L → ph = Started ∨ ph = Cancelled →
  transition_unstarted row_bytes L i ph = Ok L' → capped now L'.
Proof using Type.
  intros Hu HI Hc Hph (c & Hl & Hid & Hres & Hw)%transition_writes.
  set (next := mkCall i (plan c) ph (receipt c)) in *.
  destruct (inv_calls _ _ HI _ _ Hl) as (_ & _ & Hp & Hr & _).
  destruct (writes_inv L L' next HI (conj Hp Hr) Hw) as (HI' & Hcalls & _).
  eapply (capped_write turns now L L' next); [done|done|done| | |]; cbn [next identity].
  - unfold call_settled. cbn [next phase]. by destruct Hph as [-> | ->].
  - rewrite Hl. by intros ? [= <-].
  - rewrite Hl. cbn [of_option]. unfold only, held. cbn [identity next]. rewrite Hid.
    rewrite !settled_in_unfinished by (cbn [next phase]; destruct Hph; congruence).
    pose proof (capped_now _ _ Hc). destruct (in_scope cap_scope i); [|lia].
    assert (pending_col u next ≤ pending_col u c); [|lia].
    pose proof (call_pending_col u c Hp) as [Hnn _]. fold (pending_col u c) in Hnn.
    destruct Hph as [-> | ->].
    + rewrite !pending_col_unfinished by (done || congruence). done.
    + rewrite (pending_col_finished next) by (by right). done.
Qed.

Lemma next_of_settled r prev :
  call_settled (next_of r prev) =
  (λ ch, (accounted_at r, charge_amounts ch)) <$> actual_charge (actual_cost r).
Proof using Type. unfold call_settled, next_of. cbn. by destruct (actual_charge (actual_cost r)). Qed.

(** A receipt holds no more than the plan it reports on, or the receipt it corrects. *)
Lemma held_settled r prev ch :
  actual_charge (actual_cost r) = Some ch →
  held (period (time_key (accounted_at r))) (next_of r prev) = if Nat.eqb u (unit_index ch) then amount ch else 0.
Proof using Type.
  intros Ea. unfold held. rewrite pending_col_finished by (left; cbn [next_of phase]; by rewrite Ea).
  unfold settled_in. rewrite next_of_settled, Ea. cbn [fmap option_fmap option_map]. rewrite Z.eqb_refl, col_charge_amounts. lia.
Qed.
Lemma held_reported t r c p ch :
  (u < 3)%nat → t = time_key (accounted_at r) → phase c ≠ Accounted → phase c ≠ Cancelled →
  plan c = Some p → charge (plan_charge p) = Some ch →
  (∀ ch', actual_charge (actual_cost r) = Some ch' → unit_index ch' = unit_index ch ∧ amount ch' ≤ amount ch) →
  held (period t) (next_of r (Some c)) ≤ held (period t) c.
Proof using Type.
  intros Hu -> Hph Hph' Hpl Hch Hb. destruct (actual_charge (actual_cost r)) as [ch'|] eqn:Ea.
  - rewrite (held_settled _ _ _ Ea). destruct (Hb ch' eq_refl) as [-> Ham]. unfold held.
    rewrite settled_in_unfinished, pending_col_unfinished, Hpl by done.
    cbn [fmap option_fmap option_map mbind option_bind]. rewrite Hch. destruct (Nat.eqb u (unit_index ch)); lia.
  - unfold held. rewrite !settled_in_unfinished by (done || (cbn [next_of phase]; by rewrite Ea)).
    rewrite !pending_col_unfinished by (done || (cbn [next_of phase]; by rewrite Ea)).
    cbn [next_of plan mbind option_bind]. rewrite Hpl. done.
Qed.
Lemma held_corrected t r c old ch ch' :
  t = time_key (accounted_at r) → phase c = Accounted → receipt c = Some old →
  period (time_key (accounted_at old)) = period (time_key (accounted_at r)) →
  actual_charge (actual_cost old) = Some ch → actual_charge (actual_cost r) = Some ch' →
  unit_index ch' = unit_index ch → amount ch' ≤ amount ch →
  held (period t) (next_of r (Some c)) ≤ held (period t) c.
Proof using Type.
  intros -> Hph Ho Hper Ha Ha' Hun Ham. rewrite (held_settled _ _ _ Ha'). unfold held.
  rewrite pending_col_finished by (by left). unfold settled_in, call_settled. rewrite Hph, Ho. cbn [mbind option_bind].
  rewrite Ha. cbn [mbind option_bind]. rewrite Hper, Z.eqb_refl, col_charge_amounts, Hun. destruct (Nat.eqb u (unit_index ch)); lia.
Qed.
Lemma capped_record now L r recovery L' :
  (u < 3)%nat → Inv turns L → capped now L → now ≤ time_key (accounted_at r) → receipt_typed r → within L r →
  record row_bytes L r recovery = Ok L' → capped (time_key (accounted_at r)) L'.
Proof using Type.
  intros Hu HI Hc Hle Hr Hwithin (_ & [[-> _]|[Hseq Hw]])%record_writes; [by eapply capped_advance|].
  set (t := time_key (accounted_at r)) in *. set (prev := calls L !! key_of (receipt_identity r)) in *.
  set (next := next_of r prev) in *.
  assert (∀ c, prev = Some c → (∀ p, plan c = Some p → plan_typed p)) as Hplans.
  { intros c Hl. by destruct (inv_calls _ _ HI _ _ Hl) as (_ & _ & Hp & _ & _). }
  assert (call_typed next) as Hty.
  { split; cbn; [|by intros ? [= <-]]. intros p (c & Hl & Hp)%bind_Some. by eapply Hplans. }
  destruct (writes_inv L L' next HI Hty Hw) as (HI' & Hcalls & Hid). cbn [next next_of identity] in Hid, Hcalls.
  fold prev in Hid.
  pose proof (capped_advance turns now t L HI Hle Hc) as Hct.
  eapply (capped_write turns t L L' next); [done|done|done| | |]; cbn [next next_of identity]; fold prev.
  { intros ts a. unfold next. rewrite next_of_settled. by intros (ch & _ & [= -> _])%fmap_Some. }
  { intros c Hl. by destruct (inv_calls _ _ HI _ _ Hl) as (_ & _ & ? & ? & _). }
  pose proof (capped_now _ _ Hct) as Hnow. unfold only at 1. cbn [next next_of identity].
  destruct (in_scope cap_scope (receipt_identity r)) eqn:Es.
  2: { destruct prev as [c|]; cbn [of_option]; [|lia]. unfold only. rewrite (Hid c eq_refl), Es. lia. }
  destruct (Hwithin Es) as (c & Hl & Hcase). fold prev in Hl. unfold prev in Hseq. fold prev in Hseq. rewrite Hl in Hseq |- *.
  specialize (Hid c Hl). cbn [of_option]. unfold only. rewrite Hid, Es. enough (held (period t) next ≤ held (period t) c) by lia.
  destruct Hcase as [(old & Ho & Hle')|[(Hph & Hph' & p & ch & Hpl & Hch & Hb)|(Hph & old & ch & ch' & Ho & Hper & Ha & Ha' & Hun & Ham)]].
  - specialize (Hseq old Ho). lia.
  - unfold next. rewrite Hl. by apply (held_reported t r c p ch).
  - unfold next. rewrite Hl. by apply (held_corrected t r c old ch ch').
Qed.

Lemma timed_capped now L :
  (u < 3)%nat → session ≠ ROOT_SCOPE → 0 ≤ cap → timed now L → capped now L.
Proof using Type.
  intros Hu Hroot Hcap Ht.
  induction Ht as [L H|now L p L' Ht IH Hle Hp Hin H|now L i L' Ht IH H|now L i L' Ht IH H|now L r b L' Ht IH Hle Hr Hw H];
    try pose proof (ledger_reachable_inv _ _ _ (timed_reachable _ _ Ht)) as HI.
  - unfold open_legacy in H. destruct (foldl _ _ _) as [t|]; [|done]. injection H as <-. constructor.
    + intros k c ts a Hc. cbn [calls] in Hc. by apply lookup_empty_Some in Hc.
    + unfold spent, waiting, sum_calls. cbn [calls]. rewrite map_to_list_empty. done.
    + intros b. unfold spent, sum_calls. cbn [calls]. rewrite map_to_list_empty. done.
  - by eapply capped_reserve.
  - eapply capped_transition; [done|done|done| |exact H]. by left.
  - eapply capped_transition; [done|done|done| |exact H]. by right.
  - by eapply capped_record.
Qed.
End caps.

(** C23: caps are never overspent. Along every timed history of the accounting
    root, however its calls interleave, fail, repeat their receipts or are
    recovered: if the calls of the governed scope carry the cap and a charge,
    and every receipt of that scope repeats an older one, or reports on a call that
    is neither settled nor cancelled at most the charge reserved for it, or
    corrects a settled amount to one of the same unit and period that is no
    larger, then in every period (the whole session for the session cap, each UTC
    day for the daily cap) the settled amount is at most the cap, and in the
    current period the settled and the unfinished amounts together are.  The
    ledger records other receipts too: [correction_overspends] exceeds a cap with
    a correction to a larger amount. *)
Theorem caps_never_overspent row_bytes turns which session u cap now L :
  (u < 3)%nat → session ≠ ROOT_SCOPE → 0 ≤ cap →
  timed row_bytes turns which session u cap now L →
  (∀ b, spent which session u L b ≤ cap) ∧
  spent which session u L (period which now) + waiting L (cap_scope which session) u ≤ cap.
Proof. intros Hu Hroot Hcap Ht. by destruct (timed_capped _ _ _ _ _ _ _ _ Hu Hroot Hcap Ht). Qed.

(** * A history *)

Definition sample_identity (call : string) : ProviderCallIdentity := mkIdentity "s1" "s1" "t1" MainUsage call 0.
Definition sample_budget : BudgetConfig :=
  mkBudget (Some 1000) (Some 1500) None None None None None None None 80.
Definition sample_plan (call at_utc : string) (n : Z) : BudgetReservationPlan :=
  mkPlan (sample_identity call) at_utc 100 50 (Bounded (UsdMicros n)) sample_budget.
Definition sample_receipt (call : string) (n : Z) : ProviderCallReceipt :=
  mkReceipt (sample_identity call) 7 "2026-01-01T00:00:05.000Z" (mkUsage 90 40 0 0 0) (Monetary n "USD").
Definition sample_row (_ : Call) : Z := 900.

Definition sample_run : Result Ledger Error :=
  let? L := open_legacy [] in
  let? L := reserve sample_row L (sample_plan "c1" "2026-01-01T00:00:00.000Z" 600) in
  let? L := start sample_row L (sample_identity "c1") in
  record sample_row L (sample_receipt "c1" 450) false.

(** What is left of the cap admits no more than the settled amount leaves. *)
Definition refusal (L : Ledger) (p : BudgetReservationPlan) : option Error :=
  match reserve sample_row L p with Ok _ => None | Err e => Some e end.
Example sample_run_caps :
  match sample_run with
  | Ok L => refusal L (sample_plan "c2" "2026-01-01T00:00:09.000Z" 551) =
              Some (CapExceeded SessionScope (UsdMicros 551) 450 0 1000) ∧
            refusal L (sample_plan "c2" "2026-01-01T00:00:09.000Z" 550) = None
  | Err _ => False
  end.
Proof. vm_compute. done. Qed.

Definition ledger_of (r : Result Ledger Error) : Ledger := match r with Ok L => L | Err _ => mkLedger ∅ ∅ end.
Lemma ledger_of_ok r : is_ok r = true → r = Ok (ledger_of r).
Proof. by destruct r. Qed.

(** A call reserves 600 and settles 100, another reserves the 900 that are left,
    and then a newer receipt corrects the 100 to 600. *)
Definition sample_correction (call : string) (n : Z) : ProviderCallReceipt :=
  mkReceipt (sample_identity call) 9 "2026-01-01T00:00:07.000Z" (mkUsage 90 40 0 0 0) (Monetary n "USD").
Example correction_overspends :
  match (let? L := sample_run in record sample_row L (sample_correction "c1" 100) false) with
  | Ok L =>
      match (let? L := reserve sample_row L (sample_plan "c2" "2026-01-01T00:00:09.000Z" 900) in
             record sample_row L (mkReceipt (sample_identity "c1") 11 "2026-01-01T00:00:10.000Z" (mkUsage 90 40 0 0 0) (Monetary 600 "USD")) false) with
      | Ok L => spent SessionScope "s1" 0 L 0 + waiting L "s1" 0 = 1500
      | Err _ => False
      end
  | Err _ => False
  end.
Proof. vm_compute. done. Qed.

Lemma caps_never_overspent_witness :
  ∃ L now, timed sample_row [] SessionScope "s1" 0 1000 now L ∧ spent SessionScope "s1" 0 L 0 = 420 ∧
    (∀ b, spent SessionScope "s1" 0 L b ≤ 1000) ∧
    spent SessionScope "s1" 0 L (period SessionScope now) + waiting L (cap_scope SessionScope "s1") 0 ≤ 1000.
Proof.
  set (p := sample_plan "c1" "2026-01-01T00:00:00.000Z" 600).
  pose (L1 := ledger_of (reserve sample_row (mkLedger ∅ ∅) p)).
  pose (L2 := ledger_of (start sample_row L1 (sample_identity "c1"))).
  pose (L3 := ledger_of (record sample_row L2 (sample_receipt "c1" 450) false)).
  pose (L4 := ledger_of (record sample_row L3 (sample_correction "c1" 420) true)).
  assert (timed sample_row [] SessionScope "s1" 0 1000 (time_key (admitted_at p)) L2) as H2.
  { apply (timed_start sample_row [] SessionScope "s1" 0 1000 _ L1 (sample_identity "c1") L2).
    2: { apply ledger_of_ok. vm_compute. reflexivity. }
    apply (timed_reserve sample_row [] SessionScope "s1" 0 1000 0 (mkLedger ∅ ∅) p L1).
    - apply timed_open. vm_compute. reflexivity.
    - vm_compute. discriminate.
    - vm_compute. split; discriminate.
    - intros _. exists (UsdMicros 600). split; [done|]. intros _. reflexivity.
    - apply ledger_of_ok. vm_compute. reflexivity. }
  assert (timed sample_row [] SessionScope "s1" 0 1000 (time_key (accounted_at (sample_receipt "c1" 450))) L3) as H3.
  { apply (timed_record sample_row [] SessionScope "s1" 0 1000 _ L2 _ false L3 H2); [vm_compute; discriminate|vm_compute; split; discriminate| |].
    - intros _. exists (mkCall (sample_identity "c1") (Some p) Started None). split; [vm_compute; reflexivity|]. right; left.
      split; [discriminate|]. split; [discriminate|]. exists p, (UsdMicros 600). split; [reflexivity|]. split; [reflexivity|].
      intros ch' E. vm_compute in E. injection E as <-. split; [reflexivity|vm_compute; discriminate].
    - apply ledger_of_ok. vm_compute. reflexivity. }
  assert (timed sample_row [] SessionScope "s1" 0 1000 (time_key (accounted_at (sample_correction "c1" 420))) L4) as H4.
  { apply (timed_record sample_row [] SessionScope "s1" 0 1000 _ L3 _ true L4 H3); [vm_compute; discriminate|vm_compute; split; discriminate| |].
    - intros _. exists (mkCall (sample_identity "c1") (Some p) Accounted (Some (sample_receipt "c1" 450))). split; [vm_compute; reflexivity|].
      right; right. split; [reflexivity|]. exists (sample_receipt "c1" 450), (UsdMicros 450), (UsdMicros 420).
      split_and!; [reflexivity..|vm_compute; discriminate].
    - apply ledger_of_ok. vm_compute. reflexivity. }
  exists L4, (time_key (accounted_at (sample_correction "c1" 420))). split; [exact H4|]. split; [vm_compute; reflexivity|].
  apply (caps_never_overspent sample_row [] SessionScope "s1" 0 1000 _ L4); [lia|done|lia|exact H4].
Defined.
