(* ===== verification/BudgetReplay.v ===== *)
(** Retries, crashes and replay of the provider ledger: a call is entered at
    most once, and reconciling journal receipts gives the same calls in any
    order. *)
From Stdlib Require Import Ascii.
From S2P Require Import Prelude Text Ir Timestamp BudgetSums Pricing BudgetLedger BudgetAdmission BudgetCaps.

Section replay.
Context (row_bytes : Call → Z).

Lemma writes_calls L L' next :
  writes row_bytes L L' next → calls L' = <[key_of (identity next) := next]> (calls L).
Proof.
  intros [prev L1 _ _ _ Hr Hs]. unfold replace_projections in Hr.
  destruct (replace_scope _ _ (sums L) _) as [t1|]; [|done]. destruct (replace_scope _ _ t1 _) as [t2|]; [|done].
  injection Hr as <-. unfold save in Hs. destruct (_ <? _); [done|]. by injection Hs as <-.
Qed.

(** * Entered once *)

(** A call of plan [pl] whose provider may have been entered: started, reported
    without an amount, or settled by a receipt with one *)
Definition entered (L : Ledger) (i : ProviderCallIdentity) (pl : option BudgetReservationPlan) : Prop :=
  ∃ c, calls L !! key_of i = Some c ∧ plan c = pl ∧
    (phase c = Started ∨ phase c = Ambiguous ∨
     phase c = Accounted ∧ ∃ r ch, receipt c = Some r ∧ actual_charge (actual_cost r) = Some ch).
(** The unsettled call [c] counts with the charge of its plan. *)
Definition charged (c : Call) : Prop :=
  col ACTIVE (call_pending c) = 1 ∧
  ∀ p ch, plan c = Some p → charge (plan_charge p) = Some ch → col (unit_index ch) (call_pending c) = amount ch.

Lemma entered_not_reserved L i pl : entered L i pl → ∃ c, calls L !! key_of i = Some c ∧ phase c ≠ Reserved.
Proof. intros (c & Hc & _ & H). exists c. split; [done|]. destruct H as [->|[->|[-> _]]]; done. Qed.
Lemma entered_transition L i pl j ph L' :
  entered L i pl → transition_unstarted row_bytes L j ph = Ok L' → entered L' i pl.
Proof.
  intros Hi (d & Hd & Hid & Hres & Hw)%transition_writes. destruct (entered_not_reserved _ _ _ Hi) as (c & Hc & Hn).
  apply writes_calls in Hw. cbn [identity] in Hw. unfold entered. rewrite Hw, lookup_insert_ne; [done|].
  intros E. rewrite E in Hd. congruence.
Qed.
Lemma entered_record L i pl r b L' : entered L i pl → record row_bytes L r b = Ok L' → entered L' i pl.
Proof.
  intros Hi (_ & [[-> _]|[_ Hw]])%record_writes; [done|]. apply writes_calls in Hw. cbn [identity next_of] in Hw.
  unfold entered. rewrite Hw. destruct (decide (key_of (receipt_identity r) = key_of i)) as [E|Hne].
  - destruct Hi as (c & Hc & Hp & _). rewrite E, lookup_insert_eq, Hc. eexists. split; [done|]. unfold next_of. cbn.
    split; [done|]. right. destruct (actual_charge (actual_cost r)) as [ch|] eqn:Ea; [right; eauto|by left].
  - by rewrite lookup_insert_ne.
Qed.
Lemma entered_step L L' i pl : entered L i pl → step row_bytes L L' → entered L' i pl.
Proof.
  intros Hi Hs. destruct Hs as [L p L' _ Hr|L j L' Hr|L j L' Hr|L r L' _ Hr|L r L' _ Hr].
  - apply reserve_writes in Hr as [[-> _]|[Hnew Hw]]; [done|]. apply writes_calls in Hw. cbn [identity] in Hw.
    destruct (entered_not_reserved _ _ _ Hi) as (c & Hc & _). unfold entered. rewrite Hw, lookup_insert_ne; [done|].
    intros E. rewrite E in Hnew. congruence.
  - by eapply entered_transition.
  - by eapply entered_transition.
  - by eapply entered_record.
  - by eapply entered_record.
Qed.
Lemma start_entered L i L' :
  start row_bytes L i = Ok L' → ∃ c, calls L !! key_of i = Some c ∧ phase c = Reserved ∧ entered L' i (plan c).
Proof.
  intros (c & Hc & Hid & Hres & Hw)%transition_writes. apply writes_calls in Hw. cbn [identity] in Hw.
  exists c. split_and!; [done..|]. eexists. rewrite Hw, lookup_insert_eq. split; [done|]. split; [done|by left].
Qed.
Lemma unsettled_charged c : phase c = Started ∨ phase c = Ambiguous → charged c.
Proof.
  intros Hph. assert (phase c ≠ Accounted ∧ phase c ≠ Cancelled) as [H1 H2] by (destruct Hph as [-> | ->]; done).
  split.
  - unfold call_pending. assert (∀ (a : list Z) x, length a = 5%nat → col ACTIVE (<[ACTIVE := x]> a) = x) as Hact.
    { intros a x Hl. unfold col, ACTIVE. rewrite nth_lookup, list_lookup_insert_eq by lia. done. }
    assert (length (match (plan_charge <$> plan c) ≫= charge with Some ch => charge_amounts ch | None => zero end) = 5%nat) as Hl.
    { destruct ((plan_charge <$> plan c) ≫= charge) as [[]|]; reflexivity. }
    assert (∀ (a : list Z) x, length a = 5%nat → col ACTIVE (<[UNKNOWN := 1]> (<[ACTIVE := x]> a)) = x) as Hact'.
    { intros a x Hlen. rewrite <- (Hact a x Hlen) at 2. unfold col. rewrite !nth_lookup.
      by rewrite list_lookup_insert_ne by (unfold UNKNOWN, ACTIVE; lia). }
    destruct Hph as [-> | ->]; (destruct (is_bounded _); [by apply Hact|by apply Hact']).
  - intros p ch Hp Hch. assert (unit_index ch < 3)%nat as Hu by (destruct ch; cbn; lia).
    change (pending_col (unit_index ch) c = amount ch). rewrite (pending_col_unfinished (unit_index ch) c Hu H1 H2), Hp.
    cbn [fmap option_fmap option_map mbind option_bind]. by rewrite Hch, Nat.eqb_refl.
Qed.

(** C26: a provider attempt is entered at most once. Once [start] has succeeded
    for an identity, then after any further operations of any callers it can
    neither be started again, nor cancelled, nor reserved anew under that
    identity.  Its row keeps the plan it was reserved with; until a receipt
    settles it with an amount, the row counts as one active call with the charge
    of that plan, and from then on a receipt with an amount is stored in it. *)
Theorem provider_entered_once L i L1 L2 :
  start row_bytes L i = Ok L1 → rtc (step row_bytes) L1 L2 →
  is_ok (start row_bytes L2 i) = false ∧ is_ok (cancel_unstarted row_bytes L2 i) = false ∧
  (∀ p, plan_identity p = i → is_ok (reserve row_bytes L2 p) = false) ∧
  ∃ reserved c, calls L !! key_of i = Some reserved ∧ phase reserved = Reserved ∧
    calls L2 !! key_of i = Some c ∧ plan c = plan reserved ∧
    ((phase c = Started ∨ phase c = Ambiguous) ∧ charged c ∨
     phase c = Accounted ∧ ∃ r ch, receipt c = Some r ∧ actual_charge (actual_cost r) = Some ch).
Proof.
  intros (c0 & Hc0 & Hr0 & Hs)%start_entered Hsteps. assert (entered L2 i (plan c0)) as Hi.
  { induction Hsteps as [|L1 L' L2 Hst _ IH]; [done|]. apply IH. by eapply entered_step. }
  clear Hs Hsteps. destruct (entered_not_reserved _ _ _ Hi) as (d & Hd & Hn).
  assert (∀ ph, is_ok (transition_unstarted row_bytes L2 i ph) = false) as Htr.
  { intros ph. destruct (transition_unstarted row_bytes L2 i ph) as [L'|] eqn:E; [|done].
    apply transition_writes in E as (c & Hc & _ & Hres & _). congruence. }
  split_and!; [apply Htr|apply Htr| |].
  - intros p <-. destruct (reserve row_bytes L2 p) as [L'|] eqn:E; [|done].
    apply reserve_writes in E as [(_ & c & Hc & Hres & _)|[Hnew _]]; congruence.
  - destruct Hi as (c & Hc & Hp & H). exists c0, c. split_and!; [done..|]. destruct H as [H|[H|H]]; [left|left|by right];
      (split; [auto|]; apply unsettled_charged; auto).
Qed.

(** * Order of receipts *)

Definition receipt_key (r : ProviderCallReceipt) : CallKey := key_of (receipt_identity r).
(** Reconciliation of a journal: [reconcile_accounted] on each receipt *)
Definition reconcile_all (L : Ledger) (rs : list ProviderCallReceipt) : Result Ledger Error :=
  foldl (λ res r, let? L := res in reconcile_accounted row_bytes L r) (Ok L) rs.

Definition old_receipt (L : Ledger) (k : CallKey) : option ProviderCallReceipt := calls L !! k ≫= receipt.

(** What a run of receipts leaves at one key: the newest one of the run, when
    it is newer than what was there. *)
Inductive outcome (L0 : Ledger) (rs : list ProviderCallReceipt) (k : CallKey) (o : option Call) : Prop :=
| outcome_new r :
    r ∈ rs → receipt_key r = k → o = Some (next_of r (calls L0 !! k)) →
    (∀ old, old_receipt L0 k = Some old → sequence_id old < sequence_id r) →
    (∀ r', r' ∈ rs → receipt_key r' = k → sequence_id r' < sequence_id r ∨ r' = r) → outcome L0 rs k o
| outcome_old :
    o = calls L0 !! k →
    (∀ r, r ∈ rs → receipt_key r = k →
      ∃ old, old_receipt L0 k = Some old ∧ (sequence_id r < sequence_id old ∨ r = old)) → outcome L0 rs k o.

Lemma elem_of_snoc {A} (x y : A) (l : list A) : x ∈ (l ++ [y])%list → x ∈ l ∨ x = y.
Proof. rewrite elem_of_app, list_elem_of_singleton. done. Qed.
Lemma next_of_next_of r r' prev : next_of r (Some (next_of r' prev)) = next_of r prev.
Proof. reflexivity. Qed.

Lemma outcome_snoc L0 rs r L L' :
  (∀ k, outcome L0 rs k (calls L !! k)) → record row_bytes L r true = Ok L' →
  ∀ k, outcome L0 (rs ++ [r])%list k (calls L' !! k).
Proof.
  intros Hout Hrec k. destruct (decide (receipt_key r = k)) as [Hk|Hk].
  2: { assert (calls L' !! k = calls L !! k) as ->.
       { apply record_writes in Hrec as (_ & [[-> _]|[_ Hw]]); [done|].
         apply writes_calls in Hw. rewrite Hw. by apply lookup_insert_ne. }
       destruct (Hout k) as [q Hq Hqk Ho Hold Hmax|Ho Hold].
       - eapply (outcome_new _ _ _ _ q); [set_solver|done|done|done|].
         intros r' [Hr'| ->]%elem_of_snoc; [by apply Hmax|done].
       - apply outcome_old; [done|]. intros r' [Hr'| ->]%elem_of_snoc; [by apply Hold|done]. }
  subst k. apply record_writes in Hrec as (_ & Hrec). cbv zeta in Hrec. fold (receipt_key r) in Hrec.
  destruct Hrec as [(-> & old & Ho & Hseq)|[Hnew Hw]]; destruct (Hout (receipt_key r)) as [q Hq Hqk Eo Hold Hmax|Eo Hold].
  - rewrite Eo in Ho. injection Ho as <-. rewrite Eo.
    eapply (outcome_new _ _ _ _ q); [set_solver|done|done|done|].
    intros r' [Hr'| ->]%elem_of_snoc; [by apply Hmax|done].
  - apply outcome_old; [done|]. intros r' [Hr'| ->]%elem_of_snoc Hk'; [by apply Hold|].
    exists old. split; [|done]. unfold old_receipt. by rewrite <- Eo.
  - apply writes_calls in Hw. cbn [identity next_of] in Hw. rewrite Hw, lookup_insert_eq, Eo, next_of_next_of.
    rewrite Eo in Hnew. specialize (Hnew q eq_refl).
    eapply (outcome_new _ _ _ _ r); [set_solver|done|done| |].
    + intros old Ho. specialize (Hold old Ho). lia.
    + intros r' [Hr'| ->]%elem_of_snoc Hk'; [|by right].
      left. destruct (Hmax r' Hr' Hk') as [| ->]; lia.
  - apply writes_calls in Hw. cbn [identity next_of] in Hw. rewrite Hw, lookup_insert_eq, Eo.
    assert (∀ old, old_receipt L0 (receipt_key r) = Some old → sequence_id old < sequence_id r) as Hn.
    { intros old Ho. apply Hnew. rewrite Eo. exact Ho. }
    eapply (outcome_new _ _ _ _ r); [set_solver|done|done|done|].
    intros r' [Hr'| ->]%elem_of_snoc Hk'; [|by right].
    left. destruct (Hold r' Hr' Hk') as (old & Ho & Hle). specialize (Hn old Ho). destruct Hle as [| ->]; lia.
Qed.
Lemma reconcile_outcome L rs L' : reconcile_all L rs = Ok L' → ∀ k, outcome L rs k (calls L' !! k).
Proof.
  unfold reconcile_all. revert L'. induction rs as [|r rs IH] using rev_ind; intros L'.
  - intros [= <-] k. apply outcome_old; [done|]. intros r Hr. by apply not_elem_of_nil in Hr.
  - rewrite foldl_app. cbn [foldl]. destruct (foldl _ (Ok L) rs) as [L1|]; [|done].
    intros Hrec. eapply outcome_snoc; [by apply IH|exact Hrec].
Qed.

(** Recovery does not depend on the order in which journal receipts are
    replayed: two complete reconciliations of the same receipts, in any two
    orders and with any repetitions, leave exactly the same calls. *)
Theorem reconcile_order_independent L rs rs' L1 L2 :
  (∀ r, r ∈ rs ↔ r ∈ rs') → reconcile_all L rs = Ok L1 → reconcile_all L rs' = Ok L2 → calls L1 = calls L2.
Proof.
  intros Heq H1 H2. apply map_eq. intros k.
  pose proof (reconcile_outcome _ _ _ H1 k) as O1. pose proof (reconcile_outcome _ _ _ H2 k) as O2.
  destruct O1 as [r Hr Hk E1 Hold Hmax|E1 Hold], O2 as [r2 Hr2 Hk2 E2 Hold2 Hmax2|E2 Hold2]; rewrite E1, E2; [| | |done].
  - apply Heq in Hr2. apply Heq in Hr. destruct (Hmax r2 Hr2 Hk2) as [| ->]; [|done].
    destruct (Hmax2 r Hr Hk) as [| ->]; [lia|done].
  - apply Heq in Hr. destruct (Hold2 r Hr Hk) as (old & Ho & Hle). specialize (Hold old Ho). destruct Hle as [| ->]; lia.
  - apply Heq in Hr2. destruct (Hold r2 Hr2 Hk2) as (old & Ho & Hle). specialize (Hold2 old Ho). destruct Hle as [| ->]; lia.
Qed.
End replay.

(** * Witnesses *)

Definition reserved_ledger : Ledger :=
  ledger_of (reserve sample_row (mkLedger ∅ ∅) (sample_plan "c1" "2026-01-01T00:00:00.000Z" 600)).
Definition started_ledger : Ledger := ledger_of (start sample_row reserved_ledger (sample_identity "c1")).

Lemma provider_entered_once_witness :
  start sample_row reserved_ledger (sample_identity "c1") = Ok started_ledger ∧
  is_ok (start sample_row started_ledger (sample_identity "c1")) = false ∧
  ∃ c, calls started_ledger !! key_of (sample_identity "c1") = Some c ∧ phase c = Started ∧ col 0 (call_pending c) = 600.
Proof.
  assert (start sample_row reserved_ledger (sample_identity "c1") = Ok started_ledger) as E
    by (apply ledger_of_ok; vm_compute; reflexivity).
  split; [exact E|].
  destruct (provider_entered_once sample_row reserved_ledger (sample_identity "c1") started_ledger started_ledger
    E (rtc_refl _ _)) as (H & _ & _ & reserved & c & Hr & _ & Hc & Hp & Hcase).
  split; [exact H|]. exists c. split; [exact Hc|].
  assert (Er : calls reserved_ledger !! key_of (sample_identity "c1") =
    Some (mkCall (sample_identity "c1") (Some (sample_plan "c1" "2026-01-01T00:00:00.000Z" 600)) Reserved None)) by (vm_compute; reflexivity).
  rewrite Er in Hr. injection Hr as <-.
  assert (Es : phase <$> calls started_ledger !! key_of (sample_identity "c1") = Some Started) by (vm_compute; reflexivity).
  rewrite Hc in Es. injection Es as Es. destruct Hcase as [[_ [_ Hch]]|[Hph _]]; [|rewrite Es in Hph; discriminate Hph].
  split; [exact Es|]. exact (Hch _ (UsdMicros 600) Hp eq_refl).
Defined.

Definition correction : ProviderCallReceipt :=
  mkReceipt (sample_identity "c1") 9 "2026-01-01T00:00:07.000Z" (mkUsage 90 40 0 0 0) (Monetary 420 "USD").
Lemma reconcile_order_independent_witness :
  calls (ledger_of (reconcile_all sample_row started_ledger [sample_receipt "c1" 450; correction])) =
  calls (ledger_of (reconcile_all sample_row started_ledger [correction; sample_receipt "c1" 450; correction])).
Proof.
  refine (reconcile_order_independent sample_row started_ledger
    [sample_receipt "c1" 450; correction] [correction; sample_receipt "c1" 450; correction] _ _ _ _ _).
  - intros r. rewrite !elem_of_cons. tauto.
  - apply ledger_of_ok. vm_compute. reflexivity.
  - apply ledger_of_ok. vm_compute. reflexivity.
Defined.
