(* ===== verification/Toon.v ===== *)
(** The TOON prompt encoder ([rw-context/src/toon.rs]) and the planner of its
    allocations ([rw-context/src/toon_admission.rs]).

    The [toon_format] crate is a parameter: [toon_encode] and [toon_decode] are
    its functions with the options the program passes (no key folding, no path
    expansion).  Nothing is assumed of them. *)
From S2P Require Import Prelude Text Ir Estimate.

Definition TOON_FORMAT_NOTE : string :=
  "TOON is indentation-based structured data; array headers declare [count]{fields}.".

Inductive ToonError : Type :=
| Allocation
| RequiresStructuredRoot
| Encode (why : string)
| Decode (why : string).

Record EncodedToon : Type := mkEncoded {
  payload : string;
  prompt_text : string;
  emitted_format_note : bool;
}.

Record ToonPromptEncoder : Type := mkEncoder { format_note_emitted : bool }.
Definition encoder_default : ToonPromptEncoder := mkEncoder false.

(** * Allocation planning *)

Record ToonAllocation : Type := mkAllocation { working_bytes : Z; prompt_bytes : Z }.
Record Shape : Type := mkShape { nodes : Z; indentation : Z }.

(** The [Shape] in [&mut self], [None] being the early return of [?]. *)
Fixpoint visit (self : Shape) (value : Value) (depth : Z) {struct value} : option Shape :=
  if 64 <? depth then None else
  n ← checked_add (nodes self) 1;
  d ← checked_mul depth 2;
  i ← checked_add (indentation self) d;
  let self := mkShape n i in
  match value with
  | JArray values =>
      (fix go (self : Shape) (l : list Value) : option Shape :=
         match l with
         | [] => Some self
         | v :: l' => self' ← visit self v (depth + 1); go self' l'
         end) self values
  | JObject values =>
      (fix go (self : Shape) (m : list (string * Value)) : option Shape :=
         match m with
         | [] => Some self
         | (_, v) :: m' => self' ← visit self v (depth + 1); go self' m'
         end) self values
  | _ => Some self
  end.

(** [Count::write] over the chunks the writer produces *)
Definition count_chunks (chunks : list string) : option Z :=
  foldl (λ acc chunk, n ← acc; checked_add n (str_len chunk)) (Some 0) chunks.

Section toon.
Context `{W : JsonWriter}.
Context (toon_encode : Value → Result string string).
Context (toon_decode : string → Result Value string).

(** [ToonAllocation::for_value] *)
Definition allocation_for_value (value : Value) : option ToonAllocation :=
  if negb (is_object value) && negb (is_array value) then None else
  shape ← visit (mkShape 0 0) value 0;
  chunks ← to_writer value;
  bytes ← count_chunks chunks;
  a ← checked_add bytes (indentation shape);
  per_node ← checked_mul (nodes shape) 64;
  b ← checked_add a per_node;
  prompt ← checked_add b (str_len TOON_FORMAT_NOTE + 1);
  w ← checked_mul prompt 16;
  node_work ← checked_mul (nodes shape) 8192;
  working ← checked_add w node_work;
  Some (mkAllocation working prompt).

Definition ensure_structured (value : Value) : Result unit ToonError :=
  if is_object value || is_array value then Ok tt else Err RequiresStructuredRoot.

Definition decode (input : string) : Result Value ToonError :=
  match toon_decode input with
  | Err error => Err (Decode error)
  | Ok value => let? _ := ensure_structured value in Ok value
  end.

Definition round_trips (encoded : string) (expected : Value) : bool :=
  match decode encoded with Ok decoded => json_eqb decoded expected | Err _ => false end.

Definition encode (value : Value) : Result string ToonError :=
  let? _ := ensure_structured value in
  match toon_encode value with
  | Err error => Err (Encode error)
  | Ok encoded =>
      if round_trips encoded value then Ok encoded
      else Err (Encode "self-validation failed for the pinned v3.0 encoding")
  end.

(** [ToonPromptEncoder::encode]: the encoder after the call and the result *)
Definition encoder_encode (self : ToonPromptEncoder) (value : Value)
    : ToonPromptEncoder * Result EncodedToon ToonError :=
  match encode value with
  | Err e => (self, Err e)
  | Ok payload =>
      let note := negb (format_note_emitted self) in
      let text := if note then TOON_FORMAT_NOTE ++ String (byte 10) payload else payload in
      (mkEncoder true, Ok (mkEncoded payload text note))
  end.

Definition encode_bounded (self : ToonPromptEncoder) (value : Value) (allowance : Z)
    : ToonPromptEncoder * Result EncodedToon ToonError :=
  match allocation_for_value value with
  | None => (self, Err Allocation)
  | Some plan =>
      if allowance <? working_bytes plan then (self, Err Allocation)
      else encoder_encode self value
  end.

Definition reset (self : ToonPromptEncoder) : ToonPromptEncoder := mkEncoder false.

(** * Faithfulness of the payload *)

(** Whatever the TOON library does, a payload that [encode] returns is
    the text of a structured value and decodes back to a value equal to the
    one that was encoded: a lossy or wrong encoding is an error, never a
    payload. *)
Theorem encode_faithful value text :
  encode value = Ok text →
  (is_object value || is_array value) = true ∧
  ∃ decoded, decode text = Ok decoded ∧ json_eqb decoded value = true.
Proof.
  unfold encode, ensure_structured.
  destruct (is_object value || is_array value); [|done].
  destruct (toon_encode value) as [s|]; [|done].
  unfold round_trips. destruct (decode s) as [decoded|] eqn:D; [|done].
  destruct (json_eqb decoded value) eqn:E; [|done]. intros [= <-]. eauto.
Qed.

(** * The one-time note *)

Inductive EncoderCall : Type :=
| CallEncode (value : Value)
| CallBounded (value : Value) (allowance : Z)
| CallReset.

Definition call (self : ToonPromptEncoder) (c : EncoderCall)
    : ToonPromptEncoder * option (Result EncodedToon ToonError) :=
  match c with
  | CallEncode v => let '(s, r) := encoder_encode self v in (s, Some r)
  | CallBounded v n => let '(s, r) := encode_bounded self v n in (s, Some r)
  | CallReset => (reset self, None)
  end.

Fixpoint run (self : ToonPromptEncoder) (cs : list EncoderCall)
    : list (option (Result EncodedToon ToonError)) :=
  match cs with
  | [] => []
  | c :: cs' => let '(s, r) := call self c in r :: run s cs'
  end.

(** What a conversation has shown so far, given the calls' results: whether a
    note was shown since the last reset. *)
Definition note_shown (shown : bool) (r : option (Result EncodedToon ToonError)) : bool :=
  match r with Some (Ok _) => true | Some (Err _) => shown | None => false end.

Definition note_ok (shown : bool) (r : option (Result EncodedToon ToonError)) : Prop :=
  match r with
  | Some (Ok e) =>
      emitted_format_note e = negb shown ∧
      prompt_text e = if shown then payload e else TOON_FORMAT_NOTE ++ String (byte 10) (payload e)
  | _ => True
  end.

Lemma call_note self c :
  note_ok (format_note_emitted self) (call self c).2 ∧
  format_note_emitted (call self c).1 =
    note_shown (format_note_emitted self) (call self c).2.
Proof.
  assert (He : ∀ v, note_ok (format_note_emitted self) (Some (encoder_encode self v).2) ∧
    format_note_emitted (encoder_encode self v).1 =
      note_shown (format_note_emitted self) (Some (encoder_encode self v).2)).
  { intros v. unfold encoder_encode. destruct (encode v); simpl; [|done].
    by destruct (format_note_emitted self). }
  destruct c as [v|v n|]; simpl; [| |done].
  - specialize (He v). by destruct (encoder_encode self v).
  - unfold encode_bounded. destruct (allocation_for_value v) as [plan|]; simpl; [|done].
    destruct (n <? working_bytes plan); simpl; [done|].
    specialize (He v). by destruct (encoder_encode self v).
Qed.

(** In every sequence of encodes, bounded encodes and resets, each
    successful encode carries the format note exactly when no encode has
    succeeded since the start or the last reset; failed calls do not consume
    the note, and without a note the prompt text is the bare payload. *)
Theorem note_emitted_once cs i r :
  run encoder_default cs !! i = Some r →
  note_ok (foldl note_shown false (take i (run encoder_default cs))) r.
Proof.
  change false with (format_note_emitted encoder_default) at 1.
  generalize encoder_default as self. revert i.
  induction cs as [|c cs IH]; intros i self; simpl; [by rewrite lookup_nil|].
  destruct (call_note self c) as [Hok Hshown].
  destruct (call self c) as [s res]; simpl in *. destruct i as [|i]; simpl.
  - by intros [= <-].
  - rewrite <- Hshown. apply IH.
Qed.
End toon.

(** * The plan in closed form *)

Fixpoint json_nodes (v : Value) : Z :=
  match v with
  | JArray l => 1 + (fix go l := match l with [] => 0 | x :: l' => json_nodes x + go l' end) l
  | JObject m =>
      1 + (fix go (m : list (string * Value)) :=
             match m with [] => 0 | (_, x) :: m' => json_nodes x + go m' end) m
  | _ => 1
  end.

(** The nesting depth below a value: 0 for a scalar or an empty container. *)
Fixpoint json_height (v : Value) : Z :=
  match v with
  | JArray l =>
      (fix go l := match l with [] => 0 | x :: l' => Z.max (1 + json_height x) (go l') end) l
  | JObject m =>
      (fix go (m : list (string * Value)) :=
         match m with [] => 0 | (_, x) :: m' => Z.max (1 + json_height x) (go m') end) m
  | _ => 0
  end.

(** The sum of twice the depth of every node, the root being at [depth]. *)
Fixpoint json_indent (depth : Z) (v : Value) : Z :=
  match v with
  | JArray l =>
      2 * depth +
      (fix go l := match l with [] => 0 | x :: l' => json_indent (depth + 1) x + go l' end) l
  | JObject m =>
      2 * depth +
      (fix go (m : list (string * Value)) :=
         match m with [] => 0 | (_, x) :: m' => json_indent (depth + 1) x + go m' end) m
  | _ => 2 * depth
  end.

(** What visiting a value at [depth] does to the running shape. *)
Definition grow (s : Shape) (n i height depth : Z) : option Shape :=
  if (depth + height <=? 64) && (nodes s + n <=? usize_max) && (indentation s + i <=? usize_max)
  then Some (mkShape (nodes s + n) (indentation s + i)) else None.

Lemma grow_some s n i h d s' :
  grow s n i h d = Some s' ↔
  d + h ≤ 64 ∧ nodes s + n ≤ usize_max ∧ indentation s + i ≤ usize_max ∧
  s' = mkShape (nodes s + n) (indentation s + i).
Proof.
  unfold grow.
  destruct (Z.leb_spec (d + h) 64), (Z.leb_spec (nodes s + n) usize_max),
    (Z.leb_spec (indentation s + i) usize_max); simpl; naive_solver lia.
Qed.

(** One step then the children is the whole. *)
Lemma grow_compose s n1 i1 h1 d1 n2 i2 h2 d2 n i h d :
  0 ≤ n2 → 0 ≤ i2 → n = n1 + n2 → i = i1 + i2 →
  Z.max (d1 + h1) (d2 + h2) = d + h →
  (s' ← grow s n1 i1 h1 d1; grow s' n2 i2 h2 d2) = grow s n i h d.
Proof.
  intros Hn Hi -> -> Hh. unfold grow.
  destruct (Z.leb_spec (d1 + h1) 64), (Z.leb_spec (nodes s + n1) usize_max),
    (Z.leb_spec (indentation s + i1) usize_max),
    (Z.leb_spec (d + h) 64), (Z.leb_spec (nodes s + (n1 + n2)) usize_max),
    (Z.leb_spec (indentation s + (i1 + i2)) usize_max); simpl; try done; try lia;
    destruct (Z.leb_spec (d2 + h2) 64), (Z.leb_spec (nodes s + n1 + n2) usize_max),
      (Z.leb_spec (indentation s + i1 + i2) usize_max); simpl; try done; try lia.
  f_equal. f_equal; lia.
Qed.

Lemma visit_head s d :
  0 ≤ d →
  (if 64 <? d then None else
     n ← checked_add (nodes s) 1; x ← checked_mul d 2; i ← checked_add (indentation s) x;
     Some (mkShape n i)) = grow s 1 (2 * d) 0 d.
Proof.
  intros Hd. unfold grow, checked_add, checked_mul. rewrite Z.add_0_r, (Z.mul_comm d 2).
  assert ((2 * d <=? usize_max) = (2 * d <=? 2 * d) ∨ 64 < d) as [->|Hlt].
  { destruct (Z.leb_spec (2 * d) (2 * d)); [|lia].
    destruct (Z.leb_spec (2 * d) usize_max) as [|Hbig]; [auto|]. unfold usize_max, u64_max in Hbig. lia. }
  - generalize (2 * d). intros e. rewrite Z.leb_refl.
    destruct (Z.ltb_spec 64 d), (Z.leb_spec d 64); try lia; [done|].
    destruct (Z.leb_spec (nodes s + 1) usize_max); simpl; [|done].
    by destruct (indentation s + e <=? usize_max).
  - rewrite (proj2 (Z.ltb_lt _ _) Hlt). by rewrite (proj2 (Z.leb_gt d 64)) by lia.
Qed.

(** An object is visited and measured like the array of its values. *)
Lemma object_as_array m s d :
  visit s (JObject m) d = visit s (JArray (map snd m)) d ∧
  json_nodes (JObject m) = json_nodes (JArray (map snd m)) ∧
  json_height (JObject m) = json_height (JArray (map snd m)) ∧
  json_indent d (JObject m) = json_indent d (JArray (map snd m)).
Proof.
  split_and!.
  - simpl. destruct (64 <? d); [done|].
    destruct (checked_add (nodes s) 1) as [n|]; simpl; [|done].
    destruct (checked_mul d 2) as [x|]; simpl; [|done].
    destruct (checked_add (indentation s) x) as [i|]; simpl; [|done].
    generalize (mkShape n i).
    induction m as [|[k v] m IH]; intros s'; simpl; [done|]. destruct (visit s' v (d + 1)); [apply IH|done].
  - simpl. f_equal. induction m as [|[k v] m IH]; simpl; [done|]. by rewrite IH.
  - simpl. induction m as [|[k v] m IH]; simpl; [done|]. by rewrite IH.
  - simpl. f_equal. induction m as [|[k v] m IH]; simpl; [done|]. by rewrite IH.
Qed.

Lemma json_measures_nonneg v d : 0 ≤ d → 1 ≤ json_nodes v ∧ 0 ≤ json_height v ∧ 0 ≤ json_indent d v.
Proof.
  assert (Hl : ∀ l d, 0 ≤ d → Forall (λ v, ∀ d, 0 ≤ d → 1 ≤ json_nodes v ∧ 0 ≤ json_height v ∧
      0 ≤ json_indent d v) l →
    1 ≤ json_nodes (JArray l) ∧ 0 ≤ json_height (JArray l) ∧ 0 ≤ json_indent d (JArray l)).
  { clear. intros l d Hd. induction 1 as [|x k Hx Hk IHk]; simpl in *; [lia|].
    specialize (Hx (d + 1) ltac:(lia)). lia. }
  revert d. induction v as [| | | |l IH|m IH] using Value_ind'; intros d Hd; try (simpl; lia).
  - by apply Hl.
  - destruct (object_as_array m (mkShape 0 0) d) as (_ & -> & -> & ->). apply Hl; [done|].
    by apply Forall_fmap.
Qed.

Lemma array_cons x l d :
  json_nodes (JArray (x :: l)) = json_nodes x + json_nodes (JArray l) ∧
  json_height (JArray (x :: l)) = Z.max (1 + json_height x) (json_height (JArray l)) ∧
  json_indent d (JArray (x :: l)) = json_indent (d + 1) x + json_indent d (JArray l).
Proof. cbn -[Z.mul Z.max]. split_and!; lia. Qed.

Lemma array_indent l d : 0 ≤ d → 2 * d ≤ json_indent d (JArray l).
Proof.
  intros Hd. induction l as [|x l IH]; [cbn -[Z.mul]; lia|].
  destruct (array_cons x l d) as (_ & _ & ->).
  pose proof (json_measures_nonneg x (d + 1) ltac:(lia)). lia.
Qed.

(** The running shape is within bounds at a node that may still have children. *)
Definition shape_ok (s : Shape) (d : Z) : Prop :=
  nodes s ≤ usize_max ∧ indentation s ≤ usize_max ∧ d ≤ 64.

Lemma visit_children l s d :
  0 ≤ d → shape_ok s d →
  Forall (λ v, ∀ s d, 0 ≤ d → visit s v d = grow s (json_nodes v) (json_indent d v) (json_height v) d) l →
  (fix go (self : Shape) (l : list Value) : option Shape :=
     match l with
     | [] => Some self
     | v :: l' => self' ← visit self v (d + 1); go self' l'
     end) s l =
  grow s (json_nodes (JArray l) - 1) (json_indent d (JArray l) - 2 * d) (json_height (JArray l)) d.
Proof.
  intros Hd Hok Hl. revert s Hok. induction Hl as [|x l Hx Hl IH]; intros s (Hn & Hi & Hd64).
  - symmetry. apply grow_some. destruct s as [n i]. cbn -[Z.mul Z.add Z.sub] in *.
    split_and!; try lia. f_equal; lia.
  - rewrite Hx by lia.
    pose proof (json_measures_nonneg x (d + 1) ltac:(lia)).
    pose proof (json_measures_nonneg (JArray l) d Hd).
    pose proof (array_indent l d Hd). destruct (array_cons x l d) as (-> & -> & ->).
    rewrite <- (grow_compose s (json_nodes x) (json_indent (d + 1) x) (json_height x) (d + 1)
      (json_nodes (JArray l) - 1) (json_indent d (JArray l) - 2 * d) (json_height (JArray l)) d
      (json_nodes x + json_nodes (JArray l) - 1)
      (json_indent (d + 1) x + json_indent d (JArray l) - 2 * d)
      (Z.max (1 + json_height x) (json_height (JArray l))) d) by lia.
    destruct (grow s _ _ _ _) as [s'|] eqn:E; [|done]. simpl. apply grow_some in E as (? & ? & ? & ->).
    apply IH. unfold shape_ok; simpl; lia.
Qed.

(** Visiting succeeds exactly when the value nests at most 64 deep and neither
    counter overflows; then it adds the nodes and the indentation. *)
Lemma visit_exact v s d :
  0 ≤ d → visit s v d = grow s (json_nodes v) (json_indent d v) (json_height v) d.
Proof.
  assert (Hl : ∀ l s d, 0 ≤ d →
    Forall (λ v, ∀ s d, 0 ≤ d → visit s v d = grow s (json_nodes v) (json_indent d v) (json_height v) d) l →
    visit s (JArray l) d = grow s (json_nodes (JArray l)) (json_indent d (JArray l))
                                (json_height (JArray l)) d).
  { clear. intros l s d Hd Hl. pose proof (json_measures_nonneg (JArray l) d Hd).
    pose proof (array_indent l d Hd).
    rewrite <- (grow_compose s 1 (2 * d) 0 d (json_nodes (JArray l) - 1)
      (json_indent d (JArray l) - 2 * d) (json_height (JArray l)) d) by lia.
    rewrite <- visit_head by done. cbn [visit]. destruct (64 <? d) eqn:E64; [done|].
    unfold checked_add, checked_mul.
    destruct (Z.leb_spec (nodes s + 1) usize_max); simpl; [|done].
    destruct (d * 2 <=? usize_max); simpl; [|done].
    destruct (Z.leb_spec (indentation s + d * 2) usize_max); simpl; [|done].
    apply visit_children; [done| |done]. apply Z.ltb_ge in E64. done. }
  revert s d. induction v as [| | |str|l IH|m IH] using Value_ind'; intros s d Hd;
    try (exact (visit_head s d Hd)).
  - by apply Hl.
  - destruct (object_as_array m s d) as (-> & -> & -> & ->). apply Hl; [done|]. by apply Forall_fmap.
Qed.

Lemma count_chunks_exact chunks :
  count_chunks chunks =
  if sum_Z (map str_len chunks) <=? usize_max then Some (sum_Z (map str_len chunks)) else None.
Proof.
  unfold count_chunks.
  assert (Hn : ∀ l, foldl (λ acc chunk, n ← acc; checked_add n (str_len chunk)) None l = None).
  { induction l; done. }
  assert (Hg : ∀ l a, 0 ≤ a ≤ usize_max →
    foldl (λ acc chunk, n ← acc; checked_add n (str_len chunk)) (Some a) l =
    if a + sum_Z (map str_len l) <=? usize_max then Some (a + sum_Z (map str_len l)) else None).
  { induction l as [|c l IH]; intros a Ha; simpl.
    - rewrite Z.add_0_r. by rewrite (proj2 (Z.leb_le _ _)) by lia.
    - pose proof (str_len_nonneg c).
      assert (0 ≤ sum_Z (map str_len l)) by (apply sum_Z_nonneg, Forall_fmap, Forall_true; intros;
        apply str_len_nonneg).
      unfold checked_add at 2. destruct (Z.leb_spec (a + str_len c) usize_max).
      + rewrite IH by lia. by rewrite Z.add_assoc.
      + rewrite Hn. destruct (Z.leb_spec (a + (str_len c + sum_Z (map str_len l))) usize_max);
          [lia|done]. }
  apply (Hg chunks 0). unfold usize_max, u64_max. lia.
Qed.

Section plan.
Context {W : JsonWriter} {HW : CompactJson W}.

(** Bytes of the plan: the compact text, the indentation, 64 bytes of
    separators and headers per node and the note with its newline. *)
Definition planned_prompt (v : Value) : Z :=
  json_bytes v + json_indent 0 v + 64 * json_nodes v + str_len TOON_FORMAT_NOTE + 1.
Definition planned_working (v : Value) : Z := 16 * planned_prompt v + 8192 * json_nodes v.

(** Planning succeeds exactly for objects and arrays nested at most 64
    deep whose plan fits the address width, and then the plan is the exact
    formula over the text length, node count and indentation: no checked
    step rejects a plan that fits and none lets one wrap. *)
Theorem allocation_exact v :
  allocation_for_value v =
  if (is_object v || is_array v) && (json_height v <=? 64) && (planned_working v <=? usize_max)
  then Some (mkAllocation (planned_working v) (planned_prompt v)) else None.
Proof.
  unfold allocation_for_value. destruct (is_object v || is_array v) eqn:Es; last first.
  { apply orb_false_iff in Es as [-> ->]. done. }
  replace (negb (is_object v) && negb (is_array v)) with false
    by (apply orb_true_iff in Es; destruct (is_object v), (is_array v); naive_solver).
  rewrite visit_exact by lia.
  destruct (compact_total v) as [chunks Hch]. rewrite Hch.
  assert (Hb : json_bytes v = sum_Z (map str_len chunks)) by (unfold json_bytes; by rewrite Hch).
  pose proof (json_measures_nonneg v 0 ltac:(lia)) as (Hn & Hh & Hi).
  assert (0 ≤ json_bytes v).
  { rewrite Hb. apply sum_Z_nonneg, Forall_fmap, Forall_true. intros. apply str_len_nonneg. }
  unfold planned_working, planned_prompt, grow. cbn [nodes indentation].
  rewrite !Z.add_0_l. pose proof (str_len_nonneg TOON_FORMAT_NOTE).
  destruct (Z.leb_spec (json_height v) 64); simpl; [|done].
  destruct (Z.leb_spec (json_nodes v) usize_max); simpl;
    [|by rewrite (proj2 (Z.leb_gt _ _)) by lia].
  destruct (Z.leb_spec (json_indent 0 v) usize_max); simpl;
    [|by rewrite (proj2 (Z.leb_gt _ _)) by lia].
  rewrite count_chunks_exact, <- Hb.
  generalize dependent (json_bytes v). intros bytes Hb Hpos.
  generalize dependent (str_len TOON_FORMAT_NOTE). intros note Hnote.
  generalize dependent (json_nodes v). intros n Hn ?.
  generalize dependent (json_indent 0 v). intros i Hi ?.
  unfold checked_add, checked_mul.
  repeat (match goal with |- context [?a <=? usize_max] =>
            first [ rewrite (proj2 (Z.leb_le a usize_max)) by lia
                  | rewrite (proj2 (Z.leb_gt a usize_max)) by lia
                  | destruct (Z.leb_spec a usize_max) ] end; cbn [mbind option_bind andb]);
    try done; f_equal; f_equal; lia.
Qed.
End plan.

(** * A concrete library for the witnesses: it only knows one document. *)

Definition sample_toon_encode (v : Value) : Result string string :=
  if json_eqb v (JArray [JNull]) then Ok "[1]: null" else Ok "lossy".
Definition sample_toon_decode (s : string) : Result Value string :=
  if String.eqb s "[1]: null" then Ok (JArray [JNull]) else Err "unknown".

Lemma encode_faithful_witness :
  encode sample_toon_encode sample_toon_decode (JArray []) =
    Err (Encode "self-validation failed for the pinned v3.0 encoding") ∧
  ∃ decoded, decode sample_toon_decode "[1]: null" = Ok decoded ∧
             json_eqb decoded (JArray [JNull]) = true.
Proof.
  split; [reflexivity|].
  exact (proj2 (encode_faithful sample_toon_encode sample_toon_decode (JArray [JNull]) "[1]: null"
    eq_refl)).
Defined.

Definition sample_calls : list EncoderCall :=
  [CallEncode (JArray []); CallEncode (JArray [JNull]); CallBounded (JArray [JNull]) 100000;
   CallReset; CallEncode (JArray [JNull])].

Lemma note_emitted_once_witness :
  ∃ r, @run SampleJson.writer sample_toon_encode sample_toon_decode encoder_default sample_calls
         !! 4%nat = Some (Some (Ok r)) ∧ emitted_format_note r = true.
Proof.
  eexists. split; [vm_compute; reflexivity|].
  exact (proj1 (@note_emitted_once SampleJson.writer sample_toon_encode sample_toon_decode
    sample_calls 4 _ ltac:(vm_compute; reflexivity))).
Defined.

Lemma allocation_exact_witness :
  @allocation_for_value SampleJson.writer sample_object =
  Some (mkAllocation (@planned_working SampleJson.writer sample_object)
                     (@planned_prompt SampleJson.writer sample_object)).
Proof.
  rewrite (@allocation_exact SampleJson.writer SampleJson.writer_compact sample_object).
  vm_compute. reflexivity.
Defined.
