(* ===== verification/ShellSplit.v ===== *)
(** The three command scanners: [split_compound] (permission rules,
    [rw-core/src/permission/rules.rs]), [split_compound_with_operators]
    (remembered invocations, [rw-core/src/permission/identity.rs]) and
    [safe_command_segments] (the built-in safe list,
    [rw-tools/src/bash/safety.rs]).

    The three loops differ only in the operators they accept and in what they
    do with a segment, so they share [scan].  The scan is over bytes: every
    character the loops test is ASCII, and the bytes of any other character
    are at least 128, so walking characters or bytes makes the same decisions.
    The [shell_words] crate is the parameter [ShellWords]. *)
From S2P Require Import Prelude Text.
From Stdlib Require Import Ascii.

Class ShellWords : Type := {
  sw_split : string → option (list string);
  sw_quote : string → string;
}.

(** * The shared loop *)

Inductive Delim : Type :=
| Plain
| Reject
| Cut1 (operator : string)
| Cut2 (operator : string).

Definition snoc (s : string) (c : ascii) : string := s ++ String c "".
Definition next_char (s : string) : option ascii :=
  match s with String c _ => Some c | "" => None end.
Definition is_char (c d : ascii) : bool := Ascii.eqb c d.

Section scan.
Context {A : Type} (classify : ascii → option ascii → Delim) (push : string → string → option A).

(** [cur] is the text since [start]; the result is the segments pushed and
    the text after the last operator. *)
Fixpoint scan (single double escaped : bool) (cur : string) (segments : list A) (s : string)
    {struct s} : option (list A * string) :=
  match s with
  | "" => if single || double || escaped then None else Some (segments, cur)
  | String character rest =>
      if escaped then scan single double false (snoc cur character) segments rest
      else if is_char character "\" && negb single
      then scan single double true (snoc cur character) segments rest
      else if is_char character "'" && negb double
      then scan (negb single) double false (snoc cur character) segments rest
      else if is_char character (byte 34) && negb single
      then scan single (negb double) false (snoc cur character) segments rest
      else if negb single && negb double then
        match classify character (next_char rest) with
        | Plain => scan single double false (snoc cur character) segments rest
        | Reject => None
        | Cut1 operator =>
            match push cur operator with
            | None => None
            | Some segment => scan single double false "" (segments ++ [segment])%list rest
            end
        | Cut2 operator =>
            match push cur operator, rest with
            | Some segment, String _ rest' =>
                scan single double false "" (segments ++ [segment])%list rest'
            | _, _ => None
            end
        end
      else scan single double false (snoc cur character) segments rest
  end.
End scan.

Definition is_next (next : option ascii) (c : ascii) : bool :=
  match next with Some d => is_char d c | None => false end.

(** The operators of [split_compound_with_operators], those of
    [split_compound] being the same. *)
Definition classify_compound (character : ascii) (next : option ascii) : Delim :=
  if is_char character "&" && is_next next "&" then Cut2 "&&"
  else if is_char character "|" && is_next next "|" then Cut2 "||"
  else if is_char character ";" then Cut1 ";"
  else if is_char character "|" then Cut1 "|"
  else if is_char character (byte 10) then Cut1 (String (byte 10) "")
  else if char_in "&()<>" character then Reject
  else Plain.

(** The operators of [safe_command_segments]. *)
Definition classify_safe (character : ascii) (next : option ascii) : Delim :=
  if is_char character "&" && is_next next "&" then Cut2 "&&"
  else if is_char character "|" && is_next next "|" then Cut2 "||"
  else if is_char character ";" then Cut1 ";"
  else if char_in "|&<>()" character then Reject
  else Plain.

(** * The three functions *)

Definition split_compound (command : string) : option (list string) :=
  match scan classify_compound (λ cur _, let segment := trim cur in
               if is_empty segment then None else Some segment)
             false false false "" [] command with
  | None => None
  | Some (segments, rest) =>
      let tail := trim rest in
      Some (if is_empty tail then segments else segments ++ [tail])%list
  end.

Definition split_compound_with_operators (command : string)
    : option (list (string * option string)) :=
  match scan classify_compound (λ cur operator, let segment := trim cur in
               if is_empty segment then None else Some (segment, Some operator))
             false false false "" [] command with
  | None => None
  | Some (segments, rest) =>
      let tail := trim rest in
      if is_empty tail then None else Some (segments ++ [(tail, None)])%list
  end.

Section safe.
Context `{SW : ShellWords}.

Definition canonical_segment (segment : string) : option string :=
  match sw_split segment with
  | Some arguments => Some (join " " (map sw_quote arguments))
  | None => None
  end.

Definition push_canonical (cur : string) : option string :=
  match canonical_segment (trim cur) with
  | Some canonical => if is_empty canonical then None else Some canonical
  | None => None
  end.

Definition safe_command_segments (command : string) : option (list (string * option string)) :=
  if is_empty command || contains_any (String (byte 10) (String (byte 13) "`$")) command ||
     contains_any (String (byte 0) "") command
  then None else
  match scan classify_safe (λ cur operator, match push_canonical cur with
               | Some canonical => Some (canonical, Some operator) | None => None end)
             false false false "" [] command with
  | None => None
  | Some (segments, rest) =>
      match push_canonical rest with
      | Some canonical => Some (segments ++ [(canonical, None)])%list
      | None => None
      end
  end.
End safe.

(** * What the scan of raw text does *)

(** The raw pieces: segments and operators as they stand in the command. *)
Definition pieces (command : string) : option (list (string * string) * string) :=
  scan classify_compound (λ cur operator, Some (cur, operator)) false false false "" [] command.

Fixpoint reassemble (l : list (string * string)) (tail : string) : string :=
  match l with
  | [] => tail
  | (segment, operator) :: l' => segment ++ operator ++ reassemble l' tail
  end.

Lemma snoc_app s c t : (snoc s c ++ t)%string = (s ++ String c t)%string.
Proof.
  unfold snoc. induction s as [|d s IH]; [done|].
  change (String d ((s ++ String c "") ++ t)%string = String d (s ++ String c t)%string).
  by rewrite IH.
Qed.
Lemma reassemble_snoc l segment operator tail :
  reassemble (l ++ [(segment, operator)])%list tail =
  reassemble l (segment ++ operator ++ tail)%string.
Proof. induction l as [|[a b] l IH]; simpl; [done|]. by rewrite IH. Qed.

(** Strong induction on the text that is left to scan. *)
Lemma string_length_ind (P : string → Prop) :
  (∀ s, (∀ t, (String.length t < String.length s)%nat → P t) → P s) → ∀ s, P s.
Proof.
  intros H s. remember (String.length s) as n eqn:Hn. revert s Hn.
  induction n as [n IH] using lt_wf_ind. intros s ->. apply H. intros t Ht. by eapply IH.
Qed.

Lemma mapM_app {A B} (f : A → option B) l k :
  mapM f (l ++ k)%list = (a ← mapM f l; b ← mapM f k; Some (a ++ b)%list).
Proof.
  induction l as [|x l IH]; simpl.
  - by destruct (mapM f k).
  - destruct (f x) as [y|]; simpl; [|done]. rewrite IH. destruct (mapM f l); simpl; [|done].
    by destruct (mapM f k).
Qed.

Section scan_lemmas.
Context (classify : ascii → option ascii → Delim).

Definition raw_push (cur operator : string) : option (string * string) := Some (cur, operator).

(** The scan only ever appends to the segments. *)
Lemma scan_extends {A} (push : string → string → option A) s : ∀ single double escaped cur segments r,
  scan classify push single double escaped cur segments s = Some r →
  ∃ l, r.1 = (segments ++ l)%list.
Proof.
  induction s as [s IH] using string_length_ind. intros single double escaped cur segments r.
  destruct s as [|c s]; simpl.
  { case_match; [done|]. intros [= <-]. exists []. by rewrite app_nil_r. }
  assert (IH' : ∀ t, (String.length t ≤ String.length s)%nat → ∀ si d e cu segs,
    scan classify push si d e cu segs t = Some r → ∃ l, r.1 = (segs ++ l)%list).
  { intros t Ht si d e cu segs. apply IH. simpl. lia. }
  repeat case_match; simplify_eq; try (apply IH'; simpl; lia); try done.
  all: intros [l Hl]%IH'; [|simpl; lia].
  all: exists (a :: l); by rewrite Hl, <- app_assoc.
Qed.

(** A scan that pushes is the raw scan followed by the pushes. *)
Lemma scan_push {A} (push : string → string → option A) s :
  ∀ single double escaped cur raw segments,
  mapM (uncurry push) raw = Some segments →
  scan classify push single double escaped cur segments s =
  (r ← scan classify raw_push single double escaped cur raw s;
   l ← mapM (uncurry push) r.1; Some (l, r.2)).
Proof.
  induction s as [s IH] using string_length_ind. intros single double escaped cur raw segments Hm.
  destruct s as [|c s]; simpl.
  { case_match; simpl; [done|]. by rewrite Hm. }
  assert (IH' : ∀ t, (String.length t ≤ String.length s)%nat → ∀ si d e cu rw segs,
    mapM (uncurry push) rw = Some segs →
    scan classify push si d e cu segs t =
    (r ← scan classify raw_push si d e cu rw t; l ← mapM (uncurry push) r.1; Some (l, r.2))).
  { intros t Ht si d e cu rw segs. apply IH. simpl. lia. }
  assert (Hcut : ∀ o t, (String.length t ≤ String.length s)%nat →
    match push cur o with
    | Some segment => scan classify push single double false "" (segments ++ [segment])%list t
    | None => None
    end = (r ← scan classify raw_push single double false "" (raw ++ [(cur, o)])%list t;
           l ← mapM (uncurry push) r.1; Some (l, r.2))).
  { intros o t Ht. destruct (push cur o) as [a|] eqn:Hp.
    - apply IH'; [done|]. rewrite mapM_app, Hm. simpl. by rewrite Hp.
    - destruct (scan classify raw_push _ _ _ _ _ t) as [r|] eqn:Hs; [|done].
      apply scan_extends in Hs as [l Hl]. simpl. rewrite Hl, !mapM_app, Hm. simpl. by rewrite Hp. }
  destruct escaped; [apply IH'; done|]. destruct (is_char c "\" && negb single); [by apply IH'|].
  destruct (is_char c "'" && negb double); [by apply IH'|].
  destruct (is_char c (byte 34) && negb single); [by apply IH'|].
  destruct (negb single && negb double); [|by apply IH'].
  destruct (classify c (next_char s)) as [| |o|o]; [by apply IH'|done|by apply Hcut|].
  destruct s as [|c' s']; [by destruct (push cur o)|].
  rewrite <- (Hcut o s') by (simpl; lia). by destruct (push cur o).
Qed.

Lemma scan_reassemble s : ∀ single double escaped cur segments l tail,
  (∀ c next o, classify c next = Cut1 o → o = String c "") →
  (∀ c next o, classify c next = Cut2 o → ∃ d, next = Some d ∧ o = String c (String d "")) →
  scan classify raw_push single double escaped cur segments s = Some (l, tail) →
  reassemble l tail = reassemble segments (cur ++ s).
Proof.
  intros single double escaped cur segments l tail H1 H2.
  revert single double escaped cur segments.
  induction s as [s IH] using string_length_ind. intros single double escaped cur segments.
  destruct s as [|c s]; cbn [scan].
  { case_match; [done|]. intros [= <- <-]. by rewrite str_app_nil_r. }
  assert (IH' : ∀ t, (String.length t ≤ String.length s)%nat → ∀ si d e cu segs,
    scan classify raw_push si d e cu segs t = Some (l, tail) →
    reassemble l tail = reassemble segs (cu ++ t)).
  { intros t Ht si d e cu segs. apply IH. simpl. lia. }
  rewrite <- snoc_app.
  destruct escaped; [by apply IH'|]. destruct (is_char c "\" && negb single); [by apply IH'|].
  destruct (is_char c "'" && negb double); [by apply IH'|].
  destruct (is_char c (byte 34) && negb single); [by apply IH'|].
  destruct (negb single && negb double); [|by apply IH'].
  destruct (classify c (next_char s)) as [| |o|o] eqn:E; [by apply IH'|done| |].
  - apply H1 in E as ->. simpl. intros Hs%IH'; [|done].
    rewrite Hs, reassemble_snoc, snoc_app. done.
  - apply H2 in E as (d & Hd & ->). destruct s as [|c' s']; simplify_eq/=.
    intros Hs%IH'; [|simpl; lia]. rewrite Hs, reassemble_snoc, snoc_app. done.
Qed.

(** A plain character is plain whatever follows it. *)
Context (plain_next : ∀ c n n', classify c n = Plain → classify c n' = Plain).

(** [cur] brings the scan from its start to the given quoting state. *)
Definition reaches (single double escaped : bool) (cur : string) : Prop :=
  ∀ segments t, scan classify raw_push false false false "" segments (cur ++ t) =
                scan classify raw_push single double escaped cur segments t.

Definition atomic (segment : string) : Prop :=
  scan classify raw_push false false false "" [] segment = Some ([], segment).

Lemma reaches_atomic cur : reaches false false false cur → atomic cur.
Proof. intros H. unfold atomic. rewrite <- (str_app_nil_r cur) at 1. by rewrite H. Qed.

Lemma reaches_start : reaches false false false "".
Proof. done. Qed.

Lemma scan_atomic s : ∀ single double escaped cur segments l tail,
  reaches single double escaped cur → Forall (λ p, atomic p.1) segments →
  scan classify raw_push single double escaped cur segments s = Some (l, tail) →
  Forall (λ p, atomic p.1) l ∧ atomic tail.
Proof.
  induction s as [s IH] using string_length_ind. intros si d e cur segs l tail Hr Hsegs.
  destruct s as [|c s].
  { simpl. destruct si, d, e; try done. intros [= <- <-]. split; [done|]. by apply reaches_atomic. }
  assert (IH' : ∀ t, (String.length t ≤ String.length s)%nat → ∀ si d e cur segs,
    reaches si d e cur → Forall (λ p, atomic p.1) segs →
    scan classify raw_push si d e cur segs t = Some (l, tail) →
    Forall (λ p, atomic p.1) l ∧ atomic tail).
  { intros t Ht si' d' e' cur' segs'. apply IH. simpl. lia. }
  (* a step that only extends [cur] keeps [reaches] *)
  assert (Hstep : ∀ si' d' e',
    (∀ sg t,
       scan classify raw_push si d e cur sg (String c t) =
       scan classify raw_push si' d' e' (snoc cur c) sg t) →
    scan classify raw_push si d e cur segs (String c s) = Some (l, tail) →
    Forall (λ p, atomic p.1) l ∧ atomic tail).
  { intros si' d' e' Heq. rewrite Heq. apply IH'; [done| |done].
    intros sg t. rewrite snoc_app, Hr. apply Heq. }
  destruct e; [by apply (Hstep si d false)|].
  destruct (is_char c "\" && negb si) eqn:E1; [apply (Hstep si d true); intros; cbn [scan]; by rewrite E1|].
  destruct (is_char c "'" && negb d) eqn:E2;
    [apply (Hstep (negb si) d false); intros; cbn [scan]; by rewrite E1, E2|].
  destruct (is_char c (byte 34) && negb si) eqn:E3;
    [apply (Hstep si (negb d) false); intros; cbn [scan]; by rewrite E1, E2, E3|].
  destruct (negb si && negb d) eqn:E4;
    [|apply (Hstep si d false); intros; cbn [scan]; by rewrite E1, E2, E3, E4].
  destruct (classify c (next_char s)) as [| |o|o] eqn:E5.
  - apply (Hstep si d false). intros sg t. cbn [scan]. rewrite E1, E2, E3, E4.
    by rewrite (plain_next _ _ (next_char t) E5).
  - cbn [scan]. by rewrite E1, E2, E3, E4, E5.
  - cbn [scan raw_push]. rewrite E1, E2, E3, E4, E5. destruct si, d; try done.
    apply IH'; [done|apply reaches_start|]. apply Forall_app_2; [done|].
    constructor; [by apply reaches_atomic|done].
  - cbn [scan raw_push]. rewrite E1, E2, E3, E4, E5. destruct s as [|c' s']; [done|].
    destruct si, d; try done. apply IH'; [simpl; lia|apply reaches_start|].
    apply Forall_app_2; [done|]. constructor; [by apply reaches_atomic|done].
Qed.
End scan_lemmas.

(** * Facts about the two operator tables *)

Lemma char_eqb_eq c d : is_char c d = true → c = d.
Proof. apply Ascii.eqb_eq. Qed.

Lemma compound_cut1 c next o : classify_compound c next = Cut1 o → o = String c "".
Proof.
  unfold classify_compound. repeat case_match; intros [= <-]; simplify_eq;
    match goal with H : is_char c _ = true |- _ => apply char_eqb_eq in H; by subst end.
Qed.
Lemma compound_cut2 c next o :
  classify_compound c next = Cut2 o → ∃ d, next = Some d ∧ o = String c (String d "").
Proof.
  unfold classify_compound, is_next.
  repeat case_match; intros [= <-]; simplify_eq; rewrite ?andb_false_r in *; try done;
    repeat match goal with H : _ && _ = true |- _ => apply andb_true_iff in H as [?%char_eqb_eq ?%char_eqb_eq] end;
    subst; eauto.
Qed.
Lemma compound_plain c n n' : classify_compound c n = Plain → classify_compound c n' = Plain.
Proof.
  unfold classify_compound. intros H.
  destruct (is_char c "&") eqn:E1; [apply char_eqb_eq in E1 as ->; repeat case_match; done|].
  destruct (is_char c "|") eqn:E2; [apply char_eqb_eq in E2 as ->; repeat case_match; done|].
  simpl in *. repeat case_match; done.
Qed.

Lemma classify_safe_refines c n :
  is_char c (byte 10) = false →
  classify_safe c n = Reject ∨ classify_safe c n = classify_compound c n.
Proof.
  intros Hn. unfold classify_safe, classify_compound. rewrite Hn.
  destruct (is_char c "&" && is_next n "&"); [auto|].
  destruct (is_char c "|" && is_next n "|"); [auto|].
  destruct (is_char c ";"); [auto|].
  destruct (char_in "|&<>()" c) eqn:E; [auto|]. right.
  unfold char_in in *. simpl in E |- *. unfold is_char. rewrite !orb_false_iff in E.
  destruct E as (E1 & E2 & E3 & E4 & E5 & E6 & _). by rewrite E1, E2, E3, E4, E5, E6.
Qed.

Lemma scan_safe_refines s : ∀ single double escaped cur segments r,
  contains_any (String (byte 10) "") s = false →
  scan classify_safe raw_push single double escaped cur segments s = Some r →
  scan classify_compound raw_push single double escaped cur segments s = Some r.
Proof.
  induction s as [s IH] using string_length_ind. intros si d e cur segs r.
  destruct s as [|c s]; [done|].
  unfold contains_any at 1. cbn [String.list_ascii_of_string existsb].
  rewrite orb_false_iff. intros [Hc Hs]. unfold char_in in Hc. simpl in Hc. rewrite orb_false_r in Hc.
  assert (IH' : ∀ t, (String.length t ≤ String.length s)%nat →
    contains_any (String (byte 10) "") t = false → ∀ si d e cur segs,
    scan classify_safe raw_push si d e cur segs t = Some r →
    scan classify_compound raw_push si d e cur segs t = Some r).
  { intros t Ht Hn si' d' e' cur' segs'. apply IH; [simpl; lia|done]. }
  cbn [scan]. destruct e; [by apply IH'|]. destruct (is_char c "\" && negb si); [by apply IH'|].
  destruct (is_char c "'" && negb d); [by apply IH'|].
  destruct (is_char c (byte 34) && negb si); [by apply IH'|].
  destruct (negb si && negb d); [|by apply IH'].
  destruct (classify_safe_refines c (next_char s)) as [Hrej| <-]; [exact Hc|by rewrite Hrej|].
  destruct (classify_safe c (next_char s)); [by apply IH'|done|simpl; by apply IH'|].
  simpl. destruct s as [|c' s']; [done|]. apply IH'; [simpl; lia|].
  unfold contains_any in Hs. cbn [String.list_ascii_of_string existsb] in Hs.
  by apply orb_false_iff in Hs as [_ Hs].
Qed.

(** * The functions in terms of the raw pieces *)

Definition trimmed (cur : string) : option string :=
  let segment := trim cur in if is_empty segment then None else Some segment.

Lemma split_compound_pieces command :
  split_compound command =
  (r ← pieces command; l ← mapM (λ p, trimmed p.1) r.1;
   Some (if is_empty (trim r.2) then l else l ++ [trim r.2])%list).
Proof.
  unfold split_compound, pieces. rewrite (scan_push _ _ _ _ _ _ _ [] []) by done.
  change (λ cur operator : string, Some (cur, operator)) with raw_push.
  destruct (scan classify_compound raw_push _ _ _ _ _ _) as [[l t]|]; simpl; [|done].
  rewrite (mapM_ext _ (λ p, trimmed p.1)) by by intros [].
  by destruct (mapM _ l).
Qed.

Lemma with_operators_pieces command :
  split_compound_with_operators command =
  (r ← pieces command;
   l ← mapM (λ p, segment ← trimmed p.1; Some (segment, Some p.2)) r.1;
   tail ← trimmed r.2; Some (l ++ [(tail, None)])%list).
Proof.
  unfold split_compound_with_operators, pieces. rewrite (scan_push _ _ _ _ _ _ _ [] []) by done.
  change (λ cur operator : string, Some (cur, operator)) with raw_push.
  destruct (scan classify_compound raw_push _ _ _ _ _ _) as [[l t]|]; simpl; [|done].
  rewrite (mapM_ext _ (λ p, segment ← trimmed p.1; Some (segment, Some p.2))).
  - destruct (mapM _ l); simpl; [|done]. unfold trimmed. by destruct (is_empty (trim t)).
  - intros [a b]; simpl. unfold trimmed. by destruct (is_empty (trim a)).
Qed.

(** Splitting a command loses and hides nothing. The raw pieces and their
    operators concatenate back to the exact command, and every piece is atomic:
    scanned on its own it is one segment with balanced quotes and no operator,
    so an operator can never hide inside a segment that a rule is matched
    against. *)
Theorem pieces_exact command l tail :
  pieces command = Some (l, tail) →
  reassemble l tail = command ∧
  Forall (λ p, pieces p.1 = Some ([], p.1)) l ∧ pieces tail = Some ([], tail).
Proof.
  intros H. split.
  - apply (scan_reassemble classify_compound command false false false "" []) in H; [done| |].
    + exact compound_cut1.
    + exact compound_cut2.
  - apply (scan_atomic classify_compound compound_plain command false false false "" []) in H;
      [done|apply reaches_start|constructor].
Qed.

(** The segments that rules are matched against are the segments that a
    remembered approval is bound to: whenever the operator-aware split
    succeeds, [split_compound] returns the same segments in the same order; and
    it fails while [split_compound] succeeds only when nothing follows the last
    operator. *)
Theorem splits_agree command :
  match split_compound_with_operators command, split_compound command with
  | Some l, Some k => k = map fst l
  | Some _, None => False
  | None, Some _ => ∃ r, pieces command = Some r ∧ is_empty (trim r.2) = true
  | None, None => True
  end.
Proof.
  rewrite split_compound_pieces, with_operators_pieces.
  destruct (pieces command) as [[l t]|]; simpl; [|done].
  assert (Hm : mapM (λ p : string * string, trimmed p.1) l =
    (k ← mapM (λ p : string * string, segment ← trimmed p.1; Some (segment, Some p.2)) l;
     Some (map fst k))).
  { induction l as [|p l IH]; simpl; [done|]. destruct (trimmed p.1); simpl; [|done]. rewrite IH.
    clear IH. by destruct (mapM _ l). }
  rewrite Hm. clear Hm. destruct (mapM _ l) as [k|]; simpl; [|done].
  unfold trimmed. destruct (is_empty (trim t)) eqn:E; simpl; [by eauto|].
  by rewrite map_app.
Qed.

(** The operators that the safe list accepts. *)
Definition safe_operator (o : option string) : Prop :=
  match o with Some o => o ∈ ["&&"; "||"; ";"] | None => True end.

Lemma scan_safe_operators s : ∀ single double escaped cur segments r,
  Forall (λ p, safe_operator (Some p.2)) segments →
  scan classify_safe raw_push single double escaped cur segments s = Some r →
  Forall (λ p, safe_operator (Some p.2)) r.1.
Proof.
  induction s as [s IH] using string_length_ind. intros si d e cur segs r Hs.
  destruct s as [|c s]; cbn [scan].
  { case_match; [done|]. by intros [= <-]. }
  assert (IH' : ∀ t, (String.length t ≤ String.length s)%nat → ∀ si d e cur segs,
    Forall (λ p, safe_operator (Some p.2)) segs →
    scan classify_safe raw_push si d e cur segs t = Some r →
    Forall (λ p, safe_operator (Some p.2)) r.1).
  { intros t Ht si' d' e' cur' segs'. apply IH. simpl; lia. }
  destruct e; [by apply IH'|]. destruct (is_char c "\" && negb si); [by apply IH'|].
  destruct (is_char c "'" && negb d); [by apply IH'|].
  destruct (is_char c (byte 34) && negb si); [by apply IH'|].
  destruct (negb si && negb d); [|by apply IH'].
  assert (Ho : ∀ o, classify_safe c (next_char s) = Cut1 o ∨ classify_safe c (next_char s) = Cut2 o →
    safe_operator (Some o)).
  { intros o. unfold classify_safe. repeat case_match; intros [[= <-]|[= <-]]; simpl;
      rewrite !elem_of_cons; auto. }
  destruct (classify_safe c (next_char s)) as [| |o|o]; [by apply IH'|done| |].
  - simpl. apply IH'; [done|]. apply Forall_app_2; [done|]. constructor; [apply Ho; auto|done].
  - simpl. destruct s as [|c' s']; [done|]. apply IH'; [simpl; lia|].
    apply Forall_app_2; [done|]. constructor; [apply Ho; auto|done].
Qed.

Lemma contains_any_head a cs s :
  contains_any (String a cs) s = false → contains_any (String a "") s = false.
Proof.
  unfold contains_any. induction (String.list_ascii_of_string s) as [|c l IH]; [done|].
  cbn [existsb]. rewrite !orb_false_iff. intros [Hc Hl]. split; [|by apply IH].
  unfold char_in in *. cbn [String.list_ascii_of_string existsb] in *.
  by apply orb_false_iff in Hc as [-> _].
Qed.

Section safe_lemmas.
Context {SW : ShellWords}.

(** [shell_words] on the empty text, as documented *)
Context (split_empty : sw_split "" = Some []).

Lemma push_canonical_trimmed cur canonical :
  push_canonical cur = Some canonical →
  trimmed cur = Some (trim cur) ∧ canonical_segment (trim cur) = Some canonical.
Proof.
  unfold push_canonical, trimmed. destruct (canonical_segment (trim cur)) as [s|] eqn:E; [|done].
  destruct (is_empty s) eqn:Es; [done|]. intros [= <-]. split; [|done].
  destruct (is_empty (trim cur)) eqn:Et; [|done].
  apply String.eqb_eq in Et. rewrite Et in E. unfold canonical_segment in E.
  rewrite split_empty in E. by simplify_eq/=.
Qed.

Definition canonical_of (raw safe : string * option string) : Prop :=
  canonical_segment raw.1 = Some safe.1 ∧ raw.2 = safe.2.

Lemma safe_segments_raw command l :
  safe_command_segments command = Some l →
  ∃ raw, split_compound_with_operators command = Some raw ∧ Forall2 canonical_of raw l ∧
         Forall (λ p, safe_operator p.2) l.
Proof.
  unfold safe_command_segments.
  destruct (is_empty command || _ || _) eqn:Eg; [done|].
  rewrite !orb_false_iff in Eg. destruct Eg as [[_ Eg] _].
  assert (Hnl : contains_any (String (byte 10) "") command = false).
  { by eapply contains_any_head. }
  rewrite (scan_push _ _ _ _ _ _ _ [] []) by done.
  destruct (scan classify_safe raw_push _ _ _ _ _ _) as [[ps t]|] eqn:Es; simpl; [|done].
  pose proof (scan_safe_operators _ _ _ _ _ _ _ (List.Forall_nil _) Es) as Hops. simpl in Hops.
  apply scan_safe_refines in Es; [|done].
  rewrite with_operators_pieces. change (pieces command) with
    (scan classify_compound raw_push false false false "" [] command). rewrite Es. simpl.
  destruct (mapM _ ps) as [cs|] eqn:Em; simpl; [|done].
  destruct (push_canonical t) as [ct|] eqn:Et; [|done]. intros [= <-].
  apply push_canonical_trimmed in Et as [Ht Hct]. rewrite Ht. simpl.
  assert (Hps : ∃ raw, mapM (λ p : string * string, segment ← trimmed p.1;
        Some (segment, Some p.2)) ps = Some raw ∧ Forall2 canonical_of raw cs ∧
      Forall (λ p, safe_operator p.2) cs).
  { clear -split_empty Em Hops. revert cs Em. induction ps as [|p ps IH]; intros cs Em; simpl in *.
    - injection Em as <-. exists []. split_and!; constructor.
    - apply Forall_cons_1 in Hops as [Hp Hops]. destruct p as [cur o]; simpl in *.
      destruct (push_canonical cur) as [canonical|] eqn:Ec; simpl in Em; [|done].
      destruct (mapM _ ps) as [cs'|] eqn:Em'; [|done]. injection Em as <-.
      apply push_canonical_trimmed in Ec as [Hc1 Hc2]. rewrite Hc1. simpl.
      destruct (IH Hops cs' eq_refl) as (raw & -> & HF & Ho). simpl.
      eexists. split; [done|]. split; constructor; done. }
  destruct Hps as (raw & -> & HF & Ho). simpl. eexists. split; [done|]. split.
  - apply Forall2_app; [done|]. constructor; [done|constructor].
  - apply Forall_app_2; [done|]. constructor; done.
Qed.
End safe_lemmas.

(** The safe-list scanner and the permission gate see one command. When
    [safe_command_segments] accepts, the operator-aware split of the gate also
    succeeds with the same operators, each safe segment is the requoted form of
    the gate's segment, and only [&&], [||] and [;] join them: no pipe,
    background job, redirection, subshell or newline is ever safe-listed. *)
Theorem safe_segments_agree {SW : ShellWords} (split_empty : sw_split "" = Some []) command l :
  safe_command_segments command = Some l →
  ∃ raw, split_compound_with_operators command = Some raw ∧ Forall2 canonical_of raw l ∧
         Forall (λ p, safe_operator p.2) l.
Proof. by apply safe_segments_raw. Qed.

(** A splitter on blanks for the witnesses. *)
Definition sample_words : ShellWords :=
  {| sw_split s := Some (List.filter (λ w, negb (is_empty w)) (split_char " " s));
     sw_quote s := s |}.

Lemma pieces_exact_witness :
  ∃ l tail, pieces "git log ';' && ls -a" = Some (l, tail) ∧
            reassemble l tail = "git log ';' && ls -a".
Proof.
  eexists _, _. split; [vm_compute; reflexivity|].
  refine (proj1 (pieces_exact "git log ';' && ls -a" _ _ _)). vm_compute. reflexivity.
Defined.

Lemma safe_segments_agree_witness :
  ∃ raw, split_compound_with_operators "git  log; ls -a" = Some raw ∧
         Forall2 (@canonical_of sample_words) raw [("git log", Some ";"); ("ls -a", None)].
Proof.
  destruct (@safe_segments_agree sample_words eq_refl "git  log; ls -a"
    [("git log", Some ";"); ("ls -a", None)] ltac:(vm_compute; reflexivity)) as (raw & H1 & H2 & _).
  exists raw. split; [exact H1|exact H2].
Defined.

(** A segment that ends in an escaped blank loses the blank but keeps the
    backslash: the text rules are matched against is not the argument the
    shell passes, which is [a] followed by a space. *)
Example split_drops_escaped_blank :
  split_compound "echo a\ ; ls" = Some ["echo a\"; "ls"].
Proof. reflexivity. Qed.
