(* ===== verification/BashSafety.v ===== *)
(** The built-in safe list for shell commands: the classifier
    ([rw-tools/src/bash/safety.rs]), the read-only git grammars
    ([safety/git.rs]) and the search grammars ([safety/search.rs]).

    Parameters: [ShellWords] (the [shell_words] crate), [Glob] (the [globset]
    crate) and [FileSystem] (what the process sees of the file system).  The
    [OnceLock] caches keep the first answer of the audited-binary resolution,
    so one [FileSystem] stands for the state at that first call. *)
From S2P Require Import Prelude Text ShellSplit.
From Stdlib Require Import Ascii.

(** [GlobBuilder::new(p).literal_separator(b).backslash_escape(true).build()]
    and its matcher; [None] for a pattern that does not compile *)
Class Glob : Type := glob_build : bool → string → option (string → bool).

Record Metadata : Type := mkMetadata {
  meta_is_file : bool;
  meta_uid : Z;
  meta_mode : Z;
}.
(** [fs::canonicalize]: the path, [NotFound], or another error *)
Inductive Realpath : Type := Found (path : string) | Missing | Failed.
Class FileSystem : Type := {
  fs_realpath : string → Realpath;
  fs_metadata : string → option Metadata;
  geteuid : Z;
}.
Definition fs_canonicalize `{FileSystem} (path : string) : option string :=
  match fs_realpath path with Found canonical => Some canonical | _ => None end.

Definition mem (a : string) (l : list string) : bool := existsb (String.eqb a) l.

#[global] Arguments mem : simpl never.

Lemma mem_elem a l : mem a l = true ↔ a ∈ l.
Proof.
  unfold mem. rewrite existsb_exists, list_elem_of_In. split.
  - by intros (x & Hx & ->%String.eqb_eq).
  - intros H. exists a. split; [done|apply String.eqb_refl].
Qed.

(** * Git grammars *)

Definition has (arguments : list string) (option : string) : bool := mem option arguments.

(** The option-grammar parser: the number of positionals, or [None].  The
    [while] loop over an index is recursion on the arguments left. *)
Fixpoint options (flags values prefixes : list string) (arguments : list string) : option nat :=
  match arguments with
  | [] => Some 0%nat
  | argument :: rest =>
      if String.eqb argument "--" then Some (length rest)
      else if negb (starts_with "-" argument) || String.eqb argument "-" then
        option_map S (options flags values prefixes rest)
      else if mem argument flags || existsb (λ prefix, starts_with prefix argument) prefixes then
        options flags values prefixes rest
      else if mem argument values then
        match rest with
        | [] => None
        | _ :: rest' => options flags values prefixes rest'
        end
      else
        match split_once "=" argument with
        | Some (option, _) =>
            if mem option values then options flags values prefixes rest else None
        | None => None
        end
  end.

Definition STATUS_OPTIONS : list string :=
  ["--short"; "-s"; "--branch"; "-b"; "--show-stash"; "--porcelain"; "--porcelain=v1";
   "--porcelain=v2"; "--untracked-files=no"; "--untracked-files=normal"; "--untracked-files=all";
   "-uno"; "-unormal"; "-uall"; "--ignored=no"; "--ignored=matching"; "--ignored=traditional";
   "--renames"; "--no-renames"; "--ahead-behind"; "--no-ahead-behind"].

Fixpoint safe_status (arguments : list string) : bool :=
  match arguments with
  | [] => true
  | argument :: rest =>
      if String.eqb argument "--" then true
      else mem argument STATUS_OPTIONS && safe_status rest
  end.

Definition safe_revision_output (arguments : list string) : bool :=
  negb (existsb (λ argument,
    mem argument ["--output"; "--ext-diff"; "--textconv"; "--show-signature"] ||
    starts_with "--output=" argument || str_contains "%G" argument) arguments).

Definition safe_reflog (arguments : list string) : bool :=
  match arguments with
  | [] => true
  | first :: rest =>
      if String.eqb first "show" then safe_revision_output rest
      else if starts_with "-" first then safe_revision_output arguments
      else false
  end.

Definition safe_grep (arguments : list string) : bool :=
  negb (existsb (λ argument,
    String.eqb argument "--textconv" || String.eqb argument "--ext-grep" ||
    starts_with "--open-files-in-pager" argument ||
    (starts_with "-" argument && negb (starts_with "--" argument) && str_contains "O" argument))
    arguments).

Definition BRANCH_FLAGS : list string :=
  ["-a"; "--all"; "-r"; "--remotes"; "-v"; "-vv"; "--verbose"; "-l"; "--list"; "--show-current";
   "-i"; "--ignore-case"; "--omit-empty"; "--color"; "--no-color"; "--no-column"; "--abbrev";
   "--no-abbrev"; "--contains"; "--no-contains"; "--merged"; "--no-merged"].
Definition BRANCH_VALUES : list string := ["--sort"; "--format"; "--points-at"].
Definition BRANCH_PREFIXES : list string :=
  ["--color="; "--abbrev="; "--contains="; "--no-contains="; "--merged="; "--no-merged="].
Definition LIST_MODE : list string :=
  ["-l"; "--list"; "--contains"; "--no-contains"; "--merged"; "--no-merged"; "--points-at"].

(** The text after the first byte, [argument[1..]]. *)
Definition tail_str (s : string) : string := match s with String _ s' => s' | "" => "" end.

Definition cluster (argument : string) : bool :=
  (2 <? str_len argument) && starts_with "-" argument && negb (starts_with "--" argument) &&
  str_all (char_in "arvli") (tail_str argument).

Definition expand_cluster (argument : string) : list string :=
  if cluster argument
  then map (λ flag, String "-" (String flag "")) (String.list_ascii_of_string (tail_str argument))
  else [argument].

Definition option_name (argument : string) : string :=
  match split_once "=" argument with Some (o, _) => o | None => argument end.

Definition safe_branch (arguments : list string) : bool :=
  let expanded := List.flat_map expand_cluster arguments in
  if existsb (str_contains "%(signature") expanded then false else
  match options BRANCH_FLAGS BRANCH_VALUES BRANCH_PREFIXES expanded with
  | None => false
  | Some positionals =>
      Nat.eqb positionals 0 ||
      existsb (λ argument, mem (option_name argument) LIST_MODE) expanded
  end.

Definition is_count (o : option nat) (n : nat) : bool := bool_decide (o = Some n).

Definition safe_remote (arguments : list string) : bool :=
  match arguments with
  | first :: rest =>
      if String.eqb first "get-url" then is_count (options ["--push"; "--all"] [] [] rest) 1
      else forallb (λ argument, mem argument ["-v"; "--verbose"]) arguments
  | [] => true
  end.

Definition safe_describe (arguments : list string) : bool :=
  match options ["--all"; "--tags"; "--contains"; "--long"; "--always"; "--exact-match";
                 "--first-parent"; "--debug"] ["--match"; "--exclude"]
                ["--abbrev="; "--candidates="] arguments with
  | Some _ => true
  | None => false
  end.

Definition CONFIG_SCOPE : list string :=
  ["--local"; "--global"; "--system"; "--worktree"; "--includes"; "--no-includes";
   "--show-origin"; "--show-scope"; "--name-only"; "-z"; "--null"; "--bool"; "--int";
   "--bool-or-int"; "--path"; "--expiry-date"].
Definition CONFIG_VALUES : list string := ["-f"; "--file"; "--blob"; "--type"; "--default"].
Definition GET_FLAGS : list string := ["--all"; "--regexp"; "--fixed-value"; "--show-names"].
Definition GET_VALUES : list string := ["--value"; "--url"].

(** The read actions with the inclusive range of positionals each takes. *)
Definition CONFIG_ACTIONS : list (string * (nat * nat)) :=
  [("--get", (1, 2)); ("--get-all", (1, 2)); ("--get-regexp", (1, 2)); ("--get-urlmatch", (2, 2));
   ("--list", (0, 0)); ("-l", (0, 0))]%nat.

Definition safe_config_action (arguments : list string) : bool :=
  match List.filter (λ a, has arguments a.1) CONFIG_ACTIONS with
  | [(_, (low, high))] =>
      match options (CONFIG_SCOPE ++ map fst CONFIG_ACTIONS)%list CONFIG_VALUES [] arguments with
      | Some count => (Nat.leb low count && Nat.leb count high)%bool
      | None => false
      end
  | _ => false
  end.

Definition safe_config (arguments : list string) : bool :=
  match arguments with
  | first :: rest =>
      if String.eqb first "get" then
        is_count (options (CONFIG_SCOPE ++ GET_FLAGS)%list (CONFIG_VALUES ++ GET_VALUES)%list [] rest) 1
      else if String.eqb first "list" then
        is_count (options CONFIG_SCOPE CONFIG_VALUES [] rest) 0
      else safe_config_action arguments
  | [] => safe_config_action arguments
  end.

Definition safe_git_arguments (subcommand : string) (arguments : list string) : bool :=
  if existsb (λ argument, String.eqb argument "--help") arguments then false
  else if String.eqb subcommand "status" then safe_status arguments
  else if String.eqb subcommand "diff" then
    safe_revision_output arguments && negb (has arguments "--no-index")
  else if mem subcommand ["log"; "show"; "shortlog"] then safe_revision_output arguments
  else if String.eqb subcommand "reflog" then safe_reflog arguments
  else if String.eqb subcommand "blame" then negb (has arguments "--textconv")
  else if String.eqb subcommand "grep" then safe_grep arguments
  else if String.eqb subcommand "branch" then safe_branch arguments
  else if String.eqb subcommand "rev-parse" then
    negb (existsb (λ argument, String.eqb argument "--parseopt" || starts_with "--stdin" argument)
                  arguments)
  else if String.eqb subcommand "ls-files" then true
  else if String.eqb subcommand "remote" then safe_remote arguments
  else if String.eqb subcommand "describe" then safe_describe arguments
  else if String.eqb subcommand "config" then safe_config arguments
  else false.

Definition hardened_git_subcommand (subcommand : string) (arguments : list string) : list string :=
  if mem subcommand ["diff"; "log"; "show"] then
    (subcommand :: "--no-ext-diff" :: "--no-textconv" :: arguments)%list
  else if String.eqb subcommand "reflog" then
    let arguments :=
      match arguments with
      | first :: rest => if String.eqb first "show" then rest else arguments
      | [] => []
      end in
    ("reflog" :: "show" :: "--no-ext-diff" :: "--no-textconv" :: arguments)%list
  else if mem subcommand ["blame"; "grep"] then
    (subcommand :: "--no-textconv" :: arguments)%list
  else (subcommand :: arguments)%list.

(** * Search grammars *)

Definition takes_value (name option : string) : bool :=
  if String.eqb name "grep" then
    mem option ["--regexp"; "--file"; "--include"; "--exclude"; "--exclude-dir"; "--max-count";
                "--after-context"; "--before-context"; "--context"]
  else if String.eqb name "rg" then
    mem option ["--regexp"; "--file"; "--glob"; "--iglob"; "--type"; "--type-not"; "--max-count";
                "--max-depth"; "--after-context"; "--before-context"; "--context"; "--color";
                "--threads"]
  else false.

Definition safe_flag (name option : string) : bool :=
  mem option ["--ignore-case"; "--invert-match"; "--line-number"; "--count";
              "--files-with-matches"; "--files-without-match"; "--fixed-strings"; "--word-regexp";
              "--line-regexp"; "--only-matching"; "--quiet"; "--no-messages"] ||
  (String.eqb name "grep" && mem option ["--recursive"; "--extended-regexp"; "--basic-regexp"]) ||
  (String.eqb name "rg" &&
     mem option ["--files"; "--hidden"; "--no-ignore"; "--no-config"; "--json"; "--no-heading";
                 "--heading"; "--smart-case"; "--null"; "--text"]).

Definition value_flag (name : string) (character : ascii) : bool :=
  char_in "efmABC" character || (String.eqb name "rg" && char_in "gtTj" character).
Definition plain_flag (name : string) (character : ascii) : bool :=
  char_in "ivnclLFwxoqsHh" character ||
  (String.eqb name "grep" && char_in "rREIG" character) ||
  (String.eqb name "rg" && char_in "SNUa0" character).

(** The flags of a short cluster: [None] is rejected, [Some true] takes the
    next argument as the value of the last flag. *)
Fixpoint short_cluster (name flags : string) : option bool :=
  match flags with
  | "" => Some false
  | String character rest =>
      if value_flag name character then Some (is_empty rest)
      else if plain_flag name character then short_cluster name rest
      else None
  end.

Definition FIND_VALUES : list string :=
  ["-name"; "-iname"; "-path"; "-ipath"; "-type"; "-maxdepth"; "-mindepth"; "-size"; "-mtime"; "-mmin"].
Definition FIND_FLAGS : list string :=
  ["-print"; "-print0"; "-empty"; "-prune"; "-depth"; "-xdev"; "-a"; "-and"; "-o"; "-or"; "-not";
   "!"; "("; ")"].

Fixpoint safe_find_from (expression : bool) (arguments : list string) : bool :=
  match arguments with
  | [] => true
  | argument :: rest =>
      if negb expression && negb (starts_with "-" argument) && negb (mem argument ["!"; "("; ")"])
      then safe_find_from expression rest
      else if mem argument FIND_VALUES then
        match rest with [] => false | _ :: rest' => safe_find_from true rest' end
      else if mem argument FIND_FLAGS then safe_find_from true rest
      else false
  end.
Definition safe_find (arguments : list string) : bool := safe_find_from false arguments.

(** The loop of [safe_search_arguments] for grep and rg, before [--]. *)
Fixpoint safe_search_loop (name : string) (arguments : list string) : bool :=
  match arguments with
  | [] => true
  | argument :: rest =>
      let after_value := match rest with [] => false | _ :: rest' => safe_search_loop name rest' end in
      if negb (starts_with "-" argument) || String.eqb argument "-" then safe_search_loop name rest
      else if String.eqb argument "--" then true
      else
        let option := option_name argument in
        let has_value := match split_once "=" argument with Some _ => true | None => false end in
        if takes_value name option then
          if has_value then safe_search_loop name rest else after_value
        else if has_value then false
        else if safe_flag name option then safe_search_loop name rest
        else if starts_with "--" option then false
        else
          match short_cluster name (tail_str option) with
          | None => false
          | Some true => after_value
          | Some false => safe_search_loop name rest
          end
  end.

Definition safe_search_arguments (name : string) (arguments : list string) : bool :=
  if String.eqb name "find" then safe_find arguments else safe_search_loop name arguments.

Definition safe_bat_arguments (arguments : list string) : bool :=
  negb (existsb (λ argument,
    mem argument ["--pager"; "-P"; "--paging"; "--diff"; "-d"; "--config-file"] ||
    starts_with "--pager=" argument || starts_with "--paging=" argument ||
    starts_with "--config-file=" argument) arguments).

(** * Audited binaries *)

(** [Path::starts_with] on a canonical path: whole components. *)
Definition path_starts_with (prefix path : string) : bool :=
  String.eqb path prefix || starts_with (prefix ++ "/") path.

Section classifier.
Context `{SW : ShellWords} `{G : Glob} `{FS : FileSystem}.

Definition audited_system_candidate (candidate : string) : option string :=
  match fs_canonicalize candidate with
  | None => None
  | Some canonical =>
      if negb (path_starts_with "/usr/bin" canonical) && negb (path_starts_with "/bin" canonical)
      then None else
      match fs_metadata canonical with
      | None => None
      | Some m =>
          if meta_is_file m && (meta_uid m =? 0) && (Z.land (meta_mode m) 18 =? 0)
          then Some canonical else None
      end
  end.

Fixpoint first_some {A B} (f : A → option B) (l : list A) : option B :=
  match l with
  | [] => None
  | x :: l' => match f x with Some y => Some y | None => first_some f l' end
  end.

Definition resolve_audited_system_binary (candidates : list string) : option string :=
  first_some audited_system_candidate candidates.

Definition audited_package_candidate (package candidate : string) : option string :=
  match fs_canonicalize candidate with
  | None => None
  | Some canonical =>
      let trusted_prefix :=
        path_starts_with "/usr/bin" canonical || path_starts_with "/bin" canonical ||
        path_starts_with ("/opt/homebrew/Cellar/" ++ package) canonical ||
        path_starts_with ("/usr/local/Cellar/" ++ package) canonical in
      match fs_metadata canonical with
      | None => None
      | Some m =>
          if trusted_prefix && meta_is_file m &&
             ((meta_uid m =? 0) || (meta_uid m =? geteuid)) &&
             (Z.land (meta_mode m) 18 =? 0) && negb (Z.land (meta_mode m) 73 =? 0)
          then Some canonical else None
      end
  end.

Definition resolve_audited_package_binary (candidates : list string) (package : string)
    : option string :=
  first_some (audited_package_candidate package) candidates.

Definition audited_system_git : option string :=
  resolve_audited_system_binary ["/usr/bin/git"; "/bin/git"].
Definition audited_system_read_command (name : string) : option string :=
  if String.eqb name "cat" then resolve_audited_system_binary ["/bin/cat"; "/usr/bin/cat"]
  else if String.eqb name "ls" then resolve_audited_system_binary ["/bin/ls"; "/usr/bin/ls"]
  else if String.eqb name "grep" then resolve_audited_system_binary ["/usr/bin/grep"; "/bin/grep"]
  else if String.eqb name "find" then resolve_audited_system_binary ["/usr/bin/find"; "/bin/find"]
  else None.
Definition audited_bat : option string :=
  resolve_audited_package_binary
    ["/opt/homebrew/bin/bat"; "/usr/local/bin/bat"; "/usr/bin/bat"; "/bin/bat"] "bat".
Definition audited_rg : option string :=
  resolve_audited_package_binary
    ["/opt/homebrew/bin/rg"; "/usr/local/bin/rg"; "/usr/bin/rg"; "/bin/rg"] "ripgrep".


(** * The classifier *)

Inductive CommandSafety : Type := SafeListed | RequiresApproval.

(** The compiled user patterns, each a matcher. *)
Definition CommandSafetyClassifier : Type := list (string → bool).

(** [CommandSafetyClassifier::new]: the first bad pattern is the error. *)
Fixpoint classifier_new (patterns : list string) : Result CommandSafetyClassifier string :=
  match patterns with
  | [] => Ok []
  | pattern :: rest =>
      match glob_build true pattern with
      | None => Err pattern
      | Some matcher => let? matchers := classifier_new rest in Ok (matcher :: matchers)
      end
  end.

Definition built_in_safe_segment (command : string) : bool :=
  match sw_split command with
  | None | Some [] => false
  | Some (name :: arguments) =>
      if String.eqb name "git" && is_some audited_system_git then
        match arguments with
        | subcommand :: arguments' => safe_git_arguments subcommand arguments'
        | [] => false
        end
      else if String.eqb name "cat" then is_some (audited_system_read_command "cat")
      else if String.eqb name "ls" then is_some (audited_system_read_command "ls")
      else if mem name ["grep"; "find"] then
        is_some (audited_system_read_command name) && safe_search_arguments name arguments
      else if String.eqb name "rg" then is_some audited_rg && safe_search_arguments "rg" arguments
      else if String.eqb name "bat" then is_some audited_bat && safe_bat_arguments arguments
      else false
  end.

Definition safe_segment (self : CommandSafetyClassifier) (segment : string) : bool :=
  built_in_safe_segment segment || existsb (λ matches_pattern, matches_pattern segment) self.

Definition classify (self : CommandSafetyClassifier) (command : string) : CommandSafety :=
  match safe_command_segments command with
  | None => RequiresApproval
  | Some segments =>
      if forallb (λ s, safe_segment self s.1) segments then SafeListed else RequiresApproval
  end.

(** [classify_safe_command]: no user patterns *)
Definition classify_safe_command (command : string) : CommandSafety := classify [] command.
End classifier.

#[global] Instance CommandSafety_eq_dec : EqDecision CommandSafety.
Proof. solve_decision. Defined.

(** * The option grammar as a relation *)

Section grammar.
Context (flags values prefixes : list string).

Definition option_like (a : string) : Prop := starts_with "-" a = true ∧ a ≠ "-" ∧ a ≠ "--".
Definition known_flag (a : string) : Prop :=
  a ∈ flags ∨ ∃ p, p ∈ prefixes ∧ starts_with p a = true.

(** [Grammar args n]: the arguments are flags, value options with their
    values and [n] positionals; after [--] everything is positional. *)
Inductive Grammar : list string → nat → Prop :=
| G_nil : Grammar [] 0
| G_end rest : Grammar ("--" :: rest) (length rest)
| G_positional a l n :
    starts_with "-" a = false ∨ a = "-" → Grammar l n → Grammar (a :: l) (S n)
| G_flag a l n : option_like a → known_flag a → Grammar l n → Grammar (a :: l) n
| G_value a v l n :
    option_like a → ¬ known_flag a → a ∈ values → Grammar l n → Grammar (a :: v :: l) n
| G_equals a o v l n :
    option_like a → ¬ known_flag a → a ∉ values → split_once "=" a = Some (o, v) → o ∈ values →
    Grammar l n → Grammar (a :: l) n.

Lemma known_flag_spec a :
  mem a flags || existsb (λ prefix, starts_with prefix a) prefixes = true ↔ known_flag a.
Proof.
  unfold known_flag. rewrite orb_true_iff, mem_elem, existsb_exists.
  split; (intros [?|(p & Hp & Ha)]; [auto|right; exists p]).
  - by rewrite list_elem_of_In.
  - by rewrite <- list_elem_of_In.
Qed.

Lemma options_sound args n : options flags values prefixes args = Some n → Grammar args n.
Proof.
  remember (length args) as k eqn:Hk. revert args n Hk.
  induction k as [k IH] using lt_wf_ind. intros [|a rest] n -> H; simpl in H.
  { simplify_eq. constructor. }
  assert (IH' : ∀ l m, (length l < length (a :: rest))%nat →
    options flags values prefixes l = Some m → Grammar l m) by (intros; by eapply IH).
  destruct (String.eqb_spec a "--") as [->|Hdd]; [simplify_eq; constructor|].
  destruct (negb (starts_with "-" a) || String.eqb a "-") eqn:Ep.
  { apply orb_true_iff in Ep. destruct (options _ _ _ rest) as [m|] eqn:Em; simplify_eq/=.
    apply G_positional; [|apply IH'; [simpl; lia|done]].
    destruct Ep as [E|E]; [left; by apply negb_true_iff|right; by apply String.eqb_eq]. }
  apply orb_false_iff in Ep as [E1%negb_false_iff E2%String.eqb_neq].
  destruct (mem a flags || _) eqn:Ef.
  { apply known_flag_spec in Ef. apply G_flag; [done|done|]. apply IH'; [simpl; lia|done]. }
  assert (Hnf : ¬ known_flag a) by (rewrite <- known_flag_spec; congruence).
  destruct (mem a values) eqn:Ev.
  { apply mem_elem in Ev. destruct rest as [|v rest]; [done|].
    apply G_value; try done. apply IH'; [simpl; lia|done]. }
  destruct (split_once "=" a) as [[o v]|] eqn:Es; [|done].
  destruct (mem o values) eqn:Eo; [|done]. apply mem_elem in Eo.
  eapply G_equals; try done; [|apply IH'; [simpl; lia|done]].
  rewrite <- mem_elem. congruence.
Qed.

Lemma options_complete args n : Grammar args n → options flags values prefixes args = Some n.
Proof.
  induction 1 as [|rest|a l n Hp Hl IH|a l n (H1 & H2 & H3) Hf Hl IH|
                  a v l n (H1 & H2 & H3) Hnf Hv Hl IH|a o v l n (H1 & H2 & H3) Hnf Hnv Hs Ho Hl IH];
    simpl; [done|done| | | |].
  - destruct (String.eqb_spec a "--") as [->|_]; [by destruct Hp|].
    replace (negb (starts_with "-" a) || String.eqb a "-") with true; [by rewrite IH|].
    destruct Hp as [->| ->]; done.
  - rewrite (proj2 (String.eqb_neq _ _) H3), H1, (proj2 (String.eqb_neq _ _) H2). simpl.
    by rewrite (proj2 (known_flag_spec a) Hf).
  - rewrite (proj2 (String.eqb_neq _ _) H3), H1, (proj2 (String.eqb_neq _ _) H2). simpl.
    destruct (mem a flags || _) eqn:Ef; [by apply known_flag_spec in Ef|].
    by rewrite (proj2 (mem_elem a values) Hv).
  - rewrite (proj2 (String.eqb_neq _ _) H3), H1, (proj2 (String.eqb_neq _ _) H2). simpl.
    destruct (mem a flags || _) eqn:Ef; [by apply known_flag_spec in Ef|].
    destruct (mem a values) eqn:Ev; [by apply mem_elem in Ev|].
    by rewrite Hs, (proj2 (mem_elem o values) Ho).
Qed.
End grammar.

(** The index loop that parses option grammars is the grammar: it returns
    [n] exactly when the arguments derive [n] positionals, and rejects exactly
    the arguments that derive nothing (an unknown option, a value option
    without a value). *)
Theorem options_grammar flags values prefixes args n :
  options flags values prefixes args = Some n ↔ Grammar flags values prefixes args n.
Proof. split; [apply options_sound|apply options_complete]. Qed.

(** * Git output commands stay read-only *)

(** An argument that neither writes a file nor runs a program for the diff
    machinery. *)
Definition inert_argument (a : string) : Prop :=
  (a ∉ ["--output"; "--ext-diff"; "--textconv"; "--show-signature"; "--help"]) ∧
  starts_with "--output=" a = false ∧ str_contains "%G" a = false.

Lemma existsb_false_Forall {A} (f : A → bool) l :
  (existsb f l = false) ↔ Forall (λ x, f x = false) l.
Proof.
  induction l as [|x l IH]; simpl; [by split|].
  by rewrite orb_false_iff, Forall_cons, IH.
Qed.

Lemma safe_revision_inert args :
  safe_revision_output args = true → existsb (λ a, String.eqb a "--help") args = false →
  Forall inert_argument args.
Proof.
  unfold safe_revision_output. rewrite negb_true_iff, !existsb_false_Forall. intros H1 H2.
  eapply Forall_impl; [exact (List.Forall_and H1 H2)|]. intros a [Ha Hh]. cbv beta in *.
  rewrite !orb_false_iff in Ha. destruct Ha as [[Hm Ho] Hg]. split_and!; [|done..].
  apply String.eqb_neq in Hh. intros Hin.
  assert (a ∈ ["--output"; "--ext-diff"; "--textconv"; "--show-signature"]) as Hin'%mem_elem.
  { rewrite !elem_of_cons in Hin. rewrite !elem_of_cons. tauto. }
  congruence.
Qed.

(** For git's diff-producing subcommands the argv that runs is the fixed
    subcommand with external diff and textconv disabled, followed by user
    arguments none of which re-enables them, writes to a file, asks for help
    or verifies signatures. *)
Theorem git_output_hardened subcommand arguments :
  subcommand ∈ ["diff"; "log"; "show"; "reflog"] →
  safe_git_arguments subcommand arguments = true →
  ∃ user head, hardened_git_subcommand subcommand arguments =
      (head ++ ["--no-ext-diff"; "--no-textconv"] ++ user)%list ∧
    head = (if String.eqb subcommand "reflog" then ["reflog"; "show"] else [subcommand]) ∧
    Forall inert_argument user ∧ user `suffix_of` arguments.
Proof.
  intros Hsub. unfold safe_git_arguments.
  destruct (existsb (λ a, String.eqb a "--help") arguments) eqn:Eh; [done|]. intros Hsafe.
  assert (Hplain : safe_revision_output arguments = true → subcommand ∈ ["diff"; "log"; "show"] →
    ∃ user head, hardened_git_subcommand subcommand arguments =
      (head ++ ["--no-ext-diff"; "--no-textconv"] ++ user)%list ∧
    head = (if String.eqb subcommand "reflog" then ["reflog"; "show"] else [subcommand]) ∧
    Forall inert_argument user ∧ user `suffix_of` arguments).
  { intros Hr Hs. exists arguments, [subcommand]. unfold hardened_git_subcommand.
    rewrite (proj2 (mem_elem subcommand _) Hs).
    split_and!; [done| |by apply safe_revision_inert|done].
    rewrite !elem_of_cons in Hs. destruct Hs as [->|[->|[->|Hs]]]; [done..|by inversion Hs]. }
  rewrite !elem_of_cons in Hsub. destruct Hsub as [->|[->|[->|[->|Hs]]]]; [| | | |by inversion Hs].
  - apply andb_true_iff in Hsafe as [Hr _]. apply Hplain; [done|]. rewrite !elem_of_cons. auto.
  - apply Hplain; [done|]. rewrite !elem_of_cons. auto.
  - apply Hplain; [done|]. rewrite !elem_of_cons. auto.
  - clear Hplain. simpl in Hsafe. unfold hardened_git_subcommand. simpl.
    destruct arguments as [|first rest]; simpl in *; [by exists [], ["reflog"; "show"]|].
    destruct (String.eqb_spec first "show") as [->|Hne].
    + exists rest, ["reflog"; "show"]. split_and!; [done|done| |by apply suffix_cons_r].
      apply orb_false_iff in Eh as [_ Eh]. by apply safe_revision_inert.
    + destruct (starts_with "-" first); [|done].
      exists (first :: rest), ["reflog"; "show"]. split_and!; [done|done| |done].
      by apply safe_revision_inert.
Qed.

(** * [find] never runs or deletes *)

Lemma safe_find_from_spec expression args i a :
  safe_find_from expression args = true → args !! i = Some a → starts_with "-" a = true →
  a ∈ (FIND_VALUES ++ FIND_FLAGS)%list ∨
  ∃ j v, i = S j ∧ args !! j = Some v ∧ v ∈ FIND_VALUES.
Proof.
  remember (length args) as n eqn:Hn. revert expression args i Hn.
  induction n as [n IH] using lt_wf_ind. intros expression args i -> Hs Hi Ha.
  destruct args as [|b rest]; [done|]. cbn [safe_find_from] in Hs.
  assert (Hrest : ∀ e k, safe_find_from e rest = true → i = S k →
    a ∈ (FIND_VALUES ++ FIND_FLAGS)%list ∨
    ∃ j v, i = S j ∧ (b :: rest) !! j = Some v ∧ v ∈ FIND_VALUES).
  { intros e k Hr ->. destruct (IH (length rest) ltac:(simpl; lia) e rest k eq_refl Hr Hi Ha)
      as [?|(j & v & -> & Hj & Hv)]; [auto|]. right. by exists (S j), v. }
  destruct (negb expression && negb (starts_with "-" b) && _) eqn:Ep.
  { destruct i as [|i]; [|by eapply Hrest]. simplify_eq/=.
    rewrite Ha in Ep. by destruct expression. }
  destruct (mem b FIND_VALUES) eqn:Ev.
  { apply mem_elem in Ev. destruct rest as [|v rest]; [done|].
    destruct i as [|[|i]]; cbn in Hi; simplify_eq.
    - left. apply elem_of_app. auto.
    - right. by exists 0%nat, b.
    - destruct (IH (length rest) ltac:(simpl; lia) true rest i eq_refl Hs Hi Ha)
        as [?|(j & w & -> & Hj & Hw)]; [auto|]. right. by exists (S (S j)), w. }
  destruct (mem b FIND_FLAGS) eqn:Ef; [|done]. apply mem_elem in Ef.
  destruct i as [|i]; [|by eapply Hrest]. cbn in Hi; simplify_eq. left. apply elem_of_app. auto.
Qed.

(** A safe-listed [find] only has the listed tests and print actions: an
    argument that starts with a dash is one of them or the operand of one, so
    [-exec], [-ok], [-delete] and [-fprint] are never actions of an accepted
    command. *)
Theorem find_only_listed args i a :
  safe_search_arguments "find" args = true → args !! i = Some a → starts_with "-" a = true →
  a ∈ (FIND_VALUES ++ FIND_FLAGS)%list ∨
  ∃ j v, i = S j ∧ args !! j = Some v ∧ v ∈ FIND_VALUES.
Proof. apply (safe_find_from_spec false). Qed.

(** * The read-only forms of the seven programs *)

(** An independent description of what the safe list lets each program do.
    The lists of options are written out. *)

(** [git grep] without a pager, an external grep or a text conversion *)
Definition no_grep_program (a : string) : Prop :=
  a ≠ "--textconv" ∧ a ≠ "--ext-grep" ∧ starts_with "--open-files-in-pager" a = false ∧
  (starts_with "-" a = true → starts_with "--" a = false → str_contains "O" a = false).

(** A cluster of listing letters stands for its letters, one by one. *)
Definition unclustered (a : string) (l : list string) : Prop :=
  l = [a] ∨
  ∃ letters, a = String "-" (String.string_of_list_ascii letters) ∧
    Forall (λ c, c ∈ ["a"; "r"; "v"; "l"; "i"]%char) letters ∧
    l = map (λ c, String "-" (String c "")) letters.

Inductive git_reads : string → list string → Prop :=
| reads_status shown paths tail :
    Forall (λ a, a ∈ ["--short"; "-s"; "--branch"; "-b"; "--show-stash"; "--porcelain";
      "--porcelain=v1"; "--porcelain=v2"; "--untracked-files=no"; "--untracked-files=normal";
      "--untracked-files=all"; "-uno"; "-unormal"; "-uall"; "--ignored=no"; "--ignored=matching";
      "--ignored=traditional"; "--renames"; "--no-renames"; "--ahead-behind";
      "--no-ahead-behind"]) shown →
    tail = [] ∨ tail = "--" :: paths → git_reads "status" (shown ++ tail)%list
| reads_diff args : Forall inert_argument args → "--no-index" ∉ args → git_reads "diff" args
| reads_revisions sub args :
    sub ∈ ["log"; "show"; "shortlog"] → Forall inert_argument args → git_reads sub args
| reads_reflog : git_reads "reflog" []
| reads_reflog_show args : Forall inert_argument args → git_reads "reflog" ("show" :: args)
| reads_reflog_options a args :
    starts_with "-" a = true → Forall inert_argument (a :: args) → git_reads "reflog" (a :: args)
| reads_blame args : "--textconv" ∉ args → git_reads "blame" args
| reads_git_grep args : Forall no_grep_program args → git_reads "grep" args
| reads_branch args parts names :
    Forall2 unclustered args parts →
    Forall (λ a, str_contains "%(signature" a = false) (mjoin parts) →
    Grammar ["-a"; "--all"; "-r"; "--remotes"; "-v"; "-vv"; "--verbose"; "-l"; "--list";
        "--show-current"; "-i"; "--ignore-case"; "--omit-empty"; "--color"; "--no-color";
        "--no-column"; "--abbrev"; "--no-abbrev"; "--contains"; "--no-contains"; "--merged";
        "--no-merged"] ["--sort"; "--format"; "--points-at"]
      ["--color="; "--abbrev="; "--contains="; "--no-contains="; "--merged="; "--no-merged="]
      (mjoin parts) names →
    names = 0%nat ∨
    (∃ mode a, a ∈ mjoin parts ∧ (a = mode ∨ ∃ v, a = (mode ++ "=" ++ v)%string) ∧
      mode ∈ ["-l"; "--list"; "--contains"; "--no-contains"; "--merged"; "--no-merged";
              "--points-at"]) →
    git_reads "branch" args
| reads_rev_parse args :
    Forall (λ a, a ≠ "--parseopt" ∧ starts_with "--stdin" a = false) args →
    git_reads "rev-parse" args
| reads_ls_files args : git_reads "ls-files" args
| reads_remote args : Forall (λ a, a ∈ ["-v"; "--verbose"]) args → git_reads "remote" args
| reads_remote_url args :
    Grammar ["--push"; "--all"] [] [] args 1 → git_reads "remote" ("get-url" :: args)
| reads_describe args names :
    Grammar ["--all"; "--tags"; "--contains"; "--long"; "--always"; "--exact-match";
        "--first-parent"; "--debug"] ["--match"; "--exclude"] ["--abbrev="; "--candidates="]
      args names → git_reads "describe" args
| reads_config_get args :
    Grammar ["--local"; "--global"; "--system"; "--worktree"; "--includes"; "--no-includes";
        "--show-origin"; "--show-scope"; "--name-only"; "-z"; "--null"; "--bool"; "--int";
        "--bool-or-int"; "--path"; "--expiry-date"; "--all"; "--regexp"; "--fixed-value";
        "--show-names"]
      ["-f"; "--file"; "--blob"; "--type"; "--default"; "--value"; "--url"] [] args 1 →
    git_reads "config" ("get" :: args)
| reads_config_list args :
    Grammar ["--local"; "--global"; "--system"; "--worktree"; "--includes"; "--no-includes";
        "--show-origin"; "--show-scope"; "--name-only"; "-z"; "--null"; "--bool"; "--int";
        "--bool-or-int"; "--path"; "--expiry-date"]
      ["-f"; "--file"; "--blob"; "--type"; "--default"] [] args 0 →
    git_reads "config" ("list" :: args)
| reads_config_action args action keys :
    action ∈ args →
    (action ∈ ["--get"; "--get-all"; "--get-regexp"] ∧ (1 ≤ keys ≤ 2)%nat ∨
     action = "--get-urlmatch" ∧ keys = 2%nat ∨ action ∈ ["--list"; "-l"] ∧ keys = 0%nat) →
    (∀ other, other ∈ ["--get"; "--get-all"; "--get-regexp"; "--get-urlmatch"; "--list"; "-l"] →
      other ∈ args → other = action) →
    Grammar ["--local"; "--global"; "--system"; "--worktree"; "--includes"; "--no-includes";
        "--show-origin"; "--show-scope"; "--name-only"; "-z"; "--null"; "--bool"; "--int";
        "--bool-or-int"; "--path"; "--expiry-date"; "--get"; "--get-all"; "--get-regexp";
        "--get-urlmatch"; "--list"; "-l"]
      ["-f"; "--file"; "--blob"; "--type"; "--default"] [] args keys →
    git_reads "config" args.

(** The options of grep and ripgrep: long options with a value, long flags,
    letters with a value, plain letters.  Nothing is an option after [--]. *)
Inductive search_reads (values flags : list string) (value_letters letters : list ascii)
    : list string → Prop :=
| search_nil : search_reads values flags value_letters letters []
| search_end rest : search_reads values flags value_letters letters ("--" :: rest)
| search_operand a l :
    starts_with "-" a = false ∨ a = "-" → search_reads values flags value_letters letters l →
    search_reads values flags value_letters letters (a :: l)
| search_value o v l :
    o ∈ values → search_reads values flags value_letters letters l →
    search_reads values flags value_letters letters (o :: v :: l)
| search_equals o v l :
    o ∈ values → search_reads values flags value_letters letters l →
    search_reads values flags value_letters letters ((o ++ "=" ++ v)%string :: l)
| search_flag a l :
    a ∈ flags → search_reads values flags value_letters letters l →
    search_reads values flags value_letters letters (a :: l)
| search_letters cs l :
    Forall (λ c, c ∈ letters) cs → search_reads values flags value_letters letters l →
    search_reads values flags value_letters letters
      (String "-" (String.string_of_list_ascii cs) :: l)
| search_attached cs c t l :
    Forall (λ c, c ∈ letters) cs → c ∈ value_letters →
    search_reads values flags value_letters letters l →
    search_reads values flags value_letters letters
      (String "-" (String.string_of_list_ascii cs ++ String c t) :: l)
| search_next cs c v l :
    Forall (λ c, c ∈ letters) cs → c ∈ value_letters →
    search_reads values flags value_letters letters l →
    search_reads values flags value_letters letters
      (String "-" (String.string_of_list_ascii cs ++ String c "") :: v :: l).

(** The expression of [find]: tests with an operand, tests and print actions
    without one, and the connectives. *)
Inductive find_expression : list string → Prop :=
| find_done : find_expression []
| find_test t v l :
    t ∈ ["-name"; "-iname"; "-path"; "-ipath"; "-type"; "-maxdepth"; "-mindepth"; "-size";
         "-mtime"; "-mmin"] → find_expression l → find_expression (t :: v :: l)
| find_action t l :
    t ∈ ["-print"; "-print0"; "-empty"; "-prune"; "-depth"; "-xdev"; "-a"; "-and"; "-o"; "-or";
         "-not"; "!"; "("; ")"] → find_expression l → find_expression (t :: l).

Inductive program_reads : string → list string → Prop :=
| reads_git sub args : "--help" ∉ args → git_reads sub args → program_reads "git" (sub :: args)
| reads_cat args : program_reads "cat" args
| reads_ls args : program_reads "ls" args
| reads_grep args :
    search_reads
      ["--regexp"; "--file"; "--include"; "--exclude"; "--exclude-dir"; "--max-count";
       "--after-context"; "--before-context"; "--context"]
      ["--ignore-case"; "--invert-match"; "--line-number"; "--count"; "--files-with-matches";
       "--files-without-match"; "--fixed-strings"; "--word-regexp"; "--line-regexp";
       "--only-matching"; "--quiet"; "--no-messages"; "--recursive"; "--extended-regexp";
       "--basic-regexp"]
      ["e"; "f"; "m"; "A"; "B"; "C"]%char
      ["i"; "v"; "n"; "c"; "l"; "L"; "F"; "w"; "x"; "o"; "q"; "s"; "H"; "h"; "r"; "R"; "E"; "I";
       "G"]%char args →
    program_reads "grep" args
| reads_rg args :
    search_reads
      ["--regexp"; "--file"; "--glob"; "--iglob"; "--type"; "--type-not"; "--max-count";
       "--max-depth"; "--after-context"; "--before-context"; "--context"; "--color"; "--threads"]
      ["--ignore-case"; "--invert-match"; "--line-number"; "--count"; "--files-with-matches";
       "--files-without-match"; "--fixed-strings"; "--word-regexp"; "--line-regexp";
       "--only-matching"; "--quiet"; "--no-messages"; "--files"; "--hidden"; "--no-ignore";
       "--no-config"; "--json"; "--no-heading"; "--heading"; "--smart-case"; "--null"; "--text"]
      ["e"; "f"; "m"; "A"; "B"; "C"; "g"; "t"; "T"; "j"]%char
      ["i"; "v"; "n"; "c"; "l"; "L"; "F"; "w"; "x"; "o"; "q"; "s"; "H"; "h"; "S"; "N"; "U"; "a";
       "0"]%char args →
    program_reads "rg" args
| reads_find paths expression :
    Forall (λ a, starts_with "-" a = false) paths → find_expression expression →
    program_reads "find" (paths ++ expression)%list
| reads_bat args :
    Forall (λ a, a ∉ ["--pager"; "-P"; "--paging"; "--diff"; "-d"; "--config-file"] ∧
                 starts_with "--pager=" a = false ∧ starts_with "--paging=" a = false ∧
                 starts_with "--config-file=" a = false) args →
    program_reads "bat" args.

(** ** The parsers accept only these forms *)

Lemma existsb_eqb_not_in a l : existsb (λ b, String.eqb b a) l = false → a ∉ l.
Proof.
  rewrite existsb_false_Forall, Forall_forall. intros H Ha. specialize (H a Ha).
  by rewrite String.eqb_refl in H.
Qed.
Lemma has_false a l : has l a = false → a ∉ l.
Proof. unfold has. intros H Hin. apply mem_elem in Hin. congruence. Qed.
Lemma split_once_some s o v : split_once "=" s = Some (o, v) → s = (o ++ "=" ++ v)%string.
Proof.
  revert o. induction s as [|c s IH]; intros o; simpl; [done|].
  destruct (Ascii.eqb_spec c "=") as [->|_]; [by intros [= <- <-]|].
  destruct (split_once "=" s) as [[o' v']|]; [|done]. intros [= <- <-]. simpl.
  by rewrite (IH o' eq_refl).
Qed.

Lemma status_reads args : safe_status args = true → git_reads "status" args.
Proof.
  intros H.
  assert (∃ shown paths tail, args = (shown ++ tail)%list ∧ (tail = [] ∨ tail = "--" :: paths) ∧
    Forall (λ a, a ∈ STATUS_OPTIONS) shown) as (shown & paths & tail & -> & Ht & Hs);
    [|by eapply reads_status].
  induction args as [|a args IH]; simpl in H; [by exists [], [], []; auto|].
  destruct (String.eqb_spec a "--") as [->|_]; [by exists [], args, ("--" :: args); auto|].
  apply andb_true_iff in H as [Ha H]. destruct (IH H) as (shown & paths & tail & -> & Ht & Hs).
  exists (a :: shown), paths, tail. split_and!; [done|done|]. constructor; [by apply mem_elem|done].
Qed.

Lemma char_in_elem cs c : char_in cs c = true → c ∈ String.list_ascii_of_string cs.
Proof.
  unfold char_in. rewrite existsb_exists. intros (x & Hx & E). apply Ascii.eqb_eq in E as ->.
  by apply list_elem_of_In.
Qed.

Lemma expand_unclustered a : unclustered a (expand_cluster a).
Proof.
  unfold expand_cluster. destruct (cluster a) eqn:E; [|by left]. right.
  unfold cluster in E. rewrite !andb_true_iff in E. destruct E as [[[_ Hd] _] Hl].
  exists (String.list_ascii_of_string (tail_str a)). split_and!; [| |done].
  - apply starts_with_spec in Hd as [t ->]. simpl. by rewrite String.string_of_list_ascii_of_string.
  - eapply Forall_impl; [by apply str_all_Forall|]. intros c Hc. by apply (char_in_elem "arvli").
Qed.

Lemma branch_reads args : safe_branch args = true → git_reads "branch" args.
Proof.
  unfold safe_branch. destruct (existsb (str_contains "%(signature") _) eqn:Es; [done|].
  destruct (options _ _ _ _) as [n|] eqn:Eo; [|done]. intros H.
  assert (Hm : List.flat_map expand_cluster args = mjoin (map expand_cluster args)).
  { clear. induction args as [|a args IH]; simpl; [done|]. by rewrite IH. }
  rewrite Hm in *. eapply (reads_branch args (map expand_cluster args) n).
  - clear. induction args; simpl; constructor; auto using expand_unclustered.
  - by apply existsb_false_Forall.
  - by apply options_sound.
  - apply orb_true_iff in H as [H|H]; [left; by apply Nat.eqb_eq|]. right.
    apply existsb_exists in H as (a & Ha & Hmode). apply mem_elem in Hmode.
    exists (option_name a), a. split_and!; [by apply list_elem_of_In| |done].
    unfold option_name. destruct (split_once "=" a) as [[o v]|] eqn:E; [|by left].
    right. exists v. by apply split_once_some.
Qed.

Lemma grep_reads args : safe_grep args = true → git_reads "grep" args.
Proof.
  unfold safe_grep. rewrite negb_true_iff, existsb_false_Forall. intros H. apply reads_git_grep.
  eapply Forall_impl; [exact H|]. intros a Ha. cbv beta in Ha. rewrite !orb_false_iff in Ha.
  destruct Ha as [[[H1%String.eqb_neq H2%String.eqb_neq] H3] H4]. split_and!; try done.
  intros E1 E2. by rewrite E1, E2 in H4.
Qed.

Lemma remote_reads args : safe_remote args = true → git_reads "remote" args.
Proof.
  assert (Hall : forallb (λ a, mem a ["-v"; "--verbose"]) args = true → git_reads "remote" args).
  { rewrite forallb_forall. intros H. apply reads_remote, Forall_forall. intros a Ha.
    apply mem_elem, H. by apply list_elem_of_In. }
  unfold safe_remote. destruct args as [|first rest]; [intros _; by apply Hall|].
  destruct (String.eqb_spec first "get-url") as [->|_]; [|done].
  intros H%bool_decide_eq_true. by apply reads_remote_url, options_sound.
Qed.

Lemma config_action_reads args : safe_config_action args = true → git_reads "config" args.
Proof.
  unfold safe_config_action.
  destruct (List.filter (λ a, has args a.1) CONFIG_ACTIONS) as [|[action [low high]] [|]] eqn:Ef;
    [done| |done].
  destruct (options _ _ _ _) as [n|] eqn:Eo; [|done]. intros [Hl%Nat.leb_le Hh%Nat.leb_le]%andb_true_iff.
  assert (Hone : ∀ x, In x CONFIG_ACTIONS → x.1 ∈ args → x = (action, (low, high))).
  { intros x Hx Ha. assert (Hin : In x (List.filter (λ a, has args a.1) CONFIG_ACTIONS)).
    { apply filter_In. split; [done|]. by apply mem_elem. }
    rewrite Ef in Hin. by destruct Hin as [<-|[]]. }
  assert (Hin : In (action, (low, high)) (List.filter (λ a, has args a.1) CONFIG_ACTIONS))
    by (rewrite Ef; by left).
  apply filter_In in Hin as [Hin Ha%mem_elem]. cbn [fst] in Ha.
  eapply (reads_config_action args action n); [done| | |by apply options_sound].
  - clear Hone Eo Ef Ha. unfold CONFIG_ACTIONS in Hin. simpl in Hin.
    destruct Hin as [E|[E|[E|[E|[E|[E|[]]]]]]]; simplify_eq; rewrite ?elem_of_cons;
      [left|left|left|right; left|right; right|right; right]; split; auto; lia.
  - intros other Ho Hargs.
    assert (∃ r, In (other, r) CONFIG_ACTIONS) as [r Hr].
    { clear -Ho. rewrite !elem_of_cons in Ho. unfold CONFIG_ACTIONS. simpl.
      destruct Ho as [->|[->|[->|[->|[->|[->|Ho]]]]]]; [eexists; eauto 8..|by inversion Ho]. }
    by specialize (Hone _ Hr Hargs) as [= -> ->].
Qed.

Lemma config_reads args : safe_config args = true → git_reads "config" args.
Proof.
  unfold safe_config. destruct args as [|first rest]; [apply config_action_reads|].
  destruct (String.eqb_spec first "get") as [->|_].
  { intros H%bool_decide_eq_true. by apply reads_config_get, options_sound. }
  destruct (String.eqb_spec first "list") as [->|_]; [|apply config_action_reads].
  intros H%bool_decide_eq_true. by apply reads_config_list, options_sound.
Qed.

Lemma reflog_reads args :
  safe_reflog args = true → existsb (λ a, String.eqb a "--help") args = false →
  git_reads "reflog" args.
Proof.
  intros H Hh. destruct args as [|first rest]; simpl in H; [apply reads_reflog|].
  destruct (String.eqb_spec first "show") as [->|_].
  { apply reads_reflog_show. by apply safe_revision_inert. }
  destruct (starts_with "-" first) eqn:E; [|done].
  apply reads_reflog_options; [done|]. by apply safe_revision_inert.
Qed.

(** Every accepted git command line is one of the listed read-only forms. *)
Lemma git_arguments_read sub args :
  safe_git_arguments sub args = true → "--help" ∉ args ∧ git_reads sub args.
Proof.
  unfold safe_git_arguments. destruct (existsb (λ a, String.eqb a "--help") args) eqn:Eh; [done|].
  intros H. split; [by apply existsb_eqb_not_in|].
  destruct (String.eqb_spec sub "status") as [->|_]; [by apply status_reads|].
  destruct (String.eqb_spec sub "diff") as [->|_].
  { apply andb_true_iff in H as [H1 H2%negb_true_iff].
    apply reads_diff; [by apply safe_revision_inert|by apply has_false]. }
  destruct (mem sub ["log"; "show"; "shortlog"]) eqn:Er.
  { apply reads_revisions; [by apply mem_elem|by apply safe_revision_inert]. }
  destruct (String.eqb_spec sub "reflog") as [->|_]; [by apply reflog_reads|].
  destruct (String.eqb_spec sub "blame") as [->|_].
  { apply reads_blame, has_false. by apply negb_true_iff. }
  destruct (String.eqb_spec sub "grep") as [->|_]; [by apply grep_reads|].
  destruct (String.eqb_spec sub "branch") as [->|_]; [by apply branch_reads|].
  destruct (String.eqb_spec sub "rev-parse") as [->|_].
  { apply negb_true_iff, existsb_false_Forall in H. apply reads_rev_parse.
    eapply Forall_impl; [exact H|]. intros a Ha. cbv beta in Ha.
    by apply orb_false_iff in Ha as [?%String.eqb_neq ?]. }
  destruct (String.eqb_spec sub "ls-files") as [->|_]; [apply reads_ls_files|].
  destruct (String.eqb_spec sub "remote") as [->|_]; [by apply remote_reads|].
  destruct (String.eqb_spec sub "describe") as [->|_].
  { unfold safe_describe in H. destruct (options _ _ _ _) as [n|] eqn:E; [|done].
    eapply reads_describe, options_sound, E. }
  destruct (String.eqb_spec sub "config") as [->|_]; [by apply config_reads|done].
Qed.

Lemma find_expression_true args : safe_find_from true args = true → find_expression args.
Proof.
  remember (length args) as k eqn:Hk. revert args Hk.
  induction k as [k IH] using lt_wf_ind. intros [|a rest] -> H; [constructor|].
  cbn [safe_find_from negb andb] in H. destruct (mem a FIND_VALUES) eqn:Ev.
  { destruct rest as [|v rest]; [done|]. apply find_test; [by apply mem_elem|].
    eapply IH; [|done|done]. simpl; lia. }
  destruct (mem a FIND_FLAGS) eqn:Ef; [|done]. apply find_action; [by apply mem_elem|].
  eapply IH; [|done|done]. simpl; lia.
Qed.
Lemma find_reads args : safe_find args = true → program_reads "find" args.
Proof.
  intros H.
  assert (∃ paths expression, args = (paths ++ expression)%list ∧
    Forall (λ a, starts_with "-" a = false) paths ∧ find_expression expression)
    as (paths & expression & -> & Hp & He); [|by apply reads_find].
  unfold safe_find in H. induction args as [|a rest IH].
  { exists [], []. split_and!; constructor. }
  destruct (negb (starts_with "-" a) && negb (mem a ["!"; "("; ")"])) eqn:Ep.
  { cbn [safe_find_from negb andb] in H. rewrite Ep in H.
    destruct (IH H) as (paths & expression & -> & Hp & He).
    apply andb_true_iff in Ep as [Ep%negb_true_iff _].
    exists (a :: paths), expression. split_and!; [done|by constructor|done]. }
  exists [], (a :: rest). split_and!; [done|constructor|]. apply find_expression_true.
  cbn [safe_find_from negb andb] in *. by rewrite Ep in H.
Qed.

Lemma bat_reads args : safe_bat_arguments args = true → program_reads "bat" args.
Proof.
  unfold safe_bat_arguments. rewrite negb_true_iff, existsb_false_Forall. intros H.
  apply reads_bat. eapply Forall_impl; [exact H|]. intros a Ha. cbv beta in Ha.
  rewrite !orb_false_iff in Ha. destruct Ha as [[[Hm H1] H2] H3]. split_and!; try done.
  rewrite <- mem_elem. congruence.
Qed.

(** The lists of a program, as the search loop consults them *)
Section search.
Context (name : string) (values flags : list string) (value_letters letters : list ascii).
Context (Hvalues : ∀ o, takes_value name o = true → o ∈ values).
Context (Hflags : ∀ o, safe_flag name o = true → o ∈ flags).
Context (Hvletters : ∀ c, value_flag name c = true → c ∈ value_letters).
Context (Hletters : ∀ c, plain_flag name c = true → c ∈ letters).

Lemma short_cluster_letters s b :
  short_cluster name s = Some b →
  ∃ cs, Forall (λ c, c ∈ letters) cs ∧
    (b = false ∧ s = String.string_of_list_ascii cs ∨
     ∃ c t, c ∈ value_letters ∧ s = (String.string_of_list_ascii cs ++ String c t)%string ∧
            (b = true → t = "")).
Proof.
  induction s as [|c s IH]; simpl.
  { intros [= <-]. exists []. split; [constructor|by left]. }
  destruct (value_flag name c) eqn:Ev.
  { intros [= <-]. exists []. split; [constructor|]. right. exists c, s.
    split_and!; [auto|done|]. by destruct s. }
  destruct (plain_flag name c) eqn:Ep; [|done]. intros H.
  destruct (IH H) as (cs & Hcs & Hs). exists (c :: cs). split; [by constructor; auto|].
  destruct Hs as [[-> ->]|(d & t & Hd & -> & Ht)]; [by left|]. right. by exists d, t.
Qed.

Lemma search_loop_reads args :
  safe_search_loop name args = true → search_reads values flags value_letters letters args.
Proof.
  remember (length args) as k eqn:Hk. revert args Hk.
  induction k as [k IH] using lt_wf_ind. intros [|a rest] -> H; [constructor|].
  assert (Hrest : safe_search_loop name rest = true →
                  search_reads values flags value_letters letters rest)
    by (intros; eapply IH; [|done|done]; simpl; lia).
  assert (Hafter : match rest with [] => false | _ :: rest' => safe_search_loop name rest' end = true →
    ∃ v rest', rest = v :: rest' ∧ search_reads values flags value_letters letters rest').
  { destruct rest as [|v rest']; [done|]. intros Hv. exists v, rest'. split; [done|].
    eapply IH; [|done|done]. simpl; lia. }
  cbn [safe_search_loop] in H.
  destruct (negb (starts_with "-" a) || String.eqb a "-") eqn:Ep.
  { apply search_operand; [|auto]. apply orb_true_iff in Ep.
    destruct Ep as [E|E]; [left; by apply negb_true_iff|right; by apply String.eqb_eq]. }
  destruct (String.eqb_spec a "--") as [->|_]; [constructor|].
  apply orb_false_iff in Ep as [Ed%negb_false_iff _].
  unfold option_name in H. destruct (split_once "=" a) as [[o v]|] eqn:Es.
  { destruct (takes_value name o) eqn:Et; [|done].
    apply split_once_some in Es as ->. apply search_equals; auto. }
  destruct (takes_value name a) eqn:Et.
  { destruct (Hafter H) as (v & rest' & -> & Hr). apply search_value; auto. }
  destruct (safe_flag name a) eqn:Ef; [apply search_flag; auto|].
  destruct (starts_with "--" a); [done|].
  destruct (short_cluster name (tail_str a)) as [b|] eqn:Ec; [|done].
  apply starts_with_spec in Ed as [s ->]. cbn [String.append tail_str] in *.
  destruct (short_cluster_letters s b Ec) as (cs & Hcs & [[-> ->]|(c & t & Hc & -> & Ht)]).
  { apply search_letters; auto. }
  destruct b; [|apply search_attached; auto].
  rewrite (Ht eq_refl) in *. destruct (Hafter H) as (v & rest' & -> & Hr). by apply search_next.
Qed.
End search.

Lemma search_arguments_read name args :
  safe_search_arguments name args = true → name ∈ ["grep"; "find"; "rg"] → program_reads name args.
Proof.
  intros H Hn. rewrite !elem_of_cons in Hn. destruct Hn as [->|[->|[->|Hn]]]; [| | |by inversion Hn].
  - apply reads_grep. apply (search_loop_reads "grep"); [..|exact H].
    + intros o Ho. by apply mem_elem.
    + intros o Ho. apply mem_elem. unfold safe_flag in Ho. cbn [String.eqb andb] in Ho.
      unfold mem in *. revert Ho. cbn. rewrite !orb_false_r, <- !orb_assoc. by intros ->.
    + intros c Hc. unfold value_flag in Hc. cbn in Hc. rewrite orb_false_r in Hc.
      by apply (char_in_elem "efmABC").
    + intros c Hc. apply (char_in_elem "ivnclLFwxoqsHhrREIG").
      unfold plain_flag in Hc. revert Hc. unfold char_in. cbn.
      rewrite !orb_false_r, <- !orb_assoc. by intros ->.
  - by apply find_reads.
  - apply reads_rg. apply (search_loop_reads "rg"); [..|exact H].
    + intros o Ho. by apply mem_elem.
    + intros o Ho. apply mem_elem. unfold safe_flag in Ho. revert Ho.
      unfold mem. cbn. rewrite !orb_false_r, <- !orb_assoc. by intros ->.
    + intros c Hc. apply (char_in_elem "efmABCgtTj"). unfold value_flag in Hc. revert Hc.
      unfold char_in. cbn. rewrite !orb_false_r, <- !orb_assoc. by intros ->.
    + intros c Hc. apply (char_in_elem "ivnclLFwxoqsHhSNUa0"). unfold plain_flag in Hc. revert Hc.
      unfold char_in. cbn. rewrite !orb_false_r, <- !orb_assoc. by intros ->.
Qed.

(** * What the classifier lets through without a prompt *)

Section classifier_lemmas.
Context {SW : ShellWords} {G : Glob} {FS : FileSystem}.

Definition within_directory (path directory : string) : Prop :=
  path = directory ∨ ∃ rest, path = (directory ++ "/" ++ rest)%string.

(** A regular file that neither its group nor others can write *)
Definition protected_file (path : string) (m : Metadata) : Prop :=
  fs_metadata path = Some m ∧ meta_is_file m = true ∧
  Z.testbit (meta_mode m) 1 = false ∧ Z.testbit (meta_mode m) 4 = false.

(** The binary the program of that name resolves to.  The system programs are
    root's, in the system directories; ripgrep and bat may also be the user's,
    in their own Homebrew cellars. *)
Inductive audited_program : string → string → Prop :=
| audited_system name path m directory :
    name ∈ ["git"; "cat"; "ls"; "grep"; "find"] → directory ∈ ["/usr/bin"; "/bin"] →
    fs_canonicalize (directory ++ "/" ++ name) = Some path →
    within_directory path "/usr/bin" ∨ within_directory path "/bin" →
    protected_file path m → meta_uid m = 0 → audited_program name path
| audited_package name package path m directory :
    (name, package) ∈ [("rg", "ripgrep"); ("bat", "bat")] →
    directory ∈ ["/opt/homebrew/bin"; "/usr/local/bin"; "/usr/bin"; "/bin"] →
    fs_canonicalize (directory ++ "/" ++ name) = Some path →
    (∃ prefix, within_directory path prefix ∧
       prefix ∈ ["/usr/bin"; "/bin"; ("/opt/homebrew/Cellar/" ++ package)%string;
                 ("/usr/local/Cellar/" ++ package)%string]) →
    protected_file path m → meta_uid m = 0 ∨ meta_uid m = geteuid → audited_program name path.

Lemma first_some_inv {A B} (f : A → option B) l y :
  first_some f l = Some y → ∃ x, x ∈ l ∧ f x = Some y.
Proof.
  induction l as [|x l IH]; simpl; [done|]. destruct (f x) eqn:E.
  - intros [= <-]. exists x. split; [left|done].
  - intros (z & Hz & Hf)%IH. exists z. split; [by right|done].
Qed.

Lemma path_starts_within prefix path : path_starts_with prefix path = true → within_directory path prefix.
Proof.
  unfold path_starts_with. rewrite orb_true_iff, String.eqb_eq, starts_with_spec.
  intros [->|[t ->]]; [by left|]. right. exists t. by rewrite str_app_assoc.
Qed.
Lemma mode_protected mode :
  (Z.land mode 18 =? 0) = true → Z.testbit mode 1 = false ∧ Z.testbit mode 4 = false.
Proof.
  rewrite Z.eqb_eq. intros H.
  assert (Hb : ∀ i, Z.testbit mode i && Z.testbit 18 i = false)
    by (intros i; by rewrite <- Z.land_spec, H, Z.bits_0).
  split; [specialize (Hb 1)|specialize (Hb 4)]; by rewrite andb_true_r in Hb.
Qed.

(** The candidates are the name in the listed directories. *)
Lemma candidate_named name directories l c :
  l = map (λ d, (d ++ "/" ++ name)%string) directories → c ∈ l →
  ∃ directory, directory ∈ directories ∧ c = (directory ++ "/" ++ name)%string.
Proof. intros -> Hc. apply list_elem_of_fmap in Hc as (d & -> & Hd). by exists d. Qed.

Lemma system_binary_audited name directories l path :
  name ∈ ["git"; "cat"; "ls"; "grep"; "find"] → directories ⊆ ["/usr/bin"; "/bin"] →
  l = map (λ d, (d ++ "/" ++ name)%string) directories →
  resolve_audited_system_binary l = Some path → audited_program name path.
Proof.
  intros Hn Hd Hl (c & Hc & Hf)%first_some_inv.
  destruct (candidate_named name directories l c Hl Hc) as (d & Hin & ->).
  unfold audited_system_candidate in Hf. destruct (fs_canonicalize _) as [p|] eqn:Ec; [|done].
  destruct (negb _ && negb _) eqn:Ep; [done|]. destruct (fs_metadata p) as [m|] eqn:Em; [|done].
  destruct (meta_is_file m && _ && _) eqn:E; [|done]. simplify_eq.
  rewrite !andb_true_iff in E. destruct E as [[Hfile Hu%Z.eqb_eq] [? ?]%mode_protected].
  eapply audited_system; eauto; [|by split_and!].
  apply andb_false_iff in Ep. rewrite !negb_false_iff in Ep.
  destruct Ep; [left|right]; by apply path_starts_within.
Qed.
Lemma package_binary_audited name package directories l path :
  (name, package) ∈ [("rg", "ripgrep"); ("bat", "bat")] →
  directories ⊆ ["/opt/homebrew/bin"; "/usr/local/bin"; "/usr/bin"; "/bin"] →
  l = map (λ d, (d ++ "/" ++ name)%string) directories →
  resolve_audited_package_binary l package = Some path → audited_program name path.
Proof.
  intros Hn Hd Hl (c & Hc & Hf)%first_some_inv.
  destruct (candidate_named name directories l c Hl Hc) as (d & Hin & ->).
  unfold audited_package_candidate in Hf. destruct (fs_canonicalize _) as [p|] eqn:Ec; [|done].
  destruct (fs_metadata p) as [m|] eqn:Em; [|done].
  destruct (_ && meta_is_file m && _ && _ && _) eqn:E; [|done]. simplify_eq.
  rewrite !andb_true_iff in E. destruct E as [[[[Hp Hfile] Hu] [? ?]%mode_protected] _].
  rewrite orb_true_iff, !Z.eqb_eq in Hu.
  eapply audited_package; eauto; [|by split_and!].
  rewrite !orb_true_iff in Hp.
  destruct Hp as [[[Hw|Hw]|Hw]|Hw]; apply path_starts_within in Hw; eexists; (split; [exact Hw|]);
    rewrite !elem_of_cons; auto.
Qed.

Lemma system_directories_subset directories :
  directories = ["/usr/bin"; "/bin"] ∨ directories = ["/bin"; "/usr/bin"] →
  directories ⊆ ["/usr/bin"; "/bin"].
Proof. intros [->| ->] d; rewrite !elem_of_cons; tauto. Qed.
Lemma read_command_audited name path :
  audited_system_read_command name = Some path → audited_program name path.
Proof.
  unfold audited_system_read_command.
  destruct (String.eqb_spec name "cat") as [->|_];
    [apply (system_binary_audited "cat" ["/bin"; "/usr/bin"])|
     destruct (String.eqb_spec name "ls") as [->|_];
     [apply (system_binary_audited "ls" ["/bin"; "/usr/bin"])|
      destruct (String.eqb_spec name "grep") as [->|_];
      [apply (system_binary_audited "grep" ["/usr/bin"; "/bin"])|
       destruct (String.eqb_spec name "find") as [->|_];
       [apply (system_binary_audited "find" ["/usr/bin"; "/bin"])|done]]]];
    try reflexivity; try (apply mem_elem; reflexivity); apply system_directories_subset; auto.
Qed.

Lemma built_in_safe_audited segment :
  built_in_safe_segment segment = true →
  ∃ name args path, sw_split segment = Some (name :: args) ∧ audited_program name path ∧
                    program_reads name args.
Proof.
  unfold built_in_safe_segment. destruct (sw_split segment) as [[|name args]|]; [done| |done].
  intros H. exists name, args.
  assert (Hread : is_some (audited_system_read_command name) = true → program_reads name args →
    ∃ path, Some (name :: args) = Some (name :: args) ∧ audited_program name path ∧
            program_reads name args).
  { destruct (audited_system_read_command name) as [p|] eqn:E; [|done]. intros _ Hr. exists p.
    split_and!; [done|by apply read_command_audited|done]. }
  destruct (String.eqb_spec name "git") as [->|Hgit].
  { destruct audited_system_git as [p|] eqn:E; [|done]. exists p. cbn [is_some andb] in H.
    destruct args as [|sub args]; [done|]. destruct (git_arguments_read sub args H).
    split_and!; [done| |by apply reads_git].
    eapply (system_binary_audited "git" ["/usr/bin"; "/bin"] _ p); [by apply mem_elem|done|reflexivity|exact E]. }
  cbn [andb] in H. destruct (String.eqb_spec name "cat") as [->|_]; [apply Hread; [done|constructor]|].
  destruct (String.eqb_spec name "ls") as [->|_]; [apply Hread; [done|constructor]|].
  destruct (mem name ["grep"; "find"]) eqn:Egf.
  { apply andb_true_iff in H as [H Hs]. apply Hread; [done|]. apply search_arguments_read; [done|].
    apply mem_elem in Egf. rewrite !elem_of_cons in *. tauto. }
  destruct (String.eqb_spec name "rg") as [->|_].
  { destruct audited_rg as [p|] eqn:E; [|done]. exists p. split_and!; [done| |].
    - eapply (package_binary_audited "rg" "ripgrep"
               ["/opt/homebrew/bin"; "/usr/local/bin"; "/usr/bin"; "/bin"] _ p);
        [left|done|reflexivity|exact E].
    - apply search_arguments_read; [done|by apply mem_elem]. }
  destruct (String.eqb_spec name "bat") as [->|_]; [|done].
  destruct audited_bat as [p|] eqn:E; [|done]. exists p. split_and!; [done| |by apply bat_reads].
  eapply (package_binary_audited "bat" "bat"
           ["/opt/homebrew/bin"; "/usr/local/bin"; "/usr/bin"; "/bin"] _ p);
    [right; left|done|reflexivity|exact E].
Qed.

(** C38: a command runs without a prompt only if every part of it is trusted.
    When the classifier answers [SafeListed], the gate's own split of the
    command succeeds with only [&&], [||] and [;] between the segments, and
    the requoted form of every segment either matches a user pattern, or its
    first word is one of git, cat, ls, grep, find, rg and bat, that name in a
    fixed directory resolves to a regular file in the trusted directories
    which neither group nor others can write and which root owns (for rg and
    bat root or the user), and the words after it are one of the forms
    [program_reads] lists for that program: the thirteen git subcommands with
    their options, the option grammars of grep and rg, a [find] expression
    made of the listed tests, print actions and connectives, any arguments of
    cat and ls, and a bat without pager, paging, diff and config options.
    The forms are the ones the code means to accept; the examples below show
    three of them that git itself does not only read. *)
Theorem classify_sound (split_empty : sw_split "" = Some []) self command :
  classify self command = SafeListed →
  ∃ raw, split_compound_with_operators command = Some raw ∧
    Forall (λ p, safe_operator p.2) raw ∧
    Forall (λ p, ∃ canonical, canonical_segment p.1 = Some canonical ∧
      ((∃ pattern, pattern ∈ self ∧ pattern canonical = true) ∨
       (∃ name args path, sw_split canonical = Some (name :: args) ∧
          audited_program name path ∧ program_reads name args))) raw.
Proof.
  unfold classify. destruct (safe_command_segments command) as [l|] eqn:E; [|done].
  destruct (forallb _ l) eqn:Ef; [|done]. intros _.
  destruct (safe_segments_raw split_empty command l E) as (raw & Hraw & HF & Ho).
  exists raw. split; [done|]. rewrite forallb_forall in Ef.
  assert (Hl : Forall (λ s, safe_segment self s.1 = true) l).
  { apply Forall_forall. intros s Hs. apply Ef. by apply list_elem_of_In. }
  clear E Ef Hraw. induction HF as [|r s raw l [Hc Hop] HF IH]; [split; constructor|].
  apply Forall_cons_1 in Ho as [Ho1 Ho], Hl as [Hs Hl]. destruct (IH Ho Hl) as [IH1 IH2].
  split; constructor; auto; [by rewrite Hop|].
  exists s.1. split; [done|]. apply orb_true_iff in Hs as [Hs|Hs].
  - right. by apply built_in_safe_audited.
  - left. apply existsb_exists in Hs as (p & Hp & Hm). exists p. by rewrite list_elem_of_In.
Qed.
End classifier_lemmas.

(** * Forms the grammars accept although git does not only read

    The grammars look for a read action anywhere in the arguments. *)

(** [--format] takes [--list] as its value, so the list mode the grammar sees
    is not there and the positional names a branch to create. *)
Example branch_list_mode_from_a_value :
  safe_git_arguments "branch" ["--format"; "--list"; "new-branch"] = true ∧
  Grammar BRANCH_FLAGS BRANCH_VALUES BRANCH_PREFIXES ["--format"; "--list"; "new-branch"] 1.
Proof. split; [reflexivity|]. by apply options_sound. Qed.

(** [--file] takes [--get] as its value: the two positionals are a key and a
    value to set. *)
Example config_action_from_a_value :
  safe_git_arguments "config" ["--file"; "--get"; "core.pager"; "x"] = true.
Proof. reflexivity. Qed.

(** Only the full spelling of the pager option is rejected. *)
Example grep_pager_abbreviation :
  safe_git_arguments "grep" ["--open-files=x"; "pattern"] = true ∧
  safe_git_arguments "grep" ["--open-files-in-pager=x"; "pattern"] = false.
Proof. split; reflexivity. Qed.

(** * Witnesses *)

Definition sample_fs : FileSystem :=
  {| fs_realpath p := Found p; fs_metadata _ := Some (mkMetadata true 0 493); geteuid := 501 |}.
Definition sample_glob : Glob := λ _ pattern, Some (String.eqb pattern).

Lemma git_output_hardened_witness :
  ∃ user head, hardened_git_subcommand "reflog" ["show"; "-n"; "3"] =
      (head ++ ["--no-ext-diff"; "--no-textconv"] ++ user)%list ∧
      head = ["reflog"; "show"] ∧ Forall inert_argument user ∧ user `suffix_of` ["show"; "-n"; "3"].
Proof.
  apply (git_output_hardened "reflog" ["show"; "-n"; "3"]).
  - apply mem_elem. reflexivity.
  - reflexivity.
Defined.

Lemma find_only_listed_witness :
  "-name" ∈ (FIND_VALUES ++ FIND_FLAGS)%list ∨
  ∃ j v, 1%nat = S j ∧ [("."); "-name"; "-exec"] !! j = Some v ∧ v ∈ FIND_VALUES.
Proof.
  apply (find_only_listed ["."; "-name"; "-exec"] 1 "-name"); reflexivity.
Defined.

Lemma classify_sound_witness :
  @classify sample_words sample_fs [] "git log; grep -rn x" = SafeListed ∧
  ∃ raw, split_compound_with_operators "git log; grep -rn x" = Some raw ∧
         Forall (λ p, safe_operator p.2) raw ∧
         Forall (λ p, ∃ canonical, @canonical_segment sample_words p.1 = Some canonical ∧
           ∃ name args path, @sw_split sample_words canonical = Some (name :: args) ∧
             @audited_program sample_fs name path ∧ program_reads name args) raw.
Proof.
  split; [vm_compute; reflexivity|].
  destruct (@classify_sound sample_words sample_fs eq_refl [] "git log; grep -rn x"
              ltac:(vm_compute; reflexivity)) as (raw & H1 & H2 & H3).
  exists raw. split; [exact H1|]. split; [exact H2|].
  apply (Forall_impl _ _ _ H3). intros p (canonical & Hc & [(pattern & Hp & _)|Hn]).
  - inversion Hp.
  - exists canonical. split; [exact Hc|exact Hn].
Defined.
