(* ===== verification/PermissionRules.v ===== *)
(** Permission rules ([rw-core/src/permission/rules.rs]) with the request and
    policy types they read ([rw-core/src/permission.rs],
    [rw-types/src/config.rs], [rw-types/src/protocol/shared.rs],
    [rw-tools/src/registry.rs]) and two helpers of
    [rw-core/src/permission/identity.rs].

    Parameters: the [shell_words] and [globset] crates ([ShellWords], [Glob])
    and serde_json's writer ([JsonWriter]). *)
From S2P Require Import Prelude Text Ir Estimate Assembly ShellSplit BashSafety.
From Stdlib Require Import Ascii.

(** * Types *)

Inductive PermissionDecision : Type := Ask | Allow | Deny.
#[global] Instance PermissionDecision_eq_dec : EqDecision PermissionDecision.
Proof. solve_decision. Defined.

Record PermissionRule : Type := mkRule { rule_pattern : string; rule_action : PermissionDecision }.
#[global] Instance PermissionRule_eq_dec : EqDecision PermissionRule.
Proof. solve_decision. Defined.

Record PermissionConfig : Type := mkConfig {
  config_default : PermissionDecision;
  config_rules : list PermissionRule;
}.

Inductive ToolBehavior : Type :=
| Standard | FileMutation | Shell | WebFetch | UserInteraction | PlanSubmission | BackgroundControl.
#[global] Instance ToolBehavior_eq_dec : EqDecision ToolBehavior.
Proof. solve_decision. Defined.

Inductive ToolCapability : Type := ReadFilesystem | WriteFilesystem | Network | Execute.
#[global] Instance ToolCapability_eq_dec : EqDecision ToolCapability.
Proof. solve_decision. Defined.

Inductive BashSandboxMode : Type := Sandboxed | Unsandboxed.
#[global] Instance BashSandboxMode_eq_dec : EqDecision BashSandboxMode.
Proof. solve_decision. Defined.

Inductive MutationScope : Type :=
| ScopeNone
| ScopePaths (paths : list string)
| OpaqueWorkspace.

Record ToolInvocationSemantics : Type := mkSemantics {
  behavior : ToolBehavior;
  mutation_scope : MutationScope;
  workspace_paths : list string;
}.

Record UnifiedDiff : Type := mkDiff {
  proposal_id : string;
  diff_path : string;
  unified_diff : string;
  arguments_hash : string;
  base_hash : string;
  diff_hash : string;
  truncated : bool;
}.

Record PermissionRequest : Type := mkRequest {
  request_id : string;
  invocation_id : string;
  tool : string;
  arguments : Value;
  capabilities : list ToolCapability;
  approval_diff : option UnifiedDiff;
  prompt_reason : option string;
}.

(** * Helpers of [identity.rs] that the rules use *)

Definition bash_sandbox_mode (request : PermissionRequest) : option BashSandboxMode :=
  match value_get (arguments request) "sandbox" with
  | None => Some Sandboxed
  | Some (JString mode) =>
      if String.eqb mode "sandboxed" then Some Sandboxed
      else if String.eqb mode "unsandboxed" then Some Unsandboxed
      else None
  | Some _ => None
  end.

Definition valid_label (label : string) : bool :=
  negb (is_empty label) && (str_len label <=? 63) &&
  negb (starts_with "-" label) && negb (ends_with "-" label) &&
  str_all (λ b, is_ascii_alphanumeric b || is_char b "-") label.

Definition normalize_domain (domain : Value) : option string :=
  match as_str domain with
  | None => None
  | Some s =>
      let domain := to_ascii_lowercase (trim_end_matches "." (trim s)) in
      if is_empty domain || (253 <? str_len domain) ||
         existsb (λ label, negb (valid_label label)) (split_char "." domain)
      then None else Some domain
  end.

Definition normalize_network_domains (value : Value) : option (list string) :=
  match as_array value with
  | None => None
  | Some domains =>
      normalized ← mapM normalize_domain domains;
      Some (dedup (stable_sort String.leb normalized))
  end.

(** * Canonical commands *)

Definition is_assignment (value : string) : bool :=
  match split_once "=" value with
  | Some (name, _) => negb (is_empty name) && str_all (λ c, is_char c "_" || is_ascii_alphanumeric c) name
  | None => false
  end.

(** The components of a path that [Path::components] keeps: no empty ones, and
    a [.] only at the front of a relative path. *)
Definition path_parts (path : string) : list string :=
  let parts := List.filter (λ p, negb (is_empty p)) (split_char "/" path) in
  match parts with
  | first :: rest =>
      let rest := List.filter (λ p, negb (String.eqb p ".")) rest in
      if String.eqb first "." then
        if starts_with "/" path then rest else first :: rest
      else first :: rest
  | [] => []
  end.

(** [Path::file_name]: the last component when it is an ordinary name *)
Definition path_file_name (path : string) : option string :=
  match last (path_parts path) with
  | Some name => if mem name ["."; ".."] then None else Some name
  | None => None
  end.

Fixpoint span {A} (f : A → bool) (l : list A) : list A * list A :=
  match l with
  | x :: l' => if f x then let '(a, b) := span f l' in (x :: a, b) else ([], l)
  | [] => ([], [])
  end.

(** [normalize_rm_flags]: characters in a [BTreeSet], r and f first *)
Definition normalize_rm_flags (argv : list string) : list string :=
  match argv with
  | [] => []
  | command :: rest =>
      let '(opts, operands) :=
        span (λ argument, starts_with "-" argument && negb (String.eqb argument "-")) rest in
      let long := List.filter (starts_with "--") opts in
      let short := List.filter (λ o, negb (starts_with "--" o)) opts in
      let flags := dedup (stable_sort String.leb
        (List.flat_map (λ o, utf8_chars (trim_start_matches "-" o)) short)) in
      let preferred := List.filter (λ p, mem p flags) ["r"; "f"] in
      let others := List.filter (λ c, negb (mem c ["r"; "f"])) flags in
      let normalized := String.concat "" ("-" :: preferred ++ others)%list in
      let insertion := if 1 <? str_len normalized then [normalized] else [] in
      (command :: insertion ++ stable_sort String.leb long ++ operands)%list
  end.

Section rules.
Context `{SW : ShellWords} `{G : Glob} `{W : JsonWriter}.

(** [serde_json::to_string(value).unwrap_or("null")] *)
Definition canonical_json (value : Value) : string :=
  match to_vec value with Some s => s | None => "null" end.

Definition canonical_shell_segment (segment : string) : option string :=
  match sw_split (trim segment) with
  | None | Some [] => None
  | Some (first :: rest) =>
      if is_assignment first then None else
      match path_file_name first with
      | None => None
      | Some binary =>
          if String.eqb binary "eval" ||
             (mem binary ["bash"; "sh"; "zsh"; "dash"] && existsb (String.eqb "-c") rest)
          then None
          else
            let argv := binary :: rest in
            let argv := if String.eqb binary "rm" then normalize_rm_flags argv else argv in
            Some (join " " argv)
      end
  end.

Definition canonical_shell_commands (command : string) : option (list string) :=
  if contains_any "`$*?[]{}~" command then None else
  segments ← split_compound command;
  canonical ← mapM canonical_shell_segment segments;
  match canonical with [] => None | _ => Some canonical end.

Definition canonical_arguments_for (request : PermissionRequest) (behavior : ToolBehavior)
    : option (list string) :=
  if bool_decide (behavior = Shell) then
    command ← value_get (arguments request) "command" ≫= as_str;
    canonical_shell_commands command
  else
    match first_some (λ key, value_get (arguments request) key ≫= as_str)
                     ["path"; "url"; "domain"; "command"] with
    | Some value => Some [trim value]
    | None => Some [canonical_json (arguments request)]
    end.

(** * Rules *)

Definition parse_rule (rule : string) : option (string * string) :=
  match split_once "(" rule with
  | None => None
  | Some (before, after) =>
      let tool := trim before in
      if is_empty after then None
      else if negb (is_empty tool) && ends_with ")" rule
      then Some (tool, String.substring 0 (String.length after - 1) after)
      else None
  end.

Definition glob_matches (pattern target : string) : bool :=
  match glob_build false pattern with Some matcher => matcher target | None => false end.

(** The rule is for [wanted] and its pattern matches [target]. *)
Definition rule_matches (wanted target : string) (rule : PermissionRule) : bool :=
  match parse_rule (rule_pattern rule) with
  | None => false
  | Some (tool, pattern) => String.eqb tool wanted && glob_matches pattern target
  end.

(** The inner loop: [None] is the early return of a deny rule, otherwise the
    decision of the last matching rule. *)
Fixpoint match_rules (wanted target : string) (rules : list PermissionRule)
    (decision : option PermissionDecision) : option (option PermissionDecision) :=
  match rules with
  | [] => Some decision
  | rule :: rest =>
      if rule_matches wanted target rule then
        if decide (rule_action rule = Deny) then None
        else match_rules wanted target rest (Some (rule_action rule))
      else match_rules wanted target rest decision
  end.

(** The outer loop: the flags [all_allowed] and [any_asked]. *)
Fixpoint match_targets (wanted : string) (rules : list PermissionRule) (targets : list string)
    (all_allowed any_asked : bool) : option (bool * bool) :=
  match targets with
  | [] => Some (all_allowed, any_asked)
  | target :: rest =>
      match match_rules wanted target rules None with
      | None => None
      | Some target_decision =>
          match_targets wanted rules rest
            (all_allowed && bool_decide (target_decision = Some Allow))
            (any_asked || bool_decide (target_decision = Some Ask))
      end
  end.

Definition capability_rule_decision (config : PermissionConfig) (capability tool_name : string)
    : option PermissionDecision :=
  match match_rules capability tool_name (config_rules config) None with
  | None => Some Deny
  | Some decision => decision
  end.

(** The request names at least one network domain. *)
Definition requests_network (request : PermissionRequest) : bool :=
  match value_get (arguments request) "network_domains" ≫= normalize_network_domains with
  | Some (_ :: _) => true
  | _ => false
  end.

Definition rule_decision (config : PermissionConfig) (request : PermissionRequest)
    (behavior : ToolBehavior) : PermissionDecision :=
  match canonical_arguments_for request behavior with
  | None => config_default config
  | Some targets =>
      match match_targets (tool request) (config_rules config) targets
              (negb (Nat.eqb (length targets) 0)) false with
      | None => Deny
      | Some (all_allowed, any_asked) =>
          if any_asked then Ask
          else if all_allowed then
            if requests_network request then
              default (config_default config)
                      (capability_rule_decision config "network" (tool request))
            else Allow
          else config_default config
      end
  end.

(** Whether some rule matches some target ([any_matched]). *)
Definition any_rule_matches (wanted : string) (rules : list PermissionRule)
    (targets : list string) : bool :=
  existsb (λ target, existsb (rule_matches wanted target) rules) targets.

Definition unsandboxed_rule_decision (config : PermissionConfig) (request : PermissionRequest)
    (behavior : ToolBehavior) : option PermissionDecision :=
  if negb (bool_decide (behavior = Shell)) ||
     negb (bool_decide (bash_sandbox_mode request = Some Unsandboxed))
  then None else
  targets ← canonical_arguments_for request behavior;
  match match_targets "bash_unsandboxed" (config_rules config) targets
          (negb (Nat.eqb (length targets) 0)) false with
  | None => Some Deny
  | Some (all_allowed, any_asked) =>
      if any_asked then Some Ask
      else if all_allowed && any_rule_matches "bash_unsandboxed" (config_rules config) targets
      then Some Allow
      else None
  end.

Definition validate_rule (rule : string) : Result unit string :=
  match parse_rule rule with
  | None => Err "permission rule must use tool(glob) syntax"
  | Some (tool, pattern) =>
      if negb (str_all (λ c, is_ascii_alphanumeric c || is_char c "_" || is_char c "-") tool)
      then Err "permission rule tool names use letters, digits, `_`, or `-`"
      else
        match glob_build false pattern with
        | Some _ => Ok tt
        | None => Err "invalid permission glob"
        end
  end.
End rules.

(** * Rules declaratively *)

Section rule_spec.
Context {SW : ShellWords} {G : Glob} {W : JsonWriter}.

(** The actions of the rules that match, in order; the last one speaks
    unless one of them denies. *)
Definition matching_actions (wanted target : string) (rules : list PermissionRule)
    : list PermissionDecision :=
  map rule_action (List.filter (rule_matches wanted target) rules).
Definition denies (wanted : string) (rules : list PermissionRule) (target : string) : Prop :=
  Deny ∈ matching_actions wanted target rules.
Definition speaks (wanted : string) (rules : list PermissionRule) (target : string)
    : option PermissionDecision :=
  last (matching_actions wanted target rules).

#[global] Instance denies_dec wanted rules target : Decision (denies wanted rules target).
Proof. unfold denies. apply _. Defined.

Lemma denies_cons wanted r rules target :
  denies wanted (r :: rules) target ↔
  (rule_matches wanted target r = true ∧ rule_action r = Deny) ∨ denies wanted rules target.
Proof.
  unfold denies, matching_actions. simpl. destruct (rule_matches wanted target r); simpl.
  - rewrite elem_of_cons. naive_solver.
  - naive_solver.
Qed.
Lemma speaks_cons wanted r rules target d :
  match speaks wanted (r :: rules) target with Some a => Some a | None => d end =
  match speaks wanted rules target with
  | Some a => Some a
  | None => if rule_matches wanted target r then Some (rule_action r) else d
  end.
Proof.
  unfold speaks, matching_actions. simpl. destruct (rule_matches wanted target r); [|done]. simpl.
  destruct (map rule_action (List.filter (rule_matches wanted target) rules)) as [|a l]; [done|].
  assert (is_Some (last (a :: l))) as [x Hx] by by apply last_is_Some.
  change (last (rule_action r :: a :: l)) with (last (a :: l)). by rewrite Hx.
Qed.

Lemma match_rules_denied wanted target rules d :
  denies wanted rules target → match_rules wanted target rules d = None.
Proof.
  revert d. induction rules as [|r rules IH]; intros d; [by intros ?%elem_of_nil|].
  rewrite denies_cons. cbn [match_rules].
  destruct (rule_matches wanted target r), (decide (rule_action r = Deny)); naive_solver.
Qed.
Lemma match_rules_speaks wanted target rules d :
  ¬ denies wanted rules target →
  match_rules wanted target rules d =
  Some (match speaks wanted rules target with Some a => Some a | None => d end).
Proof.
  revert d. induction rules as [|r rules IH]; intros d; [done|].
  rewrite denies_cons. intros Hn. cbn [match_rules]. rewrite speaks_cons.
  destruct (rule_matches wanted target r); [|rewrite IH by tauto; done].
  destruct (decide (rule_action r = Deny)) as [|_]; [tauto|]. rewrite IH by tauto. done.
Qed.
Lemma match_rules_spec wanted target rules d :
  match_rules wanted target rules d =
  if decide (denies wanted rules target) then None
  else Some (match speaks wanted rules target with Some a => Some a | None => d end).
Proof.
  destruct (decide (denies wanted rules target)).
  - by apply match_rules_denied.
  - by apply match_rules_speaks.
Qed.

Lemma match_targets_spec wanted rules targets all any :
  match_targets wanted rules targets all any =
  if decide (Exists (denies wanted rules) targets) then None
  else Some (all && forallb (λ t, bool_decide (speaks wanted rules t = Some Allow)) targets,
             any || existsb (λ t, bool_decide (speaks wanted rules t = Some Ask)) targets).
Proof.
  revert all any. induction targets as [|t targets IH]; intros all any;
    cbn [match_targets forallb existsb].
  { rewrite decide_False by (by intros ?%Exists_nil). by rewrite andb_true_r, orb_false_r. }
  rewrite match_rules_spec. destruct (decide (denies wanted rules t)) as [Hd|Hd].
  { rewrite decide_True by by left. done. }
  rewrite IH. destruct (decide (Exists (denies wanted rules) targets)) as [He|He].
  { rewrite decide_True by by right. done. }
  rewrite decide_False by (rewrite Exists_cons; tauto).
  rewrite <- andb_assoc, <- orb_assoc.
  by destruct (speaks wanted rules t).
Qed.

(** The decision the documentation describes: an explicit deny on any part
    wins; else a part whose last matching rule asks makes the whole ask; else
    the whole is allowed only if every part is, and a request that names
    network domains also needs the [network] authority; else the default. *)
Definition documented_decision (config : PermissionConfig) (request : PermissionRequest)
    (targets : list string) : PermissionDecision :=
  let rules := config_rules config in
  if decide (Exists (denies (tool request) rules) targets) then Deny
  else if decide (Exists (λ t, speaks (tool request) rules t = Some Ask) targets) then Ask
  else if decide (targets ≠ [] ∧ Forall (λ t, speaks (tool request) rules t = Some Allow) targets) then
    if requests_network request then
      if decide (denies "network" rules (tool request)) then Deny
      else default (config_default config) (speaks "network" rules (tool request))
    else Allow
  else config_default config.

(** The rule loop with its early returns computes the documented
    decision for every request whose arguments have canonical targets, and
    the configured default for every other request. *)
Theorem rule_decision_documented config request behavior :
  rule_decision config request behavior =
  match canonical_arguments_for request behavior with
  | Some targets => documented_decision config request targets
  | None => config_default config
  end.
Proof.
  unfold rule_decision, documented_decision.
  destruct (canonical_arguments_for request behavior) as [targets|]; [|done].
  rewrite match_targets_spec. destruct (decide (Exists (denies _ _) targets)); [done|].
  rewrite orb_false_l.
  destruct (existsb _ targets) eqn:Ea.
  { rewrite decide_True; [done|]. apply existsb_exists in Ea as (t & Ht & Ea).
    apply Exists_exists. exists t. rewrite list_elem_of_In.
    by apply bool_decide_eq_true_1 in Ea. }
  rewrite decide_False; last first.
  { rewrite Exists_exists. intros (t & Ht & Hs). apply not_true_iff_false in Ea. apply Ea.
    apply existsb_exists. exists t. rewrite <- list_elem_of_In. split; [done|].
    by apply bool_decide_eq_true_2. }
  destruct (negb _ && forallb _ targets) eqn:Eall.
  - apply andb_true_iff in Eall as [Hn Hall]. rewrite decide_True; last first.
    { split; [by destruct targets|]. apply Forall_forall. intros t Ht.
      rewrite forallb_forall in Hall. rewrite list_elem_of_In in Ht.
      by apply Hall, bool_decide_eq_true_1 in Ht. }
    destruct (requests_network request); [|done].
    unfold capability_rule_decision. rewrite match_rules_spec.
    destruct (decide (denies "network" _ _)); [done|]. by destruct (speaks "network" _ _).
  - rewrite decide_False; [done|]. intros [Hne Hall].
    apply andb_false_iff in Eall as [E|E].
    + by destruct targets.
    + apply not_true_iff_false in E. apply E. apply forallb_forall. intros t Ht.
      apply bool_decide_eq_true_2. rewrite Forall_forall in Hall. apply Hall.
      by rewrite list_elem_of_In.
Qed.

(** The commands of a shell request, in order, each in its canonical form *)
Definition canonical_commands (request : PermissionRequest) (segments targets : list string) : Prop :=
  ∃ command, value_get (arguments request) "command" ≫= as_str = Some command ∧
    contains_any "`$*?[]{}~" command = false ∧ split_compound command = Some segments ∧ segments ≠ [] ∧
    Forall2 (λ segment target, canonical_shell_segment segment = Some target) segments targets.
Lemma canonical_arguments_shell request targets :
  canonical_arguments_for request Shell = Some targets → ∃ segments, canonical_commands request segments targets.
Proof.
  unfold canonical_arguments_for. rewrite bool_decide_eq_true_2 by done. intros (command & Hc & H)%bind_Some.
  unfold canonical_shell_commands in H. destruct (contains_any _ command) eqn:Ee; [done|].
  apply bind_Some in H as (segments & Hs & H). apply bind_Some in H as (canonical & Hm & H).
  apply mapM_Some_1 in Hm. exists segments, command. destruct canonical as [|x canonical]; [done|]. injection H as <-.
  split_and!; [done..| |done]. intros ->. by inversion Hm.
Qed.
(** The rules of the [bash_unsandboxed] namespace allow it: the last one that
    matches does, and none that matches denies. *)
Definition allowed_unsandboxed (rules : list PermissionRule) (target : string) : Prop :=
  ¬ denies "bash_unsandboxed" rules target ∧ speaks "bash_unsandboxed" rules target = Some Allow.
Lemma unsandboxed_rule_allows config request :
  unsandboxed_rule_decision config request Shell = Some Allow →
  ∃ segments targets, canonical_commands request segments targets ∧ Forall (allowed_unsandboxed (config_rules config)) targets.
Proof.
  unfold unsandboxed_rule_decision. destruct (negb _ || negb _); [done|]. intros (targets & Ht & H)%bind_Some.
  apply canonical_arguments_shell in Ht as [segments Hseg]. exists segments, targets. split; [done|].
  rewrite match_targets_spec in H. destruct (decide (Exists _ targets)) as [|Hd]; [done|].
  destruct (false || _); [done|]. destruct (_ && any_rule_matches _ _ _) eqn:Ea; [|done].
  apply andb_true_iff in Ea as [Ea _]. apply andb_true_iff in Ea as [_ Ea]. rewrite forallb_forall in Ea.
  apply Forall_forall. intros t Hin. split.
  - intros Hden. apply Hd, Exists_exists. by exists t.
  - rewrite list_elem_of_In in Hin. by apply Ea, bool_decide_eq_true_1 in Hin.
Qed.

(** A deny rule that matches some part of the invocation. *)
Definition explicitly_denied (config : PermissionConfig) (request : PermissionRequest)
    (behavior : ToolBehavior) : Prop :=
  ∃ targets, canonical_arguments_for request behavior = Some targets ∧
             Exists (denies (tool request) (config_rules config)) targets.

Lemma explicit_deny_wins config request behavior :
  explicitly_denied config request behavior → rule_decision config request behavior = Deny.
Proof.
  intros (targets & Ht & Hd). unfold rule_decision. rewrite Ht, match_targets_spec.
  by rewrite decide_True.
Qed.

(** Rules added anywhere never remove a deny. *)
Lemma explicit_deny_mono default default' rules1 rules2 rules3 request behavior :
  explicitly_denied (mkConfig default rules2) request behavior →
  explicitly_denied (mkConfig default' (rules1 ++ rules2 ++ rules3)%list) request behavior.
Proof.
  intros (targets & Ht & Hd). exists targets. split; [done|]. simpl in *.
  eapply Exists_impl; [exact Hd|]. unfold denies, matching_actions. intros t Hin.
  rewrite !List.filter_app, !map_app, !elem_of_app. auto.
Qed.

(** Without canonical targets no rule is consulted, deny rules included: a
    shell command with an expansion character gets the default. *)
Lemma expansion_gets_default config request command :
  value_get (arguments request) "command" = Some (JString command) →
  contains_any "`$*?[]{}~" command = true →
  rule_decision config request Shell = config_default config.
Proof.
  intros Hc He. unfold rule_decision, canonical_arguments_for. simpl. rewrite Hc. simpl.
  unfold canonical_shell_commands. by rewrite He.
Qed.
End rule_spec.
