(* ===== verification/PermissionIdentity.v ===== *)
(** Invocation identity ([rw-core/src/permission/identity.rs]): the key a
    remembered approval is bound to, the shell identity inside it, workspace
    paths, and the classification of read-only and rememberable requests.

    Parameters besides those of the rules: BLAKE3 ([Blake3]), the [url] crate
    ([UrlParser]: scheme and ASCII origin), the file system ([FileSystem] and
    [ExecFiles], which opens and reads a file) and the inherited [PATH]. *)
From S2P Require Import Prelude Text Ir Estimate Assembly ShellSplit BashSafety PermissionRules.
From Stdlib Require Import Ascii.

Class UrlParser : Type := url_parse : string → option (string * string).
Class ExecFiles : Type := {
  (** [File::open] then reading to the end: [None] cannot open, [Some None]
      fails while reading *)
  fs_open : string → option (option string);
  inherited_path : option string;
}.

(** * Paths *)

Definition is_absolute (path : string) : bool := starts_with "/" path.
Definition path_join (base path : string) : string :=
  if is_absolute path then path
  else if is_empty base then path
  else if ends_with "/" base then base ++ path
  else base ++ "/" ++ path.
(** [Path::parent] *)
Definition path_parent (path : string) : option string :=
  match path_parts path with
  | [] => None
  | parts =>
      let above := join "/" (take (length parts - 1) parts) in
      Some (if is_absolute path then "/" ++ above else above)
  end.
(** [Path::components().count()]: the root counts as one *)
Definition component_count (path : string) : nat :=
  (length (path_parts path) + if is_absolute path then 1 else 0)%nat.
(** [Path::starts_with], component by component *)
Fixpoint is_prefix (l k : list string) : bool :=
  match l, k with
  | [], _ => true
  | x :: l', y :: k' => String.eqb x y && is_prefix l' k'
  | _, _ => false
  end.
Definition path_within (root path : string) : bool :=
  Bool.eqb (is_absolute root) (is_absolute path) && is_prefix (path_parts root) (path_parts path).

(** [str::parse::<usize>] *)
Fixpoint digits_value (acc : Z) (s : string) : option Z :=
  match s with
  | "" => Some acc
  | String c s' =>
      let n := Z.of_nat (nat_of_ascii c) in
      if (48 <=? n) && (n <=? 57) then
        if 10 * acc + (n - 48) <=? usize_max then digits_value (10 * acc + (n - 48)) s' else None
      else None
  end.
Definition parse_usize (s : string) : option Z :=
  let digits := match s with String "+" rest => rest | _ => s end in
  if is_empty digits then None else digits_value 0 digits.

(** * Keys *)

(** [u64::to_le_bytes] *)
Fixpoint le_bytes (n : nat) (z : Z) : string :=
  match n with
  | O => ""
  | S n' => String (ascii_of_N (Z.to_N (z mod 256))) (le_bytes n' (z / 256))
  end.
Definition le64 (z : Z) : string := le_bytes 8 z.

Record PermissionKey : Type := mkKey {
  key_tool_name : string;
  arguments_fingerprint : string;
  key_capabilities : list string;
  approval_fingerprint : option string;
  key_workspace_namespace : list string;
}.
#[global] Instance PermissionKey_eq_dec : EqDecision PermissionKey.
Proof. solve_decision. Defined.

Record RememberedApproval : Type := mkApproval { approval_id : string; approval_key : PermissionKey }.
#[global] Instance RememberedApproval_eq_dec : EqDecision RememberedApproval.
Proof. solve_decision. Defined.

(** The [BTreeSet] of approvals as a list without duplicates; its order is only
    visible in summaries. *)
Definition contains_approval (approvals : list RememberedApproval) (key : PermissionKey) : bool :=
  existsb (λ approval, bool_decide (approval_key approval = key)) approvals.
Definition replace_approval (approvals : list RememberedApproval) (approval : RememberedApproval)
    : list RememberedApproval :=
  (List.filter (λ existing, negb (bool_decide (approval_key existing = approval_key approval)))
     approvals ++ [approval])%list.
Definition revoke_approvals (approvals : list RememberedApproval) (id : option string)
    : list RememberedApproval * nat :=
  let kept := match id with
              | Some id => List.filter (λ a, negb (String.eqb (approval_id a) id)) approvals
              | None => []
              end in
  (kept, (length approvals - length kept)%nat).

(** [RememberedApproval::new]: [random] is the hexadecimal text of the bytes
    from [getrandom], absent when it fails *)
Definition approval_new (scope : string) (key : PermissionKey) (random : option string)
    : option RememberedApproval :=
  match random with
  | Some opaque => Some (mkApproval (scope ++ ":" ++ opaque) key)
  | None => None
  end.

(** The [Debug] names of the capabilities. *)
Definition capability_name (c : ToolCapability) : string :=
  match c with
  | ReadFilesystem => "ReadFilesystem" | WriteFilesystem => "WriteFilesystem"
  | Network => "Network" | Execute => "Execute"
  end.

Definition bool_text (b : bool) : string := if b then "true" else "false".

Record ResolvedExecutableIdentity : Type := mkResolved {
  canonical_path : string;
  content_hash : string;
  trusted_immutable : bool;
}.
Record ExactShellCommand : Type := mkExact {
  operator_after : option string;
  assignments : list (string * string);
  argv : list string;
  requested : string;
  resolved : option ResolvedExecutableIdentity;
}.

(** The derived [Serialize] of the three identity structs. *)
Definition bytes_json (s : string) : Value :=
  JArray (map (λ c, JNumber (PosInt (Z.of_nat (nat_of_ascii c)))) (String.list_ascii_of_string s)).
Definition exact_command_json (c : ExactShellCommand) : Value :=
  JObject [("operator_after", opt_json (operator_after c));
           ("assignments", JArray (map (λ a, JArray [JString a.1; JString a.2]) (assignments c)));
           ("argv", JArray (map JString (argv c)));
           ("executable", JObject
              [("requested", JString (requested c));
               ("resolved", match resolved c with
                            | None => JNull
                            | Some r => JObject [("canonical_path", bytes_json (canonical_path r));
                                                 ("content_hash", JString (content_hash r));
                                                 ("trusted_immutable", JBool (trusted_immutable r))]
                            end)])].

Section identity.
Context `{SW : ShellWords} `{W : JsonWriter} `{B : Blake3} `{U : UrlParser}.
Context `{FS : FileSystem} `{X : ExecFiles}.

Definition fingerprint (domain value : string) : string :=
  blake3_hex (domain ++ le64 (to_u64_or_max (str_len value)) ++ value).

Definition canonical_root (root : string) : string := default root (fs_canonicalize root).
Definition canonical_workspace_roots (roots : list string) : list string := map canonical_root roots.

(** [workspace_namespace] *)
Definition workspace_namespace (roots : list string) : list string :=
  let chunk root :=
    let bytes := canonical_root root in le64 (to_u64_or_max (str_len bytes)) ++ bytes in
  [blake3_hex ("rottweiler-permission-workspace-roots-v1" ++ String (byte 0) "" ++
               String.concat "" (map chunk roots) ++ le64 (to_u64_or_max (Z.of_nat (length roots))))].

Definition canonical_webfetch_origin (value : string) : option string :=
  match url_parse value with
  | Some (scheme, origin) =>
      if mem scheme ["http"; "https"] && negb (String.eqb origin "null") then Some origin else None
  | None => None
  end.

Definition trusted_immutable_executable (path : string) : bool :=
  match fs_metadata path with
  | Some m => meta_is_file m && (meta_uid m =? 0) && (Z.land (meta_mode m) 18 =? 0)
  | None => false
  end.

(** The loop over candidates: [None] is the early return of a failed read. *)
Fixpoint resolve_candidates (candidates : list string) : option ResolvedExecutableIdentity :=
  match candidates with
  | [] => None
  | candidate :: rest =>
      match fs_canonicalize candidate with
      | None => resolve_candidates rest
      | Some canonical =>
          if negb (match fs_metadata canonical with Some m => meta_is_file m | None => false end)
          then resolve_candidates rest
          else
            match fs_open canonical with
            | None => resolve_candidates rest
            | Some None => None
            | Some (Some content) =>
                Some (mkResolved canonical (blake3_hex content)
                        (trusted_immutable_executable canonical))
            end
      end
  end.

Definition resolve_executable_identity (executable cwd : string) (path : option string)
    : option ResolvedExecutableIdentity :=
  let candidates :=
    if Nat.ltb 1 (component_count executable) || is_absolute executable then
      [if is_absolute executable then executable else path_join cwd executable]
    else
      match path with
      | None => []
      | Some path =>
          map (λ directory, if is_absolute directory then path_join directory executable
                            else path_join (path_join cwd directory) executable)
              (split_char ":" path)
      end in
  resolve_candidates candidates.

(** The words before the first one that is not an assignment. *)
Definition split_assignments (words : list string) : list string * list string :=
  span is_assignment words.

Definition exact_shell_segment (cwd : string) (request_path : option string)
    (segment : string * option string) : option ExactShellCommand :=
  words ← sw_split segment.1;
  let '(prefix, argv) := split_assignments words in
  match argv with
  | [] => None
  | requested :: _ =>
      assignments ← mapM (split_once "=") prefix;
      let inline_path :=
        first_some (λ a, if String.eqb a.1 "PATH" then Some a.2 else None) (reverse assignments) in
      let path := match inline_path with
                  | Some p => Some p
                  | None => match request_path with Some p => Some p | None => inherited_path end
                  end in
      Some (mkExact segment.2 assignments argv requested
              (resolve_executable_identity requested cwd path))
  end.

Definition exact_shell_identity (command : string) (arguments : Value)
    : option (list ExactShellCommand) :=
  let cwd := match value_get arguments "cwd" ≫= as_str with Some s => s | None => "." end in
  let request_path : option string :=
    env ← value_get arguments "env" ≫= as_object;
    map_get "PATH" env ≫= as_str in
  segments ← split_compound_with_operators command;
  mapM (exact_shell_segment cwd request_path) segments.

(** [object.insert] when the arguments are an object *)
Definition set_argument (arguments : Value) (k : string) (v : Value) : Value :=
  match arguments with JObject m => JObject (map_insert k v m) | _ => arguments end.

Definition canonical_key_arguments_for (request : PermissionRequest) (behavior : ToolBehavior)
    : string :=
  let a0 := arguments request in
  let a1 :=
    if bool_decide (behavior = WebFetch) then
      match (value_get a0 "url" ≫= as_str) ≫= canonical_webfetch_origin with
      | Some origin => set_argument a0 "url" (JString origin)
      | None => a0
      end
    else a0 in
  let a2 :=
    if bool_decide (behavior = Shell) then
      match (value_get a1 "command" ≫= as_str) ≫= (λ command, exact_shell_identity command a1) with
      | Some commands => set_argument a1 "command" (JArray (map exact_command_json commands))
      | None => a1
      end
    else a1 in
  let a3 :=
    match value_get a2 "network_domains" ≫= normalize_network_domains with
    | Some domains => set_argument a2 "network_domains" (JArray (map JString domains))
    | None => a2
    end in
  canonical_json a3.

Definition ARGUMENTS_DOMAIN : string :=
  "rottweiler-permission-arguments-v1" ++ String (byte 0) "".

Definition diff_fingerprint (diff : UnifiedDiff) : string :=
  arguments_hash diff ++ ":" ++ base_hash diff ++ ":" ++ diff_hash diff ++ ":" ++
  bool_text (truncated diff).

(** [PermissionKey::from_request_with_behavior] *)
Definition key_of (request : PermissionRequest) (workspace_namespace : list string)
    (behavior : ToolBehavior) : PermissionKey :=
  mkKey (tool request)
    (fingerprint ARGUMENTS_DOMAIN (canonical_key_arguments_for request behavior))
    (dedup (stable_sort String.leb (map capability_name (capabilities request))))
    (option_map diff_fingerprint (approval_diff request))
    workspace_namespace.

(** * Workspace writes *)

(** The loop climbs to the first existing ancestor; each step removes a
    component, so the number of components bounds it. *)
Fixpoint canonicalize_climb (fuel : nat) (ancestor : string) (tail : list string) : option string :=
  match fuel with
  | O => None
  | S fuel' =>
      match fs_realpath ancestor with
      | Found canonical => Some (foldl path_join canonical (reverse tail))
      | Missing =>
          name ← path_file_name ancestor;
          parent ← path_parent ancestor;
          canonicalize_climb fuel' parent (tail ++ [name])%list
      | Failed => None
      end
  end.
Definition canonicalize_with_missing_tail (path : string) : option string :=
  canonicalize_climb (S (length (path_parts path))) path [].

Definition resolve_workspace_write_path (roots : list string) (supplied : string) : option string :=
  candidate ←
    (if is_absolute supplied then Some supplied
     else
       match path_parts supplied with
       | first :: rest =>
           if String.eqb first "@root" then
             match rest with
             | [] => None
             | index :: rest' =>
                 if mem index [".."; "."] then None else
                 n ← parse_usize index;
                 root ← roots !! Z.to_nat n;
                 Some (path_join root (join "/" rest'))
             end
           else root ← head roots; Some (path_join root supplied)
       | [] => root ← head roots; Some (path_join root supplied)
       end);
  canonical ← canonicalize_with_missing_tail candidate;
  if existsb (λ root, path_within root canonical) roots then Some canonical else None.

Definition is_auto_safe_workspace_write (request : PermissionRequest)
    (semantics : option ToolInvocationSemantics) (roots : list string) : bool :=
  match semantics with
  | None => false
  | Some s =>
      match mutation_scope s with
      | ScopePaths paths =>
          if negb (bool_decide (behavior s = FileMutation)) || Nat.eqb (length paths) 0 ||
             Nat.eqb (length roots) 0 ||
             negb (bool_decide (WriteFilesystem ∈ capabilities request)) ||
             existsb (λ c, bool_decide (c ∈ [Execute; Network])) (capabilities request)
          then false
          else forallb (λ path, is_some (resolve_workspace_write_path roots path)) paths
      | _ => false
      end
  end.

(** * Classification *)

Definition is_read_only (request : PermissionRequest) (behavior : ToolBehavior) : bool :=
  (Nat.eqb (length (capabilities request)) 0 &&
     bool_decide (behavior ∈ [UserInteraction; PlanSubmission])) ||
  (negb (Nat.eqb (length (capabilities request)) 0) &&
     forallb (λ c, bool_decide (c = ReadFilesystem)) (capabilities request)).

(** The request names no network domain and its domains are well formed. *)
Definition no_network_domains (request : PermissionRequest) : bool :=
  match value_get (arguments request) "network_domains" with
  | None => true
  | Some domains =>
      match normalize_network_domains domains with Some [] => true | _ => false end
  end.

Definition safe_listed_with (classifier : CommandSafetyClassifier) (request : PermissionRequest)
    (behavior : ToolBehavior) : bool :=
  bool_decide (behavior = Shell) && bool_decide (bash_sandbox_mode request = Some Sandboxed) &&
  no_network_domains request &&
  match value_get (arguments request) "command" ≫= as_str with
  | Some command => bool_decide (classify classifier command = SafeListed)
  | None => false
  end.
Definition is_builtin_read_only_bash : PermissionRequest → ToolBehavior → bool :=
  safe_listed_with [].

Definition rememberable_shell_command (command : ExactShellCommand) : bool :=
  if existsb (λ a, String.eqb a.1 "PATH") (assignments command) then false else
  let executable := default "" (path_file_name (requested command)) in
  if mem executable ["eval"; "cd"; "export"; "unset"; "source"; "."; "alias"; "unalias"; "set"; "exec"]
  then false else
  let interpreter :=
    mem executable ["sh"; "bash"; "zsh"; "dash"; "python"; "python3"; "node"; "ruby"; "perl"] in
  if interpreter && existsb (String.eqb "-c") (tail (argv command)) then false else
  match resolved command with Some identity => trusted_immutable identity | None => false end.

Definition rememberable_request (request : PermissionRequest) (behavior : ToolBehavior) : bool :=
  if negb (bool_decide (behavior = Shell)) then true else
  match value_get (arguments request) "command" ≫= as_str with
  | None => false
  | Some command =>
      if contains_any ("`$*?[]{}~" ++ String (byte 13) "") command then false else
      match exact_shell_identity command (arguments request) with
      | None => false
      | Some commands =>
          negb (Nat.eqb (length commands) 0) && forallb rememberable_shell_command commands
      end
  end.
End identity.

(** * What a key identifies *)

Lemma le_bytes_length n z : String.length (le_bytes n z) = n.
Proof. revert z. induction n as [|n IH]; intros z; simpl; [done|]. by rewrite IH. Qed.

Lemma string_app_inj (s1 s2 t1 t2 : string) :
  String.length s1 = String.length s2 → (s1 ++ t1)%string = (s2 ++ t2)%string → s1 = s2 ∧ t1 = t2.
Proof.
  revert s2. induction s1 as [|c s1 IH]; intros [|d s2] Hl H; try done.
  change (String c (s1 ++ t1) = String d (s2 ++ t2))%string in H. injection H as -> H.
  injection Hl as Hl. destruct (IH s2 Hl H) as [-> ->]. done.
Qed.

Lemma le_bytes_inj n x y : 0 ≤ x < 256 ^ Z.of_nat n → 0 ≤ y < 256 ^ Z.of_nat n → le_bytes n x = le_bytes n y → x = y.
Proof.
  revert x y. induction n as [|n IH]; intros x y Hx Hy; [cbn in *; lia|]. cbn [le_bytes]. intros [= Hc Hr].
  rewrite Nat2Z.inj_succ, Z.pow_succ_r in Hx, Hy by lia.
  apply IH in Hr; [|split; [apply Z.div_pos; lia|apply Z.div_lt_upper_bound; lia]..].
  apply (f_equal N_of_ascii) in Hc. rewrite !N_ascii_embedding in Hc by
    (apply N2Z.inj_lt; rewrite Z2N.id by (apply Z.mod_pos_bound; lia); apply Z.mod_pos_bound; lia).
  apply (f_equal Z.of_N) in Hc. rewrite !Z2N.id in Hc by (apply Z.mod_pos_bound; lia).
  rewrite (Z.div_mod x 256), (Z.div_mod y 256) by lia. by rewrite Hr, Hc.
Qed.

(** Text that is preceded by its length is read back. *)
Lemma le64_inj x y : u64 x → u64 y → le64 (to_u64_or_max x) = le64 (to_u64_or_max y) → x = y.
Proof.
  intros Hx Hy. unfold u64 in *. unfold to_u64_or_max. rewrite !(proj2 (Z.leb_le _ _)) by lia.
  apply le_bytes_inj; unfold u64_max in *; lia.
Qed.
Lemma le64_length z : String.length (le64 z) = 8%nat.
Proof. apply le_bytes_length. Qed.
Definition sized_text (s : string) : string := (le64 (to_u64_or_max (str_len s)) ++ s)%string.
Lemma sized_texts_inj l k :
  length l = length k → Forall (λ r, u64 (str_len r)) l → Forall (λ r, u64 (str_len r)) k →
  str_concat (map sized_text l) = str_concat (map sized_text k) → l = k.
Proof.
  revert k. induction l as [|x l IH]; intros [|y k] Hlen Hl Hk; try done. cbn [map]. rewrite !str_concat_cons. unfold sized_text at 1 3.
  apply Forall_cons in Hl as [Hx Hl], Hk as [Hy Hk]. injection Hlen as Hlen. rewrite !str_app_assoc.
  intros [H1 H]%string_app_inj; [|by rewrite !le64_length]. apply le64_inj in H1; [|done..].
  apply string_app_inj in H as [-> H]; [|unfold str_len in H1; lia]. f_equal. by apply IH.
Qed.
Section namespaces.
Context `{B : Blake3} `{FS : FileSystem}.
(** The sizes fit the machine, as those of lists and texts in memory do. *)
Definition sized_roots (roots : list string) : Prop :=
  u64 (Z.of_nat (length roots)) ∧ Forall (λ r, u64 (str_len r)) (canonical_workspace_roots roots).
Lemma namespace_inj r1 r2 :
  (∀ x y, blake3_hex x = blake3_hex y → x = y) → sized_roots r1 → sized_roots r2 →
  workspace_namespace r1 = workspace_namespace r2 → canonical_workspace_roots r1 = canonical_workspace_roots r2.
Proof.
  intros Hinj [Hn1 Hr1] [Hn2 Hr2] [= H%Hinj]. apply string_app_inj in H as [_ H]; [|done].
  apply string_app_inj in H as [_ H]; [|done].
  assert (∀ r, map (λ root, (le64 (to_u64_or_max (str_len (canonical_root root))) ++ canonical_root root)%string) r =
               map sized_text (canonical_workspace_roots r)) as Hmap by (intros r; unfold canonical_workspace_roots; by rewrite map_map).
  rewrite !Hmap in H. apply string_app_inj in H as [H1 H2]; last first.
  { apply (f_equal String.length) in H. rewrite !str_length_app, !le64_length in H. lia. }
  apply le64_inj in H2; [|done..]. apply sized_texts_inj; [|done..].
  unfold canonical_workspace_roots. rewrite !length_map. lia.
Qed.
End namespaces.

Section key.
Context {SW : ShellWords} {W : JsonWriter} {B : Blake3} {U : UrlParser}.
Context {FS : FileSystem} {X : ExecFiles}.

Definition key_preimage (value : string) : string :=
  ARGUMENTS_DOMAIN ++ le64 (to_u64_or_max (str_len value)) ++ value.

Lemma key_preimage_inj v1 v2 : key_preimage v1 = key_preimage v2 → v1 = v2.
Proof.
  unfold key_preimage. intros [_ H]%string_app_inj; [|done].
  apply string_app_inj in H as [_ H]; [done|]. unfold le64. by rewrite !le_bytes_length.
Qed.

Lemma dedup_elem {A} `{EqDecision A} (x : A) l : x ∈ dedup l ↔ x ∈ l.
Proof.
  induction l as [|y [|z l] IH]; [done|done|].
  change (dedup (y :: z :: l)) with (if decide (y = z) then dedup (z :: l) else y :: dedup (z :: l)).
  destruct (decide (y = z)) as [->|Hne].
  - rewrite IH, !elem_of_cons. tauto.
  - rewrite elem_of_cons, IH, (elem_of_cons (z :: l)). done.
Qed.

Lemma capability_name_inj c1 c2 : capability_name c1 = capability_name c2 → c1 = c2.
Proof. by destruct c1, c2. Qed.

Lemma key_capabilities_elem request ns b c :
  capability_name c ∈ key_capabilities (key_of request ns b) ↔ c ∈ capabilities request.
Proof.
  simpl. rewrite dedup_elem, stable_sort_perm. rewrite list_elem_of_fmap. split.
  - by intros (c' & ->%capability_name_inj & H).
  - intros H. by exists c.
Qed.

(** Sorting and removing repetitions leaves one text per set. *)
Lemma dedup_sublist {A} `{EqDecision A} (l : list A) : dedup l `sublist_of` l.
Proof.
  induction l as [|x [|y l] IH]; [done|done|].
  change (dedup (x :: y :: l)) with (if decide (x = y) then dedup (y :: l) else x :: dedup (y :: l)).
  destruct (decide (x = y)); by constructor.
Qed.
Lemma dedup_sorted_NoDup (l : list string) :
  StronglySorted (λ a b, String.leb a b = true) l → NoDup (dedup l).
Proof.
  induction l as [|x [|y l] IH]; intros Hs; [constructor|apply NoDup_singleton|].
  change (dedup (x :: y :: l)) with (if decide (x = y) then dedup (y :: l) else x :: dedup (y :: l)).
  inversion Hs as [|? ? Hs' Hall]; subst. destruct (decide (x = y)) as [|Hne]; [by apply IH|]. constructor; [|by apply IH].
  rewrite dedup_elem. intros Hin. apply Forall_cons in Hall as [Hxy _]. apply elem_of_cons in Hin as [|Hin]; [done|].
  inversion Hs' as [|? ? _ Hy]; subst. rewrite Forall_forall in Hy. specialize (Hy x Hin). by apply Hne, string_leb_antisym.
Qed.
Lemma sorted_set_unique (l k : list string) :
  (∀ x, x ∈ l ↔ x ∈ k) → dedup (stable_sort String.leb l) = dedup (stable_sort String.leb k).
Proof.
  intros Hlk. assert (∀ l, StronglySorted (λ a b, String.leb a b = true) (stable_sort String.leb l)) as Hsort.
  { intros m. apply stable_sort_sorted; [apply string_leb_total|apply string_leb_trans]. }
  apply (StronglySorted_unique_strong (λ a b, String.leb a b = true)).
  - intros x y _ _. apply string_leb_antisym.
  - eapply StronglySorted_sublist; [apply dedup_sublist|apply Hsort].
  - eapply StronglySorted_sublist; [apply dedup_sublist|apply Hsort].
  - apply NoDup_Permutation; [by apply dedup_sorted_NoDup..|]. intros x. rewrite !dedup_elem, !stable_sort_perm. apply Hlk.
Qed.

(** What the key keeps of an argument: its value, but of the address to fetch
    the origin, of a shell command the exact commands it runs, of network domains
    their normal form. *)
Definition kept_field (behavior : ToolBehavior) (arguments : Value) (name : string) (value : Value) : Value :=
  if bool_decide (behavior = WebFetch) && String.eqb name "url" then
    match as_str value ≫= canonical_webfetch_origin with Some origin => JString origin | None => value end
  else if bool_decide (behavior = Shell) && String.eqb name "command" then
    match as_str value ≫= (λ command, exact_shell_identity command arguments) with
    | Some commands => JArray (map exact_command_json commands)
    | None => value
    end
  else if String.eqb name "network_domains" then
    match normalize_network_domains value with Some domains => JArray (map JString domains) | None => value end
  else value.
Definition kept_arguments (behavior : ToolBehavior) (arguments : Value) : Value :=
  match arguments with
  | JObject m => JObject (map (λ e, (e.1, kept_field behavior arguments e.1 e.2)) m)
  | v => v
  end.

(** Replacing the value of one key *)
Lemma map_insert_map {A} k (v : A) m :
  NoDup m.*1 → is_Some (map_get k m) → map_insert k v m = map (λ e, (e.1, if String.eqb e.1 k then v else e.2)) m.
Proof.
  induction m as [|[k' v'] m IH]; cbn; [by intros _ [? [=]]|]. intros [Hk Hnd]%NoDup_cons Hs.
  rewrite (String.eqb_sym k' k). destruct (String.eqb_spec k k') as [->|Hne]; [|by rewrite IH].
  f_equal. symmetry. etrans; [|apply map_id]. apply map_ext_in. intros [a b] Hin. cbn.
  destruct (String.eqb_spec a k') as [->|]; [|done]. exfalso. apply Hk, list_elem_of_fmap. exists (k', b). by rewrite list_elem_of_In.
Qed.
Lemma replace_field {A} (f : A → option A) k (m : list (string * A)) :
  NoDup m.*1 →
  match map_get k m ≫= f with Some v => map_insert k v m | None => m end =
  map (λ e, (e.1, if String.eqb e.1 k then default e.2 (f e.2) else e.2)) m.
Proof.
  intros Hnd. assert (∀ e, e ∈ m → String.eqb e.1 k = true → map_get k m = Some e.2) as Hget.
  { intros [k' v'] Hin Hk%String.eqb_eq. cbn in *. subst. by apply map_get_NoDup. }
  destruct (map_get k m) as [w|] eqn:Eg; cbn.
  - destruct (f w) as [v|] eqn:Ef; [rewrite map_insert_map by done|rewrite <- (map_id m) at 1]; apply map_ext_in; intros [k' v'] Hin; cbn;
      apply list_elem_of_In in Hin; specialize (Hget _ Hin); cbn in Hget; destruct (String.eqb k' k) eqn:Ek; [|done| |done];
      specialize (Hget eq_refl) as [= ->]; by rewrite Ef.
  - rewrite <- (map_id m) at 1. apply map_ext_in. intros [k' v'] Hin. cbn. apply list_elem_of_In in Hin. specialize (Hget _ Hin).
    cbn in Hget. destruct (String.eqb k' k); [|done]. by discriminate Hget.
Qed.
Lemma set_field {T} (f : Value → option T) (h : T → Value) k m :
  NoDup m.*1 →
  match value_get (JObject m) k ≫= f with Some t => set_argument (JObject m) k (h t) | None => JObject m end =
  JObject (map (λ e, (e.1, if String.eqb e.1 k then match f e.2 with Some t => h t | None => e.2 end else e.2)) m).
Proof.
  intros Hnd. cbn [value_get]. transitivity (JObject (map (λ e, (e.1, if String.eqb e.1 k then default e.2 (h <$> f e.2) else e.2)) m)).
  - rewrite <- (replace_field (λ v, h <$> f v)) by done. destruct (map_get k m) as [v|]; cbn; [|done]. by destruct (f v).
  - f_equal. apply map_ext. intros [a b]. cbn. by destruct (String.eqb a k), (f b).
Qed.
Lemma map_keys_fst {A} (f : string * A → A) (m : list (string * A)) : (map (λ e, (e.1, f e)) m).*1 = m.*1.
Proof. induction m as [|e m IH]; [done|]. cbn. by rewrite IH. Qed.
Lemma key_arguments_kept request behavior :
  json_wf (arguments request) →
  canonical_key_arguments_for request behavior = canonical_json (kept_arguments behavior (arguments request)).
Proof.
  unfold canonical_key_arguments_for. destruct (arguments request) as [|?|?|?|?|m]; try (intros _; by destruct behavior).
  rewrite json_wf_object. intros [Hnd _]. cbv zeta. f_equal.
  assert (∀ A B C (o : option A) (f : A → option B) (g : B → option C), (o ≫= f) ≫= g = o ≫= λ a, f a ≫= g) as Hassoc by (by intros ? ? ? []).
  rewrite !Hassoc.
  destruct (bool_decide (behavior = WebFetch)) eqn:E1; [|destruct (bool_decide (behavior = Shell)) eqn:E2].
  - assert (bool_decide (behavior = Shell) = false) as E2.
    { apply bool_decide_eq_false_2. apply bool_decide_eq_true_1 in E1. by rewrite E1. }
    rewrite E2, set_field, (set_field normalize_network_domains) by (by rewrite ?map_keys_fst). unfold kept_arguments. rewrite map_map. f_equal.
    apply map_ext. intros [k v]. unfold kept_field. rewrite E1, E2. cbn.
    by destruct (String.eqb_spec k "url") as [->|].
  - rewrite set_field, (set_field normalize_network_domains) by (by rewrite ?map_keys_fst). unfold kept_arguments. rewrite map_map. f_equal.
    apply map_ext. intros [k v]. unfold kept_field. rewrite E1, E2. cbn.
    by destruct (String.eqb_spec k "command") as [->|].
  - rewrite (set_field normalize_network_domains) by done. unfold kept_arguments. f_equal.
    apply map_ext. intros [k v]. unfold kept_field. by rewrite E1, E2.
Qed.

(** The exact commands can be read back from what is kept of them. *)
Lemma exact_command_json_inj c1 c2 : exact_command_json c1 = exact_command_json c2 → c1 = c2.
Proof.
  assert (Inj eq eq (λ a : string * string, JArray [JString a.1; JString a.2])) as Ha by (intros [] [] H; by injection H as -> ->).
  assert (Inj eq eq JString) as Hs by (intros ? ? H; by injection H).
  assert (Inj eq eq bytes_json) as Hb.
  { intros s t H. injection H as H. apply ascii_list_inj.
    assert (Inj eq eq (λ c, JNumber (PosInt (Z.of_nat (nat_of_ascii c))))) as Hc.
    { intros a b E. injection E as E%Nat2Z.inj. by rewrite <- (ascii_nat_embedding a), E, ascii_nat_embedding. }
    by apply (inj (fmap _)) in H. }
  destruct c1 as [o1 a1 v1 q1 r1], c2 as [o2 a2 v2 q2 r2]. intros H. injection H as Ho Ha' Hv -> Hr.
  apply (inj (fmap _)) in Ha' as ->. apply (inj (fmap JString)) in Hv as ->.
  assert (o1 = o2) as -> by (destruct o1, o2; unfold opt_json in Ho; congruence).
  assert (r1 = r2) as -> by (destruct r1 as [[]|], r2 as [[]|]; [|done..]; injection Hr as Hp -> ->; by apply (f_equal JArray), (inj bytes_json) in Hp as ->).
  done.
Qed.
Definition shell_identity (request : PermissionRequest) : option (list ExactShellCommand) :=
  (value_get (arguments request) "command" ≫= as_str) ≫= (λ command, exact_shell_identity command (arguments request)).
Lemma kept_shell_identity r1 r2 i1 i2 :
  kept_arguments Shell (arguments r1) = kept_arguments Shell (arguments r2) →
  shell_identity r1 = Some i1 → shell_identity r2 = Some i2 → i1 = i2.
Proof.
  assert (∀ r i, shell_identity r = Some i →
    value_get (kept_arguments Shell (arguments r)) "command" = Some (JArray (map exact_command_json i))) as Hget.
  { intros r i. unfold shell_identity. destruct (arguments r) as [|?|?|?|?|m]; try done. unfold kept_arguments. cbn [value_get].
    generalize (JObject m) as args. intros args. induction m as [|[k v] m IH]; [done|]. cbn [map_get map fst snd].
    destruct (String.eqb_spec "command" k) as [<-|]; [|exact IH]. intros H. unfold kept_field. cbn -[exact_shell_identity].
    cbn -[exact_shell_identity] in H. by rewrite H. }
  intros Hk H1%Hget H2%Hget. rewrite Hk, H2 in H1. injection H1 as H1. symmetry.
  assert (Inj eq eq exact_command_json) as Hinj by (intros ? ?; apply exact_command_json_inj).
  by apply (inj (fmap exact_command_json)) in H1.
Qed.

(** The commands of two shell requests are the same words under the same
    operators. *)
Definition command_segments (request : PermissionRequest) : option (list (string * option string)) :=
  (value_get (arguments request) "command" ≫= as_str) ≫= split_compound_with_operators.
Definition same_words (r1 r2 : PermissionRequest) : Prop :=
  ∃ raw1 raw2, command_segments r1 = Some raw1 ∧ command_segments r2 = Some raw2 ∧
    Forall2 (λ s1 s2, s1.2 = s2.2 ∧ sw_split s1.1 = sw_split s2.1) raw1 raw2.

Lemma span_app_eq {A} (f : A → bool) l : ((span f l).1 ++ (span f l).2)%list = l.
Proof.
  induction l as [|x l IH]; [done|]. cbn. destruct (f x); [|done].
  destruct (span f l) as [a b]. cbn in *. by rewrite IH.
Qed.
Lemma exact_segment_words cwd path s c :
  exact_shell_segment cwd path s = Some c →
  s.2 = operator_after c ∧
  sw_split s.1 = Some (map (λ a, (a.1 ++ "=" ++ a.2)%string) (assignments c) ++ argv c)%list.
Proof.
  unfold exact_shell_segment, split_assignments. destruct (sw_split s.1) as [words|]; cbn [mbind option_bind]; [|done].
  pose proof (span_app_eq is_assignment words) as Hspan.
  destruct (span is_assignment words) as [prefix rest]. destruct rest as [|requested rest]; [done|].
  destruct (mapM (split_once "=") prefix) as [l|] eqn:E; cbn [mbind option_bind]; [|done]. intros [= <-]. cbn.
  split; [done|]. rewrite <- Hspan. cbn. do 2 f_equal. apply mapM_Some_1 in E.
  clear Hspan. induction E as [|w [o v] ws l Hw _ IH]; [done|]. cbn. rewrite IH. f_equal.
  by apply split_once_some.
Qed.
Lemma identity_same_words r1 r2 i :
  shell_identity r1 = Some i → shell_identity r2 = Some i → same_words r1 r2.
Proof.
  assert (∀ r, shell_identity r = Some i → ∃ raw, command_segments r = Some raw ∧
    Forall2 (λ s c, s.2 = operator_after c ∧
      sw_split s.1 = Some (map (λ a, (a.1 ++ "=" ++ a.2)%string) (assignments c) ++ argv c)%list) raw i) as Hraw.
  { intros r. unfold shell_identity, command_segments. destruct (value_get (arguments r) "command" ≫= as_str) as [command|];
      cbn [mbind option_bind]; [|done]. unfold exact_shell_identity. cbv zeta.
    destruct (split_compound_with_operators command) as [raw|]; cbn [mbind option_bind]; [|done].
    intros H%mapM_Some_1. exists raw. split; [done|]. eapply Forall2_impl; [exact H|]. intros ? ?. apply exact_segment_words. }
  intros (raw1 & H1 & F1)%Hraw (raw2 & H2 & F2)%Hraw. exists raw1, raw2. split_and!; [done|done|].
  clear H1 H2 Hraw. revert raw2 F2. induction F1 as [|s1 c raw1 i [Ho Hw] F1 IH]; intros raw2 F2;
    inversion F2 as [|s2 ? raw2' ? [Ho2 Hw2] F2']; subst; [constructor|constructor; [split; congruence|by apply IH]].
Qed.

End key.

(** * Climbing to an existing ancestor *)

(** A component as [path_parts] yields it. *)
Definition plain_component (p : string) : Prop :=
  is_empty p = false ∧ str_contains "/" p = false.

Definition no_slash (s : string) : Prop := str_all (λ c, negb (is_char c "/")) s = true.

Lemma split_char_no_slash s : no_slash s → split_char "/" s = [s].
Proof.
  unfold no_slash. induction s as [|c s IH]; simpl; [done|]. intros [Hc Hs]%andb_true_iff.
  unfold is_char in Hc. destruct (Ascii.eqb c "/"); [done|]. by rewrite IH.
Qed.

Lemma split_char_parts s : Forall no_slash (split_char "/" s).
Proof.
  induction s as [|c s IH]; simpl; [by repeat constructor|].
  destruct (Ascii.eqb c "/") eqn:E; [by constructor|].
  destruct (split_char "/" s) as [|f fs].
  - repeat constructor. unfold no_slash. simpl. unfold is_char. by rewrite E.
  - apply Forall_cons_1 in IH as [Hf Hfs]. constructor; [|done].
    unfold no_slash in *. simpl. unfold is_char in *. by rewrite E.
Qed.

Lemma split_char_app s t :
  no_slash s → split_char "/" (s ++ String "/" t) = s :: split_char "/" t.
Proof.
  unfold no_slash. induction s as [|c s IH]; intros Hs; [done|]. simpl in Hs.
  apply andb_true_iff in Hs as [Hc Hs]. unfold is_char in Hc.
  change (String c s ++ String "/" t)%string with (String c (s ++ String "/" t)%string). cbn [split_char].
  destruct (Ascii.eqb c "/"); [done|]. by rewrite IH.
Qed.

Lemma split_char_join l :
  Forall no_slash l → l ≠ [] → split_char "/" (join "/" l) = l.
Proof.
  induction 1 as [|x l Hx Hl IH]; [done|]. intros _. destruct l as [|y l].
  - by apply split_char_no_slash.
  - change (join "/" (x :: y :: l)) with (x ++ String "/" (join "/" (y :: l)))%string.
    rewrite split_char_app by done. by rewrite IH.
Qed.

(** The components kept by [path_parts]: nonempty, without a slash, and a dot
    only in front of a relative path. *)
Definition parts_ok (absolute : bool) (l : list string) : Prop :=
  Forall (λ p, is_empty p = false ∧ no_slash p) l ∧
  match l with
  | [] => True
  | first :: rest => Forall (λ p, p ≠ ".") rest ∧ (absolute = true → first ≠ ".")
  end.

Lemma path_parts_ok path : parts_ok (is_absolute path) (path_parts path).
Proof.
  unfold path_parts. pose proof (split_char_parts path) as Hs.
  assert (Hf : Forall (λ p, is_empty p = false ∧ no_slash p)
                 (List.filter (λ p, negb (is_empty p)) (split_char "/" path))).
  { clear -Hs. induction Hs as [|p l Hp Hs IH]; simpl; [constructor|].
    destruct (is_empty p) eqn:E; simpl; [done|]. by constructor. }
  destruct (List.filter _ (split_char "/" path)) as [|first rest]; [done|].
  apply Forall_cons_1 in Hf as [Hf1 Hf].
  set (rest' := List.filter (λ p, negb (String.eqb p ".")) rest).
  assert (Hr : Forall (λ p, is_empty p = false ∧ no_slash p) rest') by by apply Forall_filter_bool.
  assert (Hd : Forall (λ p, p ≠ ".") rest').
  { unfold rest'. clear. induction rest as [|p rest IH]; simpl; [constructor|].
    destruct (String.eqb_spec p "."); simpl; [done|]. by constructor. }
  fold (is_absolute path). destruct (String.eqb_spec first ".") as [->|Hne].
  - destruct (is_absolute path).
    + split; [done|]. destruct rest' as [|p rest']; [done|].
      apply Forall_cons_1 in Hd as [Hd1 Hd]. by split.
    + split; [by constructor|]. by split.
  - split; [by constructor|]. split; [done|]. by intros _.
Qed.

(** Components printed and read back. *)
Lemma path_parts_join absolute l :
  parts_ok absolute l →
  path_parts ((if absolute then "/" else "") ++ join "/" l)%string = l.
Proof.
  intros [Hl Hd]. destruct l as [|first rest]; [by destruct absolute|].
  assert (Hns : Forall no_slash (first :: rest)) by (eapply Forall_impl; [exact Hl|by intros ? []]).
  assert (Hne : List.filter (λ p, negb (is_empty p)) (first :: rest) = first :: rest).
  { apply filter_all. eapply Forall_impl; [exact Hl|]. by intros p [-> _]. }
  assert (Hsplit : List.filter (λ p, negb (is_empty p))
      (split_char "/" ((if absolute then "/" else "") ++ join "/" (first :: rest))%string) = first :: rest).
  { destruct absolute.
    - change ("/" ++ join "/" (first :: rest))%string with (String "/" (join "/" (first :: rest))).
      cbn [split_char]. rewrite split_char_join by done. exact Hne.
    - change ("" ++ join "/" (first :: rest))%string with (join "/" (first :: rest)).
      by rewrite split_char_join. }
  unfold path_parts. rewrite Hsplit. destruct Hd as [Hdot Habs].
  rewrite (filter_all (λ p, negb (String.eqb p "."))); last first.
  { eapply Forall_impl; [exact Hdot|]. intros p Hp. simpl. by rewrite (proj2 (String.eqb_neq _ _) Hp). }
  destruct (String.eqb_spec first ".") as [->|]; [|done].
  destruct absolute; [by destruct (Habs eq_refl)|].
  replace (starts_with "/" ("" ++ join "/" ("." :: rest))%string) with false; [done|].
  by destruct rest.
Qed.

Lemma path_parts_parent path parent :
  path_parent path = Some parent →
  path_parts parent = take (length (path_parts path) - 1) (path_parts path) ∧
  path_parts path ≠ [].
Proof.
  unfold path_parent. pose proof (path_parts_ok path) as Hok.
  destruct (path_parts path) as [|first rest] eqn:E; [done|]. intros [= <-]. split; [|done].
  set (l := take _ _).
  assert (Hl : parts_ok (is_absolute path) l).
  { destruct Hok as [H1 [H2 H3]]. unfold l. cbn [length]. split; [by apply Forall_take|].
    replace (S (length rest) - 1)%nat with (length rest) by lia.
    destruct rest as [|p rest]; [done|]. cbn [length take]. split; [|done].
    by apply (Forall_take _ (length rest)). }
  pose proof (path_parts_join (is_absolute path) l Hl) as H. by destruct (is_absolute path).
Qed.

Section climb.
Context {FS : FileSystem}.

(** Fuel for one step per component is enough: more changes nothing. *)
Lemma climb_fuel fuel extra ancestor tail :
  (length (path_parts ancestor) < fuel)%nat →
  canonicalize_climb (fuel + extra) ancestor tail = canonicalize_climb fuel ancestor tail.
Proof.
  revert ancestor tail. induction fuel as [|fuel IH]; intros ancestor tail Hf; [lia|].
  simpl. destruct (fs_realpath ancestor); [done| |done].
  destruct (path_file_name ancestor); simpl; [|done].
  destruct (path_parent ancestor) as [parent|] eqn:Ep; simpl; [|done].
  apply path_parts_parent in Ep as [Hp Hne]. apply IH. rewrite Hp, length_take.
  destruct (path_parts ancestor); [done|]. simpl in *. lia.
Qed.

Lemma file_name_plain path name :
  path_file_name path = Some name → is_empty name = false ∧ no_slash name ∧ name ∉ ["."; ".."].
Proof.
  unfold path_file_name. pose proof (path_parts_ok path) as [Hf _].
  destruct (last (path_parts path)) as [n|] eqn:El; [|done].
  destruct (mem n _) eqn:Em; [done|]. intros [= <-].
  apply last_Some_elem_of in El. rewrite Forall_forall in Hf. destruct (Hf _ El).
  split_and!; [done|done|]. intros Hin%mem_elem. congruence.
Qed.

(** The [j]th parent of a path *)
Fixpoint ancestor_at (j : nat) (path : string) : option string :=
  match j with O => Some path | S j => parent ← path_parent path; ancestor_at j parent end.
Definition ordinary (n : string) : Prop := is_empty n = false ∧ no_slash n ∧ n ∉ ["."; ".."].
(** The path of a candidate with its links resolved: the nearest ancestor that
    exists is canonical, nothing below it exists, and the components below it are
    ordinary names, kept as they are. *)
Definition resolved_to (candidate target : string) : Prop :=
  ∃ j base canonical,
    ancestor_at j candidate = Some base ∧ fs_realpath base = Found canonical ∧
    (∀ i below, (i < j)%nat → ancestor_at i candidate = Some below → fs_realpath below = Missing) ∧
    let names := drop (length (path_parts candidate) - j) (path_parts candidate) in
    length names = j ∧ Forall ordinary names ∧ target = foldl path_join canonical names.
Lemma climb_resolved fuel ancestor tail path :
  canonicalize_climb fuel ancestor tail = Some path →
  ∃ j base canonical,
    ancestor_at j ancestor = Some base ∧ fs_realpath base = Found canonical ∧
    (∀ i below, (i < j)%nat → ancestor_at i ancestor = Some below → fs_realpath below = Missing) ∧
    let names := drop (length (path_parts ancestor) - j) (path_parts ancestor) in
    length names = j ∧ Forall ordinary names ∧ path = foldl path_join canonical (names ++ reverse tail)%list.
Proof.
  revert ancestor tail. induction fuel as [|fuel IH]; intros ancestor tail H; simpl in H; [done|].
  destruct (fs_realpath ancestor) as [canonical| |] eqn:Er; [| |done].
  - simplify_eq. exists 0%nat, ancestor, canonical. rewrite Nat.sub_0_r, drop_all. split_and!; try done. intros; lia.
  - destruct (path_file_name ancestor) as [name|] eqn:En; simpl in H; [|done].
    destruct (path_parent ancestor) as [parent|] eqn:Ep; simpl in H; [|done].
    apply IH in H as (j & base & canonical & H1 & H2 & H3 & H4 & H5 & ->). exists (S j), base, canonical.
    destruct (path_parts_parent _ _ Ep) as [Hparts Hne]. pose proof (file_name_plain _ _ En) as Hname.
    assert (∃ parts, path_parts ancestor = (parts ++ [name])%list ∧ path_parts parent = parts) as (parts & Ha & Hp).
    { unfold path_file_name in En. destruct (last (path_parts ancestor)) as [n|] eqn:El; [|done].
      destruct (mem n _); [done|]. injection En as ->. apply last_Some in El as [parts El]. exists parts. split; [done|].
      rewrite Hparts, El, length_app. cbn [length]. by rewrite Nat.add_sub, take_app_length. }
    rewrite Hp in H4, H5. rewrite Ha, Hp, length_app. cbn [length]. replace (length parts + 1 - S j)%nat with (length parts - j)%nat by lia.
    rewrite length_drop in H4. rewrite drop_app_le by lia. split_and!.
    + cbn [ancestor_at]. by rewrite Ep.
    + done.
    + intros [|i] below Hi Hb; [by injection Hb as <-|]. cbn [ancestor_at] in Hb. rewrite Ep in Hb. apply (H3 i); [lia|done].
    + rewrite length_app, length_drop. cbn. lia.
    + apply Forall_app_2; [done|]. by apply Forall_singleton.
    + by rewrite <- app_assoc, reverse_app, reverse_singleton.
Qed.
Lemma missing_tail_resolved candidate target :
  canonicalize_with_missing_tail candidate = Some target → resolved_to candidate target.
Proof.
  intros (j & base & canonical & H1 & H2 & H3 & H4 & H5 & H6)%climb_resolved. exists j, base, canonical.
  cbn [reverse] in H6. rewrite app_nil_r in H6. by split_and!.
Qed.

(** The file a supplied path names: itself, a path in the root of that number,
    or a path in the first root. *)
Inductive names_file (roots : list string) : string → string → Prop :=
| names_absolute path : is_absolute path = true → names_file roots path path
| names_virtual path index rest n root :
    is_absolute path = false → path_parts path = "@root" :: index :: rest → parse_usize index = Some n →
    roots !! Z.to_nat n = Some root → names_file roots path (path_join root (join "/" rest))
| names_relative path root :
    is_absolute path = false → head (path_parts path) ≠ Some "@root" → head roots = Some root →
    names_file roots path (path_join root path).
Lemma resolve_workspace_write_path_spec roots path target :
  resolve_workspace_write_path roots path = Some target →
  ∃ candidate root, names_file roots path candidate ∧ resolved_to candidate target ∧ root ∈ roots ∧ path_within root target = true.
Proof.
  unfold resolve_workspace_write_path. intros (candidate & Hcand & H)%bind_Some.
  apply bind_Some in H as (canonical & Hc%missing_tail_resolved & H).
  destruct (existsb _ roots) eqn:Ee; [|done]. injection H as <-.
  apply existsb_exists in Ee as (root & Hroot%list_elem_of_In & Hw). exists candidate, root. split; [|done]. clear -Hcand.
  destruct (is_absolute path) eqn:Ea; [injection Hcand as <-; by constructor|].
  destruct (path_parts path) as [|first rest] eqn:Ep.
  { apply bind_Some in Hcand as (r & Hr & [= <-]). apply names_relative; [done|by rewrite Ep|done]. }
  destruct (String.eqb_spec first "@root") as [->|Hne].
  - destruct rest as [|index rest]; [done|]. destruct (mem index _); [done|]. apply bind_Some in Hcand as (n & Hn & Hcand).
    apply bind_Some in Hcand as (r & Hr & [= <-]). by eapply names_virtual.
  - apply bind_Some in Hcand as (r & Hr & [= <-]). apply names_relative; [done| |done]. rewrite Ep. cbn. congruence.
Qed.

(** C8: Auto mode writes stay inside the workspace. When a file mutation is
    auto-approved, the request only reads and writes files, and every path it
    names (absolute, in a numbered root, or in the first root) resolves to a
    target inside one of the workspace roots.  The target is the canonical path
    of the nearest ancestor of the named file that exists, so that every link on
    the way to it is resolved before the check, followed by the remaining names,
    none of which exists and none of which is [.] or [..]. *)
Theorem auto_safe_write_contained request semantics roots :
  is_auto_safe_workspace_write request semantics roots = true →
  (∀ c, c ∈ capabilities request → c = ReadFilesystem ∨ c = WriteFilesystem) ∧
  ∃ s paths, semantics = Some s ∧ behavior s = FileMutation ∧ mutation_scope s = ScopePaths paths ∧ paths ≠ [] ∧
    ∀ path, path ∈ paths → ∃ candidate target root,
      names_file roots path candidate ∧ resolved_to candidate target ∧ root ∈ roots ∧ path_within root target = true.
Proof.
  unfold is_auto_safe_workspace_write. destruct semantics as [s|]; [|done].
  destruct (mutation_scope s) as [|paths|] eqn:Em; [done| |done].
  destruct (_ || _ || _ || _ || _) eqn:Eg; [done|]. rewrite !orb_false_iff in Eg.
  destruct Eg as [[[[Hb Hp] _] _] Hcap]. intros Hall. split.
  - intros c Hc. apply existsb_false_Forall in Hcap. rewrite Forall_forall in Hcap.
    apply Hcap, bool_decide_eq_false_1 in Hc. destruct c; auto; destruct Hc;
      rewrite !elem_of_cons; auto.
  - exists s, paths. split_and!; [done| |done|by destruct paths|].
    { by apply negb_false_iff, bool_decide_eq_true_1 in Hb. }
    intros path Hin. rewrite forallb_forall in Hall. apply list_elem_of_In, Hall in Hin.
    destruct (resolve_workspace_write_path roots path) as [target|] eqn:Er; [|done].
    apply resolve_workspace_write_path_spec in Er as (candidate & root & H). by exists candidate, target, root.
Qed.
End climb.

(** * Witnesses *)

Definition sample_url : UrlParser := λ s, Some ("https", s).
Definition sample_exec : ExecFiles := {| fs_open _ := Some (Some "elf"); inherited_path := Some "/bin" |}.
Definition sample_request (tool_name : string) (args : list (string * Value))
    (caps : list ToolCapability) : PermissionRequest :=
  mkRequest "id" "invocation" tool_name (JObject args) caps None None.

Definition spaced_request (command : string) (caps : list ToolCapability) : PermissionRequest :=
  sample_request "bash" [("command", JString command)] caps.


(** A file system where only [/work] and [/] exist. *)
Definition sample_tree : FileSystem :=
  {| fs_realpath p := if mem p ["/"; "/work"] then Found p else Missing;
     fs_metadata _ := None; geteuid := 501 |}.

Lemma auto_safe_write_contained_witness :
  @is_auto_safe_workspace_write sample_tree
    (sample_request "edit" [] [WriteFilesystem])
    (Some (mkSemantics FileMutation (ScopePaths ["src/new.rs"]) [])) ["/work"] = true ∧
  ∀ c, c ∈ [WriteFilesystem] → c = ReadFilesystem ∨ c = WriteFilesystem.
Proof.
  split; [vm_compute; reflexivity|].
  exact (proj1 (@auto_safe_write_contained sample_tree (sample_request "edit" [] [WriteFilesystem])
    (Some (mkSemantics FileMutation (ScopePaths ["src/new.rs"]) [])) ["/work"] eq_refl)).
Defined.
