(* ===== verification/CheckpointDisk.v ===== *)
(** The disk that checkpoints work on ([rw-store/src/checkpoint.rs],
    [checkpoint/operation.rs], [checkpoint/operation/read.rs],
    [checkpoint/directory.rs]).

    A [Volume] holds the workspace, the metadata directories of the sessions,
    the shared blobs with the capture files being staged, and the quota ledger.  Every system call asks the list of
    faults of the [Machine]: it succeeds, fails, or the process dies there; a
    write that fails or dies may have written some first bytes.  A computation
    [DM] returns, fails with an error or ends with the process.  [wpd] is its
    proof rule, with one condition for what it returns and one that holds
    wherever it is cut off. *)
From Stdlib Require Import Ascii.
From S2P Require Import Prelude Text Ir Decimal JournalCatalog Journal ShellSplit BashSafety PermissionRules PermissionIdentity.

(** * Errors and data *)

Inductive IoKind : Type := NotFound | OtherIo.
Inductive CheckpointError : Type :=
| CheckpointCancelled
| OperationLimit (what : string)
| CaptureFileLimit
| CaptureChanged
| InvalidSessionId
| InvalidOperationId
| UnsafePath
| UnsupportedFileKind (path : string)
| CorruptManifest
| UnsupportedManifestVersion (version : Z)
| CorruptBlob
| OpaqueMutationPending
| CorruptOpaqueMutation
| RewindPending
| RewindIdentityMismatch
| RewindNotCommitted
| RewindCannotDiscard
| CorruptRewindTransaction
| CorruptReviewLedger
| ReviewFileLimit
| ReviewPathNotFound
| ReviewPathNotRevertible
| ReviewPathChanged
| ReviewIdentityLimit
| BlobQuotaExceeded
| CorruptBlobQuota
| CheckpointIo (kind : IoKind)
| CheckpointJson.

Inductive CheckpointFileState : Type :=
| Present (blob : string) (bytes : Z) (unix_mode : option Z)
| Absent
| Unrestorable (reason : string).
#[global] Instance CheckpointFileState_eq_dec : EqDecision CheckpointFileState.
Proof. solve_decision. Defined.

Record CheckpointManifest : Type := mkManifest {
  manifest_version : Z;
  manifest_session : string;
  manifest_turn : Z;
  manifest_files : gmap string CheckpointFileState;
}.
Record RewindReport : Type := mkReport {
  restored : list string;
  removed : list string;
  unrestorable : gmap string string;
}.
Definition empty_report : RewindReport := mkReport [] [] ∅.
#[global] Instance RewindReport_eq_dec : EqDecision RewindReport.
Proof. solve_decision. Defined.
Record RewindHandle : Type := mkHandle { handle_session : string; operation_id : string }.
#[global] Instance RewindHandle_eq_dec : EqDecision RewindHandle.
Proof. solve_decision. Defined.
Record RewindCommit : Type := mkCommit {
  commit_handle : RewindHandle;
  commit_target : Z;
  commit_report : RewindReport;
}.
Record RewindStep : Type := mkStep { step_path : string; step_state : CheckpointFileState }.
Inductive RewindPhase : Type := Applying | WorkspaceCommitted.
#[global] Instance RewindPhase_eq_dec : EqDecision RewindPhase.
Proof. solve_decision. Defined.
Record RewindTransaction : Type := mkTransaction {
  tx_version : Z;
  tx_handle : RewindHandle;
  tx_target : Z;
  tx_steps : list RewindStep;
  tx_next : nat;
  tx_report : RewindReport;
  tx_phase : RewindPhase;
}.

(** A [BTreeMap] is visited in the order of its keys. *)
Definition key_le {A} (x y : string * A) : bool := String.leb x.1 y.1.
Definition btree_items {A} (m : gmap string A) : list (string * A) :=
  stable_sort key_le (map_to_list m).

(** * What the crates answer *)

(** BLAKE3 in lowercase hexadecimal digits *)
Definition is_lower_hex (c : ascii) : bool :=
  let n := nat_of_ascii c in
  ((48 <=? n)%nat && (n <=? 57)%nat) || ((97 <=? n)%nat && (n <=? 102)%nat).
Definition is_lower_blake3 (value : string) : bool :=
  (str_len value =? 64) && str_all is_lower_hex value.
Class ContentDigest : Type := {
  digest : string → string;
  digest_hex : ∀ s, is_lower_blake3 (digest s) = true;
}.

(** serde_json over the documents of the store: [json_of] is what its
    deserializer presents to a visitor, and a document that was written is read
    back. *)
Class MetadataJson : Type := {
  Doc : Type;
  doc_len : Doc → Z;
  doc_take : nat → Doc → Doc;
  json_of : Doc → option Value;
  ser_manifest : CheckpointManifest → Doc;
  de_manifest : Doc → option CheckpointManifest;
  ser_transaction : RewindTransaction → Doc;
  de_transaction : Doc → option RewindTransaction;
  de_ser_manifest : ∀ m, de_manifest (ser_manifest m) = Some m;
  de_ser_transaction : ∀ t, de_transaction (ser_transaction t) = Some t;
}.

(** Sizes the compiler and the allocator choose *)
Inductive ReadItem : Type :=
| OfString | OfStringPair | OfTurn | OfStep | OfHandle | OfCommit.
Class Layout : Type := {
  size_of : ReadItem → Z;
  capacity : string → Z;
}.

(** * The volume *)

Abbreviation Path := (list string) (only parsing).
Inductive Entry : Type :=
| Regular (content : string) (mode : Z)
| Symlink (target : string)
| Directory
| Special.
#[global] Instance Entry_eq_dec : EqDecision Entry.
Proof. solve_decision. Defined.

(** The rows of the SQLite ledger; the totals of its triggers are sums. *)
Record Quota : Type := mkQuota {
  q_dirty : bool;
  q_staged : Z;
  q_blobs : gmap string Z;
  q_namespaces : list string;
}.

Section disk.
Context {CD : ContentDigest} {MJ : MetadataJson} {LY : Layout}.

(** A namespace maps the directories under its root to their files. *)
Abbreviation Namespace := (gmap (list string) (gmap string Doc)).
Record Volume : Type := mkVolume {
  workspace : gmap (list string) Entry;
  namespaces : gmap string Namespace;
  blobs : gmap string string;
  staging : list string;
  quota : option Quota;
}.

Record CheckpointOperation : Type := mkOperation {
  op_paths : Z;
  op_path_bytes : Z;
  op_hash_bytes : Z;
  op_capture_bytes : Z;
  op_items : Z;
  op_retained : Z;
  op_source : Z;
}.
Definition default_operation : CheckpointOperation := mkOperation 0 0 0 0 0 4096 0.

Definition set_paths (o : CheckpointOperation) (paths bytes : Z) : CheckpointOperation :=
  mkOperation paths bytes (op_hash_bytes o) (op_capture_bytes o) (op_items o) (op_retained o) (op_source o).
Definition set_hashed (o : CheckpointOperation) (bytes : Z) : CheckpointOperation :=
  mkOperation (op_paths o) (op_path_bytes o) bytes (op_capture_bytes o) (op_items o) (op_retained o) (op_source o).
Definition set_captured (o : CheckpointOperation) (bytes : Z) : CheckpointOperation :=
  mkOperation (op_paths o) (op_path_bytes o) (op_hash_bytes o) bytes (op_items o) (op_retained o) (op_source o).
Definition set_read (o : CheckpointOperation) (items retained source : Z) : CheckpointOperation :=
  mkOperation (op_paths o) (op_path_bytes o) (op_hash_bytes o) (op_capture_bytes o) items retained source.

(** * Computations *)

Inductive Fault : Type := Go | Fails (n : nat) | Dies (n : nat).

(** The process: its allowance, the counter of temporary names, the digests its
    connection protects, and the faults that are ahead of it *)
Record Machine : Type := mkMachine {
  volume : Volume;
  operation : CheckpointOperation;
  process_id : Z;
  temp_counter : Z;
  protected : gset string;
  faults : list Fault;
}.

Inductive Outcome (A : Type) : Type :=
| Returned (a : A)
| Failed (e : CheckpointError)
| Crashed.
#[global] Arguments Returned {A} a.
#[global] Arguments Failed {A} e.
#[global] Arguments Crashed {A}.

Definition DM (A : Type) : Type := Machine → Outcome A * Machine.
#[global] Instance dm_ret : MRet DM := λ A a s, (Returned a, s).
#[global] Instance dm_bind : MBind DM := λ A B f m s,
  match m s with
  | (Returned a, s') => f a s'
  | (Failed e, s') => (Failed e, s')
  | (Crashed, s') => (Crashed, s')
  end.
Definition fail {A} (e : CheckpointError) : DM A := λ s, (Failed e, s).
Definition crash {A} : DM A := λ s, (Crashed, s).
(** The result of a computation as a value, as where Rust matches on it *)
Definition attempt {A} (m : DM A) : DM (Result A CheckpointError) := λ s,
  match m s with
  | (Returned a, s') => (Returned (Ok a), s')
  | (Failed e, s') => (Returned (Err e), s')
  | (Crashed, s') => (Crashed, s')
  end.
(** [if result.is_err() { let _ = cleanup; } result] *)
Definition or_cleanup (m cleanup : DM unit) : DM unit :=
  r ← attempt m;
  match r with
  | Ok _ => mret tt
  | Err e => _ ← attempt cleanup; fail e
  end.
Definition of_result {A} (r : Result A CheckpointError) : DM A :=
  match r with Ok a => mret a | Err e => fail e end.
Definition guard_or (b : bool) (e : CheckpointError) : DM unit := if b then mret tt else fail e.
Definition gets {A} (f : Machine → A) : DM A := λ s, (Returned (f s), s).

Definition with_volume (f : Volume → Volume) (s : Machine) : Machine :=
  mkMachine (f (volume s)) (operation s) (process_id s) (temp_counter s) (protected s) (faults s).
Definition with_operation (f : CheckpointOperation → CheckpointOperation) (s : Machine) : Machine :=
  mkMachine (volume s) (f (operation s)) (process_id s) (temp_counter s) (protected s) (faults s).
Definition with_protected (f : gset string → gset string) (s : Machine) : Machine :=
  mkMachine (volume s) (operation s) (process_id s) (temp_counter s) (f (protected s)) (faults s).
Definition change (f : Volume → Volume) : DM unit := λ s, (Returned tt, with_volume f s).
Definition change_operation (f : CheckpointOperation → CheckpointOperation) : DM unit :=
  λ s, (Returned tt, with_operation f s).
Definition change_protected (f : gset string → gset string) : DM unit :=
  λ s, (Returned tt, with_protected f s).

(** [CheckpointOperation::default()] for the computation, then the caller's *)
Definition own_operation {A} (m : DM A) : DM A := λ s,
  let '(r, s') := m (with_operation (λ _, default_operation) s) in
  (r, with_operation (λ _, operation s) s').

Definition next_fault : DM Fault := λ s,
  match faults s with
  | [] => (Returned Go, s)
  | f :: rest => (Returned f, mkMachine (volume s) (operation s) (process_id s) (temp_counter s)
                                (protected s) rest)
  end.
(** A system call *)
Definition sys : DM unit :=
  f ← next_fault;
  match f with Go => mret tt | Fails _ => fail (CheckpointIo OtherIo) | Dies _ => crash end.
(** A comparison of the metadata of an open file before and after it was read *)
Definition unchanged_while_read : DM unit :=
  f ← next_fault;
  match f with Go => mret tt | Fails _ => fail CaptureChanged | Dies _ => crash end.
(** A write of which some first bytes may be there when it fails *)
Definition sys_write (full : Volume → Volume) (part : nat → Volume → Volume) : DM unit :=
  f ← next_fault;
  match f with
  | Go => change full
  | Fails n => _ ← change (part n); fail (CheckpointIo OtherIo)
  | Dies n => _ ← change (part n); crash
  end.

Fixpoint for_each {A} (f : A → DM unit) (l : list A) : DM unit :=
  match l with
  | [] => mret tt
  | x :: rest => _ ← f x; for_each f rest
  end.
Fixpoint fold_each {A B} (f : B → A → DM B) (b : B) (l : list A) : DM B :=
  match l with
  | [] => mret b
  | x :: rest => b ← f b x; fold_each f b rest
  end.
Fixpoint map_each {A B} (f : A → DM B) (l : list A) : DM (list B) :=
  match l with
  | [] => mret []
  | x :: rest => y ← f x; ys ← map_each f rest; mret (y :: ys)
  end.

(** * The allowance of an operation *)

Definition MAX_PATHS : Z := 100000.
Definition MAX_PATH_BYTES : Z := 8 * 1024 * 1024.
Definition MAX_DEPTH : Z := 64.
Definition MAX_HASH_BYTES : Z := 1024 * 1024 * 1024.
Definition MAX_CAPTURE_BYTES : Z := 256 * 1024 * 1024.
Definition MAX_METADATA_BYTES : Z := 32 * 1024 * 1024.
Definition MAX_READ_ITEMS : Z := 100000.
Definition MAX_RETAINED_BYTES : Z := 32 * 1024 * 1024.
Definition MAX_SOURCE_BYTES : Z := 128 * 1024 * 1024.
Definition MAX_CAPTURE_FILE_BYTES : Z := 64 * 1024 * 1024.
Definition CAPTURE_CHUNK_BYTES : Z := 64 * 1024.

(** Cancellation and the deadline come from outside. *)
Definition check : DM unit :=
  f ← next_fault;
  match f with
  | Go => mret tt
  | Fails O => fail CheckpointCancelled
  | Fails _ => fail (OperationLimit "30 second deadline")
  | Dies _ => crash
  end.

Definition path_segments (path : string) : list string := split_char "/" path.
Definition op_path (path : string) : DM unit :=
  _ ← check;
  o ← gets operation;
  if (MAX_PATHS <=? op_paths o) || (sat_sub MAX_PATH_BYTES (op_path_bytes o) <? str_len path)
     || (MAX_DEPTH <? Z.of_nat (length (path_segments path)))
  then fail (OperationLimit "path count, bytes or depth")
  else change_operation (λ o, set_paths o (op_paths o + 1) (op_path_bytes o + str_len path)).

Definition charge_fits (used amount maximum : Z) : bool := amount <=? sat_sub maximum used.
Definition op_capture (n : Z) : DM unit :=
  _ ← check;
  o ← gets operation;
  if charge_fits (op_capture_bytes o) n MAX_CAPTURE_BYTES
  then change_operation (λ o, set_captured o (op_capture_bytes o + n))
  else fail (OperationLimit "256 MiB captured bytes").

(** The sizes of the reads of a file until its end *)
Definition chunk_sizes (n : Z) : list Z :=
  let full := repeat CAPTURE_CHUNK_BYTES (Z.to_nat (n / CAPTURE_CHUNK_BYTES)) in
  if n mod CAPTURE_CHUNK_BYTES =? 0 then full else (full ++ [n mod CAPTURE_CHUNK_BYTES])%list.
Fixpoint hash_chunks (sizes : list Z) : DM unit :=
  _ ← check;
  _ ← sys;
  match sizes with
  | [] => mret tt
  | n :: rest =>
      o ← gets operation;
      if charge_fits (op_hash_bytes o) n MAX_HASH_BYTES
      then _ ← change_operation (λ o, set_hashed o (op_hash_bytes o + n)); hash_chunks rest
      else fail (OperationLimit "1 GiB hashed bytes")
  end.
Definition op_hash (content : string) : DM string :=
  _ ← hash_chunks (chunk_sizes (str_len content));
  mret (digest content).

Definition retain_read (t : ReadItem) (heap : Z) : DM unit :=
  _ ← check;
  o ← gets operation;
  let bytes := sat_add (sat_add (Z.min (size_of t * 4) usize_max) 128) heap in
  if (MAX_READ_ITEMS <=? op_items o) || (sat_sub MAX_RETAINED_BYTES (op_retained o) <? bytes)
  then fail (OperationLimit "retained checkpoint read items or bytes")
  else change_operation (λ o, set_read o (op_items o + 1) (op_retained o + bytes) (op_source o)).
Definition retain_state (t : ReadItem) (path_bytes : Z) (state : CheckpointFileState) : DM unit :=
  let heap := match state with
              | Present blob _ _ => capacity blob
              | Unrestorable reason => capacity reason
              | Absent => 0
              end in
  retain_read t (sat_add path_bytes heap).

(** * Metadata files *)

Definition metadata_limits : JsonStructureLimits :=
  mkJsonLimits MAX_METADATA_BYTES 100000 MAX_METADATA_BYTES 64.
Definition validate_metadata (d : Doc) : DM unit :=
  match (if MAX_METADATA_BYTES <? doc_len d then None
         else v ← json_of d; visit metadata_limits 0 v no_structure) with
  | None => fail CheckpointJson
  | Some shape =>
      if 128 * 1024 * 1024 <?
         sat_add (Z.min (nodes shape * 1024) usize_max) (Z.min (string_bytes shape * 4) usize_max)
      then fail (OperationLimit "128 MiB decoded metadata")
      else mret tt
  end.

Definition lookup_doc (v : Volume) (root : string) (dir : list string) (name : string) : option Doc :=
  space ← namespaces v !! root; files ← space !! dir; files !! name.
Definition has_directory (v : Volume) (root : string) (dir : list string) : bool :=
  match namespaces v !! root with
  | Some space => bool_decide (is_Some (space !! dir))
  | None => false
  end.
(** The files of a directory, none when it is missing *)
Definition read_dir (v : Volume) (root : string) (dir : list string) : list (string * Doc) :=
  match namespaces v !! root with
  | Some space => match space !! dir with Some files => map_to_list files | None => [] end
  | None => []
  end.
(** The directories directly under a directory *)
Definition child_of (dir entry : list string) : option string :=
  match last entry with
  | Some name => if decide (entry = dir ++ [name])%list then Some name else None
  | None => None
  end.
Definition subdirectories (v : Volume) (root : string) (dir : list string) : list string :=
  match namespaces v !! root with
  | Some space => omap (child_of dir) (map_to_list space).*1
  | None => []
  end.
Definition metadata_path (root : string) (dir : list string) (name : string) : string :=
  join "/" (root :: dir ++ [name])%list.

Definition read_metadata (root : string) (dir : list string) (name : string) : DM Doc :=
  _ ← op_path (metadata_path root dir name);
  _ ← sys;
  v ← gets volume;
  match lookup_doc v root dir name with
  | None => fail (CheckpointIo NotFound)
  | Some d =>
      _ ← sys;
      if MAX_METADATA_BYTES <? doc_len d then fail (OperationLimit "32 MiB metadata") else
      o ← gets operation;
      if sat_sub MAX_SOURCE_BYTES (op_source o) <? doc_len d
      then fail (OperationLimit "checkpoint source metadata bytes") else
      _ ← change_operation (λ o, set_read o (op_items o) (op_retained o) (op_source o + doc_len d));
      _ ← sys;
      _ ← sys;
      _ ← check;
      _ ← validate_metadata d;
      mret d
  end.

Definition serialize_metadata (d : Doc) : DM Doc :=
  if MAX_METADATA_BYTES <? doc_len d then fail (OperationLimit "32 MiB metadata")
  else _ ← validate_metadata d; mret d.

(** * Names of temporary files *)

Definition temporary_name (pid nonce : Z) : string :=
  ".rw-" ++ dec (pid mod 2 ^ 32) ++ "-" ++ dec (nonce mod 2 ^ 64) ++ ".tmp".
Definition is_digit (c : ascii) : bool := match digit_value c with Some _ => true | None => false end.
Definition is_private_temporary (filename : string) : bool :=
  match strip_prefix ".rw-" filename ≫= strip_suffix ".tmp" with
  | None => false
  | Some body =>
      match split_once "-" body with
      | None => false
      | Some (pid, nonce) =>
          negb (is_empty pid) && negb (is_empty nonce) && str_all is_digit pid && str_all is_digit nonce
      end
  end.
(** [TEMP_COUNTER.fetch_add] *)
Definition fresh_temporary : DM string := λ s,
  (Returned (temporary_name (process_id s) (temp_counter s)),
   mkMachine (volume s) (operation s) (process_id s) (temp_counter s + 1) (protected s) (faults s)).

(** * Directories and replaced files *)

Definition edit_directory (root : string) (dir : list string) (f : gmap string Doc → gmap string Doc)
    (v : Volume) : Volume :=
  mkVolume (workspace v)
    (let space := default ∅ (namespaces v !! root) in
     <[root := <[dir := f (default ∅ (space !! dir))]> space]> (namespaces v))
    (blobs v) (staging v) (quota v).
(** [fs::create_dir] of a directory that may be there *)
Definition create_directory (root : string) (dir : list string) : DM unit :=
  _ ← sys; change (edit_directory root dir id).
(** [create_directory_durable]: the missing directories of the chain, then their
    synchronization *)
Fixpoint create_chain (root : string) (above rest : list string) : DM unit :=
  match rest with
  | [] => mret tt
  | name :: rest' =>
      let dir := (above ++ [name])%list in
      v ← gets volume;
      _ ← (if has_directory v root dir then mret tt else create_directory root dir);
      create_chain root dir rest'
  end.
Definition create_directory_durable (root : string) (dir : list string) : DM unit :=
  _ ← sys; _ ← create_chain root [] dir; sys.

Definition atomic_replace (root : string) (dir : list string) (name : string) (d : Doc) : DM unit :=
  _ ← create_directory_durable root dir;
  temporary ← fresh_temporary;
  v ← gets volume;
  _ ← sys;
  if bool_decide (is_Some (lookup_doc v root dir temporary)) then fail (CheckpointIo OtherIo) else
  _ ← change (edit_directory root dir <[temporary := doc_take 0 d]>);
  or_cleanup
    (_ ← sys_write (edit_directory root dir <[temporary := d]>)
           (λ n, edit_directory root dir <[temporary := doc_take n d]>);
     _ ← sys;
     _ ← sys;
     _ ← change (edit_directory root dir (λ files, <[name := d]> (delete temporary files)));
     sys)
    (_ ← sys; change (edit_directory root dir (delete temporary))).

Definition remove_durable (root : string) (dir : list string) (name : string) : DM unit :=
  _ ← sys;
  v ← gets volume;
  match lookup_doc v root dir name with
  | None => mret tt
  | Some _ => _ ← change (edit_directory root dir (delete name)); sys
  end.

(** * Confined access to the workspace *)

(** [Path::components] of a relative path, joined again *)
Definition normalize_relative (path : string) : Result string CheckpointError :=
  if is_empty path || is_absolute path then Err UnsafePath
  else if existsb (λ p, mem p ["."; ".."]) (path_parts path) then Err UnsafePath
  else match path_parts path with
       | [] => Err UnsafePath
       | parts => Ok (join "/" parts)
       end.

Definition edit_workspace (f : gmap (list string) Entry → gmap (list string) Entry) (v : Volume) : Volume :=
  mkVolume (f (workspace v)) (namespaces v) (blobs v) (staging v) (quota v).

(** The descent of [open_confined_parent], one [openat] without following links
    per component *)
Fixpoint open_components (key : string) (create : bool) (at_ : Path) (parts : list string) : DM (option Path) :=
  match parts with
  | [] => mret (Some at_)
  | part :: rest =>
      let next := (at_ ++ [part])%list in
      _ ← sys;
      v ← gets volume;
      match workspace v !! next with
      | Some Directory => open_components key create next rest
      | Some _ => fail (UnsupportedFileKind key)
      | None =>
          if create then
            _ ← sys;
            _ ← change (edit_workspace <[next := Directory]>);
            _ ← sys;
            _ ← sys;
            open_components key create next rest
          else mret None
      end
  end.
Definition open_confined_parent (key : string) (create : bool) : DM (option (Path * string)) :=
  normalized ← of_result (normalize_relative key);
  _ ← guard_or (String.eqb normalized key) UnsafePath;
  let parts := path_segments key in
  match last parts with
  | None => fail UnsafePath
  | Some name =>
      _ ← sys;
      parent ← open_components key create [] (take (length parts - 1) parts);
      mret (parent ← parent; Some (parent, name))
  end.

Definition capture_regular_confined (key : string) : DM (option (string * Z)) :=
  parent ← open_confined_parent key false;
  match parent with
  | None => mret None
  | Some (parent, name) =>
      _ ← sys;
      v ← gets volume;
      match workspace v !! (parent ++ [name])%list with
      | None => mret None
      | Some (Regular content mode) => _ ← sys; mret (Some (content, Z.land mode 4095))
      | Some _ => fail (UnsupportedFileKind key)
      end
  end.

Definition restore_regular_confined (key content : string) (unix_mode : option Z) : DM unit :=
  parent ← open_confined_parent key true;
  match parent with
  | None => fail UnsafePath
  | Some (parent, name) =>
      temporary ← fresh_temporary;
      let at_temporary := (parent ++ [temporary])%list in
      let target := (parent ++ [name])%list in
      v ← gets volume;
      _ ← sys;
      if bool_decide (is_Some (workspace v !! at_temporary)) then fail (CheckpointIo OtherIo) else
      _ ← change (edit_workspace <[at_temporary := Regular "" 384]>);
      or_cleanup
        (_ ← sys_write (edit_workspace <[at_temporary := Regular content 384]>)
               (λ n, edit_workspace <[at_temporary := Regular (str_take n content) 384]>);
         _ ← match unix_mode with
             | None => mret tt
             | Some mode => _ ← sys; change (edit_workspace <[at_temporary := Regular content mode]>)
             end;
         _ ← sys;
         _ ← sys;
         v ← gets volume;
         match workspace v !! target with
         | Some Directory => fail (CheckpointIo OtherIo)
         | _ =>
             _ ← change (edit_workspace (λ w,
                   <[target := Regular content (default 384 unix_mode)]> (delete at_temporary w)));
             sys
         end)
        (_ ← sys; change (edit_workspace (delete at_temporary)))
  end.

Definition remove_file_or_symlink_confined (key : string) : DM unit :=
  parent ← open_confined_parent key false;
  match parent with
  | None => mret tt
  | Some (parent, name) =>
      let target := (parent ++ [name])%list in
      _ ← sys;
      v ← gets volume;
      match workspace v !! target with
      | None => mret tt
      | Some (Regular _ _) | Some (Symlink _) =>
          _ ← sys; _ ← change (edit_workspace (delete target)); sys
      | Some _ => fail (UnsupportedFileKind key)
      end
  end.
End disk.

(** * Reasoning about computations *)

Section rules.
Context {CD : ContentDigest} {MJ : MetadataJson} {LY : Layout}.
Implicit Types v : Volume.

(** [wpv m v Q C]: from the volume [v], [m] returns with [Q], and [C] holds of
    the volume wherever it fails or the process dies. *)
Definition wpv {A} (m : DM A) v (Q : A → Volume → Prop) (C : Volume → Prop) : Prop :=
  ∀ s, volume s = v →
  match m s with
  | (Returned a, s') => Q a (volume s')
  | (_, s') => C (volume s')
  end.

Lemma wpv_mono {A} (m : DM A) v (Q Q' : A → Volume → Prop) (C C' : Volume → Prop) :
  wpv m v Q C → (∀ a v', Q a v' → Q' a v') → (∀ v', C v' → C' v') → wpv m v Q' C'.
Proof. intros H HQ HC s Hs. specialize (H s Hs). destruct (m s) as [[]]; auto. Qed.
Lemma wpv_ret {A} (a : A) v (Q : A → Volume → Prop) (C : Volume → Prop) : Q a v → wpv (mret a) v Q C.
Proof. by intros ? s <-. Qed.
Lemma wpv_bind {A B} (m : DM A) (f : A → DM B) v Q (C : Volume → Prop) :
  wpv m v (λ a v', wpv (f a) v' Q C) C → wpv (m ≫= f) v Q C.
Proof.
  intros H s Hs. specialize (H s Hs). unfold mbind, dm_bind.
  destruct (m s) as [[a|e|] s']; [by apply H|done|done].
Qed.
Lemma wpv_fail {A} e v (Q : A → Volume → Prop) (C : Volume → Prop) : C v → wpv (fail e) v Q C.
Proof. by intros ? s <-. Qed.
Lemma wpv_crash {A} v (Q : A → Volume → Prop) (C : Volume → Prop) : C v → wpv crash v Q C.
Proof. by intros ? s <-. Qed.
Lemma wpv_gets_volume v (Q : Volume → Volume → Prop) (C : Volume → Prop) : Q v v → wpv (gets volume) v Q C.
Proof. by intros ? s <-. Qed.
Lemma wpv_gets {A} (f : Machine → A) v (Q : A → Volume → Prop) (C : Volume → Prop) :
  (∀ a, Q a v) → wpv (gets f) v Q C.
Proof. intros H s <-. apply H. Qed.
Lemma wpv_change f v (Q : unit → Volume → Prop) (C : Volume → Prop) : Q tt (f v) → wpv (change f) v Q C.
Proof. by intros ? s <-. Qed.
Lemma wpv_attempt {A} (m : DM A) v Q (C : Volume → Prop) :
  wpv m v (λ a, Q (Ok a)) (λ v', C v' ∧ ∀ e, Q (Err e) v') → wpv (attempt m) v Q C.
Proof.
  intros H s Hs. specialize (H s Hs). unfold attempt. destruct (m s) as [[a|e|] s']; [done| |]; destruct H; auto.
Qed.
(** [H] holds wherever the computation is cut off, and the clean-up ends in [C]. *)
Lemma wpv_or_cleanup m cleanup v (Q : unit → Volume → Prop) (C H : Volume → Prop) :
  wpv m v Q H → (∀ v', H v' → C v') → (∀ v', H v' → wpv cleanup v' (λ _, C) C) →
  wpv (or_cleanup m cleanup) v Q C.
Proof.
  intros Hm HC Hclean. apply wpv_bind, wpv_attempt. eapply wpv_mono; [exact Hm| |].
  - intros [] v' HQ. by apply wpv_ret.
  - intros v' HH. split; [by apply HC|]. intros e. apply wpv_bind, wpv_attempt.
    eapply wpv_mono; [by apply Hclean| |].
    + intros [] v'' HC'. by apply wpv_fail.
    + intros v'' HC'. split; [done|]. intros e'. by apply wpv_fail.
Qed.
Lemma wpv_own_operation {A} (m : DM A) v Q (C : Volume → Prop) : wpv m v Q C → wpv (own_operation m) v Q C.
Proof.
  intros H s Hs. specialize (H (with_operation (λ _, default_operation) s) Hs). unfold own_operation.
  by destruct (m _) as [[a|e|] s'].
Qed.
Lemma wpv_next_fault v (Q : Fault → Volume → Prop) (C : Volume → Prop) : (∀ f, Q f v) → wpv next_fault v Q C.
Proof. intros H s <-. unfold next_fault. destruct (faults s); apply H. Qed.
Lemma wpv_fresh_temporary v (Q : string → Volume → Prop) (C : Volume → Prop) :
  (∀ pid nonce, Q (temporary_name pid nonce) v) → wpv fresh_temporary v Q C.
Proof. intros H s <-. apply H. Qed.
Lemma wpv_sys_write full part v (Q : unit → Volume → Prop) (C : Volume → Prop) :
  Q tt (full v) → (∀ n, C (part n v)) → wpv (sys_write full part) v Q C.
Proof.
  intros HQ HC. apply wpv_bind, wpv_next_fault. intros [|n|n].
  - by apply wpv_change.
  - apply wpv_bind, wpv_change. by apply wpv_fail.
  - apply wpv_bind, wpv_change. by apply wpv_crash.
Qed.
Lemma wpv_guard_or b e v (Q : unit → Volume → Prop) (C : Volume → Prop) :
  (b = true → Q tt v) → C v → wpv (guard_or b e) v Q C.
Proof. intros HQ HC. destruct b; [by apply wpv_ret, HQ|by apply wpv_fail]. Qed.
Lemma wpv_of_result {A} (r : Result A CheckpointError) v (Q : A → Volume → Prop) (C : Volume → Prop) :
  (∀ a, r = Ok a → Q a v) → C v → wpv (of_result r) v Q C.
Proof. intros HQ HC. destruct r; [by apply wpv_ret, HQ|by apply wpv_fail]. Qed.
Lemma wpv_for_each {A} (f : A → DM unit) l v (I : list A → Volume → Prop) (C : Volume → Prop) :
  I [] v →
  (∀ done x rest v', l = done ++ x :: rest → I done v' →
     wpv (f x) v' (λ _ v'', I (done ++ [x]) v'') C)%list →
  wpv (for_each f l) v (λ _, I l) C.
Proof.
  intros H0 Hstep. cut (∀ rest acc v', l = (acc ++ rest)%list → I acc v' → wpv (for_each f rest) v' (λ _, I l) C).
  { intros H. by apply (H l []). }
  clear H0 v. intros rest. induction rest as [|x rest IH]; intros acc v' Hl HI; cbn [for_each].
  - apply wpv_ret. by rewrite Hl, app_nil_r.
  - apply wpv_bind. eapply wpv_mono; [by apply (Hstep acc x rest)| |done].
    intros [] v'' HI'. apply (IH (acc ++ [x])%list); [by rewrite <- (assoc_L app)|done].
Qed.

(** * Computations that leave the volume alone *)

Definition steady {A} (m : DM A) : Prop := ∀ v, wpv m v (λ _ v', v' = v) (λ v', v' = v).
Lemma wpv_steady {A} (m : DM A) v (Q : A → Volume → Prop) (C : Volume → Prop) :
  steady m → (∀ a, Q a v) → C v → wpv m v Q C.
Proof. intros Hm HQ HC. eapply wpv_mono; [apply Hm|by intros a v' ->|by intros v' ->]. Qed.
Lemma steady_ret {A} (a : A) : steady (mret a).
Proof. intros v. by apply wpv_ret. Qed.
Lemma steady_bind {A B} (m : DM A) (f : A → DM B) : steady m → (∀ a, steady (f a)) → steady (m ≫= f).
Proof. intros Hm Hf v. apply wpv_bind. apply wpv_steady; [done| |done]. intros a. apply Hf. Qed.
Lemma steady_fail {A} e : steady (fail (A := A) e).
Proof. intros v. by apply wpv_fail. Qed.
Lemma steady_crash {A} : steady (crash (A := A)).
Proof. intros v. by apply wpv_crash. Qed.
Lemma steady_gets {A} (f : Machine → A) : steady (gets f).
Proof. intros v. by apply wpv_gets. Qed.
Lemma steady_next_fault : steady next_fault.
Proof. intros v. by apply wpv_next_fault. Qed.
Lemma steady_fresh_temporary : steady fresh_temporary.
Proof. intros v. by apply wpv_fresh_temporary. Qed.
Lemma steady_change_operation f : steady (change_operation f).
Proof. by intros v s <-. Qed.
Lemma steady_change_protected f : steady (change_protected f).
Proof. by intros v s <-. Qed.
Lemma steady_attempt {A} (m : DM A) : steady m → steady (attempt m).
Proof. intros Hm v. apply wpv_attempt. eapply wpv_mono; [apply Hm|done|]. by intros v' ->. Qed.
Lemma steady_own_operation {A} (m : DM A) : steady m → steady (own_operation m).
Proof. intros Hm v. apply wpv_own_operation, Hm. Qed.
Lemma steady_of_result {A} (r : Result A CheckpointError) : steady (of_result r).
Proof. destruct r; [apply steady_ret|apply steady_fail]. Qed.
Lemma steady_guard_or b e : steady (guard_or b e).
Proof. destruct b; [apply steady_ret|apply steady_fail]. Qed.
Lemma steady_for_each {A} (f : A → DM unit) l : (∀ x, steady (f x)) → steady (for_each f l).
Proof. intros Hf. induction l; cbn; [apply steady_ret|]. by apply steady_bind. Qed.
Lemma steady_fold_each {A B} (f : B → A → DM B) b l : (∀ b x, steady (f b x)) → steady (fold_each f b l).
Proof. intros Hf. revert b. induction l; intros b; cbn; [apply steady_ret|]. by apply steady_bind. Qed.
Lemma steady_map_each {A B} (f : A → DM B) l : (∀ x, steady (f x)) → steady (map_each f l).
Proof.
  intros Hf. induction l; cbn; [apply steady_ret|]. apply steady_bind; [done|]. intros y.
  apply steady_bind; [done|]. intros ys. apply steady_ret.
Qed.
(** Loops that read: what they return *)
Lemma wpv_map_each {A B} (f : A → DM B) l v (P : A → B → Prop) :
  (∀ x, wpv (f x) v (λ y v', v' = v ∧ P x y) (λ v', v' = v)) →
  wpv (map_each f l) v (λ ys v', v' = v ∧ Forall2 P l ys) (λ v', v' = v).
Proof.
  intros Hf. induction l as [|x l IH]; cbn [map_each]; [by apply wpv_ret|].
  apply wpv_bind. eapply wpv_mono; [apply Hf| |done]. intros y v' [-> Hy].
  apply wpv_bind. eapply wpv_mono; [apply IH| |done]. intros ys v' [-> Hys].
  apply wpv_ret. split; [done|]. by constructor.
Qed.
Lemma wpv_fold_each {A B} (f : B → A → DM B) l b v (I : list A → B → Prop) :
  I [] b →
  (∀ done x b, I done b → wpv (f b x) v (λ b' v', v' = v ∧ I (done ++ [x])%list b') (λ v', v' = v)) →
  wpv (fold_each f b l) v (λ b' v', v' = v ∧ I l b') (λ v', v' = v).
Proof.
  intros H0 Hstep.
  cut (∀ rest acc b, I acc b → wpv (fold_each f b rest) v (λ b' v', v' = v ∧ I (acc ++ rest)%list b') (λ v', v' = v)).
  { intros H. by apply (H l []). }
  clear H0 b. intros rest. induction rest as [|x rest IH]; intros acc b HI; cbn [fold_each].
  - apply wpv_ret. by rewrite app_nil_r.
  - apply wpv_bind. eapply wpv_mono; [by apply Hstep| |done]. intros b' v' [-> HI'].
    eapply wpv_mono; [by apply IH| |done]. intros b'' v'. by rewrite <- (assoc_L app).
Qed.
End rules.

(** Walks through a computation that leaves the volume alone. *)
Create HintDb steady.
#[export] Hint Resolve steady_ret steady_fail steady_crash steady_gets steady_next_fault steady_fresh_temporary
  steady_change_operation steady_change_protected steady_of_result steady_guard_or : steady.
Ltac steady_tac :=
  repeat first
    [ progress intros
    | solve [eauto with steady]
    | apply steady_bind
    | apply steady_for_each
    | apply steady_fold_each
    | apply steady_map_each
    | apply steady_attempt
    | apply steady_own_operation
    | match goal with |- steady (match ?x with _ => _ end) => destruct x end
    | match goal with |- steady (let _ := _ in _) => cbv zeta end ].

Section steady_disk.
Context {CD : ContentDigest} {MJ : MetadataJson} {LY : Layout}.
Lemma steady_sys : steady sys.
Proof. unfold sys. steady_tac. Qed.
Lemma steady_check : steady check.
Proof. unfold check. steady_tac. Qed.
#[local] Hint Resolve steady_sys steady_check : steady.
Lemma steady_unchanged_while_read : steady unchanged_while_read.
Proof. unfold unchanged_while_read. steady_tac. Qed.
Lemma steady_op_path p : steady (op_path p).
Proof. unfold op_path. steady_tac. Qed.
Lemma steady_op_capture n : steady (op_capture n).
Proof. unfold op_capture. steady_tac. Qed.
Lemma steady_hash_chunks l : steady (hash_chunks l).
Proof. induction l; cbn [hash_chunks]; steady_tac. Qed.
#[local] Hint Resolve steady_hash_chunks : steady.
Lemma steady_op_hash c : steady (op_hash c).
Proof. unfold op_hash. steady_tac. Qed.
Lemma steady_retain_read t n : steady (retain_read t n).
Proof. unfold retain_read. steady_tac. Qed.
#[local] Hint Resolve steady_retain_read : steady.
Lemma steady_retain_state t n st : steady (retain_state t n st).
Proof. unfold retain_state. steady_tac. Qed.
Lemma steady_validate_metadata d : steady (validate_metadata d).
Proof. unfold validate_metadata. steady_tac. Qed.
#[local] Hint Resolve steady_validate_metadata steady_op_path : steady.
Lemma steady_read_metadata root dir name : steady (read_metadata root dir name).
Proof. unfold read_metadata. steady_tac. Qed.
Lemma steady_serialize_metadata d : steady (serialize_metadata d).
Proof. unfold serialize_metadata. steady_tac. Qed.
End steady_disk.
#[export] Hint Resolve steady_sys steady_check steady_unchanged_while_read steady_op_path steady_op_capture
  steady_op_hash steady_retain_read steady_retain_state steady_validate_metadata steady_read_metadata
  steady_serialize_metadata : steady.
