(* ===== verification/CheckpointStore.v ===== *)
(** The checkpoint store ([rw-store/src/checkpoint.rs], [checkpoint/capture.rs],
    [checkpoint/rewind.rs], [checkpoint/blob_store.rs],
    [checkpoint/blob_store/write.rs], [checkpoint/blob_store/ledger.rs],
    [checkpoint/blob_store/reconcile.rs]): definitions.

    Before a tool changes files, [checkpoint_known] saves what they hold: their
    contents as shared blobs, and per turn a manifest of paths.  A rewind to a
    turn restores the manifests of the later turns, newest first, from a
    transaction on disk that survives the process. *)
From Stdlib Require Import Ascii.
From S2P Require Import Prelude Text Ir Decimal JournalCatalog BashSafety PermissionRules PermissionIdentity CheckpointDisk.

Definition MANIFEST_VERSION : Z := 1.
Definition REWIND_TRANSACTION_VERSION : Z := 1.
Definition RETAINED_BYTES : Z := 960 * 1024 * 1024.
Definition MAX_BLOBS : Z := 65536.
Definition MAX_NAMESPACES : Z := 1024.
Definition MAX_SESSION_ID_BYTES : Z := 128.
Definition NAMESPACE_DIRECTORIES : list string := ["manifests"; "pending"; "rewinds"; "reviews"].

(** * Identities *)

Definition identity_byte (c : ascii) : bool :=
  is_ascii_alphanumeric c || char_in "-_." c.
Definition validate_session_id (value : string) : Result unit CheckpointError :=
  if is_empty value || (MAX_SESSION_ID_BYTES <? str_len value) || String.eqb value "." || String.eqb value ".."
     || negb (str_all identity_byte value)
  then Err InvalidSessionId else Ok tt.
Definition validate_operation_id (value : string) : Result unit CheckpointError :=
  if is_empty value || (128 <? str_len value) || negb (str_all identity_byte value)
  then Err InvalidOperationId else Ok tt.

Definition turn_filename (turn : Z) : string := pad 20 turn ++ ".json".
Definition parse_exact_turn_filename (filename : string) : option Z :=
  if negb (str_len filename =? 25) || negb (String.eqb (str_drop 20 filename) ".json") then None
  else let digits := str_take 20 filename in
       if str_all is_digit digits then parse_uint u64_max digits else None.

(** [char::is_control] of a UTF-8 character *)
Definition is_control_char (ch : string) : bool :=
  match ch with
  | String c "" => let n := nat_of_ascii c in (n <? 32)%nat || (n =? 127)%nat
  | String c (String d "") =>
      (nat_of_ascii c =? 194)%nat && (128 <=? nat_of_ascii d)%nat && (nat_of_ascii d <=? 159)%nat
  | _ => false
  end.
Definition bad_reason (reason : string) : bool :=
  is_empty reason || (1024 <? str_len reason) || existsb is_control_char (utf8_chars reason).
Definition bad_mode (mode : option Z) : bool :=
  match mode with Some m => 4095 <? m | None => false end.

Definition is_normalized (path : string) : Result bool CheckpointError :=
  let? normalized := normalize_relative path in Ok (String.eqb normalized path).

Section store.
Context {CD : ContentDigest} {MJ : MetadataJson} {LY : Layout}.

Definition require_normalized (path : string) (e : CheckpointError) : DM unit :=
  same ← of_result (is_normalized path); guard_or same e.

(** * Manifests *)

Definition validate_state (e : CheckpointError) (state : CheckpointFileState) : DM unit :=
  match state with
  | Present blob _ unix_mode => guard_or (is_lower_blake3 blob && negb (bad_mode unix_mode)) e
  | Unrestorable reason => guard_or (negb (bad_reason reason)) e
  | Absent => mret tt
  end.
Definition validate_manifest (m : CheckpointManifest) (session_id : string) (turn : Z) : DM unit :=
  if negb (manifest_version m =? MANIFEST_VERSION)
  then fail (UnsupportedManifestVersion (manifest_version m)) else
  if negb (String.eqb (manifest_session m) session_id) || negb (manifest_turn m =? turn)
  then fail CorruptManifest else
  _ ← of_result (validate_session_id (manifest_session m));
  own_operation (for_each (λ '(key, state),
    _ ← op_path key;
    _ ← require_normalized key CorruptManifest;
    validate_state CorruptManifest state) (btree_items (manifest_files m))).

Definition manifest_directory (session_id : string) : list string := ["manifests"; session_id].
Definition load_manifest_in (root session_id : string) (turn : Z) : DM CheckpointManifest :=
  _ ← of_result (validate_session_id session_id);
  d ← read_metadata root (manifest_directory session_id) (turn_filename turn);
  match de_manifest d with
  | None => fail CheckpointJson
  | Some m => _ ← validate_manifest m session_id turn; mret m
  end.
Definition write_manifest (root : string) (m : CheckpointManifest) : DM unit :=
  _ ← validate_manifest m (manifest_session m) (manifest_turn m);
  d ← serialize_metadata (ser_manifest m);
  atomic_replace root (manifest_directory (manifest_session m)) (turn_filename (manifest_turn m)) d.
Definition persist_manifest (root session_id : string) (turn : Z)
    (files : gmap string CheckpointFileState) : DM CheckpointManifest :=
  let m := mkManifest MANIFEST_VERSION session_id turn files in
  _ ← write_manifest root m; mret m.

Definition manifest_turns (root session_id : string) : DM (list Z) :=
  v ← gets volume;
  if negb (has_directory v root (manifest_directory session_id)) then mret [] else
  _ ← sys;
  _ ← guard_or (bool_decide (List.filter (λ name, negb (is_private_temporary name))
                               (subdirectories v root (manifest_directory session_id)) = [])) CorruptManifest;
  map_each (λ '(name, _),
    _ ← sys;
    _ ← op_path (metadata_path root (manifest_directory session_id) name);
    _ ← retain_read OfTurn 0;
    of_result (ok_or (parse_exact_turn_filename name) CorruptManifest))
    (List.filter (λ '(name, _), negb (is_private_temporary name))
       (read_dir v root (manifest_directory session_id))).

(** * Transactions of a rewind *)

Definition rewind_filename (session_id : string) : string := session_id ++ ".json".
Definition validate_namespace_directories (root : string) : DM unit :=
  for_each (λ name,
    _ ← sys;
    v ← gets volume;
    guard_or (has_directory v root [name]) (CheckpointIo NotFound)) NAMESPACE_DIRECTORIES.
Definition write_rewind_transaction (root : string) (tx : RewindTransaction) : DM unit :=
  _ ← validate_namespace_directories root;
  d ← serialize_metadata (ser_transaction tx);
  atomic_replace root ["rewinds"] (rewind_filename (handle_session (tx_handle tx))) d.

Definition validate_rewind_report (report : RewindReport) : DM unit :=
  _ ← for_each (λ path, require_normalized path CorruptRewindTransaction)
        (restored report ++ removed report ++ (btree_items (unrestorable report)).*1)%list;
  guard_or (forallb (λ '(_, reason), negb (bad_reason reason)) (btree_items (unrestorable report)))
    CorruptRewindTransaction.

Definition validate_blob (blob : string) (bytes : Z) : DM unit :=
  _ ← guard_or (is_lower_blake3 blob && (bytes <=? MAX_CAPTURE_FILE_BYTES)) CorruptBlob;
  _ ← sys;
  v ← gets volume;
  match blobs v !! blob with
  | None => fail (CheckpointIo NotFound)
  | Some content =>
      _ ← guard_or (str_len content =? bytes) CorruptBlob;
      found ← op_hash content;
      guard_or (String.eqb found blob) CorruptBlob
  end.
Definition read_valid_blob (blob : string) (bytes : Z) : DM string :=
  _ ← guard_or (is_lower_blake3 blob && (bytes <=? MAX_CAPTURE_FILE_BYTES)) CorruptBlob;
  _ ← sys;
  v ← gets volume;
  match blobs v !! blob with
  | None => fail (CheckpointIo NotFound)
  | Some content =>
      _ ← guard_or (str_len content =? bytes) CorruptBlob;
      _ ← sys;
      _ ← guard_or (String.eqb (digest content) blob) CorruptBlob;
      mret content
  end.

Definition validate_rewind_steps (validate_blobs : bool) (steps : list RewindStep) : DM unit :=
  for_each (λ step,
    _ ← op_path (step_path step);
    _ ← retain_state OfStep (capacity (step_path step)) (step_state step);
    _ ← require_normalized (step_path step) CorruptManifest;
    match step_state step with
    | Present blob bytes unix_mode =>
        _ ← guard_or (negb (bad_mode unix_mode)) CorruptRewindTransaction;
        if validate_blobs then validate_blob blob bytes
        else guard_or (is_lower_blake3 blob) CorruptRewindTransaction
    | Unrestorable reason => guard_or (negb (bad_reason reason)) CorruptRewindTransaction
    | Absent => mret tt
    end) steps.

Definition load_rewind_transaction (root session_id : string) : DM RewindTransaction :=
  _ ← of_result (validate_session_id session_id);
  d ← read_metadata root ["rewinds"] (rewind_filename session_id);
  match de_transaction d with
  | None => fail CheckpointJson
  | Some tx =>
      _ ← guard_or ((tx_version tx =? REWIND_TRANSACTION_VERSION)
                    && String.eqb (handle_session (tx_handle tx)) session_id
                    && (tx_next tx <=? length (tx_steps tx))%nat
                    && negb (bool_decide (tx_phase tx = WorkspaceCommitted)
                             && negb (tx_next tx =? length (tx_steps tx))%nat))
            CorruptRewindTransaction;
      _ ← of_result (validate_operation_id (operation_id (tx_handle tx)));
      _ ← validate_rewind_steps false (tx_steps tx);
      _ ← (if bool_decide (tx_phase tx = Applying) then
             for_each (λ step, match step_state step with
                               | Present blob bytes _ => validate_blob blob bytes
                               | _ => mret tt
                               end) (drop (tx_next tx) (tx_steps tx))
           else mret tt);
      _ ← validate_rewind_report (tx_report tx);
      _ ← for_each (λ path, _ ← op_path path; retain_read OfString (capacity path))
            (restored (tx_report tx) ++ removed (tx_report tx))%list;
      _ ← for_each (λ '(path, reason), _ ← op_path path;
                      retain_read OfStringPair (sat_add (capacity path) (capacity reason)))
            (btree_items (unrestorable (tx_report tx)));
      mret tx
  end.

(** * Restoring one path *)

Definition restore_state (key : string) (state : CheckpointFileState) (report : RewindReport) : DM RewindReport :=
  _ ← require_normalized key CorruptManifest;
  match state with
  | Present blob bytes unix_mode =>
      content ← read_valid_blob blob bytes;
      _ ← restore_regular_confined key content unix_mode;
      mret (mkReport (restored report ++ [key])%list (removed report) (delete key (unrestorable report)))
  | Absent =>
      _ ← remove_file_or_symlink_confined key;
      mret (mkReport (restored report) (removed report ++ [key])%list (delete key (unrestorable report)))
  | Unrestorable reason =>
      mret (mkReport (restored report) (removed report) (<[key := reason]> (unrestorable report)))
  end.

(** * The shared blobs and their quota *)

Definition edit_quota (f : Quota → Quota) (v : Volume) : Volume :=
  mkVolume (workspace v) (namespaces v) (blobs v) (staging v) (f <$> quota v).
Definition edit_blobs (f : gmap string string → gmap string string) (v : Volume) : Volume :=
  mkVolume (workspace v) (namespaces v) (f (blobs v)) (staging v) (quota v).
Definition edit_staging (f : list string → list string) (v : Volume) : Volume :=
  mkVolume (workspace v) (namespaces v) (blobs v) (f (staging v)) (quota v).
Definition set_dirty (b : bool) (q : Quota) : Quota := mkQuota b (q_staged q) (q_blobs q) (q_namespaces q).
Definition set_staged (n : Z) (q : Quota) : Quota := mkQuota (q_dirty q) n (q_blobs q) (q_namespaces q).
Definition set_rows (rows : gmap string Z) (q : Quota) : Quota :=
  mkQuota (q_dirty q) (q_staged q) rows (q_namespaces q).
Definition add_namespace (root : string) (q : Quota) : Quota :=
  mkQuota (q_dirty q) (q_staged q) (q_blobs q) (root :: q_namespaces q).
(** The trigger totals of the ledger *)
Definition used_bytes (q : Quota) : Z := sum_Z (map_to_list (q_blobs q)).*2.
Definition blob_count (q : Quota) : Z := Z.of_nat (base.size (q_blobs q)).

Definition get_quota : DM Quota :=
  v ← gets volume;
  match quota v with Some q => mret q | None => fail CorruptBlobQuota end.

(** [lock_references]; waiting for another writer changes nothing here. *)
Definition lock_references : DM unit :=
  _ ← sys; _ ← sys; _ ← check; sys.

Definition open_ledger : DM unit :=
  _ ← sys;
  v ← gets volume;
  _ ← match quota v with
      | Some _ => mret tt
      | None =>
          _ ← sys;
          if bool_decide (blobs v = ∅) then
            _ ← sys;
            change (λ v, mkVolume (workspace v) (namespaces v) (blobs v) (staging v)
                           (Some (mkQuota true 0 ∅ [])))
          else fail CorruptBlobQuota
      end;
  _ ← sys;
  change_protected (λ _, ∅).

Definition register (root : string) : DM unit :=
  _ ← sys;
  _ ← guard_or (str_len root <=? 4096) CorruptBlobQuota;
  _ ← sys;
  q ← get_quota;
  if mem root (q_namespaces q) then validate_namespace_directories root else
  _ ← guard_or (Z.of_nat (length (q_namespaces q)) <? MAX_NAMESPACES) BlobQuotaExceeded;
  _ ← for_each (λ name, create_directory_durable root [name]) NAMESPACE_DIRECTORIES;
  _ ← validate_namespace_directories root;
  _ ← sys;
  change (edit_quota (add_namespace root)).

Definition reference_writer (root : string) : DM unit :=
  _ ← lock_references; _ ← open_ledger; register root.

(** Files left by a process that died while it published *)
Definition remove_private_file (root : string) (dir : list string) (name : string) : DM unit :=
  _ ← op_path (metadata_path root dir name);
  if is_private_temporary name then
    _ ← sys; _ ← change (edit_directory root dir (delete name)); sys
  else mret tt.
Definition remove_directory (root : string) (dir : list string) (v : Volume) : Volume :=
  mkVolume (workspace v)
    (<[root := delete dir (default ∅ (namespaces v !! root))]> (namespaces v))
    (blobs v) (staging v) (quota v).
Definition remove_private_directory (root : string) (dir : list string) (name : string) : DM unit :=
  _ ← op_path (metadata_path root dir name);
  if is_private_temporary name then
    let child := (dir ++ [name])%list in
    v ← gets volume;
    _ ← guard_or (bool_decide (subdirectories v root child = [])) CorruptBlobQuota;
    _ ← for_each (λ '(entry, _),
          _ ← op_path (metadata_path root child entry);
          guard_or (bool_decide (is_Some (parse_exact_turn_filename entry)) || is_private_temporary entry)
            CorruptManifest) (read_dir v root child);
    _ ← for_each (λ '(entry, _), _ ← sys; change (edit_directory root child (delete entry)))
          (read_dir v root child);
    _ ← sys;
    _ ← change (remove_directory root child);
    sys
  else mret tt.
Definition cleanup_unpublished (root : string) (dir : list string) : DM unit :=
  _ ← sys;
  v ← gets volume;
  _ ← for_each (λ '(name, _), remove_private_file root dir name) (read_dir v root dir);
  for_each (remove_private_directory root dir) (subdirectories v root dir).
Definition clean_unpublished : DM unit :=
  q ← get_quota;
  for_each (λ root,
    _ ← validate_namespace_directories root;
    for_each (λ kind,
      _ ← cleanup_unpublished root [kind];
      v ← gets volume;
      _ ← guard_or (bool_decide (read_dir v root [kind] = [])) CorruptBlobQuota;
      for_each (λ name,
        _ ← op_path (metadata_path root [kind] name);
        cleanup_unpublished root [kind; name]) (subdirectories v root [kind])) ["manifests"; "pending"])
    (q_namespaces q).

(** * Reconciling the ledger with the references *)

Definition reference (live : gmap string Z) (state : CheckpointFileState) : DM (gmap string Z) :=
  _ ← op_path "checkpoint reference";
  match state with
  | Present blob bytes unix_mode =>
      _ ← guard_or (is_lower_blake3 blob && (bytes <=? MAX_CAPTURE_FILE_BYTES) && negb (bad_mode unix_mode))
            CorruptBlob;
      _ ← sys;
      match live !! blob with
      | Some old => _ ← guard_or (old =? bytes) CorruptBlob; _ ← sys; mret live
      | None => _ ← sys; mret (<[blob := bytes]> live)
      end
  | _ => mret live
  end.

Definition collect_manifest (root session : string) (live : gmap string Z) (name : string)
    : DM (gmap string Z) :=
  _ ← sys;
  _ ← op_path (metadata_path root ["manifests"; session] name);
  d ← read_metadata root ["manifests"; session] name;
  match de_manifest d with
  | None => fail CheckpointJson
  | Some m =>
      turn ← of_result (ok_or (parse_exact_turn_filename name) CorruptManifest);
      let identity := if is_private_temporary session then manifest_session m else session in
      _ ← validate_manifest m identity turn;
      fold_each (λ live '(_, state), reference live state) live (btree_items (manifest_files m))
  end.
Definition collect_rewind (root : string) (live : gmap string Z) (name : string) : DM (gmap string Z) :=
  if is_private_temporary name then mret live else
  _ ← sys;
  _ ← op_path (metadata_path root ["rewinds"] name);
  d ← read_metadata root ["rewinds"] name;
  match de_transaction d with
  | None => fail CheckpointJson
  | Some tx =>
      _ ← guard_or (bool_decide (strip_suffix ".json" name = Some (handle_session (tx_handle tx)))
                    && (tx_version tx =? REWIND_TRANSACTION_VERSION)
                    && (tx_next tx <=? length (tx_steps tx))%nat
                    && negb (bool_decide (tx_phase tx = WorkspaceCommitted)
                             && negb (tx_next tx =? length (tx_steps tx))%nat))
            CorruptRewindTransaction;
      _ ← of_result (validate_session_id (handle_session (tx_handle tx)));
      _ ← of_result (validate_operation_id (operation_id (tx_handle tx)));
      _ ← validate_rewind_report (tx_report tx);
      fold_each (λ live step,
        _ ← require_normalized (step_path step) CorruptRewindTransaction;
        reference live (step_state step)) live (tx_steps tx)
  end.
Definition collect_namespace (live : gmap string Z) (root : string) : DM (gmap string Z) :=
  _ ← sys;
  _ ← validate_namespace_directories root;
  v ← gets volume;
  _ ← guard_or (bool_decide (read_dir v root ["manifests"] = [])) CorruptBlobQuota;
  live ← fold_each (λ live session,
           _ ← sys;
           _ ← guard_or (bool_decide (subdirectories v root ["manifests"; session] = [])) CorruptBlobQuota;
           fold_each (λ live '(name, _), collect_manifest root session live name) live
             (read_dir v root ["manifests"; session])) live (subdirectories v root ["manifests"]);
  _ ← guard_or (bool_decide (subdirectories v root ["rewinds"] = [])) CorruptBlobQuota;
  fold_each (λ live '(name, _), collect_rewind root live name) live (read_dir v root ["rewinds"]).
(** [ORDER BY path] *)
Definition collect_references : DM (gmap string Z) :=
  q ← get_quota;
  fold_each collect_namespace ∅ (stable_sort String.leb (q_namespaces q)).

Record Observed : Type := mkObserved { seen : gmap string Z; seen_count : Z; seen_total : Z }.
Definition observe_blob (o : Observed) (entry : string * string) : DM Observed :=
  let '(name, content) := entry in
  let bytes := str_len content in
  _ ← sys;
  _ ← guard_or (is_lower_blake3 name && (bytes <=? MAX_CAPTURE_FILE_BYTES)) CorruptBlob;
  _ ← op_path name;
  let count := seen_count o + 1 in
  let total := seen_total o + bytes in
  _ ← guard_or ((total <=? u64_max) && (count <=? MAX_BLOBS) && (total <=? RETAINED_BYTES)) CorruptBlobQuota;
  found ← op_hash content;
  _ ← guard_or (String.eqb found name) CorruptBlob;
  _ ← sys;
  mret (mkObserved (<[name := bytes]> (seen o)) count total).
Definition observe_blobs : DM (gmap string Z) :=
  v ← gets volume;
  o ← fold_each observe_blob (mkObserved ∅ 0 0) (map_to_list (blobs v));
  mret (seen o).

Definition is_unreferenced (live : gmap string Z) (keep : gset string) (name : string) : bool :=
  bool_decide (live !! name = None) && bool_decide (name ∉ keep).
Definition remove_unreferenced (live observed : gmap string Z) : DM (gmap string Z) :=
  keep ← gets protected;
  _ ← for_each (λ '(name, _), _ ← check; _ ← sys; _ ← change (edit_blobs (delete name)); sys)
        (List.filter (λ '(name, _), is_unreferenced live keep name) (map_to_list observed));
  _ ← sys;
  mret (filter (λ '(name, _), is_unreferenced live keep name = false) observed).

Definition clear_staging : DM unit :=
  _ ← sys;
  v ← gets volume;
  _ ← guard_or (Z.of_nat (length (staging v)) <=? 1) CorruptBlobQuota;
  _ ← for_each (λ content, _ ← op_path "capture-"; guard_or (str_len content <=? MAX_CAPTURE_FILE_BYTES) CorruptBlobQuota)
        (staging v);
  _ ← for_each (λ _, _ ← sys; change (edit_staging tail)) (staging v);
  sys.

Definition reconcile (abandoned : bool) : DM unit :=
  _ ← sys;
  live ← collect_references;
  observed ← observe_blobs;
  _ ← guard_or (forallb (λ '(name, bytes), bool_decide (observed !! name = Some bytes)) (map_to_list live))
        CorruptBlob;
  _ ← (if abandoned then clear_staging else mret tt);
  observed ← remove_unreferenced live observed;
  _ ← sys;
  _ ← change (edit_quota (set_rows observed));
  if abandoned then _ ← sys; change (edit_quota (set_staged 0)) else mret tt.

Definition begin (root : string) : DM unit :=
  _ ← reference_writer root;
  _ ← sys;
  q ← get_quota;
  _ ← sys;
  _ ← change (edit_quota (set_dirty true));
  if q_dirty q then _ ← clean_unpublished; reconcile true else mret tt.
Definition finish_blobs : DM unit :=
  _ ← sys; change (edit_quota (λ q, set_staged 0 (set_dirty false q))).

Definition fits (bytes : Z) : DM bool :=
  _ ← sys;
  q ← get_quota;
  mret ((bytes <=? sat_sub RETAINED_BYTES (used_bytes q)) && (blob_count q <? MAX_BLOBS)).
Definition admit_blob (bytes : Z) : DM unit :=
  fit ← fits bytes;
  _ ← (if fit : bool then mret tt else reconcile false);
  fit ← fits bytes;
  guard_or fit BlobQuotaExceeded.

(** The copy of a file into its capture file, in chunks *)
Fixpoint stage_chunks (content : string) (copied : Z) (sizes : list Z) : DM unit :=
  _ ← check;
  _ ← sys;
  match sizes with
  | [] => mret tt
  | n :: rest =>
      _ ← guard_or (copied + n <=? MAX_CAPTURE_FILE_BYTES) CaptureFileLimit;
      _ ← op_capture n;
      _ ← sys_write (edit_staging (λ l, str_take (Z.to_nat (copied + n)) content :: tail l))
            (λ k, edit_staging (λ l, str_take (Z.to_nat copied + Nat.min k (Z.to_nat n)) content :: tail l));
      stage_chunks content (copied + n) rest
  end.
Definition publish_blob (name content : string) (bytes : Z) : DM unit :=
  v ← gets volume;
  match blobs v !! name with
  | Some existing =>
      _ ← sys;
      _ ← guard_or (str_len existing =? bytes) CorruptBlob;
      found ← op_hash existing;
      _ ← guard_or (String.eqb found name) CorruptBlob;
      change (edit_staging tail)
  | None =>
      _ ← admit_blob bytes;
      _ ← sys; _ ← sys; _ ← sys; _ ← sys;
      _ ← change (λ v, edit_staging tail (edit_blobs <[name := content]> v));
      sys
  end.
(** [BlobWriteGuard::capture]; the capture file is removed when it fails. *)
Definition capture_blob (content : string) (unix_mode : option Z) : DM CheckpointFileState :=
  _ ← sys;
  _ ← change (edit_quota (set_staged MAX_CAPTURE_FILE_BYTES));
  _ ← sys;
  before ← gets (λ s, staging (volume s));
  _ ← change (edit_staging (λ l, "" :: l));
  let bytes := str_len content in
  let name := digest content in
  r ← attempt (
    _ ← stage_chunks content 0 (chunk_sizes bytes);
    publish_blob name content bytes);
  match r with
  | Err e => _ ← change (edit_staging (λ _, before)); fail e
  | Ok _ =>
      _ ← sys;
      _ ← sys;
      _ ← change (edit_quota (λ q, match q_blobs q !! name with
                                   | Some _ => q
                                   | None => set_rows (<[name := bytes]> (q_blobs q)) q
                                   end));
      _ ← sys;
      _ ← change_protected (λ keep, {[name]} ∪ keep);
      _ ← sys;
      _ ← change (edit_quota (set_staged 0));
      mret (Present name bytes unix_mode)
  end.

(** * Capturing the files a tool is about to change *)

Definition capture (key : string) : DM CheckpointFileState :=
  file ← capture_regular_confined key;
  match file with
  | None => mret Absent
  | Some (content, mode) =>
      _ ← sys;
      _ ← guard_or (str_len content <=? MAX_CAPTURE_FILE_BYTES) CaptureFileLimit;
      state ← capture_blob content (Some mode);
      _ ← unchanged_while_read;
      mret state
  end.
Definition capture_path (files : gmap string CheckpointFileState) (relative : string)
    : DM (gmap string CheckpointFileState) :=
  key ← of_result (normalize_relative relative);
  _ ← op_path key;
  match files !! key with
  | Some _ => mret files
  | None => state ← capture key; mret (<[key := state]> files)
  end.
Definition checkpoint_known (root session_id : string) (turn : Z) (relative_paths : list string)
    : DM CheckpointManifest :=
  _ ← of_result (validate_session_id session_id);
  _ ← begin root;
  v ← gets volume;
  files ← match lookup_doc v root (manifest_directory session_id) (turn_filename turn) with
          | Some _ => m ← load_manifest_in root session_id turn; mret (manifest_files m)
          | None => mret ∅
          end;
  files ← fold_each capture_path files relative_paths;
  m ← persist_manifest root session_id turn files;
  _ ← finish_blobs;
  mret m.

(** * Rewinding *)

Definition build_rewind_steps (root session_id : string) (target_turn : Z) : DM (list RewindStep) :=
  turns ← manifest_turns root session_id;
  let turns := stable_sort Z.geb (List.filter (λ turn, target_turn <? turn) turns) in
  fold_each (λ steps turn,
    m ← load_manifest_in root session_id turn;
    fold_each (λ steps '(path, state),
      _ ← op_path path;
      _ ← retain_state OfStep (capacity path) state;
      mret (steps ++ [mkStep path state])%list) steps (btree_items (manifest_files m))) [] turns.

Definition prepare_rewind (root session_id : string) (target_turn : Z) (op : string) : DM RewindHandle :=
  own_operation (
    _ ← reference_writer root;
    _ ← of_result (validate_session_id session_id);
    _ ← of_result (validate_operation_id op);
    v ← gets volume;
    match lookup_doc v root ["rewinds"] (rewind_filename session_id) with
    | Some _ =>
        existing ← load_rewind_transaction root session_id;
        if String.eqb (operation_id (tx_handle existing)) op && (tx_target existing =? target_turn)
        then mret (tx_handle existing) else fail RewindPending
    | None =>
        steps ← build_rewind_steps root session_id target_turn;
        _ ← validate_rewind_steps true steps;
        let handle := mkHandle session_id op in
        _ ← write_rewind_transaction root
              (mkTransaction REWIND_TRANSACTION_VERSION handle target_turn steps 0 empty_report Applying);
        mret handle
    end).

Definition advance_transaction (tx : RewindTransaction) (report : RewindReport) : RewindTransaction :=
  mkTransaction (tx_version tx) (tx_handle tx) (tx_target tx) (tx_steps tx) (S (tx_next tx)) report (tx_phase tx).
Definition commit_transaction (tx : RewindTransaction) : RewindTransaction :=
  mkTransaction (tx_version tx) (tx_handle tx) (tx_target tx) (tx_steps tx) (tx_next tx) (tx_report tx)
    WorkspaceCommitted.
Fixpoint apply_steps (root : string) (tx : RewindTransaction) (todo : list RewindStep) : DM RewindTransaction :=
  match todo with
  | [] => mret tx
  | step :: rest =>
      _ ← retain_read OfString (capacity (step_path step));
      report ← restore_state (step_path step) (step_state step) (tx_report tx);
      let tx := advance_transaction tx report in
      _ ← write_rewind_transaction root tx;
      apply_steps root tx rest
  end.
Definition apply_rewind_in (root : string) (handle : RewindHandle) : DM RewindCommit :=
  _ ← lock_references;
  tx ← load_rewind_transaction root (handle_session handle);
  _ ← guard_or (bool_decide (tx_handle tx = handle)) RewindIdentityMismatch;
  tx ← (if bool_decide (tx_phase tx = Applying) then
          tx ← apply_steps root tx (drop (tx_next tx) (tx_steps tx));
          let tx := commit_transaction tx in
          _ ← write_rewind_transaction root tx;
          mret tx
        else mret tx);
  mret (mkCommit (tx_handle tx) (tx_target tx) (tx_report tx)).
Definition apply_rewind (root : string) (handle : RewindHandle) : DM RewindCommit :=
  own_operation (apply_rewind_in root handle).

Definition discard_prepared_rewind (root : string) (handle : RewindHandle) (target_turn : Z) : DM unit :=
  own_operation (
    _ ← lock_references;
    _ ← sys;
    v ← gets volume;
    match lookup_doc v root ["rewinds"] (rewind_filename (handle_session handle)) with
    | None => mret tt
    | Some _ =>
        tx ← load_rewind_transaction root (handle_session handle);
        _ ← guard_or (bool_decide (tx_handle tx = handle) && (tx_target tx =? target_turn)) RewindIdentityMismatch;
        _ ← guard_or (bool_decide (tx_phase tx = Applying) && (tx_next tx =? 0)%nat
                      && bool_decide (tx_report tx = empty_report)) RewindCannotDiscard;
        remove_durable root ["rewinds"] (rewind_filename (handle_session handle))
    end).
Definition acknowledge_rewind (root : string) (handle : RewindHandle) : DM unit :=
  own_operation (
    _ ← lock_references;
    tx ← load_rewind_transaction root (handle_session handle);
    _ ← guard_or (bool_decide (tx_handle tx = handle)) RewindIdentityMismatch;
    _ ← guard_or (bool_decide (tx_phase tx = WorkspaceCommitted)) RewindNotCommitted;
    remove_durable root ["rewinds"] (rewind_filename (handle_session handle))).

Definition handle_le (x y : RewindHandle) : bool := String.leb (handle_session x) (handle_session y).
(** [read_namespace_directory]: whether there is a directory to list *)
Definition read_namespace_directory (root : string) : DM bool :=
  r ← attempt (validate_namespace_directories root);
  match r with
  | Ok _ => _ ← sys; mret true
  | Err (CheckpointIo NotFound) =>
      _ ← check;
      _ ← sys;
      v ← gets volume;
      match quota v with
      | None => if bool_decide (blobs v = ∅) then mret false else fail CorruptBlobQuota
      | Some q =>
          if mem root (q_namespaces q)
          then _ ← validate_namespace_directories root; _ ← sys; mret true
          else mret false
      end
  | Err e => fail e
  end.
Definition enumerate_rewinds (root : string) : DM (list RewindHandle) :=
  listed ← read_namespace_directory root;
  if negb listed then mret [] else
  v ← gets volume;
  _ ← guard_or (bool_decide (List.filter (λ name, negb (is_private_temporary name))
                               (subdirectories v root ["rewinds"]) = [])) CorruptRewindTransaction;
  handles ← map_each (λ '(name, _),
      _ ← sys;
      session_id ← of_result (ok_or (strip_suffix ".json" name) CorruptRewindTransaction);
      _ ← of_result (validate_session_id session_id);
      tx ← load_rewind_transaction root session_id;
      let h := tx_handle tx in
      _ ← retain_read OfHandle (sat_add (capacity (handle_session h)) (capacity (operation_id h)));
      mret h)
    (List.filter (λ '(name, _), negb (is_private_temporary name)) (read_dir v root ["rewinds"]));
  mret (stable_sort handle_le handles).
Definition recover_rewinds (root : string) : DM (list RewindCommit) :=
  own_operation (
    handles ← enumerate_rewinds root;
    map_each (λ handle,
      commit ← apply_rewind_in root handle;
      _ ← retain_read OfCommit (sat_add (capacity (handle_session handle)) (capacity (operation_id handle)));
      mret commit) handles).
End store.
