(* ===== verification/CheckpointRewind.v ===== *)
(** Rewinding survives every failure and every death of the process: theorems
    about [CheckpointStore].

    The workspace of an unfinished rewind is described by the transaction on
    disk ([half_rewound]): the steps before [tx_next] are done, the next one may
    be, and nothing else has changed but missing directories. *)
From Stdlib Require Import Ascii.
From S2P Require Import Prelude Text Ir Decimal JournalCatalog BashSafety PermissionRules PermissionIdentity CheckpointDisk CheckpointStore.

(** * Names *)

Lemma split_once_app c s t :
  str_all (λ d, negb (Ascii.eqb d c)) s = true → split_once c (s ++ String c t)%string = Some (s, t).
Proof.
  induction s as [|d s IH]; intros Hs.
  - change (split_once c (String c t) = Some ("", t)%string). cbn. by rewrite Ascii.eqb_refl.
  - cbn in Hs. apply andb_true_iff in Hs as [Hd Hs].
    change (split_once c (String d (s ++ String c t)) = Some (String d s, t)). cbn [split_once].
    apply negb_true_iff in Hd. by rewrite Hd, IH.
Qed.
Lemma digit_is_digit d : 0 ≤ d ≤ 9 → is_digit (digit d) = true.
Proof. intros Hd. unfold is_digit. by rewrite digit_value_digit. Qed.
Lemma digits_all w n : str_all is_digit (digits w n) = true.
Proof.
  induction w as [|w IH]; [done|]. cbn [digits str_all]. rewrite digit_is_digit by apply mod10_digit. exact IH.
Qed.
Lemma digit_no_dash c : is_digit c = true → negb (Ascii.eqb c "-") = true.
Proof. destruct (Ascii.eqb_spec c "-"%char) as [->|]; [by intros [=]|done]. Qed.
Lemma dec_name n : 0 ≤ n < 2 ^ 64 → str_all is_digit (dec n) = true ∧ is_empty (dec n) = false.
Proof.
  intros Hn. destruct (dec_digits n) as (k & _ & _ & _ & ->).
  { change (10 ^ Z.of_nat DEC_FUEL) with 100000000000000000000. lia. }
  split; [apply digits_all|done].
Qed.
Lemma temporary_private pid nonce : is_private_temporary (temporary_name pid nonce) = true.
Proof.
  unfold is_private_temporary, temporary_name.
  destruct (dec_name (pid mod 2 ^ 32)) as [Hp1 Hp2]; [pose proof (Z.mod_pos_bound pid (2 ^ 32)); lia|].
  destruct (dec_name (nonce mod 2 ^ 64)) as [Hn1 Hn2]; [apply Z.mod_pos_bound; lia|].
  rewrite strip_prefix_app. cbn [mbind option_bind]. rewrite <- (str_app_assoc "-"), <- str_app_assoc, strip_suffix_app.
  change ("-" ++ dec (nonce mod 2 ^ 64))%string with (String "-" (dec (nonce mod 2 ^ 64))).
  rewrite (split_once_app "-"); [by rewrite Hp1, Hp2, Hn1, Hn2|].
  by eapply str_all_impl; [apply digit_no_dash|].
Qed.
(** Published files are not temporary files. *)
Lemma json_not_private s : is_private_temporary (s ++ ".json")%string = false.
Proof.
  unfold is_private_temporary, strip_prefix. destruct (starts_with ".rw-" (s ++ ".json")) eqn:E1; [|done].
  apply starts_with_spec in E1 as [body Hb]. rewrite Hb, str_drop_app. cbn [mbind option_bind].
  destruct (strip_suffix ".tmp" body) as [x|] eqn:E2; [|done]. exfalso. apply strip_suffix_inv in E2 as ->.
  apply (f_equal String.rev) in Hb. rewrite <- str_app_assoc, !str_rev_app in Hb. discriminate Hb.
Qed.

(** A parsed turn names its file. *)
Lemma digit_of_value c d : digit_value c = Some d → digit d = c.
Proof.
  unfold digit_value, digit. destruct (Z.leb_spec 48 (Z.of_nat (nat_of_ascii c))),
    (Z.leb_spec (Z.of_nat (nat_of_ascii c)) 57); try done. intros [= <-].
  replace (48 + Z.to_nat (Z.of_nat (nat_of_ascii c) - 48))%nat with (nat_of_ascii c) by lia.
  apply ascii_nat_embedding.
Qed.
Lemma parse_digits_inv max s acc n :
  parse_digits max acc s = Some n →
  ∃ m, 0 ≤ m < 10 ^ Z.of_nat (String.length s) ∧ n = acc * 10 ^ Z.of_nat (String.length s) + m ∧
    s = digits (String.length s) m.
Proof.
  revert acc. induction s as [|c s IH]; intros acc; cbn [parse_digits String.length].
  { intros [= <-]. exists 0. split_and!; [lia|lia|lia|done]. }
  destruct (digit_value c) as [d|] eqn:E; [|done]. case_match; [|done]. intros Hp.
  destruct (IH _ Hp) as (m & Hm & -> & Hs). pose proof (digit_value_range c d E).
  pose proof (pow10_pos (String.length s)). rewrite pow10_succ.
  exists (d * 10 ^ Z.of_nat (String.length s) + m). split_and!; [nia|nia|lia|].
  cbn [digits]. f_equal.
  - rewrite Z.div_add_l, (Z.div_small m), Z.add_0_r, Z.mod_small by lia. symmetry. by apply digit_of_value.
  - rewrite Hs at 1. rewrite <- (digits_mod _ (d * _ + m)). f_equal.
    rewrite Z.add_comm, Z.mod_add, Z.mod_small by lia. done.
Qed.
Lemma parse_turn_inv name turn :
  parse_exact_turn_filename name = Some turn → u64 turn ∧ name = turn_filename turn.
Proof.
  unfold parse_exact_turn_filename, turn_filename.
  destruct (Z.eqb_spec (str_len name) 25) as [Hl|]; [|done].
  destruct (String.eqb_spec (str_drop 20 name) ".json") as [Hd|]; [|done]. cbn [negb orb].
  destruct (str_all is_digit (str_take 20 name)) eqn:Ha; [|done]. intros Hp.
  assert (String.length (str_take 20 name) = 20%nat) as Hlen.
  { apply length_str_take. unfold str_len in Hl. lia. }
  assert (u64 turn) as Hu by (apply parse_uint_range in Hp; [done|unfold u64_max; lia]).
  split; [done|]. rewrite pad20 by done. rewrite <- (str_take_drop 20 name) at 1. rewrite Hd. f_equal.
  destruct (str_take 20 name) as [|c s] eqn:E; [done|]. cbn [parse_uint] in Hp.
  destruct (Ascii.eqb_spec c "+"%char) as [->|]; [by cbn in Ha|].
  apply parse_digits_inv in Hp as (m & Hm & -> & Hs). rewrite Hlen in *. by rewrite Z.mul_0_l, Z.add_0_l.
Qed.

(** One step of a computation over the volume *)
Ltac wpv_step :=
  match goal with
  | |- wpv (_ ≫= _) _ _ _ => apply wpv_bind
  | |- wpv (mret _) _ _ _ => apply wpv_ret
  | |- wpv (fail _) _ _ _ => apply wpv_fail
  | |- wpv (gets volume) _ _ _ => apply wpv_gets_volume
  | |- wpv (change _) _ _ _ => apply wpv_change
  | |- wpv (attempt _) _ _ _ => apply wpv_attempt
  | |- wpv (own_operation _) _ _ _ => apply wpv_own_operation
  | |- wpv fresh_temporary _ _ _ => apply wpv_fresh_temporary; intros ? ?
  | |- wpv (guard_or _ _) _ _ _ => apply wpv_guard_or
  | |- wpv (of_result _) _ _ _ => apply wpv_of_result
  | |- wpv sys _ _ _ => apply wpv_steady; [solve [eauto with steady]|intros []|]
  end; cbv beta.
(** A computation that leaves the volume alone, and what it returns *)
Ltac wpv_skip := apply wpv_bind, wpv_steady; [solve [steady_tac]|intros ?|]; cbv beta.

Section store.
Context {CD : ContentDigest} {MJ : MetadataJson} {LY : Layout}.
Implicit Types v : Volume.

(** * Documents *)

Definition docs v (root : string) (dir : list string) : gmap string Doc :=
  default ∅ (space ← namespaces v !! root; space !! dir).
Lemma lookup_doc_docs v root dir name : lookup_doc v root dir name = docs v root dir !! name.
Proof.
  unfold lookup_doc, docs. destruct (namespaces v !! root) as [space|]; cbn; [|by rewrite lookup_empty].
  destruct (space !! dir); cbn; [done|by rewrite lookup_empty].
Qed.
Lemma docs_edit root dir f v r d :
  docs (edit_directory root dir f v) r d = if decide (r = root ∧ d = dir) then f (docs v root dir) else docs v r d.
Proof.
  unfold docs, edit_directory. cbn [namespaces].
  destruct (decide (r = root ∧ d = dir)) as [[-> ->]|Hne].
  - rewrite lookup_insert_eq. cbn. rewrite lookup_insert_eq. cbn. by destruct (namespaces v !! root).
  - destruct (decide (r = root)) as [->|Hr]; [|by rewrite lookup_insert_ne by done].
    rewrite lookup_insert_eq. cbn. rewrite lookup_insert_ne by naive_solver.
    destruct (namespaces v !! root); cbn; [done|by rewrite lookup_empty].
Qed.

(** All that is not a document is the same, and all documents that are not
    temporary files are, up to one. *)
Record docs_kept (root : string) (dir : list string) (name : string) v v' : Prop := mkDocsKept {
  kept_workspace : workspace v' = workspace v;
  kept_blobs : blobs v' = blobs v;
  kept_quota : quota v' = quota v;
  kept_docs : ∀ r d n, is_private_temporary n = false → (r, d, n) ≠ (root, dir, name) →
    docs v' r d !! n = docs v r d !! n;
}.
Lemma docs_kept_refl root dir name v : docs_kept root dir name v v.
Proof. by split. Qed.
Lemma docs_kept_trans root dir name v1 v2 v3 :
  docs_kept root dir name v1 v2 → docs_kept root dir name v2 v3 → docs_kept root dir name v1 v3.
Proof.
  intros [H1 H2 H3 H4] [K1 K2 K3 K4]. split; [congruence..|].
  intros r d n Hn Hne. by rewrite K4, H4.
Qed.
Lemma docs_kept_edit root dir name f v :
  (∀ files n, is_private_temporary n = false → n ≠ name → f files !! n = files !! n) →
  docs_kept root dir name v (edit_directory root dir f v).
Proof.
  intros Hf. split; [done..|]. intros r d n Hn Hne. rewrite docs_edit.
  case_decide as Hd; [|done]. destruct Hd as [-> ->]. apply Hf; [done|congruence].
Qed.
Lemma docs_kept_make_directory root dir name r d v : docs_kept root dir name v (edit_directory r d id v).
Proof.
  split; [done..|]. intros r' d' n Hn Hne. rewrite docs_edit. by case_decide as H; [destruct H as [-> ->]|].
Qed.

(** Nothing of the document [name] has changed yet. *)
Definition docs_before (root : string) (dir : list string) (name : string) v v' : Prop :=
  docs_kept root dir name v v' ∧ docs v' root dir !! name = docs v root dir !! name.

Lemma create_chain_spec root above rest v (dir : list string) name :
  let P := docs_before root dir name v in
  ∀ v1, P v1 → wpv (create_chain root above rest) v1 (λ _, P) P.
Proof.
  intros P. revert above. induction rest as [|part rest IH]; intros above v1 Hv1; cbn [create_chain].
  { by apply wpv_ret. }
  repeat wpv_step. destruct (has_directory v1 root (above ++ [part])); [by wpv_step; apply IH|].
  unfold create_directory. repeat wpv_step; [|done]. apply IH.
  destruct Hv1 as [H1 H2]. split; [by eapply docs_kept_trans, docs_kept_make_directory|].
  rewrite docs_edit. case_decide as H; [|done]. by destruct H as [_ ->].
Qed.
Lemma create_directory_durable_spec root d v (dir : list string) name :
  wpv (create_directory_durable root d) v (λ _, docs_before root dir name v) (docs_before root dir name v).
Proof.
  assert (docs_before root dir name v v) as H0 by (split; [apply docs_kept_refl|done]).
  unfold create_directory_durable. repeat wpv_step; [|done].
  eapply wpv_mono; [by apply (create_chain_spec root [] d v dir name)| |done].
  intros [] v' H. wpv_step; done.
Qed.

(** A replaced document is the old one until it is the new one. *)
Definition docs_half (root : string) (dir : list string) (name : string) (d : Doc) v v' : Prop :=
  docs_kept root dir name v v' ∧
  (docs v' root dir !! name = docs v root dir !! name ∨ docs v' root dir !! name = Some d).
Lemma docs_half_before root dir name d v v' : docs_before root dir name v v' → docs_half root dir name d v v'.
Proof. intros [H1 H2]. split; auto. Qed.
(** Edits of a temporary file *)
Lemma temporary_edit root dir name f pid nonce v :
  is_private_temporary name = false →
  (∀ files n, n ≠ temporary_name pid nonce → f files !! n = files !! n) →
  docs_before root dir name v (edit_directory root dir f v).
Proof.
  intros Hname Hf. pose proof (temporary_private pid nonce) as Ht. split.
  - apply docs_kept_edit. intros files n Hn _. apply Hf. congruence.
  - rewrite docs_edit, decide_True by done. apply Hf. congruence.
Qed.
Lemma docs_before_trans root dir name v1 v2 v3 :
  docs_before root dir name v1 v2 → docs_before root dir name v2 v3 → docs_before root dir name v1 v3.
Proof. intros [H1 H2] [K1 K2]. split; [by eapply docs_kept_trans|congruence]. Qed.
Lemma docs_half_trans root dir name d v1 v2 v3 :
  docs_half root dir name d v1 v2 → docs_before root dir name v2 v3 → docs_half root dir name d v1 v3.
Proof. intros [H1 H2] [K1 K2]. split; [by eapply docs_kept_trans|]. by rewrite K2. Qed.

Lemma atomic_replace_spec root dir name d v :
  is_private_temporary name = false →
  wpv (atomic_replace root dir name d) v
    (λ _ v', docs_kept root dir name v v' ∧ docs v' root dir !! name = Some d)
    (docs_half root dir name d v).
Proof.
  intros Hname. unfold atomic_replace. wpv_step.
  eapply wpv_mono; [apply (create_directory_durable_spec root dir v dir name)| |apply docs_half_before].
  intros [] v1 H1. cbv beta. repeat wpv_step; [|by apply docs_half_before].
  case_bool_decide; [by wpv_step; apply docs_half_before|]. wpv_step. wpv_step.
  set (temporary := temporary_name pid nonce) in *.
  assert (Hins : ∀ d' v', docs_before root dir name v v' →
    docs_before root dir name v (edit_directory root dir <[temporary:=d']> v')).
  { intros d' v' H'. eapply docs_before_trans; [done|]. apply (temporary_edit _ _ _ _ pid nonce); [done|].
    intros files n Hn. by rewrite lookup_insert_ne. }
  apply (Hins (doc_take 0 d)) in H1. apply (wpv_or_cleanup _ _ _ _ _ (docs_half root dir name d v)); [|done|].
  - wpv_step. apply wpv_sys_write; [|intros n; by apply docs_half_before, Hins].
    apply (Hins d) in H1. set (v3 := edit_directory root dir _ _) in *. clearbody v3.
    do 2 (wpv_skip; [|by apply docs_half_before]). wpv_step. wpv_step.
    assert (docs_kept root dir name v (edit_directory root dir (λ files, <[name:=d]> (delete temporary files)) v3)).
    { eapply docs_kept_trans; [apply H1|]. apply docs_kept_edit. intros files n Hn Hne.
      rewrite lookup_insert_ne by done. apply lookup_delete_ne. intros <-.
      unfold temporary in Hn. by rewrite temporary_private in Hn. }
    assert (docs (edit_directory root dir (λ files, <[name:=d]> (delete temporary files)) v3) root dir !! name = Some d).
    { rewrite docs_edit, decide_True by done. apply lookup_insert_eq. }
    wpv_step; [done|]. split; auto.
  - intros v' H'. wpv_skip; [|done]. wpv_step. eapply docs_half_trans; [done|].
    apply (temporary_edit _ _ _ _ pid nonce); [done|]. intros files n Hn. by rewrite lookup_delete_ne.
Qed.

(** * Computations of the store that only read *)

Lemma steady_require_normalized p e : steady (require_normalized p e).
Proof. unfold require_normalized. steady_tac. Qed.
#[local] Hint Resolve steady_require_normalized : steady.
Lemma steady_validate_state e st : steady (validate_state e st).
Proof. unfold validate_state. steady_tac. Qed.
#[local] Hint Resolve steady_validate_state : steady.
Lemma steady_validate_manifest m sid turn : steady (validate_manifest m sid turn).
Proof. unfold validate_manifest. steady_tac. Qed.
#[local] Hint Resolve steady_validate_manifest : steady.
Lemma steady_load_manifest_in root sid turn : steady (load_manifest_in root sid turn).
Proof. unfold load_manifest_in. steady_tac. Qed.
Lemma steady_manifest_turns root sid : steady (manifest_turns root sid).
Proof. unfold manifest_turns. steady_tac. Qed.
Lemma steady_validate_namespace_directories root : steady (validate_namespace_directories root).
Proof. unfold validate_namespace_directories. steady_tac. Qed.
Lemma steady_validate_rewind_report r : steady (validate_rewind_report r).
Proof. unfold validate_rewind_report. steady_tac. Qed.
Lemma steady_validate_blob b n : steady (validate_blob b n).
Proof. unfold validate_blob. steady_tac. Qed.
#[local] Hint Resolve steady_load_manifest_in steady_manifest_turns steady_validate_namespace_directories
  steady_validate_rewind_report steady_validate_blob : steady.
Lemma steady_validate_rewind_steps b steps : steady (validate_rewind_steps b steps).
Proof. unfold validate_rewind_steps. steady_tac. Qed.
Lemma steady_lock_references : steady lock_references.
Proof. unfold lock_references. steady_tac. Qed.
Lemma steady_build_rewind_steps root sid T : steady (build_rewind_steps root sid T).
Proof. unfold build_rewind_steps. steady_tac. Qed.
#[local] Hint Resolve steady_validate_rewind_steps steady_lock_references steady_build_rewind_steps : steady.

(** * Transactions *)

Definition tx_doc v (root sid : string) : option Doc := docs v root ["rewinds"] !! rewind_filename sid.

Lemma read_metadata_spec root dir name v :
  wpv (read_metadata root dir name) v (λ d v', v' = v ∧ docs v root dir !! name = Some d) (λ v', v' = v).
Proof.
  unfold read_metadata. wpv_skip; [|done]. do 2 wpv_step; [|done]. do 2 wpv_step.
  rewrite lookup_doc_docs. destruct (docs v root dir !! name) as [d|] eqn:E; [|by wpv_step].
  do 2 wpv_step; [|done]. case_match; [by wpv_step|].
  wpv_skip; [|done]. case_match; [by wpv_step|].
  do 5 (wpv_skip; [|done]). by wpv_step.
Qed.
Lemma load_rewind_transaction_spec root sid v :
  wpv (load_rewind_transaction root sid) v
    (λ tx v', v' = v ∧ (∃ d, tx_doc v root sid = Some d ∧ de_transaction d = Some tx) ∧
              (tx_next tx ≤ length (tx_steps tx))%nat ∧
              (tx_phase tx = WorkspaceCommitted → tx_next tx = length (tx_steps tx)))
    (λ v', v' = v).
Proof.
  unfold load_rewind_transaction. wpv_skip; [|done]. wpv_step.
  eapply wpv_mono; [apply read_metadata_spec| |done]. intros d v' [-> Hd].
  destruct (de_transaction d) as [tx|] eqn:E; [|by wpv_step].
  do 2 wpv_step; [|done]. intros Hg. rewrite !andb_true_iff, negb_true_iff, andb_false_iff in Hg.
  destruct Hg as [[[_ _] Hn%Nat.leb_le] Hp].
  do 6 (wpv_skip; [|done]). wpv_step. split; [done|]. split; [by exists d|]. split; [done|].
  intros Hc. destruct Hp as [Hp|Hp]; [by rewrite bool_decide_eq_true_2 in Hp|].
  apply negb_false_iff in Hp. by apply Nat.eqb_eq.
Qed.
Lemma write_rewind_transaction_spec root tx v :
  let name := rewind_filename (handle_session (tx_handle tx)) in
  wpv (write_rewind_transaction root tx) v
    (λ _ v', docs_kept root ["rewinds"] name v v' ∧ docs v' root ["rewinds"] !! name = Some (ser_transaction tx))
    (docs_half root ["rewinds"] name (ser_transaction tx) v).
Proof.
  intros name. unfold write_rewind_transaction.
  assert (docs_half root ["rewinds"] name (ser_transaction tx) v v) by (split; [apply docs_kept_refl|auto]).
  wpv_skip; [|done]. wpv_step. unfold serialize_metadata. case_match; [by wpv_step|].
  wpv_skip; [|done]. wpv_step. apply atomic_replace_spec, json_not_private.
Qed.
Lemma read_valid_blob_spec blob bytes v :
  wpv (read_valid_blob blob bytes) v
    (λ c v', v' = v ∧ digest c = blob ∧ str_len c = bytes) (λ v', v' = v).
Proof.
  unfold read_valid_blob. wpv_skip; [|done]. wpv_skip; [|done]. do 2 wpv_step.
  destruct (blobs v !! blob) as [c|]; [|by wpv_step].
  do 2 wpv_step; [|done]. intros Hl%Z.eqb_eq. wpv_skip; [|done]. do 2 wpv_step; [|done].
  intros Hd%String.eqb_eq. by wpv_step.
Qed.

(** * The workspace *)

(** Every entry lies in a directory. *)
Definition tree (w : gmap (list string) Entry) : Prop :=
  ∀ p n, is_Some (w !! (p ++ [n])%list) → p = [] ∨ w !! p = Some Directory.
Definition in_tree (w : gmap (list string) Entry) (p : list string) : Prop :=
  p = [] ∨ w !! p = Some Directory.

Lemma ws_tree_insert w p n e :
  tree w → in_tree w p → (w !! (p ++ [n])%list ≠ Some Directory ∨ e = Directory) →
  tree (<[(p ++ [n])%list := e]> w).
Proof.
  intros Ht Hp He q m Hq. destruct (decide (q ++ [m] = p ++ [n])%list) as [[-> ->]%app_inj_tail | Hne].
  - destruct Hp as [->|Hp]; [by left|right]. rewrite lookup_insert_ne; [done|].
    intros E. apply (f_equal length) in E. rewrite length_app in E. cbn in E. lia.
  - rewrite lookup_insert_ne in Hq by done. destruct (Ht q m Hq) as [->|Hd]; [by left|right].
    destruct (decide (q = p ++ [n])%list) as [->|]; [|by rewrite lookup_insert_ne].
    rewrite lookup_insert_eq. destruct He as [He| ->]; [congruence|done].
Qed.
Lemma ws_tree_delete w p : tree w → w !! p ≠ Some Directory → tree (delete p w).
Proof.
  intros Ht Hp q m Hq. destruct (decide (q ++ [m] = p)%list) as [E|Hne].
  - rewrite E, lookup_delete_eq in Hq. by destruct Hq.
  - rewrite lookup_delete_ne in Hq by done. destruct (Ht q m Hq) as [->|Hd]; [by left|right].
    rewrite lookup_delete_ne; [done|]. congruence.
Qed.
(** Below a missing entry nothing exists. *)
Lemma ws_tree_below w p q : tree w → w !! p = None → p ≠ [] → w !! (p ++ q)%list = None.
Proof.
  intros Ht Hp Hne. induction q as [|n q IH] using rev_ind; [by rewrite app_nil_r|].
  rewrite (assoc_L app). apply eq_None_not_Some. intros Hs. apply Ht in Hs as [E|E]; [|congruence].
  by destruct p.
Qed.

Definition is_temp (p : list string) : bool :=
  match last p with Some n => is_private_temporary n | None => false end.
Lemma is_temp_snoc p n : is_temp (p ++ [n]) = is_private_temporary n.
Proof. unfold is_temp. by rewrite last_snoc. Qed.

(** An entry is the same, or a directory is there now where there was nothing. *)
Definition grown (e e' : option Entry) : Prop := e' = e ∨ (e = None ∧ e' = Some Directory).
Lemma entry_grown_trans e1 e2 e3 : grown e1 e2 → grown e2 e3 → grown e1 e3.
Proof. unfold grown. intuition congruence. Qed.

(** Only the entry [key] of the workspace changed, up to temporary files and
    directories made on the way. *)
Record only_at (key : list string) v v' : Prop := mkOnlyAt {
  oa_namespaces : namespaces v' = namespaces v;
  oa_blobs : blobs v' = blobs v;
  oa_quota : quota v' = quota v;
  oa_tree : tree (workspace v) → tree (workspace v');
  oa_entries : ∀ p, is_temp p = false → p ≠ key → grown (workspace v !! p) (workspace v' !! p);
}.
Lemma only_at_refl key v : only_at key v v.
Proof. split; [done..|]. by left. Qed.
Lemma only_at_trans key v1 v2 v3 : only_at key v1 v2 → only_at key v2 v3 → only_at key v1 v3.
Proof.
  intros [H1 H2 H3 H4 H5] [K1 K2 K3 K4 K5]. split; [congruence..|auto|].
  intros p Hp Hne. eapply entry_grown_trans; auto.
Qed.
Lemma only_at_edit key f v :
  (tree (workspace v) → tree (f (workspace v))) →
  (∀ p, is_temp p = false → p ≠ key → grown (workspace v !! p) (f (workspace v) !! p)) →
  only_at key v (edit_workspace f v).
Proof. intros. by split. Qed.

(** Still before the change of [key] *)
Definition only_before (key : list string) v v' : Prop :=
  only_at key v v' ∧ (is_temp key = false → workspace v' !! key = workspace v !! key).
Lemma only_before_refl key v : only_before key v v.
Proof. split; [apply only_at_refl|done]. Qed.
Lemma only_before_trans key v1 v2 v3 : only_before key v1 v2 → only_before key v2 v3 → only_before key v1 v3.
Proof.
  intros [H1 H2] [K1 K2]. split; [by eapply only_at_trans|]. intros Hk. rewrite K2, H2; done.
Qed.

Lemma open_components_create key at_ parts name v :
  let K := (at_ ++ parts ++ [name])%list in
  tree (workspace v) → in_tree (workspace v) at_ →
  wpv (open_components key true at_ parts) v
    (λ r v', r = Some (at_ ++ parts)%list ∧ only_before K v v' ∧ in_tree (workspace v') (at_ ++ parts)%list)
    (only_before K v).
Proof.
  revert at_ v. induction parts as [|part rest IH]; intros at_ v K Ht Hin; cbn [open_components].
  { wpv_step. rewrite app_nil_r. split; [done|]. split; [apply only_before_refl|done]. }
  assert (K = ((at_ ++ [part]) ++ rest ++ [name])%list) as EK by (unfold K; by rewrite <- (assoc_L app)).
  do 2 wpv_step; [|apply only_before_refl]. do 2 wpv_step.
  destruct (workspace v !! (at_ ++ [part])%list) as [[c m|t| |]|] eqn:E;
    try (wpv_step; apply only_before_refl).
  - eapply wpv_mono; [apply (IH (at_ ++ [part])%list v Ht); by right| |]; rewrite <- EK; [|done].
    intros r v' (-> & H1 & H2). by rewrite <- (assoc_L app) in *.
  - set (v1 := edit_workspace <[(at_ ++ [part])%list := Directory]> v).
    assert (Hb : only_before K v v1).
    { split.
      - apply only_at_edit; [intros _; apply ws_tree_insert; auto|].
        intros p Hp Hne. destruct (decide (p = at_ ++ [part])%list) as [->|Hn].
        + right. by rewrite lookup_insert_eq.
        + left. by rewrite lookup_insert_ne.
      - intros _. unfold v1. cbn. rewrite lookup_insert_ne; [done|]. rewrite EK. intros E'.
        rewrite (assoc_L app) in E'. apply (f_equal length) in E'. rewrite !length_app in E'. cbn in E'. lia. }
    wpv_skip; [|apply only_before_refl]. do 2 wpv_step. fold v1. do 2 (wpv_skip; [|done]).
    eapply wpv_mono; [apply (IH (at_ ++ [part])%list v1)| |].
    + by apply Hb.
    + right. unfold v1. cbn. apply lookup_insert_eq.
    + rewrite <- EK. intros r v' (-> & H1 & H2). rewrite <- (assoc_L app) in *. split; [done|].
      split; [by eapply only_before_trans|done].
    + rewrite <- EK. intros v' H1. by eapply only_before_trans.
Qed.

Lemma split_last {A} (l : list A) x : last l = Some x → l = (take (length l - 1) l ++ [x])%list.
Proof.
  intros Hl. destruct l as [|y l _] using rev_ind; [done|]. rewrite last_snoc in Hl. injection Hl as ->.
  rewrite length_app. cbn. rewrite Nat.add_sub. by rewrite take_app_length.
Qed.

Lemma open_confined_parent_create key v :
  tree (workspace v) →
  let K := path_segments key in
  wpv (open_confined_parent key true) v
    (λ r v', ∃ parent name, r = Some (parent, name) ∧ (parent ++ [name])%list = K ∧
             only_before K v v' ∧ in_tree (workspace v') parent)
    (only_before K v).
Proof.
  intros Ht K. unfold open_confined_parent. wpv_skip; [|apply only_before_refl].
  wpv_skip; [|apply only_before_refl]. fold K. destruct (last K) as [name|] eqn:E; [|wpv_step; apply only_before_refl].
  pose proof (split_last K name E) as EK. set (dirs := take _ K) in *.
  wpv_skip; [|apply only_before_refl]. wpv_step.
  eapply wpv_mono; [apply (open_components_create key [] dirs name v Ht); by left| |];
    cbn [app]; rewrite <- EK; [|done].
  intros r v' (-> & H1 & H2). wpv_step. exists dirs, name. done.
Qed.

Lemma open_components_find key at_ parts v :
  tree (workspace v) →
  wpv (open_components key false at_ parts) v
    (λ r v', v' = v ∧ match r with
             | Some p => p = (at_ ++ parts)%list
             | None => ∀ q, q ≠ [] → workspace v !! (at_ ++ parts ++ q)%list = None
             end) (λ v', v' = v).
Proof.
  intros Ht. revert at_. induction parts as [|part rest IH]; intros at_; cbn [open_components].
  { wpv_step. by rewrite app_nil_r. }
  wpv_skip; [|done]. do 2 wpv_step.
  destruct (workspace v !! (at_ ++ [part])%list) as [[c m|t| |]|] eqn:E; try by wpv_step.
  - eapply wpv_mono; [apply IH| |done]. intros [q|] v' [-> H]; (split; [done|]).
    + by rewrite <- (assoc_L app) in H.
    + intros q Hq. specialize (H q Hq). by rewrite <- (assoc_L app) in H.
  - wpv_step. split; [done|]. intros q Hq. cbn.
    replace (at_ ++ part :: rest ++ q)%list with ((at_ ++ [part]) ++ rest ++ q)%list by by rewrite <- (assoc_L app).
    apply ws_tree_below; [done|done|]. by destruct at_.
Qed.
Lemma open_confined_parent_find key v :
  tree (workspace v) →
  let K := path_segments key in
  wpv (open_confined_parent key false) v
    (λ r v', v' = v ∧ match r with
             | Some (parent, name) => (parent ++ [name])%list = K
             | None => workspace v !! K = None
             end) (λ v', v' = v).
Proof.
  intros Ht K. unfold open_confined_parent. do 2 (wpv_skip; [|done]). fold K.
  destruct (last K) as [name|] eqn:E; [|by wpv_step].
  pose proof (split_last K name E) as EK. set (dirs := take _ K) in *.
  wpv_skip; [|done]. wpv_step.
  eapply wpv_mono; [by apply (open_components_find key [] dirs v Ht)| |done].
  intros [p|] v' [-> H]; wpv_step; (split; [done|]); cbn in *.
  - by subst p.
  - rewrite EK. by apply H.
Qed.

(** An edit of a temporary file in an open directory *)
Lemma only_before_temporary K f parent pid nonce v :
  let p := (parent ++ [temporary_name pid nonce])%list in
  in_tree (workspace v) parent →
  workspace v !! p ≠ Some Directory →
  (f = delete p ∨ ∃ e, e ≠ Directory ∧ f = <[p := e]>) →
  only_before K v (edit_workspace f v) ∧ in_tree (workspace (edit_workspace f v)) parent ∧
  workspace (edit_workspace f v) !! p ≠ Some Directory.
Proof.
  intros p Hin Hp Hf.
  assert (Htemp : ∀ q, is_temp q = false → q ≠ p).
  { intros q Hq ->. unfold p in Hq. by rewrite is_temp_snoc, temporary_private in Hq. }
  assert (Hsame : ∀ q, q ≠ p → f (workspace v) !! q = workspace v !! q).
  { intros q Hq. destruct Hf as [->|(e & _ & ->)]; [by rewrite lookup_delete_ne|by rewrite lookup_insert_ne]. }
  split_and!.
  - split; [apply only_at_edit|].
    + intros Ht. destruct Hf as [->|(e & He & ->)]; [by apply ws_tree_delete|by apply ws_tree_insert; auto].
    + intros q Hq _. left. by apply Hsame, Htemp.
    + intros Hq. by apply Hsame, Htemp.
  - cbn. destruct Hin as [->|Hin]; [by left|right]. rewrite Hsame; [done|].
    intros E. apply (f_equal length) in E. unfold p in E. rewrite length_app in E. cbn in E. lia.
  - cbn. destruct Hf as [->|(e & He & ->)]; [by rewrite lookup_delete_eq|]. rewrite lookup_insert_eq. congruence.
Qed.

(** The entry [key] is the old one or the new one. *)
Definition only_half (key : list string) (new : option Entry) v v' : Prop :=
  only_at key v v' ∧
  (is_temp key = false → workspace v' !! key = workspace v !! key ∨ workspace v' !! key = new).
Lemma only_half_before key new v v' : only_before key v v' → only_half key new v v'.
Proof. intros [H1 H2]. split; auto. Qed.
Lemma only_half_trans key new v1 v2 v3 :
  only_half key new v1 v2 → only_before key v2 v3 → only_half key new v1 v3.
Proof.
  intros [H1 H2] [K1 K2]. split; [by eapply only_at_trans|]. intros Hk. rewrite K2 by done. auto.
Qed.

(** The temporary file of [restore_regular_confined] replaces the target. *)
Lemma only_at_rename K parent name pid nonce e v :
  K = (parent ++ [name])%list → in_tree (workspace v) parent → workspace v !! K ≠ Some Directory →
  let p := (parent ++ [temporary_name pid nonce])%list in
  workspace v !! p ≠ Some Directory →
  let v' := edit_workspace (λ w, <[K := e]> (delete p w)) v in
  only_at K v v' ∧ workspace v' !! K = Some e ∧ in_tree (workspace v') parent ∧
  (e ≠ Directory → workspace v' !! p ≠ Some Directory).
Proof.
  intros EK Hin HK p Hp v'.
  assert (Hpar : ∀ n, parent ≠ (parent ++ [n])%list).
  { intros n E. apply (f_equal length) in E. rewrite length_app in E. cbn in E. lia. }
  assert (Hd : in_tree (delete p (workspace v)) parent).
  { destruct Hin as [->|Hin]; [by left|right]. rewrite lookup_delete_ne; [done|]. intros E. by apply (Hpar (temporary_name pid nonce)). }
  split_and!.
  - apply only_at_edit.
    + intros Ht. rewrite EK. apply ws_tree_insert; [by apply ws_tree_delete|done|]. left.
      rewrite <- EK. destruct (decide (p = K)) as [->|]; [by rewrite lookup_delete_eq|by rewrite lookup_delete_ne].
    + intros q Hq Hne. left. rewrite lookup_insert_ne, lookup_delete_ne; [done| |done].
      intros <-. unfold p in Hq. by rewrite is_temp_snoc, temporary_private in Hq.
  - cbn. apply lookup_insert_eq.
  - destruct Hd as [->|Hd]; [by left|right]. cbn. rewrite lookup_insert_ne; [done|]. rewrite EK. by symmetry.
  - intros He. cbn. destruct (decide (K = p)) as [->|Hne]; [rewrite lookup_insert_eq; congruence|].
    by rewrite lookup_insert_ne, lookup_delete_eq.
Qed.

(** The steps on the temporary file and the rename *)
Lemma rename_into_place K parent name pid nonce new v v1 :
  let p := (parent ++ [temporary_name pid nonce])%list in
  (parent ++ [name])%list = K → new ≠ Directory →
  only_before K v v1 → in_tree (workspace v1) parent → workspace v1 !! p ≠ Some Directory →
  wpv (_ ← sys; _ ← sys; v ← gets volume;
       match workspace v !! (parent ++ [name])%list with
       | Some Directory => fail (CheckpointIo OtherIo)
       | _ => _ ← change (edit_workspace (λ w, <[(parent ++ [name])%list := new]> (delete p w))); sys
       end) v1 (λ _ v', only_at K v v' ∧ workspace v' !! K = Some new)
    (λ v', only_half K (Some new) v v' ∧ in_tree (workspace v') parent ∧ workspace v' !! p ≠ Some Directory).
Proof.
  intros p EK Hnew Hb Hin Hp. do 2 (wpv_skip; [|by split; [apply only_half_before|]]). do 2 wpv_step. rewrite EK.
  assert (Hgo : workspace v1 !! K ≠ Some Directory →
    wpv (_ ← change (edit_workspace (λ w, <[K := new]> (delete p w))); sys) v1
      (λ _ v', only_at K v v' ∧ workspace v' !! K = Some new)
      (λ v', only_half K (Some new) v v' ∧ in_tree (workspace v') parent ∧ workspace v' !! p ≠ Some Directory)).
  { intros HK. destruct (only_at_rename K parent name pid nonce new v1) as (A & B & C & D); [done..|].
    assert (only_at K v (edit_workspace (λ w, <[K := new]> (delete p w)) v1)) as HA
      by (eapply only_at_trans; [apply Hb|done]).
    do 3 wpv_step; [done|]. split_and!; [split; [done|]; intros _; by right|done|by apply D]. }
  destruct (workspace v1 !! K) as [[c m|t| |]|] eqn:E; try (apply Hgo; congruence).
  wpv_step. by split; [apply only_half_before|].
Qed.

Lemma restore_regular_spec key content mode v :
  tree (workspace v) →
  let K := path_segments key in
  let new := Regular content (default 384 mode) in
  wpv (restore_regular_confined key content mode) v
    (λ _ v', only_at K v v' ∧ workspace v' !! K = Some new) (only_half K (Some new) v).
Proof.
  intros Ht K new. unfold restore_regular_confined. wpv_step.
  eapply wpv_mono; [by apply open_confined_parent_create| |apply only_half_before]. fold K.
  intros r v1 (parent & name & -> & EK & Hb & Hin). repeat wpv_step; [|by apply only_half_before].
  case_bool_decide as Hex; [by wpv_step; apply only_half_before|].
  set (p := (parent ++ [temporary_name pid nonce])%list) in *.
  set (J := λ v', only_before K v v' ∧ in_tree (workspace v') parent ∧ workspace v' !! p ≠ Some Directory).
  assert (Hins : ∀ c m v', J v' → J (edit_workspace <[p := Regular c m]> v')).
  { intros c m v' (A & B & C).
    destruct (only_before_temporary K <[p := Regular c m]> parent pid nonce v') as (A' & B' & C'); [done..| |].
    - right. exists (Regular c m). done.
    - split_and!; [by eapply only_before_trans|done|done]. }
  assert (HJ : J v1).
  { split_and!; [done|done|]. intros E. apply Hex. by rewrite E. }
  clear Hex Hb Hin. do 2 wpv_step. apply (Hins "" 384) in HJ.
  set (H := λ v', only_half K (Some new) v v' ∧ in_tree (workspace v') parent ∧ workspace v' !! p ≠ Some Directory).
  assert (HH : ∀ v', J v' → H v') by (intros v' (A & B); by split; [apply only_half_before|]).
  apply (wpv_or_cleanup _ _ _ _ _ H); [|by intros v' []|].
  - wpv_step. apply wpv_sys_write; [|intros n; by apply HH, Hins].
    apply (Hins content 384) in HJ. set (v3 := edit_workspace _ (edit_workspace _ v1)) in *. clearbody v3. wpv_step.
    assert (Hrest : ∀ v', J v' → wpv (_ ← sys; _ ← sys; v ← gets volume;
       match workspace v !! (parent ++ [name])%list with
       | Some Directory => fail (CheckpointIo OtherIo)
       | _ => _ ← change (edit_workspace (λ w, <[(parent ++ [name])%list := new]> (delete p w))); sys
       end) v' (λ _ v', only_at K v v' ∧ workspace v' !! K = Some new) H).
    { intros v' (A & B & C). by apply rename_into_place. }
    destruct mode as [m|]; [|by wpv_step; apply Hrest].
    wpv_skip; [|by apply HH]. wpv_step. by apply Hrest, Hins.
  - intros v' (A & B & C). wpv_skip; [|done]. wpv_step. eapply only_half_trans; [done|].
    by apply (only_before_temporary K (delete p) parent pid nonce); auto.
Qed.

Lemma remove_file_spec key v :
  tree (workspace v) →
  let K := path_segments key in
  wpv (remove_file_or_symlink_confined key) v
    (λ _ v', only_at K v v' ∧ workspace v' !! K = None) (only_half K None v).
Proof.
  intros Ht K. unfold remove_file_or_symlink_confined.
  assert (only_half K None v v) as H0 by apply only_half_before, only_before_refl.
  wpv_step. eapply wpv_mono; [by apply open_confined_parent_find| |by intros v' ->].
  intros [[parent name]|] v' [-> H]; [|wpv_step; by split; [apply only_at_refl|]].
  wpv_skip; [|done]. do 2 wpv_step. rewrite H. fold K.
  assert (Hgo : workspace v !! K ≠ Some Directory →
    wpv (_ ← sys; _ ← change (edit_workspace (delete K)); sys) v
      (λ _ v', only_at K v v' ∧ workspace v' !! K = None) (only_half K None v)).
  { intros HK. wpv_skip; [|done].
    assert (only_at K v (edit_workspace (delete K) v)).
    { apply only_at_edit; [intros _; by apply ws_tree_delete|]. intros p _ Hne. left. by rewrite lookup_delete_ne. }
    assert (workspace (edit_workspace (delete K) v) !! K = None) by apply lookup_delete_eq.
    do 3 wpv_step; [done|]. by split; [|right]. }
  destruct (workspace v !! K) as [[c m|t| |]|] eqn:E; try (apply Hgo; congruence); wpv_step; try done.
  by split; [apply only_at_refl|].
Qed.

(** * One step of a rewind *)

(** The entry is what the checkpoint recorded.  A path that did not exist may
    now be a directory, made for a file below it. *)
Definition as_recorded (st : CheckpointFileState) (e : option Entry) : Prop :=
  match st with
  | Present blob bytes mode =>
      ∃ c, e = Some (Regular c (default 384 mode)) ∧ digest c = blob ∧ str_len c = bytes
  | Absent => e = None ∨ e = Some Directory
  | Unrestorable _ => True
  end.
Lemma as_recorded_grown st e e' : as_recorded st e → grown e e' → as_recorded st e'.
Proof.
  intros H [->|[-> ->]]; [done|]. destruct st; [by destruct H as (c & ? & _)|by right|done].
Qed.

Definition report_step (report : RewindReport) (step : RewindStep) : RewindReport :=
  let key := step_path step in
  match step_state step with
  | Present _ _ _ => mkReport (restored report ++ [key])%list (removed report) (delete key (unrestorable report))
  | Absent => mkReport (restored report) (removed report ++ [key])%list (delete key (unrestorable report))
  | Unrestorable reason => mkReport (restored report) (removed report) (<[key := reason]> (unrestorable report))
  end.

Lemma restore_state_spec step report v :
  tree (workspace v) →
  let K := path_segments (step_path step) in
  wpv (restore_state (step_path step) (step_state step) report) v
    (λ r v', r = report_step report step ∧ only_at K v v' ∧ as_recorded (step_state step) (workspace v' !! K))
    (λ v', only_at K v v' ∧ (is_temp K = false →
       workspace v' !! K = workspace v !! K ∨ as_recorded (step_state step) (workspace v' !! K))).
Proof.
  intros Ht K. unfold restore_state, report_step.
  assert (only_at K v v ∧ (is_temp K = false →
       workspace v !! K = workspace v !! K ∨ as_recorded (step_state step) (workspace v !! K))) as H0
    by (split; [apply only_at_refl|auto]).
  wpv_skip; [|done]. destruct (step_state step) as [blob bytes mode| |reason]; cbn [as_recorded] in *.
  - wpv_step. eapply wpv_mono; [apply read_valid_blob_spec| |by intros v' ->].
    intros c v' (-> & Hd & Hl). wpv_step.
    eapply wpv_mono; [by apply restore_regular_spec| |].
    + intros [] v' [H1 H2]. wpv_step. split; [done|]. split; [done|]. by exists c.
    + intros v' [H1 H2]. split; [done|]. intros Hk. destruct (H2 Hk); [auto|]. right. by exists c.
  - wpv_step. eapply wpv_mono; [by apply remove_file_spec| |].
    + intros [] v' [H1 H2]. wpv_step. split; [done|]. split; [done|]. by left.
    + intros v' [H1 H2]. split; [done|]. intros Hk. destruct (H2 Hk); auto.
  - wpv_step. split; [done|]. split; [apply only_at_refl|done].
Qed.

(** * The workspace of an unfinished rewind *)

Definition record_at (p : list string) (step : RewindStep) : option CheckpointFileState :=
  if decide (path_segments (step_path step) = p) then Some (step_state step) else None.
(** The record of a path that is restored last *)
Definition last_record (steps : list RewindStep) (p : list string) : option CheckpointFileState :=
  last (omap (record_at p) steps).
Lemma last_record_snoc steps step p :
  last_record (steps ++ [step]) p =
  if decide (path_segments (step_path step) = p) then Some (step_state step) else last_record steps p.
Proof.
  unfold last_record. rewrite omap_app. cbn. unfold record_at at 2.
  destruct (decide _); [by rewrite last_snoc|by rewrite app_nil_r].
Qed.

Definition settled_as (w0 w : gmap (list string) Entry) (steps : list RewindStep) (p : list string) : Prop :=
  match last_record steps p with
  | Some st => as_recorded st (w !! p)
  | None => grown (w0 !! p) (w !! p)
  end.
(** The steps before [k] are done, and the step [k] may be. *)
Definition half_rewound (w0 : gmap (list string) Entry) (steps : list RewindStep) (k : nat)
    (w : gmap (list string) Entry) : Prop :=
  ∀ p, is_temp p = false →
  settled_as w0 w (take k steps) p ∨
  ∃ step, steps !! k = Some step ∧ path_segments (step_path step) = p ∧ as_recorded (step_state step) (w !! p).

Lemma settled_grown w0 w w' steps p : settled_as w0 w steps p → grown (w !! p) (w' !! p) → settled_as w0 w' steps p.
Proof.
  unfold settled_as. destruct (last_record steps p); [apply as_recorded_grown|apply entry_grown_trans].
Qed.
Lemma half_rewound_cut w0 steps k step v v' :
  half_rewound w0 steps k (workspace v) → steps !! k = Some step →
  let K := path_segments (step_path step) in
  only_at K v v' →
  (is_temp K = false → workspace v' !! K = workspace v !! K ∨ as_recorded (step_state step) (workspace v' !! K)) →
  half_rewound w0 steps k (workspace v').
Proof.
  intros Hh Hk K Ho HK p Hp. destruct (decide (p = K)) as [->|Hne].
  - destruct (HK Hp) as [E|E]; [|right; by exists step]. destruct (Hh K Hp) as [H|(s & Es & _ & H)].
    + left. eapply settled_grown; [done|by left].
    + right. exists step. simplify_eq. split; [done|]. split; [done|]. by rewrite E.
  - destruct (Hh p Hp) as [H|(s & Es & Ep & _)]; [|simplify_eq; done].
    left. eapply settled_grown; [done|]. by apply Ho.
Qed.
Lemma half_rewound_step w0 steps k step v v' :
  half_rewound w0 steps k (workspace v) → steps !! k = Some step →
  let K := path_segments (step_path step) in
  only_at K v v' → as_recorded (step_state step) (workspace v' !! K) →
  half_rewound w0 steps (S k) (workspace v').
Proof.
  intros Hh Hk K Ho HK p Hp. left. unfold settled_as. rewrite (take_S_r _ _ _ Hk), last_record_snoc.
  case_decide as E; [by subst p|]. destruct (Hh p Hp) as [H|(s & Es & Ep & _)]; [|simplify_eq; done].
  apply (settled_grown _ _ (workspace v')) in H; [done|]. by apply Ho.
Qed.

(** * The invariant of a rewind *)

Definition report_of (steps : list RewindStep) : RewindReport := foldl report_step empty_report steps.

(** The transaction of the rewind is on disk, and everything but the workspace
    and this document is as it was in [v0]. *)
Record rewinding (root : string) v0 (h : RewindHandle) (target : Z) (steps : list RewindStep)
    (k : nat) (phase : RewindPhase) v : Prop := mkRewinding {
  rw_doc : tx_doc v root (handle_session h) =
    Some (ser_transaction (mkTransaction REWIND_TRANSACTION_VERSION h target steps k (report_of (take k steps)) phase));
  rw_next : (k ≤ length steps)%nat;
  rw_phase : phase = WorkspaceCommitted → k = length steps;
  rw_tree : tree (workspace v);
  rw_half : half_rewound (workspace v0) steps k (workspace v);
  rw_blobs : blobs v = blobs v0;
  rw_docs : ∀ r d n, is_private_temporary n = false →
    (r, d, n) ≠ (root, ["rewinds"], rewind_filename (handle_session h)) → docs v r d !! n = docs v0 r d !! n;
}.
Definition unfinished root v0 h target steps v : Prop :=
  ∃ k phase, rewinding root v0 h target steps k phase v.

Lemma docs_namespaces v v' : namespaces v' = namespaces v → ∀ r d, docs v' r d = docs v r d.
Proof. intros H r d. unfold docs. by rewrite H. Qed.

(** A step of the workspace under an unchanged transaction *)
Lemma rewinding_cut root v0 h target steps k phase step v v' :
  rewinding root v0 h target steps k phase v → steps !! k = Some step →
  let K := path_segments (step_path step) in
  only_at K v v' →
  (is_temp K = false → workspace v' !! K = workspace v !! K ∨ as_recorded (step_state step) (workspace v' !! K)) →
  rewinding root v0 h target steps k phase v'.
Proof.
  intros [H1 H2 H3 H4 H5 H6 H7] Hk K Ho HK. pose proof (docs_namespaces _ _ (oa_namespaces _ _ _ Ho)) as Hd.
  split; [|done|done| | | |].
  - unfold tx_doc. rewrite Hd. exact H1.
  - by apply Ho.
  - by eapply half_rewound_cut.
  - by rewrite (oa_blobs _ _ _ Ho).
  - intros r d n Hn Hne. rewrite Hd. by apply H7.
Qed.
(** The transaction is replaced when the workspace suits both. *)
Lemma rewinding_write root v0 h target steps k phase k' phase' v v' :
  let name := rewind_filename (handle_session h) in
  rewinding root v0 h target steps k phase v →
  (k' ≤ length steps)%nat → (phase' = WorkspaceCommitted → k' = length steps) →
  half_rewound (workspace v0) steps k' (workspace v) →
  docs_kept root ["rewinds"] name v v' →
  docs v' root ["rewinds"] !! name = Some (ser_transaction
    (mkTransaction REWIND_TRANSACTION_VERSION h target steps k' (report_of (take k' steps)) phase')) →
  rewinding root v0 h target steps k' phase' v'.
Proof.
  intros name [H1 H2 H3 H4 H5 H6 H7] Hk' Hp' Hh [K1 K2 K3 K4] Hdoc.
  split; [done|done|done| | | |].
  - by rewrite K1.
  - by rewrite K1.
  - by rewrite K2.
  - intros r d n Hn Hne. rewrite K4 by done. by apply H7.
Qed.
Lemma rewinding_kept root v0 h target steps k phase v v' :
  let name := rewind_filename (handle_session h) in
  rewinding root v0 h target steps k phase v → docs_kept root ["rewinds"] name v v' →
  docs v' root ["rewinds"] !! name = docs v root ["rewinds"] !! name →
  rewinding root v0 h target steps k phase v'.
Proof.
  intros name H Hk Hd. pose proof H as [H1 H2 H3 _ H5 _ _].
  eapply rewinding_write; [done|done|done|done|done|]. etrans; [exact Hd|exact H1].
Qed.

(** Writing the next transaction: one of the two is on disk wherever it stops. *)
Lemma write_next_spec root v0 h target steps k phase k' phase' v :
  rewinding root v0 h target steps k phase v →
  (k' ≤ length steps)%nat → (phase' = WorkspaceCommitted → k' = length steps) →
  half_rewound (workspace v0) steps k' (workspace v) →
  wpv (write_rewind_transaction root (mkTransaction REWIND_TRANSACTION_VERSION h target steps k'
         (report_of (take k' steps)) phase')) v
    (λ _, rewinding root v0 h target steps k' phase') (unfinished root v0 h target steps).
Proof.
  intros H Hk' Hp' Hh. eapply wpv_mono; [apply write_rewind_transaction_spec| |]; cbn [tx_handle].
  - intros [] v' [H1 H2]. by eapply rewinding_write.
  - intros v' [H1 [H2|H2]]; [exists k, phase|exists k', phase'].
    + by eapply rewinding_kept.
    + by eapply rewinding_write.
Qed.

Lemma apply_steps_spec root v0 h target steps todo k v :
  rewinding root v0 h target steps k Applying v → drop k steps = todo →
  wpv (apply_steps root (mkTransaction REWIND_TRANSACTION_VERSION h target steps k (report_of (take k steps)) Applying) todo) v
    (λ tx v', tx = mkTransaction REWIND_TRANSACTION_VERSION h target steps (length steps) (report_of steps) Applying ∧
              rewinding root v0 h target steps (length steps) Applying v')
    (unfinished root v0 h target steps).
Proof.
  revert k v. induction todo as [|step rest IH]; intros k v H Hd; cbn [apply_steps].
  { assert (k = length steps) as ->.
    { pose proof (rw_next _ _ _ _ _ _ _ _ H). apply (f_equal length) in Hd. rewrite length_drop in Hd. cbn in Hd. lia. }
    wpv_step. by rewrite firstn_all. }
  assert (Hk : steps !! k = Some step).
  { rewrite <- (Nat.add_0_r k), <- lookup_drop, Hd. done. }
  pose proof (lookup_lt_Some _ _ _ Hk) as Hlt.
  wpv_skip; [|by eexists _, _]. wpv_step.
  eapply wpv_mono; [by apply restore_state_spec; eapply rw_tree| |].
  - intros r v1 (-> & Ho & Hr). cbv beta zeta. unfold advance_transaction. cbn [tx_version tx_handle tx_target tx_steps tx_next tx_report tx_phase].
    assert (report_step (report_of (take k steps)) step = report_of (take (S k) steps)) as ->.
    { rewrite (take_S_r _ _ _ Hk). unfold report_of. by rewrite foldl_snoc. }
    wpv_step. eapply wpv_mono; [eapply write_next_spec| |done].
    + eapply rewinding_cut; [done|done|done|]. by right.
    + lia.
    + done.
    + eapply half_rewound_step; [by eapply rw_half|done|done|done].
    + intros [] v2 H2. apply IH; [done|]. apply drop_S in Hk. rewrite Hd in Hk. by injection Hk as <-.
  - intros v1 [Ho HK]. exists k, Applying. by eapply rewinding_cut.
Qed.

Lemma apply_rewind_spec root v0 h target steps v :
  unfinished root v0 h target steps v →
  wpv (apply_rewind root h) v
    (λ c v', c = mkCommit h target (report_of steps) ∧
             rewinding root v0 h target steps (length steps) WorkspaceCommitted v')
    (unfinished root v0 h target steps).
Proof.
  intros Hu. pose proof Hu as (k & phase & H). unfold apply_rewind. wpv_step. unfold apply_rewind_in. wpv_skip; [|done].
  wpv_step. eapply wpv_mono; [apply load_rewind_transaction_spec| |by intros v' ->].
  intros tx v' (-> & (d & Hd & Htx) & _ & _). rewrite (rw_doc _ _ _ _ _ _ _ _ H) in Hd.
  injection Hd as <-. rewrite de_ser_transaction in Htx. injection Htx as <-. cbn [tx_handle].
  wpv_skip; [|done]. wpv_step. cbn [tx_phase tx_next tx_steps].
  destruct phase; [rewrite bool_decide_eq_true_2 by done|rewrite bool_decide_eq_false_2 by done].
  - wpv_step. eapply wpv_mono; [by apply apply_steps_spec| |done].
    intros tx v' [-> H']. unfold commit_transaction. cbn [tx_version tx_handle tx_target tx_steps tx_next tx_report].
    pose proof (write_next_spec root v0 h target steps _ _ (length steps) WorkspaceCommitted v' H') as Hw.
    rewrite firstn_all in Hw. wpv_step. eapply wpv_mono; [by apply Hw; eauto using rw_half| |done].
    intros [] v2 H2. by do 2 wpv_step.
  - pose proof (rw_phase _ _ _ _ _ _ _ _ H eq_refl) as ->. do 2 wpv_step. cbn [tx_handle tx_target tx_report].
    by rewrite firstn_all.
Qed.

(** * The records of the manifests *)

(** What the manifest of a turn holds *)
Definition manifest_at v (root sid : string) (turn : Z) : option (gmap string CheckpointFileState) :=
  d ← docs v root (manifest_directory sid) !! turn_filename turn; m ← de_manifest d; Some (manifest_files m).
(** The record of a path from the first turn after [target] that has one *)
Definition first_record v (root sid : string) (target : Z) (key : string) (st : CheckpointFileState) : Prop :=
  ∃ turn files, u64 turn ∧ target < turn ∧ manifest_at v root sid turn = Some files ∧ files !! key = Some st ∧
    ∀ turn' files', u64 turn' → target < turn' < turn → manifest_at v root sid turn' = Some files' → files' !! key = None.

Definition key_record (key : string) (step : RewindStep) : option CheckpointFileState :=
  if decide (step_path step = key) then Some (step_state step) else None.
Definition last_for (steps : list RewindStep) (key : string) : option CheckpointFileState :=
  last (omap (key_record key) steps).

Lemma join_segments s : join "/" (path_segments s) = s.
Proof.
  unfold path_segments. induction s as [|c s IH]; [done|]. cbn [split_char]. destruct (Ascii.eqb_spec c "/"%char) as [->|Hne].
  - destruct (split_char "/" s) as [|f fs] eqn:E; [by destruct s; cbn in E; repeat case_match|].
    unfold join in *. change (String.concat "/" ("" :: f :: fs)) with ("" ++ "/" ++ String.concat "/" (f :: fs))%string.
    by rewrite IH.
  - destruct (split_char "/" s) as [|f fs] eqn:E; [by destruct s; cbn in E; repeat case_match|].
    rewrite <- IH. unfold join. by destruct fs.
Qed.
Lemma path_segments_inj x y : path_segments x = path_segments y → x = y.
Proof. intros E. by rewrite <- (join_segments x), <- (join_segments y), E. Qed.
Lemma last_record_for steps key : last_record steps (path_segments key) = last_for steps key.
Proof.
  unfold last_record, last_for. f_equal. induction steps as [|s steps IH]; [done|]. cbn. rewrite IH.
  unfold record_at, key_record. destruct (decide (step_path s = key)) as [->|Hne].
  - by rewrite decide_True.
  - rewrite decide_False; [done|]. intros E. by apply Hne, path_segments_inj.
Qed.
Lemma last_for_app l k key : last_for (l ++ k) key = match last_for k key with Some st => Some st | None => last_for l key end.
Proof.
  unfold last_for. rewrite omap_app. destruct (omap (key_record key) k) as [|x l' _] using rev_ind; [by rewrite app_nil_r|].
  rewrite (assoc_L app). by rewrite !last_snoc.
Qed.

Definition steps_of (files : gmap string CheckpointFileState) : list RewindStep :=
  map (λ '(key, st), mkStep key st) (btree_items files).
Lemma elem_of_btree_items {A} (m : gmap string A) k x : (k, x) ∈ btree_items m ↔ m !! k = Some x.
Proof. unfold btree_items. rewrite stable_sort_perm. apply elem_of_map_to_list. Qed.
Lemma last_for_steps_of files key : last_for (steps_of files) key = files !! key.
Proof.
  assert (∀ st, st ∈ omap (key_record key) (steps_of files) ↔ files !! key = Some st) as H.
  { intros st. rewrite list_elem_of_omap. unfold steps_of. setoid_rewrite list_elem_of_fmap. split.
    - intros (step & ([k x] & -> & Hin) & E). unfold key_record in E. cbn in E. case_decide; [|done].
      simplify_eq. by apply elem_of_btree_items.
    - intros E. exists (mkStep key st). split; [exists (key, st); split; [done|by apply elem_of_btree_items]|].
      unfold key_record. cbn. by rewrite decide_True. }
  unfold last_for. destruct (omap _ (steps_of files)) as [|x l _] using rev_ind; cbn.
  - destruct (files !! key) as [st|]; [|done]. exfalso. by apply (not_elem_of_nil st), H.
  - rewrite last_snoc. symmetry. apply H. apply elem_of_app. right. constructor.
Qed.

Lemma turn_filename_inj t t' : u64 t → u64 t' → turn_filename t = turn_filename t' → t = t'.
Proof.
  intros Ht Ht' E. unfold turn_filename in E. rewrite !pad20 in E by done.
  apply (f_equal (str_take 20)) in E. rewrite !str_take_app_le in E by by rewrite length_digits.
  rewrite <- (length_digits 20 t) in E at 1. rewrite <- (length_digits 20 t') in E at 3.
  assert (∀ s, str_take (String.length s) s = s) as Hall by (induction s as [|c s IH]; cbn; congruence).
  rewrite !Hall in E. apply (f_equal (parse_uint u64_max)) in E. rewrite !parse20 in E by done. congruence.
Qed.
Lemma read_dir_docs v root dir : read_dir v root dir = map_to_list (docs v root dir).
Proof.
  unfold read_dir, docs. destruct (namespaces v !! root) as [space|]; cbn; [|by rewrite map_to_list_empty].
  destruct (space !! dir); cbn; [done|by rewrite map_to_list_empty].
Qed.
Lemma has_directory_docs v root dir : has_directory v root dir = false → docs v root dir = ∅.
Proof.
  unfold has_directory, docs. destruct (namespaces v !! root) as [space|]; cbn; [|done].
  case_bool_decide as H; [done|]. intros _. by destruct (space !! dir); [destruct H|].
Qed.

Lemma NoDup_filter_fst {A B} (f : A * B → bool) l : NoDup l.*1 → NoDup (List.filter f l).*1.
Proof.
  induction l as [|x l IH]; cbn; [done|]. intros [Hx Hl]%NoDup_cons. destruct (f x); [|by apply IH].
  constructor; [|by apply IH]. intros Hin. apply Hx. apply list_elem_of_fmap in Hin as (y & -> & Hy).
  apply list_elem_of_fmap. exists y. split; [done|]. apply list_elem_of_In, filter_In in Hy as [Hy _]. by apply list_elem_of_In.
Qed.
Lemma StronglySorted_before {A} (R : A → A → Prop) l1 y l2 x :
  StronglySorted R (l1 ++ y :: l2) → x ∈ l1 → R x y.
Proof.
  induction l1 as [|z l1 IH]; cbn; intros Hs Hx; [by apply elem_of_nil in Hx|].
  apply StronglySorted_inv in Hs as [Hs Hz]. apply elem_of_cons in Hx as [->|Hx]; [|by apply IH].
  apply Forall_app in Hz as [_ Hz]. by apply Forall_cons_1 in Hz as [Hz _].
Qed.
Lemma manifest_turns_spec root sid v :
  wpv (manifest_turns root sid) v
    (λ turns v', v' = v ∧ NoDup turns ∧
       ∀ t, t ∈ turns ↔ u64 t ∧ is_Some (docs v root (manifest_directory sid) !! turn_filename t))
    (λ v', v' = v).
Proof.
  unfold manifest_turns. do 2 wpv_step. set (dir := manifest_directory sid).
  destruct (has_directory v root dir) eqn:Eh; cbn [negb]; last first.
  { wpv_step. apply has_directory_docs in Eh. rewrite Eh. split; [done|]. split; [constructor|].
    intros t. rewrite lookup_empty. split; [by intros ?%elem_of_nil|by intros [_ []]]. }
  do 2 (wpv_skip; [|done]). rewrite read_dir_docs.
  eapply wpv_mono; [apply (wpv_map_each _ _ _ (λ x t, u64 t ∧ x.1 = turn_filename t))| |done].
  { intros [name d]. cbn. do 3 (wpv_skip; [|done]). wpv_step; [|done].
    intros t E. split; [done|]. destruct (parse_exact_turn_filename name) as [t'|] eqn:Ep; [|done].
    cbn in E. injection E as <-. by apply parse_turn_inv. }
  intros turns v' [-> Hf]. split; [done|].
  assert (Hnd : NoDup (List.filter (λ '(name, _), negb (is_private_temporary name)) (map_to_list (docs v root dir))).*1)
    by apply NoDup_filter_fst, NoDup_fst_map_to_list.
  split.
  - clear -Hf Hnd. induction Hf as [|x t l ts [Ht Hx] Hf IH]; [constructor|].
    cbn in Hnd. apply NoDup_cons in Hnd as [Hx' Hnd]. constructor; [|by apply IH].
    intros Hin. apply Hx'. apply list_elem_of_lookup in Hin as [i Hi].
    destruct (Forall2_lookup_r _ _ _ _ _ Hf Hi) as (y & Hy & _ & Ey). rewrite Hx, <- Ey.
    apply list_elem_of_fmap. exists y. split; [done|]. by eapply list_elem_of_lookup_2.
  - intros t. split.
    + intros [i Hi]%list_elem_of_lookup. destruct (Forall2_lookup_r _ _ _ _ _ Hf Hi) as ([name d] & Hy & Ht & Ey).
      split; [done|]. apply list_elem_of_lookup_2, list_elem_of_In, filter_In in Hy as [Hy _].
      apply list_elem_of_In, elem_of_map_to_list in Hy. cbn in Ey. subst name. by eexists.
    + intros [Ht [d Hd]]. assert (Hin : (turn_filename t, d) ∈ List.filter (λ '(name, _), negb (is_private_temporary name))
          (map_to_list (docs v root dir))).
      { apply list_elem_of_In, filter_In. split; [by apply list_elem_of_In, elem_of_map_to_list|].
        unfold turn_filename. by rewrite json_not_private. }
      apply list_elem_of_lookup in Hin as [i Hi]. destruct (Forall2_lookup_l _ _ _ _ _ Hf Hi) as (t' & Hy & Ht' & Ey).
      apply turn_filename_inj in Ey as ->; [|done|done]. by eapply list_elem_of_lookup_2.
Qed.

Lemma load_manifest_in_spec root sid turn v :
  wpv (load_manifest_in root sid turn) v
    (λ m v', v' = v ∧ manifest_at v root sid turn = Some (manifest_files m)) (λ v', v' = v).
Proof.
  unfold load_manifest_in. wpv_skip; [|done]. wpv_step. eapply wpv_mono; [apply read_metadata_spec| |done].
  intros d v' [-> Hd]. destruct (de_manifest d) as [m|] eqn:E; [|by wpv_step].
  wpv_skip; [|done]. wpv_step. split; [done|]. unfold manifest_at. by rewrite Hd; cbn; rewrite E.
Qed.

(** Newest first, so that the first turn has the last word *)
Definition records v (root sid : string) (turn : Z) : gmap string CheckpointFileState :=
  default ∅ (manifest_at v root sid turn).
Definition steps_for v (root sid : string) (turns : list Z) : list RewindStep :=
  concat (map (λ t, steps_of (records v root sid t)) turns).
Lemma last_for_concat_None v root sid turns key :
  last_for (steps_for v root sid turns) key = None ↔ Forall (λ t, records v root sid t !! key = None) turns.
Proof.
  unfold steps_for. induction turns as [|t turns IH]; cbn [map concat]; [by split|].
  rewrite last_for_app, Forall_cons, <- IH, last_for_steps_of. by destruct (last_for (concat _) key); naive_solver.
Qed.
Lemma last_for_concat v root sid turns key st :
  last_for (steps_for v root sid turns) key = Some st →
  ∃ l1 t l2, turns = (l1 ++ t :: l2)%list ∧ records v root sid t !! key = Some st ∧
    Forall (λ t', records v root sid t' !! key = None) l2.
Proof.
  induction turns as [|t turns IH]; [done|].
  unfold steps_for. cbn [map concat]. rewrite last_for_app. fold (steps_for v root sid turns).
  destruct (last_for (steps_for v root sid turns) key) as [st'|] eqn:E.
  - intros [= ->]. destruct (IH eq_refl) as (l1 & t' & l2 & -> & H). by exists (t :: l1), t', l2.
  - rewrite last_for_steps_of. intros H. exists [], t, turns. split; [done|]. split; [done|].
    by apply last_for_concat_None.
Qed.

(** The last step of each path restores its first record. *)
Lemma last_for_first_record v root sid target turns :
  NoDup turns → StronglySorted (λ x y, Z.geb x y = true) turns →
  (∀ t, t ∈ turns ↔ u64 t ∧ target < t ∧ is_Some (manifest_at v root sid t)) →
  ∀ key st, last_for (steps_for v root sid turns) key = Some st ↔ first_record v root sid target key st.
Proof.
  intros Hnd Hs Hin.
  assert (Hget : ∀ key st, last_for (steps_for v root sid turns) key = Some st → first_record v root sid target key st).
  { intros key st H. destruct (last_for_concat _ _ _ _ _ _ H) as (l1 & t & l2 & -> & Hr & Hn).
    assert (t ∈ l1 ++ t :: l2)%list as Ht by (apply elem_of_app; right; constructor).
    apply Hin in Ht as (Hu & Hlt & [files Hf]). unfold records in Hr. rewrite Hf in Hr.
    exists t, files. split_and!; [done..|]. intros t' files' Hu' Ht' Hf'.
    assert (t' ∈ l1 ++ t :: l2)%list as Hin' by (apply Hin; split_and!; [done|lia|by eexists]).
    apply elem_of_app in Hin' as [Hin'|Hin'].
    - exfalso. apply (StronglySorted_before _ _ _ _ t') in Hs; [|done]. cbn in Hs. rewrite Z.geb_le in Hs. lia.
    - apply elem_of_cons in Hin' as [->|Hin']; [lia|]. rewrite Forall_forall in Hn. specialize (Hn t' Hin').
      cbn in Hn. unfold records in Hn. by rewrite Hf' in Hn. }
  intros key st. split; [apply Hget|]. intros (t & files & Hu & Hlt & Hf & Hk & Hmin).
  destruct (last_for (steps_for v root sid turns) key) as [st'|] eqn:E.
  - destruct (Hget key st' E) as (t' & files' & Hu' & Hlt' & Hf' & Hk' & Hmin').
    destruct (Z.lt_trichotomy t t') as [?|[->|?]].
    + rewrite (Hmin' t files) in Hk by (done || lia). done.
    + congruence.
    + rewrite (Hmin t' files') in Hk' by (done || lia). done.
  - exfalso. apply last_for_concat_None in E. rewrite Forall_forall in E.
    assert (t ∈ turns) as Ht by (apply Hin; split_and!; [done|done|by eexists]).
    specialize (E t Ht). cbn in E. unfold records in E. rewrite Hf in E. cbn in E. congruence.
Qed.

Lemma build_rewind_steps_spec root sid target v :
  wpv (build_rewind_steps root sid target) v
    (λ steps v', v' = v ∧ ∀ key st, last_for steps key = Some st ↔ first_record v root sid target key st)
    (λ v', v' = v).
Proof.
  unfold build_rewind_steps. wpv_step. eapply wpv_mono; [apply manifest_turns_spec| |done].
  intros turns v' (-> & Hnd & Hin). cbv zeta.
  set (later := stable_sort Z.geb (List.filter (λ turn, target <? turn) turns)).
  eapply wpv_mono; [apply (wpv_fold_each _ later [] v (λ done steps,
    Forall (λ t, is_Some (manifest_at v root sid t)) done ∧ steps = steps_for v root sid done))| |done].
  - done.
  - intros done t steps [Hd ->]. wpv_step. eapply wpv_mono; [apply load_manifest_in_spec| |done].
    intros m v' [-> Hm].
    eapply wpv_mono; [apply (wpv_fold_each _ _ _ v (λ items steps,
      steps = (steps_for v root sid done ++ map (λ '(key, st), mkStep key st) items)%list))| |done].
    + by rewrite app_nil_r.
    + intros items [path state] steps ->. do 2 (wpv_skip; [|done]). wpv_step. split; [done|].
      rewrite map_app. cbn. by rewrite <- (assoc_L app).
    + intros steps v' [-> ->]. split; [done|]. split; [apply Forall_app; split; [done|]; by repeat constructor|].
      assert (records v root sid t = manifest_files m) as E by (unfold records; by rewrite Hm).
      unfold steps_for. rewrite map_app, concat_app. cbn. by rewrite app_nil_r, E.
  - intros steps v' (-> & Hsome & ->). split; [done|]. apply last_for_first_record.
    + unfold later. rewrite stable_sort_perm. apply NoDup_ListNoDup. apply List.NoDup_filter. by apply NoDup_ListNoDup.
    + apply stable_sort_sorted; [intros x y; rewrite !Z.geb_le; lia|intros x y z; rewrite !Z.geb_le; lia].
    + intros t. rewrite Forall_forall in Hsome. unfold later in *.
      assert (t ∈ stable_sort Z.geb (List.filter (λ turn, target <? turn) turns) ↔ t ∈ turns ∧ target < t) as Hl.
      { rewrite stable_sort_perm. rewrite !list_elem_of_In, filter_In, Z.ltb_lt. done. }
      rewrite Hl. rewrite Hin. split.
      * intros [[Hu Hd] Hlt]. split_and!; [done|done|]. apply Hsome, Hl. by rewrite Hin.
      * intros (Hu & Hlt & [files Hf]). split_and!; [done| |done]. unfold manifest_at in Hf.
        destruct (docs v root _ !! turn_filename t); [by eexists|done].
Qed.

(** * Preparing *)

(** The same workspace, blobs and published documents *)
Record same_files v v' : Prop := mkSameFiles {
  sf_workspace : workspace v' = workspace v;
  sf_blobs : blobs v' = blobs v;
  sf_docs : ∀ r d n, is_private_temporary n = false → docs v' r d !! n = docs v r d !! n;
}.
Lemma same_files_refl v : same_files v v.
Proof. by split. Qed.
Lemma same_files_trans v1 v2 v3 : same_files v1 v2 → same_files v2 v3 → same_files v1 v3.
Proof. intros [H1 H2 H3] [K1 K2 K3]. split; [congruence..|]. intros r d n Hn. by rewrite K3, H3. Qed.
Lemma same_files_quota f v : same_files v (edit_quota f v).
Proof. by split. Qed.
Lemma same_files_before root dir name v v' : docs_before root dir name v v' → same_files v v'.
Proof.
  intros [[H1 H2 H3 H4] H5]. split; [done|done|]. intros r d n Hn.
  destruct (decide ((r, d, n) = (root, dir, name))) as [E|E]; [by injection E as -> -> ->|by apply H4].
Qed.
Lemma first_record_same v v' root sid target key st :
  same_files v v' → first_record v root sid target key st → first_record v' root sid target key st.
Proof.
  intros Hs. assert (∀ t, manifest_at v' root sid t = manifest_at v root sid t) as Hm.
  { intros t. unfold manifest_at. by rewrite (sf_docs _ _ Hs) by apply json_not_private. }
  intros (t & files & Hu & Hlt & Hf & Hk & Hmin). exists t, files. rewrite Hm. split_and!; [done..|].
  intros t' files'. rewrite Hm. apply Hmin.
Qed.

Lemma reference_writer_spec root v : wpv (reference_writer root) v (λ _, same_files v) (same_files v).
Proof.
  pose proof (same_files_refl v) as H0. unfold reference_writer. wpv_skip; [|done]. wpv_step.
  apply (wpv_mono _ _ (λ _, same_files v) _ (same_files v)); [| |done].
  - unfold open_ledger. wpv_skip; [|done]. do 3 wpv_step. destruct (quota v).
    + wpv_step. wpv_skip; [|done]. by apply wpv_steady; [apply steady_change_protected|..].
    + wpv_skip; [|done]. case_bool_decide; [|by wpv_step]. wpv_skip; [|done]. wpv_step.
      wpv_skip; [|by split]. by apply wpv_steady; [apply steady_change_protected|..].
  - intros [] v1 H1. unfold register. do 3 (wpv_skip; [|done]). unfold get_quota. do 3 wpv_step.
    destruct (quota v1) as [q|]; [|by wpv_step]. wpv_step. case_match; [by apply wpv_steady; [steady_tac|..]|].
    wpv_skip; [|done]. wpv_step.
    eapply wpv_mono; [apply (wpv_for_each _ _ _ (λ _, same_files v) (same_files v)); [done|]| |done].
    + intros _ name _ v2 _ H2. eapply wpv_mono; [apply (create_directory_durable_spec root [name] v2 [name] "")| |].
      * intros [] v3 H3. eapply same_files_trans; [done|]. by eapply same_files_before.
      * intros v3 H3. eapply same_files_trans; [done|]. by eapply same_files_before.
    + intros [] v2 H2. do 2 (wpv_skip; [|done]). wpv_step. eapply same_files_trans; [done|apply same_files_quota].
Qed.

Lemma rewinding_same root v0 h target steps k phase v v' :
  rewinding root v0 h target steps k phase v → same_files v v' → rewinding root v0 h target steps k phase v'.
Proof.
  intros [H1 H2 H3 H4 H5 H6 H7] [K1 K2 K3]. split; [|done|done| | | |].
  - unfold tx_doc. rewrite K3 by apply json_not_private. exact H1.
  - by rewrite K1.
  - by rewrite K1.
  - by rewrite K2.
  - intros r d n Hn Hne. rewrite K3 by done. by apply H7.
Qed.

(** A rewind that was asked for: nothing is staged yet, or its transaction is on
    disk. *)
Definition staged (root sid : string) (target : Z) (op : string) v0 v : Prop :=
  ∃ steps, (∀ key st, last_for steps key = Some st ↔ first_record v0 root sid target key st) ∧
    unfinished root v0 (mkHandle sid op) target steps v.
Definition asked (root sid : string) (target : Z) (op : string) v0 v : Prop :=
  same_files v0 v ∨ staged root sid target op v0 v.

Lemma prepare_rewind_spec root sid target op v0 v :
  tree (workspace v0) → tx_doc v0 root sid = None → asked root sid target op v0 v →
  wpv (prepare_rewind root sid target op) v
    (λ h v', h = mkHandle sid op ∧ staged root sid target op v0 v') (asked root sid target op v0).
Proof.
  intros Ht H0 Ha.
  assert (Hkeep : ∀ v', same_files v v' → asked root sid target op v0 v').
  { intros v' Hs. destruct Ha as [Ha|(steps & Hl & k & phase & H)]; [left; by eapply same_files_trans|right].
    exists steps. split; [done|]. exists k, phase. by eapply rewinding_same. }
  unfold prepare_rewind. wpv_step. wpv_step. eapply wpv_mono; [apply reference_writer_spec| |apply Hkeep].
  intros [] v1 Hs%Hkeep. clear Hkeep Ha v. rename v1 into v, Hs into Ha.
  do 2 (wpv_skip; [|done]). do 2 wpv_step. rewrite lookup_doc_docs. fold (tx_doc v root sid).
  destruct Ha as [Hs|Hst].
  - unfold tx_doc in *. rewrite (sf_docs _ _ Hs) by apply json_not_private. rewrite H0.
    wpv_step. eapply wpv_mono; [apply build_rewind_steps_spec| |by intros v' ->; left].
    intros steps v' [-> Hl]. wpv_skip; [|by left]. cbv zeta. wpv_step.
    assert (Hl' : ∀ key st, last_for steps key = Some st ↔ first_record v0 root sid target key st).
    { intros key st. rewrite Hl. split; apply first_record_same; [|done].
      destruct Hs as [S1 S2 S3]. split; [done|done|]. intros. by rewrite S3. }
    assert (Hready : ∀ v', docs_kept root ["rewinds"] (rewind_filename sid) v v' →
      docs v' root ["rewinds"] !! rewind_filename sid = Some (ser_transaction
        (mkTransaction REWIND_TRANSACTION_VERSION (mkHandle sid op) target steps 0 empty_report Applying)) →
      staged root sid target op v0 v').
    { intros v' [K1 K2 K3 K4] Hd. exists steps. split; [done|]. exists 0%nat, Applying.
      split; [done|lia|done| | | |].
      - rewrite K1, (sf_workspace _ _ Hs). done.
      - intros p _. left. unfold settled_as. cbn. left. by rewrite K1, (sf_workspace _ _ Hs).
      - by rewrite K2, (sf_blobs _ _ Hs).
      - intros r d n Hn Hne. rewrite K4 by done. by apply (sf_docs _ _ Hs). }
    eapply wpv_mono; [apply write_rewind_transaction_spec| |]; cbn [tx_handle handle_session].
    + intros [] v' [Hk Hd]. wpv_step. split; [done|]. by apply Hready.
    + intros v' [Hk [Hd|Hd]]; [|right; by apply Hready]. left. eapply same_files_trans; [done|].
      eapply same_files_before. by split.
  - pose proof Hst as (steps & Hl & k & phase & H). pose proof (rw_doc _ _ _ _ _ _ _ _ H) as Hd.
    cbn [handle_session] in Hd. rewrite Hd. wpv_step. eapply wpv_mono; [apply load_rewind_transaction_spec| |by intros v' ->; right].
    intros tx v' (-> & (d & Hd' & Htx) & _). rewrite Hd in Hd'. injection Hd' as <-.
    rewrite de_ser_transaction in Htx. injection Htx as <-. cbn. case_match; [|wpv_step; by right].
    by wpv_step.
Qed.

(** * Every attempt of a rewind *)

(** The volumes that attempts to rewind lead to: each is prepared or applied, by
    a process with faults of its own, and returns, fails or dies. *)
Inductive rewind_attempts (root sid : string) (target : Z) (op : string) v0 : Volume → Prop :=
| no_attempt : rewind_attempts root sid target op v0 v0
| attempt_prepare s r s' :
    rewind_attempts root sid target op v0 (volume s) →
    prepare_rewind root sid target op s = (r, s') →
    rewind_attempts root sid target op v0 (volume s')
| attempt_apply s r s' :
    rewind_attempts root sid target op v0 (volume s) →
    apply_rewind root (mkHandle sid op) s = (r, s') →
    rewind_attempts root sid target op v0 (volume s').

Lemma apply_without_transaction root h v :
  tx_doc v root (handle_session h) = None → wpv (apply_rewind root h) v (λ _ _, False) (λ v', v' = v).
Proof.
  intros Hd. unfold apply_rewind. wpv_step. unfold apply_rewind_in. wpv_skip; [|done]. wpv_step.
  eapply wpv_mono; [apply load_rewind_transaction_spec| |done]. intros tx v' (-> & (d & Hd' & _) & _). congruence.
Qed.
Lemma apply_asked root sid target op v0 v :
  tx_doc v0 root sid = None → asked root sid target op v0 v →
  wpv (apply_rewind root (mkHandle sid op)) v
    (λ c v', ∃ steps, (∀ key st, last_for steps key = Some st ↔ first_record v0 root sid target key st) ∧
       c = mkCommit (mkHandle sid op) target (report_of steps) ∧
       rewinding root v0 (mkHandle sid op) target steps (length steps) WorkspaceCommitted v')
    (asked root sid target op v0).
Proof.
  intros H0 [Hs|(steps & Hl & H)].
  - eapply wpv_mono; [apply apply_without_transaction|done|by intros v' ->; left].
    unfold tx_doc in *. cbn. by rewrite (sf_docs _ _ Hs) by apply json_not_private.
  - eapply wpv_mono; [by eapply apply_rewind_spec| |].
    + intros c v' [-> H']. by exists steps.
    + intros v' H'. right. by exists steps.
Qed.
Lemma attempts_asked root sid target op v0 v :
  tree (workspace v0) → tx_doc v0 root sid = None → rewind_attempts root sid target op v0 v →
  asked root sid target op v0 v.
Proof.
  intros Ht H0. induction 1 as [|s r s' _ IH E|s r s' _ IH E].
  - left. apply same_files_refl.
  - pose proof (prepare_rewind_spec root sid target op v0 _ Ht H0 IH s eq_refl) as H. rewrite E in H.
    destruct r; [right; by apply H|done|done].
  - pose proof (apply_asked root sid target op v0 _ H0 IH s eq_refl) as H. rewrite E in H.
    destruct r; [|done|done]. destruct H as (steps & Hl & -> & H). right. exists steps. split; [done|]. by eexists _, _.
Qed.

Lemma last_for_snoc steps step key : last_for (steps ++ [step]) key =
  if decide (step_path step = key) then Some (step_state step) else last_for steps key.
Proof.
  unfold last_for. rewrite omap_app. cbn. unfold key_record at 2.
  destruct (decide _); [by rewrite last_snoc|by rewrite app_nil_r].
Qed.
Lemma report_unrestorable steps key reason :
  unrestorable (report_of steps) !! key = Some reason ↔ last_for steps key = Some (Unrestorable reason).
Proof.
  unfold report_of. induction steps as [|step steps IH] using rev_ind; [done|].
  rewrite foldl_snoc, last_for_snoc. unfold report_step.
  destruct (decide (step_path step = key)) as [<-|Hne]; destruct (step_state step) as [b n m| |r]; cbn [unrestorable];
    rewrite ?lookup_delete_eq, ?lookup_insert_eq, ?lookup_delete_ne, ?lookup_insert_ne by done; try done; naive_solver.
Qed.

Lemma committed_settled root v0 h target steps v :
  rewinding root v0 h target steps (length steps) WorkspaceCommitted v →
  ∀ p, is_temp p = false → settled_as (workspace v0) (workspace v) steps p.
Proof.
  intros H p Hp. destruct (rw_half _ _ _ _ _ _ _ _ H p Hp) as [Hq|(x & Hx & _)]; [by rewrite firstn_all in Hq|].
  apply lookup_lt_Some in Hx. lia.
Qed.
(** The workspace of a committed rewind, before and after its transaction is
    acknowledged *)
Record rewound_to (root sid : string) (target : Z) v0 v : Prop := mkRewoundTo {
  rt_tree : tree (workspace v);
  rt_recorded : ∀ key st, is_temp (path_segments key) = false → first_record v0 root sid target key st →
    as_recorded st (workspace v !! path_segments key);
  rt_others : ∀ p, is_temp p = false → (∀ key st, path_segments key = p → ¬ first_record v0 root sid target key st) →
    grown (workspace v0 !! p) (workspace v !! p);
  rt_docs : ∀ r d n, is_private_temporary n = false → (r, d, n) ≠ (root, ["rewinds"], rewind_filename sid) →
    docs v r d !! n = docs v0 r d !! n;
}.
Lemma committed_rewound root sid target op v0 steps v :
  (∀ key st, last_for steps key = Some st ↔ first_record v0 root sid target key st) →
  rewinding root v0 (mkHandle sid op) target steps (length steps) WorkspaceCommitted v →
  rewound_to root sid target v0 v.
Proof.
  intros Hl H. pose proof (committed_settled _ _ _ _ _ _ H) as Hset. split.
  - by eapply rw_tree.
  - intros key st Hk Hf. specialize (Hset _ Hk). unfold settled_as in Hset. rewrite last_record_for in Hset.
    apply Hl in Hf. by rewrite Hf in Hset.
  - intros p Hp Hno. specialize (Hset _ Hp). unfold settled_as in Hset.
    destruct (last_record steps p) as [st|] eqn:El; [|done]. exfalso.
    assert (∃ key, path_segments key = p) as [key <-].
    { unfold last_record in El. apply last_Some_elem_of, list_elem_of_omap in El as (x & _ & Ex).
      unfold record_at in Ex. case_decide; [by eexists|done]. }
    rewrite last_record_for in El. apply Hl in El. by eapply Hno.
  - intros r d n Hn Hne. by eapply rw_docs.
Qed.

(** C10: A rewind is all or nothing, whatever interrupts it, for every path that
    does not have the name of a private temporary file: of those, which the writes
    make beside their targets, a process that dies in the middle of a write
    leaves one behind, and nothing is said.  A rewind is asked for
    on a volume without a pending one; it is prepared and applied by any number
    of processes, each of which may fail or die at any system call, in the middle
    of a write too.  When one of them returns the commit, every path that a turn
    after the target recorded is what its first such record says: the recorded
    contents and mode, or not a file.  Every other path is as it was, up to
    directories made where there was nothing.  The report names exactly the
    paths whose first record could not be restored, and no blob is lost. *)
Theorem rewind_survives_crashes (root sid : string) (target : Z) (op : string) v0 (s s' : Machine) (c : RewindCommit) :
  tree (workspace v0) → tx_doc v0 root sid = None →
  rewind_attempts root sid target op v0 (volume s) →
  apply_rewind root (mkHandle sid op) s = (Returned c, s') →
  commit_handle c = mkHandle sid op ∧ commit_target c = target ∧
  (∀ key st, first_record v0 root sid target key st → is_temp (path_segments key) = false →
     as_recorded st (workspace (volume s') !! path_segments key)) ∧
  (∀ p, is_temp p = false → (∀ key st, first_record v0 root sid target key st → path_segments key ≠ p) →
     grown (workspace v0 !! p) (workspace (volume s') !! p)) ∧
  (∀ key reason, unrestorable (commit_report c) !! key = Some reason ↔
     first_record v0 root sid target key (Unrestorable reason)) ∧
  blobs (volume s') = blobs v0.
Proof.
  intros Ht H0 Ha E. apply attempts_asked in Ha; [|done|done].
  pose proof (apply_asked root sid target op v0 _ H0 Ha s eq_refl) as H. rewrite E in H.
  destruct H as (steps & Hl & -> & H). destruct (committed_rewound root sid target op v0 steps _ Hl H) as [_ H1 H2 _].
  split_and!; [done|done|eauto| | |].
  - intros p Hp Hno. apply H2; [done|]. intros key st Ek Hf. by apply Hno in Hf.
  - intros key reason. rewrite <- Hl. apply report_unrestorable.
  - by eapply rw_blobs.
Qed.
End store.

(** * A volume for the witnesses *)

Module Sample.
(** Documents as they are, one byte long *)
Inductive SampleDoc : Type := DManifest (m : CheckpointManifest) | DTransaction (t : RewindTransaction) | DTorn.
#[export] Instance sample_json : MetadataJson := {|
  Doc := SampleDoc; doc_len := λ _, 1; doc_take := λ _ _, DTorn; json_of := λ _, Some JNull;
  ser_manifest := DManifest; de_manifest := λ d, match d with DManifest m => Some m | _ => None end;
  ser_transaction := DTransaction; de_transaction := λ d, match d with DTransaction t => Some t | _ => None end;
  de_ser_manifest := λ m, eq_refl; de_ser_transaction := λ t, eq_refl |}.
Fixpoint repeated (n : nat) (c : ascii) : string := match n with O => "" | S n => String c (repeated n c) end.
Definition sample_hash (s : string) : string := repeated 64 (if String.eqb s "x" then "a"%char else "b"%char).
#[export] Instance sample_digest : ContentDigest.
Proof. refine {| digest := sample_hash |}. intros s. unfold sample_hash. by destruct (String.eqb s "x"). Defined.
#[export] Instance sample_layout : Layout := {| size_of := λ _, 8; capacity := str_len |}.

(** The file [a] held [x] at the start of turn 1, and a tool changed it to [y]. *)
Definition recorded_a : CheckpointFileState := Present (sample_hash "x") 1 (Some 420).
Definition sample_volume : Volume :=
  mkVolume {[ ["a"] := Regular "y" 420 ]}
    {[ "r" := {[ ["manifests"] := ∅; ["pending"] := ∅; ["rewinds"] := ∅; ["reviews"] := ∅;
                 ["manifests"; "s"] := {[ turn_filename 1 := DManifest (mkManifest 1 "s" 1 {[ "a" := recorded_a ]}) ]} ]} ]}
    {[ sample_hash "x" := "x"%string ]} [] (Some (mkQuota false 0 {[ sample_hash "x" := 1 ]} ["r"])).
Definition boot (v : Volume) (fs : list Fault) : Machine := mkMachine v default_operation 7 0 ∅ fs.
End Sample.

Section witness.
Import Sample.
Definition prepared : Machine := (prepare_rewind "r" "s" 0 "op" (boot sample_volume [])).2.
(** The process dies after the step on the workspace, before it wrote that. *)
Definition died : Machine :=
  (apply_rewind "r" (mkHandle "s" "op") (boot (volume prepared) (repeat Go 30 ++ [Dies 0]))).2.

Lemma volume_boot v fs : volume (boot v fs) = v.
Proof. reflexivity. Qed.
Lemma sample_tree : tree (workspace sample_volume).
Proof.
  intros p n [e He]. left. change (workspace sample_volume) with ({[ ["a"] := Regular "y" 420 ]} : gmap (list string) Entry) in He.
  apply lookup_singleton_Some in He as [He _].
  apply (app_inj_tail [] p) in He as [<- _]. done.
Qed.
Lemma rewind_survives_crashes_witness :
  workspace (volume died) !! ["a"] = Some (Regular "x" 420) ∧
  match apply_rewind "r" (mkHandle "s" "op") (boot (volume died) []) with
  | (Returned c, s') => commit_target c = 0 ∧ as_recorded recorded_a (workspace (volume s') !! ["a"])
  | _ => False
  end.
Proof.
  split; [reflexivity|].
  destruct (apply_rewind "r" (mkHandle "s" "op") (boot (volume died) [])) as [[c|e|] s'] eqn:E;
    [|vm_compute in E; discriminate E|vm_compute in E; discriminate E].
  destruct (rewind_survives_crashes "r" "s" 0 "op" sample_volume (boot (volume died) []) s' c) as (_ & Ht & Hr & _).
  - apply sample_tree.
  - reflexivity.
  - rewrite volume_boot. eapply attempt_apply; [|apply surjective_pairing]. rewrite volume_boot.
    eapply attempt_prepare; [|apply surjective_pairing]. apply no_attempt.
  - exact E.
  - split; [exact Ht|]. apply (Hr "a" recorded_a); [|reflexivity].
    exists 1, {[ "a" := recorded_a ]}. split; [machine_lia|]. split; [lia|].
    split; [vm_compute; reflexivity|]. split; [vm_compute; reflexivity|]. intros; lia.
Defined.

(** After the same death the staged rewind can be discarded, although its step
    has been applied. *)
Example discard_after_applied_step :
  workspace (volume prepared) !! ["a"] = Some (Regular "y" 420) ∧
  workspace (volume died) !! ["a"] = Some (Regular "x" 420) ∧
  (discard_prepared_rewind "r" (mkHandle "s" "op") 0 (boot (volume died) [])).1 = Returned tt.
Proof. split_and!; reflexivity. Qed.
End witness.
