(* ===== verification/CheckpointHistory.v ===== *)
(** Rewinding returns to the workspace of a turn: theorems about histories of
    checkpoints, tools, turns and rewinds ([CheckpointStore]).

    A tool changes only files that the manifest of the current turn records.
    Then every live turn can be returned to: for each path either the manifests
    of the later turns hold what it was, or it is still that. *)
From Stdlib Require Import Ascii.
From S2P Require Import Prelude Text Ir Decimal JournalCatalog BashSafety PermissionRules PermissionIdentity CheckpointDisk CheckpointStore CheckpointRewind.

Section preserves.
Context {CD : ContentDigest} {MJ : MetadataJson} {LY : Layout}.
Implicit Types v : Volume.

(** * Computations that move within a preorder *)

Definition preserves (R : Volume → Volume → Prop) {A} (m : DM A) : Prop :=
  ∀ v, wpv m v (λ _, R v) (R v).
Context (R : Volume → Volume → Prop) `{!PreOrder R}.

Lemma preserves_steady {A} (m : DM A) : steady m → preserves R m.
Proof. intros Hm v. apply wpv_steady; [done|intros _|]; reflexivity. Qed.
Lemma preserves_from {A} (m : DM A) v v0 : preserves R m → R v0 v → wpv m v (λ _, R v0) (R v0).
Proof. intros Hm H0. eapply wpv_mono; [apply Hm|intros a v' H|intros v' H]; by etrans. Qed.
Lemma preserves_bind {A B} (m : DM A) (f : A → DM B) : preserves R m → (∀ a, preserves R (f a)) → preserves R (m ≫= f).
Proof.
  intros Hm Hf v. apply wpv_bind. eapply wpv_mono; [apply Hm| |done]. intros a v' H. by apply preserves_from.
Qed.
Lemma preserves_change f : (∀ v, R v (f v)) → preserves R (change f).
Proof. intros H v. apply wpv_change, H. Qed.
Lemma preserves_sys_write full part :
  (∀ v, R v (full v)) → (∀ n v, R v (part n v)) → preserves R (sys_write full part).
Proof. intros H1 H2 v. by apply wpv_sys_write. Qed.
Lemma preserves_attempt {A} (m : DM A) : preserves R m → preserves R (attempt m).
Proof. intros Hm v. apply wpv_attempt. eapply wpv_mono; [apply Hm|done|done]. Qed.
Lemma preserves_own_operation {A} (m : DM A) : preserves R m → preserves R (own_operation m).
Proof. intros Hm v. apply wpv_own_operation, Hm. Qed.
Lemma preserves_for_each {A} (f : A → DM unit) l : (∀ x, preserves R (f x)) → preserves R (for_each f l).
Proof. intros Hf. induction l; cbn; [apply preserves_steady, steady_ret|]. by apply preserves_bind. Qed.
Lemma preserves_fold_each {A B} (f : B → A → DM B) b l : (∀ b x, preserves R (f b x)) → preserves R (fold_each f b l).
Proof. intros Hf. revert b. induction l; intros b; cbn; [apply preserves_steady, steady_ret|]. by apply preserves_bind. Qed.
End preserves.

Ltac preserves_tac :=
  repeat first
    [ progress intros
    | solve [eauto with preserves]
    | apply preserves_steady; [apply _|solve [eauto with steady]]
    | apply preserves_bind; [apply _| |]
    | apply preserves_for_each; [apply _|]
    | apply preserves_fold_each; [apply _|]
    | apply preserves_attempt
    | apply preserves_own_operation
    | apply preserves_change
    | apply preserves_sys_write
    | match goal with |- preserves _ (match ?x with _ => _ end) => destruct x eqn:? end
    | match goal with |- preserves _ (let _ := _ in _) => cbv zeta end ].
Create HintDb preserves.

Section history.
Context {CD : ContentDigest} {MJ : MetadataJson} {LY : Layout}.
Implicit Types v : Volume.

(** * Published documents *)

Definition published (dir : list string) (name : string) : Prop :=
  is_private_temporary name = false ∧ Forall (λ part, is_private_temporary part = false) dir.
(** The same workspace and the same published documents *)
Record same_published v v' : Prop := mkSamePublished {
  sp_workspace : workspace v' = workspace v;
  sp_docs : ∀ r d n, published d n → docs v' r d !! n = docs v r d !! n;
}.
#[global] Instance same_published_preorder : PreOrder same_published.
Proof.
  split; [by split|]. intros v1 v2 v3 [H1 H2] [K1 K2]. split; [congruence|]. intros r d n Hp. by rewrite K2, H2.
Qed.
Lemma same_published_aside v v' : workspace v' = workspace v → namespaces v' = namespaces v → same_published v v'.
Proof. intros H1 H2. split; [done|]. intros r d n _. by rewrite (docs_namespaces _ _ H2). Qed.
Lemma same_published_files v v' : same_files v v' → same_published v v'.
Proof. intros [H1 H2 H3]. split; [done|]. intros r d n [Hn _]. by apply H3. Qed.
Lemma same_published_edit root dir f v :
  (∀ files n, published dir n → f files !! n = files !! n) → same_published v (edit_directory root dir f v).
Proof.
  intros Hf. split; [done|]. intros r d n Hp. rewrite docs_edit. case_decide as H; [|done].
  destruct H as [-> ->]. by apply Hf.
Qed.
Lemma docs_remove root dir v r d :
  docs (remove_directory root dir v) r d = if decide (r = root ∧ d = dir) then ∅ else docs v r d.
Proof.
  unfold docs, remove_directory. cbn [namespaces].
  destruct (decide (r = root ∧ d = dir)) as [[-> ->]|Hne].
  - rewrite lookup_insert_eq. cbn. by rewrite lookup_delete_eq.
  - destruct (decide (r = root)) as [->|Hr]; [|by rewrite lookup_insert_ne by done].
    rewrite lookup_insert_eq. cbn. rewrite lookup_delete_ne by naive_solver.
    destruct (namespaces v !! root); cbn; [done|by rewrite lookup_empty].
Qed.

Abbreviation keeps_published := (preserves same_published).
#[local] Hint Extern 2 (keeps_published (change (edit_quota _))) =>
  apply preserves_change; intros; by apply same_published_aside : preserves.
#[local] Hint Extern 2 (keeps_published (change (edit_blobs _))) =>
  apply preserves_change; intros; by apply same_published_aside : preserves.
#[local] Hint Extern 2 (keeps_published (change (edit_staging _))) =>
  apply preserves_change; intros; by apply same_published_aside : preserves.

Lemma published_get_quota : steady get_quota.
Proof. unfold get_quota. steady_tac. Qed.
#[local] Hint Resolve published_get_quota steady_require_normalized steady_validate_manifest steady_load_manifest_in
  steady_manifest_turns steady_validate_namespace_directories steady_validate_rewind_report steady_validate_blob
  steady_validate_rewind_steps steady_lock_references : steady.
Lemma published_reference_writer root : keeps_published (reference_writer root).
Proof.
  intros v. eapply wpv_mono; [apply reference_writer_spec| |]; intros; by apply same_published_files.
Qed.
#[local] Hint Resolve published_reference_writer : preserves.

Lemma published_remove_private_file root dir name : keeps_published (remove_private_file root dir name).
Proof.
  unfold remove_private_file. preserves_tac. apply same_published_edit. intros files n [Hn _].
  rewrite lookup_delete_ne; [done|]. congruence.
Qed.
(** Nothing in a temporary directory is published. *)
Lemma published_inside dir name n : is_private_temporary name = true → ¬ published (dir ++ [name]) n.
Proof. intros Hn [_ H]. rewrite Forall_app, Forall_singleton in H. destruct H as [_ H]. congruence. Qed.
Lemma published_remove_private_directory root dir name : keeps_published (remove_private_directory root dir name).
Proof.
  unfold remove_private_directory. preserves_tac.
  - apply same_published_edit. intros files n Hp. by apply published_inside in Hp.
  - split; [done|]. intros r d n Hp. rewrite docs_remove. case_decide as H; [|done]. destruct H as [-> ->].
    by apply published_inside in Hp.
Qed.
#[local] Hint Resolve published_remove_private_file published_remove_private_directory : preserves.
Lemma published_clean_unpublished : keeps_published clean_unpublished.
Proof. unfold clean_unpublished, cleanup_unpublished. preserves_tac. Qed.
Lemma steady_reference live st : steady (reference live st).
Proof. unfold reference. steady_tac. Qed.
#[local] Hint Resolve steady_reference : steady.
Lemma steady_collect_manifest root session live name : steady (collect_manifest root session live name).
Proof. unfold collect_manifest. steady_tac. Qed.
Lemma steady_collect_rewind root live name : steady (collect_rewind root live name).
Proof. unfold collect_rewind. steady_tac. Qed.
#[local] Hint Resolve steady_collect_manifest steady_collect_rewind : steady.
Lemma steady_collect_references : steady collect_references.
Proof. unfold collect_references, collect_namespace. steady_tac. Qed.
Lemma steady_observe_blobs : steady observe_blobs.
Proof. unfold observe_blobs, observe_blob. steady_tac. Qed.
#[local] Hint Resolve steady_collect_references steady_observe_blobs : steady.
Lemma published_reconcile abandoned : keeps_published (reconcile abandoned).
Proof. unfold reconcile, remove_unreferenced, clear_staging. preserves_tac. Qed.
#[local] Hint Resolve published_clean_unpublished published_reconcile : preserves.
Lemma published_begin root : keeps_published (begin root).
Proof. unfold begin. preserves_tac. Qed.
Lemma published_finish_blobs : keeps_published finish_blobs.
Proof. unfold finish_blobs. preserves_tac. Qed.
Lemma published_stage_chunks content copied sizes : keeps_published (stage_chunks content copied sizes).
Proof.
  revert copied. induction sizes as [|n sizes IH]; intros copied; cbn [stage_chunks]; preserves_tac;
    by apply same_published_aside.
Qed.
#[local] Hint Resolve published_stage_chunks : preserves.
Lemma published_capture_blob content mode : keeps_published (capture_blob content mode).
Proof. unfold capture_blob, publish_blob, admit_blob, fits. preserves_tac. by apply same_published_aside. Qed.

(** * What a captured state says *)

(** Of an entry, what a checkpoint keeps.  An empty directory is no file. *)
Inductive Fingerprint : Type :=
| NoFile
| File (content : string) (bytes mode : Z)
| Link (target : string)
| Device.
#[global] Instance Fingerprint_eq_dec : EqDecision Fingerprint.
Proof. solve_decision. Defined.
Definition entry_print (e : option Entry) : Fingerprint :=
  match e with
  | Some (Regular c mode) => File (digest c) (str_len c) (Z.land mode 4095)
  | Some (Symlink t) => Link t
  | Some Special => Device
  | Some Directory | None => NoFile
  end.
(** The record restores an entry with this print. *)
Definition restores (st : CheckpointFileState) (f : Fingerprint) : Prop :=
  match st with
  | Present blob bytes mode => f = File blob bytes (Z.land (default 384 mode) 4095)
  | Absent => f = NoFile
  | Unrestorable _ => False
  end.
Lemma restored_entry_print st f e : restores st f → as_recorded st e → entry_print e = f.
Proof.
  destruct st as [blob bytes mode| |reason]; cbn; intros H He; [|by destruct He as [->| ->]|done].
  destruct He as (c & -> & <- & <-). done.
Qed.
Lemma grown_entry_print e e' : grown e e' → entry_print e' = entry_print e.
Proof. by intros [->|[-> ->]]. Qed.

(** What a computation returns *)
Definition returns {A} (P : A → Prop) (m : DM A) : Prop :=
  ∀ s, match m s with (Returned a, _) => P a | _ => True end.
Lemma returns_bind {A B} (P : B → Prop) (m : DM A) f : (∀ a, returns P (f a)) → returns P (m ≫= f).
Proof. intros Hf s. unfold mbind, dm_bind. destruct (m s) as [[a|e|] s']; [apply Hf|done|done]. Qed.
Lemma wpv_returns {A} (P : A → Prop) (m : DM A) v Q (C : Volume → Prop) :
  returns P m → wpv m v Q C → wpv m v (λ a v', Q a v' ∧ P a) C.
Proof.
  intros Hp Hm s Hs. specialize (Hm s Hs). specialize (Hp s). destruct (m s) as [[a|e|] s']; auto.
Qed.
Lemma capture_blob_returns content mode :
  returns (λ st, st = Present (digest content) (str_len content) mode) (capture_blob content mode).
Proof.
  unfold capture_blob. do 5 (apply returns_bind; intros ?). cbv zeta. apply returns_bind. intros [u|e].
  - do 7 (apply returns_bind; intros ?). by intros s.
  - apply returns_bind. by intros u s.
Qed.

Lemma capture_regular_spec key v :
  tree (workspace v) →
  wpv (capture_regular_confined key) v
    (λ r v', v' = v ∧ match r with
       | None => workspace v !! path_segments key = None
       | Some (c, mode) => ∃ m, workspace v !! path_segments key = Some (Regular c m) ∧ mode = Z.land m 4095
       end) (λ v', v' = v).
Proof.
  intros Ht. unfold capture_regular_confined. wpv_step. eapply wpv_mono; [by apply open_confined_parent_find| |done].
  intros [[parent name]|] v' [-> H]; [|by wpv_step]. wpv_skip; [|done]. do 2 wpv_step. rewrite H.
  destruct (workspace v !! path_segments key) as [[c m|t| |]|] eqn:E; try by wpv_step.
  wpv_skip; [|done]. wpv_step. split; [done|]. by exists m.
Qed.
Lemma capture_spec key v :
  tree (workspace v) →
  wpv (capture key) v
    (λ st v', same_published v v' ∧ restores st (entry_print (workspace v !! path_segments key)))
    (same_published v).
Proof.
  intros Ht. unfold capture. wpv_step.
  eapply wpv_mono; [by apply capture_regular_spec| |by intros v' ->].
  intros [[c mode]|] v' [-> H]; [|by wpv_step; rewrite H].
  destruct H as (m & E & ->). do 2 (wpv_skip; [|done]). wpv_step.
  eapply wpv_mono; [apply wpv_returns; [apply capture_blob_returns|apply published_capture_blob]| |done].
  intros st v1 [Hs ->]. wpv_skip; [|done]. wpv_step. split; [done|]. rewrite E. cbn.
  by rewrite <- Z.land_assoc.
Qed.

(** * A checkpoint *)

(** Records are kept, and new ones state what the workspace holds. *)
Record extends (w : gmap (list string) Entry) (old new : gmap string CheckpointFileState) : Prop := mkExtends {
  ex_kept : ∀ key st, old !! key = Some st → new !! key = Some st;
  ex_new : ∀ key st, new !! key = Some st → old !! key = None →
    restores st (entry_print (w !! path_segments key));
}.
Lemma extends_refl w files : extends w files files.
Proof. split; [done|]. congruence. Qed.
Lemma extends_insert w old new key st :
  extends w old new → new !! key = None → restores st (entry_print (w !! path_segments key)) →
  extends w old (<[key := st]> new).
Proof.
  intros [H1 H2] Hk Hst. split.
  - intros k s Hs. rewrite lookup_insert_ne; [auto|]. intros <-. apply H1 in Hs. congruence.
  - intros k s. destruct (decide (k = key)) as [->|Hne].
    + rewrite lookup_insert_eq. by intros [= <-].
    + rewrite lookup_insert_ne by done. apply H2.
Qed.

Lemma wpv_fold_each_inv {A B} (f : B → A → DM B) l b v (I : list A → B → Volume → Prop) (C : Volume → Prop) :
  I [] b v → (∀ done x b v, I done b v → wpv (f b x) v (I (done ++ [x])%list) C) →
  wpv (fold_each f b l) v (I l) C.
Proof.
  intros H0 Hstep.
  cut (∀ rest acc b v, I acc b v → wpv (fold_each f b rest) v (I (acc ++ rest)%list) C).
  { intros H. by apply (H l []). }
  clear H0 b v. intros rest. induction rest as [|x rest IH]; intros acc b v HI; cbn [fold_each].
  - apply wpv_ret. by rewrite app_nil_r.
  - apply wpv_bind. eapply wpv_mono; [by apply Hstep| |done]. intros b' v' HI'.
    eapply wpv_mono; [by apply IH| |done]. intros b'' v''. by rewrite <- (assoc_L app).
Qed.

Definition covered (paths : list string) (files : gmap string CheckpointFileState) : Prop :=
  ∀ path, path ∈ paths → ∃ key, normalize_relative path = Ok key ∧ is_Some (files !! key).
Lemma capture_paths_spec paths old v :
  tree (workspace v) →
  wpv (fold_each capture_path old paths) v
    (λ files v', same_published v v' ∧ extends (workspace v) old files ∧ covered paths files) (same_published v).
Proof.
  intros Ht. apply (wpv_fold_each_inv _ _ _ _
    (λ done files v', same_published v v' ∧ extends (workspace v) old files ∧ covered done files)).
  { split_and!; [done|apply extends_refl|]. by intros path ?%elem_of_nil. }
  intros done path files v1 (Hs & He & Hc). unfold capture_path.
  assert (Hcov : ∀ key files', normalize_relative path = Ok key → is_Some (files' !! key) →
    (∀ k, is_Some (files !! k) → is_Some (files' !! k)) → covered (done ++ [path]) files').
  { intros key files' Hn Hk Hmono p [Hp|Hp%list_elem_of_singleton]%elem_of_app; [|subst p; by exists key].
    destruct (Hc p Hp) as (k & Hk1 & Hk2). exists k. auto. }
  do 2 wpv_step; [|done]. intros key Hkey. wpv_skip; [|done]. destruct (files !! key) as [st|] eqn:E.
  { wpv_step. split_and!; [done..|]. by apply (Hcov key). }
  wpv_step. pose proof (sp_workspace _ _ Hs) as Ew.
  eapply wpv_mono; [apply capture_spec; by rewrite Ew| |intros v2 H2; by etrans].
  intros st v2 [H2 Hst]. rewrite Ew in Hst. wpv_step. split_and!; [by etrans|by apply extends_insert|].
  apply (Hcov key); [done|by rewrite lookup_insert_eq|]. intros k Hk. destruct (decide (k = key)) as [->|].
  - by rewrite lookup_insert_eq.
  - by rewrite lookup_insert_ne.
Qed.

(** After a checkpoint of a turn, cut off or not *)
Record checkpointed (root sid : string) (turn : Z) v v' : Prop := mkCheckpointed {
  ck_workspace : workspace v' = workspace v;
  ck_docs : ∀ r d n, published d n → (r, d, n) ≠ (root, manifest_directory sid, turn_filename turn) →
    docs v' r d !! n = docs v r d !! n;
  ck_manifest : manifest_at v' root sid turn = manifest_at v root sid turn ∨
    ∃ files, manifest_at v' root sid turn = Some files ∧ extends (workspace v) (records v root sid turn) files;
}.
Lemma published_manifest sid turn :
  is_private_temporary sid = false → published (manifest_directory sid) (turn_filename turn).
Proof. intros Hs. split; [apply json_not_private|]. unfold manifest_directory. by repeat constructor. Qed.
Lemma manifest_at_same v v' root sid turn :
  is_private_temporary sid = false → same_published v v' →
  manifest_at v' root sid turn = manifest_at v root sid turn.
Proof. intros Hs H. unfold manifest_at. by rewrite (sp_docs _ _ H) by by apply published_manifest. Qed.
Lemma checkpointed_same root sid turn v v' :
  is_private_temporary sid = false → same_published v v' → checkpointed root sid turn v v'.
Proof.
  intros Hs H. split; [apply H| |left; by apply manifest_at_same]. intros r d n Hp _. by apply H.
Qed.
Lemma checkpointed_then root sid turn v v1 v2 :
  is_private_temporary sid = false → checkpointed root sid turn v v1 → same_published v1 v2 →
  checkpointed root sid turn v v2.
Proof.
  intros Hs [H1 H2 H3] H. split.
  - by rewrite (sp_workspace _ _ H).
  - intros r d n Hp Hne. rewrite (sp_docs _ _ H) by done. auto.
  - by rewrite (manifest_at_same _ _ _ _ _ Hs H).
Qed.

Lemma manifest_at_doc v root sid turn m :
  docs v root (manifest_directory sid) !! turn_filename turn = Some (ser_manifest m) →
  manifest_at v root sid turn = Some (manifest_files m).
Proof. intros H. unfold manifest_at. rewrite H. cbn. by rewrite de_ser_manifest. Qed.
Lemma persist_manifest_spec root sid turn files v0 v :
  is_private_temporary sid = false → same_published v0 v → extends (workspace v0) (records v0 root sid turn) files →
  wpv (persist_manifest root sid turn files) v
    (λ m v', checkpointed root sid turn v0 v' ∧ m = mkManifest MANIFEST_VERSION sid turn files ∧
             manifest_at v' root sid turn = Some files)
    (checkpointed root sid turn v0).
Proof.
  intros Hs Hv He. unfold persist_manifest, write_manifest. set (m := mkManifest _ _ _ _).
  pose proof (checkpointed_same root sid turn v0 v Hs Hv) as H0.
  do 2 wpv_step. apply wpv_steady; [apply steady_validate_manifest|intros []|done]. wpv_step.
  unfold serialize_metadata. case_match; [by wpv_step|]. wpv_skip; [|done]. wpv_step.
  assert (Hk : ∀ v', docs_kept root (manifest_directory sid) (turn_filename turn) v v' →
    docs v' root (manifest_directory sid) !! turn_filename turn = Some (ser_manifest m) → checkpointed root sid turn v0 v').
  { intros v' [K1 K2 K3 K4] Hd. apply manifest_at_doc in Hd. split.
    - by rewrite K1, (sp_workspace _ _ Hv).
    - intros r d n Hp Hne. rewrite K4 by (apply Hp || done). by apply Hv.
    - right. by exists files. }
  eapply wpv_mono; [apply atomic_replace_spec, json_not_private| |]; cbn [manifest_session manifest_turn].
  - intros [] v' [K Hd]. wpv_step. split_and!; [by apply Hk|done|by apply manifest_at_doc in Hd].
  - intros v' [K [Hd|Hd]]; [|by apply Hk]. eapply checkpointed_then; [done..|].
    apply same_published_files. eapply same_files_before. by split.
Qed.

Lemma checkpoint_known_spec root sid turn paths v :
  tree (workspace v) → is_private_temporary sid = false →
  wpv (checkpoint_known root sid turn paths) v
    (λ m v', checkpointed root sid turn v v' ∧ manifest_at v' root sid turn = Some (manifest_files m) ∧
             covered paths (manifest_files m))
    (checkpointed root sid turn v).
Proof.
  intros Ht Hs. pose proof (λ v', checkpointed_same root sid turn v v' Hs) as Hsame.
  unfold checkpoint_known. wpv_skip; [|by apply Hsame]. wpv_step.
  eapply wpv_mono; [apply published_begin| |apply Hsame]. intros [] v1 H1. do 2 wpv_step.
  rewrite lookup_doc_docs. wpv_step.
  eapply (wpv_mono _ _ (λ files v', v' = v1 ∧ files = records v root sid turn) _ (λ v', v' = v1));
    [| |by intros v' ->; apply Hsame].
  { unfold records. rewrite <- (manifest_at_same _ _ _ _ _ Hs H1).
    destruct (docs v1 root _ !! _) as [d|] eqn:E.
    - wpv_step. eapply wpv_mono; [apply load_manifest_in_spec| |done]. intros m v' [-> Hm]. wpv_step. by rewrite Hm.
    - wpv_step. unfold manifest_at. by rewrite E. }
  intros files v' [-> ->]. wpv_step. pose proof (sp_workspace _ _ H1) as Ew.
  eapply wpv_mono; [apply capture_paths_spec; by rewrite Ew| |intros v2 H2; apply Hsame; by etrans].
  intros files v2 (H2 & He & Hc). rewrite Ew in He. wpv_step.
  eapply wpv_mono; [apply (persist_manifest_spec _ _ _ _ v); [done|by etrans|done]| |done].
  intros m v3 (H3 & -> & Hm). wpv_step.
  eapply wpv_mono; [apply published_finish_blobs| |intros v4 H4; by eapply checkpointed_then].
  intros [] v4 H4. wpv_step. split_and!; [by eapply checkpointed_then| |done].
  by rewrite (manifest_at_same _ _ _ _ _ Hs H4).
Qed.

(** * A rewind that is carried through *)

(** A transaction that is gone, or committed *)
Definition finished (root sid : string) (target : Z) (op : string) v0 v : Prop :=
  tx_doc v root sid = None ∨
  ∃ steps, (∀ key st, last_for steps key = Some st ↔ first_record v0 root sid target key st) ∧
    rewinding root v0 (mkHandle sid op) target steps (length steps) WorkspaceCommitted v.
Lemma rewound_kept root sid target v0 v v' :
  rewound_to root sid target v0 v → docs_kept root ["rewinds"] (rewind_filename sid) v v' →
  rewound_to root sid target v0 v'.
Proof.
  intros [H1 H2 H3 H4] [K1 K2 K3 K4]. split; rewrite ?K1; [done..|]. intros r d n Hn Hne. rewrite K4 by done. auto.
Qed.
Lemma acknowledge_spec root sid op v :
  wpv (acknowledge_rewind root (mkHandle sid op)) v
    (λ _ v', docs_kept root ["rewinds"] (rewind_filename sid) v v' ∧ tx_doc v' root sid = None)
    (λ v', v' = v ∨ docs_kept root ["rewinds"] (rewind_filename sid) v v' ∧ tx_doc v' root sid = None).
Proof.
  unfold acknowledge_rewind. wpv_step. wpv_skip; [|by left]. wpv_step.
  eapply wpv_mono; [apply load_rewind_transaction_spec| |by left].
  intros tx v' (-> & (d & Hd & _) & _). do 2 (wpv_skip; [|by left]). unfold remove_durable.
  wpv_skip; [|by left]. do 2 wpv_step. rewrite lookup_doc_docs. cbn [handle_session] in *.
  unfold tx_doc in Hd. rewrite Hd. do 2 wpv_step.
  assert (docs_kept root ["rewinds"] (rewind_filename sid) v
            (edit_directory root ["rewinds"] (delete (rewind_filename sid)) v)).
  { apply docs_kept_edit. intros files n _ Hn. by rewrite lookup_delete_ne. }
  assert (tx_doc (edit_directory root ["rewinds"] (delete (rewind_filename sid)) v) root sid = None).
  { unfold tx_doc. rewrite docs_edit, decide_True by done. apply lookup_delete_eq. }
  wpv_step; auto.
Qed.
Lemma apply_committed_spec root v0 h target steps v :
  rewinding root v0 h target steps (length steps) WorkspaceCommitted v →
  wpv (apply_rewind root h) v (λ _ v', v' = v) (λ v', v' = v).
Proof.
  intros H. unfold apply_rewind. wpv_step. unfold apply_rewind_in. wpv_skip; [|done].
  wpv_step. eapply wpv_mono; [apply load_rewind_transaction_spec| |done].
  intros tx v' (-> & (d & Hd & Htx) & _ & _). rewrite (rw_doc _ _ _ _ _ _ _ _ H) in Hd.
  injection Hd as <-. rewrite de_ser_transaction in Htx. injection Htx as <-. cbn [tx_handle].
  wpv_skip; [|done]. cbn [tx_phase]. rewrite bool_decide_eq_false_2 by done. by do 3 wpv_step.
Qed.

(** A process returned the commit; it was applied again and acknowledged by any
    number of processes. *)
Inductive rewound (root sid : string) (target : Z) (op : string) v0 : Volume → Prop :=
| rewound_commit s c s' :
    rewind_attempts root sid target op v0 (volume s) →
    apply_rewind root (mkHandle sid op) s = (Returned c, s') →
    rewound root sid target op v0 (volume s')
| rewound_apply s r s' :
    rewound root sid target op v0 (volume s) →
    apply_rewind root (mkHandle sid op) s = (r, s') →
    rewound root sid target op v0 (volume s')
| rewound_acknowledge s r s' :
    rewound root sid target op v0 (volume s) →
    acknowledge_rewind root (mkHandle sid op) s = (r, s') →
    rewound root sid target op v0 (volume s').
Lemma rewound_spec root sid target op v0 v :
  tree (workspace v0) → tx_doc v0 root sid = None → rewound root sid target op v0 v →
  rewound_to root sid target v0 v ∧ finished root sid target op v0 v.
Proof.
  intros Ht H0. induction 1 as [s c s' Ha E|s r s' _ [IH1 IH2] E|s r s' _ [IH1 IH2] E].
  - apply attempts_asked in Ha; [|done|done]. pose proof (apply_asked _ _ _ _ _ _ H0 Ha s eq_refl) as H.
    rewrite E in H. destruct H as (steps & Hl & -> & H). split; [by eapply committed_rewound|]. right. by exists steps.
  - destruct IH2 as [Hd|(steps & Hl & H)].
    + pose proof (apply_without_transaction root (mkHandle sid op) _ Hd s eq_refl) as H. rewrite E in H.
      destruct r; [done|..]; rewrite H; by split; [|left].
    + pose proof (apply_committed_spec _ _ _ _ _ _ H s eq_refl) as H'. rewrite E in H'.
      destruct r; rewrite H'; (split; [done|]); right; by exists steps.
  - pose proof (acknowledge_spec root sid op _ s eq_refl) as H. rewrite E in H.
    assert (volume s' = volume s ∨ docs_kept root ["rewinds"] (rewind_filename sid) (volume s) (volume s') ∧
              tx_doc (volume s') root sid = None) as [->|[Hk Hd]] by (destruct r; [by right|done|done]); [done|].
    split; [by eapply rewound_kept|by left].
Qed.

(** * Histories of a session *)

(** The volume, the current turn and the workspace at the end of each turn that
    can be returned to *)
Record History : Type := mkHistory {
  h_volume : Volume;
  h_turn : Z;
  h_live : gmap Z (gmap (list string) Entry);
}.
(** A new session: no turn has begun beyond the first, no rewind is pending. *)
Record session_start (root sid : string) (h : History) : Prop := mkStart {
  start_tree : tree (workspace (h_volume h));
  start_tx : tx_doc (h_volume h) root sid = None;
  start_turn : u64 (h_turn h);
  start_manifests : ∀ t, u64 t → is_Some (manifest_at (h_volume h) root sid t) → t ≤ h_turn h;
  start_live : h_live h = ∅;
}.
Definition set_workspace (w : gmap (list string) Entry) v : Volume := edit_workspace (λ _, w) v.

Inductive history_step (root sid : string) (h : History) : History → Prop :=
(** A checkpoint of the current turn, with faults of its own *)
| step_checkpoint paths s r s' :
    volume s = h_volume h →
    checkpoint_known root sid (h_turn h) paths s = (r, s') →
    history_step root sid h (mkHistory (volume s') (h_turn h) (h_live h))
(** A tool changes files that the manifest of the turn records, and makes
    directories or temporary files. *)
| step_tool w :
    tree w →
    (∀ p, is_temp p = false → entry_print (w !! p) ≠ entry_print (workspace (h_volume h) !! p) →
       ∃ key, path_segments key = p ∧ is_Some (records (h_volume h) root sid (h_turn h) !! key)) →
    history_step root sid h (mkHistory (set_workspace w (h_volume h)) (h_turn h) (h_live h))
(** The turn ends and a later one begins. *)
| step_turn turn :
    u64 turn → h_turn h < turn →
    history_step root sid h (mkHistory (h_volume h) turn (<[h_turn h := workspace (h_volume h)]> (h_live h)))
(** The session returns to the end of a turn; the later ones are given up. *)
| step_rewind target op v' :
    is_Some (h_live h !! target) →
    rewound root sid target op (h_volume h) v' → tx_doc v' root sid = None →
    history_step root sid h (mkHistory v' (h_turn h) (filter (λ '(t, _), t ≤ target) (h_live h))).

(** No later turn has a record of the path. *)
Definition unrecorded v (root sid : string) (t : Z) (key : string) : Prop :=
  ∀ turn files, u64 turn → t < turn → manifest_at v root sid turn = Some files → files !! key = None.
(** Every path is still what it was in [snap], or a later turn recorded it. *)
Definition returnable v (root sid : string) (t : Z) (snap : gmap (list string) Entry) : Prop :=
  ∀ p, is_temp p = false →
  (∃ key st, path_segments key = p ∧ first_record v root sid t key st ∧ restores st (entry_print (snap !! p))) ∨
  ((∀ key, path_segments key = p → unrecorded v root sid t key) ∧
   entry_print (workspace v !! p) = entry_print (snap !! p)).
Record history_ok (root sid : string) (h : History) : Prop := mkHistoryOk {
  ho_tree : tree (workspace (h_volume h));
  ho_tx : tx_doc (h_volume h) root sid = None;
  ho_turn : u64 (h_turn h);
  ho_manifests : ∀ t, u64 t → is_Some (manifest_at (h_volume h) root sid t) → t ≤ h_turn h;
  ho_live : ∀ t snap, h_live h !! t = Some snap → t < h_turn h ∧ returnable (h_volume h) root sid t snap;
}.

Lemma first_record_unique v root sid t key st st' :
  first_record v root sid t key st → first_record v root sid t key st' → st = st'.
Proof.
  intros (t1 & f1 & Hu1 & Hl1 & Hf1 & Hk1 & Hm1) (t2 & f2 & Hu2 & Hl2 & Hf2 & Hk2 & Hm2).
  destruct (Z.lt_trichotomy t1 t2) as [?|[->|?]]; [|congruence|].
  - rewrite (Hm2 t1 f1) in Hk1 by (done || lia). done.
  - rewrite (Hm1 t2 f2) in Hk2 by (done || lia). done.
Qed.
Lemma unrecorded_first v root sid t key st : unrecorded v root sid t key → ¬ first_record v root sid t key st.
Proof. intros H (turn & files & Hu & Hl & Hf & Hk & _). by rewrite (H turn files) in Hk. Qed.
Lemma unrecorded_later v root sid t t' key : t ≤ t' → unrecorded v root sid t key → unrecorded v root sid t' key.
Proof. intros Hle H turn files Hu Hl. apply H; [done|lia]. Qed.
Lemma first_record_manifests v v' root sid t key st :
  (∀ turn, u64 turn → manifest_at v' root sid turn = manifest_at v root sid turn) →
  first_record v root sid t key st → first_record v' root sid t key st.
Proof.
  intros Hm (turn & files & Hu & Hlt & Hf & Hk & Hmin). exists turn, files. rewrite Hm by done.
  split_and!; [done..|]. intros t' files' Hu'. rewrite Hm by done. by apply Hmin.
Qed.
Lemma returnable_manifests v v' root sid t snap :
  (∀ turn, u64 turn → manifest_at v' root sid turn = manifest_at v root sid turn) →
  (∀ p, is_temp p = false → (∀ key, path_segments key = p → unrecorded v root sid t key) →
     entry_print (workspace v' !! p) = entry_print (workspace v !! p)) →
  returnable v root sid t snap → returnable v' root sid t snap.
Proof.
  intros Hm Hw H p Hp. destruct (H p Hp) as [(key & st & E & Hf & Hr)|[Hn Hfp]].
  - left. exists key, st. split_and!; [done| |done]. by eapply first_record_manifests.
  - right. split; [|by rewrite Hw]. intros key E turn files Hu. rewrite Hm by done. by apply (Hn key E turn files).
Qed.

#[local] Instance recorded_dec p (files : gmap string CheckpointFileState) :
  Decision (∃ key, path_segments key = p ∧ is_Some (files !! key)).
Proof.
  destruct (decide (path_segments (join "/" p) = p ∧ is_Some (files !! join "/" p))) as [H|H]; [left; by eexists|right].
  intros (key & E & Hk). apply H. by rewrite <- E, join_segments.
Defined.
(** A checkpoint records what a path was at the end of every turn that can be
    returned to. *)
Lemma checkpointed_returnable root sid cur t snap v v' :
  u64 cur → t < cur → (∀ turn, u64 turn → is_Some (manifest_at v root sid turn) → turn ≤ cur) →
  workspace v' = workspace v →
  (∀ turn, u64 turn → turn ≠ cur → manifest_at v' root sid turn = manifest_at v root sid turn) →
  ∀ files, manifest_at v' root sid cur = Some files → extends (workspace v) (records v root sid cur) files →
  returnable v root sid t snap → returnable v' root sid t snap.
Proof.
  intros Hcur Ht Hmax Hw Hoth files Hfiles [Hkept Hnew] H p Hp.
  destruct (H p Hp) as [(key & st & E & (turn & fs & Hu & Hlt & Hf & Hk & Hmin) & Hr)|[Hn Hfp]].
  - left. exists key, st. split_and!; [done| |done].
    assert (turn ≤ cur) as Hle by (apply Hmax; [done|by eexists]).
    assert (Hmin' : ∀ t' f', u64 t' → t < t' < turn → manifest_at v' root sid t' = Some f' → f' !! key = None).
    { intros t' f' Hu' Ht'. rewrite Hoth by (done || lia). by apply Hmin. }
    destruct (decide (turn = cur)) as [->|Hne]; [|exists turn, fs; rewrite Hoth by done; done].
    exists cur, files. split_and!; [done..| |done]. apply Hkept. unfold records. by rewrite Hf.
  - assert (Hnone : ∀ key, path_segments key = p → records v root sid cur !! key = None).
    { intros key E. unfold records. destruct (manifest_at v root sid cur) as [fs|] eqn:Em; [|done].
      by apply (Hn key E cur fs). }
    destruct (decide (∃ key, path_segments key = p ∧ is_Some (files !! key))) as [(key & E & [st Hst])|Hno].
    + left. exists key, st. split_and!; [done| |].
      * exists cur, files. split_and!; [done..|]. intros t' f' Hu' Ht'. rewrite Hoth by (done || lia).
        intros Hf'. by apply (Hn key E t' f'); [|lia|].
      * rewrite <- Hfp, <- E. apply Hnew; [done|]. by apply Hnone.
    + right. split; [|by rewrite Hw]. intros key E turn fs Hu Hlt. destruct (decide (turn = cur)) as [->|Hne].
      * rewrite Hfiles. intros [= <-]. apply eq_None_not_Some. intros Hs. apply Hno. by exists key.
      * rewrite Hoth by done. by apply (Hn key E).
Qed.

(** * Every step keeps every turn in reach *)

Lemma tx_published sid : published ["rewinds"] (rewind_filename sid).
Proof. split; [apply json_not_private|by repeat constructor]. Qed.
Lemma checkpoint_step_ok root sid h paths s r s' :
  is_private_temporary sid = false → history_ok root sid h → volume s = h_volume h →
  checkpoint_known root sid (h_turn h) paths s = (r, s') →
  history_ok root sid (mkHistory (volume s') (h_turn h) (h_live h)).
Proof.
  intros Hsid [H1 H2 H3 H4 H5] Es E.
  pose proof (checkpoint_known_spec root sid (h_turn h) paths _ H1 Hsid s Es) as H. rewrite E in H.
  assert (checkpointed root sid (h_turn h) (h_volume h) (volume s')) as [K1 K2 K3] by (destruct r; by try apply H).
  assert (Hm : ∀ t, u64 t → t ≠ h_turn h → manifest_at (volume s') root sid t = manifest_at (h_volume h) root sid t).
  { intros t Ht Hne. unfold manifest_at. rewrite K2; [done|by apply published_manifest|].
    intros [= Ef]. by apply turn_filename_inj in Ef. }
  split; cbn [h_volume h_turn h_live]; [by rewrite K1| |done| |].
  - unfold tx_doc. rewrite K2; [done|apply tx_published|]. by intros [= ? ?].
  - intros t Ht Hs. destruct (decide (t = h_turn h)) as [->|Hne]; [lia|]. rewrite Hm in Hs by done. auto.
  - intros t snap Hl. destruct (H5 t snap Hl) as [Hlt Hr]. split; [done|]. destruct K3 as [K3|(files & Hf & He)].
    + apply (returnable_manifests (h_volume h)); [|by rewrite K1|done]. intros turn Hu.
      destruct (decide (turn = h_turn h)) as [->|Hne]; [done|by apply Hm].
    + by apply (checkpointed_returnable root sid (h_turn h) t snap (h_volume h) _ H3 Hlt H4 K1 Hm files).
Qed.
Lemma rewind_step_ok root sid h target op v' :
  history_ok root sid h → rewound root sid target op (h_volume h) v' → tx_doc v' root sid = None →
  history_ok root sid (mkHistory v' (h_turn h) (filter (λ '(t, _), t ≤ target) (h_live h))).
Proof.
  intros [H1 H2 H3 H4 H5] Hr Hd. apply rewound_spec in Hr as [[K1 K2 K3 K4] _]; [|done|done].
  assert (Hm : ∀ t, u64 t → manifest_at v' root sid t = manifest_at (h_volume h) root sid t).
  { intros t _. unfold manifest_at. rewrite K4; [done|apply json_not_private|]. by intros [= ?]. }
  split; cbn [h_volume h_turn h_live]; [done..| |].
  - intros t Ht. rewrite Hm by done. by apply H4.
  - intros t snap [Hl Hle]%map_lookup_filter_Some. destruct (H5 t snap Hl) as [Hlt Hret]. split; [done|].
    eapply returnable_manifests; [done| |done]. intros p Hp Hn. apply grown_entry_print, K3; [done|].
    intros key st Ek Hf. apply (unrecorded_first _ _ _ _ _ _ (unrecorded_later _ _ _ _ _ _ Hle (Hn key Ek)) Hf).
Qed.
Lemma history_step_ok root sid h h' :
  is_private_temporary sid = false → history_ok root sid h → history_step root sid h h' → history_ok root sid h'.
Proof.
  intros Hsid Hok Hstep. pose proof Hok as [H1 H2 H3 H4 H5].
  destruct Hstep as [paths s r s' Es E|w Hw Htool|turn Hu Hlt|target op v' Hl Hr Hd].
  - by eapply checkpoint_step_ok.
  - split; cbn [h_volume h_turn h_live]; [done..|]. intros t snap Hl. destruct (H5 t snap Hl) as [Hlt Hr].
    split; [done|]. apply (returnable_manifests (h_volume h)); [done| |done]. intros p Hp Hn.
    destruct (decide (entry_print (w !! p) = entry_print (workspace (h_volume h) !! p))) as [|Hne]; [done|].
    destruct (Htool p Hp Hne) as (key & Ek & [st Hst]). unfold records in Hst.
    destruct (manifest_at (h_volume h) root sid (h_turn h)) as [files|] eqn:Em; [|done]. cbn in Hst.
    by rewrite (Hn key Ek _ _ H3 Hlt Em) in Hst.
  - split; cbn [h_volume h_turn h_live]; [done..| |].
    + intros t Ht Hs. specialize (H4 t Ht Hs). lia.
    + intros t snap. destruct (decide (t = h_turn h)) as [->|Hne].
      * rewrite lookup_insert_eq. intros [= <-]. split; [done|]. intros p Hp. right. split; [|done].
        intros key _ turn' files Hu' Hlt' Hf. exfalso. specialize (H4 turn' Hu'). rewrite Hf in H4.
        specialize (H4 (mk_is_Some _ _ eq_refl)). lia.
      * rewrite lookup_insert_ne by done. intros Hl. destruct (H5 t snap Hl) as [? ?]. split; [lia|done].
  - by eapply rewind_step_ok.
Qed.
Lemma history_ok_reachable root sid h0 h :
  is_private_temporary sid = false → session_start root sid h0 → rtc (history_step root sid) h0 h → history_ok root sid h.
Proof.
  intros Hsid [H1 H2 H3 H4 H5] Hr.
  assert (history_ok root sid h0) as H0 by (split; [done..|]; intros t snap; by rewrite H5).
  clear H1 H2 H3 H4 H5. induction Hr as [|h0 h1 h2 Hs _ IH]; [done|]. apply IH. by eapply history_step_ok.
Qed.

(** C9: Rewinding to a turn brings back the workspace of its end.  In a history of
    checkpoints, tools, turns and rewinds, tools change only files that the
    manifest of the current turn records, turn numbers grow, and checkpoints
    and rewinds may fail or die at any system call.  When a rewind to a turn
    that was not given up returns its commit, every path has the contents
    (digest and length), the mode and the kind it had when that turn ended, and
    the report lists nothing as unrestorable.  Temporary files and empty
    directories are not compared. *)
Theorem rewind_returns_to_turn (root sid : string) (h0 h : History) (target : Z) (snap : gmap (list string) Entry)
    (op : string) (s s' : Machine) (c : RewindCommit) :
  is_private_temporary sid = false →
  session_start root sid h0 → rtc (history_step root sid) h0 h → h_live h !! target = Some snap →
  rewind_attempts root sid target op (h_volume h) (volume s) →
  apply_rewind root (mkHandle sid op) s = (Returned c, s') →
  (∀ p, is_temp p = false → entry_print (workspace (volume s') !! p) = entry_print (snap !! p)) ∧
  (∀ key, is_temp (path_segments key) = false → unrestorable (commit_report c) !! key = None).
Proof.
  intros Hsid H0 Hr Hl Ha E. destruct (history_ok_reachable _ _ _ _ Hsid H0 Hr) as [H1 H2 _ _ H5].
  destruct (H5 _ _ Hl) as [_ Hret]. apply attempts_asked in Ha; [|done|done].
  pose proof (apply_asked _ _ _ _ _ _ H2 Ha s eq_refl) as H. rewrite E in H. destruct H as (steps & Hs & -> & H).
  destruct (committed_rewound _ _ _ _ _ _ _ Hs H) as [_ K2 K3 _]. split.
  - intros p Hp. destruct (Hret p Hp) as [(key & st & <- & Hf & Hst)|[Hn Hfp]].
    + eapply restored_entry_print; [done|]. by apply K2.
    + rewrite <- Hfp. apply grown_entry_print, K3; [done|]. intros key st Ek. by apply unrecorded_first, Hn.
  - intros key Hk. apply eq_None_not_Some. intros [reason Hx]. apply report_unrestorable, Hs in Hx.
    destruct (Hret _ Hk) as [(key' & st & Ek & Hf & Hst)|[Hn _]]; [|by eapply unrecorded_first; [apply Hn|]].
    apply path_segments_inj in Ek as ->. by rewrite (first_record_unique _ _ _ _ _ _ _ Hf Hx) in Hst.
Qed.
End history.

Section witness.
Import Sample.
(** A new session: the file [a] holds [x] before turn 1. *)
Definition fresh_workspace : gmap (list string) Entry := {[ ["a"] := Regular "x" 420 ]}.
Definition fresh_volume : Volume := mkVolume fresh_workspace ∅ ∅ [] None.
Definition saved : Machine := (checkpoint_known "r" "s" 1 ["a"] (boot fresh_volume [])).2.
Definition changed_volume : Volume := set_workspace {[ ["a"] := Regular "y" 384 ]} (volume saved).
Definition asked_back : Machine := (prepare_rewind "r" "s" 0 "op" (boot changed_volume [])).2.

Lemma tree_single n e : tree {[ [n] := e ]}.
Proof.
  intros p m [e' He]. left. apply lookup_singleton_Some in He as [He _].
  apply (app_inj_tail [] p) in He as [<- _]. done.
Qed.
Lemma saved_workspace : workspace (volume saved) = fresh_workspace.
Proof.
  pose proof (checkpoint_known_spec "r" "s" 1 ["a"] fresh_volume (tree_single _ _) eq_refl (boot fresh_volume []) eq_refl) as H.
  unfold saved. destruct (checkpoint_known "r" "s" 1 ["a"] (boot fresh_volume [])) as [[m|e|] s']; [destruct H as [H _]|..];
    apply H.
Qed.
Lemma saved_record : records (volume saved) "r" "s" 1 !! "a"%string = Some recorded_a.
Proof. vm_compute. reflexivity. Qed.
Definition sample_live : gmap Z (gmap (list string) Entry) := <[0 := fresh_workspace]> ∅.
Lemma sample_history : rtc (history_step "r" "s") (mkHistory fresh_volume 0 ∅) (mkHistory changed_volume 1 sample_live).
Proof.
  apply (rtc_l _ _ (mkHistory fresh_volume 1 sample_live)).
  { apply (step_turn "r" "s" (mkHistory fresh_volume 0 ∅) 1); [machine_lia|cbn; lia]. }
  apply (rtc_l _ _ (mkHistory (volume saved) 1 sample_live)).
  { eapply (step_checkpoint "r" "s" (mkHistory fresh_volume 1 sample_live) ["a"] (boot fresh_volume []) _ saved);
      [reflexivity|apply surjective_pairing]. }
  apply rtc_once, (step_tool "r" "s" (mkHistory (volume saved) 1 sample_live)); [apply tree_single|].
  cbn [h_volume h_turn]. intros p _ Hne. destruct (decide (p = ["a"])) as [->|Hp].
  - exists "a"%string. split; [reflexivity|]. rewrite saved_record. by eexists.
  - exfalso. apply Hne. rewrite saved_workspace. unfold fresh_workspace. by rewrite !lookup_singleton_ne.
Qed.
Lemma rewind_returns_to_turn_witness :
  match apply_rewind "r" (mkHandle "s" "op") (boot (volume asked_back) []) with
  | (Returned c, s') => entry_print (workspace (volume s') !! ["a"]) = File (digest "x") 1 420
  | _ => False
  end.
Proof.
  destruct (apply_rewind "r" (mkHandle "s" "op") (boot (volume asked_back) [])) as [[c|e|] s'] eqn:E;
    [|vm_compute in E; discriminate E|vm_compute in E; discriminate E].
  destruct (rewind_returns_to_turn "r" "s" (mkHistory fresh_volume 0 ∅)
    (mkHistory changed_volume 1 sample_live) 0 fresh_workspace "op"
    (boot (volume asked_back) []) s' c) as [H _].
  - reflexivity.
  - split; [apply tree_single|reflexivity|cbn; machine_lia| |reflexivity].
    intros t _ [files Hf]. unfold manifest_at in Hf. cbn [h_volume] in Hf.
    assert (docs fresh_volume "r" (manifest_directory "s") = ∅) as Ed by reflexivity. by rewrite Ed in Hf.
  - apply sample_history.
  - apply lookup_insert_eq.
  - rewrite volume_boot. eapply attempt_prepare; [|apply surjective_pairing]. rewrite volume_boot. apply no_attempt.
  - exact E.
  - exact (H ["a"] eq_refl).
Defined.
End witness.
