(* ===== verification/CheckpointBlobs.v ===== *)
(** No blob that a record needs is collected: theorems about the blobs of
    [CheckpointStore].

    The collector deletes a blob that no document of a registered namespace
    references and that its own process does not protect.  Every state on disk
    between two system calls keeps the contents of every published record. *)
From Stdlib Require Import Ascii.
From S2P Require Import Prelude Text Ir Decimal JournalCatalog BashSafety PermissionRules PermissionIdentity CheckpointDisk CheckpointStore CheckpointRewind CheckpointHistory.

(** * Computations and the protected digests of their process *)

Section keeps.
Context {CD : ContentDigest} {MJ : MetadataJson} {LY : Layout}.
Implicit Types (v : Volume) (P : gset string).

(** The computation protects nothing new. *)
Definition keeps {A} (m : DM A) : Prop := ∀ s, protected (m s).2 = protected s.
Lemma keeps_ret {A} (a : A) : keeps (mret a).
Proof. done. Qed.
Lemma keeps_bind {A B} (m : DM A) (f : A → DM B) : keeps m → (∀ a, keeps (f a)) → keeps (m ≫= f).
Proof.
  intros Hm Hf s. unfold mbind, dm_bind. specialize (Hm s). destruct (m s) as [[a|e|] s']; cbn in *; [|done|done].
  by rewrite Hf.
Qed.
Lemma keeps_fail {A} e : keeps (fail (A := A) e).
Proof. done. Qed.
Lemma keeps_crash {A} : keeps (crash (A := A)).
Proof. done. Qed.
Lemma keeps_gets {A} (f : Machine → A) : keeps (gets f).
Proof. done. Qed.
Lemma keeps_change f : keeps (change f).
Proof. done. Qed.
Lemma keeps_change_operation f : keeps (change_operation f).
Proof. done. Qed.
Lemma keeps_fresh_temporary : keeps fresh_temporary.
Proof. done. Qed.
Lemma keeps_next_fault : keeps next_fault.
Proof. intros s. unfold next_fault. by destruct (faults s). Qed.
Lemma keeps_of_result {A} (r : Result A CheckpointError) : keeps (of_result r).
Proof. by destruct r. Qed.
Lemma keeps_guard_or b e : keeps (guard_or b e).
Proof. by destruct b. Qed.
Lemma keeps_attempt {A} (m : DM A) : keeps m → keeps (attempt m).
Proof. intros Hm s. specialize (Hm s). unfold attempt. by destruct (m s) as [[a|e|] s']. Qed.
Lemma keeps_own_operation {A} (m : DM A) : keeps m → keeps (own_operation m).
Proof.
  intros Hm s. unfold own_operation. specialize (Hm (with_operation (λ _, default_operation) s)).
  by destruct (m _) as [r s'].
Qed.
Lemma keeps_for_each {A} (f : A → DM unit) l : (∀ x, keeps (f x)) → keeps (for_each f l).
Proof. intros Hf. induction l; cbn; [done|]. by apply keeps_bind. Qed.
Lemma keeps_fold_each {A B} (f : B → A → DM B) b l : (∀ b x, keeps (f b x)) → keeps (fold_each f b l).
Proof. intros Hf. revert b. induction l; intros b; cbn; [done|]. by apply keeps_bind. Qed.
Lemma keeps_map_each {A B} (f : A → DM B) l : (∀ x, keeps (f x)) → keeps (map_each f l).
Proof.
  intros Hf. induction l; cbn; [done|]. apply keeps_bind; [done|]. intros y. by apply keeps_bind.
Qed.
End keeps.
Create HintDb keeps.
#[export] Hint Resolve keeps_ret keeps_fail keeps_crash keeps_gets keeps_change keeps_change_operation
  keeps_fresh_temporary keeps_next_fault keeps_of_result keeps_guard_or : keeps.
Ltac head_of t := match t with ?f _ => head_of f | _ => t end.
Ltac keeps_tac :=
  repeat first
    [ progress intros
    | solve [eauto with keeps]
    | apply keeps_bind
    | apply keeps_for_each
    | apply keeps_fold_each
    | apply keeps_map_each
    | apply keeps_attempt
    | apply keeps_own_operation
    | match goal with |- keeps (match ?x with _ => _ end) => destruct x end
    | match goal with |- keeps (let _ := _ in _) => cbv zeta end
    | match goal with |- keeps ?m => let h := head_of m in progress unfold h end ].


Section blobs.
Context {CD : ContentDigest} {MJ : MetadataJson} {LY : Layout}.
Implicit Types (v : Volume) (P : gset string).

Lemma keeps_hash_chunks sizes : keeps (hash_chunks sizes).
Proof. induction sizes; cbn [hash_chunks]; keeps_tac. Qed.
Lemma keeps_create_chain root above rest : keeps (create_chain root above rest).
Proof. revert above. induction rest; intros; cbn [create_chain]; keeps_tac. Qed.
Lemma keeps_open_components key create at_ parts : keeps (open_components key create at_ parts).
Proof. revert at_. induction parts; intros; cbn [open_components]; keeps_tac. Qed.
Lemma keeps_stage_chunks content copied sizes : keeps (stage_chunks content copied sizes).
Proof. revert copied. induction sizes; intros; cbn [stage_chunks]; keeps_tac. Qed.
#[local] Hint Resolve keeps_hash_chunks keeps_create_chain keeps_open_components keeps_stage_chunks : keeps.
Lemma keeps_reconcile a : keeps (reconcile a).
Proof. keeps_tac. Qed.
Lemma keeps_clean_unpublished : keeps clean_unpublished.
Proof. keeps_tac. Qed.
Lemma keeps_register root : keeps (register root).
Proof. keeps_tac. Qed.
Lemma keeps_publish_blob name content bytes : keeps (publish_blob name content bytes).
Proof. keeps_tac. Qed.
Lemma keeps_persist_manifest root sid turn files : keeps (persist_manifest root sid turn files).
Proof. keeps_tac. Qed.

(** [wpv] with the protected digests *)
Definition wpp {A} (m : DM A) v P (Q : A → Volume → gset string → Prop) (C : Volume → Prop) : Prop :=
  ∀ s, volume s = v → protected s = P →
  match m s with
  | (Returned a, s') => Q a (volume s') (protected s')
  | (_, s') => C (volume s')
  end.
Lemma wpp_mono {A} (m : DM A) v P (Q Q' : A → Volume → gset string → Prop) (C C' : Volume → Prop) :
  wpp m v P Q C → (∀ a v' P', Q a v' P' → Q' a v' P') → (∀ v', C v' → C' v') → wpp m v P Q' C'.
Proof. intros H HQ HC s Hs Hp. specialize (H s Hs Hp). destruct (m s) as [[]]; auto. Qed.
Lemma wpp_bind {A B} (m : DM A) (f : A → DM B) v P Q (C : Volume → Prop) :
  wpp m v P (λ a v' P', wpp (f a) v' P' Q C) C → wpp (m ≫= f) v P Q C.
Proof.
  intros H s Hs Hp. specialize (H s Hs Hp). unfold mbind, dm_bind.
  destruct (m s) as [[a|e|] s']; [by apply H|done|done].
Qed.
Lemma wpp_ret {A} (a : A) v P (Q : A → Volume → gset string → Prop) (C : Volume → Prop) :
  Q a v P → wpp (mret a) v P Q C.
Proof. by intros ? s <- <-. Qed.
Lemma wpp_wpv {A} (m : DM A) v P (Q : A → Volume → gset string → Prop) (C : Volume → Prop) :
  keeps m → wpv m v (λ a v', Q a v' P) C → wpp m v P Q C.
Proof.
  intros Hk Hm s Hs Hp. specialize (Hm s Hs). specialize (Hk s). destruct (m s) as [[a|e|] s']; cbn in *; [|done|done].
  by rewrite Hk, Hp.
Qed.
Lemma wpp_steady {A} (m : DM A) v P (Q : A → Volume → gset string → Prop) (C : Volume → Prop) :
  keeps m → steady m → (∀ a, Q a v P) → C v → wpp m v P Q C.
Proof. intros Hk Hm HQ HC. apply wpp_wpv; [done|]. by apply wpv_steady. Qed.
Lemma wpp_gets {A} (f : Machine → A) v P (Q : A → Volume → gset string → Prop) (C : Volume → Prop) :
  (∀ s, volume s = v → protected s = P → Q (f s) v P) → wpp (gets f) v P Q C.
Proof. intros H s <- <-. by apply H. Qed.
Lemma wpp_attempt {A} (m : DM A) v P Q (C : Volume → Prop) :
  wpp m v P (λ a, Q (Ok a)) (λ v', C v' ∧ ∀ e P', Q (Err e) v' P') → wpp (attempt m) v P Q C.
Proof.
  intros H s Hs Hp. specialize (H s Hs Hp). unfold attempt. destruct (m s) as [[a|e|] s']; [done| |]; destruct H; auto.
Qed.
Lemma wpp_change_protected f v P (Q : unit → Volume → gset string → Prop) (C : Volume → Prop) :
  Q tt v (f P) → wpp (change_protected f) v P Q C.
Proof. by intros ? s <- <-. Qed.
Lemma wpv_wpp {A} (m : DM A) v (Q : A → Volume → Prop) (C : Volume → Prop) :
  (∀ P, wpp m v P (λ a v' _, Q a v') C) → wpv m v Q C.
Proof. intros H s Hs. apply (H (protected s) s Hs eq_refl). Qed.
Lemma wpp_preserves {A} (R : Volume → Volume → Prop) `{!PreOrder R} (m : DM A) v0 v P :
  keeps m → preserves R m → R v0 v → wpp m v P (λ _ v' P', P' = P ∧ R v0 v') (R v0).
Proof.
  intros Hk Hm H. apply wpp_wpv; [done|]. eapply wpv_mono; [by apply (preserves_from R m v v0)| |done]. by intros a v' H'.
Qed.

(** * What a namespace references *)

Inductive references v (root : string) (b : string) (n : Z) : Prop :=
| ref_manifest sid name d m key mode :
    published (manifest_directory sid) name →
    docs v root (manifest_directory sid) !! name = Some d → de_manifest d = Some m →
    manifest_files m !! key = Some (Present b n mode) → references v root b n
| ref_step name d tx step mode :
    is_private_temporary name = false →
    docs v root ["rewinds"] !! name = Some d → de_transaction d = Some tx →
    step ∈ tx_steps tx → step_state step = Present b n mode → references v root b n.
Definition registered v : list string := match quota v with Some q => q_namespaces q | None => [] end.
(** The bytes of the blob are there. *)
Definition available v (b : string) (n : Z) : Prop :=
  ∃ c, blobs v !! b = Some c ∧ digest c = b ∧ str_len c = n.

(** A loop that gathers references *)
Definition gathers {A} (f : gmap string Z → A → DM (gmap string Z)) v (R : A → string → Prop) : Prop :=
  ∀ live x, wpv (f live x) v (λ live' v', v' = v ∧ dom live ⊆ dom live' ∧ ∀ b, R x b → b ∈ dom live') (λ v', v' = v).
Lemma gathers_fold {A} (f : gmap string Z → A → DM (gmap string Z)) v R live l :
  gathers f v R →
  wpv (fold_each f live l) v
    (λ live' v', v' = v ∧ dom live ⊆ dom live' ∧ ∀ x b, x ∈ l → R x b → b ∈ dom live') (λ v', v' = v).
Proof.
  intros Hf. eapply wpv_mono; [apply (wpv_fold_each f l live v
    (λ done live', dom live ⊆ dom live' ∧ ∀ x b, x ∈ done → R x b → b ∈ dom live'))| |done].
  - split; [done|]. by intros x b ?%elem_of_nil.
  - intros done x live1 [H1 H2]. eapply wpv_mono; [apply Hf| |done].
    intros live2 v' (-> & H3 & H4). split; [done|]. split; [set_solver|].
    intros y b [Hy|Hy%list_elem_of_singleton]%elem_of_app Hr; [|subst y; by apply H4]. apply H3. by eapply H2.
  - intros live' v' (-> & H1 & H2). done.
Qed.
Definition holds_blob (st : CheckpointFileState) (b : string) : Prop := ∃ n mode, st = Present b n mode.
Lemma reference_gathers v : gathers reference v holds_blob.
Proof.
  intros live st. unfold reference. wpv_skip; [|done].
  destruct st as [blob bytes mode| |reason]; [|by wpv_step; split_and!; [done..|intros b (? & ? & [=])]..].
  do 2 (wpv_skip; [|done]). destruct (live !! blob) as [old|] eqn:E.
  - do 2 (wpv_skip; [|done]). wpv_step. split_and!; [done..|]. intros b (? & ? & [= <- <- <-]). by apply elem_of_dom_2 in E.
  - wpv_skip; [|done]. wpv_step. split_and!; [done|set_solver|]. intros b (? & ? & [= <- <- <-]). set_solver.
Qed.

Definition manifest_blob v (root session : string) (name b : string) : Prop :=
  ∃ d m key st, docs v root ["manifests"; session] !! name = Some d ∧ de_manifest d = Some m ∧
    manifest_files m !! key = Some st ∧ holds_blob st b.
Lemma collect_manifest_gathers root session v : gathers (collect_manifest root session) v (manifest_blob v root session).
Proof.
  intros live name. unfold collect_manifest. do 2 (wpv_skip; [|done]). wpv_step.
  eapply wpv_mono; [apply read_metadata_spec| |done]. intros d v' [-> Hd].
  destruct (de_manifest d) as [m|] eqn:Em; [|by wpv_step]. wpv_skip; [|done]. cbv zeta.
  wpv_step. apply wpv_steady; [apply steady_validate_manifest|intros []|done].
  eapply wpv_mono; [apply (gathers_fold _ v (λ x b, holds_blob x.2 b))| |done].
  - intros live' [key st]. apply reference_gathers.
  - intros live' v' (-> & H1 & H2). split_and!; [done..|]. intros b (d' & m' & key & st & Hd' & Hm' & Hk & Hb).
    simplify_eq. apply (H2 (key, st)); [|done]. by apply elem_of_btree_items.
Qed.
Definition step_blob v (root : string) (name b : string) : Prop :=
  ∃ d tx step, is_private_temporary name = false ∧ docs v root ["rewinds"] !! name = Some d ∧
    de_transaction d = Some tx ∧ step ∈ tx_steps tx ∧ holds_blob (step_state step) b.
Lemma collect_rewind_gathers root v : gathers (collect_rewind root) v (step_blob v root).
Proof.
  intros live name. unfold collect_rewind. destruct (is_private_temporary name) eqn:En.
  { wpv_step. split_and!; [done..|]. intros b (d & tx & step & H & _). congruence. }
  do 2 (wpv_skip; [|done]). wpv_step. eapply wpv_mono; [apply read_metadata_spec| |done]. intros d v' [-> Hd].
  destruct (de_transaction d) as [tx|] eqn:Em; [|by wpv_step]. do 3 (wpv_skip; [|done]).
  wpv_step. apply wpv_steady; [apply steady_validate_rewind_report|intros []|done].
  eapply wpv_mono; [apply (gathers_fold _ v (λ x b, holds_blob (step_state x) b))| |done].
  - intros live' step. wpv_step. apply wpv_steady; [apply steady_require_normalized|intros []|done].
    apply reference_gathers.
  - intros live' v' (-> & H1 & H2). split_and!; [done..|]. intros b (d' & tx' & step & _ & Hd' & Hm' & Hk & Hb).
    simplify_eq. by apply (H2 step).
Qed.

Lemma subdirectories_docs v root dir name n d :
  docs v root (dir ++ [name]) !! n = Some d → name ∈ subdirectories v root dir.
Proof.
  unfold docs, subdirectories. destruct (namespaces v !! root) as [space|]; cbn; [|by rewrite lookup_empty].
  destruct (space !! (dir ++ [name])%list) as [files|] eqn:E; cbn; [|by rewrite lookup_empty]. intros _.
  apply list_elem_of_omap. exists (dir ++ [name])%list. split.
  - apply list_elem_of_fmap. exists ((dir ++ [name])%list, files). split; [done|]. by apply elem_of_map_to_list.
  - unfold child_of. by rewrite last_snoc, decide_True.
Qed.
Lemma collect_namespace_gathers v : gathers collect_namespace v (λ root b, ∃ n, references v root b n).
Proof.
  intros live root. unfold collect_namespace. wpv_skip; [|done].
  wpv_step. apply wpv_steady; [apply steady_validate_namespace_directories|intros []|done].
  do 2 wpv_step. wpv_skip; [|done]. wpv_step.
  eapply wpv_mono; [apply (gathers_fold _ v (λ session b, ∃ name, manifest_blob v root session name b))| |done].
  { intros live1 session. do 2 (wpv_skip; [|done]).
    eapply wpv_mono; [apply (gathers_fold _ v (λ x b, manifest_blob v root session x.1 b))| |done].
    - intros live2 [name d]. apply collect_manifest_gathers.
    - intros live2 v' (-> & H1 & H2). split_and!; [done..|]. intros b [name Hb].
      pose proof Hb as (d & _ & _ & _ & Hd & _). apply (H2 (name, d)); [|done].
      rewrite read_dir_docs. by apply elem_of_map_to_list. }
  intros live1 v' (-> & H1 & H2). wpv_skip; [|done].
  eapply wpv_mono; [apply (gathers_fold _ v (λ x b, step_blob v root x.1 b))| |done].
  { intros live2 [name d]. apply collect_rewind_gathers. }
  intros live2 v' (-> & H3 & H4). split_and!; [done|set_solver|].
  intros b [n [sid name d m key mode Hp Hd Hm Hk|name d tx step mode Hn Hd Htx Hs Hst]].
  - apply H3, (H2 sid); [by eapply (subdirectories_docs v root ["manifests"])|]. exists name, d, m, key, (Present b n mode).
    split_and!; [done..|]. by eexists _, _.
  - apply (H4 (name, d)); [rewrite read_dir_docs; by apply elem_of_map_to_list|]. exists d, tx, step.
    split_and!; [done..|]. by eexists _, _.
Qed.
Lemma collect_references_spec v :
  wpv collect_references v
    (λ live v', v' = v ∧ ∀ root b n, root ∈ registered v → references v root b n → b ∈ dom live) (λ v', v' = v).
Proof.
  unfold collect_references, get_quota, registered. do 3 wpv_step. destruct (quota v) as [q|]; [|by wpv_step].
  wpv_step. eapply wpv_mono; [apply gathers_fold, collect_namespace_gathers| |done].
  intros live v' (-> & _ & H). split; [done|]. intros root b n Hr Hb. apply (H root); [|by exists n].
  by rewrite stable_sort_perm.
Qed.

(** * Collecting *)

(** Nothing but unneeded blobs is gone. *)
Record pruned P v v' : Prop := mkPruned {
  pr_workspace : workspace v' = workspace v;
  pr_namespaces : namespaces v' = namespaces v;
  pr_registered : registered v' = registered v;
  pr_old : ∀ b c, blobs v' !! b = Some c → blobs v !! b = Some c;
  pr_needed : ∀ b, b ∈ P ∨ (∃ root n, root ∈ registered v ∧ references v root b n) → blobs v' !! b = blobs v !! b;
}.
Lemma pruned_refl P v : pruned P v v.
Proof. by split. Qed.
Lemma references_docs v v' root b n : namespaces v' = namespaces v → references v root b n → references v' root b n.
Proof.
  intros E H. pose proof (docs_namespaces _ _ E) as Hd.
  destruct H; [eapply ref_manifest|eapply ref_step]; rewrite ?Hd; done.
Qed.
Lemma pruned_trans P v1 v2 v3 : pruned P v1 v2 → pruned P v2 v3 → pruned P v1 v3.
Proof.
  intros [H1 H2 H3 H4 H5] [K1 K2 K3 K4 K5]. split; [congruence..|auto|].
  intros b Hb. rewrite K5, H5; [done|done|]. destruct Hb as [Hb|(root & n & Hr & Hn)]; [by left|right].
  exists root, n. rewrite H3. split; [done|]. by eapply references_docs.
Qed.
Lemma pruned_aside P f v :
  workspace (f v) = workspace v → namespaces (f v) = namespaces v → registered (f v) = registered v → blobs (f v) = blobs v →
  pruned P v (f v).
Proof. intros E1 E2 E3 E4. split; [done..| |]; by rewrite E4. Qed.
Lemma registered_edit f v : (∀ q, q_namespaces (f q) = q_namespaces q) → registered (edit_quota f v) = registered v.
Proof. intros H. unfold registered, edit_quota. cbn. by destruct (quota v); cbn. Qed.
#[local] Instance pruned_preorder P : PreOrder (pruned P).
Proof. split; [intros v; apply pruned_refl|intros v1 v2 v3; apply pruned_trans]. Qed.

Lemma remove_unreferenced_spec live observed v P :
  (∀ root b n, root ∈ registered v → references v root b n → b ∈ dom live) →
  wpp (remove_unreferenced live observed) v P (λ _ v' P', P' = P ∧ pruned P v v') (pruned P v).
Proof.
  intros Hlive. unfold remove_unreferenced. apply wpp_bind, wpp_gets. intros s _ ->.
  apply wpp_wpv; [keeps_tac|]. wpv_step.
  eapply wpv_mono; [apply (wpv_for_each _ _ _ (λ _, pruned P v) (pruned P v)); [apply pruned_refl|]| |done].
  - intros acc [name bytes] rest v1 El H1. cbn. do 2 (wpv_skip; [|done]).
    assert (Hu : is_unreferenced live P name = true).
    { assert ((name, bytes) ∈ acc ++ (name, bytes) :: rest)%list as Hin by (apply elem_of_app; right; constructor).
      rewrite <- El in Hin. by apply list_elem_of_In, filter_In in Hin as [_ ?]. }
    apply andb_true_iff in Hu as [Hu1%bool_decide_eq_true Hu2%bool_decide_eq_true].
    assert (pruned P v (edit_blobs (delete name) v1)).
    { destruct H1 as [K1 K2 K3 K4 K5]. split; [done..| |].
      - intros b c. cbn. intros [_ Hb]%lookup_delete_Some. auto.
      - intros b Hb. cbn. rewrite lookup_delete_ne; [by apply K5|]. intros <-. destruct Hb as [Hb|(root & n & Hr & Hn)]; [done|].
        apply Hlive, elem_of_dom in Hn as [? Hn]; [congruence|done]. }
    do 3 wpv_step; done.
  - intros [] v1 H1. wpv_skip; [|done]. by wpv_step.
Qed.
Lemma reconcile_spec abandoned v P :
  wpp (reconcile abandoned) v P (λ _ v' P', P' = P ∧ pruned P v v') (pruned P v).
Proof.
  pose proof (pruned_refl P v) as H0. unfold reconcile. apply wpp_bind, wpp_steady; [keeps_tac|steady_tac|intros []|done].
  apply wpp_bind, wpp_wpv; [keeps_tac|]. eapply wpv_mono; [apply collect_references_spec| |by intros v' ->].
  intros live v' [-> Hlive]. apply wpp_bind, wpp_steady; [keeps_tac|apply steady_observe_blobs|intros observed|done].
  apply wpp_bind, wpp_steady; [keeps_tac|steady_tac|intros []|done].
  apply wpp_bind, (wpp_mono _ _ _ (λ _ v' P', P' = P ∧ pruned P v v') _ (pruned P v)).
  - apply (wpp_preserves (pruned P)); [keeps_tac| |done]. unfold clear_staging. preserves_tac; by apply pruned_aside.
  - intros [] v1 P' [-> H1]. apply wpp_bind. eapply wpp_mono; [apply remove_unreferenced_spec| |intros v2 H2; by etrans].
    { intros root b n. rewrite (pr_registered _ _ _ H1). intros Hr Hb. apply (Hlive root b n Hr).
      eapply references_docs; [|done]. by rewrite (pr_namespaces _ _ _ H1). }
    intros observed' v2 P' [-> H2]. apply (wpp_preserves (pruned P)); [keeps_tac| |by etrans].
    preserves_tac; apply pruned_aside; try done; by apply registered_edit.
  - done.
Qed.

(** * The invariant *)

(** The documents of a namespace are written after it was registered, and what
    they reference is there. *)
Definition stored v : Prop :=
  ∀ root b n, references v root b n → root ∈ registered v ∧ available v b n.

(** Blobs that are protected or referenced stay. *)
Record held P v v' : Prop := mkHeld {
  he_workspace : workspace v' = workspace v;
  he_namespaces : namespaces v' = namespaces v;
  he_registered : registered v' = registered v;
  he_blobs : ∀ b c, b ∈ P ∨ (∃ root n, root ∈ registered v ∧ references v root b n) →
    blobs v !! b = Some c → blobs v' !! b = Some c;
}.
#[local] Instance held_preorder P : PreOrder (held P).
Proof.
  split; [by split|]. intros v1 v2 v3 [H1 H2 H3 H4] [K1 K2 K3 K4]. split; [congruence..|].
  intros b c Hb Hc. apply K4; [|by apply H4]. destruct Hb as [Hb|(root & n & Hr & Hn)]; [by left|right].
  exists root, n. rewrite H3. split; [done|]. by eapply references_docs.
Qed.
Lemma held_pruned P v v' : pruned P v v' → held P v v'.
Proof. intros [H1 H2 H3 H4 H5]. split; [done..|]. intros b c Hb Hc. by rewrite H5. Qed.
Lemma held_mono P P' v v' : P ⊆ P' → held P' v v' → held P v v'.
Proof. intros HP [H1 H2 H3 H4]. split; [done..|]. intros b c Hb. apply H4. set_solver. Qed.
Lemma held_aside P f v :
  workspace (f v) = workspace v → namespaces (f v) = namespaces v → registered (f v) = registered v → blobs (f v) = blobs v →
  held P v (f v).
Proof. intros E1 E2 E3 E4. apply held_pruned. by apply pruned_aside. Qed.
Lemma held_protected P b n v v' : b ∈ P → held P v v' → available v b n → available v' b n.
Proof. intros Hb H (c & Hc & Hd). exists c. split; [|done]. apply (he_blobs _ _ _ H); [by left|done]. Qed.
Lemma held_referenced P root b n v v' : stored v → held P v v' → references v root b n → available v' b n.
Proof.
  intros Hs H Hr. destruct (Hs _ _ _ Hr) as [Hreg (c & Hc & Hd)]. exists c. split; [|done].
  apply (he_blobs _ _ _ H); [|done]. right. by exists root, n.
Qed.
Lemma stored_held P v v' : stored v → held P v v' → stored v'.
Proof.
  intros Hs H root b n Hr. apply (references_docs _ v) in Hr; [|by rewrite (he_namespaces _ _ _ H)].
  rewrite (he_registered _ _ _ H). split; [by eapply Hs|by eapply held_referenced].
Qed.

(** * Capturing a file *)

Lemma op_hash_returns content : returns (λ d, d = digest content) (op_hash content).
Proof. unfold op_hash. apply returns_bind. by intros [] s. Qed.
#[local] Hint Resolve steady_op_hash : steady.
Lemma steady_fits bytes : steady (fits bytes).
Proof. unfold fits, get_quota. steady_tac. Qed.
Lemma admit_blob_spec bytes v P :
  wpp (admit_blob bytes) v P (λ _ v' P', P' = P ∧ pruned P v v') (pruned P v).
Proof.
  pose proof (pruned_refl P v) as H0. unfold admit_blob.
  apply wpp_bind, wpp_steady; [keeps_tac|apply steady_fits|intros fit|done].
  apply wpp_bind, (wpp_mono _ _ _ (λ _ v' P', P' = P ∧ pruned P v v') _ (pruned P v)).
  - destruct fit; [by apply wpp_ret|apply reconcile_spec].
  - intros [] v1 P' [-> H1]. apply (wpp_preserves (pruned P)); [keeps_tac| |done].
    apply preserves_steady; [apply _|]. apply steady_bind; [apply steady_fits|steady_tac].
  - done.
Qed.
Lemma publish_blob_spec content v P :
  wpp (publish_blob (digest content) content (str_len content)) v P
    (λ _ v' P', P' = P ∧ held P v v' ∧ available v' (digest content) (str_len content)) (held P v).
Proof.
  assert (held P v v) as H0 by reflexivity. unfold publish_blob. apply wpp_bind, wpp_gets. intros s -> _.
  destruct (blobs v !! digest content) as [existing|] eqn:E.
  - apply wpp_wpv; [keeps_tac|]. wpv_skip; [|done]. wpv_step. wpv_step; [|done]. intros Hl%Z.eqb_eq. wpv_step.
    eapply wpv_mono; [apply wpv_returns; [apply op_hash_returns|apply steady_op_hash]| |by intros v' ->].
    intros found v' [-> ->]. wpv_step. wpv_step; [|done]. intros Hd%String.eqb_eq. wpv_step.
    split; [done|]. split; [by apply held_aside|]. by exists existing.
  - apply wpp_bind. eapply wpp_mono; [apply admit_blob_spec| |apply held_pruned]. intros [] v1 P' [-> H1].
    apply wpp_wpv; [keeps_tac|]. do 4 (wpv_skip; [|by apply held_pruned]). do 2 wpv_step.
    set (v2 := edit_staging tail (edit_blobs <[digest content := content]> v1)).
    assert (held P v v2).
    { destruct (held_pruned _ _ _ H1) as [K1 K2 K3 K4]. split; [done..|]. intros b c Hb Hc. cbn.
      rewrite lookup_insert_ne; [by apply K4|]. congruence. }
    wpv_step; [|done]. split; [done|]. split; [done|]. exists content. split; [|done]. cbn. apply lookup_insert_eq.
Qed.
Lemma held_note_blob P name bytes v :
  held P v (edit_quota (λ q, match q_blobs q !! name with
                             | Some _ => q
                             | None => set_rows (<[name := bytes]> (q_blobs q)) q
                             end) v).
Proof. apply held_aside; try done. apply registered_edit. intros q. by case_match. Qed.
Lemma available_blobs v v' b n : blobs v' = blobs v → available v b n → available v' b n.
Proof. intros E (c & Hc & H). exists c. by rewrite E. Qed.
Lemma stage_chunks_held P content copied sizes : preserves (held P) (stage_chunks content copied sizes).
Proof.
  revert copied. induction sizes as [|n sizes IH]; intros copied; cbn [stage_chunks]; preserves_tac; by apply held_aside.
Qed.
Lemma capture_blob_spec content mode v P :
  wpp (capture_blob content mode) v P
    (λ st v' P', st = Present (digest content) (str_len content) mode ∧ held P v v' ∧ P' = {[digest content]} ∪ P ∧
       available v' (digest content) (str_len content)) (held P v).
Proof.
  assert (Hquota : ∀ f v', (∀ q, q_namespaces (f q) = q_namespaces q) → held P v v' → held P v (edit_quota f v')).
  { intros f v' Hf H'. etrans; [done|]. apply held_aside; [done..|by apply registered_edit|done]. }
  assert (Hstaging : ∀ f v', held P v v' → held P v (edit_staging f v')) by (intros f v' H'; etrans; [done|by apply held_aside]).
  assert (held P v v) as H0 by reflexivity. unfold capture_blob.
  apply wpp_bind, wpp_steady; [keeps_tac|steady_tac|intros []|done].
  apply wpp_bind, wpp_wpv; [keeps_tac|]. wpv_step. apply (Hquota (set_staged MAX_CAPTURE_FILE_BYTES)) in H0; [|done].
  set (v1 := edit_quota _ v) in *. clearbody v1.
  apply wpp_bind, wpp_steady; [keeps_tac|steady_tac|intros []|done].
  apply wpp_bind, wpp_gets. intros s Es _. rewrite Es. clear s Es.
  apply wpp_bind, wpp_wpv; [keeps_tac|]. wpv_step. cbv zeta.
  apply wpp_bind, wpp_attempt, wpp_bind. eapply wpp_mono.
  { apply (wpp_preserves (held P) _ v); [keeps_tac|apply stage_chunks_held|by apply Hstaging]. }
  - intros [] v2 P' [-> H2]. eapply wpp_mono; [apply publish_blob_spec| |].
    + intros [] v3 P' (-> & H3 & Ha). assert (held P v v3) as H by by etrans. clear H2 H3 H0 v1 v2.
      do 2 (apply wpp_bind, wpp_steady; [keeps_tac|steady_tac|intros []|done]).
      apply wpp_bind, wpp_wpv; [keeps_tac|]. wpv_step.
      assert (H' : held P v (edit_quota (λ q, match q_blobs q !! digest content with
                                   | Some _ => q
                                   | None => set_rows (<[digest content := str_len content]> (q_blobs q)) q
                                   end) v3)) by (etrans; [done|apply held_note_blob]).
      apply wpp_bind, wpp_steady; [keeps_tac|steady_tac|intros []|done].
      apply wpp_bind, wpp_change_protected. apply wpp_bind, wpp_steady; [keeps_tac|steady_tac|intros []|done].
      apply wpp_bind, wpp_wpv; [keeps_tac|]. wpv_step. apply wpp_ret.
      split_and!; [done|by apply Hquota|done|by eapply available_blobs; [|exact Ha]].
    + intros v3 H3. assert (held P v v3) as H by by etrans. split; [done|]. intros e P'.
      apply wpp_bind, wpp_wpv; [keeps_tac|]. wpv_step. apply wpp_wpv; [keeps_tac|]. wpv_step. by apply Hstaging.
  - intros v2 H2. split; [done|]. intros e P'.
    apply wpp_bind, wpp_wpv; [keeps_tac|]. wpv_step. apply wpp_wpv; [keeps_tac|]. wpv_step. by apply Hstaging.
Qed.

Lemma wpp_any {A} (m : DM A) v P (Q : A → Volume → Prop) (C : Volume → Prop) :
  wpv m v Q C → wpp m v P (λ a v' _, Q a v') C.
Proof. intros H s Hs _. by apply H. Qed.
Lemma wpp_fold_each {A B} (f : B → A → DM B) l b v P (I : B → Volume → gset string → Prop) (C : Volume → Prop) :
  I b v P → (∀ x b v P, I b v P → wpp (f b x) v P I C) → wpp (fold_each f b l) v P I C.
Proof.
  intros H0 Hf. revert b v P H0. induction l as [|x l IH]; intros b v P H0; cbn [fold_each]; [by apply wpp_ret|].
  apply wpp_bind. eapply wpp_mono; [by apply Hf| |done]. intros b' v' P' H'. by apply IH.
Qed.

Lemma capture_held key v P :
  wpp (capture key) v P
    (λ st v' P', held P v v' ∧ P ⊆ P' ∧ ∀ b n mode, st = Present b n mode → b ∈ P' ∧ available v' b n) (held P v).
Proof.
  assert (held P v v) as H0 by reflexivity. unfold capture.
  apply wpp_bind, wpp_steady; [keeps_tac| |intros file|done].
  { unfold capture_regular_confined, open_confined_parent. steady_tac.
    generalize (@nil string). induction (take _ _) as [|part rest IH]; intros at_; cbn [open_components]; steady_tac. }
  destruct file as [[content mode]|]; [|by apply wpp_ret; split_and!; [done..|intros ? ? ? [=]]].
  do 2 (apply wpp_bind, wpp_steady; [keeps_tac|steady_tac|intros []|done]).
  apply wpp_bind. eapply wpp_mono; [apply capture_blob_spec| |done]. intros st v1 P' (-> & H1 & -> & Ha).
  apply wpp_bind, wpp_steady; [keeps_tac|steady_tac|intros []|done]. apply wpp_ret. split_and!; [done|set_solver|].
  intros b n mode' [= <- <- _]. split; [set_solver|done].
Qed.
(** A record of the manifest that was loaded, or one whose blob is protected *)
Definition secured (old files : gmap string CheckpointFileState) v P : Prop :=
  ∀ key b n mode, files !! key = Some (Present b n mode) →
    old !! key = Some (Present b n mode) ∨ (b ∈ P ∧ available v b n).
Lemma capture_paths_held old paths v P :
  wpp (fold_each capture_path old paths) v P
    (λ files v' P', held P v v' ∧ P ⊆ P' ∧ secured old files v' P') (held P v).
Proof.
  apply wpp_fold_each.
  { split; [done|]. split; [done|]. intros key b n mode Hk. by left. }
  intros path files v1 P1 (H1 & HP & Hs). unfold capture_path.
  do 2 (apply wpp_bind, wpp_steady; [keeps_tac|steady_tac|intros ?|done]). destruct (files !! a) as [st|] eqn:E.
  { by apply wpp_ret. }
  apply wpp_bind. eapply wpp_mono; [apply capture_held| |]; last first.
  { intros v2 H2. etrans; [done|]. by eapply held_mono. }
  intros st v2 P2 (H2 & HP' & Hst). apply wpp_ret. split; [etrans; [done|by eapply held_mono]|].
  split; [set_solver|]. intros key b n mode [[-> Hk]|[Hne Hk]]%lookup_insert_Some; [by right; eapply Hst|].
  destruct (Hs key b n mode Hk) as [?|[Hb Ha]]; [by left|right]. split; [set_solver|]. by eapply held_protected.
Qed.

(** * Opening the store *)

(** Only files that were never published are gone. *)
Record tidied v v' : Prop := mkTidied {
  ti_published : same_published v v';
  ti_blobs : blobs v' = blobs v;
  ti_registered : ∀ root, root ∈ registered v → root ∈ registered v';
}.
#[local] Instance tidied_preorder : PreOrder tidied.
Proof.
  split; [by split|]. intros v1 v2 v3 [H1 H2 H3] [K1 K2 K3]. split; [by etrans|congruence|auto].
Qed.
Lemma references_published v v' root b n : same_published v v' → references v' root b n → references v root b n.
Proof.
  intros H Hr. destruct Hr as [sid name d m key mode Hp Hd|name d tx step mode Hn Hd].
  - eapply ref_manifest; [done| |done..]. by rewrite <- (sp_docs _ _ H).
  - eapply ref_step; [done| |done..]. rewrite <- (sp_docs _ _ H); [done|]. split; [done|by repeat constructor].
Qed.
Lemma stored_tidied v v' : stored v → tidied v v' → stored v'.
Proof.
  intros Hs [H1 H2 H3] root b n Hr. apply (references_published v) in Hr; [|done].
  destruct (Hs _ _ _ Hr) as [Hreg Ha]. split; [by apply H3|]. by eapply available_blobs.
Qed.
Lemma preserves_and {A} (R1 R2 R : Volume → Volume → Prop) (m : DM A) :
  (∀ v v', R1 v v' → R2 v v' → R v v') → preserves R1 m → preserves R2 m → preserves R m.
Proof.
  intros HR H1 H2 v s Hs. specialize (H1 v s Hs). specialize (H2 v s Hs). destruct (m s) as [[a|e|] s']; auto.
Qed.
Definition ledger_kept v v' : Prop := blobs v' = blobs v ∧ ∀ root, root ∈ registered v → root ∈ registered v'.
#[local] Instance ledger_kept_preorder : PreOrder ledger_kept.
Proof. split; [by split|]. intros v1 v2 v3 [H1 H2] [K1 K2]. split; [congruence|auto]. Qed.
Lemma preserves_tidied {A} (m : DM A) : preserves same_published m → preserves ledger_kept m → preserves tidied m.
Proof. apply preserves_and. intros v v' H [H1 H2]. by split. Qed.

#[local] Hint Resolve steady_validate_namespace_directories steady_lock_references steady_validate_manifest
  steady_load_manifest_in steady_build_rewind_steps steady_validate_rewind_steps steady_collect_references : steady.
Lemma ledger_kept_clean_unpublished : preserves ledger_kept clean_unpublished.
Proof.
  unfold clean_unpublished, cleanup_unpublished, remove_private_file, remove_private_directory, get_quota.
  preserves_tac; by split.
Qed.
Lemma ledger_kept_create_directory_durable root dir : preserves ledger_kept (create_directory_durable root dir).
Proof.
  unfold create_directory_durable. preserves_tac. generalize (@nil string).
  induction dir as [|name dir IH]; intros above; cbn [create_chain]; [preserves_tac|].
  apply preserves_bind; [apply _|preserves_tac|]. intros v. apply preserves_bind; [apply _| |by intros].
  unfold create_directory. preserves_tac; by split.
Qed.
Lemma ledger_kept_add_namespace root v : ledger_kept v (edit_quota (add_namespace root) v).
Proof. split; [done|]. intros r. unfold registered, edit_quota. cbn. destruct (quota v) as [q|]; [by right|done]. Qed.
Lemma ledger_kept_open_ledger : preserves ledger_kept open_ledger.
Proof.
  intros v. assert (ledger_kept v v) as H0 by reflexivity. unfold open_ledger. wpv_skip; [|done]. do 3 wpv_step.
  destruct (quota v) eqn:Eq; [wpv_step; by apply wpv_steady; [steady_tac|..]|].
  wpv_skip; [|done]. case_bool_decide; [|by wpv_step]. wpv_skip; [|done]. wpv_step.
  assert (Hk : ledger_kept v (mkVolume (workspace v) (namespaces v) (blobs v) (staging v) (Some (mkQuota true 0 ∅ [])))).
  { split; [done|]. intros root. unfold registered. by rewrite Eq. }
  wpv_skip; [|done]. by apply wpv_steady; [apply steady_change_protected|..].
Qed.
#[local] Hint Resolve ledger_kept_open_ledger ledger_kept_create_directory_durable : preserves.
#[local] Hint Extern 1 (ledger_kept _ (edit_directory _ _ _ _)) => by split : core.
Lemma ledger_kept_reference_writer root : preserves ledger_kept (reference_writer root).
Proof.
  unfold reference_writer, register, get_quota. preserves_tac; [done..|]. apply ledger_kept_add_namespace.
Qed.
Lemma wpv_and {A} (m : DM A) v Q1 Q2 (C1 C2 : Volume → Prop) :
  wpv m v Q1 C1 → wpv m v Q2 C2 → wpv m v (λ a v', Q1 a v' ∧ Q2 a v') (λ v', C1 v' ∧ C2 v').
Proof. intros H1 H2 s Hs. specialize (H1 s Hs). specialize (H2 s Hs). by destruct (m s) as [[a|e|] s']. Qed.
Definition same_quota v v' : Prop := quota v' = quota v.
#[local] Instance same_quota_preorder : PreOrder same_quota.
Proof. split; [done|]. unfold same_quota. congruence. Qed.
Lemma reference_writer_registers root v : wpv (reference_writer root) v (λ _ v', root ∈ registered v') (λ _, True).
Proof.
  unfold reference_writer. wpv_skip; [|done]. wpv_step.
  apply (wpv_mono _ _ (λ _ _, True) _ (λ _, True)); [by intros s _; destruct (open_ledger s) as [[]]| |done].
  intros [] v1 _. unfold register, get_quota. do 3 (wpv_skip; [|done]). do 3 wpv_step.
  destruct (quota v1) as [q|] eqn:Eq; [|by wpv_step]. wpv_step. destruct (mem root (q_namespaces q)) eqn:Em.
  - apply wpv_steady; [steady_tac|intros []|done]. unfold registered. rewrite Eq. by apply mem_elem.
  - wpv_skip; [|done]. wpv_step. eapply wpv_mono; [apply (preserves_from same_quota _ v1 v1); [|reflexivity]| |done].
    { unfold create_directory_durable, create_chain, create_directory. preserves_tac; done. }
    intros [] v2 H2. do 2 (wpv_skip; [|done]). wpv_step. unfold registered, edit_quota. cbn. rewrite H2, Eq. cbn. left.
Qed.
Lemma reference_writer_tidies root v :
  wpv (reference_writer root) v (λ _ v', tidied v v' ∧ root ∈ registered v') (tidied v).
Proof.
  eapply wpv_mono; [apply wpv_and; [apply preserves_tidied|apply reference_writer_registers]|done|by intros v' []].
  - apply published_reference_writer.
  - apply ledger_kept_reference_writer.
Qed.

(** * Operations that keep the invariant *)

Definition maintains {A} (m : DM A) : Prop := ∀ v, stored v → wpv m v (λ _, stored) stored.
Lemma begin_stored root v :
  stored v → wpv (begin root) v (λ _ v', stored v' ∧ root ∈ registered v') stored.
Proof.
  intros Hs. unfold begin. wpv_step. eapply wpv_mono; [apply reference_writer_tidies| |by intros v' H; eapply stored_tidied].
  intros [] v1 [H1 Hr]. pose proof (stored_tidied _ _ Hs H1) as Hs1. clear H1 Hs v. wpv_skip; [|done]. unfold get_quota.
  do 3 wpv_step. destruct (quota v1) as [q|] eqn:Eq; [|by wpv_step]. wpv_step. wpv_skip; [|done]. do 2 wpv_step.
  assert (held ∅ v1 (edit_quota (set_dirty true) v1)) as H2 by (apply held_aside; [done..|by apply registered_edit|done]).
  pose proof (stored_held _ _ _ Hs1 H2) as Hs2. rewrite <- (he_registered _ _ _ H2) in Hr.
  set (v2 := edit_quota _ v1) in *. clearbody v2. clear H2 Hs1 Eq v1.
  destruct (q_dirty q); [|by wpv_step]. wpv_step.
  eapply wpv_mono; [apply (preserves_tidied clean_unpublished)| |by intros v' H; eapply stored_tidied].
  { apply published_clean_unpublished. } { apply ledger_kept_clean_unpublished. }
  intros [] v3 H3. apply wpv_wpp. intros P. eapply wpp_mono; [apply reconcile_spec| |].
  - intros [] v4 P' [_ H4%held_pruned]. split; [eapply stored_held; [by eapply stored_tidied|done]|].
    rewrite (he_registered _ _ _ H4). by apply (ti_registered _ _ H3).
  - intros v4 H4%held_pruned. eapply stored_held; [by eapply stored_tidied|done].
Qed.

(** A new document whose references are there *)
Lemma stored_new_doc root dir name v v' :
  stored v → docs_kept root dir name v v' →
  (∀ b n, references v' root b n → references v root b n ∨ (root ∈ registered v ∧ available v b n)) →
  stored v'.
Proof.
  intros Hs [K1 K2 K3 K4] Hnew root' b n Hr.
  assert (registered v' = registered v) as Er by (unfold registered; by rewrite K3). rewrite Er.
  assert (references v root' b n ∨ (root' ∈ registered v ∧ available v b n)) as [H|[H1 H2]].
  { destruct (decide (root' = root)) as [->|Hne]; [by apply Hnew|left].
    destruct Hr as [sid nm d m key mode Hp Hd|nm d tx step mode Hn Hd].
    - eapply ref_manifest; [done| |done..]. rewrite <- K4; [done|apply Hp|congruence].
    - eapply ref_step; [done| |done..]. rewrite <- K4; [done|done|congruence]. }
  - destruct (Hs _ _ _ H) as [H1 H2]. split; [done|]. by eapply available_blobs.
  - split; [done|]. by eapply available_blobs.
Qed.
Lemma references_kept root dir name v v' b n :
  docs_kept root dir name v v' → docs v' root dir !! name = docs v root dir !! name →
  references v' root b n → references v root b n.
Proof.
  intros [K1 K2 K3 K4] Hd Hr.
  assert (Hall : ∀ d nm, is_private_temporary nm = false → docs v' root d !! nm = docs v root d !! nm).
  { intros d nm Hnm. destruct (decide ((root, d, nm) = (root, dir, name))) as [[= -> ->]|E]; [done|by apply K4]. }
  destruct Hr as [sid nm d m key mode Hp Hd'|nm d tx step mode Hn Hd'].
  - eapply ref_manifest; [done| |done..]. rewrite <- Hall; [done|apply Hp].
  - eapply ref_step; [done| |done..]. by rewrite <- Hall.
Qed.
Lemma stored_replace root dir name d v :
  stored v → is_private_temporary name = false →
  (∀ v' b n, docs_kept root dir name v v' → docs v' root dir !! name = Some d → references v' root b n →
     references v root b n ∨ (root ∈ registered v ∧ available v b n)) →
  wpv (atomic_replace root dir name d) v
    (λ _ v', stored v' ∧ docs_kept root dir name v v' ∧ docs v' root dir !! name = Some d) stored.
Proof.
  intros Hs Hn Hnew. eapply wpv_mono; [by apply atomic_replace_spec| |].
  - intros [] v' [Hk Hd]. split; [|done]. eapply stored_new_doc; [done..|]. intros b n. by apply (Hnew v').
  - intros v' [Hk [Hd|Hd]]; eapply stored_new_doc; try done; intros b n.
    + intros Hr. left. by eapply references_kept.
    + by apply (Hnew v').
Qed.

Lemma persist_manifest_stored root sid turn files v :
  stored v → root ∈ registered v →
  (∀ key b n mode, is_private_temporary sid = false → files !! key = Some (Present b n mode) → available v b n) →
  wpv (persist_manifest root sid turn files) v (λ _, stored) stored.
Proof.
  intros Hs Hr Hf. unfold persist_manifest, write_manifest. set (m := mkManifest _ _ _ _).
  do 2 wpv_step. apply wpv_steady; [steady_tac|intros []|done]. wpv_step.
  unfold serialize_metadata. case_match; [by wpv_step|]. wpv_skip; [|done]. wpv_step.
  eapply wpv_mono; [apply stored_replace; [done|apply json_not_private|]| |done].
  - cbn. intros v' b n [K1 K2 K3 K4] Hd Hb. destruct Hb as [sid' nm d m' key mode Hp Hd' Hm' Hk|nm d tx step mode Hn Hd' Htx Hstep Hst].
    + destruct (decide ((manifest_directory sid', nm) = (manifest_directory sid, turn_filename turn))) as [[= -> ->]|Hne].
      * right. split; [done|]. rewrite Hd in Hd'. injection Hd' as <-. rewrite de_ser_manifest in Hm'. injection Hm' as <-.
        eapply Hf; [|done]. destruct Hp as [_ Hp]. unfold manifest_directory in Hp. by apply Forall_cons in Hp as [_ [Hp _]%Forall_cons].
      * left. eapply ref_manifest; [done| |done..]. rewrite <- K4; [done|apply Hp|]. intros [= -> ->]. done.
    + left. eapply ref_step; [done| |done..]. rewrite <- K4; [done|done|]. by intros [=].
  - intros [] v' (Hv & _ & _). by wpv_step.
Qed.

Lemma stored_quota f v : (∀ q, q_namespaces (f q) = q_namespaces q) → stored v → stored (edit_quota f v).
Proof. intros Hf Hs. apply (stored_held ∅ v); [done|]. apply held_aside; [done..|by apply registered_edit|done]. Qed.
Lemma manifest_references v root sid turn files key b n mode :
  is_private_temporary sid = false → manifest_at v root sid turn = Some files →
  files !! key = Some (Present b n mode) → references v root b n.
Proof.
  intros Hsid Hm Hk. unfold manifest_at in Hm. destruct (docs v root _ !! _) as [d|] eqn:Ed; [|done]. cbn in Hm.
  destruct (de_manifest d) as [m|] eqn:Em; [|done]. injection Hm as <-.
  by eapply ref_manifest; [apply (published_manifest sid turn)|..].
Qed.
Lemma checkpoint_known_maintains root sid turn paths : maintains (checkpoint_known root sid turn paths).
Proof.
  intros v Hs. unfold checkpoint_known. wpv_skip; [|done]. wpv_step. eapply wpv_mono; [by apply begin_stored| |done].
  intros [] v1 [Hs1 Hr]. clear Hs v. do 2 wpv_step. rewrite lookup_doc_docs. wpv_step.
  eapply (wpv_mono _ _ (λ files v', v' = v1 ∧ files = records v1 root sid turn) _ (λ v', v' = v1));
    [| |by intros v' ->].
  { unfold records. destruct (docs v1 root _ !! _) as [d|] eqn:E.
    - wpv_step. eapply wpv_mono; [apply load_manifest_in_spec| |done]. intros m v' [-> Hm]. wpv_step. by rewrite Hm.
    - wpv_step. unfold manifest_at. by rewrite E. }
  intros files v' [-> ->]. apply wpv_wpp. intros P. apply wpp_bind.
  eapply wpp_mono; [apply capture_paths_held| |by intros v' H; eapply stored_held].
  intros files v2 P' (H2 & HP & Hsec). pose proof (stored_held _ _ _ Hs1 H2) as Hs2. apply wpp_any. wpv_step.
  eapply wpv_mono; [apply persist_manifest_stored; [done|by rewrite (he_registered _ _ _ H2)|]| |done].
  - intros key b n mode Hsid Hk. destruct (Hsec key b n mode Hk) as [Hold|[_ Ha]]; [|done].
    apply (held_referenced P root b n v1 v2 Hs1 H2). unfold records in Hold.
    destruct (manifest_at v1 root sid turn) as [fs|] eqn:Em; [|done]. by eapply manifest_references.
  - intros m v3 Hs3. unfold finish_blobs. wpv_step. wpv_skip; [|done]. do 2 wpv_step. by apply stored_quota.
Qed.

(** * Rewinds *)

(** The blobs of the steps of a transaction *)
Definition steps_available v (root : string) (steps : list RewindStep) : Prop :=
  ∀ step b n mode, step ∈ steps → step_state step = Present b n mode → root ∈ registered v ∧ available v b n.
Lemma write_rewind_transaction_stored root tx v :
  stored v → steps_available v root (tx_steps tx) →
  wpv (write_rewind_transaction root tx) v (λ _ v', stored v' ∧ steps_available v' root (tx_steps tx)) stored.
Proof.
  intros Hs Ha. unfold write_rewind_transaction. wpv_skip; [|done]. wpv_step.
  unfold serialize_metadata. case_match; [by wpv_step|]. wpv_skip; [|done]. wpv_step.
  eapply wpv_mono; [apply stored_replace; [done|apply json_not_private|]| |done].
  - intros v' b n [K1 K2 K3 K4] Hd Hb. destruct Hb as [sid' nm d m' key mode Hp Hd' Hm' Hk|nm d tx' step mode Hn Hd' Htx Hstep Hst].
    + left. eapply ref_manifest; [done| |done..]. rewrite <- K4; [done|apply Hp|]. by intros [=].
    + destruct (decide (nm = rewind_filename (handle_session (tx_handle tx)))) as [->|Hne].
      * right. rewrite Hd in Hd'. injection Hd' as <-. rewrite de_ser_transaction in Htx. injection Htx as <-. by eapply Ha.
      * left. eapply ref_step; [done| |done..]. rewrite <- K4; [done|done|]. congruence.
  - intros [] v' (Hv & [K1 K2 K3 K4] & _). split; [done|]. intros step b n mode Hst Hp.
    destruct (Ha step b n mode Hst Hp) as [H1 H2]. split; [|by eapply available_blobs].
    unfold registered in *. by rewrite K3.
Qed.
Lemma validate_blob_spec b n v : wpv (validate_blob b n) v (λ _ v', v' = v ∧ available v b n) (λ v', v' = v).
Proof.
  unfold validate_blob. do 2 (wpv_skip; [|done]). do 2 wpv_step. destruct (blobs v !! b) as [c|] eqn:E; [|by wpv_step].
  do 2 wpv_step; [|done]. intros Hl%Z.eqb_eq. wpv_step.
  eapply wpv_mono; [apply wpv_returns; [apply op_hash_returns|apply steady_op_hash]| |done].
  intros found v' [-> ->]. wpv_step; [|done]. intros Hd%String.eqb_eq. split; [done|]. by exists c.
Qed.
Lemma validate_rewind_steps_spec steps v :
  wpv (validate_rewind_steps true steps) v
    (λ _ v', v' = v ∧ ∀ step b n mode, step ∈ steps → step_state step = Present b n mode → available v b n) (λ v', v' = v).
Proof.
  eapply wpv_mono; [apply (wpv_for_each _ steps v (λ acc v', v' = v ∧
    ∀ step b n mode, step ∈ acc → step_state step = Present b n mode → available v b n))| |done]; cbv beta.
  - split; [done|]. by intros step b n mode ?%elem_of_nil.
  - intros acc x rest v' _ [-> H]. do 2 (wpv_skip; [|done]).
    wpv_step. apply wpv_steady; [apply steady_require_normalized|intros []|done].
    assert (Hx : ∀ v', v' = v → (∀ b n mode, step_state x = Present b n mode → available v b n) →
      v' = v ∧ ∀ step b n mode, step ∈ (acc ++ [x])%list → step_state step = Present b n mode → available v b n).
    { intros v' -> Hx. split; [done|]. intros step b n mode [Hs|Hs%list_elem_of_singleton]%elem_of_app; [by eapply H|subst step; apply Hx]. }
    destruct (step_state x) as [blob bytes mode| |reason] eqn:E.
    + wpv_skip; [|done]. eapply wpv_mono; [apply validate_blob_spec| |done]. intros [] v' [-> Ha].
      apply Hx; [done|]. by intros b n m [= <- <- _].
    + wpv_step. by apply Hx.
    + wpv_step; [|done]. intros _. by apply Hx.
  - by intros [] v' H.
Qed.
Lemma prepare_rewind_maintains root sid target op : maintains (prepare_rewind root sid target op).
Proof.
  intros v Hs. unfold prepare_rewind. do 2 wpv_step.
  eapply wpv_mono; [apply reference_writer_tidies| |by intros v' H; eapply stored_tidied].
  intros [] v1 [H1 Hr]. pose proof (stored_tidied _ _ Hs H1) as Hs1. clear H1 Hs v. do 2 (wpv_skip; [|done]). do 2 wpv_step.
  rewrite lookup_doc_docs. destruct (docs v1 root _ !! _) as [d|].
  - wpv_step. eapply wpv_mono; [apply load_rewind_transaction_spec| |by intros v' ->].
    intros tx v' (-> & _). case_match; by wpv_step.
  - wpv_step. apply wpv_steady; [steady_tac|intros steps|done]. wpv_step.
    eapply wpv_mono; [apply validate_rewind_steps_spec| |by intros v' ->]. intros [] v' [-> Ha]. cbv zeta. wpv_step.
    eapply wpv_mono; [apply write_rewind_transaction_stored; [done|]| |done].
    + intros step b n mode Hst Hp. split; [done|]. by eapply Ha.
    + intros [] v' [H _]. by wpv_step.
Qed.

(** Only the workspace has changed. *)
Definition same_store v v' : Prop := namespaces v' = namespaces v ∧ blobs v' = blobs v ∧ quota v' = quota v.
#[local] Instance same_store_preorder : PreOrder same_store.
Proof. split; [done|]. unfold same_store. intros v1 v2 v3 (? & ? & ?) (? & ? & ?). split_and!; congruence. Qed.
Lemma stored_same v v' : stored v → same_store v v' → stored v'.
Proof.
  intros Hs (H1 & H2 & H3) root b n Hr. apply (references_docs _ v) in Hr; [|done].
  destruct (Hs _ _ _ Hr) as [Hreg Ha]. split; [unfold registered in *; by rewrite H3|]. by eapply available_blobs.
Qed.
Lemma steps_available_same v v' root steps : steps_available v root steps → same_store v v' → steps_available v' root steps.
Proof.
  intros H (H1 & H2 & H3) step b n mode Hin Hst. destruct (H step b n mode Hin Hst) as [Hreg Ha].
  split; [unfold registered in *; by rewrite H3|]. by eapply available_blobs.
Qed.
Lemma open_components_store key create at_ parts : preserves same_store (open_components key create at_ parts).
Proof. revert at_. induction parts; intros; cbn [open_components]; preserves_tac; done. Qed.
#[local] Hint Resolve open_components_store : preserves.
Lemma restore_state_store key st report : preserves same_store (restore_state key st report).
Proof.
  unfold restore_state, read_valid_blob, restore_regular_confined, remove_file_or_symlink_confined, or_cleanup,
    open_confined_parent, require_normalized. preserves_tac; done.
Qed.
Lemma apply_steps_stored root tx todo v :
  stored v → steps_available v root (tx_steps tx) →
  wpv (apply_steps root tx todo) v
    (λ tx' v', stored v' ∧ tx_steps tx' = tx_steps tx ∧ steps_available v' root (tx_steps tx')) stored.
Proof.
  revert tx v. induction todo as [|step todo IH]; intros tx v Hs Ha; cbn [apply_steps]; [by wpv_step|].
  wpv_skip; [|done]. wpv_step. eapply wpv_mono; [apply (restore_state_store _ _ _ v)| |by intros v' H; eapply stored_same].
  intros report v1 H1. cbv zeta. wpv_step.
  eapply wpv_mono; [apply write_rewind_transaction_stored; [by eapply stored_same|by eapply steps_available_same]| |done].
  intros [] v2 [Hs2 Ha2]. exact (IH (advance_transaction tx report) v2 Hs2 Ha2).
Qed.
Lemma tx_steps_available v root sid d tx :
  stored v → tx_doc v root sid = Some d → de_transaction d = Some tx → steps_available v root (tx_steps tx).
Proof.
  intros Hs Hd Htx step b n mode Hst Hp. eapply Hs. by eapply (ref_step v root b n (rewind_filename sid)); [apply json_not_private|..].
Qed.
Lemma apply_rewind_in_maintains root handle : maintains (apply_rewind_in root handle).
Proof.
  intros v Hs. unfold apply_rewind_in. wpv_skip; [|done]. wpv_step.
  eapply wpv_mono; [apply load_rewind_transaction_spec| |by intros v' ->].
  intros tx v' (-> & (d & Hd & Htx) & _). wpv_skip; [|done].
  pose proof (tx_steps_available _ _ _ _ _ Hs Hd Htx) as Ha. wpv_step. case_match; [|by do 2 wpv_step].
  wpv_step. eapply wpv_mono; [by apply apply_steps_stored| |done]. intros tx' v1 (Hs1 & Et & Ha1). cbv zeta. wpv_step.
  eapply wpv_mono; [by apply write_rewind_transaction_stored| |done]. intros [] v2 [Hs2 _]. by do 2 wpv_step.
Qed.
Lemma remove_durable_maintains root dir name : maintains (remove_durable root dir name).
Proof.
  intros v Hs. unfold remove_durable. wpv_skip; [|done]. do 2 wpv_step. case_match; [|by wpv_step]. do 2 wpv_step.
  assert (stored (edit_directory root dir (delete name) v)).
  { intros r b n Hr. assert (Hsub : ∀ d nm x, docs (edit_directory root dir (delete name) v) r d !! nm = Some x → docs v r d !! nm = Some x).
    { intros dir' nm x. rewrite docs_edit. case_decide as E; [destruct E as [-> ->]|done]. by intros [_ ?]%lookup_delete_Some. }
    assert (references v r b n) as Hr'.
    { destruct Hr; [eapply ref_manifest|eapply ref_step]; eauto. }
    apply (Hs _ _ _ Hr'). }
  wpv_step; done.
Qed.
Lemma maintains_bind {A B} (m : DM A) (f : A → DM B) : maintains m → (∀ a, maintains (f a)) → maintains (m ≫= f).
Proof. intros Hm Hf v Hs. wpv_step. eapply wpv_mono; [by apply Hm| |done]. intros a v' Hs'. by apply Hf. Qed.
Lemma maintains_steady {A} (m : DM A) : steady m → maintains m.
Proof. intros Hm v Hs. by apply wpv_steady. Qed.
Lemma maintains_own_operation {A} (m : DM A) : maintains m → maintains (own_operation m).
Proof. intros Hm v Hs. wpv_step. by apply Hm. Qed.
Lemma maintains_map_each {A B} (f : A → DM B) l : (∀ x, maintains (f x)) → maintains (map_each f l).
Proof.
  intros Hf. induction l; cbn [map_each]; [apply maintains_steady; steady_tac|].
  apply maintains_bind; [done|]. intros y. apply maintains_bind; [done|]. intros ys. apply maintains_steady. steady_tac.
Qed.
Lemma steady_load_rewind_transaction root sid : steady (load_rewind_transaction root sid).
Proof. intros v. eapply wpv_mono; [apply load_rewind_transaction_spec| |done]. by intros tx v' [-> _]. Qed.
#[local] Hint Resolve steady_load_rewind_transaction : steady.
Lemma steady_enumerate_rewinds root : steady (enumerate_rewinds root).
Proof. unfold enumerate_rewinds, read_namespace_directory. steady_tac. Qed.
Lemma discard_maintains root handle target : maintains (discard_prepared_rewind root handle target).
Proof.
  apply maintains_own_operation. do 2 (apply maintains_bind; [apply maintains_steady; steady_tac|intros []]).
  apply maintains_bind; [apply maintains_steady; steady_tac|intros v]. case_match; [|apply maintains_steady; steady_tac].
  do 3 (apply maintains_bind; [apply maintains_steady; steady_tac|intros ?]). apply remove_durable_maintains.
Qed.
Lemma acknowledge_maintains root handle : maintains (acknowledge_rewind root handle).
Proof.
  apply maintains_own_operation. do 4 (apply maintains_bind; [apply maintains_steady; steady_tac|intros ?]).
  apply remove_durable_maintains.
Qed.
Lemma recover_maintains root : maintains (recover_rewinds root).
Proof.
  apply maintains_own_operation, maintains_bind; [apply maintains_steady, steady_enumerate_rewinds|intros handles].
  apply maintains_map_each. intros handle. apply maintains_bind; [apply apply_rewind_in_maintains|intros c].
  apply maintains_steady. steady_tac.
Qed.

(** * Every operation of every process *)

Inductive StoreOperation : Type :=
| Checkpoint (root session_id : string) (turn : Z) (paths : list string)
| Prepare (root session_id : string) (target : Z) (op : string)
| Apply (root : string) (handle : RewindHandle)
| Discard (root : string) (handle : RewindHandle) (target : Z)
| Acknowledge (root : string) (handle : RewindHandle)
| Recover (root : string).
Definition perform (op : StoreOperation) : DM unit :=
  match op with
  | Checkpoint root sid turn paths => _ ← checkpoint_known root sid turn paths; mret tt
  | Prepare root sid target op => _ ← prepare_rewind root sid target op; mret tt
  | Apply root handle => _ ← apply_rewind root handle; mret tt
  | Discard root handle target => discard_prepared_rewind root handle target
  | Acknowledge root handle => acknowledge_rewind root handle
  | Recover root => _ ← recover_rewinds root; mret tt
  end.
Inductive store_step : Volume → Volume → Prop :=
(** A process performs an operation, and returns, fails or dies. *)
| store_performs op s r s' : perform op s = (r, s') → store_step (volume s) (volume s')
(** A recovery lists the handles without the lock and takes it for one handle
    at a time: this is the locked part for one of them, whatever the earlier
    ones left of the operation's budget, and other steps may come between. *)
| store_recovers root handle s r s' :
    apply_rewind_in root handle s = (r, s') → store_step (volume s) (volume s')
(** The workspace changes in any way. *)
| store_workspace w v : store_step v (set_workspace w v).
Lemma perform_maintains op : maintains (perform op).
Proof.
  destruct op; cbn [perform]; try (apply maintains_bind; [|intros ?; apply maintains_steady; steady_tac]).
  - apply checkpoint_known_maintains.
  - apply prepare_rewind_maintains.
  - apply maintains_own_operation, apply_rewind_in_maintains.
  - apply discard_maintains.
  - apply acknowledge_maintains.
  - apply recover_maintains.
Qed.
Lemma stored_reachable v0 v : namespaces v0 = ∅ → rtc store_step v0 v → stored v.
Proof.
  intros H0 Hr. assert (stored v0) as Hs.
  { assert (∀ root d, docs v0 root d = ∅) as Hd by (intros root d; unfold docs; by rewrite H0).
    intros root b n Hb. exfalso. destruct Hb as [sid nm d m key mode Hp Hx|nm d tx step mode Hn Hx]; by rewrite Hd, lookup_empty in Hx. }
  clear H0. induction Hr as [|v0 v1 v2 Hstep _ IH]; [done|]. apply IH. destruct Hstep as [op s r s' E|root handle s r s' E|w v].
  - pose proof (perform_maintains op _ Hs s eq_refl) as H. rewrite E in H. by destruct r.
  - pose proof (apply_rewind_in_maintains root handle _ Hs s eq_refl) as H. rewrite E in H. by destruct r.
  - by eapply stored_same.
Qed.

(** C11: What a checkpoint saved stays restorable.  Start from a store without
    sessions and let any number of processes checkpoint, prepare, apply,
    discard, acknowledge and recover rewinds in any number of namespaces, each
    failing or dying at any system call (a recovery as one operation, or
    handle by handle with other operations in between), while blobs are collected whenever the
    quota is short or the ledger is dirty.  Then every record of every published
    manifest, and every step of every pending rewind, that names a blob finds it
    on disk with the recorded digest and length. *)
Theorem records_stay_restorable (v0 v : Volume) (root sid : string) :
  namespaces v0 = ∅ → rtc store_step v0 v → is_private_temporary sid = false →
  (∀ turn files key b n mode, manifest_at v root sid turn = Some files →
     files !! key = Some (Present b n mode) → available v b n) ∧
  (∀ d tx step b n mode, tx_doc v root sid = Some d → de_transaction d = Some tx →
     step ∈ tx_steps tx → step_state step = Present b n mode → available v b n).
Proof.
  intros H0 Hr Hsid. pose proof (stored_reachable _ _ H0 Hr) as Hs. split.
  - intros turn files key b n mode Hm Hk. by eapply Hs, manifest_references.
  - intros d tx step b n mode Hd Htx Hst Hp. by eapply (tx_steps_available v root sid d tx).
Qed.
End blobs.

Section witness.
Import Sample.
(** A process dies after it published the manifest of turn 1; the next one finds
    the ledger dirty and collects before it checkpoints turn 2. *)
Definition abandoned : Machine := (perform (Checkpoint "r" "s" 1 ["a"]) (boot fresh_volume (repeat Go 80 ++ [Dies 0]))).2.
Definition collected : Machine := (perform (Checkpoint "r" "s" 2 ["a"]) (boot (volume abandoned) [])).2.
Lemma collected_record : records (volume collected) "r" "s" 1 !! "a"%string = Some recorded_a.
Proof. vm_compute. reflexivity. Qed.
Lemma records_stay_restorable_witness :
  (q_dirty <$> quota (volume abandoned)) = Some true ∧ available (volume collected) (sample_hash "x") 1.
Proof.
  split; [vm_compute; reflexivity|].
  destruct (records_stay_restorable fresh_volume (volume collected) "r" "s") as [H _]; [reflexivity| |reflexivity|].
  - apply (rtc_l _ _ (volume abandoned)).
    + rewrite <- (volume_boot fresh_volume (repeat Go 80 ++ [Dies 0])) at 1. eapply store_performs. apply surjective_pairing.
    + apply rtc_once. rewrite <- (volume_boot (volume abandoned) []) at 1. eapply store_performs. apply surjective_pairing.
  - pose proof collected_record as Hr. unfold records in Hr.
    destruct (manifest_at (volume collected) "r" "s" 1) as [files|] eqn:Em; [|discriminate Hr].
    exact (H 1 files "a"%string (sample_hash "x") 1 (Some 420) Em Hr).
Defined.
End witness.
