(* ===== verification/PermissionGate.v ===== *)
(** The permission chokepoint ([rw-core/src/permission.rs]) with its project
    ledgers ([permission/project_rules.rs], [permission/project_store.rs]).

    A gate holds [Arc]s: gates made by [fork_for_workspace_roots] share the
    runtime mode and the session rules of their parent, gates made by
    [with_turn_pre_approvals] share its memory too.  [World] is the shared
    store: a cell per [Arc], and the two private ledger files, which every
    process shares.  Each method that takes locks is one step on the world;
    [authorize] is two steps, since the world can change while the user
    decides. *)
From S2P Require Import Prelude Text Ir Estimate Assembly ShellSplit BashSafety PermissionRules PermissionIdentity.

(** * Types *)

Inductive PermissionMode : Type := Strict | AutoSafe | Yolo.
#[global] Instance PermissionMode_eq_dec : EqDecision PermissionMode.
Proof. solve_decision. Defined.

Inductive SessionMode : Type := Discuss | Plan | ExecuteMode.
#[global] Instance SessionMode_eq_dec : EqDecision SessionMode.
Proof. solve_decision. Defined.

Inductive HookPermissionDecision : Type := HookAllow | HookAsk | HookDeny.
#[global] Instance HookPermissionDecision_eq_dec : EqDecision HookPermissionDecision.
Proof. solve_decision. Defined.

Inductive ApprovalDecision : Type := AllowOnce | AllowSession | AllowProject | DenyRequest.

Inductive PermissionOutcome : Type := Allowed | Denied | RememberedApprovalUnavailable.
#[global] Instance PermissionOutcome_eq_dec : EqDecision PermissionOutcome.
Proof. solve_decision. Defined.

Inductive AskReason : Type := NotSafeListed | OutsideWorkspace | HookRequested.

Inductive PermissionPolicy : Type :=
| Configured (config : PermissionConfig)
| Headless (mode : PermissionMode).

Record PermissionMemory : Type := mkMemory {
  workspace_roots : list string;
  trusted_read_roots : list string;
  namespace : list string;
  generation : Z;
  session_allows : list RememberedApproval;
}.
Definition memory_default : PermissionMemory := mkMemory [] [] [] 0 [].

(** How [persist_private_ledger] ends: the new file is in place and durable,
    nothing replaced the old file, or the directory could not be synced after
    the rename; then the new file is removed, which may fail as well. *)
Inductive Persist : Type := Persisted | Unwritten | Unsynced (removed : bool).

(** A private ledger file: whether it can be locked and read, what becomes of a
    write, and its records, none when there is no file. *)
Record Ledger (A : Type) : Type := mkLedger {
  readable : bool;
  writable : Persist;
  records : list A;
}.
Arguments mkLedger {A} _ _ _.
Arguments readable {A} _.
Arguments writable {A} _.
Arguments records {A} _.

Record World : Type := mkWorld {
  modes : list (option PermissionMode);
  memories : list PermissionMemory;
  rule_cells : list (list PermissionRule);
  approvals_file : Ledger RememberedApproval;
  rules_file : Ledger PermissionRule;
}.

Record PermissionGate : Type := mkGate {
  policy : PermissionPolicy;
  runtime_mode : nat;
  turn_pre_approvals : list PermissionRule;
  memory : nat;
  session_rules : nat;
  project_store : bool;
  project_rules : bool;
  command_safety : CommandSafetyClassifier;
}.

Definition MAX_PROJECT_RULES : nat := 256.

(** [lock_read] and [lock_write] on the cells of a gate *)
Definition read_mode (w : World) (g : PermissionGate) : option PermissionMode :=
  default None (modes w !! runtime_mode g).
Definition read_memory (w : World) (g : PermissionGate) : PermissionMemory :=
  default memory_default (memories w !! memory g).
Definition read_session_rules (w : World) (g : PermissionGate) : list PermissionRule :=
  default [] (rule_cells w !! session_rules g).
Definition write_mode (w : World) (g : PermissionGate) (m : option PermissionMode) : World :=
  mkWorld (<[runtime_mode g := m]> (modes w)) (memories w) (rule_cells w) (approvals_file w) (rules_file w).
Definition write_memory (w : World) (g : PermissionGate) (m : PermissionMemory) : World :=
  mkWorld (modes w) (<[memory g := m]> (memories w)) (rule_cells w) (approvals_file w) (rules_file w).
Definition write_session_rules (w : World) (g : PermissionGate) (l : list PermissionRule) : World :=
  mkWorld (modes w) (memories w) (<[session_rules g := l]> (rule_cells w)) (approvals_file w) (rules_file w).
Definition write_approvals_file (w : World) (l : list RememberedApproval) : World :=
  mkWorld (modes w) (memories w) (rule_cells w)
    (mkLedger (readable (approvals_file w)) (writable (approvals_file w)) l) (rules_file w).
Definition write_rules_file (w : World) (l : list PermissionRule) : World :=
  mkWorld (modes w) (memories w) (rule_cells w) (approvals_file w)
    (mkLedger (readable (rules_file w)) (writable (rules_file w)) l).

(** The cells of the gate exist. *)
Definition gate_in (w : World) (g : PermissionGate) : Prop :=
  (runtime_mode g < length (modes w))%nat ∧ (memory g < length (memories w))%nat ∧
  (session_rules g < length (rule_cells w))%nat.

Definition root_yolo_footgun (is_root : bool) (roots : list string) : bool :=
  is_root && existsb (λ root, is_absolute root && Nat.eqb (length (path_parts root)) 0) roots.

Definition permission_mode_default (mode : PermissionMode) : PermissionDecision :=
  match mode with Strict | AutoSafe => Ask | Yolo => Allow end.

Definition requires_interactive_approval (request : PermissionRequest) (behavior : ToolBehavior)
    (safe_listed_bash registered_semantics : bool) : bool :=
  if bool_decide (behavior = Shell) then negb safe_listed_bash
  else if negb registered_semantics then
    existsb (λ c, negb (bool_decide (c = ReadFilesystem))) (capabilities request)
  else bool_decide (WriteFilesystem ∈ capabilities request).

Definition prompt_reason_for (request : PermissionRequest) (reason : option AskReason) : option string :=
  if bool_decide (value_get (arguments request) "sandbox" ≫= as_str = Some "unsandboxed") then
    Some "Runs outside the sandbox, without filesystem or network isolation"
  else
    match value_get (arguments request) "network_domains" ≫= normalize_network_domains with
    | Some ((_ :: _) as domains) => Some ("Network access to " ++ join ", " domains)
    | _ =>
        match reason with
        | Some NotSafeListed => Some "Not in the safe command list"
        | Some OutsideWorkspace => Some "Writes outside the workspace"
        | Some HookRequested => Some "A hook asked to confirm this"
        | None =>
            if bool_decide (Network ∈ capabilities request) then Some "Network access" else None
        end
    end.

Section gate.
Context `{SW : ShellWords} `{G : Glob} `{W : JsonWriter} `{B : Blake3} `{U : UrlParser}.
Context `{FS : FileSystem} `{X : ExecFiles}.

Definition is_root : bool := geteuid =? 0.

(** * Ledgers *)

(** [load_rules] and [ProjectRuleStore::refresh] *)
Definition load_rules (w : World) : option (list PermissionRule) :=
  if readable (rules_file w) then
    Some (take MAX_PROJECT_RULES
            (List.filter (λ rule, is_ok (validate_rule (rule_pattern rule))) (records (rules_file w))))
  else None.
Definition durable_project_rules (w : World) (g : PermissionGate) : list PermissionRule :=
  if project_rules g then default [] (load_rules w) else [].

(** [ProjectRuleStore::update] *)
Definition update_rules (w : World)
    (change : list PermissionRule → Result (list PermissionRule) string) : World * Result unit string :=
  match load_rules w with
  | None => (w, Err "project rules are unreadable")
  | Some original =>
      match change original with
      | Err e => (w, Err e)
      | Ok rules =>
          if decide (rules = original) then (w, Ok tt)
          else
            match writable (rules_file w) with
            | Persisted => (write_rules_file w rules, Ok tt)
            | Unwritten => (w, Err "project rules could not be saved")
            | Unsynced removed =>
                (write_rules_file w (if removed then [] else rules),
                 Err "project rules could not be saved")
            end
      end
  end.

Definition add_project_rule (w : World) (g : PermissionGate) (rule : PermissionRule)
    : World * Result unit string :=
  if negb (project_rules g) then (w, Err "this session cannot save project rules") else
  match validate_rule (rule_pattern rule) with
  | Err e => (w, Err e)
  | Ok _ =>
      update_rules w (λ rules,
        let rules := List.filter (λ r, negb (String.eqb (rule_pattern r) (rule_pattern rule))) rules in
        if Nat.leb MAX_PROJECT_RULES (length rules)
        then Err "this project already has 256 saved rules; remove one in /permissions first"
        else Ok (rules ++ [rule])%list)
  end.

Definition remove_project_rule (w : World) (g : PermissionGate) (pattern : string)
    : World * Result bool string :=
  if negb (project_rules g) then (w, Err "this session cannot save project rules") else
  let keep := List.filter (λ r, negb (String.eqb (rule_pattern r) pattern)) in
  let removed := match load_rules w with
                 | Some rules => negb (Nat.eqb (length (keep rules)) (length rules))
                 | None => false
                 end in
  match update_rules w (λ rules, Ok (keep rules)) with
  | (w', Ok _) => (w', Ok removed)
  | (w', Err e) => (w', Err e)
  end.

(** [ProjectApprovalStore::update], with the records after it *)
Definition update_approvals (w : World)
    (change : list RememberedApproval → option (list RememberedApproval)) : World * bool :=
  if negb (readable (approvals_file w)) then (w, false) else
  let original := records (approvals_file w) in
  match change original with
  | None => (w, false)
  | Some approvals =>
      if decide (approvals = original) then (w, true)
      else
        match writable (approvals_file w) with
        | Persisted => (write_approvals_file w approvals, true)
        | Unwritten => (w, false)
        | Unsynced removed => (write_approvals_file w (if removed then [] else approvals), false)
        end
  end.

Definition store_contains (w : World) (key : PermissionKey) : bool :=
  readable (approvals_file w) && contains_approval (records (approvals_file w)) key.

(** [ProjectApprovalStore::grant] *)
Definition store_grant (w : World) (key : PermissionKey) (random : option string) : World * bool :=
  update_approvals w (λ approvals,
    if contains_approval approvals key then Some approvals
    else option_map (replace_approval approvals) (approval_new "project" key random)).

(** [ProjectApprovalStore::revoke]: the number removed, or an error *)
Definition store_revoke (w : World) (id : option string) : World * option nat :=
  let removed := (revoke_approvals (records (approvals_file w)) id).2 in
  match update_approvals w (λ approvals, Some (revoke_approvals approvals id).1) with
  | (w', true) => (w', Some removed)
  | (w', false) => (w', None)
  end.

(** * Gate construction and configuration *)

Definition yolo_active (w : World) (g : PermissionGate) : bool :=
  bool_decide (read_mode w g = Some Yolo) ||
  match policy g with Headless Yolo => true | _ => false end.

(** [from_config], [for_headless_mode]: a gate with fresh cells *)
Definition gate_new (w : World) (p : PermissionPolicy) : World * PermissionGate :=
  (mkWorld (modes w ++ [None])%list (memories w ++ [memory_default])%list
     (rule_cells w ++ [[]])%list (approvals_file w) (rules_file w),
   mkGate p (length (modes w)) [] (length (memories w)) (length (rule_cells w)) false false []).

Definition set_runtime_mode (w : World) (g : PermissionGate) (mode : option PermissionMode)
    : World * Result unit string :=
  match policy g with
  | Headless _ =>
      (w, Err "permission mode is fixed by the process launch policy and cannot be changed in this session")
  | Configured _ =>
      if bool_decide (mode = Some Yolo) &&
         root_yolo_footgun is_root (workspace_roots (read_memory w g))
      then (w, Err "yolo mode is refused for root while a workspace root is /")
      else (write_mode w g mode, Ok tt)
  end.

(** [with_workspace_roots] *)
Definition with_workspace_roots (w : World) (g : PermissionGate) (roots : list string) : World :=
  let roots := canonical_workspace_roots roots in
  let m := read_memory w g in
  write_memory w g (mkMemory roots (trusted_read_roots m) (workspace_namespace roots) 1 (session_allows m)).

Record PermissionGenerationUpdate : Type := mkUpdate {
  update_generation : Z;
  invalidated_session_approvals : nat;
  invalidated_project_approvals : nat;
}.

Definition replace_workspace_roots (w : World) (g : PermissionGate) (roots : list string)
    : World * option PermissionGenerationUpdate :=
  let roots := canonical_workspace_roots roots in
  if yolo_active w g && root_yolo_footgun is_root roots then (w, None) else
  let ns := workspace_namespace roots in
  let m := read_memory w g in
  if decide (namespace m = ns) then (w, Some (mkUpdate (generation m) 0 0)) else
  let '(w1, cleared) := if project_store g then store_revoke w None else (w, Some 0%nat) in
  match cleared with
  | None => (w1, None)
  | Some invalidated =>
      let next := sat_add (generation m) 1 in
      (write_memory w1 g
         (mkMemory roots (List.filter (λ t, bool_decide (t ∈ roots)) (trusted_read_roots m)) ns next []),
       Some (mkUpdate next (length (session_allows m)) invalidated))
  end.

(** [fork_for_workspace_roots]: a new memory cell, the other cells shared *)
Definition fork_for_workspace_roots (w : World) (g : PermissionGate) (roots : list string)
    : World * option PermissionGate :=
  let roots := canonical_workspace_roots roots in
  if yolo_active w g && root_yolo_footgun is_root roots then (w, None) else
  let m := read_memory w g in
  let m' := mkMemory roots (List.filter (λ t, bool_decide (t ∈ roots)) (trusted_read_roots m))
              (workspace_namespace roots) (sat_add (generation m) 1) [] in
  (mkWorld (modes w) (memories w ++ [m'])%list (rule_cells w) (approvals_file w) (rules_file w),
   Some (mkGate (policy g) (runtime_mode g) [] (length (memories w)) (session_rules g)
           (project_store g) (project_rules g) (command_safety g))).

(** [with_turn_pre_approvals]: every cell shared, the first invalid pattern
    is the error *)
Fixpoint pre_approval_rules (patterns : list string) : Result (list PermissionRule) string :=
  match patterns with
  | [] => Ok []
  | pattern :: rest =>
      let? _ := validate_rule pattern in
      let? rules := pre_approval_rules rest in
      Ok (mkRule pattern Allow :: rules)
  end.
Definition with_turn_pre_approvals (g : PermissionGate) (patterns : list string)
    : Result PermissionGate string :=
  let? rules := pre_approval_rules patterns in
  Ok (mkGate (policy g) (runtime_mode g) rules (memory g) (session_rules g) (project_store g)
        (project_rules g) (command_safety g)).

Definition add_session_rule (w : World) (g : PermissionGate) (rule : PermissionRule)
    : World * Result unit string :=
  match validate_rule (rule_pattern rule) with
  | Err e => (w, Err e)
  | Ok _ =>
      (write_session_rules w g
         (List.filter (λ r, negb (String.eqb (rule_pattern r) (rule_pattern rule)))
            (read_session_rules w g) ++ [rule])%list, Ok tt)
  end.
Definition remove_session_rule (w : World) (g : PermissionGate) (pattern : string) : World * bool :=
  let rules := read_session_rules w g in
  let kept := List.filter (λ r, negb (String.eqb (rule_pattern r) pattern)) rules in
  (write_session_rules w g kept, negb (Nat.eqb (length kept) (length rules))).
Definition clear_session_rules (w : World) (g : PermissionGate) : World * nat :=
  (write_session_rules w g [], length (read_session_rules w g)).

Definition set_session_allows (m : PermissionMemory) (l : list RememberedApproval) : PermissionMemory :=
  mkMemory (workspace_roots m) (trusted_read_roots m) (namespace m) (generation m) l.

Definition clear_session_permissions (w : World) (g : PermissionGate) : World * (nat * nat) :=
  let '(w1, rules) := clear_session_rules w g in
  let m := read_memory w1 g in
  (write_memory w1 g (set_session_allows m []), (rules, length (session_allows m))).
Definition revoke_session_approvals (w : World) (g : PermissionGate) (id : option string) : World * nat :=
  let m := read_memory w g in
  let '(kept, removed) := revoke_approvals (session_allows m) id in
  (write_memory w g (set_session_allows m kept), removed).
Definition revoke_project_approvals (w : World) (g : PermissionGate) (id : option string)
    : World * option nat :=
  if project_store g then store_revoke w id else (w, Some 0%nat).

Definition with_trusted_read_roots (w : World) (g : PermissionGate) (roots : list string) : World :=
  let trusted := canonical_workspace_roots roots in
  let m := read_memory w g in
  write_memory w g
    (mkMemory (workspace_roots m) (List.filter (λ t, bool_decide (t ∈ workspace_roots m)) trusted)
       (namespace m) (generation m) (session_allows m)).

(** * Decisions *)

Definition is_safe_listed_bash (g : PermissionGate) (request : PermissionRequest)
    (behavior : ToolBehavior) : bool :=
  safe_listed_with (command_safety g) request behavior.

Definition is_configured (g : PermissionGate) : bool :=
  match policy g with Configured _ => true | Headless _ => false end.

Definition auto_safe_decision (w : World) (g : PermissionGate) (request : PermissionRequest)
    (semantics : option ToolInvocationSemantics) (behavior : ToolBehavior)
    (rules : list PermissionRule) (safe_listed : bool) : PermissionDecision :=
  let configured := rule_decision (mkConfig Ask rules) request behavior in
  if decide (configured = Deny) then Deny
  else if bool_decide (configured = Allow) && is_configured g then Allow
  else if safe_listed || is_read_only request behavior ||
          is_auto_safe_workspace_write request semantics (workspace_roots (read_memory w g))
  then Allow
  else if is_configured g then Ask
  else Deny.

Definition unsandboxed (request : PermissionRequest) (behavior : ToolBehavior) : bool :=
  bool_decide (behavior = Shell) && bool_decide (bash_sandbox_mode request = Some Unsandboxed).

(** The branch of [decision_for] for a configured policy. *)
Definition configured_decision (w : World) (g : PermissionGate) (config : PermissionConfig)
    (request : PermissionRequest) (semantics : option ToolInvocationSemantics)
    (behavior : ToolBehavior) : PermissionDecision :=
  let safe_listed := is_safe_listed_bash g request behavior in
  let mode := read_mode w g in
  let effective :=
    mkConfig (match mode with Some m => permission_mode_default m | None => config_default config end)
      (config_rules config ++ durable_project_rules w g ++ read_session_rules w g)%list in
  let configured := rule_decision effective request behavior in
  if unsandboxed request behavior then
    let explicit := unsandboxed_rule_decision effective request behavior in
    if bool_decide (configured = Deny) || bool_decide (explicit = Some Deny) then Deny
    else if bool_decide (explicit = Some Allow) || bool_decide (mode = Some Yolo) then Allow
    else Ask
  else if decide (mode = Some AutoSafe) then
    auto_safe_decision w g request semantics behavior (config_rules effective) safe_listed
  else if bool_decide (configured = Ask) &&
          (bool_decide (mode = Some Yolo) ||
           negb (requires_interactive_approval request behavior safe_listed (is_some semantics)))
  then Allow
  else configured.

(** The branch of [decision_for] for a launch-fixed policy. *)
Definition headless_decision (w : World) (g : PermissionGate) (mode : PermissionMode)
    (request : PermissionRequest) (semantics : option ToolInvocationSemantics)
    (behavior : ToolBehavior) : PermissionDecision :=
  let safe_listed := is_safe_listed_bash g request behavior in
  let default := match mode with Strict => Ask | AutoSafe => Deny | Yolo => Allow end in
  let rules := (durable_project_rules w g ++ read_session_rules w g)%list in
  let interactive := requires_interactive_approval request behavior safe_listed (is_some semantics) in
  if unsandboxed request behavior then
    let policy := mkConfig default rules in
    let configured := rule_decision policy request behavior in
    let explicit := unsandboxed_rule_decision policy request behavior in
    if decide (mode = AutoSafe) then Deny
    else if bool_decide (configured = Deny) || bool_decide (explicit = Some Deny) then Deny
    else match mode with
         | Strict => if decide (explicit = Some Allow) then Allow else Ask
         | _ => Allow
         end
  else if decide (mode = AutoSafe) then
    auto_safe_decision w g request semantics behavior rules safe_listed
  else if Nat.eqb (length rules) 0 then
    match mode with
    | Strict => if negb interactive then Allow else default
    | AutoSafe => if safe_listed || is_read_only request behavior then Allow else default
    | Yolo => default
    end
  else
    let configured := rule_decision (mkConfig default rules) request behavior in
    if bool_decide (configured = Ask) &&
       (bool_decide (mode = Yolo) || (bool_decide (mode = Strict) && negb interactive))
    then Allow
    else configured.

Definition decision_for (w : World) (g : PermissionGate) (request : PermissionRequest)
    (semantics : option ToolInvocationSemantics) (behavior : ToolBehavior) : PermissionDecision :=
  if yolo_active w g && root_yolo_footgun is_root (workspace_roots (read_memory w g)) then Deny
  else if bool_decide (behavior ∈ [UserInteraction; PlanSubmission]) &&
          Nat.eqb (length (capabilities request)) 0
  then Allow
  else
    match policy g with
    | Configured config => configured_decision w g config request semantics behavior
    | Headless mode => headless_decision w g mode request semantics behavior
    end.

Definition turn_pre_approved (g : PermissionGate) (request : PermissionRequest)
    (behavior : ToolBehavior) : bool :=
  negb (Nat.eqb (length (turn_pre_approvals g)) 0) && negb (unsandboxed request behavior) &&
  bool_decide (rule_decision (mkConfig Deny (turn_pre_approvals g)) request behavior = Allow).

Definition turn_decision (w : World) (g : PermissionGate) (request : PermissionRequest)
    (semantics : option ToolInvocationSemantics) (behavior : ToolBehavior) : PermissionDecision :=
  match decision_for w g request semantics behavior with
  | Ask => if turn_pre_approved g request behavior then Allow else Ask
  | decision => decision
  end.

(** * Authorization *)

Definition ask_reason (w : World) (g : PermissionGate) (request : PermissionRequest)
    (semantics : option ToolInvocationSemantics) (behavior : ToolBehavior) : option AskReason :=
  if bool_decide (behavior = Shell) then
    if is_safe_listed_bash g request behavior then None else Some NotSafeListed
  else
    match semantics with
    | Some (mkSemantics _ (ScopePaths paths) _) =>
        let roots := workspace_roots (read_memory w g) in
        if negb (Nat.eqb (length roots) 0) &&
           existsb (λ path, negb (is_some (resolve_workspace_write_path roots path))) paths
        then Some OutsideWorkspace else None
    | _ => None
    end.

Definition explained (w : World) (g : PermissionGate) (request : PermissionRequest)
    (semantics : option ToolInvocationSemantics) (behavior : ToolBehavior) (hook_forced_ask : bool)
    : PermissionRequest :=
  let reason := if hook_forced_ask then Some HookRequested
                else ask_reason w g request semantics behavior in
  mkRequest (request_id request) (invocation_id request) (tool request) (arguments request)
    (capabilities request) (approval_diff request) (prompt_reason_for request reason).

(** What the gate remembers while the user decides. *)
Record Pending : Type := mkPending {
  shown : PermissionRequest;
  pending_key : PermissionKey;
  pending_generation : Z;
  pending_rememberable : bool;
}.

Inductive Begun : Type := Decided (outcome : PermissionOutcome) | Prompt (pending : Pending).

(** The checks that precede policy: the request is refused at once. *)
Definition refused_outright (request : PermissionRequest) (behavior : ToolBehavior)
    (hook : option HookPermissionDecision) (mode : SessionMode) : bool :=
  match value_get (arguments request) "network_domains" with
  | Some domains => negb (is_some (normalize_network_domains domains))
  | None => false
  end ||
  (bool_decide (behavior = Shell) && negb (is_some (bash_sandbox_mode request))) ||
  (bool_decide (behavior = WebFetch) &&
     negb (is_some ((value_get (arguments request) "url" ≫= as_str) ≫= canonical_webfetch_origin))) ||
  (bool_decide (behavior = PlanSubmission) && negb (bool_decide (mode = Plan))) ||
  (negb (bool_decide (mode = ExecuteMode)) &&
     negb (is_read_only request behavior || is_builtin_read_only_bash request behavior)) ||
  bool_decide (hook = Some HookDeny).

(** [authorize_in_mode_with_semantics] up to the prompt *)
Definition authorize_begin (w : World) (g : PermissionGate) (request : PermissionRequest)
    (hook : option HookPermissionDecision) (mode : SessionMode)
    (semantics : option ToolInvocationSemantics) : Begun :=
  let behavior := match semantics with Some s => behavior s | None => Standard end in
  if refused_outright request behavior hook mode then Decided Denied else
  let decision := turn_decision w g request semantics behavior in
  let hook_forced_ask := bool_decide (decision = Allow) && bool_decide (hook = Some HookAsk) in
  let decision := if hook_forced_ask then Ask else decision in
  match decision with
  | Allow => Decided Allowed
  | Deny => Decided Denied
  | Ask =>
      if decide (hook = Some HookAllow) then Decided Allowed else
      let rememberable := rememberable_request request behavior in
      let m := read_memory w g in
      let key := key_of request (namespace m) behavior in
      let remembered :=
        rememberable && (contains_approval (session_allows m) key ||
                         (project_store g && store_contains w key)) in
      if remembered && negb (bool_decide (hook = Some HookAsk)) then Decided Allowed
      else Prompt (mkPending (explained w g request semantics behavior hook_forced_ask) key
                     (generation m) rememberable)
  end.

Definition accept_for_generation (w : World) (g : PermissionGate) (gen : Z)
    (approval : option RememberedApproval) : World * PermissionOutcome :=
  let m := read_memory w g in
  if negb (generation m =? gen) then (w, Denied)
  else
    match approval with
    | Some approval =>
        (write_memory w g (set_session_allows m (replace_approval (session_allows m) approval)), Allowed)
    | None => (w, Allowed)
    end.

(** The answer of the approver, in the world as it is by then; [random] is
    what [getrandom] yields for the opaque id. *)
Definition authorize_finish (w : World) (g : PermissionGate) (p : Pending)
    (answer : ApprovalDecision) (random : option string) : World * PermissionOutcome :=
  match answer with
  | AllowOnce =>
      (w, if generation (read_memory w g) =? pending_generation p then Allowed else Denied)
  | AllowSession =>
      if negb (pending_rememberable p) then accept_for_generation w g (pending_generation p) None
      else accept_for_generation w g (pending_generation p)
             (approval_new "session" (pending_key p) random)
  | AllowProject =>
      if negb (pending_rememberable p) then accept_for_generation w g (pending_generation p) None
      else if negb (generation (read_memory w g) =? pending_generation p) then (w, Denied)
      else ((if project_store g then (store_grant w (pending_key p) random).1 else w), Allowed)
  | DenyRequest => (w, Denied)
  end.
End gate.
