(* ===== verification/PermissionSafety.v ===== *)
(** Safety of the permission chokepoint: what no mode, hook, pre-approval or
    remembered approval can override, and the invariant that ties remembered
    approvals to the workspace they were granted for. *)
From S2P Require Import Prelude Text Ir Estimate Assembly ShellSplit BashSafety PermissionRules PermissionIdentity PermissionGate.

Section safety.
Context {SW : ShellWords} {G : Glob} {W : JsonWriter} {B : Blake3} {U : UrlParser}.
Context {FS : FileSystem} {X : ExecFiles}.

Definition behavior_of (semantics : option ToolInvocationSemantics) : ToolBehavior :=
  match semantics with Some s => behavior s | None => Standard end.

(** The rules in force: configured, durable project and session rules. *)
Definition gate_rules (w : World) (g : PermissionGate) : list PermissionRule :=
  (match policy g with Configured c => config_rules c | Headless _ => [] end ++
   durable_project_rules w g ++ read_session_rules w g)%list.

(** The interactions that every policy allows: asking the user, or submitting
    a plan, without any capability. *)
Definition exempt (request : PermissionRequest) (behavior : ToolBehavior) : Prop :=
  behavior ∈ [UserInteraction; PlanSubmission] ∧ capabilities request = [].

(** ** Deny rules *)

Lemma denied_default d d' rules request b :
  explicitly_denied (mkConfig d rules) request b → explicitly_denied (mkConfig d' rules) request b.
Proof. done. Qed.

Lemma denied_rule_decision d rules request b :
  explicitly_denied (mkConfig Deny rules) request b →
  rule_decision (mkConfig d rules) request b = Deny.
Proof. intros H. by apply explicit_deny_wins. Qed.

Lemma decision_denied w g request semantics b :
  explicitly_denied (mkConfig Deny (gate_rules w g)) request b → ¬ exempt request b →
  decision_for w g request semantics b = Deny.
Proof.
  intros Hd Hex. unfold decision_for.
  destruct (yolo_active w g && _); [done|].
  destruct (bool_decide (b ∈ _) && _) eqn:Ee.
  { apply andb_true_iff in Ee as [Hb%bool_decide_eq_true_1 Hc%Nat.eqb_eq].
    destruct Hex. split; [done|]. by apply length_zero_iff_nil. }
  unfold gate_rules in Hd. destruct (policy g) as [config|mode].
  - unfold configured_decision. cbn [config_rules].
    rewrite (denied_rule_decision _ _ _ _ Hd). destruct (unsandboxed request b); [done|].
    destruct (decide (read_mode w g = Some AutoSafe)); [|done].
    unfold auto_safe_decision. by rewrite (denied_rule_decision _ _ _ _ Hd).
  - unfold headless_decision. rewrite app_nil_l in Hd.
    set (rules := (durable_project_rules w g ++ read_session_rules w g)%list) in *.
    rewrite !(denied_rule_decision _ _ _ _ Hd).
    destruct (unsandboxed request b); [by destruct (decide (mode = AutoSafe))|].
    destruct (decide (mode = AutoSafe)).
    { unfold auto_safe_decision. by rewrite (denied_rule_decision _ _ _ _ Hd). }
    destruct (Nat.eqb_spec (length rules) 0) as [Hl|_]; [|done].
    apply length_zero_iff_nil in Hl. rewrite Hl in Hd.
    destruct Hd as (targets & _ & (t & _ & Ht)%Exists_exists). by inversion Ht.
Qed.

Lemma begin_denied w g request hook mode semantics :
  turn_decision w g request semantics (behavior_of semantics) = Deny →
  authorize_begin w g request hook mode semantics = Decided Denied.
Proof.
  intros Hd. unfold authorize_begin. fold (behavior_of semantics).
  destruct (refused_outright _ _ _ _); [done|]. by rewrite Hd.
Qed.

(** C1: an explicit deny is final. If a configured, project or session rule
    denies some command of the invocation, the gate refuses it before any
    prompt, under every policy and runtime mode (yolo included), whatever a
    hook answers, whatever the turn pre-approves and whatever was remembered;
    only capability-free user interaction and plan submission are exempt. *)
Theorem explicit_deny_final w g request hook mode semantics :
  explicitly_denied (mkConfig Deny (gate_rules w g)) request (behavior_of semantics) →
  ¬ exempt request (behavior_of semantics) →
  authorize_begin w g request hook mode semantics = Decided Denied.
Proof.
  intros Hd Hex. apply begin_denied. unfold turn_decision. by rewrite decision_denied.
Qed.

(** ** Discuss and Plan *)

(** The gate did not refuse: it allowed the request or prompts for it. *)
Definition may_proceed (b : Begun) : Prop :=
  match b with Decided Allowed => True | Decided _ => False | Prompt _ => True end.

Lemma proceeds_not_refused w g request hook mode semantics :
  may_proceed (authorize_begin w g request hook mode semantics) →
  refused_outright request (behavior_of semantics) hook mode = false.
Proof.
  unfold authorize_begin. fold (behavior_of semantics).
  by destruct (refused_outright _ _ _ _).
Qed.

Lemma read_only_capabilities request b c :
  is_read_only request b = true → c ∈ capabilities request → c = ReadFilesystem.
Proof.
  unfold is_read_only. rewrite orb_true_iff, !andb_true_iff. intros [[Hn _]|[_ Ha]] Hc.
  - apply Nat.eqb_eq, length_zero_iff_nil in Hn. rewrite Hn in Hc. by inversion Hc.
  - rewrite forallb_forall in Ha. apply list_elem_of_In in Hc.
    by apply Ha, bool_decide_eq_true_1 in Hc.
Qed.

(** C3: Discuss and Plan are read-only whatever the policy, the rules, the
    hooks and the remembered approvals say: an invocation that is allowed or
    even prompted for there has no capability but reading the file system, or
    is a sandboxed shell command without network that the built-in safe list
    accepts; and a plan is only submitted in Plan mode. *)
Theorem discuss_and_plan_read_only w g request hook mode semantics :
  may_proceed (authorize_begin w g request hook mode semantics) → mode ≠ ExecuteMode →
  ((∀ c, c ∈ capabilities request → c = ReadFilesystem) ∨
   (behavior_of semantics = Shell ∧ bash_sandbox_mode request = Some Sandboxed ∧
    no_network_domains request = true ∧
    ∃ command, value_get (arguments request) "command" = Some (JString command) ∧
               classify_safe_command command = SafeListed)) ∧
  (behavior_of semantics = PlanSubmission → mode = Plan).
Proof.
  intros Hp%proceeds_not_refused Hm. unfold refused_outright in Hp.
  rewrite !orb_false_iff, !andb_false_iff in Hp. destruct Hp as (((_ & Hplan) & Hro) & _).
  split.
  - destruct Hro as [Hro|Hro]; [by rewrite bool_decide_eq_false_2 in Hro|].
    apply negb_false_iff, orb_true_iff in Hro as [Hro|Hro].
    { left. intros c. by apply (read_only_capabilities _ _ _ Hro). }
    right. unfold is_builtin_read_only_bash, safe_listed_with in Hro.
    rewrite !andb_true_iff, !bool_decide_eq_true in Hro. destruct Hro as (((Hb & Hs) & Hn) & Hc).
    split_and!; [done..|]. destruct (value_get (arguments request) "command") as [v|]; [|done].
    destruct v as [| | |command| |]; try done. exists command. split; [done|].
    by apply bool_decide_eq_true_1 in Hc.
  - intros Hb. destruct Hplan as [H|H].
    + by rewrite Hb in H.
    + by apply negb_false_iff, bool_decide_eq_true_1 in H.
Qed.

(** ** Hooks and pre-approvals *)

Lemma turn_decision_cases w g request semantics b :
  turn_decision w g request semantics b = decision_for w g request semantics b ∨
  (decision_for w g request semantics b = Ask ∧ turn_decision w g request semantics b = Allow ∧
   turn_pre_approved g request b = true).
Proof.
  unfold turn_decision. destruct (decision_for w g request semantics b); auto.
  destruct (turn_pre_approved g request b) eqn:E; auto.
Qed.

(** An approval in session memory or in the readable project ledger. *)
Definition is_remembered (w : World) (g : PermissionGate) (key : PermissionKey) : Prop :=
  (∃ a, a ∈ session_allows (read_memory w g) ∧ approval_key a = key) ∨
  (project_store g = true ∧ readable (approvals_file w) = true ∧
   ∃ a, a ∈ records (approvals_file w) ∧ approval_key a = key).

Lemma contains_approval_spec l key :
  contains_approval l key = true ↔ ∃ a, a ∈ l ∧ approval_key a = key.
Proof.
  unfold contains_approval. rewrite existsb_exists.
  split; intros (a & Ha & Hk); exists a; rewrite ?list_elem_of_In in *; (split; [done|]).
  - by apply bool_decide_eq_true_1 in Hk.
  - by apply bool_decide_eq_true_2.
Qed.

(** The only ways to run without a prompt. When the gate allows an
    invocation at once, the policy decision is not a deny and no hook asked
    for confirmation; and then the policy itself allows it, or it would have
    prompted and was let through by a pre-approval of this turn, by a hook
    that allows, or by an approval remembered for exactly this key, which
    only a rememberable request can use. *)
Theorem allowed_at_once w g request hook mode semantics :
  authorize_begin w g request hook mode semantics = Decided Allowed →
  let b := behavior_of semantics in
  hook ≠ Some HookDeny ∧ hook ≠ Some HookAsk ∧
  (decision_for w g request semantics b = Allow ∨
   (decision_for w g request semantics b = Ask ∧
    (turn_pre_approved g request b = true ∨ hook = Some HookAllow ∨
     (rememberable_request request b = true ∧
      is_remembered w g (key_of request (namespace (read_memory w g)) b))))).
Proof.
  intros H b. unfold authorize_begin in H. fold (behavior_of semantics) in H. fold b in H.
  destruct (refused_outright request b hook mode) eqn:Er; [done|].
  assert (Hdeny : hook ≠ Some HookDeny).
  { intros ->. unfold refused_outright in Er.
    by rewrite (bool_decide_eq_true_2 (Some HookDeny = Some HookDeny)), orb_true_r in Er. }
  split; [done|].
  pose proof (turn_decision_cases w g request semantics b) as Ht.
  destruct (bool_decide (turn_decision w g request semantics b = Allow) &&
            bool_decide (hook = Some HookAsk)) eqn:Ef.
  { apply andb_true_iff in Ef as [_ ->%bool_decide_eq_true_1].
    rewrite decide_False in H by done.
    by rewrite (bool_decide_eq_true_2 (Some HookAsk = Some HookAsk)), andb_false_r in H. }
  destruct (turn_decision w g request semantics b) eqn:Et.
  - destruct Ht as [Ht|(_ & Ht & _)]; [|done]. rewrite <- Ht.
    destruct (decide (hook = Some HookAllow)) as [->|Hna]; [split; [done|]; auto|].
    destruct (_ && negb (bool_decide (hook = Some HookAsk))) eqn:Em; [|done].
    apply andb_true_iff in Em as [Em Hna'%negb_true_iff].
    apply bool_decide_eq_false_1 in Hna'. split; [done|]. right. split; [done|]. right. right.
    apply andb_true_iff in Em as [Hr Hs]. split; [done|].
    apply orb_true_iff in Hs as [Hs|Hs].
    + left. by apply contains_approval_spec.
    + right. apply andb_true_iff in Hs as [Hps Hs]. apply andb_true_iff in Hs as [Hrd Hs].
      split_and!; [done|done|]. by apply contains_approval_spec.
  - split.
    { intros ->. by rewrite !bool_decide_eq_true_2 in Ef. }
    destruct Ht as [<-|(Ha & _ & Hp)]; auto.
  - done.
Qed.

(** ** Unsandboxed execution *)

Lemma unsandboxed_allow w g request semantics :
  unsandboxed request Shell = true →
  decision_for w g request semantics Shell = Allow →
  unsandboxed_rule_decision (mkConfig Ask (gate_rules w g)) request Shell = Some Allow ∨
  yolo_active w g = true.
Proof.
  intros Hu. unfold decision_for. destruct (yolo_active w g) eqn:Ey; [auto|]. simpl.
  unfold gate_rules. destruct (policy g) as [config|m] eqn:Ep.
  - unfold configured_decision. rewrite Hu. cbn [config_rules].
    unfold unsandboxed_rule_decision at 1 2. cbn [config_rules].
    fold (unsandboxed_rule_decision
      (mkConfig Ask (config_rules config ++ durable_project_rules w g ++ read_session_rules w g)%list)
      request Shell).
    destruct (bool_decide _ || bool_decide _); [done|].
    destruct (bool_decide _ || bool_decide (read_mode w g = Some Yolo)) eqn:E; [|done].
    apply orb_true_iff in E as [E%bool_decide_eq_true_1|E]; [auto|].
    unfold yolo_active in Ey. by rewrite E in Ey.
  - unfold headless_decision. rewrite Hu. rewrite app_nil_l.
    destruct (decide (m = AutoSafe)); [done|].
    destruct (bool_decide _ || bool_decide _); [done|].
    destruct m; [|done|by unfold yolo_active in Ey; rewrite Ep, orb_true_r in Ey].
    destruct (decide _) as [E|]; [|done]. intros _. left. exact E.
Qed.

(** C6: leaving the sandbox always needs its own authority. A shell
    invocation outside the sandbox is allowed by policy only when yolo is on, or
    the line splits into commands without expansions and each of them, in its
    canonical form, is allowed by the last matching rule of the
    [bash_unsandboxed] namespace and denied by none: ordinary [bash] rules, the
    safe list, Auto mode and turn pre-approvals never do, and one allowed command
    does not free the line. *)
Theorem unsandboxed_needs_authority w g request semantics :
  behavior_of semantics = Shell → bash_sandbox_mode request = Some Unsandboxed →
  turn_decision w g request semantics Shell = Allow →
  (∃ segments targets, canonical_commands request segments targets ∧ Forall (allowed_unsandboxed (gate_rules w g)) targets) ∨
  yolo_active w g = true.
Proof.
  intros _ Hs Ht. cut (unsandboxed_rule_decision (mkConfig Ask (gate_rules w g)) request Shell = Some Allow ∨ yolo_active w g = true).
  { intros [Hr|Hy]; [left|by right]. by apply unsandboxed_rule_allows in Hr. }
  assert (Hu : unsandboxed request Shell = true) by (unfold unsandboxed; by rewrite Hs).
  destruct (turn_decision_cases w g request semantics Shell) as [Heq|(_ & _ & Hp)].
  - apply (unsandboxed_allow w g request semantics); [done|]. by rewrite <- Heq.
  - unfold turn_pre_approved in Hp. by rewrite Hu, andb_false_r in Hp.
Qed.

(** ** Launch-fixed policies *)

Lemma headless_auto_never_asks w g request semantics b :
  policy g = Headless AutoSafe → decision_for w g request semantics b ≠ Ask.
Proof.
  intros Hp. unfold decision_for. rewrite Hp. repeat (case_match; [done|]).
  unfold headless_decision. destruct (unsandboxed request b); [by destruct (decide _)|].
  rewrite decide_True by done. unfold auto_safe_decision, is_configured. rewrite Hp, andb_false_r.
  repeat case_match; done.
Qed.

(** An unattended launch cannot be opened up. Under the headless
    auto-safe policy no request ever waits for a prompt unless a hook asks for
    one, an unsandboxed command is refused, and the mode cannot be switched in
    the session. *)
Theorem headless_auto_safe_closed w g request mode semantics new_mode :
  policy g = Headless AutoSafe →
  (∀ hook, hook ≠ Some HookAsk →
     ∃ outcome, authorize_begin w g request hook mode semantics = Decided outcome) ∧
  (unsandboxed request (behavior_of semantics) = true →
   ∀ hook, authorize_begin w g request hook mode semantics = Decided Denied) ∧
  (set_runtime_mode w g new_mode).1 = w.
Proof.
  intros Hp. split_and!.
  - intros hook Hh. unfold authorize_begin. fold (behavior_of semantics).
    destruct (refused_outright _ _ _ _); [eauto|].
    rewrite (bool_decide_eq_false_2 (hook = Some HookAsk)) by done. rewrite andb_false_r.
    pose proof (headless_auto_never_asks w g request semantics (behavior_of semantics) Hp) as Hna.
    destruct (turn_decision_cases w g request semantics (behavior_of semantics)) as [->|(? & _)];
      [|done].
    destruct (decision_for _ _ _ _ _); eauto; done.
  - intros Hu hook. apply begin_denied. unfold turn_decision, decision_for. rewrite Hp.
    destruct (yolo_active w g && _); [done|].
    assert (Hb : behavior_of semantics = Shell).
    { unfold unsandboxed in Hu. by apply andb_true_iff in Hu as [Hu%bool_decide_eq_true_1 _]. }
    rewrite Hb in *. simpl. unfold headless_decision. rewrite Hu. done.
  - unfold set_runtime_mode. by rewrite Hp.
Qed.
End safety.

(** * Witnesses *)

Definition empty_ledger {A} : Ledger A := mkLedger true Persisted [].
Definition sample_world (mode : option PermissionMode) (rules : list PermissionRule) : World :=
  mkWorld [mode] [mkMemory ["/work"] [] ["ns"] 1 []] [rules] empty_ledger empty_ledger.
Definition sample_gate (p : PermissionPolicy) : PermissionGate := mkGate p 0 [] 0 0 false false [].
Definition configured_gate : PermissionGate :=
  sample_gate (Configured (mkConfig Ask [mkRule "bash(rm -rf x)" Deny; mkRule "read(a)" Allow])).
Definition shell_semantics : option ToolInvocationSemantics :=
  Some (mkSemantics Shell ScopeNone []).
Definition rm_request : PermissionRequest :=
  sample_request "bash" [("command", JString "ls && rm -fr x")] [Execute].

Definition sample_begin :=
  @authorize_begin sample_words sample_glob SampleJson.writer InjectiveSample.hash sample_url
    sample_fs sample_exec.

Lemma explicit_deny_final_witness :
  sample_begin (sample_world (Some Yolo) []) configured_gate rm_request (Some HookAllow) ExecuteMode
    shell_semantics = Decided Denied.
Proof.
  apply (@explicit_deny_final sample_words sample_glob SampleJson.writer InjectiveSample.hash
    sample_url sample_fs sample_exec).
  - exists ["ls"; "rm -rf x"]. split; [vm_compute; reflexivity|].
    right. left. vm_compute. left.
  - intros [H _]. cbv [behavior_of shell_semantics behavior] in H.
    rewrite !elem_of_cons in H. destruct H as [H|[H|H]]; [discriminate H|discriminate H|by inversion H].
Defined.

Definition plan_request : PermissionRequest :=
  sample_request "bash" [("command", JString "ls")] [Execute].

Lemma discuss_and_plan_read_only_witness :
  may_proceed (sample_begin (sample_world None []) configured_gate plan_request None Plan
                 shell_semantics) ∧
  ∃ command, value_get (arguments plan_request) "command" = Some (JString command) ∧
    @classify_safe_command sample_words sample_fs command = SafeListed.
Proof.
  split; [vm_compute; exact I|].
  destruct (@discuss_and_plan_read_only sample_words sample_glob SampleJson.writer
    InjectiveSample.hash sample_url sample_fs sample_exec (sample_world None []) configured_gate
    plan_request None Plan shell_semantics) as [[H|(_ & _ & _ & H)] _];
    [vm_compute; exact I|discriminate| |exact H].
  specialize (H Execute (list_elem_of_here _ _)). discriminate H.
Defined.

Lemma allowed_at_once_witness :
  sample_begin (sample_world None []) configured_gate
    (sample_request "read" [("path", JString "a")] [WriteFilesystem]) None ExecuteMode None =
    Decided Allowed ∧ (None : option HookPermissionDecision) ≠ Some HookDeny.
Proof.
  split; [vm_compute; reflexivity|].
  exact (proj1 (@allowed_at_once sample_words sample_glob SampleJson.writer InjectiveSample.hash
    sample_url sample_fs sample_exec (sample_world None []) configured_gate
    (sample_request "read" [("path", JString "a")] [WriteFilesystem]) None ExecuteMode None
    ltac:(vm_compute; reflexivity))).
Defined.

Definition escape_request : PermissionRequest :=
  sample_request "bash" [("command", JString "make"); ("sandbox", JString "unsandboxed")] [Execute].
Definition escape_rules : list PermissionRule := [mkRule "bash_unsandboxed(make)" Allow].

Lemma unsandboxed_needs_authority_witness :
  @turn_decision sample_words sample_glob SampleJson.writer sample_fs (sample_world None escape_rules)
    configured_gate escape_request shell_semantics Shell = Allow ∧
  ((∃ segments targets, @canonical_commands sample_words escape_request segments targets ∧
      Forall (@allowed_unsandboxed sample_glob (@gate_rules sample_glob (sample_world None escape_rules) configured_gate)) targets) ∨
   yolo_active (sample_world None escape_rules) configured_gate = true).
Proof.
  split; [vm_compute; reflexivity|].
  apply (@unsandboxed_needs_authority sample_words sample_glob SampleJson.writer sample_fs
    (sample_world None escape_rules) configured_gate escape_request shell_semantics);
    vm_compute; reflexivity.
Defined.

Lemma headless_auto_safe_closed_witness :
  sample_begin (sample_world None []) (sample_gate (Headless AutoSafe)) escape_request None
    ExecuteMode shell_semantics = Decided Denied.
Proof.
  refine (proj1 (proj2 (@headless_auto_safe_closed sample_words sample_glob SampleJson.writer
    InjectiveSample.hash sample_url sample_fs sample_exec (sample_world None [])
    (sample_gate (Headless AutoSafe)) escape_request ExecuteMode shell_semantics None eq_refl)) _ None).
  vm_compute. reflexivity.
Defined.

(** A failed update can lose the ledger: when the directory cannot be synced
    after the rename, the file is removed, and with it a saved deny. *)
Definition unsynced_world : World :=
  mkWorld [None] [mkMemory ["/work"] [] ["ns"] 1 []] [[]] empty_ledger
    (mkLedger true (Unsynced true) [mkRule "bash(rm -rf x)" Deny]).
Example unsynced_update_forgets_rules :
  let '(w, answer) := @add_project_rule sample_glob unsynced_world
      (mkGate (Configured (mkConfig Ask [])) 0 [] 0 0 false true []) (mkRule "read(a)" Allow) in
  is_ok answer = false ∧
  @load_rules sample_glob unsynced_world = Some [mkRule "bash(rm -rf x)" Deny] ∧
  @load_rules sample_glob w = Some [].
Proof. vm_compute. split_and!; reflexivity. Qed.
