(* ===== verification/PermissionHistory.v ===== *)
(** Histories of the permission gates of one process: the operations as steps,
    interleaved with prompts that are still open and with other processes that
    rewrite the ledgers, and the invariant that remembered approvals belong to
    the workspace they were granted for. *)
From S2P Require Import Prelude Text Ir Estimate Assembly ShellSplit BashSafety PermissionRules PermissionIdentity PermissionGate.

(** The gates that exist, the shared world, and the prompts that are open. *)
Record System : Type := mkSystem {
  world : World;
  gates : list PermissionGate;
  open_prompts : list (PermissionGate * Pending);
}.

Create HintDb history.

Section history.
Context {SW : ShellWords} {G : Glob} {W : JsonWriter} {B : Blake3} {U : UrlParser}.
Context {FS : FileSystem} {X : ExecFiles}.

Definition set_world (s : System) (w : World) : System := mkSystem w (gates s) (open_prompts s).

(** The builders [with_project_approval_file] and [with_command_safety]. *)
Definition build_gate (g : PermissionGate) (durable : bool) (safety : CommandSafetyClassifier)
    : PermissionGate :=
  mkGate (policy g) (runtime_mode g) (turn_pre_approvals g) (memory g) (session_rules g)
    durable durable safety.

Inductive step : System → System → Prop :=
| S_new s p durable safety roots w1 g :
    gate_new (world s) p = (w1, g) →
    step s (mkSystem (with_workspace_roots w1 g roots)
              (gates s ++ [build_gate g durable safety])%list (open_prompts s))
| S_turn s g patterns g' :
    g ∈ gates s → with_turn_pre_approvals g patterns = Ok g' →
    step s (mkSystem (world s) (gates s ++ [g'])%list (open_prompts s))
| S_fork s g roots w' g' :
    g ∈ gates s → fork_for_workspace_roots (world s) g roots = (w', Some g') →
    step s (mkSystem w' (gates s ++ [g'])%list (open_prompts s))
| S_replace s g roots :
    g ∈ gates s → generation (read_memory (world s) g) < u64_max →
    step s (set_world s (replace_workspace_roots (world s) g roots).1)
| S_trusted s g roots :
    g ∈ gates s → step s (set_world s (with_trusted_read_roots (world s) g roots))
| S_mode s g mode :
    g ∈ gates s → step s (set_world s (set_runtime_mode (world s) g mode).1)
| S_add_rule s g rule :
    g ∈ gates s → step s (set_world s (add_session_rule (world s) g rule).1)
| S_remove_rule s g pattern :
    g ∈ gates s → step s (set_world s (remove_session_rule (world s) g pattern).1)
| S_clear s g :
    g ∈ gates s → step s (set_world s (clear_session_permissions (world s) g).1)
| S_revoke_session s g id :
    g ∈ gates s → step s (set_world s (revoke_session_approvals (world s) g id).1)
| S_revoke_project s g id :
    g ∈ gates s → step s (set_world s (revoke_project_approvals (world s) g id).1)
| S_add_project s g rule :
    g ∈ gates s → step s (set_world s (add_project_rule (world s) g rule).1)
| S_remove_project s g pattern :
    g ∈ gates s → step s (set_world s (remove_project_rule (world s) g pattern).1)
| S_begin s g request hook mode semantics p :
    g ∈ gates s → authorize_begin (world s) g request hook mode semantics = Prompt p →
    step s (mkSystem (world s) (gates s) (open_prompts s ++ [(g, p)])%list)
| S_answer s before g p after answer random :
    open_prompts s = (before ++ (g, p) :: after)%list →
    step s (mkSystem (authorize_finish (world s) g p answer random).1 (gates s)
              (before ++ after)%list)
| S_other_process s approvals rules :
    step s (set_world s (mkWorld (modes (world s)) (memories (world s)) (rule_cells (world s))
                           approvals rules)).

Definition no_gates (approvals : Ledger RememberedApproval) (rules : Ledger PermissionRule) : System :=
  mkSystem (mkWorld [] [] [] approvals rules) [] [].

Inductive reachable : System → Prop :=
| R_start approvals rules : reachable (no_gates approvals rules)
| R_step s s' : reachable s → step s s' → reachable s'.

(** * The invariant *)

(** Every approval in the memory is keyed to the memory's workspace, whose
    identity is that of its roots. *)
Definition memory_ok (m : PermissionMemory) : Prop :=
  namespace m = workspace_namespace (workspace_roots m) ∧
  Forall (λ a, key_workspace_namespace (approval_key a) = namespace m) (session_allows m).

(** An open prompt is from an older generation, or keyed to the workspace
    that is still current. *)
Definition prompt_ok (w : World) (gp : PermissionGate * Pending) : Prop :=
  let m := read_memory w gp.1 in
  pending_generation gp.2 < generation m ∨
  (pending_generation gp.2 = generation m ∧
   key_workspace_namespace (pending_key gp.2) = namespace m).

Record invariant (s : System) : Prop := {
  inv_gates : Forall (gate_in (world s)) (gates s);
  inv_prompt_gates : Forall (λ gp, gp.1 ∈ gates s) (open_prompts s);
  inv_memories : Forall memory_ok (memories (world s));
  inv_prompts : Forall (prompt_ok (world s)) (open_prompts s);
}.

(** What every step does to the cells: none disappears, and a memory keeps
    its namespace or moves to a later generation. *)
Definition memory_later (m m' : PermissionMemory) : Prop :=
  (generation m' = generation m ∧ namespace m' = namespace m) ∨ generation m < generation m'.
Record later (w w' : World) : Prop := {
  later_modes : (length (modes w) ≤ length (modes w'))%nat;
  later_rules : (length (rule_cells w) ≤ length (rule_cells w'))%nat;
  later_memories : ∀ i m, memories w !! i = Some m →
    ∃ m', memories w' !! i = Some m' ∧ memory_later m m';
}.

Lemma memory_later_refl m : memory_later m m.
Proof. left. done. Qed.
Lemma later_refl w : later w w.
Proof. split; [done..|]. intros i m Hm. exists m. split; [done|apply memory_later_refl]. Qed.

Lemma later_length w w' : later w w' → (length (memories w) ≤ length (memories w'))%nat.
Proof.
  intros [_ _ H]. destruct (decide (length (memories w) = 0)%nat) as [|Hn]; [lia|].
  destruct (lookup_lt_is_Some_2 (memories w) (length (memories w) - 1)) as [m Hm]; [lia|].
  destruct (H _ _ Hm) as (m' & Hm' & _). apply lookup_lt_Some in Hm'. lia.
Qed.

Lemma later_gate w w' g : later w w' → gate_in w g → gate_in w' g.
Proof.
  intros Hl (H1 & H2 & H3). pose proof (later_length _ _ Hl). destruct Hl.
  unfold gate_in. lia.
Qed.

Lemma read_memory_lookup w g :
  gate_in w g → memories w !! memory g = Some (read_memory w g).
Proof.
  intros (_ & H & _). unfold read_memory.
  destruct (lookup_lt_is_Some_2 _ _ H) as [m Hm]. by rewrite Hm.
Qed.

Lemma later_prompt w w' gp :
  gate_in w gp.1 → later w w' → prompt_ok w gp → prompt_ok w' gp.
Proof.
  intros Hg Hl Hp. pose proof (read_memory_lookup _ _ Hg) as Hm.
  destruct (later_memories _ _ Hl _ _ Hm) as (m' & Hm' & Hlater).
  unfold prompt_ok in *. assert (read_memory w' gp.1 = m') as -> by (unfold read_memory; by rewrite Hm').
  destruct Hlater as [[Hgen Hns]|Hlt]; [rewrite Hgen, Hns; done|]. left. lia.
Qed.

(** A step that only replaces the world keeps the invariant if the world is
    later and its memories stay keyed to their workspace. *)
Lemma invariant_world s w' :
  invariant s → later (world s) w' → Forall memory_ok (memories w') → invariant (set_world s w').
Proof.
  intros [Hg Hpg Hm Hp] Hl Hm'. split; simpl; [|done|done|].
  - eapply Forall_impl; [exact Hg|]. intros g. by apply later_gate.
  - rewrite Forall_forall in Hg. rewrite Forall_forall in Hpg, Hp |- *. intros gp Hin.
    apply (later_prompt (world s)); [|done|by apply Hp]. by apply Hg, Hpg.
Qed.

(** Writing a later memory that is keyed to its workspace. *)
Lemma write_memory_later w g m :
  gate_in w g → memory_later (read_memory w g) m → later w (write_memory w g m).
Proof.
  intros Hg Hl. split; simpl; [done|done|]. intros i m0 Hi.
  destruct (decide (i = memory g)) as [->|Hne].
  - exists m. rewrite list_lookup_insert_eq by (by apply lookup_lt_Some in Hi). split; [done|].
    pose proof (read_memory_lookup w g Hg). by simplify_eq.
  - exists m0. rewrite list_lookup_insert_ne by done. split; [done|apply memory_later_refl].
Qed.
Lemma write_memory_ok w g m :
  Forall memory_ok (memories w) → memory_ok m → Forall memory_ok (memories (write_memory w g m)).
Proof. intros. by apply Forall_insert. Qed.

Lemma invariant_write_memory s g m :
  invariant s → g ∈ gates s → memory_later (read_memory (world s) g) m → memory_ok m →
  invariant (set_world s (write_memory (world s) g m)).
Proof.
  intros Hi Hg Hl Hm. apply invariant_world; [done| |].
  - apply write_memory_later; [|done]. destruct Hi as [H _ _ _]. rewrite Forall_forall in H. auto.
  - apply write_memory_ok; [|done]. by destruct Hi.
Qed.

(** Worlds that agree on the memories. *)
Lemma same_memories_later w w' :
  memories w' = memories w → length (modes w') = length (modes w) →
  length (rule_cells w') = length (rule_cells w) → later w w'.
Proof.
  intros Hm H1 H2. split; [lia|lia|]. rewrite Hm. intros i m Hi. exists m.
  split; [done|apply memory_later_refl].
Qed.
Lemma invariant_same_memories s w' :
  invariant s → memories w' = memories (world s) → length (modes w') = length (modes (world s)) →
  length (rule_cells w') = length (rule_cells (world s)) → invariant (set_world s w').
Proof.
  intros Hi Hm H1 H2. apply invariant_world; [done|by apply same_memories_later|].
  rewrite Hm. by destruct Hi.
Qed.

(** * Preservation *)

Lemma clear_ok m : memory_ok m → memory_ok (set_session_allows m []).
Proof. intros [H _]. by split; [|constructor]. Qed.
Lemma set_allows_later m l : memory_later m (set_session_allows m l).
Proof. by left. Qed.

Lemma revoke_ok m id : memory_ok m → memory_ok (set_session_allows m (revoke_approvals (session_allows m) id).1).
Proof.
  unfold memory_ok. simpl. intros [Hn H]. split; [done|]. destruct id; simpl; [|constructor]. by apply Forall_filter_bool.
Qed.

Lemma replace_ok m a :
  memory_ok m → key_workspace_namespace (approval_key a) = namespace m →
  memory_ok (set_session_allows m (replace_approval (session_allows m) a)).
Proof.
  unfold memory_ok, replace_approval. simpl. intros [Hn H] Ha. split; [done|].
  apply Forall_app_2; [by apply Forall_filter_bool|]. by constructor.
Qed.

Lemma update_approvals_memories w change :
  memories (update_approvals w change).1 = memories w ∧
  modes (update_approvals w change).1 = modes w ∧
  rule_cells (update_approvals w change).1 = rule_cells w.
Proof. unfold update_approvals. repeat case_match; done. Qed.
Lemma store_revoke_memories w id :
  memories (store_revoke w id).1 = memories w ∧ modes (store_revoke w id).1 = modes w ∧
  rule_cells (store_revoke w id).1 = rule_cells w.
Proof.
  unfold store_revoke. pose proof (update_approvals_memories w
    (λ approvals, Some (revoke_approvals approvals id).1)) as H.
  by destruct (update_approvals _ _) as [w' []].
Qed.
Lemma update_rules_memories w change :
  memories (update_rules w change).1 = memories w ∧ modes (update_rules w change).1 = modes w ∧
  rule_cells (update_rules w change).1 = rule_cells w.
Proof. unfold update_rules. repeat case_match; done. Qed.

Lemma memory_of s g : invariant s → g ∈ gates s → memory_ok (read_memory (world s) g).
Proof.
  intros [Hg _ Hm _] Hin. rewrite Forall_forall in Hg. apply Hg, read_memory_lookup in Hin.
  rewrite Forall_forall in Hm. apply Hm. by eapply list_elem_of_lookup_2.
Qed.

Lemma inv_replace s g roots :
  invariant s → g ∈ gates s → generation (read_memory (world s) g) < u64_max →
  invariant (set_world s (replace_workspace_roots (world s) g roots).1).
Proof.
  intros Hi Hg Hgen. assert (Hsame : invariant (set_world s (world s))) by by destruct s.
  unfold replace_workspace_roots. destruct (yolo_active _ _ && _); [done|].
  destruct (decide (namespace _ = _)) as [|Hne]; [done|].
  set (w1 := if project_store g then store_revoke (world s) None else (world s, Some 0%nat)).
  assert (Hw1 : memories w1.1 = memories (world s) ∧ modes w1.1 = modes (world s) ∧
                rule_cells w1.1 = rule_cells (world s)).
  { unfold w1. destruct (project_store g); [apply store_revoke_memories|done]. }
  destruct w1 as [w' [n|]]; simpl in *; destruct Hw1 as (E1 & E2 & E3).
  - assert (Hr : read_memory w' g = read_memory (world s) g) by (unfold read_memory; by rewrite E1).
    assert (Hi' : invariant (set_world s w')).
    { apply invariant_same_memories; [done..|by rewrite E2|by rewrite E3]. }
    apply (invariant_write_memory (set_world s w') g); [done|done| |by split; [|constructor]].
    right. simpl. rewrite Hr. machine_lia.
  - apply invariant_same_memories; [done..|by rewrite E2|by rewrite E3].
Qed.

(** Adding cells at the end changes no existing one. *)
Lemma append_later w modes' memories' rules' :
  later w (mkWorld (modes w ++ modes')%list (memories w ++ memories')%list
             (rule_cells w ++ rules')%list (approvals_file w) (rules_file w)).
Proof.
  split; simpl; rewrite ?length_app; [lia|lia|]. intros i m Hi. exists m.
  split; [by apply lookup_app_l_Some|apply memory_later_refl].
Qed.

Lemma begin_prompt w g request hook mode semantics p :
  authorize_begin w g request hook mode semantics = Prompt p → prompt_ok w (g, p).
Proof.
  unfold authorize_begin. intros H. repeat case_match; simplify_eq; by right.
Qed.

Lemma inv_prompt_step s prompts :
  invariant s → Forall (λ gp, gp.1 ∈ gates s ∧ prompt_ok (world s) gp) prompts →
  invariant (mkSystem (world s) (gates s) prompts).
Proof. intros [Hg Hpg Hm Hp] H. apply Forall_and in H as [H1 H2]. by split. Qed.

Lemma finish_invariant s g p answer random :
  invariant s → g ∈ gates s → prompt_ok (world s) (g, p) →
  invariant (set_world s (authorize_finish (world s) g p answer random).1).
Proof.
  intros Hi Hg Hp. assert (Hsame : invariant (set_world s (world s))) by by destruct s.
  assert (Hacc : ∀ a, (∀ x, a = Some x → approval_key x = pending_key p) →
    invariant (set_world s (accept_for_generation (world s) g (pending_generation p) a).1)).
  { intros a Ha. unfold accept_for_generation.
    destruct (Z.eqb_spec (generation (read_memory (world s) g)) (pending_generation p)) as [He|];
      simpl; [|done]. destruct a as [x|]; simpl; [|done].
    apply invariant_write_memory; [done|done|apply set_allows_later|].
    apply replace_ok; [by apply memory_of|]. rewrite (Ha x eq_refl).
    destruct Hp as [Hlt|[_ Hns]]; [simpl in Hlt; lia|done]. }
  destruct answer; simpl; [done| | |done].
  - destruct (pending_rememberable p); simpl; apply Hacc; [|done].
    intros x Hx. unfold approval_new in Hx. destruct random; by simplify_eq.
  - destruct (pending_rememberable p); simpl; [|by apply Hacc].
    destruct (negb _); [done|]. simpl. destruct (project_store g); [|done].
    unfold store_grant. pose proof (update_approvals_memories (world s)
      (λ approvals, if contains_approval approvals (pending_key p) then Some approvals
         else option_map (replace_approval approvals) (approval_new "project" (pending_key p) random)))
      as (E1 & E2 & E3).
    apply invariant_same_memories; [done|done|by rewrite E2|by rewrite E3].
Qed.

(** A gate is added beside a world that already satisfies the invariant. *)
Lemma inv_add_gate s w g :
  invariant (set_world s w) → gate_in w g →
  invariant (mkSystem w (gates s ++ [g])%list (open_prompts s)).
Proof.
  intros [I1 I2 I3 I4] Hg. split; simpl in *; [|eapply Forall_impl; [exact I2|]|done|done].
  - apply Forall_app_2; [done|]. by apply Forall_singleton.
  - intros gp Hin. apply elem_of_app. auto.
Qed.

Lemma later_trans w1 w2 w3 : later w1 w2 → later w2 w3 → later w1 w3.
Proof.
  intros [A1 A2 A3] [B1 B2 B3]. split; [lia|lia|].
  intros i m0 Hm0. destruct (A3 _ _ Hm0) as (m1 & Hm1 & R1).
  destruct (B3 _ _ Hm1) as (m2 & Hm2 & R2). exists m2. split; [done|].
  destruct R1 as [[? ?]|?], R2 as [[? ?]|?]; [left|right..]; try lia. split; congruence.
Qed.

Lemma inv_new s p durable safety roots w1 g :
  invariant s → gate_new (world s) p = (w1, g) →
  invariant (mkSystem (with_workspace_roots w1 g roots)
               (gates s ++ [build_gate g durable safety])%list (open_prompts s)).
Proof.
  intros Hi Hnew. injection Hnew as <- <-.
  set (w1 := mkWorld _ _ _ _ _). set (g := mkGate _ _ _ _ _ _ _ _).
  assert (Hl1 : later (world s) w1) by apply append_later.
  assert (Hg1 : gate_in w1 g) by (unfold gate_in; simpl; rewrite !length_app; simpl; lia).
  assert (Hr : read_memory w1 g = memory_default).
  { unfold read_memory. simpl. by rewrite lookup_app_r, Nat.sub_diag by lia. }
  unfold with_workspace_roots. set (m := mkMemory _ _ _ _ _).
  assert (Hl2 : later w1 (write_memory w1 g m)).
  { apply write_memory_later; [done|]. right. rewrite Hr. simpl. lia. }
  apply inv_add_gate; [|exact (later_gate _ _ _ Hl2 Hg1)].
  apply invariant_world; [done|by eapply later_trans|].
  simpl. rewrite insert_app_r_alt, Nat.sub_diag by lia. apply Forall_app_2; [by destruct Hi|]. apply Forall_singleton.
  split; [done|]. unfold m. cbn [session_allows]. rewrite Hr. constructor.
Qed.

Lemma inv_turn s g patterns g' :
  invariant s → g ∈ gates s → with_turn_pre_approvals g patterns = Ok g' →
  invariant (mkSystem (world s) (gates s ++ [g'])%list (open_prompts s)).
Proof.
  intros Hi Hg Hturn. unfold with_turn_pre_approvals in Hturn.
  destruct (pre_approval_rules patterns); [|done]. injection Hturn as <-.
  apply inv_add_gate; [by destruct s|]. destruct Hi as [I1 _ _ _].
  rewrite Forall_forall in I1. exact (I1 _ Hg).
Qed.

Lemma inv_fork s g roots w' g' :
  invariant s → g ∈ gates s → fork_for_workspace_roots (world s) g roots = (w', Some g') →
  invariant (mkSystem w' (gates s ++ [g'])%list (open_prompts s)).
Proof.
  intros Hi Hg Hfork. unfold fork_for_workspace_roots in Hfork.
  destruct (yolo_active _ _ && _); [done|]. injection Hfork as <- <-. set (m' := mkMemory _ _ _ _ _).
  apply inv_add_gate.
  - apply invariant_world; [done| |apply Forall_app_2; [by destruct Hi|by apply Forall_singleton; split; [|constructor]]].
    pose proof (append_later (world s) [] [m'] []) as H. by rewrite !app_nil_r in H.
  - destruct Hi as [H _ _ _]. rewrite Forall_forall in H. destruct (H _ Hg) as (A & A' & A'').
    unfold gate_in; simpl. rewrite length_app. simpl. lia.
Qed.

Lemma inv_answer s before g p after answer random :
  invariant s → open_prompts s = (before ++ (g, p) :: after)%list →
  invariant (mkSystem (authorize_finish (world s) g p answer random).1 (gates s)
               (before ++ after)%list).
Proof.
  intros Hi Hopen. pose proof Hi as [I1 I2 I3 I4]. rewrite Hopen in I2, I4.
  apply Forall_app in I2 as [I2a I2b], I4 as [I4a I4b].
  apply Forall_cons_1 in I2b as [Hg I2b], I4b as [Hp I4b]. simpl in Hg.
  pose proof (finish_invariant s g p answer random Hi Hg Hp) as [J1 J2 J3 J4]. simpl in *.
  rewrite Hopen in J4. apply Forall_app in J4 as [J4a J4b]. apply Forall_cons_1 in J4b as [_ J4b].
  split; simpl; [done|by apply Forall_app_2|done|by apply Forall_app_2].
Qed.

(** Operations on the ledger files leave the cells alone. *)
Lemma inv_ledger s w' :
  invariant s →
  memories w' = memories (world s) ∧ modes w' = modes (world s) ∧
  rule_cells w' = rule_cells (world s) → invariant (set_world s w').
Proof. intros Hi (E1 & E2 & E3). apply invariant_same_memories; [done|done|by rewrite E2|by rewrite E3]. Qed.

Lemma inv_refl s : invariant s → invariant (set_world s (world s)).
Proof. by destruct s. Qed.

Lemma inv_clear s g :
  invariant s → g ∈ gates s →
  invariant (set_world s (clear_session_permissions (world s) g).1).
Proof.
  intros Hi Hg. unfold clear_session_permissions, clear_session_rules. cbv zeta. simpl.
  assert (Hi1 : invariant (set_world s (write_session_rules (world s) g []))).
  { apply invariant_same_memories; [done|done|done|apply length_insert]. }
  exact (invariant_write_memory _ g _ Hi1 Hg (set_allows_later _ _) (clear_ok _ (memory_of s g Hi Hg))).
Qed.

Lemma inv_revoke s g id :
  invariant s → g ∈ gates s →
  invariant (set_world s (revoke_session_approvals (world s) g id).1).
Proof.
  intros Hi Hg. unfold revoke_session_approvals.
  pose proof (revoke_ok (read_memory (world s) g) id (memory_of s g Hi Hg)) as Hok.
  destruct (revoke_approvals (session_allows (read_memory (world s) g)) id) as [kept removed].
  apply invariant_write_memory; [done|done|apply set_allows_later|done].
Qed.

Lemma project_rules_cells w g rule pattern :
  (memories (add_project_rule w g rule).1 = memories w ∧
   modes (add_project_rule w g rule).1 = modes w ∧
   rule_cells (add_project_rule w g rule).1 = rule_cells w) ∧
  (memories (remove_project_rule w g pattern).1 = memories w ∧
   modes (remove_project_rule w g pattern).1 = modes w ∧
   rule_cells (remove_project_rule w g pattern).1 = rule_cells w).
Proof.
  unfold add_project_rule, remove_project_rule. destruct (negb (project_rules g)); [done|].
  split.
  - destruct (validate_rule _); [|done]. apply update_rules_memories.
  - match goal with |- context [update_rules w ?c] =>
      pose proof (update_rules_memories w c) as H; by destruct (update_rules w c) as [w' [|]] end.
Qed.

#[local] Hint Resolve inv_new inv_turn inv_fork inv_replace inv_answer inv_refl inv_clear
  inv_revoke : history.

Lemma step_invariant s s' : invariant s → step s s' → invariant s'.
Proof.
  intros Hi Hstep. destruct Hstep; eauto with history.
  - (* trusted roots *)
    apply invariant_write_memory; [done|done|by left|]. by apply (memory_of s g).
  - (* mode *)
    unfold set_runtime_mode. destruct (policy g); [|by apply inv_refl].
    destruct (_ && _); [by apply inv_refl|]. apply invariant_same_memories; [done|done| |done].
    apply length_insert.
  - (* session rules *)
    unfold add_session_rule. destruct (validate_rule _); [|by apply inv_refl].
    apply invariant_same_memories; [done|done|done|apply length_insert].
  - apply invariant_same_memories; [done|done|done|apply length_insert].
  - (* ledgers *)
    apply inv_ledger; [done|]. unfold revoke_project_approvals.
    destruct (project_store g); [apply store_revoke_memories|done].
  - apply inv_ledger; [done|]. by apply (project_rules_cells _ _ _ EmptyString).
  - apply inv_ledger; [done|]. by apply (project_rules_cells _ _ (mkRule EmptyString Ask)).
  - (* a prompt opens *)
    apply begin_prompt in H0. apply inv_prompt_step; [done|]. destruct Hi as [_ I2 _ I4].
    apply Forall_app_2; [by apply Forall_and|]. by apply Forall_singleton.
  - by apply inv_ledger.
Qed.

Lemma reachable_invariant s : reachable s → invariant s.
Proof.
  induction 1 as [approvals rules|s s' _ IH Hs]; [by repeat constructor|].
  by eapply step_invariant.
Qed.

(** C5: over every history of gates, forks, mode and rule changes, prompts
    answered in any order and root switches, an approval remembered for the
    session is keyed to the roots its gate serves now, and to no others: if the
    key is that of some roots, those are, as canonical paths and in order, the
    roots of the gate.  So an approval granted for one set of roots is never
    available under another, as long as BLAKE3 does not collide and the roots
    have sizes of 64 bits. *)
Theorem session_approvals_bound s g a :
  reachable s → g ∈ gates s → a ∈ session_allows (read_memory (world s) g) →
  let current := workspace_roots (read_memory (world s) g) in
  key_workspace_namespace (approval_key a) = workspace_namespace current ∧
  ∀ roots,
    (∀ x y, blake3_hex x = blake3_hex y → x = y) → sized_roots roots → sized_roots current →
    key_workspace_namespace (approval_key a) = workspace_namespace roots →
    canonical_workspace_roots roots = canonical_workspace_roots current.
Proof.
  intros Hr Hg Ha. destruct (memory_of s g (reachable_invariant s Hr) Hg) as [Hn Hm].
  rewrite Forall_forall in Hm. specialize (Hm a Ha). cbn beta in Hm. rewrite Hn in Hm. split; [done|].
  intros roots Hinj H1 H2 H3. apply namespace_inj; [done..|]. congruence.
Qed.

(** C4: switching the workspace closes every door at once. After a switch to
    different roots, any answer to a prompt opened before it is refused and
    changes nothing (not even an allow-once or a project grant), no session
    approval is left, and the generation has moved on by one. *)
Theorem root_switch_invalidates w g roots w' u p answer random :
  gate_in w g → generation (read_memory w g) < u64_max →
  pending_generation p ≤ generation (read_memory w g) →
  namespace (read_memory w g) ≠ workspace_namespace (canonical_workspace_roots roots) →
  replace_workspace_roots w g roots = (w', Some u) →
  authorize_finish w' g p answer random = (w', Denied) ∧
  session_allows (read_memory w' g) = [] ∧
  update_generation u = generation (read_memory w g) + 1.
Proof.
  intros Hg Hgen Hp Hns Hr. unfold replace_workspace_roots in Hr.
  destruct (yolo_active w g && _); [done|]. rewrite decide_False in Hr by done.
  set (w1 := if project_store g then store_revoke w None else (w, Some 0%nat)) in Hr.
  assert (Hw1 : memories w1.1 = memories w).
  { unfold w1. destruct (project_store g); [apply store_revoke_memories|done]. }
  destruct w1 as [w2 [n|]]; [|done]. simpl in *. simplify_eq.
  set (m := mkMemory _ _ _ _ _).
  assert (Hm : read_memory (write_memory w2 g m) g = m).
  { unfold read_memory. simpl. rewrite Hw1, list_lookup_insert_eq; [done|]. by destruct Hg as (_ & ? & _). }
  assert (Hsat : sat_add (generation (read_memory w g)) 1 = generation (read_memory w g) + 1)
    by machine_lia.
  assert (Hne : (generation m =? pending_generation p) = false).
  { apply Z.eqb_neq. simpl. rewrite Hsat. lia. }
  split_and!; [|by rewrite Hm|by simpl].
  destruct answer; simpl; unfold accept_for_generation; rewrite ?Hm, ?Hne; simpl; try done.
  all: by destruct (pending_rememberable p).
Qed.

(** A fork never disturbs its parent and stays tied to it. Forking for
    other roots leaves the parent's memory, mode and rules as they are and
    starts without session approvals; from then on a mode switch through
    either gate is seen by both, and so is a session rule. *)
Theorem fork_isolated_and_shared w g roots w' g' :
  gate_in w g → fork_for_workspace_roots w g roots = (w', Some g') →
  read_memory w' g = read_memory w g ∧ read_mode w' g = read_mode w g ∧
  read_session_rules w' g = read_session_rules w g ∧
  session_allows (read_memory w' g') = [] ∧
  (∀ mode, read_mode (set_runtime_mode w' g mode).1 g' = read_mode (set_runtime_mode w' g mode).1 g ∧
           read_mode (set_runtime_mode w' g' mode).1 g = read_mode (set_runtime_mode w' g' mode).1 g') ∧
  (∀ rule, read_session_rules (add_session_rule w' g rule).1 g' =
           read_session_rules (add_session_rule w' g rule).1 g).
Proof.
  intros (Hg1 & Hg2 & Hg3) Hf. unfold fork_for_workspace_roots in Hf.
  destruct (yolo_active w g && _); [done|]. simplify_eq. split_and!; try done.
  - unfold read_memory. simpl. by rewrite lookup_app_l.
  - unfold read_memory. simpl. by rewrite lookup_app_r, Nat.sub_diag by lia.
Qed.
End history.

(** * Witnesses *)

Definition first_system : System := no_gates (mkLedger true Persisted []) (mkLedger true Persisted []).
Definition first_cells : World * PermissionGate :=
  gate_new (world first_system) (Configured (mkConfig Ask [])).
Definition first_gate : PermissionGate := build_gate first_cells.2 false [].
Definition after_new : System :=
  mkSystem (@with_workspace_roots InjectiveSample.hash sample_fs first_cells.1 first_cells.2 ["/work"])
    [first_gate] [].

Definition edit_request : PermissionRequest :=
  sample_request "edit" [("path", JString "a")] [WriteFilesystem].
Definition begun : Begun :=
  @authorize_begin sample_words sample_glob SampleJson.writer InjectiveSample.hash sample_url
    sample_fs sample_exec (world after_new) first_gate edit_request None ExecuteMode None.
Definition edit_prompt : Pending :=
  match begun with Prompt p => p | Decided _ => mkPending edit_request (mkKey "" "" [] None []) 0 false end.
Definition after_begin : System := mkSystem (world after_new) [first_gate] [(first_gate, edit_prompt)].
Definition after_answer : System :=
  mkSystem (authorize_finish (world after_new) first_gate edit_prompt AllowSession (Some "77")).1
    [first_gate] [].

#[local] Existing Instances sample_words sample_glob SampleJson.writer InjectiveSample.hash
  sample_url sample_fs sample_exec.

Lemma after_answer_reachable :
  @reachable sample_words sample_glob SampleJson.writer InjectiveSample.hash sample_url sample_fs
    sample_exec after_answer.
Proof.
  eapply R_step; [eapply R_step; [eapply R_step; [apply R_start|]|]|].
  - exact (S_new first_system (Configured (mkConfig Ask [])) false [] ["/work"] first_cells.1
             first_cells.2 eq_refl).
  - exact (S_begin after_new first_gate edit_request None ExecuteMode None edit_prompt
             ltac:(left) ltac:(vm_compute; reflexivity)).
  - exact (S_answer after_begin [] first_gate edit_prompt [] AllowSession (Some "77") eq_refl).
Qed.

Lemma session_approvals_bound_witness :
  workspace_roots (read_memory (world after_answer) first_gate) = ["/work"] ∧
  ∃ a, a ∈ session_allows (read_memory (world after_answer) first_gate) ∧
       key_workspace_namespace (approval_key a) = workspace_namespace ["/work"] ∧
       ∀ roots, sized_roots roots → key_workspace_namespace (approval_key a) = workspace_namespace roots →
                canonical_workspace_roots roots = ["/work"].
Proof.
  split; [vm_compute; reflexivity|]. eexists (mkApproval "session:77" (pending_key edit_prompt)).
  assert (H : mkApproval "session:77" (pending_key edit_prompt) ∈
              session_allows (read_memory (world after_answer) first_gate)) by (vm_compute; left).
  split; [exact H|].
  destruct (@session_approvals_bound sample_words sample_glob SampleJson.writer InjectiveSample.hash
    sample_url sample_fs sample_exec after_answer first_gate _ after_answer_reachable ltac:(left) H) as [H1 H2].
  split; [exact H1|]. intros roots Hs Hk.
  refine (H2 roots _ Hs _ Hk); [done|]. split; [vm_compute; split; discriminate|].
  replace (canonical_workspace_roots _) with ["/work"] by (vm_compute; reflexivity).
  apply Forall_singleton. vm_compute. split; discriminate.
Defined.

Lemma root_switch_invalidates_witness :
  ∃ w' u, @replace_workspace_roots InjectiveSample.hash sample_fs (world after_begin) first_gate ["/other"] =
            (w', Some u) ∧
    authorize_finish w' first_gate edit_prompt AllowOnce None = (w', Denied).
Proof.
  eexists _, _. split; [vm_compute; reflexivity|].
  refine (proj1 (@root_switch_invalidates InjectiveSample.hash sample_fs (world after_begin) first_gate
    ["/other"] _ _ edit_prompt AllowOnce None _ _ _ _ _)).
  - vm_compute. lia.
  - vm_compute. reflexivity.
  - vm_compute. discriminate.
  - vm_compute. discriminate.
  - vm_compute. reflexivity.
Defined.

Lemma fork_isolated_and_shared_witness :
  ∃ w' g', @fork_for_workspace_roots InjectiveSample.hash sample_fs (world after_answer) first_gate
             ["/other"] = (w', Some g') ∧
    read_memory w' first_gate = read_memory (world after_answer) first_gate.
Proof.
  eexists _, _. split; [vm_compute; reflexivity|].
  refine (proj1 (@fork_isolated_and_shared sample_glob InjectiveSample.hash sample_fs
    (world after_answer) first_gate ["/other"] _ _ _ _)).
  - vm_compute. lia.
  - vm_compute. reflexivity.
Defined.
