(* ===== verification/Hooks.v ===== *)
(** Hooks: registration and dispatch ([rw-ext/src/hook.rs], with
    [hook/readiness.rs] and the contract of [rw-types/src/hook_contract.rs]).

    [HookDispatcher] keeps the registrations of each event in execution order.
    [dispatch] runs one phase: a process ([Effects]) whose actions are readings
    of the clock, calls of handlers, and the admission and settlement that a
    handler's runtime answers.  Times are nanoseconds.  The size of an encoded
    payload is what serde and serde_json make of it ([HookEncoding]). *)
From Stdlib Require Import Ascii.
From S2P Require Import Prelude Text Ir Effects Redaction PermissionRules PermissionGate.

(** * The contract *)

Definition MILLIS : Z := 1000000.
Definition HOOK_PHASE_TIMEOUT : Z := 5000 * MILLIS.
Definition HOOK_SETTLEMENT_TIMEOUT : Z := 2000 * MILLIS.
Definition PLUGIN_ACTIVATION_TIMEOUT : Z := 30000 * MILLIS.
Definition PLUGIN_ACTIVATION_SETTLEMENT_TIMEOUT : Z := 5000 * MILLIS.
Definition MAX_HOOKS_PER_EVENT : nat := 128.
Definition MAX_HOOK_DIAGNOSTIC_BYTES : nat := Z.to_nat 4096.
Definition MAX_HOOK_PAYLOAD_BYTES : Z := 256 * 1024.
(** [Duration::from_mins(10)] *)
Definition MAX_TIMEOUT : Z := 600000 * MILLIS.

Inductive HookEvent : Type :=
| SessionStart | SessionEnd | UserPromptSubmit | PreTool | PostTool | PreCompact | TurnEnd
| PermissionCheck.
#[global] Instance HookEvent_eq_dec : EqDecision HookEvent.
Proof. solve_decision. Defined.
#[global] Instance HookEvent_countable : Countable HookEvent.
Proof.
  refine (inj_countable' (λ e, match e with
    | SessionStart => 0 | SessionEnd => 1 | UserPromptSubmit => 2 | PreTool => 3 | PostTool => 4
    | PreCompact => 5 | TurnEnd => 6 | PermissionCheck => 7 end%nat)
    (λ n, match n with
    | 0 => SessionStart | 1 => SessionEnd | 2 => UserPromptSubmit | 3 => PreTool | 4 => PostTool
    | 5 => PreCompact | 6 => TurnEnd | _ => PermissionCheck end%nat) _).
  by intros [].
Defined.

Definition accepts_transform (e : HookEvent) : bool :=
  match e with UserPromptSubmit | PreTool | PostTool | PreCompact => true | _ => false end.

Inductive HookFailurePolicy : Type := FailOpen | FailClosed.
#[global] Instance HookFailurePolicy_eq_dec : EqDecision HookFailurePolicy.
Proof. solve_decision. Defined.

Inductive HookClass : Type := TransformClass | PolicyClass.
#[global] Instance HookClass_eq_dec : EqDecision HookClass.
Proof. solve_decision. Defined.
(** The derived [Ord]: transforms before policies. *)
Definition class_rank (c : HookClass) : Z := match c with TransformClass => 0 | PolicyClass => 1 end.

(** The derived [Ord] of [HookPermissionDecision] and its [max]. *)
Definition decision_rank (d : HookPermissionDecision) : Z :=
  match d with HookAllow => 0 | HookAsk => 1 | HookDeny => 2 end.
Definition decision_max (a b : HookPermissionDecision) : HookPermissionDecision :=
  if decision_rank b <? decision_rank a then a else b.

Inductive TurnStatus : Type :=
| TurnCompleted | TurnInterrupted | TurnFailed | TurnMaxTurns | TurnDoomLoop | TurnBudgetExceeded.
Inductive CompactionTrigger : Type := AutomaticTrigger | ManualTrigger | OverflowTrigger.

Record HookSessionInput : Type := mkSessionInput { si_session_id : string; si_workspace : string }.
Record HookToolInput : Type := mkToolInput {
  ti_id : string; ti_name : string; ti_arguments : Value }.
Record HookToolResultInput : Type := mkToolResultInput {
  tr_id : string; tr_name : string; tr_arguments : Value; tr_output : ToolOutput; tr_is_error : bool }.
Record HookPermissionInput : Type := mkPermissionInput {
  pi_id : string; pi_name : string; pi_arguments : Value; pi_capabilities : list ToolCapability }.
Record HookCompactionInput : Type := mkCompactionInput {
  ci_reason : CompactionTrigger; ci_conversation_turns : Z; ci_injected_context : list string;
  ci_replacement_prompt : option string; ci_suppress_auto_continue : bool }.
Record HookTurnInput : Type := mkTurnInput { tu_turn : Z; tu_status : TurnStatus }.

Inductive HookInput : Type :=
| InSessionStart (input : HookSessionInput)
| InSessionEnd (input : HookSessionInput)
| InUserPromptSubmit (content : string)
| InPreTool (input : HookToolInput)
| InPostTool (input : HookToolResultInput)
| InPreCompact (input : HookCompactionInput)
| InTurnEnd (input : HookTurnInput)
| InPermissionCheck (input : HookPermissionInput).

Inductive HookTransform : Type :=
| ToUserPromptSubmit (content : string)
| ToPreTool (name : string) (arguments : Value)
| ToPostTool (output : ToolOutput) (is_error : bool)
| ToPreCompact (injected_context : list string) (replacement_prompt : option string)
    (suppress_auto_continue : bool).

Inductive HookDirective : Type :=
| Continue
| Transform (change : HookTransform)
| Permission (value : HookPermissionDecision)
| Block (message : string).

(** [HookInput::event] *)
Definition event_of (input : HookInput) : HookEvent :=
  match input with
  | InSessionStart _ => SessionStart | InSessionEnd _ => SessionEnd
  | InUserPromptSubmit _ => UserPromptSubmit | InPreTool _ => PreTool | InPostTool _ => PostTool
  | InPreCompact _ => PreCompact | InTurnEnd _ => TurnEnd | InPermissionCheck _ => PermissionCheck
  end.
Definition tool_name (input : HookInput) : option string :=
  match input with
  | InPreTool i => Some (ti_name i) | InPostTool i => Some (tr_name i)
  | InPermissionCheck i => Some (pi_name i) | _ => None
  end.

(** A canonical tool name: lowercase letters, digits and underscores. *)
Definition canonical_tool_byte (c : ascii) : bool :=
  let n := nat_of_ascii c in
  ((97 <=? n) && (n <=? 122) || (48 <=? n) && (n <=? 57))%nat || Ascii.eqb c "_".
Definition canonical_tool_name (name : string) : bool :=
  negb (is_empty name) && str_all canonical_tool_byte name.

(** [HookInput::apply] *)
Definition apply_transform (self : HookInput) (change : HookTransform) : Result HookInput string :=
  match self, change with
  | InUserPromptSubmit _, ToUserPromptSubmit content => Ok (InUserPromptSubmit content)
  | InPreTool input, ToPreTool name arguments =>
      if negb (canonical_tool_name name) then Err "hook transform has an invalid tool name"
      else Ok (InPreTool (mkToolInput (ti_id input) name arguments))
  | InPostTool input, ToPostTool output is_error =>
      Ok (InPostTool (mkToolResultInput (tr_id input) (tr_name input) (tr_arguments input) output
                        (tr_is_error input || is_error)))
  | InPreCompact input, ToPreCompact context prompt suppress =>
      Ok (InPreCompact (mkCompactionInput (ci_reason input) (ci_conversation_turns input) context
                          prompt suppress))
  | _, _ => Err "hook transform does not match its phase"
  end.

Record HookError : Type := mkHookError { error_code : string; error_message : string }.

(** Cut at the last character boundary within the limit. *)
Fixpoint boundary_below (s : string) (n : nat) : nat :=
  if is_char_boundary s n then n else match n with O => O | S n' => boundary_below s n' end.
Definition bounded_diagnostic (value : string) : string :=
  str_take (boundary_below value (Nat.min (String.length value) MAX_HOOK_DIAGNOSTIC_BYTES)) value.
Definition hook_error (code message : string) : HookError :=
  mkHookError (bounded_diagnostic code) (bounded_diagnostic message).
(** [HookError::to_string] *)
Definition error_text (e : HookError) : string := (error_code e ++ ": " ++ error_message e)%string.

(** [char::is_control]: C0, DEL and C1. *)
Definition is_control (ch : string) : bool :=
  match ch with
  | String c "" => let n := nat_of_ascii c in ((n <? 32) || (n =? 127))%nat
  | String c (String d "") =>
      (nat_of_ascii c =? 194)%nat && ((128 <=? nat_of_ascii d) && (nat_of_ascii d <? 160))%nat
  | _ => false
  end.

(** * Registration *)

Inductive HookEffect : Type := ReadOnly | WorkspaceMutating.
#[global] Instance HookEffect_eq_dec : EqDecision HookEffect.
Proof. solve_decision. Defined.

Record HookRegistration : Type := mkRegistration {
  hook_id : string;
  hook_event : HookEvent;
  priority : Z;
  class : HookClass;
  failure_policy : HookFailurePolicy;
  timeout : Z;
  effect : HookEffect;
  applicable_tools : list string;
  required_capabilities : list ToolCapability;
}.

(** [HookRegistration::new] and its builders *)
Definition registration_new (id : string) (event : HookEvent) (c : HookClass) : HookRegistration :=
  mkRegistration id event 0 c FailClosed (5000 * MILLIS) ReadOnly [] [].
Definition with_applicable_tools (r : HookRegistration) (tools : list string) : HookRegistration :=
  mkRegistration (hook_id r) (hook_event r) (priority r) (class r) (failure_policy r) (timeout r)
    (effect r) (dedup (stable_sort String.leb tools)) (required_capabilities r).
Definition push_new (l : list ToolCapability) (c : ToolCapability) : list ToolCapability :=
  if decide (c ∈ l) then l else (l ++ [c])%list.
Definition with_required_capabilities (r : HookRegistration) (l : list ToolCapability)
    : HookRegistration :=
  mkRegistration (hook_id r) (hook_event r) (priority r) (class r) (failure_policy r) (timeout r)
    (effect r) (applicable_tools r) (foldl push_new [] l).

(** A binary search of the sorted names. *)
Definition applies_to_tool (r : HookRegistration) (name : string) : bool :=
  match applicable_tools r with [] => true | tools => existsb (String.eqb name) tools end.

(** A registered hook; [native] says that its handler has a readiness phase.
    The handler and its runtime are reached through actions. *)
Record RegisteredHook : Type := mkHook { registration : HookRegistration; native : bool }.

Inductive HookRegistrationError : Type :=
| InvalidId | InvalidToolName | InvalidClass | HookCapacity | Duplicate (event : HookEvent) (id : string).

Definition HookDispatcher : Type := gmap HookEvent (list RegisteredHook).

Definition validate_id (id : string) : bool :=
  negb (is_empty id || existsb is_control (utf8_chars id)).

Definition valid_class (r : HookRegistration) : bool :=
  negb ((bool_decide (class r = TransformClass) && negb (accepts_transform (hook_event r))) ||
        (bool_decide (class r = PolicyClass) && negb (bool_decide (failure_policy r = FailClosed))) ||
        (bool_decide (effect r = WorkspaceMutating) &&
           negb (match hook_event r with PreTool | PostTool | TurnEnd => true | _ => false end)) ||
        (timeout r =? 0) || (MAX_TIMEOUT <? timeout r)).

(** Execution order: class, then priority, then id. *)
Definition hook_le (x y : RegisteredHook) : bool :=
  let a := registration x in let b := registration y in
  if class_rank (class a) =? class_rank (class b) then
    if priority a =? priority b then String.leb (hook_id a) (hook_id b)
    else priority a <? priority b
  else class_rank (class a) <? class_rank (class b).

Definition hooks_of (d : HookDispatcher) (event : HookEvent) : list RegisteredHook :=
  default [] (d !! event).

(** [register_shared] *)
Definition register_shared (self : HookDispatcher) (hook : RegisteredHook)
    : HookDispatcher * Result unit HookRegistrationError :=
  let r := registration hook in
  if negb (validate_id (hook_id r)) then (self, Err InvalidId)
  else if negb (valid_class r) then (self, Err InvalidClass)
  else if existsb (λ name, negb (canonical_tool_name name)) (applicable_tools r)
  then (self, Err InvalidToolName)
  else
    let event := hook_event r in
    let event_hooks := hooks_of self event in
    let self := <[event := event_hooks]> self in
    if existsb (λ h, String.eqb (hook_id (registration h)) (hook_id r)) event_hooks
    then (self, Err (Duplicate event (hook_id r)))
    else if (MAX_HOOKS_PER_EVENT <=? length event_hooks)%nat then (self, Err HookCapacity)
    else (<[event := stable_sort hook_le (event_hooks ++ [hook])]> self, Ok tt).

Definition registrations (self : HookDispatcher) (event : HookEvent) : list HookRegistration :=
  map registration (hooks_of self event).

Definition has_workspace_mutating_tool_hook (self : HookDispatcher) (event : HookEvent)
    (name : string) : bool :=
  existsb (λ r, bool_decide (effect r = WorkspaceMutating) && applies_to_tool r name)
    (registrations self event).

Definition required_tool_capabilities (self : HookDispatcher) (event : HookEvent) (name : string)
    : list ToolCapability :=
  foldl (λ caps r, foldl push_new caps (required_capabilities r)) []
    (List.filter (λ r, applies_to_tool r name) (registrations self event)).

(** * Dispatch *)

Record HookFailure : Type := mkFailure {
  failed_hook : string;
  failed_policy : HookFailurePolicy;
  failed_error : HookError;
}.

Inductive HookDispatchStatus : Type :=
| Completed
| Blocked (hook : string) (message : string)
| FailedClosed (hook : string).

Record HookDispatchResult : Type := mkDispatch {
  input : HookInput;
  permission : option HookPermissionDecision;
  status : HookDispatchStatus;
  failures : list HookFailure;
}.

(** What a call of a handler comes to. *)
Inductive Invoked (A : Type) : Type :=
| Returned (r : Result A HookError)
| Panicked
| DeadlineElapsed.
Arguments Returned {A} r.
Arguments Panicked {A}.
Arguments DeadlineElapsed {A}.

(** What waiting for the settlement of its effects comes to. *)
Inductive Settlement : Type := Settled | SettleFailed (e : HookError) | SettleTimedOut.

Inductive HookAction : Type :=
| ANow
| AAdmit (hook : string) (deadline : Z)
| AReady (hook : string) (deadline : Z)
| AInvoke (hook : string) (seen : HookInput) (deadline : Z)
| ACancel (hook : string)
| ACleanup (hook : string)
| ACleanupBy (hook : string) (deadline : Z)
| ACleanupWithin (hook : string) (duration : Z)
| ACloseAdmission (hook : string)
| ASettle (hook : string) (deadline : Z).

Definition hook_answer (a : HookAction) : Type :=
  match a with
  | ANow => Z
  | AAdmit _ _ => Result unit HookError
  | AReady _ _ => Invoked unit
  | AInvoke _ _ _ => Invoked HookDirective
  | ACancel _ | ACleanup _ | ACloseAdmission _ => unit
  | ACleanupBy _ _ | ACleanupWithin _ _ => Settlement
  | ASettle _ _ => Result unit HookError
  end.

(** [Invocation]: the owner of an admitted call, with its permit. *)
Record Invocation : Type := mkInvocation { owner_of : string; permit : bool }.
(** [Invocation::finish]: hand the permit to the settlement task. *)
Definition finish (self : Invocation) : Proc hook_answer (Invocation * bool) :=
  if permit self then
    _ ← await (ACleanup (owner_of self));
    mret (mkInvocation (owner_of self) false, true)
  else mret (self, false).
Definition drop_invocation (self : Invocation) : Proc hook_answer unit :=
  _ ← await (ACancel (owner_of self)); _ ← finish self; mret tt.

Definition no_owner (what : string) : HookError := hook_error "effects_unsettled" what.

(** [invoke_registered_hook] *)
Definition invoke_registered_hook (r : HookRegistration) (seen : HookInput)
    (deadline settlement_deadline : Z) : Proc hook_answer (Result HookDirective HookError) :=
  now ← await ANow;
  let invocation_deadline := Z.min deadline (now + timeout r) in
  admitted ← await (AAdmit (hook_id r) invocation_deadline);
  match admitted with
  | Err e => mret (Err e)
  | Ok _ =>
      let owner := mkInvocation (hook_id r) true in
      outcome ← await (AInvoke (hook_id r) seen invocation_deadline);
      now ← await ANow;
      let cleanup_deadline := Z.min settlement_deadline (now + HOOK_SETTLEMENT_TIMEOUT) in
      result ← match outcome with
               | Returned result => mret result
               | Panicked => mret (Err (hook_error "panic" "hook implementation panicked"))
               | DeadlineElapsed =>
                   _ ← await (ACancel (hook_id r));
                   mret (Err (hook_error "timeout" "hook invocation deadline elapsed"))
               end;
      finished ← finish owner;
      let '(owner, cleanup) := finished in
      if negb cleanup then
        _ ← drop_invocation owner;
        mret (Err (no_owner "hook invocation has no settlement owner"))
      else
        settled ← await (ACleanupBy (hook_id r) cleanup_deadline);
        result ← match settled with
                 | Settled => mret result
                 | SettleFailed e => _ ← await (ACloseAdmission (hook_id r)); mret (Err e)
                 | SettleTimedOut =>
                     _ ← await (ACloseAdmission (hook_id r));
                     mret (Err (hook_error "effects_unsettled" "hook effect settlement deadline elapsed"))
                 end;
        _ ← drop_invocation owner;
        mret result
  end.

Definition readiness_timeout : HookError :=
  hook_error "readiness_timeout" "aggregate native hook readiness deadline elapsed".

(** [readiness::prepare_one] *)
Definition prepare_one (hook : RegisteredHook) (deadline : Z) : Proc hook_answer (Result unit HookError) :=
  let id := hook_id (registration hook) in
  if negb (native hook) then mret (Ok tt) else
  now ← await ANow;
  if deadline <=? now then mret (Err readiness_timeout) else
  admitted ← await (AAdmit id deadline);
  match admitted with
  | Err e => mret (Err e)
  | Ok _ =>
      let owner := mkInvocation id true in
      ready ← await (AReady id deadline);
      outcome ← match ready with
                | Returned result => mret result
                | Panicked => mret (Err (hook_error "panic" "hook readiness panicked"))
                | DeadlineElapsed => _ ← await (ACancel id); mret (Err readiness_timeout)
                end;
      finished ← finish owner;
      let '(owner, cleanup) := finished in
      if negb cleanup then
        _ ← drop_invocation owner;
        mret (Err (no_owner "native hook readiness has no settlement owner"))
      else
        settled ← await (ACleanupWithin id PLUGIN_ACTIVATION_SETTLEMENT_TIMEOUT);
        outcome ← match settled with
                  | Settled => mret outcome
                  | SettleFailed e => mret (Err e)
                  | SettleTimedOut =>
                      _ ← await (ACloseAdmission id);
                      mret (Err (hook_error "effects_unsettled"
                                   "native hook readiness settlement deadline elapsed"))
                  end;
        _ ← drop_invocation owner;
        mret outcome
  end.

Definition selected (hook : RegisteredHook) (input : HookInput) (only : option HookEffect) : bool :=
  match only with None => true | Some e => bool_decide (e = effect (registration hook)) end &&
  match tool_name input with None => true | Some name => applies_to_tool (registration hook) name end.

(** [record_failure]: an unsettled effect ends the phase with its error;
    otherwise the failure is kept, and says whether the phase is closed. *)
Definition closes (r : HookRegistration) (e : HookError) : bool :=
  bool_decide (failure_policy r = FailClosed) ||
  String.eqb (error_code e) "phase_timeout" || String.eqb (error_code e) "readiness_timeout".
Definition record_failure (r : HookRegistration) (result : HookDispatchResult) (e : HookError)
    : Result (HookDispatchResult * bool) HookError :=
  if String.eqb (error_code e) "effects_unsettled" then Err e else
  let failed_closed := closes r e in
  Ok (mkDispatch (input result) (permission result)
        (if failed_closed then FailedClosed (hook_id r) else status result)
        (failures result ++ [mkFailure (hook_id r) (failure_policy r) e]), failed_closed).

(** How many bytes serde_json writes for a payload; [None] is an error. *)
Class HookEncoding : Type := {
  input_bytes : HookInput → option Z;
  directive_bytes : HookDirective → option Z;
}.

(** [check_size] *)
Definition check_size (bytes : option Z) : bool :=
  match bytes with Some n => n <=? MAX_HOOK_PAYLOAD_BYTES | None => false end.
Definition payload_limit : HookError := hook_error "payload_limit" "hook payload exceeds its byte limit".

Definition invalid_block_message (message : string) : bool :=
  is_empty message || (MAX_HOOK_DIAGNOSTIC_BYTES <? String.length message)%nat ||
  existsb (λ ch, is_control ch && negb (String.eqb ch (String (byte 10) "") ||
                                         String.eqb ch (String (byte 9) ""))) (utf8_chars message).

Section dispatch.
Context {enc : HookEncoding}.

(** [apply_directive]; the dispatch result is unchanged on an error. *)
Definition apply_directive (c : HookClass) (result : HookDispatchResult) (d : HookDirective)
    : Result HookDispatchResult HookError :=
  if negb (check_size (directive_bytes d)) then Err payload_limit else
  let illegal := Err (hook_error "invalid_directive"
                        "hook decision is not legal for its phase and class") in
  match d with
  | Continue => Ok result
  | Transform change =>
      if bool_decide (c = TransformClass) then
        match apply_transform (input result) change with
        | Err message => Err (hook_error "invalid_directive" message)
        | Ok candidate =>
            if negb (check_size (input_bytes candidate)) then Err payload_limit
            else Ok (mkDispatch candidate (permission result) (status result) (failures result))
        end
      else illegal
  | Permission value =>
      if bool_decide (c = PolicyClass) && bool_decide (event_of (input result) = PermissionCheck) then
        Ok (mkDispatch (input result)
              (Some (match permission result with None => value
                     | Some earlier => decision_max earlier value end))
              (if decide (value = HookDeny)
               then Blocked "" "permission hook denied the invocation" else status result)
              (failures result))
      else illegal
  | Block message =>
      if bool_decide (c = PolicyClass) then
        if invalid_block_message message
        then Err (hook_error "invalid_directive" "hook block message is invalid")
        else Ok (mkDispatch (input result) (permission result) (Blocked "" message) (failures result))
      else illegal
  end.

(** One hook of the loop: its answer, and the moved phase deadline. *)
Definition call_hook (hook : RegisteredHook) (seen : HookInput) (deadline readiness_deadline : Z)
    : Proc hook_answer (Result HookDirective HookError * Z) :=
  now ← await ANow;
  if deadline <=? now then
    mret (Err (hook_error "phase_timeout" "aggregate hook phase deadline elapsed"), deadline)
  else
    prepared ← (if native hook then
                  pause ← await ANow;
                  prepared ← prepare_one hook readiness_deadline;
                  resumed ← await ANow;
                  mret (prepared, deadline + (resumed - pause))
                else mret (Ok tt, deadline));
    let '(prepared, deadline) := prepared in
    match prepared with
    | Err e => mret (Err e, deadline)
    | Ok _ =>
        directive ← invoke_registered_hook (registration hook) seen deadline
                      (deadline + HOOK_SETTLEMENT_TIMEOUT);
        mret (directive, deadline)
    end.

(** The tail of an iteration: [inl] leaves the loop. *)
Definition conclude (r : HookRegistration) (result : HookDispatchResult)
    (invoked : Result HookDirective HookError)
    : Result HookDispatchResult HookError + HookDispatchResult :=
  let outcome := let? d := invoked in apply_directive (class r) result d in
  let settle (result : HookDispatchResult) :=
    match status result with
    | Blocked _ message =>
        inl (Ok (mkDispatch (input result) (permission result) (Blocked (hook_id r) message)
                   (failures result)))
    | _ => inr result
    end in
  match outcome with
  | Ok result => settle result
  | Err e =>
      match record_failure r result e with
      | Err e => inl (Err e)
      | Ok (result, true) => inl (Ok result)
      | Ok (result, false) => settle result
      end
  end.

Fixpoint execute_loop (hooks : list RegisteredHook) (result : HookDispatchResult)
    (only : option HookEffect) (deadline readiness_deadline : Z)
    : Proc hook_answer (Result HookDispatchResult HookError) :=
  match hooks with
  | [] => mret (Ok result)
  | hook :: rest =>
      if negb (selected hook (input result) only)
      then execute_loop rest result only deadline readiness_deadline
      else
        called ← call_hook hook (input result) deadline readiness_deadline;
        match conclude (registration hook) result called.1 with
        | inl answer => mret answer
        | inr result => execute_loop rest result only called.2 readiness_deadline
        end
  end.

(** [execute_selected] *)
Definition phase_budget (hooks : list RegisteredHook) (only : option HookEffect) : Z :=
  match map (λ h, timeout (registration h))
          (List.filter (λ h, match only with None => true
                             | Some e => bool_decide (e = effect (registration h)) end) hooks) with
  | [] => HOOK_PHASE_TIMEOUT
  | t :: ts => foldl Z.max t ts
  end.
Definition execute_selected (hooks : list RegisteredHook) (result : HookDispatchResult)
    (only : option HookEffect) : Proc hook_answer (Result HookDispatchResult HookError) :=
  now ← await ANow;
  later ← await ANow;
  execute_loop hooks result only (now + phase_budget hooks only) (later + PLUGIN_ACTIVATION_TIMEOUT).

(** [dispatch_selected]: [dispatch] with [None], [dispatch_effect] with the
    effect. *)
Definition dispatch_selected (self : HookDispatcher) (seen : HookInput) (only : option HookEffect)
    : Proc hook_answer (Result HookDispatchResult HookError) :=
  let result := mkDispatch seen None Completed [] in
  match self !! event_of seen with
  | None => mret (Ok result)
  | Some hooks =>
      if negb (existsb (λ h, selected h seen only) hooks) then mret (Ok result)
      else if negb (check_size (input_bytes seen)) then mret (Err payload_limit)
      else execute_selected hooks result only
  end.

(** [settle_effects]: every handler is asked, the first error is kept. *)
Fixpoint settle_loop (hooks : list RegisteredHook) (deadline : Z) (failure : option HookError)
    : Proc hook_answer (Result unit HookError) :=
  match hooks with
  | [] => mret (match failure with Some e => Err e | None => Ok tt end)
  | hook :: rest =>
      settled ← await (ASettle (hook_id (registration hook)) deadline);
      settle_loop rest deadline
        (match settled, failure with
         | Err e, None => Some e
         | _, _ => failure
         end)
  end.
Definition settle_effects (self : HookDispatcher) (event : HookEvent) : Proc hook_answer (Result unit HookError) :=
  now ← await ANow;
  settle_loop (hooks_of self event) (now + HOOK_SETTLEMENT_TIMEOUT) None.
End dispatch.
