(* ===== verification/HookDispatch.v ===== *)
(** What registration and dispatch of hooks ([Hooks]) guarantee. *)
From Stdlib Require Import Ascii.
From S2P Require Import Prelude Text Ir Effects PermissionRules PermissionGate Hooks.

(** * The order of execution *)

Definition id_of (h : RegisteredHook) : string := hook_id (registration h).
Definition class_of (h : RegisteredHook) : HookClass := class (registration h).

Lemma hook_le_total x y : hook_le x y = true ∨ hook_le y x = true.
Proof.
  unfold hook_le. rewrite (Z.eqb_sym (class_rank (class (registration y)))).
  rewrite (Z.eqb_sym (priority (registration y))).
  destruct (Z.eqb_spec (class_rank (class (registration x))) (class_rank (class (registration y))));
    [|rewrite !Z.ltb_lt; lia].
  destruct (Z.eqb_spec (priority (registration x)) (priority (registration y)));
    [apply string_leb_total|rewrite !Z.ltb_lt; lia].
Qed.

Lemma hook_le_spec x y :
  hook_le x y = true ↔
  let a := registration x in let b := registration y in
  class_rank (class a) < class_rank (class b) ∨
  class_rank (class a) = class_rank (class b) ∧
  (priority a < priority b ∨
   priority a = priority b ∧ String.leb (hook_id a) (hook_id b) = true).
Proof.
  unfold hook_le; cbn.
  destruct (Z.eqb_spec (class_rank (class (registration x))) (class_rank (class (registration y))));
    [|rewrite Z.ltb_lt; lia].
  destruct (Z.eqb_spec (priority (registration x)) (priority (registration y)));
    rewrite ?Z.ltb_lt; naive_solver lia.
Qed.

Lemma hook_le_trans x y z : hook_le x y = true → hook_le y z = true → hook_le x z = true.
Proof.
  rewrite !hook_le_spec; cbn. intros H1 H2.
  destruct H1 as [H1|[H1 [H1'|[H1' H1'']]]], H2 as [H2|[H2 [H2'|[H2' H2'']]]]; try lia.
  right; split; [lia|]. right; split; [lia|]. by eapply string_leb_trans.
Qed.

Lemma hook_le_antisym_id x y : hook_le x y = true → hook_le y x = true → id_of x = id_of y.
Proof.
  rewrite !hook_le_spec; cbn. intros H1 H2. apply string_leb_antisym; naive_solver lia.
Qed.

(** Transforms come first. *)
Lemma hook_le_class x y : hook_le x y = true → class_of x = PolicyClass → class_of y = PolicyClass.
Proof.
  rewrite hook_le_spec; cbn. unfold class_of.
  destruct (class (registration x)), (class (registration y)); cbn; naive_solver lia.
Qed.

(** * Registration *)

Definition acceptable (h : RegisteredHook) : bool :=
  validate_id (id_of h) && valid_class (registration h) &&
  negb (existsb (λ name, negb (canonical_tool_name name)) (applicable_tools (registration h))).

Definition on_event (e : HookEvent) (h : RegisteredHook) : bool :=
  bool_decide (hook_event (registration h) = e).
Definition hooks_on (e : HookEvent) (l : list RegisteredHook) : list RegisteredHook :=
  List.filter (on_event e) l.

(** A collection of hooks that can be registered. *)
Definition registrable (l : list RegisteredHook) : Prop :=
  Forall (λ h, acceptable h = true) l ∧
  ∀ e, NoDup (map id_of (hooks_on e l)) ∧ (length (hooks_on e l) ≤ MAX_HOOKS_PER_EVENT)%nat.

(** The dispatcher holds exactly the hooks of [l], in execution order. *)
Definition holds_hooks (d : HookDispatcher) (l : list RegisteredHook) : Prop :=
  ∀ e, d !! e = match hooks_on e l with [] => None | f => Some (stable_sort hook_le f) end.

Fixpoint register_all (d : HookDispatcher) (l : list RegisteredHook) : HookDispatcher * bool :=
  match l with
  | [] => (d, true)
  | h :: l' =>
      match register_shared d h with
      | (d', Ok _) => register_all d' l'
      | (d', Err _) => (d', false)
      end
  end.

Lemma hooks_on_app e l k : hooks_on e (l ++ k) = (hooks_on e l ++ hooks_on e k)%list.
Proof. unfold hooks_on. apply List.filter_app. Qed.
Lemma hooks_on_perm e l k : l ≡ₚ k → hooks_on e l ≡ₚ hooks_on e k.
Proof.
  unfold hooks_on. induction 1; cbn; try done.
  - case_match; [by apply perm_skip|done].
  - repeat case_match; try done. apply perm_swap.
  - by etrans.
Qed.

Lemma holds_hooks_of d l e : holds_hooks d l → hooks_of d e = stable_sort hook_le (hooks_on e l).
Proof. intros H. unfold hooks_of. rewrite H. by destruct (hooks_on e l). Qed.

Lemma ids_antisym f :
  NoDup (map id_of f) →
  ∀ x y, x ∈ f → y ∈ f → hook_le x y = true → hook_le y x = true → x = y.
Proof.
  intros Hnd x y Hx Hy Hxy Hyx.
  apply list_elem_of_lookup in Hx as [i Hi]. apply list_elem_of_lookup in Hy as [j Hj].
  assert (i = j) as ->; [|congruence].
  eapply (NoDup_lookup _ i j (id_of x) Hnd); rewrite list_lookup_fmap.
  - by rewrite Hi.
  - rewrite Hj; cbn. f_equal. by apply hook_le_antisym_id.
Qed.

(** Two permutations of hooks with distinct ids are sorted to the same list. *)
Lemma hooks_sort_unique f g :
  NoDup (map id_of f) → f ≡ₚ g → stable_sort hook_le f = stable_sort hook_le g.
Proof.
  intros Hnd Hp. apply stable_sort_unique; [apply hook_le_total|apply hook_le_trans| |done].
  by apply ids_antisym.
Qed.

Lemma existsb_id h f :
  existsb (λ x, String.eqb (id_of x) (id_of h)) f = true ↔ id_of h ∈ map id_of f.
Proof.
  rewrite existsb_exists. split.
  - intros (x & Hx & Heq%String.eqb_eq). apply list_elem_of_fmap. exists x. by rewrite list_elem_of_In.
  - intros (x & -> & Hx)%list_elem_of_fmap. exists x. rewrite <- list_elem_of_In. split; [done|].
    by rewrite String.eqb_refl.
Qed.

(** Registration succeeds exactly when the collection stays registrable. *)
Lemma register_shared_ok d l h :
  holds_hooks d l → registrable l → registrable (l ++ [h]) →
  (register_shared d h).2 = Ok tt ∧ holds_hooks (register_shared d h).1 (l ++ [h]).
Proof.
  intros Hd Hl [Hacc Hev]. apply Forall_app in Hacc as [_ Hh]. apply Forall_cons in Hh as [Hh _].
  cbn beta in Hh. unfold acceptable in Hh. apply andb_true_iff in Hh as [Hh Htools]. apply andb_true_iff in Hh as [Hid Hclass].
  unfold register_shared. fold (id_of h). rewrite Hid, Hclass. cbn [negb].
  apply negb_true_iff in Htools. rewrite Htools.
  set (e := hook_event (registration h)).
  assert (hooks_on e [h] = [h]) as Hone by (unfold hooks_on, on_event; cbn; by rewrite bool_decide_true).
  destruct (Hev e) as [Hnd Hlen]. rewrite hooks_on_app, Hone in Hnd, Hlen.
  rewrite (holds_hooks_of d l e Hd).
  destruct (existsb _ (stable_sort _ _)) eqn:Hdup.
  { exfalso. apply (existsb_id h) in Hdup.
    rewrite map_app in Hnd. apply NoDup_app in Hnd as (_ & Hno & _).
    apply (Hno (id_of h)); [|cbn; set_solver].
    rewrite <- (stable_sort_perm hook_le (hooks_on e l)). done. }
  rewrite length_app in Hlen; cbn in Hlen. rewrite length_stable_sort.
  destruct (Nat.leb_spec MAX_HOOKS_PER_EVENT (length (hooks_on e l))); [lia|].
  split; [done|]. cbn [fst]. intros e'. unfold HookDispatcher in *. destruct (decide (e' = e)) as [->|Hne].
  - rewrite lookup_insert_eq, hooks_on_app, Hone.
    destruct (hooks_on e l ++ [h])%list eqn:E; [by destruct (hooks_on e l)|]. rewrite <- E in Hnd |- *. f_equal. 
    symmetry. apply hooks_sort_unique; [done|]. by rewrite stable_sort_perm.
  - rewrite !lookup_insert_ne by done. rewrite hooks_on_app.
    assert (hooks_on e' [h] = []) as -> by (unfold hooks_on, on_event; cbn; by rewrite bool_decide_false).
    by rewrite app_nil_r, Hd.
Qed.

Lemma register_shared_inv d l h d' :
  holds_hooks d l → registrable l → register_shared d h = (d', Ok tt) → registrable (l ++ [h]).
Proof.
  intros Hd [Hacc Hev]. unfold register_shared. fold (id_of h).
  destruct (validate_id (id_of h)) eqn:Hid; [|done]. cbn [negb].
  destruct (valid_class (registration h)) eqn:Hclass; [|done]. cbn [negb].
  destruct (existsb _ (applicable_tools _)) eqn:Htools; [done|].
  set (e := hook_event (registration h)). rewrite (holds_hooks_of d l e Hd), length_stable_sort.
  destruct (existsb _ (stable_sort _ _)) eqn:Hdup; [done|].
  destruct (Nat.leb_spec MAX_HOOKS_PER_EVENT (length (hooks_on e l))); [done|]. intros [= <-].
  assert (hooks_on e [h] = [h]) as Hone by (unfold hooks_on, on_event; cbn; by rewrite bool_decide_true).
  split.
  - apply Forall_app; split; [done|]. apply Forall_cons; split; [|done].
    unfold acceptable. rewrite Hid, Hclass. cbn. by rewrite Htools.
  - intros e'. destruct (Hev e') as [Hnd Hlen]. rewrite hooks_on_app, map_app, length_app.
    destruct (decide (e' = e)) as [->|Hne].
    + rewrite Hone; cbn. split; [|lia]. apply NoDup_app; split; [done|]. split; [|apply NoDup_singleton].
      intros i Hi ->%list_elem_of_singleton. apply not_true_iff_false in Hdup. apply Hdup.
      apply (existsb_id h). by rewrite (stable_sort_perm hook_le (hooks_on e l)).
    + assert (hooks_on e' [h] = []) as -> by (unfold hooks_on, on_event; cbn; by rewrite bool_decide_false).
      cbn. rewrite app_nil_r. split; [done|lia].
Qed.

Lemma registrable_prefix l k : registrable (l ++ k) → registrable l.
Proof.
  intros [Hacc Hev]. split; [by apply Forall_app in Hacc as [? _]|].
  intros e. destruct (Hev e) as [Hnd Hlen]. rewrite hooks_on_app, map_app in Hnd.
  rewrite hooks_on_app, length_app in Hlen. apply NoDup_app in Hnd as [? _]. split; [done|lia].
Qed.

Lemma registrable_perm l k : l ≡ₚ k → registrable l → registrable k.
Proof.
  intros Hp [Hacc Hev]. split; [by rewrite <- Hp|].
  intros e. rewrite <- (Permutation_length (hooks_on_perm e _ _ Hp)).
  destruct (Hev e) as [Hnd Hlen]. split; [|done].
  assert (map id_of (hooks_on e l) ≡ₚ map id_of (hooks_on e k)) as <-; [|done].
  by apply Permutation_map, hooks_on_perm.
Qed.

Lemma register_all_ok k d l :
  holds_hooks d l → registrable (l ++ k) →
  (register_all d k).2 = true ∧ holds_hooks (register_all d k).1 (l ++ k).
Proof.
  revert d l; induction k as [|h k IH]; intros d l Hd Hreg; cbn.
  { by rewrite app_nil_r in *. }
  rewrite (cons_middle h l k), app_assoc in Hreg |- *.
  pose proof (registrable_prefix _ _ Hreg) as Hh.
  destruct (register_shared_ok d l h Hd (registrable_prefix _ _ Hh) Hh) as [Hok Hd'].
  destruct (register_shared d h) as [d' [[]|]]; cbn in *; [|done]. by apply IH.
Qed.

Lemma register_all_inv k d l :
  holds_hooks d l → registrable l → (register_all d k).2 = true → registrable (l ++ k).
Proof.
  revert d l; induction k as [|h k IH]; intros d l Hd Hreg Hok; cbn in Hok.
  { by rewrite app_nil_r. }
  rewrite (cons_middle h l k), app_assoc.
  destruct (register_shared d h) as [d' [[]|]] eqn:E; cbn in *; [|done].
  pose proof (register_shared_inv d l h d' Hd Hreg E) as Hh.
  destruct (register_shared_ok d l h Hd Hreg Hh) as [_ Hd']. rewrite E in Hd'. by eapply IH.
Qed.

Lemma holds_hooks_empty : holds_hooks ∅ [].
Proof. intros e. apply (lookup_empty (M := gmap HookEvent)). Qed.
Lemma registrable_empty : registrable [].
Proof. split; [done|]. intros e. split; [constructor|cbn; lia]. Qed.

(** The execution order of hooks does not depend on the order in which they
    are discovered and registered.  When a collection of hooks can be registered
    one after the other, every permutation of it can be, and the dispatcher is
    the same; for each event it runs exactly the collection's hooks of that
    event, by class, priority and id. *)
Theorem registration_order_irrelevant (l k : list RegisteredHook) :
  (register_all ∅ l).2 = true → l ≡ₚ k →
  register_all ∅ k = register_all ∅ l ∧
  ∀ e, hooks_of (register_all ∅ k).1 e ≡ₚ hooks_on e l ∧
       StronglySorted (λ x y, hook_le x y = true) (hooks_of (register_all ∅ k).1 e).
Proof.
  intros Hok Hp.
  pose proof (register_all_inv l ∅ [] holds_hooks_empty registrable_empty Hok) as Hl.
  pose proof (registrable_perm _ _ Hp Hl) as Hk.
  destruct (register_all_ok l ∅ [] holds_hooks_empty Hl) as [_ Hdl].
  destruct (register_all_ok k ∅ [] holds_hooks_empty Hk) as [Hok' Hdk]. cbn [app] in *.
  assert ((register_all ∅ k).1 = (register_all ∅ l).1) as Heq.
  { apply (map_eq (M := gmap HookEvent)). intros e. rewrite Hdl, Hdk.
    destruct Hl as [_ Hl]. destruct (Hl e) as [Hnd _].
    pose proof (hooks_on_perm e _ _ Hp) as Hpe. pose proof (hooks_sort_unique _ _ Hnd Hpe) as Hs.
    destruct (hooks_on e l) eqn:El, (hooks_on e k) eqn:Ek; [done| | |by rewrite Hs].
    - by apply Permutation_nil_l in Hpe.
    - symmetry in Hpe. by apply Permutation_nil_l in Hpe. }
  split; [destruct (register_all ∅ k), (register_all ∅ l); cbn in *; congruence|].
  intros e. rewrite Heq, (holds_hooks_of _ _ e Hdl). split; [apply stable_sort_perm|].
  apply stable_sort_sorted; [apply hook_le_total|apply hook_le_trans].
Qed.
Definition sample_hook (id : string) (e : HookEvent) (c : HookClass) : RegisteredHook :=
  mkHook (registration_new id e c) false.
Lemma registration_order_irrelevant_witness :
  hooks_of (register_all ∅ [sample_hook "b" PreTool PolicyClass; sample_hook "a" PreTool TransformClass]).1
    PreTool = [sample_hook "a" PreTool TransformClass; sample_hook "b" PreTool PolicyClass] ∧
  register_all ∅ [sample_hook "b" PreTool PolicyClass; sample_hook "a" PreTool TransformClass] =
  register_all ∅ [sample_hook "a" PreTool TransformClass; sample_hook "b" PreTool PolicyClass].
Proof.
  split; [reflexivity|].
  apply (registration_order_irrelevant
    [sample_hook "a" PreTool TransformClass; sample_hook "b" PreTool PolicyClass]
    [sample_hook "b" PreTool PolicyClass; sample_hook "a" PreTool TransformClass]);
    [reflexivity|apply perm_swap].
Defined.

(** * Dispatch *)

(** The calls of handlers in a history: hook, the input it saw, its answer. *)
Definition Call : Type := string * HookInput * Invoked HookDirective.
Definition call_of (h : Happened hook_answer) : option Call :=
  match h with
  | mkHappened a r =>
      match a return hook_answer a → option Call with
      | AInvoke id seen _ => λ r, Some (id, seen, r)
      | _ => λ _, None
      end r
  end.
Definition calls (t : History hook_answer) : list Call := omap call_of t.
Definition called_ids (l : list Call) : list string := map (λ c, c.1.1) l.

Lemma calls_snoc (t : History hook_answer) h :
  calls (t ++ [h])%list = (calls t ++ match call_of h with Some c => [c] | None => [] end)%list.
Proof. unfold calls. rewrite omap_app. cbn. by destruct (call_of h). Qed.
#[local] Hint Rewrite calls_snoc app_nil_r : calls.

(** Walk through a process: name each answer, split what is matched on. *)
Ltac wp_walk :=
  repeat (cbn; match goal with
    | |- anything _ _ _ → _ => intros _
    | |- ∀ _, _ => intros ?
    | |- context [match ?x with _ => _ end] => is_var x; destruct x
    | |- context [if ?b then _ else _] => destruct b eqn:?
    end).

Lemma prepare_one_calls hook deadline t :
  wp anything (prepare_one hook deadline) t (λ _ t', calls t' = calls t).
Proof.
  unfold prepare_one. wp_walk; autorewrite with calls; cbn; by autorewrite with calls.
Qed.

(** A call of a hook reaches its handler at most once, with the given input;
    a directive is the handler's own. *)
Definition one_call (hook : RegisteredHook) (seen : HookInput)
    (invoked : Result HookDirective HookError) (l : list Call) : Prop :=
  (l = [] ∨ ∃ r, l = [(id_of hook, seen, r)]) ∧
  ∀ d, invoked = Ok d → l = [(id_of hook, seen, Returned (Ok d))].

Lemma invoke_calls hook seen deadline settlement t :
  wp anything (invoke_registered_hook (registration hook) seen deadline settlement) t
    (λ r t', ∃ l, calls t' = (calls t ++ l)%list ∧ one_call hook seen r l).
Proof.
  unfold invoke_registered_hook. wp_walk; autorewrite with calls; cbn; autorewrite with calls;
    first [ by exists []; rewrite app_nil_r; split; [|split; [left|]]
          | eexists; split; [reflexivity|]; split; [right; by eexists|intros d Hd; by simplify_eq] ].
Qed.

Lemma call_hook_calls hook seen deadline readiness t :
  wp anything (call_hook hook seen deadline readiness) t
    (λ r t', ∃ l, calls t' = (calls t ++ l)%list ∧ one_call hook seen r.1 l).
Proof.
  unfold call_hook. apply wp_await. intros now _.
  assert (∀ u e dl, calls u = calls t → ∃ l, calls u = (calls t ++ l)%list ∧
            one_call hook seen (@Err HookDirective _ e, dl : Z).1 l) as Hnone.
  { intros u e dl Hu. exists []. rewrite app_nil_r. split; [done|]. split; [by left|done]. }
  assert (calls (t ++ [mkHappened ANow now])%list = calls t) as Hnow by (autorewrite with calls; done).
  destruct (deadline <=? now); [by apply Hnone|].
  apply (wp_cut _ _ _ _ (λ _ t', calls t' = calls t)).
  - destruct (native hook); [|done]. apply wp_await. intros pause _.
    eapply wp_cut; [apply prepare_one_calls|]. intros a t' Ht'. apply wp_await. intros r _.
    apply wp_ret. rewrite calls_snoc; cbn. rewrite app_nil_r, Ht', calls_snoc; cbn. by rewrite app_nil_r.
  - intros [[[]|e] dl] t' Ht'; [|by apply Hnone].
    eapply wp_cut; [apply invoke_calls|]. intros r u (l & Hu & Hl). apply wp_ret. exists l. by rewrite Hu, Ht'.
Qed.

(** A policy hook that lets the phase go on: it has no objection, or gives a
    permission no stricter than the phase's. *)
Definition consents (d : HookDirective) (p : option HookPermissionDecision) : Prop :=
  d = Continue ∨
  ∃ v q, d = Permission v ∧ v ≠ HookDeny ∧ p = Some q ∧ decision_rank v ≤ decision_rank q.
Definition no_laxer (p q : option HookPermissionDecision) : Prop :=
  ∀ v, p = Some v → ∃ w, q = Some w ∧ decision_rank v ≤ decision_rank w.

Lemma decision_max_ge a b :
  decision_rank a ≤ decision_rank (decision_max a b) ∧ decision_rank b ≤ decision_rank (decision_max a b).
Proof. by destruct a, b. Qed.
Lemma no_laxer_refl p : no_laxer p p.
Proof. intros v ->. by exists v. Qed.
Lemma no_laxer_trans p q r : no_laxer p q → no_laxer q r → no_laxer p r.
Proof. intros H1 H2 v Hv. destruct (H1 v Hv) as (w & Hw & ?). destruct (H2 w Hw) as (x & ? & ?). exists x. split; [done|lia]. Qed.
Lemma consents_mono d p q : consents d p → no_laxer p q → consents d q.
Proof.
  intros [->|(v & w & -> & Hv & Hp & Hle)] Hpq; [by left|]. right.
  destruct (Hpq w Hp) as (x & Hx & ?). exists v, x. repeat split; try done. lia.
Qed.

Lemma apply_transform_event i c i' : apply_transform i c = Ok i' → event_of i' = event_of i.
Proof. destruct i, c; cbn; try done; try (by intros [= <-]). case_match; [done|by intros [= <-]]. Qed.

Section dispatch.
Context {enc : HookEncoding}.

(** Every way a hook's answer changes the phase. *)
Lemma apply_directive_spec c result d res :
  status result = Completed → apply_directive c result d = Ok res →
  event_of (input res) = event_of (input result) ∧ no_laxer (permission result) (permission res) ∧
  (c = PolicyClass → input res = input result ∧ (status res = Completed → consents d (permission res))) ∧
  (status res ≠ Completed → input res = input result ∧ ∃ i m, status res = Blocked i m).
Proof.
  intros Hst. unfold apply_directive. destruct (check_size _); [|done]. cbn [negb].
  destruct d as [|change|value|message].
  - intros [= <-]. repeat split; try done; [apply no_laxer_refl|by left].
  - case_bool_decide as Hc; [|done]. destruct (apply_transform _ _) as [cand|] eqn:E; [|done].
    destruct (check_size _); [|done]. intros [= <-]. cbn. apply apply_transform_event in E.
    repeat split; try done; try congruence. apply no_laxer_refl.
  - case_bool_decide as Hc; [|done]. case_bool_decide; [|done]. cbn. intros [= <-]. cbn.
    repeat split; try done.
    + intros v Hv. rewrite Hv. eexists; split; [done|]. apply decision_max_ge.
    + case_decide; [done|]. intros _. right. exists value. eexists. repeat split; [done|].
      destruct (permission result); [apply decision_max_ge|done].
    + case_decide; [by eauto|congruence].
  - case_bool_decide as Hc; [|done]. destruct (invalid_block_message _); [done|]. intros [= <-]. cbn.
    repeat split; try done; [apply no_laxer_refl|]. by eauto.
Qed.

Lemma record_failure_spec r result e :
  status result = Completed →
  match record_failure r result e with
  | Err e => error_code e = "effects_unsettled"%string
  | Ok (res, true) => status res ≠ Completed ∧ input res = input result
  | Ok (res, false) => status res = Completed ∧ input res = input result ∧
      permission res = permission result ∧ failure_policy r ≠ FailClosed
  end.
Proof.
  intros Hst. unfold record_failure.
  destruct (String.eqb_spec (error_code e) "effects_unsettled"); [done|].
  unfold closes. case_bool_decide; cbn; [done|]. by destruct (_ || _).
Qed.

Lemma conclude_spec r result invoked :
  status result = Completed →
  match conclude r result invoked with
  | inl (Ok res) => status res ≠ Completed ∧ input res = input result
  | inl (Err e) => error_code e = "effects_unsettled"%string
  | inr res =>
      status res = Completed ∧ event_of (input res) = event_of (input result) ∧
      no_laxer (permission result) (permission res) ∧
      (class r = PolicyClass → input res = input result) ∧
      (class r = PolicyClass → failure_policy r = FailClosed →
       ∃ d, invoked = Ok d ∧ consents d (permission res))
  end.
Proof.
  intros Hst. unfold conclude.
  destruct (let? d := invoked in apply_directive (class r) result d) as [res|e] eqn:E.
  - destruct invoked as [d|]; [|done].
    destruct (apply_directive_spec _ _ _ _ Hst E) as (He & Hp & Hpol & Hblk).
    destruct (status res) eqn:Es; cbn.
    + repeat split; try done; [by intros [? _]%Hpol|]. intros Hc _. exists d. split; [done|]. by apply Hpol.
    + split; [done|]. by destruct Hblk as [? _].
    + by destruct Hblk as [_ (? & ? & ?)].
  - pose proof (record_failure_spec r result e Hst) as Hfail.
    destruct (record_failure r result e) as [[res []]|]; [done| |done].
    destruct Hfail as (Hs & Hi & Hp & Hf). rewrite Hs, Hi, Hp.
    repeat split; try done. apply no_laxer_refl.
Qed.

(** * The loop *)

(** What [register_shared] keeps for the hooks of an event. *)
Definition ordered_hooks (l : list RegisteredHook) : Prop :=
  StronglySorted (λ x y, hook_le x y = true) l ∧ NoDup (map id_of l) ∧
  Forall (λ h, class_of h = PolicyClass → failure_policy (registration h) = FailClosed) l.

Record phase_ok (hooks : list RegisteredHook) (only : option HookEffect)
    (seen : HookInput) (given : option HookPermissionDecision)
    (res : HookDispatchResult) (l : list Call) : Prop := {
  phase_event : event_of (input res) = event_of seen;
  phase_unchanged : Forall (λ h, class_of h = PolicyClass) hooks → input res = seen;
  phase_policy_input h c :
    h ∈ hooks → class_of h = PolicyClass → c ∈ l → c.1.1 = id_of h → c.1.2 = input res;
  phase_no_laxer : status res = Completed → no_laxer given (permission res);
  phase_consent h :
    status res = Completed → h ∈ hooks → class_of h = PolicyClass →
    selected h (input res) only = true →
    ∃ d, (id_of h, input res, Returned (Ok d)) ∈ l ∧ consents d (permission res);
}.

Lemma phase_ok_skip hook hooks only seen given res l :
  ordered_hooks (hook :: hooks) → called_ids l `sublist_of` map id_of hooks →
  selected hook seen only = false →
  phase_ok hooks only seen given res l → phase_ok (hook :: hooks) only seen given res l.
Proof.
  intros (Hs & Hnd & _) Hsub Hsel [He Hu Hi Hp Hc].
  apply StronglySorted_inv in Hs as [_ Hle]. apply NoDup_cons in Hnd as [Hnew _].
  assert (class_of hook = PolicyClass → input res = seen) as Hpol.
  { intros Hc'. apply Hu. eapply Forall_impl; [exact Hle|]. intros x Hx. exact (hook_le_class _ _ Hx Hc'). }
  split; try done.
  - intros [? ?]%Forall_cons. by apply Hu.
  - intros h c [->|Hh]%elem_of_cons Hcl Hcall Hid; [|by eapply Hi].
    exfalso. apply Hnew. rewrite <- Hid. eapply elem_of_sublist; [|exact Hsub].
    unfold called_ids. apply list_elem_of_fmap. by exists c.
  - intros h Hst [->|Hh]%elem_of_cons Hcl Hs; [|by eapply Hc]. rewrite Hpol in Hs by done. congruence.
Qed.

Lemma phase_ok_call hook hooks only result res res' l l' invoked :
  ordered_hooks (hook :: hooks) → called_ids l' `sublist_of` map id_of hooks →
  one_call hook (input result) invoked l →
  event_of (input res') = event_of (input result) →
  no_laxer (permission result) (permission res') →
  (class_of hook = PolicyClass → input res' = input result) →
  (class_of hook = PolicyClass → failure_policy (registration hook) = FailClosed →
     ∃ d, invoked = Ok d ∧ consents d (permission res')) →
  phase_ok hooks only (input res') (permission res') res l' →
  phase_ok (hook :: hooks) only (input result) (permission result) res (l ++ l').
Proof.
  intros (Hs & Hnd & Hfc) Hsub [Hone Hdir] Hev Hlax Hkeep Hcons [He Hu Hi Hp Hc].
  apply StronglySorted_inv in Hs as [_ Hle]. apply NoDup_cons in Hnd as [Hnew _].
  apply Forall_cons in Hfc as [Hfc _].
  assert (class_of hook = PolicyClass → input res = input result) as Hpol.
  { intros Hc'. rewrite <- Hkeep by done. apply Hu. eapply Forall_impl; [exact Hle|].
    intros x Hx. exact (hook_le_class _ _ Hx Hc'). }
  assert (∀ c, c ∈ l → c.1.1 = id_of hook ∧ c.1.2 = input result) as Hl.
  { intros c Hc'. destruct Hone as [->|[r ->]]; [by apply not_elem_of_nil in Hc'|].
    by apply list_elem_of_singleton in Hc' as ->. }
  assert (∀ c, c ∈ l' → c.1.1 ≠ id_of hook) as Hl'.
  { intros c Hc' Heq. apply Hnew. rewrite <- Heq. eapply elem_of_sublist; [|exact Hsub].
    unfold called_ids. apply list_elem_of_fmap. by exists c. }
  split.
  - by rewrite He.
  - intros [Hh ?]%Forall_cons. by apply Hpol.
  - intros h c [->|Hh]%elem_of_cons Hcl [Hcall|Hcall]%elem_of_app Hid.
    + rewrite Hpol by done. by apply Hl.
    + exfalso. by eapply Hl'.
    + exfalso. apply Hnew. destruct (Hl c Hcall) as [<- _]. rewrite Hid.
      apply list_elem_of_fmap. by exists h.
    + by eapply Hi.
  - intros Hst. eapply no_laxer_trans; [exact Hlax|by apply Hp].
  - intros h Hst [->|Hh]%elem_of_cons Hcl Hsel.
    + destruct (Hcons Hcl (Hfc Hcl)) as (d & -> & Hd). exists d. split.
      * rewrite (Hdir d eq_refl), Hpol by done. set_solver.
      * eapply consents_mono; [exact Hd|by apply Hp].
    + destruct (Hc h Hst Hh Hcl Hsel) as (d & Hin & Hd). exists d. split; [set_solver|done].
Qed.

Lemma phase_ok_end hook hooks only result res l invoked :
  ordered_hooks (hook :: hooks) → one_call hook (input result) invoked l →
  status res ≠ Completed → input res = input result →
  phase_ok (hook :: hooks) only (input result) (permission result) res l.
Proof.
  intros _ [Hone _] Hst Hi. split; try done; [by rewrite Hi|].
  intros h c Hh Hcl Hc Hid. destruct Hone as [->|[r ->]]; [by apply not_elem_of_nil in Hc|].
  by apply list_elem_of_singleton in Hc as ->.
Qed.

Lemma one_call_sublist hook hooks seen invoked l l' :
  one_call hook seen invoked l → called_ids l' `sublist_of` map id_of hooks →
  called_ids (l ++ l') `sublist_of` map id_of (hook :: hooks).
Proof. intros [[->|[r ->]] _] Hl'; cbn; [by apply sublist_cons|by apply sublist_skip]. Qed.

Lemma execute_loop_spec hooks only result deadline readiness t :
  ordered_hooks hooks → status result = Completed →
  wp anything (execute_loop hooks result only deadline readiness) t (λ r t', ∃ l,
    calls t' = (calls t ++ l)%list ∧ called_ids l `sublist_of` map id_of hooks ∧
    match r with
    | Ok res => phase_ok hooks only (input result) (permission result) res l
    | Err e => error_code e = "effects_unsettled"%string
    end).
Proof.
  revert result deadline t; induction hooks as [|hook hooks IH]; intros result deadline t Hord Hst.
  { cbn. exists []. rewrite app_nil_r. split; [done|]. split; [done|].
    split; try done; [intros ? ? Hin; by apply not_elem_of_nil in Hin|intros; apply no_laxer_refl|].
    intros ? ? Hin; by apply not_elem_of_nil in Hin. }
  assert (ordered_hooks hooks) as Hord'.
  { destruct Hord as (Hs & Hnd & Hfc). apply StronglySorted_inv in Hs as [? _].
    apply NoDup_cons in Hnd as [_ ?]. by apply Forall_cons in Hfc as [_ ?]. }
  cbn [execute_loop]. destruct (selected hook (input result) only) eqn:Hsel; cbn [negb].
  - eapply wp_cut; [apply call_hook_calls|]. intros [invoked deadline'] u (l & Hu & Hone). cbn [fst snd] in *.
    pose proof (conclude_spec (registration hook) result invoked Hst) as Hcon.
    destruct (conclude _ result invoked) as [[res|e]|res'].
    + exists l. destruct Hcon as [Hs Hi]. split; [done|]. split; [|by eapply phase_ok_end].
      rewrite <- (app_nil_r l). eapply one_call_sublist; [done|]. apply sublist_nil_l.
    + exists l. split; [done|]. split; [|done].
      rewrite <- (app_nil_r l). eapply one_call_sublist; [done|]. apply sublist_nil_l.
    + destruct Hcon as (Hs' & He & Hp & Hk & Hc). eapply wp_mono; [by apply IH|].
      intros r t' (l' & Ht' & Hsub & Hr). exists (l ++ l')%list. rewrite Ht', Hu, app_assoc. split; [done|].
      split; [by eapply one_call_sublist|]. destruct r; [|done]. by eapply phase_ok_call.
  - eapply wp_mono; [by apply IH|]. intros r t' (l & Ht' & Hsub & Hr). exists l. split; [done|].
    split; [by apply sublist_cons|]. destruct r; [|done]. by apply phase_ok_skip.
Qed.

Lemma dispatch_selected_spec (self : HookDispatcher) seen only t :
  ordered_hooks (hooks_of self (event_of seen)) →
  wp anything (dispatch_selected self seen only) t (λ r t', ∃ l,
    calls t' = (calls t ++ l)%list ∧ called_ids l `sublist_of` map id_of (hooks_of self (event_of seen)) ∧
    match r with
    | Ok res => phase_ok (hooks_of self (event_of seen)) only seen None res l
    | Err e => error_code e = "effects_unsettled"%string ∨ e = payload_limit ∧ l = []
    end).
Proof.
  unfold dispatch_selected, hooks_of. unfold HookDispatcher in *.
  destruct (self !! event_of seen) as [hooks|] eqn:E; cbn [default from_option id]; intros Hord.
  - destruct (existsb _ hooks) eqn:Hany; cbn [negb].
    + destruct (check_size (input_bytes seen)); cbn [negb].
      * unfold execute_selected. apply wp_await. intros now _. apply wp_await. intros later _.
        eapply wp_mono; [by apply execute_loop_spec|]. intros r t' (l & Ht' & Hsub & Hr). exists l.
        rewrite Ht'. autorewrite with calls. cbn. autorewrite with calls. split; [done|]. split; [done|].
        destruct r; [done|by left].
      * exists []. rewrite app_nil_r. split; [done|]. split; [apply sublist_nil_l|]. by right.
    + exists []. rewrite app_nil_r. split; [done|]. split; [apply sublist_nil_l|].
      split; cbn; try done; [intros ? ? ? ? Hin; by apply not_elem_of_nil in Hin|].
      intros h _ Hh _ Hsel. exfalso. apply not_true_iff_false in Hany. apply Hany.
      apply existsb_exists. exists h. by rewrite <- list_elem_of_In.
  - exists []. rewrite app_nil_r. split; [done|]. split; [done|].
    split; cbn; try done; intros ? ? Hin; by apply not_elem_of_nil in Hin.
Qed.
End dispatch.

Lemma registered_ordered l e :
  (register_all ∅ l).2 = true → ordered_hooks (hooks_of (register_all ∅ l).1 e).
Proof.
  intros Hok. pose proof (register_all_inv l ∅ [] holds_hooks_empty registrable_empty Hok) as Hl.
  destruct (register_all_ok l ∅ [] holds_hooks_empty Hl) as [_ Hd]. cbn [app] in *.
  rewrite (holds_hooks_of _ _ e Hd). destruct Hl as [Hacc Hev]. destruct (Hev e) as [Hnd _].
  split; [apply stable_sort_sorted; [apply hook_le_total|apply hook_le_trans]|].
  pose proof (stable_sort_perm hook_le (hooks_on e l)) as Hp.
  split; [by rewrite (Permutation_map id_of Hp)|]. rewrite Hp.
  apply Forall_forall. intros h Hh Hpol. rewrite Forall_forall in Hacc.
  assert (h ∈ l) as Hin.
  { apply list_elem_of_In in Hh. apply list_elem_of_In. by apply filter_In in Hh as [? _]. }
  specialize (Hacc h Hin). cbn beta in Hacc. unfold acceptable in Hacc.
  apply andb_true_iff in Hacc as [Hacc _]. apply andb_true_iff in Hacc as [_ Hvalid].
  unfold valid_class, class_of in *. rewrite Hpol in Hvalid. cbn in Hvalid.
  by destruct (failure_policy (registration h)).
Qed.

(** C34: Policies have the last word.  In every run of a hook phase, whatever the
    handlers, clocks and settlements answer, hooks are called in their order,
    each at most once.  A policy hook is only ever shown the input in its final
    form, the one the engine acts on.  When the phase completes, every policy
    hook that applies to that input was called with it and agreed: it had no
    objection, or gave a permission that is not stricter than the phase's and
    not a denial.  The phase fails as a whole only
    when effects are unsettled, or when no hook was called because the input is
    too large. *)
Theorem policies_decide {enc : HookEncoding} (l : list RegisteredHook) (seen : HookInput)
    (only : option HookEffect) (o : Oracle hook_answer) :
  (register_all ∅ l).2 = true →
  let hooks := hooks_of (register_all ∅ l).1 (event_of seen) in
  let '(r, t) := run o (dispatch_selected (register_all ∅ l).1 seen only) [] in
  called_ids (calls t) `sublist_of` map id_of hooks ∧
  match r with
  | Err e => error_code e = "effects_unsettled"%string ∨ e = payload_limit ∧ calls t = []
  | Ok res =>
      event_of (input res) = event_of seen ∧
      (∀ h c, h ∈ hooks → class_of h = PolicyClass → c ∈ calls t → c.1.1 = id_of h →
              c.1.2 = input res) ∧
      (status res = Completed → ∀ h, h ∈ hooks → class_of h = PolicyClass →
         selected h (input res) only = true →
         ∃ d, (id_of h, input res, Returned (Ok d)) ∈ calls t ∧ consents d (permission res))
  end.
Proof.
  intros Hok. pose proof (dispatch_selected_spec _ seen only [] (registered_ordered l (event_of seen) Hok)) as Hwp.
  apply (wp_run _ _ _ _ o) in Hwp; [|done].
  destruct (run o _ []) as [r t]. cbn [fst snd] in *. destruct Hwp as (k & Ht & Hsub & Hr).
  change (calls t = k) in Ht. subst k. split; [done|].
  destruct r as [res|e]; [|done]. destruct Hr as [He _ Hi _ Hc]. split; [done|].
  split; [exact Hi|]. intros Hst h Hh Hcl Hsel. by apply Hc.
Qed.

Definition small_payloads : HookEncoding := {| input_bytes _ := Some 10; directive_bytes _ := Some 10 |}.
(** A handler that answers at once. *)
Definition prompt_handlers (d : HookDirective) : Oracle hook_answer := λ _ a,
  match a return hook_answer a with
  | ANow => 0
  | AAdmit _ _ => Ok tt
  | AReady _ _ => Returned (Ok tt)
  | AInvoke _ _ _ => Returned (Ok d)
  | ACancel _ | ACleanup _ | ACloseAdmission _ => tt
  | ACleanupBy _ _ | ACleanupWithin _ _ => Settled
  | ASettle _ _ => Ok tt
  end.
Definition sample_check : HookInput := InPermissionCheck (mkPermissionInput "1" "bash" JNull []).
Lemma policies_decide_witness :
  let d := [sample_hook "guard" PermissionCheck PolicyClass] in
  let '(r, t) := run (prompt_handlers (Permission HookAsk))
                   (dispatch_selected (enc := small_payloads) (register_all ∅ d).1 sample_check None) [] in
  r = Ok (mkDispatch sample_check (Some HookAsk) Completed []) ∧
  called_ids (calls t) = ["guard"] ∧ ["guard"] `sublist_of` ["guard"].
Proof.
  split; [reflexivity|]. split; [reflexivity|].
  exact (proj1 (policies_decide (enc := small_payloads)
    [sample_hook "guard" PermissionCheck PolicyClass] sample_check None
    (prompt_handlers (Permission HookAsk)) eq_refl)).
Defined.
