(* ===== verification/ToolAdmission.v ===== *)
(** The byte budgets of a tool batch: [PendingToolBudget]
    ([rw-core/src/engine/turn/tool_admission.rs] and [tool_admission/approvals.rs])
    for calls, arguments and approvals, and [ToolResultBudget]
    ([tool_result_budget.rs]) for results.

    What a value weighs (its prepared allocation, its encoded JSON) depends on
    the capacities of its buffers and on serde_json: measurements are arguments.
    Whether the session's memory owner grants a new size is an answer. *)
From S2P Require Import Prelude Text Ir ToolBatch.

Definition MAX_PENDING_TOOL_INVOCATIONS : Z := 128.
Definition MAX_PENDING_TOOL_ARGUMENT_BYTES : Z := 1024 * 1024.
Definition MAX_PENDING_TOOL_PREPARED_BYTES : Z := 8 * 1024 * 1024.
Definition MAX_TOOL_CALL_ID_BYTES : Z := 1024.
Definition MAX_TOOL_NAME_BYTES : Z := 256.
Definition MAX_PENDING_TOOL_APPROVAL_BYTES : Z := 4 * 1024 * 1024.
Definition MAX_PENDING_TOOL_APPROVAL_PREPARED_BYTES : Z := 16 * 1024 * 1024.

(** [usize::checked_sub] *)
Definition checked_sub (a b : Z) : option Z := if b <=? a then Some (a - b) else None.
Definition within (limit : Z) (o : option Z) : option Z := o ≫= λ n, if n <=? limit then Some n else None.

(** * Calls, arguments, approvals *)

Record PendingToolBudget : Type := mkPendingBudget {
  calls : Z;
  encoded : Z;
  prepared : Z;
  streamed : Z;
  approval_encoded : Z;
  approval_prepared : Z;
}.
Definition pending_default : PendingToolBudget := mkPendingBudget 0 0 0 0 0 0.

(** The measurements of a value: [prepared_bytes], and the bytes serde_json
    writes ([None]: it fails). *)
Record Measured : Type := mkMeasured { prepared_bytes : option Z; written_bytes : option Z }.

(** [encoded_bytes]: the counter refuses to pass its limit. *)
Definition encoded_bytes (m : Measured) (limit : Z) : option Z := within limit (written_bytes m).

Definition measure (m : Measured) : Result (Z * Z) string :=
  let? prepared := ok_or (within MAX_PENDING_TOOL_PREPARED_BYTES (prepared_bytes m))
                     "pending tool argument allocation exceeds admission"%string in
  let? encoded := ok_or (encoded_bytes m MAX_PENDING_TOOL_ARGUMENT_BYTES)
                    "pending tool argument bytes exceed admission"%string in
  Ok (encoded, prepared).

(** [start]; [id_capacity] and [name_capacity] are the capacities of the two
    strings, [call_size] is [size_of::<PendingToolCall>()]. *)
Definition start (self : PendingToolBudget) (id name : string)
    (id_capacity name_capacity call_size : Z) : PendingToolBudget * Result unit string :=
  if (calls self =? MAX_PENDING_TOOL_INVOCATIONS) || is_empty id ||
     (MAX_TOOL_CALL_ID_BYTES <? str_len id) || is_empty name || (MAX_TOOL_NAME_BYTES <? str_len name)
  then (self, Err "pending tool invocation count or identity exceeds admission"%string)
  else
    match checked_add id_capacity name_capacity ≫= λ b, checked_add b call_size with
    | None => (self, Err "pending tool metadata allocation overflow"%string)
    | Some metadata =>
        match within MAX_PENDING_TOOL_PREPARED_BYTES (checked_add (prepared self) metadata) with
        | None => (self, Err "pending tool prepared allocation exceeds admission"%string)
        | Some p =>
            (mkPendingBudget (calls self + 1) (encoded self) p (streamed self)
               (approval_encoded self) (approval_prepared self), Ok tt)
        end
    end.

Definition delta (self : PendingToolBudget) (fragment : string) : PendingToolBudget * Result unit string :=
  match within MAX_PENDING_TOOL_ARGUMENT_BYTES (checked_add (streamed self) (str_len fragment)) with
  | None => (self, Err "pending tool argument stream exceeds admission"%string)
  | Some s =>
      (mkPendingBudget (calls self) (encoded self) (prepared self) s
         (approval_encoded self) (approval_prepared self), Ok tt)
  end.

Definition replace (self : PendingToolBudget) (old : option Measured) (next : Measured)
    : PendingToolBudget * Result unit string :=
  match match old with None => Ok (0, 0) | Some m => measure m end with
  | Err e => (self, Err e)
  | Ok (old_encoded, old_prepared) =>
  match measure next with
  | Err e => (self, Err e)
  | Ok (next_encoded, next_prepared) =>
  match within MAX_PENDING_TOOL_ARGUMENT_BYTES
          (checked_sub (encoded self) old_encoded ≫= λ n, checked_add n next_encoded) with
  | None => (self, Err "pending tool argument bytes exceed admission"%string)
  | Some e =>
  match within MAX_PENDING_TOOL_PREPARED_BYTES
          (checked_sub (prepared self) old_prepared ≫= λ n, checked_add n next_prepared) with
  | None => (self, Err "pending tool prepared allocation exceeds admission"%string)
  | Some p =>
      (mkPendingBudget (calls self) e p (streamed self) (approval_encoded self)
         (approval_prepared self), Ok tt)
  end end end end.
Definition arguments_charge (self : PendingToolBudget) (m : Measured) := replace self None m.

(** [approval_payload]; [m] measures the request ([request_bytes] and its
    encoding). *)
Definition approval_payload (self : PendingToolBudget) (m : Measured) (copies : Z)
    : PendingToolBudget * Result unit string :=
  match encoded_bytes m MAX_PENDING_TOOL_APPROVAL_BYTES with
  | None => (self, Err "tool payload byte admission"%string)
  | Some written =>
  match within MAX_PENDING_TOOL_APPROVAL_BYTES
          (checked_add written 1024 ≫= λ b, checked_mul b copies ≫= λ b,
           checked_add b (approval_encoded self)) with
  | None => (self, Err "pending tool approval bytes exceed admission"%string)
  | Some e =>
  match within MAX_PENDING_TOOL_APPROVAL_PREPARED_BYTES
          (prepared_bytes m ≫= λ b, checked_add b 1024 ≫= λ b, checked_mul b 4 ≫= λ b,
           checked_mul b copies ≫= λ b, checked_add b (approval_prepared self)) with
  | None => (self, Err "pending tool approval allocation exceeds admission"%string)
  | Some p =>
      (mkPendingBudget (calls self) (encoded self) (prepared self) (streamed self) e p, Ok tt)
  end end end.

(** A call as [from_calls] meets it: what it weighs. *)
Record Weighed : Type := mkWeighed {
  weighed_call : PendingToolCall;
  weighed_id : Z;
  weighed_name : Z;
  weighed_arguments : Measured;
}.
(** One round of [from_calls]. *)
Definition charge_call (call_size : Z) (self : PendingToolBudget) (w : Weighed)
    : PendingToolBudget * Result unit string :=
  let c := weighed_call w in
  match start self (call_id c) (call_name c) (weighed_id w) (weighed_name w) call_size with
  | (self, Err e) => (self, Err e)
  | (self, Ok _) =>
      match call_arguments c with
      | Some _ => arguments_charge self (weighed_arguments w)
      | None => (self, Ok tt)
      end
  end.
Fixpoint from_calls_loop (call_size : Z) (self : PendingToolBudget) (l : list Weighed)
    : Result PendingToolBudget string :=
  match l with
  | [] => Ok self
  | w :: l' =>
      match charge_call call_size self w with
      | (_, Err e) => Err e
      | (self, Ok _) => from_calls_loop call_size self l'
      end
  end.
Definition from_calls (call_size : Z) (l : list Weighed) : Result PendingToolBudget string :=
  from_calls_loop call_size pending_default l.

(** * Results *)

Definition SLOT_BYTES : Z := 4096.
Definition MAX_TOOL_RESULT_IR_BYTES : Z := 16 * 1024 * 1024.
Definition MAX_HISTORY_RESULT_BYTES : Z := 128 * 1024 * 1024.
Definition SCRATCH_BYTES : Z := 2 * MAX_TOOL_RESULT_IR_BYTES.
Definition OUTPUT_BYTES : Z := MAX_HISTORY_RESULT_BYTES - SCRATCH_BYTES.

(** [State]; [charged] is the size of the owner's reservation. *)
Record ToolResultBudget : Type := mkResultBudget {
  charged : Z;
  slots : list Z;
  retained : Z;
}.

(** [ToolResultBudget::new]; [reserved] is what the owner holds before. *)
Definition result_budget_new (n : nat) (reserved : bool) (resized : bool) : option ToolResultBudget :=
  if (n =? 0)%nat || (MAX_PENDING_TOOL_INVOCATIONS <? Z.of_nat n) then None
  else if negb reserved then None
  else
    let r := Z.of_nat n * SLOT_BYTES in
    if resized then Some (mkResultBudget (r + SCRATCH_BYTES) (replicate n SLOT_BYTES) r) else None.

(** The weight of an output: three copies may coexist. *)
Definition slot_weight (output : option Z) : option Z :=
  output ≫= λ b, checked_mul b 3 ≫= λ b, checked_add b SLOT_BYTES.

(** [admit]; [resized] is the owner's answer. *)
Definition result_admit (self : ToolResultBudget) (index : nat) (output : option Z) (resized : bool)
    : ToolResultBudget * bool :=
  match slot_weight output, slots self !! index with
  | Some bytes, Some old =>
      let bytes := Z.max bytes old in
      match within OUTPUT_BYTES (checked_sub (retained self) old ≫= λ n, checked_add n bytes) with
      | Some r =>
          if resized
          then (mkResultBudget (r + SCRATCH_BYTES) (<[index := bytes]> (slots self)) r, true)
          else (self, false)
      | None => (self, false)
      end
  | _, _ => (self, false)
  end.

(** [settled]: give back what the output no longer needs.  [None]: the index
    is out of range and the code panics. *)
Definition result_settled (self : ToolResultBudget) (index : nat) (output : option Z) (resized : bool)
    : option ToolResultBudget :=
  match slot_weight output with
  | None => Some self
  | Some bytes =>
      old ← slots self !! index;
      if bytes <? old then
        let r := retained self - (old - bytes) in
        Some (if resized then mkResultBudget (r + SCRATCH_BYTES) (<[index := bytes]> (slots self)) r
              else self)
      else Some self
  end.

(** [finish_profile] *)
Definition finish_profile (self : ToolResultBudget) (ir : Z) (resized : bool) : ToolResultBudget * bool :=
  match checked_add ir (SLOT_BYTES * Z.of_nat (length (slots self))) with
  | Some bytes =>
      if resized then (mkResultBudget bytes (slots self) (retained self), true) else (self, false)
  | None => (self, false)
  end.

(** * Arithmetic *)

Lemma within_Some limit o n : within limit o = Some n ↔ o = Some n ∧ n ≤ limit.
Proof.
  unfold within. destruct o as [m|]; cbn; [|naive_solver].
  destruct (Z.leb_spec m limit); naive_solver lia.
Qed.
Lemma checked_add_Some a b n : checked_add a b = Some n ↔ n = a + b ∧ a + b ≤ usize_max.
Proof. unfold checked_add. destruct (Z.leb_spec (a + b) usize_max); naive_solver lia. Qed.
Lemma checked_mul_Some a b n : checked_mul a b = Some n ↔ n = a * b ∧ a * b ≤ usize_max.
Proof. unfold checked_mul. destruct (Z.leb_spec (a * b) usize_max); naive_solver lia. Qed.
Lemma checked_sub_Some a b n : checked_sub a b = Some n ↔ n = a - b ∧ b ≤ a.
Proof. unfold checked_sub. destruct (Z.leb_spec b a); naive_solver lia. Qed.

Ltac unbind :=
  repeat match goal with
  | H : within _ _ = Some _ |- _ => apply within_Some in H as [? ?]
  | H : checked_add _ _ = Some _ |- _ => apply checked_add_Some in H as [? ?]
  | H : checked_mul _ _ = Some _ |- _ => apply checked_mul_Some in H as [? ?]
  | H : checked_sub _ _ = Some _ |- _ => apply checked_sub_Some in H as [? ?]
  | H : _ ≫= _ = Some _ |- _ => apply bind_Some in H as (? & ? & ?)
  end.

(** * The reservation of a batch's results *)

(** The life of the budget: outputs are charged, given back, or refused. *)
Inductive result_step (self : ToolResultBudget) : ToolResultBudget → Prop :=
| StepAdmit index output resized :
    from_option (λ b, 0 ≤ b) True output →
    result_step self (result_admit self index output resized).1
| StepSettled index output resized self' :
    from_option (λ b, 0 ≤ b) True output →
    result_settled self index output resized = Some self' → result_step self self'.
Inductive result_reachable : ToolResultBudget → Prop :=
| ReachNew n resized self : result_budget_new n true resized = Some self → result_reachable self
| ReachStep self self' : result_reachable self → result_step self self' → result_reachable self'.

Definition result_ok (self : ToolResultBudget) : Prop :=
  retained self = sum_Z (slots self) ∧ Forall (λ b, SLOT_BYTES ≤ b) (slots self) ∧
  retained self ≤ OUTPUT_BYTES ∧ charged self = retained self + SCRATCH_BYTES.

Lemma sum_Z_cons (x : Z) l : sum_Z (x :: l) = x + sum_Z l.
Proof. done. Qed.
Lemma sum_Z_update l i old x : l !! i = Some old → sum_Z (<[i := x]> l) = sum_Z l - old + x.
Proof.
  revert i; induction l as [|y l IH]; intros i Hi; [done|].
  destruct i as [|i].
  - cbn in Hi. injection Hi as ->. cbn. lia.
  - change (<[S i := x]> (y :: l)) with (y :: <[i := x]> l). rewrite !sum_Z_cons, (IH i) by done. lia.
Qed.
Lemma sum_Z_replicate n x : sum_Z (replicate n x) = Z.of_nat n * x.
Proof. unfold sum_Z. induction n; cbn -[Z.of_nat]; lia. Qed.

Lemma result_ok_new n resized self : result_budget_new n true resized = Some self → result_ok self.
Proof.
  unfold result_budget_new. destruct (_ || _) eqn:E; [done|]. destruct resized; [|done]. cbn [negb].
  intros [= <-]. apply orb_false_iff in E as [_ E%Z.ltb_ge]. unfold result_ok. cbn [retained slots charged].
  rewrite sum_Z_replicate. split; [done|]. split; [by apply Forall_replicate|].
  unfold OUTPUT_BYTES, MAX_HISTORY_RESULT_BYTES, SCRATCH_BYTES, MAX_TOOL_RESULT_IR_BYTES, SLOT_BYTES,
    MAX_PENDING_TOOL_INVOCATIONS in *. lia.
Qed.

Lemma slot_weight_Some output bytes :
  slot_weight output = Some bytes ↔
  ∃ b, output = Some b ∧ bytes = 3 * b + SLOT_BYTES ∧ b * 3 ≤ usize_max ∧ b * 3 + SLOT_BYTES ≤ usize_max.
Proof.
  unfold slot_weight. split.
  - intros H. unbind. simplify_eq. eexists; split; [done|]. split; [lia|done].
  - intros (b & -> & -> & ? & ?). cbn.
    rewrite (proj2 (checked_mul_Some _ _ (b * 3))) by done. cbn.
    apply checked_add_Some. lia.
Qed.

Lemma result_ok_step self self' : result_ok self → result_step self self' → result_ok self'.
Proof.
  intros (Hsum & Hsl & Hmax & Hch) Hstep. destruct Hstep as [index output resized Hout|index output resized self' Hout Hs].
  - unfold result_admit. destruct (slot_weight output) as [bytes|]; [|done].
    destruct (slots self !! index) as [old|] eqn:Hold; [|done].
    destruct (within _ _) as [r|] eqn:Hr; [|done]. destruct resized; [|done]. cbn [fst]. unbind. simplify_eq.
    unfold result_ok; cbn [retained slots charged]. rewrite (sum_Z_update _ _ old) by done.
    split; [lia|]. split; [|done]. apply Forall_insert; [done|].
    rewrite Forall_lookup in Hsl. specialize (Hsl _ _ Hold). lia.
  - unfold result_settled in Hs. destruct (slot_weight output) as [bytes|] eqn:Hw; [|by simplify_eq].
    apply slot_weight_Some in Hw as (b & -> & -> & _). cbn in Hout.
    unbind. rename x into old. destruct (Z.ltb_spec (3 * b + SLOT_BYTES) old); [|by simplify_eq].
    destruct resized; simplify_eq; [|done].
    unfold result_ok; cbn [retained slots charged]. erewrite sum_Z_update by done.
    split; [lia|]. split; [apply Forall_insert; [done|lia]|]. lia.
Qed.

Lemma result_reachable_ok self : result_reachable self → result_ok self.
Proof. induction 1; [by eapply result_ok_new|by eapply result_ok_step]. Qed.

(** The results of a batch stay within their reservation.  In every state of
    the budget the session's owner is charged exactly the retained bytes and the
    scratch space, never more than the limit of a history result; an output that
    is admitted fits three times into its slot of the reservation; and a refused
    output changes nothing. *)
Theorem results_within_reservation self index output resized :
  result_reachable self → 0 ≤ output →
  charged self = sum_Z (slots self) + SCRATCH_BYTES ∧ charged self ≤ MAX_HISTORY_RESULT_BYTES ∧
  match result_admit self index (Some output) resized with
  | (self', true) =>
      ∃ slot, slots self' !! index = Some slot ∧ 3 * output ≤ slot ∧
              charged self' = sum_Z (slots self') + SCRATCH_BYTES ∧ charged self' ≤ MAX_HISTORY_RESULT_BYTES
  | (self', false) => self' = self
  end.
Proof.
  intros Hreach Hout. destruct (result_reachable_ok self Hreach) as (Hsum & Hsl & Hmax & Hch).
  assert (retained self + SCRATCH_BYTES ≤ MAX_HISTORY_RESULT_BYTES) as Hle by (unfold OUTPUT_BYTES in *; lia).
  split; [congruence|]. split; [lia|].
  assert (result_ok (result_admit self index (Some output) resized).1) as Hok.
  { apply (result_ok_step self); [done|]. by constructor. }
  destruct (result_admit self index (Some output) resized) as [self' []] eqn:E; cbn [fst] in Hok.
  - destruct Hok as (Hsum' & Hsl' & Hmax' & Hch'). unfold result_admit in E.
    destruct (slot_weight (Some output)) as [bytes|] eqn:Hw; [|done].
    destruct (slots self !! index) as [old|] eqn:Hold; [|done].
    destruct (within _ _) as [r|]; [|done]. destruct resized; [|done]. simplify_eq. cbn [slots charged retained] in *.
    apply slot_weight_Some in Hw as (b & [= <-] & -> & _). eexists.
    rewrite list_lookup_insert_eq by (by eapply lookup_lt_Some). split; [done|].
    split; [unfold SLOT_BYTES; lia|]. unfold OUTPUT_BYTES in *. split; [by rewrite <- Hsum'|lia].
  - unfold result_admit in E. repeat case_match; by simplify_eq.
Qed.
Definition sample_results : ToolResultBudget := mkResultBudget (2 * SLOT_BYTES + SCRATCH_BYTES) [SLOT_BYTES; SLOT_BYTES] (2 * SLOT_BYTES).
Lemma results_within_reservation_witness :
  (result_admit sample_results 1 (Some 1000000) true).2 = true ∧
  charged sample_results = sum_Z (slots sample_results) + SCRATCH_BYTES.
Proof.
  split; [reflexivity|].
  refine (proj1 (results_within_reservation sample_results 1 1000000 true _ _)); [|lia].
  by apply (ReachNew 2 true).
Defined.

(** * The charge of a pending batch *)

Definition weight_of (m : Measured) : Z * Z := match measure m with Ok w => w | Err _ => (0, 0) end.
Definition measured_ok (m : Measured) : Prop :=
  is_ok (measure m) = true ∧ 0 ≤ (weight_of m).1 ∧ 0 ≤ (weight_of m).2.

(** The budget is the sum of what is outstanding: the metadata of each call and
    the current arguments of each call. *)
Definition tracks (b : PendingToolBudget) (metadata : list Z) (args : list Measured) : Prop :=
  Forall (λ x, 0 ≤ x) metadata ∧ Forall measured_ok args ∧
  calls b = Z.of_nat (length metadata) ∧
  encoded b = sum_Z (map (λ m, (weight_of m).1) args) ∧
  prepared b = sum_Z metadata + sum_Z (map (λ m, (weight_of m).2) args) ∧
  calls b ≤ MAX_PENDING_TOOL_INVOCATIONS ∧ encoded b ≤ MAX_PENDING_TOOL_ARGUMENT_BYTES ∧
  prepared b ≤ MAX_PENDING_TOOL_PREPARED_BYTES.

Lemma tracks_default : tracks pending_default [] [].
Proof. repeat split; try done; by constructor. Qed.

Lemma measured_ok_inv m :
  measured_ok m → ∃ e p, measure m = Ok (e, p) ∧ weight_of m = (e, p) ∧ 0 ≤ e ∧ 0 ≤ p.
Proof.
  unfold measured_ok, weight_of. destruct (measure m) as [[e p]|]; [|by intros (? & _)].
  intros (_ & ? & ?). by exists e, p.
Qed.

Lemma weight_nonneg args :
  Forall measured_ok args →
  0 ≤ sum_Z (map (λ m, (weight_of m).1) args) ∧ 0 ≤ sum_Z (map (λ m, (weight_of m).2) args).
Proof.
  induction 1 as [|m l (_ & ? & ?) _ [? ?]]; [done|].
  change (0 ≤ (weight_of m).1 + sum_Z (map (λ m, (weight_of m).1) l) ∧
          0 ≤ (weight_of m).2 + sum_Z (map (λ m, (weight_of m).2) l)). lia.
Qed.

Lemma tracks_start b metadata args id name ic nc size b' :
  tracks b metadata args → 0 ≤ ic → 0 ≤ nc → 0 ≤ size →
  start b id name ic nc size = (b', Ok tt) → tracks b' (metadata ++ [ic + nc + size]) args.
Proof.
  intros (Hm & Ha & Hc & He & Hp & Hcm & Hem & Hpm) Hic Hnc Hsize. unfold start.
  destruct (_ || _) eqn:Eg; [done|]. rewrite !orb_false_iff, !Z.ltb_ge, Z.eqb_neq in Eg.
  destruct (checked_add ic nc ≫= _) as [metadata'|] eqn:Em; [|done].
  destruct (within _ _) as [p|] eqn:Ep; [|done]. intros [= <-]. unbind. simplify_eq.
  unfold tracks; cbn [calls encoded prepared]. rewrite length_app, sum_Z_app. cbn [length].
  change (sum_Z [ic + nc + size]) with (ic + nc + size + 0).
  repeat split; try done; try lia. apply Forall_app; split; [done|]. apply Forall_cons; split; [lia|done].
Qed.

(** Replacing the arguments of a call never underflows: the old charge is part
    of the sum. *)
Lemma tracks_replace b metadata before old after next b' :
  tracks b metadata (before ++ old :: after) → measured_ok next →
  replace b (Some old) next = (b', Ok tt) → tracks b' metadata (before ++ next :: after).
Proof.
  intros (Hm & Ha & Hc & He & Hp & Hcm & Hem & Hpm) Hnext. unfold replace.
  apply Forall_app in Ha as [Ha1 Ha2]. apply Forall_cons in Ha2 as [Hold Ha2].
  rewrite map_app, sum_Z_app in He, Hp. cbn [map] in He, Hp. rewrite sum_Z_cons in He, Hp.
  pose proof (weight_nonneg _ Ha1). pose proof (weight_nonneg _ Ha2).
  destruct (measured_ok_inv old Hold) as (oe & op & Eo & Ewo & ? & ?).
  destruct (measured_ok_inv next Hnext) as (ne & np & En & Ewn & ? & ?).
  rewrite Eo, En. rewrite Ewo in He, Hp. cbn [fst snd] in He, Hp.
  destruct (within _ _) as [e|] eqn:Ee; [|done]. destruct (within MAX_PENDING_TOOL_PREPARED_BYTES _) as [p|] eqn:Ep; [|done].
  intros [= <-]. unbind. simplify_eq. unfold tracks; cbn [calls encoded prepared].
  rewrite !map_app, !sum_Z_app. cbn [map]. rewrite !sum_Z_cons, Ewn. cbn [fst snd].
  repeat split; try done; try lia. apply Forall_app; split; [done|]. by apply Forall_cons.
Qed.

Lemma tracks_arguments b metadata args next b' :
  tracks b metadata args → measured_ok next →
  arguments_charge b next = (b', Ok tt) → tracks b' metadata (args ++ [next]).
Proof.
  intros (Hm & Ha & Hc & He & Hp & Hcm & Hem & Hpm) Hnext. unfold arguments_charge, replace.
  destruct (measured_ok_inv next Hnext) as (ne & np & En & Ewn & ? & ?). rewrite En.
  destruct (within _ _) as [e|] eqn:Ee; [|done]. destruct (within MAX_PENDING_TOOL_PREPARED_BYTES _) as [p|] eqn:Ep; [|done].
  intros [= <-]. unbind. simplify_eq. unfold tracks; cbn [calls encoded prepared].
  rewrite !map_app, !sum_Z_app. cbn [map]. rewrite !sum_Z_cons, Ewn. cbn [fst snd].
  change (sum_Z []) with 0. repeat split; try done; try lia.
  apply Forall_app; split; [done|]. by apply Forall_cons.
Qed.

(** The outstanding charges of a list of calls. *)
Definition metadata_of (call_size : Z) (l : list Weighed) : list Z :=
  map (λ w, weighed_id w + weighed_name w + call_size) l.
Definition args_of (l : list Weighed) : list Measured :=
  omap (λ w, if is_some (call_arguments (weighed_call w)) then Some (weighed_arguments w) else None) l.
Definition weighed_ok (w : Weighed) : Prop :=
  0 ≤ weighed_id w ∧ 0 ≤ weighed_name w ∧
  0 ≤ default 0 (prepared_bytes (weighed_arguments w)) ∧
  0 ≤ default 0 (written_bytes (weighed_arguments w)).

Lemma measure_ok_weight m w :
  measure m = Ok w → 0 ≤ default 0 (prepared_bytes m) → 0 ≤ default 0 (written_bytes m) → measured_ok m.
Proof.
  intros Hm Hp Hw. unfold measured_ok, weight_of. rewrite Hm. unfold measure, encoded_bytes in Hm.
  destruct (within _ (prepared_bytes m)) as [p|] eqn:Ep; [|done]. cbn in Hm.
  destruct (within _ (written_bytes m)) as [e|] eqn:Ee; [|done]. cbn in Hm. simplify_eq.
  apply within_Some in Ep as [Ep _], Ee as [Ee _]. rewrite Ep in Hp. rewrite Ee in Hw. done.
Qed.

(** The budget made from the calls of a batch is what the calls weigh, within
    every limit. *)
Theorem from_calls_exact call_size l b :
  0 ≤ call_size → Forall weighed_ok l → from_calls call_size l = Ok b →
  tracks b (metadata_of call_size l) (args_of l).
Proof.
  intros Hsize Hl. unfold from_calls.
  assert (∀ c metadata args, tracks c metadata args → from_calls_loop call_size c l = Ok b →
            tracks b (metadata ++ metadata_of call_size l) (args ++ args_of l)) as Hgen;
    [|intros Hok; exact (Hgen _ _ _ tracks_default Hok)].
  induction Hl as [|w l (Hi & Hn & Hp & Hw) _ IH]; intros c metadata args Hc; cbn.
  { intros [= <-]. by rewrite !app_nil_r. }
  destruct (charge_call call_size c w) as [c' [[]|]] eqn:E; [|done]. intros Hok.
  unfold charge_call in E.
  destruct (start c _ _ _ _ _) as [c1 [[]|]] eqn:Es; [|done].
  apply (tracks_start _ _ _ _ _ _ _ _ _ Hc) in Es; [|done..].
  destruct (call_arguments (weighed_call w)) as [v|]; cbn.
  - assert (measured_ok (weighed_arguments w)) as Hm.
    { unfold arguments_charge, replace in E. destruct (measure _) eqn:Em; [|done]. by eapply measure_ok_weight. }
    apply (tracks_arguments _ _ _ _ _ Es Hm) in E.
    specialize (IH _ _ _ E Hok). rewrite <- !app_assoc in IH. exact IH.
  - simplify_eq. specialize (IH _ _ _ Es Hok). rewrite <- app_assoc in IH. exact IH.
Qed.

(** An operation that is refused leaves the budget as it was. *)
Theorem refused_charge_unchanged b id name ic nc size fragment old next m copies :
  (∀ e, (start b id name ic nc size).2 = Err e → (start b id name ic nc size).1 = b) ∧
  (∀ e, (delta b fragment).2 = Err e → (delta b fragment).1 = b) ∧
  (∀ e, (replace b old next).2 = Err e → (replace b old next).1 = b) ∧
  (∀ e, (approval_payload b m copies).2 = Err e → (approval_payload b m copies).1 = b).
Proof.
  unfold start, delta, replace, approval_payload.
  repeat split; intros e; repeat case_match; cbn; by intros ?.
Qed.
