(* ===== verification/ToolCalls.v ===== *)
(** One tool call, from the request of the model to its result:
    [prepare_tool_call] and [authorize_tool_call]
    ([rw-core/src/engine/turn/tool_requests.rs]), [execute_prepared_tool]
    ([turn/tool_execution.rs]) and the engine's side of hooks
    ([turn/hooks.rs]), as processes over [ToolAction].

    The permission gate, its world and the hook dispatcher are those of
    [PermissionGate] and [Hooks].  The registry, the tools, the checkpoints, the
    approver's channel and cancellation answer actions.  Progress and output
    sinks, display plans and payload owners are left out. *)
From Stdlib Require Import Ascii.
From S2P Require Import Prelude Text Ir Effects Redaction ToolBatch Estimate Assembly Sse BashSafety ShellSplit PermissionRules PermissionIdentity PermissionGate Hooks ToolAdmission.

(** * Data *)

Definition MAX_APPROVAL_DIFF_BYTES : nat := Z.to_nat (256 * 1024).

(** A resolved [Arc<dyn Tool>]. *)
Definition ToolRef : Type := nat.

Record ApprovalBinding : Type := mkBinding {
  bound_proposal : string; bound_arguments : string; bound_base : string; bound_diff : string }.
#[global] Instance ApprovalBinding_eq_dec : EqDecision ApprovalBinding.
Proof. solve_decision. Defined.

(** [ApprovalPreview]; [None] for a path that is not UTF-8. *)
Record ApprovalPreview : Type := mkPreview {
  preview_path : option string; preview_before : option string; preview_after : string }.

Record AuthorizedToolBinding : Type := mkAuthorized {
  authorized_diff : option ApprovalBinding;
  execution_identity : string;
  authorized_capabilities : list ToolCapability;
}.

Record ResolvedToolSecurity : Type := mkSecurity {
  security_tool : ToolRef;
  security_capabilities : list ToolCapability;
  security_scope : MutationScope;
  security_semantics : ToolInvocationSemantics;
  security_read_only : bool;
}.

(** [PreparedToolCall] *)
Inductive Prepared : Type :=
| PreparedExecute (call : PendingToolCall) (t : ToolRef) (args : Value) (read_only : bool)
    (scope : MutationScope) (semantics : ToolInvocationSemantics)
    (authorization : AuthorizedToolBinding) (deferred_mutating_pre_hook : bool)
| PreparedComplete (execution : ToolExecution).
(** What the scheduler sees of it ([ToolBatch]). *)
Definition scheduled (p : Prepared) : PreparedToolCall :=
  match p with
  | PreparedExecute call _ _ read_only _ _ _ _ => ExecuteCall call read_only
  | PreparedComplete e => CompleteCall e
  end.

(** [ToolError], by what the caller distinguishes; [ToolFailed] is any other
    error, with its text. *)
Inductive ToolError : Type :=
| ToolUnsettled (message : string)
| ToolCancelled
| ToolCommand (message : string)
| ToolFailed (text : string).
Definition tool_error_text (e : ToolError) : string :=
  match e with
  | ToolUnsettled m => "tool effect settlement is unproven: " ++ m
  | ToolCancelled => "tool invocation was cancelled"
  | ToolCommand m => "command failed: " ++ m
  | ToolFailed text => text
  end.

Record ToolResult : Type := mkToolResult {
  content : string; result_data : Value; result_truncated : bool }.

Definition agent_error_text (e : AgentLoopError) : string :=
  match e with
  | ToolContext m => "tool context failure: " ++ m
  | EffectsUnsettled m => "effect settlement is unproven: " ++ m
  | Persistence m => "session persistence failure: " ++ m
  | Extension m => "extension failure: " ++ m
  | Closed => "session actor is closed"
  end.

Inductive MutationCheckpointOutcome : Type :=
| CheckpointCompleted | CheckpointFailed | CheckpointCancelled.

Inductive ToolEvent : Type :=
| ToolCallStarted (id invocation_id name : string) (args : Value) (index : nat)
| ToolDiffReady (id invocation_id : string) (diff : UnifiedDiff)
| HookFailureEvent (event hook : string) (fail_closed : bool) (message : string).

(** What running a tool comes to. *)
Inductive Executed : Type :=
| ExecutionReturned (r : Result ToolResult ToolError)
| ExecutionPanicked
| ExecutionAbandoned.

Inductive ToolAction : Type :=
| AHook (a : HookAction)
| APoll
| AIsCancelled
| AUnsettled (message : string)
| AEvent (e : ToolEvent)
| AResolve (name : string)
| ASemantics (name : string) (args : Value)
| ACapabilities (t : ToolRef) (args : Value)
| AParallelSafe (t : ToolRef) (args : Value)
| AActivity
| APreview (t : ToolRef) (args : Value)
| ADiff (before_label after_label before after : string)
| AMeasure (v : Value)
| AMeasureRequest (r : PermissionRequest)
| AWorld
| AWrite (w : World)
| ARandom
| AAsk (shown : PermissionRequest)
| AAnswer
| ABegin (id : string) (scope : MutationScope)
| AFinish (checkpoint : option string) (outcome : MutationCheckpointOutcome)
| ASettleCheckpoints
| ADelegates (t : ToolRef)
| AExecute (t : ToolRef) (args : Value) (delegated : option (list ToolCapability * MutationScope))
| ASettleTool (t : ToolRef)
| AAdmitResult (index : nat) (output : ToolOutput).

Definition tool_answer (a : ToolAction) : Type :=
  match a with
  | AHook a => hook_answer a
  | APoll | AIsCancelled => bool
  | AUnsettled _ | AEvent _ | AWrite _ => unit
  | AResolve _ => option ToolRef
  | ASemantics _ _ => option ToolInvocationSemantics
  | ACapabilities _ _ => option (list ToolCapability)
  | AParallelSafe _ _ => bool
  | AActivity => option string
  | APreview _ _ => Result (option ApprovalPreview) string
  | ADiff _ _ _ _ => string
  | AMeasure _ | AMeasureRequest _ => Measured
  | AWorld => World
  | ARandom => option string
  | AAsk _ => bool
  | AAnswer => ApprovalDecision
  | ABegin _ _ => Result (option string) string
  | AFinish _ _ => Result unit string
  | ASettleCheckpoints => Result unit string
  | ADelegates _ => bool
  | AExecute _ _ _ => Executed
  | ASettleTool _ => Result unit string
  | AAdmitResult _ _ => bool
  end.
Abbreviation ToolProc := (Proc tool_answer).

(** * Pure helpers *)

(** [tool_result_output] *)
Definition tool_result_output (r : ToolResult) : ToolOutput :=
  if is_null (result_data r) && negb (result_truncated r) then OutText (content r)
  else
    let structured := PartStructured (JObject [("data", result_data r); ("truncated", JBool (result_truncated r))]) in
    if is_empty (content r) then OutMixed [structured] else OutMixed [PartText (content r); structured].

(** [validate_mutation_scope]; [None] is a valid scope. *)
Definition validate_mutation_scope (scope : MutationScope) : option AgentLoopError :=
  match scope with
  | ScopePaths paths =>
      if Nat.eqb (length paths) 0 then Some (ToolContext "mutation scope contained no paths")
      else if existsb (λ path, is_empty path || is_absolute path ||
                               existsb (String.eqb "..") (path_parts path)) paths
      then Some (ToolContext "mutation scope contained an unsafe path")
      else None
  | _ => None
  end.

Definition is_scope_none (s : MutationScope) : bool := match s with ScopeNone => true | _ => false end.

(** [background_control_call] *)
Definition background_control_call (semantics : ToolInvocationSemantics) (args : Value) : bool :=
  bool_decide (behavior semantics = BackgroundControl) ||
  (bool_decide (behavior semantics = Shell) &&
     match value_get args "run_in_background" with Some (JBool true) => true | _ => false end).

Definition hook_event_name (e : HookEvent) : string :=
  match e with
  | SessionStart => "session_start" | SessionEnd => "session_end"
  | UserPromptSubmit => "user_prompt_submit" | PreTool => "pre_tool" | PostTool => "post_tool"
  | PreCompact => "pre_compact" | TurnEnd => "turn_end" | PermissionCheck => "permission_check"
  end.

(** [permission_hook_override] *)
Definition permission_hook_override (s : HookDispatchStatus) (decision : option HookPermissionDecision)
    : option HookPermissionDecision :=
  match s with Completed => decision | _ => Some HookDeny end.

(** [diff_binding] *)
Definition diff_binding (d : UnifiedDiff) : ApprovalBinding :=
  mkBinding (proposal_id d) (arguments_hash d) (base_hash d) (diff_hash d).

(** [widen_security_for_hooks] *)
Definition add_capability (l : list ToolCapability) (c : ToolCapability) : list ToolCapability :=
  push_new l c.
Definition widen_security_for_hooks (s : ResolvedToolSecurity) (hooks : HookDispatcher) (name : string)
    : ResolvedToolSecurity * bool :=
  let caps := foldl add_capability (security_capabilities s)
                (required_tool_capabilities hooks PreTool name) in
  let caps := foldl add_capability caps (required_tool_capabilities hooks PostTool name) in
  let deferred := has_workspace_mutating_tool_hook hooks PreTool name in
  let post := has_workspace_mutating_tool_hook hooks PostTool name in
  if deferred || post then
    (mkSecurity (security_tool s) (add_capability caps WriteFilesystem) OpaqueWorkspace
       (security_semantics s) false, deferred)
  else (mkSecurity (security_tool s) caps (security_scope s) (security_semantics s)
          (security_read_only s), deferred).

(** * Hooks, from the engine *)

(** A phase that a cancellation may interrupt: the [select!] looks at the
    token first, each time it is woken. *)
Fixpoint interruptible {A} (p : Proc hook_answer A) : ToolProc (option A) :=
  Await APoll (λ cancelled : bool,
    if cancelled then Done None
    else match p with
         | Done a => Done (Some a)
         | Await a k => Await (AHook a) (λ r, interruptible (k r))
         end).

(** [mark_unsettled] *)
Definition mark_unsettled (message : string) : ToolProc unit := await (AUnsettled message).

Section calls.
Context `{SW : ShellWords} `{G : Glob} `{W : JsonWriter} `{B : Blake3} `{U : UrlParser}.
Context `{FS : FileSystem} `{X : ExecFiles} {R : SecretRedactor} {enc : HookEncoding}.
Context (gate : PermissionGate) (hooks : HookDispatcher).

(** [dispatch_hook] ([only] is [None]) and [dispatch_hook_effect] *)
Definition dispatch_hook (seen : HookInput) (only : option HookEffect)
    : ToolProc (Result HookDispatchResult AgentLoopError) :=
  let event := event_of seen in
  answered ← interruptible (dispatch_selected hooks seen only);
  settled ← embed AHook (λ _ r, r) (settle_effects hooks event);
  match settled with
  | Err e =>
      _ ← mark_unsettled (error_text e);
      mret (Err (EffectsUnsettled (error_text e)))
  | Ok _ =>
      mret match answered with
           | None => Err (Extension (hook_event_name event ++ " hook dispatch cancelled"))
           | Some (Ok result) => Ok result
           | Some (Err e) =>
               if String.eqb (error_code e) "effects_unsettled" then Err (EffectsUnsettled (error_text e))
               else Err (Extension (error_text e))
           end
  end.

Fixpoint report_hook_failures (event : HookEvent) (l : list HookFailure) : ToolProc unit :=
  match l with
  | [] => mret tt
  | f :: l' =>
      _ ← await (AEvent (HookFailureEvent (hook_event_name event) (failed_hook f)
                           (bool_decide (failed_policy f = FailClosed))
                           (redact (error_text (failed_error f)))));
      report_hook_failures event l'
  end.

Definition hook_rejection (s : HookDispatchStatus) : option string :=
  match s with
  | Completed => None
  | Blocked id message =>
      Some (redact ("hook `" ++ id ++ "` blocked the operation: " ++ message))
  | FailedClosed id => Some ("hook `" ++ id ++ "` failed closed")%string
  end.

(** * Security and approval *)

(** [resolve_tool_security] *)
Definition resolve_tool_security (name : string) (args : Value) : ToolProc (option ResolvedToolSecurity) :=
  found ← await (AResolve name);
  match found with
  | None => mret None
  | Some t =>
      semantics ← await (ASemantics name args);
      match semantics with
      | None => mret None
      | Some semantics =>
          let scope := mutation_scope semantics in
          caps ← await (ACapabilities t args);
          match caps with
          | None => mret None
          | Some caps =>
              let caps := if is_scope_none scope then caps else add_capability caps WriteFilesystem in
              read_only ← await (AParallelSafe t args);
              mret (Some (mkSecurity t caps scope semantics read_only))
          end
      end
  end.

Definition NUL : string := String (byte 0) "".

(** [approval_diff]: the labels and texts that are compared, and the diff from
    their full comparison. *)
Definition diff_input (preview : ApprovalPreview) : option (string * string * string * string) :=
  let text s := utf8_valid [] (String.list_ascii_of_string s) in
  path ← preview_path preview;
  let before := default "" (preview_before preview) in
  if negb (text before) || negb (text (preview_after preview)) then None
  else Some ((if is_some (preview_before preview) then "a/" ++ path else "/dev/null")%string,
             ("b/" ++ path)%string, before, preview_after preview).
Definition diff_of (request : PermissionRequest) (preview : ApprovalPreview) (full : string)
    : option UnifiedDiff :=
  path ← preview_path preview;
  encoded ← to_vec (arguments request);
  let arguments_hash := blake3_hex encoded in
  let base_hash := blake3_hex ("rottweiler-approval-base-v1" ++ NUL ++
    match preview_before preview with
    | Some bytes => "present" ++ NUL ++ bytes
    | None => "missing" ++ NUL
    end) in
  let diff_hash := blake3_hex full in
  let proposal := blake3_hex ("rottweiler-approval-proposal-v1" ++ NUL ++ request_id request ++
    NUL ++ tool request ++ NUL ++ path ++ NUL ++ arguments_hash ++ base_hash ++ diff_hash) in
  let truncated := (MAX_APPROVAL_DIFF_BYTES <? String.length full)%nat in
  Some (mkDiff proposal path
    (if truncated then str_take (boundary_below full MAX_APPROVAL_DIFF_BYTES) full else full)
    arguments_hash base_hash diff_hash truncated).
Definition preview_diff (request : PermissionRequest) (preview : ApprovalPreview)
    : ToolProc (option UnifiedDiff) :=
  match diff_input preview with
  | None => mret None
  | Some (before_label, after_label, before, after) =>
      full ← await (ADiff before_label after_label before after);
      mret (diff_of request preview full)
  end.

Definition current_approval_diff (t : ToolRef) (request : PermissionRequest)
    : ToolProc (Result (option UnifiedDiff) string) :=
  preview ← await (APreview t (arguments request));
  match preview with
  | Err e => mret (Err ("could not prepare approval preview: " ++ e)%string)
  | Ok None => mret (Ok None)
  | Ok (Some preview) => diff ← preview_diff request preview; mret (Ok diff)
  end.

(** [registered_execution_identity] *)
Definition IDENTITY_DOMAIN : string := "rottweiler-permission-execution-identity-v1" ++ NUL.
Definition registered_execution_identity (request : PermissionRequest)
    (semantics : ToolInvocationSemantics) : string :=
  fingerprint IDENTITY_DOMAIN (canonical_key_arguments_for request (behavior semantics)).

(** [redacted_permission_request] *)
Definition redacted_permission_request (r : PermissionRequest) : PermissionRequest :=
  mkRequest (request_id r) (invocation_id r) (tool r) (redact_json (arguments r)) (capabilities r)
    (match approval_diff r with
     | Some d => Some (mkDiff (proposal_id d) (redact (diff_path d)) (redact (unified_diff d))
                         (arguments_hash d) (base_hash d) (diff_hash d) (truncated d))
     | None => None
     end) (prompt_reason r).

(** [ChannelApprover::decide] behind the [RedactingApprover] *)
Definition ask_approver (shown : PermissionRequest) : ToolProc ApprovalDecision :=
  sent ← await (AAsk (redacted_permission_request shown));
  if negb sent then mret DenyRequest else await AAnswer.

(** [authorize_registered_in_mode]: the gate of [PermissionGate], with the
    worlds it finds before and after the prompt. *)
Definition authorize (request : PermissionRequest) (semantics : ToolInvocationSemantics)
    (hook : option HookPermissionDecision) (mode : SessionMode) : ToolProc PermissionOutcome :=
  w ← await AWorld;
  match authorize_begin w gate request hook mode (Some semantics) with
  | Decided outcome => mret outcome
  | Prompt pending =>
      answer ← ask_approver (shown pending);
      w ← await AWorld;
      random ← await ARandom;
      let '(w, outcome) := authorize_finish w gate pending answer random in
      _ ← await (AWrite w);
      mret outcome
  end.

(** [authorize_tool_call] *)
Definition authorize_tool_call (budget : PendingToolBudget) (call : PendingToolCall) (args : Value)
    (caps : list ToolCapability) (semantics : ToolInvocationSemantics) (t : ToolRef) (mode : SessionMode)
    : ToolProc (PendingToolBudget * Result AuthorizedToolBinding string) :=
  let request diff := mkRequest (call_id call) (call_invocation_id call) (call_name call) args caps diff None in
  diff ← current_approval_diff t (request None);
  match diff with
  | Err e => mret (budget, Err e)
  | Ok diff =>
      let request := request diff in
      weight ← await (AMeasureRequest request);
      match approval_payload budget weight 1 with
      | (budget, Err e) => mret (budget, Err e)
      | (budget, Ok _) =>
          let authorization := mkAuthorized (option_map diff_binding (approval_diff request))
            (registered_execution_identity request semantics) (capabilities request) in
          let displayed := redacted_permission_request request in
          weight ← await (AMeasureRequest displayed);
          match approval_payload budget weight 2 with
          | (budget, Err e) => mret (budget, Err e)
          | (budget, Ok _) =>
              _ ← match approval_diff displayed with
                  | Some diff => await (AEvent (ToolDiffReady (call_id call) (call_invocation_id call) diff))
                  | None => mret tt
                  end;
              checked ← dispatch_hook (InPermissionCheck (mkPermissionInput (request_id displayed)
                          (tool displayed) (arguments displayed) (capabilities displayed))) None;
              match checked with
              | Err e => mret (budget, Err (agent_error_text e))
              | Ok checked =>
                  _ ← report_hook_failures PermissionCheck (failures checked);
                  outcome ← authorize request semantics
                              (permission_hook_override (status checked) (permission checked)) mode;
                  mret (budget,
                    match outcome with
                    | Allowed => Ok authorization
                    | Denied => Err ("permission denied for tool `" ++ call_name call ++ "`")%string
                    | RememberedApprovalUnavailable =>
                        Err ("remembered_permission_unavailable: tool `" ++ call_name call ++
                             "` cannot safely remember this invocation; choose allow once")%string
                    end)
              end
          end
      end
  end.

(** * Preparation *)

Definition complete (budget : PendingToolBudget) (call : PendingToolCall) (message : string)
    : ToolProc (PendingToolBudget * Prepared) :=
  mret (budget, PreparedComplete (failed_execution call message)).
Definition unknown_tool (name : string) : string := ("unknown tool `" ++ name ++ "`")%string.
Definition no_background : string := "background commands cannot run with workspace-mutating hooks".
Definition no_placeholder : string := "pre_tool hook cannot execute a rewritten redacted placeholder".

(** The refusals of a resolved call: a background command with a mutation, or
    a mutation while a background activity holds the workspace. *)
Definition blocked_call (security : ResolvedToolSecurity) (args : Value) : ToolProc (option string) :=
  let background := background_control_call (security_semantics security) args in
  if background && negb (is_scope_none (security_scope security)) then mret (Some no_background)
  else
    activity ← await AActivity;
    mret (if negb (is_scope_none (security_scope security)) && negb background then activity else None).

Definition with_name (call : PendingToolCall) (name : string) : PendingToolCall :=
  mkCall (call_id call) (call_invocation_id call) name (call_arguments call) (call_index call).
Definition with_arguments (call : PendingToolCall) (args : Value) : PendingToolCall :=
  mkCall (call_id call) (call_invocation_id call) (call_name call) (Some args) (call_index call).

(** The arguments after the hooks: hooks saw the displayed arguments, so that
    an unchanged answer stands for the original ones. *)
Definition resolved_arguments (original hook_args : Value) : option Value :=
  if json_eqb hook_args (redact_json original) then Some original
  else if json_contains_redaction hook_args then None
  else Some hook_args.

(** The second half: after the pre-tool hooks. *)
Definition prepare_rewritten (budget : PendingToolBudget) (call : PendingToolCall)
    (original_name : string) (original args : Value) (authorization : AuthorizedToolBinding)
    (mode : SessionMode) : ToolProc (PendingToolBudget * Prepared) :=
  old ← match call_arguments call with
        | Some v => m ← await (AMeasure v); mret (Some m)
        | None => mret None
        end;
  next ← await (AMeasure args);
  match replace budget old next with
  | (budget, Err e) => complete budget call e
  | (budget, Ok _) =>
      let call := with_arguments call args in
      security ← resolve_tool_security (call_name call) args;
      match security with
      | None => complete budget call (unknown_tool (call_name call))
      | Some security =>
          let '(security, deferred) := widen_security_for_hooks security hooks (call_name call) in
          blocked ← blocked_call security args;
          match blocked with
          | Some message => complete budget call message
          | None =>
              reauthorized ←
                (if negb (String.eqb (call_name call) original_name) || negb (json_eqb args original)
                 then authorize_tool_call budget call args (security_capabilities security)
                        (security_semantics security) (security_tool security) mode
                 else mret (budget, Ok authorization));
              match reauthorized with
              | (budget, Err message) => complete budget call message
              | (budget, Ok authorization) =>
                  mret (budget, PreparedExecute call (security_tool security) args
                    (security_read_only security) (security_scope security)
                    (security_semantics security) authorization deferred)
              end
          end
      end
  end.

(** [prepare_tool_call] *)
Definition prepare_tool_call (budget : PendingToolBudget) (call : PendingToolCall)
    (displayed_arguments : Value) (mode : SessionMode) : ToolProc (PendingToolBudget * Prepared) :=
  _ ← await (AEvent (ToolCallStarted (call_id call) (call_invocation_id call) (call_name call)
                       displayed_arguments (call_index call)));
  match call_arguments call with
  | None => complete budget call "provider did not finish tool-call arguments"
  | Some args =>
  security ← resolve_tool_security (call_name call) args;
  match security with
  | None => complete budget call (unknown_tool (call_name call))
  | Some security =>
  let '(security, _) := widen_security_for_hooks security hooks (call_name call) in
  blocked ← blocked_call security args;
  match blocked with
  | Some message => complete budget call message
  | None =>
  authorized ← authorize_tool_call budget call args (security_capabilities security)
                 (security_semantics security) (security_tool security) mode;
  match authorized with
  | (budget, Err message) => complete budget call message
  | (budget, Ok authorization) =>
  pre_tool ← dispatch_hook (InPreTool (mkToolInput (call_id call) (call_name call) displayed_arguments))
               (Some ReadOnly);
  match pre_tool with
  | Err e =>
      mret (budget, PreparedComplete (mkExecution (match e with EffectsUnsettled _ => true | _ => false end)
                                        call (OutText (agent_error_text e)) true))
  | Ok pre_tool =>
  _ ← report_hook_failures PreTool (failures pre_tool);
  match hook_rejection (status pre_tool) with
  | Some message => complete budget call message
  | None =>
  match input pre_tool with
  | InPreTool i =>
      let original_name := call_name call in
      let call := with_name call (ti_name i) in
      match resolved_arguments args (ti_arguments i) with
      | None => complete budget call no_placeholder
      | Some next => prepare_rewritten budget call original_name args next authorization mode
      end
  | _ => complete budget call "unreachable"
  end end end end end end end.

(** * Execution *)

(** [run_deferred_mutating_pre_hook] *)
Definition run_deferred_mutating_pre_hook (call : PendingToolCall) (args : Value)
    : ToolProc (Result unit ToolError) :=
  let displayed := redact_json args in
  answered ← dispatch_hook (InPreTool (mkToolInput (call_id call) (call_name call) displayed))
               (Some WorkspaceMutating);
  match answered with
  | Err (EffectsUnsettled m) => mret (Err (ToolUnsettled m))
  | Err e => mret (Err (ToolCommand (agent_error_text e)))
  | Ok result =>
      _ ← report_hook_failures PreTool (failures result);
      match hook_rejection (status result) with
      | Some message => mret (Err (ToolCommand message))
      | None =>
          mret match input result with
               | InPreTool i =>
                   if negb (String.eqb (ti_name i) (call_name call)) ||
                      negb (json_eqb (ti_arguments i) displayed)
                   then Err (ToolCommand
                          "workspace-mutating pre_tool hooks cannot rewrite an authorized invocation")
                   else Ok tt
               | _ => Err (ToolCommand "unreachable")
               end
      end
  end.

(** [admit_execution]: an output the budget refuses is replaced. *)
Definition admit_output (e : ToolExecution) : ToolProc ToolExecution :=
  admitted ← await (AAdmitResult (call_index (exec_call e)) (output e));
  mret (if admitted : bool then e else reject e).

Definition with_output (e : ToolExecution) (o : ToolOutput) (err : bool) : ToolExecution :=
  mkExecution (unsettled e) (exec_call e) o err.

(** [apply_post_tool_hook] *)
Definition apply_post_tool_hook (e : ToolExecution) : ToolProc ToolExecution :=
  e ← admit_output (with_output e (redact_tool_output (output e)) (is_error e));
  let call := exec_call e in
  let displayed := redact_json (default JNull (call_arguments call)) in
  answered ← dispatch_hook (InPostTool (mkToolResultInput (call_id call) (call_name call) displayed
                              (output e) (is_error e))) None;
  match answered with
  | Err error =>
      mret (mkExecution (match error with EffectsUnsettled _ => true | _ => false end) call
              (OutText (agent_error_text error)) true)
  | Ok post =>
      _ ← report_hook_failures PostTool (failures post);
      match hook_rejection (status post) with
      | Some message => mret (with_output e (OutText message) true)
      | None =>
          match input post with
          | InPostTool i =>
              admitted ← await (AAdmitResult (call_index call) (tr_output i));
              mret (if admitted : bool then with_output e (tr_output i) (tr_is_error i) else reject e)
          | _ => mret e
          end
      end
  end.

Definition stale_diff : ToolError :=
  ToolCommand "approved diff is stale; no mutation ran; request a fresh approval".
Definition identity_changed : ToolError :=
  ToolCommand "approved invocation identity changed; no tool ran; request fresh approval".

(** The diff the user approved is computed again and must be the same. *)
Definition revalidate_diff (t : ToolRef) (request : PermissionRequest) (expected : option ApprovalBinding)
    : ToolProc (Result unit ToolError) :=
  match expected with
  | None => mret (Ok tt)
  | Some expected =>
      preview ← await (APreview t (arguments request));
      match preview with
      | Ok (Some preview) =>
          diff ← preview_diff request preview;
          mret (if decide (option_map diff_binding diff = Some expected) then Ok tt else Err stale_diff)
      | Ok None =>
          mret (Err (ToolCommand "approved diff can no longer be reproduced; no mutation ran"))
      | Err e =>
          mret (Err (ToolCommand ("approved diff could not be revalidated; no mutation ran: " ++ e)))
      end
  end.
Definition revalidate (t : ToolRef) (request : PermissionRequest) (semantics : ToolInvocationSemantics)
    (authorization : AuthorizedToolBinding) : ToolProc (Result unit ToolError) :=
  checked ← revalidate_diff t request (authorized_diff authorization);
  mret (let? _ := checked in
        if String.eqb (registered_execution_identity request semantics)
             (execution_identity authorization)
        then Ok tt else Err identity_changed).

(** The call itself, once nothing stands in its way. *)
Definition call_tool (t : ToolRef) (args : Value) (delegated : option (list ToolCapability * MutationScope))
    (deferred revalidation : Result unit ToolError) : ToolProc (Result ToolResult ToolError) :=
  match deferred, revalidation with
  | Err e, _ => mret (Err e)
  | Ok _, Err e => mret (Err e)
  | Ok _, Ok _ =>
      cancelled ← await AIsCancelled;
      if cancelled : bool then mret (Err ToolCancelled) else
      outcome ← await (AExecute t args delegated);
      mret match outcome with
           | ExecutionReturned r => r
           | ExecutionPanicked => Err (ToolCommand "tool implementation panicked")
           | ExecutionAbandoned => Err ToolCancelled
           end
  end.

(** The checkpoint before a mutation: [inl] refuses the call. *)
Definition begin_checkpoint (call : PendingToolCall) (scope : MutationScope) (session : option string)
    : ToolProc (ToolExecution + option (option string)) :=
  if is_scope_none scope then mret (inr None) else
  match validate_mutation_scope scope, session with
  | Some e, _ =>
      mret (inl (failed_execution call ("checkpoint scope rejected: " ++ agent_error_text e)))
  | None, None => mret (inl (failed_execution call "tool context is missing a session id"))
  | None, Some _ =>
      begun ← await (ABegin (call_id call) scope);
      match begun with
      | Ok checkpoint => mret (inr (Some checkpoint))
      | Err e =>
          let execution := failed_execution call ("checkpoint failed before tool: " ++ e) in
          settled ← await ASettleCheckpoints;
          match settled with
          | Ok _ => mret (inl execution)
          | Err proof =>
              _ ← mark_unsettled proof;
              mret (inl (mkExecution true call (output execution) true))
          end
      end
  end.

(** The end of a settled call: its checkpoint is finished. *)
Definition finish_execution (e : ToolExecution) (checkpoint : option (option string)) (tool_cancelled : bool)
    : ToolProc ToolExecution :=
  cancelled ← (if tool_cancelled then mret true else await AIsCancelled);
  let outcome := if cancelled : bool then CheckpointCancelled
                 else if is_error e then CheckpointFailed else CheckpointCompleted in
  e ← match checkpoint with
      | None => mret e
      | Some checkpoint =>
          finished ← await (AFinish checkpoint outcome);
          match finished with
          | Ok _ => mret e
          | Err error =>
              _ ← mark_unsettled error;
              mret (mkExecution true (exec_call e)
                      (OutText ("checkpoint finalization failed: " ++ error)) true)
          end
      end;
  settled ← await ASettleCheckpoints;
  match settled with
  | Ok _ => mret e
  | Err error =>
      _ ← mark_unsettled error;
      mret (mkExecution true (exec_call e) (output e) true)
  end.

(** From the tool's answer to the result. *)
Definition conclude_execution (call : PendingToolCall) (t : ToolRef) (checkpoint : option (option string))
    (result : Result ToolResult ToolError) : ToolProc (ToolExecution * bool) :=
  let unproven := match result with Err (ToolUnsettled _) => true | _ => false end in
  let tool_cancelled := match result with Err ToolCancelled => true | _ => false end in
  e ← admit_output (match result with
                    | Ok r => mkExecution false call (tool_result_output r) false
                    | Err error => mkExecution false call (OutText (tool_error_text error)) true
                    end);
  settlement ← await (ASettleTool t);
  if unproven || negb (is_ok settlement) then
    let message := match settlement with
                   | Err m => m
                   | Ok _ => "tool execution did not prove settlement"%string
                   end in
    _ ← mark_unsettled message;
    mret (mkExecution true (exec_call e) (OutText message) true, true)
  else
    cancelled ← await AIsCancelled;
    e ← (if cancelled : bool then mret e else apply_post_tool_hook e);
    e ← admit_output e;
    if unsettled e then mret (e, true) else
    e ← finish_execution e checkpoint tool_cancelled;
    mret (e, true).

(** [execute_prepared_tool]; [session] is the session id of the context. *)
Definition execute_prepared_tool (session : option string) (p : Prepared) : ToolProc (ToolExecution * bool) :=
  match p with
  | PreparedComplete execution => mret (execution, false)
  | PreparedExecute call t args _ scope semantics authorization deferred =>
      activity ← (if negb (is_scope_none scope) && negb (background_control_call semantics args)
                  then await AActivity else mret None);
      match activity with
      | Some message => mret (failed_execution call message, false)
      | None =>
          begun ← begin_checkpoint call scope session;
          match begun with
          | inl execution => mret (execution, false)
          | inr checkpoint =>
              delegates ← await (ADelegates t);
              let delegated := if delegates : bool
                               then Some (authorized_capabilities authorization, scope) else None in
              deferred_pre ← (if deferred then run_deferred_mutating_pre_hook call args else mret (Ok tt));
              let request := mkRequest (call_id call) (call_invocation_id call) (call_name call) args
                               (authorized_capabilities authorization) None None in
              revalidation ← revalidate t request semantics authorization;
              result ← call_tool t args delegated deferred_pre revalidation;
              conclude_execution call t checkpoint result
          end
      end
  end.
End calls.
