(* ===== verification/ToolCallSafety.v ===== *)
(** What preparing and executing a tool call ([ToolCalls]) guarantees: a tool
    runs only as it was approved, and a checkpoint that was begun is closed. *)
From Stdlib Require Import Ascii.
From S2P Require Import Prelude Text Ir Effects Redaction ToolBatch Estimate Assembly BashSafety ShellSplit PermissionRules PermissionIdentity PermissionGate PermissionSafety Hooks ToolAdmission ToolCalls HookDispatch.

Implicit Types t : History tool_answer.

(** The next action of a process. *)
Ltac wp_ask :=
  match goal with |- wp _ (mbind _ (await ?a)) _ _ => apply (wp_await (answer := tool_answer) _ a) end.

Lemma wp_true {A} (p : ToolProc A) t : wp anything p t (λ _ _, True).
Proof. by eapply wp_mono; [apply wp_extends|]. Qed.

(** * Reading a history *)

(** The question was asked and answered so. *)
Definition happened (a : ToolAction) (r : tool_answer a) t : Prop := mkHappened a r ∈ t.

Lemma happened_prefix a r t t' : happened a r t → t `prefix_of` t' → happened a r t'.
Proof. unfold happened. intros H [k ->]. set_solver. Qed.
Lemma happened_last a r t : happened a r (t ++ [mkHappened a r])%list.
Proof. unfold happened. set_solver. Qed.
Lemma happened_app a r t t' : happened a r t → happened a r (t ++ t')%list.
Proof. unfold happened. set_solver. Qed.
Lemma prefix_snoc t t' h : (t ++ [h])%list `prefix_of` t' → t `prefix_of` t'.
Proof. intros H. etrans; [|exact H]. by eexists. Qed.
#[local] Hint Resolve happened_last happened_prefix prefix_snoc : history.

(** The hooks' part of a history, and the handlers called in it. *)
Definition hook_of (h : Happened tool_answer) : option (Happened hook_answer) :=
  match h with
  | mkHappened a r =>
      match a return tool_answer a → option (Happened hook_answer) with
      | AHook b => λ r, Some (mkHappened b r)
      | _ => λ _, None
      end r
  end.
Definition hook_part t : History hook_answer := omap hook_of t.
Definition hook_calls t : list Call := calls (hook_part t).

Lemma hook_part_snoc t h :
  hook_part (t ++ [h])%list = (hook_part t ++ match hook_of h with Some c => [c] | None => [] end)%list.
Proof. unfold hook_part. rewrite omap_app. cbn. by destruct (hook_of h). Qed.
Lemma hook_calls_prefix t t' c : c ∈ hook_calls t → t `prefix_of` t' → c ∈ hook_calls t'.
Proof.
  intros Hc [k ->]. unfold hook_calls, hook_part, calls in *. rewrite !omap_app. set_solver.
Qed.

(** * Phases of hooks *)

Lemma interruptible_spec {A} (p : Proc hook_answer A) u0 t (post : A → History hook_answer → Prop) :
  wp anything p u0 post →
  wp anything (interruptible p) t (λ o t', ∃ u, hook_part t' = (hook_part t ++ u)%list ∧
    ∀ a, o = Some a → post a (u0 ++ u)%list).
Proof.
  revert u0 t; induction p as [a|a k IH]; intros u0 t Hwp; cbn.
  - intros [] _; exists []; rewrite hook_part_snoc, !app_nil_r; (split; [done|]); intros ? [=]; by subst.
  - intros [] _; [exists []; rewrite hook_part_snoc, app_nil_r; split; [by rewrite app_nil_r|by intros ? [=]]|].
    intros r _. eapply wp_mono; [apply (IH r (u0 ++ [mkHappened a r])%list); by apply Hwp|].
    intros o t' (u & Ht' & Ho). exists (mkHappened a r :: u).
    rewrite Ht', !hook_part_snoc. cbn. rewrite app_nil_r, <- !app_assoc. split; [done|].
    intros b Hb. specialize (Ho b Hb). by rewrite <- app_assoc in Ho.
Qed.

Lemma settle_loop_calls hs deadline failure t :
  wp anything (embed (ans2 := tool_answer) AHook (λ _ r, r) (settle_loop hs deadline failure)) t
    (λ _ t', hook_calls t' = hook_calls t).
Proof.
  revert failure t; induction hs as [|h hs IH]; intros failure t; cbn; [done|].
  intros r _. eapply wp_mono; [apply IH|]. intros _ t' ->.
  unfold hook_calls. rewrite hook_part_snoc. cbn [hook_of]. rewrite calls_snoc. cbn. by rewrite app_nil_r.
Qed.

Section calls.
Context `{SW : ShellWords} `{G : Glob} `{W : JsonWriter} `{B : Blake3} `{U : UrlParser}.
Context `{FS : FileSystem} `{X : ExecFiles} {R : SecretRedactor} {enc : HookEncoding}.
Context (gate : PermissionGate) (registered : list RegisteredHook).
Context (Hregistered : (register_all ∅ registered).2 = true).
Notation hooks := (register_all ∅ registered).1.

(** What a phase that answered looked like. *)
Lemma dispatch_hook_spec seen only t :
  wp anything (dispatch_hook hooks seen only) t (λ r t',
    ∀ res, r = Ok res → ∃ l, hook_calls t' = (hook_calls t ++ l)%list ∧
      phase_ok (hooks_of hooks (event_of seen)) only seen None res l).
Proof.
  unfold dispatch_hook.
  pose proof (dispatch_selected_spec hooks seen only (hook_part t)
                (registered_ordered registered (event_of seen) Hregistered)) as Hwp.
  eapply wp_cut; [exact (interruptible_spec _ _ t _ Hwp)|].
  intros answered t1 (u & Ht1 & Hans). cbn beta in Hans.
  eapply (wp_cut _ _ _ _ (λ _ t', hook_calls t' = hook_calls t1)).
  { unfold settle_effects. cbn [embed mbind proc_bind await]. intros now _.
    eapply wp_mono; [apply settle_loop_calls|]. intros _ t' ->.
    unfold hook_calls. rewrite hook_part_snoc. cbn [hook_of]. rewrite calls_snoc. cbn. by rewrite app_nil_r. }
  intros settled t2 Ht2. destruct settled as [?|e]; [|cbn; done].
  apply wp_ret. intros res Hres. destruct answered as [[res'|e]|]; [|by repeat case_match|done].
  simplify_eq. destruct (Hans _ eq_refl) as (l & Hl & _ & Hok). rewrite <- Ht1 in Hl.
  exists l. split; [by rewrite Ht2|done].
Qed.

(** * The gate *)

(** The gate let a request through: at once, or after the user was shown the
    redacted request and answered. *)
Definition gate_allowed t (request : PermissionRequest) (semantics : ToolInvocationSemantics)
    (hook : option HookPermissionDecision) (mode : SessionMode) : Prop :=
  ∃ w, happened AWorld w t ∧
  (authorize_begin w gate request hook mode (Some semantics) = Decided Allowed ∨
   ∃ pending answer w' random,
     authorize_begin w gate request hook mode (Some semantics) = Prompt pending ∧
     happened (AAsk (redacted_permission_request (shown pending))) true t ∧
     happened AAnswer answer t ∧ happened AWorld w' t ∧
     (authorize_finish w' gate pending answer random).2 = Allowed).

Lemma gate_allowed_prefix t t' request semantics hook mode :
  gate_allowed t request semantics hook mode → t `prefix_of` t' →
  gate_allowed t' request semantics hook mode.
Proof.
  intros (w & Hw & Hcase) Hp. exists w. split; [by eapply happened_prefix|].
  destruct Hcase as [|(pending & answer & w' & random & ? & ? & ? & ? & ?)]; [by left|].
  right. exists pending, answer, w', random. eauto 10 using happened_prefix.
Qed.

Lemma authorize_spec request semantics hook mode t :
  wp anything (authorize gate request semantics hook mode) t
    (λ outcome t', outcome = Allowed → gate_allowed t' request semantics hook mode).
Proof.
  unfold authorize. wp_ask. intros w _.
  destruct (authorize_begin w gate request hook mode (Some semantics)) as [outcome|pending] eqn:Eb.
  { apply wp_ret. intros ->. exists w. split; [apply happened_last|by left]. }
  eapply wp_cut.
  { unfold ask_approver. wp_ask. intros sent _.
    instantiate (1 := λ answer t', answer = DenyRequest ∨
      (t ++ [mkHappened AWorld w])%list `prefix_of` t' ∧
      happened (AAsk (redacted_permission_request (shown pending))) true t' ∧ happened AAnswer answer t').
    destruct sent; cbn [negb]; [|by left].
    cbn. intros answer _. right. rewrite <- app_assoc. unfold happened. split; [by eexists|]. set_solver. }
  intros answer t1 Hans. wp_ask. intros w' _. wp_ask. intros random _.
  destruct (authorize_finish w' gate pending answer random) as [w'' outcome] eqn:Ef.
  wp_ask. intros [] _. apply wp_ret. intros ->.
  destruct Hans as [->|(Hpre & Hask & Hans)]; [by cbn in Ef; simplify_eq|].
  exists w. split.
  { eapply happened_prefix; [apply happened_last|]. etrans; [exact Hpre|]. rewrite <- !app_assoc. by eexists. }
  right. exists pending, answer, w', random. rewrite Ef. unfold happened in *. repeat split; try done; set_solver.
Qed.

(** A denial by the hooks is final. *)
Lemma hook_deny_denied w request mode semantics :
  authorize_begin w gate request (Some HookDeny) mode semantics = Decided Denied.
Proof.
  unfold authorize_begin, refused_outright.
  rewrite (bool_decide_eq_true_2 (Some HookDeny = Some HookDeny)) by done. by rewrite orb_true_r.
Qed.
Lemma gate_allowed_not_denied t request semantics hook mode :
  gate_allowed t request semantics hook mode → hook ≠ Some HookDeny.
Proof. intros (w & _ & [H|(? & ? & ? & ? & H & _)]) ->; by rewrite hook_deny_denied in H. Qed.

(** * Approval *)

Definition call_request (call : PendingToolCall) (args : Value) (caps : list ToolCapability)
    (diff : option UnifiedDiff) : PermissionRequest :=
  mkRequest (call_id call) (call_invocation_id call) (call_name call) args caps diff None.

(** The binding that goes with an approval: the gate allowed the request, and
    every permission hook for the tool was shown its redacted form and agreed. *)
Definition approved t (call : PendingToolCall) (args : Value) (semantics : ToolInvocationSemantics)
    (mode : SessionMode) (auth : AuthorizedToolBinding) : Prop :=
  ∃ diff hook,
    let request := call_request call args (authorized_capabilities auth) diff in
    authorized_diff auth = option_map diff_binding diff ∧
    execution_identity auth = registered_execution_identity request semantics ∧
    gate_allowed t request semantics hook mode ∧ hook ≠ Some HookDeny ∧
    ∀ h, h ∈ hooks_of hooks PermissionCheck → applies_to_tool (registration h) (call_name call) = true →
      ∃ d, (id_of h, InPermissionCheck (mkPermissionInput (call_id call) (call_name call) (redact_json args)
                       (authorized_capabilities auth)), Returned (Ok d)) ∈ hook_calls t ∧
           consents d hook.

Lemma approved_prefix t t' call args semantics mode auth :
  approved t call args semantics mode auth → t `prefix_of` t' → approved t' call args semantics mode auth.
Proof.
  intros (diff & hook & Hd & Hi & Hg & Hh & Hc) Hp. exists diff, hook.
  split; [done|]. split; [done|]. split; [by eapply gate_allowed_prefix|]. split; [done|].
  intros h Hin Happ. destruct (Hc h Hin Happ) as (d & Hcall & Hcons). exists d.
  split; [by eapply hook_calls_prefix|done].
Qed.

Lemma registered_in e h :
  h ∈ hooks_of hooks e → hook_event (registration h) = e ∧ valid_class (registration h) = true.
Proof.
  pose proof (register_all_inv registered ∅ [] holds_hooks_empty registrable_empty Hregistered) as Hl.
  destruct (register_all_ok registered ∅ [] holds_hooks_empty Hl) as [_ Hd]. cbn [app] in *.
  rewrite (holds_hooks_of _ _ e Hd), (stable_sort_perm hook_le). intros Hh.
  apply list_elem_of_In in Hh. apply filter_In in Hh as [Hin He].
  split; [by apply bool_decide_eq_true in He|].
  destruct Hl as [Hacc _]. rewrite Forall_forall in Hacc. apply list_elem_of_In in Hin.
  specialize (Hacc h Hin). cbn beta in Hacc. unfold acceptable in Hacc.
  apply andb_true_iff in Hacc as [Hacc _]. by apply andb_true_iff in Hacc as [_ ?].
Qed.

(** Only policies can be registered for permission checks. *)
Lemma permission_hooks_policies : Forall (λ h, class_of h = PolicyClass) (hooks_of hooks PermissionCheck).
Proof.
  apply Forall_forall. intros h Hh. destruct (registered_in _ _ Hh) as [He Hv].
  unfold valid_class, class_of in *. rewrite He in Hv. by destruct (class (registration h)).
Qed.

Lemma report_failures_calls e l t :
  wp anything (report_hook_failures e l) t (λ _ t', hook_calls t' = hook_calls t).
Proof.
  revert t; induction l as [|f l IH]; intros t; [done|]. cbn [report_hook_failures].
  wp_ask. intros r _. eapply wp_mono; [apply IH|]. intros _ t' ->.
  unfold hook_calls. rewrite hook_part_snoc. cbn. by rewrite app_nil_r.
Qed.

Lemma authorize_tool_call_spec budget call args caps semantics tref mode t :
  wp anything (authorize_tool_call gate hooks budget call args caps semantics tref mode) t
    (λ r t', ∀ auth, r.2 = Ok auth →
       authorized_capabilities auth = caps ∧ approved t' call args semantics mode auth).
Proof.
  unfold authorize_tool_call. eapply (wp_cut _ _ _ _ (λ _ _, True)); [by eapply wp_mono; [apply wp_extends|]|].
  intros [diff|e] t1 _; [|by apply wp_ret].
  fold (call_request call args caps diff). set (request := call_request call args caps diff).
  wp_ask. intros weight _. destruct (approval_payload budget weight 1) as [b1 [[]|]]; [|by apply wp_ret].
  wp_ask. intros weight2 _. destruct (approval_payload b1 weight2 2) as [b2 [[]|]]; [|by apply wp_ret].
  eapply (wp_cut _ _ _ _ (λ _ _, True)); [by eapply wp_mono; [apply wp_extends|]|]. intros _ t2 _.
  eapply wp_cut; [apply dispatch_hook_spec|]. intros checked t3 Hchecked.
  destruct checked as [res|e]; [|by apply wp_ret].
  destruct (Hchecked res eq_refl) as (l & Hl & Hok). clear Hchecked.
  eapply wp_cut; [apply wp_conj; [apply report_failures_calls|apply wp_extends]|].
  intros _ t4 [Ht4 Hp4]. eapply wp_cut; [apply wp_conj; [apply authorize_spec|apply wp_extends]|].
  intros outcome t5 [Hout Hp5]. apply wp_ret. intros auth. cbn [snd]. destruct outcome; [|done|done].
  intros [= <-]. specialize (Hout eq_refl). split; [done|]. exists diff.
  exists (permission_hook_override (status res) (permission res)). cbn [authorized_capabilities authorized_diff execution_identity].
  split; [done|]. split; [done|]. split; [exact Hout|]. split; [by eapply gate_allowed_not_denied|].
  apply gate_allowed_not_denied in Hout. destruct (status res) eqn:Es; [|done|done].
  intros h Hh Happ. destruct Hok as [_ Hu _ _ Hc]. specialize (Hu permission_hooks_policies).
  pose proof permission_hooks_policies as Hpol. rewrite Forall_forall in Hpol.
  destruct (Hc h Es Hh (Hpol h Hh)) as (d & Hd & Hcons).
  { rewrite Hu. unfold selected. cbn. exact Happ. }
  exists d. split; [|done]. eapply hook_calls_prefix; [|exact Hp5]. rewrite Ht4, Hl.
  rewrite Hu in Hd. apply elem_of_app; right; exact Hd.
Qed.

(** * Capabilities *)

Lemma push_new_sub l c : l ⊆ push_new l c.
Proof. unfold push_new. case_decide; set_solver. Qed.
Lemma push_new_in l c : c ∈ push_new l c.
Proof. unfold push_new. case_decide; set_solver. Qed.
Lemma foldl_push_new l cs : l ⊆ foldl push_new l cs ∧ cs ⊆ foldl push_new l cs.
Proof.
  revert l; induction cs as [|c cs IH]; intros l; cbn; [set_solver|].
  destruct (IH (push_new l c)) as [H1 H2]. pose proof (push_new_sub l c). pose proof (push_new_in l c). set_solver.
Qed.

Definition resolved t (name : string) (args : Value) (s : ResolvedToolSecurity) : Prop :=
  happened (AResolve name) (Some (security_tool s)) t ∧
  happened (ASemantics name args) (Some (security_semantics s)) t ∧
  security_scope s = mutation_scope (security_semantics s) ∧
  ∃ own, happened (ACapabilities (security_tool s) args) (Some own) t ∧ own ⊆ security_capabilities s ∧
    (security_scope s ≠ ScopeNone → WriteFilesystem ∈ security_capabilities s).

Lemma resolve_spec name args t :
  wp anything (resolve_tool_security name args) t (λ r t', ∀ s, r = Some s → resolved t' name args s).
Proof.
  unfold resolve_tool_security. wp_ask.
  intros [tref|] _; [|by apply wp_ret].
  wp_ask. intros [semantics|] _; [|by apply wp_ret].
  wp_ask. intros [own|] _; [|by apply wp_ret].
  wp_ask. intros read_only _. apply wp_ret. intros s [= <-]. unfold resolved, happened.
  cbn [security_tool security_semantics security_scope security_capabilities].
  split; [set_solver|]. split; [set_solver|]. split; [done|]. exists own. split; [set_solver|].
  destruct (mutation_scope semantics); cbn [is_scope_none]; [done| |]; unfold add_capability;
    pose proof (push_new_sub own WriteFilesystem); pose proof (push_new_in own WriteFilesystem); done.
Qed.

(** The capabilities a call is authorized with: those of the tool for these
    arguments, writing for every mutation, and what the hooks around it use. *)
Definition covers t (name : string) (args : Value) (semantics : ToolInvocationSemantics)
    (caps : list ToolCapability) : Prop :=
  (∃ tref own, happened (AResolve name) (Some tref) t ∧ happened (ASemantics name args) (Some semantics) t ∧
     happened (ACapabilities tref args) (Some own) t ∧ own ⊆ caps) ∧
  (mutation_scope semantics ≠ ScopeNone → WriteFilesystem ∈ caps) ∧
  (∀ e, e = PreTool ∨ e = PostTool →
     required_tool_capabilities hooks e name ⊆ caps ∧
     (has_workspace_mutating_tool_hook hooks e name = true → WriteFilesystem ∈ caps)).

Lemma covers_prefix t t' name args semantics caps :
  covers t name args semantics caps → t `prefix_of` t' → covers t' name args semantics caps.
Proof.
  intros ((tref & own & H1 & H2 & H3 & H4) & Hw & He) Hp. split; [|done].
  exists tref, own. eauto 10 using happened_prefix.
Qed.

Lemma widen_spec t name args s :
  resolved t name args s →
  let '(s', deferred) := widen_security_for_hooks s hooks name in
  covers t name args (security_semantics s) (security_capabilities s') ∧
  security_semantics s' = security_semantics s ∧ security_tool s' = security_tool s ∧
  deferred = has_workspace_mutating_tool_hook hooks PreTool name ∧
  (security_scope s' = ScopeNone → mutation_scope (security_semantics s) = ScopeNone ∧
     ∀ e, e = PreTool ∨ e = PostTool → has_workspace_mutating_tool_hook hooks e name = false).
Proof.
  intros (Hr & Hs & Hscope & own & Ho & Hsub & Hw). rewrite Hscope in Hw.
  unfold widen_security_for_hooks, add_capability.
  set (pre := required_tool_capabilities hooks PreTool name).
  set (post := required_tool_capabilities hooks PostTool name).
  destruct (foldl_push_new (security_capabilities s) pre) as [Ha Hb].
  destruct (foldl_push_new (foldl push_new (security_capabilities s) pre) post) as [Hc Hd].
  set (caps := foldl push_new (foldl push_new (security_capabilities s) pre) post) in *.
  assert (∀ caps', caps ⊆ caps' →
    (has_workspace_mutating_tool_hook hooks PreTool name || has_workspace_mutating_tool_hook hooks PostTool name = true →
       WriteFilesystem ∈ caps') → covers t name args (security_semantics s) caps') as Hcov.
  { intros caps' Hcc Hm. split; [|split].
    - exists (security_tool s), own. repeat split; try done. set_solver.
    - intros Hne. specialize (Hw Hne). set_solver.
    - intros e [->| ->]; (split; [set_solver|]); intros Hmut; apply Hm; rewrite Hmut; by rewrite ?orb_true_r. }
  destruct (_ || _) eqn:Em; cbn [security_semantics security_tool security_scope security_capabilities].
  - pose proof (push_new_sub caps WriteFilesystem). pose proof (push_new_in caps WriteFilesystem).
    split; [by apply Hcov|]. by repeat split.
  - split; [by apply Hcov|]. repeat split; try done; [congruence|].
    apply orb_false_iff in Em as [? ?]. by intros e [->| ->].
Qed.

(** * Preparation *)

Definition same_json (v w : Value) : Prop := v = w ∨ json_eqb v w = true.

(** A prepared execution is bound to an approval of the same invocation. *)
Definition prepared_ok t (call0 : PendingToolCall) (mode : SessionMode) (p : Prepared) : Prop :=
  match p with
  | PreparedComplete e => is_error e = true
  | PreparedExecute call tref args _ scope semantics auth deferred =>
      call_id call = call_id call0 ∧ call_invocation_id call = call_invocation_id call0 ∧
      call_index call = call_index call0 ∧ call_arguments call = Some args ∧
      (call_arguments call0 = Some args ∨ json_contains_redaction args = false) ∧
      deferred = has_workspace_mutating_tool_hook hooks PreTool (call_name call) ∧
      happened (AResolve (call_name call)) (Some tref) t ∧
      happened (ASemantics (call_name call) args) (Some semantics) t ∧
      (scope = ScopeNone → mutation_scope semantics = ScopeNone ∧ deferred = false) ∧
      ∃ args0 semantics0, same_json args args0 ∧
        approved t call args0 semantics0 mode auth ∧
        covers t (call_name call) args0 semantics0 (authorized_capabilities auth)
  end.

Lemma resolved_arguments_spec original hook_args args :
  resolved_arguments original hook_args = Some args →
  args = original ∨ json_contains_redaction args = false.
Proof.
  unfold resolved_arguments. destruct (json_eqb _ _); [intros [= ->]; by left|].
  destruct (json_contains_redaction hook_args) eqn:E; [done|]. intros [= ->]. by right.
Qed.

Lemma prepare_rewritten_spec budget call0 call original args auth semantics0 mode t :
  call_id call = call_id call0 → call_invocation_id call = call_invocation_id call0 →
  call_index call = call_index call0 → call_arguments call0 = Some original →
  (args = original ∨ json_contains_redaction args = false) →
  approved t call0 original semantics0 mode auth →
  covers t (call_name call0) original semantics0 (authorized_capabilities auth) →
  wp anything (prepare_rewritten gate hooks budget call (call_name call0) original args auth mode) t
    (λ r t', prepared_ok t' call0 mode r.2).
Proof.
  intros Hid Hinv Hidx Harg0 Hred Happ Hcov. apply wp_with_extends. unfold prepare_rewritten.
  eapply wp_cut; [apply wp_true|]. intros old t1 _. wp_ask. intros next _.
  destruct (replace budget old next) as [b [[]|]]; [|by apply wp_ret].
  cbn [call_name with_arguments].
  eapply wp_cut; [apply resolve_spec|]. intros [s|] t2 Hres; [|by apply wp_ret].
  specialize (Hres s eq_refl). pose proof (widen_spec t2 (call_name call) args s Hres) as Hwiden.
  destruct (widen_security_for_hooks s hooks (call_name call)) as [s' deferred].
  destruct Hwiden as (Hc & Hsem & Htool & Hdef & Hscope).
  eapply wp_cut; [apply wp_extends|]. intros [message|] t3 Ht3; [by apply wp_ret|].
  destruct Hres as (Hr2 & Hs2 & _).
  eapply wp_cut.
  { instantiate (1 := λ r t', t3 `prefix_of` t' ∧ ∀ auth', r.2 = Ok auth' → t `prefix_of` t' →
      ∃ args0 semantics1, same_json args args0 ∧ approved t' call args0 semantics1 mode auth' ∧
        covers t' (call_name call) args0 semantics1 (authorized_capabilities auth')).
    apply wp_conj; [destruct (_ || _); apply wp_extends|].
    destruct (negb _ || negb _) eqn:Echanged.
    - eapply wp_mono; [apply wp_with_extends; eapply wp_mono; [apply authorize_tool_call_spec|]|].
      { intros r t' Hr Hp. exact (conj Hr Hp). }
      cbn beta. intros r t' [Hr Hp] auth' Hok _. destruct (Hr auth' Hok) as [Hcaps Happ'].
      exists args, (security_semantics s'). split; [by left|]. split; [exact Happ'|].
      rewrite Hcaps, Hsem. eapply covers_prefix; [exact Hc|]. by etrans.
    - apply orb_false_iff in Echanged as [En%negb_false_iff%String.eqb_eq Ea%negb_false_iff].
      apply wp_ret. intros auth' [= <-] Hp. exists original, semantics0.
      split; [by right|]. rewrite En. split.
      + destruct (approved_prefix _ _ _ _ _ _ _ Happ Hp) as (diff & hook & H1 & H2 & H3 & H4 & H5).
        exists diff, hook. unfold call_request in *. rewrite Hid, Hinv, En. done.
      + by eapply covers_prefix. }
  intros [b' [auth'|message]] t4 [Hp4 Hauth]; [|by apply wp_ret].
  apply wp_ret. intros Hp. cbn [snd prepared_ok call_id call_invocation_id call_index call_arguments call_name with_arguments].
  split; [exact Hid|]. split; [exact Hinv|]. split; [exact Hidx|]. split; [done|].
  split; [destruct Hred as [->|?]; [by left|by right]|]. split; [exact Hdef|].
  split; [rewrite Htool; eapply happened_prefix; [exact Hr2|by etrans]|].
  split; [rewrite Hsem; eapply happened_prefix; [exact Hs2|by etrans]|].
  split; [|exact (Hauth auth' eq_refl Hp)].
  intros Hnone. destruct (Hscope Hnone) as [? Hno]. rewrite Hsem. split; [done|].
  rewrite Hdef. apply Hno. by left.
Qed.

Lemma prepare_tool_call_spec budget call displayed mode t :
  wp anything (prepare_tool_call gate hooks budget call displayed mode) t
    (λ r t', prepared_ok t' call mode r.2).
Proof.
  unfold prepare_tool_call. wp_ask. intros [] _.
  destruct (call_arguments call) as [args|] eqn:Eargs; [|by apply wp_ret].
  eapply wp_cut; [apply resolve_spec|]. intros [s|] t2 Hres; [|by apply wp_ret].
  specialize (Hres s eq_refl). pose proof (widen_spec t2 (call_name call) args s Hres) as Hwiden.
  destruct (widen_security_for_hooks s hooks (call_name call)) as [s' deferred].
  destruct Hwiden as (Hc & Hsem & _).
  eapply wp_cut; [apply wp_extends|]. intros [message|] t3 Ht3; [by apply wp_ret|].
  eapply wp_cut; [apply wp_conj; [apply authorize_tool_call_spec|apply wp_extends]|].
  intros [b1 [auth|message]] t4 [Hauth Hp4]; [|by apply wp_ret].
  destruct (Hauth auth eq_refl) as [Hcaps Happ].
  eapply wp_cut; [apply wp_extends|]. intros [res|e] t5 Hp5; [|by apply wp_ret].
  eapply wp_cut; [apply wp_extends|]. intros [] t6 Hp6.
  destruct (hook_rejection (status res)); [by apply wp_ret|].
  destruct (input res) as [| | |i| | | |]; try (by apply wp_ret).
  destruct (resolved_arguments args (ti_arguments i)) as [next|] eqn:Enext; [|by apply wp_ret].
  assert (t4 `prefix_of` t6) as Hp46 by (by etrans).
  apply (prepare_rewritten_spec _ _ _ _ _ _ (security_semantics s')); try done.
  - by eapply resolved_arguments_spec.
  - by eapply approved_prefix.
  - rewrite Hcaps, Hsem. eapply covers_prefix; [exact Hc|]. by do 2 (etrans; [eassumption|]).
Qed.

(** * Execution *)

(** The runs of tools in a history. *)
Definition execution_of (h : Happened tool_answer)
    : option (ToolRef * Value * option (list ToolCapability * MutationScope)) :=
  match asked h with AExecute tref args delegated => Some (tref, args, delegated) | _ => None end.
Definition executions t := omap execution_of t.
Lemma executions_app t t' : executions (t ++ t')%list = (executions t ++ executions t')%list.
Proof. apply omap_app. Qed.

(** The checkpoints that were begun. *)
Definition begun_of (h : Happened tool_answer) : option (option string) :=
  match h with
  | mkHappened a r =>
      match a return tool_answer a → option (option string) with
      | ABegin _ _ => λ r, match r with Ok c => Some c | Err _ => None end
      | _ => λ _, None
      end r
  end.
Definition begun t : list (option string) := omap begun_of t.
Lemma begun_app t t' : begun (t ++ t')%list = (begun t ++ begun t')%list.
Proof. apply omap_app. Qed.

(** A view of histories that only sees these two kinds of actions. *)
Definition is_milestone (a : ToolAction) : bool :=
  match a with AExecute _ _ _ | ABegin _ _ => true | _ => false end.
Class Milestones {V} (f : Happened tool_answer → option V) : Prop :=
  no_milestone a r : is_milestone a = false → f (mkHappened a r) = None.
#[global] Instance execution_milestones : Milestones execution_of.
Proof. intros a r. by destruct a. Qed.
#[global] Instance begun_milestones : Milestones begun_of.
Proof. intros a r. by destruct a. Qed.

(** A process in which the view sees nothing. *)
Definition quiet {V A} (f : Happened tool_answer → option V) (p : ToolProc A) : Prop :=
  ∀ t, wp anything p t (λ _ t', omap f t' = omap f t).

Section quiet.
Context {V : Type} (f : Happened tool_answer → option V) {HM : Milestones f}.

Lemma quiet_ret {A} (a : A) : quiet f (mret a).
Proof. by intros t. Qed.
Lemma quiet_await_at a : (∀ r, f (mkHappened a r) = None) → quiet f (await a).
Proof. intros Ha t. cbn. intros r _. rewrite omap_app. cbn. by rewrite Ha, app_nil_r. Qed.
Lemma quiet_await a : is_milestone a = false → quiet f (await a).
Proof. intros Ha. apply quiet_await_at. intros r. by apply no_milestone. Qed.
Lemma quiet_bind {A C} (p : ToolProc A) (g : A → ToolProc C) :
  quiet f p → (∀ a, quiet f (g a)) → quiet f (p ≫= g).
Proof.
  intros Hp Hg t. eapply wp_cut; [apply Hp|]. cbn beta. intros a t' Ht'. eapply wp_mono; [apply Hg|].
  cbn beta. congruence.
Qed.
Lemma quiet_interruptible {A} (p : Proc hook_answer A) : quiet f (interruptible p).
Proof.
  induction p as [a|a k IH]; intros t; cbn.
  - intros [] _; cbn; rewrite omap_app; cbn; by rewrite no_milestone, app_nil_r.
  - intros [] _; cbn; [rewrite omap_app; cbn; by rewrite no_milestone, app_nil_r|].
    intros r _. eapply wp_mono; [apply IH|]. intros _ t' ->. rewrite !omap_app. cbn.
    by rewrite !no_milestone, !app_nil_r.
Qed.
Lemma quiet_embed {A} (p : Proc hook_answer A) :
  quiet f (embed (ans2 := tool_answer) AHook (λ _ r, r) p).
Proof.
  induction p as [a|a k IH]; intros t; cbn; [done|]. intros r _.
  eapply wp_mono; [apply IH|]. intros _ t' ->. rewrite omap_app. cbn. by rewrite no_milestone, app_nil_r.
Qed.

End quiet.

Create HintDb quiet.
(** Every process but the call itself, by its structure. *)
Ltac quiet :=
  repeat match goal with
  | |- quiet _ (mret _) => apply quiet_ret
  | |- quiet _ (await ?a) => apply (quiet_await _ a); [done]
  | |- quiet _ (_ ≫= _) => apply quiet_bind; [|intros ?]
  | |- quiet _ (interruptible _) => apply quiet_interruptible
  | |- quiet _ (embed _ _ _) => apply quiet_embed
  | |- quiet _ (match ?x with _ => _ end) => destruct x
  end; eauto with quiet.

Section processes.
Context {V : Type} (f : Happened tool_answer → option V) {HM : Milestones f}.

Lemma quiet_report e l : quiet f (report_hook_failures e l).
Proof. induction l; cbn [report_hook_failures]; quiet. Qed.
#[local] Hint Resolve quiet_report : quiet.
Lemma quiet_unsettled m : quiet f (mark_unsettled m).
Proof. unfold mark_unsettled. quiet. Qed.
#[local] Hint Resolve quiet_unsettled : quiet.
Lemma quiet_dispatch seen only : quiet f (dispatch_hook hooks seen only).
Proof. unfold dispatch_hook. quiet. Qed.
#[local] Hint Resolve quiet_dispatch : quiet.
Lemma quiet_diff request preview : quiet f (preview_diff request preview).
Proof. unfold preview_diff. quiet. Qed.
#[local] Hint Resolve quiet_diff : quiet.
Lemma quiet_revalidate tref request semantics auth : quiet f (revalidate tref request semantics auth).
Proof. unfold revalidate, revalidate_diff. quiet. Qed.
Lemma quiet_admit e : quiet f (admit_output e).
Proof. unfold admit_output. quiet. Qed.
#[local] Hint Resolve quiet_revalidate quiet_admit : quiet.
Lemma quiet_post e : quiet f (apply_post_tool_hook hooks e).
Proof. unfold apply_post_tool_hook. quiet. Qed.
Lemma quiet_finish e checkpoint c : quiet f (finish_execution e checkpoint c).
Proof. unfold finish_execution. quiet. Qed.
#[local] Hint Resolve quiet_post quiet_finish : quiet.
Lemma quiet_conclude call tref checkpoint result :
  quiet f (conclude_execution hooks call tref checkpoint result).
Proof. unfold conclude_execution. quiet. Qed.
Lemma quiet_deferred call args : quiet f (run_deferred_mutating_pre_hook hooks call args).
Proof. unfold run_deferred_mutating_pre_hook. quiet. Qed.
Lemma quiet_authorize request semantics hook mode : quiet f (authorize gate request semantics hook mode).
Proof. unfold authorize, ask_approver. quiet. Qed.
#[local] Hint Resolve quiet_conclude quiet_deferred quiet_authorize : quiet.
Lemma quiet_authorize_call budget call args caps semantics tref mode :
  quiet f (authorize_tool_call gate hooks budget call args caps semantics tref mode).
Proof. unfold authorize_tool_call, current_approval_diff. quiet. Qed.
Lemma quiet_resolve name args : quiet f (resolve_tool_security name args).
Proof. unfold resolve_tool_security. quiet. Qed.
Lemma quiet_blocked s args : quiet f (blocked_call s args).
Proof. unfold blocked_call. quiet. Qed.
#[local] Hint Resolve quiet_authorize_call quiet_resolve quiet_blocked : quiet.
Lemma quiet_prepare budget call displayed mode :
  quiet f (prepare_tool_call gate hooks budget call displayed mode).
Proof. unfold prepare_tool_call, complete, prepare_rewritten, complete. quiet. Qed.

Lemma quiet_activity (c : bool) : quiet f (if c then await AActivity else mret None).
Proof. quiet. Qed.
End processes.

Lemma quiet_executions {A} (p : ToolProc A) t :
  quiet execution_of p → wp anything p t (λ _ t', executions t' = executions t).
Proof. intros H. apply H. Qed.
Lemma quiet_begun {A} (p : ToolProc A) t :
  quiet begun_of p → wp anything p t (λ _ t', begun t' = begun t).
Proof. intros H. apply H. Qed.

Lemma begin_runs_no_tool call scope session : quiet execution_of (begin_checkpoint call scope session).
Proof.
  unfold begin_checkpoint, mark_unsettled. quiet.
  by apply (quiet_await_at execution_of (ABegin (call_id call) scope)).
Qed.
Lemma call_begins_nothing tref args delegated deferred revalidation :
  quiet begun_of (call_tool tref args delegated deferred revalidation).
Proof. unfold call_tool. quiet. by apply (quiet_await_at begun_of (AExecute tref args delegated)). Qed.

(** The diff that was approved was computed again, with the same result. *)
Definition diff_confirmed t (tref : ToolRef) (request : PermissionRequest) (expected : option ApprovalBinding)
    : Prop :=
  ∀ b, expected = Some b →
    ∃ preview before_label after_label before after full,
      happened (APreview tref (arguments request)) (Ok (Some preview)) t ∧
      diff_input preview = Some (before_label, after_label, before, after) ∧
      happened (ADiff before_label after_label before after) full t ∧
      option_map diff_binding (diff_of request preview full) = Some b.

Lemma diff_confirmed_prefix t t' tref request expected :
  diff_confirmed t tref request expected → t `prefix_of` t' → diff_confirmed t' tref request expected.
Proof.
  intros H Hp b Hb. destruct (H b Hb) as (pv & bl & al & bf & af & full & H1 & H2 & H3 & H4).
  exists pv, bl, al, bf, af, full. eauto 10 using happened_prefix.
Qed.

(** What holds when a tool is started. *)
Record may_run t (call : PendingToolCall) (tref : ToolRef) (args : Value) (scope : MutationScope)
    (semantics : ToolInvocationSemantics) (auth : AuthorizedToolBinding) (deferred : bool) : Prop := {
  run_checkpoint : scope ≠ ScopeNone →
    ∃ checkpoint, happened (ABegin (call_id call) scope) (Ok checkpoint) t;
  run_identity : execution_identity auth =
    registered_execution_identity (call_request call args (authorized_capabilities auth) None) semantics;
  run_diff : diff_confirmed t tref (call_request call args (authorized_capabilities auth) None)
    (authorized_diff auth);
  run_not_cancelled : happened AIsCancelled false t;
  run_deferred : deferred = true →
    ∃ i, ti_name i = call_name call ∧ same_json (ti_arguments i) (redact_json args) ∧
      ∀ h, h ∈ hooks_of hooks PreTool → class_of h = PolicyClass →
        selected h (InPreTool i) (Some WorkspaceMutating) = true →
        ∃ d p, (id_of h, InPreTool i, Returned (Ok d)) ∈ hook_calls t ∧ consents d p;
}.

Lemma begin_spec call scope session t :
  wp anything (begin_checkpoint call scope session) t (λ r t', ∀ checkpoint, r = inr checkpoint →
    match checkpoint with
    | Some c => scope ≠ ScopeNone ∧ happened (ABegin (call_id call) scope) (Ok c) t'
    | None => scope = ScopeNone
    end).
Proof.
  unfold begin_checkpoint. destruct (is_scope_none scope) eqn:Es.
  { apply wp_ret. intros ? [= <-]. by destruct scope. }
  destruct (validate_mutation_scope scope); [by apply wp_ret|]. destruct session; [|by apply wp_ret].
  wp_ask. intros [c|e] _.
  - apply wp_ret. intros ? [= <-]. split; [by intros ->|apply happened_last].
  - wp_ask. intros [[]|proof] _; [by apply wp_ret|].
    eapply wp_cut; [apply wp_true|]. intros [] t' _. by apply wp_ret.
Qed.

Lemma deferred_spec call args t :
  wp anything (run_deferred_mutating_pre_hook hooks call args) t (λ r t', r = Ok tt →
    ∃ i, ti_name i = call_name call ∧ same_json (ti_arguments i) (redact_json args) ∧
      ∀ h, h ∈ hooks_of hooks PreTool → class_of h = PolicyClass →
        selected h (InPreTool i) (Some WorkspaceMutating) = true →
        ∃ d p, (id_of h, InPreTool i, Returned (Ok d)) ∈ hook_calls t' ∧ consents d p).
Proof.
  unfold run_deferred_mutating_pre_hook. eapply wp_cut; [apply dispatch_hook_spec|].
  intros [res|e] t1 Hres; [|by destruct e; apply wp_ret].
  destruct (Hres res eq_refl) as (l & Hl & [_ _ _ _ Hc]).
  eapply wp_cut; [apply report_failures_calls|]. intros [] t2 Ht2.
  destruct (hook_rejection (status res)) eqn:Ej; [by apply wp_ret|]. apply wp_ret.
  destruct (input res) as [| | |i| | | |] eqn:Ei; try done.
  destruct (negb _ || negb _) eqn:Es; [done|]. intros _.
  apply orb_false_iff in Es as [En%negb_false_iff%String.eqb_eq Ea%negb_false_iff].
  exists i. split; [done|]. split; [by right|]. intros h Hh Hcl Hsel.
  assert (status res = Completed) as Hst by (by destruct (status res)).
  destruct (Hc h Hst Hh Hcl Hsel) as (d & Hd & Hcons).
  exists d, (permission res). split; [|done]. rewrite Ht2, Hl. set_solver.
Qed.

Lemma revalidate_diff_spec tref request expected t :
  wp anything (revalidate_diff tref request expected) t
    (λ r t', r = Ok tt → diff_confirmed t' tref request expected).
Proof.
  unfold revalidate_diff. destruct expected as [b|]; [|by apply wp_ret].
  wp_ask. intros [[preview|]|e] _; [|by apply wp_ret|by apply wp_ret].
  unfold preview_diff. destruct (diff_input preview) as [[[[bl al] before] after]|] eqn:Ed.
  - apply wp_bind. wp_ask. intros full _. apply wp_ret, wp_ret. case_decide as Hd; [|done].
    intros _ b' [= <-]. exists preview, bl, al, before, after, full. unfold happened.
    split; [set_solver|]. split; [done|]. split; [set_solver|done].
  - apply wp_bind, wp_ret, wp_ret. by case_decide.
Qed.

Lemma revalidate_spec tref request semantics auth t :
  wp anything (revalidate tref request semantics auth) t (λ r t', r = Ok tt →
    execution_identity auth = registered_execution_identity request semantics ∧
    diff_confirmed t' tref request (authorized_diff auth)).
Proof.
  unfold revalidate. eapply wp_cut; [apply revalidate_diff_spec|]. intros [[]|] t' Hr; [|by apply wp_ret].
  apply wp_ret.
  destruct (String.eqb_spec (registered_execution_identity request semantics) (execution_identity auth)); [|done].
  intros _. by split; [|apply Hr].
Qed.

Lemma call_tool_spec tref args delegated deferred revalidation t :
  wp anything (call_tool tref args delegated deferred revalidation) t (λ _ t',
    executions t' = executions t ∧ t `prefix_of` t' ∨
    deferred = Ok tt ∧ revalidation = Ok tt ∧
    ∃ r, t' = ((t ++ [mkHappened AIsCancelled false]) ++ [mkHappened (AExecute tref args delegated) r])%list).
Proof.
  unfold call_tool. destruct deferred as [[]|]; [|by apply wp_ret; left].
  destruct revalidation as [[]|]; [|by apply wp_ret; left].
  wp_ask. intros [] _.
  - apply wp_ret. left. rewrite executions_app. cbn. rewrite app_nil_r. split; [done|by eexists].
  - wp_ask. intros r _. apply wp_ret. right. split; [done|]. split; [done|]. by exists r.
Qed.

(** The run of a prepared call: no tool, or its own tool once, when it may. *)
Definition runs_as_prepared t (p : Prepared) t' : Prop :=
  executions t' = executions t ∨
  match p with
  | PreparedComplete _ => False
  | PreparedExecute call tref args _ scope semantics auth deferred =>
      ∃ t1 t2 delegated r, t' = (t1 ++ mkHappened (AExecute tref args delegated) r :: t2)%list ∧
        t `prefix_of` t1 ∧ executions t1 = executions t ∧ executions t2 = [] ∧
        may_run t1 call tref args scope semantics auth deferred ∧
        (delegated = None ∨ delegated = Some (authorized_capabilities auth, scope))
  end.

Lemma execute_spec session p t :
  wp anything (execute_prepared_tool hooks session p) t (λ _ t', runs_as_prepared t p t').
Proof.
  destruct p as [call tref args ro scope semantics auth deferred|e]; [|by apply wp_ret; left].
  unfold execute_prepared_tool.
  eapply (wp_cut _ _ _ _ (λ _ t', executions t' = executions t ∧ t `prefix_of` t')).
  { apply wp_conj; [apply quiet_executions, (quiet_activity execution_of)|apply wp_extends]. }
  intros [message|] t1 [He1 Hp1]; [by apply wp_ret; left|].
  eapply wp_cut; [apply wp_conj; [apply quiet_executions, begin_runs_no_tool|apply wp_conj; [apply begin_spec|apply wp_extends]]|].
  intros [execution|checkpoint] t2 (He2 & Hb & Hp2); [by apply wp_ret; left; rewrite He2|].
  specialize (Hb checkpoint eq_refl).
  wp_ask. intros delegates _.
  eapply (wp_cut _ _ _ _ (λ r t', executions t' = executions t ∧ t2 `prefix_of` t' ∧
    (r = Ok tt → deferred = true →
     ∃ i, ti_name i = call_name call ∧ same_json (ti_arguments i) (redact_json args) ∧
      ∀ h, h ∈ hooks_of hooks PreTool → class_of h = PolicyClass →
        selected h (InPreTool i) (Some WorkspaceMutating) = true →
        ∃ d p, (id_of h, InPreTool i, Returned (Ok d)) ∈ hook_calls t' ∧ consents d p))).
  { destruct deferred.
    - eapply wp_mono; [apply wp_conj; [apply quiet_executions, (quiet_deferred execution_of)|apply wp_conj; [apply deferred_spec|apply wp_extends]]|].
      cbn beta. intros r t' (He & Hr & Hp). split.
      + rewrite He, executions_app. cbn. by rewrite app_nil_r, He2.
      + split; [by eapply prefix_snoc|]. intros Hok _. by apply Hr.
    - apply wp_ret. split; [rewrite executions_app; cbn; by rewrite app_nil_r, He2|]. split; [by eexists|done]. }
  intros dr t3 (He3 & Hp3 & Hd).
  eapply wp_cut; [apply wp_conj; [apply quiet_executions, (quiet_revalidate execution_of)|apply wp_conj; [apply revalidate_spec|apply wp_extends]]|].
  intros rr t4 (He4 & Hr & Hp4). eapply wp_cut; [apply call_tool_spec|].
  intros result t5 Ht5. eapply wp_mono; [apply wp_conj; [apply quiet_executions, (quiet_conclude execution_of)|apply wp_extends]|].
  cbn beta. intros _ t6 [He6 Hp6]. destruct Ht5 as [[He5 _]|(-> & -> & r & ->)].
  { left. congruence. }
  right. destruct Hp6 as [t7 ->]. exists (t4 ++ [mkHappened AIsCancelled false])%list, t7.
  eexists _, r. split; [rewrite <- !app_assoc; done|].
  assert (t2 `prefix_of` (t4 ++ [mkHappened AIsCancelled false])%list) as Hp24.
  { etrans; [exact Hp3|]. etrans; [exact Hp4|]. by eexists. }
  split; [etrans; [exact Hp1|]; etrans; [exact Hp2|done]|].
  split; [rewrite executions_app; cbn; rewrite app_nil_r; congruence|].
  split.
  { apply (f_equal length) in He6. rewrite executions_app, length_app in He6.
    destruct (executions t7); [done|cbn [length] in He6; lia]. }
  split; [|destruct delegates; [by right|by left]].
  destruct (Hr eq_refl) as [Hid Hdiff]. split.
  - intros Hne. destruct checkpoint as [c|]; [|done]. exists c. destruct Hb as [_ Hb]. by eapply happened_prefix.
  - exact Hid.
  - eapply diff_confirmed_prefix; [exact Hdiff|by eexists].
  - apply happened_last.
  - intros Hdef. destruct (Hd eq_refl Hdef) as (i & Hi & Hj & Hc). exists i. split; [done|]. split; [done|].
    intros h Hh Hcl Hsel. destruct (Hc h Hh Hcl Hsel) as (d & p & Hin & Hcons). exists d, p. split; [|done].
    eapply hook_calls_prefix; [exact Hin|]. etrans; [exact Hp4|]. by eexists.
Qed.

(** * Checkpoints *)

(** How a checkpoint ended, for a result. *)
Definition closed_for t (c : option string) (e : ToolExecution) : Prop :=
  unsettled e = true ∨
  ∃ outcome, happened (AFinish c outcome) (Ok tt) t ∧
    (outcome = CheckpointCompleted → is_error e = false) ∧
    (outcome = CheckpointFailed → is_error e = true).

Lemma finish_spec e checkpoint c tool_cancelled t :
  checkpoint = Some c →
  wp anything (finish_execution e checkpoint tool_cancelled) t (λ e' t', closed_for t' c e').
Proof using Type.
  intros ->. unfold finish_execution. eapply wp_cut; [apply wp_true|]. intros cancelled t1 _.
  set (outcome := if cancelled : bool then _ else _). apply wp_bind. wp_ask. intros [[]|error] _.
  - apply wp_ret. wp_ask. intros [[]|error] _.
    + apply wp_ret. right. exists outcome. split; [apply happened_app, happened_last|].
      unfold outcome. by destruct cancelled, (is_error e).
    + eapply wp_cut; [apply wp_true|]. intros [] t' _. apply wp_ret. by left.
  - eapply wp_cut; [apply wp_true|]. intros [] t' _. apply wp_ret. wp_ask. intros [[]|error'] _.
    + apply wp_ret. by left.
    + eapply wp_cut; [apply wp_true|]. intros [] t'' _. apply wp_ret. by left.
Qed.

Lemma conclude_execution_spec call tref checkpoint c result t :
  checkpoint = Some c →
  wp anything (conclude_execution hooks call tref checkpoint result) t (λ r t', closed_for t' c r.1).
Proof using Type.
  intros Hc. unfold conclude_execution. eapply wp_cut; [apply wp_true|]. intros e t1 _.
  wp_ask. intros settlement _. destruct (_ || _).
  { eapply wp_cut; [apply wp_true|]. intros [] t2 _. apply wp_ret. by left. }
  wp_ask. intros cancelled _. eapply wp_cut; [apply wp_true|]. intros e2 t2 _.
  eapply wp_cut; [apply wp_true|]. intros e3 t3 _.
  destruct (unsettled e3) eqn:Eu; [apply wp_ret; by left|].
  eapply wp_cut; [by apply finish_spec|]. intros e4 t4 H4. by apply wp_ret.
Qed.

Lemma begin_begun call scope session t :
  wp anything (begin_checkpoint call scope session) t (λ r t',
    begun t' = match r with inr (Some c) => (begun t ++ [c])%list | _ => begun t end).
Proof using Type.
  unfold begin_checkpoint. destruct (is_scope_none scope); [by apply wp_ret|].
  destruct (validate_mutation_scope scope); [by apply wp_ret|]. destruct session; [|by apply wp_ret].
  wp_ask. intros [c|e] _.
  - apply wp_ret. by rewrite begun_app.
  - wp_ask. intros [[]|proof] _; [apply wp_ret; rewrite !begun_app; cbn; by rewrite !app_nil_r|].
    unfold mark_unsettled. wp_ask. intros [] _. apply wp_ret. rewrite !begun_app. cbn. by rewrite !app_nil_r.
Qed.

Lemma execute_closes session p t :
  wp anything (execute_prepared_tool hooks session p) t (λ r t',
    ∃ l, begun t' = (begun t ++ l)%list ∧ ∀ c, c ∈ l → closed_for t' c r.1).
Proof using Type.
  destruct p as [call tref args ro scope semantics auth deferred|e];
    [|by apply wp_ret; exists []; rewrite app_nil_r; split; [|by intros ? ?%not_elem_of_nil]].
  assert (∀ t' e, begun t' = begun t →
    ∃ l, begun t' = (begun t ++ l)%list ∧ ∀ c, c ∈ l → closed_for t' c e) as Hnone.
  { intros t' e Ht'. exists []. rewrite app_nil_r. split; [done|]. by intros ? ?%not_elem_of_nil. }
  unfold execute_prepared_tool. eapply wp_cut; [apply quiet_begun, (quiet_activity begun_of)|].
  intros [message|] t1 Ht1; [by apply wp_ret, Hnone|].
  eapply wp_cut; [apply begin_begun|]. intros [execution|checkpoint] t2 Ht2.
  { apply wp_ret, Hnone. by rewrite Ht2. }
  wp_ask. intros delegates _.
  assert (begun (t2 ++ [mkHappened (ADelegates tref) delegates])%list = begun t2) as Hd
    by (rewrite begun_app; cbn; by rewrite app_nil_r).
  eapply (wp_cut _ _ _ _ (λ _ t', begun t' = begun t2)).
  { destruct deferred; [|by apply wp_ret]. eapply wp_mono; [apply quiet_begun, (quiet_deferred begun_of)|].
    cbn beta. congruence. }
  intros dr t3 Ht3. eapply wp_cut; [apply quiet_begun, (quiet_revalidate begun_of)|]. intros rr t4 Ht4.
  eapply wp_cut; [apply quiet_begun, call_begins_nothing|]. intros result t5 Ht5. cbn beta in *.
  destruct checkpoint as [c|].
  - eapply wp_mono; [apply wp_conj; [apply quiet_begun, (quiet_conclude begun_of)|by apply (conclude_execution_spec _ _ _ c)]|].
    cbn beta. intros [e b] t6 [Ht6 Hcl]. exists [c]. split; [congruence|].
    intros c' ->%list_elem_of_singleton. exact Hcl.
  - eapply wp_mono; [apply quiet_begun, (quiet_conclude begun_of)|]. cbn beta. intros [e b] t6 Ht6.
    apply Hnone. congruence.
Qed.
End calls.

Section theorems.
Context `{SW : ShellWords} `{G : Glob} `{W : JsonWriter} `{B : Blake3} `{U : UrlParser}.
Context `{FS : FileSystem} `{X : ExecFiles} {R : SecretRedactor} {enc : HookEncoding}.

(** One tool call, prepared and executed. *)
Definition whole_call (gate : PermissionGate) (hooks : HookDispatcher) (budget : PendingToolBudget)
    (call : PendingToolCall) (displayed : Value) (mode : SessionMode) (session : option string)
    : ToolProc (ToolExecution * bool) :=
  prepared ← prepare_tool_call gate hooks budget call displayed mode;
  execute_prepared_tool hooks session prepared.2.

(** C2: A tool runs only as it was approved.  In every behaviour of registry,
    tools, hooks, user, files and cancellation, a call runs at most one tool, and
    at that moment: the gate has allowed a request with the name and the
    arguments the tool is run with (up to the order of object fields), the tool is
    the one the registry gave for that name, also when a hook renamed the call, no
    permission hook denied it, and every permission hook for the tool saw its
    redacted form and agreed; the approved capabilities include those of the tool
    as it was resolved for the approval, those of the hooks around it, and writing
    when anything is mutated; the identity of
    the invocation and the diff the user saw were recomputed and are the approved
    ones; a checkpoint is open if anything is mutated; the call is not cancelled;
    the model's redacted placeholders are not passed off as arguments; and
    delegated effects are limited to the approved capabilities. *)
Theorem tool_runs_as_approved (gate : PermissionGate) (registered : list RegisteredHook)
    (budget : PendingToolBudget) (call : PendingToolCall) (displayed : Value) (mode : SessionMode)
    (session : option string) (o : Oracle tool_answer) :
  (register_all ∅ registered).2 = true →
  let hooks := (register_all ∅ registered).1 in
  let '(_, t) := Effects.run o (whole_call gate hooks budget call displayed mode session) [] in
  executions t = [] ∨
  ∃ t1 t2 tref args delegated r,
    t = (t1 ++ mkHappened (AExecute tref args delegated) r :: t2)%list ∧
    executions t1 = [] ∧ executions t2 = [] ∧
    ∃ call' args0 semantics0 semantics auth scope deferred,
      call_id call' = call_id call ∧ same_json args args0 ∧
      approved gate registered t1 call' args0 semantics0 mode auth ∧
      covers registered t1 (call_name call') args0 semantics0 (authorized_capabilities auth) ∧
      happened (AResolve (call_name call')) (Some tref) t1 ∧
      happened (ASemantics (call_name call') args) (Some semantics) t1 ∧
      (scope = ScopeNone → mutation_scope semantics = ScopeNone ∧ deferred = false) ∧
      may_run registered t1 call' tref args scope semantics auth deferred ∧
      (call_arguments call = Some args ∨ json_contains_redaction args = false) ∧
      (delegated = None ∨ delegated = Some (authorized_capabilities auth, scope)).
Proof.
  intros Hreg hooks.
  assert (wp anything (whole_call gate hooks budget call displayed mode session) [] (λ _ t,
    ∃ p t0, prepared_ok gate registered t0 call mode p ∧ executions t0 = [] ∧
      runs_as_prepared registered t0 p t)) as Hwp.
  { unfold whole_call. eapply wp_cut.
    { apply wp_conj; [by apply prepare_tool_call_spec|].
      apply quiet_executions, (quiet_prepare gate registered execution_of). }
    cbn beta. intros [b p] t0 [Hp He]. cbn [snd] in *. eapply wp_mono; [by apply execute_spec|].
    cbn beta. intros _ t Ht. by exists p, t0. }
  apply (wp_run _ _ _ _ o) in Hwp; [|done]. destruct (Effects.run o _ []) as [res t]. cbn [fst snd] in Hwp.
  destruct Hwp as (p & t0 & Hp & He & [Hrun|Hrun]); [left; congruence|]. right.
  destruct p as [call' tref args ro scope semantics auth deferred|e]; [|done].
  destruct Hrun as (t1 & t2 & delegated & r & -> & Hpre & He1 & He2 & Hmay & Hdel).
  destruct Hp as (Hid & Hinv & Hidx & Harg & Hred & Hdef & Hres & Hsem & Hscope & args0 & sem0 & Hsame & Happ & Hcov).
  exists t1, t2, tref, args, delegated, r. split; [done|]. split; [congruence|]. split; [done|].
  exists call', args0, sem0, semantics, auth, scope, deferred. split; [done|]. split; [done|].
  split; [by eapply approved_prefix|]. split; [by eapply covers_prefix|].
  do 2 (split; [by eapply happened_prefix|]). done.
Qed.

(** Every checkpoint is closed.  When executing a prepared call has begun a
    checkpoint, then at the end the result says that effects are unsettled, or
    the checkpoint was finished: as completed only with a result that is not an
    error, and as failed only with one that is. *)
Theorem checkpoints_closed (registered : list RegisteredHook) (session : option string) (p : Prepared)
    (o : Oracle tool_answer) :
  let hooks := (register_all ∅ registered).1 in
  let '(r, t) := Effects.run o (execute_prepared_tool hooks session p) [] in
  ∀ c, c ∈ begun t → closed_for t c r.1.
Proof.
  intros hooks. pose proof (execute_closes registered session p []) as Hwp.
  apply (wp_run _ _ _ _ o) in Hwp; [|done]. destruct (Effects.run o _ []) as [r t]. cbn [fst snd] in Hwp.
  destruct Hwp as (l & Ht & Hl). change (begun t = l) in Ht. by subst l.
Qed.
End theorems.

(** * A call that runs *)

Definition sample_pending : PendingToolCall :=
  mkCall "call" "invocation" "read" (Some (JObject [("path", JString "a")])) 0.
Definition sample_semantics (scope : MutationScope) : ToolInvocationSemantics := mkSemantics Standard scope [].
Definition sample_measured : Measured := mkMeasured (Some 100) (Some 100).
(** Surroundings that cooperate, with hooks that answer [d]. *)
Definition sample_surroundings (scope : MutationScope) (d : HookDirective) : Oracle tool_answer := λ _ a,
  match a return tool_answer a with
  | AHook a => prompt_handlers d [] a
  | APoll | AIsCancelled => false
  | AUnsettled _ | AEvent _ | AWrite _ => tt
  | AResolve _ => Some 7%nat
  | ASemantics _ _ => Some (sample_semantics scope)
  | ACapabilities _ _ => Some [ReadFilesystem]
  | AParallelSafe _ _ => true
  | AActivity => None
  | APreview _ _ => Ok None
  | ADiff _ _ _ _ => ""%string
  | AMeasure _ | AMeasureRequest _ => sample_measured
  | AWorld => sample_world None []
  | ARandom => None
  | AAsk _ => true
  | AAnswer => AllowOnce
  | ABegin _ _ => Ok (Some "checkpoint"%string)
  | AFinish _ _ | ASettleCheckpoints | ASettleTool _ => Ok tt
  | ADelegates _ => false
  | AExecute _ _ _ => ExecutionReturned (Ok (mkToolResult "done" JNull false))
  | AAdmitResult _ _ => true
  end.
Definition guard_hooks : list RegisteredHook := [sample_hook "guard" PermissionCheck PolicyClass].
Definition sample_budget : PendingToolBudget := mkPendingBudget 1 100 100 0 0 0.
Definition sample_run (d : HookDirective) : ToolExecution * bool * History tool_answer :=
  Effects.run (sample_surroundings (ScopePaths ["a"]) d)
    (@whole_call sample_words sample_glob SampleJson.writer InjectiveSample.hash sample_url sample_fs
       sample_exec mask_redactor small_payloads configured_gate (register_all ∅ guard_hooks).1
       sample_budget sample_pending (JObject [("path", JString "a")]) ExecuteMode (Some "session"%string)) [].

(** The call runs its tool; when the guard objects, it does not. *)
Example sample_call_runs :
  executions (sample_run Continue).2 = [(7%nat, JObject [("path", JString "a")], None)] ∧
  begun (sample_run Continue).2 = [Some "checkpoint"%string] ∧
  executions (sample_run (Block "no")).2 = [].
Proof. vm_compute. done. Qed.

Lemma tool_runs_as_approved_witness :
  executions (sample_run Continue).2 ≠ [] ∧
  ∃ t1 t2 tref args delegated r,
    (sample_run Continue).2 = (t1 ++ mkHappened (AExecute tref args delegated) r :: t2)%list.
Proof.
  assert (Hne : executions (sample_run Continue).2 ≠ []) by (vm_compute; discriminate).
  split; [exact Hne|].
  pose proof (@tool_runs_as_approved sample_words sample_glob SampleJson.writer InjectiveSample.hash
    sample_url sample_fs sample_exec mask_redactor small_payloads configured_gate guard_hooks
    sample_budget sample_pending (JObject [("path", JString "a")]) ExecuteMode (Some "session"%string)
    (sample_surroundings (ScopePaths ["a"]) Continue) eq_refl) as H.
  unfold sample_run in *.
  destruct (Effects.run _ _ []) as [res t]. cbn [snd] in *.
  destruct H as [H|(t1 & t2 & tref & args & delegated & r & H & _)]; [by destruct Hne|].
  by exists t1, t2, tref, args, delegated, r.
Defined.
