(* ===== verification/FolderTrust.v ===== *)
(** Folder trust ([rw-store/src/trust.rs], [rw-store/src/trust/inventory.rs]):
    definitions.

    Files of a project that change what the agent executes take effect only
    after the user has trusted the folder.  The inventory of those files is
    walked and hashed without executing anything; a ledger binds a decision to
    the canonical folder and the hash of its inventory. *)
From Stdlib Require Import Ascii.
From S2P Require Import Prelude Text Decimal Ir Estimate Assembly ShellSplit BashSafety PermissionRules PermissionIdentity Sse.

Definition TRUST_FORMAT_VERSION : Z := 1.
Definition MAX_INVENTORY_FILES : nat := Z.to_nat 4096.
Definition MAX_INVENTORY_FILE_BYTES : Z := 8 * 1024 * 1024.
Definition MAX_INVENTORY_TOTAL_BYTES : Z := 32 * 1024 * 1024.

(** * The operating system *)

(** An absolute path as its components *)
Abbreviation FsPath := (list string) (only parsing).
Definition display_path (p : FsPath) : string := "/" ++ join "/" p.
Inductive PathBuf : Type := Absolute (parts : FsPath) | Relative (parts : list string).
Definition display_buf (p : PathBuf) : string :=
  match p with Absolute parts => display_path parts | Relative parts => join "/" parts end.

Record FsError : Type := mkFsError { io_not_found : bool; io_text : string }.
#[global] Instance FsError_eq_dec : EqDecision FsError.
Proof. solve_decision. Defined.
Inductive FileKind : Type := KFile | KDir | KLink | KOther.
#[global] Instance FileKind_eq_dec : EqDecision FileKind.
Proof. solve_decision. Defined.

(** What the calls of one assessment are answered.  [fs_stat] follows links and
    names the owner; the two open calls refuse a link. *)
Record Fs : Type := mkFs {
  fs_symlink_metadata : FsPath → Result FileKind FsError;
  fs_stat : FsPath → Result (FileKind * Z) FsError;
  fs_read_dir : FsPath → Result (list (Result string FsError)) FsError;
  fs_canonical : FsPath → Result FsPath FsError;
  fs_open_directory : FsPath → Result unit FsError;
  fs_open_file : FsPath → Result (Result FileKind FsError * Result string FsError) FsError;
  fs_euid : Z;
}.

(** * Data *)

Inductive FolderTrustState : Type := Untrusted | Changed | Trusted | Untrustable_.
#[global] Instance FolderTrustState_eq_dec : EqDecision FolderTrustState.
Proof. solve_decision. Defined.

Record TrustInventoryItem : Type := mkItem {
  item_path : string;
  item_kind : string;
  item_hash : string;
  item_bytes : Z;
}.
#[global] Instance TrustInventoryItem_eq_dec : EqDecision TrustInventoryItem.
Proof. solve_decision. Defined.
Inductive TrustInventoryChange : Type :=
| Added (item : TrustInventoryItem)
| Removed (item : TrustInventoryItem)
| Modified (before after : TrustInventoryItem).

Inductive FolderTrustError : Type :=
| Workspace (path : FsPath) (source : FsError)
| UnsafeEntry (path : PathBuf)
| UnsafeLink (path : FsPath) (reason : string)
| FileLimit (limit : nat)
| FileSize (path : FsPath) (limit : Z)
| TotalSize (limit : Z)
| NonUtf8Path (path : PathBuf)
| ReadLedger (path : FsPath)
| ParseLedger (path : FsPath)
| WriteLedger (path : FsPath)
| ChangedDuringGrant
| Untrustable (path : FsPath) (message : string)
| LedgerLocked (path : FsPath).

Definition is_inventory_failure (e : FolderTrustError) : bool :=
  match e with
  | Workspace _ _ | UnsafeEntry _ | UnsafeLink _ _ | FileLimit _ | FileSize _ _ | TotalSize _ | NonUtf8Path _ => true
  | _ => false
  end.
Definition inventory_failure_path (e : FolderTrustError) (workspace : FsPath) : FsPath :=
  match e with
  | Workspace p _ | FileSize p _ | UnsafeLink p _ | UnsafeEntry (Absolute p) | NonUtf8Path (Absolute p)
  | ReadLedger p | ParseLedger p | WriteLedger p | LedgerLocked p => p
  | UnsafeEntry (Relative p) | NonUtf8Path (Relative p) => (workspace ++ p)%list
  | FileLimit _ | TotalSize _ | ChangedDuringGrant | Untrustable _ _ => workspace
  end.
(** The [Display] of the errors that an inventory ends with *)
Definition error_message (e : FolderTrustError) : string :=
  match e with
  | Workspace p source => "workspace is unavailable: " ++ display_path p ++ ": " ++ io_text source
  | UnsafeEntry p => "unsafe project extension entry " ++ display_buf p
  | UnsafeLink p reason => "unsafe project extension link " ++ display_path p ++ ": " ++ reason
  | FileLimit limit => "project extension inventory exceeded its " ++ dec (Z.of_nat limit) ++ "-file limit"
  | FileSize p limit => "project extension file exceeds its " ++ dec limit ++ "-byte limit: " ++ display_path p
  | TotalSize limit => "project extension inventory exceeds its " ++ dec limit ++ "-byte total limit"
  | NonUtf8Path p => "project extension path is not valid UTF-8: " ++ display_buf p
  | _ => ""
  end.

Record FolderTrustInventoryFailure : Type := mkFailure { failure_path : FsPath; failure_message : string }.
Record FolderTrustAssessment : Type := mkAssessment {
  assessed_workspace : FsPath;
  executable_hash : option string;
  inventory : list TrustInventoryItem;
  changes : list TrustInventoryChange;
  trust_state : FolderTrustState;
  inventory_failure : option FolderTrustInventoryFailure;
}.
Definition project_execution_enabled (a : FolderTrustAssessment) : bool :=
  match trust_state a with Trusted => true | _ => false end.
Definition requires_confirmation (a : FolderTrustAssessment) : bool :=
  negb (is_some (inventory_failure a)) && negb (project_execution_enabled a)
  && match inventory a with [] => false | _ => true end.

(** * The walk *)

Inductive Tree : Type := LocationRoot | Plain | Skills | Resolved.
#[global] Instance Tree_eq_dec : EqDecision Tree.
Proof. solve_decision. Defined.
Record InventoryFile : Type := mkInventoryFile { file_display : FsPath; file_resolved : option FsPath }.
Record InventoryWalk : Type := mkWalk {
  link_bounds : list FsPath;
  walk_files : list InventoryFile;
  ancestors : list FsPath;
}.
Definition LOCATIONS : list (string * option (list string)) :=
  [(".agents", None); (".rottweiler", None); (".claude", Some ["commands"; "skills"])].
Definition LINKED_SUBTREE : string := "skills".

Definition push_file (walk : InventoryWalk) (display : FsPath) (resolved : option FsPath)
    : Result InventoryWalk FolderTrustError :=
  let files := (walk_files walk ++ [mkInventoryFile display resolved])%list in
  if (MAX_INVENTORY_FILES <? length files)%nat then Err (FileLimit MAX_INVENTORY_FILES)
  else Ok (mkWalk (link_bounds walk) files (ancestors walk)).
Definition push_ancestor (walk : InventoryWalk) (p : FsPath) : InventoryWalk :=
  mkWalk (link_bounds walk) (walk_files walk) (p :: ancestors walk).
Definition pop_ancestor (walk : InventoryWalk) : InventoryWalk :=
  mkWalk (link_bounds walk) (walk_files walk) (tail (ancestors walk)).

Section trust.
Context {B : Blake3}.
Implicit Types fs : Fs.

Definition resolve_link fs (walk : InventoryWalk) (display actual : FsPath) : Result FsPath FolderTrustError :=
  match fs_canonical fs actual with
  | Err _ => Err (UnsafeLink display "does not resolve")
  | Ok target =>
      if negb (existsb (λ bound, is_prefix bound target) (link_bounds walk))
      then Err (UnsafeLink display "resolves outside the project and the user's home directory")
      else match fs_stat fs target with
           | Err _ => Err (UnsafeLink display "does not resolve")
           | Ok (_, uid) =>
               if negb (uid =? fs_euid fs)
               then Err (UnsafeLink display "resolves to a target owned by another user")
               else Ok target
           end
  end.

(** [directory] over the walk of an entry; [None] is a walk cut short. *)
Abbreviation Walked := (option (Result InventoryWalk FolderTrustError)).
Fixpoint walk_entries (entry : InventoryWalk → FsPath → FsPath → Walked) (display actual : FsPath)
    (walk : InventoryWalk) (entries : list (Result string FsError)) : Walked :=
  match entries with
  | [] => Some (Ok walk)
  | Err source :: _ => Some (Err (Workspace display source))
  | Ok name :: rest =>
      match entry walk (display ++ [name])%list (actual ++ [name])%list with
      | Some (Ok walk) => walk_entries entry display actual walk rest
      | stopped => stopped
      end
  end.
Definition walk_directory fs (entry : InventoryWalk → FsPath → FsPath → Walked)
    (walk : InventoryWalk) (display actual : FsPath) : Walked :=
  match fs_read_dir fs actual with
  | Err source => Some (Err (Workspace display source))
  | Ok entries =>
      match walk_entries entry display actual (push_ancestor walk actual) entries with
      | Some (Ok walk) => Some (Ok (pop_ancestor walk))
      | stopped => stopped
      end
  end.
Definition entry_tree (display : FsPath) (parent : Tree) : Tree :=
  match parent with
  | LocationRoot => if bool_decide (last display = Some LINKED_SUBTREE) then Skills else Plain
  | tree => tree
  end.
Fixpoint walk_entry (fuel : nat) fs (parent : Tree) (walk : InventoryWalk) (display actual : FsPath) : Walked :=
  match fuel with
  | O => None
  | S fuel =>
      let tree := entry_tree display parent in
      match fs_symlink_metadata fs actual with
      | Err source =>
          if io_not_found source && bool_decide (parent = LocationRoot) then Some (Ok walk)
          else Some (Err (Workspace display source))
      | Ok KLink =>
          if bool_decide (tree = Plain) then Some (Err (UnsafeEntry (Absolute display))) else
          match resolve_link fs walk display actual with
          | Err e => Some (Err e)
          | Ok target =>
              match fs_stat fs target with
              | Err source => Some (Err (Workspace display source))
              | Ok (KDir, _) =>
                  if existsb (λ ancestor, bool_decide (ancestor = target)) (ancestors walk)
                  then Some (Err (UnsafeLink display "forms a directory cycle"))
                  else walk_directory fs (walk_entry fuel fs Resolved) walk display target
              | Ok (KFile, _) => Some (push_file walk display (Some target))
              | Ok _ => Some (Err (UnsafeLink display "does not resolve to a file or directory"))
              end
          end
      | Ok KDir => walk_directory fs (walk_entry fuel fs tree) walk display actual
      | Ok KFile => Some (push_file walk display (if bool_decide (tree = Resolved) then Some actual else None))
      | Ok KOther => Some (Err (UnsafeEntry (Absolute display)))
      end
  end.

Fixpoint walk_names (fuel : nat) fs (root : FsPath) (walk : InventoryWalk) (names : list string) : Walked :=
  match names with
  | [] => Some (Ok walk)
  | name :: rest =>
      match walk_entry fuel fs LocationRoot walk (root ++ [name])%list (root ++ [name])%list with
      | Some (Ok walk) => walk_names fuel fs root walk rest
      | stopped => stopped
      end
  end.
Definition walk_location (fuel : nat) fs (workspace : FsPath) (walk : InventoryWalk)
    (location : string * option (list string)) : Walked :=
  let root := (workspace ++ [location.1])%list in
  match fs_symlink_metadata fs root with
  | Ok KDir =>
      match location.2 with
      | None => walk_directory fs (walk_entry fuel fs LocationRoot) walk root root
      | Some names => walk_names fuel fs root walk names
      end
  | Ok _ => Some (Err (UnsafeEntry (Absolute root)))
  | Err source => if io_not_found source then Some (Ok walk) else Some (Err (Workspace root source))
  end.
Fixpoint walk_locations (fuel : nat) fs (workspace : FsPath) (walk : InventoryWalk)
    (locations : list (string * option (list string))) : Walked :=
  match locations with
  | [] => Some (Ok walk)
  | location :: rest =>
      match walk_location fuel fs workspace walk location with
      | Some (Ok walk) => walk_locations fuel fs workspace walk rest
      | stopped => stopped
      end
  end.

(** * Reading the files *)

(** [take(limit)] and [read_to_end] *)
Definition read_at_most (limit : Z) (content : string) : string :=
  if str_len content <=? limit then content else str_take (Z.to_nat limit) content.
Definition read_regular_file (opened : Result FileKind FsError * Result string FsError) (display : FsPath)
    : Result string FolderTrustError :=
  match opened with
  | (Err source, _) => Err (Workspace display source)
  | (Ok kind, content) =>
      if negb (bool_decide (kind = KFile)) then Err (UnsafeEntry (Absolute display)) else
      match content with
      | Err source => Err (Workspace display source)
      | Ok bytes =>
          let bytes := read_at_most (MAX_INVENTORY_FILE_BYTES + 1) bytes in
          if MAX_INVENTORY_FILE_BYTES <? str_len bytes then Err (FileSize display MAX_INVENTORY_FILE_BYTES)
          else Ok bytes
      end
  end.
(** One [openat] per component; [.] and [..] are no [Component::Normal]. *)
Fixpoint open_directories fs (display relative at_ : FsPath) (parts : list string) : Result unit FolderTrustError :=
  match parts with
  | [] => Ok tt
  | part :: rest =>
      if mem part ["."; ".."] then Err (UnsafeEntry (Relative relative)) else
      let next := (at_ ++ [part])%list in
      match fs_open_directory fs next with
      | Err source => Err (Workspace display source)
      | Ok _ => open_directories fs display relative next rest
      end
  end.
Definition read_workspace_file fs (workspace relative : FsPath) : Result string FolderTrustError :=
  let display := (workspace ++ relative)%list in
  match fs_open_directory fs workspace with
  | Err source => Err (Workspace workspace source)
  | Ok _ =>
      let? _ := open_directories fs display relative workspace (removelast relative) in
      match last relative with
      | None => Err (UnsafeEntry (Relative relative))
      | Some name =>
          match fs_open_file fs display with
          | Err source => Err (Workspace display source)
          | Ok opened => read_regular_file opened display
          end
      end
  end.
Definition read_resolved_file fs (target display : FsPath) : Result string FolderTrustError :=
  match fs_open_file fs target with
  | Err source => Err (Workspace display source)
  | Ok opened => read_regular_file opened display
  end.

(** * The inventory *)

Definition inventory_kind (path : string) : string :=
  let normalized :=
    match strip_prefix ".agents/" path, strip_prefix ".rottweiler/" path, strip_prefix ".claude/" path with
    | Some rest, _, _ | None, Some rest, _ | None, None, Some rest => rest
    | None, None, None => path
    end in
  if starts_with "commands/" normalized then "command"
  else if starts_with "skills/" normalized then "skill"
  else if starts_with "agents/" normalized then "agent"
  else if starts_with "modes/" normalized then "mode"
  else if starts_with "workflows/" normalized then "workflow"
  else if String.eqb normalized "hooks.toml" then "hook"
  else if String.eqb normalized "toolchain.toml" then "toolchain"
  else if String.eqb normalized "plugins.toml" then "plugin"
  else if mem normalized ["mcp.toml"; "mcp.json"] then "mcp"
  else if String.eqb normalized "config.toml" then "project_config"
  else "project_extension".

(** [Path]'s order: component by component *)
Fixpoint path_leb (x y : FsPath) : bool :=
  match x, y with
  | [], _ => true
  | _ :: _, [] => false
  | a :: x, b :: y => if String.eqb a b then path_leb x y else String.leb a b
  end.
Definition file_le (x y : InventoryFile) : bool := path_leb (file_display x) (file_display y).
Fixpoint strip_path (prefix p : FsPath) : option FsPath :=
  match prefix, p with
  | [], _ => Some p
  | a :: prefix, b :: p => if String.eqb a b then strip_path prefix p else None
  | _ :: _, [] => None
  end.
Fixpoint backslashes_to_slashes (s : string) : string :=
  match s with
  | "" => ""
  | String c s => String (if Ascii.eqb c "\"%char then "/"%char else c) (backslashes_to_slashes s)
  end.
(** [to_str] and [replace('\\', "/")] *)
Definition relative_name (relative : FsPath) : Result string FolderTrustError :=
  let text := join "/" relative in
  if utf8_valid [] (String.list_ascii_of_string text) then Ok (backslashes_to_slashes text)
  else Err (NonUtf8Path (Relative relative)).

Definition read_inventory_file fs (workspace : FsPath) (file : InventoryFile) (total : Z)
    : Result (TrustInventoryItem * Z) FolderTrustError :=
  let? relative := ok_or (strip_path workspace (file_display file)) (UnsafeEntry (Absolute (file_display file))) in
  let? bytes := match file_resolved file with
                | None => read_workspace_file fs workspace relative
                | Some target => read_resolved_file fs target (file_display file)
                end in
  let byte_count := str_len bytes in
  let total := sat_add total byte_count in
  if MAX_INVENTORY_TOTAL_BYTES <? total then Err (TotalSize MAX_INVENTORY_TOTAL_BYTES) else
  let? name := relative_name relative in
  Ok (mkItem name (inventory_kind name) (blake3_hex bytes) byte_count, total).
Fixpoint read_inventory fs (workspace : FsPath) (files : list InventoryFile) (total : Z)
    : Result (list TrustInventoryItem) FolderTrustError :=
  match files with
  | [] => Ok []
  | file :: rest =>
      let? read := read_inventory_file fs workspace file total in
      let? items := read_inventory fs workspace rest read.2 in
      Ok (read.1 :: items)
  end.

Definition home_bound fs (user_home : option FsPath) : list FsPath :=
  match user_home with
  | Some home => match fs_canonical fs home with Ok canonical => [canonical] | Err _ => [] end
  | None => []
  end.
Definition executable_inventory (fuel : nat) fs (workspace : FsPath) (user_home : option FsPath)
    : option (Result (list TrustInventoryItem) FolderTrustError) :=
  walked ← walk_locations fuel fs workspace (mkWalk (workspace :: home_bound fs user_home) [] []) LOCATIONS;
  Some (let? walk := walked in read_inventory fs workspace (stable_sort file_le (walk_files walk)) 0).

Definition NUL : string := String (ascii_of_nat 0) "".
Definition item_preimage (item : TrustInventoryItem) : string :=
  item_path item ++ NUL ++ item_kind item ++ NUL ++ item_hash item ++ NUL ++ le64 (item_bytes item).
Fixpoint items_preimage (items : list TrustInventoryItem) : string :=
  match items with [] => "" | item :: rest => item_preimage item ++ items_preimage rest end.
Definition inventory_preimage (items : list TrustInventoryItem) : string :=
  "rottweiler-folder-trust-v1" ++ NUL ++ items_preimage items.
Definition inventory_hash (items : list TrustInventoryItem) : string := blake3_hex (inventory_preimage items).

(** The maps from paths to items, in path order *)
Definition by_path (items : list TrustInventoryItem) : gmap string TrustInventoryItem :=
  list_to_map (rev (map (λ item, (item_path item, item)) items)).
Definition inventory_diff (before after : list TrustInventoryItem) : list TrustInventoryChange :=
  let before := by_path before in
  let after := by_path after in
  omap (λ path, match before !! path, after !! path with
                | None, Some item => Some (Added item)
                | Some item, None => Some (Removed item)
                | Some left_, Some right_ =>
                    if bool_decide (left_ = right_) then None else Some (Modified left_ right_)
                | None, None => None
                end)
    (stable_sort String.leb (elements (dom before ∪ dom after))).

(** * The ledger *)

Record TrustedWorkspace : Type := mkTrusted { granted_hash : string; granted_inventory : list TrustInventoryItem }.
Record TrustLedger : Type := mkLedger { ledger_version : Z; workspaces : gmap string TrustedWorkspace }.
Definition default_ledger : TrustLedger := mkLedger TRUST_FORMAT_VERSION ∅.
End trust.

(** serde_json over the ledger: what was written is read back. *)
Class TrustJson : Type := {
  LedgerDoc : Type;
  ser_ledger : TrustLedger → LedgerDoc;
  de_ledger : LedgerDoc → option TrustLedger;
  de_ser_ledger : ∀ l, de_ledger (ser_ledger l) = Some l;
}.

Section store.
Context {B : Blake3} {J : TrustJson}.
Implicit Types fs : Fs.

(** The ledger's path and its lock directory *)
Inductive LedgerFile : Type := NoLedger | NotRegular | UnreadableLedger | LedgerBytes (doc : LedgerDoc).
Record FolderTrustStore : Type := mkStore { store_path : FsPath; user_home : option FsPath }.

Definition read_ledger (st : FolderTrustStore) (file : LedgerFile) : Result TrustLedger FolderTrustError :=
  match file with
  | NotRegular => Err (UnsafeEntry (Absolute (store_path st)))
  | UnreadableLedger => Err (ReadLedger (store_path st))
  | NoLedger => Ok default_ledger
  | LedgerBytes doc =>
      match de_ledger doc with
      | None => Err (ParseLedger (store_path st))
      | Some ledger =>
          if negb (ledger_version ledger =? TRUST_FORMAT_VERSION) then Err (ParseLedger (store_path st))
          else Ok ledger
      end
  end.

Definition workspace_key (workspace : FsPath) : Result string FolderTrustError :=
  let text := display_path workspace in
  if utf8_valid [] (String.list_ascii_of_string text) then Ok text else Err (NonUtf8Path (Absolute workspace)).

Definition judge (record : option TrustedWorkspace) (hash : string) (items : list TrustInventoryItem)
    : FolderTrustState * list TrustInventoryChange :=
  match record with
  | None => (Untrusted, map Added items)
  | Some r =>
      if String.eqb (granted_hash r) hash then (Trusted, [])
      else (Changed, inventory_diff (granted_inventory r) items)
  end.
Definition assess (fuel : nat) fs (st : FolderTrustStore) (file : LedgerFile) (workspace : FsPath)
    : option (Result FolderTrustAssessment FolderTrustError) :=
  match fs_canonical fs workspace with
  | Err source => Some (Err (Workspace workspace source))
  | Ok workspace =>
      inventoried ← executable_inventory fuel fs workspace (user_home st);
      Some (match inventoried with
            | Err e =>
                if is_inventory_failure e then
                  Ok (mkAssessment workspace None [] [] Untrustable_
                        (Some (mkFailure (inventory_failure_path e workspace) (error_message e))))
                else Err e
            | Ok items =>
                let hash := inventory_hash items in
                let? ledger := read_ledger st file in
                let? key := workspace_key workspace in
                let '(state, changes) := judge (workspaces ledger !! key) hash items in
                Ok (mkAssessment workspace (Some hash) items changes state None)
            end)
  end.

(** [grant_all] before it takes the lock, under it, and the new ledger *)
Definition untrustable_among (assessments : list FolderTrustAssessment) : Result unit FolderTrustError :=
  match omap inventory_failure assessments with
  | failure :: _ => Err (Untrustable (failure_path failure) (failure_message failure))
  | [] => Ok tt
  end.
Fixpoint recheck (fuel : nat) fs (st : FolderTrustStore) (file : LedgerFile) (assessments : list FolderTrustAssessment)
    : option (Result unit FolderTrustError) :=
  match assessments with
  | [] => Some (Ok tt)
  | a :: rest =>
      current ← assess fuel fs st file (assessed_workspace a);
      match current with
      | Err e => Some (Err e)
      | Ok current =>
          if negb (bool_decide (executable_hash current = executable_hash a))
             || negb (bool_decide (inventory current = inventory a))
          then Some (Err ChangedDuringGrant)
          else recheck fuel fs st file rest
      end
  end.
Fixpoint insert_grants (ledger : gmap string TrustedWorkspace) (assessments : list FolderTrustAssessment)
    : Result (gmap string TrustedWorkspace) FolderTrustError :=
  match assessments with
  | [] => Ok ledger
  | a :: rest =>
      let? key := workspace_key (assessed_workspace a) in
      let? hash := ok_or (executable_hash a)
        (Untrustable (assessed_workspace a) "project extension inventory has no fingerprint") in
      insert_grants (<[key := mkTrusted hash (inventory a)]> ledger) rest
  end.
Fixpoint canonical_all fs (paths : list FsPath) : Result (list FsPath) FolderTrustError :=
  match paths with
  | [] => Ok []
  | p :: rest =>
      match fs_canonical fs p with
      | Err source => Err (Workspace p source)
      | Ok canonical => let? more := canonical_all fs rest in Ok (canonical :: more)
      end
  end.
Fixpoint remove_grants (ledger : gmap string TrustedWorkspace) (paths : list FsPath)
    : Result (gmap string TrustedWorkspace) FolderTrustError :=
  match paths with
  | [] => Ok ledger
  | p :: rest => let? key := workspace_key p in remove_grants (delete key ledger) rest
  end.

(** [Path::parent] and [Path::with_extension] of an absolute path *)
Definition parent_of (p : FsPath) : option FsPath := match p with [] => None | _ => Some (removelast p) end.
Fixpoint file_stem (name : string) : option string :=
  match name with
  | "" => None
  | String c rest =>
      match file_stem rest with
      | Some stem => Some (String c stem)
      | None => if Ascii.eqb c "."%char then Some "" else None
      end
  end.
(** Text before the last dot, unless that dot opens the name *)
Definition with_extension (ext : string) (p : FsPath) : FsPath :=
  match last p with
  | None => p
  | Some name =>
      let stem := match file_stem name with Some "" | None => name | Some stem => stem end in
      (removelast p ++ [(stem ++ "." ++ ext)%string])%list
  end.

(** What becomes of [write_ledger]: the directory is not prepared, the temporary
    file is not written or renamed, it is renamed into place, and the
    permissions of the new file may still fail to be set. *)
Inductive WriteAnswer : Type := Written | WrittenUnprotected | NotWritten | NoParentDirectory.
Definition write_ledger (st : FolderTrustStore) (answer : WriteAnswer) (file : LedgerFile) (ledger : TrustLedger)
    : Result unit FolderTrustError * LedgerFile :=
  match parent_of (store_path st) with
  | None => (Err (WriteLedger (store_path st)), file)
  | Some parent =>
      match answer with
      | NoParentDirectory => (Err (WriteLedger parent), file)
      | NotWritten => (Err (WriteLedger (store_path st)), file)
      | Written => (Ok tt, LedgerBytes (ser_ledger ledger))
      | WrittenUnprotected => (Err (WriteLedger (store_path st)), LedgerBytes (ser_ledger ledger))
      end
  end.

(** * Writers *)

Record LedgerDisk : Type := mkDisk { ledger_file : LedgerFile; ledger_locked : bool }.
(** The lock is a directory: its parent is not made, it is made, made and left
    behind when its permissions cannot be set, or not made. *)
Inductive LockAnswer : Type := LockMade | LockMadeUnprotected | LockNotMade | LockParentNotMade.
Definition lock_path (st : FolderTrustStore) : FsPath := with_extension "lock" (store_path st).
Definition acquire_write_lock (st : FolderTrustStore) (answer : LockAnswer) (d : LedgerDisk)
    : Result unit FolderTrustError * LedgerDisk :=
  match parent_of (lock_path st), answer with
  | None, _ => (Err (WriteLedger (lock_path st)), d)
  | Some parent, LockParentNotMade => (Err (WriteLedger parent), d)
  | Some _, LockNotMade => (Err (WriteLedger (lock_path st)), d)
  | Some _, LockMade =>
      if ledger_locked d then (Err (LedgerLocked (lock_path st)), d) else (Ok tt, mkDisk (ledger_file d) true)
  | Some _, LockMadeUnprotected =>
      if ledger_locked d then (Err (LedgerLocked (lock_path st)), d)
      else (Err (WriteLedger (lock_path st)), mkDisk (ledger_file d) true)
  end.
(** [Drop] of [TrustLedgerLock] *)
Definition release_write_lock (d : LedgerDisk) : LedgerDisk := mkDisk (ledger_file d) false.

Inductive TrustUpdate : Type :=
| Grant (assessments : list FolderTrustAssessment)
| Revoke (workspaces : list FsPath).
Definition update_ledger (u : TrustUpdate) (ledger : TrustLedger) : Result TrustLedger FolderTrustError :=
  let? entries := match u with
                  | Grant assessments => insert_grants (workspaces ledger) assessments
                  | Revoke paths => remove_grants (workspaces ledger) paths
                  end in
  Ok (mkLedger (ledger_version ledger) entries).
Definition commit_update (st : FolderTrustStore) (answer : WriteAnswer) (file : LedgerFile) (u : TrustUpdate)
    : Result unit FolderTrustError * LedgerFile :=
  match read_ledger st file with
  | Err e => (Err e, file)
  | Ok ledger =>
      match update_ledger u ledger with
      | Err e => (Err e, file)
      | Ok ledger => write_ledger st answer file ledger
      end
  end.
Definition grant_all (fuel : nat) fs (st : FolderTrustStore) (lock : LockAnswer) (answer : WriteAnswer)
    (d : LedgerDisk) (assessments : list FolderTrustAssessment) : option (Result unit FolderTrustError * LedgerDisk) :=
  match untrustable_among assessments with
  | Err e => Some (Err e, d)
  | Ok _ =>
      match acquire_write_lock st lock d with
      | (Err e, d) => Some (Err e, d)
      | (Ok _, d) =>
          checked ← recheck fuel fs st (ledger_file d) assessments;
          Some (match checked with
                | Err e => (Err e, release_write_lock d)
                | Ok _ =>
                    let '(r, file) := commit_update st answer (ledger_file d) (Grant assessments) in
                    (r, release_write_lock (mkDisk file (ledger_locked d)))
                end)
      end
  end.
Definition revoke_all fs (st : FolderTrustStore) (lock : LockAnswer) (answer : WriteAnswer)
    (d : LedgerDisk) (paths : list FsPath) : Result unit FolderTrustError * LedgerDisk :=
  match canonical_all fs paths with
  | Err e => (Err e, d)
  | Ok paths =>
      match acquire_write_lock st lock d with
      | (Err e, d) => (Err e, d)
      | (Ok _, d) =>
          let '(r, file) := commit_update st answer (ledger_file d) (Revoke paths) in
          (r, release_write_lock (mkDisk file (ledger_locked d)))
      end
  end.
End store.
