(* ===== verification/FolderTrustSafety.v ===== *)
(** A trusted folder is the folder that was granted: theorems about
    [FolderTrust]. *)
From Stdlib Require Import Ascii.
From S2P Require Import Prelude Text Decimal Ir Estimate Assembly ShellSplit BashSafety PermissionRules PermissionIdentity Sse FolderTrust.

(** * The walk ends *)

Section walk.
Implicit Types fs : Fs.

(** Only these directories can be listed. *)
Definition lists_only fs (dirs : list FsPath) : Prop :=
  ∀ p entries, fs_read_dir fs p = Ok entries → p ∈ dirs.
Fixpoint deepest (dirs : list FsPath) : nat :=
  match dirs with [] => 0%nat | p :: dirs => Nat.max (length p) (deepest dirs) end.
Definition unvisited (dirs : list FsPath) (walk : InventoryWalk) : nat :=
  length (List.filter (λ p, negb (bool_decide (p ∈ ancestors walk))) dirs).
(** The rounds left below an entry *)
Definition walk_measure (dirs : list FsPath) (walk : InventoryWalk) (actual : FsPath) : nat :=
  (unvisited dirs walk * (deepest dirs + 2) + (deepest dirs + 2 - length actual))%nat.
Definition walk_bound (dirs : list FsPath) : nat :=
  S ((length dirs + 1) * (deepest dirs + 2)).

Lemma deepest_elem dirs p : p ∈ dirs → (length p ≤ deepest dirs)%nat.
Proof.
  induction dirs as [|q dirs IH]; cbn; [by intros ?%elem_of_nil|]. intros [->|Hp]%elem_of_cons; [lia|].
  apply IH in Hp. lia.
Qed.
Lemma unvisited_push dirs walk p :
  (unvisited dirs (push_ancestor walk p) ≤ unvisited dirs walk)%nat ∧
  (p ∈ dirs → p ∉ ancestors walk → unvisited dirs (push_ancestor walk p) < unvisited dirs walk)%nat.
Proof.
  unfold unvisited, push_ancestor. cbn [ancestors]. induction dirs as [|q dirs [IH1 IH2]]; cbn [List.filter].
  { split; [done|]. by intros ?%elem_of_nil. }
  destruct (decide (q ∈ ancestors walk)) as [Hq|Hq].
  - rewrite (bool_decide_eq_true_2 (q ∈ p :: _)) by by right. rewrite (bool_decide_eq_true_2 _ Hq). cbn. split; [done|].
    intros [->|Hp]%elem_of_cons Hn; [done|]. by apply IH2.
  - rewrite (bool_decide_eq_false_2 _ Hq). destruct (decide (q = p)) as [->|Hne].
    + rewrite bool_decide_eq_true_2 by by left. cbn. split; [lia|]. intros _ _. lia.
    + rewrite bool_decide_eq_false_2 by (intros [?|?]%elem_of_cons; done). cbn. split; [lia|].
      intros [?|Hp]%elem_of_cons Hn; [done|]. specialize (IH2 Hp Hn). lia.
Qed.

(** What a walk adds *)
Record walk_grows (walk walk' : InventoryWalk) : Prop := mkGrows {
  wg_bounds : link_bounds walk' = link_bounds walk;
  wg_files : ∃ more, walk_files walk' = (walk_files walk ++ more)%list;
  wg_ancestors : ancestors walk' = ancestors walk;
}.
#[local] Instance walk_grows_preorder : PreOrder walk_grows.
Proof.
  split.
  - intros w. split; [done| |done]. exists []. by rewrite app_nil_r.
  - intros w1 w2 w3 [H1 [m1 H2] H3] [K1 [m2 K2] K3]. split; [congruence| |congruence].
    exists (m1 ++ m2)%list. by rewrite K2, H2, (assoc_L app).
Qed.
Lemma walk_grows_elem walk walk' f : walk_grows walk walk' → f ∈ walk_files walk → f ∈ walk_files walk'.
Proof. intros [_ [more ->] _] H. apply elem_of_app. by left. Qed.
Lemma push_file_grows walk display resolved walk' :
  push_file walk display resolved = Ok walk' →
  walk_grows walk walk' ∧ mkInventoryFile display resolved ∈ walk_files walk'.
Proof.
  unfold push_file. case_match; [done|]. intros [= <-]. split; [|apply elem_of_app; right; by left].
  split; [done| |done]. by eexists.
Qed.

Lemma walk_entries_grows entry display actual entries walk walk' :
  (∀ walk1 walk2 d a, entry walk1 d a = Some (Ok walk2) → walk_grows walk1 walk2) →
  walk_entries entry display actual walk entries = Some (Ok walk') → walk_grows walk walk'.
Proof.
  intros Hgrow. revert walk. induction entries as [|[name|source] entries IH]; intros walk; cbn; [by intros [= <-]| |done].
  destruct (entry walk _ _) as [[w1|]|] eqn:E; [|done|done]. intros H. etrans; [by eapply Hgrow|by apply IH].
Qed.
Lemma walk_directory_grows fs entry walk display actual walk' :
  (∀ walk1 walk2 d a, entry walk1 d a = Some (Ok walk2) → walk_grows walk1 walk2) →
  walk_directory fs entry walk display actual = Some (Ok walk') → walk_grows walk walk'.
Proof.
  intros Hgrow. unfold walk_directory. destruct (fs_read_dir fs actual) as [entries|]; [|done].
  destruct (walk_entries _ _ _ _ _) as [[w1|]|] eqn:E; [|done|done]. intros [= <-].
  apply walk_entries_grows in E as [K1 K2 K3]; [|done]. split; [done|done|]. cbn. by rewrite K3.
Qed.
Lemma walk_directory_ends fs entry walk display actual :
  (∀ entries name walk', fs_read_dir fs actual = Ok entries → ancestors walk' = actual :: ancestors walk →
     entry walk' (display ++ [name])%list (actual ++ [name])%list ≠ None) →
  (∀ walk1 walk2 d a, entry walk1 d a = Some (Ok walk2) → walk_grows walk1 walk2) →
  walk_directory fs entry walk display actual ≠ None.
Proof.
  intros Hends Hgrow. unfold walk_directory. destruct (fs_read_dir fs actual) as [entries|source]; [|done].
  specialize (λ name walk', Hends entries name walk' eq_refl).
  cut (∀ w, ancestors w = actual :: ancestors walk → walk_entries entry display actual w entries ≠ None).
  { intros H. specialize (H (push_ancestor walk actual) eq_refl). by destruct (walk_entries _ _ _ _ _) as [[]|]. }
  induction entries as [|[name|source] entries IH]; intros w Hw; cbn [walk_entries]; [done| |done].
  pose proof (Hends name w Hw) as He. destruct (entry w _ _) as [[w1|e]|] eqn:E; [|done|done].
  apply Hgrow in E. apply IH. by rewrite (wg_ancestors _ _ E).
Qed.
Lemma walk_entry_grows fs fuel parent walk display actual walk' :
  walk_entry fuel fs parent walk display actual = Some (Ok walk') → walk_grows walk walk'.
Proof.
  revert parent walk display actual walk'. induction fuel as [|fuel IH]; intros parent walk display actual walk'; cbn; [done|].
  assert (Hdir : ∀ tree w d a w', walk_directory fs (walk_entry fuel fs tree) w d a = Some (Ok w') → walk_grows w w')
    by (intros tree w d a w'; apply walk_directory_grows; eauto).
  destruct (fs_symlink_metadata fs actual) as [[]|source]; [..|case_match; [by intros [= <-]|done]]; try done.
  - intros [= Hpush]. by apply push_file_grows in Hpush as [? _].
  - apply Hdir.
  - case_match; [done|]. case_match; [|done]. case_match; [|done]. case_match. case_match; try done.
    + intros [= Hpush]. by apply push_file_grows in Hpush as [? _].
    + case_match; [done|]. apply Hdir.
Qed.
Lemma walk_entry_ends fs dirs fuel parent walk display actual :
  lists_only fs dirs → (walk_measure dirs walk actual < fuel)%nat →
  walk_entry fuel fs parent walk display actual ≠ None.
Proof.
  intros Hl. revert parent walk display actual. induction fuel as [|fuel IH]; intros parent walk display actual Hm; [lia|].
  cbn [walk_entry].
  assert (Hdir : ∀ tree d a, (∀ w name, a ∈ dirs → ancestors w = a :: ancestors walk →
      walk_measure dirs w (a ++ [name]) < fuel)%nat → walk_directory fs (walk_entry fuel fs tree) walk d a ≠ None).
  { intros tree d a Ha. apply walk_directory_ends; [|intros; by eapply walk_entry_grows].
    intros entries name w Hr Hw. apply IH, Ha; [by eapply Hl|done]. }
  assert (Heq : ∀ a w, ancestors w = a :: ancestors walk → unvisited dirs w = unvisited dirs (push_ancestor walk a)).
  { intros a w Hw. unfold unvisited. by rewrite Hw. }
  destruct (fs_symlink_metadata fs actual) as [[]|source]; [..|by case_match]; try done.
  - apply Hdir. intros w name Ha Hw. apply deepest_elem in Ha. unfold walk_measure in *. rewrite (Heq _ _ Hw), length_app.
    pose proof (unvisited_push dirs walk actual) as [Hu _]. cbn. nia.
  - case_match; [done|]. destruct (resolve_link fs walk display actual) as [target|e]; [|done].
    destruct (fs_stat fs target) as [[[] uid]|source]; try done.
    destruct (existsb _ (ancestors walk)) eqn:Ex; [done|].
    assert (target ∉ ancestors walk) as Hn.
    { intros Hin. assert (existsb (λ ancestor, bool_decide (ancestor = target)) (ancestors walk) = true) as Ht; [|congruence].
      apply existsb_exists. exists target. split; [by apply list_elem_of_In|by apply bool_decide_eq_true_2]. }
    apply Hdir. intros w name Ha Hw. unfold walk_measure in *. rewrite (Heq _ _ Hw), length_app.
    pose proof (unvisited_push dirs walk target) as [_ Hu]. specialize (Hu Ha Hn). cbn. nia.
Qed.

(** * The walk finds every file *)

(** A regular file below [actual], reached through directories *)
Inductive plain fs : FsPath → list string → Prop :=
| plain_here p : fs_symlink_metadata fs p = Ok KFile → plain fs p []
| plain_below p entries name rest :
    fs_symlink_metadata fs p = Ok KDir → fs_read_dir fs p = Ok entries → Ok name ∈ entries →
    plain fs (p ++ [name]) rest → plain fs p (name :: rest).

Lemma plain_directory fs p suffix :
  fs_symlink_metadata fs p = Ok KDir → plain fs p suffix →
  ∃ entries name rest, suffix = name :: rest ∧ fs_read_dir fs p = Ok entries ∧ Ok name ∈ entries ∧ plain fs (p ++ [name]) rest.
Proof. intros Hk. destruct 1 as [p Hf|p entries name rest _ Hr Hn Hp]; [congruence|]. by exists entries, name, rest. Qed.
Lemma walk_directory_finds fs entry walk display actual entries name f walk' :
  (∀ walk1 walk2 d a, entry walk1 d a = Some (Ok walk2) → walk_grows walk1 walk2) →
  fs_read_dir fs actual = Ok entries → Ok name ∈ entries →
  (∀ walk1 walk2, entry walk1 (display ++ [name])%list (actual ++ [name])%list = Some (Ok walk2) → f ∈ walk_files walk2) →
  walk_directory fs entry walk display actual = Some (Ok walk') → f ∈ walk_files walk'.
Proof.
  intros Hgrow Hr Hin Hf. unfold walk_directory. rewrite Hr.
  cut (∀ w w', walk_entries entry display actual w entries = Some (Ok w') → f ∈ walk_files w').
  { intros H. destruct (walk_entries _ _ _ _ _) as [[w1|]|] eqn:E; [|done|done]. intros [= <-]. exact (H _ w1 E). }
  clear Hr. induction entries as [|[n|source] entries IH]; [by apply elem_of_nil in Hin|..]; intros w w'; cbn; [|done].
  destruct (entry w _ _) as [[w1|]|] eqn:E; [|done|done]. intros H.
  apply elem_of_cons in Hin as [[= <-]|Hin]; [|by eapply IH].
  eapply walk_grows_elem; [by eapply walk_entries_grows|by eapply Hf].
Qed.
Lemma walk_entry_finds fs fuel parent walk display actual suffix walk' :
  plain fs actual suffix → entry_tree display parent ≠ Resolved →
  walk_entry fuel fs parent walk display actual = Some (Ok walk') →
  mkInventoryFile (display ++ suffix) None ∈ walk_files walk'.
Proof.
  intros Hp. revert fuel parent walk display walk'.
  induction Hp as [p Hk|p entries name rest Hk Hr Hin Hp IH]; intros [|fuel] parent walk display walk' Ht; cbn [walk_entry];
    try done; rewrite Hk.
  - rewrite app_nil_r, bool_decide_eq_false_2 by done. intros [= Hpush]. by apply push_file_grows in Hpush as [_ ?].
  - apply walk_directory_finds with (entries := entries) (name := name); [intros; by eapply walk_entry_grows|done|done|].
    intros walk1 walk2 E. replace (display ++ name :: rest)%list with ((display ++ [name]) ++ rest)%list
      by by rewrite <- (assoc_L app).
    eapply IH; [|exact E].
    by destruct (entry_tree display parent); cbn; try case_bool_decide.
Qed.

(** * The locations *)

(** Regular files of the project that the trust decision covers, by their path in
    the workspace *)
Definition governed fs (workspace relative : FsPath) : Prop :=
  ∃ location subdirectories rest, (location, subdirectories) ∈ LOCATIONS ∧ relative = location :: rest ∧
    fs_symlink_metadata fs (workspace ++ [location])%list = Ok KDir ∧
    match subdirectories with
    | None => plain fs (workspace ++ [location]) rest
    | Some names => ∃ name rest', rest = name :: rest' ∧ name ∈ names ∧ plain fs (workspace ++ [location; name]) rest'
    end.
Lemma walk_names_grows fs fuel root names walk walk' :
  walk_names fuel fs root walk names = Some (Ok walk') → walk_grows walk walk'.
Proof.
  revert walk. induction names as [|name names IH]; intros walk; cbn; [by intros [= <-]|].
  destruct (walk_entry fuel fs LocationRoot walk _ _) as [[w|]|] eqn:E; [|done|done]. intros H.
  etrans; [by eapply walk_entry_grows|by apply IH].
Qed.
Lemma walk_names_finds fs fuel root names name rest walk walk' :
  name ∈ names → plain fs (root ++ [name]) rest → walk_names fuel fs root walk names = Some (Ok walk') →
  mkInventoryFile (root ++ name :: rest) None ∈ walk_files walk'.
Proof.
  intros Hin Hp. revert walk. induction names as [|n names IH]; intros walk; cbn; [by apply elem_of_nil in Hin|].
  destruct (walk_entry fuel fs LocationRoot walk _ _) as [[w|]|] eqn:E; [|done|done]. intros H.
  apply elem_of_cons in Hin as [<-|Hin]; [|by eapply IH]. eapply walk_grows_elem; [by eapply walk_names_grows|].
  replace (root ++ name :: rest)%list with ((root ++ [name]) ++ rest)%list by by rewrite <- (assoc_L app).
  eapply walk_entry_finds; [done| |exact E]. unfold entry_tree. by case_bool_decide.
Qed.
Lemma walk_location_grows fuel fs workspace walk location walk' :
  walk_location fuel fs workspace walk location = Some (Ok walk') → walk_grows walk walk'.
Proof.
  unfold walk_location. destruct (fs_symlink_metadata fs _) as [[]|source]; try done; [|case_match; [by intros [= <-]|done]].
  destruct location.2 as [names|]; [apply walk_names_grows|]. apply walk_directory_grows. intros. by eapply walk_entry_grows.
Qed.
Lemma walk_locations_grows fuel fs workspace walk locations walk' :
  walk_locations fuel fs workspace walk locations = Some (Ok walk') → walk_grows walk walk'.
Proof.
  revert walk. induction locations as [|l locations IH]; intros walk; [by intros [= <-]|]. cbn [walk_locations].
  destruct (walk_location _ _ _ _ _) as [[w|]|] eqn:E; [|done|done]. intros H.
  etrans; [by eapply walk_location_grows|by apply IH].
Qed.
Lemma walk_locations_finds fuel fs workspace walk walk' relative :
  governed fs workspace relative → walk_locations fuel fs workspace walk LOCATIONS = Some (Ok walk') →
  mkInventoryFile (workspace ++ relative) None ∈ walk_files walk'.
Proof.
  intros (location & subs & rest & Hin & -> & Hk & Hrest). generalize LOCATIONS, Hin. clear Hin. intros locations Hin.
  revert walk. induction locations as [|l locations IH]; intros walk; [by apply elem_of_nil in Hin|].
  cbn [walk_locations]. destruct (walk_location _ _ _ _ _) as [[w|]|] eqn:E; [|done|done]. intros H.
  apply elem_of_cons in Hin as [<-|Hin]; [|by eapply IH]. eapply walk_grows_elem; [by eapply walk_locations_grows|].
  unfold walk_location in E. cbn [fst snd] in E. rewrite Hk in E. destruct subs as [names|].
  - destruct Hrest as (name & rest' & -> & Hn & Hp).
    replace (workspace ++ location :: name :: rest')%list with ((workspace ++ [location]) ++ name :: rest')%list
      by by rewrite <- (assoc_L app).
    eapply walk_names_finds; [done| |exact E]. by rewrite <- (assoc_L app).
  - destruct (plain_directory fs _ _ Hk Hrest) as (entries & name & rest' & -> & Hr & Hnm & Hp).
    replace (workspace ++ location :: name :: rest')%list with (((workspace ++ [location]) ++ [name]) ++ rest')%list
      by by rewrite <- !(assoc_L app).
    eapply walk_directory_finds; [intros; by eapply walk_entry_grows|exact Hr|exact Hnm| |exact E].
    intros w1 w2 E'. eapply walk_entry_finds; [exact Hp| |exact E']. unfold entry_tree. by case_bool_decide.
Qed.

Lemma walk_entry_ends_bound fs dirs fuel parent walk display actual :
  lists_only fs dirs → (walk_bound dirs ≤ fuel)%nat → walk_entry fuel fs parent walk display actual ≠ None.
Proof.
  intros Hl Hb. apply (walk_entry_ends fs dirs); [done|]. unfold walk_bound, walk_measure in *.
  assert (unvisited dirs walk ≤ length dirs)%nat.
  { unfold unvisited. clear. induction dirs as [|p dirs IH]; cbn; [lia|]. case_match; cbn; lia. }
  nia.
Qed.
Lemma walk_locations_ends fs dirs fuel workspace walk locations :
  lists_only fs dirs → (walk_bound dirs ≤ fuel)%nat → walk_locations fuel fs workspace walk locations ≠ None.
Proof.
  intros Hl Hb. revert walk. induction locations as [|l locations IH]; intros walk; cbn [walk_locations]; [done|].
  assert (walk_location fuel fs workspace walk l ≠ None) as Hloc.
  { unfold walk_location. destruct (fs_symlink_metadata fs _) as [[]|source]; try done; [|by case_match].
    destruct l.2 as [names|].
    - generalize walk. induction names as [|name names IHn]; intros w; cbn; [done|].
      pose proof (walk_entry_ends_bound fs dirs fuel LocationRoot w ((workspace ++ [l.1]) ++ [name])
        ((workspace ++ [l.1]) ++ [name]) Hl Hb) as He.
      by destruct (walk_entry fuel fs LocationRoot w _ _) as [[]|].
    - apply walk_directory_ends; [|intros; by eapply walk_entry_grows]. intros entries name w _ _.
      by apply (walk_entry_ends_bound fs dirs). }
  by destruct (walk_location _ _ _ _ _) as [[]|].
Qed.
End walk.

Section inventory.
Context {B : Blake3}.
Implicit Types fs : Fs.

(** The inventory is complete after [walk_bound] rounds, however links lead. *)
Lemma executable_inventory_ends fs dirs fuel workspace home :
  lists_only fs dirs → (walk_bound dirs ≤ fuel)%nat → executable_inventory fuel fs workspace home ≠ None.
Proof.
  intros Hl Hb. unfold executable_inventory. pose proof (walk_locations_ends fs dirs fuel workspace
    (mkWalk (workspace :: home_bound fs home) [] []) LOCATIONS Hl Hb). by destruct (walk_locations _ _ _ _ _).
Qed.

(** * Contents *)

(** What an open file holds *)
Definition contents fs (p : FsPath) (bytes : string) : Prop := fs_open_file fs p = Ok (Ok KFile, Ok bytes).
Lemma read_regular_contents fs p display bytes opened bytes' :
  contents fs p bytes → fs_open_file fs p = Ok opened → read_regular_file opened display = Ok bytes' → bytes' = bytes.
Proof.
  unfold contents. intros H1 H2. rewrite H1 in H2. injection H2 as <-. unfold read_regular_file.
  assert (0 ≤ MAX_INVENTORY_FILE_BYTES) as H0 by done. revert H0. generalize MAX_INVENTORY_FILE_BYTES. intros limit H0.
  rewrite bool_decide_eq_true_2 by done. cbn [negb]. cbv zeta.
  unfold read_at_most. destruct (Z.leb_spec (str_len bytes) (limit + 1)) as [H|H].
  { case_match; [done|]. by intros [= <-]. }
  unfold str_len in *. rewrite length_str_take by lia. destruct (Z.ltb_spec limit (Z.of_nat (Z.to_nat (limit + 1)))); [done|lia].
Qed.
Lemma read_workspace_contents fs workspace relative bytes bytes' :
  contents fs (workspace ++ relative) bytes → read_workspace_file fs workspace relative = Ok bytes' → bytes' = bytes.
Proof.
  intros Hc. unfold read_workspace_file. destruct (fs_open_directory fs workspace); [|done].
  destruct (open_directories _ _ _ _ _); cbn; [|done]. destruct (last relative); [|done].
  destruct (fs_open_file fs (workspace ++ relative)) as [opened|] eqn:E; [|done]. by eapply read_regular_contents.
Qed.
Lemma strip_path_app prefix p : strip_path prefix (prefix ++ p) = Some p.
Proof. induction prefix as [|a prefix IH]; cbn; [done|]. by rewrite String.eqb_refl. Qed.
Lemma read_inventory_item fs workspace files total items file :
  read_inventory fs workspace files total = Ok items → file ∈ files →
  ∃ t item t', read_inventory_file fs workspace file t = Ok (item, t') ∧ item ∈ items.
Proof.
  revert total items. induction files as [|f files IH]; intros total items; cbn; [by intros _ ?%elem_of_nil|].
  destruct (read_inventory_file fs workspace f total) as [[item t']|] eqn:E; [|done]. cbn.
  destruct (read_inventory fs workspace files t') as [items'|] eqn:E'; [|done]. cbn. intros [= <-].
  intros [->|Hf]%elem_of_cons; [exists total, item, t'; split; [done|by left]|].
  destruct (IH t' items' E' Hf) as (t & item' & t'' & H & Hin). exists t, item', t''. split; [done|by right].
Qed.
Lemma inventory_covers fuel fs workspace home items relative bytes :
  executable_inventory fuel fs workspace home = Some (Ok items) →
  governed fs workspace relative → contents fs (workspace ++ relative) bytes →
  ∃ item, item ∈ items ∧ item_path item = backslashes_to_slashes (join "/" relative) ∧
    item_hash item = blake3_hex bytes ∧ item_bytes item = str_len bytes.
Proof.
  unfold executable_inventory. intros Hi Hg Hc. destruct (walk_locations _ _ _ _ _) as [[walk|]|] eqn:E; [|done|done].
  cbn in Hi. injection Hi as Hi. eapply walk_locations_finds in E; [|done].
  assert (mkInventoryFile (workspace ++ relative) None ∈ stable_sort file_le (walk_files walk)) as Hf by by rewrite stable_sort_perm.
  destruct (read_inventory_item _ _ _ _ _ _ Hi Hf) as (t & item & t' & Hr & Hin). exists item. split; [done|].
  unfold read_inventory_file in Hr. cbn [file_display file_resolved] in Hr. rewrite strip_path_app in Hr. cbn in Hr.
  destruct (read_workspace_file fs workspace relative) as [b|] eqn:Er; [|done]. cbn in Hr.
  apply read_workspace_contents with (bytes := bytes) in Er; [|done]. subst b. case_match; [done|].
  unfold relative_name in Hr. destruct (utf8_valid _ _); [|done]. cbn in Hr. by injection Hr as <- _.
Qed.

(** * What the hash of an inventory identifies *)

Definition no_nul (s : string) : Prop := str_all (λ c, negb (Ascii.eqb c (ascii_of_nat 0))) s = true.
Lemma nul_split s1 s2 t1 t2 : no_nul s1 → no_nul s2 → (s1 ++ NUL ++ t1)%string = (s2 ++ NUL ++ t2)%string → s1 = s2 ∧ t1 = t2.
Proof.
  unfold no_nul. revert s2. induction s1 as [|c s1 IH]; intros [|d s2] H1 H2 E.
  - change (String (ascii_of_nat 0) t1 = String (ascii_of_nat 0) t2) in E. by injection E as ->.
  - change (String (ascii_of_nat 0) t1 = String d (s2 ++ NUL ++ t2)) in E. injection E as <- _. by cbn in H2.
  - change (String c (s1 ++ NUL ++ t1) = String (ascii_of_nat 0) t2) in E. injection E as -> _. by cbn in H1.
  - change (String c (s1 ++ NUL ++ t1) = String d (s2 ++ NUL ++ t2)) in E. injection E as <- E.
    cbn [str_all] in *. apply andb_true_iff in H1 as [_ H1]. apply andb_true_iff in H2 as [_ H2].
    by destruct (IH s2 H1 H2 E) as [-> ->].
Qed.
Record item_ok (item : TrustInventoryItem) : Prop := mkItemOk {
  io_path : no_nul (item_path item);
  io_kind : no_nul (item_kind item);
  io_hash : no_nul (item_hash item);
  io_bytes : 0 ≤ item_bytes item < 2 ^ 64;
}.
Lemma item_preimage_inj x y tx ty :
  item_ok x → item_ok y → (item_preimage x ++ tx)%string = (item_preimage y ++ ty)%string → x = y ∧ tx = ty.
Proof.
  intros [X1 X2 X3 X4] [Y1 Y2 Y3 Y4]. unfold item_preimage. rewrite !str_app_assoc.
  intros [E1 E]%nul_split; [|done|done]. apply nul_split in E as [E2 E]; [|done|done].
  apply nul_split in E as [E3 E]; [|done|done]. apply string_app_inj in E as [E4 ->]; [|unfold le64; by rewrite !le_bytes_length].
  apply le_bytes_inj in E4; [|exact X4|exact Y4]. split; [|done]. destruct x, y; cbn in *; by subst.
Qed.
Lemma inventory_preimage_inj xs ys :
  Forall item_ok xs → Forall item_ok ys → inventory_preimage xs = inventory_preimage ys → xs = ys.
Proof.
  unfold inventory_preimage. intros Hx Hy [_ E]%string_app_inj; [|done]. apply string_app_inj in E as [_ E]; [|done].
  revert ys Hy E. induction Hx as [|x xs Hx Hxs IH]; intros ys Hy E; destruct Hy as [|y ys Hy Hys]; cbn [items_preimage] in E.
  - done.
  - exfalso. apply (f_equal String.length) in E. unfold item_preimage in E. rewrite !str_length_app in E. cbn in E. lia.
  - exfalso. apply (f_equal String.length) in E. unfold item_preimage in E. rewrite !str_length_app in E. cbn in E. lia.
  - apply item_preimage_inj in E as [-> E]; [|done|done]. f_equal. by apply IH.
Qed.

(** * Every item of an inventory can be told apart *)

Lemma push_file_all (P : FsPath → Prop) walk display resolved walk' :
  P display → Forall (λ f, P (file_display f)) (walk_files walk) → push_file walk display resolved = Ok walk' →
  Forall (λ f, P (file_display f)) (walk_files walk').
Proof.
  intros Hd Hw. unfold push_file. case_match; [done|]. intros [= <-]. cbn. apply Forall_app. split; [done|]. by repeat constructor.
Qed.
Lemma walk_directory_all (P : FsPath → Prop) fs entry walk display actual walk' :
  (∀ d a entries name, fs_read_dir fs a = Ok entries → Ok name ∈ entries → P d → P (d ++ [name])%list) →
  (∀ w d a w', P d → Forall (λ f, P (file_display f)) (walk_files w) → entry w d a = Some (Ok w') →
     Forall (λ f, P (file_display f)) (walk_files w')) →
  P display → Forall (λ f, P (file_display f)) (walk_files walk) →
  walk_directory fs entry walk display actual = Some (Ok walk') → Forall (λ f, P (file_display f)) (walk_files walk').
Proof.
  intros HP He Hd Hw. unfold walk_directory. destruct (fs_read_dir fs actual) as [entries|] eqn:Er; [|done].
  assert (Hall : ∀ l w w', (∀ n, Ok n ∈ l → Ok n ∈ entries) → Forall (λ f, P (file_display f)) (walk_files w) →
    walk_entries entry display actual w l = Some (Ok w') → Forall (λ f, P (file_display f)) (walk_files w')).
  { induction l as [|[name|source] l IH]; intros w w' Hl Hf; cbn; [by intros [= <-]| |done].
    destruct (entry w _ _) as [[w1|]|] eqn:E; [|done|done]. apply IH; [intros n Hn; apply Hl; by right|].
    eapply He; [|exact Hf|exact E]. eapply HP; [exact Er|apply Hl; by left|done]. }
  destruct (walk_entries _ _ _ _ _) as [[w1|]|] eqn:E; [|done|done]. intros [= <-]. cbn.
  by apply (Hall entries (push_ancestor walk actual) w1).
Qed.
Lemma walk_entry_all (P : FsPath → Prop) fs fuel parent walk display actual walk' :
  (∀ d a entries name, fs_read_dir fs a = Ok entries → Ok name ∈ entries → P d → P (d ++ [name])%list) →
  P display → Forall (λ f, P (file_display f)) (walk_files walk) →
  walk_entry fuel fs parent walk display actual = Some (Ok walk') → Forall (λ f, P (file_display f)) (walk_files walk').
Proof.
  intros HP. revert parent walk display actual walk'.
  induction fuel as [|fuel IH]; intros parent walk display actual walk' Hd Hw; cbn; [done|].
  assert (Hdir : ∀ tree a, walk_directory fs (walk_entry fuel fs tree) walk display a = Some (Ok walk') →
    Forall (λ f, P (file_display f)) (walk_files walk')) by (intros tree a; apply walk_directory_all; eauto).
  destruct (fs_symlink_metadata fs actual) as [[]|source]; [..|case_match; [by intros [= <-]|done]]; try done.
  - intros [= Hpush]. by eapply push_file_all.
  - apply Hdir.
  - case_match; [done|]. case_match; [|done]. case_match; [|done]. case_match. case_match; try done.
    + intros [= Hpush]. by eapply push_file_all.
    + case_match; [done|]. apply Hdir.
Qed.
Lemma walk_locations_all (P : FsPath → Prop) fs fuel workspace walk locations walk' :
  (∀ d a entries name, fs_read_dir fs a = Ok entries → Ok name ∈ entries → P d → P (d ++ [name])%list) →
  (∀ l, l ∈ locations → P (workspace ++ [l.1])%list ∧ ∀ names n, l.2 = Some names → n ∈ names → P ((workspace ++ [l.1]) ++ [n])%list) →
  Forall (λ f, P (file_display f)) (walk_files walk) →
  walk_locations fuel fs workspace walk locations = Some (Ok walk') → Forall (λ f, P (file_display f)) (walk_files walk').
Proof.
  intros HP Hl. revert walk. induction locations as [|l locations IH]; intros walk Hw; cbn [walk_locations]; [by intros [= <-]|].
  destruct (walk_location _ _ _ _ _) as [[w|]|] eqn:E; [|done|done]. apply IH; [intros l' Hl'; apply Hl; by right|].
  destruct (Hl l) as [H1 H2]; [by left|]. clear IH Hl. unfold walk_location in E.
  destruct (fs_symlink_metadata fs _) as [[]|source]; try done; [|case_match; [by injection E as <-|done]].
  destruct l.2 as [names|]; [|eapply walk_directory_all; [exact HP|intros; by eapply walk_entry_all|exact H1|exact Hw|exact E]].
  specialize (H2 names). revert walk Hw E. clear -HP H2. induction names as [|n names IH]; intros walk Hw; cbn; [by intros [= <-]|].
  destruct (walk_entry _ _ _ _ _ _) as [[w1|]|] eqn:E; [|done|done]. apply IH; [intros m _ Hm; apply H2; [done|by right]|].
  eapply walk_entry_all; [exact HP|apply H2; [done|by left]|exact Hw|exact E].
Qed.

(** A name of a file holds no NUL byte. *)
Definition names_ok fs : Prop :=
  ∀ p entries name, fs_read_dir fs p = Ok entries → Ok name ∈ entries → no_nul name.
(** [to_hex] writes hexadecimal digits. *)
Class HexDigests : Prop := hex_no_nul : ∀ s, no_nul (blake3_hex s).
Context {HD : HexDigests}.

Lemma no_nul_app s t : no_nul s → no_nul t → no_nul (s ++ t).
Proof.
  unfold no_nul. induction s as [|c s IH]; [done|]. intros H Ht.
  change (negb (Ascii.eqb c (ascii_of_nat 0)) && str_all (λ c, negb (Ascii.eqb c (ascii_of_nat 0))) (s ++ t) = true).
  cbn [str_all] in H. apply andb_true_iff in H as [H1 H2]. by rewrite H1, IH.
Qed.
Lemma no_nul_join l : Forall no_nul l → no_nul (join "/" l).
Proof.
  induction 1 as [|x l Hx Hl IH]; [done|]. destruct l as [|y l]; [done|].
  change (no_nul (x ++ "/" ++ join "/" (y :: l))). by repeat apply no_nul_app.
Qed.
Lemma no_nul_slashes s : no_nul s → no_nul (backslashes_to_slashes s).
Proof.
  unfold no_nul. induction s as [|c s IH]; [done|]. cbn [str_all backslashes_to_slashes].
  intros [H1 H2]%andb_true_iff. rewrite IH by done. destruct (Ascii.eqb c "\"); [done|by rewrite H1].
Qed.
Lemma no_nul_kind path : no_nul (inventory_kind path).
Proof. unfold inventory_kind. cbv zeta. by repeat case_match. Qed.
Lemma read_regular_size opened display bytes :
  read_regular_file opened display = Ok bytes → 0 ≤ str_len bytes < 2 ^ 64.
Proof.
  destruct opened as [[kind|] [content|]]; cbn [read_regular_file]; try done; case_match; try done.
  assert (MAX_INVENTORY_FILE_BYTES < 2 ^ 64) as Hm by done. revert Hm. generalize MAX_INVENTORY_FILE_BYTES. intros limit Hm.
  cbv zeta. destruct (Z.ltb_spec limit (str_len (read_at_most (limit + 1) content))); [done|]. intros [= <-].
  unfold str_len in *. lia.
Qed.
Lemma read_inventory_file_ok fs workspace file t item t' :
  (∀ relative, strip_path workspace (file_display file) = Some relative → Forall no_nul relative) →
  read_inventory_file fs workspace file t = Ok (item, t') → item_ok item.
Proof.
  intros Hrel. unfold read_inventory_file, relative_name, ok_or.
  destruct (strip_path workspace (file_display file)) as [relative|]; [|done].
  destruct (match file_resolved file with None => _ | Some _ => _ end) as [bytes|] eqn:Er; [|done]. cbv beta iota zeta.
  destruct (MAX_INVENTORY_TOTAL_BYTES <? _); [done|]. destruct (utf8_valid _ _); [|done]. intros [= <- _].
  split; cbn [item_path item_kind item_hash item_bytes].
  - by apply no_nul_slashes, no_nul_join, Hrel.
  - apply no_nul_kind.
  - apply hex_no_nul.
  - destruct (file_resolved file) as [target|].
    + unfold read_resolved_file in Er. destruct (fs_open_file fs target); [|done]. by eapply read_regular_size.
    + unfold read_workspace_file in Er. destruct (fs_open_directory fs workspace); [|done].
      destruct (open_directories _ _ _ _ _); cbn in Er; [|done]. destruct (last relative); [|done].
      destruct (fs_open_file fs _); [|done]. by eapply read_regular_size.
Qed.
Lemma strip_path_inv prefix p rest : strip_path prefix p = Some rest → p = (prefix ++ rest)%list.
Proof.
  revert p. induction prefix as [|a prefix IH]; intros p; cbn; [by intros [= ->]|]. destruct p as [|b p]; [done|].
  destruct (String.eqb_spec a b) as [->|]; [|done]. intros H. by rewrite (IH p H).
Qed.
Lemma inventory_items_ok fuel fs workspace home items :
  names_ok fs → executable_inventory fuel fs workspace home = Some (Ok items) → Forall item_ok items.
Proof.
  intros Hn. unfold executable_inventory. destruct (walk_locations _ _ _ _ _) as [[walk|]|] eqn:E; [|done|done]. cbn. intros [= Hr].
  apply (walk_locations_all (λ p, ∃ rel, p = (workspace ++ rel)%list ∧ Forall no_nul rel)) in E; [|..|by constructor].
  - assert (Hfiles : Forall (λ f, ∀ rel, strip_path workspace (file_display f) = Some rel → Forall no_nul rel)
      (stable_sort file_le (walk_files walk))).
    { rewrite stable_sort_perm. eapply Forall_impl; [exact E|]. intros f (rel & Hd & Hrel) rel' Hs. rewrite Hd, strip_path_app in Hs. congruence. }
    clear E. revert items Hr. generalize 0 as t. induction Hfiles as [|f files Hf Hfs IH]; intros t items; cbn; [by intros [= <-]|].
    destruct (read_inventory_file fs workspace f t) as [[item t']|] eqn:Ef; [|done]. cbn.
    destruct (read_inventory fs workspace files t') as [items'|] eqn:Er; [|done]. cbn. intros [= <-].
    constructor; [by eapply read_inventory_file_ok|by eapply IH].
  - intros d a entries name Hr' Hin (rel & -> & Hrel). exists (rel ++ [name])%list. split; [by rewrite <- (assoc_L app)|].
    apply Forall_app. split; [done|]. repeat constructor. by eapply Hn.
  - assert (Hone : ∀ a, no_nul a → ∃ rel, (workspace ++ [a])%list = (workspace ++ rel)%list ∧ Forall no_nul rel)
      by (intros a Ha; exists [a]; by repeat constructor).
    intros l Hl. unfold LOCATIONS in Hl. rewrite !elem_of_cons in Hl.
    destruct Hl as [->|[->|[->|Hl%elem_of_nil]]]; [..|done]; cbn [fst snd]; (split; [by apply Hone|]); [done|done|].
    intros names n [= <-] Hin. exists [".claude"%string; n]. split; [by rewrite <- (assoc_L app)|].
    rewrite !elem_of_cons in Hin. destruct Hin as [->|[->|Hin%elem_of_nil]]; [..|done]; by repeat constructor.
Qed.
End inventory.
