(* ===== verification/FolderTrustLedger.v ===== *)
(** Writers of the trust ledger, and what a trusted folder is: theorems about
    [FolderTrust].

    Processes read the ledger, change it and replace it under a lock; they die
    at any point.  The ledger is always the result of the committed decisions,
    one after the other. *)
From Stdlib Require Import Ascii.
From S2P Require Import Prelude Text Decimal Ir Estimate Assembly ShellSplit BashSafety PermissionRules PermissionIdentity Sse FolderTrust FolderTrustSafety.

Section ledger.
Context {B : Blake3} {J : TrustJson}.
Implicit Types fs : Fs.

(** * Interleaved writers *)

(** A writer that took the lock: before its check, after it, after it read the
    ledger, and with nothing left to do.  [fs] answered its check. *)
Inductive Writer : Type :=
| Holding (u : TrustUpdate)
| Checked (u : TrustUpdate) (fs : Fs)
| HasRead (u : TrustUpdate) (fs : Fs) (ledger : TrustLedger)
| Releasing.
Record TrustWorld : Type := mkWorld {
  w_disk : LedgerDisk;
  w_writers : gmap nat Writer;
  w_log : list (TrustUpdate * Fs);
}.
Definition ready (u : TrustUpdate) : Prop :=
  match u with
  | Grant assessments => untrustable_among assessments = Ok tt
  | Revoke paths => ∃ fs asked, canonical_all fs asked = Ok paths
  end.

(** The new ledger is in place. *)
Definition committed (st : FolderTrustStore) (answer : WriteAnswer) : bool :=
  match parent_of (store_path st), answer with Some _, (Written | WrittenUnprotected) => true | _, _ => false end.

Inductive trust_step (st : FolderTrustStore) (w : TrustWorld) : TrustWorld → Prop :=
| take_lock p u answer d :
    w_writers w !! p = None → ready u → acquire_write_lock st answer (w_disk w) = (Ok tt, d) →
    trust_step st w (mkWorld d (<[p := Holding u]> (w_writers w)) (w_log w))
| miss_lock answer e d :
    acquire_write_lock st answer (w_disk w) = (Err e, d) →
    trust_step st w (mkWorld d (w_writers w) (w_log w))
| check_grant p assessments fuel fs :
    w_writers w !! p = Some (Holding (Grant assessments)) →
    recheck fuel fs st (ledger_file (w_disk w)) assessments = Some (Ok tt) →
    trust_step st w (mkWorld (w_disk w) (<[p := Checked (Grant assessments) fs]> (w_writers w)) (w_log w))
| check_revoke p paths fs :
    w_writers w !! p = Some (Holding (Revoke paths)) →
    trust_step st w (mkWorld (w_disk w) (<[p := Checked (Revoke paths) fs]> (w_writers w)) (w_log w))
| read_step p u fs ledger :
    w_writers w !! p = Some (Checked u fs) → read_ledger st (ledger_file (w_disk w)) = Ok ledger →
    trust_step st w (mkWorld (w_disk w) (<[p := HasRead u fs ledger]> (w_writers w)) (w_log w))
| write_step p u fs ledger ledger' answer r file :
    w_writers w !! p = Some (HasRead u fs ledger) → update_ledger u ledger = Ok ledger' →
    write_ledger st answer (ledger_file (w_disk w)) ledger' = (r, file) →
    trust_step st w (mkWorld (mkDisk file (ledger_locked (w_disk w))) (<[p := Releasing]> (w_writers w))
      (w_log w ++ if committed st answer then [(u, fs)] else []))
| abandon p writer :
    w_writers w !! p = Some writer →
    trust_step st w (mkWorld (w_disk w) (<[p := Releasing]> (w_writers w)) (w_log w))
| release_step p :
    w_writers w !! p = Some Releasing →
    trust_step st w (mkWorld (release_write_lock (w_disk w)) (delete p (w_writers w)) (w_log w))
| die p :
    trust_step st w (mkWorld (w_disk w) (delete p (w_writers w)) (w_log w)).

(** The functions of the store are runs of these steps. *)
Lemma finish_steps st p w file lk writers log :
  writers !! p = None →
  rtc (trust_step st) (mkWorld (mkDisk file lk) (<[p := w]> writers) log)
    (mkWorld (release_write_lock (mkDisk file lk)) writers log).
Proof.
  intros Hp. eapply rtc_l; [apply (abandon st _ p w), lookup_insert_eq|]. cbn [w_disk w_writers w_log].
  rewrite insert_insert_eq. eapply rtc_l; [apply (release_step st _ p), lookup_insert_eq|]. cbn [w_disk w_writers w_log].
  rewrite delete_insert_eq, delete_id by done. apply rtc_refl.
Qed.
Lemma commit_steps st answer file lk u fs writers log p r file' :
  writers !! p = None → commit_update st answer file u = (r, file') →
  ∃ log', rtc (trust_step st) (mkWorld (mkDisk file lk) (<[p := Checked u fs]> writers) log)
    (mkWorld (release_write_lock (mkDisk file' lk)) writers log').
Proof.
  intros Hp. unfold commit_update. destruct (read_ledger st file) as [ledger|e] eqn:Hr; last first.
  { intros [= <- <-]. exists log. by apply finish_steps. }
  destruct (update_ledger u ledger) as [ledger'|e] eqn:Hu; last first.
  { intros [= <- <-]. exists log. by apply finish_steps. }
  intros Hw. eexists. eapply rtc_l; [by eapply (read_step st _ p), Hr; apply lookup_insert_eq|].
  cbn [w_disk w_writers w_log]. rewrite insert_insert_eq.
  eapply rtc_l; [by eapply (write_step st _ p), Hw; [apply lookup_insert_eq|exact Hu]|].
  cbn [w_disk w_writers w_log ledger_locked]. rewrite insert_insert_eq. by apply finish_steps.
Qed.
Lemma lock_steps st lock d u d' writers log p :
  writers !! p = None → ready u → acquire_write_lock st lock d = (Ok tt, d') →
  rtc (trust_step st) (mkWorld d writers log) (mkWorld d' (<[p := Holding u]> writers) log).
Proof. intros Hp Hu Ha. apply rtc_once. by eapply (take_lock st (mkWorld d writers log)). Qed.
Lemma grant_all_steps fuel fs st lock answer d assessments r d' writers log p :
  writers !! p = None → grant_all fuel fs st lock answer d assessments = Some (r, d') →
  ∃ log', rtc (trust_step st) (mkWorld d writers log) (mkWorld d' writers log').
Proof.
  intros Hp. unfold grant_all. destruct (untrustable_among assessments) as [[]|e] eqn:Hu; [|intros [= <- <-]; by exists log].
  destruct (acquire_write_lock st lock d) as [[[]|e] [file lk]] eqn:Ha; last first.
  { intros [= <- <-]. exists log. apply rtc_once. by eapply (miss_lock st (mkWorld d writers log)). }
  apply (lock_steps st lock d (Grant assessments) _ writers log p) in Ha; [|done|done]. cbn [ledger_file ledger_locked].
  destruct (recheck _ _ _ _ _) as [[[]|e]|] eqn:Hc; [..|done]; cbn [mbind option_bind].
  - destruct (commit_update st answer file (Grant assessments)) as [r' file'] eqn:E. intros [= <- <-].
    destruct (commit_steps st answer file lk (Grant assessments) fs writers log p r' file' Hp E) as [log' Hs].
    exists log'. etrans; [exact Ha|]. eapply rtc_l; [by eapply (check_grant st _ p), Hc; apply lookup_insert_eq|].
    cbn [w_disk w_writers w_log]. by rewrite insert_insert_eq.
  - intros [= <- <-]. exists log. etrans; [exact Ha|by apply finish_steps].
Qed.
Lemma revoke_all_steps fs st lock answer d paths r d' writers log p :
  writers !! p = None → revoke_all fs st lock answer d paths = (r, d') →
  ∃ log', rtc (trust_step st) (mkWorld d writers log) (mkWorld d' writers log').
Proof.
  intros Hp. unfold revoke_all. destruct (canonical_all fs paths) as [canonical|e] eqn:Hc; [|intros [= <- <-]; by exists log].
  destruct (acquire_write_lock st lock d) as [[[]|e] [file lk]] eqn:Ha; last first.
  { intros [= <- <-]. exists log. apply rtc_once. by eapply (miss_lock st (mkWorld d writers log)). }
  apply (lock_steps st lock d (Revoke canonical) _ writers log p) in Ha; [|done|by exists fs, paths]. cbn [ledger_file ledger_locked].
  destruct (commit_update st answer file (Revoke canonical)) as [r' file'] eqn:E. intros [= <- <-].
  destruct (commit_steps st answer file lk (Revoke canonical) fs writers log p r' file' Hp E) as [log' Hs].
  exists log'. etrans; [exact Ha|]. eapply rtc_l; [by eapply (check_revoke st _ p); apply lookup_insert_eq|].
  cbn [w_disk w_writers w_log]. by rewrite insert_insert_eq.
Qed.

(** * One decision after the other *)

Fixpoint replay (log : list (TrustUpdate * Fs)) (ledger : TrustLedger) : Result TrustLedger FolderTrustError :=
  match log with
  | [] => Ok ledger
  | (u, _) :: rest => let? ledger := update_ledger u ledger in replay rest ledger
  end.
Lemma replay_app l1 l2 ledger :
  replay (l1 ++ l2) ledger = (let? ledger := replay l1 ledger in replay l2 ledger).
Proof.
  revert ledger. induction l1 as [|[u fs] l1 IH]; intros ledger; cbn; [done|].
  destruct (update_ledger u ledger) as [ledger'|]; cbn; [apply IH|done].
Qed.
(** The check of a grant was answered by [fs]. *)
Definition was_checked (st : FolderTrustStore) (u : TrustUpdate) fs : Prop :=
  match u with
  | Grant assessments => ∃ fuel file, recheck fuel fs st file assessments = Some (Ok tt)
  | Revoke _ => True
  end.
Record world_ok (st : FolderTrustStore) (ledger0 : TrustLedger) (w : TrustWorld) : Prop := mkWorldOk {
  wo_ledger : ∃ ledger, replay (w_log w) ledger0 = Ok ledger ∧ read_ledger st (ledger_file (w_disk w)) = Ok ledger;
  wo_alone : ∀ p writer, w_writers w !! p = Some writer →
    ledger_locked (w_disk w) = true ∧ ∀ q writer', w_writers w !! q = Some writer' → q = p;
  wo_writer : ∀ p u fs, (w_writers w !! p = Some (Checked u fs) ∨ ∃ ledger, w_writers w !! p = Some (HasRead u fs ledger)) →
    was_checked st u fs;
  wo_read : ∀ p u fs ledger, w_writers w !! p = Some (HasRead u fs ledger) →
    read_ledger st (ledger_file (w_disk w)) = Ok ledger;
  wo_log : ∀ u fs, (u, fs) ∈ w_log w → was_checked st u fs;
}.

Lemma acquire_shape st answer d r d' :
  acquire_write_lock st answer d = (r, d') →
  ledger_file d' = ledger_file d ∧ (ledger_locked d = true → ledger_locked d' = true) ∧
  (r = Ok tt → ledger_locked d = false ∧ ledger_locked d' = true).
Proof.
  unfold acquire_write_lock. destruct (parent_of (lock_path st)), d as [file []], answer; cbn; intros [= <- <-]; split_and!; done.
Qed.
(** Another phase of the writer that holds the lock *)
Lemma world_ok_phase st ledger0 w p old new :
  world_ok st ledger0 w → w_writers w !! p = Some old →
  (∀ u fs, new = Checked u fs → was_checked st u fs) →
  (∀ u fs ledger, new = HasRead u fs ledger → was_checked st u fs ∧ read_ledger st (ledger_file (w_disk w)) = Ok ledger) →
  world_ok st ledger0 (mkWorld (w_disk w) (<[p := new]> (w_writers w)) (w_log w)).
Proof.
  intros [H1 H2 H3 H4 H5] Hp Hc Hr. split; cbn [w_disk w_writers w_log]; [done|..|done].
  - intros q writer Hq. destruct (H2 p old Hp) as [Hlock Hsame]. split; [done|].
    assert (∀ q' wr, <[p := new]> (w_writers w) !! q' = Some wr → q' = p) as Hall.
    { intros q' wr [[-> _]|[_ Hq']]%lookup_insert_Some; [done|by eapply Hsame]. }
    intros q' writer' Hq'. by rewrite (Hall q' writer' Hq'), (Hall q writer Hq).
  - intros q u fs [Hq|[ledger Hq]]; apply lookup_insert_Some in Hq as [[-> Hq]|[_ Hq]];
      [by apply Hc|by eapply H3; left|by apply (Hr u fs ledger)|by eapply H3; right; eexists].
  - intros q u fs ledger [[-> Hq]|[_ Hq]]%lookup_insert_Some; [by apply (Hr u fs ledger)|by eapply H4].
Qed.
Lemma world_ok_delete st ledger0 w p d :
  world_ok st ledger0 w → ledger_file d = ledger_file (w_disk w) →
  (∀ q writer, q ≠ p → w_writers w !! q = Some writer → ledger_locked d = true) →
  world_ok st ledger0 (mkWorld d (delete p (w_writers w)) (w_log w)).
Proof.
  intros [H1 H2 H3 H4 H5] Ed Hlock. split; cbn [w_disk w_writers w_log]; rewrite ?Ed; [done|..|done].
  - intros q writer [Hne Hq]%lookup_delete_Some. split; [by eapply Hlock|].
    intros q' writer' [_ Hq']%lookup_delete_Some. by eapply H2.
  - intros q u fs [Hq|[ledger Hq]]; apply lookup_delete_Some in Hq as [_ Hq]; eapply H3; eauto.
  - intros q u fs ledger [_ Hq]%lookup_delete_Some. by eapply H4.
Qed.
Lemma update_version u ledger ledger' : update_ledger u ledger = Ok ledger' → ledger_version ledger' = ledger_version ledger.
Proof. unfold update_ledger. destruct (match u with Grant _ => _ | Revoke _ => _ end); cbn; [|done]. by intros [= <-]. Qed.
Lemma read_version st file ledger : read_ledger st file = Ok ledger → ledger_version ledger = TRUST_FORMAT_VERSION.
Proof.
  destruct file as [| | |doc]; cbn; try done; [by intros [= <-]|]. destruct (de_ledger doc) as [l|]; [|done].
  destruct (Z.eqb_spec (ledger_version l) TRUST_FORMAT_VERSION); cbn; [|done]. by intros [= <-].
Qed.
Lemma trust_step_ok st ledger0 w w' : world_ok st ledger0 w → trust_step st w w' → world_ok st ledger0 w'.
Proof.
  intros Hok Hstep. pose proof Hok as [H1 H2 H3 H4 H5].
  destruct Hstep as [p u answer d Hp Hu Ha|answer e d Ha|p as_ fuel fs Hp Hc|p paths fs Hp|p u fs ledger Hp Hr
    |p u fs ledger ledger' answer r file Hp Hu Hw|p writer Hp|p Hp|p].
  - apply acquire_shape in Ha as (Ef & _ & Hgot). destruct (Hgot eq_refl) as [Hfree Htaken].
    assert (Hno : ∀ q writer, w_writers w !! q = Some writer → False).
    { intros q writer Hq. destruct (H2 q writer Hq) as [Hl _]. congruence. }
    split; cbn [w_disk w_writers w_log]; rewrite ?Ef; [done|..|done].
    + intros q writer Hq. split; [done|]. intros q' writer' Hq'.
      apply lookup_insert_Some in Hq as [[<- _]|[_ Hq]]; [|by apply Hno in Hq].
      apply lookup_insert_Some in Hq' as [[<- _]|[_ Hq']]; [done|by apply Hno in Hq'].
    + intros q u' fs [Hq|[ledger Hq]]; apply lookup_insert_Some in Hq as [[_ [=]]|[_ Hq]]; by apply Hno in Hq.
    + intros q u' fs ledger [[_ [=]]|[_ Hq]]%lookup_insert_Some. by apply Hno in Hq.
  - apply acquire_shape in Ha as (Ef & Hl & _). split; cbn [w_disk w_writers w_log]; rewrite ?Ef; [done| |done..].
    intros p writer Hp. destruct (H2 p writer Hp) as [Hlock Hs]. split; [by apply Hl|done].
  - eapply world_ok_phase; [done|exact Hp|by intros u fs' [= <- <-]; exists fuel, (ledger_file (w_disk w))|done].
  - eapply world_ok_phase; [done|exact Hp|by intros u fs' [= <- <-]|done].
  - eapply world_ok_phase; [done|exact Hp|done|]. intros u' fs' l' [= <- <- <-]. split; [eapply H3; by left|done].
  - pose proof (H4 _ _ _ _ Hp) as Hr. destruct H1 as (l & Hl & Hl'). rewrite Hr in Hl'. injection Hl' as <-.
    assert (Hlog : world_ok st ledger0 (mkWorld (w_disk w) (<[p := Releasing]> (w_writers w)) (w_log w)))
      by by eapply world_ok_phase.
    unfold write_ledger in Hw. unfold committed. destruct (parent_of (store_path st)), answer; injection Hw as <- <-;
      rewrite ?app_nil_r; try (by destruct w as [[] ? ?]).
    all: destruct Hlog as [_ K2 K3 _ _]; split; cbn [w_disk w_writers w_log ledger_file ledger_locked]; [| done | done | |].
    all: try (intros q u' fs' l' [[-> [=]]|[Hne Hq]]%lookup_insert_Some; destruct (H2 p _ Hp) as [_ Hs]; by apply Hs in Hq).
    all: try (intros u' fs' [Hin|Hin%list_elem_of_singleton]%elem_of_app; [by apply H5|]; injection Hin as -> ->; eapply H3; by right; eexists).
    all: exists ledger'; rewrite replay_app, Hl; cbn; rewrite Hu; cbn; split; [done|]; rewrite de_ser_ledger;
      by rewrite (update_version _ _ _ Hu), (read_version _ _ _ Hr).
  - eapply world_ok_phase; [done|exact Hp|done|done].
  - eapply world_ok_delete; [done|done|]. intros q writer Hne Hq. destruct (H2 p _ Hp) as [_ Hs]. by apply Hs in Hq.
  - eapply world_ok_delete; [done|done|]. intros q writer _ Hq. by apply (H2 q writer).
Qed.

(** No ledger yet, no writer. *)
Definition no_ledger : TrustWorld := mkWorld (mkDisk NoLedger false) ∅ [].
Lemma no_ledger_ok st : world_ok st default_ledger no_ledger.
Proof.
  split; cbn; [by exists default_ledger| | | |by intros ? ? ?%elem_of_nil].
  - intros p writer Hp. by rewrite lookup_empty in Hp.
  - intros p u fs [Hp|[? Hp]]; by rewrite lookup_empty in Hp.
  - intros p u fs ledger Hp. by rewrite lookup_empty in Hp.
Qed.
Lemma trust_reachable_ok st w : rtc (trust_step st) no_ledger w → world_ok st default_ledger w.
Proof.
  intros H. remember no_ledger as w0 eqn:E. assert (world_ok st default_ledger w0) as H0 by (subst; apply no_ledger_ok).
  clear E. induction H as [|x y z Hxy _ IH]; [done|]. apply IH. by eapply trust_step_ok.
Qed.

(** A first grant, alone *)
Definition granted_alone (ledger : TrustLedger) (assessments : list FolderTrustAssessment) fs : TrustWorld :=
  mkWorld (mkDisk (LedgerBytes (ser_ledger ledger)) false) ∅ [(Grant assessments, fs)].
Lemma granted_alone_reachable st fuel fs assessments ledger parent lock_parent :
  parent_of (store_path st) = Some parent → parent_of (lock_path st) = Some lock_parent →
  untrustable_among assessments = Ok tt → recheck fuel fs st NoLedger assessments = Some (Ok tt) →
  update_ledger (Grant assessments) default_ledger = Ok ledger →
  rtc (trust_step st) no_ledger (granted_alone ledger assessments fs).
Proof.
  intros Hp Hlp Hu Hc Hl.
  eapply rtc_l; [apply (take_lock st no_ledger 0%nat (Grant assessments) LockMade (mkDisk NoLedger true)); [done|done|]|].
  { unfold acquire_write_lock. by rewrite Hlp. }
  eapply rtc_l; [by eapply (check_grant st _ 0%nat), Hc; apply lookup_insert_eq|]. cbn [w_disk w_writers w_log].
  eapply rtc_l; [by eapply (read_step st _ 0%nat _ fs default_ledger); [apply lookup_insert_eq|]|]. cbn [w_disk w_writers w_log].
  eapply rtc_l; [eapply (write_step st _ 0%nat _ fs default_ledger ledger Written (Ok tt)); [apply lookup_insert_eq|exact Hl|]|].
  { unfold write_ledger. by rewrite Hp. }
  cbn [w_disk w_writers w_log]. eapply rtc_l; [apply (release_step st _ 0%nat), lookup_insert_eq|]. cbn [w_disk w_writers w_log].
  rewrite !delete_insert_eq. unfold committed. rewrite Hp. unfold no_ledger. cbn [w_writers w_log].
  rewrite ?delete_empty. apply rtc_refl.
Qed.

(** * Where a record comes from *)

(** The update sets or removes the record of [key]. *)
Definition decides (key : string) (u : TrustUpdate) : Prop :=
  match u with
  | Grant assessments => ∃ g, g ∈ assessments ∧ workspace_key (assessed_workspace g) = Ok key
  | Revoke paths => ∃ p, p ∈ paths ∧ workspace_key p = Ok key
  end.
(** [g] is an assessment of [key] that [r] records. *)
Definition recorded (key : string) (r : TrustedWorkspace) (g : FolderTrustAssessment) : Prop :=
  workspace_key (assessed_workspace g) = Ok key ∧ executable_hash g = Some (granted_hash r) ∧
  inventory g = granted_inventory r.
Lemma insert_grants_record m assessments m' key r :
  insert_grants m assessments = Ok m' → m' !! key = Some r →
  (∃ g, g ∈ assessments ∧ recorded key r g) ∨ (m !! key = Some r ∧ ¬ decides key (Grant assessments)).
Proof.
  revert m. induction assessments as [|a rest IH]; intros m; cbn [insert_grants].
  { intros [= <-] Hr. right. split; [done|]. by intros (g & Hg%elem_of_nil & _). }
  destruct (workspace_key (assessed_workspace a)) as [k|] eqn:Ek; cbn; [|done].
  destruct (executable_hash a) as [h|] eqn:Eh; cbn; [|done]. intros Hi Hr.
  destruct (IH _ Hi Hr) as [(g & Hg & Hrec)|[Hm Hno]]; [left; exists g; split; [by right|done]|].
  destruct (decide (k = key)) as [->|Hne].
  - rewrite lookup_insert_eq in Hm. injection Hm as <-. left. exists a. split; [by left|]. by split_and!.
  - rewrite lookup_insert_ne in Hm by done. right. split; [done|].
    intros (g & [->|Hg]%elem_of_cons & Hk); [congruence|]. apply Hno. by exists g.
Qed.
Lemma remove_grants_record m paths m' key r :
  remove_grants m paths = Ok m' → m' !! key = Some r → m !! key = Some r ∧ ¬ decides key (Revoke paths).
Proof.
  revert m. induction paths as [|p rest IH]; intros m; cbn [remove_grants].
  { intros [= <-] Hr. split; [done|]. by intros (q & Hq%elem_of_nil & _). }
  destruct (workspace_key p) as [k|] eqn:Ek; cbn; [|done]. intros Hi Hr.
  destruct (IH _ Hi Hr) as [[Hne Hm]%lookup_delete_Some Hno]. split; [done|].
  intros (q & [->|Hq]%elem_of_cons & Hk); [congruence|]. apply Hno. by exists q.
Qed.
Lemma replay_record log ledger key r :
  replay log default_ledger = Ok ledger → workspaces ledger !! key = Some r →
  ∃ earlier assessments fs later g,
    log = (earlier ++ (Grant assessments, fs) :: later)%list ∧ g ∈ assessments ∧ recorded key r g ∧
    ∀ u fs', (u, fs') ∈ later → ¬ decides key u.
Proof.
  revert ledger. induction log as [|[u fs] log IH] using rev_ind; intros ledger.
  { intros [= <-] Hr. unfold default_ledger in Hr. cbn [workspaces] in Hr. by rewrite lookup_empty in Hr. }
  rewrite replay_app. destruct (replay log default_ledger) as [before|]; [|done]. cbn. intros Hu Hr.
  destruct (update_ledger u before) as [after|] eqn:Ea; [|done]. cbn in Hu. injection Hu as <-.
  assert ((∃ assessments g, u = Grant assessments ∧ g ∈ assessments ∧ recorded key r g) ∨
    (workspaces before !! key = Some r ∧ ¬ decides key u)) as [(as_ & g & -> & Hg & Hrec)|[Hb Hno]].
  { unfold update_ledger in Ea. destruct u as [as_|paths].
    - destruct (insert_grants _ as_) as [m|] eqn:Ei; [|done]. injection Ea as <-.
      destruct (insert_grants_record _ _ _ _ _ Ei Hr) as [(g & Hg & Hrec)|Hb]; [left; by exists as_, g|by right].
    - destruct (remove_grants _ paths) as [m|] eqn:Ei; [|done]. injection Ea as <-. right.
      by eapply remove_grants_record. }
  - exists log, as_, fs, [], g. split_and!; [done..|]. by intros ? ? ?%elem_of_nil.
  - destruct (IH before eq_refl Hb) as (earlier & as_ & fs' & later & g & -> & Hg & Hrec & Hl).
    exists earlier, as_, fs', (later ++ [(u, fs)])%list, g. split_and!; [by rewrite <- (assoc_L app)|done..|].
    intros u' fs'' [Hin|Hin%list_elem_of_singleton]%elem_of_app; [by eapply Hl|]. by injection Hin as -> ->.
Qed.

(** * What an assessment says *)

Lemma assess_inventory fuel fs st file asked a hash :
  assess fuel fs st file asked = Some (Ok a) → executable_hash a = Some hash →
  executable_inventory fuel fs (assessed_workspace a) (user_home st) = Some (Ok (inventory a)) ∧
  hash = inventory_hash (inventory a).
Proof.
  unfold assess. destruct (fs_canonical fs asked) as [ws|]; [|done].
  destruct (executable_inventory fuel fs ws (user_home st)) as [[items|e]|] eqn:Ei; [..|done]; cbn; last first.
  { case_match; [|done]. intros [= <-]. done. }
  destruct (read_ledger st file) as [ledger|]; cbn; [|done]. destruct (workspace_key ws) as [key|]; cbn; [|done].
  destruct (judge _ _ _) as [state changes]. intros [= <-] [= <-]. done.
Qed.
Lemma assess_trusted fuel fs st file asked a :
  assess fuel fs st file asked = Some (Ok a) → project_execution_enabled a = true →
  ∃ ledger key r, read_ledger st file = Ok ledger ∧ workspace_key (assessed_workspace a) = Ok key ∧
    workspaces ledger !! key = Some r ∧ executable_hash a = Some (granted_hash r).
Proof.
  unfold assess. destruct (fs_canonical fs asked) as [ws|]; [|done].
  destruct (executable_inventory fuel fs ws (user_home st)) as [[items|e]|]; [..|done]; cbn; last first.
  { case_match; [|done]. by intros [= <-]. }
  destruct (read_ledger st file) as [ledger|]; cbn; [|done]. destruct (workspace_key ws) as [key|] eqn:Ek; cbn; [|done].
  destruct (workspaces ledger !! key) as [r|] eqn:Er; cbn; [|by intros [= <-]].
  destruct (String.eqb_spec (granted_hash r) (inventory_hash items)) as [E|]; [|by intros [= <-]].
  intros [= <-] _. exists ledger, key, r. by rewrite E.
Qed.
Lemma recheck_current fuel fs st file assessments g :
  recheck fuel fs st file assessments = Some (Ok tt) → g ∈ assessments →
  ∃ current, assess fuel fs st file (assessed_workspace g) = Some (Ok current) ∧
    executable_hash current = executable_hash g ∧ inventory current = inventory g.
Proof.
  induction assessments as [|a rest IH]; cbn [recheck]; [by intros _ ?%elem_of_nil|].
  destruct (assess fuel fs st file (assessed_workspace a)) as [[current|]|] eqn:Ea; [|done|done]. cbn.
  case_bool_decide as Eh; [|done]. case_bool_decide as Ei; [|done]. cbn. intros Hr [->|Hg]%elem_of_cons; [|by apply IH].
  by exists current.
Qed.

(** * Theorems *)

(** C13: whatever processes grant and revoke trust concurrently, and wherever each of
    them fails or dies, the ledger file is readable and is the outcome of the
    decisions whose ledger reached the disk, one after the other: no decision is
    lost or applied to a stale ledger.  At most one process is past the lock. *)
Theorem ledger_updates_serial st w :
  rtc (trust_step st) no_ledger w →
  (∃ ledger, replay (w_log w) default_ledger = Ok ledger ∧ read_ledger st (ledger_file (w_disk w)) = Ok ledger) ∧
  (∀ p q x y, w_writers w !! p = Some x → w_writers w !! q = Some y → p = q).
Proof.
  intros [H1 H2 _ _ _]%trust_reachable_ok. split; [done|]. intros p q x y Hp Hq. symmetry. by eapply (H2 p x Hp).
Qed.

(** An assessment ends, whatever links lead where: when [dirs] are the
    directories that can be listed, a descent of [walk_bound dirs] levels is
    never exceeded, so that the assessment has a result. *)
Theorem assess_ends fs dirs fuel st file asked :
  lists_only fs dirs → (walk_bound dirs ≤ fuel)%nat → ∃ result, assess fuel fs st file asked = Some result.
Proof.
  intros Hl Hb. unfold assess. destruct (fs_canonical fs asked) as [ws|source]; [|by eexists].
  pose proof (executable_inventory_ends fs dirs fuel ws (user_home st) Hl Hb) as He.
  destruct (executable_inventory fuel fs ws (user_home st)); [by eexists|done].
Qed.

Context {HD : HexDigests}.

(** Two texts of one digest *)
Definition collide (x y : string) : Prop := x ≠ y ∧ blake3_hex x = blake3_hex y.
(** The decision on disk behind an assessment *)
Definition granted_by st (w : TrustWorld) (a : FolderTrustAssessment) (key : string) (assessments : list FolderTrustAssessment)
    (g : FolderTrustAssessment) : Prop :=
  ∃ earlier granted later,
    workspace_key (assessed_workspace a) = Ok key ∧
    w_log w = (earlier ++ (Grant assessments, granted) :: later)%list ∧
    g ∈ assessments ∧ workspace_key (assessed_workspace g) = Ok key ∧ was_checked st (Grant assessments) granted ∧
    (∀ u fs', (u, fs') ∈ later → ¬ decides key u).
Lemma trusted_granted st w fuel fs asked a :
  rtc (trust_step st) no_ledger w → names_ok fs → (∀ u fs', (u, fs') ∈ w_log w → names_ok fs') →
  assess fuel fs st (ledger_file (w_disk w)) asked = Some (Ok a) → project_execution_enabled a = true →
  executable_inventory fuel fs (assessed_workspace a) (user_home st) = Some (Ok (inventory a)) ∧
  ∃ key assessments g, granted_by st w a key assessments g ∧
    (collide (inventory_preimage (inventory g)) (inventory_preimage (inventory a)) ∨ inventory g = inventory a).
Proof.
  intros Hw%trust_reachable_ok Hn Hns Ha Ht. destruct (assess_trusted _ _ _ _ _ _ Ha Ht) as (ledger & key & r & Hl & Hk & Hr & Hh).
  destruct (wo_ledger _ _ _ Hw) as (l & Hrep & Hl'). rewrite Hl in Hl'. injection Hl' as <-.
  destruct (replay_record _ _ _ _ Hrep Hr) as (earlier & as_ & granted & later & g & Hlog & Hg & (Hgk & Hgh & Hgi) & Hlater).
  assert ((Grant as_, granted) ∈ w_log w) as Hin by (rewrite Hlog; apply elem_of_app; right; by left).
  pose proof (wo_log _ _ _ Hw _ _ Hin) as Hc. destruct (assess_inventory _ _ _ _ _ _ _ Ha Hh) as [Hinv' Hhash'].
  split; [done|]. exists key, as_, g. split; [exists earlier, granted, later; by split_and!|].
  destruct Hc as (fuel' & file' & Hc). destruct (recheck_current _ _ _ _ _ _ Hc Hg) as (current & Hcur & Ech & Eci).
  rewrite Hgh in Ech. destruct (assess_inventory _ _ _ _ _ _ _ Hcur Ech) as [Hinv Hhash]. rewrite Eci in Hinv, Hhash.
  destruct (decide (inventory_preimage (inventory g) = inventory_preimage (inventory a))) as [E|E]; last first.
  { left. split; [done|]. unfold inventory_hash in *. congruence. }
  right. apply inventory_preimage_inj in E; [done|by eapply inventory_items_ok; [eapply Hns|]|by eapply inventory_items_ok].
Qed.

(** C12: a folder that is assessed as trusted was granted: the decisions on disk
    include a grant of an assessment of this folder that was checked again under
    the lock, no later decision is about the folder, and either the two
    inventories are a collision of the hash or the inventory of the folder is the
    one that was granted.  In that case every regular file at a plain path, one
    through real directories and no link, below [.agents], [.rottweiler],
    [.claude/commands] or [.claude/skills] is in the granted inventory, with the
    digest and the length of what it holds now.  It is listed under its path with
    backslashes written as slashes, so two names that differ only there share an
    entry's name.  What a link inside a skills directory leads to is listed under
    the path of the link, and nothing is said about it here.  Names of files are
    taken to hold no NUL byte. *)
Theorem trusted_as_granted st w fuel fs asked a :
  rtc (trust_step st) no_ledger w → names_ok fs → (∀ u fs', (u, fs') ∈ w_log w → names_ok fs') →
  assess fuel fs st (ledger_file (w_disk w)) asked = Some (Ok a) → project_execution_enabled a = true →
  ∃ key earlier assessments granted later g,
    workspace_key (assessed_workspace a) = Ok key ∧
    w_log w = (earlier ++ (Grant assessments, granted) :: later)%list ∧
    g ∈ assessments ∧ workspace_key (assessed_workspace g) = Ok key ∧ was_checked st (Grant assessments) granted ∧
    (∀ u fs', (u, fs') ∈ later → ¬ decides key u) ∧
    (collide (inventory_preimage (inventory g)) (inventory_preimage (inventory a)) ∨
     inventory g = inventory a ∧
     ∀ relative bytes, governed fs (assessed_workspace a) relative → contents fs (assessed_workspace a ++ relative) bytes →
       ∃ item, item ∈ inventory g ∧ item_path item = backslashes_to_slashes (join "/" relative) ∧
         item_hash item = blake3_hex bytes ∧ item_bytes item = str_len bytes).
Proof.
  intros Hw Hn Hns Ha Ht. destruct (trusted_granted _ _ _ _ _ _ Hw Hn Hns Ha Ht) as (Hinv & key & as_ & g & Hg & Hi).
  destruct Hg as (earlier & granted & later & Hk & Hlog & Hin & Hgk & Hc & Hlater).
  exists key, earlier, as_, granted, later, g. split_and!; [done..|]. destruct Hi as [Hi|Hi]; [by left|].
  right. split; [done|]. intros relative bytes Hgov Hcon. rewrite Hi. by eapply inventory_covers.
Qed.
End ledger.

(** * Witnesses *)

Module TrustExample.
Fixpoint bits (s : string) : string :=
  match s with
  | "" => ""
  | String (Ascii b0 b1 b2 b3 b4 b5 b6 b7) s =>
      fold_right (λ b t, String (if (b : bool) then "1" else "0")%char t) (bits s) [b0; b1; b2; b3; b4; b5; b6; b7]
  end.
#[export] Instance bits_digest : Blake3 := bits.
#[export] Instance bits_hex : HexDigests.
Proof.
  intros s. unfold no_nul, blake3_hex, bits_digest. induction s as [|[b0 b1 b2 b3 b4 b5 b6 b7] s IH]; [done|]. cbn.
  rewrite IH. by destruct b0, b1, b2, b3, b4, b5, b6, b7.
Qed.
#[export] Instance plain_json : TrustJson :=
  {| LedgerDoc := TrustLedger; ser_ledger := id; de_ledger := Some; de_ser_ledger := λ l, eq_refl |}.

(** A tree of directories and files of one user *)
Definition at_path {A} (p : FsPath) (l : list (FsPath * A)) : option A :=
  snd <$> List.find (λ e, bool_decide (e.1 = p)) l.
Definition missing : FsError := mkFsError true "missing".
Definition tree_fs (dirs : list (FsPath * list string)) (files : list (FsPath * string)) : Fs :=
  let kind p := match at_path p dirs, at_path p files with
                | Some _, _ => Ok KDir | None, Some _ => Ok KFile | None, None => Err missing end in
  {| fs_symlink_metadata := kind;
     fs_stat := λ p, let? k := kind p in Ok (k, 0);
     fs_read_dir := λ p, match at_path p dirs with Some names => Ok (map Ok names) | None => Err missing end;
     fs_canonical := λ p, let? _ := kind p in Ok p;
     fs_open_directory := λ p, match at_path p dirs with Some _ => Ok tt | None => Err missing end;
     fs_open_file := λ p, match at_path p files with Some bytes => Ok (Ok KFile, Ok bytes) | None => Err missing end;
     fs_euid := 0 |}.
Lemma tree_names_ok dirs files :
  Forall (λ e, Forall no_nul e.2) dirs → names_ok (tree_fs dirs files).
Proof.
  intros Hd p entries name. cbn. unfold at_path. destruct (List.find _ dirs) as [[q names]|] eqn:E; [|done]. cbn. intros [= <-] Hin.
  apply List.find_some in E as [E _]. rewrite Forall_forall in Hd. apply list_elem_of_In in E. specialize (Hd _ E). cbn in Hd.
  rewrite Forall_forall in Hd. apply list_elem_of_fmap in Hin as (n & [= <-] & Hin). by apply Hd.
Qed.

Definition workspace : FsPath := ["w"].
Definition hooked : Fs :=
  tree_fs [(["w"], [".rottweiler"]); (["w"; ".rottweiler"], ["hooks.toml"])] [(["w"; ".rottweiler"; "hooks.toml"], "run")].
Definition st : FolderTrustStore := mkStore ["home"; "trust.json"] None.
Definition assessed (file : LedgerFile) : option FolderTrustAssessment :=
  match assess 10 hooked st file workspace with Some (Ok a) => Some a | _ => None end.
Definition shown : FolderTrustAssessment :=
  default (mkAssessment [] None [] [] Untrusted None) (assessed NoLedger).
Definition granted_ledger : TrustLedger :=
  match update_ledger (Grant [shown]) default_ledger with Ok l => l | Err _ => default_ledger end.
Definition granted_world : TrustWorld := granted_alone granted_ledger [shown] hooked.
Lemma granted_reachable : rtc (trust_step st) no_ledger granted_world.
Proof. by apply (granted_alone_reachable st 10 hooked [shown] granted_ledger ["home"] ["home"]); vm_compute. Qed.

Definition hook_item : TrustInventoryItem := mkItem ".rottweiler/hooks.toml" "hook" (bits "run") 3.
Definition trusted : FolderTrustAssessment :=
  mkAssessment ["w"] (executable_hash shown) [hook_item] [] Trusted None.

(** A skill that links to the directory it is in *)
Definition loop_dirs : list (FsPath * list string) :=
  [(["w"], [".agents"]); (["w"; ".agents"], ["skills"]); (["w"; ".agents"; "skills"], ["again"])].
Definition looping : Fs :=
  let base := tree_fs loop_dirs [] in
  let is_link p := bool_decide (p = ["w"; ".agents"; "skills"; "again"]) in
  {| fs_symlink_metadata := λ p, if is_link p then Ok KLink else fs_symlink_metadata base p;
     fs_stat := fs_stat base;
     fs_read_dir := fs_read_dir base;
     fs_canonical := λ p, if is_link p then Ok ["w"; ".agents"; "skills"] else fs_canonical base p;
     fs_open_directory := fs_open_directory base;
     fs_open_file := fs_open_file base;
     fs_euid := 0 |}.
End TrustExample.
Import TrustExample.

Lemma ledger_updates_serial_witness :
  rtc (trust_step st) no_ledger granted_world ∧
  ∃ ledger, replay [(Grant [shown], hooked)] default_ledger = Ok ledger ∧
    read_ledger st (LedgerBytes (ser_ledger granted_ledger)) = Ok ledger.
Proof. split; [apply granted_reachable|]. apply (ledger_updates_serial st granted_world granted_reachable). Defined.
Lemma trusted_as_granted_witness :
  assess 10 hooked st (ledger_file (w_disk granted_world)) workspace = Some (Ok trusted) ∧
  governed hooked ["w"] [".rottweiler"; "hooks.toml"] ∧ contents hooked ["w"; ".rottweiler"; "hooks.toml"] "run" ∧
  (∃ g : FolderTrustAssessment, inventory g = [hook_item] ∨ collide (inventory_preimage (inventory g)) (inventory_preimage [hook_item])).
Proof.
  assert (Ha : assess 10 hooked st (ledger_file (w_disk granted_world)) workspace = Some (Ok trusted)) by by vm_compute.
  assert (Hn : names_ok hooked) by (apply tree_names_ok; by repeat constructor).
  split_and!; [exact Ha| |done|].
  - exists ".rottweiler", None, ["hooks.toml"]. split_and!; [right; by left|done|done|].
    apply (plain_below hooked _ [Ok "hooks.toml"]); [done|done|by left|]. by apply plain_here.
  - assert (Hlog : ∀ u fs', (u, fs') ∈ w_log granted_world → names_ok fs').
    { intros u fs' Hin%list_elem_of_singleton. injection Hin as _ ->. exact Hn. }
    destruct (trusted_as_granted st granted_world 10 hooked workspace trusted granted_reachable Hn Hlog Ha eq_refl)
      as (key & earlier & as_ & granted & later & g & _ & _ & _ & _ & _ & _ & [Hc|[Hi _]]).
    + exists g. by right.
    + exists g. by left.
Defined.
Lemma assess_ends_witness :
  (∃ result, assess (walk_bound loop_dirs.*1) looping st NoLedger workspace = Some result) ∧
  assess (walk_bound loop_dirs.*1) looping st NoLedger workspace =
    Some (Ok (mkAssessment ["w"] None [] [] Untrustable_ (Some (mkFailure ["w"; ".agents"; "skills"; "again"]
      "unsafe project extension link /w/.agents/skills/again: forms a directory cycle")))).
Proof.
  split; [|by vm_compute]. apply (assess_ends looping loop_dirs.*1); [|done].
  intros p entries. change (fs_read_dir looping p) with (fs_read_dir (tree_fs loop_dirs []) p).
  unfold tree_fs, fs_read_dir, at_path. destruct (List.find _ loop_dirs) as [[q names]|] eqn:E; [|done]. intros _.
  apply List.find_some in E as [E Hq%bool_decide_eq_true]. cbn in Hq. subst q. apply list_elem_of_fmap.
  exists (p, names). split; [done|by apply list_elem_of_In].
Defined.
