(* ===== verification/Config.v ===== *)
(** Configuration layers ([rw-store/src/config.rs], [rw-store/src/config/layers.rs],
    [rw-store/src/config/loading.rs], [rw-types/src/config.rs]): definitions.

    Settings come from built-in defaults, the user's file, the project's file,
    environment variables and command-line overrides, each layer over the ones
    before it, with the source of every setting.  A project's file takes effect
    only in a trusted folder and never in the sections that guard the user.

    Parameters: the TOML reader ([TomlConfig]), the JSON reader of the settings
    interface ([TuiJson]) and [Debug] of a text ([StrDebug]), whose escapes
    follow the tables of Unicode. *)
From Stdlib Require Import Ascii.
From S2P Require Import Prelude Text Decimal Ir Estimate Assembly ShellSplit BashSafety PermissionRules PermissionIdentity Sse Pricing BudgetSums BudgetLedger FolderTrust.

(** * Settings ([rw-types/src/config.rs]) *)

Record EngineConfig : Type := mkEngine {
  max_concurrent_sessions : Z;
  subagent_max_depth : Z;
  subagent_max_concurrency : Z;
}.
Record AgentsConfig : Type := mkAgents { wake_on_completion : bool }.
Record UiConfig : Type := mkUi { theme : string }.
Record CompactionConfig : Type := mkCompaction {
  compact_auto : bool;
  reserved_tokens : option Z;
  compact_alias : option string;
}.
Record ModelConfig : Type := mkModels {
  default_model : string;
  model_aliases : gmap string (list string);
  model_thinking : gmap string ThinkingLevel;
}.
Inductive ProviderAuthScheme : Type := Bearer | AuthHeader (name value_prefix : string) | NoAuth.
Record ProviderModelPricingConfig : Type := mkDeclaredPricing {
  currency : option string;
  rate_input : option JsonNumber;
  rate_output : option JsonNumber;
  rate_cache_read : option JsonNumber;
  rate_cache_write : option JsonNumber;
}.
Record ProviderConfig : Type := mkProvider {
  kind : string;
  base_url : option string;
  path_template : option string;
  headers : gmap string string;
  header_credentials : gmap string string;
  auth_scheme : option ProviderAuthScheme;
  extra_query : gmap string string;
  extra_body : gmap string Value;
  model_ids : gmap string string;
  declared_pricing : gmap string ProviderModelPricingConfig;
  proxy : option string;
  proxy_username : option string;
  proxy_password_credential : option string;
  api_key_env : option string;
  api_key_credential : option string;
  oauth_token_env : option string;
  oauth_authorization_endpoint : option string;
  oauth_token_endpoint : option string;
  oauth_client_id : option string;
  oauth_scopes : list string;
  oauth_access_token_credential : option string;
  oauth_refresh_token_credential : option string;
}.
Record NetworkConfig : Type := mkNetwork {
  net_proxy : option string;
  net_proxy_username : option string;
  net_proxy_password_credential : option string;
}.
Record WebSearchConfig : Type := mkWebSearch {
  search_endpoint : option string;
  query_parameter : string;
  search_header_credentials : gmap string string;
}.
Record SandboxConfig : Type := mkSandbox { safe_list : list string }.
Record ToolchainRule : Type := mkToolchainRule { file_pattern : string; rule_formatter : option string; rule_linters
    : list string }.
Record ToolchainConfig : Type := mkToolchain {
  runtime_read_roots : list string;
  formatter : option string;
  linters : list string;
  test_command : option string;
  toolchain_rules : list ToolchainRule;
}.
Record TelemetryConfig : Type := mkTelemetry { telemetry_enabled : bool }.
Inductive UpdateChannel : Type := Stable | Beta.
#[global] Instance UpdateChannel_eq_dec : EqDecision UpdateChannel.
Proof. solve_decision. Defined.
Record UpdateConfig : Type := mkUpdates { channel : UpdateChannel }.
Record Config : Type := mkConfiguration {
  config_engine : EngineConfig;
  config_agents : AgentsConfig;
  config_models : ModelConfig;
  config_compaction : CompactionConfig;
  config_budget : BudgetConfig;
  config_providers : gmap string ProviderConfig;
  config_network : NetworkConfig;
  config_websearch : WebSearchConfig;
  config_permissions : PermissionConfig;
  config_sandbox : SandboxConfig;
  config_toolchain : ToolchainConfig;
  config_telemetry : TelemetryConfig;
  config_updates : UpdateConfig;
  config_ui : UiConfig;
}.

(** Assignments to one field *)
Definition set_max_concurrent_sessions (v : Z) (e : EngineConfig) : EngineConfig :=
  mkEngine v (subagent_max_depth e) (subagent_max_concurrency e).
Definition set_subagent_max_depth (v : Z) (e : EngineConfig) : EngineConfig :=
  mkEngine (max_concurrent_sessions e) v (subagent_max_concurrency e).
Definition set_subagent_max_concurrency (v : Z) (e : EngineConfig) : EngineConfig :=
  mkEngine (max_concurrent_sessions e) (subagent_max_depth e) v.
Definition set_compact_auto (v : bool) (c : CompactionConfig) : CompactionConfig :=
  mkCompaction v (reserved_tokens c) (compact_alias c).
Definition set_reserved_tokens (v : option Z) (c : CompactionConfig) : CompactionConfig :=
  mkCompaction (compact_auto c) v (compact_alias c).
Definition set_compact_alias (v : option string) (c : CompactionConfig) : CompactionConfig :=
  mkCompaction (compact_auto c) (reserved_tokens c) v.
Definition set_default_model (v : string) (m : ModelConfig) : ModelConfig :=
  mkModels v (model_aliases m) (model_thinking m).
Definition set_model_aliases (v : gmap string (list string)) (m : ModelConfig) : ModelConfig :=
  mkModels (default_model m) v (model_thinking m).
Definition set_model_thinking (v : gmap string ThinkingLevel) (m : ModelConfig) : ModelConfig :=
  mkModels (default_model m) (model_aliases m) v.
Definition set_session_cost_cap_micros_usd (v : option Z) (b : BudgetConfig) : BudgetConfig :=
  mkBudget v (daily_cost_cap_micros_usd b) (session_ai_credit_cap_micros b) (daily_ai_credit_cap_micros b)
      (session_token_cap b) (daily_token_cap b) (spend_rate_alarm_micros_usd_per_minute b)
      (ai_credit_rate_alarm_micros_per_minute b) (token_rate_alarm_per_minute b) (warn_at_percent b).
Definition set_daily_cost_cap_micros_usd (v : option Z) (b : BudgetConfig) : BudgetConfig :=
  mkBudget (session_cost_cap_micros_usd b) v (session_ai_credit_cap_micros b) (daily_ai_credit_cap_micros b)
      (session_token_cap b) (daily_token_cap b) (spend_rate_alarm_micros_usd_per_minute b)
      (ai_credit_rate_alarm_micros_per_minute b) (token_rate_alarm_per_minute b) (warn_at_percent b).
Definition set_session_ai_credit_cap_micros (v : option Z) (b : BudgetConfig) : BudgetConfig :=
  mkBudget (session_cost_cap_micros_usd b) (daily_cost_cap_micros_usd b) v (daily_ai_credit_cap_micros b)
      (session_token_cap b) (daily_token_cap b) (spend_rate_alarm_micros_usd_per_minute b)
      (ai_credit_rate_alarm_micros_per_minute b) (token_rate_alarm_per_minute b) (warn_at_percent b).
Definition set_daily_ai_credit_cap_micros (v : option Z) (b : BudgetConfig) : BudgetConfig :=
  mkBudget (session_cost_cap_micros_usd b) (daily_cost_cap_micros_usd b) (session_ai_credit_cap_micros b) v
      (session_token_cap b) (daily_token_cap b) (spend_rate_alarm_micros_usd_per_minute b)
      (ai_credit_rate_alarm_micros_per_minute b) (token_rate_alarm_per_minute b) (warn_at_percent b).
Definition set_session_token_cap (v : option Z) (b : BudgetConfig) : BudgetConfig :=
  mkBudget (session_cost_cap_micros_usd b) (daily_cost_cap_micros_usd b) (session_ai_credit_cap_micros b)
      (daily_ai_credit_cap_micros b) v (daily_token_cap b) (spend_rate_alarm_micros_usd_per_minute b)
      (ai_credit_rate_alarm_micros_per_minute b) (token_rate_alarm_per_minute b) (warn_at_percent b).
Definition set_daily_token_cap (v : option Z) (b : BudgetConfig) : BudgetConfig :=
  mkBudget (session_cost_cap_micros_usd b) (daily_cost_cap_micros_usd b) (session_ai_credit_cap_micros b)
      (daily_ai_credit_cap_micros b) (session_token_cap b) v (spend_rate_alarm_micros_usd_per_minute b)
      (ai_credit_rate_alarm_micros_per_minute b) (token_rate_alarm_per_minute b) (warn_at_percent b).
Definition set_spend_rate_alarm_micros_usd_per_minute (v : option Z) (b : BudgetConfig) : BudgetConfig :=
  mkBudget (session_cost_cap_micros_usd b) (daily_cost_cap_micros_usd b) (session_ai_credit_cap_micros b)
      (daily_ai_credit_cap_micros b) (session_token_cap b) (daily_token_cap b) v
      (ai_credit_rate_alarm_micros_per_minute b) (token_rate_alarm_per_minute b) (warn_at_percent b).
Definition set_ai_credit_rate_alarm_micros_per_minute (v : option Z) (b : BudgetConfig) : BudgetConfig :=
  mkBudget (session_cost_cap_micros_usd b) (daily_cost_cap_micros_usd b) (session_ai_credit_cap_micros b)
      (daily_ai_credit_cap_micros b) (session_token_cap b) (daily_token_cap b)
      (spend_rate_alarm_micros_usd_per_minute b) v (token_rate_alarm_per_minute b) (warn_at_percent b).
Definition set_token_rate_alarm_per_minute (v : option Z) (b : BudgetConfig) : BudgetConfig :=
  mkBudget (session_cost_cap_micros_usd b) (daily_cost_cap_micros_usd b) (session_ai_credit_cap_micros b)
      (daily_ai_credit_cap_micros b) (session_token_cap b) (daily_token_cap b)
      (spend_rate_alarm_micros_usd_per_minute b) (ai_credit_rate_alarm_micros_per_minute b) v (warn_at_percent b).
Definition set_warn_at_percent (v : Z) (b : BudgetConfig) : BudgetConfig :=
  mkBudget (session_cost_cap_micros_usd b) (daily_cost_cap_micros_usd b) (session_ai_credit_cap_micros b)
      (daily_ai_credit_cap_micros b) (session_token_cap b) (daily_token_cap b)
      (spend_rate_alarm_micros_usd_per_minute b) (ai_credit_rate_alarm_micros_per_minute b)
      (token_rate_alarm_per_minute b) v.
Definition set_kind (v : string) (p : ProviderConfig) : ProviderConfig :=
  mkProvider v (base_url p) (path_template p) (headers p) (header_credentials p) (auth_scheme p) (extra_query p)
      (extra_body p) (model_ids p) (declared_pricing p) (proxy p) (proxy_username p) (proxy_password_credential p)
      (api_key_env p) (api_key_credential p) (oauth_token_env p) (oauth_authorization_endpoint p)
      (oauth_token_endpoint p) (oauth_client_id p) (oauth_scopes p) (oauth_access_token_credential p)
      (oauth_refresh_token_credential p).
Definition set_base_url (v : option string) (p : ProviderConfig) : ProviderConfig :=
  mkProvider (kind p) v (path_template p) (headers p) (header_credentials p) (auth_scheme p) (extra_query p)
      (extra_body p) (model_ids p) (declared_pricing p) (proxy p) (proxy_username p) (proxy_password_credential p)
      (api_key_env p) (api_key_credential p) (oauth_token_env p) (oauth_authorization_endpoint p)
      (oauth_token_endpoint p) (oauth_client_id p) (oauth_scopes p) (oauth_access_token_credential p)
      (oauth_refresh_token_credential p).
Definition set_proxy (v : option string) (p : ProviderConfig) : ProviderConfig :=
  mkProvider (kind p) (base_url p) (path_template p) (headers p) (header_credentials p) (auth_scheme p) (extra_query
      p) (extra_body p) (model_ids p) (declared_pricing p) v (proxy_username p) (proxy_password_credential p)
      (api_key_env p) (api_key_credential p) (oauth_token_env p) (oauth_authorization_endpoint p)
      (oauth_token_endpoint p) (oauth_client_id p) (oauth_scopes p) (oauth_access_token_credential p)
      (oauth_refresh_token_credential p).
Definition set_proxy_username (v : option string) (p : ProviderConfig) : ProviderConfig :=
  mkProvider (kind p) (base_url p) (path_template p) (headers p) (header_credentials p) (auth_scheme p) (extra_query
      p) (extra_body p) (model_ids p) (declared_pricing p) (proxy p) v (proxy_password_credential p) (api_key_env p)
      (api_key_credential p) (oauth_token_env p) (oauth_authorization_endpoint p) (oauth_token_endpoint p)
      (oauth_client_id p) (oauth_scopes p) (oauth_access_token_credential p) (oauth_refresh_token_credential p).
Definition set_proxy_password_credential (v : option string) (p : ProviderConfig) : ProviderConfig :=
  mkProvider (kind p) (base_url p) (path_template p) (headers p) (header_credentials p) (auth_scheme p) (extra_query
      p) (extra_body p) (model_ids p) (declared_pricing p) (proxy p) (proxy_username p) v (api_key_env p)
      (api_key_credential p) (oauth_token_env p) (oauth_authorization_endpoint p) (oauth_token_endpoint p)
      (oauth_client_id p) (oauth_scopes p) (oauth_access_token_credential p) (oauth_refresh_token_credential p).
Definition set_api_key_env (v : option string) (p : ProviderConfig) : ProviderConfig :=
  mkProvider (kind p) (base_url p) (path_template p) (headers p) (header_credentials p) (auth_scheme p) (extra_query
      p) (extra_body p) (model_ids p) (declared_pricing p) (proxy p) (proxy_username p) (proxy_password_credential
      p) v (api_key_credential p) (oauth_token_env p) (oauth_authorization_endpoint p) (oauth_token_endpoint p)
      (oauth_client_id p) (oauth_scopes p) (oauth_access_token_credential p) (oauth_refresh_token_credential p).
Definition set_api_key_credential (v : option string) (p : ProviderConfig) : ProviderConfig :=
  mkProvider (kind p) (base_url p) (path_template p) (headers p) (header_credentials p) (auth_scheme p) (extra_query
      p) (extra_body p) (model_ids p) (declared_pricing p) (proxy p) (proxy_username p) (proxy_password_credential
      p) (api_key_env p) v (oauth_token_env p) (oauth_authorization_endpoint p) (oauth_token_endpoint p)
      (oauth_client_id p) (oauth_scopes p) (oauth_access_token_credential p) (oauth_refresh_token_credential p).
Definition set_oauth_token_env (v : option string) (p : ProviderConfig) : ProviderConfig :=
  mkProvider (kind p) (base_url p) (path_template p) (headers p) (header_credentials p) (auth_scheme p) (extra_query
      p) (extra_body p) (model_ids p) (declared_pricing p) (proxy p) (proxy_username p) (proxy_password_credential
      p) (api_key_env p) (api_key_credential p) v (oauth_authorization_endpoint p) (oauth_token_endpoint p)
      (oauth_client_id p) (oauth_scopes p) (oauth_access_token_credential p) (oauth_refresh_token_credential p).
Definition set_oauth_authorization_endpoint (v : option string) (p : ProviderConfig) : ProviderConfig :=
  mkProvider (kind p) (base_url p) (path_template p) (headers p) (header_credentials p) (auth_scheme p) (extra_query
      p) (extra_body p) (model_ids p) (declared_pricing p) (proxy p) (proxy_username p) (proxy_password_credential
      p) (api_key_env p) (api_key_credential p) (oauth_token_env p) v (oauth_token_endpoint p) (oauth_client_id p)
      (oauth_scopes p) (oauth_access_token_credential p) (oauth_refresh_token_credential p).
Definition set_oauth_token_endpoint (v : option string) (p : ProviderConfig) : ProviderConfig :=
  mkProvider (kind p) (base_url p) (path_template p) (headers p) (header_credentials p) (auth_scheme p) (extra_query
      p) (extra_body p) (model_ids p) (declared_pricing p) (proxy p) (proxy_username p) (proxy_password_credential
      p) (api_key_env p) (api_key_credential p) (oauth_token_env p) (oauth_authorization_endpoint p) v
      (oauth_client_id p) (oauth_scopes p) (oauth_access_token_credential p) (oauth_refresh_token_credential p).
Definition set_oauth_client_id (v : option string) (p : ProviderConfig) : ProviderConfig :=
  mkProvider (kind p) (base_url p) (path_template p) (headers p) (header_credentials p) (auth_scheme p) (extra_query
      p) (extra_body p) (model_ids p) (declared_pricing p) (proxy p) (proxy_username p) (proxy_password_credential
      p) (api_key_env p) (api_key_credential p) (oauth_token_env p) (oauth_authorization_endpoint p)
      (oauth_token_endpoint p) v (oauth_scopes p) (oauth_access_token_credential p) (oauth_refresh_token_credential
      p).
Definition set_oauth_scopes (v : list string) (p : ProviderConfig) : ProviderConfig :=
  mkProvider (kind p) (base_url p) (path_template p) (headers p) (header_credentials p) (auth_scheme p) (extra_query
      p) (extra_body p) (model_ids p) (declared_pricing p) (proxy p) (proxy_username p) (proxy_password_credential
      p) (api_key_env p) (api_key_credential p) (oauth_token_env p) (oauth_authorization_endpoint p)
      (oauth_token_endpoint p) (oauth_client_id p) v (oauth_access_token_credential p)
      (oauth_refresh_token_credential p).
Definition set_oauth_access_token_credential (v : option string) (p : ProviderConfig) : ProviderConfig :=
  mkProvider (kind p) (base_url p) (path_template p) (headers p) (header_credentials p) (auth_scheme p) (extra_query
      p) (extra_body p) (model_ids p) (declared_pricing p) (proxy p) (proxy_username p) (proxy_password_credential
      p) (api_key_env p) (api_key_credential p) (oauth_token_env p) (oauth_authorization_endpoint p)
      (oauth_token_endpoint p) (oauth_client_id p) (oauth_scopes p) v (oauth_refresh_token_credential p).
Definition set_oauth_refresh_token_credential (v : option string) (p : ProviderConfig) : ProviderConfig :=
  mkProvider (kind p) (base_url p) (path_template p) (headers p) (header_credentials p) (auth_scheme p) (extra_query
      p) (extra_body p) (model_ids p) (declared_pricing p) (proxy p) (proxy_username p) (proxy_password_credential
      p) (api_key_env p) (api_key_credential p) (oauth_token_env p) (oauth_authorization_endpoint p)
      (oauth_token_endpoint p) (oauth_client_id p) (oauth_scopes p) (oauth_access_token_credential p) v.
Definition set_net_proxy (v : option string) (n : NetworkConfig) : NetworkConfig :=
  mkNetwork v (net_proxy_username n) (net_proxy_password_credential n).
Definition set_net_proxy_username (v : option string) (n : NetworkConfig) : NetworkConfig :=
  mkNetwork (net_proxy n) v (net_proxy_password_credential n).
Definition set_net_proxy_password_credential (v : option string) (n : NetworkConfig) : NetworkConfig :=
  mkNetwork (net_proxy n) (net_proxy_username n) v.
Definition set_search_endpoint (v : option string) (w : WebSearchConfig) : WebSearchConfig :=
  mkWebSearch v (query_parameter w) (search_header_credentials w).
Definition set_query_parameter (v : string) (w : WebSearchConfig) : WebSearchConfig :=
  mkWebSearch (search_endpoint w) v (search_header_credentials w).
Definition set_search_header_credentials (v : gmap string string) (w : WebSearchConfig) : WebSearchConfig :=
  mkWebSearch (search_endpoint w) (query_parameter w) v.
Definition set_config_default (v : PermissionDecision) (p : PermissionConfig) : PermissionConfig :=
  mkConfig v (config_rules p).
Definition set_config_rules (v : list PermissionRule) (p : PermissionConfig) : PermissionConfig :=
  mkConfig (config_default p) v.
Definition upd_engine (f : EngineConfig → EngineConfig) (c : Config) : Config :=
  mkConfiguration (f (config_engine c)) (config_agents c) (config_models c) (config_compaction c) (config_budget c)
      (config_providers c) (config_network c) (config_websearch c) (config_permissions c) (config_sandbox c)
      (config_toolchain c) (config_telemetry c) (config_updates c) (config_ui c).
Definition upd_agents (f : AgentsConfig → AgentsConfig) (c : Config) : Config :=
  mkConfiguration (config_engine c) (f (config_agents c)) (config_models c) (config_compaction c) (config_budget c)
      (config_providers c) (config_network c) (config_websearch c) (config_permissions c) (config_sandbox c)
      (config_toolchain c) (config_telemetry c) (config_updates c) (config_ui c).
Definition upd_models (f : ModelConfig → ModelConfig) (c : Config) : Config :=
  mkConfiguration (config_engine c) (config_agents c) (f (config_models c)) (config_compaction c) (config_budget c)
      (config_providers c) (config_network c) (config_websearch c) (config_permissions c) (config_sandbox c)
      (config_toolchain c) (config_telemetry c) (config_updates c) (config_ui c).
Definition upd_compaction (f : CompactionConfig → CompactionConfig) (c : Config) : Config :=
  mkConfiguration (config_engine c) (config_agents c) (config_models c) (f (config_compaction c)) (config_budget c)
      (config_providers c) (config_network c) (config_websearch c) (config_permissions c) (config_sandbox c)
      (config_toolchain c) (config_telemetry c) (config_updates c) (config_ui c).
Definition upd_budget (f : BudgetConfig → BudgetConfig) (c : Config) : Config :=
  mkConfiguration (config_engine c) (config_agents c) (config_models c) (config_compaction c) (f (config_budget c))
      (config_providers c) (config_network c) (config_websearch c) (config_permissions c) (config_sandbox c)
      (config_toolchain c) (config_telemetry c) (config_updates c) (config_ui c).
Definition upd_providers (f : gmap string ProviderConfig → gmap string ProviderConfig) (c : Config) : Config :=
  mkConfiguration (config_engine c) (config_agents c) (config_models c) (config_compaction c) (config_budget c) (f
      (config_providers c)) (config_network c) (config_websearch c) (config_permissions c) (config_sandbox c)
      (config_toolchain c) (config_telemetry c) (config_updates c) (config_ui c).
Definition upd_network (f : NetworkConfig → NetworkConfig) (c : Config) : Config :=
  mkConfiguration (config_engine c) (config_agents c) (config_models c) (config_compaction c) (config_budget c)
      (config_providers c) (f (config_network c)) (config_websearch c) (config_permissions c) (config_sandbox c)
      (config_toolchain c) (config_telemetry c) (config_updates c) (config_ui c).
Definition upd_websearch (f : WebSearchConfig → WebSearchConfig) (c : Config) : Config :=
  mkConfiguration (config_engine c) (config_agents c) (config_models c) (config_compaction c) (config_budget c)
      (config_providers c) (config_network c) (f (config_websearch c)) (config_permissions c) (config_sandbox c)
      (config_toolchain c) (config_telemetry c) (config_updates c) (config_ui c).
Definition upd_permissions (f : PermissionConfig → PermissionConfig) (c : Config) : Config :=
  mkConfiguration (config_engine c) (config_agents c) (config_models c) (config_compaction c) (config_budget c)
      (config_providers c) (config_network c) (config_websearch c) (f (config_permissions c)) (config_sandbox c)
      (config_toolchain c) (config_telemetry c) (config_updates c) (config_ui c).
Definition upd_sandbox (f : SandboxConfig → SandboxConfig) (c : Config) : Config :=
  mkConfiguration (config_engine c) (config_agents c) (config_models c) (config_compaction c) (config_budget c)
      (config_providers c) (config_network c) (config_websearch c) (config_permissions c) (f (config_sandbox c))
      (config_toolchain c) (config_telemetry c) (config_updates c) (config_ui c).
Definition upd_toolchain (f : ToolchainConfig → ToolchainConfig) (c : Config) : Config :=
  mkConfiguration (config_engine c) (config_agents c) (config_models c) (config_compaction c) (config_budget c)
      (config_providers c) (config_network c) (config_websearch c) (config_permissions c) (config_sandbox c) (f
      (config_toolchain c)) (config_telemetry c) (config_updates c) (config_ui c).
Definition upd_telemetry (f : TelemetryConfig → TelemetryConfig) (c : Config) : Config :=
  mkConfiguration (config_engine c) (config_agents c) (config_models c) (config_compaction c) (config_budget c)
      (config_providers c) (config_network c) (config_websearch c) (config_permissions c) (config_sandbox c)
      (config_toolchain c) (f (config_telemetry c)) (config_updates c) (config_ui c).
Definition upd_updates (f : UpdateConfig → UpdateConfig) (c : Config) : Config :=
  mkConfiguration (config_engine c) (config_agents c) (config_models c) (config_compaction c) (config_budget c)
      (config_providers c) (config_network c) (config_websearch c) (config_permissions c) (config_sandbox c)
      (config_toolchain c) (config_telemetry c) (f (config_updates c)) (config_ui c).
Definition upd_ui (f : UiConfig → UiConfig) (c : Config) : Config :=
  mkConfiguration (config_engine c) (config_agents c) (config_models c) (config_compaction c) (config_budget c)
      (config_providers c) (config_network c) (config_websearch c) (config_permissions c) (config_sandbox c)
      (config_toolchain c) (config_telemetry c) (config_updates c) (f (config_ui c)).

(** The defaults *)
Definition default_provider : ProviderConfig :=
  mkProvider "" None None ∅ ∅ None ∅ ∅ ∅ ∅ None None None None None None None None None [] None None.
Definition default_engine : EngineConfig := mkEngine 4 2 4.
Definition default_agents : AgentsConfig := mkAgents true.
Definition default_models : ModelConfig := mkModels "fast" ∅ ∅.
Definition default_compaction : CompactionConfig := mkCompaction true None None.
Definition default_budget : BudgetConfig := mkBudget None None None None None None None None None 80.
Definition default_websearch : WebSearchConfig := mkWebSearch None "q" ∅.
Definition default_permissions : PermissionConfig := mkConfig Ask [].
Definition default_updates : UpdateConfig := mkUpdates Stable.
Definition default_ui : UiConfig := mkUi "opencode".
Definition default_config : Config :=
  mkConfiguration default_engine default_agents default_models default_compaction default_budget ∅
    (mkNetwork None None None) default_websearch default_permissions (mkSandbox [])
    (mkToolchain [] None [] None []) (mkTelemetry false) default_updates default_ui.

(** A file: what it leaves out is [None]. *)
Record EngineConfigFile : Type := mkEngineFile {
  file_max_concurrent_sessions : option Z;
  file_subagent_max_depth : option Z;
  file_subagent_max_concurrency : option Z;
}.
Record ModelConfigFile : Type := mkModelFile {
  file_default_model : option string;
  file_aliases : option (gmap string (list string));
  file_thinking : option (gmap string ThinkingLevel);
}.
Record CompactionConfigFile : Type := mkCompactionFile {
  file_auto : option bool;
  file_reserved_tokens : option Z;
  file_model_alias : option string;
}.
Record BudgetConfigFile : Type := mkBudgetFile {
  file_session_cost_cap_micros_usd : option Z;
  file_daily_cost_cap_micros_usd : option Z;
  file_session_ai_credit_cap_micros : option Z;
  file_daily_ai_credit_cap_micros : option Z;
  file_session_token_cap : option Z;
  file_daily_token_cap : option Z;
  file_spend_rate_alarm_micros_usd_per_minute : option Z;
  file_ai_credit_rate_alarm_micros_per_minute : option Z;
  file_token_rate_alarm_per_minute : option Z;
  file_warn_at_percent : option Z;
}.
Record NetworkConfigFile : Type := mkNetworkFile {
  file_proxy : option string;
  file_proxy_username : option string;
  file_proxy_password_credential : option string;
}.
Record WebSearchConfigFile : Type := mkWebSearchFile {
  file_endpoint : option string;
  file_query_parameter : option string;
  file_header_credentials : option (gmap string string);
}.
Record PermissionConfigFile : Type := mkPermissionFile {
  file_permission_default : option PermissionDecision;
  file_permission_rules : option (list PermissionRule);
}.
(** Sections of one setting are that setting: the outer option is the section. *)
Record ConfigFile : Type := mkConfigFile {
  file_engine : option EngineConfigFile;
  file_agents : option (option bool);
  file_models : option ModelConfigFile;
  file_compaction : option CompactionConfigFile;
  file_budget : option BudgetConfigFile;
  file_providers : option (gmap string ProviderConfig);
  file_network : option NetworkConfigFile;
  file_websearch : option WebSearchConfigFile;
  file_permissions : option PermissionConfigFile;
  file_sandbox : option (option (list string));
  file_toolchain : option ToolchainConfig;
  file_telemetry : option (option bool);
  file_updates : option (option UpdateChannel);
  file_ui : option UiConfig;
}.

(** * Sources *)

Inductive ConfigSource : Type :=
| BuiltIn
| UserFile (path : FsPath)
| UserTui (path : FsPath)
| ProjectFile (path : FsPath)
| SourceEnvironment (name : string)
| Cli.
#[global] Instance ConfigSource_eq_dec : EqDecision ConfigSource.
Proof. solve_decision. Defined.
Definition source_text (source : ConfigSource) : string :=
  match source with
  | BuiltIn => "built-in"
  | UserFile p => "user:" ++ display_path p
  | UserTui p => "user (set via TUI):" ++ display_path p
  | ProjectFile p => "project:" ++ display_path p
  | SourceEnvironment name => "env:" ++ name
  | Cli => "cli"
  end.
Record LoadedConfig : Type := mkLoaded {
  loaded_config : Config;
  provenance : gmap string ConfigSource;
  warnings : list string;
  project_trusted : bool;
}.
Inductive FileScope : Type := User | Project.
Inductive ConfigError : Type :=
| MissingUserConfigRoot
| InvalidUserConfigRoot (name value : string)
| ScopeCollision (path : FsPath)
| ConfigRead (path : FsPath)
| ConfigParse (path : FsPath)
| InvalidUserSetting (key reason : string)
| EnvironmentError (name value reason : string)
| CliOverride (override_value reason : string)
| Validation (message : string)
| FolderTrustFailed (error : FolderTrustError)
| ProjectChangedDuringLoad (path : FsPath).

Definition DEFAULT_KEYS : list string :=
  ["engine.max_concurrent_sessions"; "engine.subagent_max_depth"; "engine.subagent_max_concurrency";
   "agents.wake_on_completion"; "models.default"; "models.aliases"; "models.thinking"; "compaction.auto";
   "compaction.reserved"; "compaction.model_alias"; "budget.session_cost_cap_micros_usd";
   "budget.daily_cost_cap_micros_usd"; "budget.session_ai_credit_cap_micros"; "budget.daily_ai_credit_cap_micros";
   "budget.session_token_cap"; "budget.daily_token_cap"; "budget.spend_rate_alarm_micros_usd_per_minute";
   "budget.ai_credit_rate_alarm_micros_per_minute"; "budget.token_rate_alarm_per_minute"; "budget.warn_at_percent";
   "providers"; "network.proxy"; "network.proxy_username"; "network.proxy_password_credential";
   "websearch.endpoint"; "websearch.query_parameter"; "websearch.header_credentials"; "permissions.default";
   "sandbox.safe_list"; "toolchain.runtime_read_roots"; "toolchain.formatter"; "toolchain.linters";
   "toolchain.test"; "toolchain.rules"; "telemetry.enabled"; "updates.channel"; "ui.theme"].
Definition defaults_with_provenance : LoadedConfig :=
  mkLoaded default_config (list_to_map (map (λ key, (key, BuiltIn)) DEFAULT_KEYS)) [] false.

Definition upd_config (f : Config → Config) (l : LoadedConfig) : LoadedConfig :=
  mkLoaded (f (loaded_config l)) (provenance l) (warnings l) (project_trusted l).
Definition set_source (key : string) (source : ConfigSource) (l : LoadedConfig) : LoadedConfig :=
  mkLoaded (loaded_config l) (<[key := source]> (provenance l)) (warnings l) (project_trusted l).
Definition push_warning (message : string) (l : LoadedConfig) : LoadedConfig :=
  mkLoaded (loaded_config l) (provenance l) (warnings l ++ [message])%list (project_trusted l).
Definition set_project_trusted (trusted : bool) (l : LoadedConfig) : LoadedConfig :=
  mkLoaded (loaded_config l) (provenance l) (warnings l) trusted.
(** [if let Some(value) = v]: the assignment, then the source of the key *)
Definition assign {A} (v : option A) (set : A → Config → Config) (key : string) (source : ConfigSource)
    (l : LoadedConfig) : LoadedConfig :=
  match v with Some value => set_source key source (upd_config (set value) l) | None => l end.
Definition section_of {A} (s : option A) (apply : A → LoadedConfig → LoadedConfig) (l : LoadedConfig) : LoadedConfig :=
  match s with Some section => apply section l | None => l end.
(** The entries of a [BTreeMap] in the order of its keys *)
Definition entries {A} (m : gmap string A) : list (string * A) :=
  stable_sort (λ x y, String.leb x.1 y.1) (map_to_list m).
Definition for_each {A} (m : gmap string A) (f : string → A → LoadedConfig → LoadedConfig) (l : LoadedConfig)
    : LoadedConfig :=
  fold_left (λ l e, f e.1 e.2 l) (entries m) l.

(** * File layers *)

Definition apply_engine_file (source : ConfigSource) (e : EngineConfigFile) (l : LoadedConfig) : LoadedConfig :=
  let l := assign (file_max_concurrent_sessions e) (λ v, upd_engine (set_max_concurrent_sessions v))
             "engine.max_concurrent_sessions" source l in
  let l := assign (file_subagent_max_depth e) (λ v, upd_engine (set_subagent_max_depth v))
             "engine.subagent_max_depth" source l in
  assign (file_subagent_max_concurrency e) (λ v, upd_engine (set_subagent_max_concurrency v))
    "engine.subagent_max_concurrency" source l.
Definition insert_alias (alias : string) (candidates : list string) : Config → Config :=
  upd_models (λ m, set_model_aliases (<[alias := candidates]> (model_aliases m)) m).
Definition insert_thinking (alias : string) (level : ThinkingLevel) : Config → Config :=
  upd_models (λ m, set_model_thinking (<[alias := level]> (model_thinking m)) m).
Definition apply_models_file (source : ConfigSource) (m : ModelConfigFile) (l : LoadedConfig) : LoadedConfig :=
  let l := assign (file_default_model m) (λ v, upd_models (set_default_model v)) "models.default" source l in
  let l := section_of (file_aliases m) (λ aliases, for_each aliases (λ alias candidates l,
             set_source ("models.aliases." ++ alias) source (upd_config (insert_alias alias candidates) l))) l in
  section_of (file_thinking m) (λ thinking, for_each thinking (λ alias level l,
    set_source ("models.thinking." ++ alias) source (upd_config (insert_thinking alias level) l))) l.
Definition apply_compaction_file (source : ConfigSource) (c : CompactionConfigFile) (l : LoadedConfig) : LoadedConfig :=
  let l := assign (file_auto c) (λ v, upd_compaction (set_compact_auto v)) "compaction.auto" source l in
  let l := assign (file_reserved_tokens c) (λ v, upd_compaction (set_reserved_tokens (Some v)))
             "compaction.reserved" source l in
  assign (file_model_alias c) (λ v, upd_compaction (set_compact_alias (Some v))) "compaction.model_alias" source l.
Definition apply_budget_file (source : ConfigSource) (b : BudgetConfigFile) (l : LoadedConfig) : LoadedConfig :=
  let cap v set key := assign v (λ v : Z, upd_budget (set (Some v))) ("budget." ++ key) source in
  let l := cap (file_session_cost_cap_micros_usd b) set_session_cost_cap_micros_usd "session_cost_cap_micros_usd" l in
  let l := cap (file_daily_cost_cap_micros_usd b) set_daily_cost_cap_micros_usd "daily_cost_cap_micros_usd" l in
  let l := cap (file_session_ai_credit_cap_micros b) set_session_ai_credit_cap_micros "session_ai_credit_cap_micros" l in
  let l := cap (file_daily_ai_credit_cap_micros b) set_daily_ai_credit_cap_micros "daily_ai_credit_cap_micros" l in
  let l := cap (file_session_token_cap b) set_session_token_cap "session_token_cap" l in
  let l := cap (file_daily_token_cap b) set_daily_token_cap "daily_token_cap" l in
  let l := cap (file_spend_rate_alarm_micros_usd_per_minute b) set_spend_rate_alarm_micros_usd_per_minute
             "spend_rate_alarm_micros_usd_per_minute" l in
  let l := cap (file_ai_credit_rate_alarm_micros_per_minute b) set_ai_credit_rate_alarm_micros_per_minute
             "ai_credit_rate_alarm_micros_per_minute" l in
  let l := cap (file_token_rate_alarm_per_minute b) set_token_rate_alarm_per_minute "token_rate_alarm_per_minute" l in
  assign (file_warn_at_percent b) (λ v, upd_budget (set_warn_at_percent v)) "budget.warn_at_percent" source l.
Definition TOOLCHAIN_KEYS : list string :=
  ["toolchain.runtime_read_roots"; "toolchain.formatter"; "toolchain.linters"; "toolchain.test"; "toolchain.rules"].
Definition apply_toolchain_file (source : ConfigSource) (t : ToolchainConfig) (l : LoadedConfig) : LoadedConfig :=
  fold_left (λ l key, set_source key source l) TOOLCHAIN_KEYS (upd_config (upd_toolchain (λ _, t)) l).

Class StrDebug : Type := quoted : string → string.
Section layers.
Context {SD : StrDebug}.

(** The fields of a provider that have a source of their own, when present *)
Definition provider_fields (p : ProviderConfig) : list (bool * string) :=
  [(is_some (base_url p), "base_url"); (is_some (path_template p), "path_template");
   (negb (Nat.eqb (size (headers p)) 0), "headers");
   (negb (Nat.eqb (size (header_credentials p)) 0), "header_credentials"); (is_some (auth_scheme p), "auth_scheme");
   (negb (Nat.eqb (size (extra_query p)) 0), "extra_query"); (negb (Nat.eqb (size (extra_body p)) 0), "extra_body");
   (negb (Nat.eqb (size (model_ids p)) 0), "model_ids"); (negb (Nat.eqb (size (declared_pricing p)) 0), "pricing");
   (is_some (proxy p), "proxy"); (is_some (proxy_username p), "proxy_username");
   (is_some (proxy_password_credential p), "proxy_password_credential"); (is_some (api_key_env p), "api_key_env");
   (is_some (api_key_credential p), "api_key_credential"); (is_some (oauth_token_env p), "oauth_token_env");
   (is_some (oauth_authorization_endpoint p), "oauth_authorization_endpoint");
   (is_some (oauth_token_endpoint p), "oauth_token_endpoint"); (is_some (oauth_client_id p), "oauth_client_id");
   (match oauth_scopes p with [] => false | _ => true end, "oauth_scopes");
   (is_some (oauth_access_token_credential p), "oauth_access_token_credential");
   (is_some (oauth_refresh_token_credential p), "oauth_refresh_token_credential")].
Definition set_provider_sources (name : string) (p : ProviderConfig) (source : ConfigSource) (l : LoadedConfig)
    : LoadedConfig :=
  let l := set_source ("providers." ++ name ++ ".kind") source l in
  let l := fold_left (λ l f, if (f.1 : bool) then set_source ("providers." ++ name ++ "." ++ f.2) source l else l)
             (provider_fields p) l in
  for_each (declared_pricing p) (λ model _, set_source ("providers." ++ name ++ ".pricing." ++ quoted model) source) l.

Definition apply_security_file_sections (source : ConfigSource) (f : ConfigFile) (l : LoadedConfig) : LoadedConfig :=
  let l := section_of (file_websearch f) (λ w l,
    let l := assign (file_endpoint w) (λ v, upd_websearch (set_search_endpoint (Some v))) "websearch.endpoint" source l in
    let l := assign (file_query_parameter w) (λ v, upd_websearch (set_query_parameter v))
               "websearch.query_parameter" source l in
    assign (file_header_credentials w) (λ v, upd_websearch (set_search_header_credentials v))
      "websearch.header_credentials" source l) l in
  let l := section_of (file_network f) (λ n l,
    let l := assign (file_proxy n) (λ v, upd_network (set_net_proxy (Some v))) "network.proxy" source l in
    let l := assign (file_proxy_username n) (λ v, upd_network (set_net_proxy_username (Some v)))
               "network.proxy_username" source l in
    assign (file_proxy_password_credential n) (λ v, upd_network (set_net_proxy_password_credential (Some v)))
      "network.proxy_password_credential" source l) l in
  let l := section_of (file_providers f) (λ providers, for_each providers (λ name provider l,
    upd_config (upd_providers (insert name provider)) (set_provider_sources name provider source l))) l in
  let l := section_of (file_permissions f) (λ p l,
    let l := assign (file_permission_default p) (λ v, upd_permissions (set_config_default v))
               "permissions.default" source l in
    assign (file_permission_rules p) (λ v, upd_permissions (set_config_rules v)) "permissions.rules" source l) l in
  let l := section_of (file_sandbox f) (λ s,
    assign s (λ v, upd_sandbox (λ _, mkSandbox v)) "sandbox.safe_list" source) l in
  section_of (file_updates f) (λ u, assign u (λ v, upd_updates (λ _, mkUpdates v)) "updates.channel" source) l.

Definition security_sections (f : ConfigFile) : list (bool * string) :=
  [(is_some (file_network f), "network"); (is_some (file_websearch f), "websearch");
   (is_some (file_providers f), "providers"); (is_some (file_permissions f), "permissions");
   (is_some (file_sandbox f), "sandbox.safe_list"); (is_some (file_telemetry f), "telemetry");
   (is_some (file_updates f), "updates")].
Definition warn_ignored_project_sections (source : ConfigSource) (f : ConfigFile) (l : LoadedConfig) : LoadedConfig :=
  fold_left (λ l s, if (s.1 : bool) then push_warning
    ("ignored security-sensitive project section [" ++ s.2 ++ "] from " ++ source_text source
     ++ "; configure it at user, environment, or CLI scope") l else l) (security_sections f) l.

Definition apply_file (source : ConfigSource) (scope : FileScope) (f : ConfigFile) (l : LoadedConfig) : LoadedConfig :=
  let l := section_of (file_engine f) (apply_engine_file source) l in
  let l := section_of (file_models f) (apply_models_file source) l in
  let l := section_of (file_agents f) (λ a,
    assign a (λ v, upd_agents (λ _, mkAgents v)) "agents.wake_on_completion" source) l in
  let l := section_of (file_compaction f) (apply_compaction_file source) l in
  let l := section_of (file_budget f) (apply_budget_file source) l in
  let l := section_of (file_toolchain f) (apply_toolchain_file source) l in
  let l := assign (file_ui f) (λ v, upd_ui (λ _, v)) "ui.theme" source l in
  match scope with
  | User =>
      let l := section_of (file_telemetry f) (λ t,
        assign t (λ v, upd_telemetry (λ _, mkTelemetry v)) "telemetry.enabled" source) l in
      apply_security_file_sections source f l
  | Project => warn_ignored_project_sections source f l
  end.

(** * Overrides *)

(** [ConfigError::CliOverride]: its reason *)
Abbreviation Overridden := (Result LoadedConfig string).
Definition nonempty_override (value : string) : option string := if is_blank value then None else Some value.
Definition is_unset (value : string) : bool := is_blank value || mem (trim value) ["none"; "unset"].
Definition optional_string (value : string) : option string := if is_unset value then None else Some value.
Definition parse_optional_u64 (value : string) : Result (option Z) string :=
  if is_unset value then Ok None
  else match parse_uint u64_max value with
       | Some n => Ok (Some n)
       | None => Err "expected a non-negative integer or unset"
       end.
Definition split_list (value : string) : list string :=
  List.filter (λ entry, negb (is_empty entry)) (map trim (split_char ","%char value)).
Definition parse_bool (value : string) : option bool :=
  if String.eqb value "true" then Some true else if String.eqb value "false" then Some false else None.
Definition parse_decision (value : string) : option PermissionDecision :=
  if String.eqb value "ask" then Some Ask else if String.eqb value "allow" then Some Allow
  else if String.eqb value "deny" then Some Deny else None.
Definition parse_thinking (value : string) : option ThinkingLevel :=
  if String.eqb value "off" then Some ThinkingOff else if String.eqb value "low" then Some ThinkingLow
  else if String.eqb value "medium" then Some ThinkingMedium
  else if String.eqb value "high" then Some ThinkingHigh else None.
Definition parse_channel (value : string) : option UpdateChannel :=
  if String.eqb value "stable" then Some Stable else if String.eqb value "beta" then Some Beta else None.

(** The key is handled here, or left to the next function. *)
Definition apply_engine_override (key value : string) (l : LoadedConfig) : Result (option LoadedConfig) string :=
  let parsed set :=
    let? n := ok_or (parse_uint u64_max value) "expected a positive integer" in
    Ok (Some (upd_config (upd_engine (set n)) l)) in
  if String.eqb key "engine.max_concurrent_sessions" then parsed set_max_concurrent_sessions
  else if String.eqb key "engine.subagent_max_depth" then parsed set_subagent_max_depth
  else if String.eqb key "engine.subagent_max_concurrency" then parsed set_subagent_max_concurrency
  else Ok None.
Definition budget_setter (key : string) : option (option Z → BudgetConfig → BudgetConfig) :=
  if String.eqb key "budget.session_cost_cap_micros_usd" then Some set_session_cost_cap_micros_usd
  else if String.eqb key "budget.daily_cost_cap_micros_usd" then Some set_daily_cost_cap_micros_usd
  else if String.eqb key "budget.session_ai_credit_cap_micros" then Some set_session_ai_credit_cap_micros
  else if String.eqb key "budget.daily_ai_credit_cap_micros" then Some set_daily_ai_credit_cap_micros
  else if String.eqb key "budget.session_token_cap" then Some set_session_token_cap
  else if String.eqb key "budget.daily_token_cap" then Some set_daily_token_cap
  else if String.eqb key "budget.spend_rate_alarm_micros_usd_per_minute"
  then Some set_spend_rate_alarm_micros_usd_per_minute
  else if String.eqb key "budget.ai_credit_rate_alarm_micros_per_minute"
  then Some set_ai_credit_rate_alarm_micros_per_minute
  else if String.eqb key "budget.token_rate_alarm_per_minute" then Some set_token_rate_alarm_per_minute
  else None.
Definition apply_m3_override (key value : string) (l : LoadedConfig) : Result (option LoadedConfig) string :=
  let done_ f := Ok (Some (upd_config f l)) in
  if String.eqb key "agents.wake_on_completion" then
    let? v := ok_or (parse_bool value) "expected true or false" in done_ (upd_agents (λ _, mkAgents v))
  else if String.eqb key "compaction.auto" then
    let? v := ok_or (parse_bool value) "expected true or false" in done_ (upd_compaction (set_compact_auto v))
  else if String.eqb key "compaction.reserved" then
    let? v := parse_optional_u64 value in done_ (upd_compaction (set_reserved_tokens v))
  else if String.eqb key "compaction.model_alias" then done_ (upd_compaction (set_compact_alias (optional_string value)))
  else match budget_setter key with
       | Some set => let? v := parse_optional_u64 value in done_ (upd_budget (set v))
       | None =>
           if String.eqb key "budget.warn_at_percent" then
             let? v := ok_or (parse_uint 255 value) "expected an integer from 1 through 100" in
             done_ (upd_budget (set_warn_at_percent v))
           else Ok None
       end.

(** [trim_start_matches] of a text: every leading occurrence is removed. *)
Fixpoint strip_repeated (fuel : nat) (prefix s : string) : string :=
  match fuel with
  | O => s
  | S fuel => match strip_prefix prefix s with Some rest => strip_repeated fuel prefix rest | None => s end
  end.
Definition trim_start_str (prefix s : string) : string := strip_repeated (String.length s) prefix s.
Fixpoint rsplit_once (c : ascii) (s : string) : option (string * string) :=
  match s with
  | "" => None
  | String d rest =>
      match rsplit_once c rest with
      | Some (before, after) => Some (String d before, after)
      | None => if Ascii.eqb d c then Some ("", rest) else None
      end
  end.
Definition provider_setter (field value : string) : option (ProviderConfig → ProviderConfig) :=
  let optional set := Some (set (nonempty_override value)) in
  if String.eqb field "kind" then Some (set_kind value)
  else if String.eqb field "base_url" then optional set_base_url
  else if String.eqb field "proxy" then optional set_proxy
  else if String.eqb field "proxy_username" then optional set_proxy_username
  else if String.eqb field "proxy_password_credential" then optional set_proxy_password_credential
  else if String.eqb field "api_key_env" then optional set_api_key_env
  else if String.eqb field "api_key_credential" then optional set_api_key_credential
  else if String.eqb field "oauth_token_env" then optional set_oauth_token_env
  else if String.eqb field "oauth_authorization_endpoint" then optional set_oauth_authorization_endpoint
  else if String.eqb field "oauth_token_endpoint" then optional set_oauth_token_endpoint
  else if String.eqb field "oauth_client_id" then optional set_oauth_client_id
  else if String.eqb field "oauth_scopes" then Some (set_oauth_scopes (split_list value))
  else if String.eqb field "oauth_access_token_credential" then optional set_oauth_access_token_credential
  else if String.eqb field "oauth_refresh_token_credential" then optional set_oauth_refresh_token_credential
  else None.
Definition apply_provider_override (key value : string) (l : LoadedConfig) : Overridden :=
  match rsplit_once "."%char (trim_start_str "providers." key) with
  | None => Err "expected providers.<name>.<field>"
  | Some (name, field) =>
      if is_blank name then Err "provider name must not be empty" else
      match provider_setter field value with
      | None => Err ("unknown provider configuration field " ++ quoted field)
      | Some set =>
          Ok (upd_config (upd_providers (λ ps, <[name := set (default default_provider (ps !! name))]> ps)) l)
      end
  end.

Definition apply_other_override (key value : string) (l : LoadedConfig) : Overridden :=
  let done_ f := Ok (upd_config f l) in
  if String.eqb key "models.default" then done_ (upd_models (set_default_model value))
  else if String.eqb key "network.proxy" then done_ (upd_network (set_net_proxy (Some value)))
  else if String.eqb key "network.proxy_username" then
    done_ (upd_network (set_net_proxy_username (nonempty_override value)))
  else if String.eqb key "network.proxy_password_credential" then
    done_ (upd_network (set_net_proxy_password_credential (nonempty_override value)))
  else if String.eqb key "permissions.default" then
    let? v := ok_or (parse_decision value) "expected ask, allow, or deny" in done_ (upd_permissions (set_config_default v))
  else if String.eqb key "sandbox.safe_list" then done_ (upd_sandbox (λ _, mkSandbox (split_list value)))
  else if String.eqb key "telemetry.enabled" then
    let? v := ok_or (parse_bool value) "expected true or false" in done_ (upd_telemetry (λ _, mkTelemetry v))
  else if String.eqb key "updates.channel" then
    let? v := ok_or (parse_channel value) "expected stable or beta" in done_ (upd_updates (λ _, mkUpdates v))
  else if starts_with "models.aliases." key then
    let alias := trim_start_str "models.aliases." key in
    if is_empty alias then Err "model alias name must not be empty"
    else done_ (insert_alias alias (split_list value))
  else if starts_with "models.thinking." key then
    let alias := trim_start_str "models.thinking." key in
    if is_empty alias then Err "model alias name must not be empty"
    else let? level := ok_or (parse_thinking value) "expected off, low, medium, or high" in
         done_ (insert_thinking alias level)
  else if starts_with "providers." key then apply_provider_override key value l
  else Err ("unknown configuration key " ++ quoted key).
Definition apply_setting (key value : string) (source : ConfigSource) (l : LoadedConfig) : Overridden :=
  let? engine := apply_engine_override key value l in
  match engine with
  | Some l => Ok (set_source key source l)
  | None =>
      let? m3 := apply_m3_override key value l in
      match m3 with
      | Some l => Ok (set_source key source l)
      | None => let? l := apply_other_override key value l in Ok (set_source key source l)
      end
  end.
Definition apply_override (raw : string) (source : ConfigSource) (l : LoadedConfig) : Overridden :=
  match split_once "="%char raw with
  | None => Err "expected KEY=VALUE"
  | Some (key, value) => apply_setting key value source l
  end.

Definition ENVIRONMENT_KEYS : list (string * string) :=
  [("RW_ENGINE_MAX_CONCURRENT_SESSIONS", "engine.max_concurrent_sessions");
   ("RW_ENGINE_SUBAGENT_MAX_DEPTH", "engine.subagent_max_depth");
   ("RW_ENGINE_SUBAGENT_MAX_CONCURRENCY", "engine.subagent_max_concurrency");
   ("RW_MODEL_DEFAULT", "models.default"); ("RW_COMPACTION_AUTO", "compaction.auto");
   ("RW_COMPACTION_RESERVED", "compaction.reserved"); ("RW_COMPACTION_MODEL_ALIAS", "compaction.model_alias");
   ("RW_BUDGET_SESSION_COST_CAP_MICROS_USD", "budget.session_cost_cap_micros_usd");
   ("RW_BUDGET_DAILY_COST_CAP_MICROS_USD", "budget.daily_cost_cap_micros_usd");
   ("RW_BUDGET_SESSION_AI_CREDIT_CAP_MICROS", "budget.session_ai_credit_cap_micros");
   ("RW_BUDGET_DAILY_AI_CREDIT_CAP_MICROS", "budget.daily_ai_credit_cap_micros");
   ("RW_BUDGET_SESSION_TOKEN_CAP", "budget.session_token_cap"); ("RW_BUDGET_DAILY_TOKEN_CAP", "budget.daily_token_cap");
   ("RW_BUDGET_SPEND_RATE_ALARM_MICROS_USD_PER_MINUTE", "budget.spend_rate_alarm_micros_usd_per_minute");
   ("RW_BUDGET_AI_CREDIT_RATE_ALARM_MICROS_PER_MINUTE", "budget.ai_credit_rate_alarm_micros_per_minute");
   ("RW_BUDGET_TOKEN_RATE_ALARM_PER_MINUTE", "budget.token_rate_alarm_per_minute");
   ("RW_BUDGET_WARN_AT_PERCENT", "budget.warn_at_percent"); ("RW_NETWORK_PROXY", "network.proxy");
   ("RW_NETWORK_PROXY_USERNAME", "network.proxy_username");
   ("RW_NETWORK_PROXY_PASSWORD_CREDENTIAL", "network.proxy_password_credential");
   ("RW_PERMISSION_DEFAULT", "permissions.default"); ("RW_SANDBOX_SAFE_LIST", "sandbox.safe_list");
   ("RW_TELEMETRY_ENABLED", "telemetry.enabled"); ("RW_UPDATE_CHANNEL", "updates.channel")].
(** The override [key=value] is split again at its first [=]; no key has one. *)
Fixpoint apply_environment_keys (keys : list (string * string)) (environment : gmap string string) (l : LoadedConfig)
    : Result LoadedConfig ConfigError :=
  match keys with
  | [] => Ok l
  | (name, key) :: rest =>
      match environment !! name with
      | None => apply_environment_keys rest environment l
      | Some value =>
          match apply_override (key ++ "=" ++ value) (SourceEnvironment name) l with
          | Ok l => apply_environment_keys rest environment l
          | Err reason => Err (EnvironmentError name value reason)
          end
      end
  end.
Definition apply_environment := apply_environment_keys ENVIRONMENT_KEYS.
Fixpoint apply_overrides (raws : list string) (l : LoadedConfig) : Result LoadedConfig ConfigError :=
  match raws with
  | [] => Ok l
  | raw :: rest =>
      match apply_override raw Cli l with
      | Ok l => apply_overrides rest l
      | Err reason => Err (CliOverride raw reason)
      end
  end.
End layers.
