(* ===== verification/ConfigValidation.v ===== *)
(** Validation of the effective settings ([rw-store/src/config/validation.rs],
    [rw-types/src/config.rs], [rw-types/src/config/provider_body.rs]):
    definitions.

    Parameters: the URL parser ([UrlOf], the [url] crate), [Glob] and
    [StrDebug].  A rate is compared as the IEEE double it is. *)
From Stdlib Require Import Ascii.
From S2P Require Import Prelude Text Decimal Ir Estimate Assembly ShellSplit BashSafety PermissionRules PermissionIdentity Sse Pricing BudgetSums BudgetLedger FolderTrust Config.

(** * URLs *)

Inductive Host : Type := Domain (name : string) | Ipv4 (a b c d : Z) | Ipv6 (address : Z).
Record Url : Type := mkUrl {
  scheme : string;
  url_host : option Host;
  url_username : string;
  url_password : option string;
  url_query : option string;
  url_fragment : option string;
  url_path : string;
}.
Class UrlOf : Type := url_of : string → option Url.

(** [Ipv4Addr::is_loopback] and [Ipv6Addr::is_loopback] *)
Definition address_is_loopback (host : Host) : bool :=
  match host with Domain _ => false | Ipv4 a _ _ _ => a =? 127 | Ipv6 address => address =? 1 end.
Definition eq_ignore_ascii_case (s t : string) : bool := String.eqb (to_ascii_lowercase s) (to_ascii_lowercase t).
Definition is_loopback_endpoint (url : Url) : bool :=
  match url_host url with
  | Some (Domain host) => eq_ignore_ascii_case host "localhost"
  | Some host => address_is_loopback host
  | None => false
  end.

(** * Numbers *)

(** The value of a finite double as [n / 2 ^ 1074] *)
Definition f64_scaled (bits : Z) : option Z :=
  let exponent := Z.land (Z.shiftr bits 52) 2047 in
  let fraction := Z.land bits (2 ^ 52 - 1) in
  let magnitude := if exponent =? 0 then fraction else Z.shiftl (2 ^ 52 + fraction) (exponent - 1) in
  if exponent =? 2047 then None else Some (if Z.testbit bits 63 then - magnitude else magnitude).
(** [as_f64] of an integer rounds; the bounds below are doubles, and rounding
    keeps the order with a double. *)
Definition number_scaled (n : JsonNumber) : option Z :=
  match n with
  | PosInt n | NegInt n => Some (n * 2 ^ 1074)
  | FloatBits bits => f64_scaled bits
  end.
(** [1_000_000.0] and [0.000_001] *)
Definition MAX_USD_PER_MILLION : Z := 1000000 * 2 ^ 1074.
Definition MIN_RATE_BITS : Z := 0x3EB0C6F7A0B5ED8D.

(** * Providers ([rw-types]) *)

Definition in_class (cs : string) (c : ascii) : bool := char_in cs c.
Definition is_http_token_byte (c : ascii) : bool := is_ascii_alphanumeric c || in_class "!#$%&'*+-.^_`|~" c.
Definition has_line_or_nul (s : string) : bool :=
  negb (str_all (λ c, negb (mem (String c "") [String (byte 0) ""; String (byte 13) ""; String (byte 10) ""])) s).
Definition is_ascii_text (s : string) : bool := str_all (λ c, (nat_of_ascii c <? 128)%nat) s.

Section validation.
Context {SD : StrDebug} {UO : UrlOf} {G : Glob}.

Definition RESERVED_HEADERS : list string :=
  ["host"; "connection"; "transfer-encoding"; "upgrade"; "keep-alive"; "proxy-authorization"; "te"; "trailer"].
Definition validate_provider_header (name value source : string) : Result unit string :=
  if is_empty name || negb (is_ascii_text name) || negb (str_all is_http_token_byte name)
     || mem (to_ascii_lowercase name) RESERVED_HEADERS || has_line_or_nul value
  then Err ("provider " ++ source ++ " header " ++ quoted name ++ " has an invalid or reserved name/value")
  else Ok tt.
Definition insert_unique_header (names : gmap string string) (name source : string) : Result (gmap string string) string :=
  match names !! to_ascii_lowercase name with
  | Some existing =>
      Err ("request header " ++ quoted name ++ " is configured by both " ++ existing ++ " and " ++ source)
  | None => Ok (<[to_ascii_lowercase name := source]> names)
  end.
Fixpoint check_headers (l : list (string * string)) (names : gmap string string) : Result (gmap string string) string :=
  match l with
  | [] => Ok names
  | (name, value) :: rest =>
      let? _ := validate_provider_header name value "headers" in
      let? names := insert_unique_header names name "headers" in
      check_headers rest names
  end.
Fixpoint check_header_credentials (l : list (string * string)) (names : gmap string string)
    : Result (gmap string string) string :=
  match l with
  | [] => Ok names
  | (name, credential) :: rest =>
      let? _ := validate_provider_header name credential "header_credentials" in
      if is_blank credential then Err ("header credential reference for " ++ quoted name ++ " must not be empty") else
      let? names := insert_unique_header names name "header_credentials" in
      check_header_credentials rest names
  end.
Definition valid_path_template (template : string) : bool :=
  starts_with "/" template && negb (contains_any "?#" template)
  && Nat.eqb (length (List.filter (String.eqb "{model}") (split_char "/"%char template))) 1
  && negb (existsb (λ segment, str_contains "{model}" segment && negb (String.eqb segment "{model}"))
             (split_char "/"%char template)).
Definition CONTROLLED_FIELDS : list string :=
  ["model"; "messages"; "input"; "tools"; "tool_choice"; "stream"; "stream_options"; "max_tokens";
   "max_completion_tokens"; "max_output_tokens"; "temperature"; "response_format"; "reasoning"].
Definition provider_body_field_is_controlled (key : string) (value : Value) : bool :=
  let lower := to_ascii_lowercase key in
  mem lower CONTROLLED_FIELDS || starts_with "reasoning_" lower
  || (String.eqb lower "text" &&
      match value with
      | JObject fields => existsb (λ f, eq_ignore_ascii_case f.1 "format") fields
      | _ => false
      end).
Definition nonempty_map {A} (m : gmap string A) : bool := negb (Nat.eqb (size m) 0).
Definition has_gateway_override (p : ProviderConfig) : bool :=
  is_some (path_template p) || nonempty_map (headers p) || nonempty_map (header_credentials p)
  || is_some (auth_scheme p) || nonempty_map (extra_query p) || nonempty_map (extra_body p)
  || nonempty_map (model_ids p).
Definition FIXED_TRANSPORT_KINDS : list string := ["openai_codex"; "github_copilot"; "anthropic"].
Definition validate_gateway_options (p : ProviderConfig) : Result unit string :=
  if has_gateway_override p && mem (kind p) FIXED_TRANSPORT_KINDS
  then Err ("provider kind " ++ quoted (kind p)
            ++ " has a fixed transport and cannot use gateway request overrides")
  else if match path_template p with Some t => negb (valid_path_template t) | None => false end
  then Err "path_template must be an absolute path containing exactly one {model} segment"
  else
  let? names := check_headers (entries (headers p)) ∅ in
  let? names := check_header_credentials (entries (header_credentials p)) names in
  let? names := match auth_scheme p with
                | Some (AuthHeader name value_prefix) =>
                    let? _ := validate_provider_header name value_prefix "auth_scheme" in
                    insert_unique_header names name "auth_scheme"
                | _ => Ok names
                end in
  let bearer := match auth_scheme p with None | Some Bearer => true | _ => false end in
  if bearer && is_some (names !! "authorization")
  then Err ("request header " ++ quoted "authorization" ++ " conflicts with the primary auth scheme")
  else match List.find (λ e, provider_body_field_is_controlled e.1 e.2) (entries (extra_body p)) with
  | Some (key, _) => Err ("extra_body field " ++ quoted key ++ " is engine-controlled and cannot be overridden")
  | None =>
      if existsb (λ e, is_blank e.1 || is_blank e.2) (entries (model_ids p))
      then Err "model_ids keys and values must not be empty" else Ok tt
  end.

Definition validate_rate (model field : string) (rate : option JsonNumber) (required : bool) : Result unit string :=
  match rate with
  | None => if required then Err ("pricing for model " ++ quoted model ++ " requires " ++ field) else Ok tt
  | Some rate =>
      let range := Err ("pricing rate " ++ field ++ " for model " ++ quoted model
        ++ " must be finite and between 0 and 1000000 USD per million tokens") in
      match number_scaled rate with
      | None => range
      | Some rate =>
          if (rate <? 0) || (MAX_USD_PER_MILLION <? rate) then range
          else if (0 <? rate) && (rate <? default 0 (f64_scaled MIN_RATE_BITS))
          then Err ("pricing rate " ++ field ++ " for model " ++ quoted model
                    ++ " is below the supported precision of 0.000001 USD per million tokens")
          else Ok tt
      end
  end.
Definition validate_model_pricing (model : string) (p : ProviderModelPricingConfig) : Result unit string :=
  if is_blank model then Err "pricing model identifiers must not be empty"
  else if negb (bool_decide (currency p = Some "USD"))
  then Err ("pricing for model " ++ quoted model ++ " must declare currency = "
            ++ String (byte 34) ("USD" ++ String (byte 34) ""))
  else
  let? _ := validate_rate model "input_per_million" (rate_input p) true in
  let? _ := validate_rate model "output_per_million" (rate_output p) true in
  let? _ := validate_rate model "cache_read_per_million" (rate_cache_read p) false in
  validate_rate model "cache_write_per_million" (rate_cache_write p) false.
(** The first error of a list of checks *)
Fixpoint check_all {A E} (f : A → Result unit E) (l : list A) : Result unit E :=
  match l with [] => Ok tt | x :: rest => let? _ := f x in check_all f rest end.
Definition validate_pricing (p : ProviderConfig) : Result unit string :=
  if negb (nonempty_map (declared_pricing p)) then Ok tt
  else if mem (kind p) ["openai_codex"; "github_copilot"]
  then Err ("provider kind " ++ quoted (kind p)
            ++ " uses subscription or credit accounting and cannot declare API pricing")
  else check_all (λ e, validate_model_pricing e.1 e.2) (entries (declared_pricing p)).

(** * The store's checks *)

Abbreviation Checked := (Result unit ConfigError).
Definition invalid (message : string) : Checked := Err (Validation message).
(** Neither credentials, query nor fragment, and a host *)
Definition plain_url (u : Url) : bool :=
  mem (scheme u) ["http"; "https"] && is_some (url_host u) && is_empty (url_username u)
  && negb (is_some (url_password u)) && negb (is_some (url_query u)) && negb (is_some (url_fragment u)).
Definition validate_proxy (key proxy : string) : Checked :=
  match url_of proxy with
  | None => invalid (key ++ " must be an absolute HTTP(S) URL without inline credentials")
  | Some parsed =>
      if negb (plain_url parsed) || negb (mem (url_path parsed) [""; "/"])
      then invalid (key ++ " must be an HTTP(S) origin without inline credentials, path, query, or fragment")
      else Ok tt
  end.
Definition validate_proxy_authentication (key : string) (proxy username password_credential : option string) : Checked :=
  match username, password_credential with
  | None, None => Ok tt
  | Some username, Some credential =>
      if is_some proxy && negb (is_blank username) && negb (is_blank credential) then Ok tt
      else invalid (key ++ " proxy authentication requires proxy, proxy_username, and proxy_password_credential together")
  | _, _ =>
      invalid (key ++ " proxy authentication requires proxy, proxy_username, and proxy_password_credential together")
  end.
Definition validate_remote_endpoint (key value : string) : Checked :=
  match url_of value with
  | None => invalid (key ++ " must be an absolute HTTPS URL")
  | Some parsed =>
      let loopback_host := match url_host parsed with Some host => address_is_loopback host | None => false end in
      let loopback_http := String.eqb (scheme parsed) "http" && loopback_host in
      if (negb (String.eqb (scheme parsed) "https") && negb loopback_http) || negb (is_some (url_host parsed))
         || negb (is_empty (url_username parsed)) || is_some (url_password parsed) || is_some (url_fragment parsed)
      then invalid (key ++ " must use HTTPS without credentials or a fragment (loopback HTTP is test-only)")
      else Ok tt
  end.
Definition is_ascii_alphabetic (c : ascii) : bool :=
  let n := nat_of_ascii c in ((65 <=? n) && (n <=? 90) || (97 <=? n) && (n <=? 122))%nat.
Definition valid_environment_name (value : string) : bool :=
  match value with
  | "" => false
  | String c rest =>
      (in_class "_" c || is_ascii_alphabetic c) && str_all (λ c, in_class "_" c || is_ascii_alphanumeric c) rest
  end.
Definition checked_option {A} (v : option A) (check : A → Checked) : Checked :=
  match v with Some x => check x | None => Ok tt end.

Definition validate_provider_oauth (name : string) (p : ProviderConfig) : Checked :=
  let key field := "providers." ++ name ++ "." ++ field in
  let configured := is_some (oauth_authorization_endpoint p) || is_some (oauth_token_endpoint p)
                    || is_some (oauth_client_id p) || match oauth_scopes p with [] => false | _ => true end in
  if configured && negb (is_some (oauth_authorization_endpoint p) && is_some (oauth_token_endpoint p)
                         && is_some (oauth_client_id p))
  then invalid ("providers." ++ name ++ " OAuth login requires oauth_authorization_endpoint, "
                ++ "oauth_token_endpoint, and oauth_client_id") else
  let? _ := checked_option (oauth_authorization_endpoint p) (validate_remote_endpoint (key "oauth_authorization_endpoint")) in
  let? _ := checked_option (oauth_token_endpoint p) (validate_remote_endpoint (key "oauth_token_endpoint")) in
  let blank field (v : option string) :=
    if match v with Some reference => is_blank reference | None => false end
    then invalid (key field ++ " must not be empty") else Ok tt in
  let? _ := blank "oauth_client_id" (oauth_client_id p) in
  if existsb (λ scope, is_blank scope || existsb (λ ch, mem ch white_space) (utf8_chars scope)) (oauth_scopes p)
  then invalid (key "oauth_scopes" ++ " entries must be non-empty and contain no whitespace") else
  let? _ := blank "oauth_access_token_credential" (oauth_access_token_credential p) in
  blank "oauth_refresh_token_credential" (oauth_refresh_token_credential p).

Definition validate_base_url (name base_url : string) : Checked :=
  let key := "providers." ++ name ++ ".base_url" in
  match url_of base_url with
  | None => invalid (key ++ " must be an absolute HTTP(S) URL")
  | Some parsed =>
      if negb (plain_url parsed) then invalid (key ++ " must not contain credentials, query, or fragment")
      else if String.eqb (scheme parsed) "http" && negb (is_loopback_endpoint parsed)
      then invalid (key ++ " must use HTTPS unless it targets loopback") else Ok tt
  end.
Definition validate_provider (name : string) (p : ProviderConfig) : Checked :=
  let scoped (r : Result unit string) : Checked :=
    match r with Ok _ => Ok tt | Err message => invalid ("providers." ++ name ++ ": " ++ message) end in
  if is_blank name || is_blank (kind p)
  then invalid ("provider " ++ quoted name ++ " must have a non-empty name and kind") else
  let? _ := scoped (validate_gateway_options p) in
  let? _ := scoped (validate_pricing p) in
  let? _ := checked_option (base_url p) (validate_base_url name) in
  let? _ := checked_option (proxy p) (validate_proxy ("providers." ++ name ++ ".proxy")) in
  let? _ := validate_proxy_authentication ("providers." ++ name) (proxy p) (proxy_username p)
              (proxy_password_credential p) in
  let variable field v := checked_option v (λ v, if valid_environment_name v then Ok tt
    else invalid ("providers." ++ name ++ "." ++ field ++ " must name an environment variable")) in
  let? _ := variable "api_key_env" (api_key_env p) in
  let? _ := variable "oauth_token_env" (oauth_token_env p) in
  if match api_key_credential p with Some reference => is_blank reference | None => false end
  then invalid ("providers." ++ name ++ ".api_key_credential must not be empty")
  else validate_provider_oauth name p.

Definition validate_websearch (w : WebSearchConfig) : Checked :=
  let? _ := checked_option (search_endpoint w) (λ endpoint,
    match url_of endpoint with
    | None => invalid "websearch.endpoint must be an absolute HTTP(S) URL"
    | Some parsed =>
        if plain_url parsed then Ok tt
        else invalid "websearch.endpoint must not contain credentials, query, or fragment"
    end) in
  if is_empty (query_parameter w) || negb (str_all (λ c, is_ascii_alphanumeric c || in_class "_-" c) (query_parameter w))
  then invalid "websearch.query_parameter is invalid"
  else check_all (λ e, let '(name, credential) := e in
    if is_empty name || negb (is_ascii_text name) || negb (str_all is_http_token_byte name)
       || mem (to_ascii_lowercase name) ["host"; "connection"; "proxy-authorization"]
       || is_blank credential || has_line_or_nul credential
    then invalid ("websearch header " ++ quoted name ++ " is invalid or reserved") else Ok tt)
    (entries (search_header_credentials w)).

Definition MAX_TOOLCHAIN_RUNTIME_READ_ROOTS : nat := 32.
Definition MAX_TOOLCHAIN_RUNTIME_ROOT_BYTES : Z := 4096.
(** A root is read from TOML, so that it is UTF-8. *)
Definition valid_toolchain_runtime_read_roots (roots : list string) : bool :=
  (length roots <=? MAX_TOOLCHAIN_RUNTIME_READ_ROOTS)%nat
  && forallb (λ root, is_absolute root && (str_len root <=? MAX_TOOLCHAIN_RUNTIME_ROOT_BYTES)
                      && str_all (λ c, negb (Ascii.eqb c (byte 0))) root) roots.
Definition invalid_toolchain_command (command : string) : bool := is_blank command || has_line_or_nul command.
Definition validate_toolchain (t : ToolchainConfig) : Checked :=
  let bad (command : option string) := match command with Some c => invalid_toolchain_command c | None => false end in
  if negb (valid_toolchain_runtime_read_roots (runtime_read_roots t))
  then invalid ("toolchain.runtime_read_roots requires at most 32 absolute UTF-8 paths of at most 4096 bytes")
  else if bad (formatter t) then invalid "toolchain.formatter must be a non-empty one-line command"
  else if bad (test_command t) then invalid "toolchain.test must be a non-empty one-line command"
  else if existsb invalid_toolchain_command (linters t)
  then invalid "toolchain.linters must contain non-empty one-line commands"
  else check_all (λ rule,
    if is_blank (file_pattern rule) || negb (is_some (glob_build true (file_pattern rule)))
    then invalid ("toolchain rule contains invalid file glob " ++ quoted (file_pattern rule))
    else if bad (rule_formatter rule) || existsb invalid_toolchain_command (rule_linters rule)
    then invalid ("toolchain rule " ++ quoted (file_pattern rule) ++ " contains an invalid command") else Ok tt)
    (toolchain_rules t).

Definition is_lower_or_digit (c : ascii) : bool := is_ascii_alphanumeric c && Ascii.eqb (ascii_lower c) c.
Definition valid_theme_name (value : string) : bool :=
  match value with
  | "" => false
  | String c _ => (str_len value <=? 64) && (is_ascii_alphabetic c && Ascii.eqb (ascii_lower c) c)
                  && str_all (λ c, is_lower_or_digit c || in_class "._-" c) value
  end.
Definition validate_rule (rule : PermissionRule) : Checked :=
  let syntax := invalid ("permission rule " ++ quoted (rule_pattern rule) ++ " must use tool(glob) syntax") in
  match split_once "("%char (rule_pattern rule) with
  | None => syntax
  | Some (tool, pattern) =>
      match strip_suffix ")" pattern with
      | None => syntax
      | Some pattern =>
          if is_empty tool || negb (str_all (λ c, is_lower_or_digit c || in_class "_" c) tool)
             || negb (is_some (glob_build false pattern))
          then invalid ("permission rule " ++ quoted (rule_pattern rule) ++ " contains an invalid tool name or glob")
          else Ok tt
      end
  end.
(** [CompactionConfig::validate] *)
Definition validate_compaction (c : CompactionConfig) : Checked :=
  if bool_decide (reserved_tokens c = Some 0) then invalid "compaction.reserved must be greater than zero"
  else if match compact_alias c with Some alias => is_blank alias | None => false end
  then invalid "compaction.model_alias must not be empty" else Ok tt.

Definition validate (c : Config) : Checked :=
  let e := config_engine c in
  if max_concurrent_sessions e =? 0 then invalid "engine.max_concurrent_sessions must be greater than zero"
  else if subagent_max_depth e =? 0 then invalid "engine.subagent_max_depth must be greater than zero"
  else if subagent_max_concurrency e =? 0 then invalid "engine.subagent_max_concurrency must be greater than zero"
  else if is_blank (default_model (config_models c)) then invalid "models.default must not be empty" else
  let? _ := check_all (λ e, if is_blank e.1 || match e.2 with [] => true | _ => false end
    then invalid ("model alias " ++ quoted e.1 ++ " must have at least one candidate") else Ok tt)
    (entries (model_aliases (config_models c))) in
  let? _ := check_all (λ e : string * ThinkingLevel, if is_blank e.1
    then invalid "model thinking alias must not be empty" else Ok tt) (entries (model_thinking (config_models c))) in
  let? _ := validate_compaction (config_compaction c) in
  let? _ := if budget_valid (config_budget c) then Ok tt else invalid "budget.warn_at_percent must be between 1 and 100" in
  let? _ := if valid_theme_name (theme (config_ui c)) then Ok tt else invalid "ui.theme must be a safe theme name" in
  let? _ := validate_websearch (config_websearch c) in
  let? _ := check_all validate_rule (config_rules (config_permissions c)) in
  let? _ := check_all (λ pattern, if is_blank pattern || negb (is_some (glob_build true pattern))
    then invalid ("sandbox.safe_list contains invalid command glob " ++ quoted pattern) else Ok tt)
    (safe_list (config_sandbox c)) in
  let? _ := validate_toolchain (config_toolchain c) in
  let n := config_network c in
  let? _ := checked_option (net_proxy n) (validate_proxy "network.proxy") in
  let? _ := validate_proxy_authentication "network" (net_proxy n) (net_proxy_username n)
              (net_proxy_password_credential n) in
  check_all (λ e, validate_provider e.1 e.2) (entries (config_providers c)).

(** * Values typed into the settings interface *)

Definition ascii_digits (s : string) : bool := str_all (λ c, is_some (digit_value c)) s.
Definition digit_of (c : ascii) : Z := default 0 (digit_value c).
Definition budget_cap_reason : string :=
  "budget cap must be " ++ String (byte 34) ("unlimited" ++ String (byte 34) "")
  ++ " or a dollar amount from 0.01 through 999999.99 with at most two decimal places".
Definition parse_tui_budget_cap (key value : string) : Result (option Z) ConfigError :=
  let value := trim value in
  if eq_ignore_ascii_case value "unlimited" then Ok None else
  let parts := split_char "."%char value in
  let dollars := default "" (head parts) in
  let cents := parts !! 1%nat in
  let valid_cents := match cents with
                     | None => true
                     | Some fraction => (1 <=? str_len fraction) && (str_len fraction <=? 2) && ascii_digits fraction
                     end in
  if is_empty dollars || (6 <? str_len dollars) || negb (ascii_digits dollars) || negb valid_cents
     || is_some (parts !! 2%nat)
  then Err (InvalidUserSetting key budget_cap_reason) else
  let? dollars := ok_or (parse_uint u64_max dollars) (InvalidUserSetting key "budget cap dollar amount is invalid") in
  let cents := match default "" cents with
               | String tenths "" => digit_of tenths * 10
               | String tenths (String hundredths _) => digit_of tenths * 10 + digit_of hundredths
               | "" => 0
               end in
  let micros := dollars * 1000000 + cents * 10000 in
  if micros =? 0 then Err (InvalidUserSetting key "budget cap must be greater than zero") else Ok (Some micros).
Definition parse_tui_budget_warning (key value : string) : Result Z ConfigError :=
  let value := trim value in
  let error := Err (InvalidUserSetting key "warning threshold must be an integer from 1 through 100") in
  if is_empty value || negb (ascii_digits value) then error else
  match parse_uint 255 value with
  | Some percent => if (1 <=? percent) && (percent <=? 100) then Ok percent else error
  | None => error
  end.
Definition parse_tui_token_limit (key value : string) : Result (option Z) ConfigError :=
  let value := trim value in
  let error := Err (InvalidUserSetting key
    ("token limit must be " ++ String (byte 34) ("unlimited" ++ String (byte 34) " or a positive whole number"))) in
  if eq_ignore_ascii_case value "unlimited" then Ok None
  else if is_empty value || negb (ascii_digits value) then error else
  match parse_uint u64_max value with
  | Some tokens => if (0 <? tokens) && (tokens <=? 2 ^ 63 - 1) then Ok (Some tokens) else error
  | None => error
  end.
Definition validate_tui_setting (c : Config) (key value : string) : Checked :=
  if mem key ["budget.session_cost_cap_micros_usd"; "budget.daily_cost_cap_micros_usd"] then
    let? _ := parse_tui_budget_cap key value in Ok tt
  else if String.eqb key "budget.warn_at_percent" then let? _ := parse_tui_budget_warning key value in Ok tt
  else if mem key ["budget.session_token_cap"; "budget.daily_token_cap"; "budget.token_rate_alarm_per_minute"] then
    let? _ := parse_tui_token_limit key value in Ok tt
  else
  let valid :=
    if String.eqb key "ui.theme" then valid_theme_name value
    else if mem key ["compaction.auto"; "agents.wake_on_completion"] then mem value ["true"; "false"]
    else if String.eqb key "permissions.default" then mem value ["ask"; "allow"; "deny"]
    else if starts_with "models.thinking." key then
      let alias := trim_start_str "models.thinking." key in
      negb (is_empty alias) && str_all (λ c, is_ascii_alphanumeric c || in_class "-_." c) alias
      && (String.eqb alias (default_model (config_models c)) || is_some (model_aliases (config_models c) !! alias))
      && mem value ["off"; "low"; "medium"; "high"]
    else false in
  if valid then Ok tt
  else Err (InvalidUserSetting key "key or value is outside the safe TUI settings allowlist").
End validation.

(** * Amounts *)

Lemma digit_of_range c : 0 ≤ digit_of c ≤ 9.
Proof. unfold digit_of. destruct (digit_value c) as [d|] eqn:E; cbn; [by eapply digit_value_range|lia]. Qed.
Lemma parse_digits_below max s acc n :
  0 ≤ acc → parse_digits max acc s = Some n → 0 ≤ n < (acc + 1) * 10 ^ str_len s.
Proof.
  unfold str_len. revert acc. induction s as [|c s IH]; intros acc Ha; cbn [parse_digits String.length]; [intros [= <-]; cbn; lia|].
  destruct (digit_value c) as [d|] eqn:E; [|done]. apply digit_value_range in E. case_match; [|done]. intros Hn.
  apply IH in Hn; [|lia]. rewrite Nat2Z.inj_succ, Z.pow_succ_r by lia. split; [lia|].
  eapply Z.lt_le_trans; [apply Hn|]. pose proof (Z.pow_pos_nonneg 10 (Z.of_nat (String.length s))). nia.
Qed.
(** A budget cap that is accepted is a whole number of cents between one cent and
    999999.99 dollars, and the multiplication stays within its width. *)
Lemma budget_cap_range key value micros :
  parse_tui_budget_cap key value = Ok (Some micros) →
  10000 ≤ micros ≤ 999999990000 ∧ micros mod 10000 = 0.
Proof.
  unfold parse_tui_budget_cap. case_match; [done|]. set (parts := split_char "." (trim value)).
  destruct (default "" (head parts)) as [|c dollars] eqn:Ed; [done|]. cbn [is_empty orb].
  destruct (Z.ltb_spec 6 (str_len (String c dollars))) as [|Hlen]; [done|]. cbn [orb].
  destruct (ascii_digits (String c dollars)) eqn:Eg; [|done]. cbn [negb orb].
  match goal with |- (if ?b then _ else _) = _ → _ => destruct b; [done|] end. destruct (parse_uint u64_max (String c dollars)) as [n|] eqn:Ep; [|done]. cbn [ok_or].
  assert (0 ≤ n ≤ 999999) as Hn.
  { unfold parse_uint in Ep. cbn [ascii_digits str_all] in Eg. destruct (Ascii.eqb_spec c "+") as [->|_]; [done|].
    apply parse_digits_below in Ep; [|lia]. assert (10 ^ str_len (String c dollars) ≤ 10 ^ 6) by (apply Z.pow_le_mono_r; lia).
    change (10 ^ 6) with 1000000 in *. lia. }
  set (cents := match default "" (parts !! 1%nat) with String _ "" => _ | String _ (String _ _) => _ | "" => _ end).
  assert (0 ≤ cents ≤ 99) as Hc.
  { subst cents. destruct (default "" (parts !! 1%nat)) as [|t [|h rest]]; [lia| |];
      pose proof (digit_of_range t); [lia|]. pose proof (digit_of_range h). lia. }
  destruct (Z.eqb_spec (n * 1000000 + cents * 10000) 0); [done|]. intros [= <-]. split; [lia|].
  replace (n * 1000000 + cents * 10000) with ((n * 100 + cents) * 10000) by ring. apply Z.mod_mul. lia.
Qed.
