(* ===== verification/ConfigLoad.v ===== *)
(** Loading the configuration ([rw-store/src/config/loading.rs],
    [rw-store/src/config/layers.rs], [rw-store/src/config/editing.rs]):
    definitions.

    The layers of [Config] over what the operating system answers: the folder
    is assessed first, and the project's file is read again afterwards, when it
    may have changed. *)
From Stdlib Require Import Ascii.
From S2P Require Import Prelude Text Decimal Ir Estimate Assembly ShellSplit BashSafety PermissionRules PermissionIdentity Sse Pricing BudgetSums BudgetLedger FolderTrust Config ConfigValidation.

(** * The loader *)

Record ConfigLoader : Type := mkLoader {
  user_path : FsPath;
  project_path : FsPath;
  project_root : FsPath;
  trust_store_path : FsPath;
  project_trust_override : option bool;
  warn_on_dangerous_override : bool;
  loader_environment : gmap string string;
  cli_overrides : list string;
}.
Definition nonempty_value (environment : gmap string string) (key : string) : option string :=
  match environment !! key with Some value => if is_blank value then None else Some value | None => None end.
(** The components of an absolute path *)
Definition path_parts (path : string) : FsPath :=
  List.filter (λ part, negb (is_empty part) && negb (String.eqb part ".")) (split_char "/"%char path).
Definition user_root (environment : gmap string string) : Result (string * string) ConfigError :=
  match nonempty_value environment "ROTTWEILER_HOME", nonempty_value environment "XDG_CONFIG_HOME",
        nonempty_value environment "HOME" with
  | Some root, _, _ => Ok ("ROTTWEILER_HOME", root)
  | None, Some root, _ => Ok ("XDG_CONFIG_HOME", path_join root "rottweiler")
  | None, None, Some home => Ok ("HOME", path_join home ".rottweiler")
  | None, None, None => Err MissingUserConfigRoot
  end.
Definition from_captured_environment (environment : gmap string string) (root : FsPath)
    : Result ConfigLoader ConfigError :=
  let? found := user_root environment in
  if negb (is_absolute found.2) then Err (InvalidUserConfigRoot found.1 found.2)
  else let user := path_parts found.2 in
    Ok (mkLoader (user ++ ["config.toml"])%list (root ++ [".rottweiler"; "config.toml"])%list root
          (user ++ ["trust.json"])%list None false environment []).
Definition with_cli_overrides (overrides : list string) (c : ConfigLoader) : ConfigLoader :=
  mkLoader (user_path c) (project_path c) (project_root c) (trust_store_path c) (project_trust_override c)
    (warn_on_dangerous_override c) (loader_environment c) overrides.
Definition with_project_trust (trusted : bool) (c : ConfigLoader) : ConfigLoader :=
  mkLoader (user_path c) (project_path c) (project_root c) (trust_store_path c) (Some trusted)
    (warn_on_dangerous_override c) (loader_environment c) (cli_overrides c).
Definition dangerously_trust_project (c : ConfigLoader) : ConfigLoader :=
  mkLoader (user_path c) (project_path c) (project_root c) (trust_store_path c) (Some true) true
    (loader_environment c) (cli_overrides c).

(** * What the operating system answers *)

Class TomlConfig : Type := toml_config : string → option ConfigFile.
Class TuiJson : Type := tui_json : string → Result (gmap string string) string.

(** The file of sources that the settings interface keeps: not there, not a
    private regular file, not readable, or its bytes *)
Inductive TuiFile : Type := NoTuiFile | TuiNotPrivate | TuiUnreadable | TuiBytes (bytes : string).
Inductive FileAnswer : Type := FileMissing | FileUnreadable | FileBytes (bytes : string).

Section load.
Context {B : Blake3} {J : TrustJson} {SD : StrDebug} {UO : UrlOf} {G : Glob} {T : TomlConfig} {TJ : TuiJson}.
Implicit Types fs : Fs.

Record LoadWorld : Type := mkLoadWorld {
  world_assessed : Fs;
  world_ledger : LedgerFile;
  world_home : option FsPath;
  world_read : Fs;
  world_user : FileAnswer;
  world_tui : TuiFile;
}.

(** * Files *)

Definition utf8_text (bytes : string) : bool := utf8_valid [] (String.list_ascii_of_string bytes).
(** [read_to_string] refuses what is not UTF-8. *)
Definition read_file (path : FsPath) (answer : FileAnswer) : Result (option ConfigFile) ConfigError :=
  match answer with
  | FileMissing => Ok None
  | FileUnreadable => Err (ConfigRead path)
  | FileBytes bytes =>
      if negb (utf8_text bytes) then Err (ConfigRead path)
      else match toml_config bytes with Some file => Ok (Some file) | None => Err (ConfigParse path) end
  end.

(** [canonical_config_parent] climbs to an ancestor that exists; the path is
    given from its last component. *)
Fixpoint canonical_config_parent fs (existing missing : list string) : option FsPath :=
  match fs_canonical fs (rev existing) with
  | Ok canonical => Some (canonical ++ missing)%list
  | Err e =>
      if negb (io_not_found e) then None else
      match fs_symlink_metadata fs (rev existing) with
      | Ok _ => None
      | Err _ =>
          match existing with
          | [] => None
          | name :: above => if String.eqb name ".." then None else canonical_config_parent fs above (name :: missing)
          end
      end
  end.

Definition MAX_PROJECT_CONFIG_BYTES : Z := 8 * 1024 * 1024.
Definition read_project_bytes fs (path : FsPath) : Result (option string) ConfigError :=
  match parent_of path with
  | None => Err (ProjectChangedDuringLoad path)
  | Some parent =>
      match fs_open_directory fs parent with
      | Err e => if io_not_found e then Ok None else Err (ConfigRead path)
      | Ok _ =>
          match fs_open_file fs path with
          | Err e => if io_not_found e then Ok None else Err (ConfigRead path)
          | Ok (Err _, _) => Err (ConfigRead path)
          | Ok (Ok kind, content) =>
              if negb (bool_decide (kind = KFile)) then Err (ProjectChangedDuringLoad path) else
              match content with
              | Err _ => Err (ConfigRead path)
              | Ok content =>
                  let bytes := read_at_most (MAX_PROJECT_CONFIG_BYTES + 1) content in
                  if MAX_PROJECT_CONFIG_BYTES <? str_len bytes then Err (ProjectChangedDuringLoad path)
                  else Ok (Some bytes)
              end
          end
      end
  end.

(** The path under which an inventory lists the file *)
Definition assessed_relative fs (path : FsPath) (workspace : FsPath) : option string :=
  parent ← parent_of path;
  canonical_parent ← canonical_config_parent fs (rev parent) [];
  name ← last path;
  relative ← strip_path workspace (canonical_parent ++ [name])%list;
  if forallb (λ part, utf8_text part && negb (mem part ["."; ".."])) relative then Some (join "/" relative) else None.
Definition inventory_governed (relative : string) : bool :=
  starts_with ".agents/" relative || starts_with ".rottweiler/" relative || mem relative [".agents"; ".rottweiler"].
Definition read_assessed_project_file fs (path : FsPath) (a : FolderTrustAssessment)
    : Result (option ConfigFile) ConfigError :=
  let changed := ProjectChangedDuringLoad path in
  let? relative := ok_or (assessed_relative fs path (assessed_workspace a)) changed in
  let assessed := List.find (λ item, String.eqb (item_path item) relative) (inventory a) in
  let? read := read_project_bytes fs path in
  match read with
  | None => match assessed with None => Ok None | Some _ => Err changed end
  | Some bytes =>
      if match assessed with
         | Some item => negb (item_bytes item =? str_len bytes) || negb (String.eqb (item_hash item) (blake3_hex bytes))
         | None => inventory_governed relative
         end
      then Err changed
      else if negb (utf8_text bytes) then Err (ConfigRead path)
      else match toml_config bytes with Some file => Ok (Some file) | None => Err (ConfigParse path) end
  end.

(** * Settings of the settings interface *)

Definition with_file_name (name : string) (path : FsPath) : FsPath := (removelast path ++ [name])%list.
Definition tui_provenance_path (user : FsPath) : FsPath := with_file_name "config-tui-provenance.json" user.
Definition MAX_TUI_PROVENANCE_BYTES : Z := 64 * 1024.
Definition read_tui_provenance (user : FsPath) (file : TuiFile) : Result (gmap string string) ConfigError :=
  match file with
  | NoTuiFile => Ok ∅
  | TuiNotPrivate =>
      Err (InvalidUserSetting "provenance" "TUI provenance must be a private single-link regular file")
  | TuiUnreadable => Err (ConfigRead (tui_provenance_path user))
  | TuiBytes bytes =>
      if MAX_TUI_PROVENANCE_BYTES <? str_len bytes
      then Err (InvalidUserSetting "provenance" "TUI provenance exceeded its size limit")
      else match tui_json bytes with
           | Ok entries => Ok entries
           | Err reason => Err (InvalidUserSetting "provenance" reason)
           end
  end.
Definition bool_text (b : bool) : string := if b then "true" else "false".
Definition decision_text (d : PermissionDecision) : string :=
  match d with Ask => "ask" | Allow => "allow" | Deny => "deny" end.
Definition thinking_text (t : ThinkingLevel) : string :=
  match t with ThinkingOff => "off" | ThinkingLow => "low" | ThinkingMedium => "medium" | ThinkingHigh => "high" end.
Definition configured_setting_value (c : Config) (key : string) : option string :=
  let b := config_budget c in
  if String.eqb key "ui.theme" then Some (theme (config_ui c))
  else if String.eqb key "compaction.auto" then Some (bool_text (compact_auto (config_compaction c)))
  else if String.eqb key "agents.wake_on_completion" then Some (bool_text (wake_on_completion (config_agents c)))
  else if String.eqb key "permissions.default" then Some (decision_text (config_default (config_permissions c)))
  else if String.eqb key "budget.session_cost_cap_micros_usd" then dec <$> session_cost_cap_micros_usd b
  else if String.eqb key "budget.daily_cost_cap_micros_usd" then dec <$> daily_cost_cap_micros_usd b
  else if String.eqb key "budget.session_token_cap" then dec <$> session_token_cap b
  else if String.eqb key "budget.daily_token_cap" then dec <$> daily_token_cap b
  else if String.eqb key "budget.token_rate_alarm_per_minute" then dec <$> token_rate_alarm_per_minute b
  else if String.eqb key "budget.warn_at_percent" then Some (dec (warn_at_percent b))
  else if starts_with "models.thinking." key then
    thinking_text <$> model_thinking (config_models c) !! trim_start_str "models.thinking." key
  else if starts_with "providers." key then
    match split_char "."%char key with
    | [_; provider; field] =>
        if String.eqb field "kind" then kind <$> config_providers c !! provider else None
    | _ => None
    end
  else None.
Definition is_user_file (source : option ConfigSource) : bool :=
  match source with Some (UserFile _) => true | _ => false end.
Definition apply_tui_provenance (user : FsPath) (values : gmap string string) (l : LoadedConfig) : LoadedConfig :=
  for_each values (λ key value l,
    if bool_decide (configured_setting_value (loaded_config l) key = Some value) && is_user_file (provenance l !! key)
    then set_source key (UserTui user) l else l) l.

(** * Load *)

Definition paths_collide fs (left_ right_ : FsPath) : bool :=
  bool_decide (left_ = right_) ||
  match fs_canonical fs left_, fs_canonical fs right_ with
  | Ok left_, Ok right_ => bool_decide (left_ = right_)
  | _, _ => false
  end.
Definition apply_user (c : ConfigLoader) (w : LoadWorld) (l : LoadedConfig) : Result LoadedConfig ConfigError :=
  let? file := read_file (user_path c) (world_user w) in
  match file with
  | None => Ok l
  | Some file =>
      let l := apply_file (UserFile (user_path c)) User file l in
      let? values := read_tui_provenance (user_path c) (world_tui w) in
      Ok (apply_tui_provenance (user_path c) values l)
  end.
Definition apply_project (c : ConfigLoader) (a : FolderTrustAssessment) (trusted : bool) (file : ConfigFile)
    (l : LoadedConfig) : LoadedConfig :=
  let source := ProjectFile (project_path c) in
  if trusted then
    let l := if warn_on_dangerous_override c && negb (project_execution_enabled a)
             then push_warning ("dangerously trusting executable project configuration from " ++ source_text source
                                ++ " without persisting a folder-trust decision") l
             else l in
    apply_file source Project file l
  else
    push_warning ("ignored untrusted project configuration from " ++ source_text source
      ++ "; review the executable inventory with `rw trust status` before granting trust")
      (warn_ignored_project_sections source file l).
Definition trust_store (c : ConfigLoader) (w : LoadWorld) : FolderTrustStore :=
  mkStore (trust_store_path c) (world_home w).
Definition load_assessed (c : ConfigLoader) (w : LoadWorld) (a : FolderTrustAssessment) (l : LoadedConfig)
    : Result LoadedConfig ConfigError :=
  let trusted := default (project_execution_enabled a) (project_trust_override c) in
  let l := set_project_trusted trusted l in
  let? file := read_assessed_project_file (world_read w) (project_path c) a in
  let l := match file with Some file => apply_project c a trusted file l | None => l end in
  let? l := apply_environment (loader_environment c) l in
  let? l := apply_overrides (cli_overrides c) l in
  let? _ := validate (loaded_config l) in
  Ok l.
Definition load (fuel : nat) (c : ConfigLoader) (w : LoadWorld) : option (Result LoadedConfig ConfigError) :=
  if paths_collide (world_assessed w) (user_path c) (project_path c) then Some (Err (ScopeCollision (user_path c))) else
  match apply_user c w defaults_with_provenance with
  | Err e => Some (Err e)
  | Ok l =>
      assessed ← assess fuel (world_assessed w) (trust_store c w) (world_ledger w) (project_root c);
      Some (match assessed with
            | Err e => Err (FolderTrustFailed e)
            | Ok a => load_assessed c w a l
            end)
  end.
End load.
