(* ===== verification/ConfigSafety.v ===== *)
(** What a layer of the configuration can change: theorems about [Config] and
    [ConfigLoad]. *)
From Stdlib Require Import Ascii.
From S2P Require Import Prelude Text Decimal Ir Estimate Assembly ShellSplit BashSafety PermissionRules PermissionIdentity Sse Pricing BudgetSums BudgetLedger FolderTrust FolderTrustSafety FolderTrustLedger Config ConfigValidation ConfigLoad.

(** * The guarded sections *)

(** The sections that a project must not set, and the keys of their settings *)
Definition security (c : Config) :=
  (config_providers c, config_network c, config_websearch c, config_permissions c, config_sandbox c,
   config_telemetry c, config_updates c).
Definition GUARDED : list string :=
  ["providers"; "network."; "websearch."; "permissions."; "sandbox."; "telemetry."; "updates."].
Definition guarded (key : string) : bool := existsb (λ p, starts_with p key) GUARDED.

(** Two states that agree on them *)
Record same_guard (l l' : LoadedConfig) : Prop := mkSameGuard {
  sg_security : security (loaded_config l) = security (loaded_config l');
  sg_provenance : ∀ key, guarded key = true → provenance l !! key = provenance l' !! key;
}.
#[global] Instance same_guard_equiv : Equivalence same_guard.
Proof.
  split.
  - intros l. by split.
  - intros l l' [H1 H2]. split; [done|]. intros key Hk. by rewrite H2.
  - intros l1 l2 l3 [H1 H2] [K1 K2]. split; [congruence|]. intros key Hk. by rewrite H2, K2.
Qed.
(** Two states with the same settings and sources *)
Record same_settings (l l' : LoadedConfig) : Prop := mkSameSettings {
  ss_config : loaded_config l = loaded_config l';
  ss_provenance : provenance l = provenance l';
}.
#[global] Instance same_settings_equiv : Equivalence same_settings.
Proof. split; [by split|by intros ?? []; split|intros ??? [] []; split; congruence]. Qed.

(** * Settings by their keys *)

Inductive SettingValue : Type :=
| VInt (n : Z)
| VOptInt (n : option Z)
| VText (s : string)
| VOptText (s : option string)
| VBool (b : bool)
| VTexts (l : list string)
| VOptTexts (l : option (list string))
| VHeaders (m : gmap string string)
| VDecision (d : PermissionDecision)
| VChannel (c : UpdateChannel)
| VThinking (t : option ThinkingLevel)
| VRules (r : list ToolchainRule)
| VPermissionRules (r : list PermissionRule).
Definition SETTINGS : list (string * (Config → SettingValue)) :=
  [("engine.max_concurrent_sessions", λ c, VInt (max_concurrent_sessions (config_engine c)));
   ("engine.subagent_max_depth", λ c, VInt (subagent_max_depth (config_engine c)));
   ("engine.subagent_max_concurrency", λ c, VInt (subagent_max_concurrency (config_engine c)));
   ("agents.wake_on_completion", λ c, VBool (wake_on_completion (config_agents c)));
   ("models.default", λ c, VText (default_model (config_models c)));
   ("compaction.auto", λ c, VBool (compact_auto (config_compaction c)));
   ("compaction.reserved", λ c, VOptInt (reserved_tokens (config_compaction c)));
   ("compaction.model_alias", λ c, VOptText (compact_alias (config_compaction c)));
   ("budget.session_cost_cap_micros_usd", λ c, VOptInt (session_cost_cap_micros_usd (config_budget c)));
   ("budget.daily_cost_cap_micros_usd", λ c, VOptInt (daily_cost_cap_micros_usd (config_budget c)));
   ("budget.session_ai_credit_cap_micros", λ c, VOptInt (session_ai_credit_cap_micros (config_budget c)));
   ("budget.daily_ai_credit_cap_micros", λ c, VOptInt (daily_ai_credit_cap_micros (config_budget c)));
   ("budget.session_token_cap", λ c, VOptInt (session_token_cap (config_budget c)));
   ("budget.daily_token_cap", λ c, VOptInt (daily_token_cap (config_budget c)));
   ("budget.spend_rate_alarm_micros_usd_per_minute",
    λ c, VOptInt (spend_rate_alarm_micros_usd_per_minute (config_budget c)));
   ("budget.ai_credit_rate_alarm_micros_per_minute",
    λ c, VOptInt (ai_credit_rate_alarm_micros_per_minute (config_budget c)));
   ("budget.token_rate_alarm_per_minute", λ c, VOptInt (token_rate_alarm_per_minute (config_budget c)));
   ("budget.warn_at_percent", λ c, VInt (warn_at_percent (config_budget c)));
   ("network.proxy", λ c, VOptText (net_proxy (config_network c)));
   ("network.proxy_username", λ c, VOptText (net_proxy_username (config_network c)));
   ("network.proxy_password_credential", λ c, VOptText (net_proxy_password_credential (config_network c)));
   ("websearch.endpoint", λ c, VOptText (search_endpoint (config_websearch c)));
   ("websearch.query_parameter", λ c, VText (query_parameter (config_websearch c)));
   ("websearch.header_credentials", λ c, VHeaders (search_header_credentials (config_websearch c)));
   ("permissions.default", λ c, VDecision (config_default (config_permissions c)));
   ("permissions.rules", λ c, VPermissionRules (config_rules (config_permissions c)));
   ("sandbox.safe_list", λ c, VTexts (safe_list (config_sandbox c)));
   ("toolchain.runtime_read_roots", λ c, VTexts (runtime_read_roots (config_toolchain c)));
   ("toolchain.formatter", λ c, VOptText (formatter (config_toolchain c)));
   ("toolchain.linters", λ c, VTexts (linters (config_toolchain c)));
   ("toolchain.test", λ c, VOptText (test_command (config_toolchain c)));
   ("toolchain.rules", λ c, VRules (toolchain_rules (config_toolchain c)));
   ("telemetry.enabled", λ c, VBool (telemetry_enabled (config_telemetry c)));
   ("updates.channel", λ c, VChannel (channel (config_updates c)));
   ("ui.theme", λ c, VText (theme (config_ui c)))].
(** The value of a key; the fields of a provider are left out. *)
Definition view (c : Config) (key : string) : option SettingValue :=
  match List.find (λ e, String.eqb e.1 key) SETTINGS with
  | Some (_, get) => Some (get c)
  | None =>
      match strip_prefix "models.aliases." key, strip_prefix "models.thinking." key with
      | Some alias, _ => Some (VOptTexts (model_aliases (config_models c) !! alias))
      | None, Some alias => Some (VThinking (model_thinking (config_models c) !! alias))
      | None, None => None
      end
  end.
(** [f] changes the settings [keys] at most. *)
Definition changes (keys : list string) (f : Config → Config) : Prop :=
  ∀ c key', key' ∉ keys → view (f c) key' = view c key'.
Abbreviation changes_only key := (changes [key]).
Lemma changes_view keys f :
  Forall (λ e, e.1 ∈ keys ∨ ∀ c, e.2 (f c) = e.2 c) SETTINGS →
  (∀ c alias, ("models.aliases." ++ alias)%string ∈ keys ∨
     model_aliases (config_models (f c)) !! alias = model_aliases (config_models c) !! alias) →
  (∀ c alias, ("models.thinking." ++ alias)%string ∈ keys ∨
     model_thinking (config_models (f c)) !! alias = model_thinking (config_models c) !! alias) → changes keys f.
Proof.
  intros Ht Ha Hth c key' Hne. unfold view. destruct (List.find _ SETTINGS) as [[k get]|] eqn:E.
  { apply List.find_some in E as [Hin Hk%String.eqb_eq]. cbn in Hk. subst k. apply list_elem_of_In in Hin.
    rewrite Forall_forall in Ht. destruct (Ht _ Hin) as [H|H]; [done|]. cbn in H. by rewrite H. }
  destruct (strip_prefix "models.aliases." key') as [alias|] eqn:Ea.
  { apply strip_prefix_inv in Ea as ->. destruct (Ha c alias) as [H|H]; [done|]. by rewrite H. }
  destruct (strip_prefix "models.thinking." key') as [alias|] eqn:Et; [|done].
  apply strip_prefix_inv in Et as ->. destruct (Hth c alias) as [H|H]; [done|]. by rewrite H.
Qed.
Ltac settings_table :=
  repeat (apply List.Forall_cons; [first [right; reflexivity|left; by repeat constructor]|]); apply List.Forall_nil.
Ltac changes_table := apply changes_view; [settings_table|right; reflexivity|right; reflexivity].
Lemma changes_alias alias v : changes_only ("models.aliases." ++ alias) (insert_alias alias v).
Proof.
  apply changes_view; [settings_table| |right; reflexivity]. intros c a. destruct (decide (a = alias)) as [->|Hne]; [left; by left|].
  right. cbn. by rewrite lookup_insert_ne.
Qed.
Lemma changes_thinking alias v : changes_only ("models.thinking." ++ alias) (insert_thinking alias v).
Proof.
  apply changes_view; [settings_table|right; reflexivity|]. intros c a. destruct (decide (a = alias)) as [->|Hne]; [left; by left|].
  right. cbn. by rewrite lookup_insert_ne.
Qed.

Section layers.
Context {SD : StrDebug}.

(** * A project's file *)

Lemma set_source_guard key source l : guarded key = false → same_guard (set_source key source l) l.
Proof.
  intros Hk. split; [done|]. intros key' Hk'. cbn. rewrite lookup_insert_ne; [done|]. intros ->. congruence.
Qed.
Lemma assign_guard {A} (v : option A) set key source l :
  guarded key = false → (∀ x c, security (set x c) = security c) → same_guard (assign v set key source l) l.
Proof.
  intros Hk Hs. destruct v as [x|]; cbn; [|done]. etrans; [by apply set_source_guard|]. split; [|done]. cbn. apply Hs.
Qed.
Lemma section_guard {A} (s : option A) apply l :
  (∀ x l, same_guard (apply x l) l) → same_guard (section_of s apply l) l.
Proof. intros H. destruct s; cbn; [apply H|done]. Qed.
Lemma fold_guard {A} (f : LoadedConfig → A → LoadedConfig) xs l :
  (∀ x l, same_guard (f l x) l) → same_guard (fold_left f xs l) l.
Proof. intros H. revert l. induction xs as [|x xs IH]; intros l; cbn; [done|]. etrans; [apply IH|apply H]. Qed.
Lemma guarded_app prefix rest :
  forallb (λ p, negb (starts_with p prefix) && negb (starts_with prefix p)) GUARDED = true → guarded (prefix ++ rest) = false.
Proof.
  intros H. unfold guarded. apply not_true_iff_false. intros Hx. apply existsb_exists in Hx as (p & Hp & Hs).
  rewrite forallb_forall in H. specialize (H p Hp). apply andb_true_iff in H as [H1 H2].
  apply negb_true_iff in H1, H2. apply starts_with_spec in Hs as [t Ht].
  assert (∀ x y, (prefix ++ x)%string = (p ++ y)%string → starts_with p prefix = true ∨ starts_with prefix p = true) as Hor.
  { clear. revert p. induction prefix as [|c prefix IH]; intros p x y E; [right; by destruct p|].
    destruct p as [|d p]; [by left|]. cbn in E. injection E as <- E. destruct (IH p x y E) as [H|H].
    - left. apply starts_with_spec in H as [t ->]. apply starts_with_spec. by exists t.
    - right. apply starts_with_spec in H as [t ->]. apply starts_with_spec. by exists t. }
  destruct (Hor rest t Ht); congruence.
Qed.
Lemma warn_guard source f l : same_settings (warn_ignored_project_sections source f l) l.
Proof.
  unfold warn_ignored_project_sections. generalize (security_sections f). intros sections. revert l.
  induction sections as [|[b s] sections IH]; intros l; cbn; [done|]. etrans; [apply IH|]. by destruct b.
Qed.
Lemma same_settings_guard l l' : same_settings l l' → same_guard l l'.
Proof. intros [H1 H2]. split; [by rewrite H1|]. intros key _. by rewrite H2. Qed.

Ltac guard_step := first
  [ apply assign_guard; [reflexivity|reflexivity]
  | apply section_guard; intros ? ?
  | apply fold_guard; intros ? ?
  | etrans; [apply set_source_guard; first [reflexivity|by apply guarded_app]|split; [reflexivity|done]] ].
Lemma models_guard source m l : same_guard (apply_models_file source m l) l.
Proof.
  unfold apply_models_file. etrans; [apply section_guard|]; [intros t l'; apply fold_guard; intros [a v] l''; guard_step|].
  etrans; [apply section_guard|]; [intros t l'; apply fold_guard; intros [a v] l''; guard_step|]. guard_step.
Qed.
Lemma budget_guard source b l : same_guard (apply_budget_file source b l) l.
Proof.
  unfold apply_budget_file. etrans; [by apply assign_guard|].
  repeat (etrans; [apply assign_guard; [by apply guarded_app|done]|]). done.
Qed.
Lemma project_file_guard source f l : same_guard (apply_file source Project f l) l.
Proof.
  unfold apply_file. etrans; [apply same_settings_guard, warn_guard|].
  etrans; [by apply assign_guard|].
  etrans; [apply section_guard; intros t l'; unfold apply_toolchain_file|].
  { etrans; [apply (set_source_guard "toolchain.rules"); reflexivity|]. cbn.
    repeat (etrans; [apply set_source_guard; reflexivity|]). by split. }
  etrans; [apply section_guard; intros; apply budget_guard|].
  etrans; [apply section_guard; intros; unfold apply_compaction_file; repeat (etrans; [by apply assign_guard|]); reflexivity|].
  etrans; [apply section_guard; intros; by apply assign_guard|].
  etrans; [apply section_guard; intros; apply models_guard|].
  apply section_guard. intros. unfold apply_engine_file. repeat (etrans; [by apply assign_guard|]). reflexivity.
Qed.

(** * An override *)

(** No alias begins with the words that name it. *)
Definition plain_key (key : string) : Prop :=
  ∀ p rest, p ∈ ["models.aliases."; "models.thinking."] → key = (p ++ rest)%string → starts_with p rest = false.
Record effect (key : string) (f : Config → Config) : Prop := mkEffect {
  eff_guard : ∀ c c', security c = security c' → security (f c) = security (f c');
  eff_view : plain_key key → changes_only key f;
}.
Lemma trim_start_plain p rest : p ≠ "" → starts_with p rest = false → trim_start_str p (p ++ rest) = rest.
Proof.
  intros Hp Hr. assert (∀ n, strip_repeated n p rest = rest) as Hs.
  { intros [|n]; cbn; [done|]. unfold strip_prefix. by rewrite Hr. }
  unfold trim_start_str. rewrite str_length_app. destruct p as [|c p]; [done|]. cbn [String.length Nat.add strip_repeated].
  by rewrite strip_prefix_app.
Qed.
Lemma guard_upd (f : Config → Config) :
  (∀ c c', config_providers c = config_providers c' → config_network c = config_network c' →
    config_websearch c = config_websearch c' → config_permissions c = config_permissions c' →
    config_sandbox c = config_sandbox c' → config_telemetry c = config_telemetry c' →
    config_updates c = config_updates c' → security (f c) = security (f c')) →
  ∀ c c', security c = security c' → security (f c) = security (f c').
Proof. intros H c c' E. unfold security in E. apply H; congruence. Qed.
Ltac guard_eq := apply guard_upd; intros c c' E1 E2 E3 E4 E5 E6 E7; unfold security; cbn; congruence.
Ltac effect_eq := split; [guard_eq|intros _; changes_table].

Lemma alias_effect key v : starts_with "models.aliases." key = true → effect key (insert_alias (trim_start_str "models.aliases." key) v).
Proof.
  intros [rest ->]%starts_with_spec. split; [guard_eq|]. intros Hp. rewrite trim_start_plain; [apply changes_alias|done|].
  apply (Hp "models.aliases." rest); [by left|done].
Qed.
Lemma thinking_effect key v : starts_with "models.thinking." key = true → effect key (insert_thinking (trim_start_str "models.thinking." key) v).
Proof.
  intros [rest ->]%starts_with_spec. split; [guard_eq|]. intros Hp. rewrite trim_start_plain; [apply changes_thinking|done|].
  apply (Hp "models.thinking." rest); [right; by left|done].
Qed.

(** A function over the state: it fails, it is left to another one, or it is an
    assignment, whatever the state is. *)
Definition uniform (key : string) (apply : LoadedConfig → Result (option LoadedConfig) string) : Prop :=
  (∃ e, ∀ l, apply l = Err e) ∨ (∀ l, apply l = Ok None) ∨
  (∃ f, effect key f ∧ ∀ l, apply l = Ok (Some (upd_config f l))).
Ltac assigned := right; right; eexists; split; [|intros l; reflexivity]; effect_eq.
Lemma engine_uniform key value : uniform key (apply_engine_override key value).
Proof.
  unfold uniform, apply_engine_override.
  destruct (parse_uint u64_max value) as [n|]; cbn [ok_or].
  - destruct (String.eqb_spec key "engine.max_concurrent_sessions") as [->|_]; [assigned|].
    destruct (String.eqb_spec key "engine.subagent_max_depth") as [->|_]; [assigned|].
    destruct (String.eqb_spec key "engine.subagent_max_concurrency") as [->|_]; [assigned|by right; left].
  - repeat case_match; try (by left; eexists); by right; left.
Qed.
Lemma budget_setter_effect key set v : budget_setter key = Some set → effect key (upd_budget (set v)).
Proof.
  unfold budget_setter. intros H.
  repeat match type of H with (if String.eqb key ?k then _ else _) = _ =>
    destruct (String.eqb_spec key k) as [->|_]; [injection H as <-; effect_eq|] end. done.
Qed.
Lemma m3_uniform key value : uniform key (apply_m3_override key value).
Proof.
  unfold uniform, apply_m3_override.
  destruct (String.eqb_spec key "agents.wake_on_completion") as [->|_].
  { destruct (parse_bool value); cbn [ok_or]; [assigned|by left; eexists]. }
  destruct (String.eqb_spec key "compaction.auto") as [->|_].
  { destruct (parse_bool value); cbn [ok_or]; [assigned|by left; eexists]. }
  destruct (String.eqb_spec key "compaction.reserved") as [->|_].
  { destruct (parse_optional_u64 value); [assigned|by left; eexists]. }
  destruct (String.eqb_spec key "compaction.model_alias") as [->|_]; [assigned|].
  destruct (budget_setter key) as [set|] eqn:E.
  { destruct (parse_optional_u64 value); [|by left; eexists]. right; right. eexists. split; [by apply budget_setter_effect|done]. }
  destruct (String.eqb_spec key "budget.warn_at_percent") as [->|_]; [|by right; left].
  destruct (parse_uint 255 value); cbn [ok_or]; [assigned|by left; eexists].
Qed.
Lemma other_uniform key value : uniform key (λ l, let? l := apply_other_override key value l in Ok (Some l)).
Proof.
  unfold uniform, apply_other_override.
  destruct (String.eqb_spec key "models.default") as [->|_]; [assigned|].
  destruct (String.eqb_spec key "network.proxy") as [->|_]; [assigned|].
  destruct (String.eqb_spec key "network.proxy_username") as [->|_]; [assigned|].
  destruct (String.eqb_spec key "network.proxy_password_credential") as [->|_]; [assigned|].
  destruct (String.eqb_spec key "permissions.default") as [->|_].
  { destruct (parse_decision value); cbn [ok_or]; [assigned|by left; eexists]. }
  destruct (String.eqb_spec key "sandbox.safe_list") as [->|_]; [assigned|].
  destruct (String.eqb_spec key "telemetry.enabled") as [->|_].
  { destruct (parse_bool value); cbn [ok_or]; [assigned|by left; eexists]. }
  destruct (String.eqb_spec key "updates.channel") as [->|_].
  { destruct (parse_channel value); cbn [ok_or]; [assigned|by left; eexists]. }
  destruct (starts_with "models.aliases." key) eqn:Ea.
  { destruct (is_empty _); [by left; eexists|]. right; right. eexists. split; [by apply alias_effect|done]. }
  destruct (starts_with "models.thinking." key) eqn:Et.
  { destruct (is_empty _); [by left; eexists|]. destruct (parse_thinking value); cbn [ok_or]; [|by left; eexists].
    right; right. eexists. split; [by apply thinking_effect|done]. }
  destruct (starts_with "providers." key); [|by left; eexists].
  unfold apply_provider_override. destruct (rsplit_once _ _) as [[name field]|]; [|by left; eexists].
  destruct (is_blank name); [by left; eexists|]. destruct (provider_setter field value); [|by left; eexists].
  right; right. eexists. split; [|intros l; reflexivity]. effect_eq.
Qed.
Lemma setting_uniform key value :
  (∃ e, ∀ l s, apply_setting key value s l = Err e) ∨
  (∃ f, effect key f ∧ ∀ l s, apply_setting key value s l = Ok (set_source key s (upd_config f l))).
Proof.
  unfold apply_setting. destruct (engine_uniform key value) as [[e H]|[H|(f & Hf & H)]].
  - left. exists e. intros l s. by rewrite H.
  - destruct (m3_uniform key value) as [[e H']|[H'|(f & Hf & H')]].
    + left. exists e. intros l s. by rewrite H, H'.
    + destruct (other_uniform key value) as [[e Ho]|[Ho|(f & Hf & Ho)]].
      * left. exists e. intros l s. rewrite H, H'. specialize (Ho l). destruct (apply_other_override key value l); [done|].
        by injection Ho as ->.
      * exfalso. specialize (Ho defaults_with_provenance). by destruct (apply_other_override key value _).
      * right. exists f. split; [done|]. intros l s. rewrite H, H'. specialize (Ho l).
        destruct (apply_other_override key value l); [|done]. by injection Ho as ->.
    + right. exists f. split; [done|]. intros l s. by rewrite H, H'.
  - right. exists f. split; [done|]. intros l s. by rewrite H.
Qed.
Lemma override_uniform raw :
  (∃ e, ∀ l s, apply_override raw s l = Err e) ∨
  (∃ key value f, split_once "="%char raw = Some (key, value) ∧ effect key f ∧
     ∀ l s, apply_override raw s l = Ok (set_source key s (upd_config f l))).
Proof.
  unfold apply_override. destruct (split_once _ raw) as [[key value]|]; [|left; by eexists].
  destruct (setting_uniform key value) as [[e H]|(f & Hf & H)]; [left; by exists e|]. right. by exists key, value, f.
Qed.

(** A relation between states that the same assignment keeps *)
Definition respects (R : LoadedConfig → LoadedConfig → Prop) : Prop :=
  ∀ key f s l l', effect key f → R l l' → R (set_source key s (upd_config f l)) (set_source key s (upd_config f l')).
Lemma same_guard_respects : respects same_guard.
Proof.
  intros key f s l l' [Hg _] [H1 H2]. split; [by apply Hg|]. intros key' Hk. cbn. destruct (decide (key' = key)) as [->|Hne].
  - by rewrite !lookup_insert_eq.
  - rewrite !lookup_insert_ne by done. by apply H2.
Qed.
Lemma same_settings_respects : respects same_settings.
Proof. intros key f s l l' _ [H1 H2]. split; cbn; by rewrite ?H1, ?H2. Qed.
Lemma override_related R raw s l l' a :
  respects R → R l l' → apply_override raw s l = Ok a → ∃ b, apply_override raw s l' = Ok b ∧ R a b.
Proof.
  intros HR Hl. destruct (override_uniform raw) as [[e H]|(key & value & f & _ & Hf & H)]; rewrite !H; [done|].
  intros [= <-]. eexists. split; [done|]. by apply HR.
Qed.
Lemma environment_related R environment l l' a :
  respects R → R l l' → apply_environment environment l = Ok a → ∃ b, apply_environment environment l' = Ok b ∧ R a b.
Proof.
  intros HR. unfold apply_environment. generalize ENVIRONMENT_KEYS. intros keys. revert l l'.
  induction keys as [|[name key] keys IH]; intros l l' Hl; cbn; [intros [= <-]; by exists l'|].
  destruct (environment !! name) as [value|]; [|by apply IH].
  destruct (apply_override _ _ l) as [l1|] eqn:E; [|done].
  destruct (override_related _ _ _ _ _ _ HR Hl E) as (l2 & -> & Hl2). by apply IH.
Qed.
Lemma overrides_related R raws l l' a :
  respects R → R l l' → apply_overrides raws l = Ok a → ∃ b, apply_overrides raws l' = Ok b ∧ R a b.
Proof.
  intros HR. revert l l'. induction raws as [|raw raws IH]; intros l l' Hl; cbn; [intros [= <-]; by exists l'|].
  destruct (apply_override raw Cli l) as [l1|] eqn:E; [|done].
  destruct (override_related _ _ _ _ _ _ HR Hl E) as (l2 & -> & Hl2). by apply IH.
Qed.

(** * The source of a setting *)

(** A layer whose sources are [own]: a key has one of them, or nothing about it
    has changed. *)
Definition layer (own : string → ConfigSource → Prop) (l l' : LoadedConfig) : Prop :=
  project_trusted l' = project_trusted l ∧
  ∀ key, (∃ s, provenance l' !! key = Some s ∧ own key s) ∨
    (provenance l' !! key = provenance l !! key ∧ view (loaded_config l') key = view (loaded_config l) key).
#[global] Instance layer_preorder own : PreOrder (layer own).
Proof.
  split; [intros l; split; [done|]; intros key; by right|]. intros l1 l2 l3 [T1 H1] [T2 H2]. split; [congruence|].
  intros key. destruct (H2 key) as [H|[Hp Hv]]; [by left|].
  destruct (H1 key) as [(s & Hs & Ho)|[Hp' Hv']]; [left; exists s; by rewrite Hp|right; split; congruence].
Qed.
Lemma layer_set own key f s l :
  own key s → changes_only key f → layer own l (set_source key s (upd_config f l)).
Proof.
  intros Ho Hf. split; [done|]. intros key'. cbn. destruct (decide (key' = key)) as [->|Hne].
  - left. exists s. by rewrite lookup_insert_eq.
  - right. rewrite lookup_insert_ne by done. split; [done|]. apply Hf. by intros ?%list_elem_of_singleton.
Qed.
Lemma layer_source own key s l : own key s → layer own l (set_source key s l).
Proof.
  intros Ho. split; [done|]. intros key'. cbn. destruct (decide (key' = key)) as [->|Hne].
  - left. exists s. by rewrite lookup_insert_eq.
  - right. by rewrite lookup_insert_ne.
Qed.
Lemma layer_assign {A} own (v : option A) set key s l :
  own key s → (∀ x, changes_only key (set x)) → layer own l (assign v set key s l).
Proof. intros Ho Hf. destruct v; cbn; [by apply layer_set|done]. Qed.
Lemma layer_section {A} own (x : option A) apply l :
  (∀ x l, layer own l (apply x l)) → layer own l (section_of x apply l).
Proof. intros H. destruct x; cbn; [apply H|done]. Qed.
Lemma layer_fold {A} own (f : LoadedConfig → A → LoadedConfig) xs l :
  (∀ l x, layer own l (f l x)) → layer own l (fold_left f xs l).
Proof. intros H. revert l. induction xs as [|x xs IH]; intros l; cbn; [done|]. etrans; [apply H|apply IH]. Qed.
Lemma layer_push own message l : layer own l (push_warning message l).
Proof. split; [done|]. intros key. by right. Qed.
Lemma layer_warn own source f l : layer own l (warn_ignored_project_sections source f l).
Proof. apply layer_fold. intros l' [[] s]; [apply layer_push|done]. Qed.

Ltac assigned_key := apply layer_assign; [auto|intros ?; changes_table].
Lemma models_layer own source m l : (∀ key, own key source) → layer own l (apply_models_file source m l).
Proof.
  intros Ho. unfold apply_models_file.
  etrans; [|apply layer_section; intros t l'; apply layer_fold; intros l'' [a v]; apply layer_set; [auto|apply changes_thinking]].
  etrans; [|apply layer_section; intros t l'; apply layer_fold; intros l'' [a v]; apply layer_set; [auto|apply changes_alias]].
  assigned_key.
Qed.
Lemma toolchain_layer own source t l : (∀ key, own key source) → layer own l (apply_toolchain_file source t l).
Proof.
  intros Ho. split; [done|]. intros key. destruct (decide (key ∈ TOOLCHAIN_KEYS)) as [Hin|Hout].
  - left. exists source. split; [|done]. unfold apply_toolchain_file, TOOLCHAIN_KEYS in *. rewrite !elem_of_cons, elem_of_nil in Hin.
    cbn. destruct_or!; subst; by simplify_map_eq.
  - right. split.
    + unfold apply_toolchain_file, TOOLCHAIN_KEYS in *. cbn. rewrite !not_elem_of_cons in Hout. destruct_and?.
      by rewrite !lookup_insert_ne by done.
    + assert (changes TOOLCHAIN_KEYS (upd_toolchain (λ _, t))) as Hc by (apply changes_view; [settings_table|right; reflexivity..]).
      exact (Hc _ _ Hout).
Qed.
Lemma budget_layer own source b l : (∀ key, own key source) → layer own l (apply_budget_file source b l).
Proof. intros Ho. unfold apply_budget_file. repeat (etrans; [|assigned_key]). done. Qed.
Lemma provider_sources_layer own name p source l : (∀ key, own key source) → layer own l (set_provider_sources name p source l).
Proof.
  intros Ho. unfold set_provider_sources, for_each.
  etrans; [|apply layer_fold; intros; apply layer_source; auto].
  etrans; [|apply layer_fold; intros l' [[] f]; [apply layer_source; auto|done]]. apply layer_source; auto.
Qed.
Lemma layer_config own f l : changes [] f → layer own l (upd_config f l).
Proof. intros Hf. split; [done|]. intros key. right. split; [done|]. apply Hf, not_elem_of_nil. Qed.
Lemma security_layer own source f l : (∀ key, own key source) → layer own l (apply_security_file_sections source f l).
Proof.
  intros Ho. unfold apply_security_file_sections.
  etrans; [|apply layer_section; intros; assigned_key]. etrans; [|apply layer_section; intros; assigned_key].
  etrans; [|apply layer_section; intros; repeat (etrans; [|assigned_key]); reflexivity].
  etrans; [|apply layer_section; intros; apply layer_fold; intros l' [name p]].
  2:{ etrans; [by apply provider_sources_layer|]. apply layer_config. changes_table. }
  etrans; [|apply layer_section; intros; repeat (etrans; [|assigned_key]); reflexivity].
  apply layer_section. intros. repeat (etrans; [|assigned_key]). reflexivity.
Qed.
Lemma file_layer own source scope f l : (∀ key, own key source) → layer own l (apply_file source scope f l).
Proof.
  intros Ho. unfold apply_file. cbv zeta.
  assert (Hbase : ∀ l0, layer own l0 (assign (file_ui f) (λ v, upd_ui (λ _, v)) "ui.theme" source l0)) by (intros; assigned_key).
  etrans; [|destruct scope; [|apply layer_warn]; etrans; [|by apply security_layer];
            apply layer_section; intros; assigned_key].
  all: etrans; [|apply Hbase].
  all: etrans; [|apply layer_section; intros; by apply toolchain_layer].
  all: etrans; [|apply layer_section; intros; by apply budget_layer].
  all: etrans; [|apply layer_section; intros; unfold apply_compaction_file; repeat (etrans; [|assigned_key]); reflexivity].
  all: etrans; [|apply layer_section; intros; assigned_key].
  all: etrans; [|apply layer_section; intros; by apply models_layer].
  all: apply layer_section; intros; unfold apply_engine_file; repeat (etrans; [|assigned_key]); reflexivity.
Qed.
Lemma override_layer own raw s l l' :
  (∀ key value, split_once "="%char raw = Some (key, value) → plain_key key ∧ own key s) →
  apply_override raw s l = Ok l' → layer own l l'.
Proof.
  intros Ho. destruct (override_uniform raw) as [[e H]|(key & value & f & Hr & Hf & H)]; rewrite H; [done|]. intros [= <-].
  destruct (Ho _ _ Hr) as [Hp Hk]. apply layer_set; [done|]. by apply (eff_view _ _ Hf).
Qed.
(** The keys of the environment are plain and have no [=]. *)
Lemma environment_keys_plain name key :
  (name, key) ∈ ENVIRONMENT_KEYS → ∀ value, split_once "="%char (key ++ "=" ++ value) = Some (key, value) ∧ plain_key key.
Proof.
  intros Hin value. split.
  - assert (Forall (λ e, ∀ value, split_once "="%char (e.2 ++ "=" ++ value)%string = Some (e.2, value)) ENVIRONMENT_KEYS) as H
      by (repeat (apply List.Forall_cons; [done|]); apply List.Forall_nil).
    rewrite Forall_forall in H. exact (H _ Hin value).
  - assert (forallb (λ e, negb (starts_with "models.aliases." e.2) && negb (starts_with "models.thinking." e.2)) ENVIRONMENT_KEYS = true)
      as H by done. rewrite forallb_forall in H. apply list_elem_of_In in Hin. specialize (H _ Hin). cbn [snd] in H.
    apply andb_true_iff in H as [H1 H2]. apply negb_true_iff in H1, H2. intros p rest Hp ->. exfalso.
    rewrite !elem_of_cons, elem_of_nil in Hp. destruct Hp as [->|[->|[]]];
      [rewrite (proj2 (starts_with_spec _ _)) in H1 by by eexists|rewrite (proj2 (starts_with_spec _ _)) in H2 by by eexists]; done.
Qed.
Definition from_environment (environment : gmap string string) (key : string) (s : ConfigSource) : Prop :=
  ∃ name value, s = SourceEnvironment name ∧ (name, key) ∈ ENVIRONMENT_KEYS ∧ environment !! name = Some value.
Lemma environment_layer environment l l' :
  apply_environment environment l = Ok l' → layer (from_environment environment) l l'.
Proof.
  unfold apply_environment. assert (Hsub : ∀ e, e ∈ ENVIRONMENT_KEYS → e ∈ ENVIRONMENT_KEYS) by done. revert Hsub l.
  generalize ENVIRONMENT_KEYS at 1 3. intros keys. induction keys as [|[name key] keys IH]; intros Hsub l; cbn; [by intros [= <-]|].
  assert (Hrest : ∀ e, e ∈ keys → e ∈ ENVIRONMENT_KEYS) by (intros e He; apply Hsub; by right).
  destruct (environment !! name) as [value|] eqn:En; [|by apply IH].
  destruct (apply_override _ _ l) as [l1|] eqn:E; [|done]. intros H. etrans; [|by apply IH].
  eapply override_layer; [|exact E]. intros k v Hk.
  destruct (environment_keys_plain name key (Hsub _ (list_elem_of_here _ _)) value) as [Hs Hp]. rewrite Hs in Hk. injection Hk as <- <-.
  split; [done|]. exists name, value. split_and!; [done| |done]. apply Hsub. by left.
Qed.
Definition from_cli (raws : list string) (key : string) (s : ConfigSource) : Prop :=
  s = Cli ∧ ∃ raw value, raw ∈ raws ∧ split_once "="%char raw = Some (key, value).
Definition plain_override (raw : string) : Prop :=
  ∀ key value, split_once "="%char raw = Some (key, value) → plain_key key.
Lemma overrides_layer raws l l' :
  Forall plain_override raws → apply_overrides raws l = Ok l' → layer (from_cli raws) l l'.
Proof.
  intros Hp. assert (Hsub : ∀ r, r ∈ raws → r ∈ raws) by done. revert Hsub l. generalize raws at 2 4. intros all.
  induction Hp as [|raw raws Hraw _ IH]; intros Hsub l; cbn; [by intros [= <-]|].
  destruct (apply_override raw Cli l) as [l1|] eqn:E; [|done]. intros H. etrans; [|apply IH; [|exact H]; intros r Hr; apply Hsub; by right].
  eapply override_layer; [|exact E]. intros key value Hs. split; [by eapply Hraw|]. split; [done|].
  exists raw, value. split; [apply Hsub; by left|done].
Qed.
Lemma overrides_trusted raws l l' : apply_overrides raws l = Ok l' → project_trusted l' = project_trusted l.
Proof.
  revert l. induction raws as [|raw raws IH]; intros l; cbn; [by intros [= <-]|].
  destruct (override_uniform raw) as [[e H]|(key & value & f & _ & _ & H)]; rewrite H; [done|]. intros Hr. by rewrite (IH _ Hr).
Qed.
End layers.

(** * Loading *)

Section load.
Context {B : Blake3} {J : TrustJson} {SD : StrDebug} {UO : UrlOf} {G : Glob} {T : TomlConfig} {TJ : TuiJson}.

Definition trust_decision (c : ConfigLoader) (a : FolderTrustAssessment) : bool :=
  default (project_execution_enabled a) (project_trust_override c).
(** The state after the project's file, if there is one *)
Definition project_layer (c : ConfigLoader) (a : FolderTrustAssessment) (file : option ConfigFile) (l : LoadedConfig)
    : LoadedConfig :=
  let l := set_project_trusted (trust_decision c a) l in
  match file with Some file => apply_project c a (trust_decision c a) file l | None => l end.
(** The layers of a load that succeeds *)
Record loaded_by (fuel : nat) (c : ConfigLoader) (w : LoadWorld) (l : LoadedConfig)
    (a : FolderTrustAssessment) (file : option ConfigFile) (user env : LoadedConfig) : Prop := mkLoadedBy {
  lb_user : apply_user c w defaults_with_provenance = Ok user;
  lb_assess : assess fuel (world_assessed w) (trust_store c w) (world_ledger w) (project_root c) = Some (Ok a);
  lb_file : read_assessed_project_file (world_read w) (project_path c) a = Ok file;
  lb_env : apply_environment (loader_environment c) (project_layer c a file user) = Ok env;
  lb_cli : apply_overrides (cli_overrides c) env = Ok l;
}.
Lemma load_layers fuel c w l : load fuel c w = Some (Ok l) → ∃ a file user env, loaded_by fuel c w l a file user env.
Proof.
  unfold load. case_match; [done|]. destruct (apply_user _ _ _) as [user|] eqn:Eu; [|done].
  destruct (assess _ _ _ _ _) as [[a|]|] eqn:Ea; [|done|done]. cbn [mbind option_bind]. intros [= Hl]. revert Hl. unfold load_assessed.
  destruct (read_assessed_project_file _ _ _) as [file|] eqn:Ef; [|done]. cbv zeta beta iota.
  destruct (apply_environment _ _) as [env|] eqn:Ee; [|done]. destruct (apply_overrides _ _) as [l'|] eqn:Eo; [|done].
  destruct (validate _); [|done]. intros [= <-]. exists a, file, user, env. by split.
Qed.
Lemma project_layer_guard c a file l : same_guard (project_layer c a file l) l.
Proof.
  unfold project_layer. destruct file as [file|]; [|by split]. etrans; [|by instantiate (1 := set_project_trusted (trust_decision c a) l); split].
  unfold apply_project. destruct (trust_decision c a).
  - etrans; [apply project_file_guard|]. case_match; by split.
  - etrans; [|apply same_settings_guard, warn_guard]. by split.
Qed.
Lemma project_layer_untrusted c a file l : trust_decision c a = false → same_settings (project_layer c a file l) l.
Proof.
  intros Ht. unfold project_layer. rewrite Ht. destruct file as [file|]; [|by split]. unfold apply_project.
  destruct (warn_guard (ProjectFile (project_path c)) file (set_project_trusted false l)) as [H1 H2]. by split.
Qed.
Definition from_project (_ : string) (s : ConfigSource) : Prop := match s with ProjectFile _ => True | _ => False end.
Lemma project_layer_layer c a file l :
  layer from_project (set_project_trusted (trust_decision c a) l) (project_layer c a file l).
Proof.
  unfold project_layer. destruct file as [file|]; [|done]. unfold apply_project. destruct (trust_decision c a).
  - etrans; [|by apply file_layer]. case_match; [apply layer_push|done].
  - etrans; [apply layer_warn|apply layer_push].
Qed.
Lemma loaded_trusted fuel c w l a file user env :
  loaded_by fuel c w l a file user env → project_trusted l = trust_decision c a.
Proof.
  intros [_ _ _ He Ho]. rewrite (overrides_trusted _ _ _ Ho), (proj1 (environment_layer _ _ _ He)).
  by rewrite (proj1 (project_layer_layer c a file user)).
Qed.
Definition from_user (_ : string) (s : ConfigSource) : Prop := match s with UserFile _ | UserTui _ => True | _ => False end.
Lemma user_layer c w l l' : apply_user c w l = Ok l' → layer from_user l l'.
Proof.
  unfold apply_user. destruct (read_file _ _) as [[file|]|]; [|by intros [= <-]|done]. cbv zeta beta iota.
  pose proof (file_layer from_user (UserFile (user_path c)) User file l (λ _, I)) as Hf. revert Hf.
  generalize (apply_file (UserFile (user_path c)) User file l). intros l1 Hf.
  destruct (read_tui_provenance _ _) as [values|]; [|done]. intros [= <-]. unfold apply_tui_provenance, for_each.
  etrans; [exact Hf|]. apply layer_fold. intros l0 [key value]. cbn. case_match; [by apply layer_source|done].
Qed.

(** The settings without any project *)
Definition load_without_project (c : ConfigLoader) (w : LoadWorld) : Result LoadedConfig ConfigError :=
  let? l := apply_user c w defaults_with_provenance in
  let? l := apply_environment (loader_environment c) l in
  apply_overrides (cli_overrides c) l.
Lemma related_load R fuel c w l a file user env :
  loaded_by fuel c w l a file user env → respects R → R (project_layer c a file user) user →
  ∃ l0, load_without_project c w = Ok l0 ∧ R l l0.
Proof.
  intros [Hu _ _ He Ho] HR Hp. unfold load_without_project. rewrite Hu.
  destruct (environment_related _ _ _ _ _ HR Hp He) as (env' & -> & He').
  destruct (overrides_related _ _ _ _ _ HR He' Ho) as (l0 & Hl0 & HRl). by exists l0.
Qed.

(** C14: a project confines itself: whatever file the project has and whatever has been
    trusted, a load ends with the provider, network, search, permission,
    sandbox, telemetry and update settings, and their sources, that a load
    without the project has.  In a folder that is not trusted every setting and
    every source is that of a load without the project. *)
Theorem project_layer_confined fuel c w l :
  load fuel c w = Some (Ok l) →
  ∃ l0, load_without_project c w = Ok l0 ∧ same_guard l l0 ∧ (project_trusted l = false → same_settings l l0).
Proof.
  intros (a & file & user & env & Hl)%load_layers.
  destruct (related_load _ _ _ _ _ _ _ _ _ Hl same_guard_respects (project_layer_guard _ _ _ _)) as (l0 & H0 & Hg).
  exists l0. split_and!; [done|done|]. rewrite (loaded_trusted _ _ _ _ _ _ _ _ Hl). intros Ht.
  destruct (related_load _ _ _ _ _ _ _ _ _ Hl same_settings_respects (project_layer_untrusted _ _ _ _ Ht)) as (l1 & H1 & Hs).
  rewrite H0 in H1. by injection H1 as <-.
Qed.

(** C16: the source of a setting tells where its value comes from.  A load passes
    through four states: the user's file over the defaults, the project's file
    of the assessed folder over that, the environment, and the command line.  For
    every setting that is not a field of a provider, one with a built-in or no
    source has its default value, one with a file as its source the value after
    that file, one with a variable as its source the value after the environment,
    where that variable names the setting and was set, and one with the command
    line as its source was given there.  This holds for a command line whose keys
    do not repeat the words before an alias; [repeated_alias_source] shows that
    such a key sets an alias whose source is recorded elsewhere. *)
Theorem sources_truthful fuel c w l :
  load fuel c w = Some (Ok l) → Forall plain_override (cli_overrides c) →
  ∃ a file user env, loaded_by fuel c w l a file user env ∧
    ∀ key, is_Some (view default_config key) → match provenance l !! key with
      | None | Some BuiltIn => view (loaded_config l) key = view default_config key
      | Some (UserFile _) | Some (UserTui _) => view (loaded_config l) key = view (loaded_config user) key
      | Some (ProjectFile _) => view (loaded_config l) key = view (loaded_config (project_layer c a file user)) key
      | Some (SourceEnvironment name) =>
          (name, key) ∈ ENVIRONMENT_KEYS ∧ is_Some (loader_environment c !! name) ∧
          view (loaded_config l) key = view (loaded_config env) key
      | Some Cli => ∃ raw value, raw ∈ cli_overrides c ∧ split_once "="%char raw = Some (key, value)
      end.
Proof.
  intros (a & file & user & env & Hl)%load_layers Hp. exists a, file, user, env. split; [done|]. destruct Hl as [Hu _ _ He Ho].
  intros key _. destruct (overrides_layer _ _ _ Hp Ho) as [_ Lc]. destruct (environment_layer _ _ _ He) as [_ Le].
  destruct (project_layer_layer c a file user) as [_ Lp]. destruct (user_layer _ _ _ _ Hu) as [_ Lu].
  destruct (Lc key) as [(s & -> & -> & Hs)|[Pc Vc]]; [done|]. rewrite Pc, Vc.
  destruct (Le key) as [(s & -> & name & value & -> & Hn & Hv)|[Pe Ve]]; [by split_and!|]. rewrite Pe, Ve.
  destruct (Lp key) as [(s & -> & Hs)|[Pp Vp]]; [by destruct s|]. rewrite Pp, Vp. cbn [set_project_trusted provenance loaded_config].
  destruct (Lu key) as [(s & -> & Hs)|[Pu Vu]]; [by destruct s|]. rewrite Pu, Vu.
  destruct (provenance defaults_with_provenance !! key) as [s|] eqn:E; [|done]. apply elem_of_list_to_map_2 in E.
  apply list_elem_of_fmap in E as (k & [= <- ->] & _). done.
Qed.

(** * What takes effect in a trusted folder *)

Lemma assess_workspace fuel fs st file asked a :
  assess fuel fs st file asked = Some (Ok a) → fs_canonical fs asked = Ok (assessed_workspace a).
Proof.
  unfold assess. destruct (fs_canonical fs asked) as [ws|]; [|done].
  destruct (executable_inventory fuel fs ws (user_home st)) as [[items|e]|]; [..|done]; cbn [mbind option_bind]; last first.
  { case_match; [|done]. by intros [= <-]. }
  destruct (read_ledger st file) as [ledger|]; [|done]. cbv beta iota. destruct (workspace_key ws); [|done].
  cbv beta iota. destruct (judge _ _ _). by intros [= <-].
Qed.
Lemma assessed_relative_config fs root ws :
  fs_canonical fs (root ++ [".rottweiler"]) = Ok (ws ++ [".rottweiler"])%list →
  assessed_relative fs (root ++ [".rottweiler"; "config.toml"]) ws = Some ".rottweiler/config.toml".
Proof.
  intros Hc. unfold assessed_relative.
  replace (root ++ [".rottweiler"; "config.toml"])%list with ((root ++ [".rottweiler"]) ++ ["config.toml"])%list
    by by rewrite <- (assoc_L app).
  assert (parent_of ((root ++ [".rottweiler"]) ++ ["config.toml"]) = Some (root ++ [".rottweiler"])%list) as ->.
  { unfold parent_of. rewrite removelast_last. by destruct (root ++ [".rottweiler"])%list. }
  cbn [mbind option_bind]. assert (canonical_config_parent fs (rev (root ++ [".rottweiler"])) [] = Some (ws ++ [".rottweiler"])%list) as ->.
  { destruct (rev (root ++ [".rottweiler"])) as [|x xs] eqn:E; [by rewrite rev_app_distr in E|].
    cbn [canonical_config_parent]. rewrite <- E, rev_involutive, Hc. by rewrite app_nil_r. }
  cbn [mbind option_bind]. rewrite last_snoc. cbn [mbind option_bind]. rewrite <- (assoc_L app), strip_path_app. done.
Qed.
Lemma assessed_file_listed fs path a relative bytes file :
  assessed_relative fs path (assessed_workspace a) = Some relative → inventory_governed relative = true →
  read_project_bytes fs path = Ok (Some bytes) → read_assessed_project_file fs path a = Ok file →
  ∃ item, item ∈ inventory a ∧ item_path item = relative ∧ item_hash item = blake3_hex bytes ∧ item_bytes item = str_len bytes.
Proof.
  intros Hr Hg Hb. unfold read_assessed_project_file. rewrite Hr. cbn [ok_or]. cbv zeta. rewrite Hb.
  destruct (List.find _ (inventory a)) as [item|] eqn:E; [|by rewrite Hg]. apply List.find_some in E as [Hin Hp%String.eqb_eq].
  destruct (Z.eqb_spec (item_bytes item) (str_len bytes)); [|done]. destruct (String.eqb_spec (item_hash item) (blake3_hex bytes)); [|done].
  intros _. exists item. split_and!; [by apply list_elem_of_In|done..].
Qed.

Context {HD : HexDigests}.
(** C15: the project's settings that take effect in a trusted folder are the ones that
    were agreed to.  A load found the folder trusted by its ledger, without an
    override of the decision, and read the project file at its standard place,
    [.rottweiler/config.toml], and when the file was read the project's [.rottweiler] still
    resolved to the one of the assessed folder.  Then the decisions on disk
    include a grant of this folder that no later decision revised, and, unless
    the two inventories collide, the granted inventory lists
    [.rottweiler/config.toml] with the digest and the length of the bytes that
    were read, even when the contents of the folder changed after it was assessed.
    The condition on the directory is needed: [swapped_root_unlisted] shows a load
    that takes over an unlisted file when the project's root is exchanged for
    another folder in between. *)
Theorem trusted_config_granted fuel c w l tw ws bytes :
  rtc (trust_step (trust_store c w)) no_ledger tw → world_ledger w = ledger_file (w_disk tw) →
  names_ok (world_assessed w) → (∀ u fs', (u, fs') ∈ w_log tw → names_ok fs') →
  project_path c = (project_root c ++ [".rottweiler"; "config.toml"])%list → project_trust_override c = None →
  fs_canonical (world_assessed w) (project_root c) = Ok ws →
  fs_canonical (world_read w) (project_root c ++ [".rottweiler"]) = Ok (ws ++ [".rottweiler"])%list →
  read_project_bytes (world_read w) (project_path c) = Ok (Some bytes) →
  load fuel c w = Some (Ok l) → project_trusted l = true →
  ∃ a key assessments g, assessed_workspace a = ws ∧ granted_by (trust_store c w) tw a key assessments g ∧
    (collide (inventory_preimage (inventory g)) (inventory_preimage (inventory a)) ∨
     ∃ item, item ∈ inventory g ∧ item_path item = ".rottweiler/config.toml" ∧
       item_hash item = blake3_hex bytes ∧ item_bytes item = str_len bytes).
Proof.
  intros Htw Hled Hn Hns Hpath Hover Hws Hcan Hb (a & file & user & env & Hl)%load_layers Ht.
  rewrite (loaded_trusted _ _ _ _ _ _ _ _ Hl) in Ht. unfold trust_decision in Ht. rewrite Hover in Ht. cbn in Ht.
  destruct Hl as [_ Ha Hf _ _]. rewrite Hled in Ha. pose proof (assess_workspace _ _ _ _ _ _ Ha) as Hw. rewrite Hws in Hw. injection Hw as ->.
  destruct (trusted_granted _ _ _ _ _ _ Htw Hn Hns Ha Ht) as (_ & key & as_ & g & Hg & Hi).
  exists a, key, as_, g. split; [done|]. split; [done|]. destruct Hi as [Hi|Hi]; [by left|right]. rewrite Hi.
  eapply assessed_file_listed; [|reflexivity|exact Hb|exact Hf]. rewrite Hpath. by apply assessed_relative_config.
Qed.
End load.

(** * Witnesses *)

Module ConfigExample.
Import TrustExample.
#[export] Instance plain_debug : StrDebug := λ s, s.
#[export] Instance no_urls : UrlOf := λ _, None.
#[export] Instance exact_globs : Glob := λ _ pattern, Some (String.eqb pattern).
#[export] Instance no_tui : TuiJson := λ _, Ok ∅.

Definition empty_file : ConfigFile := mkConfigFile None None None None None None None None None None None None None None.
Definition model_file (model : string) : ConfigFile :=
  mkConfigFile None None (Some (mkModelFile (Some model) None None)) None None None None None
    (Some (mkPermissionFile (Some Allow) None)) None None None None None.
Definition user_file : ConfigFile :=
  mkConfigFile None None None None None None None None (Some (mkPermissionFile (Some Deny) None)) None None None None None.
(** The files: the user denies by default; a project sets a model and, in vain, a
    permission. *)
#[export] Instance few_files : TomlConfig := λ s,
  if String.eqb s "deny" then Some user_file
  else if String.eqb s "slow" || String.eqb s "other" then Some (model_file s)
  else Some empty_file.

Definition configured : Fs :=
  tree_fs [(["w"], [".rottweiler"]); (["w"; ".rottweiler"], ["config.toml"])] [(["w"; ".rottweiler"; "config.toml"], "slow")].
Definition loader : ConfigLoader := mkLoader ["home"; "config.toml"] ["w"; ".rottweiler"; "config.toml"] ["w"]
  ["home"; "trust.json"] None false {["RW_COMPACTION_AUTO" := "false"]} ["models.thinking.slow=high"].
Definition agreed : FolderTrustAssessment :=
  match assess 10 configured st NoLedger ["w"] with
  | Some (Ok a) => a
  | _ => mkAssessment [] None [] [] Untrusted None
  end.
Definition agreed_ledger : TrustLedger :=
  match update_ledger (Grant [agreed]) default_ledger with Ok l => l | Err _ => default_ledger end.
Definition agreed_world : TrustWorld := granted_alone agreed_ledger [agreed] configured.
Lemma agreed_reachable : rtc (trust_step st) no_ledger agreed_world.
Proof. by apply (granted_alone_reachable st 10 configured [agreed] agreed_ledger ["home"] ["home"]); vm_compute. Qed.

Definition load_world : LoadWorld :=
  mkLoadWorld configured (ledger_file (w_disk agreed_world)) None configured (FileBytes "deny") NoTuiFile.
Definition ok_or_defaults (r : option (Result LoadedConfig ConfigError)) : LoadedConfig :=
  match r with Some (Ok l) => l | _ => defaults_with_provenance end.
Definition loads (r : option (Result LoadedConfig ConfigError)) : bool :=
  match r with Some (Ok _) => true | _ => false end.
Lemma loads_ok r : loads r = true → r = Some (Ok (ok_or_defaults r)).
Proof. by destruct r as [[]|]. Qed.
Definition trusted_load : LoadedConfig := ok_or_defaults (load 10 loader load_world).
Lemma trusted_loads : load 10 loader load_world = Some (Ok trusted_load).
Proof. unfold trusted_load. apply (loads_ok (load 10 loader load_world)). vm_compute. reflexivity. Qed.
End ConfigExample.
Import TrustExample ConfigExample.

Lemma project_layer_confined_witness :
  load 10 loader load_world = Some (Ok trusted_load) ∧
  default_model (config_models (loaded_config trusted_load)) = "slow" ∧
  config_default (config_permissions (loaded_config trusted_load)) = Deny ∧
  ∃ l0, load_without_project loader load_world = Ok l0 ∧ same_guard trusted_load l0.
Proof.
  pose proof trusted_loads as Hl.
  split_and!; [exact Hl|vm_compute; reflexivity..|].
  destruct (project_layer_confined 10 loader load_world trusted_load Hl) as (l0 & H0 & Hg & _). exists l0. exact (conj H0 Hg).
Defined.
Lemma sources_truthful_witness :
  provenance trusted_load !! "models.default" = Some (ProjectFile ["w"; ".rottweiler"; "config.toml"]) ∧
  provenance trusted_load !! "compaction.auto" = Some (SourceEnvironment "RW_COMPACTION_AUTO") ∧
  provenance trusted_load !! "models.thinking.slow" = Some Cli ∧
  provenance trusted_load !! "permissions.default" = Some (UserFile ["home"; "config.toml"]) ∧
  view (loaded_config trusted_load) "ui.theme" = view default_config "ui.theme".
Proof.
  pose proof trusted_loads as Hl.
  assert (Hp : Forall plain_override (cli_overrides loader)).
  { repeat constructor. intros key value [= <- <-] p rest Hp E. rewrite !elem_of_cons, elem_of_nil in Hp.
    destruct Hp as [->|[->|[]]]; [discriminate E|]. apply (f_equal (strip_prefix "models.thinking.")) in E.
    rewrite strip_prefix_app in E. by injection E as <-. }
  split_and!; [vm_compute; reflexivity..|].
  destruct (sources_truthful 10 loader load_world trusted_load Hl Hp) as (a & file & user & env & _ & H).
  specialize (H "ui.theme" (mk_is_Some _ _ eq_refl)). assert (E : provenance trusted_load !! "ui.theme" = Some BuiltIn) by (vm_compute; reflexivity).
  rewrite E in H. exact H.
Defined.
Lemma trusted_config_granted_witness :
  read_project_bytes configured ["w"; ".rottweiler"; "config.toml"] = Ok (Some "slow") ∧
  project_trusted trusted_load = true ∧
  ∃ a key assessments g, assessed_workspace a = ["w"] ∧ granted_by st agreed_world a key assessments g.
Proof.
  pose proof trusted_loads as Hl.
  assert (Hn : names_ok configured) by (apply tree_names_ok; by repeat constructor).
  split_and!; [vm_compute; reflexivity..|].
  destruct (trusted_config_granted 10 loader load_world trusted_load agreed_world ["w"] "slow")
    as (a & key & as_ & g & Ha & Hg & _); [exact agreed_reachable|reflexivity|exact Hn| |reflexivity|reflexivity|reflexivity
    |reflexivity|vm_compute; reflexivity|exact Hl|vm_compute; reflexivity|exists a, key, as_, g; exact (conj Ha Hg)].
  intros u fs' Hin%list_elem_of_singleton. injection Hin as _ ->. exact Hn.
Defined.

(** * Corners *)

(** An override that repeats the words before an alias sets the alias, and its
    source is recorded under another key. *)
Example repeated_alias_source :
  ∃ l, apply_override "models.aliases.models.aliases.a=m" Cli defaults_with_provenance = Ok l ∧
    model_aliases (config_models (loaded_config l)) !! "a" = Some ["m"] ∧ provenance l !! "models.aliases.a" = None.
Proof. eexists. split; [reflexivity|]. split; vm_compute; reflexivity. Qed.

(** An inventory that cannot be completed makes a project file that nobody
    changed look changed. *)
Example untrustable_project_file path a file :
  assessed_relative configured path (assessed_workspace a) = Some ".rottweiler/config.toml" → inventory a = [] →
  read_project_bytes configured path = Ok (Some file) →
  read_assessed_project_file configured path a = Err (ProjectChangedDuringLoad path).
Proof. intros Hr Hi Hb. unfold read_assessed_project_file. rewrite Hr. cbn [ok_or]. cbv zeta. by rewrite Hi, Hb. Qed.

(** The root of the project is a link to the assessed folder, then to a folder
    inside it whose settings nobody agreed to. *)
Definition linked_root : Fs :=
  {| fs_symlink_metadata := fs_symlink_metadata configured;
     fs_stat := fs_stat configured;
     fs_read_dir := fs_read_dir configured;
     fs_canonical := λ p, if bool_decide (p = ["link"]) then Ok ["w"] else fs_canonical configured p;
     fs_open_directory := fs_open_directory configured;
     fs_open_file := fs_open_file configured;
     fs_euid := 0 |}.
Definition swapped_root : Fs :=
  {| fs_symlink_metadata := fs_symlink_metadata configured;
     fs_stat := fs_stat configured;
     fs_read_dir := fs_read_dir configured;
     fs_canonical := λ p, if bool_decide (p = ["link"; ".rottweiler"]) then Ok ["w"; "sub"; ".rottweiler"] else Err missing;
     fs_open_directory := λ p, if bool_decide (p = ["link"; ".rottweiler"]) then Ok tt else Err missing;
     fs_open_file := λ p, if bool_decide (p = ["link"; ".rottweiler"; "config.toml"]) then Ok (Ok KFile, Ok "other") else Err missing;
     fs_euid := 0 |}.
Definition linked_loader : ConfigLoader :=
  mkLoader ["home"; "config.toml"] ["link"; ".rottweiler"; "config.toml"] ["link"] ["home"; "trust.json"] None false ∅ [].
Definition swapped_world : LoadWorld :=
  mkLoadWorld linked_root (ledger_file (w_disk agreed_world)) None swapped_root FileMissing NoTuiFile.
Definition swapped_load : LoadedConfig := ok_or_defaults (load 10 linked_loader swapped_world).
Example swapped_root_unlisted :
  load 10 linked_loader swapped_world = Some (Ok swapped_load) ∧ project_trusted swapped_load = true ∧
  default_model (config_models (loaded_config swapped_load)) = "other" ∧
  existsb (λ item, String.eqb (item_hash item) (blake3_hex "other")) (inventory agreed) = false.
Proof.
  split; [|vm_compute; by split_and!]. unfold swapped_load. apply (loads_ok (load 10 linked_loader swapped_world)).
  vm_compute. reflexivity.
Qed.
