(* ===== verification/Egress.v ===== *)
(** The egress policy of the sandbox ([rw-sandbox/src/lib.rs]): the domain
    allow-list, the addresses a connection may reach and the decision taken on
    one DNS answer set.

    The addresses are compared with the table of the address blocks that are not
    globally reachable, a few of which the code does not know, and the decision
    is described by the domains and the addresses it lets through. *)
From Stdlib Require Import Ascii.
From S2P Require Import Prelude Text Ir BashSafety PermissionRules.

(** * Domains *)

(** [normalize_domain] on one label *)
Definition valid_label (label : string) : bool :=
  negb (is_empty label) && (str_len label <=? 63) && negb (starts_with "-" label) && negb (ends_with "-" label)
  && str_all (λ c, is_ascii_alphanumeric c || Ascii.eqb c "-"%char) label.
Definition normalize_domain (domain : string) : option string :=
  let domain := to_ascii_lowercase (trim_end_matches "."%char (trim domain)) in
  if negb (is_empty domain) && (str_len domain <=? 253) && forallb valid_label (split_char "."%char domain)
  then Some domain else None.
Definition normalize_egress_domain (domain : string) : option string := normalize_domain domain.

(** * Addresses *)

(** [Ipv4Addr] by its octets, [Ipv6Addr] by its segments *)
Record Ipv4Addr : Type := mkV4 { oct_a : Z; oct_b : Z; oct_c : Z; oct_d : Z }.
Record Ipv6Addr : Type := mkV6 {
  seg0 : Z; seg1 : Z; seg2 : Z; seg3 : Z; seg4 : Z; seg5 : Z; seg6 : Z; seg7 : Z;
}.
Inductive IpAddr : Type := V4 (address : Ipv4Addr) | V6 (address : Ipv6Addr).
#[global] Instance Ipv4Addr_eq_dec : EqDecision Ipv4Addr.
Proof. solve_decision. Defined.
#[global] Instance Ipv6Addr_eq_dec : EqDecision Ipv6Addr.
Proof. solve_decision. Defined.
#[global] Instance IpAddr_eq_dec : EqDecision IpAddr.
Proof. solve_decision. Defined.

(** The predicates of [Ipv4Addr] *)
Definition v4_is_private (x : Ipv4Addr) : bool :=
  (oct_a x =? 10) || (oct_a x =? 172) && ((16 <=? oct_b x) && (oct_b x <=? 31)) || (oct_a x =? 192) && (oct_b x =? 168).
Definition v4_is_loopback (x : Ipv4Addr) : bool := oct_a x =? 127.
Definition v4_is_link_local (x : Ipv4Addr) : bool := (oct_a x =? 169) && (oct_b x =? 254).
Definition v4_is_broadcast (x : Ipv4Addr) : bool :=
  (oct_a x =? 255) && (oct_b x =? 255) && (oct_c x =? 255) && (oct_d x =? 255).
Definition v4_is_documentation (x : Ipv4Addr) : bool :=
  (oct_a x =? 192) && (oct_b x =? 0) && (oct_c x =? 2)
  || (oct_a x =? 198) && (oct_b x =? 51) && (oct_c x =? 100)
  || (oct_a x =? 203) && (oct_b x =? 0) && (oct_c x =? 113).
Definition v4_is_unspecified (x : Ipv4Addr) : bool :=
  (oct_a x =? 0) && (oct_b x =? 0) && (oct_c x =? 0) && (oct_d x =? 0).
Definition v4_is_multicast (x : Ipv4Addr) : bool := (224 <=? oct_a x) && (oct_a x <=? 239).
Definition is_public_v4 (x : Ipv4Addr) : bool :=
  negb (v4_is_private x || v4_is_loopback x || v4_is_link_local x || v4_is_broadcast x || v4_is_documentation x
        || v4_is_unspecified x || v4_is_multicast x
        || (oct_a x =? 0)
        || (oct_a x =? 100) && ((64 <=? oct_b x) && (oct_b x <=? 127))
        || (oct_a x =? 192) && (oct_b x =? 0) && (oct_c x =? 0)
        || (oct_a x =? 198) && ((18 <=? oct_b x) && (oct_b x <=? 19))
        || (240 <=? oct_a x)).

(** [u16::to_be_bytes] *)
Definition high_byte (x : Z) : Z := Z.shiftr x 8.
Definition low_byte (x : Z) : Z := Z.land x 255.
Definition embedded_ipv4 (high low : Z) : Ipv4Addr :=
  mkV4 (high_byte high) (low_byte high) (high_byte low) (low_byte low).

(** The predicates of [Ipv6Addr] *)
Definition v6_is_unspecified (x : Ipv6Addr) : bool := bool_decide (x = mkV6 0 0 0 0 0 0 0 0).
Definition v6_is_loopback (x : Ipv6Addr) : bool := bool_decide (x = mkV6 0 0 0 0 0 0 0 1).
Definition v6_is_multicast (x : Ipv6Addr) : bool := Z.land (seg0 x) 0xff00 =? 0xff00.
Definition v6_is_unique_local (x : Ipv6Addr) : bool := Z.land (seg0 x) 0xfe00 =? 0xfc00.
Definition v6_is_unicast_link_local (x : Ipv6Addr) : bool := Z.land (seg0 x) 0xffc0 =? 0xfe80.
Definition to_ipv4_mapped (x : Ipv6Addr) : option Ipv4Addr :=
  if (seg0 x =? 0) && (seg1 x =? 0) && (seg2 x =? 0) && (seg3 x =? 0) && (seg4 x =? 0) && (seg5 x =? 0xffff)
  then Some (embedded_ipv4 (seg6 x) (seg7 x)) else None.
Definition is_public_v6 (x : Ipv6Addr) : bool :=
  match to_ipv4_mapped x with
  | Some mapped => is_public_v4 mapped
  | None =>
      if (seg0 x =? 0) && (seg1 x =? 0) && (seg2 x =? 0) && (seg3 x =? 0) && (seg4 x =? 0) && (seg5 x =? 0)
      then is_public_v4 (embedded_ipv4 (seg6 x) (seg7 x))
      else if (seg0 x =? 0x0064) && (seg1 x =? 0xff9b)
      then (seg2 x =? 0) && (seg3 x =? 0) && (seg4 x =? 0) && (seg5 x =? 0)
           && is_public_v4 (embedded_ipv4 (seg6 x) (seg7 x))
      else if seg0 x =? 0x2002 then is_public_v4 (embedded_ipv4 (seg1 x) (seg2 x))
      else if ((seg4 x =? 0) || (seg4 x =? 0x0200)) && (seg5 x =? 0x5efe)
      then is_public_v4 (embedded_ipv4 (seg6 x) (seg7 x))
      else negb (v6_is_loopback x || v6_is_unspecified x || v6_is_multicast x || v6_is_unique_local x
                 || v6_is_unicast_link_local x
                 || (seg0 x =? 0x2001) && ((seg1 x =? 0) || (seg1 x =? 0x0db8)))
  end.
Definition is_public_ip (address : IpAddr) : bool :=
  match address with V4 x => is_public_v4 x | V6 x => is_public_v6 x end.

(** * The policy *)

Inductive EgressDecision : Type := Allowed | ApprovalRequired | HardDenied.
#[global] Instance EgressDecision_eq_dec : EqDecision EgressDecision.
Proof. solve_decision. Defined.
Record EgressPolicy : Type := mkEgressPolicy {
  allowed_domains : gset string;
  allow_private_destinations : bool;
}.

Definition egress_new (domains : list string) : EgressPolicy :=
  mkEgressPolicy (list_to_set (omap normalize_domain domains)) false.
Definition egress_default : EgressPolicy :=
  egress_new ["crates.io"; "static.crates.io"; "index.crates.io"; "registry.npmjs.org"; "pypi.org";
              "files.pythonhosted.org"; "proxy.golang.org"; "repo.maven.apache.org"; "rubygems.org"].
Definition allow_domain (policy : EgressPolicy) (domain : string) : EgressPolicy * bool :=
  match normalize_domain domain with
  | None => (policy, false)
  | Some domain => (mkEgressPolicy ({[domain]} ∪ allowed_domains policy) (allow_private_destinations policy), true)
  end.
Definition with_private_destinations (policy : EgressPolicy) (allow : bool) : EgressPolicy :=
  mkEgressPolicy (allowed_domains policy) allow.
(** [allows_domain] on one entry of the list *)
Definition domain_covers (allowed host : string) : bool :=
  String.eqb host allowed
  || match strip_suffix allowed host with Some prefix => ends_with "." prefix | None => false end.
Definition allows_domain (policy : EgressPolicy) (host : string) : bool :=
  match normalize_domain host with
  | None => false
  | Some host => existsb (λ allowed, domain_covers allowed host) (elements (allowed_domains policy))
  end.
Definition evaluate (policy : EgressPolicy) (host : string) (addresses : list IpAddr) : EgressDecision :=
  if match addresses with [] => true | _ => false end
     || negb (allow_private_destinations policy) && existsb (λ address, negb (is_public_ip address)) addresses
  then HardDenied
  else match normalize_domain host with
       | None => HardDenied
       | Some host => if allows_domain policy host then Allowed else ApprovalRequired
       end.

(** The checks of the repository's tests *)
Example evaluate_examples :
  let public := V4 (mkV4 1 1 1 1) in
  let private := V4 (mkV4 169 254 169 254) in
  let policy := fst (allow_domain egress_default "example.com") in
  map (λ host, evaluate egress_default host [public]) ["registry.npmjs.org"; "evilregistry-npmjs.org"; "example.com"]
  = [Allowed; ApprovalRequired; ApprovalRequired]
  ∧ snd (allow_domain policy "https://example.com/path") = false
  ∧ evaluate policy "cdn.Example.com." [public] = Allowed
  ∧ map (evaluate policy "example.com") [[]; [private]; [public; private]] = [HardDenied; HardDenied; HardDenied]
  ∧ evaluate (with_private_destinations policy true) "example.com" [private] = Allowed.
Proof. vm_compute. repeat split. Qed.

(** * Normal forms of domains *)

Abbreviation bytes_of := String.list_ascii_of_string (only parsing).
Abbreviation text_of := String.string_of_list_ascii (only parsing).

(** The bytes of a normalised domain *)
Definition domain_byte (c : ascii) : bool :=
  (is_ascii_alphanumeric c || Ascii.eqb c "-"%char || Ascii.eqb c "."%char) && Ascii.eqb (ascii_lower c) c.
(** No pattern of [ps] starts with [c]. *)
Definition heads_avoid (ps : list string) (c : ascii) : bool :=
  forallb (λ p, match p with String d _ => negb (Ascii.eqb d c) | "" => false end) ps.

Lemma strip_leading_avoid fuel ps c s : heads_avoid ps c = true → strip_leading fuel ps (String c s) = String c s.
Proof.
  intros H. destruct fuel as [|fuel]; cbn [strip_leading]; [done|].
  destruct (list_find _ ps) as [[i p]|] eqn:E; [|done].
  apply list_find_Some in E as (Hi & Hp & _). unfold heads_avoid in H. rewrite forallb_forall in H.
  specialize (H p). rewrite <- list_elem_of_In in H. specialize (H (list_elem_of_lookup_2 _ _ _ Hi)). destruct p as [|d p]; [done|].
  apply negb_true_iff, Ascii.eqb_neq in H. cbn in Hp. by destruct (Ascii.ascii_dec d c).
Qed.
Lemma domain_byte_avoids c :
  domain_byte c = true → heads_avoid white_space c && heads_avoid (map String.rev white_space) c = true.
Proof. destruct c as [[] [] [] [] [] [] [] []]; vm_compute; congruence. Qed.
Lemma trim_domain s : str_all domain_byte s = true → trim s = s.
Proof.
  intros H. unfold trim.
  assert (trim_start s = s) as ->.
  { unfold trim_start. destruct s as [|c s]; [done|]. cbn in H. apply andb_prop in H as [H _].
    apply strip_leading_avoid. by apply domain_byte_avoids, andb_prop in H as [? _]. }
  unfold trim_end. apply str_all_rev in H. rewrite <- (str_rev_involutive s) at 3. f_equal.
  destruct (String.rev s) as [|c t]; [by destruct s|]. cbn in H. apply andb_prop in H as [H _].
  apply strip_leading_avoid. by apply domain_byte_avoids, andb_prop in H as [_ ?].
Qed.
Lemma lower_idem c : ascii_lower (ascii_lower c) = ascii_lower c.
Proof. destruct c as [[] [] [] [] [] [] [] []]; vm_compute; reflexivity. Qed.
Lemma to_lower_idem s : to_ascii_lowercase (to_ascii_lowercase s) = to_ascii_lowercase s.
Proof. induction s as [|c s IH]; cbn; [done|]. by rewrite lower_idem, IH. Qed.
Lemma to_lower_fixed s : str_all domain_byte s = true → to_ascii_lowercase s = s.
Proof.
  induction s as [|c s IH]; cbn; [done|]. rewrite andb_true_iff. intros [H ?]. rewrite IH by done.
  unfold domain_byte in H. apply andb_prop in H as [_ H]. by apply Ascii.eqb_eq in H as ->.
Qed.
(** The bytes of a text that is valid label by label *)
Lemma labels_bytes s :
  forallb valid_label (split_char "."%char s) = true →
  str_all (λ c, is_ascii_alphanumeric c || Ascii.eqb c "-"%char || Ascii.eqb c "."%char) s = true.
Proof.
  assert (∀ l, valid_label l = true → str_all (λ c, is_ascii_alphanumeric c || Ascii.eqb c "-"%char) l = true) as Hl.
  { unfold valid_label. intros l H. by apply andb_prop in H as [_ H]. }
  assert (∀ ls, forallb valid_label ls = true → forallb (str_all (λ c, is_ascii_alphanumeric c || Ascii.eqb c "-"%char)) ls = true) as Hls.
  { intros ls. rewrite !forallb_forall. auto. }
  intros H%Hls. clear Hl Hls. revert H. induction s as [|c s IH]; [done|].
  cbn [split_char]. destruct (Ascii.eqb_spec c "."%char) as [->|Hc].
  - cbn. exact IH.
  - destruct (split_char "."%char s) as [|f fs]; cbn; rewrite !andb_true_iff.
    + intros [[H _] _]. rewrite H. cbn. split; [done|]. by apply IH.
    + intros [[H ?] ?]. rewrite H. cbn. split; [done|]. apply IH. cbn. by rewrite !andb_true_iff.
Qed.
Lemma str_all_lower f s :
  str_all f (to_ascii_lowercase s) = true → str_all (λ c, f c && Ascii.eqb (ascii_lower c) c) (to_ascii_lowercase s) = true.
Proof.
  induction s as [|c s IH]; cbn; [done|]. rewrite !andb_true_iff. intros [? ?].
  split; [|by apply IH]. split; [done|]. apply Ascii.eqb_eq, lower_idem.
Qed.
Lemma normalize_domain_inv d h :
  normalize_domain d = Some h →
  h ≠ "" ∧ str_len h ≤ 253 ∧ forallb valid_label (split_char "."%char h) = true ∧ str_all domain_byte h = true.
Proof.
  unfold normalize_domain. cbv zeta. destruct (negb _ && _ && _) eqn:E; [|done].
  intros [= <-]. apply andb_prop in E as [[? ?]%andb_prop Hls].
  split_and!; [|lia|done|].
  - intros Hh. by rewrite Hh in *.
  - by apply str_all_lower, labels_bytes.
Qed.
(** A text without a trailing dot *)
Lemma trim_end_matches_avoid c s : ends_with (String c "") s = false → trim_end_matches c s = s.
Proof.
  intros H. unfold trim_end_matches, ends_with in *. rewrite <- (str_rev_involutive s) at 2. f_equal.
  destruct (String.rev s) as [|d t]; [done|]. cbn in H |- *.
  destruct (Ascii.ascii_dec c d) as [->|Hn]; [by destruct t|]. by rewrite (proj2 (Ascii.eqb_neq d c)) by congruence.
Qed.
Lemma split_char_not_nil c s : split_char c s ≠ [].
Proof. destruct s as [|d s]; cbn; [done|]. by destruct (Ascii.eqb d c), (split_char c s). Qed.
Lemma split_char_ends s : forallb valid_label (split_char "."%char s) = true → ends_with "." s = false.
Proof.
  intros H. apply not_true_iff_false. rewrite ends_with_spec. intros [t ->]. revert H.
  assert (∀ t, ∃ ls, split_char "."%char (t ++ ".")%string = (ls ++ [""])%list) as Hs.
  { clear t. intros t. induction t as [|c t [ls IH]]; [by exists [""]|].
    change (String c t ++ ".")%string with (String c (t ++ ".")). cbn [split_char]. rewrite IH.
    destruct (Ascii.eqb c "."%char); [by exists ("" :: ls)|]. destruct ls as [|l ls]; [|by exists (String c l :: ls)].
    exfalso. destruct t as [|d t]; [done|]. change (String d t ++ ".")%string with (String d (t ++ ".")) in IH.
    cbn [split_char] in IH. pose proof (split_char_not_nil "."%char (t ++ ".")) as Hn.
    destruct (Ascii.eqb d "."%char), (split_char "."%char (t ++ ".")); done. }
  destruct (Hs t) as [ls ->]. rewrite forallb_app. cbn. by rewrite andb_false_r.
Qed.
Lemma normalize_fixed d h : normalize_domain d = Some h → normalize_domain h = Some h.
Proof.
  intros H. apply normalize_domain_inv in H as (Hne & Hlen & Hls & Hb). unfold normalize_domain.
  rewrite trim_domain by done. rewrite trim_end_matches_avoid by by apply split_char_ends.
  rewrite to_lower_fixed by done. cbv zeta. rewrite Hls. unfold is_empty. rewrite (proj2 (String.eqb_neq h "")) by done.
  rewrite (proj2 (Z.leb_le _ _)) by done. done.
Qed.

(** A domain the user approves in a permission prompt is normalised by the gate
    with a copy of this grammar. *)
Lemma same_domain_grammar s : PermissionRules.normalize_domain (JString s) = normalize_domain s.
Proof.
  unfold PermissionRules.normalize_domain, normalize_domain. cbn [as_str]. cbv zeta.
  set (d := to_ascii_lowercase _). replace (253 <? str_len d) with (negb (str_len d <=? 253)) by lia.
  assert (∀ ls, existsb (λ l, negb (PermissionRules.valid_label l)) ls = negb (forallb valid_label ls)) as ->.
  { induction ls as [|l ls IH]; [done|]. cbn [existsb forallb]. rewrite IH, negb_andb. done. }
  by destruct (is_empty d), (str_len d <=? 253), (forallb valid_label _).
Qed.

(** * The decision *)

(** [h] is the domain [d] or below it. *)
Definition within_domain (d h : string) : Prop := h = d ∨ ∃ sub, h = (sub ++ "." ++ d)%string.
Lemma domain_covers_spec d h : domain_covers d h = true ↔ within_domain d h.
Proof.
  unfold domain_covers, within_domain. rewrite orb_true_iff, String.eqb_eq. apply or_iff_compat_l. split.
  - destruct (strip_suffix d h) as [p|] eqn:E; [|done]. apply strip_suffix_inv in E as ->.
    intros [t ->]%ends_with_spec. exists t. by rewrite str_app_assoc.
  - intros [sub ->]. rewrite <- str_app_assoc, strip_suffix_app. apply ends_with_spec. by eexists.
Qed.
Lemma allows_domain_spec policy host :
  allows_domain policy host = true ↔
  ∃ h d, normalize_domain host = Some h ∧ d ∈ allowed_domains policy ∧ within_domain d h.
Proof.
  unfold allows_domain. destruct (normalize_domain host) as [h|]; [|by split; [|intros (? & ? & ? & _)]].
  rewrite existsb_exists. split.
  - intros (d & Hd & Hc). exists h, d. by rewrite <- domain_covers_spec, <- elem_of_elements, list_elem_of_In.
  - intros (? & d & [= <-] & Hd & Hc). exists d. by rewrite domain_covers_spec, <- list_elem_of_In, elem_of_elements.
Qed.
Lemma evaluate_allowed policy host addresses :
  evaluate policy host addresses = Allowed ↔
  addresses ≠ [] ∧ (allow_private_destinations policy = true ∨ Forall (λ a, is_public_ip a = true) addresses)
  ∧ ∃ h d, normalize_domain host = Some h ∧ d ∈ allowed_domains policy ∧ within_domain d h.
Proof.
  unfold evaluate.
  assert (existsb (λ a, negb (is_public_ip a)) addresses = false ↔ Forall (λ a, is_public_ip a = true) addresses) as He.
  { induction addresses as [|a l IH]; cbn; [done|]. rewrite orb_false_iff, negb_false_iff, IH, Forall_cons. done. }
  assert (∀ h, normalize_domain host = Some h → allows_domain policy h = allows_domain policy host) as Hn.
  { intros h Hh. unfold allows_domain. by rewrite Hh, (normalize_fixed _ _ Hh). }
  rewrite <- allows_domain_spec, <- He. destruct (normalize_domain host) as [h|] eqn:Eh.
  - rewrite (Hn h) by done. destruct addresses, (allow_private_destinations policy), (existsb _ _), (allows_domain _ _);
      cbn; naive_solver.
  - unfold allows_domain. rewrite Eh. split; [by destruct (_ || _)|naive_solver].
Qed.

(** Every entry of the allow-list is a domain in normal form; a bad entry is
    dropped. *)
Definition policy_ok (policy : EgressPolicy) : Prop :=
  ∀ d, d ∈ allowed_domains policy → normalize_domain d = Some d.
Lemma egress_new_ok domains : policy_ok (egress_new domains).
Proof.
  intros d. cbn. rewrite elem_of_list_to_set, list_elem_of_omap. intros (x & _ & Hx). by eapply normalize_fixed.
Qed.
Lemma allow_domain_ok policy domain : policy_ok policy → policy_ok (fst (allow_domain policy domain)).
Proof.
  unfold allow_domain. intros H. destruct (normalize_domain domain) as [d|] eqn:E; [|done]. intros x. cbn.
  rewrite elem_of_union, elem_of_singleton. intros [->|Hx]; [by eapply normalize_fixed|by apply H].
Qed.

(** * The addresses, as blocks of numbers *)

Definition v4_bits (x : Ipv4Addr) : Z := ((oct_a x * 256 + oct_b x) * 256 + oct_c x) * 256 + oct_d x.
Definition v6_prefix (k : nat) (x : Ipv6Addr) : Z :=
  foldl (λ n segment, n * 65536 + segment) 0
        (take k [seg0 x; seg1 x; seg2 x; seg3 x; seg4 x; seg5 x; seg6 x; seg7 x]).
Definition v6_bits (x : Ipv6Addr) : Z := v6_prefix 8 x.
Definition octet (n : Z) : Prop := 0 ≤ n < 256.
Definition segment (n : Z) : Prop := 0 ≤ n < 65536.
Definition v4_ok (x : Ipv4Addr) : Prop := octet (oct_a x) ∧ octet (oct_b x) ∧ octet (oct_c x) ∧ octet (oct_d x).
Definition v6_ok (x : Ipv6Addr) : Prop :=
  segment (seg0 x) ∧ segment (seg1 x) ∧ segment (seg2 x) ∧ segment (seg3 x)
  ∧ segment (seg4 x) ∧ segment (seg5 x) ∧ segment (seg6 x) ∧ segment (seg7 x).

(** [n] is in the block [base/len] of [width]-bit addresses. *)
Definition in_block (width n base len : Z) : bool :=
  Z.shiftr n (width - len) =? Z.shiftr base (width - len).
Definition dotted (a b c d : Z) : Z := v4_bits (mkV4 a b c d).
(** Blocks that are not public: this network, private use, shared address
    space, loopback, link local, protocol assignments, the three documentation
    blocks, benchmarking, multicast and reserved *)
Definition reserved_v4 : list (Z * Z) :=
  [(dotted 0 0 0 0, 8); (dotted 10 0 0 0, 8); (dotted 100 64 0 0, 10); (dotted 127 0 0 0, 8);
   (dotted 169 254 0 0, 16); (dotted 172 16 0 0, 12); (dotted 192 0 0 0, 24); (dotted 192 0 2 0, 24);
   (dotted 192 168 0 0, 16); (dotted 198 18 0 0, 15); (dotted 198 51 100 0, 24); (dotted 203 0 113 0, 24);
   (dotted 224 0 0 0, 4); (dotted 240 0 0 0, 4)].
Definition public_v4_number (n : Z) : bool := negb (existsb (λ '(base, len), in_block 32 n base len) reserved_v4).

(** Blocks of 128-bit numbers, by their first two segments: translation with a
    local prefix, Teredo, documentation, unique local, link local, multicast *)
Definition words (high low : Z) : Z := Z.shiftl (high * 65536 + low) 96.
Definition reserved_v6 : list (Z * Z) :=
  [(words 0x64 0xff9b, 32); (words 0x2001 0, 32); (words 0x2001 0xdb8, 32); (words 0xfc00 0, 7); (words 0xfe80 0, 10);
   (words 0xff00 0, 8)].
(** The IPv4 address a transition format carries: the mapped and the compatible
    addresses, the well-known translation prefix, 6to4 and ISATAP *)
Definition carried_v4 (n : Z) : option Z :=
  if in_block 128 n (Z.shiftl 0xffff 32) 96 || in_block 128 n 0 96 || in_block 128 n (words 0x64 0xff9b) 96
  then Some (n mod 2 ^ 32)
  else if in_block 128 n (words 0x64 0xff9b) 32 then None
  else if in_block 128 n (words 0x2002 0) 16 then Some (Z.shiftr n 80 mod 2 ^ 32)
  else if (Z.shiftr n 32 mod 2 ^ 32 =? 0x5efe) || (Z.shiftr n 32 mod 2 ^ 32 =? 0x02005efe) then Some (n mod 2 ^ 32)
  else None.
(** The other blocks that are not globally reachable, which the code does not
    check: discard only, protocol assignments, documentation, segment routing and
    the deprecated site-local block *)
Definition unchecked_v6 : list (Z * Z) :=
  [(words 0x100 0, 63); (words 0x2001 0, 23); (words 0x3fff 0, 20); (words 0x5f00 0, 16); (words 0xfec0 0, 10)].
Definition in_blocks (n : Z) (blocks : list (Z * Z)) : bool := existsb (λ '(base, len), in_block 128 n base len) blocks.
Definition checked_v6_number (n : Z) : bool :=
  match carried_v4 n with
  | Some carried => public_v4_number carried
  | None => negb (in_blocks n reserved_v6)
  end.
(** A number that is in none of the blocks *)
Definition public_v6_number (n : Z) : bool :=
  match carried_v4 n with
  | Some carried => public_v4_number carried
  | None => negb (in_blocks n (reserved_v6 ++ unchecked_v6))
  end.
Definition unchecked_v6_number (n : Z) : bool :=
  match carried_v4 n with Some _ => false | None => in_blocks n unchecked_v6 && negb (in_blocks n reserved_v6) end.
Lemma checked_v6_public n : unchecked_v6_number n = false → checked_v6_number n = public_v6_number n.
Proof.
  unfold unchecked_v6_number, checked_v6_number, public_v6_number. destruct (carried_v4 n); [done|]. unfold in_blocks.
  rewrite existsb_app. by destruct (existsb _ reserved_v6), (existsb _ unchecked_v6).
Qed.

(** Membership in a block, by the octets *)
Lemma v4_shifts x :
  v4_ok x →
  Z.shiftr (v4_bits x) 24 = oct_a x ∧ Z.shiftr (v4_bits x) 16 = oct_a x * 256 + oct_b x
  ∧ Z.shiftr (v4_bits x) 8 = (oct_a x * 256 + oct_b x) * 256 + oct_c x
  ∧ Z.shiftr (v4_bits x) 28 = oct_a x / 16 ∧ Z.shiftr (v4_bits x) 22 = oct_a x * 4 + oct_b x / 64
  ∧ Z.shiftr (v4_bits x) 20 = oct_a x * 16 + oct_b x / 16 ∧ Z.shiftr (v4_bits x) 17 = oct_a x * 128 + oct_b x / 2.
Proof.
  intros (?&?&?&?). unfold octet, v4_bits in *. rewrite !Z.shiftr_div_pow2 by done.
  change (2 ^ 24) with 16777216. change (2 ^ 16) with 65536. change (2 ^ 8) with 256. change (2 ^ 28) with 268435456.
  change (2 ^ 22) with 4194304. change (2 ^ 20) with 1048576. change (2 ^ 17) with 131072.
  split_and!; Z.div_mod_to_equations; lia.
Qed.
Ltac pick_disjunct :=
  lazymatch goal with
  | |- _ ∨ _ => first [left; pick_disjunct | right; pick_disjunct]
  | |- _ ∧ _ => split; pick_disjunct
  | |- _ => lia
  end.
Lemma public_v4_blocks x : v4_ok x → is_public_v4 x = public_v4_number (v4_bits x).
Proof.
  intros Hok. unfold is_public_v4, public_v4_number. f_equal. apply eq_true_iff_eq.
  unfold v4_is_private, v4_is_loopback, v4_is_link_local, v4_is_broadcast, v4_is_documentation, v4_is_unspecified,
    v4_is_multicast, reserved_v4. cbn [existsb]. unfold in_block.
  destruct (v4_shifts x Hok) as (E24 & E16 & E8 & E28 & E22 & E20 & E17).
  change (32 - 8) with 24; change (32 - 10) with 22; change (32 - 16) with 16; change (32 - 12) with 20;
    change (32 - 24) with 8; change (32 - 15) with 17; change (32 - 4) with 28.
  rewrite E24, E16, E8, E28, E22, E20, E17.
  repeat match goal with |- context [Z.shiftr (dotted ?a ?b ?c ?d) ?k] =>
    let v := eval vm_compute in (Z.shiftr (dotted a b c d) k) in
    change (Z.shiftr (dotted a b c d) k) with v end.
  destruct Hok as (?&?&?&?); unfold octet in *.
  rewrite !orb_true_iff, !andb_true_iff, !Z.eqb_eq, !Z.leb_le.
  split; intros Hx; repeat destruct Hx as [Hx|Hx]; try done; Z.div_mod_to_equations; pick_disjunct.
Qed.
Lemma embedded_number high low :
  segment high → segment low →
  v4_ok (embedded_ipv4 high low) ∧ v4_bits (embedded_ipv4 high low) = high * 65536 + low.
Proof.
  unfold segment, embedded_ipv4, v4_ok, octet, v4_bits, high_byte, low_byte. cbn [oct_a oct_b oct_c oct_d]. intros ? ?.
  change 255 with (Z.ones 8). rewrite !Z.land_ones, !Z.shiftr_div_pow2 by done. change (2 ^ 8) with 256.
  split; Z.div_mod_to_equations; lia.
Qed.
Lemma v6_step n s : segment s → Z.shiftr (n * 65536 + s) 16 = n.
Proof. unfold segment. intros. rewrite Z.shiftr_div_pow2 by done. change (2 ^ 16) with 65536. Z.div_mod_to_equations. lia. Qed.
(** The first segments, by shifting the others out *)
Lemma v6_shifts x :
  v6_ok x →
  Z.shiftr (v6_bits x) 32 = v6_prefix 6 x ∧ Z.shiftr (v6_bits x) 80 = v6_prefix 3 x
  ∧ Z.shiftr (v6_bits x) 96 = v6_prefix 2 x ∧ Z.shiftr (v6_bits x) 112 = v6_prefix 1 x.
Proof.
  intros (?&?&?&?&?&?&?&?). unfold v6_bits, v6_prefix. cbn [take foldl].
  assert (∀ n k, 0 ≤ k → Z.shiftr n (16 + k) = Z.shiftr (Z.shiftr n 16) k) as Hs by (intros; by rewrite Z.shiftr_shiftr).
  change 32 with (16 + 16) at 1. change 80 with (16 + (16 + (16 + (16 + 16)))) at 1.
  change 96 with (16 + (16 + (16 + (16 + (16 + 16))))) at 1.
  change 112 with (16 + (16 + (16 + (16 + (16 + (16 + 16)))))) at 1.
  rewrite !Hs by done. by rewrite !v6_step by done.
Qed.
(** The numbers below 65536, by their two bytes *)
Definition all_octets : list Z := map Z.of_nat (seq 0 256).
Definition all_segments : list Z := flat_map (λ high, map (λ low, high * 256 + low) all_octets) all_octets.
Lemma all_octets_complete n : octet n → In n all_octets.
Proof. unfold octet, all_octets. intros. apply in_map_iff. exists (Z.to_nat n). rewrite in_seq. lia. Qed.
Lemma all_segments_complete (f : Z → bool) : forallb f all_segments = true → ∀ s, segment s → f s = true.
Proof.
  rewrite forallb_forall. unfold segment. intros H s Hs. apply H. unfold all_segments. apply in_flat_map.
  exists (s / 256). split; [apply all_octets_complete; unfold octet; Z.div_mod_to_equations; lia|].
  apply in_map_iff. exists (s mod 256). split; [Z.div_mod_to_equations; lia|].
  apply all_octets_complete. unfold octet. Z.div_mod_to_equations; lia.
Qed.
Lemma v6_masks s :
  segment s →
  (Z.land s 0xff00 =? 0xff00) = (Z.shiftr s 8 =? 0xff) ∧ (Z.land s 0xfe00 =? 0xfc00) = (Z.shiftr s 9 =? 0x7e)
  ∧ (Z.land s 0xffc0 =? 0xfe80) = (Z.shiftr s 6 =? 0x3fa).
Proof.
  intros Hs. enough (Bool.eqb (Z.land s 0xff00 =? 0xff00) (Z.shiftr s 8 =? 0xff)
     && (Bool.eqb (Z.land s 0xfe00 =? 0xfc00) (Z.shiftr s 9 =? 0x7e)
     && Bool.eqb (Z.land s 0xffc0 =? 0xfe80) (Z.shiftr s 6 =? 0x3fa)) = true) as H.
  { by apply andb_prop in H as [?%eqb_prop [?%eqb_prop ?%eqb_prop]%andb_prop]. }
  revert s Hs. apply all_segments_complete. vm_compute. reflexivity.
Qed.
(** The tests of the code, as membership in blocks *)
Lemma v6_tests x :
  v6_ok x →
  in_block 128 (v6_bits x) (Z.shiftl 0xffff 32) 96 =
    (seg0 x =? 0) && (seg1 x =? 0) && (seg2 x =? 0) && (seg3 x =? 0) && (seg4 x =? 0) && (seg5 x =? 0xffff)
  ∧ in_block 128 (v6_bits x) 0 96 =
    (seg0 x =? 0) && (seg1 x =? 0) && (seg2 x =? 0) && (seg3 x =? 0) && (seg4 x =? 0) && (seg5 x =? 0)
  ∧ in_block 128 (v6_bits x) (words 0x64 0xff9b) 96 =
    (seg0 x =? 0x64) && (seg1 x =? 0xff9b) && ((seg2 x =? 0) && (seg3 x =? 0) && (seg4 x =? 0) && (seg5 x =? 0)).
Proof.
  intros Hok. destruct (v6_shifts x Hok) as (E32 & _). unfold in_block. change (128 - 96) with 32. rewrite E32.
  unfold v6_prefix. cbn [take foldl]. destruct Hok as (?&?&?&?&?&?&?&?). unfold segment in *.
  split_and!; apply eq_true_iff_eq; rewrite !andb_true_iff, !Z.eqb_eq.
  - change (Z.shiftr (Z.shiftl 0xffff 32) 32) with 0xffff. lia.
  - change (Z.shiftr 0 32) with 0. lia.
  - let v := eval vm_compute in (Z.shiftr (words 0x64 0xff9b) 32) in change (Z.shiftr (words 0x64 0xff9b) 32) with v. lia.
Qed.
Lemma v6_heads x high low :
  v6_ok x → segment high → segment low →
  in_block 128 (v6_bits x) (words high low) 32 = (seg0 x =? high) && (seg1 x =? low)
  ∧ in_block 128 (v6_bits x) (words high low) 16 = (seg0 x =? high)
  ∧ ∀ k, 0 ≤ k ≤ 16 → in_block 128 (v6_bits x) (words high 0) (16 - k) = (Z.shiftr (seg0 x) k =? Z.shiftr high k).
Proof.
  intros Hok Hh Hl. destruct (v6_shifts x Hok) as (_ & _ & E96 & E112). unfold in_block, words.
  change (128 - 32) with 96. change (128 - 16) with (16 + 96). rewrite <- (Z.shiftr_shiftr _ 16 96) by lia.
  assert (∀ n, Z.shiftr (Z.shiftl n 96) 96 = n) as Hsl by (intros; by rewrite Z.shiftr_shiftl_l).
  replace (Z.shiftr (Z.shiftl (high * 65536 + low) 96) (16 + 96)) with high.
  2: { change (16 + 96) with (96 + 16). rewrite <- Z.shiftr_shiftr by lia. by rewrite Hsl, v6_step. }
  rewrite Hsl, E96. rewrite (Z.shiftr_shiftr _ 16 96) by lia. change (16 + 96) with 112. rewrite E112.
  unfold v6_prefix. cbn [take foldl]. destruct Hok as (?&?&_). unfold segment in *.
  split_and!; [apply eq_true_iff_eq; rewrite ?andb_true_iff, !Z.eqb_eq; lia..|].
  intros k Hk. replace (128 - (16 - k)) with (112 + k) by lia. rewrite <- !(Z.shiftr_shiftr _ 112 k) by lia. rewrite E112.
  unfold v6_prefix. cbn [take foldl]. replace (Z.shiftr (Z.shiftl (high * 65536 + 0) 96) 112) with high; [done|].
  change 112 with (96 + 16). rewrite <- Z.shiftr_shiftr by lia. rewrite Hsl, v6_step by done. done.
Qed.
Lemma v6_parts x :
  v6_ok x →
  v6_bits x mod 2 ^ 32 = seg6 x * 65536 + seg7 x ∧ Z.shiftr (v6_bits x) 32 mod 2 ^ 32 = seg4 x * 65536 + seg5 x
  ∧ Z.shiftr (v6_bits x) 80 mod 2 ^ 32 = seg1 x * 65536 + seg2 x.
Proof.
  intros Hok. destruct (v6_shifts x Hok) as (E32 & E80 & _). rewrite E32, E80. destruct Hok as (?&?&?&?&?&?&?&?).
  unfold v6_bits, v6_prefix, segment in *. cbn [take foldl]. change (2 ^ 32) with 4294967296.
  assert (∀ n a b, 0 ≤ a < 65536 → 0 ≤ b < 65536 → ((n * 65536 + a) * 65536 + b) mod 4294967296 = a * 65536 + b) as Hm.
  { intros n a b ? ?. Z.div_mod_to_equations. lia. }
  by rewrite !Hm.
Qed.
Lemma checked_v6_blocks x : v6_ok x → is_public_v6 x = checked_v6_number (v6_bits x).
Proof.
  intros Hok. pose proof Hok as (Hs0 & Hs1 & Hs2 & Hs3 & Hs4 & Hs5 & Hs6 & Hs7).
  destruct (embedded_number (seg6 x) (seg7 x)) as [Hok67 E67]; [done..|].
  destruct (embedded_number (seg1 x) (seg2 x)) as [Hok12 E12]; [done..|].
  destruct (v6_tests x Hok) as (T1 & T2 & T3). destruct (v6_parts x Hok) as (P67 & P45 & P12).
  assert (∀ a b, 0 ≤ a < 65536 → 0 ≤ b < 65536 → segment a ∧ segment b) as Hseg by done.
  unfold is_public_v6, checked_v6_number, carried_v4, to_ipv4_mapped, in_blocks.
  rewrite T1, T2, T3, P67, P45, P12, (proj1 (v6_heads x 0x64 0xff9b Hok ltac:(done) ltac:(done))).
  rewrite (proj1 (proj2 (v6_heads x 0x2002 0 Hok ltac:(done) ltac:(done)))).
  rewrite (public_v4_blocks _ Hok67), (public_v4_blocks _ Hok12), E67, E12.
  replace (seg4 x * 65536 + seg5 x =? 0x5efe) with ((seg4 x =? 0) && (seg5 x =? 0x5efe)) by (unfold segment in *; lia).
  replace (seg4 x * 65536 + seg5 x =? 0x02005efe) with ((seg4 x =? 0x200) && (seg5 x =? 0x5efe)) by (unfold segment in *; lia).
  rewrite <- andb_orb_distrib_l.
  destruct ((seg0 x =? 0) && _ && _ && _ && _ && (seg5 x =? 0xffff)); cbn [orb]; [by rewrite (public_v4_blocks _ Hok67), E67|].
  destruct ((seg0 x =? 0) && _ && _ && _ && _ && (seg5 x =? 0)) eqn:Ezero; cbn [orb]; [done|].
  destruct ((seg0 x =? 0x64) && (seg1 x =? 0xff9b)) eqn:Enat; cbn [andb].
  - destruct ((seg2 x =? 0) && _ && _ && _); cbn [andb orb]; [done|].
    unfold reserved_v6. cbn [existsb]. rewrite (proj1 (v6_heads x 0x64 0xff9b Hok ltac:(done) ltac:(done))), Enat. done.
  - destruct (seg0 x =? 0x2002); [done|]. destruct (_ && (seg5 x =? 0x5efe)); [done|].
    f_equal. unfold reserved_v6. cbn [existsb].
    rewrite (proj1 (v6_heads x 0x64 0xff9b Hok ltac:(done) ltac:(done))), Enat.
    rewrite (proj1 (v6_heads x 0x2001 0 Hok ltac:(done) ltac:(done))), (proj1 (v6_heads x 0x2001 0xdb8 Hok ltac:(done) ltac:(done))).
    pose proof (proj2 (proj2 (v6_heads x 0xfc00 0 Hok ltac:(done) ltac:(done))) 9 ltac:(lia)) as M9.
    change (16 - 9) with 7 in M9. rewrite M9.
    pose proof (proj2 (proj2 (v6_heads x 0xfe80 0 Hok ltac:(done) ltac:(done))) 6 ltac:(lia)) as M6.
    change (16 - 6) with 10 in M6. rewrite M6.
    pose proof (proj2 (proj2 (v6_heads x 0xff00 0 Hok ltac:(done) ltac:(done))) 8 ltac:(lia)) as M8.
    change (16 - 8) with 8 in M8. rewrite M8.
    unfold v6_is_multicast, v6_is_unique_local, v6_is_unicast_link_local.
    destruct (v6_masks (seg0 x) Hs0) as (-> & -> & ->).
    change (Z.shiftr 0xff00 8) with 0xff. change (Z.shiftr 0xfc00 9) with 0x7e. change (Z.shiftr 0xfe80 6) with 0x3fa.
    unfold v6_is_loopback, v6_is_unspecified. rewrite !bool_decide_false by (intros ->; by vm_compute in Ezero).
    destruct (seg0 x =? 0x2001), (seg1 x =? 0), (seg1 x =? 0x0db8), (Z.shiftr (seg0 x) 9 =? _), (Z.shiftr (seg0 x) 6 =? _),
      (Z.shiftr (seg0 x) 8 =? _); reflexivity.
Qed.

(** * What a decision means *)

Definition address_ok (address : IpAddr) : Prop := match address with V4 x => v4_ok x | V6 x => v6_ok x end.
Definition public_number (address : IpAddr) : bool :=
  match address with V4 x => public_v4_number (v4_bits x) | V6 x => public_v6_number (v6_bits x) end.
(** An address in a block the code does not check *)
Definition unchecked (address : IpAddr) : bool :=
  match address with V4 _ => false | V6 x => unchecked_v6_number (v6_bits x) end.
Lemma public_blocks address : address_ok address → unchecked address = false → is_public_ip address = public_number address.
Proof.
  destruct address as [x|x]; cbn; [by intros; apply public_v4_blocks|]. intros Hok Hu.
  by rewrite checked_v6_blocks, checked_v6_public.
Qed.
(** What the code does with an address of such a block: it takes it for a public
    one. *)
Lemma unchecked_public address : address_ok address → unchecked address = true → is_public_ip address = true.
Proof.
  destruct address as [x|x]; [done|]. cbn. intros Hok Hu. rewrite checked_v6_blocks by done.
  unfold unchecked_v6_number, checked_v6_number in *. destruct (carried_v4 _); [done|]. by apply andb_prop in Hu as [_ Hu].
Qed.
(** The addresses the policy lets a connection reach *)
Definition reachable_addresses (policy : EgressPolicy) (addresses : list IpAddr) : Prop :=
  addresses ≠ [] ∧ (allow_private_destinations policy = true ∨ Forall (λ a, public_number a = true) addresses).
(** The name is in normal form [h] and the list has it or a domain above it. *)
Definition listed_domain (policy : EgressPolicy) (host : string) : Prop :=
  ∃ h d, normalize_domain host = Some h ∧ d ∈ allowed_domains policy ∧ within_domain d h.

Lemma public_all addresses :
  Forall (λ a, address_ok a ∧ unchecked a = false) addresses →
  Forall (λ a, is_public_ip a = true) addresses ↔ Forall (λ a, public_number a = true) addresses.
Proof.
  intros Hok. induction Hok as [|a l [Ha Hu] Hl IH]; [done|]. by rewrite !Forall_cons, IH, (public_blocks a).
Qed.
Lemma evaluate_approval policy host addresses :
  evaluate policy host addresses = ApprovalRequired ↔
  addresses ≠ [] ∧ (allow_private_destinations policy = true ∨ Forall (λ a, is_public_ip a = true) addresses)
  ∧ (∃ h, normalize_domain host = Some h) ∧ ¬ listed_domain policy host.
Proof.
  pose proof (evaluate_allowed policy host addresses) as Ha. unfold listed_domain.
  assert (evaluate policy host addresses ≠ HardDenied ↔
    addresses ≠ [] ∧ (allow_private_destinations policy = true ∨ Forall (λ a, is_public_ip a = true) addresses)
    ∧ ∃ h, normalize_domain host = Some h) as Hd.
  { clear Ha. unfold evaluate.
    assert (existsb (λ a, negb (is_public_ip a)) addresses = false ↔ Forall (λ a, is_public_ip a = true) addresses) as <-.
    { induction addresses as [|a l IH]; cbn; [done|]. rewrite orb_false_iff, negb_false_iff, IH, Forall_cons. done. }
    destruct addresses, (allow_private_destinations policy), (existsb _ _), (normalize_domain host); cbn;
      try case_match; naive_solver. }
  split.
  - intros E. destruct (proj1 Hd ltac:(congruence)) as (H1 & H2 & H3). split_and!; [done..|].
    intros Hl. rewrite (proj2 Ha (conj H1 (conj H2 Hl))) in E. done.
  - intros (H1 & H2 & H3 & Hn). destruct (evaluate policy host addresses); [|done|].
    + by destruct (proj1 Ha eq_refl) as (_ & _ & Hl).
    + by destruct (proj2 Hd (conj H1 (conj H2 H3))).
Qed.


(** An address of each of the blocks that are not checked *)
Example unchecked_pass :
  forallb (λ x, unchecked (V6 x) && bool_decide (evaluate egress_default "crates.io" [V6 x] = Allowed))
    [mkV6 0xfec0 0 0 0 0 0 0 1; mkV6 0x100 0 0 0 0 0 0 1; mkV6 0x2001 2 0 0 0 0 0 1; mkV6 0x3fff 0 0 0 0 0 0 1;
     mkV6 0x5f00 0 0 0 0 0 0 1] = true.
Proof. vm_compute. reflexivity. Qed.
