(* ===== verification/EgressHello.v ===== *)
(** The TLS ClientHello a tunnel starts with ([rw-sandbox/src/proxy.rs],
    [parse_client_hello_sni] and the functions it calls): the server name it
    asks for in plain text.

    Offsets are at most a few times 65536, so the additions the code checks for
    overflow do not overflow.  The loops run on fuel; each turn passes at least
    the header of an entry, so the length of the bytes is enough. *)
From Stdlib Require Import Ascii.
From S2P Require Import Prelude Text BashSafety Sse Egress.

Local Open Scope nat_scope.
Implicit Types (bytes handshake extension : Bytes) (offset : nat).

Definition byte_at bytes offset : option nat := nat_of_ascii <$> bytes !! offset.
Definition read_u16 bytes offset : option nat :=
  high ← byte_at bytes offset; low ← byte_at bytes (offset + 1); Some (high * 256 + low).
Definition slice bytes offset (stop : nat) : Bytes := take (stop - offset) (drop offset bytes).
Definition normalize_host (host : string) : option string := normalize_egress_domain host.
(** [std::str::from_utf8], then [normalize_host] *)
Definition host_name bytes : option string := if utf8_valid [] bytes then normalize_host (text_of bytes) else None.

Fixpoint server_name_loop (fuel : nat) extension offset (server_name : option string) : option string :=
  if offset <? length extension then
    match fuel with
    | O => None
    | S fuel =>
        if length extension <? offset + 3 then None
        else
          name_type ← byte_at extension offset;
          size ← read_u16 extension (offset + 1);
          let offset := offset + 3 in
          let stop := offset + size in
          if length extension <? stop then None
          else if name_type =? 0 then
            match server_name with
            | Some _ => None
            | None => name ← host_name (slice extension offset stop); server_name_loop fuel extension stop (Some name)
            end
          else server_name_loop fuel extension stop server_name
    end
  else server_name.
Definition parse_server_name_extension extension : option string :=
  list_length ← read_u16 extension 0;
  if negb (list_length + 2 =? length extension) then None
  else server_name_loop (length extension) extension 2 None.

Definition SERVER_NAME : Z := 0.
Definition ENCRYPTED_CLIENT_HELLO : Z := 0xfe0d.
Fixpoint extension_loop (fuel : nat) handshake (extensions_end : nat) offset (server_name : option string) (saw_ech : bool)
    : option string :=
  if offset <? extensions_end then
    match fuel with
    | O => None
    | S fuel =>
        if extensions_end <? offset + 4 then None
        else
          kind ← read_u16 handshake offset;
          size ← read_u16 handshake (offset + 2);
          let offset := offset + 4 in
          let stop := offset + size in
          if extensions_end <? stop then None
          else if (Z.of_nat kind =? SERVER_NAME)%Z then
            match server_name with
            | Some _ => None
            | None =>
                name ← parse_server_name_extension (slice handshake offset stop);
                extension_loop fuel handshake extensions_end stop (Some name) saw_ech
            end
          else extension_loop fuel handshake extensions_end stop server_name
                 ((Z.of_nat kind =? ENCRYPTED_CLIENT_HELLO)%Z || saw_ech)
    end
  else if saw_ech then None else server_name.
Definition parse_client_hello_sni handshake : option string :=
  if negb (bool_decide (byte_at handshake 0 = Some 1)) || (length handshake <? 39) then None
  else
    let offset := 38 in
    session_length ← byte_at handshake offset;
    let offset := offset + (1 + session_length) in
    cipher_length ← read_u16 handshake offset;
    let offset := offset + (2 + cipher_length) in
    compression_length ← byte_at handshake offset;
    let offset := offset + (1 + compression_length) in
    extensions_length ← read_u16 handshake offset;
    let offset := offset + 2 in
    let extensions_end := offset + extensions_length in
    if length handshake <? extensions_end then None
    else extension_loop (length handshake) handshake extensions_end offset None false.

(** * The format *)

Definition u16_bytes (n : nat) : Bytes := [ascii_of_nat (n / 256); ascii_of_nat (n mod 256)].
(** A block after its length *)
Definition block16 bytes : Bytes := (u16_bytes (length bytes) ++ bytes)%list.
Definition block8 bytes : Bytes := ascii_of_nat (length bytes) :: bytes.
Definition sized16 bytes : Prop := (Z.of_nat (length bytes) < 65536)%Z.
Definition sized8 bytes : Prop := length bytes < 256.

(** An entry of a server-name list: its type and its bytes *)
Definition name_entry (entry : nat * Bytes) : Bytes := ascii_of_nat entry.1 :: block16 entry.2.
Definition name_list (entries : list (nat * Bytes)) : Bytes := mjoin (name_entry <$> entries).
Definition name_entry_ok (entry : nat * Bytes) : Prop := entry.1 < 256 ∧ sized16 entry.2.
(** An extension: its kind and its bytes *)
Definition extension_entry (entry : nat * Bytes) : Bytes := (u16_bytes entry.1 ++ block16 entry.2)%list.
Definition extension_list (entries : list (nat * Bytes)) : Bytes := mjoin (extension_entry <$> entries).
Definition extension_ok (entry : nat * Bytes) : Prop := (Z.of_nat entry.1 < 65536)%Z ∧ sized16 entry.2.
(** The bytes of the entries with the given tag *)
Definition tagged (tag : Z) (entries : list (nat * Bytes)) : list Bytes :=
  snd <$> filter (λ entry, Z.of_nat entry.1 = tag) entries.

(** A server-name extension with the host name [name] *)
Definition names_host extension (name : string) : Prop :=
  ∃ entries host, extension = block16 (name_list entries) ∧ sized16 (name_list entries) ∧ Forall name_entry_ok entries
    ∧ tagged 0 entries = [host] ∧ host_name host = Some name.
(** A ClientHello (its type, length, version and random in [start]) that names
    the host [name] once, in plain text *)
Definition hello_names handshake (name : string) : Prop :=
  ∃ start session ciphers compression extensions rest sni,
    handshake = (start ++ block8 session ++ block16 ciphers ++ block8 compression
                 ++ block16 (extension_list extensions) ++ rest)%list
    ∧ length start = 38 ∧ start !! 0 = Some (ascii_of_nat 1)
    ∧ sized8 session ∧ sized16 ciphers ∧ sized8 compression ∧ sized16 (extension_list extensions)
    ∧ Forall extension_ok extensions
    ∧ tagged ENCRYPTED_CLIENT_HELLO extensions = [] ∧ tagged SERVER_NAME extensions = [sni] ∧ names_host sni name.

(** * Reading at an offset *)

Lemma drop_add {A} (l : list A) n m : drop (n + m) l = drop m (drop n l).
Proof. revert l. induction n as [|n IH]; intros [|x l]; cbn; [done..|by rewrite drop_nil|apply IH]. Qed.
Lemma byte_at_spec bytes offset n :
  byte_at bytes offset = Some n ↔ n < 256 ∧ drop offset bytes = ascii_of_nat n :: drop (offset + 1) bytes.
Proof.
  unfold byte_at. rewrite fmap_Some. split.
  - intros (c & Hc & ->). pose proof (nat_ascii_bounded c). split; [done|].
    rewrite ascii_nat_embedding, Nat.add_1_r. by apply drop_S.
  - intros [Hn Hd]. exists (ascii_of_nat n). rewrite nat_ascii_embedding by done. split; [|done].
    rewrite <- (Nat.add_0_r offset), <- lookup_drop, Hd. done.
Qed.
Lemma u16_split n : (Z.of_nat n < 65536)%Z → n / 256 < 256 ∧ n mod 256 < 256 ∧ n = n / 256 * 256 + n mod 256.
Proof. intros. pose proof (Nat.div_mod_eq n 256). pose proof (Nat.mod_upper_bound n 256 ltac:(lia)). lia. Qed.
Lemma read_u16_spec bytes offset n :
  read_u16 bytes offset = Some n ↔ (Z.of_nat n < 65536)%Z ∧ drop offset bytes = (u16_bytes n ++ drop (offset + 2) bytes)%list.
Proof.
  unfold read_u16. split.
  - destruct (byte_at bytes offset) as [h|] eqn:Eh; [|discriminate]. cbn [mbind option_bind].
    destruct (byte_at bytes (offset + 1)) as [l|] eqn:El; [|discriminate]. cbn [mbind option_bind].
    intros [= <-]. apply byte_at_spec in Eh as [? ->], El as [? ->]. split; [lia|]. unfold u16_bytes.
    rewrite <- (Nat.div_unique (h * 256 + l) 256 h l), <- (Nat.mod_unique (h * 256 + l) 256 h l) by lia.
    rewrite <- Nat.add_assoc. done.
  - intros [Hn Hd]. destruct (u16_split n Hn) as (Hh & Hl & E).
    assert (byte_at bytes offset = Some (n / 256)) as ->.
    { apply byte_at_spec. split; [done|]. rewrite Hd. cbn. f_equal. rewrite (drop_add bytes offset 1), Hd. done. }
    assert (byte_at bytes (offset + 1) = Some (n mod 256)) as ->.
    { apply byte_at_spec. split; [done|]. rewrite (drop_add bytes offset 1), Hd. cbn.
      by rewrite <- Nat.add_assoc. }
    cbn [mbind option_bind]. by rewrite <- E.
Qed.
Lemma slice_split bytes offset size :
  offset + size ≤ length bytes →
  length (slice bytes offset (offset + size)) = size
  ∧ drop offset bytes = (slice bytes offset (offset + size) ++ drop (offset + size) bytes)%list.
Proof.
  intros H. unfold slice. replace (offset + size - offset) with size by lia. split.
  - rewrite length_take, length_drop. lia.
  - by rewrite drop_add, take_drop.
Qed.
(** A block read by its length *)
Lemma read_block16 bytes offset size :
  read_u16 bytes offset = Some size → offset + 2 + size ≤ length bytes →
  let body := slice bytes (offset + 2) (offset + 2 + size) in
  sized16 body ∧ drop offset bytes = (block16 body ++ drop (offset + 2 + size) bytes)%list.
Proof.
  intros [Hn Hd]%read_u16_spec Hlen body. destruct (slice_split bytes (offset + 2) size Hlen) as [Hl Hs]. fold body in Hl, Hs.
  unfold sized16, block16. rewrite Hl. split; [done|]. by rewrite Hd, Hs, app_assoc.
Qed.
Lemma write_block16 bytes offset body rest :
  sized16 body → offset ≤ length bytes → drop offset bytes = (block16 body ++ rest)%list →
  read_u16 bytes offset = Some (length body) ∧ offset + 2 + length body ≤ length bytes
  ∧ slice bytes (offset + 2) (offset + 2 + length body) = body ∧ drop (offset + 2 + length body) bytes = rest.
Proof.
  intros Hs Ho Hd. assert (drop (offset + 2) bytes = (body ++ rest)%list) as Hd2 by by rewrite drop_add, Hd.
  split_and!.
  - apply read_u16_spec. split; [done|]. by rewrite Hd, Hd2.
  - apply (f_equal length) in Hd. rewrite length_drop in Hd. cbn [block16 u16_bytes app length] in Hd.
    rewrite length_app in Hd. lia.
  - unfold slice. replace (offset + 2 + length body - (offset + 2)) with (length body) by lia. rewrite Hd2.
    by rewrite take_app_length.
  - rewrite drop_add, Hd2. by rewrite drop_app_length.
Qed.
Lemma write_byte bytes offset n rest :
  n < 256 → drop offset bytes = ascii_of_nat n :: rest →
  byte_at bytes offset = Some n ∧ drop (offset + 1) bytes = rest ∧ offset + 1 ≤ length bytes.
Proof.
  intros Hn Hd. assert (drop (offset + 1) bytes = rest) as Hr by by rewrite drop_add, Hd. split_and!; [|done|].
  - apply byte_at_spec. by rewrite Hr.
  - apply (f_equal length) in Hd. rewrite length_drop in Hd. cbn in Hd. lia.
Qed.
Lemma write_u16 bytes offset n rest :
  (Z.of_nat n < 65536)%Z → drop offset bytes = (u16_bytes n ++ rest)%list →
  read_u16 bytes offset = Some n ∧ drop (offset + 2) bytes = rest ∧ offset + 2 ≤ length bytes.
Proof.
  intros Hn Hd. assert (drop (offset + 2) bytes = rest) as Hr by by rewrite drop_add, Hd. split_and!; [|done|].
  - apply read_u16_spec. by rewrite Hr.
  - apply (f_equal length) in Hd. rewrite length_drop in Hd. cbn in Hd. lia.
Qed.

(** * The server-name list *)

Lemma tagged_cons tag entry entries :
  tagged tag (entry :: entries) =
  (if decide (Z.of_nat entry.1 = tag) then entry.2 :: tagged tag entries else tagged tag entries).
Proof. unfold tagged. rewrite filter_cons. by case_decide. Qed.
(** What the entries still to read add to the name found so far *)
Definition names_rest (entries : list (nat * Bytes)) (found : option string) (name : string) : Prop :=
  match found with
  | Some found => tagged 0 entries = [] ∧ found = name
  | None => ∃ host, tagged 0 entries = [host] ∧ host_name host = Some name
  end.
Lemma names_sound fuel extension offset found name :
  offset ≤ length extension → server_name_loop fuel extension offset found = Some name →
  ∃ entries, drop offset extension = name_list entries ∧ Forall name_entry_ok entries ∧ names_rest entries found name.
Proof.
  revert offset found. induction fuel as [|fuel IH]; intros offset found Ho; cbn [server_name_loop];
    destruct (Nat.ltb_spec offset (length extension)) as [Hlt|Hge].
  1: discriminate.
  1,3: intros ->; exists []; rewrite drop_ge by lia; split_and!; [done|constructor|done].
  destruct (Nat.ltb_spec (length extension) (offset + 3)) as [|Hroom]; [discriminate|].
  destruct (byte_at extension offset) as [t|] eqn:Et; [|discriminate]. cbn [mbind option_bind].
  destruct (read_u16 extension (offset + 1)) as [size|] eqn:Es; [|discriminate]. cbn [mbind option_bind].
  destruct (Nat.ltb_spec (length extension) (offset + 3 + size)) as [|Hsize]; [discriminate|].
  apply byte_at_spec in Et as [Ht Hd]. replace (offset + 3) with (offset + 1 + 2) in * by lia.
  destruct (read_block16 _ _ _ Es Hsize) as [Hs Hb]. rewrite Hb in Hd.
  set (body := slice _ _ _) in *. set (stop := offset + 1 + 2 + size) in *.
  assert (∀ found', server_name_loop fuel extension stop found' = Some name →
    (∀ entries, names_rest entries found' name → names_rest ((t, body) :: entries) found name) →
    ∃ entries, drop offset extension = name_list entries ∧ Forall name_entry_ok entries ∧ names_rest entries found name) as Hgo.
  { intros found' (entries & He & Hok & Hr)%IH Hadd; [|done]. exists ((t, body) :: entries). split_and!.
    - rewrite Hd, He. done.
    - constructor; [|done]. done.
    - by apply Hadd. }
  unfold names_rest in *. destruct (Nat.eqb_spec t 0) as [->|Hnz].
  - destruct found as [f|]; [discriminate|]. destruct (host_name body) as [n|] eqn:En; [|discriminate]. cbn [mbind option_bind].
    intros H. apply (Hgo _ H). intros entries [Hr ->]. exists body. rewrite tagged_cons, decide_True, Hr; done.
  - intros H. apply (Hgo _ H). intros entries. rewrite tagged_cons, decide_False by (cbn; lia). done.
Qed.
Lemma names_complete fuel extension offset found name entries :
  offset ≤ length extension → drop offset extension = name_list entries → Forall name_entry_ok entries →
  length extension - offset ≤ fuel → names_rest entries found name →
  server_name_loop fuel extension offset found = Some name.
Proof.
  revert offset found entries. induction fuel as [|fuel IH]; intros offset found entries Ho Hd Hok Hfuel Hr;
    cbn [server_name_loop]; destruct (Nat.ltb_spec offset (length extension)) as [Hlt|Hge].
  1: lia.
  1,3: rewrite drop_ge in Hd by lia; destruct entries; [|discriminate]; destruct found; cbn in Hr; [by destruct Hr as [_ ->]|by destruct Hr as (? & ? & _)].
  destruct entries as [|[t body] entries].
  { apply (f_equal length) in Hd. rewrite length_drop in Hd. cbn in Hd. lia. }
  apply Forall_cons in Hok as [[Ht Hs] Hok]. cbn [fst snd] in Ht, Hs.
  change (name_list ((t, body) :: entries)) with (ascii_of_nat t :: (block16 body ++ name_list entries)%list) in Hd.
  apply write_byte in Hd as (-> & Hd & Hroom); [|done]. cbn [mbind option_bind].
  apply write_block16 in Hd as (-> & Hroom2 & Hbody & Hrest); [|done..]. cbn [mbind option_bind].
  destruct (Nat.ltb_spec (length extension) (offset + 3)) as [|_]; [lia|].
  replace (offset + 3) with (offset + 1 + 2) by lia. rewrite Hbody.
  destruct (Nat.ltb_spec (length extension) (offset + 1 + 2 + length body)) as [|_]; [lia|].
  unfold names_rest in Hr. rewrite tagged_cons in Hr. cbn [fst snd] in Hr. destruct (Nat.eqb_spec t 0) as [->|Hnz].
  - destruct found as [f|]; [by destruct Hr as [? _]|]. destruct Hr as (host & Hh & Hn).
    rewrite decide_True in Hh by done. injection Hh as <- Hh. rewrite Hn. cbn [mbind option_bind].
    apply (IH _ _ entries); [done..|lia|done].
  - apply (IH _ _ entries); [done..|lia|]. unfold names_rest. by rewrite decide_False in Hr by lia.
Qed.
Lemma server_name_exact extension name :
  parse_server_name_extension extension = Some name ↔ names_host extension name.
Proof.
  unfold parse_server_name_extension, names_host. split.
  - destruct (read_u16 extension 0) as [size|] eqn:Es; [|discriminate]. cbn [mbind option_bind].
    destruct (Nat.eqb_spec (size + 2) (length extension)) as [Hl|]; [|discriminate]. cbn [negb]. intros H.
    apply names_sound in H as (entries & He & Hok & host & Ht & Hn); [|lia]. exists entries, host.
    apply read_u16_spec in Es as [Hs Hd]. rewrite drop_0 in Hd. change (0 + 2) with 2 in Hd. rewrite He in Hd.
    assert (length (name_list entries) = size) as Hsize.
    { rewrite <- He, length_drop. lia. }
    split_and!; [|unfold sized16; by rewrite Hsize|done..]. unfold block16. by rewrite Hsize.
  - intros (entries & host & -> & Hs & Hok & Ht & Hn).
    destruct (write_block16 (block16 (name_list entries)) 0 (name_list entries) []) as (-> & _); [done|lia|by rewrite app_nil_r|].
    cbn [mbind option_bind]. assert (length (block16 (name_list entries)) = length (name_list entries) + 2) as Hl.
    { unfold block16. rewrite length_app. cbn. lia. }
    rewrite Hl, Nat.eqb_refl. cbn [negb]. apply (names_complete _ _ _ _ _ entries); [lia|done|done|lia|].
    exists host. done.
Qed.

(** * The extensions *)

Lemma slice_cons bytes offset stop last head :
  offset ≤ stop → stop ≤ last → length head = stop - offset →
  drop offset bytes = (head ++ drop stop bytes)%list → slice bytes offset last = (head ++ slice bytes stop last)%list.
Proof.
  intros H1 H2 Hl Hd. unfold slice. rewrite Hd, take_app, Hl. f_equal.
  - rewrite take_ge by lia. done.
  - f_equal. lia.
Qed.
Lemma slice_drop bytes offset last rest :
  offset ≤ last → last ≤ length bytes → slice bytes offset last = rest → drop offset bytes = (rest ++ drop last bytes)%list.
Proof.
  intros H1 H2 <-. replace last with (offset + (last - offset)) by lia.
  by destruct (slice_split bytes offset (last - offset)) as [_ <-]; [lia|].
Qed.
Definition extensions_rest (entries : list (nat * Bytes)) (found : option string) (ech : bool) (name : string) : Prop :=
  ech = false ∧ tagged ENCRYPTED_CLIENT_HELLO entries = []
  ∧ match found with
    | Some found => tagged SERVER_NAME entries = [] ∧ found = name
    | None => ∃ sni, tagged SERVER_NAME entries = [sni] ∧ names_host sni name
    end.
Lemma tagged_nil_rest entries found ech name :
  (if decide (entries = []) then True else False) → extensions_rest entries found ech name → ech = false ∧ found = Some name.
Proof.
  case_decide as H; [|done]. subst. intros _ (He & _ & Hf). split; [done|]. destruct found; [by destruct Hf as [_ ->]|].
  by destruct Hf as (? & ? & _).
Qed.
Lemma extensions_sound fuel handshake last offset found ech name :
  offset ≤ last → last ≤ length handshake → extension_loop fuel handshake last offset found ech = Some name →
  ∃ entries, slice handshake offset last = extension_list entries ∧ Forall extension_ok entries
    ∧ extensions_rest entries found ech name.
Proof.
  revert offset found ech. induction fuel as [|fuel IH]; intros offset found ech Ho Hlast; cbn [extension_loop];
    destruct (Nat.ltb_spec offset last) as [Hlt|Hge].
  1: discriminate.
  1,3: destruct ech; [discriminate|]; intros ->; exists []; unfold slice; replace (last - offset) with 0 by lia;
    split_and!; [done|constructor|done].
  destruct (Nat.ltb_spec last (offset + 4)) as [|Hroom]; [discriminate|].
  destruct (read_u16 handshake offset) as [kind|] eqn:Ek; [|discriminate]. cbn [mbind option_bind].
  destruct (read_u16 handshake (offset + 2)) as [size|] eqn:Es; [|discriminate]. cbn [mbind option_bind].
  destruct (Nat.ltb_spec last (offset + 4 + size)) as [|Hsize]; [discriminate|].
  apply read_u16_spec in Ek as [Hk Hd]. replace (offset + 4) with (offset + 2 + 2) in * by lia.
  destruct (read_block16 _ _ _ Es ltac:(lia)) as [Hs Hb]. rewrite Hb in Hd.
  assert (length (slice handshake (offset + 2 + 2) (offset + 2 + 2 + size)) = size) as Hlen by (apply slice_split; lia).
  set (body := slice _ _ _) in *. set (stop := offset + 2 + 2 + size) in *.
  assert (slice handshake offset last = (extension_entry (kind, body) ++ slice handshake stop last)%list) as Hslice.
  { apply slice_cons; [lia|done| |by rewrite Hd; unfold extension_entry; rewrite <- app_assoc].
    unfold extension_entry, block16. rewrite !length_app. cbn [fst snd u16_bytes length]. lia. }
  assert (∀ found' ech', extension_loop fuel handshake last stop found' ech' = Some name →
    (∀ entries, extensions_rest entries found' ech' name → extensions_rest ((kind, body) :: entries) found ech name) →
    ∃ entries, slice handshake offset last = extension_list entries ∧ Forall extension_ok entries
      ∧ extensions_rest entries found ech name) as Hgo.
  { intros found' ech' (entries & He & Hok & Hr)%IH Hadd; [|done..]. exists ((kind, body) :: entries). split_and!.
    - rewrite Hslice, He. done.
    - constructor; [|done]. done.
    - by apply Hadd. }
  unfold extensions_rest in *. destruct (Z.eqb_spec (Z.of_nat kind) SERVER_NAME) as [Hz|Hnz].
  - destruct found as [f|]; [discriminate|].
    destruct (parse_server_name_extension body) as [n|] eqn:En; [|discriminate]. cbn [mbind option_bind]. intros H.
    apply (Hgo _ _ H). intros entries (-> & He & Hr & ->). apply server_name_exact in En.
    rewrite !tagged_cons. cbn [fst snd]. rewrite (decide_False (P := _ = ENCRYPTED_CLIENT_HELLO)) by (rewrite Hz; discriminate).
    rewrite decide_True by done. split_and!; [done..|]. exists body. by rewrite Hr.
  - intros H. apply (Hgo _ _ H). intros entries (He & Ht & Hr). rewrite !tagged_cons. cbn [fst snd].
    apply orb_false_iff in He as [He ->]. apply Z.eqb_neq in He. rewrite !decide_False by done. done.
Qed.
Lemma extensions_complete fuel handshake last offset found ech name entries :
  offset ≤ last → last ≤ length handshake → slice handshake offset last = extension_list entries →
  Forall extension_ok entries → last - offset ≤ fuel → extensions_rest entries found ech name →
  extension_loop fuel handshake last offset found ech = Some name.
Proof.
  revert offset found ech entries. induction fuel as [|fuel IH]; intros offset found ech entries Ho Hlast Hd Hok Hfuel Hr;
    cbn [extension_loop]; destruct (Nat.ltb_spec offset last) as [Hlt|Hge].
  1: lia.
  1,3: unfold slice in Hd; replace (last - offset) with 0 in Hd by lia; destruct entries; [|discriminate];
    apply tagged_nil_rest in Hr as [-> ->]; [done|by rewrite decide_True].
  destruct entries as [|[kind body] entries].
  { apply (f_equal length) in Hd. unfold slice in Hd. rewrite length_take, length_drop in Hd. cbn in Hd. lia. }
  apply Forall_cons in Hok as [[Hk Hs] Hok]. cbn [fst snd] in Hk, Hs.
  assert (extension_list ((kind, body) :: entries) = (u16_bytes kind ++ (block16 body ++ extension_list entries))%list) as El.
  { reflexivity. }
  rewrite El in Hd. pose proof (f_equal length Hd) as Hlen. unfold slice in Hlen.
  rewrite length_take, length_drop, !length_app in Hlen. unfold block16 in Hlen. rewrite length_app in Hlen. cbn [u16_bytes length] in Hlen.
  apply slice_drop in Hd; [|done..]. rewrite <- app_assoc in Hd.
  apply write_u16 in Hd as (-> & Hd & Hroom); [|done]. cbn [mbind option_bind].
  rewrite <- app_assoc in Hd. apply write_block16 in Hd as (-> & Hroom2 & Hbody & Hrest); [|done..]. cbn [mbind option_bind].
  destruct (Nat.ltb_spec last (offset + 4)) as [|_]; [lia|].
  replace (offset + 4) with (offset + 2 + 2) by lia. rewrite Hbody.
  destruct (Nat.ltb_spec last (offset + 2 + 2 + length body)) as [|_]; [lia|].
  assert (slice handshake (offset + 2 + 2 + length body) last = extension_list entries) as Hnext.
  { unfold slice. rewrite Hrest. apply take_app_length'. lia. }
  destruct Hr as (-> & He & Hr). rewrite tagged_cons in He, Hr. cbn [fst snd] in He, Hr. destruct (decide (Z.of_nat kind = ENCRYPTED_CLIENT_HELLO)) as [|Hech]; [discriminate|].
  destruct (Z.eqb_spec (Z.of_nat kind) SERVER_NAME) as [Hz|Hnz].
  - rewrite decide_True in Hr by done. destruct found as [f|]; [by destruct Hr as [? _]|].
    destruct Hr as (sni & Hh & Hn). injection Hh as <- Hh. apply server_name_exact in Hn. rewrite Hn. cbn [mbind option_bind].
    apply (IH _ _ _ entries); [lia|done..|lia|]. split_and!; done.
  - rewrite decide_False in Hr by done. apply (IH _ _ _ entries); [lia|done..|lia|]. split_and!; [|done..].
    apply orb_false_iff. split; [by apply Z.eqb_neq|done].
Qed.

(** * The whole message *)

Lemma read_block8 bytes offset size :
  byte_at bytes offset = Some size → offset + 1 + size ≤ length bytes →
  let body := slice bytes (offset + 1) (offset + 1 + size) in
  sized8 body ∧ drop offset bytes = (block8 body ++ drop (offset + 1 + size) bytes)%list.
Proof.
  intros [Hn Hd]%byte_at_spec Hlen body. destruct (slice_split bytes (offset + 1) size Hlen) as [Hl Hs]. fold body in Hl, Hs.
  unfold sized8, block8. rewrite Hl. split; [done|]. by rewrite Hd, Hs.
Qed.
Lemma write_block8 bytes offset body rest :
  sized8 body → drop offset bytes = (block8 body ++ rest)%list →
  byte_at bytes offset = Some (length body) ∧ drop (offset + 1 + length body) bytes = rest
  ∧ offset + 1 + length body ≤ length bytes.
Proof.
  intros Hs Hd. pose proof (f_equal length Hd) as Hl. rewrite length_drop, length_app in Hl. cbn [block8 length] in Hl.
  apply (write_byte bytes offset (length body) (body ++ rest)) in Hd as (Hb & Hd & _); [|done]. split_and!; [done| |lia].
  rewrite drop_add, Hd. by rewrite drop_app_length.
Qed.
Lemma read_u16_room bytes offset n : read_u16 bytes offset = Some n → offset + 2 ≤ length bytes.
Proof. intros [_ H]%read_u16_spec. apply (f_equal length) in H. rewrite length_app, !length_drop in H. cbn in H. lia. Qed.
Lemma byte_at_room bytes offset n : byte_at bytes offset = Some n → offset + 1 ≤ length bytes.
Proof. intros [_ H]%byte_at_spec. apply (f_equal length) in H. cbn in H. rewrite !length_drop in H. lia. Qed.

Lemma hello_sound handshake name : parse_client_hello_sni handshake = Some name → hello_names handshake name.
Proof.
  unfold parse_client_hello_sni, hello_names. case_bool_decide as Hone; [|discriminate].
  destruct (Nat.ltb_spec (length handshake) 39) as [|Hlen]; [discriminate|]. cbn [negb orb]. cbv zeta.
  destruct (byte_at handshake 38) as [n1|] eqn:E1; [|discriminate]. cbn [mbind option_bind].
  rewrite Nat.add_assoc. destruct (read_u16 handshake (38 + 1 + n1)) as [n2|] eqn:E2; [|discriminate]. cbn [mbind option_bind].
  pose proof (read_u16_room _ _ _ E2) as R2. destruct (read_block8 _ _ _ E1 ltac:(lia)) as [S1 D1].
  set (o2 := 38 + 1 + n1) in *. rewrite Nat.add_assoc.
  destruct (byte_at handshake (o2 + 2 + n2)) as [n3|] eqn:E3; [|discriminate]. cbn [mbind option_bind].
  pose proof (byte_at_room _ _ _ E3) as R3. destruct (read_block16 _ _ _ E2 ltac:(lia)) as [S2 D2].
  set (o3 := o2 + 2 + n2) in *. rewrite Nat.add_assoc.
  destruct (read_u16 handshake (o3 + 1 + n3)) as [n4|] eqn:E4; [|discriminate]. cbn [mbind option_bind].
  pose proof (read_u16_room _ _ _ E4) as R4. destruct (read_block8 _ _ _ E3 ltac:(lia)) as [S3 D3].
  set (o4 := o3 + 1 + n3) in *. destruct (Nat.ltb_spec (length handshake) (o4 + 2 + n4)) as [|Hend]; [discriminate|].
  destruct (read_block16 _ _ _ E4 Hend) as [S4 D4].
  intros (entries & He & Hok & _ & Hech & sni & Hsni & Hname)%extensions_sound; [|lia|done].
  rewrite He in S4, D4.
  eexists (take 38 handshake), _, _, _, entries, _, sni. split_and!; [|rewrite length_take; lia| |exact S1|exact S2|exact S3|done..].
  - rewrite <- D4, <- D3, <- D2, <- D1. symmetry. apply take_drop.
  - apply byte_at_spec in Hone as [_ H0]. rewrite lookup_take_lt by lia. rewrite drop_0 in H0. rewrite H0. done.
Qed.
Lemma hello_complete handshake name : hello_names handshake name → parse_client_hello_sni handshake = Some name.
Proof.
  intros (start & session & ciphers & compression & entries & rest & sni & Heq & Hstart & Hone & S1 & S2 & S3 & S4 & Hok
    & Hech & Hsni & Hname).
  assert (drop 38 handshake = block8 session ++ block16 ciphers ++ block8 compression
            ++ block16 (extension_list entries) ++ rest)%list as Hd.
  { rewrite Heq, <- Hstart. by rewrite drop_app_length. }
  assert (byte_at handshake 0 = Some 1) as E0.
  { unfold byte_at. rewrite Heq, lookup_app_l by lia. by rewrite Hone. }
  apply write_block8 in Hd as (E1 & Hd & R1); [|done]. apply write_block16 in Hd as (E2 & R2 & _ & Hd); [|done..].
  apply write_block8 in Hd as (E3 & Hd & R3); [|done]. apply write_block16 in Hd as (E4 & R4 & Hs & Hd); [|done..].
  unfold parse_client_hello_sni. rewrite bool_decide_true by done.
  destruct (Nat.ltb_spec (length handshake) 39) as [|_]; [lia|]. cbn [negb orb]. cbv zeta.
  rewrite E1. cbn [mbind option_bind]. rewrite !Nat.add_assoc, E2. cbn [mbind option_bind].
  rewrite !Nat.add_assoc, E3. cbn [mbind option_bind]. rewrite !Nat.add_assoc, E4. cbn [mbind option_bind].
  match goal with |- context [length handshake <? ?n] => destruct (Nat.ltb_spec (length handshake) n) as [|_]; [lia|] end.
  apply (extensions_complete _ _ _ _ _ _ _ entries); [lia|lia|done|done|lia|]. split_and!; [done..|]. by exists sni.
Qed.

(** C19: The server name of a ClientHello is read exactly.  The parser answers
    a name if and only if the message is a ClientHello whose length-prefixed
    blocks nest correctly, whose extensions hold exactly one server-name
    extension and no encrypted ClientHello, and whose server-name list has
    exactly one entry of the type host name, the normal form of which is the
    answer.  Everything else (a truncated, repeated or missing name, an
    encrypted hello) answers none. *)
Theorem hello_sni_exact handshake name :
  parse_client_hello_sni handshake = Some name ↔ hello_names handshake name.
Proof. split; [apply hello_sound|apply hello_complete]. Qed.

(** A hello with a padding extension and the name, the same with the name
    twice, and with an encrypted hello beside it *)
Definition sample_hello (extensions : list (nat * Bytes)) : Bytes :=
  let body := (repeat (ascii_of_nat 7) 34 ++ block8 [] ++ block16 (repeat (ascii_of_nat 1) 2)
               ++ block8 [ascii_of_nat 0] ++ block16 (extension_list extensions))%list in
  (ascii_of_nat 1 :: ascii_of_nat 0 :: block16 body)%list.
Definition sample_name (host : string) : nat * Bytes := (0, block16 (name_list [(0, bytes_of host)])).
Example hello_samples :
  map (λ extensions, parse_client_hello_sni (sample_hello extensions))
    [[(21, [ascii_of_nat 0]); sample_name "Crates.IO"]; [sample_name "crates.io"; sample_name "crates.io"];
     [sample_name "crates.io"; (Z.to_nat 0xfe0d, [])]; [(21, [])]; [sample_name "bad_host"]]
  = [Some "crates.io"; None; None; None; None].
Proof. vm_compute. reflexivity. Qed.
