(* ===== verification/EgressHttp.v ===== *)
(** The HTTP headers the egress proxy reads and writes
    ([rw-sandbox/src/proxy.rs]): the authority of a CONNECT, the strict reading
    of header lines, the header a plain request is forwarded with and the
    framing of its response.

    The theorems show that a forwarded header is one request: the given request
    line, lines of the client that are harmless, one [Host] and no body. *)
From Stdlib Require Import Ascii.
From S2P Require Import Prelude Text BashSafety Decimal Sse Egress EgressHello.

(** The kinds of [io::Error] the proxy tells apart or makes itself; the texts
    carry no decision. *)
Inductive IoKind : Type :=
| WouldBlock | TimedOut | Interrupted | UnexpectedEof | InvalidData | InvalidInput | NotConnected | OtherKind.
#[global] Instance IoKind_eq_dec : EqDecision IoKind.
Proof. solve_decision. Defined.

(** * Text *)

Definition crlf : string := String CR (String LF "").
(** [split] at a separator of two bytes, and [split_once] at it *)
Fixpoint split_pair (a b : ascii) (s : string) : list string :=
  match s with
  | "" => [""]
  | String c rest =>
      let whole := match split_pair a b rest with f :: fs => String c f :: fs | [] => [String c ""] end in
      match rest with
      | String d rest' => if Ascii.eqb c a && Ascii.eqb d b then "" :: split_pair a b rest' else whole
      | "" => whole
      end
  end.
Fixpoint split_once_pair (a b : ascii) (s : string) : option (string * string) :=
  match s with
  | "" => None
  | String c rest =>
      if match rest with String d _ => Ascii.eqb c a && Ascii.eqb d b | "" => false end
      then Some ("", match rest with String _ rest' => rest' | "" => "" end)
      else match split_once_pair a b rest with Some (x, y) => Some (String c x, y) | None => None end
  end.
Definition split_crlf (s : string) : list string := split_pair CR LF s.
(** [split_whitespace]: [skip] counts the bytes of a white character left. *)
Definition white_at (s : string) : option string := find (λ p, starts_with p s) white_space.
Definition emit (word : string) : list string := if is_empty word then [] else [word].
Fixpoint words_from (skip : nat) (word s : string) : list string :=
  match s with
  | "" => emit word
  | String c rest =>
      match skip with
      | S skip => words_from skip word rest
      | O =>
          match white_at s with
          | Some p => (emit word ++ words_from (String.length p - 1) "" rest)%list
          | None => words_from 0 (word ++ String c "") rest
          end
      end
  end.
Definition split_whitespace (s : string) : list string := words_from 0 "" s.
(** [lines().next()] *)
Definition first_line (s : string) : option string :=
  match s with
  | "" => None
  | _ => match split_once LF s with
         | Some (line, _) => Some (default line (strip_suffix (String CR "") line))
         | None => Some s
         end
  end.
Definition rsplit_colon (s : string) : option (string * string) :=
  match split_once ":"%char (String.rev s) with
  | Some (after, before) => Some (String.rev before, String.rev after)
  | None => None
  end.
Definition is_ascii_control (c : ascii) : bool := ((nat_of_ascii c <? 32) || (nat_of_ascii c =? 127))%nat.
Definition eq_ignore_case (s t : string) : bool := String.eqb (to_ascii_lowercase s) (to_ascii_lowercase t).

(** * The target of a CONNECT *)

Definition parse_authority (authority : string) : option (string * Z) :=
  match strip_prefix "[" authority with
  | Some rest =>
      match split_once_pair "]"%char ":"%char rest with
      | Some (host, port) => (λ port, (host, port)) <$> parse_uint u16_max port
      | None => None
      end
  | None =>
      match rsplit_colon authority with
      | Some (host, port) => if is_empty host then None else (λ port, (host, port)) <$> parse_uint u16_max port
      | None => None
      end
  end.

(** A text that names a host and a port *)
Definition names_target (authority host : string) (port : Z) : Prop :=
  ∃ number, parse_uint u16_max number = Some port ∧
    (authority = ("[" ++ host ++ "]:" ++ number)%string ∨ host ≠ "" ∧ authority = (host ++ ":" ++ number)%string).

(** * Strict headers *)

Definition strict_header_text (header : Bytes) : Result string IoKind :=
  if utf8_valid [] header then ok_or (strip_suffix (crlf ++ crlf) (text_of header)) InvalidData else Err InvalidData.
Definition strict_header_line (line : string) : Result (string * string) IoKind :=
  if starts_with " " line || starts_with (String (byte 9) "") line then Err InvalidData
  else match split_once ":"%char line with
       | None => Err InvalidData
       | Some (name, value) =>
           if is_empty name || negb (str_all (λ c, is_ascii_alphanumeric c || Ascii.eqb c "-"%char) name)
              || negb (str_all (λ c, negb (is_ascii_control c && negb (Ascii.eqb c (byte 9)))) value)
           then Err InvalidData else Ok (name, value)
       end.

(** * The forwarded header *)

Definition BODY_HEADERS : list string := ["content-length"; "transfer-encoding"].
Definition DROPPED_HEADERS : list string :=
  ["host"; "proxy-authorization"; "proxy-connection"; "connection"; "keep-alive"; "te"; "trailer"; "upgrade"].
(** The lines of the client that are kept *)
Fixpoint kept_lines (lines : list string) : Result (list string) IoKind :=
  match lines with
  | [] => Ok []
  | line :: rest =>
      if is_empty line then kept_lines rest
      else
        let? (name, _) := strict_header_line line in
        let name := to_ascii_lowercase name in
        if mem name BODY_HEADERS then Err InvalidData
        else if mem name DROPPED_HEADERS then kept_lines rest
        else let? kept := kept_lines rest in Ok (line :: kept)
  end.
Definition header_lines (lines : list string) : string := String.concat "" (map (λ line, (line ++ crlf)%string) lines).
Definition rewrite_plain_header (header : Bytes) (request_line canonical_authority : string)
    (proxy_authorization : option string) : Result string IoKind :=
  let? text := strict_header_text header in
  let? kept := kept_lines (tail (split_crlf text)) in
  Ok (request_line ++ crlf ++ header_lines kept ++ ("Host: " ++ canonical_authority ++ crlf)
      ++ match proxy_authorization with
         | Some authorization => "Proxy-Authorization: " ++ authorization ++ crlf
         | None => ""
         end ++ "Connection: close" ++ crlf ++ crlf)%string.

(** * The framing of a response *)

Definition MAX_PLAIN_RESPONSE_BYTES : Z := 16 * 1024 * 1024.
Fixpoint framing_lines (lines : list string) (content_length : option Z) : Result (option Z) IoKind :=
  match lines with
  | [] => Ok content_length
  | line :: rest =>
      if is_empty line then framing_lines rest content_length
      else
        let? (name, value) := strict_header_line line in
        if eq_ignore_case name "transfer-encoding" then Err InvalidData
        else if eq_ignore_case name "content-length" then
          if is_some content_length || contains_any "," value then Err InvalidData
          else match parse_uint usize_max (trim value) with
               | None => Err InvalidData
               | Some size =>
                   if MAX_PLAIN_RESPONSE_BYTES <? size then Err InvalidData else framing_lines rest (Some size)
               end
        else framing_lines rest content_length
  end.
(** [line.split_whitespace().nth(1)] parsed as a status *)
Definition status_of (line : string) : option Z := split_whitespace line !! 1%nat ≫= parse_uint u16_max.
Definition response_framing (header : Bytes) (head_request : bool) : Result (option Z * bool) IoKind :=
  let? text := strict_header_text header in
  let lines := split_crlf text in
  let? status := ok_or (head lines ≫= status_of) InvalidData in
  let? content_length := framing_lines (tail lines) None in
  Ok (content_length,
      head_request || (100 <=? status) && (status <? 200) || (status =? 204) || (status =? 304)).

Example authority_examples :
  map parse_authority ["crates.io:443"; "[::1]:443"; "a:b:80"; ":80"; "crates.io"; "crates.io:65536"; "[::1]"] =
  [Some ("crates.io", 443); Some ("::1", 443); Some ("a:b", 80); None; None; None; None].
Proof. vm_compute. reflexivity. Qed.
Example rewrite_example :
  rewrite_plain_header (bytes_of ("GET http://a/b HTTP/1.1" ++ crlf ++ "Host: evil" ++ crlf ++ "X-A: 1" ++ crlf ++ crlf))
    "GET /b HTTP/1.1" "a" None
  = Ok ("GET /b HTTP/1.1" ++ crlf ++ "X-A: 1" ++ crlf ++ "Host: a" ++ crlf ++ "Connection: close" ++ crlf ++ crlf)%string.
Proof. vm_compute. reflexivity. Qed.
Example framing_example :
  response_framing (bytes_of ("HTTP/1.1 200 OK" ++ crlf ++ "Content-Length: 12" ++ crlf ++ crlf)) false
  = Ok (Some 12, false).
Proof. vm_compute. reflexivity. Qed.

(** * Lines *)

(** No line ends inside *)
Definition line_byte (c : ascii) : bool := negb (Ascii.eqb c CR) && negb (Ascii.eqb c LF).
Definition one_line (s : string) : Prop := str_all line_byte s = true.

Lemma one_line_app s t : one_line (s ++ t)%string ↔ one_line s ∧ one_line t.
Proof. unfold one_line. by rewrite str_all_app, andb_true_iff. Qed.
Lemma split_crlf_line l rest : one_line l → split_crlf (l ++ crlf ++ rest) = l :: split_crlf rest.
Proof.
  unfold one_line, split_crlf. induction l as [|c l IH]; [done|]. cbn [str_all]. rewrite andb_true_iff. intros [Hc Hl].
  change (String c l ++ ?x)%string with (String c (l ++ x)). cbn [split_pair]. rewrite (IH Hl).
  unfold line_byte in Hc. apply andb_prop in Hc as [Hc _]. apply negb_true_iff in Hc. rewrite Hc. cbn [andb].
  by destruct (l ++ crlf ++ rest)%string.
Qed.
Lemma split_header_lines ls rest :
  Forall one_line ls → split_crlf (header_lines ls ++ rest) = (ls ++ split_crlf rest)%list.
Proof.
  intros H. induction H as [|l ls Hl Hls IH]; [done|].
  assert (header_lines (l :: ls) = (l ++ crlf ++ header_lines ls)%string) as ->.
  { unfold header_lines. cbn [map]. destruct ls as [|l' ls]; cbn [String.concat map].
    - by rewrite !str_app_nil_r.
    - by rewrite str_app_assoc. }
  rewrite !str_app_assoc, split_crlf_line by done. rewrite IH. done.
Qed.
Lemma split_once_inv c s a b : split_once c s = Some (a, b) → s = (a ++ String c b)%string.
Proof.
  revert a b. induction s as [|d s IH]; intros a b; cbn; [done|]. destruct (Ascii.eqb_spec d c) as [->|].
  - by intros [= <- <-].
  - destruct (split_once c s) as [[x y]|]; [|done]. intros [= <- <-]. by rewrite (IH x y).
Qed.

Lemma split_once_pair_inv a b s x y : split_once_pair a b s = Some (x, y) → s = (x ++ String a (String b y))%string.
Proof.
  revert x y. induction s as [|c s IH]; intros x y; cbn; [done|].
  destruct s as [|d s]; [done|].
  destruct (Ascii.eqb c a && Ascii.eqb d b) eqn:E; [apply andb_prop in E as [->%Ascii.eqb_eq ->%Ascii.eqb_eq]; by intros [= <- <-]|].
  destruct (split_once_pair a b (String d s)) as [[x' y']|]; [|done]. intros [= <- <-]. by rewrite (IH x' y').
Qed.
Lemma parse_authority_names authority host port :
  parse_authority authority = Some (host, port) → names_target authority host port.
Proof.
  unfold parse_authority, names_target. destruct (strip_prefix "[" authority) as [rest|] eqn:Ep.
  - apply strip_prefix_inv in Ep as ->. destruct (split_once_pair _ _ rest) as [[h p]|] eqn:E; [|done].
    apply split_once_pair_inv in E as ->. destruct (parse_uint u16_max p) as [n|] eqn:En; [|done]. intros [= -> ->].
    exists p. split; [done|]. by left.
  - unfold rsplit_colon. destruct (split_once ":"%char (String.rev authority)) as [[after before]|] eqn:E; [|done].
    destruct (is_empty (String.rev before)) eqn:Ee; [done|]. destruct (parse_uint u16_max (String.rev after)) as [n|] eqn:En; [|done].
    intros [= <- ->]. exists (String.rev after). split; [done|]. right. split; [by apply String.eqb_neq in Ee|].
    apply split_once_inv in E. rewrite <- (str_rev_involutive authority), E.
    change (String ":" before)%string with (String ":" "" ++ before)%string.
    rewrite !str_rev_app. by rewrite str_app_assoc.
Qed.

(** * Words *)

Definition word_byte (c : ascii) : bool := negb (mem (String c "") white_space).
Lemma word_byte_line c : word_byte c = true → line_byte c = true.
Proof. destruct c as [[] [] [] [] [] [] [] []]; vm_compute; congruence. Qed.
Lemma white_at_none c s : white_at (String c s) = None → word_byte c = true.
Proof.
  unfold white_at, word_byte. intros H. apply negb_true_iff, not_true_iff_false. rewrite mem_elem. intros Hin.
  apply list_elem_of_In in Hin. pose proof (find_none _ _ H _ Hin) as Hp.
  assert (starts_with (String c "") (String c s) = true) by (apply starts_with_spec; by exists s).
  cbv beta in Hp. congruence.
Qed.
Lemma words_from_bytes skip word s :
  str_all word_byte word = true → Forall (λ w, str_all word_byte w = true) (words_from skip word s).
Proof.
  assert (∀ w, str_all word_byte w = true → Forall (λ w, str_all word_byte w = true) (emit w)) as Hemit.
  { intros w Hw. unfold emit. destruct (is_empty w); by repeat constructor. }
  revert skip word. induction s as [|c s IH]; intros skip word Hw; cbn [words_from]; [by apply Hemit|].
  destruct skip as [|skip]; [|by apply IH]. destruct (white_at (String c s)) as [p|] eqn:E.
  - apply Forall_app. split; [by apply Hemit|by apply IH].
  - apply IH. rewrite str_all_app, Hw. cbn. by rewrite (white_at_none _ _ E).
Qed.
Lemma split_whitespace_words s : Forall (λ w, str_all word_byte w = true) (split_whitespace s).
Proof. by apply words_from_bytes. Qed.
Lemma word_one_line w : str_all word_byte w = true → one_line w.
Proof. apply str_all_impl, word_byte_line. Qed.

(** * The forwarded header is one request *)

(** A header of the client that cannot change where a request goes or where it
    ends: not one that names a host or frames a body, and none that is meant for
    the next hop *)
Definition harmless_line (line : string) : Prop :=
  one_line line ∧ ∃ name value, line = (name ++ ":" ++ value)%string
    ∧ name ≠ "" ∧ str_all (λ c, is_ascii_alphanumeric c || Ascii.eqb c "-"%char) name = true
    ∧ to_ascii_lowercase name ∉ ["host"; "content-length"; "transfer-encoding"; "proxy-authorization"; "proxy-connection";
                                  "connection"; "keep-alive"; "te"; "trailer"; "upgrade"].

Lemma name_byte_line c : is_ascii_alphanumeric c || Ascii.eqb c "-"%char = true → line_byte c = true.
Proof. destruct c as [[] [] [] [] [] [] [] []]; vm_compute; congruence. Qed.
Lemma value_byte_line c : negb (is_ascii_control c && negb (Ascii.eqb c (byte 9))) = true → line_byte c = true.
Proof. destruct c as [[] [] [] [] [] [] [] []]; vm_compute; congruence. Qed.
Lemma strict_line_inv line name value :
  strict_header_line line = Ok (name, value) →
  one_line line ∧ line = (name ++ ":" ++ value)%string ∧ name ≠ ""
  ∧ str_all (λ c, is_ascii_alphanumeric c || Ascii.eqb c "-"%char) name = true.
Proof.
  unfold strict_header_line. destruct (_ || _); [done|]. destruct (split_once ":"%char line) as [[n v]|] eqn:E; [|done].
  destruct (is_empty n || _ || _) eqn:Ec; [done|]. intros [= <- <-]. apply split_once_inv in E as ->.
  apply orb_false_iff in Ec as [[Hne Hn]%orb_false_iff Hv]. apply negb_false_iff in Hn, Hv. split_and!; [|done| |done].
  - change (String ":" v) with (":" ++ v)%string. rewrite !one_line_app. unfold one_line. split_and!; [|done|].
    + revert Hn. apply str_all_impl, name_byte_line.
    + revert Hv. apply str_all_impl, value_byte_line.
  - unfold is_empty in Hne. by apply String.eqb_neq in Hne.
Qed.
Lemma mem_false a l : mem a l = false → a ∉ l.
Proof. intros H Hin. apply mem_elem in Hin. congruence. Qed.
Lemma kept_lines_harmless lines kept :
  kept_lines lines = Ok kept → Forall harmless_line kept ∧ kept `sublist_of` lines.
Proof.
  revert kept. induction lines as [|line lines IH]; intros kept; cbn [kept_lines]; [by intros [= <-]|].
  destruct (is_empty line); [intros [? ?]%IH; split; [done|by apply sublist_cons]|].
  destruct (strict_header_line line) as [[name value]|] eqn:E; [|done].
  destruct (mem _ BODY_HEADERS) eqn:Eb; [done|]. destruct (mem _ DROPPED_HEADERS) eqn:Ed.
  - intros [? ?]%IH; split; [done|by apply sublist_cons].
  - destruct (kept_lines lines) as [k|] eqn:Ek; [|done]. intros [= <-]. destruct (IH k eq_refl) as [Hk Hs].
    split; [|by apply sublist_skip]. constructor; [|done]. apply strict_line_inv in E as (H1 & H2 & H3 & H4).
    split; [done|]. exists name, value. split_and!; [done..|]. apply mem_false in Eb, Ed.
    unfold BODY_HEADERS, DROPPED_HEADERS in *. clear -Eb Ed. set_solver.
Qed.
(** The lines of one forwarded request *)
Definition request_lines (request_line authority : string) (kept : list string) (authorization : option string)
    : list string :=
  ([request_line] ++ kept ++ [("Host: " ++ authority)%string]
   ++ match authorization with Some a => [("Proxy-Authorization: " ++ a)%string] | None => [] end
   ++ ["Connection: close"; ""; ""])%list.
Lemma rewrite_one_request header request_line authority authorization out :
  rewrite_plain_header header request_line authority authorization = Ok out →
  one_line request_line → one_line authority → from_option one_line True authorization →
  ∃ kept text, split_crlf out = request_lines request_line authority kept authorization ∧ Forall harmless_line kept
    ∧ text_of header = (text ++ crlf ++ crlf)%string ∧ kept `sublist_of` tail (split_crlf text).
Proof.
  unfold rewrite_plain_header, strict_header_text. destruct (utf8_valid [] header); [|done].
  destruct (strip_suffix (crlf ++ crlf) (text_of header)) as [text|] eqn:Et; cbn [ok_or]; [|done]. apply strip_suffix_inv in Et.
  destruct (kept_lines _) as [kept|] eqn:Ek; [|done]. intros [= <-] Hr Ha Hz. exists kept, text.
  apply kept_lines_harmless in Ek as [Hk Hsub]. split; [|done].
  assert (Forall one_line kept) as Hk1 by (eapply Forall_impl; [exact Hk|by intros ? [? _]]).
  rewrite split_crlf_line by done. rewrite split_header_lines by done. unfold request_lines.
  rewrite str_app_assoc, (str_app_assoc authority), <- (str_app_assoc "Host: ").
  rewrite split_crlf_line by by apply one_line_app. destruct authorization as [z|].
  - rewrite str_app_assoc, (str_app_assoc z), <- (str_app_assoc "Proxy-Authorization: ").
    rewrite split_crlf_line by by apply one_line_app. done.
  - done.
Qed.

(** A number is on one line. *)
Lemma dec_loop_one_line fuel n acc : one_line acc → one_line (dec_loop fuel n acc).
Proof.
  revert n acc. induction fuel as [|fuel IH]; intros n acc Ha; cbn [dec_loop]; [done|].
  assert (one_line (String (digit (n mod 10)) acc)) as Hd.
  { unfold one_line. cbn. apply andb_true_iff. split; [|done]. pose proof (Z.mod_pos_bound n 10 ltac:(lia)).
    apply (digit_cases (λ d, line_byte (digit d) = true)); [lia|reflexivity..]. }
  destruct (_ =? _); [done|by apply IH].
Qed.
Lemma dec_one_line n : one_line (dec n).
Proof. by apply dec_loop_one_line. Qed.
