(* ===== verification/EgressProxy.v ===== *)
(** The supervised egress proxy ([rw-sandbox/src/proxy.rs]): one connection of
    the sandboxed command, from its request line to the end of the tunnel.

    A connection is a computation over a [World]: the client's socket, the
    upstream stream once it is open, the answers the operating system gives to
    the attempts to connect, and a trace of what was attempted and sent.  The
    answers are arbitrary scripts, so a statement about every world covers every
    behaviour of the peers, the network and the clock.

    Parameters: the [url] crate ([UrlCrate]), the TLS client of [rustls]
    ([TlsClient], which turns a socket into the stream of its plain text), the
    [base64] crate ([Base64]) and the resolver of names. *)
From Stdlib Require Import Ascii.
From S2P Require Import Prelude Text BashSafety Decimal Sse Egress EgressHello EgressHttp.

(** * Addresses *)

Record SocketAddr : Type := mkSocketAddr { sock_ip : IpAddr; sock_port : Z }.
#[global] Instance SocketAddr_eq_dec : EqDecision SocketAddr.
Proof. solve_decision. Defined.

(** [Display] of addresses *)
Definition show_v4 (x : Ipv4Addr) : string := join "." (map dec [oct_a x; oct_b x; oct_c x; oct_d x]).
Fixpoint hex_loop (fuel : nat) (n : Z) (acc : string) : string :=
  match fuel with
  | O => acc
  | S fuel =>
      let acc := (str_take 1 (str_drop (Z.to_nat (n mod 16)) "0123456789abcdef") ++ acc)%string in
      if n / 16 =? 0 then acc else hex_loop fuel (n / 16) acc
  end.
Definition hex (n : Z) : string := hex_loop 4 n "".
(** The first longest run of zero segments: its start and its length *)
Fixpoint zero_run (i : nat) (segments : list Z) (longest current : nat * nat) : nat * nat :=
  match segments with
  | [] => longest
  | s :: rest =>
      if s =? 0 then
        let current := ((if (current.2 =? 0)%nat then i else current.1), S current.2) in
        zero_run (S i) rest (if (longest.2 <? current.2)%nat then current else longest) current
      else zero_run (S i) rest longest (O, O)
  end.
Definition show_v6 (x : Ipv6Addr) : string :=
  match to_ipv4_mapped x with
  | Some mapped => ("::ffff:" ++ show_v4 mapped)%string
  | None =>
      let segments := [seg0 x; seg1 x; seg2 x; seg3 x; seg4 x; seg5 x; seg6 x; seg7 x] in
      let '(start, size) := zero_run 0 segments (O, O) (O, O) in
      let show part := join ":" (map hex part) in
      if (1 <? size)%nat then (show (take start segments) ++ "::" ++ show (drop (start + size) segments))%string
      else show segments
  end.
Definition show_addr (a : SocketAddr) : string :=
  match sock_ip a with
  | V4 x => (show_v4 x ++ ":" ++ dec (sock_port a))%string
  | V6 x => ("[" ++ show_v6 x ++ "]:" ++ dec (sock_port a))%string
  end.

(** * Sockets *)

(** What a socket gives to successive reads: bytes, or a failure.  The end of
    the list is the end of the stream. *)
Inductive Arrival : Type := Data (first : ascii) (more : Bytes) | Fault (kind : IoKind).
(** What a write of a whole buffer does: it succeeds, or it stops after some
    bytes. *)
Inductive WriteOutcome : Type := Wrote | Broke (sent : nat) (kind : IoKind).
Record Sock : Type := mkSock { s_in : list Arrival; s_out : Bytes; s_writes : list WriteOutcome }.

Definition sock_read (n : nat) (s : Sock) : Result Bytes IoKind * Sock :=
  match s_in s with
  | [] => (Ok [], s)
  | Fault e :: rest => (Err e, mkSock rest (s_out s) (s_writes s))
  | Data b more :: rest =>
      (Ok (take n (b :: more)),
       mkSock (match drop n (b :: more) with [] => rest | c :: more => Data c more :: rest end) (s_out s) (s_writes s))
  end.
(** [Read::read_exact] *)
Fixpoint script_exact (n : nat) (script : list Arrival) : Result Bytes IoKind * list Arrival :=
  match n, script with
  | O, _ => (Ok [], script)
  | _, [] => (Err UnexpectedEof, [])
  | _, Fault Interrupted :: rest => script_exact n rest
  | _, Fault e :: rest => (Err e, rest)
  | _, Data b more :: rest =>
      if (n <=? length (b :: more))%nat then
        (Ok (take n (b :: more)), match drop n (b :: more) with [] => rest | c :: more => Data c more :: rest end)
      else
        let '(r, rest') := script_exact (n - length (b :: more)) rest in
        (let? bytes := r in Ok ((b :: more) ++ bytes)%list, rest')
  end.
Definition sock_read_exact (n : nat) (s : Sock) : Result Bytes IoKind * Sock :=
  let '(r, rest) := script_exact n (s_in s) in (r, mkSock rest (s_out s) (s_writes s)).
(** [Write::write_all], with the bytes that went out *)
Definition sock_write (bytes : Bytes) (s : Sock) : Result unit IoKind * Bytes * Sock :=
  match s_writes s with
  | [] => (Ok tt, bytes, mkSock (s_in s) (s_out s ++ bytes) [])
  | Wrote :: rest => (Ok tt, bytes, mkSock (s_in s) (s_out s ++ bytes) rest)
  | Broke n e :: rest => (Err e, take n bytes, mkSock (s_in s) (s_out s ++ take n bytes) rest)
  end.

(** * The world of one connection *)

Inductive Event : Type := Attempted (address : SocketAddr) | Sent (bytes : Bytes) | CloseNotify.
(** [UpstreamConnection]: a stream to an address, with or without TLS *)
Record UpstreamConnection : Type := mkUpstream { u_tls : bool; u_addr : SocketAddr; u_sock : Sock }.
Record World : Type := mkWorld {
  w_client : Sock;
  w_upstream : option UpstreamConnection;
  w_connects : list (option Sock);    (* the answers to the attempts to connect *)
  w_options : list (option IoKind);   (* the answers to socket options and flushes *)
  w_denials : Z;
  w_resolutions : nat;                (* how often a name has been resolved *)
  w_trace : list Event;
}.
Definition set_client (c : Sock) (w : World) : World :=
  mkWorld c (w_upstream w) (w_connects w) (w_options w) (w_denials w) (w_resolutions w) (w_trace w).
Definition set_upstream (u : option UpstreamConnection) (w : World) : World :=
  mkWorld (w_client w) u (w_connects w) (w_options w) (w_denials w) (w_resolutions w) (w_trace w).
Definition set_connects (l : list (option Sock)) (w : World) : World :=
  mkWorld (w_client w) (w_upstream w) l (w_options w) (w_denials w) (w_resolutions w) (w_trace w).
Definition set_options (l : list (option IoKind)) (w : World) : World :=
  mkWorld (w_client w) (w_upstream w) (w_connects w) l (w_denials w) (w_resolutions w) (w_trace w).
Definition set_denials (n : Z) (w : World) : World :=
  mkWorld (w_client w) (w_upstream w) (w_connects w) (w_options w) n (w_resolutions w) (w_trace w).
Definition set_resolutions (n : nat) (w : World) : World :=
  mkWorld (w_client w) (w_upstream w) (w_connects w) (w_options w) (w_denials w) n (w_trace w).
Definition log (e : Event) (w : World) : World :=
  mkWorld (w_client w) (w_upstream w) (w_connects w) (w_options w) (w_denials w) (w_resolutions w) (w_trace w ++ [e]).

Definition Io (A : Type) : Type := World → Result A IoKind * World.
Definition ret {A} (a : A) : Io A := λ w, (Ok a, w).
Definition fail {A} (e : IoKind) : Io A := λ w, (Err e, w).
Definition bind {A B} (m : Io A) (k : A → Io B) : Io B :=
  λ w, match m w with (Ok a, w') => k a w' | (Err e, w') => (Err e, w') end.
Notation "'let*' x := m 'in' k" := (bind m (λ x, k)) (at level 10, x pattern, m at level 200, k at level 200).
Notation "m ;; k" := (bind m (λ _, k)) (at level 100, right associativity).
(** The result of [m] as a value *)
Definition outcome {A} (m : Io A) : Io (Result A IoKind) := λ w, let '(r, w') := m w in (Ok r, w').
Definition lift {A} (r : Result A IoKind) : Io A := match r with Ok a => ret a | Err e => fail e end.

Definition client_read (n : nat) : Io Bytes :=
  λ w, let '(r, s) := sock_read n (w_client w) in (r, set_client s w).
Definition client_read_exact (n : nat) : Io Bytes :=
  λ w, let '(r, s) := sock_read_exact n (w_client w) in (r, set_client s w).
Definition client_write (bytes : Bytes) : Io unit :=
  λ w, let '(r, _, s) := sock_write bytes (w_client w) in (r, set_client s w).
Definition upstream_read (n : nat) : Io Bytes :=
  λ w, match w_upstream w with
       | None => (Err NotConnected, w)
       | Some u => let '(r, s) := sock_read n (u_sock u) in (r, set_upstream (Some (mkUpstream (u_tls u) (u_addr u) s)) w)
       end.
Definition upstream_write (bytes : Bytes) : Io unit :=
  λ w, match w_upstream w with
       | None => (Err NotConnected, w)
       | Some u =>
           let '(r, sent, s) := sock_write bytes (u_sock u) in
           (r, log (Sent sent) (set_upstream (Some (mkUpstream (u_tls u) (u_addr u) s)) w))
       end.
Definition pop_option : Io unit :=
  λ w, match w_options w with
       | [] => (Ok tt, w)
       | o :: rest => (match o with None => Ok tt | Some e => Err e end, set_options rest w)
       end.
(** [set_read_timeout], [set_write_timeout] *)
Definition set_timeout : Io unit := pop_option.
(** [flush]: nothing to do for a TCP stream *)
Definition upstream_flush : Io unit :=
  λ w, match w_upstream w with Some u => if u_tls u then pop_option w else (Ok tt, w) | None => (Ok tt, w) end.
Definition is_stall (e : IoKind) : bool := match e with WouldBlock | TimedOut => true | _ => false end.

(** * Reading headers *)

Definition MAX_HEADER_BYTES : nat := Z.to_nat (16 * 1024).
(** The loop of [read_request_header] and [read_stream_header]: a byte at a
    time, up to a blank line; [seen] holds the bytes in reverse. *)
Fixpoint header_loop (read : Io Bytes) (room : nat) (seen : Bytes) : Io (option Bytes) :=
  match room with
  | O => ret None
  | S room =>
      let* chunk := read in
      match chunk with
      | [] => ret None
      | c :: _ =>
          let seen := c :: seen in
          if starts [LF; CR; LF; CR] seen || starts [LF; LF] seen then ret (Some (rev seen))
          else header_loop read room seen
      end
  end.
Definition read_stream_header : Io (option Bytes) := header_loop (upstream_read 1) MAX_HEADER_BYTES [].
(** The first line, if it is text *)
Definition request_line_of (bytes : Bytes) : option string :=
  let line_end := match position [CR; LF] bytes with
                  | Some n => n
                  | None => default (length bytes) (position [LF] bytes)
                  end in
  let line := take line_end bytes in
  if utf8_valid [] line then Some (text_of line) else None.
Definition read_request_header : Io (option (string * Bytes)) :=
  let* header := header_loop (client_read 1) MAX_HEADER_BYTES [] in
  ret (bytes ← header; line ← request_line_of bytes; Some (line, bytes)).

Definition write_response (status : Z) (reason : string) : Io unit :=
  client_write (bytes_of ("HTTP/1.1 " ++ dec status ++ " Forbidden" ++ crlf ++ "content-length: " ++ dec (str_len reason)
                          ++ crlf ++ "x-proxy-error: " ++ reason ++ crlf ++ "connection: close" ++ crlf ++ crlf)%string) ;;
  client_write (bytes_of reason).

(** * The ClientHello *)

Definition MAX_CLIENT_HELLO_BYTES : Z := 64 * 1024.
Definition MAX_RECORD_BYTES : Z := 18432.
(** The length a handshake message announces, its header included *)
Definition hello_length (handshake : Bytes) : Z :=
  let at_ i := Z.of_nat (default O (byte_at handshake i)) in
  4 + Z.lor (Z.lor (Z.shiftl (at_ 1%nat) 16) (Z.shiftl (at_ 2%nat) 8)) (at_ 3%nat).
(** What is known after a record: more records are needed, or an answer *)
Definition hello_step (captured handshake : Bytes) : option (option (string * Bytes)) :=
  if (length handshake <? 4)%nat then None
  else if negb (bool_decide (byte_at handshake 0 = Some 1%nat)) then Some None
  else if MAX_CLIENT_HELLO_BYTES <? hello_length handshake then Some None
  else if hello_length handshake <=? Z.of_nat (length handshake)
  then Some ((λ sni, (sni, captured)) <$> parse_client_hello_sni (take (Z.to_nat (hello_length handshake)) handshake))
  else None.
Fixpoint hello_loop (fuel : nat) (captured handshake : Bytes) : Io (option (string * Bytes)) :=
  match fuel with
  | O => ret None
  | S fuel =>
      let* header := outcome (client_read_exact 5) in
      match header with
      | Err _ => ret None
      | Ok header =>
          let size := default O (read_u16 header 3) in
          if negb (bool_decide (byte_at header 0 = Some 22%nat)) then ret None
          else if (size =? 0)%nat || (MAX_RECORD_BYTES <? Z.of_nat size)
                  || (MAX_CLIENT_HELLO_BYTES <? sat_add (Z.of_nat (length captured)) (5 + Z.of_nat size))
          then ret None
          else
            let* payload := client_read_exact size in
            let captured := (captured ++ header ++ payload)%list in
            let handshake := (handshake ++ payload)%list in
            match hello_step captured handshake with
            | Some answer => ret answer
            | None => hello_loop fuel captured handshake
            end
      end
  end.
(** A record adds six bytes or more, and 65536 are taken. *)
Definition HELLO_FUEL : nat := Z.to_nat (64 * 1024 / 6 + 2).
Definition read_tls_client_hello : Io (option (string * Bytes)) := hello_loop HELLO_FUEL [] [].

(** * Libraries *)

(** [url::Url]; [url_pinned] clears the fragment, sets the host to an address
    and prints. *)
Class UrlCrate : Type := {
  Url : Type;
  url_parse : string → option Url;
  url_scheme : Url → string;
  url_username : Url → string;
  url_password : Url → option string;
  url_host_str : Url → option string;
  url_port : Url → option Z;
  url_port_or_known_default : Url → option Z;
  url_path : Url → string;
  url_query : Url → option string;
  url_fragment : Url → option string;
  url_pinned : Url → IpAddr → option string;
}.
Class TlsClient : Type := tls_client : string → Sock → Result Sock IoKind.
Class Base64 : Type := base64_encode : string → string.

Inductive SandboxError : Type := InvalidProxy | InvalidEgressPin.

Section proxy.
Context {U : UrlCrate} {T : TlsClient} {B : Base64}.

Record UpstreamProxy : Type := mkUpstreamProxy {
  proxy_url : Url;
  proxy_addresses : list SocketAddr;
  proxy_authorization : option string;
}.
Definition new_with_resolver (url : Url) (resolver : string → Z → Result (list SocketAddr) SandboxError)
    : Result UpstreamProxy SandboxError :=
  if negb (mem (url_scheme url) ["http"; "https"]) || negb (is_some (url_host_str url))
     || negb (is_empty (url_username url)) || is_some (url_password url) || negb (String.eqb (url_path url) "/")
     || is_some (url_query url) || is_some (url_fragment url)
  then Err InvalidProxy
  else
    let? host := ok_or (url_host_str url) InvalidProxy in
    let? port := ok_or (url_port_or_known_default url) InvalidProxy in
    let? addresses := resolver host port in
    match addresses with [] => Err InvalidProxy | _ => Ok (mkUpstreamProxy url addresses None) end.
Definition upstream_new (resolve : string → Z → option (list SocketAddr)) (url : Url) : Result UpstreamProxy SandboxError :=
  new_with_resolver url (λ host port, ok_or (resolve host port) InvalidProxy).
Definition with_basic_auth (proxy : UpstreamProxy) (username password : string) : UpstreamProxy :=
  mkUpstreamProxy (proxy_url proxy) (proxy_addresses proxy)
    (Some ("Basic " ++ base64_encode (username ++ ":" ++ password)))%string.

Record EgressPin : Type := mkPin { pin_host : string; pin_port : Z; pin_addresses : list SocketAddr }.
Definition pin_new (host : string) (port : Z) (addresses : list SocketAddr) : Result EgressPin SandboxError :=
  let? host := ok_or (normalize_host host) InvalidEgressPin in
  if (port =? 0) || match addresses with [] => true | _ => false end
     || existsb (λ address, negb (sock_port address =? port)) addresses
  then Err InvalidEgressPin
  else Ok (mkPin host port addresses).
(** The pins by host and port; a later pin replaces an earlier one. *)
Definition pin_table (pins : list EgressPin) : gmap (string * Z) (list SocketAddr) :=
  fold_left (λ table pin, <[(pin_host pin, pin_port pin) := pin_addresses pin]> table) pins ∅.

(** * Connecting *)

Fixpoint connect_pinned (addresses : list SocketAddr) : Io (option (SocketAddr * Sock)) :=
  match addresses with
  | [] => ret None
  | address :: rest => λ w,
      match w_connects w with
      | Some s :: later => (Ok (Some (address, s)), set_connects later (log (Attempted address) w))
      | _ => connect_pinned rest (set_connects (tail (w_connects w)) (log (Attempted address) w))
      end
  end.
Definition open_upstream (tls : bool) (address : SocketAddr) (s : Sock) : Io unit :=
  λ w, (Ok tt, set_upstream (Some (mkUpstream tls address s)) w).
Definition drop_upstream : Io unit := λ w, (Ok tt, set_upstream None w).
Definition connect_proxy_transport (proxy : UpstreamProxy) : Io unit :=
  let* host := lift (ok_or (url_host_str (proxy_url proxy)) InvalidInput) in
  let* socket := connect_pinned (proxy_addresses proxy) in
  match socket with
  | None => fail NotConnected
  | Some (address, s) =>
      set_timeout ;; set_timeout ;;
      if String.eqb (url_scheme (proxy_url proxy)) "http" then open_upstream false address s
      else let* s := lift (tls_client host s) in open_upstream true address s
  end.
Definition connect_direct (addresses : list SocketAddr) : Io bool :=
  let* socket := connect_pinned addresses in
  match socket with
  | None => ret false
  | Some (address, s) => open_upstream false address s ;; ret true
  end.
(** The request to the upstream proxy, in the pieces it is written in *)
Definition connect_head (pinned : SocketAddr) (host : string) (port : Z) : Bytes :=
  bytes_of ("CONNECT " ++ show_addr pinned ++ " HTTP/1.1" ++ crlf ++ "Host: " ++ host ++ ":" ++ dec port ++ crlf)%string.
Definition connect_authorization (authorization : string) : Bytes :=
  bytes_of ("Proxy-Authorization: " ++ authorization ++ crlf)%string.
Definition connect_tail : Bytes := bytes_of ("Proxy-Connection: keep-alive" ++ crlf ++ crlf)%string.
(** The status of the upstream proxy's answer *)
Definition connect_status (header : Bytes) : option Z :=
  if utf8_valid [] header then first_line (text_of header) ≫= status_of else None.
Definition connect_target (host : string) (port : Z) (addresses : list SocketAddr) (upstream : option UpstreamProxy)
    : Io bool :=
  match upstream with
  | None => connect_direct addresses
  | Some proxy =>
      match addresses with
      | [] => ret false
      | pinned :: _ =>
          connect_proxy_transport proxy ;;
          upstream_write (connect_head pinned host port) ;;
          match proxy_authorization proxy with
          | Some authorization => upstream_write (connect_authorization authorization)
          | None => ret tt
          end ;;
          upstream_write connect_tail ;;
          upstream_flush ;;
          let* header := read_stream_header in
          match header with
          | None => drop_upstream ;; ret false
          | Some header =>
              if bool_decide (connect_status header = Some 200) then ret true else drop_upstream ;; ret false
          end
      end
  end.
Definition connect_plain_target (addresses : list SocketAddr) (upstream : option UpstreamProxy) : Io bool :=
  match upstream with
  | Some proxy => connect_proxy_transport proxy ;; ret true
  | None => connect_direct addresses
  end.

(** * Relaying *)

Definition BUFFER_BYTES : Z := 16 * 1024.
(** The arrivals of a stream, each counted with its bytes: more turns than a
    relay takes *)
Definition arrival_size (a : Arrival) : nat := match a with Data _ more => S (length more) | Fault _ => 1%nat end.
Definition script_size (script : list Arrival) : nat := sum_list (map arrival_size script).
Definition upstream_size (w : World) : nat :=
  match w_upstream w with Some u => script_size (s_in (u_sock u)) | None => O end.

Fixpoint relay_loop (fuel : nat) (content_length : option Z) (transferred : Z) : Io unit :=
  match fuel with
  | O => ret tt
  | S fuel =>
      let remaining :=
        match content_length with
        | Some size => Z.min (sat_sub size transferred) BUFFER_BYTES
        | None => BUFFER_BYTES
        end in
      if remaining =? 0 then ret tt
      else
        let* chunk := upstream_read (Z.to_nat remaining) in
        match chunk with
        | [] =>
            if match content_length with Some expected => negb (transferred =? expected) | None => false end
            then fail UnexpectedEof else ret tt
        | _ =>
            let transferred := sat_add transferred (Z.of_nat (length chunk)) in
            if MAX_PLAIN_RESPONSE_BYTES <? transferred then fail InvalidData
            else client_write chunk ;; relay_loop fuel content_length transferred
        end
  end.
Definition relay_one_http_response (head_request : bool) : Io unit :=
  let* header := read_stream_header in
  match header with
  | None => ret tt
  | Some header =>
      let* (content_length, body_forbidden) := lift (response_framing header head_request) in
      client_write header ;;
      if (body_forbidden : bool) then ret tt
      else λ w, relay_loop (S (upstream_size w)) content_length 0 w
  end.

Definition configure_tunnel_timeouts : Io unit := set_timeout ;; set_timeout ;; set_timeout ;; set_timeout.
Definition TUNNEL_IDLE_TIMEOUT : Z := 30000.
(** What one turn of the tunnel observes: the shutdown flag and the clock (in
    milliseconds) when the loop condition is checked, and the clock after each
    direction.  The list of turns ends where the observation does. *)
Record Turn : Type := mkTurn { t_running : bool; t_checked : Z; t_forward : Z; t_reverse : Z }.
(** [copy_tunnel_quantum]: activity, and whether the reader is still open *)
Definition copy_tunnel_quantum (read : Io Bytes) (write : Bytes → Io unit) (opened : bool) : Io (bool * bool) :=
  if negb opened then ret (false, false)
  else
    let* r := outcome read in
    match r with
    | Ok [] => ret (false, false)
    | Ok chunk => write chunk ;; ret (true, true)
    | Err e => if is_stall e then ret (false, true) else fail e
    end.
Definition tunnel_goes_on (turn : Turn) (client_open upstream_open : bool) (last_activity : Z) : bool :=
  t_running turn && (client_open || upstream_open) && (t_checked turn - last_activity <? TUNNEL_IDLE_TIMEOUT).
Fixpoint tunnel_loop (turns : list Turn) (client_open upstream_open : bool) (last_activity : Z) : Io bool :=
  match turns with
  | [] => ret false
  | turn :: turns =>
      if tunnel_goes_on turn client_open upstream_open last_activity then
        let* (forward, client_open) :=
          copy_tunnel_quantum (client_read (Z.to_nat BUFFER_BYTES)) upstream_write client_open in
        let* (reverse, upstream_open) :=
          copy_tunnel_quantum (upstream_read (Z.to_nat BUFFER_BYTES)) client_write upstream_open in
        tunnel_loop turns client_open upstream_open (if forward || reverse then t_reverse turn else last_activity)
      else ret true
  end.
(** The answer tells whether the tunnel has ended. *)
Definition tunnel (turns : list Turn) (started : Z) : Io bool :=
  set_timeout ;; set_timeout ;; tunnel_loop turns true true started.

Definition close_notify : Io unit := λ w, (Ok tt, log CloseNotify w).
(** The two directions of [tunnel_tls_proxy] *)
Definition tls_forward (client_open : bool) : Io (bool * bool) :=
  if negb client_open then ret (false, false)
  else
    let* r := outcome (client_read (Z.to_nat BUFFER_BYTES)) in
    match r with
    | Ok [] => close_notify ;; outcome upstream_flush ;; ret (false, false)
    | Ok chunk => upstream_write chunk ;; upstream_flush ;; ret (true, true)
    | Err e => if is_stall e then ret (false, true) else fail e
    end.
Definition tls_reverse (upstream_open : bool) : Io (bool * bool) :=
  copy_tunnel_quantum (upstream_read (Z.to_nat BUFFER_BYTES)) client_write upstream_open.
Fixpoint tls_tunnel_loop (turns : list Turn) (client_open upstream_open : bool) (last_activity : Z) : Io bool :=
  match turns with
  | [] => ret false
  | turn :: turns =>
      if tunnel_goes_on turn client_open upstream_open last_activity then
        let* (forward, client_open) := tls_forward client_open in
        let last_activity := if (forward : bool) then t_forward turn else last_activity in
        let* (reverse, upstream_open) := tls_reverse upstream_open in
        tls_tunnel_loop turns client_open upstream_open (if (reverse : bool) then t_reverse turn else last_activity)
      else ret true
  end.
Definition tunnel_tls_proxy (turns : list Turn) (started : Z) : Io bool :=
  set_timeout ;; set_timeout ;; tls_tunnel_loop turns true true started.
Definition tunnel_connection (turns : list Turn) (started : Z) : Io bool :=
  λ w, match w_upstream w with
       | Some u => (if u_tls u then tunnel_tls_proxy turns started else tunnel turns started) w
       | None => (Err NotConnected, w)
       end.

(** * One connection *)

Context (policy : EgressPolicy) (pins : gmap (string * Z) (list SocketAddr)) (upstream_proxy : option UpstreamProxy).
(** [ToSocketAddrs] of a host and a port; every resolution may have its own answer. *)
Context (resolve : nat → string → Z → option (list SocketAddr)).

Definition to_socket_addrs (host : string) (port : Z) : Io (option (list SocketAddr)) :=
  λ w, (Ok (resolve (w_resolutions w) host port), set_resolutions (S (w_resolutions w)) w).
(** The answer set of a target: its pin, or the answer of the resolver *)
Definition resolution (host : string) (port : Z) : Io (list SocketAddr) :=
  match (h ← normalize_host host; pins !! (h, port)) with
  | Some addresses => ret addresses
  | None => let* answer := to_socket_addrs host port in ret (default [] answer)
  end.
Definition deny (reason : string) : Io (option (list SocketAddr)) :=
  (λ w, (Ok tt, set_denials (w_denials w + 1) w)) ;; write_response 403 reason ;; ret None.
Definition policy_resolve (host : string) (port : Z) : Io (option (list SocketAddr)) :=
  let* addresses := resolution host port in
  match evaluate policy host (map sock_ip addresses) with
  | Allowed => ret (Some addresses)
  | ApprovalRequired => deny "approval-required"
  | HardDenied => deny "private-or-unresolved-target"
  end.

(** The request target and the authority a plain request is forwarded with *)
Definition plain_path (url : Url) : string :=
  match url_query url with Some query => (url_path url ++ "?" ++ query)%string | None => url_path url end.
Definition plain_authority (url : Url) (host : string) : string :=
  match url_port url with Some port => (host ++ ":" ++ dec port)%string | None => host end.
Definition plain_target (url : Url) (addresses : list SocketAddr) : Result string IoKind :=
  match upstream_proxy with
  | Some _ =>
      let? pinned := ok_or (head addresses) NotConnected in
      ok_or (url_pinned url (sock_ip pinned)) InvalidInput
  | None => Ok (plain_path url)
  end.
Definition forward_plain_http (method target version : string) (header : Bytes) : Io unit :=
  if negb (mem method ["GET"; "HEAD"]) then write_response 405 "unsupported-http-method"
  else
    match url_parse target with
    | None => write_response 400 "absolute-http-url-required"
    | Some url =>
        if negb (String.eqb (url_scheme url) "http") || negb (is_empty (url_username url)) || is_some (url_password url)
        then write_response 400 "invalid-http-target"
        else
          match url_host_str url with
          | None => write_response 400 "missing-http-host"
          | Some host =>
              let port := default 80 (url_port_or_known_default url) in
              let* addresses := policy_resolve host port in
              match addresses with
              | None => ret tt
              | Some addresses =>
                  let* connected := connect_plain_target addresses upstream_proxy in
                  if negb connected then write_response 502 "upstream-connect-failed"
                  else
                    let* request_target := lift (plain_target url addresses) in
                    let* rewritten :=
                      lift (rewrite_plain_header header (method ++ " " ++ request_target ++ " " ++ version)
                              (plain_authority url host) (p ← upstream_proxy; proxy_authorization p)) in
                    upstream_write (bytes_of rewritten) ;;
                    upstream_flush ;;
                    configure_tunnel_timeouts ;;
                    relay_one_http_response (String.eqb method "HEAD")
              end
          end
    end.

Definition established : Bytes := bytes_of ("HTTP/1.1 200 Connection Established" ++ crlf ++ crlf)%string.
Definition open_tunnel (turns : list Turn) (started : Z) (host : string) (port : Z) (addresses : list SocketAddr) : Io bool :=
  client_write established ;;
  let* hello := read_tls_client_hello in
  match hello with
  | None => ret true
  | Some (sni, client_hello) =>
      if negb (bool_decide (normalize_host sni = normalize_host host)) then ret true
      else
        let* connected := connect_target host port addresses upstream_proxy in
        if negb connected then ret true
        else
          upstream_write client_hello ;;
          configure_tunnel_timeouts ;;
          tunnel_connection turns started
  end.
(** The answer is [false] when the observation ends inside the tunnel. *)
Definition handle_connection (turns : list Turn) (started : Z) : Io bool :=
  set_timeout ;; set_timeout ;;
  let* request := read_request_header in
  match request with
  | None => ret true
  | Some (request_line, header) =>
      let parts := split_whitespace request_line in
      let part i := default ""%string (parts !! i) in
      let method := part 0%nat in
      let authority := part 1%nat in
      let version := part 2%nat in
      if is_some (parts !! 3%nat) || negb (starts_with "HTTP/1." version)
      then write_response 400 "invalid-request-line" ;; ret true
      else if negb (String.eqb method "CONNECT") then forward_plain_http method authority version header ;; ret true
      else
        match parse_authority authority with
        | None => write_response 400 "invalid-authority" ;; ret true
        | Some (host, port) =>
            let* addresses := policy_resolve host port in
            match addresses with
            | None => ret true
            | Some addresses => open_tunnel turns started host port addresses
            end
        end
  end.
End proxy.
