(* ===== verification/EgressSafety.v ===== *)
(** What the egress proxy lets out ([rw-sandbox/src/proxy.rs]).

    Every attempt to connect and every byte sent upstream by one connection is
    traced back to a request the policy allowed: the target the client named,
    the answer set that was judged, for a tunnel the server name of the
    ClientHello, and for a plain request the one request that is forwarded. *)
From Stdlib Require Import Ascii.
From S2P Require Import Prelude Text BashSafety Decimal Sse Egress EgressHello EgressHttp EgressProxy.

(** * Traces and streams *)

Definition attempted (tr : list Event) : list SocketAddr :=
  omap (λ e, match e with Attempted a => Some a | _ => None end) tr.
Definition sent_of (tr : list Event) : Bytes := mjoin (map (λ e, match e with Sent b => b | _ => [] end) tr).
Definition no_attempt (e : Event) : Prop := match e with Attempted _ => False | _ => True end.
(** The bytes of a script, whatever the failures between them *)
Definition arrival_bytes (a : Arrival) : Bytes := match a with Data b more => b :: more | Fault _ => [] end.
Definition stream (s : Sock) : Bytes := mjoin (map arrival_bytes (s_in s)).

Lemma attempted_app t u : attempted (t ++ u) = (attempted t ++ attempted u)%list.
Proof. apply omap_app. Qed.
Lemma sent_of_app t u : sent_of (t ++ u) = (sent_of t ++ sent_of u)%list.
Proof. unfold sent_of. by rewrite map_app, join_app. Qed.
Lemma attempted_none t : Forall no_attempt t → attempted t = [].
Proof. induction 1 as [|e t He Ht IH]; [done|]. destruct e; [done|exact IH..]. Qed.

(** * Computations by what they add to the trace *)

Section effects.
Context {A B : Type}.
Implicit Types (m : Io A) (k : A → Io B).

(** [m] leaves the trace and the upstream proxy alone and reads the client's
    stream from its front. *)
Definition quiet m : Prop :=
  ∀ w, w_trace (m w).2 = w_trace w
       ∧ stream (w_client (m w).2) `suffix_of` stream (w_client w).
(** [m] sends a prefix of [lead], all of it if it succeeds. *)
Definition emits m (lead : Bytes) : Prop :=
  ∀ w, ∃ evs, w_trace (m w).2 = (w_trace w ++ evs)%list ∧ Forall no_attempt evs
       ∧ sent_of evs `prefix_of` lead ∧ (is_ok (m w).1 = true → sent_of evs = lead).
(** [m] attempts no connection. *)
Definition sends m : Prop := ∀ w, ∃ evs, w_trace (m w).2 = (w_trace w ++ evs)%list ∧ Forall no_attempt evs.
End effects.

Lemma quiet_then {A B} (m : Io A) (k : A → Io B) : quiet m → (∀ a, quiet (k a)) → quiet (bind m k).
Proof.
  intros Hm Hk w. unfold bind. specialize (Hm w). destruct (m w) as [[a|e] w']; cbn in *; [|done].
  destruct (Hk a w') as [H1 H2], Hm as [H3 H4]. split; [congruence|by etrans].
Qed.
Lemma quiet_pure {A} (a : A) : quiet (ret a).
Proof. done. Qed.
Lemma quiet_fail {A} e : quiet (@fail A e).
Proof. done. Qed.
Lemma quiet_outcome {A} (m : Io A) : quiet m → quiet (outcome m).
Proof. intros Hm w. specialize (Hm w). unfold outcome. by destruct (m w). Qed.
Lemma quiet_lift {A} (r : Result A IoKind) : quiet (lift r).
Proof. by destruct r. Qed.
Lemma quiet_emits {A} (m : Io A) : quiet m → emits m [].
Proof. intros Hm w. exists []. rewrite app_nil_r. split_and!; [by destruct (Hm w)|constructor|done..]. Qed.
Lemma emits_sends {A} (m : Io A) lead : emits m lead → sends m.
Proof. intros H w. destruct (H w) as (evs & H1 & H2 & _). by exists evs. Qed.
Lemma emits_bind {A B} (m : Io A) (k : A → Io B) l1 l2 :
  emits m l1 → (∀ a, emits (k a) l2) → emits (bind m k) (l1 ++ l2).
Proof.
  intros Hm Hk w. unfold bind. destruct (Hm w) as (evs & H1 & H2 & H3 & H4). destruct (m w) as [[a|e] w']; cbn in *.
  - destruct (Hk a w') as (evs' & K1 & K2 & K3 & K4). exists (evs ++ evs')%list. rewrite K1, H1, app_assoc.
    rewrite H4 in * by done. split_and!; [done|by apply Forall_app| |].
    + rewrite sent_of_app, H4 by done. by apply prefix_app.
    + intros Hok. by rewrite sent_of_app, H4, K4.
  - exists evs. split_and!; [done..| |done]. etrans; [done|]. by eexists.
Qed.
Lemma sends_bind {A B} (m : Io A) (k : A → Io B) : sends m → (∀ a, sends (k a)) → sends (bind m k).
Proof.
  intros Hm Hk w. unfold bind. destruct (Hm w) as (evs & H1 & H2). destruct (m w) as [[a|e] w']; cbn in *; [|by exists evs].
  destruct (Hk a w') as (evs' & K1 & K2). exists (evs ++ evs')%list. rewrite K1, H1, app_assoc. split; [done|by apply Forall_app].
Qed.
Lemma quiet_sends {A} (m : Io A) : quiet m → sends m.
Proof. intros H. by eapply emits_sends, quiet_emits. Qed.

Create HintDb io.
#[export] Hint Resolve quiet_then quiet_pure quiet_fail quiet_outcome quiet_lift : io.

(** * The operations on sockets *)

Lemma stream_cons a rest out writes :
  stream (mkSock (a :: rest) out writes) = (arrival_bytes a ++ stream (mkSock rest out writes))%list.
Proof. done. Qed.
Lemma stream_left n b more rest out writes :
  (take n (b :: more)
   ++ stream (mkSock (match drop n (b :: more) with [] => rest | c :: l => Data c l :: rest end) out writes))%list
  = ((b :: more) ++ stream (mkSock rest out writes))%list.
Proof.
  rewrite <- (take_drop n (b :: more)) at 3. rewrite <- app_assoc. f_equal. by destruct (drop n (b :: more)).
Qed.
(** A read takes bytes off the front of the stream. *)
Lemma sock_read_stream n s :
  match (sock_read n s).1 with
  | Ok bytes => stream s = (bytes ++ stream (sock_read n s).2)%list
  | Err _ => stream s = stream (sock_read n s).2
  end.
Proof.
  unfold sock_read. destruct s as [[|[b more|e] rest] out writes]; [done| |done]. cbn [s_in s_out s_writes fst snd].
  rewrite stream_left. done.
Qed.
Lemma script_exact_stream n script out writes :
  stream (mkSock (script_exact n script).2 out writes) `suffix_of` stream (mkSock script out writes)
  ∧ ∀ bytes, (script_exact n script).1 = Ok bytes →
      length bytes = n ∧ stream (mkSock script out writes) = (bytes ++ stream (mkSock (script_exact n script).2 out writes))%list.
Proof.
  revert n. induction script as [|[b more|e] rest IH]; intros [|n].
  - split; [done|]. by intros ? [= <-].
  - by split.
  - split; [done|]. by intros ? [= <-].
  - cbn [script_exact]. destruct (Nat.leb_spec (S n) (length (b :: more))) as [Hle|Hgt].
    + cbn [fst snd]. rewrite stream_cons. split.
      * exists (take (S n) (b :: more)). by rewrite stream_left.
      * intros ? [= <-]. split; [cbn in *; rewrite length_take; lia|].
        change (b :: take n more) with (take (S n) (b :: more)). by rewrite stream_left.
    + specialize (IH (S n - length (b :: more))%nat). destruct (script_exact _ rest) as [[bytes|] rest'];
        cbn [fst snd] in *; rewrite stream_cons; destruct IH as [IH1 IH2]; (split; [by apply suffix_app_r|]); [|done].
      intros ? [= <-]. destruct (IH2 bytes eq_refl) as [Hl ->]. cbn [length] in *. rewrite length_app. split; [lia|].
      cbn [arrival_bytes]. by rewrite app_comm_cons, app_assoc.
  - split; [done|]. by intros ? [= <-].
  - destruct e; try (by split). cbn [script_exact]. exact (IH (S n)).
Qed.
Lemma quiet_client_read n : quiet (client_read n).
Proof.
  intros w. unfold client_read. pose proof (sock_read_stream n (w_client w)) as H.
  destruct (sock_read n (w_client w)) as [r s]. cbn in *. split; [done|]. destruct r; rewrite H; [by eexists|done].
Qed.
Lemma quiet_client_read_exact n : quiet (client_read_exact n).
Proof.
  intros w. unfold client_read_exact, sock_read_exact.
  destruct (script_exact_stream n (s_in (w_client w)) (s_out (w_client w)) (s_writes (w_client w))) as [H _].
  destruct (script_exact n (s_in (w_client w))) as [r rest]. cbn in *. split; [done|exact H].
Qed.
Lemma quiet_client_write bytes : quiet (client_write bytes).
Proof.
  intros w. unfold client_write, sock_write. destruct (w_client w) as [i o [|[|n e] l]]; by split.
Qed.
Lemma quiet_upstream_read n : quiet (upstream_read n).
Proof. intros w. unfold upstream_read. destruct (w_upstream w); [|done]. by destruct (sock_read _ _). Qed.
Lemma quiet_pop_option : quiet pop_option.
Proof. intros w. unfold pop_option. by destruct (w_options w). Qed.
Lemma quiet_flush : quiet upstream_flush.
Proof. intros w. unfold upstream_flush. destruct (w_upstream w) as [u|]; [destruct (u_tls u); [apply quiet_pop_option|done]|done]. Qed.
#[export] Hint Resolve quiet_client_read quiet_client_read_exact quiet_client_write quiet_upstream_read quiet_pop_option
  quiet_flush : io.
Lemma quiet_set_timeout : quiet set_timeout.
Proof. apply quiet_pop_option. Qed.
Lemma quiet_header_loop read room seen : quiet read → quiet (header_loop read room seen).
Proof.
  intros Hr. revert seen. induction room as [|room IH]; intros seen; cbn [header_loop]; [auto with io|].
  apply quiet_then; [done|]. intros [|c l]; [auto with io|]. destruct (_ || _); auto with io.
Qed.
Lemma quiet_write_response status reason : quiet (write_response status reason).
Proof. unfold write_response. auto with io. Qed.
Lemma quiet_hello_loop fuel captured handshake : quiet (hello_loop fuel captured handshake).
Proof.
  revert captured handshake. induction fuel as [|fuel IH]; intros captured handshake; cbn [hello_loop]; [auto with io|].
  apply quiet_then; [auto with io|]. intros [header|e]; [|auto with io]. destruct (negb _); [auto with io|].
  destruct (_ || _ || _); [auto with io|]. apply quiet_then; [auto with io|]. intros payload.
  destruct (hello_step _ _); auto with io.
Qed.
#[export] Hint Resolve quiet_set_timeout quiet_header_loop quiet_write_response quiet_hello_loop : io.

(** A header is what the client sent first. *)
Lemma client_read_one w c rest w' :
  client_read 1 w = (Ok (c :: rest), w') → rest = [] ∧ stream (w_client w) = c :: stream (w_client w').
Proof.
  unfold client_read. pose proof (sock_read_stream 1 (w_client w)) as H. unfold sock_read in *.
  destruct (w_client w) as [[|[b more|e] script] out writes]; cbn [s_in s_out s_writes fst snd] in *; [done| |done].
  intros [= -> <- <-]. by split.
Qed.
Lemma header_loop_resolutions room seen w : w_resolutions (header_loop (client_read 1) room seen w).2 = w_resolutions w.
Proof.
  revert seen w. induction room as [|room IH]; intros seen w; cbn [header_loop]; [done|]. unfold bind.
  assert (w_resolutions (client_read 1 w).2 = w_resolutions w) as H by (unfold client_read; by destruct (sock_read _ _)).
  destruct (client_read 1 w) as [[[|c l]|e] w1]; cbn [snd] in *; [done| |done]. destruct (_ || _); [done|]. by rewrite IH.
Qed.
Lemma read_request_header_resolutions w r w' : read_request_header w = (r, w') → w_resolutions w' = w_resolutions w.
Proof.
  unfold read_request_header, bind. pose proof (header_loop_resolutions MAX_HEADER_BYTES [] w) as H. revert H.
  destruct (header_loop _ _ _ w) as [[b|e] w1]; cbn; by intros <- [= <- <-].
Qed.
Lemma header_loop_client room seen w bytes w' :
  header_loop (client_read 1) room seen w = (Ok (Some bytes), w') →
  ∃ more, bytes = (rev seen ++ more)%list ∧ stream (w_client w) = (more ++ stream (w_client w'))%list.
Proof.
  revert seen w. induction room as [|room IH]; intros seen w; cbn [header_loop]; [done|].
  unfold bind. destruct (client_read 1 w) as [[[|c l]|e] w1] eqn:E; [done| |done].
  apply client_read_one in E as [-> Hs]. destruct (_ || _).
  - intros [= <- <-]. exists [c]. by split.
  - intros (more & -> & Hm)%IH. exists (c :: more). cbn. rewrite <- app_assoc. split; [done|]. by rewrite Hs, Hm.
Qed.
Lemma read_request_header_client w line bytes w' :
  read_request_header w = (Ok (Some (line, bytes)), w') →
  stream (w_client w) = (bytes ++ stream (w_client w'))%list ∧ request_line_of bytes = Some line.
Proof.
  unfold read_request_header, bind. destruct (header_loop _ _ _ w) as [[[b|]|e] w1] eqn:E; cbn; [|done..].
  destruct (request_line_of b) as [l|] eqn:El; cbn; [|done]. intros [= <- <- <-].
  apply header_loop_client in E as (more & -> & H). by split.
Qed.

(** * The ClientHello that was read *)

(** A handshake record: its type, two bytes of version and a sized payload *)
Definition hello_record (entry : Bytes * Bytes) : Bytes := (ascii_of_nat 22 :: entry.1 ++ block16 entry.2)%list.
(** A message of the length its header announces in three bytes *)
Definition announced (handshake : Bytes) : Prop :=
  ∃ kind l1 l2 l3 body, handshake = (kind :: l1 :: l2 :: l3 :: body)%list
    ∧ Z.of_nat (length body) = Z.of_nat (nat_of_ascii l1) * 65536 + Z.of_nat (nat_of_ascii l2) * 256 + Z.of_nat (nat_of_ascii l3).
(** [bytes] are handshake records that carry, from their start, a ClientHello
    of the length it announces which names [sni]. *)
Definition carries_hello (bytes : Bytes) (sni : string) : Prop :=
  ∃ records handshake, bytes = mjoin (map hello_record records)
    ∧ handshake `prefix_of` mjoin (map snd records)
    ∧ announced handshake ∧ hello_names handshake sni.

Lemma client_read_exact_stream n w bytes w' :
  client_read_exact n w = (Ok bytes, w') → length bytes = n ∧ stream (w_client w) = (bytes ++ stream (w_client w'))%list.
Proof.
  unfold client_read_exact, sock_read_exact.
  destruct (script_exact_stream n (s_in (w_client w)) (s_out (w_client w)) (s_writes (w_client w))) as [_ H].
  destruct (script_exact n (s_in (w_client w))) as [r rest]. cbn in *. intros [= -> <-].
  destruct (H bytes eq_refl) as [Hl Hs]. split; [done|]. by destruct (w_client w).
Qed.
Lemma hello_length_take handshake n : (4 ≤ n)%nat → hello_length (take n handshake) = hello_length handshake.
Proof. intros Hn. unfold hello_length, byte_at. by rewrite !lookup_take_lt by lia. Qed.
Lemma shiftl_lor_byte x y : 0 ≤ y < 256 → Z.lor (Z.shiftl x 8) y = x * 256 + y.
Proof.
  intros Hy. pose proof (Z.add_lor_land (Z.shiftl x 8) y) as Hs. assert (Z.land (Z.shiftl x 8) y = 0) as Hl.
  { apply Z.bits_inj'. intros n Hn. rewrite Z.land_spec, Z.bits_0, Z.shiftl_spec by done. destruct (Z.ltb_spec n 8).
    - by rewrite Z.testbit_neg_r by lia.
    - rewrite <- (Z.mod_small y (2 ^ 8)) by done. rewrite Z.mod_pow2_bits_high by lia. apply andb_false_r. }
  rewrite Hl, Z.add_0_r in Hs. rewrite Hs, Z.shiftl_mul_pow2 by done. done.
Qed.
Lemma announced_length handshake :
  (4 ≤ length handshake)%nat → Z.of_nat (length handshake) = hello_length handshake → announced handshake.
Proof.
  destruct handshake as [|kind [|l1 [|l2 [|l3 body]]]]; [cbn; lia..|]. intros _. unfold hello_length, byte_at.
  cbn [lookup list_lookup fmap option_fmap option_map default length].
  pose proof (nat_ascii_bounded l2). pose proof (nat_ascii_bounded l3).
  assert (Z.lor (Z.lor (Z.shiftl (Z.of_nat (nat_of_ascii l1)) 16) (Z.shiftl (Z.of_nat (nat_of_ascii l2)) 8)) (Z.of_nat (nat_of_ascii l3))
    = Z.of_nat (nat_of_ascii l1) * 65536 + Z.of_nat (nat_of_ascii l2) * 256 + Z.of_nat (nat_of_ascii l3)) as E.
  { replace (Z.shiftl (Z.of_nat (nat_of_ascii l1)) 16) with (Z.shiftl (Z.shiftl (Z.of_nat (nat_of_ascii l1)) 8) 8)
      by by rewrite Z.shiftl_shiftl.
    rewrite <- Z.shiftl_lor. rewrite shiftl_lor_byte by lia. rewrite shiftl_lor_byte by lia. lia. }
  intros Hl. exists kind, l1, l2, l3, body. split; [done|]. rewrite <- E. clear E. unfold id in Hl. lia.
Qed.
Lemma hello_step_found captured handshake sni hello :
  hello_step captured handshake = Some (Some (sni, hello)) →
  hello = captured ∧ ∃ message, message `prefix_of` handshake ∧ announced message ∧ hello_names message sni.
Proof.
  unfold hello_step. destruct (Nat.ltb_spec (length handshake) 4) as [|H4]; [done|]. destruct (negb _); [done|].
  destruct (MAX_CLIENT_HELLO_BYTES <? _); [done|]. destruct (Z.leb_spec (hello_length handshake) (Z.of_nat (length handshake))) as [Hle|]; [|done].
  destruct (parse_client_hello_sni _) as [s|] eqn:E; [|done]. cbn [fmap option_fmap option_map]. intros [= -> ->].
  split; [done|]. exists (take (Z.to_nat (hello_length handshake)) handshake).
  assert (4 ≤ hello_length handshake) as Hge.
  { unfold hello_length. pose proof (Z.lor_nonneg) as Hl. apply Z.add_le_mono_l with (p := -4). ring_simplify.
    rewrite !Z.lor_nonneg, !Z.shiftl_nonneg. lia. }
  split_and!; [apply prefix_take| |by apply hello_sound].
  apply announced_length; [rewrite length_take; lia|]. rewrite hello_length_take by lia. rewrite length_take. lia.
Qed.
Lemma record_of_parts header payload :
  length header = 5%nat → byte_at header 0 = Some 22%nat → length payload = default O (read_u16 header 3) →
  (header ++ payload)%list = hello_record (take 2 (drop 1 header), payload).
Proof.
  intros H5 H22. destruct header as [|h [|v1 [|v2 [|s1 [|s2 [|]]]]]]; try discriminate H5.
  apply byte_at_spec in H22 as [_ H]. rewrite drop_0 in H. injection H as ->.
  assert (read_u16 [ascii_of_nat 22; v1; v2; s1; s2] 3 = Some (nat_of_ascii s1 * 256 + nat_of_ascii s2)%nat) as E by done.
  rewrite E. cbn [default]. intros Hl. apply read_u16_spec in E as [_ E]. cbn [drop Nat.add] in E.
  rewrite app_nil_r in E. unfold hello_record, block16. cbn [fst snd take drop]. rewrite Hl.
  change (u16_bytes _) with (u16_bytes (nat_of_ascii s1 * 256 + nat_of_ascii s2)). rewrite <- E. reflexivity.
Qed.
Lemma hello_loop_client fuel records w sni hello w' :
  hello_loop fuel (mjoin (map hello_record records)) (mjoin (map snd records)) w = (Ok (Some (sni, hello)), w') →
  ∃ more, hello = (mjoin (map hello_record records) ++ more)%list
    ∧ stream (w_client w) = (more ++ stream (w_client w'))%list ∧ carries_hello hello sni.
Proof.
  revert records w. induction fuel as [|fuel IH]; intros records w; cbn [hello_loop]; [done|].
  unfold bind at 1, outcome. destruct (client_read_exact 5 w) as [[header|e] w1] eqn:E1; [|done].
  case_bool_decide as H22; [|done]. cbn [negb]. destruct (_ || _ || _); [done|].
  unfold bind. destruct (client_read_exact (default 0%nat (read_u16 header 3)) w1) as [[payload|e] w2] eqn:E2; [|done].
  apply client_read_exact_stream in E1 as [L1 S1], E2 as [L2 S2].
  pose proof (record_of_parts _ _ L1 H22 L2) as Hrec.
  set (record := (take 2 (drop 1 header), payload)) in *.
  assert (mjoin (map hello_record records) ++ header ++ payload = mjoin (map hello_record (records ++ [record])))%list as Hc.
  { rewrite map_app, join_app. cbn. by rewrite app_nil_r, Hrec. }
  assert (mjoin (map snd records) ++ payload = mjoin (map snd (records ++ [record])))%list as Hp.
  { rewrite map_app, join_app. cbn. by rewrite app_nil_r. }
  rewrite Hc, Hp. destruct (hello_step _ _) as [answer|] eqn:Es.
  - intros [= -> ->]. apply hello_step_found in Es as (-> & message & H1 & H2 & H3).
    exists (header ++ payload)%list. split_and!; [by rewrite <- Hc| |].
    + by rewrite S1, S2, app_assoc.
    + by exists (records ++ [record])%list, message.
  - intros (more & -> & Hs & Hcar)%IH. exists (header ++ payload ++ more)%list. split_and!; [| |done].
    + by rewrite <- Hc, !app_assoc.
    + by rewrite S1, S2, Hs, !app_assoc.
Qed.
Lemma read_hello_client w sni hello w' :
  read_tls_client_hello w = (Ok (Some (sni, hello)), w') →
  stream (w_client w) = (hello ++ stream (w_client w'))%list ∧ carries_hello hello sni.
Proof. intros (more & -> & Hs & Hc)%(hello_loop_client _ []). by split. Qed.
Lemma carries_hello_normal hello sni : carries_hello hello sni → normalize_host sni = Some sni.
Proof.
  intros (? & ? & _ & _ & _ & ? & ? & ? & ? & ? & ? & ? & _ & _ & _ & _ & _ & _ & _ & _ & _ & _ & ? & host & _ & _ & _ & _ & H).
  unfold host_name in H. destruct (utf8_valid _ _); [|done]. unfold normalize_host, normalize_egress_domain in *.
  by eapply normalize_fixed.
Qed.

(** * Connecting *)

Lemma emits_upstream_write bytes : emits (upstream_write bytes) bytes.
Proof.
  intros w. unfold upstream_write. destruct (w_upstream w) as [u|].
  2: { exists []. rewrite app_nil_r. split_and!; [done|constructor|apply prefix_nil|done]. }
  unfold sock_write. destruct (s_writes (u_sock u)) as [|[|n e] rest].
  - exists [Sent bytes]. unfold sent_of. cbn. rewrite app_nil_r. split_and!; [done|by repeat constructor|done..].
  - exists [Sent bytes]. unfold sent_of. cbn. rewrite app_nil_r. split_and!; [done|by repeat constructor|done..].
  - exists [Sent (take n bytes)]. unfold sent_of. cbn. rewrite app_nil_r.
    split_and!; [done|by repeat constructor|apply prefix_take|done].
Qed.
Lemma connect_pinned_trace addresses w :
  ∃ tried, w_trace (connect_pinned addresses w).2 = (w_trace w ++ map Attempted tried)%list ∧ tried ⊆ addresses
    ∧ w_client (connect_pinned addresses w).2 = w_client w.
Proof.
  revert w. induction addresses as [|a rest IH]; intros w; cbn [connect_pinned].
  - exists []. rewrite app_nil_r. by split_and!.
  - assert (∃ tried,
      w_trace (connect_pinned rest (set_connects (tail (w_connects w)) (log (Attempted a) w))).2
      = (w_trace w ++ map Attempted tried)%list ∧ tried ⊆ a :: rest
      ∧ w_client (connect_pinned rest (set_connects (tail (w_connects w)) (log (Attempted a) w))).2 = w_client w) as Hfail.
    { destruct (IH (set_connects (tail (w_connects w)) (log (Attempted a) w))) as (tried & H1 & H2 & H3).
      exists (a :: tried). rewrite H1. cbn. rewrite <- app_assoc. split_and!; [done|set_solver|done]. }
    destruct (w_connects w) as [|[s|] later]; [exact Hfail| |exact Hfail].
    exists [a]. split_and!; [done|set_solver|done].
Qed.
Lemma attempted_map tried : attempted (map Attempted tried) = tried.
Proof. induction tried as [|a l IH]; [done|]. cbn. f_equal. exact IH. Qed.
Lemma sent_of_map tried : sent_of (map Attempted tried) = [].
Proof. induction tried as [|a l IH]; [done|]. exact IH. Qed.

(** [m] attempts addresses of [hops] only, then sends a prefix of [lead], all
    of it if it answers as [done_] tells. *)
Definition connects {A} (m : Io A) (hops : list SocketAddr) (lead : Bytes) (done_ : Result A IoKind → bool) : Prop :=
  ∀ w, ∃ evs, w_trace (m w).2 = (w_trace w ++ evs)%list ∧ attempted evs ⊆ hops
       ∧ sent_of evs `prefix_of` lead ∧ (done_ (m w).1 = true → sent_of evs = lead).
Lemma emits_connects {A} (m : Io A) hops lead : emits m lead → connects m hops lead is_ok.
Proof.
  intros H w. destruct (H w) as (evs & H1 & H2 & H3 & H4). exists evs. split_and!; [done| |done..].
  rewrite attempted_none by done. set_solver.
Qed.
Lemma connects_bind {A B} (m : Io A) (k : A → Io B) hops l1 l2 done_ :
  connects m hops l1 is_ok → (∀ e, done_ (Err e) = false) → (∀ a, connects (k a) hops l2 done_) →
  connects (bind m k) hops (l1 ++ l2) done_.
Proof.
  intros Hm Hd Hk w. unfold bind. destruct (Hm w) as (evs & H1 & H2 & H3 & H4). destruct (m w) as [[a|e] w']; cbn in *.
  - destruct (Hk a w') as (evs' & K1 & K2 & K3 & K4). exists (evs ++ evs')%list. rewrite K1, H1, app_assoc.
    rewrite attempted_app, sent_of_app, H4 by done. split_and!; [done|set_solver|by apply prefix_app|].
    intros Hok. by rewrite K4.
  - exists evs. split_and!; [done..| |by rewrite Hd]. etrans; [done|]. by eexists.
Qed.
Lemma quiet_connects {A} (m : Io A) hops done_ : quiet m → connects m hops [] done_.
Proof.
  intros H w. destruct (H w) as [Ht _]. exists []. rewrite Ht, app_nil_r. split_and!; [done|set_solver|done..].
Qed.
(** Once [lead] is out, more may follow. *)
Definition leads (bytes lead : Bytes) : Prop := bytes `prefix_of` lead ∨ lead `prefix_of` bytes.
Lemma emits_then_sends {A B} (m : Io A) (k : A → Io B) lead w :
  emits m lead → (∀ a, sends (k a)) →
  ∃ evs, w_trace (bind m k w).2 = (w_trace w ++ evs)%list ∧ Forall no_attempt evs ∧ leads (sent_of evs) lead.
Proof.
  intros Hm Hk. unfold bind. destruct (Hm w) as (evs & H1 & H2 & H3 & H4). destruct (m w) as [[a|e] w']; cbn in *.
  - destruct (Hk a w') as (evs' & K1 & K2). exists (evs ++ evs')%list. rewrite K1, H1, app_assoc.
    split_and!; [done|by apply Forall_app|]. right. rewrite sent_of_app, H4 by done. by eexists.
  - exists evs. split_and!; [done..|]. by left.
Qed.
Lemma sends_close_notify : sends close_notify.
Proof. intros w. exists [CloseNotify]. split; [done|by repeat constructor]. Qed.
Lemma sends_upstream_write bytes : sends (upstream_write bytes).
Proof. eapply emits_sends, emits_upstream_write. Qed.
Lemma sends_copy read write opened : sends read → (∀ b, sends (write b)) → sends (copy_tunnel_quantum read write opened).
Proof.
  intros Hr Hw. unfold copy_tunnel_quantum. destruct (negb opened); [apply quiet_sends; auto with io|].
  apply sends_bind.
  - intros w. unfold outcome. destruct (Hr w) as (evs & H). destruct (read w). by exists evs.
  - intros [[|c l]|e]; [apply quiet_sends; auto with io| |destruct (is_stall e); apply quiet_sends; auto with io].
    apply sends_bind; [done|]. intros _. apply quiet_sends; auto with io.
Qed.
Lemma sends_tunnel_loop turns co uo last : sends (tunnel_loop turns co uo last).
Proof.
  revert co uo last. induction turns as [|turn turns IH]; intros co uo last; cbn [tunnel_loop]; [apply quiet_sends; auto with io|].
  destruct (tunnel_goes_on _ _ _ _); [|apply quiet_sends; auto with io].
  apply sends_bind; [apply sends_copy; [apply quiet_sends; auto with io|apply sends_upstream_write]|]. intros [? ?].
  apply sends_bind; [apply sends_copy; [|intros ?]; apply quiet_sends; auto with io|]. intros [? ?]. apply IH.
Qed.
Lemma sends_tls_forward co : sends (tls_forward co).
Proof.
  unfold tls_forward. destruct (negb co); [apply quiet_sends; auto with io|]. apply sends_bind; [apply quiet_sends; auto with io|].
  intros [[|c l]|e].
  - apply sends_bind; [apply sends_close_notify|]. intros _. apply quiet_sends. auto with io.
  - apply sends_bind; [apply sends_upstream_write|]. intros _. apply quiet_sends. auto with io.
  - destruct (is_stall e); apply quiet_sends; auto with io.
Qed.
Lemma sends_tls_tunnel_loop turns co uo last : sends (tls_tunnel_loop turns co uo last).
Proof.
  revert co uo last. induction turns as [|turn turns IH]; intros co uo last; cbn [tls_tunnel_loop]; [apply quiet_sends; auto with io|].
  destruct (tunnel_goes_on _ _ _ _); [|apply quiet_sends; auto with io].
  apply sends_bind; [apply sends_tls_forward|]. intros [? ?]. cbv zeta.
  apply sends_bind; [apply sends_copy; [|intros ?]; apply quiet_sends; auto with io|]. intros [? ?]. apply IH.
Qed.
Lemma sends_tunnel_connection turns started : sends (tunnel_connection turns started).
Proof.
  intros w. unfold tunnel_connection. destruct (w_upstream w) as [u|]; [|exists []; by rewrite app_nil_r].
  destruct (u_tls u); [unfold tunnel_tls_proxy|unfold tunnel]; revert w;
    (apply sends_bind; [apply quiet_sends; auto with io|]; intros _; apply sends_bind; [apply quiet_sends; auto with io|]; intros _);
    [apply sends_tls_tunnel_loop|apply sends_tunnel_loop].
Qed.
Lemma quiet_configure : quiet configure_tunnel_timeouts.
Proof. unfold configure_tunnel_timeouts. auto with io. Qed.
Lemma quiet_relay_loop fuel size transferred : quiet (relay_loop fuel size transferred).
Proof.
  revert transferred. induction fuel as [|fuel IH]; intros transferred; cbn [relay_loop]; [auto with io|].
  destruct (_ =? 0); [auto with io|]. apply quiet_then; [auto with io|]. intros [|c l].
  - destruct size; [destruct (negb _)|]; auto with io.
  - cbv zeta. destruct (_ <? _); auto with io.
Qed.
Lemma quiet_relay head_request : quiet (relay_one_http_response head_request).
Proof.
  unfold relay_one_http_response. apply quiet_then; [unfold read_stream_header; auto with io|]. intros [header|]; [|auto with io].
  apply quiet_then; [auto with io|]. intros [size forbidden]. apply quiet_then; [auto with io|]. intros _.
  destruct forbidden; [auto with io|]. intros w. apply quiet_relay_loop.
Qed.
#[export] Hint Resolve quiet_configure quiet_relay : io.

(** * What a connection lets out *)

Section gate.
Context {U : UrlCrate} {T : TlsClient}.
Context (policy : EgressPolicy) (pins : gmap (string * Z) (list SocketAddr)) (upstream_proxy : option UpstreamProxy).
Context (resolve : nat → string → Z → option (list SocketAddr)).

(** The addresses a connection for these answers may be opened to *)
Definition hops (addresses : list SocketAddr) : list SocketAddr :=
  match upstream_proxy with None => addresses | Some proxy => proxy_addresses proxy end.
(** What is said to the upstream proxy first: to connect to the address that is
    the first answer, with the name in the [Host] header only *)
Definition proxy_request (pinned : SocketAddr) (host : string) (port : Z) (authorization : option string) : list string :=
  (["CONNECT " ++ show_addr pinned ++ " HTTP/1.1"; "Host: " ++ host ++ ":" ++ dec port]%string
   ++ match authorization with Some a => [("Proxy-Authorization: " ++ a)%string] | None => [] end
   ++ ["Proxy-Connection: keep-alive"; ""])%list.
Definition preamble (host : string) (port : Z) (addresses : list SocketAddr) : Bytes :=
  match upstream_proxy, addresses with
  | Some proxy, pinned :: _ => bytes_of (header_lines (proxy_request pinned host port (proxy_authorization proxy)))
  | _, _ => []
  end.
Lemma header_lines_cons l ls : header_lines (l :: ls) = (l ++ crlf ++ header_lines ls)%string.
Proof. unfold header_lines. cbn [map]. by rewrite str_concat_cons, str_app_assoc. Qed.
Lemma egress_bytes_app s t : bytes_of (s ++ t)%string = (bytes_of s ++ bytes_of t)%list.
Proof. induction s as [|c s IH]; [done|]. change (String c s ++ t)%string with (String c (s ++ t)). cbn [String.list_ascii_of_string]. by rewrite IH. Qed.
Lemma proxy_request_pieces pinned host port authorization :
  bytes_of (header_lines (proxy_request pinned host port authorization))
  = (connect_head pinned host port
     ++ match authorization with Some a => connect_authorization a | None => [] end ++ connect_tail)%list.
Proof.
  unfold proxy_request, connect_head, connect_authorization, connect_tail. destruct authorization as [a|];
    cbn [app]; rewrite !header_lines_cons, <- ?egress_bytes_app; change (header_lines []) with ""; f_equal; by rewrite ?str_app_assoc.
Qed.
Definition is_true_ok (r : Result bool IoKind) : bool := match r with Ok b => b | Err _ => false end.

Lemma quiet_open_upstream tls a s : quiet (open_upstream tls a s).
Proof. done. Qed.
Lemma quiet_drop_upstream : quiet drop_upstream.
Proof. done. Qed.
Hint Resolve quiet_open_upstream quiet_drop_upstream : io.
Lemma connect_pinned_connects addresses : connects (connect_pinned addresses) addresses [] is_ok.
Proof.
  intros w. destruct (connect_pinned_trace addresses w) as (tried & H1 & H2 & _). exists (map Attempted tried).
  rewrite attempted_map, sent_of_map. by split_and!.
Qed.
Lemma connect_direct_connects addresses : connects (connect_direct addresses) addresses [] is_true_ok.
Proof.
  apply (connects_bind _ _ _ [] []); [apply connect_pinned_connects|done|].
  intros [[a s]|]; apply quiet_connects; auto with io.
Qed.
Lemma connect_transport_connects proxy : connects (connect_proxy_transport proxy) (proxy_addresses proxy) [] is_ok.
Proof.
  unfold connect_proxy_transport. apply (connects_bind _ _ _ [] []); [apply quiet_connects; auto with io|done|]. intros host.
  apply (connects_bind _ _ _ [] []); [apply connect_pinned_connects|done|].
  intros [[a s]|]; apply quiet_connects; [|auto with io]. apply quiet_then; [auto with io|]. intros _.
  apply quiet_then; [auto with io|]. intros _. destruct (String.eqb _ _); auto with io.
Qed.
Lemma connect_target_connects host port addresses :
  connects (connect_target host port addresses upstream_proxy) (hops addresses) (preamble host port addresses) is_true_ok.
Proof.
  unfold connect_target, hops, preamble. destruct upstream_proxy as [proxy|]; [|apply connect_direct_connects].
  destruct addresses as [|pinned rest]; [apply quiet_connects; auto with io|]. rewrite proxy_request_pieces.
  match goal with |- connects _ _ ?lead _ => apply (connects_bind _ _ _ [] lead) end;
    [apply connect_transport_connects|done|]. intros _.
  apply connects_bind; [apply emits_connects, emits_upstream_write|done|]. intros _.
  apply connects_bind; [|done|].
  { destruct (proxy_authorization proxy); [apply emits_connects, emits_upstream_write|apply quiet_connects; auto with io]. }
  intros _. rewrite <- (app_nil_r connect_tail).
  apply connects_bind; [apply emits_connects, emits_upstream_write|done|]. intros _.
  apply quiet_connects. apply quiet_then; [auto with io|]. intros _.
  apply quiet_then; [unfold read_stream_header; auto with io|]. intros [header|]; [|auto with io]. case_bool_decide; auto with io.
Qed.

(** [addresses] are the answers for a target, found by the [n]th resolution if it
    is not pinned, and the policy allows the target with all of them. *)
Definition allowed_target (n : nat) (host : string) (port : Z) (addresses : list SocketAddr) : Prop :=
  match normalize_domain host ≫= λ h, pins !! (h, port) with
  | Some pinned => addresses = pinned
  | None => resolve n host port = Some addresses
  end ∧ evaluate policy host (map sock_ip addresses) = Allowed.
(** The client's bytes start with a request of three words. *)
Definition asks (client header rest : Bytes) (method target version : string) : Prop :=
  client = (header ++ rest)%list
  ∧ ∃ line more, header = (bytes_of line ++ more)%list ∧ (more = [] ∨ head more = Some LF ∨ [CR; LF] `prefix_of` more)
    ∧ split_whitespace line = [method; target; version].
(** A tunnel: the client's ClientHello names the host of its CONNECT, and what
    is sent starts with the request to the upstream proxy, if there is one, and
    that ClientHello. *)
Definition tunnelled (n : nat) (client : Bytes) (tr : list Event) : Prop :=
  ∃ header hello rest authority version host port addresses sni,
    asks client header (hello ++ rest) "CONNECT" authority version ∧ names_target authority host port
    ∧ allowed_target n host port addresses ∧ carries_hello hello sni ∧ normalize_domain host = Some sni
    ∧ attempted tr ⊆ hops addresses ∧ leads (sent_of tr) (preamble host port addresses ++ hello).
(** The target of a plain request: the path and the query of the URL, or through
    an upstream proxy the URL with the first answer as its host *)
Definition names_resource (url : Url) (addresses : list SocketAddr) (request_target : string) : Prop :=
  match upstream_proxy with
  | None => request_target = (url_path url ++ match url_query url with Some query => "?" ++ query | None => "" end)%string
  | Some _ => ∃ first, head addresses = Some first ∧ url_pinned url (sock_ip first) = Some request_target
  end.
(** A plain request: one request is sent, for the URL asked for and with the host
    and the port of it; the other lines are harmless ones of the client. *)
Definition forwarded (n : nat) (client : Bytes) (tr : list Event) : Prop :=
  ∃ header rest method target version url host addresses,
    asks client header rest method target version ∧ (method = "GET" ∨ method = "HEAD")
    ∧ url_parse target = Some url ∧ url_scheme url = "http" ∧ url_host_str url = Some host
    ∧ allowed_target n host (default 80 (url_port_or_known_default url)) addresses ∧ attempted tr ⊆ hops addresses
    ∧ (sent_of tr = [] ∨ ∃ request_target kept text out,
         names_resource url addresses request_target
         ∧ sent_of tr `prefix_of` bytes_of out
         ∧ split_crlf out = request_lines (method ++ " " ++ request_target ++ " " ++ version)
                              (host ++ match url_port url with Some port => ":" ++ dec port | None => "" end) kept
                              (p ← upstream_proxy; proxy_authorization p)
         ∧ Forall harmless_line kept
         ∧ text_of header = (text ++ crlf ++ crlf)%string ∧ kept `sublist_of` tail (split_crlf text)).
Lemma plain_target_names url addresses request_target :
  plain_target upstream_proxy url addresses = Ok request_target → names_resource url addresses request_target.
Proof.
  unfold plain_target, names_resource, plain_path. destruct upstream_proxy as [proxy|].
  - destruct addresses as [|a l]; cbn; [done|]. destruct (url_pinned url (sock_ip a)) as [x|] eqn:E; cbn; [|done].
    intros [= <-]. by exists a.
  - intros [= <-]. destruct (url_query url); [done|]. by rewrite str_app_nil_r.
Qed.

Lemma quiet_policy_resolve host port : quiet (policy_resolve policy pins resolve host port).
Proof.
  assert (∀ reason, quiet (deny reason)) as Hd.
  { intros reason. unfold deny. apply quiet_then; [by intros w|]. intros _. auto with io. }
  unfold policy_resolve. apply quiet_then; [|intros addresses; destruct (evaluate _ _ _); auto with io].
  unfold resolution. destruct (_ ≫= _); [auto with io|]. apply quiet_then; [by intros w|auto with io].
Qed.
Lemma policy_resolve_allowed host port w addresses w' :
  policy_resolve policy pins resolve host port w = (Ok (Some addresses), w') →
  allowed_target (w_resolutions w) host port addresses ∧ w_client w' = w_client w ∧ w_trace w' = w_trace w.
Proof.
  assert (∀ reason w1, deny reason w1 ≠ (Ok (Some addresses), w')) as Hdeny.
  { intros reason w1 E. unfold deny, bind, write_response in E. repeat case_match; simplify_eq/=. }
  unfold policy_resolve, resolution, allowed_target, normalize_host, normalize_egress_domain. unfold bind at 1.
  destruct (_ ≫= _) as [pinned|].
  - cbn. destruct (evaluate _ _ _) eqn:E; [by intros [= <- <-]|by intros ?%Hdeny..].
  - cbn. destruct (evaluate _ _ _) eqn:E; [|by intros ?%Hdeny..]. intros [= <- <-]. split_and!; [|done..].
    by destruct (resolve _ host port) as [[|a l]|].
Qed.
(** Run [m], and look at the trace of the rest. *)
Lemma bind_trace {A B} (m : Io A) (k : A → Io B) w (Q : list Event → Prop) :
  (∀ e w1, m w = (Err e, w1) → Q (w_trace w1)) → (∀ a w1, m w = (Ok a, w1) → Q (w_trace (k a w1).2)) →
  Q (w_trace (bind m k w).2).
Proof. unfold bind. destruct (m w) as [[a|e] w1]; eauto. Qed.
Lemma quiet_empty {A} (m : Io A) w r w' : quiet m → m w = (r, w') → w_trace w = [] → w_trace w' = [].
Proof. intros H E Hw. destruct (H w) as [Ht _]. rewrite E in Ht. cbn in Ht. congruence. Qed.
Lemma client_write_stream bytes w r w' :
  client_write bytes w = (r, w') → stream (w_client w') = stream (w_client w).
Proof.
  unfold client_write, sock_write. destruct (w_client w) as [i o [|[|n e] l]]; cbn; by intros [= <- <-].
Qed.
Lemma set_timeout_client w r w' : set_timeout w = (r, w') → w_client w' = w_client w ∧ w_resolutions w' = w_resolutions w.
Proof. unfold set_timeout, pop_option. destruct (w_options w); by intros [= <- <-]. Qed.

(** The first line ends where the header breaks first. *)
Lemma request_line_of_spec header line :
  request_line_of header = Some line →
  ∃ more, header = (bytes_of line ++ more)%list ∧ (more = [] ∨ head more = Some LF ∨ [CR; LF] `prefix_of` more).
Proof.
  unfold request_line_of. set (n := match position [CR; LF] header with Some n => n | None => _ end).
  destruct (utf8_valid [] (take n header)); [|done]. intros [= <-]. exists (drop n header).
  rewrite String.list_ascii_of_string_of_list_ascii, take_drop. split; [done|]. subst n.
  destruct (position [CR; LF] header) as [n|] eqn:E.
  - apply position_spec in E as [H _]. right; right. by apply starts_prefix.
  - destruct (position [LF] header) as [n|] eqn:E'; cbn -[drop head]; unfold id; [|left; by rewrite drop_all].
    apply position_spec in E' as [H _]. right; left. apply starts_prefix in H as [t Ht]. rewrite Ht. done.
Qed.
Lemma tunnel_gated turns started n host port addresses client header authority version w :
  w_trace w = [] → asks client header (stream (w_client w)) "CONNECT" authority version →
  names_target authority host port → allowed_target n host port addresses →
  let tr := w_trace (open_tunnel upstream_proxy turns started host port addresses w).2 in
  tr = [] ∨ tunnelled n client tr.
Proof.
  intros Hw [Hclient Hline] Hauth Hallowed. cbv zeta. set (Q := λ tr, tr = [] ∨ tunnelled n client tr).
  change (Q (w_trace (open_tunnel upstream_proxy turns started host port addresses w).2)).
  unfold open_tunnel. apply bind_trace.
  { intros e w1 E. left. eapply quiet_empty; [|done..]. auto with io. }
  intros [] w1 E1. pose proof (client_write_stream _ _ _ _ E1) as S1.
  assert (w_trace w1 = []) as Hw1 by (eapply quiet_empty; [|done..]; auto with io).
  apply bind_trace.
  { intros e w2 E. left. eapply quiet_empty; [|done..]. unfold read_tls_client_hello. auto with io. }
  intros answer w2 E2. assert (w_trace w2 = []) as Hw2 by (eapply quiet_empty; [|done..]; unfold read_tls_client_hello; auto with io).
  destruct answer as [[sni hello]|]; [|by left]. apply read_hello_client in E2 as [S2 Hc].
  case_bool_decide as Hn; cbn [negb]; [|by left].
  assert (normalize_host host = Some sni) as Hsni by by rewrite <- Hn, (carries_hello_normal _ _ Hc).
  assert (∀ tr, attempted tr ⊆ hops addresses → leads (sent_of tr) (preamble host port addresses ++ hello) → Q tr) as Hdone.
  { intros tr Ha Hl. right. exists header, hello, (stream (w_client w2)), authority, version, host, port, addresses, sni.
    split_and!; [|done..]. split; [|done]. by rewrite Hclient, <- S1, S2. }
  destruct (connect_target_connects host port addresses w2) as (evs & H1 & H2 & H3 & H4). rewrite Hw2 in H1. cbn [app] in H1.
  assert (leads (sent_of evs) (preamble host port addresses ++ hello)) as Hpart.
  { left. etrans; [exact H3|]. by eexists. }
  apply bind_trace.
  { intros e w3 E. rewrite E in H1. cbn in H1. rewrite H1. by apply Hdone. }
  intros connected w3 E. rewrite E in H1, H4. cbn [fst snd] in H1, H4. destruct connected; cbn [negb].
  2: { cbn. rewrite H1. by apply Hdone. }
  specialize (H4 eq_refl).
  destruct (emits_then_sends (upstream_write hello) (λ _, configure_tunnel_timeouts ;; tunnel_connection turns started) hello w3)
    as (evs' & K1 & K2 & K3).
  { apply emits_upstream_write. }
  { intros _. apply sends_bind; [apply quiet_sends; auto with io|]. intros _. apply sends_tunnel_connection. }
  rewrite K1, H1. apply Hdone.
  - rewrite attempted_app, (attempted_none evs') by done. by rewrite app_nil_r.
  - rewrite sent_of_app, H4. destruct K3 as [K3|K3]; [left|right]; by apply prefix_app.
Qed.

Lemma connect_plain_connects addresses :
  connects (connect_plain_target addresses upstream_proxy) (hops addresses) [] is_true_ok.
Proof.
  unfold connect_plain_target, hops. destruct upstream_proxy as [proxy|]; [|apply connect_direct_connects].
  apply (connects_bind _ _ _ [] []); [apply connect_transport_connects|done|]. intros _. apply quiet_connects. auto with io.
Qed.
(** The documented output of the URL parser has no line breaks, and neither do
    encoded credentials. *)
Class UrlLaws : Prop := {
  url_path_line s url : url_parse s = Some url → one_line (url_path url);
  url_query_line s url query : url_parse s = Some url → url_query url = Some query → one_line query;
  url_host_line s url host : url_parse s = Some url → url_host_str url = Some host → one_line host;
  url_pinned_line s url address text : url_parse s = Some url → url_pinned url address = Some text → one_line text;
}.
Context {L : UrlLaws}.
Context (authorization_line : from_option one_line True (p ← upstream_proxy; proxy_authorization p)).

Lemma plain_target_line s url addresses target :
  url_parse s = Some url → plain_target upstream_proxy url addresses = Ok target → one_line target.
Proof.
  intros Hp. unfold plain_target, plain_path. destruct upstream_proxy as [proxy|].
  - destruct addresses as [|a l]; cbn; [done|]. destruct (url_pinned url (sock_ip a)) as [x|] eqn:E; cbn; [|done].
    intros [= <-]. by eapply url_pinned_line.
  - intros [= <-]. destruct (url_query url) as [q|] eqn:E; [|by eapply url_path_line]. rewrite !one_line_app. split_and!.
    + by eapply url_path_line.
    + done.
    + by eapply url_query_line.
Qed.
Lemma plain_authority_line s url host :
  url_parse s = Some url → url_host_str url = Some host → one_line (plain_authority url host).
Proof.
  intros Hp Hh. unfold plain_authority. assert (one_line host) by by eapply url_host_line.
  destruct (url_port url) as [port|]; [|done]. rewrite !one_line_app. split_and!; [done..|]. apply dec_one_line.
Qed.
Lemma plain_gated method target version header client rest w :
  w_trace w = [] → asks client header rest method target version →
  let tr := w_trace (forward_plain_http policy pins upstream_proxy resolve method target version header w).2 in
  tr = [] ∨ forwarded (w_resolutions w) client tr.
Proof.
  intros Hw Hasks. cbv zeta. set (Q := λ tr, tr = [] ∨ forwarded (w_resolutions w) client tr).
  change (Q (w_trace (forward_plain_http policy pins upstream_proxy resolve method target version header w).2)).
  assert (∀ status reason, Q (w_trace (write_response status reason w).2)) as Hresp.
  { intros. left. by destruct (quiet_write_response status reason w) as [-> _]. }
  unfold forward_plain_http. destruct (mem method _) eqn:Em; cbn [negb]; [|apply Hresp].
  destruct (url_parse target) as [url|] eqn:Eu; [|apply Hresp].
  destruct (String.eqb_spec (url_scheme url) "http") as [Es|]; cbn [negb orb]; [|apply Hresp].
  destruct (negb _ || _); [apply Hresp|]. destruct (url_host_str url) as [host|] eqn:Eh; [|apply Hresp]. cbv zeta.
  set (port := default 80 (url_port_or_known_default url)).
  apply bind_trace. { intros e w1 E. left. eapply quiet_empty; [|done..]. apply quiet_policy_resolve. }
  intros answer w1 E1. destruct answer as [addresses|].
  2: { left. eapply quiet_empty; [|exact E1|done]. apply quiet_policy_resolve. }
  apply policy_resolve_allowed in E1 as (Hallowed & _ & Hw1).
  assert (∀ tr, attempted tr ⊆ hops addresses → (sent_of tr = [] ∨ ∃ request_target kept text out,
         names_resource url addresses request_target
         ∧ sent_of tr `prefix_of` bytes_of out
         ∧ split_crlf out = request_lines (method ++ " " ++ request_target ++ " " ++ version)
                              (host ++ match url_port url with Some port => ":" ++ dec port | None => "" end) kept
                              (p ← upstream_proxy; proxy_authorization p)
         ∧ Forall harmless_line kept
         ∧ text_of header = (text ++ crlf ++ crlf)%string ∧ kept `sublist_of` tail (split_crlf text)) → Q tr) as Hdone.
  { intros tr Ha Hs. right. exists header, rest, method, target, version, url, host, addresses. split_and!; [done| |done..].
    apply mem_elem in Em. set_solver. }
  destruct (connect_plain_connects addresses w1) as (evs & H1 & H2 & H3 & _). rewrite Hw1, Hw in H1. cbn [app] in H1.
  apply prefix_nil_inv in H3.
  apply bind_trace. { intros e w2 E. rewrite E in H1. cbn in H1. rewrite H1. apply Hdone; [done|by left]. }
  intros connected w2 E2. rewrite E2 in H1. cbn [snd] in H1. destruct connected; cbn [negb].
  2: { destruct (quiet_write_response 502 "upstream-connect-failed" w2) as [-> _]. rewrite H1. apply Hdone; [done|by left]. }
  apply bind_trace. { intros e w3 E. destruct (quiet_lift (plain_target upstream_proxy url addresses) w2) as [T3 _]. rewrite E in T3.
    cbn in T3. rewrite T3, H1. apply Hdone; [done|by left]. }
  intros request_target w3 E3. destruct (plain_target upstream_proxy url addresses) as [t|] eqn:Et; [|done]. injection E3 as -> ->.
  apply bind_trace. { intros e w4 E. destruct (rewrite_plain_header _ _ _ _); [done|]. injection E as -> ->. rewrite H1. apply Hdone; [done|by left]. }
  intros out w4 E4. destruct (rewrite_plain_header _ _ _ _) as [o|] eqn:Er; [|done]. injection E4 as -> ->.
  destruct Hasks as [Hclient (line & more & Hline & _ & Hwords)].
  pose proof (split_whitespace_words line) as Hbytes. rewrite Hwords, !Forall_cons in Hbytes. destruct Hbytes as (Hb1 & _ & Hb3 & _).
  apply rewrite_one_request in Er as (kept & text & Hsplit & Hkept & Htext & Hsub).
  2: { rewrite !one_line_app. split_and!; [by apply word_one_line|done|by eapply plain_target_line|done|by apply word_one_line]. }
  2: { by eapply plain_authority_line. }
  2: { done. }
  assert (emits (upstream_write (bytes_of out) ;; upstream_flush ;; configure_tunnel_timeouts ;;
    relay_one_http_response (String.eqb method "HEAD")) (bytes_of out ++ [])) as Hemit.
  { apply emits_bind; [apply emits_upstream_write|]. intros _. apply quiet_emits. auto with io. }
  destruct (Hemit w4) as (evs' & K1 & K2 & K3 & _). rewrite K1, H1, app_nil_r in *. apply Hdone.
  - rewrite attempted_app, (attempted_none evs') by done. by rewrite app_nil_r.
  - right. exists request_target, kept, text, out. split_and!; [by apply plain_target_names|by rewrite sent_of_app, H3| |done..].
    rewrite Hsplit. unfold plain_authority. destruct (url_port url); [done|]. by rewrite str_app_nil_r.
Qed.

Lemma three_words parts method target version :
  parts !! 3%nat = None → starts_with "HTTP/1." version = true →
  default ""%string (parts !! 0%nat) = method → default ""%string (parts !! 1%nat) = target →
  default ""%string (parts !! 2%nat) = version → parts = [method; target; version].
Proof.
  intros H3 Hv. destruct parts as [|a [|b [|c [|d l]]]]; cbn in *; intros <- <- <-; done.
Qed.

(** C17: Nothing leaves except what the policy allowed.  Whatever the client,
    the network and the upstream proxy do, either no connection is attempted
    and nothing is sent, or the client asked for a target and the policy
    allowed it for exactly the answer set that is used: the addresses pinned for
    the target, and without a pin those of the one resolution that is made.
    Every address attempted is of that set, or, with an upstream proxy, of that
    proxy, which is asked to CONNECT to the first address of the set and sees
    the name only in the Host header.  For a tunnel the bytes sent begin with
    that request, if there is one, and a ClientHello, of the length it announces,
    that names the very host of the CONNECT.  For a plain request they are one
    GET or HEAD request for the resource and the host asked for; its other lines
    come from the client, and none of them frames a body, names a host or is
    meant for the next hop. *)
Theorem egress_gated turns started w :
  w_trace w = [] →
  let tr := w_trace (handle_connection policy pins upstream_proxy resolve turns started w).2 in
  tr = [] ∨ tunnelled (w_resolutions w) (stream (w_client w)) tr ∨ forwarded (w_resolutions w) (stream (w_client w)) tr.
Proof.
  intros Hw. cbv zeta. set (Q := λ tr, tr = [] ∨ tunnelled (w_resolutions w) (stream (w_client w)) tr
                                       ∨ forwarded (w_resolutions w) (stream (w_client w)) tr).
  change (Q (w_trace (handle_connection policy pins upstream_proxy resolve turns started w).2)). unfold handle_connection.
  apply bind_trace. { intros e w1 E. left. eapply quiet_empty; [|done..]. auto with io. }
  intros [] w1 E1. assert (w_trace w1 = []) as Hw1 by (eapply quiet_empty; [|done..]; auto with io).
  apply bind_trace. { intros e w2 E. left. eapply quiet_empty; [|done..]. auto with io. }
  intros [] w2 E2. assert (w_trace w2 = []) as Hw2 by (eapply quiet_empty; [|done..]; auto with io).
  apply set_timeout_client in E1 as [C1 R1], E2 as [C2 R2].
  assert (w_client w2 = w_client w) as Hc by congruence. assert (w_resolutions w2 = w_resolutions w) as Hr by congruence.
  assert (quiet read_request_header) as Hq by (unfold read_request_header; auto with io).
  apply bind_trace. { intros e w3 E. left. by eapply quiet_empty. }
  intros request w3 E3. assert (w_trace w3 = []) as Hw3 by by eapply quiet_empty.
  pose proof (eq_trans (read_request_header_resolutions _ _ _ E3) Hr) as Hr3.
  assert (∀ status reason (b : bool), Q (w_trace ((write_response status reason ;; ret b) w3).2)) as Hresp.
  { intros status reason b. left. assert (quiet (write_response status reason ;; ret b)) as H by auto with io.
    by destruct (H w3) as [-> _]. }
  destruct request as [[line header]|]; [|by left]. apply read_request_header_client in E3 as [S3 Hline]. cbv zeta.
  destruct (split_whitespace line !! 3%nat) as [|] eqn:E4; cbn [is_some orb]; [apply Hresp|].
  destruct (starts_with "HTTP/1." _) eqn:Ev; cbn [negb]; [|apply Hresp].
  pose proof (three_words _ _ _ _ E4 Ev eq_refl eq_refl eq_refl) as Hwords. rewrite Hc in S3.
  set (target := default "" (split_whitespace line !! 1%nat)) in *. set (version := default "" (split_whitespace line !! 2%nat)) in *.
  set (method := default "" (split_whitespace line !! 0%nat)) in *.
  assert (asks (stream (w_client w)) header (stream (w_client w3)) method target version) as Hasks.
  { split; [done|]. destruct (request_line_of_spec _ _ Hline) as (more & H1 & H2). by exists line, more. }
  destruct (String.eqb_spec method "CONNECT") as [Em|]; cbn [negb].
  - rewrite Em in Hasks. destruct (parse_authority target) as [[host port]|] eqn:Ea; [|apply Hresp].
    apply bind_trace. { intros e w4 E. left. eapply quiet_empty; [|done..]. apply quiet_policy_resolve. }
    intros answer w4 E. destruct answer as [addresses|].
    2: { left. eapply quiet_empty; [|exact E|done]. apply quiet_policy_resolve. }
    apply parse_authority_names in Ea. apply policy_resolve_allowed in E as (Hallowed & Hc4 & Hw4). rewrite <- Hc4 in Hasks. rewrite Hw3 in Hw4.
    rewrite Hr3 in Hallowed.
    destruct (tunnel_gated turns started _ host port addresses _ _ _ _ w4 Hw4 Hasks Ea Hallowed); [by left|by right; left].
  - apply bind_trace.
    + intros e w4 E. pose proof (plain_gated method target version header _ _ w3 Hw3 Hasks) as H. cbv zeta in H. rewrite Hr3 in H.
      rewrite E in H. destruct H; [by left|by right; right].
    + intros [] w4 E. pose proof (plain_gated method target version header _ _ w3 Hw3 Hasks) as H. cbv zeta in H. rewrite Hr3 in H.
      rewrite E in H. destruct H; [by left|by right; right].
Qed.
End gate.

(** * A tunnel and a plain request *)

(** A URL crate for the witness: it knows [http://host/path] on one line. *)
Record SampleUrl : Type := mkSampleUrl { su_host : string; su_path : string }.
Definition sample_parse (s : string) : option SampleUrl :=
  rest ← strip_prefix "http://" s;
  '(host, path) ← split_once "/"%char rest;
  if str_all line_byte (host ++ "/" ++ path) then Some (mkSampleUrl host ("/" ++ path)) else None.
Definition sample_urls : UrlCrate := {|
  Url := SampleUrl;
  url_parse := sample_parse;
  url_scheme _ := "http"; url_username _ := ""; url_password _ := None;
  url_host_str u := Some (su_host u);
  url_port _ := None; url_port_or_known_default _ := Some 80;
  url_path := su_path; url_query _ := None; url_fragment _ := None;
  url_pinned u a := None;
|}.
Lemma sample_urls_laws : @UrlLaws sample_urls.
Proof.
  assert (∀ s u, sample_parse s = Some u → one_line (su_host u) ∧ one_line (su_path u)) as H.
  { intros s u. unfold sample_parse. destruct (strip_prefix _ s) as [rest|]; cbn; [|done].
    destruct (split_once "/" rest) as [[host path]|]; cbn; [|done].
    destruct (str_all line_byte (host ++ "/" ++ path)) eqn:E; [|done]. intros [= <-]. by apply one_line_app in E. }
  split; cbn.
  - intros s u Hu. by destruct (H s u Hu).
  - done.
  - intros s u host Hu [= <-]. by destruct (H s u Hu).
  - done.
Qed.
Definition no_tls : TlsClient := λ _ s, Ok s.
Definition arrive (b : Bytes) : list Arrival := match b with [] => [] | c :: l => [Data c l] end.
Definition sample_record (b : Bytes) : Bytes := hello_record ([ascii_of_nat 3; ascii_of_nat 1], b).
Definition sample_world (request : string) (more : Bytes) (reply : string) : World :=
  mkWorld (mkSock (arrive (bytes_of request) ++ arrive more) [] []) None
    [None; Some (mkSock (arrive (bytes_of reply)) [] [])] [] 0 0 [].
Definition sample_answers (port : Z) : list SocketAddr :=
  [mkSocketAddr (V4 (mkV4 1 1 1 1)) port; mkSocketAddr (V4 (mkV4 1 1 1 2)) port].
Definition sample_run (w : World) : Result bool IoKind * World :=
  @handle_connection sample_urls no_tls egress_default ∅ None (λ _ _ port, Some (sample_answers port))
    [mkTurn true 0 0 0; mkTurn true 40000 0 0] 0 w.
Definition sample_connect (host sni : string) : World :=
  sample_world ("CONNECT " ++ host ++ ":443 HTTP/1.1" ++ crlf ++ crlf)
    (sample_record (sample_hello [sample_name sni])) "hello".
Definition sample_get : World :=
  sample_world ("GET http://crates.io/a HTTP/1.1" ++ crlf ++ "Host: evil" ++ crlf ++ "X-A: 1" ++ crlf ++ crlf) []
    ("HTTP/1.1 200 OK" ++ crlf ++ "Content-Length: 3" ++ crlf ++ crlf ++ "hey").
Example sample_runs :
  map (λ w, length (w_trace (sample_run w).2))
    [sample_connect "crates.io" "Crates.io"; sample_connect "crates.io" "example.com"; sample_connect "example.com" "example.com"]
  = [3; 0; 0]%nat
  ∧ w_denials (sample_run (sample_connect "example.com" "example.com")).2 = 1
  ∧ text_of (sent_of (w_trace (sample_run sample_get).2)) =
    ("GET /a HTTP/1.1" ++ crlf ++ "X-A: 1" ++ crlf ++ "Host: crates.io" ++ crlf ++ "Connection: close" ++ crlf ++ crlf)%string.
Proof. vm_compute. repeat split. Qed.
(** Through an upstream proxy, with a pinned target *)
Example pinned_run :
  let reply := mkSock (arrive (bytes_of ("HTTP/1.1 200 OK" ++ crlf ++ crlf))) [] [] in
  let w := sample_connect "crates.io" "crates.io" in
  let proxy := mkUpstreamProxy (U := sample_urls) (mkSampleUrl "proxy" "/") [mkSocketAddr (V4 (mkV4 10 0 0 1)) 3128] None in
  let tr := w_trace (@handle_connection sample_urls no_tls egress_default
      {[("crates.io", 443) := [mkSocketAddr (V4 (mkV4 1 1 1 9)) 443]]} (Some proxy) (λ _ _ port, Some (sample_answers port))
      [mkTurn false 0 0 0] 0 (set_connects [Some reply] w)).2 in
  attempted tr = [mkSocketAddr (V4 (mkV4 10 0 0 1)) 3128]
  ∧ starts_with ("CONNECT 1.1.1.9:443 HTTP/1.1" ++ crlf ++ "Host: crates.io:443" ++ crlf) (text_of (sent_of tr)) = true.
Proof. vm_compute. repeat split. Qed.
Lemma egress_gated_witness :
  w_trace (sample_run (sample_connect "crates.io" "crates.io")).2 ≠ []
  ∧ (w_trace (sample_run (sample_connect "crates.io" "crates.io")).2 = []
     ∨ @tunnelled sample_urls egress_default ∅ None (λ _ _ port, Some (sample_answers port)) 0
         (stream (w_client (sample_connect "crates.io" "crates.io")))
         (w_trace (sample_run (sample_connect "crates.io" "crates.io")).2)
     ∨ @forwarded sample_urls egress_default ∅ None (λ _ _ port, Some (sample_answers port)) 0
         (stream (w_client (sample_connect "crates.io" "crates.io")))
         (w_trace (sample_run (sample_connect "crates.io" "crates.io")).2)).
Proof.
  split.
  - enough (length (w_trace (sample_run (sample_connect "crates.io" "crates.io")).2) = 3%nat) as H by (intros E; rewrite E in H; discriminate H).
    vm_compute. reflexivity.
  - exact (@egress_gated sample_urls no_tls egress_default ∅ None (λ _ _ port, Some (sample_answers port)) sample_urls_laws I
             [mkTurn true 0 0 0; mkTurn true 40000 0 0] 0 (sample_connect "crates.io" "crates.io") eq_refl).
Defined.
