(* ===== verification/EgressRelay.v ===== *)
(** The bytes the egress proxy carries ([rw-sandbox/src/proxy.rs]): the
    response to a plain request and the two directions of a tunnel, and that
    the loops on fuel never run out of it. *)
From Stdlib Require Import Ascii.
From S2P Require Import Prelude Text BashSafety Decimal Sse Egress EgressHello EgressHttp EgressProxy EgressSafety.

(** The bytes still to come from upstream, and what the client was written *)
Definition upstream_stream (w : World) : Bytes :=
  match w_upstream w with Some u => stream (u_sock u) | None => [] end.
Definition client_out (w : World) : Bytes := s_out (w_client w).

(** * Reading *)

Lemma script_size_cons a l : script_size (a :: l) = (arrival_size a + script_size l)%nat.
Proof. done. Qed.
(** A read of at least one byte gives bytes and shortens the script, fails, or
    is at the end of the stream. *)
Lemma sock_read_cases n s :
  (0 < n)%nat →
  match sock_read n s with
  | (Ok [], s') => s_in s = [] ∧ s' = s
  | (Ok (c :: l), s') =>
      (length (c :: l) ≤ n)%nat ∧ stream s = ((c :: l) ++ stream s')%list ∧ s_out s' = s_out s ∧ s_writes s' = s_writes s
      ∧ (script_size (s_in s') < script_size (s_in s))%nat
  | (Err _, s') => stream s' = stream s ∧ s_out s' = s_out s ∧ s_writes s' = s_writes s
  end.
Proof.
  intros Hn. pose proof (sock_read_stream n s) as Hs. destruct n as [|n]; [lia|]. unfold sock_read in *.
  destruct s as [[|[b more|e] script] out writes]; [done| |done]. cbn [s_in s_out s_writes take] in *. cbn [fst snd] in Hs.
  split_and!; [cbn; rewrite length_take; lia|exact Hs|done..|]. cbn [s_in drop]. rewrite script_size_cons. cbn [arrival_size].
  destruct (drop n more) as [|c l] eqn:E; [lia|]. rewrite script_size_cons. cbn [arrival_size].
  apply (f_equal length) in E. rewrite length_drop in E. cbn in E. lia.
Qed.
Lemma upstream_read_cases n w :
  (0 < n)%nat → is_some (w_upstream w) = true →
  match upstream_read n w with
  | (Ok [], w') => upstream_stream w = [] ∧ upstream_stream w' = [] ∧ w_client w' = w_client w
  | (Ok (c :: l), w') =>
      (length (c :: l) ≤ n)%nat ∧ upstream_stream w = ((c :: l) ++ upstream_stream w')%list ∧ w_client w' = w_client w
      ∧ is_some (w_upstream w') = true ∧ (upstream_size w' < upstream_size w)%nat
  | (Err _, w') => upstream_stream w' = upstream_stream w ∧ w_client w' = w_client w
  end.
Proof.
  intros Hn Hu. unfold upstream_read, upstream_stream, upstream_size.
  destruct (w_upstream w) as [u|]; [|done]. pose proof (sock_read_cases n (u_sock u) Hn) as H.
  destruct (sock_read n (u_sock u)) as [[[|c l]|e] s']; cbn in *.
  - destruct H as [H ->]. unfold stream. by rewrite H.
  - naive_solver.
  - by destruct H as [-> _].
Qed.
(** A write puts the bytes out, or some of them and fails. *)
Lemma client_write_cases bytes w :
  match client_write bytes w with
  | (Ok _, w') => client_out w' = (client_out w ++ bytes)%list ∧ w_upstream w' = w_upstream w
  | (Err _, w') => (∃ n, client_out w' = (client_out w ++ take n bytes)%list) ∧ w_upstream w' = w_upstream w
  end.
Proof. unfold client_write, sock_write, client_out. destruct (w_client w) as [i o [|[|n e] l]]; cbn; eauto. Qed.

(** * The response to a plain request *)

(** The body [body] was taken from upstream and [out] of it was written. *)
Lemma relay_loop_spec fuel size transferred w :
  is_some (w_upstream w) = true → (upstream_size w < fuel)%nat → 0 ≤ transferred ≤ MAX_PLAIN_RESPONSE_BYTES →
  (∀ n, size = Some n → transferred ≤ n ≤ MAX_PLAIN_RESPONSE_BYTES) →
  let '(r, w') := relay_loop fuel size transferred w in
  ∃ body out, upstream_stream w = (body ++ upstream_stream w')%list ∧ client_out w' = (client_out w ++ out)%list
    ∧ out `prefix_of` body ∧ transferred + Z.of_nat (length out) ≤ MAX_PLAIN_RESPONSE_BYTES
    ∧ (r = Ok tt → out = body
       ∧ match size with Some n => transferred + Z.of_nat (length body) = n | None => upstream_stream w' = [] end).
Proof.
  revert transferred w. induction fuel as [|fuel IH]; intros transferred w Hu Hf Ht Hsize; [lia|]. cbn [relay_loop].
  assert (∀ (r : Result unit IoKind) w', upstream_stream w' = upstream_stream w → w_client w' = w_client w →
    (r = Ok tt → match size with Some n => transferred = n | None => upstream_stream w' = [] end) →
    ∃ body out, upstream_stream w = (body ++ upstream_stream w')%list ∧ client_out w' = (client_out w ++ out)%list
    ∧ out `prefix_of` body ∧ transferred + Z.of_nat (length out) ≤ MAX_PLAIN_RESPONSE_BYTES
    ∧ (r = Ok tt → out = body
       ∧ match size with Some n => transferred + Z.of_nat (length body) = n | None => upstream_stream w' = [] end)) as Hstop.
  { intros r w' Es Ec Hr. exists [], []. unfold client_out. rewrite Es, Ec, app_nil_r. split_and!; [done..|cbn; lia|].
    intros H. specialize (Hr H). split; [done|]. destruct size; [cbn; lia|congruence]. }
  set (remaining := match size with Some n => Z.min (sat_sub n transferred) BUFFER_BYTES | None => BUFFER_BYTES end).
  assert (0 ≤ remaining ≤ BUFFER_BYTES ∧ ∀ n, size = Some n → remaining ≤ n - transferred ∧ (remaining = 0 → transferred = n)) as [Hrem Hn].
  { unfold remaining, BUFFER_BYTES, sat_sub. destruct size as [n|]; [specialize (Hsize n eq_refl)|]; split; try lia; intros ? [= <-]; lia. }
  destruct (Z.eqb_spec remaining 0) as [H0|H0].
  { cbn. apply Hstop; [done..|]. intros _. destruct size as [n|]; [by apply Hn|]. by unfold remaining in H0. }
  unfold bind at 1. pose proof (upstream_read_cases (Z.to_nat remaining) w ltac:(lia) Hu) as Hread.
  destruct (upstream_read (Z.to_nat remaining) w) as [[[|c l]|e] w1].
  - destruct Hread as (E1 & E2 & Ec). destruct size as [n|].
    + destruct (Z.eqb_spec transferred n) as [->|]; cbn [negb]; cbn; (apply Hstop; [congruence|done|done]).
    + cbn. apply Hstop; [congruence|done|done].
  - destruct Hread as (Hl & Es & Ec & Hu1 & Hsz). set (chunk := c :: l) in *. cbv zeta.
    assert (Z.of_nat (length chunk) ≤ remaining) as Hlen by lia.
    assert (sat_add transferred (Z.of_nat (length chunk)) = transferred + Z.of_nat (length chunk)) as ->.
    { apply sat_add_exact. unfold MAX_PLAIN_RESPONSE_BYTES, BUFFER_BYTES, u64_max in *. lia. }
    destruct (Z.ltb_spec MAX_PLAIN_RESPONSE_BYTES (transferred + Z.of_nat (length chunk))) as [Hbig|Hsmall].
    { cbn. exists chunk, []. unfold client_out. rewrite Es, Ec, app_nil_r. split_and!; [done..|apply prefix_nil|cbn; lia|done]. }
    unfold bind at 1. pose proof (client_write_cases chunk w1) as Hwrite.
    destruct (client_write chunk w1) as [[[]|e] w2].
    + destruct Hwrite as [Eo Eu]. assert (upstream_stream w2 = upstream_stream w1 ∧ upstream_size w2 = upstream_size w1) as [Es2 Ez2].
      { unfold upstream_stream, upstream_size. by rewrite Eu. }
      specialize (IH (transferred + Z.of_nat (length chunk)) w2). rewrite Eu, Ez2 in IH.
      specialize (IH Hu1 ltac:(lia) ltac:(lia)).
      assert (∀ n, size = Some n → transferred + Z.of_nat (length chunk) ≤ n ≤ MAX_PLAIN_RESPONSE_BYTES) as Hsize'.
      { intros n E. destruct (Hn n E). specialize (Hsize n E). lia. }
      specialize (IH Hsize'). destruct (relay_loop _ _ _ w2) as [r w3].
      destruct IH as (body & out & B1 & B2 & B3 & B4 & B5). exists (chunk ++ body)%list, (chunk ++ out)%list.
      unfold client_out in *. rewrite Es, <- Es2, B1, B2, Eo, Ec, !app_assoc, !length_app. split_and!; [done..|by apply prefix_app|lia|].
      intros Hr. destruct (B5 Hr) as [-> H]. split; [done|]. destruct size; [lia|done].
    + destruct Hwrite as [[n Eo] Eu]. exists chunk, (take n chunk). unfold client_out, upstream_stream in *. rewrite Eo, Ec, Eu, Es.
      split_and!; [done..|apply prefix_take|rewrite length_take; lia|done].
  - destruct Hread as [Es Ec]. apply Hstop; [done..|]. done.
Qed.
Lemma header_loop_upstream room seen w :
  is_some (w_upstream w) = true →
  let '(r, w') := header_loop (upstream_read 1) room seen w in
  ∃ more, upstream_stream w = (more ++ upstream_stream w')%list ∧ w_client w' = w_client w ∧ (length more ≤ room)%nat
    ∧ ∀ bytes, r = Ok (Some bytes) → bytes = (rev seen ++ more)%list ∧ is_some (w_upstream w') = true.
Proof.
  revert seen w. induction room as [|room IH]; intros seen w Hu; cbn [header_loop]; [by exists []|].
  unfold bind. pose proof (upstream_read_cases 1 w ltac:(lia) Hu) as H.
  destruct (upstream_read 1 w) as [[[|c l]|e] w1].
  - destruct H as (-> & H & Hc). cbn. exists []. rewrite H. split_and!; [done..|cbn; lia|done].
  - destruct H as (Hl & Hs & Hc & Hu1 & _). destruct l; [|cbn in Hl; lia]. destruct (_ || _).
    + exists [c]. split_and!; [done..|cbn; lia|]. by intros ? [= <-].
    + specialize (IH (c :: seen) w1 Hu1). destruct (header_loop _ room _ w1) as [r w2].
      destruct IH as (more & H1 & H2 & H3 & H4). exists (c :: more). rewrite Hs, H1, H2. cbn. split_and!; [done..|lia|].
      intros bytes [-> ?]%H4. cbn. by rewrite <- app_assoc.
  - destruct H as [Hs Hc]. exists []. rewrite Hs. split_and!; [done..|cbn; lia|done].
Qed.
Lemma parse_digits_nonneg max acc s n : 0 ≤ acc → parse_digits max acc s = Some n → 0 ≤ n.
Proof.
  revert acc. induction s as [|c s IH]; intros acc Ha; cbn; [by intros [= <-]|].
  unfold digit_value. destruct (_ && _) eqn:E; [|done]. apply andb_prop in E as [E _]. destruct (_ <=? max); [|done].
  apply IH. lia.
Qed.
(** * The framing of a response *)

(** A line [name:value] *)
Definition field_line (line : string) (field : string * string) : Prop :=
  line = (field.1 ++ ":" ++ field.2)%string ∧ one_line line ∧ field.1 ≠ ""
  ∧ str_all (λ c, is_ascii_alphanumeric c || Ascii.eqb c "-"%char) field.1 = true.
Definition field_values (name : string) (fields : list (string * string)) : list string :=
  omap (λ field, if String.eqb (to_ascii_lowercase field.1) name then Some field.2 else None) fields.
(** One number below the bound *)
Definition length_value (value : string) (n : Z) : Prop :=
  contains_any "," value = false ∧ parse_uint usize_max (trim value) = Some n ∧ 0 ≤ n ≤ MAX_PLAIN_RESPONSE_BYTES.
(** The length a header announces: no field is transfer-encoded, and at most one
    gives a length. *)
Definition announces (fields : list (string * string)) (size : option Z) : Prop :=
  field_values "transfer-encoding" fields = []
  ∧ match size with
    | Some n => ∃ value, field_values "content-length" fields = [value] ∧ length_value value n
    | None => field_values "content-length" fields = []
    end.
(** A response that has no body whatever its header says *)
Definition bodiless (head_request : bool) (status : Z) : Prop :=
  head_request = true ∨ 100 ≤ status ≤ 199 ∨ status = 204 ∨ status = 304.
(** The framing of a response whose body is [body], with [later] after it: a status
    line, header fields that announce one length or none, and the body they
    announce *)
Definition framed (header : Bytes) (head_request : bool) (body later : Bytes) : Prop :=
  ∃ text status_line lines version code reason status fields size,
    text_of header = (text ++ crlf ++ crlf)%string ∧ split_crlf text = status_line :: lines
    ∧ split_whitespace status_line = version :: code :: reason ∧ parse_uint u16_max code = Some status
    ∧ Forall2 field_line (filter (λ line, line ≠ "") lines) fields ∧ announces fields size
    ∧ (bodiless head_request status ∧ body = []
       ∨ ¬ bodiless head_request status
         ∧ match size with Some n => Z.of_nat (length body) = n | None => later = [] end).

Lemma framing_fields lines found size :
  framing_lines lines found = Ok size →
  ∃ fields, Forall2 field_line (filter (λ line, line ≠ "") lines) fields
    ∧ field_values "transfer-encoding" fields = []
    ∧ match found with
      | Some _ => size = found ∧ field_values "content-length" fields = []
      | None => announces fields size
      end.
Proof.
  revert found. induction lines as [|line lines IH]; intros found; cbn [framing_lines].
  { intros [= <-]. exists []. split_and!; [by constructor|done|by destruct found]. }
  destruct (is_empty line) eqn:Ee.
  { apply String.eqb_eq in Ee as ->. rewrite filter_cons_False by naive_solver. apply IH. }
  apply String.eqb_neq in Ee. rewrite filter_cons_True by done.
  destruct (strict_header_line line) as [[name value]|] eqn:El; [|done]. apply strict_line_inv in El as (L1 & L2 & L3 & L4).
  assert (field_line line (name, value)) as Hline by (by split_and!). unfold eq_ignore_case.
  change (to_ascii_lowercase "transfer-encoding") with "transfer-encoding".
  change (to_ascii_lowercase "content-length") with "content-length".
  destruct (String.eqb_spec (to_ascii_lowercase name) "transfer-encoding") as [|Ht]; [done|].
  assert (∀ fields, field_values "transfer-encoding" ((name, value) :: fields) = field_values "transfer-encoding" fields) as Hte.
  { intros fields. unfold field_values. cbn [omap list_omap fst]. by rewrite (proj2 (String.eqb_neq _ _)). }
  destruct (String.eqb_spec (to_ascii_lowercase name) "content-length") as [Hc|Hc].
  - destruct found as [n|]; cbn [is_some orb]; [done|]. destruct (contains_any "," value) eqn:Ec; [done|].
    destruct (parse_uint usize_max (trim value)) as [n|] eqn:En; [|done].
    destruct (Z.ltb_spec MAX_PLAIN_RESPONSE_BYTES n); [done|]. intros (fields & F1 & F2 & -> & F4)%IH.
    exists ((name, value) :: fields). split; [by constructor|]. split; [by rewrite Hte|]. split; [by rewrite Hte|].
    exists value. split; [unfold field_values in *; cbn [omap list_omap fst]; by rewrite Hc, F4|]. split_and!; [done..| |done].
    unfold parse_uint in En. destruct (trim value) as [|c s]; [done|]. destruct (Ascii.eqb c _); [destruct s; [done|]|];
      by eapply parse_digits_nonneg.
  - assert (∀ fields, field_values "content-length" ((name, value) :: fields) = field_values "content-length" fields) as Hcl.
    { intros fields. unfold field_values. cbn [omap list_omap fst]. by rewrite (proj2 (String.eqb_neq _ _)). }
    intros (fields & F1 & F2 & F3)%IH. exists ((name, value) :: fields). unfold announces in *. rewrite Hte, Hcl.
    split_and!; [by constructor|done..].
Qed.
Lemma response_framing_spec header head_request size forbidden :
  response_framing header head_request = Ok (size, forbidden) →
  (∀ n, size = Some n → 0 ≤ n ≤ MAX_PLAIN_RESPONSE_BYTES)
  ∧ ∀ body later, (if (forbidden : bool) then body = []
      else match size with Some n => Z.of_nat (length body) = n | None => later = [] end) → framed header head_request body later.
Proof.
  unfold response_framing, strict_header_text. destruct (utf8_valid [] header); [|done].
  destruct (strip_suffix (crlf ++ crlf) (text_of header)) as [text|] eqn:Et; cbn [ok_or]; [|done]. apply strip_suffix_inv in Et.
  cbv zeta. destruct (split_crlf text) as [|status_line lines] eqn:Es; [done|]. cbn [head tail mbind option_bind].
  unfold status_of. destruct (split_whitespace status_line) as [|version [|code reason]] eqn:Ew; [done..|].
  cbn [lookup list_lookup mbind option_bind]. destruct (parse_uint u16_max code) as [status|] eqn:Ep; cbn [ok_or]; [|done].
  destruct (framing_lines lines None) as [z|] eqn:El; [|done]. intros [= <- <-].
  apply framing_fields in El as (fields & F1 & _ & F3). split.
  { intros n ->. by destruct F3 as (_ & value & _ & _ & _ & H). }
  intros body later Hb. exists text, status_line, lines, version, code, reason, status, fields, z.
  split_and!; [done..|]. unfold bodiless. destruct (_ || (status =? 304)) eqn:Ef; [left|right]; (split; [|done]).
  - rewrite !orb_true_iff, andb_true_iff in Ef. destruct Ef as [[[?|[? ?]]|?]|?]; [by left|right; lia..].
  - rewrite !orb_false_iff, andb_false_iff in Ef. destruct Ef as [[[-> H] ?] ?]. intros [?|?]; [done|]. lia.
Qed.

(** C22: A plain response is carried exactly and within its bound.  Whatever
    the upstream server sends and however the writes go, the client gets a
    prefix of it, never more than a header of 16 KiB and a body of 16 MiB.  When
    the relay succeeds, the client got nothing (the header was cut short) or a
    response with unambiguous framing: a status line with a status, header
    fields of which none is a transfer encoding and at most one a content length,
    which is a single number within the bound, and then exactly the body they
    announce, namely the bytes of the content length, everything up to the end of
    the stream when there is none, and nothing in answer to a HEAD request or with
    a status of 1xx, 204 or 304. *)
Theorem response_relayed head_request w :
  is_some (w_upstream w) = true →
  let '(r, w') := relay_one_http_response head_request w in
  ∃ taken out, upstream_stream w = (taken ++ upstream_stream w')%list ∧ client_out w' = (client_out w ++ out)%list
    ∧ out `prefix_of` taken ∧ Z.of_nat (length out) ≤ Z.of_nat MAX_HEADER_BYTES + MAX_PLAIN_RESPONSE_BYTES
    ∧ (r = Ok tt → out = [] ∨ ∃ header body, out = (header ++ body)%list ∧ taken = out
                                 ∧ framed header head_request body (upstream_stream w')).
Proof.
  intros Hu. unfold relay_one_http_response, bind at 1, read_stream_header.
  pose proof (header_loop_upstream MAX_HEADER_BYTES [] w Hu) as Hh. set (room := MAX_HEADER_BYTES) in *. clearbody room.
  destruct (header_loop (upstream_read 1) room [] w) as [[[header|]|e] w1]; destruct Hh as (taken & S1 & C1 & L1 & H1).
  2,3: exists taken, []; unfold client_out; rewrite app_nil_r; split_and!;
    [done|by rewrite C1|apply prefix_nil|unfold MAX_PLAIN_RESPONSE_BYTES; cbn; lia|by left || done].
  destruct (H1 header eq_refl) as [-> Hu1]. cbn [rev app]. unfold bind at 1.
  destruct (response_framing taken head_request) as [[size forbidden]|e] eqn:Ef; cbn [lift].
  2: { cbn. exists taken, []. unfold client_out. rewrite app_nil_r. split_and!;
    [done|by rewrite C1|apply prefix_nil|unfold MAX_PLAIN_RESPONSE_BYTES; cbn; lia|done]. }
  unfold ret at 1. unfold bind at 1. pose proof (client_write_cases taken w1) as Hw.
  destruct (client_write taken w1) as [[[]|e] w2].
  2: { destruct Hw as [[n Eo] Eu]. exists taken, (take n taken). unfold client_out, upstream_stream in *. rewrite Eo, Eu, C1.
    split_and!; [done..|apply prefix_take|rewrite length_take; unfold MAX_PLAIN_RESPONSE_BYTES; lia|done]. }
  destruct Hw as [Eo Eu]. assert (upstream_stream w2 = upstream_stream w1) as Es by by unfold upstream_stream; rewrite Eu.
  destruct forbidden.
  - cbn. exists taken, taken. unfold client_out in *. rewrite Es, Eo, C1.
    split_and!; [done..|unfold MAX_PLAIN_RESPONSE_BYTES; lia|]. intros _. right. exists taken, [].
    split_and!; [by rewrite app_nil_r|done|]. by apply (proj2 (response_framing_spec _ _ _ _ Ef)).
  - destruct (response_framing_spec _ _ _ _ Ef) as [Hsize Hframed].
    pose proof (relay_loop_spec (S (upstream_size w2)) size 0 w2) as Hr. rewrite Eu in Hr.
    specialize (Hr Hu1 ltac:(lia) ltac:(unfold MAX_PLAIN_RESPONSE_BYTES; lia) Hsize).
    destruct (relay_loop (S (upstream_size w2)) size 0 w2) as [r w3].
    destruct Hr as (body & out & B1 & B2 & B3 & B4 & B5). exists (taken ++ body)%list, (taken ++ out)%list.
    unfold client_out in *. rewrite S1, <- Es, B1, B2, Eo, C1, !app_assoc, length_app. split_and!; [done..|by apply prefix_app|lia|].
    intros E. destruct (B5 E) as [-> Hb]. right. exists taken, body. split_and!; [done..|].
    apply Hframed. destruct size; [lia|done].
Qed.
Definition sample_response (text : string) : World :=
  mkWorld (mkSock [] [] []) (Some (mkUpstream false (mkSocketAddr (V4 (mkV4 1 1 1 1)) 80) (mkSock (arrive (bytes_of text)) [] [])))
    [] [] 0 0 [].
Definition sample_text : string := "HTTP/1.1 200 OK" ++ crlf ++ "Content-Length: 3" ++ crlf ++ crlf ++ "hey and more".
Lemma response_relayed_witness :
  text_of (client_out (relay_one_http_response false (sample_response sample_text)).2) =
    ("HTTP/1.1 200 OK" ++ crlf ++ "Content-Length: 3" ++ crlf ++ crlf ++ "hey")%string
  ∧ let '(r, w') := relay_one_http_response false (sample_response sample_text) in
    ∃ taken out, upstream_stream (sample_response sample_text) = (taken ++ upstream_stream w')%list
      ∧ client_out w' = (client_out (sample_response sample_text) ++ out)%list
      ∧ out `prefix_of` taken ∧ Z.of_nat (length out) ≤ Z.of_nat MAX_HEADER_BYTES + MAX_PLAIN_RESPONSE_BYTES
      ∧ (r = Ok tt → out = [] ∨ ∃ header body, out = (header ++ body)%list ∧ taken = out
                                   ∧ framed header false body (upstream_stream w')).
Proof. split; [vm_compute; reflexivity|exact (response_relayed false (sample_response sample_text) eq_refl)]. Defined.

(** * The fuel of the ClientHello *)

Lemma hello_fuel_any f1 f2 captured handshake w :
  Z.of_nat (length captured) ≤ MAX_CLIENT_HELLO_BYTES →
  MAX_CLIENT_HELLO_BYTES - Z.of_nat (length captured) < 6 * Z.of_nat f1 →
  MAX_CLIENT_HELLO_BYTES - Z.of_nat (length captured) < 6 * Z.of_nat f2 →
  hello_loop f1 captured handshake w = hello_loop f2 captured handshake w.
Proof.
  revert f2 captured handshake w. induction f1 as [|f1 IH]; intros [|f2] captured handshake w Hc H1 H2; [lia..|].
  cbn [hello_loop]. unfold bind at 1 3, outcome. destruct (client_read_exact 5 w) as [[header|e] w1] eqn:E1; [|done].
  destruct (negb _); [done|]. destruct (_ || _ || _) eqn:Eg; [done|].
  unfold bind. destruct (client_read_exact _ w1) as [[payload|e] w2] eqn:E2; [|done].
  destruct (hello_step _ _); [done|]. apply client_read_exact_stream in E1 as [L1 _], E2 as [L2 _].
  apply orb_false_iff in Eg as [[Ez _]%orb_false_iff Em]. apply Nat.eqb_neq in Ez. apply Z.ltb_ge in Em.
  rewrite <- L2 in Ez, Em. unfold sat_add, MAX_CLIENT_HELLO_BYTES, u64_max in *.
  apply IH; rewrite !length_app; lia.
Qed.
(** More fuel changes nothing: a hello is read until it is complete, cut off or
    too long. *)
Lemma hello_fuel_enough fuel w : (HELLO_FUEL ≤ fuel)%nat → hello_loop fuel [] [] w = read_tls_client_hello w.
Proof.
  unfold read_tls_client_hello, HELLO_FUEL. change (64 * 1024 / 6 + 2) with 10924. intros Hf.
  apply hello_fuel_any; unfold MAX_CLIENT_HELLO_BYTES in *; cbn [length]; lia.
Qed.

(** * The tunnel *)

(** From [w] on, [first] and then [up], taken from the client, were sent on,
    and [down] was taken from upstream and written to the client: all of it
    unless there was a failure. *)
Definition carried {A} (first : Bytes) (w : World) (p : Result A IoKind * World) : Prop :=
  ∃ evs up down out,
    w_trace p.2 = (w_trace w ++ evs)%list ∧ stream (w_client w) = (up ++ stream (w_client p.2))%list
    ∧ sent_of evs `prefix_of` (first ++ up)%list
    ∧ upstream_stream w = (down ++ upstream_stream p.2)%list ∧ client_out p.2 = (client_out w ++ out)%list
    ∧ out `prefix_of` down ∧ is_some (w_upstream p.2) = true
    ∧ (is_ok p.1 = true → sent_of evs = (first ++ up)%list ∧ out = down).
Definition carries {A} (m : Io A) : Prop := ∀ w, is_some (w_upstream w) = true → carried [] w (m w).
Lemma carries_same {A} (r : World → Result A IoKind) (f : World → World) :
  (∀ w, w_trace (f w) = w_trace w ∧ w_client (f w) = w_client w ∧ w_upstream (f w) = w_upstream w) → carries (λ w, (r w, f w)).
Proof.
  intros H w Hu. destruct (H w) as (H1 & H2 & H3). exists [], [], [], []. unfold client_out, upstream_stream. cbn [fst snd].
  rewrite H1, H2, H3, !app_nil_r. by split_and!.
Qed.
Lemma carries_ret {A} (a : A) : carries (ret a).
Proof. by apply (carries_same (λ _, Ok a) (λ w, w)). Qed.
Lemma carries_fail {A} e : carries (@fail A e).
Proof. by apply (carries_same (λ _, Err e) (λ w, w)). Qed.
Lemma carries_pop_option : carries pop_option.
Proof.
  intros w. pose proof (carries_same (λ _, (pop_option w).1) (λ w, set_options (tail (w_options w)) w)) as H.
  specialize (H ltac:(done) w). unfold pop_option in *. by destruct w as [? ? ? [|[]] ? ?].
Qed.
Lemma carries_flush : carries upstream_flush.
Proof.
  intros w Hu. unfold upstream_flush. destruct (w_upstream w) as [u|] eqn:E; [|done].
  destruct (u_tls u); [by apply carries_pop_option; rewrite E|]. apply (carries_ret tt w). by rewrite E.
Qed.
Lemma carried_next {A B} first w (p : Result A IoKind * World) (k : A → Io B) :
  carried first w p → (∀ a, carries (k a)) →
  carried first w (match p with (Ok a, w') => k a w' | (Err e, w') => (Err e, w') end).
Proof.
  intros (evs & up & down & out & H1 & H2 & H3 & H4 & H5 & H6 & H7 & H8) Hk.
  destruct p as [[a|e] w1]; cbn [fst snd is_ok] in *; [|by exists evs, up, down, out].
  destruct (H8 eq_refl) as [E1 E2]. destruct (Hk a w1 H7) as (evs' & up' & down' & out' & K1 & K2 & K3 & K4 & K5 & K6 & K7 & K8).
  exists (evs ++ evs')%list, (up ++ up')%list, (down ++ down')%list, (out ++ out')%list. cbn [app] in K3, K8.
  rewrite K1, H1, H2, K2, H4, K4, K5, H5, sent_of_app, E1, E2, !app_assoc.
  split_and!; [done..|by apply prefix_app|done|done|by apply prefix_app|done|].
  intros Hok. destruct (K8 Hok) as [-> ->]. done.
Qed.
Lemma carries_bind {A B} (m : Io A) (k : A → Io B) : carries m → (∀ a, carries (k a)) → carries (bind m k).
Proof. intros Hm Hk w Hu. unfold bind. apply carried_next; [by apply Hm|done]. Qed.
Lemma carries_ignored_flush : carries (outcome upstream_flush).
Proof.
  intros w. pose proof (carries_same (λ _, Ok (upstream_flush w).1) (λ w, (upstream_flush w).2)) as H.
  assert (∀ w, w_trace (upstream_flush w).2 = w_trace w ∧ w_client (upstream_flush w).2 = w_client w
               ∧ w_upstream (upstream_flush w).2 = w_upstream w) as Hsame.
  { intros [? [[[] ? ?]|] ? [|[]] ? ?]; done. }
  specialize (H Hsame w). unfold outcome. destruct (upstream_flush w) as [r w'] eqn:E. cbn in H. rewrite ?E in H. exact H.
Qed.
#[export] Hint Resolve carries_ret carries_fail carries_pop_option carries_flush carries_ignored_flush carries_bind : io.
Lemma buffer_pos : (0 < Z.to_nat BUFFER_BYTES)%nat.
Proof. unfold BUFFER_BYTES. lia. Qed.
(** One quantum forward: what the client sent goes upstream. *)
Lemma carried_write bytes w : is_some (w_upstream w) = true → carried bytes w (upstream_write bytes w).
Proof.
  intros Hu. destruct (emits_upstream_write bytes w) as (evs & E1 & _ & E3 & E4).
  assert (w_client (upstream_write bytes w).2 = w_client w ∧ is_some (w_upstream (upstream_write bytes w).2) = true
          ∧ upstream_stream (upstream_write bytes w).2 = upstream_stream w) as (C1 & C2 & C3).
  { unfold upstream_write, upstream_stream, sock_write. destruct (w_upstream w) as [u|]; [|done].
    destruct (u_sock u) as [i o [|[|]]]; by cbn. }
  exists evs, [], [], []. unfold client_out. rewrite C1, C3, !app_nil_r. split_and!; [done..|]. intros H. by rewrite (E4 H).
Qed.
Lemma carried_prepend {A} chunk s w (p : Result A IoKind * World) :
  stream (w_client w) = (chunk ++ stream s)%list → s_out s = client_out w → carried chunk (set_client s w) p → carried [] w p.
Proof.
  intros Hs Ho (evs & up & down & out & H1 & H2 & H3 & H4 & H5 & H6 & H7 & H8). exists evs, (chunk ++ up)%list, down, out.
  unfold client_out in *. cbn [set_client w_client w_trace] in *. change (upstream_stream (set_client s w)) with (upstream_stream w) in H4.
  rewrite Hs, H2, <- Ho, app_assoc. by split_and!.
Qed.
Lemma carries_forward (after : Io unit) (closed : Io (bool * bool)) :
  carries after → carries closed →
  carries (let* r := outcome (client_read (Z.to_nat BUFFER_BYTES)) in
           match r with
           | Ok [] => closed
           | Ok chunk => upstream_write chunk ;; after ;; ret (true, true)
           | Err e => if is_stall e then ret (false, true) else fail e
           end).
Proof.
  intros Hafter Hclosed w Hu. unfold bind at 1, outcome, client_read. pose proof (sock_read_cases _ (w_client w) buffer_pos) as H.
  destruct (sock_read (Z.to_nat BUFFER_BYTES) (w_client w)) as [[[|c l]|e] s].
  - destruct H as [H ->]. apply (carried_prepend [] (w_client w) w); [done..|]. by apply Hclosed.
  - destruct H as (_ & Hs & Ho & _). apply (carried_prepend (c :: l) s w); [exact Hs|exact Ho|]. unfold bind at 1.
    apply carried_next; [by apply carried_write|]. auto with io.
  - destruct H as (Hs & Ho & _). apply (carried_prepend [] s w); [done..|]. destruct (is_stall e); [by apply carries_ret|by apply carries_fail].
Qed.
(** One quantum back: what upstream sent goes to the client. *)
Lemma carries_reverse :
  carries (let* r := outcome (upstream_read (Z.to_nat BUFFER_BYTES)) in
           match r with
           | Ok [] => ret (false, false)
           | Ok chunk => client_write chunk ;; ret (true, true)
           | Err e => if is_stall e then ret (false, true) else fail e
           end).
Proof.
  intros w Hu. unfold bind at 1, outcome, upstream_read. destruct (w_upstream w) as [u|] eqn:Eu; [|done].
  pose proof (sock_read_cases _ (u_sock u) buffer_pos) as H.
  assert (upstream_stream w = stream (u_sock u)) as Es by by unfold upstream_stream; rewrite Eu.
  destruct (sock_read (Z.to_nat BUFFER_BYTES) (u_sock u)) as [[[|c l]|e] s].
  - destruct H as [H ->]. exists [], [], [], []. unfold client_out. cbn. rewrite !app_nil_r, Es. by split_and!.
  - destruct H as (_ & Hs & _). set (w1 := set_upstream _ w). unfold bind. pose proof (client_write_cases (c :: l) w1) as Hw.
    assert (w_trace (client_write (c :: l) w1).2 = w_trace w1 ∧ stream (w_client (client_write (c :: l) w1).2) = stream (w_client w1))
      as [T1 S1].
    { destruct (quiet_client_write (c :: l) w1) as [? _]. split; [done|]. eapply client_write_stream, surjective_pairing. }
    destruct (client_write (c :: l) w1) as [[[]|e] w2]; cbn [fst snd] in *; unfold w1, client_out in *; cbn in T1, S1, Hw.
    + destruct Hw as [Eo Ew]. exists [], [], (c :: l), (c :: l). unfold client_out, upstream_stream in *. cbn. rewrite T1, S1, Eo, Ew, Eu.
      cbn. rewrite app_nil_r. by split_and!.
    + destruct Hw as [[n Eo] Ew]. exists [], [], (c :: l), (take n (c :: l)). unfold client_out, upstream_stream in *. cbn [fst snd].
      rewrite T1, S1, Eo, Ew, Eu. cbn [u_sock is_some is_ok]. rewrite app_nil_r. split_and!; [done..|apply prefix_take|done|done].
  - destruct H as (Hs & _). destruct (is_stall e); exists [], [], [], []; unfold client_out, upstream_stream; cbn; rewrite !app_nil_r, Eu, Hs; by split_and!.
Qed.
Lemma carries_close_notify : carries close_notify.
Proof.
  intros w Hu. exists [CloseNotify], [], [], []. unfold client_out. cbn. rewrite !app_nil_r. by split_and!.
Qed.
#[export] Hint Resolve carries_close_notify : io.
Lemma carries_copy_forward opened :
  carries (copy_tunnel_quantum (client_read (Z.to_nat BUFFER_BYTES)) upstream_write opened).
Proof.
  unfold copy_tunnel_quantum. destruct opened; cbn [negb]; [|auto with io].
  exact (carries_forward (ret tt) (ret (false, false)) (carries_ret _) (carries_ret _)).
Qed.
Lemma carries_copy_reverse opened :
  carries (copy_tunnel_quantum (upstream_read (Z.to_nat BUFFER_BYTES)) client_write opened).
Proof. unfold copy_tunnel_quantum. destruct opened; cbn [negb]; [|auto with io]. exact carries_reverse. Qed.
Lemma carries_tls_forward opened : carries (tls_forward opened).
Proof. unfold tls_forward. destruct opened; cbn [negb]; [|auto with io]. apply carries_forward; auto with io. Qed.
Lemma carries_tunnel_loop turns co uo last : carries (tunnel_loop turns co uo last).
Proof.
  revert co uo last. induction turns as [|turn turns IH]; intros co uo last; cbn [tunnel_loop]; [auto with io|].
  destruct (tunnel_goes_on _ _ _ _); [|auto with io]. apply carries_bind; [apply carries_copy_forward|]. intros [? ?].
  apply carries_bind; [apply carries_copy_reverse|]. intros [? ?]. apply IH.
Qed.
Lemma carries_tls_tunnel_loop turns co uo last : carries (tls_tunnel_loop turns co uo last).
Proof.
  revert co uo last. induction turns as [|turn turns IH]; intros co uo last; cbn [tls_tunnel_loop]; [auto with io|].
  destruct (tunnel_goes_on _ _ _ _); [|auto with io]. apply carries_bind; [apply carries_tls_forward|]. intros [? ?]. cbv zeta.
  apply carries_bind; [apply carries_copy_reverse|]. intros [? ?]. apply IH.
Qed.

(** A turn in which the shutdown is seen *)
Definition sees_shutdown (turns : list Turn) : Prop := Exists (λ turn, t_running turn = false) turns.
Lemma bind_ends {A} (m : Io A) (k : A → Io bool) w : (∀ a w', (k a w').1 ≠ Ok false) → (bind m k w).1 ≠ Ok false.
Proof. intros Hk. unfold bind. destruct (m w) as [[a|e] w']; [apply Hk|done]. Qed.
Lemma goes_on_running turn co uo last : t_running turn = false → tunnel_goes_on turn co uo last = false.
Proof. unfold tunnel_goes_on. by intros ->. Qed.
Lemma tunnel_loop_ends turns co uo last w : sees_shutdown turns → (tunnel_loop turns co uo last w).1 ≠ Ok false.
Proof.
  intros H. revert co uo last w. induction H as [turn turns Ht|turn turns H IH]; intros co uo last w; cbn [tunnel_loop].
  - by rewrite goes_on_running.
  - destruct (tunnel_goes_on _ _ _ _); [|done]. apply bind_ends. intros [? ?] ?. apply bind_ends. intros [? ?] ?. apply IH.
Qed.
Lemma tls_tunnel_loop_ends turns co uo last w : sees_shutdown turns → (tls_tunnel_loop turns co uo last w).1 ≠ Ok false.
Proof.
  intros H. revert co uo last w. induction H as [turn turns Ht|turn turns H IH]; intros co uo last w; cbn [tls_tunnel_loop].
  - by rewrite goes_on_running.
  - destruct (tunnel_goes_on _ _ _ _); [|done]. apply bind_ends. intros [? ?] ?. apply bind_ends. intros [? ?] ?. apply IH.
Qed.

(** C21: A tunnel is a pipe.  In any interleaving of reads, writes, stalls and
    failures, what is sent upstream is what the client sent, in order and from
    the point where the tunnel starts, and what the client gets is what the
    upstream sent: all that was read, unless an operation failed, and a prefix
    of it then.  Once a turn sees the shutdown of the proxy the tunnel is over. *)
Theorem tunnel_faithful turns started w :
  is_some (w_upstream w) = true →
  carried [] w (tunnel_connection turns started w)
  ∧ (sees_shutdown turns → (tunnel_connection turns started w).1 ≠ Ok false).
Proof.
  intros Hu. unfold tunnel_connection. destruct (w_upstream w) as [u|] eqn:E; [|done]. rewrite <- E in Hu.
  assert (carries (tunnel_tls_proxy turns started)) as H1.
  { do 2 (apply carries_bind; [apply carries_pop_option|intros _]). apply carries_tls_tunnel_loop. }
  assert (carries (tunnel turns started)) as H2.
  { do 2 (apply carries_bind; [apply carries_pop_option|intros _]). apply carries_tunnel_loop. }
  destruct (u_tls u); (split; [auto|intros Hs; do 2 (apply bind_ends; intros ? ?)]).
  - by apply tls_tunnel_loop_ends.
  - by apply tunnel_loop_ends.
Qed.
Definition sample_pipe : World :=
  mkWorld (mkSock (arrive (bytes_of "ping") ++ [Fault TimedOut] ++ arrive (bytes_of "pong")) [] [])
    (Some (mkUpstream false (mkSocketAddr (V4 (mkV4 1 1 1 1)) 443) (mkSock (arrive (bytes_of "reply")) [] []))) [] [] 0 0 [].
Definition sample_turns : list Turn :=
  [mkTurn true 0 0 0; mkTurn true 1 1 1; mkTurn true 2 2 2; mkTurn true 3 3 3; mkTurn false 4 4 4].
Lemma tunnel_faithful_witness :
  text_of (sent_of (w_trace (tunnel_connection sample_turns 0 sample_pipe).2)) = "pingpong"
  ∧ carried [] sample_pipe (tunnel_connection sample_turns 0 sample_pipe)
  ∧ (tunnel_connection sample_turns 0 sample_pipe).1 ≠ Ok false.
Proof.
  split; [vm_compute; reflexivity|]. destruct (tunnel_faithful sample_turns 0 sample_pipe eq_refl) as [H1 H2].
  split; [exact H1|]. apply H2. do 4 apply Exists_cons_tl. apply Exists_cons_hd. reflexivity.
Defined.
