(* ===== verification/EgressServe.v ===== *)
(** The threads of the egress proxy ([rw-sandbox/src/proxy.rs]): the accepting
    threads [serve] and [serve_unix_relay], the connection threads they spawn,
    and the drop of the proxy.

    The state is what they share; a step is one operation on it by one thread,
    and the actions may interleave in any order.  Sockets answer as they like.
    The counters of connections do not wrap around. *)
From S2P Require Import Prelude.

Definition MAX_ACTIVE_CONNECTIONS : Z := 64.

(** * State *)

(** A thread spawned by [serve] holds a slot of [active]; one of the relay does
    not.  At the end of a thread its client is unregistered, then the slot is
    given back. *)
Inductive ThreadKind : Type := Connection | RelayConnection.
Inductive ThreadState : Type := Handling | Unregistered | Done.
#[global] Instance ThreadKind_eq_dec : EqDecision ThreadKind.
Proof. solve_decision. Defined.
#[global] Instance ThreadState_eq_dec : EqDecision ThreadState.
Proof. solve_decision. Defined.

(** Where [serve] is in its loop *)
Inductive ServePhase : Type :=
| SCheck | SReap | SAccept | SAdmit | SRegister | SInsert (id : Z) | SSpawn (id : Z) | SPush (id : Z)
| SUnregister (id : Z) | SRelease | SExited.
(** Where [serve_unix_relay] is in its loop *)
Inductive RelayPhase : Type :=
| RCheck | RReap | RAccept | RRegister | RInsert (id : Z) | RSpawn (id : Z) | RPush (id : Z) | RUnregister (id : Z) | RExited.
(** Where the drop of the proxy is *)
Inductive DropPhase : Type :=
| DIdle | DShutClients | DShutRelay | DJoinServe | DJoinRelay | DTake | DJoin (rest : list Z) | DFinished.

Record Proxy : Type := mkProxy {
  running : bool;
  stopped : bool;
  active : Z;
  next_connection : Z;
  workers : list Z;
  clients : gset Z;
  relay_clients : gset Z;
  threads : gmap Z (ThreadKind * ThreadState);
  serve_at : ServePhase;
  relay_at : RelayPhase;
  drop_at : DropPhase;
}.
Definition set_running b p := mkProxy b (stopped p) (active p) (next_connection p) (workers p) (clients p) (relay_clients p) (threads p) (serve_at p) (relay_at p) (drop_at p).
Definition set_stopped b p := mkProxy (running p) b (active p) (next_connection p) (workers p) (clients p) (relay_clients p) (threads p) (serve_at p) (relay_at p) (drop_at p).
Definition set_active n p := mkProxy (running p) (stopped p) n (next_connection p) (workers p) (clients p) (relay_clients p) (threads p) (serve_at p) (relay_at p) (drop_at p).
Definition set_next n p := mkProxy (running p) (stopped p) (active p) n (workers p) (clients p) (relay_clients p) (threads p) (serve_at p) (relay_at p) (drop_at p).
Definition set_workers l p := mkProxy (running p) (stopped p) (active p) (next_connection p) l (clients p) (relay_clients p) (threads p) (serve_at p) (relay_at p) (drop_at p).
Definition set_clients c p := mkProxy (running p) (stopped p) (active p) (next_connection p) (workers p) c (relay_clients p) (threads p) (serve_at p) (relay_at p) (drop_at p).
Definition set_relay_clients c p := mkProxy (running p) (stopped p) (active p) (next_connection p) (workers p) (clients p) c (threads p) (serve_at p) (relay_at p) (drop_at p).
Definition set_threads t p := mkProxy (running p) (stopped p) (active p) (next_connection p) (workers p) (clients p) (relay_clients p) t (serve_at p) (relay_at p) (drop_at p).
Definition set_serve s p := mkProxy (running p) (stopped p) (active p) (next_connection p) (workers p) (clients p) (relay_clients p) (threads p) s (relay_at p) (drop_at p).
Definition set_relay r p := mkProxy (running p) (stopped p) (active p) (next_connection p) (workers p) (clients p) (relay_clients p) (threads p) (serve_at p) r (drop_at p).
Definition set_drop d p := mkProxy (running p) (stopped p) (active p) (next_connection p) (workers p) (clients p) (relay_clients p) (threads p) (serve_at p) (relay_at p) d.

(** [start_with_upstream_and_pins] *)
Definition proxy_start : Proxy := mkProxy true false 0 0 [] ∅ ∅ ∅ SCheck RCheck DIdle.

(** * Reaping *)

Definition is_finished (p : Proxy) (id : Z) : bool := bool_decide (snd <$> threads p !! id = Some Done).
(** [Vec::swap_remove] *)
Definition swap_remove (index : nat) (ws : list Z) : list Z :=
  match last ws with
  | Some w => take (length ws - 1) (<[index := w]> ws)
  | None => []
  end.
(** The handles kept and those found finished; the second number of turns is
    at most the length of the list. *)
Fixpoint reap_loop (fuel index : nat) (finished : Z → bool) (ws taken : list Z) : list Z * list Z :=
  match fuel with
  | O => (ws, taken)
  | S fuel =>
      match ws !! index with
      | None => (ws, taken)
      | Some w =>
          if finished w then reap_loop fuel index finished (swap_remove index ws) (taken ++ [w])
          else reap_loop fuel (S index) finished ws taken
      end
  end.
(** Joining a finished thread does not wait. *)
Definition reap_finished_workers (p : Proxy) : Proxy :=
  set_workers (fst (reap_loop (length (workers p)) 0 (is_finished p) (workers p) [])) p.

(** * Steps *)

Inductive Accepted : Type := Client | Nobody | Broken.
Inductive Action : Type :=
| Serve (accepted : Accepted) (cloned spawned : bool)
| Relay (accepted : Accepted) (cloned spawned : bool)
| Thread (id : Z)
| Drop.

(** One operation of [serve]; the flags answer [accept], [try_clone] and
    [spawn] when the thread is at them. *)
Definition serve_step (accepted : Accepted) (cloned spawned : bool) (p : Proxy) : Proxy :=
  match serve_at p with
  | SCheck => set_serve (if running p then SReap else SExited) p
  | SReap => set_serve SAccept (reap_finished_workers p)
  | SAccept => set_serve (match accepted with Client => SAdmit | Nobody => SCheck | Broken => SExited end) p
  | SAdmit =>
      if active p <? MAX_ACTIVE_CONNECTIONS then set_serve SRegister (set_active (active p + 1) p)
      else set_serve SCheck p
  | SRegister => set_serve (SInsert (next_connection p)) (set_next (next_connection p + 1) p)
  | SInsert id => set_serve (SSpawn id) (if cloned then set_clients ({[id]} ∪ clients p) p else p)
  | SSpawn id =>
      if spawned then set_serve (SPush id) (set_threads (<[id := (Connection, Handling)]> (threads p)) p)
      else set_serve (SUnregister id) p
  | SPush id => set_serve SCheck (set_workers (workers p ++ [id]) p)
  | SUnregister id => set_serve SRelease (set_clients (clients p ∖ {[id]}) p)
  | SRelease => set_serve SCheck (set_active (active p - 1) p)
  | SExited => p
  end.
Definition relay_step (accepted : Accepted) (cloned spawned : bool) (p : Proxy) : Proxy :=
  match relay_at p with
  | RCheck => set_relay (if running p then RReap else RExited) p
  | RReap => set_relay RAccept (reap_finished_workers p)
  | RAccept => set_relay (match accepted with Client => RRegister | Nobody => RCheck | Broken => RExited end) p
  | RRegister => set_relay (RInsert (next_connection p)) (set_next (next_connection p + 1) p)
  | RInsert id => set_relay (RSpawn id) (if cloned then set_relay_clients ({[id]} ∪ relay_clients p) p else p)
  | RSpawn id =>
      if spawned then set_relay (RPush id) (set_threads (<[id := (RelayConnection, Handling)]> (threads p)) p)
      else set_relay (RUnregister id) p
  | RPush id => set_relay RCheck (set_workers (workers p ++ [id]) p)
  | RUnregister id => set_relay RCheck (set_relay_clients (relay_clients p ∖ {[id]}) p)
  | RExited => p
  end.
(** A connection thread ends its work, unregisters its client and gives its
    slot back. *)
Definition thread_step (id : Z) (p : Proxy) : option Proxy :=
  match threads p !! id with
  | Some (Connection, Handling) =>
      Some (set_threads (<[id := (Connection, Unregistered)]> (threads p)) (set_clients (clients p ∖ {[id]}) p))
  | Some (Connection, Unregistered) =>
      Some (set_threads (<[id := (Connection, Done)]> (threads p)) (set_active (active p - 1) p))
  | Some (RelayConnection, Handling) =>
      Some (set_threads (<[id := (RelayConnection, Unregistered)]> (threads p)) (set_relay_clients (relay_clients p ∖ {[id]}) p))
  | Some (RelayConnection, Unregistered) => Some (set_threads (<[id := (RelayConnection, Done)]> (threads p)) p)
  | Some (_, Done) | None => None
  end.
(** One operation of the drop; a join waits for its thread. *)
Definition drop_step (p : Proxy) : option Proxy :=
  match drop_at p with
  | DIdle => Some (set_drop DShutClients (set_running false p))
  | DShutClients => Some (set_drop DShutRelay p)
  | DShutRelay => Some (set_drop DJoinServe p)
  | DJoinServe => match serve_at p with SExited => Some (set_drop DJoinRelay p) | _ => None end
  | DJoinRelay => match relay_at p with RExited => Some (set_drop DTake p) | _ => None end
  | DTake => Some (set_drop (DJoin (workers p)) (set_workers [] p))
  | DJoin [] => Some (set_drop DFinished (set_stopped true p))
  | DJoin (id :: rest) => if is_finished p id then Some (set_drop (DJoin rest) p) else None
  | DFinished => None
  end.
Definition act (a : Action) (p : Proxy) : option Proxy :=
  match a with
  | Serve accepted cloned spawned => Some (serve_step accepted cloned spawned p)
  | Relay accepted cloned spawned => Some (relay_step accepted cloned spawned p)
  | Thread id => thread_step id p
  | Drop => drop_step p
  end.
Inductive reachable : Proxy → Prop :=
| reachable_start : reachable proxy_start
| reachable_act a p p' : reachable p → act a p = Some p' → reachable p'.

(** * Reaping keeps every thread that still runs *)

Lemma swap_remove_perm index ws w : ws !! index = Some w → w :: swap_remove index ws ≡ₚ ws.
Proof.
  intros Hw. unfold swap_remove. destruct ws as [|x ws _] using rev_ind; [done|]. rewrite last_snoc, length_app. cbn [length].
  replace (length ws + 1 - 1)%nat with (length ws) by lia. pose proof (lookup_lt_Some _ _ _ Hw) as Hl. rewrite length_app in Hl. cbn in Hl.
  destruct (decide (index = length ws)) as [->|Hne].
  - rewrite lookup_app_r, Nat.sub_diag in Hw by done. injection Hw as ->.
    rewrite insert_app_r_alt, take_app_length by done. apply Permutation_cons_append.
  - rewrite lookup_app_l in Hw by lia. rewrite insert_app_l by lia. rewrite take_app_length' by by rewrite length_insert.
    rewrite insert_take_drop by lia. transitivity (take index ws ++ w :: drop (S index) ws ++ [x]).
    + rewrite app_comm_cons, <- (Permutation_cons_append _ x), <- !Permutation_middle. apply perm_swap.
    + by rewrite app_comm_cons, app_assoc, (take_drop_middle ws index w Hw).
Qed.
Lemma reap_loop_perm fuel index finished ws taken :
  Forall (λ w, finished w = true) taken →
  let '(kept, out) := reap_loop fuel index finished ws taken in
  kept ++ out ≡ₚ ws ++ taken ∧ Forall (λ w, finished w = true) out.
Proof.
  revert index ws taken. induction fuel as [|fuel IH]; intros index ws taken Ht; cbn [reap_loop]; [done|].
  destruct (ws !! index) as [w|] eqn:Ew; [|done]. destruct (finished w) eqn:Ef; [|by apply IH].
  specialize (IH index (swap_remove index ws) (taken ++ [w])). destruct (reap_loop _ _ _ _ _) as [kept out].
  destruct IH as [H1 H2]; [by apply Forall_app; repeat constructor|]. split; [|done].
  rewrite H1. transitivity ((w :: swap_remove index ws) ++ taken); [|by rewrite (swap_remove_perm _ _ _ Ew)].
  by rewrite app_assoc, <- Permutation_cons_append.
Qed.
Lemma reap_keeps p id : id ∈ workers p → is_finished p id = false → id ∈ workers (reap_finished_workers p).
Proof.
  intros Hid Hf. unfold reap_finished_workers. cbn.
  pose proof (reap_loop_perm (length (workers p)) 0 (is_finished p) (workers p) [] ltac:(constructor)) as H.
  destruct (reap_loop _ _ _ _ _) as [kept out]. cbn. destruct H as [H1 H2]. rewrite app_nil_r in H1. rewrite <- H1 in Hid.
  apply elem_of_app in Hid as [?|Hid]; [done|]. rewrite Forall_forall in H2. specialize (H2 _ Hid). congruence.
Qed.
(** No finished handle is left behind. *)
Lemma reap_loop_complete fuel index finished ws taken :
  (length ws - index ≤ fuel)%nat → Forall (λ w, finished w = false) (take index ws) →
  Forall (λ w, finished w = false) (reap_loop fuel index finished ws taken).1.
Proof.
  revert index ws taken. induction fuel as [|fuel IH]; intros index ws taken Hl Hp; cbn [reap_loop].
  - cbn. by rewrite take_ge in Hp by lia.
  - destruct (ws !! index) as [w|] eqn:Ew.
    2: { cbn. apply lookup_ge_None in Ew. by rewrite take_ge in Hp by lia. }
    pose proof (lookup_lt_Some _ _ _ Ew) as Hi. destruct (finished w) eqn:Ef.
    + apply IH.
      * pose proof (Permutation_length (swap_remove_perm _ _ _ Ew)) as H. cbn in H. lia.
      * unfold swap_remove. destruct (last ws); [|by rewrite take_nil]. rewrite take_take, take_insert_ge by lia.
        eapply Forall_take with (n := (index `min` (length ws - 1))%nat) in Hp. rewrite take_take in Hp.
        by replace ((index `min` (length ws - 1)) `min` index)%nat with (index `min` (length ws - 1))%nat in Hp by lia.
    + apply IH; [lia|]. rewrite (take_S_r _ _ _ Ew). apply Forall_app. by repeat constructor.
Qed.

(** * The invariant *)

Definition is_live (t : ThreadKind * ThreadState) : bool :=
  bool_decide (t.1 = Connection) && bool_decide (t.2 ≠ Done).
(** The connection threads that have not given their slot back *)
Definition live (m : gmap Z (ThreadKind * ThreadState)) : Z :=
  Z.of_nat (size (filter (λ entry, is_live entry.2 = true) m)).
Lemma live_insert_new m id t : m !! id = None → live (<[id := t]> m) = live m + (if is_live t then 1 else 0).
Proof.
  intros Hm. unfold live. destruct (is_live t) eqn:E.
  - rewrite map_filter_insert_True by done. rewrite map_size_insert_None; [lia|]. rewrite map_lookup_filter_None. by left.
  - rewrite map_filter_insert_False by (cbn; congruence). rewrite map_filter_delete_not; [lia|]. intros y Hy. congruence.
Qed.
Lemma live_update m id s t :
  m !! id = Some s → live (<[id := t]> m) = live m - (if is_live s then 1 else 0) + (if is_live t then 1 else 0).
Proof.
  intros Hs. rewrite <- insert_delete_eq. rewrite live_insert_new by apply lookup_delete_eq. f_equal.
  enough (live m = live (delete id m) + (if is_live s then 1 else 0)) by lia.
  rewrite <- (insert_id m id s Hs) at 1. rewrite <- insert_delete_eq. by rewrite live_insert_new by apply lookup_delete_eq.
Qed.

(** [serve] holds a slot for a connection that has no thread yet. *)
Definition held (s : ServePhase) : Z :=
  match s with SRegister | SInsert _ | SSpawn _ | SUnregister _ | SRelease => 1 | _ => 0 end.
(** The identifier taken for such a connection *)
Definition serve_id (s : ServePhase) : option Z :=
  match s with SInsert id | SSpawn id | SUnregister id => Some id | _ => None end.
Definition relay_id (r : RelayPhase) : option Z :=
  match r with RInsert id | RSpawn id | RUnregister id => Some id | _ => None end.
(** The handle on its way into the list of workers *)
Definition serve_pushes (s : ServePhase) : option Z := match s with SPush id => Some id | _ => None end.
Definition relay_pushes (r : RelayPhase) : option Z := match r with RPush id => Some id | _ => None end.
Definition joining (d : DropPhase) : list Z := match d with DJoin rest => rest | _ => [] end.
(** How far the drop is *)
Definition drop_rank (d : DropPhase) : nat :=
  match d with
  | DIdle => 0 | DShutClients => 1 | DShutRelay => 2 | DJoinServe => 3 | DJoinRelay => 4 | DTake => 5 | DJoin _ => 6
  | DFinished => 7
  end%nat.

Record inv (p : Proxy) : Prop := mkInv {
  inv_active : active p = live (threads p) + held (serve_at p);
  inv_bound : active p ≤ MAX_ACTIVE_CONNECTIONS;
  inv_threads : ∀ id, is_Some (threads p !! id) → id < next_connection p;
  inv_serve_id : ∀ id, serve_id (serve_at p) = Some id → id < next_connection p ∧ threads p !! id = None;
  inv_relay_id : ∀ id, relay_id (relay_at p) = Some id → id < next_connection p ∧ threads p !! id = None;
  inv_distinct : ∀ id, serve_id (serve_at p) = Some id → relay_id (relay_at p) ≠ Some id;
  inv_workers : ∀ id k t, threads p !! id = Some (k, t) → t ≠ Done →
    id ∈ workers p ∨ serve_pushes (serve_at p) = Some id ∨ relay_pushes (relay_at p) = Some id ∨ id ∈ joining (drop_at p);
  inv_clients : ∀ id, id ∈ clients p → threads p !! id = Some (Connection, Handling) ∨ serve_id (serve_at p) = Some id;
  inv_relay_clients : ∀ id, id ∈ relay_clients p →
    threads p !! id = Some (RelayConnection, Handling) ∨ relay_id (relay_at p) = Some id;
  inv_serve_exited : (4 ≤ drop_rank (drop_at p))%nat → serve_at p = SExited;
  inv_relay_exited : (5 ≤ drop_rank (drop_at p))%nat → relay_at p = RExited;
  inv_taken : (6 ≤ drop_rank (drop_at p))%nat → workers p = [];
  inv_stopped : stopped p = true → drop_at p = DFinished;
}.

Lemma live_empty : live ∅ = 0.
Proof. unfold live. by rewrite map_filter_empty, map_size_empty. Qed.
Lemma inv_start : inv proxy_start.
Proof. split; cbn; try done; try set_solver; try lia. by intros id [? ?%lookup_empty_Some]. Qed.
(** [serve] has not exited before the drop joins it. *)
Lemma not_joined p : inv p → serve_at p ≠ SExited → (drop_rank (drop_at p) < 4)%nat.
Proof. intros Hi H. destruct (decide (4 ≤ drop_rank (drop_at p))%nat) as [Hge|]; [|lia]. by rewrite (inv_serve_exited p Hi Hge) in H. Qed.
Lemma not_joined_relay p : inv p → relay_at p ≠ RExited → (drop_rank (drop_at p) < 5)%nat.
Proof. intros Hi H. destruct (decide (5 ≤ drop_rank (drop_at p))%nat) as [Hge|]; [|lia]. by rewrite (inv_relay_exited p Hi Hge) in H. Qed.
Lemma live_reap p : threads (reap_finished_workers p) = threads p.
Proof. done. Qed.
Lemma finished_false p id k t : threads p !! id = Some (k, t) → t ≠ Done → is_finished p id = false.
Proof. intros H Ht. unfold is_finished. rewrite H. cbn. rewrite bool_decide_false; [done|]. by intros [= ->]. Qed.

Ltac proxy_cases :=
  intros; cbn in *;
  repeat match goal with
  | H : Some _ = Some _ |- _ => injection H as H; subst
  | H : None = Some _ |- _ => discriminate H
  end.
Lemma inv_serve accepted cloned spawned p : inv p → inv (serve_step accepted cloned spawned p).
Proof.
  intros Hi. pose proof (not_joined p Hi) as Hrank. destruct Hi as [H1 H2 H3 H4 H5 H6 H7 H8 H9 H10 H11 H12 H13].
  unfold serve_step. destruct (serve_at p) as [| | | | |id|id|id|id| |] eqn:Ep;
    try (specialize (Hrank ltac:(discriminate))).
  - destruct (running p); (split; proxy_cases; try rewrite Ep in *; try done; try lia; eauto).
  - assert (∀ id k t, threads p !! id = Some (k, t) → t ≠ Done → id ∈ workers p → id ∈ workers (reap_finished_workers p)) as Hr.
    { intros. eapply reap_keeps; [done|]. by eapply finished_false. }
    split; proxy_cases; try done; try lia; eauto. destruct (H7 _ _ _ H H0) as [?|?]; [|by right]. left. by eapply Hr.
  - destruct accepted; (split; proxy_cases; try done; try lia; eauto).
  - destruct (Z.ltb_spec (active p) MAX_ACTIVE_CONNECTIONS); (split; proxy_cases; try done; try lia; eauto).
  - assert (threads p !! next_connection p = None) as Hfresh.
    { apply eq_None_not_Some. intros Hs%H3. lia. }
    split; proxy_cases; try done; try lia; eauto.
    + specialize (H3 _ H). lia.
    + split; [lia|done].
    + destruct (H5 _ H). split; [lia|done].
    + intros Hr. destruct (H5 _ Hr). lia.
    + destruct (H8 _ H); [by left|done].
  - destruct cloned; (split; proxy_cases; try done; try lia; eauto). set_solver.
  - destruct (H4 id eq_refl) as [Hn Hfresh].
    destruct spawned; (split; proxy_cases; try done; try lia; eauto).
    + rewrite live_insert_new by done. change (is_live (Connection, Handling)) with true. cbn iota. lia.
    + apply lookup_insert_is_Some in H as [<-|[_ H]]; eauto.
    + destruct (H5 _ H). split; [done|]. rewrite lookup_insert_ne; [done|]. intros ->. by eapply H6.
    + apply lookup_insert_Some in H as [[<- _]|[_ H]]; [by right; left|]. destruct (H7 _ _ _ H H0) as [?|[?|?]]; [by left|done|auto].
    + left. destruct (H8 _ H) as [Ht|Ht]; [rewrite lookup_insert_ne; [done|congruence]|]. injection Ht as ->. apply lookup_insert_eq.
    + destruct (H9 _ H) as [Ht|Ht]; [left; rewrite lookup_insert_ne; [done|congruence]|by right].
  - split; proxy_cases; try done; try lia; eauto.
    rewrite elem_of_app, list_elem_of_singleton. destruct (H7 _ _ _ H H0) as [?|[[= ->]|?]]; [by left; left|by left; right|by right; right].
  - split; proxy_cases; try done; try lia; eauto.
    apply elem_of_difference in H as [Hc Hn]. destruct (H8 _ Hc) as [?|[= ->]]; [by left|set_solver].
  - split; proxy_cases; try done; try lia; eauto.
  - split; proxy_cases; try rewrite Ep in *; try done; try lia; eauto.
Qed.
Lemma inv_relay accepted cloned spawned p : inv p → inv (relay_step accepted cloned spawned p).
Proof.
  intros Hi. pose proof (not_joined_relay p Hi) as Hrank. destruct Hi as [H1 H2 H3 H4 H5 H6 H7 H8 H9 H10 H11 H12 H13].
  unfold relay_step. destruct (relay_at p) as [| | | |id|id|id|id|] eqn:Ep;
    try (specialize (Hrank ltac:(discriminate))).
  - destruct (running p); (split; proxy_cases; try rewrite Ep in *; try done; try lia; eauto).
  - assert (∀ id k t, threads p !! id = Some (k, t) → t ≠ Done → id ∈ workers p → id ∈ workers (reap_finished_workers p)) as Hr.
    { intros. eapply reap_keeps; [done|]. by eapply finished_false. }
    split; proxy_cases; try done; try lia; eauto. destruct (H7 _ _ _ H H0) as [?|?]; [|by right]. left. by eapply Hr.
  - destruct accepted; (split; proxy_cases; try done; try lia; eauto).
  - assert (threads p !! next_connection p = None) as Hfresh.
    { apply eq_None_not_Some. intros Hs%H3. lia. }
    split; proxy_cases; try done; try lia; eauto.
    + specialize (H3 _ H). lia.
    + destruct (H4 _ H). split; [lia|done].
    + split; [lia|done].
    + intros [= <-]. destruct (H4 _ H). lia.
    + destruct (H9 _ H); [by left|done].
  - destruct cloned; (split; proxy_cases; try done; try lia; eauto). set_solver.
  - destruct (H5 id eq_refl) as [Hn Hfresh].
    destruct spawned; (split; proxy_cases; try done; try lia; eauto).
    + rewrite live_insert_new by done. change (is_live (RelayConnection, Handling)) with false. cbn iota. lia.
    + apply lookup_insert_is_Some in H as [<-|[_ H]]; eauto.
    + destruct (H4 _ H). split; [done|]. rewrite lookup_insert_ne; [done|]. intros ->. by eapply H6.
    + apply lookup_insert_Some in H as [[<- _]|[_ H]]; [by right; right; left|].
      destruct (H7 _ _ _ H H0) as [?|[?|[?|?]]]; [by left|by right; left|done|by do 3 right].
    + destruct (H8 _ H) as [Ht|Ht]; [left; rewrite lookup_insert_ne; [done|congruence]|by right].
    + left. destruct (H9 _ H) as [Ht|Ht]; [rewrite lookup_insert_ne; [done|congruence]|]. injection Ht as ->. apply lookup_insert_eq.
  - split; proxy_cases; try done; try lia; eauto.
    rewrite elem_of_app, list_elem_of_singleton. destruct (H7 _ _ _ H H0) as [?|[?|[[= ->]|?]]]; auto.
  - split; proxy_cases; try done; try lia; eauto.
    apply elem_of_difference in H as [Hc Hn]. destruct (H9 _ Hc) as [?|[= ->]]; [by left|set_solver].
  - split; proxy_cases; try rewrite Ep in *; try done; try lia; eauto.
Qed.
(** A thread moves on: the bookkeeping of every other thread is unchanged. *)
Lemma inv_thread_update p id k t t' n c rc :
  inv p → threads p !! id = Some (k, t) → t ≠ Done →
  n = active p - (if is_live (k, t) then 1 else 0) + (if is_live (k, t') then 1 else 0) → n ≤ MAX_ACTIVE_CONNECTIONS →
  (∀ i, i ∈ c → i ∈ clients p ∧ (i = id → (k, t') = (Connection, Handling))) →
  (∀ i, i ∈ rc → i ∈ relay_clients p ∧ (i = id → (k, t') = (RelayConnection, Handling))) →
  inv (set_threads (<[id := (k, t')]> (threads p)) (set_active n (set_clients c (set_relay_clients rc p)))).
Proof.
  intros [H1 H2 H3 H4 H5 H6 H7 H8 H9 H10 H11 H12 H13] Hid Ht -> Hn Hc Hrc.
  assert (∀ i, threads p !! i = None → <[id := (k, t')]> (threads p) !! i = None) as Hnone.
  { intros i Hi. rewrite lookup_insert_ne; [done|]. congruence. }
  split; cbn; try done.
  - rewrite (live_update _ _ _ _ Hid). lia.
  - intros i [<-|[_ H]]%lookup_insert_is_Some; eauto.
  - intros i Hi. destruct (H4 i Hi). auto.
  - intros i Hi. destruct (H5 i Hi). auto.
  - intros i k0 t0 [[<- [= <- <-]]|[_ H]]%lookup_insert_Some Hd; eauto.
  - intros i [Hi He]%Hc. destruct (decide (i = id)) as [->|Hne]; [left; by rewrite lookup_insert_eq, He|].
    rewrite lookup_insert_ne by done. auto.
  - intros i [Hi He]%Hrc. destruct (decide (i = id)) as [->|Hne]; [left; by rewrite lookup_insert_eq, He|].
    rewrite lookup_insert_ne by done. auto.
Qed.
(** A registered client belongs to a thread that still handles it. *)
Lemma other_client p id s (Q : Prop) :
  inv p → threads p !! id = Some s → s ≠ (Connection, Handling) → ∀ i, i ∈ clients p → i ∈ clients p ∧ (i = id → Q).
Proof.
  intros Hi Hs Hne i H. split; [done|]. intros ->. destruct (inv_clients p Hi _ H) as [H0|H0]; [congruence|].
  destruct (inv_serve_id p Hi _ H0). congruence.
Qed.
Lemma other_relay_client p id s (Q : Prop) :
  inv p → threads p !! id = Some s → s ≠ (RelayConnection, Handling) →
  ∀ i, i ∈ relay_clients p → i ∈ relay_clients p ∧ (i = id → Q).
Proof.
  intros Hi Hs Hne i H. split; [done|]. intros ->. destruct (inv_relay_clients p Hi _ H) as [H0|H0]; [congruence|].
  destruct (inv_relay_id p Hi _ H0). congruence.
Qed.
Lemma inv_thread id p p' : inv p → thread_step id p = Some p' → inv p'.
Proof.
  intros Hi. unfold thread_step. destruct (threads p !! id) as [[[] []]|] eqn:E; try done; intros [= <-].
  - apply (inv_thread_update p id Connection Handling Unregistered (active p) (clients p ∖ {[id]}) (relay_clients p) Hi E); try done.
    + change (is_live (Connection, Handling)) with true. change (is_live (Connection, Unregistered)) with true. cbn iota. lia.
    + apply (inv_bound p Hi).
    + set_solver.
    + by eapply other_relay_client.
  - apply (inv_thread_update p id Connection Unregistered Done (active p - 1) (clients p) (relay_clients p) Hi E); try done.
    + change (is_live (Connection, Unregistered)) with true. change (is_live (Connection, Done)) with false. cbn iota. lia.
    + pose proof (inv_bound p Hi). lia.
    + by eapply other_client.
    + by eapply other_relay_client.
  - apply (inv_thread_update p id RelayConnection Handling Unregistered (active p) (clients p) (relay_clients p ∖ {[id]}) Hi E); try done.
    + change (is_live (RelayConnection, Handling)) with false. change (is_live (RelayConnection, Unregistered)) with false. cbn iota. lia.
    + apply (inv_bound p Hi).
    + by eapply other_client.
    + set_solver.
  - apply (inv_thread_update p id RelayConnection Unregistered Done (active p) (clients p) (relay_clients p) Hi E); try done.
    + change (is_live (RelayConnection, Unregistered)) with false. change (is_live (RelayConnection, Done)) with false. cbn iota. lia.
    + apply (inv_bound p Hi).
    + by eapply other_client.
    + by eapply other_relay_client.
Qed.
Lemma inv_drop_step p p' : inv p → drop_step p = Some p' → inv p'.
Proof.
  intros [H1 H2 H3 H4 H5 H6 H7 H8 H9 H10 H11 H12 H13]. unfold drop_step.
  destruct (drop_at p) as [| | | | | |[|id rest]|] eqn:Ed; cbn [drop_rank joining] in *.
  1,2,3: intros [= <-]; split; cbn; try done; try lia; intros Hs; by specialize (H13 Hs).
  - destruct (serve_at p) eqn:Es; try done. intros [= <-]. split; cbn; try rewrite Es; try done; try lia; intros Hs; by specialize (H13 Hs).
  - destruct (relay_at p) eqn:Er; try done. intros [= <-]. split; cbn; try rewrite Er; try done; try lia; try solve [intros _; auto with lia]; intros Hs; by specialize (H13 Hs).
  - intros [= <-]. split; cbn; try done; try lia; try solve [intros _; auto with lia]; [|intros Hs; by specialize (H13 Hs)].
    intros i k t Hid Ht. destruct (H7 _ _ _ Hid Ht) as [?|[?|[?|?]]]; [by do 3 right|by right; left|by right; right; left|set_solver].
  - intros [= <-]. split; cbn; try done; try solve [intros _; auto with lia].
  - destruct (is_finished p id) eqn:Ef; [|done]. intros [= <-]. split; cbn; try done; try solve [intros _; auto with lia].
    + intros i k t Hid Ht. destruct (H7 _ _ _ Hid Ht) as [?|[?|[?|Hr]]]; [by left|by right; left|by right; right; left|].
      apply elem_of_cons in Hr as [->|Hr]; [|by do 3 right]. by rewrite (finished_false p id k t Hid Ht) in Ef.
    + intros Hs. by specialize (H13 Hs).
  - done.
Qed.
Lemma proxy_reachable_inv p : reachable p → inv p.
Proof.
  induction 1 as [|a p p' _ IH H]; [apply inv_start|]. destruct a as [x c s|x c s|id|]; cbn in H.
  - injection H as <-. by apply inv_serve.
  - injection H as <-. by apply inv_relay.
  - by eapply inv_thread.
  - by eapply inv_drop_step.
Qed.

(** C20: The threads of the proxy are bounded and accounted for.  In every
    interleaving of the accepting threads, the connections and the drop, at
    most 64 proxied connections hold a slot, and [active] counts exactly the
    connection threads that have not given theirs back and the one about to be
    spawned.  The proxy reports that it has stopped only when both accepting
    threads have exited, every thread that was ever spawned is done, no slot is
    taken and no client is registered. *)
Theorem proxy_threads_accounted p :
  reachable p →
  0 ≤ live (threads p) ≤ active p ∧ active p ≤ MAX_ACTIVE_CONNECTIONS
  ∧ active p = live (threads p) + held (serve_at p)
  ∧ (stopped p = true →
     serve_at p = SExited ∧ relay_at p = RExited ∧ (∀ id k t, threads p !! id = Some (k, t) → t = Done)
     ∧ active p = 0 ∧ clients p = ∅ ∧ relay_clients p = ∅).
Proof.
  intros Hi%proxy_reachable_inv. pose proof (inv_active p Hi) as Ha. pose proof (inv_bound p Hi) as Hb.
  assert (0 ≤ held (serve_at p)) by (destruct (serve_at p); cbn; lia). assert (0 ≤ live (threads p)) by (unfold live; lia).
  split_and!; [done|lia|done|done|]. intros Hs. pose proof (inv_stopped p Hi Hs) as Hd.
  assert (serve_at p = SExited) as Hse by (apply (inv_serve_exited p Hi); rewrite Hd; cbn; lia).
  assert (relay_at p = RExited) as Hre by (apply (inv_relay_exited p Hi); rewrite Hd; cbn; lia).
  assert (workers p = []) as Hw by (apply (inv_taken p Hi); rewrite Hd; cbn; lia).
  assert (∀ id k t, threads p !! id = Some (k, t) → t = Done) as Hdone.
  { intros id k t Hid. destruct (decide (t = Done)) as [|Hne]; [done|].
    pose proof (inv_workers p Hi _ _ _ Hid Hne) as Hx. rewrite Hw, Hse, Hre, Hd in Hx. cbn in Hx. set_solver. }
  split_and!; [done..| | |].
  - rewrite Ha, Hse. cbn. unfold live. rewrite Z.add_0_r. change 0 with (Z.of_nat 0). f_equal. apply map_size_empty_iff.
    apply map_eq. intros id. rewrite lookup_empty, map_lookup_filter_None. right. intros [k t] Hid. cbn.
    rewrite (Hdone _ _ _ Hid). destruct k; vm_compute; congruence.
  - apply elem_of_equiv_empty_L. intros id Hc. pose proof (inv_clients p Hi _ Hc) as Hx. rewrite Hse in Hx.
    destruct Hx as [Hx|Hx]; [|done]. by specialize (Hdone _ _ _ Hx).
  - apply elem_of_equiv_empty_L. intros id Hc. pose proof (inv_relay_clients p Hi _ Hc) as Hx. rewrite Hre in Hx.
    destruct Hx as [Hx|Hx]; [|done]. by specialize (Hdone _ _ _ Hx).
Qed.

(** Two connections, one refused spawn and a drop in between *)
Fixpoint run (actions : list Action) (p : Proxy) : option Proxy :=
  match actions with [] => Some p | a :: rest => act a p ≫= run rest end.
Lemma run_reachable actions p p' : reachable p → run actions p = Some p' → reachable p'.
Proof.
  revert p. induction actions as [|a rest IH]; intros p Hp; cbn; [by intros [= <-]|].
  destruct (act a p) as [q|] eqn:E; cbn; [|done]. apply IH. by eapply reachable_act.
Qed.
Definition serve_one (spawned : bool) : list Action := repeat (Serve Client true spawned) 8.
Definition sample_actions : list Action :=
  serve_one true ++ serve_one false ++ [Serve Client true true] ++ repeat (Relay Client true true) 7 ++ [Drop; Thread 0; Drop; Drop]
  ++ [Serve Nobody true true; Serve Nobody true true; Serve Nobody true true; Relay Nobody true true; Drop; Drop; Drop; Thread 0; Drop; Thread 2; Thread 2; Drop; Drop].
Definition sample_end : Proxy := default proxy_start (run sample_actions proxy_start).
Lemma proxy_threads_accounted_witness :
  reachable sample_end ∧ stopped sample_end = true ∧ size (threads sample_end) = 2%nat
  ∧ serve_at sample_end = SExited ∧ relay_at sample_end = RExited
  ∧ (∀ id k t, threads sample_end !! id = Some (k, t) → t = Done) ∧ active sample_end = 0
  ∧ clients sample_end = ∅ ∧ relay_clients sample_end = ∅.
Proof.
  assert (reachable sample_end) as H.
  { apply (run_reachable sample_actions proxy_start); [constructor|]. vm_compute. reflexivity. }
  assert (stopped sample_end = true) as Hs by (vm_compute; reflexivity).
  destruct (proxy_threads_accounted sample_end H) as (_ & _ & _ & Hstop).
  split; [exact H|]. split; [exact Hs|]. split; [vm_compute; reflexivity|]. exact (Hstop Hs).
Defined.
